(* ===== verification/_CoqProject ===== *)
-Q . S2P
Prelude.v
Text.v
LineRange.v
AuthorshipLog.v
NoteFormat.v
ConflictResolution.v
ImaraDiff.v
Attribution.v
LineEndings.v
HunkShift.v
AttributionMerge.v
Transform.v
LineMeta.v
Tokenizer.v
DiffCompute.v
MoveDetection.v
WorkingLog.v
LineProjection.v
Tracker.v
PatchParse.v
Ignore.v
Stats.v
Carryover.v
HashIter.v
DiffTree.v
Attestations.v
CharMerge.v
VirtualAttributions.v
WorkingState.v
CommitSplit.v
CommitNote.v
CommitNoteProps.v
RangeDiff.v
Rewrite.v
RewriteProps.v
RewriteEvents.v
CliParser.v
CommandClass.v
Domain.v
Analyzers.v
Reducer.v
FamilyActor.v
Coordinator.v
StateResult.v
Disk.v
FastReader.v
Reflog.v
RefArgs.v
RefMatch.v
CursorState.v
Enrich.v
EnrichCommand.v
CursorTotal.v
CursorFacts.v
CursorExact.v
GitBackend.v
TraceNormalizer.v
CherryPick.v
Revert.v
RepoStorage.v
RepoStorageProps.v
ResetLog.v
StashLog.v
RecoverySources.v
Recovery.v
