(* ===== verification/Prelude.v ===== *)
(** * Verification of git-ai's attribution core and daemon: overview and prelude

    git-ai records which lines of a repository were written by an agent, by a
    known human or by nobody it knows.  This library models the parts of it
    that decide that, src/src/authorship/, and the parts of the daemon that
    find out what a git command did, src/src/daemon/, and proves them correct.

    ** The program and how its parts interact

    An edit is reported as a checkpoint.  The tracker compares the previous
    and the new content of a file, carries the byte attributions of the old
    content to the new one and gives the rest to the author of the checkpoint
    (attribution_tracker.rs, imara_diff_utils.rs, move_detection.rs).  Byte
    attributions are projected to lines, and on commit the lines are written
    to a note: an attestation section of files, keys and line ranges, and a
    JSON metadata section (authorship_log.rs,
    authorship_log_serialization.rs).  When commits are rewritten the notes
    are shifted through the hunks of a diff (hunk_shift.rs), and the notes of
    a conflict resolution are merged into the shifted ones
    (conflict_resolution.rs).  The lookup of a line reads a note again.

    Git commands reach the daemon as the trace events of git: the normalizer
    collects the events of a command into one record of its words, times and
    exit codes (daemon/trace_normalizer.rs), asking git for directories and
    aliases (daemon/git_backend.rs).  A command line is parsed and classified (git/cli_parser.rs,
    git/command_classification.rs); the coordinator hands the command to the
    actor of its repository (daemon/coordinator.rs, daemon/family_actor.rs),
    whose cursor reads in the reflogs which refs the command moved
    (daemon/ref_cursor.rs, git/fast_reader.rs, git/repo_state.rs); the
    analyzers make events of the moves (daemon/analyzers/) and the reducer the
    next state of the repository (daemon/reducer.rs).  The events are what
    starts the shifting of notes.

    Checkpoints and what a commit leaves uncommitted are kept in a working log
    per commit (git/repo_storage.rs), which follows HEAD: it is renamed, rebuilt
    after a reset and set aside with a stash (rewrite_reset.rs,
    rewrite_stash.rs).  Lines of a commit that the note leaves to nobody are
    recovered from shell calls and session events near the times of the file, or
    from an agent the commit itself names (attribution_recovery.rs).

    ** The files, in dependency order

    - Prelude: notations, outcomes with panics, u32 arithmetic, stable sorting,
      the [str] functions of the standard library on bytes, and lemmas.
    - Text: UTF-8 characters, white space, lines, numbers.
    - LineRange: [LineRange] of authorship_log.rs.
    - AuthorshipLog: the records of authorship_log.rs, the log of
      authorship_log_serialization.rs, its keys, the lookup of a line.
    - NoteFormat: writer and reader of the note format.
    - ConflictResolution: conflict_resolution.rs.
    - ImaraDiff: imara_diff_utils.rs; the class [DiffEngine] is what it relies
      on from the imara-diff crate: valid hunks.  [CoarseEngine] is an instance.
    - Attribution, LineEndings: the attribution types and the mapping of
      offsets across CRLF normalization (attribution_tracker.rs, as the rest).
    - HunkShift: hunk_shift.rs.
    - AttributionMerge: order, deduplication and coalescing of attributions and
      byte ranges.  [owned] is the reference: who owns a byte.
    - Transform: the catalogue of a byte diff and the transformation of
      attributions through it.  [origin] is the reference: a byte of the new
      text is kept from the old one or inserted.
    - LineMeta, Tokenizer: line tables, character boundaries, the tokenizer.
    - DiffCompute: from two texts to a byte diff.
    - MoveDetection: move_detection.rs, and the byte ranges the tracker makes
      of the moves.
    - WorkingLog: the records of working_log.rs.
    - LineProjection: byte attributions to line attributions and back.
      [line_owner] is the reference: the author of one line on its own.
    - Tracker: the update of a file with all phases, and the attribution of
      what nobody owns.
    - PatchParse: the reader of unified patches (commands/diff.rs, utils.rs) and
      [PatchText], the patches git writes.
    - Ignore, Stats: ignore patterns and the statistics of a commit (ignore.rs,
      stats.rs).
    - Carryover: the three-way merge that carries uncommitted edits over a
      commit (virtual_attribution.rs, as all files up to CommitNoteProps).
    - HashIter: [HashOrder], the order in which a hash map is visited.
    - DiffTree: the readers of git diff-tree (rewrite.rs).
    - Attestations, CharMerge, VirtualAttributions, WorkingState: attestations
      of line attributions, the merge of two attribution states, the state with
      its logs, the loading of a working log.
    - CommitSplit, CommitNote, CommitNoteProps: the split of the working state
      at a commit into the note of the commit and the next INITIAL file.
    - RangeDiff: which commit replaces which after a rewrite: the reader of git
      range-diff and the matching of merges (rewrite.rs, as the rest).
    - Rewrite, RewriteProps: the shifting of notes along mappings of commits,
      its streaming in chunks.  [RewriteSpec] is the reference: the note of a
      target by the patches between trees.
    - RewriteEvents: the handling of rewrite events, squash merges included.
    - CliParser, CommandClass: git/cli_parser.rs and
      git/command_classification.rs.
    - Domain: commands, ref changes, events and states (daemon/domain.rs).
    - Analyzers, Reducer: daemon/analyzers/ and daemon/reducer.rs.
    - FamilyActor, Coordinator: the tasks of the daemon as step relations over
      their channels.  The class [FamilyActor.RefCursor] is what the actor asks
      of a cursor.
    - StateResult: the monad of computations over a state that may fail.
    - Disk: paths and files of the standard library; the class [Disk] is the
      state of the file system during one command.
    - FastReader: git/fast_reader.rs and git/repo_state.rs.
    - Reflog, RefArgs, RefMatch, CursorState, Enrich, EnrichCommand:
      daemon/ref_cursor.rs: the reader of reflogs, the words of commands, what
      an entry must look like, the cursor with its state and error monad, the
      enrichment of commands.  [EnrichCommand.logs_cursor] is the instance of
      the class of FamilyActor.
    - CursorTotal, CursorFacts, CursorExact: that no command makes the cursor
      panic, what it keeps, and exactly which entries it reports.
      [CursorLog.candidates] and [CursorLog.picked] are the references.
    - GitBackend: daemon/git_backend.rs; the class [GitBackend] is its trait.
      [AliasRef.shared_step] interleaves lookups in the cache of aliases and the
      threads that refresh it, one lock at a time.
    - TraceNormalizer: daemon/trace_normalizer.rs; the class [Json] is what it
      reads of a JSON value.
    - CherryPick, Revert: rewrite_cherry_pick.rs and rewrite_revert.rs; git's
      log, patch ids and diffs are records of the model.
    - RepoStorage, RepoStorageProps: git/repo_storage.rs; the class
      [RepoStorage.Environment] says which system call fails, which stats fail,
      which [Path::exists] turns into no, what a removal that fails leaves and
      how much a write that fails has written.  [StatsAnswer] says that no stat
      fails.  [StorageRef] has the histories of operations and what a log says
      when it is read.
    - ResetLog: rewrite_reset.rs: the notes of undone commits become the INITIAL
      file of the new tip.
    - StashLog: rewrite_stash.rs: the log of a stash, taken out and put back.
      [StashRef] says which part of a log a stash takes and which it leaves.
    - RecoverySources, Recovery: attribution_recovery.rs: the evidence and its
      order, and the recovery that goes by it.

    A file has a Module of its name with the definitions, a Module ...Facts
    with the lemmas and a Module ...Props with the properties and their
    witnesses.  Definitions keep the names of the code; a loop is a Fixpoint
    named after its function.

    ** What the theorems show

    - Tracker: for all valid texts an update returns a result; at an agent's
      checkpoint kept bytes keep exactly their owners and inserted bytes are
      exactly the agent's, whatever the line ends; at any checkpoint no author
      is invented and every byte is owned as the diff and the moves say.  The
      fill of unattributed text covers exactly what nobody met.
    - Phases: the byte diff reconstructs both texts and never slices out of
      range or inside a character; tokens tile the text; detected moves are
      equal runs of lines, used once, and long enough runs are found; the
      cursors of the transformation compute the ownership the reference gives.
    - Lines: the sweep equals the choice line by line and its result is the
      canonical list; lines survive the way to bytes and back.
    - Notes: writing and reading give the log back; ranges behave as sets of
      lines at the u32 bounds; shifting through hunks follows the text; a
      resolution adds exactly the uncovered lines; the lookup answers with the
      last covering entry.
    - Commits: the note attests exactly the committed lines the projections
      give to an author, the next INITIAL file the uncommitted ones; the working
      state is the last word of each file; the merge of two states prefers the
      first; conflict-free edits are carried as a three-way merge does.
    - Rewrites: a patch is read back from what git prints; the rows of a
      range-diff read back as mappings; shifted notes are what the patches
      between the trees say, in bounded chunks as in one batch; cherry-picks
      are paired by their patches, then in order, each commit once; the note of
      a revert attests the lines it brings back.
    - Storage: whatever system calls fail in whatever history, the logs stay
      readable but for one that is being taken apart, and a checkpoint is
      published once.  When no stat fails, renaming a log to another loses
      nothing of either, a stash is saved before the log is cleaned, is still
      there when restoring it fails, and brings back the lines it took.  Pruning
      keeps the newest attributions of a file; a reset gives each uncommitted
      line to the last undone note that has it.
    - Recovery: lines are attributed only by evidence, only where nobody has
      them, and whatever fails.  With
      both databases busy no session is made up.
    - Daemon: a family actor is where its messages one by one lead; with the
      cursor over the reflogs it answers each request once, unless a command is
      named in upper case or it is shut down; families do not interfere; a
      command sets each ref to its last change; the events of a history command
      state moves the refs show, from the first to the last; a command line
      survives parsing; read-only invocations name no mutating option.
    - Cursor: a reflog reads back as written, forwards or backwards; the anchor
      of a log is the record that ended at its position; taking an entry leaves
      exactly the others; a commit reports the move its message names and the
      equal moves of exactly the branches that have it; update-ref --stdin
      reports every move ahead once.
    - Traces: a command is collected from its start to its end and reported
      once, also when its end comes before its start; an alias is expanded to
      an end; its words are read as they were quoted; as long as lookups do not
      overlap, one thread refreshes the aliases of a family at a time.
    - Errors: the inputs on which the reader panics or rejects what the writer
      wrote, the note path that comes back as another one, the moved block
      whose second copy loses its owner, quoted paths and subjects that the
      readers of git's output take for something else; the words of git stash
      and git tag that the daemon reads as another command; the merge of logs
      that an interruption repeats, the log that a removal leaves unreadable and
      the logs and stashes that a failed stat loses; the lines a stash gives away
      or forgets on another commit; overlapping lookups that both start a
      refresh, and a refresh that panics and is the last.

    ** Modelling choices

    Strings are lists of bytes; a [&str] is one with [is_utf8].  [usize] is
    [nat], without overflow, since offsets are bounded by the size of a file
    in memory; [u32] lines are [Z] with their wrap-around; [u128] timestamps
    are [N].  A panic or an error is a value ([outcome], or [None] where only
    a panic is possible).  A HashMap is a [gmap].  Loops with an index have
    fuel equal to the length they walk: every turn of [chars],
    [tokenize_loop] and [scan_group] consumes at least one element, and the
    comparison of two texts one byte of the first, so the fuel never runs out;
    the theorems on these functions hold for the fuel the definitions pass.

    Parameters, for code that is not in the repository: the diff engine, the
    JSON codec, SHA-256, Unicode normalization and the tables of alphabetic
    and numeric characters, the hasher of the move detection, the notes of
    other commits, the clock and the random generator, the databases of shell
    calls and of metrics, the reader of dates, git itself and its configuration
    (records of their answers).

    ** What is not modelled

    The paths of the storage on disk and the directory of stashes of an older
    version, logging and timers, serde derivations, running git, sqlite, HTTP, the
    daemon's sockets and most commands.  The files do not change while the
    cursor enriches one command. *)

From Stdlib Require Export Ascii ZArith Lia.
From stdpp Require Export base tactics sorting numbers strings gmap list.

(** ** Shared notations *)

(** A Rust [String]/[&str] is its sequence of UTF-8 bytes. *)
Abbreviation str := (list ascii).

(** A string literal of the source. *)
Definition lit (s : string) : str := String.list_ascii_of_string s.
Arguments lit : simpl never.

Declare Scope gitai_scope.
Delimit Scope gitai_scope with gitai.
Open Scope gitai_scope.

(** ** Machine integers *)

(** [u32] line numbers are integers with the wrap-around of the release
    profile (Cargo.toml turns no overflow checks on). *)
Definition u32_max : Z := 4294967295.
Definition u32_wrap (z : Z) : Z := (z mod 4294967296)%Z.
Definition u32_add (a b : Z) : Z := u32_wrap (a + b).
Definition u32_sub (a b : Z) : Z := u32_wrap (a - b).
Definition u32_saturating_sub (a b : Z) : Z := Z.max 0 (a - b).
Definition is_u32 (z : Z) : Prop := (0 <= z <= u32_max)%Z.

(** ** Outcomes of fallible code *)

(** [Ret]: the value of [Ok]; [Fail]: an [Err]; [Panic]: the thread panics. *)
Inductive outcome (E A : Type) : Type :=
  | Ret (a : A)
  | Fail (e : E)
  | Panic.
Arguments Ret {E A} a.
Arguments Fail {E A} e.
Arguments Panic {E A}.

Definition obind {E A B : Type} (m : outcome E A) (k : A → outcome E B) : outcome E B :=
  match m with
  | Ret a => k a
  | Fail e => Fail e
  | Panic => Panic
  end.

Notation "'let?' x := m 'in' k" := (obind m (fun x => k))
  (at level 10, x pattern, m at level 100, k at level 200,
   format "'let?'  x  :=  m  'in'  '//' k") : gitai_scope.

(** [option] as the error type of [?] on options. *)
Notation "'try' x := m 'in' k" := (match m with Some x => k | None => None end)
  (at level 10, x pattern, m at level 100, k at level 200,
   format "'try'  x  :=  m  'in'  '//' k") : gitai_scope.

(** ** Sorting and deduplication *)

Section StableSort.
Context {A : Type} (le : A → A → bool).

(** Insertion before the first element that is not smaller: equal elements
    keep their order, as in Rust's [sort_by] and [sort_by_key]. *)
Fixpoint insert_by (x : A) (l : list A) : list A :=
  match l with
  | [] => [x]
  | y :: l' => if le x y then x :: y :: l' else y :: insert_by x l'
  end.

Definition sort_by (l : list A) : list A := foldr insert_by [] l.
End StableSort.

(** [Vec::dedup]: drops an element equal to the one kept before it. *)
Fixpoint dedup_from {A : Type} (eqb : A → A → bool) (prev : A) (l : list A) : list A :=
  match l with
  | [] => []
  | x :: l' => if eqb prev x then dedup_from eqb prev l' else x :: dedup_from eqb x l'
  end.

Definition dedup {A : Type} (eqb : A → A → bool) (l : list A) : list A :=
  match l with
  | [] => []
  | x :: l' => x :: dedup_from eqb x l'
  end.

(** [Ord for str]: lexicographic on bytes. *)
Fixpoint str_compare (a b : str) : comparison :=
  match a, b with
  | [], [] => Eq
  | [], _ :: _ => Lt
  | _ :: _, [] => Gt
  | x :: a', y :: b' =>
      match N.compare (N_of_ascii x) (N_of_ascii y) with
      | Eq => str_compare a' b'
      | c => c
      end
  end.

(** [Ordering::then_with]. *)
Definition then_with (c d : comparison) : comparison :=
  match c with Eq => d | _ => c end.

(** ** Strings *)

Definition str_eqb (a b : str) : bool := bool_decide (a = b).

(** [str::strip_prefix]. *)
Fixpoint strip_prefix (p s : str) : option str :=
  match p, s with
  | [], _ => Some s
  | _ :: _, [] => None
  | c :: p', d :: s' => if bool_decide (c = d) then strip_prefix p' s' else None
  end.

(** [str::starts_with] and [str::ends_with]. *)
Definition starts_with (p s : str) : bool :=
  match strip_prefix p s with Some _ => true | None => false end.

Definition ends_with (p s : str) : bool := starts_with (rev p) (rev s).

(** [str::split_once]: the parts around the first occurrence of [p]. *)
Fixpoint split_once (p s : str) : option (str * str) :=
  match strip_prefix p s with
  | Some rest => Some ([], rest)
  | None =>
      match s with
      | [] => None
      | c :: s' =>
          match split_once p s' with
          | Some (a, b) => Some (c :: a, b)
          | None => None
          end
      end
  end.

(** [str::split] on one byte: [n] separators give [n + 1] parts. *)
Fixpoint split_on (c : ascii) (s : str) : list str :=
  match s with
  | [] => [[]]
  | d :: s' =>
      if bool_decide (c = d) then [] :: split_on c s'
      else match split_on c s' with
           | [] => [[d]]
           | w :: ws => (d :: w) :: ws
           end
  end.

(** [[str]::join]. *)
Fixpoint join_with (sep : str) (parts : list str) : str :=
  match parts with
  | [] => []
  | [p] => p
  | p :: ps => p ++ sep ++ join_with sep ps
  end.

(** [&s[a..b]] on a slice or a string, for [a <= b <= len]. *)
Definition slice {A : Type} (a b : nat) (l : list A) : list A := take (b - a) (drop a l).

(** [slice::partition_point]: the length of the prefix that satisfies the
    test, for a slice the test partitions; also the steps of a [while] loop
    that walks a list as long as the test holds. *)
Fixpoint partition_point {A : Type} (p : A → bool) (l : list A) : nat :=
  match l with
  | [] => 0
  | x :: l' => if p x then S (partition_point p l') else 0
  end.

(** The elements such a loop visits. *)
Fixpoint take_while {A : Type} (p : A → bool) (l : list A) : list A :=
  match l with
  | [] => []
  | x :: l' => if p x then x :: take_while p l' else []
  end.

(** [s.split(sep).next().unwrap_or(s)]. *)
Definition first_piece (sep s : str) : str :=
  match split_once sep s with
  | Some (a, _) => a
  | None => s
  end.

Definition DQUOTE : ascii := Ascii.ascii_of_nat 34.
Definition LF : ascii := Ascii.ascii_of_nat 10.
Definition CR : ascii := Ascii.ascii_of_nat 13.

(** One trailing carriage return removed, as [str::lines] does. *)
Definition strip_cr (s : str) : str :=
  match rev s with
  | c :: r => if bool_decide (c = CR) then rev r else s
  | [] => s
  end.

(** [str::lines]: pieces between line feeds, one [\r] before a line feed
    dropped, no piece after a final line feed. *)
Fixpoint lines_aux (cur s : str) : list str :=
  match s with
  | [] => match cur with [] => [] | _ => [rev cur] end
  | c :: s' =>
      if bool_decide (c = LF) then strip_cr (rev cur) :: lines_aux [] s'
      else lines_aux (c :: cur) s'
  end.

Definition lines (s : str) : list str := lines_aux [] s.

(** ** Decimal [u32] text *)

Definition digit (d : Z) : ascii := Ascii.ascii_of_N (Z.to_N (48 + d)).

(** [Display for u32]; ten digits are enough. *)
Fixpoint show_digits (fuel : nat) (n : Z) (acc : str) : str :=
  match fuel with
  | O => acc
  | S f =>
      let acc' := digit (n mod 10) :: acc in
      if (n <? 10)%Z then acc' else show_digits f (n / 10) acc'
  end.

Definition show_u32 (n : Z) : str := show_digits 10 n [].

Definition digit_val (c : ascii) : option Z :=
  let n := Z.of_N (N_of_ascii c) in
  if ((48 <=? n) && (n <=? 57))%Z then Some (n - 48)%Z else None.

(** [str::parse::<u32>]: an optional [+], then at least one digit, with an
    error on overflow. *)
Fixpoint parse_digits (acc : Z) (s : str) : option Z :=
  match s with
  | [] => Some acc
  | c :: s' =>
      match digit_val c with
      | Some d =>
          let v := (acc * 10 + d)%Z in
          if (v <=? u32_max)%Z then parse_digits v s' else None
      | None => None
      end
  end.

Definition parse_u32 (s : str) : option Z :=
  match s with
  | [] => None
  | c :: s' =>
      if bool_decide (c = "+"%char)
      then match s' with [] => None | _ => parse_digits 0 s' end
      else parse_digits 0 s
  end.

Create HintDb gitai.

(** ** Tactics *)

(** Boolean tests of the code turned into propositions. *)
Ltac bool_hyps :=
  repeat match goal with
  | H : (_ && _)%bool = true |- _ => apply andb_true_iff in H; destruct H
  | H : (_ || _)%bool = false |- _ => apply orb_false_iff in H; destruct H
  | H : negb _ = true |- _ => apply negb_true_iff in H
  | H : negb _ = false |- _ => apply negb_false_iff in H
  | H : bool_decide _ = true |- _ => apply bool_decide_eq_true in H
  | H : bool_decide _ = false |- _ => apply bool_decide_eq_false in H
  | H : (_ <? _)%Z = true |- _ => apply Z.ltb_lt in H
  | H : (_ <? _)%Z = false |- _ => apply Z.ltb_ge in H
  | H : (_ <=? _)%Z = true |- _ => apply Z.leb_le in H
  | H : (_ <=? _)%Z = false |- _ => apply Z.leb_gt in H
  | H : (_ =? _)%Z = true |- _ => apply Z.eqb_eq in H
  | H : (_ =? _)%Z = false |- _ => apply Z.eqb_neq in H
  | H : (_ <? _)%nat = true |- _ => apply Nat.ltb_lt in H
  | H : (_ <? _)%nat = false |- _ => apply Nat.ltb_ge in H
  | H : (_ <=? _)%nat = true |- _ => apply Nat.leb_le in H
  | H : (_ <=? _)%nat = false |- _ => apply Nat.leb_gt in H
  | H : (_ =? _)%nat = true |- _ => apply Nat.eqb_eq in H
  | H : (_ =? _)%nat = false |- _ => apply Nat.eqb_neq in H
  end.

(** Splits every [if] and [match] on a boolean test in the goal. *)
Ltac split_ifs :=
  repeat match goal with
  | |- context [ if ?b then _ else _ ] => destruct b eqn:?
  end; bool_hyps.

(** A goal between boolean expressions over integer comparisons. *)
Ltac bool_lia :=
  apply eq_true_iff_eq;
  repeat (rewrite ?andb_true_iff, ?orb_true_iff, ?negb_true_iff, ?orb_false_iff,
            ?andb_false_iff, ?Z.leb_le, ?Z.ltb_lt, ?Z.eqb_eq, ?Z.leb_gt, ?Z.ltb_ge,
            ?Z.eqb_neq); lia.

(** ** Lemmas: machine integers *)

Lemma u32_wrap_small z : is_u32 z → u32_wrap z = z.
Proof. unfold is_u32, u32_max, u32_wrap. intros. apply Z.mod_small. lia. Qed.

Lemma u32_add_small a b : is_u32 (a + b) → u32_add a b = (a + b)%Z.
Proof. apply u32_wrap_small. Qed.

Lemma u32_sub_small a b : is_u32 (a - b) → u32_sub a b = (a - b)%Z.
Proof. apply u32_wrap_small. Qed.

Lemma u32_wrap_add_l a b : u32_wrap (u32_wrap a + b) = u32_wrap (a + b).
Proof. unfold u32_wrap. by rewrite Zplus_mod_idemp_l. Qed.

Lemma u32_wrap_add_r a b : u32_wrap (a + u32_wrap b) = u32_wrap (a + b).
Proof. unfold u32_wrap. by rewrite Zplus_mod_idemp_r. Qed.

Ltac u32 :=
  repeat (rewrite u32_add_small by (unfold is_u32, u32_max in *; lia));
  repeat (rewrite u32_sub_small by (unfold is_u32, u32_max in *; lia)).

(** ** Lemmas: sorting and deduplication *)

Section StableSortLemmas.
Context {A : Type} (le : A → A → bool).
Local Abbreviation R := (λ a b, le a b = true).

Lemma insert_by_perm x l : insert_by le x l ≡ₚ x :: l.
Proof.
  induction l as [|y l IH]; simpl; [done|].
  destruct (le x y); [done|]. rewrite IH. apply Permutation_swap.
Qed.

Lemma sort_by_perm l : sort_by le l ≡ₚ l.
Proof. induction l as [|x l IH]; simpl; [done|]. by rewrite insert_by_perm, IH. Qed.

Lemma elem_of_sort_by x l : x ∈ sort_by le l ↔ x ∈ l.
Proof. by rewrite sort_by_perm. Qed.

Lemma length_sort_by l : length (sort_by le l) = length l.
Proof. by rewrite sort_by_perm. Qed.

Lemma sort_by_id l : StronglySorted R l → sort_by le l = l.
Proof.
  induction 1 as [|x l Hl IH Hx]; simpl; [done|]. rewrite IH.
  destruct l as [|y l]; simpl; [done|]. inversion_clear Hx. by case_match.
Qed.

Context (le_trans : ∀ a b c, le a b = true → le b c = true → le a c = true).
Context (le_total : ∀ a b, le a b = true ∨ le b a = true).

Lemma insert_by_sorted x l :
  StronglySorted R l → StronglySorted R (insert_by le x l).
Proof.
  induction 1 as [|y l Hl IH Hy]; simpl; [repeat constructor|].
  destruct (le x y) eqn:E.
  - repeat constructor; try done.
    eapply Forall_impl; [exact Hy|]. eauto.
  - constructor; [done|]. rewrite insert_by_perm. constructor; [|done].
    destruct (le_total x y); congruence.
Qed.

Lemma sort_by_sorted l : StronglySorted R (sort_by le l).
Proof. induction l; simpl; [constructor|]. by apply insert_by_sorted. Qed.

(** Filtering commutes with sorting. *)
Lemma insert_by_smallest x l : Forall (λ y, le x y = true) l → insert_by le x l = x :: l.
Proof. destruct 1 as [|y l Hy _]; simpl; [done|]. by rewrite Hy. Qed.

Lemma filter_insert_by p x l :
  StronglySorted R l →
  List.filter p (insert_by le x l) = if p x then insert_by le x (List.filter p l) else List.filter p l.
Proof.
  induction 1 as [|y l Hl IH Hy]; simpl; [by destruct (p x)|].
  destruct (le x y) eqn:E; simpl.
  - destruct (p x); [|done]. symmetry. rewrite insert_by_smallest; [done|].
    assert (Forall (λ z, le x z = true) (y :: l)) as Hx
      by (constructor; [done|]; eapply Forall_impl; [exact Hy|]; eauto).
    rewrite List.Forall_forall in Hx |- *. intros z Hz. apply Hx. apply (filter_In p z (y :: l)), Hz.
  - rewrite IH. destruct (p x); simpl; destruct (p y); simpl; [by rewrite E|done..].
Qed.

Lemma filter_sort_by p l : List.filter p (sort_by le l) = sort_by le (List.filter p l).
Proof.
  induction l as [|x l IH]; simpl; [done|]. rewrite filter_insert_by by apply sort_by_sorted.
  rewrite IH. by destruct (p x).
Qed.
End StableSortLemmas.

#[export] Hint Rewrite @elem_of_sort_by @length_sort_by : gitai.

(** Deduplicating a sorted list of line numbers: [sort_unstable] then [dedup]. *)
Section SortedLines.
Local Open Scope Z_scope.

Lemma elem_of_dedup_from p l x :
  x ∈ dedup_from Z.eqb p l ∨ x = p ↔ x ∈ l ∨ x = p.
Proof.
  revert p. induction l as [|y l IH]; intros p; simpl; [done|].
  destruct (Z.eqb_spec p y) as [<-|Hne]; rewrite !elem_of_cons.
  - rewrite IH. naive_solver.
  - specialize (IH y). naive_solver.
Qed.

Lemma elem_of_dedup_incl {A} (eqb : A → A → bool) l x : x ∈ dedup eqb l → x ∈ l.
Proof.
  assert (∀ l p, x ∈ dedup_from eqb p l → x ∈ l) as H.
  { clear. induction l as [|y l IH]; intros p; cbn [dedup_from]; [done|]. rewrite elem_of_cons.
    destruct (eqb p y); rewrite ?elem_of_cons; naive_solver. }
  destruct l as [|y l]; cbn [dedup]; [done|]. rewrite !elem_of_cons. intros [->|Hx%H]; auto.
Qed.

Lemma elem_of_dedup l x : x ∈ dedup Z.eqb l ↔ x ∈ l.
Proof.
  destruct l as [|y l]; simpl; [done|].
  rewrite !elem_of_cons. pose proof (elem_of_dedup_from y l x). naive_solver.
Qed.

Lemma dedup_from_lt p l :
  StronglySorted (λ a b, (a <=? b) = true) (p :: l) →
  StronglySorted Z.lt (p :: dedup_from Z.eqb p l).
Proof.
  revert p. induction l as [|y l IH]; intros p H; simpl; [repeat constructor|].
  inversion_clear H as [|? ? Hs Hp]. inversion_clear Hp as [|? ? Hpy Hpl].
  apply Z.leb_le in Hpy. destruct (Z.eqb_spec p y) as [<-|Hne]; [by apply IH|].
  specialize (IH y Hs). constructor; [done|]. inversion_clear IH as [|? ? _ Hy].
  constructor; [lia|]. eapply Forall_impl; [exact Hy|]. intros; lia.
Qed.

Lemma dedup_sorted_lt l :
  StronglySorted (λ a b, (a <=? b) = true) l → StronglySorted Z.lt (dedup Z.eqb l).
Proof. destruct l; simpl; [constructor|]. apply dedup_from_lt. Qed.

Lemma dedup_id l : StronglySorted Z.lt l → dedup Z.eqb l = l.
Proof.
  destruct l as [|p l]; simpl; [done|]. intros H. f_equal. revert p H.
  induction l as [|y l IH]; intros p H; simpl; [done|].
  inversion_clear H as [|? ? Hs Hp]. inversion_clear Hp.
  destruct (Z.eqb_spec p y); [lia|]. f_equal. by apply IH.
Qed.

Lemma sort_dedup_lt l : StronglySorted Z.lt (dedup Z.eqb (sort_by Z.leb l)).
Proof.
  apply dedup_sorted_lt, sort_by_sorted; intros *; rewrite !Z.leb_le; lia.
Qed.

Lemma elem_of_sort_dedup l x : x ∈ dedup Z.eqb (sort_by Z.leb l) ↔ x ∈ l.
Proof. by rewrite elem_of_dedup, elem_of_sort_by. Qed.

Lemma sort_dedup_id l : StronglySorted Z.lt l → dedup Z.eqb (sort_by Z.leb l) = l.
Proof.
  intros H. rewrite sort_by_id; [by apply dedup_id|].
  induction H as [|x l _ IH Hx]; constructor; [done|].
  eapply Forall_impl; [exact Hx|]. intros. apply Z.leb_le. lia.
Qed.
End SortedLines.

(** ** Lemmas: strings *)

Lemma str_eqb_eq a b : str_eqb a b = true ↔ a = b.
Proof. apply bool_decide_eq_true. Qed.

Lemma str_compare_eq a b : str_compare a b = Eq ↔ a = b.
Proof.
  revert b. induction a as [|x a IH]; intros [|y b]; simpl; try done.
  destruct (N.compare_spec (N_of_ascii x) (N_of_ascii y)) as [E|E|E].
  - apply (f_equal ascii_of_N) in E. rewrite !ascii_N_embedding in E. subst.
    rewrite IH. naive_solver.
  - split; [done|]. intros [= -> ->]. lia.
  - split; [done|]. intros [= -> ->]. lia.
Qed.

Lemma str_compare_refl a : str_compare a a = Eq.
Proof. by apply str_compare_eq. Qed.

Lemma str_compare_antisym a b : str_compare b a = CompOpp (str_compare a b).
Proof.
  revert b. induction a as [|x a IH]; intros [|y b]; simpl; try done.
  rewrite (N.compare_antisym (N_of_ascii x)). destruct (N_of_ascii x ?= _)%N; simpl; auto.
Qed.

Lemma str_compare_lt_trans a b c :
  str_compare a b = Lt → str_compare b c = Lt → str_compare a c = Lt.
Proof.
  revert b c. induction a as [|x a IH]; intros [|y b] [|z c]; simpl; try done.
  destruct (N.compare_spec (N_of_ascii x) (N_of_ascii y)) as [E1|E1|E1]; try done;
  destruct (N.compare_spec (N_of_ascii y) (N_of_ascii z)) as [E2|E2|E2]; try done;
  destruct (N.compare_spec (N_of_ascii x) (N_of_ascii z)) as [E3|E3|E3]; try lia; eauto.
Qed.

Lemma strip_prefix_spec p s r : strip_prefix p s = Some r ↔ s = p ++ r.
Proof.
  revert s. induction p as [|c p IH]; intros [|d s]; simpl; [naive_solver..|].
  case_bool_decide; [subst; rewrite IH; naive_solver|naive_solver].
Qed.

Lemma starts_with_spec p s : starts_with p s = true ↔ ∃ r, s = p ++ r.
Proof.
  unfold starts_with. destruct (strip_prefix p s) as [r|] eqn:E.
  - apply strip_prefix_spec in E. naive_solver.
  - split; [done|]. intros [r Hr]. apply strip_prefix_spec in Hr. congruence.
Qed.

(** ** Lemmas: lists *)

Lemma omap_reverse {A B} (f : A → option B) l : omap f (reverse l) = reverse (omap f l).
Proof.
  induction l as [|x l IH]; [done|]. rewrite reverse_cons, omap_app, IH. simpl.
  destruct (f x); [by rewrite reverse_cons|by rewrite app_nil_r].
Qed.

Lemma partition_point_none {A} (p : A → bool) l :
  (∀ x, x ∈ l → p x = false) → partition_point p l = 0.
Proof. destruct l; simpl; [done|]. intros H. rewrite H; [done|left]. Qed.

Lemma partition_point_le {A} (p : A → bool) l : partition_point p l ≤ length l.
Proof. induction l as [|x l IH]; simpl; [done|]. case_match; lia. Qed.

(** What a loop skips satisfies its test; what it stops at does not. *)
Lemma partition_point_take {A} (p : A → bool) l x :
  x ∈ take (partition_point p l) l → p x = true.
Proof.
  induction l as [|y l IH]; simpl; [intros H; by apply not_elem_of_nil in H|].
  destruct (p y) eqn:E; simpl; [|intros H; by apply not_elem_of_nil in H].
  intros [->|H]%elem_of_cons; auto.
Qed.

Lemma elem_of_take_while {A} (p : A → bool) l x :
  x ∈ take_while p l → x ∈ l ∧ p x = true.
Proof.
  induction l as [|y l IH]; simpl; [intros H; by apply not_elem_of_nil in H|].
  destruct (p y) eqn:E; [|intros H; by apply not_elem_of_nil in H].
  intros [->|H]%elem_of_cons; [split; [left|done]|]. destruct (IH H). split; [by right|done].
Qed.

(** On a list sorted by a key the loop visits every element whose key passes
    a downward closed test. *)
Lemma take_while_all {A} (R : A → A → Prop) (p : A → bool) l x :
  StronglySorted R l → (∀ a b, R a b → p b = true → p a = true) →
  x ∈ l → p x = true → x ∈ take_while p l.
Proof.
  intros Hs Hp. induction Hs as [|y l _ IH Hy]; simpl; [done|].
  intros [->|Hx]%elem_of_cons Hpx; [rewrite Hpx; left|].
  rewrite Forall_forall in Hy. rewrite (Hp y x) by auto. right. auto.
Qed.

(** *** Slices *)

Section Slices.
Context {A : Type}.
Implicit Types l : list A.

Lemma length_slice a b l : a ≤ b → b ≤ length l → length (slice a b l) = b - a.
Proof. intros. unfold slice. rewrite length_take, length_drop. lia. Qed.

Lemma slice_nil a l : slice a a l = [].
Proof. unfold slice. by rewrite Nat.sub_diag. Qed.

Lemma slice_empty a b l : b ≤ a → slice a b l = [].
Proof. intros. unfold slice. by replace (b - a) with 0 by lia. Qed.

Lemma slice_full l : slice 0 (length l) l = l.
Proof. unfold slice. rewrite drop_0, Nat.sub_0_r. by apply take_ge. Qed.

Lemma slice_app a b c l : a ≤ b → b ≤ c → slice a b l ++ slice b c l = slice a c l.
Proof.
  intros. unfold slice. replace (c - a) with ((b - a) + (c - b)) by lia.
  rewrite <-(take_take_drop _ (b - a)), drop_drop.
  by replace (a + (b - a)) with b by lia.
Qed.

Lemma slice_to_end a l : slice a (length l) l = drop a l.
Proof. unfold slice. apply take_ge. rewrite length_drop. lia. Qed.

Lemma lookup_slice a b l i : i < b - a → slice a b l !! i = l !! (a + i).
Proof. intros. unfold slice. by rewrite lookup_take_lt, lookup_drop by lia. Qed.

Lemma slice_nonempty a b l : a < b → b ≤ length l → slice a b l ≠ [].
Proof. intros ? ? E. apply (f_equal length) in E. rewrite length_slice in E by lia. simpl in E. lia. Qed.

(** A slice of equal slices. *)
Lemma slice_sub a b a' b' n m l l' :
  slice a b l = slice a' b' l' → b - a = b' - a' → n ≤ m → m ≤ b - a →
  slice (a + n) (a + m) l = slice (a' + n) (a' + m) l'.
Proof.
  intros E Hl Hn Hm. unfold slice in *.
  replace (a + m - (a + n)) with (m - n) by lia.
  replace (a' + m - (a' + n)) with (m - n) by lia.
  rewrite <-!drop_drop.
  apply (f_equal (λ x, take (m - n) (drop n x))) in E.
  rewrite !skipn_firstn_comm, !take_take in E.
  rewrite !(Nat.min_l (m - n)) in E by lia. done.
Qed.
End Slices.

Lemma elem_of_concat {A} (x : A) ls : x ∈ concat ls ↔ ∃ l, x ∈ l ∧ l ∈ ls.
Proof.
  rewrite list_elem_of_In, in_concat. setoid_rewrite <-list_elem_of_In. naive_solver.
Qed.

(** ** Lemmas: sorted lists and filters *)

Lemma StronglySorted_weaken {A} (R S : A → A → Prop) l :
  (∀ a b, R a b → S a b) → StronglySorted R l → StronglySorted S l.
Proof.
  intros H. induction 1 as [|x l _ IH Hx]; constructor; [done|]. eapply Forall_impl; [exact Hx|]. apply H.
Qed.

Lemma StronglySorted_filter {A} (R : A → A → Prop) (p : A → bool) l :
  StronglySorted R l → StronglySorted R (List.filter p l).
Proof.
  induction 1 as [|x l _ IH Hx]; simpl; [constructor|]. case_match; [|done]. constructor; [done|].
  rewrite List.Forall_forall in *. intros y [Hy _]%filter_In. by apply Hx.
Qed.

Lemma filter_none {A} (p : A → bool) l : (∀ x, x ∈ l → p x = false) → List.filter p l = [].
Proof.
  induction l as [|x l IH]; intros H; simpl; [done|]. rewrite H by left. apply IH. intros; apply H. by right.
Qed.

Lemma filter_sub {A} (p q : A → bool) l :
  (∀ x, x ∈ l → q x = true → p x = true) → List.filter q (List.filter p l) = List.filter q l.
Proof.
  induction l as [|x l IH]; intros H; simpl; [done|].
  assert (List.filter q (List.filter p l) = List.filter q l) as IH' by (apply IH; intros; apply H; [by right|done]).
  destruct (p x) eqn:E; simpl; rewrite IH'; [done|].
  destruct (q x) eqn:Eq; [|done]. apply H in Eq; [congruence|left].
Qed.

Lemma elem_of_filter_b {A} (p : A → bool) l x : x ∈ List.filter p l ↔ x ∈ l ∧ p x = true.
Proof. by rewrite !list_elem_of_In, filter_In. Qed.

Lemma elem_of_flat_map {A B} (f : A → list B) l x : x ∈ flat_map f l ↔ ∃ y, y ∈ l ∧ x ∈ f y.
Proof. rewrite list_elem_of_In, in_flat_map. by setoid_rewrite list_elem_of_In. Qed.

Lemma elem_of_list_map {A B} (f : A → B) l x : x ∈ map f l ↔ ∃ y, y ∈ l ∧ x = f y.
Proof. rewrite list_elem_of_In, in_map_iff. setoid_rewrite <-list_elem_of_In. naive_solver. Qed.
