(* ===== verification/Text.v ===== *)
(** * Text: UTF-8 characters and the [str] functions of the standard library

    A [str] is a byte sequence; a character is the chunk of bytes its lead
    byte announces.  The facts about [lines], [split], [join], [trim_end] and
    decimal numbers that the note format rests on. *)

From S2P Require Import Prelude.

(** ** Characters *)

(** The number of bytes a lead byte announces. *)
Definition char_width (c : ascii) : nat :=
  let n := N_of_ascii c in
  if (n <? 192)%N then 1 else if (n <? 224)%N then 2 else if (n <? 240)%N then 3 else 4.

Definition is_continuation (c : ascii) : bool :=
  let n := N_of_ascii c in (128 <=? n)%N && (n <? 192)%N.

(** [str::chars], each character as its bytes. *)
Fixpoint chars_aux (fuel : nat) (s : str) : list str :=
  match fuel, s with
  | S f, c :: _ => let w := char_width c in take w s :: chars_aux f (drop w s)
  | _, _ => []
  end.

Definition chars (s : str) : list str := chars_aux (length s) s.

(** A complete character: a lead byte and exactly its continuation bytes. *)
Definition utf8_char (ch : str) : bool :=
  match ch with
  | [] => false
  | c :: rest =>
      negb (is_continuation c) && (length ch =? char_width c)%nat && forallb is_continuation rest
  end.

Definition is_utf8 (s : str) : bool := forallb utf8_char (chars s).

(** The Unicode scalar value of a character. *)
Definition low_bits (c : ascii) : N := (N_of_ascii c mod 64)%N.
Definition code_point (ch : str) : N :=
  match ch with
  | [a] => N_of_ascii a
  | [a; b] => (N_of_ascii a mod 32) * 64 + low_bits b
  | [a; b; c] => ((N_of_ascii a mod 16) * 64 + low_bits b) * 64 + low_bits c
  | [a; b; c; d] => (((N_of_ascii a mod 8) * 64 + low_bits b) * 64 + low_bits c) * 64 + low_bits d
  | _ => 0
  end%N.

(** [char::is_whitespace]: the White_Space property. *)
Definition white_space (n : N) : bool :=
  (((9 <=? n) && (n <=? 13)) || (n =? 32) || (n =? 133) || (n =? 160) || (n =? 5760)
  || ((8192 <=? n) && (n <=? 8202)) || (n =? 8232) || (n =? 8233) || (n =? 8239)
  || (n =? 8287) || (n =? 12288))%N.

Definition is_whitespace (ch : str) : bool := white_space (code_point ch).

Fixpoint drop_while {A : Type} (p : A → bool) (l : list A) : list A :=
  match l with
  | [] => []
  | x :: l' => if p x then drop_while p l' else l
  end.

(** [str::trim_end], [str::trim_start] and [str::trim]. *)
Definition trim_end (s : str) : str := concat (rev (drop_while is_whitespace (rev (chars s)))).
Definition trim_start (s : str) : str := concat (drop_while is_whitespace (chars s)).
Definition trim (s : str) : str := trim_end (trim_start s).

(** [str::contains] for an ASCII character. *)
Definition contains_byte (c : ascii) (s : str) : bool := existsb (λ d, bool_decide (c = d)) s.

(** [str::find] for an ASCII character, with the text before and after it. *)
Fixpoint find_byte (c : ascii) (s : str) : option (str * str) :=
  match s with
  | [] => None
  | d :: s' =>
      if bool_decide (c = d) then Some ([], s')
      else match find_byte c s' with
           | Some (a, b) => Some (d :: a, b)
           | None => None
           end
  end.

(** [str::split_whitespace]: the maximal runs of other characters. *)
Fixpoint words_aux (cur : str) (cs : list str) : list str :=
  match cs with
  | [] => match cur with [] => [] | _ => [cur] end
  | c :: cs' =>
      if is_whitespace c
      then match cur with [] => words_aux [] cs' | _ => cur :: words_aux [] cs' end
      else words_aux (cur ++ c) cs'
  end.

Definition split_whitespace (s : str) : list str := words_aux [] (chars s).

Definition trim_start_matches (c : ascii) (s : str) : str :=
  drop_while (λ d, bool_decide (d = c)) s.

(** ** Lemmas: characters *)

Lemma char_width_pos c : (1 ≤ char_width c)%nat.
Proof. unfold char_width. split_ifs; lia. Qed.

Lemma concat_chars_aux f s : (length s ≤ f)%nat → concat (chars_aux f s) = s.
Proof.
  revert s. induction f as [|f IH]; intros [|c s] H; simpl in *; try done || lia.
  pose proof (char_width_pos c). rewrite IH; [apply take_drop|].
  rewrite length_drop. simpl. lia.
Qed.

Lemma concat_chars s : concat (chars s) = s.
Proof. by apply concat_chars_aux. Qed.

Lemma chars_aux_fuel f g s : (length s ≤ f)%nat → (length s ≤ g)%nat → chars_aux f s = chars_aux g s.
Proof.
  revert g s. induction f as [|f IH]; intros [|g] [|c s] Hf Hg; simpl in *; try done || lia.
  pose proof (char_width_pos c). f_equal. apply IH; rewrite length_drop; simpl; lia.
Qed.

Lemma chars_cons c s :
  chars (c :: s) = take (char_width c) (c :: s) :: chars (drop (char_width c) (c :: s)).
Proof.
  unfold chars at 1. simpl length. cbn [chars_aux]. f_equal.
  apply chars_aux_fuel; [|done]. rewrite length_drop. pose proof (char_width_pos c).
  simpl. lia.
Qed.

Lemma chars_nonempty s : Forall (λ ch, 0 < length ch) (chars s).
Proof.
  remember (length s) as n eqn:Hn. revert s Hn. induction (lt_wf n) as [n _ IH]. intros [|c s] ->; [constructor|].
  rewrite chars_cons. pose proof (char_width_pos c). destruct (char_width c) as [|w] eqn:E; [lia|].
  constructor; [simpl; lia|]. eapply IH; [|reflexivity]. rewrite length_drop. simpl. lia.
Qed.

Lemma length_drop_while {A : Type} (p : A → bool) l : (length (drop_while p l) ≤ length l)%nat.
Proof. induction l as [|x l IH]; cbn; [done|]. destruct (p x); cbn; lia. Qed.

(** A complete character is the first one of what starts with it. *)
Lemma chars_char_app ch s : utf8_char ch = true → chars (ch ++ s) = ch :: chars s.
Proof.
  destruct ch as [|c rest]; [done|]. unfold utf8_char. intros H. bool_hyps.
  change ((c :: rest) ++ s) with (c :: (rest ++ s)). rewrite chars_cons.
  change (c :: rest ++ s) with ((c :: rest) ++ s).
  replace (char_width c) with (length (c :: rest)) by done.
  by rewrite take_app_length, drop_app_length.
Qed.

Lemma chars_concat_app cs s : forallb utf8_char cs = true → chars (concat cs ++ s) = cs ++ chars s.
Proof.
  induction cs as [|ch cs IH]; simpl; [done|]. intros H. bool_hyps.
  by rewrite <-app_assoc, chars_char_app, IH.
Qed.

Lemma chars_app a b : is_utf8 a = true → chars (a ++ b) = chars a ++ chars b.
Proof. intros H. rewrite <-(concat_chars a) at 1. by apply chars_concat_app. Qed.

Lemma is_utf8_app a b : is_utf8 a = true → is_utf8 b = true → is_utf8 (a ++ b) = true.
Proof. intros Ha Hb. unfold is_utf8. by rewrite chars_app, forallb_app, andb_true_iff. Qed.

Lemma chars_snoc a ch : is_utf8 a = true → utf8_char ch = true → chars (a ++ ch) = chars a ++ [ch].
Proof.
  intros Ha Hc. rewrite chars_app by done. f_equal.
  rewrite <-(app_nil_r ch) at 1. by rewrite chars_char_app.
Qed.

Lemma trim_end_snoc a ch :
  is_utf8 a = true → utf8_char ch = true → is_whitespace ch = false → trim_end (a ++ ch) = a ++ ch.
Proof.
  intros Ha Hc Hw. unfold trim_end. rewrite chars_snoc by done.
  rewrite rev_app_distr. simpl. rewrite Hw. simpl.
  rewrite rev_involutive, concat_app, concat_chars. simpl. by rewrite app_nil_r.
Qed.

Lemma trim_end_whitespace a ch :
  is_utf8 a = true → utf8_char ch = true → is_whitespace ch = true → trim_end (a ++ ch) = trim_end a.
Proof.
  intros Ha Hc Hw. unfold trim_end. rewrite chars_snoc, rev_app_distr by done.
  cbn [rev app drop_while]. by rewrite Hw.
Qed.

(** ASCII text: every byte is a character. *)
Definition is_ascii (c : ascii) : bool := (N_of_ascii c <? 128)%N.

Lemma utf8_char_ascii c : is_ascii c = true → utf8_char [c] = true.
Proof.
  unfold is_ascii, utf8_char, is_continuation, char_width. intros H%N.ltb_lt. simpl.
  assert ((128 <=? N_of_ascii c)%N = false) as -> by (apply N.leb_gt; lia).
  assert ((N_of_ascii c <? 192)%N = true) as -> by (apply N.ltb_lt; lia). done.
Qed.

Lemma chars_ascii s : forallb is_ascii s = true → chars s = map (λ c, [c]) s.
Proof.
  induction s as [|c s IH]; simpl; [done|]. intros H. bool_hyps.
  change (c :: s) with ([c] ++ s).
  by rewrite chars_char_app, IH by auto using utf8_char_ascii.
Qed.

Lemma is_utf8_ascii s : forallb is_ascii s = true → is_utf8 s = true.
Proof.
  intros H. unfold is_utf8. rewrite chars_ascii by done.
  induction s as [|c s IH]; simpl in *; [done|]. bool_hyps.
  rewrite IH by done. rewrite andb_true_r. by apply utf8_char_ascii.
Qed.

(** ** Lemmas: lines *)

Lemma contains_byte_false c s : contains_byte c s = false ↔ c ∉ s.
Proof.
  unfold contains_byte. induction s as [|d s IH]; simpl; [set_solver|].
  rewrite orb_false_iff, bool_decide_eq_false, IH, not_elem_of_cons. tauto.
Qed.

Lemma contains_byte_true c s : contains_byte c s = true ↔ c ∈ s.
Proof.
  unfold contains_byte. rewrite existsb_exists. setoid_rewrite <-list_elem_of_In.
  setoid_rewrite bool_decide_eq_true. naive_solver.
Qed.

Lemma lines_aux_line cur l s : LF ∉ l →
  lines_aux cur (l ++ LF :: s) = strip_cr (rev cur ++ l) :: lines_aux [] s.
Proof.
  revert cur. induction l as [|c l IH]; intros cur H; simpl.
  - by rewrite app_nil_r.
  - apply not_elem_of_cons in H as [Hc Hl]. rewrite bool_decide_false by congruence.
    rewrite IH by done. simpl. by rewrite <-app_assoc.
Qed.

Lemma lines_line l s : LF ∉ l → lines (l ++ LF :: s) = strip_cr l :: lines s.
Proof. apply lines_aux_line. Qed.

Lemma lines_aux_last cur l : LF ∉ l → l ≠ [] ∨ cur ≠ [] → lines_aux cur l = [rev cur ++ l].
Proof.
  revert cur. induction l as [|c l IH]; intros cur H Hne; simpl.
  - rewrite app_nil_r. destruct cur; [naive_solver|done].
  - apply not_elem_of_cons in H as [Hc Hl]. rewrite bool_decide_false by congruence.
    rewrite IH by naive_solver. simpl. by rewrite <-app_assoc.
Qed.

Lemma strip_cr_id l : CR ∉ l → strip_cr l = l.
Proof.
  unfold strip_cr. intros H. destruct (rev l) as [|c r] eqn:E; [done|].
  case_bool_decide; [|done]. subst. destruct H. rewrite <-(rev_involutive l), E. simpl. set_solver.
Qed.

Lemma strip_cr_snoc l c : c ≠ CR → strip_cr (l ++ [c]) = l ++ [c].
Proof. intros. unfold strip_cr. rewrite rev_app_distr. simpl. by rewrite bool_decide_false. Qed.

(** Splitting text at its first line feed. *)
Lemma first_line s : LF ∈ s → ∃ l r, s = l ++ LF :: r ∧ LF ∉ l.
Proof.
  induction s as [|c s IH]; [set_solver|]. intros H.
  destruct (decide (c = LF)) as [->|Hne]; [by exists [], s; set_solver|].
  destruct IH as (l & r & -> & Hl); [set_solver|]. exists (c :: l), r. set_solver.
Qed.

(** Joining the lines of a text without carriage returns gives it back, up to
    one final line feed. *)
Lemma join_lines s c : CR ∉ s → c ≠ LF → c ≠ CR →
  join_with [LF] (lines (s ++ [c])) = s ++ [c].
Proof.
  intros Hs Hc Hr. remember (length s) as n eqn:Hn. revert s Hs Hn.
  induction n as [n IH] using lt_wf_ind. intros s Hs ->.
  destruct (decide (LF ∈ s)) as [Hin|Hin].
  - destruct (first_line s Hin) as (l & r & -> & Hl).
    rewrite <-app_assoc. simpl. rewrite lines_line by done.
    rewrite strip_cr_id by set_solver.
    assert (∃ w ws, lines (r ++ [c]) = w :: ws) as (w & ws & E).
    { destruct (lines (r ++ [c])) eqn:E; [|eauto]. exfalso.
      specialize (IH (length r)). rewrite length_app in IH. simpl in IH.
      specialize (IH ltac:(lia) r ltac:(set_solver) eq_refl). rewrite E in IH.
      by destruct r. }
    rewrite E. change (join_with [LF] (l :: w :: ws)) with (l ++ [LF] ++ join_with [LF] (w :: ws)).
    rewrite <-E, (IH (length r)); [done| |set_solver|done].
    rewrite length_app. simpl. lia.
  - unfold lines. rewrite lines_aux_last; [by simpl| |left; by destruct s].
    rewrite elem_of_app, list_elem_of_singleton. naive_solver.
Qed.

(** ** Lemmas: splitting and joining *)

Lemma split_on_nonempty c s : split_on c s ≠ [].
Proof. destruct s; simpl; [done|]. case_bool_decide; [done|]. by case_match. Qed.

Lemma split_on_none c s : c ∉ s → split_on c s = [s].
Proof.
  induction s as [|d s IH]; simpl; [done|]. intros H. apply not_elem_of_cons in H as [H1 H2].
  rewrite bool_decide_false by done. by rewrite IH.
Qed.

Lemma split_on_app c p s : c ∉ p → split_on c (p ++ c :: s) = p :: split_on c s.
Proof.
  induction p as [|d p IH]; simpl; intros H; [by rewrite bool_decide_true|].
  apply not_elem_of_cons in H as [H1 H2]. rewrite bool_decide_false by done. by rewrite IH.
Qed.

Lemma split_join c ps : ps ≠ [] → Forall (λ p, c ∉ p) ps → split_on c (join_with [c] ps) = ps.
Proof.
  induction ps as [|p ps IH]; [done|]. intros _ H. inversion_clear H as [|? ? Hp Hps].
  destruct ps as [|q ps]; [by apply split_on_none|].
  change (join_with [c] (p :: q :: ps)) with (p ++ c :: join_with [c] (q :: ps)).
  rewrite split_on_app by done. f_equal. by apply IH.
Qed.

Lemma find_byte_app c a b : c ∉ a → find_byte c (a ++ c :: b) = Some (a, b).
Proof.
  induction a as [|d a IH]; simpl; intros H; [by rewrite bool_decide_true|].
  apply not_elem_of_cons in H as [H1 H2]. rewrite bool_decide_false by done. by rewrite IH.
Qed.

Lemma find_byte_None c s : c ∉ s → find_byte c s = None.
Proof.
  induction s as [|d s IH]; simpl; intros H; [done|].
  apply not_elem_of_cons in H as [H1 H2]. rewrite bool_decide_false by done. by rewrite IH.
Qed.

(** ** Lemmas: decimal numbers *)

Lemma digit_val_digit d : (0 <= d < 10)%Z → digit_val (digit d) = Some d.
Proof.
  intros. unfold digit_val, digit. rewrite N_ascii_embedding by lia.
  rewrite Z2N.id by lia. split_ifs; [f_equal; lia|].
  match goal with H : _ && _ = false |- _ => apply andb_false_iff in H end.
  destruct_or?; bool_hyps; lia.
Qed.

Lemma parse_show_digits fuel n acc :
  (0 < fuel)%nat → (0 <= n < 10 ^ Z.of_nat fuel)%Z → (n <= u32_max)%Z →
  parse_digits 0 (show_digits fuel n acc) = parse_digits n acc.
Proof.
  revert n acc. induction fuel as [|f IH]; [lia|]. intros n acc _ Hn Hmax.
  pose proof (Z.mod_pos_bound n 10 ltac:(lia)). pose proof (Z.div_mod n 10 ltac:(lia)).
  cbn [show_digits]. destruct (Z.ltb_spec n 10).
  - cbn [parse_digits]. rewrite Z.mod_small, digit_val_digit by lia.
    rewrite Z.mul_0_l, Z.add_0_l. by rewrite (proj2 (Z.leb_le _ _)) by done.
  - destruct f as [|f]; [simpl in Hn; lia|].
    rewrite Nat2Z.inj_succ, Z.pow_succ_r in Hn by lia.
    pose proof (Z.div_lt_upper_bound n 10 (10 ^ Z.of_nat (S f)) ltac:(lia) ltac:(lia)).
    pose proof (Z.div_pos n 10 ltac:(lia) ltac:(lia)).
    rewrite IH by lia. cbn [parse_digits]. rewrite digit_val_digit by lia.
    replace (n / 10 * 10 + n mod 10)%Z with n by lia.
    by rewrite (proj2 (Z.leb_le _ _)) by done.
Qed.

Definition is_digit (c : ascii) : Prop := ∃ d, (0 <= d < 10)%Z ∧ c = digit d.

Lemma show_digits_digits fuel n acc :
  Forall is_digit acc → Forall is_digit (show_digits fuel n acc).
Proof.
  revert n acc. induction fuel as [|f IH]; intros n acc H; cbn [show_digits]; [done|].
  assert (is_digit (digit (n mod 10))) as Hd.
  { eexists. split; [|done]. apply Z.mod_pos_bound. lia. }
  case_match; auto.
Qed.

Lemma show_digits_nonempty fuel n acc : (0 < fuel)%nat → show_digits fuel n acc ≠ [].
Proof.
  revert n acc. induction fuel as [|f IH]; [lia|]. intros n acc _. cbn [show_digits].
  case_match; [done|]. destruct f; [done|]. apply IH. lia.
Qed.

Lemma show_u32_digits n : Forall is_digit (show_u32 n).
Proof. by apply show_digits_digits. Qed.

Lemma show_u32_nonempty n : show_u32 n ≠ [].
Proof. apply show_digits_nonempty. lia. Qed.

Lemma is_digit_code c : is_digit c → (48 ≤ N_of_ascii c ≤ 57)%N.
Proof. intros (d & Hd & ->). unfold digit. rewrite N_ascii_embedding; lia. Qed.

Lemma digits_not_elem c s : Forall is_digit s → ¬ (48 ≤ N_of_ascii c ≤ 57)%N → c ∉ s.
Proof.
  intros Hs Hc Hin. rewrite Forall_forall in Hs.
  by apply Hc, is_digit_code, Hs.
Qed.

Lemma digits_ascii s : Forall is_digit s → forallb is_ascii s = true.
Proof.
  induction 1 as [|c s Hc _ IH]; simpl; [done|]. rewrite IH, andb_true_r.
  apply is_digit_code in Hc. apply N.ltb_lt. lia.
Qed.

Lemma parse_show_u32 n : is_u32 n → parse_u32 (show_u32 n) = Some n.
Proof.
  unfold is_u32, u32_max. intros Hn. unfold parse_u32.
  pose proof (show_u32_nonempty n). pose proof (show_u32_digits n) as Hd.
  assert (parse_digits 0 (show_u32 n) = Some n) as Hp.
  { unfold show_u32. apply parse_show_digits; [lia| |unfold u32_max; lia].
    change (10 ^ Z.of_nat 10)%Z with 10000000000%Z. lia. }
  destruct (show_u32 n) as [|c s]; [done|]. inversion_clear Hd as [|? ? Hc _].
  apply is_digit_code in Hc. case_bool_decide; [|done]. subst c.
  exfalso. revert Hc. vm_compute. naive_solver.
Qed.

(** ** Words *)

Lemma words_word cur w c cs :
  is_whitespace c = true → cur ++ concat w ≠ [] → forallb (λ ch, negb (is_whitespace ch)) w = true →
  words_aux cur (w ++ c :: cs) = (cur ++ concat w) :: words_aux [] cs.
Proof.
  intros Hc. revert cur. induction w as [|ch w IH]; intros cur Hne Hw; simpl in *.
  - rewrite Hc. rewrite app_nil_r in *. by destruct cur.
  - bool_hyps. match goal with H : is_whitespace ch = false |- _ => rewrite H end.
    rewrite IH; [by rewrite <-app_assoc|by rewrite <-app_assoc|done].
Qed.

Lemma words_cons_nonempty cur w cs : is_whitespace w = false → w ≠ [] → words_aux cur (w :: cs) ≠ [].
Proof.
  intros Hw Hne. simpl. rewrite Hw.
  assert (∀ cs cur, cur ≠ [] → words_aux cur cs ≠ []) as H.
  { clear. induction cs as [|c cs IH]; intros cur Hc; simpl; [by destruct cur|].
    destruct (is_whitespace c); [by destruct cur|]. apply IH. by destruct cur. }
  apply H. by destruct cur.
Qed.

(** A word of printable ASCII text followed by a space. *)
Definition printable (c : ascii) : Prop := is_ascii c = true ∧ is_whitespace [c] = false.

Lemma printable_ascii w : Forall printable w → forallb is_ascii w = true.
Proof. induction 1 as [|c w [Hc _] _ IH]; simpl; [done|]. by rewrite Hc, IH. Qed.

Lemma printable_words w :
  Forall printable w → forallb (λ ch, negb (is_whitespace ch)) (map (λ c, [c]) w) = true.
Proof. induction 1 as [|c w [_ Hc] _ IH]; simpl; [done|]. by rewrite Hc, IH. Qed.

Lemma concat_singletons (w : str) : concat (map (λ c, [c]) w) = w.
Proof. induction w; simpl; congruence. Qed.

Lemma split_whitespace_word w s :
  w ≠ [] → Forall printable w →
  split_whitespace (w ++ " "%char :: s) = w :: split_whitespace s.
Proof.
  intros Hne Hp. unfold split_whitespace. pose proof (printable_ascii w Hp) as Ha.
  rewrite chars_app by (by apply is_utf8_ascii). rewrite chars_ascii by done.
  change (" "%char :: s) with ([" "%char] ++ s). rewrite chars_char_app by done.
  rewrite words_word; [by rewrite concat_singletons|done|by rewrite concat_singletons|].
  by apply printable_words.
Qed.

Lemma digit_printable c : is_digit c → printable c.
Proof.
  intros H%is_digit_code. split; [apply N.ltb_lt; lia|].
  unfold is_whitespace, white_space. simpl.
  repeat match goal with
  | |- context [(?x =? ?y)%N] => destruct (N.eqb_spec x y); [lia|]
  | |- context [(?x <=? ?y)%N] => destruct (N.leb_spec x y); try lia
  end; done.
Qed.

Lemma show_u32_printable n : Forall printable (show_u32 n).
Proof. eapply Forall_impl; [apply show_u32_digits|]. apply digit_printable. Qed.

Lemma split_once_none c s : c ∉ s → split_once [c] s = None.
Proof.
  induction s as [|d s IH]; intros H; [done|]. apply not_elem_of_cons in H as [Hd Hs].
  simpl. rewrite bool_decide_false by done. simpl. by rewrite IH.
Qed.

Lemma split_once_first c a b : c ∉ a → split_once [c] (a ++ c :: b) = Some (a, b).
Proof.
  induction a as [|d a IH]; intros H; simpl; [by rewrite bool_decide_true|].
  apply not_elem_of_cons in H as [Hd Hs]. rewrite bool_decide_false by done. by rewrite IH.
Qed.
