(* ===== verification/LineRange.v ===== *)
(** * Line ranges

    Models [LineRange] of src/src/authorship/authorship_log.rs: a single line
    or an inclusive range of [u32] lines, its tests, its subtraction, the
    compression of a sorted list of lines, its expansion and its shift.  The
    theorems relate every operation to the set of lines a range denotes. *)

From S2P Require Import Prelude.

Local Open Scope Z_scope.

(** ** Data and operations *)

Module LineRange.

Inductive LineRange : Type :=
  | Single (l : Z)
  | Range (s e : Z).

#[export] Instance LineRange_eq_dec : EqDecision LineRange.
Proof. solve_decision. Defined.

Definition contains (r : LineRange) (line : Z) : bool :=
  match r with
  | Single l => l =? line
  | Range s e => (s <=? line) && (line <=? e)
  end.

Definition overlaps (r other : LineRange) : bool :=
  match r, other with
  | Single l1, Single l2 => l1 =? l2
  | Single l, Range s e => (s <=? l) && (l <=? e)
  | Range s e, Single l => (s <=? l) && (l <=? e)
  | Range s1 e1, Range s2 e2 => (s1 <=? e2) && (s2 <=? e1)
  end.

Definition remove (r to_remove : LineRange) : list LineRange :=
  match r, to_remove with
  | Single l, Single x => if l =? x then [] else [r]
  | Single l, Range s e => if (s <=? l) && (l <=? e) then [] else [r]
  | Range s e, Single x =>
      if (x <? s) || (e <? x) then [r]
      else if (x =? s) && (x =? e) then []
      else if x =? s then [Range (u32_add s 1) e]
      else if x =? e then [Range s (u32_sub e 1)]
      else [Range s (u32_sub x 1); Range (u32_add x 1) e]
  | Range s1 e1, Range s2 e2 =>
      if (e1 <? s2) || (e2 <? s1) then [r]
      else
        (if s1 <? s2 then [Range s1 (u32_sub s2 1)] else []) ++
        (if e2 <? e1 then [Range (u32_add e2 1) e1] else [])
  end.

(** The range that [compress_lines] pushes when it closes a run. *)
Definition close_run (s e : Z) : LineRange := if s =? e then Single s else Range s e.

(** The loop over the lines after the first. *)
Fixpoint compress_loop (current_start current_end : Z) (rest : list Z) : list LineRange :=
  match rest with
  | [] => [close_run current_start current_end]
  | line :: rest' =>
      if line =? u32_add current_end 1 then compress_loop current_start line rest'
      else close_run current_start current_end :: compress_loop line line rest'
  end.

Definition compress_lines (lines : list Z) : list LineRange :=
  match lines with
  | [] => []
  | l :: rest => compress_loop l l rest
  end.

Definition expand (r : LineRange) : list Z :=
  match r with
  | Single l => [l]
  | Range s e => seqZ s (e - s + 1)
  end.

(** The closure [apply_offset] of [shift]: [i64] arithmetic, [None] outside [u32]. *)
Definition apply_offset (insertion_point offset line : Z) : option Z :=
  if insertion_point <=? line then
    let shifted := line + offset in
    if (0 <=? shifted) && (shifted <=? u32_max) then Some shifted else None
  else Some line.

Definition shift (r : LineRange) (insertion_point offset : Z) : option LineRange :=
  match r with
  | Single l =>
      try new_line := apply_offset insertion_point offset l in
      Some (Single new_line)
  | Range s e =>
      try new_start := apply_offset insertion_point offset s in
      try new_end := apply_offset insertion_point offset e in
      if new_start <=? new_end then
        if new_start =? new_end then Some (Single new_start)
        else Some (Range new_start new_end)
      else None
  end.

(** [Display]: the debugging form, not the one written to notes. *)
Definition display (r : LineRange) : str :=
  match r with
  | Single l => show_u32 l
  | Range s e => lit "[" ++ show_u32 s ++ lit ", " ++ show_u32 e ++ lit "]"
  end.

(** ** What a list of ranges denotes *)

Definition contains_any (rs : list LineRange) (line : Z) : bool :=
  existsb (λ r, contains r line) rs.

(** Bounds that hold of every range built from [u32] lines. *)
Definition in_u32 (r : LineRange) : Prop :=
  match r with
  | Single l => is_u32 l
  | Range s e => is_u32 s ∧ is_u32 e
  end.

Definition start_of (r : LineRange) : Z := match r with Single l => l | Range s _ => s end.
Definition end_of (r : LineRange) : Z := match r with Single l => l | Range _ e => e end.

(** Canonical lists: nonempty ranges in increasing order, never adjacent, a
    one-line range written [Single]. *)
Definition proper (r : LineRange) : Prop :=
  match r with Single _ => True | Range s e => s < e end.
Definition separated (a b : LineRange) : Prop := end_of a + 1 < start_of b.
Definition canonical (rs : list LineRange) : Prop :=
  Forall proper rs ∧ StronglySorted separated rs.

End LineRange.

(** ** Lemmas *)

Module LineRangeFacts.
Import LineRange.

Lemma contains_any_app a b l :
  contains_any (a ++ b) l = contains_any a l || contains_any b l.
Proof. apply existsb_app. Qed.

Lemma contains_any_true rs l :
  contains_any rs l = true ↔ ∃ r, r ∈ rs ∧ contains r l = true.
Proof.
  unfold contains_any. rewrite existsb_exists. by setoid_rewrite list_elem_of_In.
Qed.

Lemma elem_of_expand r l : l ∈ expand r ↔ contains r l = true.
Proof.
  destruct r as [x|s e]; simpl.
  - rewrite list_elem_of_singleton, Z.eqb_eq. naive_solver.
  - rewrite elem_of_seqZ, andb_true_iff, !Z.leb_le. lia.
Qed.

Lemma elem_of_flat_expand rs l :
  l ∈ flat_map expand rs ↔ contains_any rs l = true.
Proof.
  rewrite contains_any_true, list_elem_of_In, in_flat_map.
  setoid_rewrite <-list_elem_of_In. by setoid_rewrite elem_of_expand.
Qed.

Lemma contains_u32 r l : in_u32 r → contains r l = true → is_u32 l.
Proof. destruct r; simpl; unfold is_u32; intros; bool_hyps; lia. Qed.

Lemma expand_u32 rs : Forall in_u32 rs → Forall is_u32 (flat_map expand rs).
Proof.
  intros H. apply Forall_forall. intros l Hl%elem_of_flat_expand%contains_any_true.
  destruct Hl as (r & Hr & Hl). rewrite Forall_forall in H. eauto using contains_u32.
Qed.

Lemma contains_close_run s e l : contains (close_run s e) l = (s <=? l) && (l <=? e).
Proof. unfold close_run. destruct (Z.eqb_spec s e); simpl; [subst; bool_lia|done]. Qed.

Lemma expand_close_run s e : s <= e → expand (close_run s e) = seqZ s (e - s + 1).
Proof.
  intros. unfold close_run. destruct (Z.eqb_spec s e); simpl; [|done].
  subst. by replace (e - e + 1) with 1 by lia.
Qed.

(** [remove] stays in [u32] and never wraps. *)
Lemma remove_in_u32 r t : in_u32 r → in_u32 t → Forall in_u32 (remove r t).
Proof.
  intros Hr Ht.
  destruct r as [x|s e], t as [y|s' e']; simpl in *; split_ifs;
    repeat constructor; simpl; unfold is_u32 in *; try lia; u32; lia.
Qed.

Lemma remove_spec r t l :
  in_u32 r → in_u32 t →
  contains_any (remove r t) l = contains r l && negb (contains t l).
Proof.
  unfold contains_any. intros Hr Ht.
  destruct r as [x|s e], t as [y|s' e']; simpl in *; unfold is_u32, u32_max in *;
    split_ifs; simpl; u32;
    repeat match goal with H : _ || _ = true |- _ => apply orb_true_iff in H end;
    bool_hyps; subst; try bool_lia.
  all: destruct Heqb as [Heqb|Heqb]; bool_hyps; bool_lia.
Qed.

Lemma remove_all_spec rs t l :
  Forall in_u32 rs → in_u32 t →
  contains_any (flat_map (λ r, remove r t) rs) l = contains_any rs l && negb (contains t l).
Proof.
  intros Hrs Ht. induction Hrs as [|r rs Hr _ IH]; [done|]. simpl.
  rewrite contains_any_app, IH, remove_spec by done. fold (contains_any rs l).
  by destruct (contains r l), (contains_any rs l), (contains t l).
Qed.

Lemma remove_all_in_u32 rs t :
  Forall in_u32 rs → in_u32 t → Forall in_u32 (flat_map (λ r, remove r t) rs).
Proof.
  intros Hrs Ht. induction Hrs; simpl; [constructor|].
  apply Forall_app. auto using remove_in_u32.
Qed.

(** The loop of [compress_lines] expands back to the lines it was given. *)
Lemma compress_loop_expand s e rest :
  s <= e → is_u32 e → Forall is_u32 rest → StronglySorted Z.lt (e :: rest) →
  flat_map expand (compress_loop s e rest) = seqZ s (e - s + 1) ++ rest.
Proof.
  revert s e. induction rest as [|x rest IH]; intros s e Hse He Hu Hs; simpl.
  { by rewrite expand_close_run, app_nil_r. }
  inversion_clear Hu. inversion_clear Hs as [|? ? Hs' Hx]. inversion_clear Hx.
  unfold is_u32, u32_max in *. u32. destruct (Z.eqb_spec x (e + 1)) as [->|].
  - rewrite IH by (done || lia).
    replace (e + 1 - s + 1) with ((e - s + 1) + 1) by lia.
    rewrite seqZ_app by lia. rewrite <-app_assoc.
    replace (s + (e - s + 1)) with (e + 1) by lia. done.
  - simpl. rewrite expand_close_run, IH by (done || lia).
    by replace (x - x + 1) with 1 by lia.
Qed.

Lemma compress_expand_eq lines :
  Forall is_u32 lines → StronglySorted Z.lt lines →
  flat_map expand (compress_lines lines) = lines.
Proof.
  intros Hu Hs. destruct lines as [|x rest]; [done|]. inversion_clear Hu. simpl.
  rewrite compress_loop_expand by (done || lia).
  by replace (x - x + 1) with 1 by lia.
Qed.

Lemma close_run_start s e : start_of (close_run s e) = s.
Proof. unfold close_run. by case_match. Qed.
Lemma close_run_end s e : end_of (close_run s e) = e.
Proof. unfold close_run. destruct (Z.eqb_spec s e); simpl; lia. Qed.
Lemma close_run_proper s e : s <= e → proper (close_run s e).
Proof. unfold close_run. destruct (Z.eqb_spec s e); simpl; lia. Qed.
Lemma close_run_in_u32 s e : is_u32 s → is_u32 e → in_u32 (close_run s e).
Proof. unfold close_run. case_match; simpl; auto. Qed.

Lemma compress_loop_in_u32 s e rest :
  is_u32 s → is_u32 e → Forall is_u32 rest → Forall in_u32 (compress_loop s e rest).
Proof.
  revert s e. induction rest as [|x rest IH]; intros s e Hs He Hu; simpl.
  { repeat constructor. by apply close_run_in_u32. }
  inversion_clear Hu. case_match; auto using close_run_in_u32.
Qed.

Lemma compress_in_u32 lines : Forall is_u32 lines → Forall in_u32 (compress_lines lines).
Proof. intros H. destruct H; simpl; auto using compress_loop_in_u32. Qed.

(** Every range a run closes later starts at or after the run. *)
Lemma compress_loop_starts s e rest lo :
  lo <= s → Forall (λ x, lo <= x) rest →
  Forall (λ r, lo <= start_of r) (compress_loop s e rest).
Proof.
  revert s e. induction rest as [|x rest IH]; intros s e Hs Hr; simpl.
  { repeat constructor. by rewrite close_run_start. }
  inversion_clear Hr. case_match; auto. constructor; [by rewrite close_run_start|auto].
Qed.

Lemma compress_loop_canonical s e rest :
  s <= e → is_u32 e → Forall is_u32 rest → StronglySorted Z.lt (e :: rest) →
  canonical (compress_loop s e rest).
Proof.
  revert s e. induction rest as [|x rest IH]; intros s e Hse He Hu Hs; simpl.
  { split; repeat constructor. by apply close_run_proper. }
  inversion_clear Hu. inversion_clear Hs as [|? ? Hs' Hx]. inversion_clear Hx.
  unfold is_u32, u32_max in *. u32. destruct (Z.eqb_spec x (e + 1)) as [->|].
  { apply IH; done || lia. }
  destruct (IH x x) as [IHp IHs]; try done || lia.
  split; constructor; try done; [by apply close_run_proper|].
  inversion_clear Hs' as [|? ? _ Hr].
  assert (Forall (λ r, x <= start_of r) (compress_loop x x rest)) as Hst.
  { apply compress_loop_starts; [lia|]. eapply Forall_impl; [exact Hr|]. intros; lia. }
  eapply Forall_impl; [exact Hst|]. unfold separated. intros. rewrite close_run_end. lia.
Qed.

Lemma compress_canonical lines :
  Forall is_u32 lines → StronglySorted Z.lt lines → canonical (compress_lines lines).
Proof.
  intros Hu Hs. destruct lines as [|x rest]; [split; constructor|].
  inversion_clear Hu. apply compress_loop_canonical; done || lia.
Qed.

Lemma contains_any_compress lines l :
  Forall is_u32 lines → StronglySorted Z.lt lines →
  contains_any (compress_lines lines) l = true ↔ l ∈ lines.
Proof. intros. by rewrite <-elem_of_flat_expand, compress_expand_eq. Qed.

(** A run that is already open absorbs the consecutive lines that follow. *)
Lemma compress_loop_absorb s e n rest :
  is_u32 (e + Z.of_nat n) → 0 <= e →
  compress_loop s e (seqZ (e + 1) (Z.of_nat n) ++ rest) =
  compress_loop s (e + Z.of_nat n) rest.
Proof.
  revert e. induction n as [|n IH]; intros e He H0; [by rewrite Z.add_0_r|].
  unfold is_u32, u32_max in *. rewrite seqZ_cons by lia. simpl. u32.
  rewrite Z.eqb_refl. replace (Z.pred (Z.of_nat (S n))) with (Z.of_nat n) by lia.
  replace (Z.succ (e + 1)) with (e + 1 + 1) by lia.
  rewrite IH by lia. f_equal. lia.
Qed.

Lemma expand_proper r :
  proper r → expand r = seqZ (start_of r) (end_of r - start_of r + 1).
Proof. destruct r; simpl; [|done]. by replace (l - l + 1) with 1 by lia. Qed.

Lemma close_run_of r : proper r → close_run (start_of r) (end_of r) = r.
Proof. unfold close_run. destruct r; simpl; intros; case_match; bool_hyps; done || lia. Qed.

Lemma proper_le r : proper r → start_of r <= end_of r.
Proof. destruct r; simpl; lia. Qed.

Lemma in_u32_bounds r : in_u32 r ↔ is_u32 (start_of r) ∧ is_u32 (end_of r).
Proof. destruct r; simpl; tauto. Qed.

Lemma compress_loop_flush r s e rs :
  is_u32 e → in_u32 r → proper r → e + 1 < start_of r →
  compress_loop s e (expand r ++ flat_map expand rs) =
  close_run s e :: compress_loop (start_of r) (end_of r) (flat_map expand rs).
Proof.
  intros He Hu Hp Hg. apply in_u32_bounds in Hu. pose proof (proper_le r Hp).
  unfold is_u32, u32_max in *. rewrite expand_proper by done.
  rewrite seqZ_cons by lia. simpl. u32.
  destruct (Z.eqb_spec (start_of r) (e + 1)); [lia|]. f_equal.
  replace (Z.pred (end_of r - start_of r + 1)) with (Z.of_nat (Z.to_nat (end_of r - start_of r)))
    by lia.
  rewrite <-Z.add_1_r, compress_loop_absorb by (unfold is_u32, u32_max; lia).
  f_equal. lia.
Qed.

Lemma compress_loop_of_canonical rs s e :
  is_u32 e → Forall in_u32 rs → Forall proper rs → StronglySorted separated rs →
  Forall (λ r, e + 1 < start_of r) rs →
  compress_loop s e (flat_map expand rs) = close_run s e :: rs.
Proof.
  revert s e. induction rs as [|r rs IH]; intros s e He Hu Hp Hs Hg; [done|].
  inversion_clear Hu. inversion_clear Hp. inversion_clear Hs as [|? ? Hs' Hr].
  inversion_clear Hg. change (flat_map expand (r :: rs)) with (expand r ++ flat_map expand rs).
  rewrite compress_loop_flush by done.
  rewrite IH; [by rewrite close_run_of|by apply in_u32_bounds|done..].
Qed.

Lemma compress_of_canonical rs :
  Forall in_u32 rs → canonical rs → compress_lines (flat_map expand rs) = rs.
Proof.
  intros Hu [Hp Hs]. destruct rs as [|r rs]; [done|].
  inversion_clear Hu as [|? ? Hr Hu']. inversion_clear Hp as [|? ? Hpr Hp'].
  inversion_clear Hs as [|? ? Hs' Hsep].
  pose proof (proper_le r Hpr). apply in_u32_bounds in Hr as [Hr1 Hr2].
  change (flat_map expand (r :: rs)) with (expand r ++ flat_map expand rs).
  rewrite expand_proper by done. rewrite seqZ_cons by lia. simpl.
  replace (Z.pred (end_of r - start_of r + 1)) with (Z.of_nat (Z.to_nat (end_of r - start_of r)))
    by lia.
  rewrite <-Z.add_1_r, compress_loop_absorb by (unfold is_u32, u32_max in *; lia).
  replace (start_of r + Z.of_nat (Z.to_nat (end_of r - start_of r))) with (end_of r) by lia.
  rewrite compress_loop_of_canonical by done. by rewrite close_run_of.
Qed.

Lemma apply_offset_Some p off l x :
  apply_offset p off l = Some x →
  (p <= l ∧ x = l + off ∧ is_u32 x) ∨ (l < p ∧ x = l).
Proof.
  unfold apply_offset, is_u32. split_ifs; intros [= <-]; lia.
Qed.

Lemma apply_offset_back p off l x :
  0 <= off → is_u32 l → apply_offset p off l = Some x → apply_offset p (- off) x = Some l.
Proof.
  intros Ho Hl H. apply apply_offset_Some in H. unfold apply_offset, is_u32 in *.
  split_ifs; try (f_equal; lia); exfalso; lia.
Qed.

End LineRangeFacts.

(** ** Properties *)

Module LineRangeProps.
Import LineRange LineRangeFacts.

(** [remove] is set subtraction: the remaining parts cover exactly the
    lines of the range that are not removed, they are ranges of [u32] lines
    again (none of the [+ 1] and [- 1] wraps), and a range that does not
    overlap is returned as it is. *)
Theorem remove_subtracts (r t : LineRange) :
  in_u32 r → in_u32 t →
  Forall in_u32 (remove r t) ∧
  (∀ l, contains_any (remove r t) l = contains r l && negb (contains t l)) ∧
  (overlaps r t = false → remove r t = [r]).
Proof.
  intros Hr Ht. split; [by apply remove_in_u32|]. split; [intros; by apply remove_spec|].
  clear Hr Ht. destruct r, t; simpl; intros Ho; split_ifs; try done; exfalso;
    rewrite ?andb_false_iff in *; bool_hyps; destruct_or?; bool_hyps; lia.
Qed.

(** [compress_lines] and [expand] are inverse bijections between strictly
    increasing lists of [u32] lines and canonical lists of ranges (proper,
    sorted, separated by at least one missing line). *)
Theorem compress_expand_bijection :
  (∀ lines, Forall is_u32 lines → StronglySorted Z.lt lines →
     canonical (compress_lines lines) ∧ flat_map expand (compress_lines lines) = lines) ∧
  (∀ rs, Forall in_u32 rs → canonical rs → compress_lines (flat_map expand rs) = rs).
Proof.
  split; [|apply compress_of_canonical].
  intros. split; [by apply compress_canonical|by apply compress_expand_eq].
Qed.

(** [shift] moves the lines of a range at or after the insertion point by
    the offset, and inserting lines and then deleting the same number at the
    same point gives the range back. *)
Theorem shift_moves_lines (r r' : LineRange) (p off : Z) :
  in_u32 r → proper r → shift r p off = Some r' →
  (p <= start_of r → ∀ l, contains r' (l + off) = contains r l) ∧
  (end_of r < p → r' = r) ∧
  (0 <= off → shift r' p (- off) = Some r).
Proof.
  intros Hu Hp Hs. apply in_u32_bounds in Hu as [H1 H2]. pose proof (proper_le r Hp).
  assert (∃ a b, apply_offset p off (start_of r) = Some a ∧
    apply_offset p off (end_of r) = Some b ∧ a <= b ∧ r' = close_run a b) as (a & b & Ha & Hb & Hab & ->).
  { destruct r as [l|s e]; simpl in *; unfold close_run.
    - destruct (apply_offset p off l) as [x|]; [|done]. injection Hs as <-.
      exists x, x. rewrite Z.eqb_refl. repeat split; lia.
    - destruct (apply_offset p off s) as [a|], (apply_offset p off e) as [b|]; try done.
      exists a, b. revert Hs. split_ifs; intros [= <-]; done. }
  pose proof (apply_offset_Some _ _ _ _ Ha). pose proof (apply_offset_Some _ _ _ _ Hb).
  split_and!.
  - intros Hle l. rewrite contains_close_run. destruct r; simpl in *; bool_lia.
  - intros Hle. rewrite <-(close_run_of r) by done. f_equal; lia.
  - intros Ho. apply (apply_offset_back _ _ _ _ Ho H1) in Ha.
    apply (apply_offset_back _ _ _ _ Ho H2) in Hb.
    unfold close_run. destruct (Z.eqb_spec a b) as [<-|]; simpl; rewrite Ha.
    + rewrite Ha in Hb. injection Hb as Hb.
      destruct r; simpl in *; [done|lia].
    + rewrite Hb. destruct r; simpl in *; [lia|]. split_ifs; done || lia.
Qed.

(** *** Witnesses *)

Lemma remove_subtracts_witness :
  remove (Range 1 10) (Range 4 6) = [Range 1 3; Range 7 10] ∧
  contains_any (remove (Range 1 10) (Range 4 6)) 5 = false.
Proof.
  split; [reflexivity|].
  destruct (remove_subtracts (Range 1 10) (Range 4 6)) as (_ & H & _);
    [unfold in_u32, is_u32, u32_max; lia..|].
  rewrite H. reflexivity.
Defined.

Lemma compress_expand_bijection_witness :
  compress_lines [1; 2; 3; 7] = [Range 1 3; Single 7] ∧
  flat_map expand (compress_lines [1; 2; 3; 7]) = [1; 2; 3; 7].
Proof.
  split; [reflexivity|]. apply (proj1 compress_expand_bijection).
  - repeat constructor; unfold is_u32, u32_max; lia.
  - repeat constructor; lia.
Defined.

Lemma shift_moves_lines_witness :
  shift (Range 10 20) 15 5 = Some (Range 10 25) ∧ shift (Range 10 25) 15 (-5) = Some (Range 10 20).
Proof.
  split; [reflexivity|].
  apply (shift_moves_lines (Range 10 20) (Range 10 25) 15 5);
    [unfold in_u32, is_u32, u32_max|unfold proper|reflexivity|]; lia.
Defined.

End LineRangeProps.
