(* ===== verification/AuthorshipLog.v ===== *)
(** * The authorship log

    Models the records of src/src/authorship/authorship_log.rs and
    src/src/authorship/authorship_log_serialization.rs: session records with
    the model observed per trace, the attestations of a note, the keys that
    name prompts, sessions and humans, and the lookup of a line's author.
    The hash function, Unicode normalization and the notes of the repository
    are parameters.  [HashMap] and [BTreeMap] are finite maps; the only
    iterations over them in this file do not depend on the order. *)

From S2P Require Import Prelude Text LineRange.

Module AuthorshipLog.
Import LineRange.

(** ** Records *)

Record Author := mkAuthor { username : str; email : str }.

Record AgentId := mkAgentId { tool : str; agent_id_id : str; model : str }.

Record HumanRecord := mkHumanRecord { human_record_author : str }.

Record PromptRecord := mkPromptRecord {
  prompt_agent_id : AgentId;
  prompt_human_author : option str;
  messages_url : option str;
  total_additions : Z;
  total_deletions : Z;
  accepted_lines : Z;
  overriden_lines : Z;
  prompt_custom_attributes : option (gmap str str)
}.

Record SessionRecord := mkSessionRecord {
  session_agent_id : AgentId;
  trace_models : gmap str str;
  session_human_author : option str;
  session_custom_attributes : option (gmap str str)
}.

Definition set_trace_models (s : SessionRecord) (m : gmap str str) : SessionRecord :=
  mkSessionRecord (session_agent_id s) m (session_human_author s) (session_custom_attributes s).

Definition set_model (a : AgentId) (m : str) : AgentId := mkAgentId (tool a) (agent_id_id a) m.

Record AuthorshipMetadata := mkMetadata {
  schema_version : str;
  git_ai_version : option str;
  base_commit_sha : str;
  prompts : gmap str PromptRecord;
  humans : gmap str HumanRecord;
  sessions : gmap str SessionRecord
}.

Definition set_sessions (m : AuthorshipMetadata) (ss : gmap str SessionRecord) : AuthorshipMetadata :=
  mkMetadata (schema_version m) (git_ai_version m) (base_commit_sha m) (prompts m) (humans m) ss.

Record AttestationEntry := mkEntry { hash : str; line_ranges : list LineRange }.

Record FileAttestation := mkFile { file_path : str; entries : list AttestationEntry }.

Record AuthorshipLog := mkLog {
  attestations : list FileAttestation;
  metadata : AuthorshipMetadata
}.

#[export] Instance AttestationEntry_eq_dec : EqDecision AttestationEntry.
Proof. solve_decision. Defined.

(** ** Session records *)

Definition agent_id_for_author (s : SessionRecord) (author_id : str) : AgentId :=
  match split_once (lit "::") author_id with
  | Some (_, trace_id) =>
      match trace_models s !! trace_id with
      | Some m => set_model (session_agent_id s) m
      | None => session_agent_id s
      end
  | None => session_agent_id s
  end.

Definition record_trace_model (s : SessionRecord) (trace_id m : str) : SessionRecord :=
  match trace_models s !! trace_id with
  | Some _ => s
  | None => set_trace_models s (<[trace_id := m]> (trace_models s))
  end.

Definition merge_from (s other : SessionRecord) : SessionRecord :=
  foldl (λ acc '(trace_id, m), record_trace_model acc trace_id m) s
    (map_to_list (trace_models other)).

(** The traces referenced per session by a list of author ids. *)
Definition add_reference (referenced : gmap str (gset str)) (author_id : str) : gmap str (gset str) :=
  match split_once (lit "::") author_id with
  | Some (session_id, trace_id) =>
      <[session_id := {[trace_id]} ∪ default ∅ (referenced !! session_id)]> referenced
  | None => referenced
  end.

Definition referenced_traces (author_ids : list str) : gmap str (gset str) :=
  foldl add_reference ∅ author_ids.

Definition retain_session (referenced : gmap str (gset str)) (session_id : str)
    (session : SessionRecord) : SessionRecord :=
  set_trace_models session
    (filter (λ kv : str * str, kv.1 ∈ default (∅ : gset str) (referenced !! session_id))
       (trace_models session)).

Definition retain_referenced_trace_models (ss : gmap str SessionRecord) (author_ids : list str) :
    gmap str SessionRecord :=
  let referenced := referenced_traces author_ids in
  map_imap (λ session_id session, Some (retain_session referenced session_id session)) ss.

Definition to_prompt_record_for_author (s : SessionRecord) (author_id : str) : PromptRecord :=
  mkPromptRecord (agent_id_for_author s author_id) (session_human_author s) None 0 0 0 0
    (session_custom_attributes s).

Definition to_prompt_record (s : SessionRecord) : PromptRecord := to_prompt_record_for_author s [].

(** ** Attestation entries *)

Definition remove_line_ranges (e : AttestationEntry) (to_remove : list LineRange) : AttestationEntry :=
  mkEntry (hash e)
    (foldl (λ current_ranges remove_range,
              flat_map (λ existing_range, remove existing_range remove_range) current_ranges)
       (line_ranges e) to_remove).

Definition shift_line_ranges (e : AttestationEntry) (insertion_point offset : Z) : AttestationEntry :=
  mkEntry (hash e) (omap (λ range, shift range insertion_point offset) (line_ranges e)).

Definition add_entry (f : FileAttestation) (e : AttestationEntry) : FileAttestation :=
  mkFile (file_path f) (entries f ++ [e]).

(** ** The log *)

Definition AUTHORSHIP_LOG_VERSION : str := lit "authorship/3.0.0".

Definition new_metadata (version : str) : AuthorshipMetadata :=
  mkMetadata AUTHORSHIP_LOG_VERSION (Some version) [] ∅ ∅ ∅.

Definition new_log (version : str) : AuthorshipLog := mkLog [] (new_metadata version).

(** [f] applied to the first attestation of a file. *)
Fixpoint update_first (file : str) (f : FileAttestation → FileAttestation)
    (l : list FileAttestation) : list FileAttestation :=
  match l with
  | [] => []
  | a :: l' => if str_eqb (file_path a) file then f a :: l' else a :: update_first file f l'
  end.

(** [get_or_create_file] returns a mutable reference; [f] is what the caller
    does through it. *)
Definition get_or_create_file (log : AuthorshipLog) (file : str)
    (f : FileAttestation → FileAttestation) : AuthorshipLog :=
  let atts :=
    if existsb (λ a, str_eqb (file_path a) file) (attestations log) then attestations log
    else attestations log ++ [mkFile file []] in
  mkLog (update_first file f atts) (metadata log).

(** The hashes of a log, in order. *)
Definition log_hashes (log : AuthorshipLog) : list str :=
  map hash (flat_map entries (attestations log)).

Definition retain_referenced (log : AuthorshipLog) : AuthorshipLog :=
  mkLog (attestations log)
    (set_sessions (metadata log)
       (retain_referenced_trace_models (sessions (metadata log)) (log_hashes log))).

(** ** Keys *)

Section Keys.
(** The hexadecimal SHA-256 digest of a text. *)
Variable sha256_hex : str → str.

Definition generate_short_hash (agent_id tool : str) : str :=
  take 16 (sha256_hex (tool ++ lit ":" ++ agent_id)).

Definition generate_human_short_hash (author_identity : str) : str :=
  lit "h_" ++ take 14 (sha256_hex author_identity).

Definition generate_session_id (agent_id tool : str) : str :=
  lit "s_" ++ take 14 (sha256_hex (tool ++ lit ":" ++ agent_id)).

(** [char::from_digit(idx, 16)] on the fourteen random indices. *)
Definition hex_digit (d : N) : ascii :=
  if (d <? 10)%N then ascii_of_N (48 + d) else ascii_of_N (87 + d).
Definition generate_trace_id (random : list N) : str := lit "t_" ++ map hex_digit (take 14 random).
End Keys.

(** ** The author of a line *)

(** The cache of prompt records looked up in other notes. *)
Abbreviation Cache := (gmap str (option PromptRecord)).

Section Lookup.
(** Unicode NFC normalization. *)
Variable nfc : str → str.
(** The notes of the repository: the commits whose note contains a text,
    latest first, and the log of a commit. *)
Variable search_notes : str → list str.
Variable read_authorship : str → option AuthorshipLog.

(** The file's attestation: an exact match first, else a match up to NFC. *)
Definition find_file (log : AuthorshipLog) (file : str) : option FileAttestation :=
  match List.find (λ f, str_eqb (file_path f) file) (attestations log) with
  | Some f => Some f
  | None => List.find (λ f, str_eqb (nfc (file_path f)) (nfc file)) (attestations log)
  end.

(** A prompt record found in another commit's note. *)
Definition foreign_prompt (h : str) : option PromptRecord :=
  match search_notes (DQUOTE :: h ++ [DQUOTE]) with
  | latest_sha :: _ =>
      match read_authorship latest_sha with
      | Some log => prompts (metadata log) !! h
      | None => None
      end
  | [] => None
  end.

Definition LineAuthor : Type := Author * option str * option PromptRecord.

(** One entry that covers the line: an answer, or [None] to try the entry
    before it; the cache of foreign prompts is threaded. *)
Definition resolve_entry (md : AuthorshipMetadata) (h : str) (cache : Cache) :
    option LineAuthor * Cache :=
  if starts_with (lit "h_") h then
    match humans md !! h with
    | Some human => (Some (mkAuthor (human_record_author human) [], Some h, None), cache)
    | None => (None, cache)
    end
  else if starts_with (lit "s_") h then
    let session_key := first_piece (lit "::") h in
    match sessions md !! session_key with
    | Some session =>
        (Some (mkAuthor (tool (session_agent_id session)) [], Some h,
               Some (to_prompt_record_for_author session h)), cache)
    | None => (None, cache)
    end
  else
    match prompts md !! h with
    | Some p => (Some (mkAuthor (tool (prompt_agent_id p)) [], Some h, Some p), cache)
    | None =>
        let '(result, cache') :=
          match cache !! h with
          | Some cached => (cached, cache)
          | None => let r := foreign_prompt h in (r, <[h := r]> cache)
          end in
        match result with
        | Some p => (Some (mkAuthor (tool (prompt_agent_id p)) [], Some h, Some p), cache')
        | None => (None, cache')
        end
    end.

(** The loop over the entries in reverse order. *)
Fixpoint scan_entries (md : AuthorshipMetadata) (line : Z) (es : list AttestationEntry)
    (cache : Cache) : option LineAuthor * Cache :=
  match es with
  | [] => (None, cache)
  | e :: es' =>
      if contains_any (line_ranges e) line then
        match resolve_entry md (hash e) cache with
        | (Some r, cache') => (Some r, cache')
        | (None, cache') => scan_entries md line es' cache'
        end
      else scan_entries md line es' cache
  end.

Definition get_line_attribution (log : AuthorshipLog) (file : str) (line : Z) (cache : Cache) :
    option LineAuthor * Cache :=
  match find_file log file with
  | Some f => scan_entries (metadata log) line (reverse (entries f)) cache
  | None => (None, cache)
  end.
End Lookup.

(** ** What a log says: the file, key and line triples it attests *)

Definition entries_cover (es : list AttestationEntry) (h : str) (line : Z) : Prop :=
  ∃ e, e ∈ es ∧ hash e = h ∧ contains_any (line_ranges e) line = true.

Definition files_cover (fs : list FileAttestation) (file h : str) (line : Z) : Prop :=
  ∃ f, f ∈ fs ∧ file_path f = file ∧ entries_cover (entries f) h line.

Definition covers (log : AuthorshipLog) (file h : str) (line : Z) : Prop :=
  files_cover (attestations log) file h line.

Definition files_in_u32 (fs : list FileAttestation) : Prop :=
  Forall (λ f, Forall (λ e, Forall in_u32 (line_ranges e)) (entries f)) fs.

End AuthorshipLog.

(** ** Lemmas *)

Module AuthorshipLogFacts.
Import LineRange LineRangeFacts AuthorshipLog.

Lemma elem_of_add_reference r a sid tid :
  tid ∈ default (∅ : gset str) (add_reference r a !! sid) ↔
  split_once (lit "::") a = Some (sid, tid) ∨ tid ∈ default (∅ : gset str) (r !! sid).
Proof.
  unfold add_reference. destruct (split_once _ a) as [[s t]|]; [|naive_solver].
  destruct (decide (s = sid)) as [->|Hne].
  - rewrite lookup_insert_eq. simpl. set_solver.
  - rewrite lookup_insert_ne by done. naive_solver.
Qed.

Lemma elem_of_referenced ids sid tid :
  tid ∈ default (∅ : gset str) (referenced_traces ids !! sid) ↔
  ∃ a, a ∈ ids ∧ split_once (lit "::") a = Some (sid, tid).
Proof.
  unfold referenced_traces.
  assert (∀ r, tid ∈ default (∅ : gset str) (foldl add_reference r ids !! sid) ↔
    tid ∈ default (∅ : gset str) (r !! sid) ∨
    ∃ a, a ∈ ids ∧ split_once (lit "::") a = Some (sid, tid)) as H.
  { induction ids as [|a ids IH]; intros r; simpl; [set_solver|].
    rewrite IH, elem_of_add_reference. set_solver. }
  rewrite H, lookup_empty. set_solver.
Qed.

Lemma record_trace_model_models s t m :
  trace_models (record_trace_model s t m) = trace_models s ∪ {[t := m]}.
Proof.
  unfold record_trace_model. apply map_eq. intros i.
  destruct (trace_models s !! t) eqn:E; simpl; rewrite lookup_union;
    (destruct (decide (i = t)) as [->|Hne];
     [rewrite lookup_singleton_eq|rewrite lookup_singleton_ne by done]);
    rewrite ?lookup_insert_eq, ?lookup_insert_ne by done; rewrite ?E; simpl; try done;
    by destruct (trace_models s !! i).
Qed.

Lemma record_trace_model_other s t m :
  session_agent_id (record_trace_model s t m) = session_agent_id s ∧
  session_human_author (record_trace_model s t m) = session_human_author s ∧
  session_custom_attributes (record_trace_model s t m) = session_custom_attributes s.
Proof. unfold record_trace_model. by destruct (trace_models s !! t). Qed.

Lemma merge_from_fold s (l : list (str * str)) :
  NoDup l.*1 →
  trace_models (foldl (λ acc '(t, m), record_trace_model acc t m) s l) =
  trace_models s ∪ list_to_map l ∧
  session_agent_id (foldl (λ acc '(t, m), record_trace_model acc t m) s l) = session_agent_id s ∧
  session_human_author (foldl (λ acc '(t, m), record_trace_model acc t m) s l)
    = session_human_author s ∧
  session_custom_attributes (foldl (λ acc '(t, m), record_trace_model acc t m) s l)
    = session_custom_attributes s.
Proof.
  revert s. induction l as [|[t m] l IH]; intros s Hnd; simpl.
  - by rewrite (right_id_L ∅ (∪)).
  - apply NoDup_cons in Hnd as [Hn Hnd]. destruct (IH (record_trace_model s t m) Hnd) as (-> & -> & -> & ->).
    destruct (record_trace_model_other s t m) as (-> & -> & ->).
    rewrite record_trace_model_models, <-(assoc_L (∪)), <-insert_union_singleton_l. done.
Qed.

Lemma merge_from_spec s o :
  merge_from s o =
  mkSessionRecord (session_agent_id s) (trace_models s ∪ trace_models o)
    (session_human_author s) (session_custom_attributes s).
Proof.
  destruct (merge_from_fold s (map_to_list (trace_models o)) (NoDup_fst_map_to_list _))
    as (H1 & H2 & H3 & H4).
  unfold merge_from in *. rewrite list_to_map_to_list in H1.
  destruct (foldl _ s _); simpl in *. by subst.
Qed.

Lemma remove_line_ranges_spec e rm l :
  Forall in_u32 (line_ranges e) → Forall in_u32 rm →
  contains_any (line_ranges (remove_line_ranges e rm)) l =
  contains_any (line_ranges e) l && negb (contains_any rm l).
Proof.
  simpl. generalize (line_ranges e) as rs. intros rs Hrs Hrm. revert rs Hrs.
  induction Hrm as [|t rm Ht _ IH]; intros rs Hrs; simpl; [by rewrite andb_true_r|].
  rewrite IH by auto using remove_all_in_u32. rewrite remove_all_spec by done.
  fold (contains_any rm l).
  by destruct (contains_any rs l), (contains t l), (contains_any rm l).
Qed.

Lemma split_once_sep k t :
  ":"%char ∉ k → split_once (lit "::") (k ++ lit "::" ++ t) = Some (k, t).
Proof.
  induction k as [|c k IH]; intros Hk; [done|]. apply not_elem_of_cons in Hk as [Hc Hk].
  specialize (IH Hk).
  cbn -[strip_prefix lit] in *. simpl strip_prefix. rewrite bool_decide_false by congruence.
  by rewrite IH.
Qed.

Definition is_hex (c : ascii) : Prop := c ∈ lit "0123456789abcdef".

Lemma hex_not_elem c s : Forall is_hex s → c ∉ lit "0123456789abcdef" → c ∉ s.
Proof. intros Hs Hc Hin. rewrite Forall_forall in Hs. by apply Hc, Hs. Qed.

Lemma take_hex n s : Forall is_hex s → Forall is_hex (take n s).
Proof. apply Forall_take. Qed.

Lemma hex_no_prefix c d s :
  Forall is_hex s → c ∉ lit "0123456789abcdef" → starts_with [c; d] s = false.
Proof.
  intros Hs Hc. destruct Hs as [|x s Hx Hs]; [done|]. unfold starts_with. simpl.
  rewrite bool_decide_false; [done|]. intros ->. by apply Hc.
Qed.

Section LookupFacts.
Context (search_notes : str → list str).
Context (read_authorship : str → option AuthorshipLog).
Local Abbreviation foreign := (foreign_prompt search_notes read_authorship).
Local Abbreviation resolve := (resolve_entry search_notes read_authorship).

(** The cache only remembers what the notes say. *)
Definition cache_ok (cache : Cache) : Prop := ∀ h r, cache !! h = Some r → r = foreign h.

Lemma cache_ok_empty : cache_ok ∅.
Proof. intros h r. by rewrite lookup_empty. Qed.

Lemma resolve_entry_ok md h cache :
  cache_ok cache →
  (resolve md h cache).1 = (resolve md h ∅).1 ∧
  cache_ok (resolve md h cache).2 ∧ cache ⊆ (resolve md h cache).2.
Proof.
  intros Hc. unfold resolve_entry.
  destruct (starts_with (lit "h_") h); [by case_match|].
  destruct (starts_with (lit "s_") h); [by case_match|].
  destruct (prompts md !! h); [done|]. rewrite lookup_empty.
  destruct (cache !! h) as [r|] eqn:E.
  - rewrite (Hc _ _ E). by destruct (foreign h).
  - assert (cache_ok (<[h := foreign h]> cache)).
    { intros h' r'. rewrite lookup_insert. case_decide; [naive_solver|apply Hc]. }
    destruct (foreign h); split_and!; try done; by apply insert_subseteq.
Qed.

(** The answer of a list of entries, the first one first. *)
Definition first_answer (md : AuthorshipMetadata) (line : Z) (es : list AttestationEntry) :
    option LineAuthor :=
  head (omap (λ e, if contains_any (line_ranges e) line then (resolve md (hash e) ∅).1 else None) es).

Lemma scan_entries_ok md line es cache :
  cache_ok cache →
  let '(r, cache') := scan_entries search_notes read_authorship md line es cache in
  r = first_answer md line es ∧ cache_ok cache' ∧ cache ⊆ cache'.
Proof.
  unfold first_answer. revert cache. induction es as [|e es IH]; intros cache Hc; [done|].
  simpl. destruct (contains_any (line_ranges e) line); [|by apply IH].
  destruct (resolve_entry_ok md (hash e) cache Hc) as (Hr & Hok & Hsub).
  destruct (resolve md (hash e) cache) as [[r|] cache'] eqn:E; simpl in *; rewrite <-Hr; simpl.
  - done.
  - specialize (IH cache' Hok).
    destruct (scan_entries search_notes read_authorship md line es cache') as [r' c''].
    destruct IH as (-> & ? & ?). split_and!; try done. by etrans.
Qed.
End LookupFacts.

(** *** Pruning of trace models *)

Lemma retain_trace_models_spec (ss : gmap str SessionRecord) (ids : list str) :
  dom (retain_referenced_trace_models ss ids) = dom ss ∧
  ∀ sid s, ss !! sid = Some s →
  ∃ s', retain_referenced_trace_models ss ids !! sid = Some s' ∧
    session_agent_id s' = session_agent_id s ∧
    (∀ t m, trace_models s' !! t = Some m ↔
       trace_models s !! t = Some m ∧ ∃ a, a ∈ ids ∧ split_once (lit "::") a = Some (sid, t)) ∧
    (∀ a, a ∈ ids → first_piece (lit "::") a = sid →
       agent_id_for_author s' a = agent_id_for_author s a).
Proof.
  unfold retain_referenced_trace_models. split.
  { apply set_eq. intros k. rewrite !elem_of_dom, map_lookup_imap.
    by destruct (ss !! k); simpl; rewrite ?is_Some_alt. }
  intros sid s Hs. rewrite map_lookup_imap, Hs. simpl. eexists; split; [done|].
  assert (∀ t m, trace_models (retain_session (referenced_traces ids) sid s) !! t = Some m ↔
    trace_models s !! t = Some m ∧ ∃ a, a ∈ ids ∧ split_once (lit "::") a = Some (sid, t)) as Ht.
  { intros t m. simpl. rewrite map_lookup_filter_Some. simpl. by rewrite elem_of_referenced. }
  split_and!; [done|done|]. intros a Ha. unfold agent_id_for_author, first_piece.
  destruct (split_once (lit "::") a) as [[k t]|] eqn:E; [|done].
  intros ->.
  destruct (trace_models s !! t) as [m|] eqn:Em.
  - assert (trace_models (retain_session (referenced_traces ids) sid s) !! t = Some m) as ->;
      [|done]. apply Ht. eauto.
  - destruct (trace_models (retain_session _ sid s) !! t) eqn:Em'; [|done].
    apply Ht in Em' as [? _]. congruence.
Qed.

End AuthorshipLogFacts.

(** ** Properties *)

Module AuthorshipLogProps.
Import LineRange LineRangeFacts AuthorshipLog AuthorshipLogFacts.

(** finalizing a note keeps every session and its conversation identity,
    keeps exactly the trace models that some attested author id references,
    and so does not change the agent any attested author id resolves to. *)
Theorem prune_keeps_attested_models (ss : gmap str SessionRecord) (ids : list str) :
  dom (retain_referenced_trace_models ss ids) = dom ss ∧
  ∀ sid s, ss !! sid = Some s →
  ∃ s', retain_referenced_trace_models ss ids !! sid = Some s' ∧
    session_agent_id s' = session_agent_id s ∧
    (∀ t m, trace_models s' !! t = Some m ↔
       trace_models s !! t = Some m ∧ ∃ a, a ∈ ids ∧ split_once (lit "::") a = Some (sid, t)) ∧
    (∀ a, a ∈ ids → first_piece (lit "::") a = sid →
       agent_id_for_author s' a = agent_id_for_author s a).
Proof. apply retain_trace_models_spec. Qed.

(** [merge_from] is the left-biased union of the trace models: a model
    already observed for a trace is never replaced, the receiver's identity is
    kept, and merging is idempotent and associative. *)
Theorem merge_from_union (a b c : SessionRecord) :
  session_agent_id (merge_from a b) = session_agent_id a ∧
  (∀ t, trace_models (merge_from a b) !! t =
     match trace_models a !! t with Some m => Some m | None => trace_models b !! t end) ∧
  merge_from a a = a ∧
  merge_from (merge_from a b) c = merge_from a (merge_from b c).
Proof.
  rewrite !merge_from_spec. simpl. split_and!; [done| | |].
  - intros t. rewrite lookup_union. by destruct (trace_models a !! t), (trace_models b !! t).
  - rewrite (idemp_L (∪)). by destruct a.
  - by rewrite (assoc_L (∪)).
Qed.

(** the author of a line is the answer of the last entry that covers the
    line and whose key resolves; a cache that agrees with the repository's
    notes never changes the answer, stays in agreement and only grows. *)
Theorem latest_covering_entry_wins (nfc : str → str) (search_notes : str → list str)
    (read_authorship : str → option AuthorshipLog)
    (log : AuthorshipLog) (file : str) (line : Z) (cache : Cache) :
  cache_ok search_notes read_authorship cache →
  let '(r, cache') := get_line_attribution nfc search_notes read_authorship log file line cache in
  r = match find_file nfc log file with
      | Some f => last (omap (λ e,
            if contains_any (line_ranges e) line
            then (resolve_entry search_notes read_authorship (metadata log) (hash e) ∅).1
            else None) (entries f))
      | None => None
      end ∧
  cache_ok search_notes read_authorship cache' ∧ cache ⊆ cache'.
Proof.
  intros Hc. unfold get_line_attribution. destruct (find_file nfc log file) as [f|]; [|done].
  pose proof (scan_entries_ok search_notes read_authorship (metadata log) line
    (reverse (entries f)) cache Hc) as H.
  destruct (scan_entries _ _ _ _ _ _) as [r cache']. destruct H as (-> & H1 & H2).
  split_and!; try done. unfold first_answer. by rewrite omap_reverse, head_reverse.
Qed.

(** the three kinds of attestation keys are told apart by their prefix:
    with a hexadecimal digest of at least sixteen digits, human and session
    keys have sixteen characters and carry [h_] and [s_], a legacy key has
    sixteen characters and neither prefix, and the session id is the part of
    a session key before [::]. *)
Theorem key_kinds_disjoint (sha256_hex : str → str) (id tl who : str) (random : list N) :
  (∀ x, Forall is_hex (sha256_hex x) ∧ (16 ≤ length (sha256_hex x))%nat) →
  let short := generate_short_hash sha256_hex id tl in
  let session := generate_session_id sha256_hex id tl in
  let human := generate_human_short_hash sha256_hex who in
  let key := session ++ lit "::" ++ generate_trace_id random in
  length short = 16%nat ∧ length session = 16%nat ∧ length human = 16%nat ∧
  first_piece (lit "::") key = session ∧
  starts_with (lit "s_") key = true ∧ starts_with (lit "h_") key = false ∧
  starts_with (lit "h_") human = true ∧ starts_with (lit "s_") human = false ∧
  starts_with (lit "h_") short = false ∧ starts_with (lit "s_") short = false.
Proof.
  intros Hsha. cbv zeta.
  destruct (Hsha (tl ++ lit ":" ++ id)) as [Hh Hl]. destruct (Hsha who) as [_ Hl'].
  unfold generate_short_hash, generate_session_id, generate_human_short_hash.
  split_and!; try done.
  - rewrite length_take. lia.
  - rewrite length_app, length_take. change (length (lit _)) with 2%nat. lia.
  - rewrite length_app, length_take. change (length (lit _)) with 2%nat. lia.
  - unfold first_piece. rewrite split_once_sep; [done|]. apply not_elem_of_app. split.
    + vm_compute. set_solver.
    + apply hex_not_elem; [by apply take_hex|]. vm_compute. set_solver.
  - apply hex_no_prefix; [by apply take_hex|]. vm_compute. set_solver.
  - apply hex_no_prefix; [by apply take_hex|]. vm_compute. set_solver.
Qed.

(** *** Witnesses *)

Definition sample_agent : AgentId := mkAgentId (lit "cursor") (lit "conv") (lit "default").
Definition sample_session : SessionRecord :=
  mkSessionRecord sample_agent
    {[lit "t_keep" := lit "model-A"; lit "t_drop" := lit "model-B"]} None None.

Lemma prune_keeps_attested_models_witness :
  trace_models sample_session !! lit "t_drop" = Some (lit "model-B") ∧
  ∃ s', retain_referenced_trace_models {[lit "s_one" := sample_session]}
          [lit "s_one::t_keep"; lit "s_two"] !! lit "s_one" = Some s' ∧
    trace_models s' !! lit "t_drop" = None ∧
    model (agent_id_for_author s' (lit "s_one::t_keep")) = lit "model-A".
Proof.
  split; [reflexivity|].
  destruct (prune_keeps_attested_models {[lit "s_one" := sample_session]}
    [lit "s_one::t_keep"; lit "s_two"]) as [_ H].
  destruct (H (lit "s_one") sample_session eq_refl) as (s' & Hs' & _ & _ & Ha).
  exists s'. split; [exact Hs'|]. split.
  - vm_compute in Hs'. injection Hs' as <-. reflexivity.
  - rewrite (Ha (lit "s_one::t_keep")); [reflexivity| |reflexivity].
    left.
Defined.

Definition sample_log : AuthorshipLog :=
  mkLog [mkFile (lit "a.rs")
           [mkEntry (lit "s_one::t_keep") [Range 1 5]; mkEntry (lit "h_bob") [Single 3]]]
    (mkMetadata AUTHORSHIP_LOG_VERSION None [] ∅ {[lit "h_bob" := mkHumanRecord (lit "Bob")]}
       {[lit "s_one" := sample_session]}).

Lemma latest_covering_entry_wins_witness :
  (get_line_attribution (λ s, s) (λ _, []) (λ _, None) sample_log (lit "a.rs") 3 ∅).1 =
  Some (mkAuthor (lit "Bob") [], Some (lit "h_bob"), None).
Proof.
  pose proof (latest_covering_entry_wins (λ s, s) (λ _, []) (λ _, None) sample_log (lit "a.rs") 3 ∅
    (cache_ok_empty _ _)) as H.
  destruct (get_line_attribution _ _ _ _ _ _ _) as [r c]. destruct H as [H _].
  rewrite H. vm_compute. reflexivity.
Defined.

Lemma key_kinds_disjoint_witness :
  starts_with (lit "s_") (generate_short_hash (λ _, replicate 64 "a"%char) (lit "id") (lit "x")) = false.
Proof.
  apply (key_kinds_disjoint (λ _, replicate 64 "a"%char) (lit "id") (lit "x") (lit "bob") []).
  intros _. split; [|vm_compute; lia].
  apply Forall_replicate. unfold is_hex. apply list_elem_of_In. vm_compute. tauto.
Defined.

End AuthorshipLogProps.
