(* ===== verification/NoteFormat.v ===== *)
(** * The text format of authorship notes

    Models the serialization half of
    src/src/authorship/authorship_log_serialization.rs: an attestation section
    of file lines and indented entry lines, a divider line, and the metadata as
    JSON.  The JSON codec (serde_json) is a parameter; what the round trip
    needs of it is the hypothesis [json_ok]. *)

From S2P Require Import Prelude Text LineRange AuthorshipLog.

Module NoteFormat.
Import LineRange AuthorshipLog.

(** The errors of [deserialize_from_string]. *)
Inductive NoteError : Type :=
  | MissingDivider
  | InvalidNumber
  | EntryWithoutFile
  | InvalidEntry (entry_line : str)
  | InvalidJson.

Abbreviation result := (outcome NoteError).

(** ** Writing *)

Definition SPACE : ascii := " "%char.
Definition TAB : ascii := ascii_of_nat 9.

Definition needs_quoting (path : str) : bool :=
  contains_byte SPACE path || contains_byte TAB path || contains_byte LF path.

Definition by_start (a b : LineRange) : bool := (start_of a <=? start_of b)%Z.

Definition format_line_range (range : LineRange) : str :=
  match range with
  | Single line => show_u32 line
  | Range s e => show_u32 s ++ lit "-" ++ show_u32 e
  end.

Definition format_line_ranges (ranges : list LineRange) : str :=
  join_with (lit ",") (map format_line_range (sort_by by_start ranges)).

(** The line of a file, and of an entry, without their line feeds. *)
Definition path_line (path : str) : str :=
  if needs_quoting path then DQUOTE :: path ++ [DQUOTE] else path.

Definition entry_line (e : AttestationEntry) : str :=
  lit "  " ++ hash e ++ lit " " ++ format_line_ranges (line_ranges e).

Definition serialize_file (f : FileAttestation) : str :=
  path_line (file_path f) ++ [LF] ++ concat (map (λ e, entry_line e ++ [LF]) (entries f)).

Definition DIVIDER : str := lit "---".

(** ** Reading *)

Definition or_fail {A : Type} (e : NoteError) (o : option A) : result A :=
  match o with Some a => Ret a | None => Fail e end.

Definition parse_line_range (part : str) : result LineRange :=
  match find_byte "-"%char part with
  | Some (start_str, end_str) =>
      let? s := or_fail InvalidNumber (parse_u32 start_str) in
      let? e := or_fail InvalidNumber (parse_u32 end_str) in
      Ret (Range s e)
  | None =>
      let? line := or_fail InvalidNumber (parse_u32 part) in
      Ret (Single line)
  end.

Fixpoint parse_parts (parts : list str) : result (list LineRange) :=
  match parts with
  | [] => Ret []
  | part :: parts' =>
      match part with
      | [] => parse_parts parts'
      | _ =>
          let? range := parse_line_range part in
          let? ranges := parse_parts parts' in
          Ret (range :: ranges)
      end
  end.

Definition parse_line_ranges (input : str) : result (list LineRange) :=
  parse_parts (split_on ","%char input).

(** [line[1..line.len() - 1]] panics on a lone quote. *)
Definition unquote (line : str) : result str :=
  if starts_with [DQUOTE] line && ends_with [DQUOTE] line then
    if (length line <? 2)%nat then Panic
    else Ret (take (length line - 2) (drop 1 line))
  else Ret line.

(** The file being read is closed: pushed unless it has no entries. *)
Definition close_file (current : option FileAttestation) : list FileAttestation :=
  match current with
  | Some f => match entries f with [] => [] | _ => [f] end
  | None => []
  end.

(** The loop over the lines: [acc] and [current] are [attestations] and
    [current_file]. *)
Fixpoint parse_lines (acc : list FileAttestation) (current : option FileAttestation)
    (ls : list str) : result (list FileAttestation) :=
  match ls with
  | [] => Ret (acc ++ close_file current)
  | l :: ls' =>
      let line := trim_end l in
      match line with
      | [] => parse_lines acc current ls'
      | _ =>
          match strip_prefix (lit "  ") line with
          | Some rest =>
              match find_byte SPACE rest with
              | Some (h, ranges_str) =>
                  let? ranges := parse_line_ranges ranges_str in
                  match current with
                  | Some f => parse_lines acc (Some (add_entry f (mkEntry h ranges))) ls'
                  | None => Fail EntryWithoutFile
                  end
              | None => Fail (InvalidEntry rest)
              end
          | None =>
              let? path := unquote line in
              parse_lines (acc ++ close_file current) (Some (mkFile path [])) ls'
          end
      end
  end.

Definition parse_attestation_section (ls : list str) : result (list FileAttestation) :=
  parse_lines [] None ls.

(** The position of the divider: the lines before it and after it. *)
Fixpoint split_divider (ls : list str) : option (list str * list str) :=
  match ls with
  | [] => None
  | l :: ls' =>
      if str_eqb l DIVIDER then Some ([], ls')
      else match split_divider ls' with
           | Some (a, b) => Some (l :: a, b)
           | None => None
           end
  end.

(** Legacy notes: one entry's trace recorded with its session's model. *)
Definition materialize_entry (ss : gmap str SessionRecord) (h : str) : gmap str SessionRecord :=
  match split_once (lit "::") h with
  | Some (session_id, trace_id) =>
      match ss !! session_id with
      | Some s => <[session_id := record_trace_model s trace_id (model (session_agent_id s))]> ss
      | None => ss
      end
  | None => ss
  end.

Definition materialize (hashes : list str) (md : AuthorshipMetadata) : AuthorshipMetadata :=
  set_sessions md (foldl materialize_entry (sessions md) hashes).

Section Codec.
(** [serde_json::to_string_pretty] and [serde_json::from_str]. *)
Variable to_string_pretty : AuthorshipMetadata → option str.
Variable from_str : str → option AuthorshipMetadata.

Definition serialize_to_string (log : AuthorshipLog) : option str :=
  let output := concat (map serialize_file (attestations log)) ++ DIVIDER ++ [LF] in
  try json_str := to_string_pretty (metadata log) in
  Some (output ++ json_str).

Definition deserialize_from_string (content : str) : result AuthorshipLog :=
  let? (attestation_lines, json_lines) :=
    or_fail MissingDivider (split_divider (lines content)) in
  let? atts := parse_attestation_section attestation_lines in
  let? md := or_fail InvalidJson (from_str (join_with [LF] json_lines)) in
  Ret (mkLog atts (materialize (map hash (flat_map entries atts)) md)).

(** What the round trip of one metadata value relies on: the pretty printer
    succeeds, ends with the closing brace, escapes carriage returns, and its
    text reads back. *)
Definition json_ok (md : AuthorshipMetadata) : Prop :=
  ∃ s, to_string_pretty md = Some (s ++ lit "}") ∧ CR ∉ s ∧ from_str (s ++ lit "}") = Some md.
End Codec.

(** ** Notes that can be read back *)

(** A path the format can carry: no line feed, and when it is written without
    quotes it is neither the divider, nor quoted itself, nor changed by the
    trimming of line ends. *)
Definition clean_path (p : str) : Prop :=
  p ≠ [] ∧ is_utf8 p = true ∧ LF ∉ p ∧
  (needs_quoting p = false →
     p ≠ DIVIDER ∧ trim_end p = p ∧ CR ∉ p ∧
     starts_with [DQUOTE] p && ends_with [DQUOTE] p = false).

Definition clean_entry (e : AttestationEntry) : Prop :=
  is_utf8 (hash e) = true ∧ SPACE ∉ hash e ∧ LF ∉ hash e ∧
  line_ranges e ≠ [] ∧ Forall in_u32 (line_ranges e).

Definition clean_file (f : FileAttestation) : Prop :=
  clean_path (file_path f) ∧ Forall clean_entry (entries f).

(** What reading makes of a note: files without entries are dropped and the
    ranges of an entry are sorted by their first line. *)
Definition sort_entry (e : AttestationEntry) : AttestationEntry :=
  mkEntry (hash e) (sort_by by_start (line_ranges e)).
Definition read_file (f : FileAttestation) : FileAttestation :=
  mkFile (file_path f) (map sort_entry (entries f)).
Definition read_files (fs : list FileAttestation) : list FileAttestation :=
  filter (λ f, entries f ≠ []) (map read_file fs).
Definition read_back (log : AuthorshipLog) : AuthorshipLog :=
  let atts := read_files (attestations log) in
  mkLog atts (materialize (map hash (flat_map entries atts)) (metadata log)).

End NoteFormat.

(** ** Lemmas *)

Module NoteFormatFacts.
Import LineRange LineRangeFacts AuthorshipLog NoteFormat.

(** Text that ends in a digit: what the writer ends an entry line with. *)
Definition ends_in_digit (s : str) : Prop :=
  ∃ a c, s = a ++ [c] ∧ is_digit c ∧ forallb is_ascii a = true.

Lemma digit_ascii c : is_digit c → is_ascii c = true.
Proof. intros H%is_digit_code. apply N.ltb_lt. lia. Qed.

Lemma show_u32_ends n : ends_in_digit (show_u32 n).
Proof.
  pose proof (show_u32_nonempty n) as Hne. pose proof (show_u32_digits n) as Hd.
  destruct (show_u32 n) as [|c s _] using rev_ind; [done|].
  apply Forall_app in Hd as [Hs Hc]. inversion_clear Hc.
  exists s, c. auto using digits_ascii.
Qed.

Lemma ends_in_digit_prefix a s : forallb is_ascii a = true → ends_in_digit s → ends_in_digit (a ++ s).
Proof.
  intros Ha (b & c & -> & Hc & Hb). exists (a ++ b), c.
  by rewrite <-app_assoc, forallb_app, Ha, Hb.
Qed.

Lemma ends_in_digit_ascii s : ends_in_digit s → forallb is_ascii s = true.
Proof.
  intros (a & c & -> & Hc & Ha). rewrite forallb_app, Ha. simpl. by rewrite digit_ascii.
Qed.

Lemma format_line_range_ends r : ends_in_digit (format_line_range r).
Proof.
  destruct r; cbn [format_line_range]; [apply show_u32_ends|].
  apply ends_in_digit_prefix; [apply digits_ascii, show_u32_digits|].
  apply ends_in_digit_prefix; [done|apply show_u32_ends].
Qed.

Lemma ends_in_digit_nonempty s : ends_in_digit s → s ≠ [].
Proof. intros (a & c & -> & _). by destruct a. Qed.

(** The characters of a formatted range: digits and one dash. *)
Lemma format_line_range_not_elem c r :
  ¬ (48 ≤ N_of_ascii c ≤ 57)%N → c ≠ "-"%char → c ∉ format_line_range r.
Proof.
  intros Hc Hd. pose proof (λ n, digits_not_elem c _ (show_u32_digits n) Hc) as Hn.
  destruct r; cbn [format_line_range]; [apply Hn|]. rewrite !not_elem_of_app.
  split_and!; try apply Hn. change (lit "-") with ["-"%char]. set_solver.
Qed.

Lemma parse_format_line_range r : in_u32 r → parse_line_range (format_line_range r) = Ret r.
Proof.
  intros Hr. pose proof (λ n, digits_not_elem "-"%char _ (show_u32_digits n)) as Hn.
  unfold parse_line_range. destruct r as [l|s e]; simpl in Hr; cbn [format_line_range].
  - rewrite find_byte_None by (apply Hn; vm_compute; naive_solver). by rewrite parse_show_u32.
  - change (lit "-" ++ show_u32 e) with ("-"%char :: show_u32 e).
    rewrite find_byte_app by (apply Hn; vm_compute; naive_solver).
    destruct Hr. by rewrite !parse_show_u32.
Qed.

Lemma parse_parts_format rs :
  Forall in_u32 rs → parse_parts (map format_line_range rs) = Ret rs.
Proof.
  induction 1 as [|r rs Hr _ IH]; [done|].
  cbn [map parse_parts]. pose proof (ends_in_digit_nonempty _ (format_line_range_ends r)) as Hne.
  pose proof (parse_format_line_range r Hr) as Hp.
  destruct (format_line_range r); [done|]. rewrite Hp. simpl. by rewrite IH.
Qed.

Lemma sort_ranges_in_u32 rs : Forall in_u32 rs → Forall in_u32 (sort_by by_start rs).
Proof. by rewrite sort_by_perm. Qed.

Lemma sort_ranges_nonempty rs : rs ≠ [] → sort_by by_start rs ≠ [].
Proof.
  intros H E. apply H. pose proof (length_sort_by by_start rs) as L. rewrite E in L.
  by destruct rs.
Qed.

Lemma parse_format_line_ranges rs :
  Forall in_u32 rs → parse_line_ranges (format_line_ranges rs) = Ret (sort_by by_start rs).
Proof.
  intros H%sort_ranges_in_u32. unfold parse_line_ranges, format_line_ranges.
  destruct (sort_by by_start rs) as [|r rs'] eqn:E; [done|].
  change (lit ",") with [","%char]. rewrite split_join; [by apply parse_parts_format|done|].
  apply Forall_fmap, Forall_forall. intros r' _.
  apply format_line_range_not_elem; vm_compute; naive_solver.
Qed.

Lemma join_ends ps : ps ≠ [] → Forall ends_in_digit ps → ends_in_digit (join_with (lit ",") ps).
Proof.
  induction ps as [|p ps IH]; [done|]. intros _ H. inversion_clear H as [|? ? Hp Hps].
  destruct ps as [|q ps]; [done|]. cbn [join_with].
  apply ends_in_digit_prefix; [by apply ends_in_digit_ascii|].
  apply ends_in_digit_prefix; [done|]. by apply IH.
Qed.

Lemma format_line_ranges_ends rs : rs ≠ [] → ends_in_digit (format_line_ranges rs).
Proof.
  intros H%sort_ranges_nonempty. unfold format_line_ranges. apply join_ends.
  - by destruct (sort_by by_start rs).
  - apply Forall_fmap, Forall_forall. intros. apply format_line_range_ends.
Qed.

Lemma entry_line_ends e : clean_entry e → ∃ a c, entry_line e = a ++ [c] ∧ is_digit c ∧ is_utf8 a = true.
Proof.
  intros (Hh & _ & _ & Hne & _).
  destruct (format_line_ranges_ends _ Hne) as (a & c & E & Hc & Ha).
  exists (lit "  " ++ hash e ++ lit " " ++ a), c. split_and!; [|done|].
  - unfold entry_line. rewrite E. by rewrite <-!app_assoc.
  - repeat apply is_utf8_app; try done. by apply is_utf8_ascii.
Qed.

Lemma digit_not_whitespace c : is_digit c → is_whitespace [c] = false.
Proof.
  intros H%is_digit_code. unfold is_whitespace, white_space. simpl.
  repeat match goal with |- context [(?x =? ?y)%N] => destruct (N.eqb_spec x y); try lia
                       | |- context [(?x <=? ?y)%N] => destruct (N.leb_spec x y); try lia end;
  done.
Qed.

Lemma entry_line_trim e : clean_entry e → trim_end (entry_line e) = entry_line e.
Proof.
  intros H. destruct (entry_line_ends e H) as (a & c & -> & Hc & Ha).
  apply trim_end_snoc; [done|by apply utf8_char_ascii, digit_ascii|by apply digit_not_whitespace].
Qed.

Lemma entry_line_strip_cr e : clean_entry e → strip_cr (entry_line e) = entry_line e.
Proof.
  intros H. destruct (entry_line_ends e H) as (a & c & -> & Hc & _).
  apply strip_cr_snoc. intros ->. apply is_digit_code in Hc. revert Hc. vm_compute. naive_solver.
Qed.

Lemma join_not_elem c ps :
  c ≠ ","%char → Forall (λ p, c ∉ p) ps → c ∉ join_with (lit ",") ps.
Proof.
  intros Hc. induction ps as [|p ps IH]; intros H; [simpl; set_solver|].
  inversion_clear H. destruct ps as [|q ps]; [done|]. cbn [join_with].
  rewrite !not_elem_of_app. split_and!; [done|change (lit ",") with [","%char]; set_solver|auto].
Qed.

Lemma entry_line_no_LF e : clean_entry e → LF ∉ entry_line e.
Proof.
  intros (_ & _ & Hh & _). unfold entry_line, format_line_ranges. rewrite !not_elem_of_app.
  split_and!; [|done| |].
  - change (LF ∉ [SPACE; SPACE]). vm_compute. set_solver.
  - change (LF ∉ [SPACE]). vm_compute. set_solver.
  - apply join_not_elem; [done|]. apply Forall_fmap, Forall_forall. intros r _.
    apply format_line_range_not_elem; vm_compute; naive_solver.
Qed.

(** Reading an entry line. *)
Lemma parse_entry_line acc f e ls :
  clean_entry e →
  parse_lines acc (Some f) (entry_line e :: ls) =
  parse_lines acc (Some (add_entry f (sort_entry e))) ls.
Proof.
  intros H. cbn [parse_lines]. rewrite entry_line_trim by done.
  destruct (entry_line e) eqn:E; [done|]. rewrite <-E.
  assert (strip_prefix (lit "  ") (entry_line e) =
    Some (hash e ++ SPACE :: format_line_ranges (line_ranges e))) as ->
    by (by apply strip_prefix_spec).
  destruct H as (_ & Hs & _ & _ & Hu). rewrite find_byte_app by done.
  rewrite parse_format_line_ranges by done. done.
Qed.

Lemma parse_entry_lines acc f es ls :
  Forall clean_entry es →
  parse_lines acc (Some f) (map entry_line es ++ ls) =
  parse_lines acc (Some (mkFile (file_path f) (entries f ++ map sort_entry es))) ls.
Proof.
  intros H. revert f. induction H as [|e es He _ IH]; intros f; cbn [map app].
  - rewrite app_nil_r. by destruct f.
  - rewrite parse_entry_line, IH by done. simpl. by rewrite <-app_assoc.
Qed.

(** *** File lines *)

Lemma starts_with_snoc c s : starts_with [c] s = true ↔ ∃ r, s = c :: r.
Proof. by rewrite starts_with_spec. Qed.

Lemma ends_with_byte c s : ends_with [c] s = true ↔ ∃ r, s = r ++ [c].
Proof.
  unfold ends_with. simpl rev at 1. rewrite starts_with_snoc. split; intros [r Hr].
  - exists (rev r). by rewrite <-(rev_involutive s), Hr.
  - exists (rev r). by rewrite Hr, rev_app_distr.
Qed.

Lemma dquote_utf8 : utf8_char [DQUOTE] = true.
Proof. done. Qed.

Lemma unquote_quoted p : unquote (DQUOTE :: p ++ [DQUOTE]) = Ret p.
Proof.
  unfold unquote.
  assert (starts_with [DQUOTE] (DQUOTE :: p ++ [DQUOTE]) = true) as -> by (apply starts_with_snoc; eauto).
  assert (ends_with [DQUOTE] (DQUOTE :: p ++ [DQUOTE]) = true) as ->
    by (apply ends_with_byte; by exists (DQUOTE :: p)).
  cbn [andb length drop]. rewrite length_app. simpl length.
  assert ((S (length p + 1) <? 2)%nat = false) as -> by (apply Nat.ltb_ge; lia).
  rewrite skipn_0, take_app_le by lia. rewrite take_ge by lia. done.
Qed.

Lemma quoted_no_LF p : LF ∉ p → LF ∉ DQUOTE :: p ++ [DQUOTE].
Proof.
  intros H. rewrite not_elem_of_cons, not_elem_of_app, list_elem_of_singleton.
  split_and!; [done|done|]. by vm_compute.
Qed.

(** What the reader sees of a clean path's line. *)
Lemma path_line_clean p :
  clean_path p →
  LF ∉ path_line p ∧ strip_cr (path_line p) = path_line p ∧ path_line p ≠ DIVIDER ∧
  trim_end (path_line p) = path_line p ∧ path_line p ≠ [] ∧
  strip_prefix (lit "  ") (path_line p) = None ∧ unquote (path_line p) = Ret p.
Proof.
  intros (Hne & Hu & Hl & Hq). unfold path_line. destruct (needs_quoting p) eqn:Eq.
  - split_and!; try done.
    + by apply quoted_no_LF.
    + change (DQUOTE :: p ++ [DQUOTE]) with ((DQUOTE :: p) ++ [DQUOTE]). by apply strip_cr_snoc.
    + change (DQUOTE :: p ++ [DQUOTE]) with ((DQUOTE :: p) ++ [DQUOTE]).
      apply trim_end_snoc; [|done|done].
      by apply (is_utf8_app [DQUOTE] p).
    + apply unquote_quoted.
  - destruct (Hq eq_refl) as (Hd & Ht & Hc & Hn). split_and!; try done.
    + by apply strip_cr_id.
    + destruct (strip_prefix (lit "  ") p) as [r|] eqn:E; [|done].
      apply strip_prefix_spec in E. subst p. discriminate.
    + unfold unquote. by rewrite Hn.
Qed.

Lemma parse_path_line acc cur p ls :
  clean_path p →
  parse_lines acc cur (path_line p :: ls) = parse_lines (acc ++ close_file cur) (Some (mkFile p [])) ls.
Proof.
  intros H. destruct (path_line_clean p H) as (_ & _ & _ & Ht & Hne & Hs & Hu).
  cbn [parse_lines]. rewrite Ht. destruct (path_line p) eqn:E; [done|]. rewrite <-E in *.
  by rewrite Hs, Hu.
Qed.

(** *** Whole notes *)

Definition file_lines (f : FileAttestation) : list str :=
  path_line (file_path f) :: map entry_line (entries f).

Lemma close_read_file f fs :
  close_file (Some (read_file f)) ++ read_files fs = read_files (f :: fs).
Proof.
  unfold read_files, read_file, close_file. destruct f as [p es]. simpl.
  by destruct es.
Qed.

Lemma parse_file_lines acc cur fs :
  Forall clean_file fs →
  parse_lines acc cur (flat_map file_lines fs) = Ret (acc ++ close_file cur ++ read_files fs).
Proof.
  intros H. revert acc cur. induction H as [|f fs [Hp He] _ IH]; intros acc cur.
  { simpl. by rewrite app_nil_r. }
  cbn [flat_map]. unfold file_lines at 1. rewrite <-app_comm_cons, parse_path_line by done.
  rewrite parse_entry_lines, IH by done. cbn [file_path entries app].
  rewrite <-close_read_file, <-!app_assoc. by destruct f.
Qed.

Lemma file_lines_clean f :
  clean_file f → Forall (λ l, LF ∉ l ∧ strip_cr l = l ∧ l ≠ DIVIDER) (file_lines f).
Proof.
  intros [Hp He]. constructor.
  - destruct (path_line_clean _ Hp) as (? & ? & ? & _). done.
  - apply Forall_fmap. eapply Forall_impl; [exact He|]. intros e H. simpl.
    split_and!; [by apply entry_line_no_LF|by apply entry_line_strip_cr|].
    unfold entry_line. by intros E.
Qed.

(** Text made of lines, each ended by a line feed. *)
Definition unlines (ls : list str) : str := concat (map (λ l, l ++ [LF]) ls).

Lemma serialize_file_lines f : serialize_file f = unlines (file_lines f).
Proof.
  unfold serialize_file, unlines, file_lines. simpl. rewrite map_map, <-app_assoc. done.
Qed.

Lemma serialize_files_lines fs :
  concat (map serialize_file fs) = unlines (flat_map file_lines fs).
Proof.
  induction fs as [|f fs IH]; [done|]. cbn [map concat flat_map].
  rewrite IH, serialize_file_lines. unfold unlines. by rewrite map_app, concat_app.
Qed.

Lemma lines_unlines ls s :
  Forall (λ l, LF ∉ l ∧ strip_cr l = l ∧ l ≠ DIVIDER) ls → lines (unlines ls ++ s) = ls ++ lines s.
Proof.
  induction 1 as [|l ls (Hl & Hs & _) _ IH]; [done|]. unfold unlines. cbn [map concat].
  rewrite <-!app_assoc. cbn [app]. rewrite lines_line, Hs by done. cbn [app]. f_equal. apply IH.
Qed.

Lemma split_divider_app ls rest :
  Forall (λ l, LF ∉ l ∧ strip_cr l = l ∧ l ≠ DIVIDER) ls →
  split_divider (ls ++ DIVIDER :: rest) = Some (ls, rest).
Proof.
  induction 1 as [|l ls (_ & _ & Hd) _ IH]; [done|]. cbn [app split_divider].
  destruct (str_eqb l DIVIDER) eqn:E; [by apply str_eqb_eq in E|]. by rewrite IH.
Qed.

Lemma flat_lines_clean fs :
  Forall clean_file fs →
  Forall (λ l, LF ∉ l ∧ strip_cr l = l ∧ l ≠ DIVIDER) (flat_map file_lines fs).
Proof.
  induction 1 as [|f fs Hf _ IH]; [constructor|]. cbn [flat_map].
  apply Forall_app. split; [by apply file_lines_clean|done].
Qed.

Section NoteText.
Context (to_string_pretty : AuthorshipMetadata → option str).
Context (from_str : str → option AuthorshipMetadata).

Lemma deserialize_serialized log :
  Forall clean_file (attestations log) → json_ok to_string_pretty from_str (metadata log) →
  ∃ text, serialize_to_string to_string_pretty log = Some text ∧
    deserialize_from_string from_str text = Ret (read_back log).
Proof.
  intros Hf (s & Hp & Hcr & Hs). unfold serialize_to_string. rewrite Hp.
  eexists; split; [done|]. unfold deserialize_from_string.
  rewrite serialize_files_lines, <-!app_assoc, lines_unlines by by apply flat_lines_clean.
  cbn [app]. rewrite lines_line by by apply contains_byte_false.
  change (strip_cr DIVIDER) with DIVIDER.
  rewrite split_divider_app by by apply flat_lines_clean. cbn [or_fail obind].
  unfold parse_attestation_section. rewrite parse_file_lines by done. cbn [obind app close_file].
  change (lit "}") with ["}"%char] in *. rewrite join_lines, Hs by done. done.
Qed.
End NoteText.

End NoteFormatFacts.

(** *** Reading again *)

Module NoteReread.
Import LineRange AuthorshipLog AuthorshipLogFacts NoteFormat NoteFormatFacts.

(** The trace of an author id is recorded in its session, if there is one. *)
Definition recorded (ss : gmap str SessionRecord) (h : str) : Prop :=
  ∀ k t s, split_once (lit "::") h = Some (k, t) → ss !! k = Some s → is_Some (trace_models s !! t).

Lemma materialize_entry_recorded ss h : recorded (materialize_entry ss h) h.
Proof.
  intros k t s Hh. unfold materialize_entry. rewrite Hh.
  destruct (ss !! k) as [s0|] eqn:E; [|congruence].
  rewrite lookup_insert_eq. intros [= <-]. rewrite record_trace_model_models.
  rewrite lookup_union, lookup_singleton_eq. by destruct (trace_models s0 !! t).
Qed.

Lemma materialize_entry_keeps ss h h' : recorded ss h → recorded (materialize_entry ss h') h.
Proof.
  intros Hr k t s Hh. unfold materialize_entry.
  destruct (split_once (lit "::") h') as [[k' t']|]; [|by eapply Hr].
  destruct (ss !! k') as [s'|] eqn:E; [|by eapply Hr].
  destruct (decide (k' = k)) as [->|Hne].
  - rewrite lookup_insert_eq. intros [= <-]. rewrite record_trace_model_models, lookup_union.
    destruct (Hr k t s' Hh E) as [m ->].
    by destruct ({[t' := _]} !! t).
  - rewrite lookup_insert_ne by done. by eapply Hr.
Qed.

Lemma materialize_entry_id ss h : recorded ss h → materialize_entry ss h = ss.
Proof.
  intros Hr. unfold materialize_entry.
  destruct (split_once (lit "::") h) as [[k t]|] eqn:Eh; [|done].
  destruct (ss !! k) as [s|] eqn:E; [|done].
  unfold record_trace_model. destruct (Hr k t s Eh E) as [m ->]. by apply insert_id.
Qed.

Lemma materialize_all_recorded hs ss :
  (∀ h, recorded ss h → recorded (foldl materialize_entry ss hs) h) ∧
  Forall (recorded (foldl materialize_entry ss hs)) hs.
Proof.
  revert ss. induction hs as [|h hs IH]; intros ss; simpl; [auto|].
  destruct (IH (materialize_entry ss h)) as [H1 H2]. split.
  - intros h' Hh'. by apply H1, materialize_entry_keeps.
  - constructor; [by apply H1, materialize_entry_recorded|done].
Qed.

Lemma materialize_all_id hs ss : Forall (recorded ss) hs → foldl materialize_entry ss hs = ss.
Proof.
  induction hs as [|h hs IH]; simpl; [done|]. intros H. inversion_clear H.
  by rewrite materialize_entry_id, IH.
Qed.

Lemma materialize_idemp hs md : materialize hs (materialize hs md) = materialize hs md.
Proof.
  unfold materialize, set_sessions. simpl. f_equal.
  apply materialize_all_id, materialize_all_recorded.
Qed.

Lemma by_start_sorted rs : StronglySorted (λ a b, by_start a b = true) (sort_by by_start rs).
Proof. apply sort_by_sorted; unfold by_start; intros *; rewrite !Z.leb_le; lia. Qed.

Lemma read_file_idemp f : read_file (read_file f) = read_file f.
Proof.
  unfold read_file. simpl. f_equal. rewrite map_map. apply map_ext. intros e.
  unfold sort_entry. simpl. f_equal. apply sort_by_id, by_start_sorted.
Qed.

Lemma read_files_idemp fs : read_files (read_files fs) = read_files fs.
Proof.
  unfold read_files. induction fs as [|f fs IH]; [done|]. simpl.
  rewrite !filter_cons. case_decide; [|done]. simpl. rewrite !filter_cons, read_file_idemp.
  rewrite decide_True by done. by rewrite IH.
Qed.

(** A log as the writer of this program builds it. *)
Definition normal_log (log : AuthorshipLog) : Prop :=
  Forall (λ f, entries f ≠ [] ∧
            Forall (λ e, StronglySorted (λ a b, by_start a b = true) (line_ranges e)) (entries f))
    (attestations log) ∧
  Forall (recorded (sessions (metadata log))) (log_hashes log).

Lemma read_files_normal fs :
  Forall (λ f, entries f ≠ [] ∧
            Forall (λ e, StronglySorted (λ a b, by_start a b = true) (line_ranges e)) (entries f)) fs →
  read_files fs = fs.
Proof.
  unfold read_files. induction 1 as [|f fs [Hne Hs] _ IH]; [done|]. simpl.
  assert (read_file f = f) as ->.
  { destruct f as [p es]. unfold read_file. simpl in *. f_equal. clear Hne IH.
    induction Hs as [|[h rs] es He _ IHe]; [done|]. simpl in *.
    rewrite IHe. unfold sort_entry. simpl. by rewrite sort_by_id. }
  rewrite filter_cons, decide_True, IH by done. done.
Qed.

Lemma read_back_normal log : normal_log log → read_back log = log.
Proof.
  intros [Hf Hr]. unfold read_back. rewrite read_files_normal by done.
  unfold materialize. fold (log_hashes log). rewrite materialize_all_id by done.
  by destruct log as [? []].
Qed.

End NoteReread.

(** ** Properties *)

Module NoteFormatProps.
Import LineRange AuthorshipLog NoteFormat NoteFormatFacts NoteReread.

(** C11: writing a note and reading it back gives the log, with files that have
    no entries dropped, ranges sorted and legacy trace models recorded;
    reading changes nothing that reading has already changed, and a log in
    the form the program builds is read back exactly as it was written. *)
Theorem note_roundtrip (to_string_pretty : AuthorshipMetadata → option str)
    (from_str : str → option AuthorshipMetadata) (log : AuthorshipLog) :
  Forall clean_file (attestations log) → json_ok to_string_pretty from_str (metadata log) →
  ∃ text, serialize_to_string to_string_pretty log = Some text ∧
    deserialize_from_string from_str text = Ret (read_back log) ∧
    read_back (read_back log) = read_back log ∧
    (normal_log log → deserialize_from_string from_str text = Ret log).
Proof.
  intros Hf Hj. destruct (deserialize_serialized _ _ log Hf Hj) as (text & Ht & Hd).
  exists text. split_and!; try done.
  - unfold read_back. simpl. by rewrite read_files_idemp, materialize_idemp.
  - intros Hn. by rewrite Hd, read_back_normal.
Qed.

(** the ranges of an entry survive printing and parsing for all [u32]
    lines, whatever their order: they come back sorted by first line, and as
    the same multiset of ranges. *)
Theorem line_ranges_roundtrip (rs : list LineRange) :
  Forall in_u32 rs →
  ∃ rs', parse_line_ranges (format_line_ranges rs) = Ret rs' ∧ rs' ≡ₚ rs ∧
    StronglySorted (λ a b, by_start a b = true) rs'.
Proof.
  intros H. exists (sort_by by_start rs). split_and!.
  - by apply parse_format_line_ranges.
  - apply sort_by_perm.
  - apply by_start_sorted.
Qed.

(** an entry without line ranges can be written but not read: the reader
    rejects the whole note with the entry line as an invalid entry. *)
Theorem entry_without_ranges_unreadable (to_string_pretty : AuthorshipMetadata → option str)
    (from_str : str → option AuthorshipMetadata) (md : AuthorshipMetadata) (p h : str) :
  json_ok to_string_pretty from_str md → clean_path p →
  is_utf8 h = true → SPACE ∉ h → LF ∉ h → trim_end (lit "  " ++ h) = lit "  " ++ h →
  ∃ text, serialize_to_string to_string_pretty (mkLog [mkFile p [mkEntry h []]] md) = Some text ∧
    deserialize_from_string from_str text = Fail (InvalidEntry h).
Proof.
  intros (s & Hp & _) Hc Hu Hs Hl Ht. unfold serialize_to_string. cbn [metadata]. rewrite Hp.
  eexists; split; [done|]. unfold deserialize_from_string.
  pose proof (path_line_clean p Hc) as (Hp1 & Hp2 & Hp3 & _).
  set (l := entry_line (mkEntry h [])).
  assert (l = (lit "  " ++ h) ++ [SPACE]) as El by (unfold l, entry_line; by rewrite <-app_assoc).
  assert (trim_end l = lit "  " ++ h) as Hlt.
  { rewrite El, trim_end_whitespace, Ht; [done|by apply is_utf8_app|done|done]. }
  rewrite serialize_files_lines, <-!app_assoc, lines_unlines.
  2:{ cbn [attestations flat_map file_lines file_path map entries app].
      constructor; [done|]. constructor; [|constructor]. fold l. rewrite El. split_and!.
      - rewrite !not_elem_of_app. split_and!; [vm_compute; set_solver|done|vm_compute; set_solver].
      - by apply strip_cr_snoc.
      - done. }
  cbn [app]. rewrite lines_line by by apply contains_byte_false.
  change (strip_cr DIVIDER) with DIVIDER. cbn [flat_map attestations file_lines map entries app].
  cbn [split_divider file_path]. fold l.
  destruct (str_eqb (path_line p) DIVIDER) eqn:E; [by apply str_eqb_eq in E|].
  assert (str_eqb l DIVIDER = false) as -> by (by rewrite El).
  assert (str_eqb DIVIDER DIVIDER = true) as -> by done. cbn [or_fail obind].
  unfold parse_attestation_section. rewrite parse_path_line by done.
  cbn [parse_lines]. rewrite Hlt.
  assert (strip_prefix (lit "  ") (lit "  " ++ h) = Some h) as -> by (by apply strip_prefix_spec).
  rewrite find_byte_None by done. done.
Qed.

Lemma parse_parts_no_panic ps : parse_parts ps ≠ Panic.
Proof.
  induction ps as [|p ps IH]; [done|]. cbn [parse_parts]. destruct p as [|c p]; [done|].
  unfold parse_line_range. destruct (find_byte _ _) as [[a b]|];
    [destruct (parse_u32 a); [|done]; destruct (parse_u32 b); [|done]
    |destruct (parse_u32 (c :: p)); [|done]]; simpl; destruct (parse_parts ps); done.
Qed.

Lemma unquote_panic l : unquote l = Panic → l = [DQUOTE].
Proof.
  unfold unquote. destruct (starts_with [DQUOTE] l) eqn:E; [|done].
  apply starts_with_snoc in E as [r ->]. destruct (ends_with _ _); [|done]. simpl.
  case_match; [|done]. bool_hyps. destruct r; [done|simpl in *; lia].
Qed.

Lemma parse_lines_panic acc cur ls :
  parse_lines acc cur ls = Panic → ∃ l, l ∈ ls ∧ trim_end l = [DQUOTE].
Proof.
  revert acc cur. induction ls as [|l ls IH]; intros acc cur; [done|]. cbn [parse_lines].
  destruct (trim_end l) as [|c t] eqn:E; [intros H%IH; set_solver|].
  destruct (strip_prefix (lit "  ") (c :: t)) as [rest|].
  - destruct (find_byte SPACE rest) as [[h rs]|]; [|done].
    unfold parse_line_ranges. pose proof (parse_parts_no_panic (split_on ","%char rs)).
    destruct (parse_parts (split_on ","%char rs)); [|done|done]. simpl.
    destruct cur; [|done]. intros H'%IH. set_solver.
  - destruct (unquote (c :: t)) eqn:Eu; simpl; [intros H%IH; set_solver|done|].
    apply unquote_panic in Eu. rewrite Eu in E. set_solver.
Qed.

(** reading a note panics only on an attestation line that is a lone
    double quote, and such a line does make it panic, whatever metadata
    follows. *)
Theorem reader_panics_on_lone_quote (from_str : str → option AuthorshipMetadata) :
  (∀ content, deserialize_from_string from_str content = Panic →
     ∃ l, l ∈ lines content ∧ trim_end l = [DQUOTE]) ∧
  (∀ rest, deserialize_from_string from_str ([DQUOTE; LF] ++ DIVIDER ++ LF :: rest) = Panic).
Proof.
  split.
  - intros content. unfold deserialize_from_string.
    assert (∀ ls a b, split_divider ls = Some (a, b) → a ⊆ ls) as Hsub.
    { induction ls as [|l ls IH]; intros a b; [done|]. cbn [split_divider].
      destruct (str_eqb l DIVIDER); [intros [= <- <-]; set_solver|].
      destruct (split_divider ls) as [[a' b']|] eqn:E; [|done]. intros [= <- <-].
      specialize (IH _ _ eq_refl). set_solver. }
    destruct (split_divider (lines content)) as [[a b]|] eqn:E; [|done]. cbn [or_fail obind].
    destruct (parse_attestation_section a) eqn:Ea; cbn [obind];
      [by destruct (from_str (join_with [LF] b))|done|].
    intros _. apply parse_lines_panic in Ea as (l & Hl & Ht). exists l. split; [|done].
    by eapply Hsub.
  - intros rest. unfold deserialize_from_string.
    change ([DQUOTE; LF] ++ DIVIDER ++ LF :: rest) with ([DQUOTE] ++ LF :: DIVIDER ++ LF :: rest).
    rewrite lines_line by by apply contains_byte_false.
    rewrite lines_line by by apply contains_byte_false. reflexivity.
Qed.

(** quoting does not protect a path with a line feed: such a path is
    written in quotes, and what is read back is another file, named by what
    follows the line feed and the closing quote. *)
Theorem newline_path_misread (to_string_pretty : AuthorshipMetadata → option str)
    (from_str : str → option AuthorshipMetadata) (md : AuthorshipMetadata) (e : AttestationEntry) :
  json_ok to_string_pretty from_str md → clean_entry e →
  let path := lit "a" ++ LF :: lit "b" in
  needs_quoting path = true ∧
  ∃ text log, serialize_to_string to_string_pretty (mkLog [mkFile path [e]] md) = Some text ∧
    deserialize_from_string from_str text = Ret log ∧
    attestations log = [mkFile (lit "b" ++ [DQUOTE]) [sort_entry e]].
Proof.
  intros (s & Hp & Hcr & Hs) He path. split; [done|]. unfold serialize_to_string. cbn [metadata].
  rewrite Hp. do 2 eexists; split; [done|]. unfold deserialize_from_string.
  assert (concat (map serialize_file (attestations (mkLog [mkFile path [e]] md))) =
    unlines [DQUOTE :: lit "a"; lit "b" ++ [DQUOTE]; entry_line e]) as ->.
  { unfold unlines, serialize_file. cbn [attestations map concat file_path entries].
    rewrite !app_nil_r. reflexivity. }
  set (ls := [DQUOTE :: lit "a"; lit "b" ++ [DQUOTE]; entry_line e]).
  assert (Forall (λ l, LF ∉ l ∧ strip_cr l = l ∧ l ≠ DIVIDER) ls) as Hls.
  { repeat (constructor; [split_and!|]); try done; try by apply contains_byte_false.
    - by apply entry_line_no_LF.
    - by apply entry_line_strip_cr. }
  rewrite <-!app_assoc, lines_unlines by done. cbn [app].
  rewrite lines_line by by apply contains_byte_false.
  change (strip_cr DIVIDER) with DIVIDER. change (lit "}") with ["}"%char] in *.
  rewrite split_divider_app by done. unfold ls.
  cbn [or_fail obind]. unfold parse_attestation_section.
  change (parse_lines [] None [DQUOTE :: lit "a"; lit "b" ++ [DQUOTE]; entry_line e])
    with (parse_lines [] (Some (mkFile (lit "b" ++ [DQUOTE]) [])) [entry_line e]).
  rewrite parse_entry_line by done. cbn [parse_lines obind].
  rewrite join_lines, Hs by done. split; [done|]. done.
Qed.

(** *** Witnesses *)

Definition sample_md : AuthorshipMetadata := mkMetadata AUTHORSHIP_LOG_VERSION None [] ∅ ∅ ∅.
Definition sample_note : AuthorshipLog :=
  mkLog [mkFile (lit "src/my file.rs") [mkEntry (lit "h_31dce776f88375") [Range 19 222; Single 1]]]
    sample_md.

(** A codec for one metadata value. *)
Lemma sample_json_ok : json_ok (λ _, Some (lit "{}")) (λ _, Some sample_md) sample_md.
Proof. exists (lit "{"). split_and!; [done|by apply contains_byte_false|done]. Defined.

Lemma sample_path_clean : clean_path (lit "src/my file.rs").
Proof. split_and!; [done|done|by apply contains_byte_false|done]. Defined.

Lemma note_roundtrip_witness :
  ∃ text, serialize_to_string (λ _, Some (lit "{}")) sample_note = Some text ∧
    deserialize_from_string (λ _, Some sample_md) text = Ret (read_back sample_note).
Proof.
  destruct (note_roundtrip (λ _, Some (lit "{}")) (λ _, Some sample_md) sample_note)
    as (text & H1 & H2 & _).
  - repeat constructor; simpl; try (by apply contains_byte_false);
      try (by apply sample_path_clean); try done.
  - exact sample_json_ok.
  - exists text. split; [exact H1|exact H2].
Defined.

Lemma line_ranges_roundtrip_witness :
  ∃ rs', parse_line_ranges (format_line_ranges [Range 19 222; Single 1; Single 2]) = Ret rs' ∧
    rs' ≡ₚ [Range 19 222; Single 1; Single 2].
Proof.
  destruct (line_ranges_roundtrip [Range 19 222; Single 1; Single 2]) as (rs' & H1 & H2 & _).
  - repeat constructor; unfold is_u32, u32_max; lia.
  - exists rs'. split; [exact H1|exact H2].
Defined.

Lemma entry_without_ranges_unreadable_witness :
  ∃ text, serialize_to_string (λ _, Some (lit "{}"))
            (mkLog [mkFile (lit "src/my file.rs") [mkEntry (lit "h_31dce776f88375") []]] sample_md)
          = Some text ∧
    deserialize_from_string (λ _, Some sample_md) text = Fail (InvalidEntry (lit "h_31dce776f88375")).
Proof.
  apply (entry_without_ranges_unreadable (λ _, Some (lit "{}")) (λ _, Some sample_md));
    [exact sample_json_ok|exact sample_path_clean|done|by apply contains_byte_false
    |by apply contains_byte_false|vm_compute; reflexivity].
Defined.

Lemma newline_path_misread_witness :
  ∃ text log, serialize_to_string (λ _, Some (lit "{}"))
      (mkLog [mkFile (lit "a" ++ LF :: lit "b") [mkEntry (lit "h_bob") [Single 1]]] sample_md) = Some text ∧
    deserialize_from_string (λ _, Some sample_md) text = Ret log ∧
    attestations log = [mkFile (lit "b" ++ [DQUOTE]) [mkEntry (lit "h_bob") [Single 1]]].
Proof.
  apply (newline_path_misread (λ _, Some (lit "{}")) (λ _, Some sample_md) sample_md
    (mkEntry (lit "h_bob") [Single 1]) sample_json_ok).
  repeat constructor; simpl; try (by apply contains_byte_false); done.
Defined.

Lemma reader_panics_on_lone_quote_witness :
  deserialize_from_string (λ _, Some sample_md) ([DQUOTE; LF] ++ DIVIDER ++ LF :: lit "{}") = Panic.
Proof. apply (reader_panics_on_lone_quote (λ _, Some sample_md)). Defined.

End NoteFormatProps.
