(* ===== verification/ConflictResolution.v ===== *)
(** * Merging the authorship of a conflict resolution

    Models src/src/authorship/conflict_resolution.rs: after a rebase stops on
    a conflict, the lines attributed while resolving it are merged into the
    note that was shifted onto the new commit.  The theorems say which lines
    the merged note attributes to whom, and which metadata it keeps. *)

From S2P Require Import Prelude Text LineRange AuthorshipLog.

Module ConflictResolution.
Import LineRange AuthorshipLog.

(** ** Operations *)

Definition normalize_line_ranges (ranges : list LineRange) : list LineRange :=
  compress_lines (dedup Z.eqb (sort_by Z.leb (flat_map expand ranges))).

(** The loop of [subtract_line_ranges]: it stops when nothing remains. *)
Fixpoint subtract_loop (remaining covered : list LineRange) : list LineRange :=
  match covered with
  | [] => remaining
  | covered_range :: covered' =>
      let remaining' := flat_map (λ range, remove range covered_range) remaining in
      match remaining' with
      | [] => []
      | _ => subtract_loop remaining' covered'
      end
  end.

Definition subtract_line_ranges (ranges covered : list LineRange) : list LineRange :=
  normalize_line_ranges (subtract_loop ranges covered).

Definition add_coverage (coverage : gmap str (list LineRange)) (f : FileAttestation) :
    gmap str (list LineRange) :=
  <[file_path f :=
      default [] (coverage !! file_path f) ++ flat_map line_ranges (entries f)]> coverage.

Definition line_coverage_by_file (log : AuthorshipLog) : gmap str (list LineRange) :=
  normalize_line_ranges <$> foldl add_coverage ∅ (attestations log).

Definition attestation_metadata_key (h : str) : str := first_piece (lit "::") h.

(** The sets of keys, by kind, that [retain_referenced_metadata] collects. *)
Record Keys := mkKeys { prompt_keys : gset str; human_keys : gset str; session_keys : gset str }.

Definition add_key (ks : Keys) (h : str) : Keys :=
  let key := attestation_metadata_key h in
  if starts_with (lit "h_") key then mkKeys (prompt_keys ks) ({[key]} ∪ human_keys ks) (session_keys ks)
  else if starts_with (lit "s_") key then mkKeys (prompt_keys ks) (human_keys ks) ({[key]} ∪ session_keys ks)
  else mkKeys ({[key]} ∪ prompt_keys ks) (human_keys ks) (session_keys ks).

Definition retain_referenced_metadata (log : AuthorshipLog) : AuthorshipLog :=
  let ks := foldl add_key (mkKeys ∅ ∅ ∅) (log_hashes log) in
  let md := metadata log in
  mkLog (attestations log)
    (mkMetadata (schema_version md) (git_ai_version md) (base_commit_sha md)
       (filter (λ kv : str * PromptRecord, kv.1 ∈ prompt_keys ks) (prompts md))
       (filter (λ kv : str * HumanRecord, kv.1 ∈ human_keys ks) (humans md))
       (filter (λ kv : str * SessionRecord, kv.1 ∈ session_keys ks) (sessions md))).

(** One attestation of the resolution without the covered lines. *)
Definition uncover_file (coverage : gmap str (list LineRange)) (f : FileAttestation) : FileAttestation :=
  let covered := default [] (coverage !! file_path f) in
  mkFile (file_path f)
    (filter (λ e, line_ranges e ≠ [])
       (map (λ e, mkEntry (hash e) (subtract_line_ranges (line_ranges e) covered)) (entries f))).

Definition filter_resolution_log_to_uncovered_lines (resolution_log shifted_log : AuthorshipLog) :
    AuthorshipLog :=
  let shifted_coverage := line_coverage_by_file shifted_log in
  retain_referenced_metadata
    (mkLog (filter (λ f, entries f ≠ [])
              (map (uncover_file shifted_coverage) (attestations resolution_log)))
       (metadata resolution_log)).

Fixpoint merge_entry (es : list AttestationEntry) (source_entry : AttestationEntry) :
    list AttestationEntry :=
  match es with
  | [] => [mkEntry (hash source_entry) (normalize_line_ranges (line_ranges source_entry))]
  | e :: es' =>
      if str_eqb (hash e) (hash source_entry)
      then mkEntry (hash e) (normalize_line_ranges (line_ranges e ++ line_ranges source_entry)) :: es'
      else e :: merge_entry es' source_entry
  end.

Definition merge_file (target : AuthorshipLog) (source : FileAttestation) : AuthorshipLog :=
  get_or_create_file target (file_path source)
    (λ f, mkFile (file_path f) (foldl merge_entry (entries f) (entries source))).

Definition merge_file_attestations (target source : AuthorshipLog) : AuthorshipLog :=
  foldl merge_file target (attestations source).

(** [entry(..).or_insert_with(..)] over a map is the left-biased union. *)
Definition merge_authorship_metadata (target source : AuthorshipMetadata) : AuthorshipMetadata :=
  mkMetadata (schema_version target) (git_ai_version target) (base_commit_sha target)
    (prompts target ∪ prompts source)
    (humans target ∪ humans source)
    (union_with (λ existing record, Some (merge_from existing record))
       (sessions target) (sessions source)).

Definition set_base_commit (md : AuthorshipMetadata) (sha : str) : AuthorshipMetadata :=
  mkMetadata (schema_version md) (git_ai_version md) sha (prompts md) (humans md) (sessions md).

Definition merge_conflict_resolution_authorship (version : str)
    (existing_shifted_log : option AuthorshipLog) (resolution_log : AuthorshipLog)
    (commit_sha : str) : AuthorshipLog :=
  let merged := default (new_log version) existing_shifted_log in
  let resolution_log' := filter_resolution_log_to_uncovered_lines resolution_log merged in
  let merged' := merge_file_attestations merged resolution_log' in
  mkLog (attestations merged')
    (set_base_commit (merge_authorship_metadata (metadata merged') (metadata resolution_log'))
       commit_sha).

End ConflictResolution.

(** ** Lemmas *)

Module ConflictResolutionFacts.
Import LineRange LineRangeFacts AuthorshipLog ConflictResolution.

Lemma normalize_lines_u32 rs :
  Forall in_u32 rs → Forall is_u32 (dedup Z.eqb (sort_by Z.leb (flat_map expand rs))).
Proof.
  intros H%expand_u32. apply Forall_forall. intros l. rewrite elem_of_sort_dedup.
  by apply Forall_forall.
Qed.

Lemma normalize_in_u32 rs : Forall in_u32 rs → Forall in_u32 (normalize_line_ranges rs).
Proof. intros. by apply compress_in_u32, normalize_lines_u32. Qed.

Lemma normalize_canonical rs : Forall in_u32 rs → canonical (normalize_line_ranges rs).
Proof. intros. apply compress_canonical; [by apply normalize_lines_u32|apply sort_dedup_lt]. Qed.

Lemma contains_any_normalize rs l :
  Forall in_u32 rs → contains_any (normalize_line_ranges rs) l = contains_any rs l.
Proof.
  intros H. apply eq_true_iff_eq. unfold normalize_line_ranges.
  rewrite contains_any_compress by (by apply normalize_lines_u32 || apply sort_dedup_lt).
  by rewrite elem_of_sort_dedup, elem_of_flat_expand.
Qed.

Lemma subtract_loop_spec rs covered :
  Forall in_u32 rs → Forall in_u32 covered →
  Forall in_u32 (subtract_loop rs covered) ∧
  ∀ l, contains_any (subtract_loop rs covered) l = contains_any rs l && negb (contains_any covered l).
Proof.
  intros Hrs Hc. revert rs Hrs. induction Hc as [|c covered Hc _ IH]; intros rs Hrs.
  { split; [done|]. intros l. simpl. by rewrite andb_true_r. }
  cbn [subtract_loop]. destruct (IH _ (remove_all_in_u32 rs c Hrs Hc)) as [IHu IHs].
  pose proof (λ l, remove_all_spec rs c l Hrs Hc) as Hr. cbv zeta.
  destruct (flat_map (λ range, remove range c) rs) as [|r rs'] eqn:E.
  - split; [constructor|]. intros l. specialize (Hr l). simpl in *.
    destruct (contains_any rs l); [|done]. simpl in *. by destruct (contains c l).
  - split; [done|]. intros l. rewrite IHs, Hr. simpl.
    by destruct (contains_any rs l), (contains c l).
Qed.

Lemma subtract_spec rs covered l :
  Forall in_u32 rs → Forall in_u32 covered →
  contains_any (subtract_line_ranges rs covered) l =
  contains_any rs l && negb (contains_any covered l).
Proof.
  intros H1 H2. destruct (subtract_loop_spec rs covered H1 H2) as [Hu Hs].
  unfold subtract_line_ranges. by rewrite contains_any_normalize.
Qed.

Lemma subtract_in_u32 rs covered :
  Forall in_u32 rs → Forall in_u32 covered → Forall in_u32 (subtract_line_ranges rs covered).
Proof. intros H1 H2. by apply normalize_in_u32, subtract_loop_spec. Qed.

(** A canonical list of ranges is empty only if it contains no line. *)
Lemma canonical_nonempty rs : canonical rs → rs ≠ [] → ∃ l, contains_any rs l = true.
Proof.
  intros [Hp _] Hne. destruct rs as [|r rs]; [done|]. inversion_clear Hp as [|? ? Hr _].
  exists (start_of r). simpl. apply orb_true_iff. left.
  destruct r; simpl in *; [by apply Z.eqb_eq|rewrite andb_true_iff, !Z.leb_le; lia].
Qed.

(** *** Coverage by file *)

Lemma coverage_lookup fs m file l :
  contains_any (default [] (foldl add_coverage m fs !! file)) l = true ↔
  contains_any (default [] (m !! file)) l = true ∨ ∃ h, files_cover fs file h l.
Proof.
  revert m. induction fs as [|f fs IH]; intros m; simpl.
  { split; [auto|]. intros [?|(h & f & Hf & _)]; [done|set_solver]. }
  rewrite IH. unfold add_coverage.
  assert (∀ h, files_cover (f :: fs) file h l ↔
    (file_path f = file ∧ entries_cover (entries f) h l) ∨ files_cover fs file h l) as Hc.
  { intros h. unfold files_cover. setoid_rewrite elem_of_cons. naive_solver. }
  setoid_rewrite Hc.
  assert (contains_any (flat_map line_ranges (entries f)) l = true ↔
    ∃ h, entries_cover (entries f) h l) as He.
  { rewrite contains_any_true. unfold entries_cover. setoid_rewrite list_elem_of_In at 1.
    setoid_rewrite in_flat_map. setoid_rewrite <-list_elem_of_In.
    setoid_rewrite contains_any_true. naive_solver. }
  destruct (decide (file_path f = file)) as [->|Hne].
  - rewrite lookup_insert_eq. simpl. rewrite contains_any_app, orb_true_iff, He. naive_solver.
  - rewrite lookup_insert_ne by done. naive_solver.
Qed.

Lemma coverage_in_u32 fs m file :
  files_in_u32 fs → (∀ k, Forall in_u32 (default [] (m !! k))) →
  Forall in_u32 (default [] (foldl add_coverage m fs !! file)).
Proof.
  intros H. revert m. induction H as [|f fs Hf _ IH]; intros m Hm; simpl; [apply Hm|].
  apply IH. intros k. unfold add_coverage. destruct (decide (file_path f = k)) as [->|Hne].
  - rewrite lookup_insert_eq. simpl. apply Forall_app. split; [apply Hm|].
    clear -Hf. induction Hf; simpl; [constructor|]. by apply Forall_app.
  - rewrite lookup_insert_ne by done. apply Hm.
Qed.

Lemma line_coverage_spec log file l :
  files_in_u32 (attestations log) →
  Forall in_u32 (default [] (line_coverage_by_file log !! file)) ∧
  (contains_any (default [] (line_coverage_by_file log !! file)) l = true ↔
   ∃ h, covers log file h l).
Proof.
  intros Hu.
  assert (Forall in_u32 (default [] (foldl add_coverage ∅ (attestations log) !! file))) as Hd.
  { apply coverage_in_u32; [done|]. intros k. rewrite lookup_empty. constructor. }
  pose proof (coverage_lookup (attestations log) ∅ file l) as Hl. rewrite lookup_empty in Hl.
  unfold line_coverage_by_file. rewrite lookup_fmap.
  destruct (foldl add_coverage ∅ (attestations log) !! file) as [rs|]; simpl in *.
  - split; [by apply normalize_in_u32|]. rewrite contains_any_normalize by done.
    rewrite Hl. unfold covers. naive_solver.
  - split; [constructor|]. unfold covers. rewrite Hl. naive_solver.
Qed.

(** *** Filtering *)

Lemma entries_cover_nil h l : ¬ entries_cover [] h l.
Proof. intros (e & He & _). set_solver. Qed.

Lemma uncover_entries_cover es covered h l :
  Forall (λ e, Forall in_u32 (line_ranges e)) es → Forall in_u32 covered →
  entries_cover (filter (λ e, line_ranges e ≠ [])
     (map (λ e, mkEntry (hash e) (subtract_line_ranges (line_ranges e) covered)) es)) h l ↔
  entries_cover es h l ∧ contains_any covered l = false.
Proof.
  intros Hu Hc. rewrite Forall_forall in Hu. unfold entries_cover.
  setoid_rewrite list_elem_of_filter. setoid_rewrite list_elem_of_fmap. split.
  - intros (e' & [_ (e & -> & He)] & <- & Hl). simpl in *.
    rewrite subtract_spec in Hl by auto. bool_hyps. eauto.
  - intros [(e & He & <- & Hl) Hn]. eexists. split; [split; [|eauto]|].
    + simpl. intros E. pose proof (subtract_spec (line_ranges e) covered l (Hu _ He) Hc) as Hs.
      rewrite E, Hl, Hn in Hs. discriminate.
    + simpl. split; [done|]. by rewrite subtract_spec, Hl, Hn by auto.
Qed.

Lemma uncover_files_cover cov fs file h l :
  files_in_u32 fs → (∀ k, Forall in_u32 (default [] (cov !! k))) →
  files_cover (filter (λ f, entries f ≠ []) (map (uncover_file cov) fs)) file h l ↔
  files_cover fs file h l ∧ contains_any (default [] (cov !! file)) l = false.
Proof.
  intros Hu Hc. unfold files_in_u32 in Hu. rewrite Forall_forall in Hu.
  unfold files_cover. setoid_rewrite list_elem_of_filter. setoid_rewrite list_elem_of_fmap. split.
  - intros (f' & [_ (f & -> & Hf)] & <- & Hl). simpl in *.
    apply uncover_entries_cover in Hl as [? ?]; eauto.
  - intros [(f & Hf & <- & Hl) Hn]. exists (uncover_file cov f).
    assert (entries_cover (entries (uncover_file cov f)) h l) as He
      by (apply uncover_entries_cover; auto).
    split_and!; [|eauto|done|done]. intros E. rewrite E in He. by apply entries_cover_nil in He.
Qed.

Lemma uncover_in_u32 cov fs :
  files_in_u32 fs → (∀ k, Forall in_u32 (default [] (cov !! k))) →
  files_in_u32 (filter (λ f, entries f ≠ []) (map (uncover_file cov) fs)).
Proof.
  unfold files_in_u32. intros Hu Hc. apply Forall_forall.
  intros f' [_ (f & -> & Hf)%list_elem_of_fmap]%list_elem_of_filter. simpl.
  apply Forall_forall. intros e' [_ (e & -> & He)%list_elem_of_fmap]%list_elem_of_filter. simpl.
  rewrite Forall_forall in Hu. specialize (Hu _ Hf). rewrite Forall_forall in Hu.
  apply subtract_in_u32; auto.
Qed.

(** *** Merging *)

Lemma merge_entry_in_u32 es src :
  Forall (λ e, Forall in_u32 (line_ranges e)) es → Forall in_u32 (line_ranges src) →
  Forall (λ e, Forall in_u32 (line_ranges e)) (merge_entry es src).
Proof.
  intros He Hs. induction He as [|e es He Hes IH]; simpl.
  - repeat constructor. by apply normalize_in_u32.
  - case_match; constructor; try done. apply normalize_in_u32. by apply Forall_app.
Qed.

Lemma entries_cover_cons e es h l :
  entries_cover (e :: es) h l ↔
  (hash e = h ∧ contains_any (line_ranges e) l = true) ∨ entries_cover es h l.
Proof. unfold entries_cover. setoid_rewrite elem_of_cons. naive_solver. Qed.

Lemma merge_entry_cover es src h l :
  Forall (λ e, Forall in_u32 (line_ranges e)) es → Forall in_u32 (line_ranges src) →
  entries_cover (merge_entry es src) h l ↔
  entries_cover es h l ∨ (hash src = h ∧ contains_any (line_ranges src) l = true).
Proof.
  intros He Hs. induction He as [|e es He Hes IH]; simpl.
  - rewrite entries_cover_cons. simpl. rewrite contains_any_normalize by done.
    pose proof (entries_cover_nil h l). tauto.
  - destruct (str_eqb (hash e) (hash src)) eqn:E; rewrite !entries_cover_cons.
    + apply str_eqb_eq in E. simpl. rewrite contains_any_normalize by by apply Forall_app.
      rewrite contains_any_app, orb_true_iff, E. tauto.
    + rewrite IH. tauto.
Qed.

Lemma merge_entries_cover es srcs h l :
  Forall (λ e, Forall in_u32 (line_ranges e)) es →
  Forall (λ e, Forall in_u32 (line_ranges e)) srcs →
  (entries_cover (foldl merge_entry es srcs) h l ↔ entries_cover es h l ∨ entries_cover srcs h l) ∧
  Forall (λ e, Forall in_u32 (line_ranges e)) (foldl merge_entry es srcs).
Proof.
  intros He Hs. revert es He. induction Hs as [|src srcs Hsrc _ IH]; intros es He; simpl.
  - pose proof (entries_cover_nil h l). tauto.
  - destruct (IH (merge_entry es src)) as [IH1 IH2]; [by apply merge_entry_in_u32|].
    split; [|done]. rewrite IH1, merge_entry_cover, entries_cover_cons by done. tauto.
Qed.

Lemma files_cover_app fs1 fs2 file h l :
  files_cover (fs1 ++ fs2) file h l ↔ files_cover fs1 file h l ∨ files_cover fs2 file h l.
Proof. unfold files_cover. setoid_rewrite elem_of_app. naive_solver. Qed.

Lemma update_first_cover p g P fs file h l :
  Forall (λ f, file_path f = p →
    file_path (g f) = p ∧ (entries_cover (entries (g f)) h l ↔ entries_cover (entries f) h l ∨ P)) fs →
  (∃ f, f ∈ fs ∧ file_path f = p) →
  files_cover (update_first p g fs) file h l ↔ files_cover fs file h l ∨ (p = file ∧ P).
Proof.
  induction fs as [|f fs IH]; [set_solver|]. intros Hg He. inversion_clear Hg as [|? ? Hf Hfs].
  assert (∀ f' fs', files_cover (f' :: fs') file h l ↔
    (file_path f' = file ∧ entries_cover (entries f') h l) ∨ files_cover fs' file h l) as Hc.
  { intros. unfold files_cover. setoid_rewrite elem_of_cons. naive_solver. }
  simpl. destruct (str_eqb (file_path f) p) eqn:E; rewrite !Hc.
  - apply str_eqb_eq in E. destruct (Hf E) as [-> ->]. rewrite E. tauto.
  - rewrite IH; [tauto|done|]. destruct He as (f' & Hf' & Hp).
    apply elem_of_cons in Hf' as [->|Hf']; [|eauto].
    apply (not_true_iff_false _) in E. by rewrite str_eqb_eq in E.
Qed.

Lemma update_first_in_u32 p g fs :
  (∀ f, Forall (λ e, Forall in_u32 (line_ranges e)) (entries f) →
        Forall (λ e, Forall in_u32 (line_ranges e)) (entries (g f))) →
  files_in_u32 fs → files_in_u32 (update_first p g fs).
Proof.
  intros Hg. induction 1; simpl; [constructor|]. case_match; constructor; auto.
Qed.

Lemma merge_file_cover t src file h l :
  files_in_u32 (attestations t) → Forall (λ e, Forall in_u32 (line_ranges e)) (entries src) →
  (covers (merge_file t src) file h l ↔
   covers t file h l ∨ (file_path src = file ∧ entries_cover (entries src) h l)) ∧
  files_in_u32 (attestations (merge_file t src)).
Proof.
  intros Ht Hs. unfold covers, merge_file, get_or_create_file. cbn [attestations].
  set (atts := if existsb _ _ then _ else _).
  assert (files_in_u32 atts) as Ha.
  { unfold atts. case_match; [done|]. apply Forall_app. split; [done|]. repeat constructor. }
  assert (∀ f h l, files_cover atts f h l ↔ files_cover (attestations t) f h l) as Hcov.
  { intros f' h' l'. unfold atts. case_match; [done|]. rewrite files_cover_app.
    split; [|auto]. intros [?|(f & Hf & _ & He)]; [done|]. apply list_elem_of_singleton in Hf.
    subst. by apply entries_cover_nil in He. }
  split.
  - rewrite <-Hcov. apply update_first_cover.
    + eapply Forall_impl; [exact Ha|]. intros f Hf E. split; [done|]. by apply merge_entries_cover.
    + unfold atts. destruct (existsb _ (attestations t)) eqn:E.
      * apply existsb_exists in E as (f & Hf%list_elem_of_In & E%str_eqb_eq). eauto.
      * exists (mkFile (file_path src) []). set_solver.
  - apply update_first_in_u32; [|done]. intros f Hf.
    by apply (merge_entries_cover (entries f) (entries src) h l).
Qed.

Lemma merge_file_attestations_cover t src file h l :
  files_in_u32 (attestations t) → files_in_u32 (attestations src) →
  covers (merge_file_attestations t src) file h l ↔ covers t file h l ∨ covers src file h l.
Proof.
  unfold merge_file_attestations, covers at 3. intros Ht Hs. revert t Ht.
  induction Hs as [|f fs Hf _ IH]; intros t Ht; simpl.
  { split; [auto|]. intros [?|(f & Hf & _)]; [done|set_solver]. }
  destruct (merge_file_cover t f file h l Ht Hf) as [Hc Hu]. rewrite IH, Hc by done.
  unfold files_cover. setoid_rewrite elem_of_cons. naive_solver.
Qed.

(** *** Referenced metadata *)

(** The kind of a metadata key, in the order the code tests it. *)
Definition is_human_key (k : str) : bool := starts_with (lit "h_") k.
Definition is_session_key (k : str) : bool := negb (is_human_key k) && starts_with (lit "s_") k.
Definition is_prompt_key (k : str) : bool := negb (is_human_key k) && negb (starts_with (lit "s_") k).

Lemma add_key_spec h ks k :
  let key := attestation_metadata_key h in
  (k ∈ human_keys (add_key ks h) ↔ k ∈ human_keys ks ∨ (is_human_key k = true ∧ key = k)) ∧
  (k ∈ session_keys (add_key ks h) ↔ k ∈ session_keys ks ∨ (is_session_key k = true ∧ key = k)) ∧
  (k ∈ prompt_keys (add_key ks h) ↔ k ∈ prompt_keys ks ∨ (is_prompt_key k = true ∧ key = k)).
Proof.
  unfold add_key, is_session_key, is_prompt_key, is_human_key.
  generalize (attestation_metadata_key h) as key. intros key.
  destruct (starts_with (lit "h_") key) eqn:Eh;
    [|destruct (starts_with (lit "s_") key) eqn:Es];
    cbn [human_keys session_keys prompt_keys]; rewrite elem_of_union, elem_of_singleton;
    (destruct (decide (key = k)) as [<-|Hne]; [rewrite Eh, ?Es; simpl|]); intuition congruence.
Qed.

Lemma fold_keys_spec hs ks k :
  (k ∈ human_keys (foldl add_key ks hs) ↔
   k ∈ human_keys ks ∨ (is_human_key k = true ∧ ∃ h, h ∈ hs ∧ attestation_metadata_key h = k)) ∧
  (k ∈ session_keys (foldl add_key ks hs) ↔
   k ∈ session_keys ks ∨ (is_session_key k = true ∧ ∃ h, h ∈ hs ∧ attestation_metadata_key h = k)) ∧
  (k ∈ prompt_keys (foldl add_key ks hs) ↔
   k ∈ prompt_keys ks ∨ (is_prompt_key k = true ∧ ∃ h, h ∈ hs ∧ attestation_metadata_key h = k)).
Proof.
  revert ks. induction hs as [|h hs IH]; intros ks; cbn [foldl]; [set_solver|].
  assert (∀ (P : Prop), (∃ h', h' ∈ h :: hs ∧ attestation_metadata_key h' = k) ↔
    attestation_metadata_key h = k ∨ ∃ h', h' ∈ hs ∧ attestation_metadata_key h' = k) as Hex
    by (intros _; setoid_rewrite elem_of_cons; naive_solver).
  rewrite !(Hex True). destruct (IH (add_key ks h)) as (-> & -> & ->).
  destruct (add_key_spec h ks k) as (-> & -> & ->). tauto.
Qed.

Lemma elem_of_log_hashes log h :
  h ∈ log_hashes log ↔ ∃ f e, f ∈ attestations log ∧ e ∈ entries f ∧ hash e = h.
Proof.
  unfold log_hashes. rewrite list_elem_of_fmap. setoid_rewrite list_elem_of_In at 1.
  setoid_rewrite in_flat_map. setoid_rewrite <-list_elem_of_In. naive_solver.
Qed.

(** The hashes of the filtered resolution are those that attest a line. *)
Lemma filtered_hashes resolution base h :
  files_in_u32 (attestations resolution) → files_in_u32 (attestations base) →
  h ∈ log_hashes (filter_resolution_log_to_uncovered_lines resolution base) ↔
  ∃ file l, covers resolution file h l ∧ ¬ ∃ h', covers base file h' l.
Proof.
  intros Hr Hb. rewrite elem_of_log_hashes. cbn [attestations filter_resolution_log_to_uncovered_lines retain_referenced_metadata].
  set (cov := line_coverage_by_file base).
  assert (∀ k, Forall in_u32 (default [] (cov !! k))) as Hc
    by (intros k; by apply (line_coverage_spec base k 0)).
  assert (∀ file l, contains_any (default [] (cov !! file)) l = false ↔ ¬ ∃ h', covers base file h' l) as Hn.
  { intros file l. rewrite <-not_true_iff_false. unfold cov.
    by rewrite (proj2 (line_coverage_spec base file l Hb)). }
  split.
  - intros (f' & e' & [_ (f & -> & Hf)%list_elem_of_fmap]%list_elem_of_filter & He' & <-).
    simpl in He'. apply list_elem_of_filter in He' as [Hne (e & -> & He)%list_elem_of_fmap].
    simpl in *. unfold files_in_u32 in Hr. rewrite Forall_forall in Hr.
    pose proof (Hr _ Hf) as Hfu. rewrite Forall_forall in Hfu. specialize (Hfu _ He).
    destruct (canonical_nonempty (subtract_line_ranges (line_ranges e)
      (default [] (cov !! file_path f)))) as [l Hl]; [|done|].
    { apply normalize_canonical, subtract_loop_spec; auto. }
    rewrite subtract_spec in Hl by auto. bool_hyps. exists (file_path f), l.
    split; [|by apply Hn]. exists f. split_and!; try done. by exists e.
  - intros (file & l & Hcv & Hno). apply Hn in Hno.
    pose proof (proj2 (uncover_files_cover cov _ file h l Hr Hc) (conj Hcv Hno)) as (f & Hf & _ & e & He & Hh & _).
    by exists f, e.
Qed.

Lemma filtered_covers resolution base file h l :
  files_in_u32 (attestations resolution) → files_in_u32 (attestations base) →
  (covers (filter_resolution_log_to_uncovered_lines resolution base) file h l ↔
   covers resolution file h l ∧ ¬ ∃ h', covers base file h' l) ∧
  files_in_u32 (attestations (filter_resolution_log_to_uncovered_lines resolution base)).
Proof.
  intros Hr Hb. unfold covers at 1.
  cbn [attestations filter_resolution_log_to_uncovered_lines retain_referenced_metadata].
  assert (∀ k, Forall in_u32 (default [] (line_coverage_by_file base !! k))) as Hc
    by (intros k; by apply (line_coverage_spec base k 0)).
  split; [|by apply uncover_in_u32].
  rewrite uncover_files_cover by done. rewrite <-not_true_iff_false.
  by rewrite (proj2 (line_coverage_spec base file l Hb)).
Qed.

Lemma merge_file_attestations_metadata t src :
  metadata (merge_file_attestations t src) = metadata t.
Proof.
  unfold merge_file_attestations. generalize (attestations src). intros fs. revert t.
  induction fs as [|f fs IH]; intros t; simpl; [done|]. by rewrite IH.
Qed.

End ConflictResolutionFacts.

(** ** Properties *)

Module ConflictResolutionProps.
Import LineRange LineRangeFacts AuthorshipLog ConflictResolution ConflictResolutionFacts.

Section Merge.
Context (version commit_sha : str) (existing : option AuthorshipLog) (resolution : AuthorshipLog).
Local Abbreviation base := (default (new_log version) existing).
Local Abbreviation merged :=
  (merge_conflict_resolution_authorship version existing resolution commit_sha).

(** C5: the merged note attests a line to a key exactly when the shifted note
    did, or when the resolution does and the shifted note says nothing about
    that line of that file: no existing attribution is lost or overridden,
    and every line the conflict resolution added is attributed. *)
Theorem resolution_fills_uncovered_lines :
  files_in_u32 (attestations base) → files_in_u32 (attestations resolution) →
  ∀ file h l,
    covers (merge_conflict_resolution_authorship version existing resolution commit_sha) file h l ↔
    covers base file h l ∨
    (covers resolution file h l ∧ ¬ ∃ h', covers base file h' l).
Proof.
  intros Hb Hr file h l.
  destruct (filtered_covers resolution base file h l Hr Hb) as [Hc Hu].
  rewrite <-Hc. by apply merge_file_attestations_cover.
Qed.

(** metadata follows the lines: an existing record is kept, a record of
    the resolution is added only when an imported line is attested to its
    key, and the trace models of a session known to both are united. *)
Theorem merged_metadata_follows_lines :
  files_in_u32 (attestations base) → files_in_u32 (attestations resolution) →
  ∀ k, let imported := ∃ h file l, covers resolution file h l ∧
         (¬ ∃ h', covers base file h' l) ∧ attestation_metadata_key h = k in
  (∀ r, humans (metadata merged) !! k = Some r ↔
     humans (metadata base) !! k = Some r ∨
     (humans (metadata base) !! k = None ∧ humans (metadata resolution) !! k = Some r ∧
      is_human_key k = true ∧ imported)) ∧
  (∀ r, prompts (metadata merged) !! k = Some r ↔
     prompts (metadata base) !! k = Some r ∨
     (prompts (metadata base) !! k = None ∧ prompts (metadata resolution) !! k = Some r ∧
      is_prompt_key k = true ∧ imported)) ∧
  (is_session_key k = true → imported →
     sessions (metadata merged) !! k =
     match sessions (metadata base) !! k, sessions (metadata resolution) !! k with
     | Some a, Some b => Some (merge_from a b)
     | Some a, None => Some a
     | None, o => o
     end) ∧
  (is_session_key k = false ∨ ¬ imported →
     sessions (metadata merged) !! k = sessions (metadata base) !! k).
Proof.
  intros Hb Hr k imported.
  set (flt := filter_resolution_log_to_uncovered_lines resolution base).
  assert (imported ↔ ∃ h, h ∈ log_hashes flt ∧ attestation_metadata_key h = k) as Himp.
  { unfold imported, flt. split.
    - intros (h & file & l & Hc & Hn & Hk). exists h. rewrite filtered_hashes by done. eauto.
    - intros (h & Hh & Hk). rewrite filtered_hashes in Hh by done. naive_solver. }
  destruct (fold_keys_spec (log_hashes flt) (mkKeys ∅ ∅ ∅) k) as (Hh & Hs & Hp).
  rewrite <-Himp in Hh, Hs, Hp. cbn [human_keys session_keys prompt_keys] in Hh, Hs, Hp.
  cbn [metadata merge_conflict_resolution_authorship humans prompts sessions set_base_commit
       merge_authorship_metadata]. rewrite merge_file_attestations_metadata. fold flt.
  set (ks := foldl add_key _ _) in *.
  change (humans (metadata flt)) with
    (filter (λ kv : str * HumanRecord, kv.1 ∈ human_keys ks) (humans (metadata resolution))).
  change (prompts (metadata flt)) with
    (filter (λ kv : str * PromptRecord, kv.1 ∈ prompt_keys ks) (prompts (metadata resolution))).
  change (sessions (metadata flt)) with
    (filter (λ kv : str * SessionRecord, kv.1 ∈ session_keys ks) (sessions (metadata resolution))).
  clearbody ks flt. rewrite elem_of_empty in Hh, Hs, Hp. split_and!.
  - intros r. rewrite lookup_union_Some_raw, map_lookup_filter_Some. cbn [fst]. tauto.
  - intros r. rewrite lookup_union_Some_raw, map_lookup_filter_Some. cbn [fst]. tauto.
  - intros Hk Hi. rewrite lookup_union_with, map_lookup_filter.
    destruct (sessions (metadata base) !! k), (sessions (metadata resolution) !! k); simpl; try done;
      rewrite option_guard_True by tauto; done.
  - intros Hk. rewrite lookup_union_with, map_lookup_filter.
    destruct (sessions (metadata base) !! k), (sessions (metadata resolution) !! k); simpl; try done;
      rewrite option_guard_False by (rewrite Hs; destruct Hk; intuition congruence); done.
Qed.
End Merge.

(** *** Witnesses *)

Definition agent : AgentId := mkAgentId (lit "tool") (lit "id") (lit "model").
Definition shifted_note : AuthorshipLog :=
  mkLog [mkFile (lit "a.rs") [mkEntry (lit "h_bob") [Range 1 2]]]
    (mkMetadata (lit "3.0.0") None [] ∅ {[lit "h_bob" := mkHumanRecord (lit "Bob")]} ∅).
Definition resolution_note : AuthorshipLog :=
  mkLog [mkFile (lit "a.rs") [mkEntry (lit "s_one::t_x") [Range 2 4]; mkEntry (lit "h_amy") [Single 1]]]
    (mkMetadata (lit "3.0.0") None [] ∅ {[lit "h_amy" := mkHumanRecord (lit "Amy")]}
       {[lit "s_one" := mkSessionRecord agent {[lit "t_x" := lit "m"]} None None]}).

Lemma sample_notes_in_u32 :
  files_in_u32 (attestations shifted_note) ∧ files_in_u32 (attestations resolution_note).
Proof. split; repeat constructor; unfold u32_max; lia. Qed.

Lemma shifted_note_covers h l :
  covers shifted_note (lit "a.rs") h l → (l = 1 ∨ l = 2)%Z.
Proof.
  intros (f & Hf & _ & e & He & _ & Hl).
  apply list_elem_of_singleton in Hf as ->. apply list_elem_of_singleton in He as ->.
  unfold contains_any in Hl. cbn [existsb contains line_ranges] in Hl.
  rewrite orb_false_r in Hl. bool_hyps. lia.
Qed.

Lemma resolution_note_covers : covers resolution_note (lit "a.rs") (lit "s_one::t_x") 3.
Proof. eexists. split; [left|]. split; [done|]. eexists. split; [left|]. done. Qed.

Lemma resolution_fills_uncovered_lines_witness :
  covers (merge_conflict_resolution_authorship (lit "1") (Some shifted_note) resolution_note (lit "c0"))
    (lit "a.rs") (lit "s_one::t_x") 3.
Proof.
  apply (resolution_fills_uncovered_lines (lit "1") (lit "c0") (Some shifted_note) resolution_note);
    [apply sample_notes_in_u32..|].
  right. split; [apply resolution_note_covers|].
  intros [h' H%shifted_note_covers]. lia.
Defined.

Lemma merged_metadata_follows_lines_witness :
  sessions (metadata (merge_conflict_resolution_authorship (lit "1") (Some shifted_note)
    resolution_note (lit "c0"))) !! lit "s_one" =
  Some (mkSessionRecord agent {[lit "t_x" := lit "m"]} None None).
Proof.
  destruct (merged_metadata_follows_lines (lit "1") (lit "c0") (Some shifted_note) resolution_note
    (proj1 sample_notes_in_u32) (proj2 sample_notes_in_u32) (lit "s_one")) as (_ & _ & H & _).
  rewrite H; [reflexivity|reflexivity|].
  exists (lit "s_one::t_x"), (lit "a.rs"), 3%Z. split; [apply resolution_note_covers|].
  split; [|reflexivity]. intros [h' Hl%shifted_note_covers]. lia.
Defined.

End ConflictResolutionProps.
