(* ===== verification/ImaraDiff.v ===== *)
(** * Diffs

    Models src/src/authorship/imara_diff_utils.rs: the byte and index
    operations of a diff, the conversion of the engine's hunks to operations,
    the changes between two texts line by line, and the treatment of CRLF line
    ends.  The diff engine (the imara_diff crate) is the class [DiffEngine]:
    two functions that return hunks, and the law that their hunks are ordered,
    inside both sequences, with equal elements between them. *)

From S2P Require Import Prelude.

Module ImaraDiff.

(** ** Byte diffs *)

Inductive ByteDiffOp := Equal | Delete | Insert.

#[export] Instance ByteDiffOp_eq_dec : EqDecision ByteDiffOp.
Proof. solve_decision. Defined.

Record ByteDiff := mkDiff { op : ByteDiffOp; data : str }.

(** ** Index diffs *)

Inductive DiffOp :=
  | OpEqual (old_index new_index len : nat)
  | OpDelete (old_index old_len new_index : nat)
  | OpInsert (old_index new_index new_len : nat)
  | OpReplace (old_index old_len new_index new_len : nat).

(** A hunk of the engine: the half-open index ranges it replaces. *)
Record Hunk := mkEngineHunk {
  before_start : nat; before_end : nat; after_start : nat; after_end : nat
}.

(** The changed part of a hunk. *)
Definition change_ops (hunk : Hunk) : list DiffOp :=
  let old_hunk_len := before_end hunk - before_start hunk in
  let new_hunk_len := after_end hunk - after_start hunk in
  if (0 <? old_hunk_len) && (0 <? new_hunk_len) then
    [OpReplace (before_start hunk) old_hunk_len (after_start hunk) new_hunk_len]
  else if 0 <? old_hunk_len then [OpDelete (before_start hunk) old_hunk_len (after_start hunk)]
  else if 0 <? new_hunk_len then [OpInsert (before_start hunk) (after_start hunk) new_hunk_len]
  else [].

Fixpoint hunks_loop (old_idx new_idx : nat) (hunks : list Hunk) (old_len : nat) : list DiffOp :=
  match hunks with
  | [] => if old_idx <? old_len then [OpEqual old_idx new_idx (old_len - old_idx)] else []
  | hunk :: hunks' =>
      (if old_idx <? before_start hunk
       then [OpEqual old_idx new_idx (before_start hunk - old_idx)] else []) ++
      change_ops hunk ++
      hunks_loop (before_end hunk) (after_end hunk) hunks' old_len
  end.

Definition hunks_to_diff_ops (hunks : list Hunk) (old_len : nat) : list DiffOp :=
  hunks_loop 0 0 hunks old_len.

(** ** Lines and line ends *)

(** The lines of a text with their terminators. *)
Fixpoint split_lines_with_terminators (s : str) : list str :=
  match s with
  | [] => []
  | c :: s' =>
      if bool_decide (c = LF) then [LF] :: split_lines_with_terminators s'
      else match split_lines_with_terminators s' with
           | [] => [[c]]
           | l :: ls => (c :: l) :: ls
           end
  end.

(** [s.contains("\r\n")]. *)
Fixpoint has_crlf (s : str) : bool :=
  match s with
  | [] => false
  | c :: s' =>
      (bool_decide (c = CR) && bool_decide (head s' = Some LF)) || has_crlf s'
  end.

(** [s.replace("\r\n", "\n")]: a carriage return before a line feed is dropped. *)
Fixpoint replace_crlf (s : str) : str :=
  match s with
  | [] => []
  | c :: s' =>
      if bool_decide (c = CR) && bool_decide (head s' = Some LF) then replace_crlf s'
      else c :: replace_crlf s'
  end.

Definition normalize_line_endings (s : str) : str :=
  if has_crlf s then replace_crlf s else s.

(** [next_normalized_byte]: the byte and what is left; a CRLF pair is one line feed. *)
Definition next_normalized_byte (bytes : str) : option (ascii * str) :=
  match bytes with
  | [] => None
  | byte :: rest =>
      if bool_decide (byte = CR) && bool_decide (head rest = Some LF)
      then Some (LF, drop 1 rest) else Some (byte, rest)
  end.

(** The loop; every turn consumes a byte of [a]. *)
Fixpoint content_eq_loop (fuel : nat) (a b : str) : option bool :=
  match fuel with
  | O => None
  | S f =>
      match next_normalized_byte a, next_normalized_byte b with
      | Some (a_byte, a'), Some (b_byte, b') =>
          if bool_decide (a_byte = b_byte) then content_eq_loop f a' b' else Some false
      | None, None => Some true
      | _, _ => Some false
      end
  end.

Definition content_eq_ignoring_line_endings (a b : str) : option bool :=
  if str_eqb a b then Some true else content_eq_loop (S (length a)) a b.

(** ** The engine *)

(** Hunks of a diff from positions [i] and [j] on. *)
Fixpoint hunks_valid {T : Type} (old new : list T) (i j : nat) (hunks : list Hunk) : Prop :=
  match hunks with
  | [] => i ≤ length old ∧ j ≤ length new ∧ drop i old = drop j new
  | h :: hunks' =>
      i ≤ before_start h ∧ before_start h ≤ before_end h ∧ before_end h ≤ length old ∧
      j ≤ after_start h ∧ after_start h ≤ after_end h ∧ after_end h ≤ length new ∧
      before_start h - i = after_start h - j ∧
      slice i (before_start h) old = slice j (after_start h) new ∧
      hunks_valid old new (before_end h) (after_end h) hunks'
  end.

Class DiffEngine := {
  (** [Diff::compute(Myers, ..).hunks()] on two slices. *)
  diff_slices : ∀ (T : Type) (eq : EqDecision T), list T → list T → list Hunk;
  (** The same on the lines of two texts, after [postprocess_lines]. *)
  diff_texts : str → str → list Hunk;
  diff_slices_valid : ∀ T eq (old new : list T), hunks_valid old new 0 0 (diff_slices T eq old new);
  diff_texts_valid : ∀ old new,
    hunks_valid (split_lines_with_terminators old) (split_lines_with_terminators new) 0 0
      (diff_texts old new)
}.

Definition capture_diff_slices `{!DiffEngine} {T : Type} `{!EqDecision T} (old new : list T) :
    list DiffOp :=
  hunks_to_diff_ops (diff_slices T _ old new) (length old).

(** ** Changes between two texts *)

Inductive LineChangeTag := LineInsert | LineDelete | LineEqual.

#[export] Instance LineChangeTag_eq_dec : EqDecision LineChangeTag.
Proof. solve_decision. Defined.

Record LineChange := mkChange { tag : LineChangeTag; value : str }.

(** [for i in a..b { if let Some(line) = lines.get(i) { push } }]. *)
Definition changes_in (t : LineChangeTag) (lines : list str) (a b : nat) : list LineChange :=
  omap (λ i, try line := lines !! i in Some (mkChange t line)) (seq a (b - a)).

(** [while old_idx < old_end && new_idx < new_end]: as many steps as the
    shorter range has. *)
Definition equal_before (new_lines : list str) (old_idx new_idx old_end new_end : nat) :
    list LineChange :=
  changes_in LineEqual new_lines new_idx (new_idx + Nat.min (old_end - old_idx) (new_end - new_idx)).

Fixpoint changes_loop (old_lines new_lines : list str) (old_idx new_idx : nat)
    (hunks : list Hunk) : list LineChange :=
  match hunks with
  | [] => changes_in LineEqual new_lines new_idx (length new_lines)
  | h :: hunks' =>
      equal_before new_lines old_idx new_idx (before_start h) (after_start h) ++
      changes_in LineDelete old_lines (before_start h) (before_end h) ++
      changes_in LineInsert new_lines (after_start h) (after_end h) ++
      changes_loop old_lines new_lines (before_end h) (after_end h) hunks'
  end.

Definition compute_line_changes `{!DiffEngine} (old new : str) : list LineChange :=
  changes_loop (split_lines_with_terminators old) (split_lines_with_terminators new) 0 0
    (diff_texts (normalize_line_endings old) (normalize_line_endings new)).

(** ** Reference: operations that tile both sequences *)

Fixpoint ops_tile {T : Type} (old new : list T) (i j : nat) (ops : list DiffOp) : Prop :=
  match ops with
  | [] => i = length old ∧ j = length new
  | OpEqual o n l :: ops' =>
      o = i ∧ n = j ∧ 0 < l ∧ i + l ≤ length old ∧ j + l ≤ length new ∧
      slice i (i + l) old = slice j (j + l) new ∧ ops_tile old new (i + l) (j + l) ops'
  | OpDelete o ol n :: ops' =>
      o = i ∧ n = j ∧ 0 < ol ∧ i + ol ≤ length old ∧ ops_tile old new (i + ol) j ops'
  | OpInsert o n nl :: ops' =>
      o = i ∧ n = j ∧ 0 < nl ∧ j + nl ≤ length new ∧ ops_tile old new i (j + nl) ops'
  | OpReplace o ol n nl :: ops' =>
      o = i ∧ n = j ∧ 0 < ol ∧ 0 < nl ∧ i + ol ≤ length old ∧ j + nl ≤ length new ∧
      ops_tile old new (i + ol) (j + nl) ops'
  end.

(** Replaying operations on the old sequence. *)
Definition replay {T : Type} (old new : list T) (ops : list DiffOp) : list T :=
  flat_map (λ op,
    match op with
    | OpEqual o _ l => slice o (o + l) old
    | OpDelete _ _ _ => []
    | OpInsert _ n nl | OpReplace _ _ n nl => slice n (n + nl) new
    end) ops.

(** The lines of a text that a list of changes keeps or adds, and those it
    keeps or deletes. *)
Definition new_side (cs : list LineChange) : list str :=
  map value (filter (λ c, tag c ≠ LineDelete) cs).
Definition old_side (cs : list LineChange) : list str :=
  map value (filter (λ c, tag c ≠ LineInsert) cs).

End ImaraDiff.

(** ** Lemmas *)

Module ImaraDiffFacts.
Import ImaraDiff.

Section Tiling.
Context {T : Type}.
Implicit Types old new : list T.

Lemma change_ops_tile old new i j h ops :
  before_start h = i → after_start h = j →
  before_start h ≤ before_end h → before_end h ≤ length old →
  after_start h ≤ after_end h → after_end h ≤ length new →
  ops_tile old new (before_end h) (after_end h) ops →
  ops_tile old new i j (change_ops h ++ ops).
Proof.
  intros <- <- H1 H2 H3 H4 Ht. unfold change_ops.
  assert (before_start h + (before_end h - before_start h) = before_end h) as Eo by lia.
  assert (after_start h + (after_end h - after_start h) = after_end h) as En by lia.
  destruct (Nat.ltb_spec 0 (before_end h - before_start h)) as [Ho|Ho];
    destruct (Nat.ltb_spec 0 (after_end h - after_start h)) as [Hn|Hn]; simpl; rewrite ?Eo, ?En.
  - by split_and!.
  - split_and!; try done. by replace (after_start h) with (after_end h) by lia.
  - split_and!; try done. by replace (before_start h) with (before_end h) by lia.
  - replace (after_start h) with (after_end h) by lia.
    by replace (before_start h) with (before_end h) by lia.
Qed.

Lemma hunks_loop_tile old new i j hs :
  hunks_valid old new i j hs → ops_tile old new i j (hunks_loop i j hs (length old)).
Proof.
  revert i j. induction hs as [|h hs IH]; intros i j; simpl.
  - intros (Hi & Hj & E). pose proof (f_equal length E) as El. rewrite !length_drop in El.
    destruct (Nat.ltb_spec i (length old)); simpl; [|lia]. split_and!; try done || lia.
    replace (i + (length old - i)) with (length old) by lia.
    replace (j + (length old - i)) with (length new) by lia. by rewrite !slice_to_end.
  - intros (H1 & H2 & H3 & H4 & H5 & H6 & El & E & Hv). apply IH in Hv.
    destruct (Nat.ltb_spec i (before_start h)); cbn [app].
    + cbn [ops_tile]. replace (i + (before_start h - i)) with (before_start h) by lia.
      replace (j + (before_start h - i)) with (after_start h) by lia.
      split_and!; try done || lia. by apply change_ops_tile.
    + apply change_ops_tile; done || lia.
Qed.

Lemma replay_tile old new i j ops :
  j ≤ length new → ops_tile old new i j ops → replay old new ops = drop j new.
Proof.
  revert i j. induction ops as [|o ops IH]; intros i j Hj; simpl.
  { intros [_ ->]. by rewrite drop_all. }
  assert (∀ k, j + k ≤ length new → slice j (j + k) new ++ drop (j + k) new = drop j new) as Hs.
  { intros. rewrite <-!(slice_to_end _ new). apply slice_app; lia. }
  destruct o as [oi nj l|oi ol nj|oi nj nl|oi ol nj nl]; simpl.
  - intros (-> & -> & ? & ? & ? & E & Ht). apply IH in Ht; [|done].
    unfold replay in Ht |- *. by rewrite Ht, E, Hs.
  - intros (-> & -> & ? & ? & Ht). by apply IH in Ht.
  - intros (-> & -> & ? & ? & Ht). apply IH in Ht; [|done]. unfold replay in *. by rewrite Ht, Hs.
  - intros (-> & -> & ? & ? & ? & ? & Ht). apply IH in Ht; [|done]. unfold replay in *. by rewrite Ht, Hs.
Qed.
End Tiling.

(** *** Line ends *)

Lemma replace_crlf_none s : has_crlf s = false → replace_crlf s = s.
Proof.
  induction s as [|c s IH]; simpl; [done|]. rewrite orb_false_iff. intros [-> H]. by rewrite IH.
Qed.

Lemma normalize_replace s : normalize_line_endings s = replace_crlf s.
Proof.
  unfold normalize_line_endings. destruct (has_crlf s) eqn:E; [done|].
  by rewrite replace_crlf_none.
Qed.

Lemma split_head s : head (split_lines_with_terminators s ≫= id) = head s.
Proof.
  destruct s as [|c s]; simpl; [done|]. case_bool_decide; [by subst|]. by case_match.
Qed.

Lemma concat_split_lines s : concat (split_lines_with_terminators s) = s.
Proof.
  induction s as [|c s IH]; simpl; [done|].
  case_bool_decide; simpl; [by rewrite IH; subst|].
  destruct (split_lines_with_terminators s); simpl in *; by rewrite <-IH.
Qed.

Lemma split_lines_nonempty s : [] ∉ split_lines_with_terminators s.
Proof.
  induction s as [|c s IH]; simpl; [set_solver|].
  case_bool_decide; [set_solver|]. destruct (split_lines_with_terminators s); set_solver.
Qed.

(** The head of the first line is the head of the text. *)
Lemma split_lines_head s l ls :
  split_lines_with_terminators s = l :: ls → head l = head s.
Proof.
  destruct s as [|c s]; simpl; [done|]. case_bool_decide; [by intros [= <- <-]; subst|].
  case_match; by intros [= <- <-].
Qed.

(** Dropping the carriage return of line ends commutes with splitting lines. *)
Lemma split_replace_crlf s :
  split_lines_with_terminators (replace_crlf s) =
  map replace_crlf (split_lines_with_terminators s).
Proof.
  induction s as [|c s IH]; [done|]. cbn [replace_crlf split_lines_with_terminators].
  destruct (bool_decide (c = CR) && bool_decide (head s = Some LF)) eqn:E.
  - bool_hyps. subst. rewrite bool_decide_false by done. rewrite IH.
    destruct s as [|d s]; [done|]. cbn [head] in *. simplify_eq.
    cbn [split_lines_with_terminators]. rewrite bool_decide_true by done. done.
  - cbn [split_lines_with_terminators]. rewrite IH.
    destruct (decide (c = LF)) as [->|Hne]; [by rewrite !(bool_decide_true (LF = LF)) by done|].
    rewrite !(bool_decide_false (c = LF)) by done.
    destruct (split_lines_with_terminators s) as [|l ls] eqn:Es; simpl.
    + by rewrite andb_false_r.
    + rewrite (split_lines_head _ _ _ Es). by rewrite E.
Qed.

Lemma next_normalized_spec s :
  match next_normalized_byte s with
  | Some (c, r) => replace_crlf s = c :: replace_crlf r ∧ length r < length s
  | None => s = []
  end.
Proof.
  destruct s as [|c s]; simpl; [done|].
  destruct (bool_decide (c = CR) && bool_decide (head s = Some LF)) eqn:E; [|split; [done|lia]].
  bool_hyps. destruct s as [|d s]; [done|]. cbn [head] in *. simplify_eq.
  rewrite skipn_cons, drop_0. split; [done|simpl; lia].
Qed.

Lemma content_eq_loop_spec fuel a b :
  length a < fuel → content_eq_loop fuel a b = Some (bool_decide (replace_crlf a = replace_crlf b)).
Proof.
  revert a b. induction fuel as [|f IH]; intros a b Hf; [lia|]. simpl.
  pose proof (next_normalized_spec a) as Ha. pose proof (next_normalized_spec b) as Hb.
  destruct (next_normalized_byte a) as [[c a']|], (next_normalized_byte b) as [[d b']|].
  - destruct Ha as [-> Ha], Hb as [-> Hb]. case_bool_decide; subst.
    + rewrite IH by lia. f_equal. apply bool_decide_ext. split; [by intros ->|by intros [= ->]].
    + rewrite bool_decide_false; [done|]. by intros [= ?].
  - destruct Ha as [-> Ha]. by subst.
  - destruct Hb as [-> Hb]. by subst.
  - by subst.
Qed.

(** *** Line changes *)

Lemma changes_in_slice t ls a b :
  a ≤ b → b ≤ length ls → changes_in t ls a b = map (mkChange t) (slice a b ls).
Proof.
  intros Hab Hb. unfold changes_in, slice. remember (b - a) as n eqn:Hn.
  assert (a + n ≤ length ls) as H by lia. clear Hn Hab Hb b. revert a H.
  induction n as [|n IH]; intros a H; simpl; [done|].
  destruct (lookup_lt_is_Some_2 ls a ltac:(lia)) as [x Hx]. rewrite Hx. simpl.
  rewrite (drop_S _ _ _ Hx). simpl. f_equal. apply IH. lia.
Qed.

Lemma new_side_app a b : new_side (a ++ b) = new_side a ++ new_side b.
Proof. unfold new_side. by rewrite filter_app, map_app. Qed.
Lemma old_side_app a b : old_side (a ++ b) = old_side a ++ old_side b.
Proof. unfold old_side. by rewrite filter_app, map_app. Qed.

Lemma new_side_changes t ls :
  new_side (map (mkChange t) ls) = if decide (t = LineDelete) then [] else ls.
Proof.
  induction ls as [|l ls IH]; [by case_decide|]. unfold new_side in *. simpl.
  rewrite filter_cons. simpl. destruct (decide (t = LineDelete)); case_decide; naive_solver congruence.
Qed.

Lemma old_side_changes t ls :
  old_side (map (mkChange t) ls) = if decide (t = LineInsert) then [] else ls.
Proof.
  induction ls as [|l ls IH]; [by case_decide|]. unfold old_side in *. simpl.
  rewrite filter_cons. simpl. destruct (decide (t = LineInsert)); case_decide; naive_solver congruence.
Qed.

Lemma map_slice {A B} (f : A → B) a b l : map f (slice a b l) = slice a b (map f l).
Proof. unfold slice. change (map f) with (fmap (M:=list) f). by rewrite fmap_take, fmap_drop. Qed.

Lemma changes_loop_sides (f : str → str) ol nl i j hs :
  hunks_valid (map f ol) (map f nl) i j hs →
  new_side (changes_loop ol nl i j hs) = drop j nl ∧
  map f (old_side (changes_loop ol nl i j hs)) = map f (drop i ol).
Proof.
  revert i j. induction hs as [|h hs IH]; intros i j; cbn [changes_loop hunks_valid];
    rewrite !length_map.
  - intros (Hi & Hj & E). rewrite changes_in_slice, slice_to_end by lia.
    rewrite new_side_changes, old_side_changes. simpl. split; [done|].
    change (map f) with (fmap (M:=list) f) in *. by rewrite !fmap_drop, E.
  - intros (H1 & H2 & H3 & H4 & H5 & H6 & El & E & Hv). apply IH in Hv as [Hn Ho].
    unfold equal_before. rewrite Nat.min_r by lia.
    replace (j + (after_start h - j)) with (after_start h) by lia.
    rewrite !changes_in_slice, !new_side_app, !old_side_app, !new_side_changes, !old_side_changes by lia.
    simpl. rewrite !map_app, Hn, Ho. split.
    + rewrite <-!(slice_to_end _ nl). by rewrite !slice_app by lia.
    + rewrite (map_slice f j), <-E, <-map_slice, <-!map_app.
      rewrite <-!(slice_to_end _ ol). by rewrite !slice_app by lia.
Qed.
(** The comparison of two texts always ends, and answers whether they are
    equal after normalizing their line ends; normalizing never changes how a
    text splits into lines, so the lines of both texts stay aligned. *)
Lemma content_eq_is_normalized_eq (a b : str) :
  content_eq_ignoring_line_endings a b =
    Some (bool_decide (normalize_line_endings a = normalize_line_endings b)) ∧
  split_lines_with_terminators (normalize_line_endings a) =
    map normalize_line_endings (split_lines_with_terminators a).
Proof.
  split.
  - unfold content_eq_ignoring_line_endings. destruct (str_eqb a b) eqn:E.
    + apply str_eqb_eq in E as ->. by rewrite bool_decide_true.
    + rewrite content_eq_loop_spec by lia. by rewrite !normalize_replace.
  - rewrite normalize_replace, split_replace_crlf. symmetry. apply map_ext, normalize_replace.
Qed.

End ImaraDiffFacts.

(** ** A concrete engine: everything changed, or nothing *)

Module CoarseEngine.
Import ImaraDiff.

Definition coarse_hunks {T : Type} `{!EqDecision T} (old new : list T) : list Hunk :=
  if decide (old = new) then [] else [mkEngineHunk 0 (length old) 0 (length new)].

Lemma coarse_hunks_valid {T : Type} `{!EqDecision T} (old new : list T) :
  hunks_valid old new 0 0 (coarse_hunks old new).
Proof.
  unfold coarse_hunks. case_decide; subst; simpl.
  - split_and!; done || lia.
  - rewrite !drop_all. split_and!; done || lia.
Qed.

Definition coarse_engine : DiffEngine := {|
  diff_slices := λ T eq, @coarse_hunks T eq;
  diff_texts := λ old new,
    coarse_hunks (split_lines_with_terminators old) (split_lines_with_terminators new);
  diff_slices_valid := λ T eq, @coarse_hunks_valid T eq;
  diff_texts_valid := λ old new, coarse_hunks_valid _ _
|}.
End CoarseEngine.

(** ** Properties *)

Module ImaraDiffProps.
Import ImaraDiff ImaraDiffFacts CoarseEngine.

(** whatever hunks the engine reports, the operations tile both
    sequences without gap or overlap, every operation is nonempty, the
    elements of an [Equal] operation are equal, and replaying the operations
    on the old sequence gives the new one. *)
Theorem diff_ops_tile `{!DiffEngine} (T : Type) (eq : EqDecision T) (old new : list T) :
  ops_tile old new 0 0 (capture_diff_slices old new) ∧
  replay old new (capture_diff_slices old new) = new.
Proof.
  pose proof (hunks_loop_tile old new 0 0 _ (diff_slices_valid T eq old new)) as Ht.
  split; [exact Ht|]. unfold capture_diff_slices, hunks_to_diff_ops.
  rewrite (replay_tile _ _ _ _ _ (Nat.le_0_l _) Ht). by rewrite drop_0.
Qed.

(** the line changes between two texts contain every line of the new
    text, byte for byte and in order, as kept or inserted, and every line of
    the old text as kept or deleted up to its line end. *)
Theorem line_changes_cover_both_texts `{!DiffEngine} (old new : str) :
  new_side (compute_line_changes old new) = split_lines_with_terminators new ∧
  map normalize_line_endings (old_side (compute_line_changes old new)) =
    map normalize_line_endings (split_lines_with_terminators old).
Proof.
  unfold compute_line_changes. rewrite !normalize_replace.
  pose proof (diff_texts_valid (replace_crlf old) (replace_crlf new)) as Hv.
  rewrite !split_replace_crlf in Hv. apply changes_loop_sides in Hv as [Hn Ho].
  split; [exact Hn|]. rewrite !drop_0 in Ho.
  assert (∀ l, map normalize_line_endings l = map replace_crlf l) as E
    by (intros l; apply map_ext, normalize_replace).
  by rewrite !E, Ho.
Qed.

(** *** Witnesses *)

Lemma diff_ops_tile_witness :
  replay [1; 2] [3] (@capture_diff_slices coarse_engine nat _ [1; 2] [3]) = [3].
Proof. apply (@diff_ops_tile coarse_engine nat _ [1; 2] [3]). Defined.

Lemma line_changes_cover_both_texts_witness :
  new_side (@compute_line_changes coarse_engine (lit "a") (lit "b")) = [lit "b"].
Proof.
  destruct (@line_changes_cover_both_texts coarse_engine (lit "a") (lit "b")) as [-> _].
  reflexivity.
Defined.

End ImaraDiffProps.
