(* ===== verification/Attribution.v ===== *)
(** * Attributions

    The data types of src/src/authorship/attribution_tracker.rs: byte ranges
    and line ranges with their author, and the catalogue entries of a diff.
    Byte offsets ([usize]) are natural numbers, lines are [u32] integers and
    timestamps ([u128]) natural numbers. *)

From S2P Require Import Prelude.

Module Attribution.

Record Attribution := mkAttr { start : nat; end_ : nat; author_id : str; ts : N }.

#[export] Instance Attribution_eq_dec : EqDecision Attribution.
Proof. solve_decision. Defined.

Record LineAttribution := mkLineAttr {
  start_line : Z;
  end_line : Z;
  line_author_id : str;
  overrode : option str
}.

#[export] Instance LineAttribution_eq_dec : EqDecision LineAttribution.
Proof. solve_decision. Defined.

(** ** Line attributions *)

Definition line_count (a : LineAttribution) : Z :=
  if (end_line a <? start_line a)%Z then 0
  else u32_add (u32_sub (end_line a) (start_line a)) 1.

Definition line_is_empty (a : LineAttribution) : bool := (end_line a <? start_line a)%Z.

Definition line_overlaps (a : LineAttribution) (s e : Z) : bool :=
  ((start_line a <=? e) && (s <=? end_line a))%Z.

Definition line_intersection (a : LineAttribution) (s e : Z) : option (Z * Z) :=
  let overlap_start := Z.max (start_line a) s in
  let overlap_end := Z.min (end_line a) e in
  if (overlap_start <=? overlap_end)%Z then Some (overlap_start, overlap_end) else None.

(** ** Byte attributions *)

Definition is_empty (a : Attribution) : bool := end_ a <=? start a.

Definition overlaps (a : Attribution) (s e : nat) : bool := (start a <? e) && (s <? end_ a).

Definition intersection (a : Attribution) (s e : nat) : option (nat * nat) :=
  let overlap_start := Nat.max (start a) s in
  let overlap_end := Nat.min (end_ a) e in
  if overlap_start <? overlap_end then Some (overlap_start, overlap_end) else None.

(** ** What attributions denote *)

(** A byte attribution covers the bytes from [start] to before [end_]. *)
Definition covers_byte (a : Attribution) (p : nat) : bool := (start a <=? p) && (p <? end_ a).

(** A line attribution covers its lines, both ends included. *)
Definition covers_line (a : LineAttribution) (l : Z) : bool :=
  ((start_line a <=? l) && (l <=? end_line a))%Z.

End Attribution.

Module AttributionFacts.
Import Attribution.

Lemma covers_byte_true a p : covers_byte a p = true ↔ start a ≤ p < end_ a.
Proof. unfold covers_byte. rewrite andb_true_iff, Nat.leb_le, Nat.ltb_lt. lia. Qed.

Lemma covers_line_true a l : covers_line a l = true ↔ (start_line a <= l <= end_line a)%Z.
Proof. unfold covers_line. rewrite andb_true_iff, !Z.leb_le. lia. Qed.

(** [overlaps] and [intersection] on ranges, in terms of the bytes. *)
Lemma intersection_Some a s e x y :
  intersection a s e = Some (x, y) ↔
  x = Nat.max (start a) s ∧ y = Nat.min (end_ a) e ∧ x < y.
Proof.
  unfold intersection. destruct (Nat.ltb_spec (start a `max` s) (end_ a `min` e)); naive_solver lia.
Qed.

Lemma intersection_None a s e :
  intersection a s e = None ↔ end_ a `min` e ≤ start a `max` s.
Proof.
  unfold intersection. destruct (Nat.ltb_spec (start a `max` s) (end_ a `min` e)); naive_solver lia.
Qed.

Lemma overlaps_true a s e : overlaps a s e = true ↔ start a < e ∧ s < end_ a.
Proof. unfold overlaps. by rewrite andb_true_iff, !Nat.ltb_lt. Qed.

(** On proper ranges an overlap is a common byte. *)
Lemma overlaps_common a s e :
  start a < end_ a → s < e →
  overlaps a s e = true ↔ ∃ p, covers_byte a p = true ∧ s ≤ p < e.
Proof.
  intros Ha He. rewrite overlaps_true. setoid_rewrite covers_byte_true. split.
  - intros [? ?]. exists (start a `max` s). lia.
  - intros (p & ? & ?). lia.
Qed.

End AttributionFacts.
