(* ===== verification/LineEndings.v ===== *)
(** * Offsets between a text and its normalized line ends

    Models [LineEndingOffsets] of src/src/authorship/attribution_tracker.rs:
    the carriage returns removed by CRLF normalization, in both coordinates,
    and the mapping of byte offsets and attributions between a file and its
    normalized text. *)

From S2P Require Import Prelude ImaraDiff Attribution.

Module LineEndings.
Import ImaraDiff Attribution.

(** The removed carriage returns: original and normalized offset. *)
Record LineEndingOffsets := mkOffsets { removed_crs : list (nat * nat) }.

(** The test [pair == b"\r\n"] on the window that starts with [c]. *)
Definition is_crlf (c : ascii) (s' : str) : bool :=
  bool_decide (c = CR) && bool_decide (head s' = Some LF).

(** The loop over [windows(2).enumerate()]; [removed] is the length of the vector. *)
Fixpoint offsets_loop (offset removed : nat) (s : str) : list (nat * nat) :=
  match s with
  | [] => []
  | c :: s' =>
      if is_crlf c s' then (offset, offset - removed) :: offsets_loop (S offset) (S removed) s'
      else offsets_loop (S offset) removed s'
  end.

Definition new_offsets (content : str) : LineEndingOffsets := mkOffsets (offsets_loop 0 0 content).

Definition to_normalized (o : LineEndingOffsets) (offset : nat) : nat :=
  offset - partition_point (λ '(original, _), original <? offset) (removed_crs o).

Definition to_original (o : LineEndingOffsets) (offset : nat) : nat :=
  offset + partition_point (λ '(_, normalized), normalized <? offset) (removed_crs o).

Definition normalize_attribution (o : LineEndingOffsets) (attr : Attribution) : option Attribution :=
  let s := to_normalized o (start attr) in
  let e := to_normalized o (end_ attr) in
  if (s <? e) || (start attr =? end_ attr)
  then Some (mkAttr s e (author_id attr) (ts attr)) else None.

(** The update of each attribution at the end of an update. *)
Definition original_attribution (o : LineEndingOffsets) (attr : Attribution) : Attribution :=
  mkAttr (to_original o (start attr)) (to_original o (end_ attr)) (author_id attr) (ts attr).

(** An offset between the two bytes of a CRLF pair. *)
Definition inside_crlf (s : str) (o : nat) : Prop :=
  0 < o ∧ s !! (o - 1) = Some CR ∧ s !! o = Some LF.

End LineEndings.

Module LineEndingsFacts.
Import ImaraDiff ImaraDiffFacts Attribution LineEndings.

(** The CRLF pairs that start among the first [k] bytes. *)
Fixpoint crs_before (s : str) (k : nat) : nat :=
  match s, k with
  | c :: s', S k' => (if is_crlf c s' then 1 else 0) + crs_before s' k'
  | _, _ => 0
  end.

(** The CRLF pairs that start before normalized offset [q]. *)
Fixpoint crs_norm (s : str) (q : nat) : nat :=
  match s, q with
  | c :: s', S q' => if is_crlf c s' then S (crs_norm s' q) else crs_norm s' q'
  | _, _ => 0
  end.

Lemma is_crlf_true c s : is_crlf c s = true ↔ c = CR ∧ ∃ t, s = LF :: t.
Proof.
  unfold is_crlf. rewrite andb_true_iff, !bool_decide_eq_true.
  destruct s as [|d t]; simpl; naive_solver.
Qed.

Lemma offsets_original_ge off rem s p :
  p ∈ offsets_loop off rem s → off ≤ p.1.
Proof.
  revert off rem. induction s as [|c s IH]; intros off rem; simpl; [set_solver|].
  case_match; rewrite ?elem_of_cons; [intros [->|Hin]; simpl; [lia|]|intros Hin];
    apply IH in Hin; lia.
Qed.

Lemma partition_original off rem s o :
  partition_point (λ '(original, _), original <? o) (offsets_loop off rem s) =
  crs_before s (o - off).
Proof.
  revert off rem. induction s as [|c s IH]; intros off rem; [done|].
  destruct (decide (o ≤ off)).
  - replace (o - off) with 0 by lia. simpl (crs_before _ 0). apply partition_point_none.
    intros [a b] Hin%offsets_original_ge. simpl in Hin. apply Nat.ltb_ge. lia.
  - replace (o - off) with (S (o - S off)) by lia. simpl.
    destruct (is_crlf c s); simpl; rewrite ?IH; [|done].
    rewrite (proj2 (Nat.ltb_lt _ _)) by lia. done.
Qed.

Lemma offsets_normalized_ge off rem s p :
  rem ≤ off → p ∈ offsets_loop off rem s → off - rem ≤ p.2.
Proof.
  revert off rem. induction s as [|c s IH]; intros off rem Hr; simpl; [set_solver|].
  case_match; rewrite ?elem_of_cons; [intros [->|Hin]; simpl; [lia|]|intros Hin];
    apply IH in Hin; lia.
Qed.

Lemma partition_normalized off rem s q :
  rem ≤ off →
  partition_point (λ '(_, normalized), normalized <? q) (offsets_loop off rem s) =
  crs_norm s (q - (off - rem)).
Proof.
  revert off rem. induction s as [|c s IH]; intros off rem Hr; [done|].
  destruct (decide (q ≤ off - rem)).
  - replace (q - (off - rem)) with 0 by lia. simpl (crs_norm _ 0). apply partition_point_none.
    intros [a b] Hin%offsets_normalized_ge; [|done]. simpl in Hin. apply Nat.ltb_ge. lia.
  - replace (q - (off - rem)) with (S (q - S (off - rem))) by lia. simpl.
    destruct (is_crlf c s); simpl; rewrite ?IH by lia.
    + rewrite (proj2 (Nat.ltb_lt _ _)) by lia. do 2 f_equal. lia.
    + f_equal. lia.
Qed.

Lemma to_normalized_eq s o : to_normalized (new_offsets s) o = o - crs_before s o.
Proof.
  unfold to_normalized, new_offsets. simpl. rewrite partition_original. by rewrite Nat.sub_0_r.
Qed.

Lemma to_original_eq s q : to_original (new_offsets s) q = q + crs_norm s q.
Proof.
  unfold to_original, new_offsets. simpl. rewrite partition_normalized by done.
  by rewrite !Nat.sub_0_r.
Qed.

Lemma replace_cons c s : is_crlf c s = false → replace_crlf (c :: s) = c :: replace_crlf s.
Proof. unfold is_crlf. simpl. by intros ->. Qed.

Lemma replace_crlf_cons s : replace_crlf (CR :: LF :: s) = LF :: replace_crlf s.
Proof. done. Qed.

Lemma is_crlf_take c s n : is_crlf c s = false → is_crlf c (take n s) = false.
Proof. unfold is_crlf. destruct s, n; simpl; by rewrite ?andb_false_r. Qed.

(** Cutting a text at the image of a normalized offset. *)
Lemma cut_at_normalized s q :
  q ≤ length (replace_crlf s) →
  q + crs_norm s q ≤ length s ∧
  replace_crlf (take (q + crs_norm s q) s) = take q (replace_crlf s) ∧
  replace_crlf (drop (q + crs_norm s q) s) = drop q (replace_crlf s).
Proof.
  revert q. induction s as [|c s IH]; intros [|q] Hq;
    [by split_and!|simpl in Hq; lia|split_and!; [simpl; lia|done..]|].
  cbn [crs_norm]. destruct (is_crlf c s) eqn:E.
  - apply is_crlf_true in E as [-> [t ->]].
    assert (replace_crlf (CR :: LF :: t) = replace_crlf (LF :: t)) as Er by done.
    rewrite Er in Hq |- *. destruct (IH (S q) Hq) as (H1 & H2 & H3).
    revert H1 H2 H3. generalize (crs_norm (LF :: t) (S q)) as n. intros n H1 H2 H3.
    replace (S q + S n) with (S (S q + n)) by lia.
    split; [cbn [length] in *; lia|]. cbn [take drop]. split; [|exact H3].
    rewrite <-H2. replace (S q + n) with (S (q + n)) by lia. done.
  - rewrite replace_cons in Hq |- * by done. simpl in Hq.
    destruct (IH q) as (H1 & H2 & H3); [lia|].
    replace (S q + crs_norm s q) with (S (q + crs_norm s q)) by lia.
    split; [simpl; lia|]. cbn [take drop]. rewrite replace_cons by (by apply is_crlf_take).
    by rewrite H2.
Qed.

Lemma crs_before_norm s q : crs_before s (q + crs_norm s q) = crs_norm s q.
Proof.
  revert q. induction s as [|c s IH]; intros q; [by destruct q|].
  destruct q as [|q]; [done|]. cbn [crs_norm]. destruct (is_crlf c s) eqn:E.
  - replace (S q + S (crs_norm s (S q))) with (S (S q + crs_norm s (S q))) by lia.
    cbn [crs_before]. rewrite E, IH. lia.
  - replace (S q + crs_norm s q) with (S (q + crs_norm s q)) by lia.
    cbn [crs_before]. by rewrite E, IH.
Qed.

Lemma crs_before_le s o : crs_before s o ≤ o.
Proof.
  revert o. induction s as [|c s IH]; intros [|o]; simpl; try lia.
  specialize (IH o). case_match; lia.
Qed.

Lemma crs_before_lf s o : crs_before (LF :: s) (S o) = crs_before s o.
Proof. done. Qed.

(** Offsets on character boundaries come back. *)
Lemma crs_norm_before s o :
  o ≤ length s → ¬ inside_crlf s o → crs_norm s (o - crs_before s o) = crs_before s o.
Proof.
  revert o. induction s as [|c s IH]; intros [|o] Ho Hi; try done.
  pose proof (crs_before_le s o) as Hle. simpl in Ho. cbn [crs_before].
  destruct (is_crlf c s) eqn:E.
  - apply is_crlf_true in E as [-> [t ->]]. destruct o as [|o].
    { destruct Hi. split; [lia|done]. }
    rewrite crs_before_lf in *. pose proof (crs_before_le t o).
    replace (S (S o) - (1 + crs_before t o)) with (S (o - crs_before t o)) by lia.
    cbn [crs_norm]. replace (is_crlf CR (LF :: t)) with true by done.
    specialize (IH (S o) ltac:(lia)). rewrite crs_before_lf in IH.
    replace (S o - crs_before t o) with (S (o - crs_before t o)) in IH by lia.
    cbn [crs_norm] in IH. rewrite IH; [done|].
    intros (H1 & H2 & H3). apply Hi. split; [lia|]. simpl in *.
    rewrite Nat.sub_0_r in *. done.
  - replace (S o - (0 + crs_before s o)) with (S (o - crs_before s o)) by lia.
    cbn [crs_norm]. rewrite E. apply IH; [lia|].
    intros (H1 & H2 & H3). apply Hi. split; [lia|]. simpl.
    replace (o - 0) with (S (o - 1)) by lia. done.
Qed.

Lemma crs_before_inside s o :
  inside_crlf s o → crs_before s o = S (crs_before s (o - 1)).
Proof.
  intros (H1 & H2 & H3). destruct o as [|o]; [lia|]. clear H1.
  replace (S o - 1) with o in * by lia. revert o H2 H3.
  induction s as [|c s IH]; intros [|o] H2 H3; try done.
  - simpl in H2, H3. simplify_eq. destruct s as [|d t]; [done|]. simpl in H3. simplify_eq. done.
  - cbn [crs_before]. rewrite (IH o) by done. case_match; lia.
Qed.

End LineEndingsFacts.

(** ** Properties *)

Module LineEndingsProps.
Import ImaraDiff ImaraDiffFacts Attribution LineEndings LineEndingsFacts.

(** the two mappings agree with the texts.  Cutting the file at the image
    of a normalized offset cuts the normalized text at that offset, and the
    offset comes back; an offset of the file that is not inside a CRLF pair
    comes back from normalized coordinates, one inside a pair is moved before
    it.  So an attribution on character boundaries survives a round trip. *)
Theorem offsets_follow_text (s : str) :
  (∀ q, q ≤ length (normalize_line_endings s) →
     let o := to_original (new_offsets s) q in
     o ≤ length s ∧ to_normalized (new_offsets s) o = q ∧
     normalize_line_endings (take o s) = take q (normalize_line_endings s) ∧
     normalize_line_endings (drop o s) = drop q (normalize_line_endings s)) ∧
  (∀ o, inside_crlf s o →
     to_normalized (new_offsets s) o = to_normalized (new_offsets s) (o - 1)) ∧
  (∀ a, start a ≤ end_ a → end_ a ≤ length s →
     ¬ inside_crlf s (start a) → ¬ inside_crlf s (end_ a) →
     original_attribution (new_offsets s) <$> normalize_attribution (new_offsets s) a = Some a).
Proof.
  assert (∀ o, o ≤ length s → ¬ inside_crlf s o →
    to_original (new_offsets s) (to_normalized (new_offsets s) o) = o) as Hback.
  { intros o Ho Hi. rewrite to_original_eq, to_normalized_eq, crs_norm_before by done.
    pose proof (crs_before_le s o). lia. }
  split_and!.
  - intros q Hq o. rewrite normalize_replace in Hq.
    destruct (cut_at_normalized s q Hq) as (H1 & H2 & H3). subst o.
    rewrite !to_original_eq, to_normalized_eq, !normalize_replace, crs_before_norm.
    split_and!; done || lia.
  - intros o Hi. rewrite !to_normalized_eq. rewrite (crs_before_inside s o Hi).
    destruct Hi as (? & _). lia.
  - intros [a b who t] Hab Hb Ha' Hb'. unfold normalize_attribution. simpl in *.
    pose proof (Hback a ltac:(lia) Ha') as Ea. pose proof (Hback b Hb Hb') as Eb.
    assert (a < b → to_normalized (new_offsets s) a < to_normalized (new_offsets s) b) as Hlt.
    { intros Hlt. destruct (decide (to_normalized (new_offsets s) a < to_normalized (new_offsets s) b)); [done|].
      exfalso. rewrite to_original_eq in Ea, Eb.
      assert (∀ s q q', q' ≤ q → crs_norm s q' ≤ crs_norm s q) as Hmono.
      { clear. induction s as [|c s IH]; intros [|q] [|q'] H; simpl; try lia.
        case_match; [apply le_n_S, IH; lia|apply IH; lia]. }
      specialize (Hmono s (to_normalized (new_offsets s) a) (to_normalized (new_offsets s) b)). lia. }
    destruct (decide (a < b)).
    + rewrite (proj2 (Nat.ltb_lt _ _)) by auto. simpl. unfold original_attribution. simpl.
      by rewrite Ea, Eb.
    + assert (a = b) as -> by lia. rewrite Nat.eqb_refl, orb_true_r. simpl.
      unfold original_attribution. simpl. by rewrite Ea.
Qed.

Lemma offsets_follow_text_witness :
  let s := "a"%char :: CR :: LF :: ["b"%char] in
  original_attribution (new_offsets s) <$>
    normalize_attribution (new_offsets s) (mkAttr 1 4 (lit "s_one") 7) =
  Some (mkAttr 1 4 (lit "s_one") 7).
Proof.
  intros s. destruct (offsets_follow_text s) as (_ & _ & H).
  apply (H (mkAttr 1 4 (lit "s_one") 7)); simpl; try lia; intros (_ & H1 & H2); done.
Defined.

End LineEndingsProps.
