(* ===== verification/HunkShift.v ===== *)
(** * Shifting attributions through diff hunks

    Models src/src/authorship/hunk_shift.rs: the parser of hunk headers, the
    preserved segments between hunks and the three functions that carry line
    ranges from the old file to the new one.  The reference is [line_after],
    the line of the new file an old line moves to, and [patched], the text the
    hunks produce. *)

From S2P Require Import Prelude Text LineRange AuthorshipLog Attribution.

Local Open Scope Z_scope.

Module HunkShift.
Import LineRange AuthorshipLog Attribution.

Record DiffHunk := mkHunk { old_start : Z; old_count : Z; new_start : Z; new_count : Z }.

(** ** Hunk headers *)

Definition parse_range_spec (spec : str) : option (Z * Z) :=
  match split_once (lit ",") spec with
  | Some (start_str, count_str) =>
      try s := parse_u32 start_str in
      try c := parse_u32 count_str in
      Some (s, c)
  | None =>
      try s := parse_u32 spec in
      Some (s, 1)
  end.

Definition parse_hunk_header (line : str) : option DiffHunk :=
  match split_whitespace line with
  | at_ :: old_word :: new_word :: _ :: _ =>
      if str_eqb at_ (lit "@@") then
        let old_part := trim_start_matches "-" old_word in
        let new_part := trim_start_matches "+" new_word in
        try old := parse_range_spec old_part in
        try new := parse_range_spec new_part in
        Some (mkHunk old.1 old.2 new.1 new.2)
      else None
  | _ => None
  end.

(** ** Preserved segments *)

(** The loop over the hunks; offsets are [i64], which they cannot overflow. *)
Fixpoint segments_loop (offset prev_old_end : Z) (hunks : list DiffHunk) : list (Z * Z * Z) :=
  match hunks with
  | [] => [(prev_old_end, u32_max, offset)]
  | hunk :: hunks' =>
      (if prev_old_end <? u32_add (old_start hunk) 1 then
         let seg_end :=
           if old_count hunk =? 0 then old_start hunk
           else u32_saturating_sub (old_start hunk) 1 in
         if prev_old_end <=? seg_end then [(prev_old_end, seg_end, offset)] else []
       else []) ++
      segments_loop (offset + (new_count hunk - old_count hunk))
        (if old_count hunk =? 0 then u32_add (old_start hunk) 1
         else u32_add (old_start hunk) (old_count hunk)) hunks'
  end.

Definition build_preserved_segments (hunks : list DiffHunk) : list (Z * Z * Z) :=
  segments_loop 0 1 hunks.

(** ** Shifting *)

(** [(line as i64 + offset).max(1) as u32]. *)
Definition shift_line (line offset : Z) : Z := u32_wrap (Z.max (line + offset) 1).

(** The new bounds of the part of a range inside each segment. *)
Definition shift_bounds (segments : list (Z * Z * Z)) (range_start range_end : Z) : list (Z * Z) :=
  omap (λ '(seg_start, seg_end, seg_offset),
    let overlap_start := Z.max range_start seg_start in
    let overlap_end := Z.min range_end seg_end in
    if overlap_start <=? overlap_end
    then Some (shift_line overlap_start seg_offset, shift_line overlap_end seg_offset)
    else None) segments.

Definition shift_range (segments : list (Z * Z * Z)) (range : LineRange) : list LineRange :=
  let '(range_start, range_end) :=
    match range with Single l => (l, l) | Range s e => (s, e) end in
  map (λ '(new_start, new_end),
         if new_start =? new_end then Single new_start else Range new_start new_end)
    (shift_bounds segments range_start range_end).

Definition apply_hunk_shifts_to_attestation_entries (entries : list AttestationEntry)
    (hunks : list DiffHunk) : list AttestationEntry :=
  match hunks with
  | [] => entries
  | _ =>
      let segments := build_preserved_segments hunks in
      omap (λ entry,
        match flat_map (shift_range segments) (line_ranges entry) with
        | [] => None
        | new_ranges => Some (mkEntry (hash entry) new_ranges)
        end) entries
  end.

Definition apply_hunk_shifts_to_file_attestation (file : FileAttestation)
    (hunks : list DiffHunk) : option FileAttestation :=
  match apply_hunk_shifts_to_attestation_entries (entries file) hunks with
  | [] => None
  | es => Some (mkFile (file_path file) es)
  end.

Definition apply_hunk_shifts_to_line_attributions (attrs : list LineAttribution)
    (hunks : list DiffHunk) : list LineAttribution :=
  match hunks with
  | [] => attrs
  | _ =>
      let segments := build_preserved_segments hunks in
      flat_map (λ attr,
        map (λ '(new_start, new_end),
               mkLineAttr new_start new_end (line_author_id attr) (overrode attr))
          (shift_bounds segments (start_line attr) (end_line attr))) attrs
  end.

(** ** Reference: where a line goes, and the text the hunks produce *)

(** The old lines a hunk deletes are those from [first_gone] to before
    [old_next]; a pure insertion deletes none and inserts after [old_start]. *)
Definition first_gone (h : DiffHunk) : Z :=
  if old_count h =? 0 then old_start h + 1 else old_start h.
Definition old_next (h : DiffHunk) : Z := first_gone h + old_count h.

Fixpoint line_after (offset : Z) (hunks : list DiffHunk) (line : Z) : option Z :=
  match hunks with
  | [] => Some (line + offset)
  | h :: hunks' =>
      if line <? first_gone h then Some (line + offset)
      else if line <? old_next h then None
      else line_after (offset + (new_count h - old_count h)) hunks' line
  end.

(** Hunks in order, disjoint, from line [lo] on, with [u32] bounds. *)
Fixpoint hunks_ok (lo : Z) (hunks : list DiffHunk) : Prop :=
  match hunks with
  | [] => True
  | h :: hunks' =>
      lo <= first_gone h ∧ is_u32 (old_start h) ∧ 0 <= old_count h ∧ 0 <= new_count h ∧
      old_next h <= u32_max ∧ hunks_ok (old_next h) hunks'
  end.

Definition total_new (hunks : list DiffHunk) : Z := foldr (λ h n, new_count h + n) 0 hunks.

(** The new lines of each hunk put in place of the lines it deletes; [old] are
    the lines from [pos] on. *)
Fixpoint patched (pos : Z) (old : list str) (hunks : list (DiffHunk * list str)) : list str :=
  match hunks with
  | [] => old
  | (h, added) :: hunks' =>
      take (Z.to_nat (first_gone h - pos)) old ++ added ++
      patched (old_next h) (drop (Z.to_nat (old_next h - pos)) old) hunks'
  end.

(** A diff of a text: ordered hunks inside it, with the lines each one adds. *)
Definition diff_of (old : list str) (hunks : list (DiffHunk * list str)) : Prop :=
  hunks_ok 1 (map fst hunks) ∧
  Forall (λ '(h, added), Z.of_nat (length added) = new_count h) hunks ∧
  Forall (λ '(h, _), old_next h <= Z.of_nat (length old) + 1) hunks.

(** Ranges of lines of a file: 1-based, and small enough that no line
    overflows [u32] when every hunk adds its lines before it. *)
Definition range_fits (hunks : list DiffHunk) (s e : Z) : Prop :=
  1 <= s ∧ is_u32 s ∧ 0 <= e ∧ e + total_new hunks <= u32_max.

Definition entries_fit (hunks : list DiffHunk) (es : list AttestationEntry) : Prop :=
  Forall (λ e, Forall (λ r, range_fits hunks (start_of r) (end_of r)) (line_ranges e)) es.

End HunkShift.

(** ** Lemmas *)

Module HunkShiftFacts.
Import LineRange LineRangeFacts AuthorshipLog Attribution AttributionFacts HunkShift.

Lemma total_new_nonneg lo hs : hunks_ok lo hs → 0 <= total_new hs.
Proof.
  revert lo. induction hs as [|h hs IH]; intros lo; simpl; [lia|].
  intros (_ & _ & _ & ? & _ & H). apply IH in H. lia.
Qed.

(** The segments that start at [lo] carry each line to where [line_after] says. *)
(** The loop without its tests, for ordered hunks. *)
Definition clean_step (lo : Z) (h : DiffHunk) (off : Z) : list (Z * Z * Z) :=
  if lo <? first_gone h then [(lo, first_gone h - 1, off)] else [].

Lemma segments_cons lo h hs off :
  hunks_ok lo (h :: hs) → 1 <= lo →
  segments_loop off lo (h :: hs) =
  clean_step lo h off ++ segments_loop (off + (new_count h - old_count h)) (old_next h) hs.
Proof.
  intros (Hf & Hs & Hc & Hn & Hm & Hok) Hlo. simpl.
  unfold clean_step, first_gone, old_next, is_u32, u32_max in *.
  destruct (Z.eqb_spec (old_count h) 0) as [E|E].
  - unfold first_gone in *. rewrite (proj2 (Z.eqb_eq _ _) E) in *. u32. f_equal; [|f_equal; lia].
    split_ifs; try done; try lia. repeat f_equal; lia.
  - unfold first_gone in *. rewrite (proj2 (Z.eqb_neq _ _) E) in *. u32. f_equal.
    unfold u32_saturating_sub. split_ifs; try done; try lia. repeat f_equal; lia.
Qed.

Lemma elem_of_clean_step lo h off s e f :
  (s, e, f) ∈ clean_step lo h off ↔ lo < first_gone h ∧ s = lo ∧ e = first_gone h - 1 ∧ f = off.
Proof.
  unfold clean_step. destruct (Z.ltb_spec lo (first_gone h)).
  - rewrite list_elem_of_singleton. naive_solver.
  - split; [intros H0; by apply not_elem_of_nil in H0|lia].
Qed.

(** Every segment starts at or after [lo], inside [u32]. *)
Lemma segments_bounds hs off lo s e f :
  hunks_ok lo hs → 1 <= lo <= u32_max → 1 <= lo + off →
  (s, e, f) ∈ segments_loop off lo hs →
  lo <= s ∧ e <= u32_max ∧ 1 <= s + f ∧ f <= off + total_new hs.
Proof.
  revert off lo. induction hs as [|h hs IH]; intros off lo Hok Hlo Ho; simpl total_new.
  { simpl. intros [= -> -> ->]%list_elem_of_singleton. lia. }
  rewrite segments_cons by (done || lia). rewrite elem_of_app, elem_of_clean_step.
  destruct Hok as (Hf & Hs & Hc & Hn & Hm & Hok). unfold is_u32 in *.
  pose proof (total_new_nonneg _ _ Hok). unfold old_next in *.
  intros [(? & -> & -> & ->)|Hin].
  - assert (first_gone h <= u32_max) by lia. lia.
  - apply IH in Hin; [|done|lia..]. lia.
Qed.

(** The segments carry each line to where [line_after] says. *)
Lemma segments_line_after hs off lo o n :
  hunks_ok lo hs → 1 <= lo <= u32_max → 1 <= lo + off → lo <= o <= u32_max →
  (∃ s e f, (s, e, f) ∈ segments_loop off lo hs ∧ s <= o <= e ∧ n = o + f) ↔
  line_after off hs o = Some n.
Proof.
  revert off lo. induction hs as [|h hs IH]; intros off lo Hok Hlo Hoff Ho; cbn [line_after].
  { simpl. setoid_rewrite list_elem_of_singleton. naive_solver lia. }
  rewrite segments_cons by (done || lia).
  pose proof Hok as (Hf & Hs & Hc & Hn & Hm & Hok'). unfold is_u32 in *.
  setoid_rewrite elem_of_app. setoid_rewrite elem_of_clean_step.
  assert (old_next h = first_gone h + old_count h) as Hnext by done.
  assert (1 <= old_next h + (off + (new_count h - old_count h))) as Hoff' by lia.
  pose proof (segments_bounds hs (off + (new_count h - old_count h)) (old_next h)) as Hb.
  destruct (Z.ltb_spec o (first_gone h)); [|destruct (Z.ltb_spec o (old_next h))].
  - split.
    + intros (s & e & f & [(? & -> & -> & ->)|Hin] & Hr & ->); [done|].
      apply Hb in Hin; [lia|done|lia..].
    + intros [= <-]. exists lo, (first_gone h - 1), off. split; [left; naive_solver lia|lia].
  - split; [|done]. intros (s & e & f & [(? & -> & -> & ->)|Hin] & Hr & ->); [lia|].
    apply Hb in Hin; [lia|done|lia..].
  - rewrite <-(IH _ (old_next h)) by (done || lia).
    split; intros (s & e & f & Hin & Hr & ->); exists s, e, f; (split; [|lia]);
      [destruct Hin as [(? & -> & -> & ->)|]; [lia|done]|by right].
Qed.

Lemma preserved_bounds hs s e f :
  hunks_ok 1 hs → (s, e, f) ∈ segments_loop 0 1 hs →
  1 <= s ∧ e <= u32_max ∧ 1 <= s + f ∧ f <= total_new hs.
Proof.
  intros Hok Hin. apply segments_bounds in Hin; [lia|done|unfold u32_max; lia|lia].
Qed.

Lemma preserved_line_after hs o n :
  hunks_ok 1 hs → 1 <= o <= u32_max →
  (∃ s e f, (s, e, f) ∈ segments_loop 0 1 hs ∧ s <= o <= e ∧ n = o + f) ↔
  line_after 0 hs o = Some n.
Proof. intros. apply segments_line_after; done || (unfold u32_max in *; lia). Qed.

(** Shifting a range shifts its lines. *)
Lemma shift_bounds_lines hs s e n :
  hunks_ok 1 hs → range_fits hs s e →
  (∃ a b, (a, b) ∈ shift_bounds (build_preserved_segments hs) s e ∧ a <= n <= b) ↔
  ∃ o, s <= o <= e ∧ line_after 0 hs o = Some n.
Proof.
  intros Hok (Hs1 & Hs & He & Hfit). pose proof (total_new_nonneg _ _ Hok).
  unfold shift_bounds, build_preserved_segments, is_u32, u32_max in *.
  setoid_rewrite list_elem_of_omap. split.
  - intros (a & b & ([[s' e'] f] & Hin & Hx) & Hn).
    destruct (Z.leb_spec (Z.max s s') (Z.min e e')); [|done]. injection Hx as <- <-.
    pose proof (preserved_bounds _ _ _ _ Hok Hin) as Hb. unfold u32_max in Hb.
    unfold shift_line in Hn. rewrite !Z.max_l in Hn by lia.
    rewrite !u32_wrap_small in Hn by (unfold is_u32, u32_max; lia).
    exists (n - f). split; [lia|].
    apply preserved_line_after; [done|unfold u32_max; lia|].
    exists s', e', f. split; [done|lia].
  - intros (o & Ho & Hl).
    apply preserved_line_after in Hl as (s' & e' & f & Hin & Hr & ->);
      [|done|unfold u32_max; lia].
    pose proof (preserved_bounds _ _ _ _ Hok Hin) as Hb. unfold u32_max in Hb.
    exists (shift_line (Z.max s s') f), (shift_line (Z.min e e') f). split.
    + exists (s', e', f). split; [done|]. by rewrite (proj2 (Z.leb_le _ _)) by lia.
    + unfold shift_line. rewrite !Z.max_l by lia.
      rewrite !u32_wrap_small by (unfold is_u32, u32_max; lia). lia.
Qed.

(** Every shifted range is a nonempty range. *)
Lemma shift_bounds_proper hs s e a b :
  hunks_ok 1 hs → range_fits hs s e →
  (a, b) ∈ shift_bounds (build_preserved_segments hs) s e → a <= b.
Proof.
  intros Hok (Hs1 & Hs & He & Hfit). pose proof (total_new_nonneg _ _ Hok).
  unfold shift_bounds, build_preserved_segments, is_u32, u32_max in *.
  rewrite list_elem_of_omap. intros ([[s' e'] f] & Hin & Hx).
  destruct (Z.leb_spec (Z.max s s') (Z.min e e')); [|done]. injection Hx as <- <-.
  pose proof (preserved_bounds _ _ _ _ Hok Hin) as Hb. unfold u32_max in Hb.
  unfold shift_line. rewrite !Z.max_l by lia.
  rewrite !u32_wrap_small by (unfold is_u32, u32_max; lia). lia.
Qed.

Lemma shift_range_lines hs r n :
  hunks_ok 1 hs → range_fits hs (start_of r) (end_of r) →
  contains_any (shift_range (build_preserved_segments hs) r) n = true ↔
  ∃ o, contains r o = true ∧ line_after 0 hs o = Some n.
Proof.
  intros Hok Hfit.
  assert (shift_range (build_preserved_segments hs) r =
    map (λ '(x, y), if x =? y then Single x else Range x y)
      (shift_bounds (build_preserved_segments hs) (start_of r) (end_of r))) as -> by by destruct r.
  assert (∀ o, contains r o = true ↔ start_of r <= o <= end_of r) as Hc.
  { intros o. destruct r; simpl; rewrite ?andb_true_iff, ?Z.leb_le, ?Z.eqb_eq; lia. }
  setoid_rewrite Hc. rewrite <-shift_bounds_lines by done.
  rewrite contains_any_true. setoid_rewrite list_elem_of_fmap. split.
  - intros (r' & ([x y] & -> & Hin) & Hr). exists x, y. split; [done|].
    change (contains (close_run x y) n = true) in Hr. rewrite contains_close_run in Hr.
    bool_hyps. lia.
  - intros (x & y & Hin & Hn). exists (close_run x y). split; [by exists (x, y)|].
    rewrite contains_close_run, andb_true_iff, !Z.leb_le. lia.
Qed.

Lemma shift_ranges_lines hs rs n :
  hunks_ok 1 hs → Forall (λ r, range_fits hs (start_of r) (end_of r)) rs →
  contains_any (flat_map (shift_range (build_preserved_segments hs)) rs) n = true ↔
  ∃ o, contains_any rs o = true ∧ line_after 0 hs o = Some n.
Proof.
  intros Hok Hfit. induction Hfit as [|r rs Hr _ IH]; simpl; [naive_solver|].
  rewrite contains_any_app, orb_true_iff, IH, shift_range_lines by done.
  unfold contains_any at 2. simpl. setoid_rewrite orb_true_iff. naive_solver.
Qed.

(** A shifted list of ranges that denotes no line is empty. *)
Lemma shift_ranges_nil hs rs :
  hunks_ok 1 hs → Forall (λ r, range_fits hs (start_of r) (end_of r)) rs →
  flat_map (shift_range (build_preserved_segments hs)) rs = [] ↔
  ¬ ∃ o n, contains_any rs o = true ∧ line_after 0 hs o = Some n.
Proof.
  intros Hok Hfit. split.
  - intros E (o & n & Ho & Hn). pose proof (shift_ranges_lines hs rs n Hok Hfit) as H.
    rewrite E in H. simpl in H. assert (false = true); [|done]. apply H. eauto.
  - intros Hno. induction Hfit as [|r rs Hr Hrs IH]; [done|]. simpl.
    rewrite IH.
    2:{ intros (o & n & Ho & Hn). apply Hno. exists o, n. split; [|done].
        unfold contains_any in *. simpl. by rewrite Ho, orb_true_r. }
    rewrite app_nil_r. unfold shift_range.
    assert (∀ x, (match r with Single l => (l, l) | Range s e => (s, e) end) = x →
      x = (start_of r, end_of r)) as Hx by (by destruct r; intros ? <-).
    rewrite (Hx _ eq_refl). destruct (shift_bounds _ _ _) as [|[a b] l] eqn:E; [done|].
    exfalso. pose proof (shift_bounds_proper hs (start_of r) (end_of r) a b Hok Hr) as Hp.
    destruct (proj1 (shift_bounds_lines hs (start_of r) (end_of r) a Hok Hr)) as (o & Ho & Hn).
    { exists a, b. rewrite E in Hp |- *. split; [left|]. specialize (Hp ltac:(left)). lia. }
    apply Hno. exists o, a. split; [|done]. unfold contains_any. simpl.
    destruct r; simpl in *; rewrite ?orb_true_iff, ?andb_true_iff, ?Z.leb_le, ?Z.eqb_eq; lia.
Qed.

(** A preserved line keeps its text. *)
Lemma line_after_text hts pos off old o n :
  hunks_ok pos (map fst hts) →
  Forall (λ '(h, added), Z.of_nat (length added) = new_count h) hts →
  Forall (λ '(h, _), old_next h <= pos + Z.of_nat (length old)) hts →
  pos <= o → line_after off (map fst hts) o = Some n →
  pos + off <= n ∧
  patched pos old hts !! Z.to_nat (n - (pos + off)) = old !! Z.to_nat (o - pos).
Proof.
  revert pos off old. induction hts as [|[h added] hts IH]; intros pos off old Hok Hl Hin Ho Hn.
  { injection Hn as <-. split; [lia|]. simpl. f_equal. lia. }
  inversion_clear Hl as [|? ? Hadd Hl']. inversion_clear Hin as [|? ? Hh Hin'].
  destruct Hok as (Hf & Hs & Hc & Hnew & Hm & Hok). cbn [map fst line_after patched] in *.
  assert (old_next h = first_gone h + old_count h) as Hnext by done.
  assert (length (take (Z.to_nat (first_gone h - pos)) old) = Z.to_nat (first_gone h - pos)) as Ht
    by (rewrite length_take; lia).
  destruct (Z.ltb_spec o (first_gone h)); [|destruct (Z.ltb_spec o (old_next h)); [done|]].
  - injection Hn as <-. split; [lia|].
    rewrite lookup_app_l by lia. rewrite lookup_take_lt by lia. f_equal. lia.
  - destruct (IH (old_next h) (off + (new_count h - old_count h))
      (drop (Z.to_nat (old_next h - pos)) old)) as [Hle Hn']; [done..| |done|done|].
    { rewrite length_drop. eapply Forall_impl; [exact Hin'|]. intros [h' a']. lia. }
    clear Hn. rename Hn' into Hn.
    split; [lia|]. rewrite lookup_app_r by lia. rewrite lookup_app_r by lia.
    rewrite lookup_drop in Hn.
    replace (Z.to_nat (n - (pos + off)) - length (take (Z.to_nat (first_gone h - pos)) old) - length added)%nat
      with (Z.to_nat (n - (old_next h + (off + (new_count h - old_count h))))) by lia.
    rewrite Hn. f_equal. lia.
Qed.

(** Lines keep their order. *)
Lemma line_after_mono hs off lo o o' n n' :
  hunks_ok lo hs → o < o' →
  line_after off hs o = Some n → line_after off hs o' = Some n' → n < n'.
Proof.
  revert off lo. induction hs as [|h hs IH]; intros off lo Hok Hlt; cbn [line_after].
  { intros [= <-] [= <-]. lia. }
  destruct Hok as (Hf & Hs & Hc & Hnew & Hm & Hok).
  assert (old_next h = first_gone h + old_count h) as Hnext by done.
  destruct (Z.ltb_spec o (first_gone h)); [|destruct (Z.ltb_spec o (old_next h)); [done|]].
  - intros [= <-]. destruct (Z.ltb_spec o' (first_gone h)); [intros [= <-]; lia|].
    destruct (Z.ltb_spec o' (old_next h)); [done|]. intros Hn.
    assert (∀ hs off lo x y, hunks_ok lo hs → lo <= x → line_after off hs x = Some y → lo + off <= y) as Hlow.
    { clear. induction hs as [|h hs IH]; intros off lo x y; cbn [line_after].
      - intros _ ? [= <-]. lia.
      - intros (? & ? & ? & ? & ? & Hok) Hx.
        assert (old_next h = first_gone h + old_count h) by done.
        destruct (Z.ltb_spec x (first_gone h)); [intros [= <-]; lia|].
        destruct (Z.ltb_spec x (old_next h)); [done|].
        intros Hy. eapply (IH _ (old_next h)) in Hy; [lia|done|lia]. }
    apply (Hlow _ _ (old_next h)) in Hn; [lia|done|lia].
  - destruct (Z.ltb_spec o' (first_gone h)); [lia|].
    destruct (Z.ltb_spec o' (old_next h)); [lia|]. by apply (IH _ (old_next h)).
Qed.

(** *** The text of a header *)

(** The text git writes for a range of lines: the count may be left out when it is 1. *)
Definition range_text (short : bool) (s c : Z) : str :=
  if short && (c =? 1) then show_u32 s else show_u32 s ++ lit "," ++ show_u32 c.

Definition header_text (short_old short_new : bool) (h : DiffHunk) (context : str) : str :=
  lit "@@ -" ++ range_text short_old (old_start h) (old_count h) ++
  lit " +" ++ range_text short_new (new_start h) (new_count h) ++ lit " @@" ++ context.

Lemma parse_range_text short s c :
  is_u32 s → is_u32 c → parse_range_spec (range_text short s c) = Some (s, c).
Proof.
  intros Hs Hc. unfold parse_range_spec, range_text. change (lit ",") with [","%char].
  assert (∀ n, ","%char ∉ show_u32 n) as Hd.
  { intros n. apply digits_not_elem; [apply show_u32_digits|]. vm_compute. naive_solver. }
  destruct (short && (c =? 1)) eqn:E.
  - bool_hyps. subst. rewrite split_once_none by done. by rewrite parse_show_u32.
  - change ([","%char] ++ show_u32 c) with (","%char :: show_u32 c).
    rewrite split_once_first by done. by rewrite !parse_show_u32.
Qed.

Lemma range_text_printable short s c : Forall printable (range_text short s c).
Proof.
  unfold range_text. pose proof (show_u32_printable s). case_match; [done|].
  rewrite !Forall_app. split_and!; [done| |apply show_u32_printable].
  repeat constructor.
Qed.

Lemma range_text_head short s c : ∃ d t, range_text short s c = d :: t ∧ is_digit d.
Proof.
  unfold range_text. pose proof (show_u32_digits s) as Hd.
  pose proof (show_u32_nonempty s). destruct (show_u32 s) as [|d t]; [done|].
  inversion_clear Hd. case_match; simpl; eauto.
Qed.

Lemma trim_range_text x short s c :
  ¬ is_digit x → trim_start_matches x (x :: range_text short s c) = range_text short s c.
Proof.
  intros Hx. destruct (range_text_head short s c) as (d & t & -> & Hd).
  unfold trim_start_matches. simpl. rewrite bool_decide_true by done.
  rewrite bool_decide_false by (intros ->; done). done.
Qed.

(** The words of a hunk header. *)
Lemma header_words short_old short_new h context :
  ∃ w ws, split_whitespace (header_text short_old short_new h context) =
    lit "@@" :: ("-"%char :: range_text short_old (old_start h) (old_count h)) ::
    ("+"%char :: range_text short_new (new_start h) (new_count h)) :: w :: ws.
Proof.
  unfold header_text.
  change (lit "@@ -") with (lit "@@" ++ [" "%char] ++ ["-"%char]).
  change (lit " +") with ([" "%char] ++ ["+"%char]).
  change (lit " @@" ++ context) with ([" "%char] ++ (lit "@@" ++ context)).
  rewrite <-!app_assoc. cbn [app].
  rewrite split_whitespace_word by (done || (repeat constructor)).
  rewrite app_comm_cons, split_whitespace_word
    by (done || (constructor; [by repeat constructor|apply range_text_printable])).
  rewrite app_comm_cons, split_whitespace_word
    by (done || (constructor; [by repeat constructor|apply range_text_printable])).
  assert (split_whitespace (lit "@@" ++ context) ≠ []) as Hne.
  { unfold split_whitespace. change (lit "@@" ++ context) with (["@"%char] ++ ("@"%char :: context)).
    rewrite chars_char_app by done. by apply words_cons_nonempty. }
  destruct (split_whitespace (lit "@@" ++ context)) as [|w ws]; [done|]. by exists w, ws.
Qed.

(** *** What shifting does to entries and line attributions *)

Lemma shift_entries_cover (hs : list DiffHunk) (es : list AttestationEntry) h n :
  hunks_ok 1 hs → entries_fit hs es →
  entries_cover (apply_hunk_shifts_to_attestation_entries es hs) h n ↔
  ∃ o, entries_cover es h o ∧ line_after 0 hs o = Some n.
Proof.
  intros Hok Hfit.
  unfold apply_hunk_shifts_to_attestation_entries.
  destruct hs as [|h0 hs'] eqn:Ehs.
  { split; [|intros (o & Ho & [= <-]); by rewrite Z.add_0_r].
    intros Hc. exists n. split; [done|]. simpl. by rewrite Z.add_0_r. }
  rewrite <-Ehs in *. clear Ehs. unfold entries_cover.
  unfold entries_fit in Hfit. rewrite Forall_forall in Hfit. split.
  - intros (e' & He' & Hh & Hn). apply list_elem_of_omap in He' as (e & He & Hx).
    destruct (flat_map _ _) as [|r rs] eqn:E; [done|]. injection Hx as <-.
    simpl in Hh. change (line_ranges (mkEntry (hash e) (r :: rs))) with (r :: rs) in Hn.
    rewrite <-E in Hn. apply shift_ranges_lines in Hn as (o & Ho & Hn); [|done|by apply Hfit].
    exists o. split; [|done]. by exists e.
  - intros (o & (e & He & Hh & Ho) & Hn).
    assert (contains_any (flat_map (shift_range (build_preserved_segments hs)) (line_ranges e)) n = true) as Hc
      by (apply shift_ranges_lines; [done|by apply Hfit|eauto]).
    destruct (flat_map _ _) as [|r rs] eqn:E; [done|].
    exists (mkEntry (hash e) (r :: rs)). split; [|done].
    apply list_elem_of_omap. exists e. by rewrite E.
Qed.

Lemma shift_entries_spec (old : list str) (hunks : list (DiffHunk * list str))
    (es : list AttestationEntry) :
  diff_of old hunks → entries_fit (map fst hunks) es →
  ∀ h n,
    (entries_cover (apply_hunk_shifts_to_attestation_entries es (map fst hunks)) h n ↔
     ∃ o, entries_cover es h o ∧ line_after 0 (map fst hunks) o = Some n) ∧
    (∀ o, 1 <= o → line_after 0 (map fst hunks) o = Some n →
       1 <= n ∧ patched 1 old hunks !! Z.to_nat (n - 1) = old !! Z.to_nat (o - 1)).
Proof.
  intros (Hok & Hlen & Hin) Hfit h n. split.
  2:{ intros o Ho Hn. apply (line_after_text hunks 1 0 old) in Hn; [|done|done| |done].
      - rewrite !Z.add_0_r in Hn. done.
      - eapply Forall_impl; [exact Hin|]. intros [h' a]. lia. }
  by apply shift_entries_cover.
Qed.

Lemma shift_line_attributions_spec (attrs : list LineAttribution) (hunks : list DiffHunk) :
  hunks_ok 1 hunks →
  Forall (λ a, range_fits hunks (start_line a) (end_line a)) attrs →
  ∀ author prev n,
    (∃ a, a ∈ apply_hunk_shifts_to_line_attributions attrs hunks ∧
       line_author_id a = author ∧ overrode a = prev ∧ covers_line a n = true) ↔
    ∃ a o, a ∈ attrs ∧ line_author_id a = author ∧ overrode a = prev ∧
       covers_line a o = true ∧ line_after 0 hunks o = Some n.
Proof.
  intros Hok Hfit author prev n. unfold apply_hunk_shifts_to_line_attributions.
  destruct hunks as [|h0 hs'] eqn:Ehs.
  { split; [intros (a & ? & ? & ? & ?); exists a, n; simpl; by rewrite Z.add_0_r|].
    intros (a & o & ? & ? & ? & ? & [= <-]). exists a. by rewrite Z.add_0_r. }
  rewrite <-Ehs in *. clear Ehs. rewrite Forall_forall in Hfit.
  setoid_rewrite list_elem_of_In. setoid_rewrite in_flat_map.
  setoid_rewrite <-list_elem_of_In. setoid_rewrite list_elem_of_fmap.
  setoid_rewrite covers_line_true. split.
  - intros (a' & (a & Ha & ([x y] & -> & Hin)) & <- & <- & Hn). simpl in *.
    destruct (proj1 (shift_bounds_lines hunks (start_line a) (end_line a) n Hok (Hfit _ Ha)))
      as (o & Ho & Hl); [by exists x, y|]. by exists a, o.
  - intros (a & o & Ha & <- & <- & Ho & Hl).
    destruct (proj2 (shift_bounds_lines hunks (start_line a) (end_line a) n Hok (Hfit _ Ha)))
      as (x & y & Hin & Hn); [by exists o|].
    eexists. split; [exists a; split; [done|]; by exists (x, y)|]. done.
Qed.

Lemma parse_header_text (short_old short_new : bool) (h : DiffHunk) (context : str) :
  is_u32 (old_start h) → is_u32 (old_count h) → is_u32 (new_start h) → is_u32 (new_count h) →
  parse_hunk_header (header_text short_old short_new h context) = Some h.
Proof.
  intros H1 H2 H3 H4.
  destruct (header_words short_old short_new h context) as (w & ws & Hw).
  unfold parse_hunk_header. rewrite Hw.
  assert (str_eqb (lit "@@") (lit "@@") = true) as -> by by apply str_eqb_eq.
  rewrite !trim_range_text by (intros H%is_digit_code; revert H; vm_compute; naive_solver).
  rewrite !parse_range_text by done. by destruct h.
Qed.

End HunkShiftFacts.

(** ** Properties *)

Module HunkShiftProps.
Import LineRange LineRangeFacts AuthorshipLog Attribution AttributionFacts HunkShift HunkShiftFacts.

(** C10: the shifted entries attest a line to a key exactly when the entries
    attested an old line that the diff preserves and moves there; that line
    has the same text in the new file, so no attribution is invented, lost or
    attached to other text. *)
Theorem shifted_entries_follow_text (old : list str) (hunks : list (DiffHunk * list str))
    (es : list AttestationEntry) :
  diff_of old hunks → entries_fit (map fst hunks) es →
  ∀ h n,
    (entries_cover (apply_hunk_shifts_to_attestation_entries es (map fst hunks)) h n ↔
     ∃ o, entries_cover es h o ∧ line_after 0 (map fst hunks) o = Some n) ∧
    (∀ o, 1 <= o → line_after 0 (map fst hunks) o = Some n →
       1 <= n ∧ patched 1 old hunks !! Z.to_nat (n - 1) = old !! Z.to_nat (o - 1)).
Proof. apply shift_entries_spec. Qed.

(** line attributions are shifted to the same lines as attestation
    entries, and every shifted attribution keeps its author and the author it
    overrode. *)
Theorem shifted_line_attributions (attrs : list LineAttribution) (hunks : list DiffHunk) :
  hunks_ok 1 hunks →
  Forall (λ a, range_fits hunks (start_line a) (end_line a)) attrs →
  ∀ author prev n,
    (∃ a, a ∈ apply_hunk_shifts_to_line_attributions attrs hunks ∧
       line_author_id a = author ∧ overrode a = prev ∧ covers_line a n = true) ↔
    ∃ a o, a ∈ attrs ∧ line_author_id a = author ∧ overrode a = prev ∧
       covers_line a o = true ∧ line_after 0 hunks o = Some n.
Proof. apply shift_line_attributions_spec. Qed.

(** a file's attestation is dropped exactly when the diff deletes every
    line it attests; otherwise the path is kept. *)
Theorem file_dropped_iff_all_deleted (file : FileAttestation) (hunks : list DiffHunk) :
  hunks ≠ [] → hunks_ok 1 hunks → entries_fit hunks (entries file) →
  (apply_hunk_shifts_to_file_attestation file hunks = None ↔
   ∀ h o, entries_cover (entries file) h o → line_after 0 hunks o = None) ∧
  (∀ file', apply_hunk_shifts_to_file_attestation file hunks = Some file' →
     file_path file' = file_path file ∧
     entries file' = apply_hunk_shifts_to_attestation_entries (entries file) hunks).
Proof.
  intros Hne Hok Hfit. unfold apply_hunk_shifts_to_file_attestation.
  split; [|intros file'; destruct (apply_hunk_shifts_to_attestation_entries _ _); [done|];
           by intros [= <-]].
  unfold apply_hunk_shifts_to_attestation_entries.
  destruct hunks as [|h0 hs'] eqn:Ehs; [done|]. rewrite <-Ehs in *. clear Ehs Hne.
  unfold entries_cover. induction Hfit as [|e es He Hes IH]; simpl.
  { split; [|done]. intros _ h o (e & Hin & _). by apply not_elem_of_nil in Hin. }
  pose proof (shift_ranges_nil hunks (line_ranges e) Hok He) as Hnil.
  destruct (flat_map _ (line_ranges e)) as [|r rs] eqn:E.
  - rewrite IH. clear IH. split.
    + intros H h o (e' & [->|Hin]%elem_of_cons & Hh & Ho); [|eauto].
      destruct (line_after 0 hunks o) eqn:El; [|done]. exfalso.
      apply (proj1 Hnil eq_refl). eauto.
    + intros H h o (e' & Hin & Hh & Ho). apply (H h o). exists e'. split; [by right|done].
  - split; [done|]. intros H. exfalso.
    assert (r :: rs = []); [|done]. apply Hnil. intros (o & n & Ho & Hn).
    rewrite (H (hash e) o) in Hn; [done|]. exists e. split; [left|done].
Qed.

(** a hunk header git writes, with or without the counts that are 1 and
    whatever follows the second [@@], is parsed to its hunk. *)
Theorem hunk_header_roundtrip (short_old short_new : bool) (h : DiffHunk) (context : str) :
  is_u32 (old_start h) → is_u32 (old_count h) → is_u32 (new_start h) → is_u32 (new_count h) →
  parse_hunk_header (header_text short_old short_new h context) = Some h.
Proof. apply parse_header_text. Qed.

(** *** Witnesses *)

Definition sample_old : list str := [lit "a"; lit "b"; lit "c"].
Definition sample_hunks : list (DiffHunk * list str) :=
  [(mkHunk 0 0 1 1, [lit "x"]); (mkHunk 2 1 3 2, [lit "y"; lit "z"])].
Definition sample_entries : list AttestationEntry := [mkEntry (lit "h_b") [Range 1 3]].

Lemma sample_diff : diff_of sample_old sample_hunks.
Proof.
  split; [|split; repeat constructor]. all: simpl; unfold old_next, first_gone, is_u32, u32_max; simpl; lia.
Qed.

Lemma sample_entries_fit : entries_fit (map fst sample_hunks) sample_entries.
Proof. repeat constructor; simpl; unfold u32_max; lia. Qed.

Lemma shifted_entries_follow_text_witness :
  entries_cover (apply_hunk_shifts_to_attestation_entries sample_entries (map fst sample_hunks))
    (lit "h_b") 5 ∧
  patched 1 sample_old sample_hunks !! 4%nat = Some (lit "c").
Proof.
  destruct (shifted_entries_follow_text sample_old sample_hunks sample_entries
    sample_diff sample_entries_fit (lit "h_b") 5) as [H Ht].
  split.
  - apply H. exists 3. split; [|reflexivity].
    eexists. split; [left|]. split; reflexivity.
  - destruct (Ht 3) as [_ Hx]; [lia|reflexivity|]. exact Hx.
Defined.

Lemma shifted_line_attributions_witness :
  ∃ a, a ∈ apply_hunk_shifts_to_line_attributions
         [mkLineAttr 1 3 (lit "s_one") (Some (lit "h_bob"))] (map fst sample_hunks) ∧
    line_author_id a = lit "s_one" ∧ overrode a = Some (lit "h_bob") ∧ covers_line a 5 = true.
Proof.
  apply (shifted_line_attributions [mkLineAttr 1 3 (lit "s_one") (Some (lit "h_bob"))]
    (map fst sample_hunks)); [apply sample_diff|repeat constructor; simpl; unfold u32_max; lia|].
  eexists _, 3. split; [left|]. repeat split.
Defined.

Lemma file_dropped_iff_all_deleted_witness :
  apply_hunk_shifts_to_file_attestation (mkFile (lit "a.rs") [mkEntry (lit "h_b") [Single 2]])
    (map fst sample_hunks) = None.
Proof.
  apply (file_dropped_iff_all_deleted (mkFile (lit "a.rs") [mkEntry (lit "h_b") [Single 2]])
    (map fst sample_hunks)); [done|apply sample_diff| |].
  - repeat constructor; simpl; unfold u32_max; lia.
  - intros h o (e & ->%list_elem_of_singleton & _ & Ho).
    unfold contains_any in Ho. cbn [existsb contains line_ranges] in Ho.
    rewrite orb_false_r in Ho. bool_hyps. subst. reflexivity.
Defined.

Lemma hunk_header_roundtrip_witness :
  parse_hunk_header (lit "@@ -12 +12,3 @@ fn main() {") = Some (mkHunk 12 1 12 3).
Proof.
  apply (hunk_header_roundtrip true false (mkHunk 12 1 12 3) (lit " fn main() {"));
    unfold is_u32, u32_max; simpl; lia.
Defined.

End HunkShiftProps.
