(* ===== verification/AttributionMerge.v ===== *)
(** * Ordering and merging attributions

    Models the order on attributions, the merging that ends an update, and the
    merging and intersection of byte ranges of
    src/src/authorship/attribution_tracker.rs.  The reference is [owned]: the
    bytes each author and timestamp own. *)

From S2P Require Import Prelude Attribution.

Module AttributionMerge.
Import Attribution.

(** ** Order and deduplication *)

Definition compare_attribution_order (a b : Attribution) : comparison :=
  then_with (Nat.compare (start a) (start b))
    (then_with (Nat.compare (end_ a) (end_ b))
      (then_with (str_compare (author_id a) (author_id b)) (N.compare (ts a) (ts b)))).

Definition attribution_le (a b : Attribution) : bool :=
  match compare_attribution_order a b with Gt => false | _ => true end.

(** [windows(2).all(..)]. *)
Fixpoint is_attribution_list_sorted (l : list Attribution) : bool :=
  match l with
  | a :: ((b :: _) as l') => attribution_le a b && is_attribution_list_sorted l'
  | _ => true
  end.

Definition sort_attributions_for_transform (l : list Attribution) : list Attribution :=
  sort_by attribution_le l.

(** ** Byte ranges *)

(** The loop that merges ranges sorted by their start; [last] is the range
    that may still grow, the others are closed. *)
Fixpoint merge_range_loop (last : option (nat * nat)) (ranges : list (nat * nat)) : list (nat * nat) :=
  match ranges with
  | [] => match last with Some r => [r] | None => [] end
  | (s, e) :: ranges' =>
      if e <=? s then merge_range_loop last ranges'
      else match last with
           | Some (ls, le) =>
               if s <=? le then merge_range_loop (Some (ls, Nat.max le e)) ranges'
               else (ls, le) :: merge_range_loop (Some (s, e)) ranges'
           | None => merge_range_loop (Some (s, e)) ranges'
           end
  end.

Definition range_key_le (a b : nat * nat) : bool :=
  (a.1 <? b.1) || ((a.1 =? b.1) && (a.2 <=? b.2)).

Definition merge_ranges (ranges : list (nat * nat)) : list (nat * nat) :=
  merge_range_loop None (sort_by range_key_le ranges).

Fixpoint intersect_loop (ranges : list (nat * nat)) (s e : nat) : bool :=
  match ranges with
  | [] => false
  | (r_start, r_end) :: ranges' =>
      if r_end <=? s then intersect_loop ranges' s e
      else if e <=? r_start then false else true
  end.

Definition ranges_intersect (ranges : list (nat * nat)) (target : nat * nat) : bool :=
  let '(s, e) := target in
  if e <=? s then false else intersect_loop ranges s e.

(** ** Merging *)

(** The loop that coalesces ranges of one author and timestamp; [last] is the
    attribution that may still grow. *)
Fixpoint coalesce_loop (last : Attribution) (l : list Attribution) : list Attribution :=
  match l with
  | [] => [last]
  | attr :: l' =>
      if str_eqb (author_id last) (author_id attr) && (ts last =? ts attr)%N &&
         (start last <? end_ last) && (start attr <? end_ attr) && (start attr <=? end_ last)
      then coalesce_loop
             (mkAttr (start last) (Nat.max (end_ last) (end_ attr)) (author_id last) (ts last)) l'
      else last :: coalesce_loop attr l'
  end.

Definition merge_attributions (attributions : list Attribution) : list Attribution :=
  match dedup (λ a b, bool_decide (a = b)) (sort_by attribution_le attributions) with
  | [] => []
  | a :: l => coalesce_loop a l
  end.

(** ** Reference: who owns a byte *)

Definition owned (attrs : list Attribution) (p : nat) (who : str) (when : N) : Prop :=
  ∃ a, a ∈ attrs ∧ covers_byte a p = true ∧ author_id a = who ∧ ts a = when.

(** The bytes of a list of ranges. *)
Definition in_ranges (ranges : list (nat * nat)) (p : nat) : Prop :=
  ∃ r, r ∈ ranges ∧ r.1 ≤ p < r.2.

End AttributionMerge.

(** ** Lemmas *)

Module AttributionMergeFacts.
Import Attribution AttributionFacts AttributionMerge.

(** *** Ownership *)

Lemma owned_nil p w t : ¬ owned [] p w t.
Proof. intros (a & H & _). by apply not_elem_of_nil in H. Qed.

Lemma owned_app l l' p w t : owned (l ++ l') p w t ↔ owned l p w t ∨ owned l' p w t.
Proof. unfold owned. setoid_rewrite elem_of_app. naive_solver. Qed.

Lemma owned_cons a l p w t :
  owned (a :: l) p w t ↔ (start a ≤ p < end_ a ∧ author_id a = w ∧ ts a = t) ∨ owned l p w t.
Proof.
  unfold owned. setoid_rewrite elem_of_cons. setoid_rewrite covers_byte_true. naive_solver.
Qed.

Lemma owned_perm l l' p w t : l ≡ₚ l' → owned l p w t ↔ owned l' p w t.
Proof. intros H. unfold owned. by setoid_rewrite H. Qed.

Lemma owned_singleton s e w0 t0 p w t :
  owned [mkAttr s e w0 t0] p w t ↔ s ≤ p < e ∧ w = w0 ∧ t = t0.
Proof. rewrite owned_cons. simpl. pose proof (owned_nil p w t). naive_solver. Qed.

(** *** The order *)

Lemma then_with_eq c d : then_with c d = Eq ↔ c = Eq ∧ d = Eq.
Proof. destruct c; naive_solver. Qed.

(** The order as a disjunction, one key after the other. *)
Lemma attribution_le_spec a b :
  attribution_le a b = true ↔
  start a < start b ∨ (start a = start b ∧
    (end_ a < end_ b ∨ (end_ a = end_ b ∧
      (str_compare (author_id a) (author_id b) = Lt ∨
       (author_id a = author_id b ∧ (ts a <= ts b)%N))))).
Proof.
  unfold attribution_le, compare_attribution_order.
  destruct (Nat.compare_spec (start a) (start b)); simpl; [|naive_solver lia..].
  destruct (Nat.compare_spec (end_ a) (end_ b)); simpl; [|naive_solver lia..].
  destruct (str_compare (author_id a) (author_id b)) eqn:E; simpl.
  - apply str_compare_eq in E. destruct (N.compare_spec (ts a) (ts b)); simpl;
      intuition (congruence || lia).
  - naive_solver.
  - split; [done|]. intros [?|[_ [?|[_ [Hc|[Hc _]]]]]]; try lia; [done|].
    apply str_compare_eq in Hc. congruence.
Qed.

Lemma attribution_le_trans a b c :
  attribution_le a b = true → attribution_le b c = true → attribution_le a c = true.
Proof.
  rewrite !attribution_le_spec. intros H1 H2.
  destruct H1 as [?|[E1 H1]], H2 as [?|[E2 H2]]; [left; lia..|right; split; [lia|]].
  destruct H1 as [?|[F1 H1]], H2 as [?|[F2 H2]]; [left; lia..|right; split; [lia|]].
  destruct H1 as [G1|[G1 H1]], H2 as [G2|[G2 H2]].
  - left. by eapply str_compare_lt_trans.
  - left. by rewrite <-G2.
  - left. by rewrite G1.
  - right. split; [congruence|lia].
Qed.

Lemma attribution_le_total a b : attribution_le a b = true ∨ attribution_le b a = true.
Proof.
  rewrite !attribution_le_spec.
  destruct (Nat.lt_trichotomy (start a) (start b)) as [?|[E|?]]; [by do 2 left| |by right; left].
  destruct (Nat.lt_trichotomy (end_ a) (end_ b)) as [?|[F|?]]; [left; right; auto| |right; right; auto].
  destruct (str_compare (author_id a) (author_id b)) eqn:G.
  - apply str_compare_eq in G. destruct (N.le_ge_cases (ts a) (ts b)).
    + left. right. split; [done|]. right. split; [done|]. right. auto.
    + right. right. split; [done|]. right. split; [done|]. right. auto.
  - left. right. split; [done|]. right. auto.
  - right. right. split; [done|]. right. split; [done|]. left.
    by rewrite str_compare_antisym, G.
Qed.

Lemma attribution_le_antisym a b :
  attribution_le a b = true → attribution_le b a = true → a = b.
Proof.
  rewrite !attribution_le_spec. intros H1 H2.
  destruct H1 as [?|[E1 H1]], H2 as [?|[E2 H2]]; try lia.
  destruct H1 as [?|[F1 H1]], H2 as [?|[F2 H2]]; try lia.
  destruct H1 as [G1|[G1 H1]], H2 as [G2|[G2 H2]].
  - rewrite str_compare_antisym, G1 in G2. done.
  - rewrite G2, str_compare_refl in G1. done.
  - rewrite G1, str_compare_refl in G2. done.
  - destruct a, b; simpl in *. f_equal; try congruence. lia.
Qed.

Abbreviation sorted := (StronglySorted (λ a b, attribution_le a b = true)).

Lemma sort_attributions_sorted l : sorted (sort_by attribution_le l).
Proof. apply sort_by_sorted; [apply attribution_le_trans|apply attribution_le_total]. Qed.

(** The test on neighbours decides whether the whole list is sorted. *)
Lemma is_sorted_true l : is_attribution_list_sorted l = true ↔ sorted l.
Proof.
  induction l as [|a l IH]; [split; [constructor|done]|].
  destruct l as [|b l]; [split; [repeat constructor|done]|].
  cbn [is_attribution_list_sorted]. rewrite andb_true_iff, IH. split.
  - intros [Hab Hs]. constructor; [done|]. inversion_clear Hs as [|? ? Hs' Hb].
    constructor; [done|]. eapply Forall_impl; [exact Hb|].
    intros c Hc. eapply attribution_le_trans; eauto.
  - intros Hs. inversion_clear Hs as [|? ? Hs' Ha]. inversion_clear Ha. done.
Qed.

Lemma sorted_start l : sorted l → StronglySorted (λ a b, start a ≤ start b) l.
Proof.
  induction 1 as [|a l _ IH Ha]; constructor; [done|].
  eapply Forall_impl; [exact Ha|]. intros b. rewrite attribution_le_spec. lia.
Qed.

(** *** Deduplication *)

Abbreviation attr_eqb := (λ a b : Attribution, bool_decide (a = b)).

Lemma elem_of_dedup_attrs p l x : x ∈ dedup_from attr_eqb p l ∨ x = p ↔ x ∈ l ∨ x = p.
Proof.
  revert p. induction l as [|y l IH]; intros p; simpl; [done|].
  case_bool_decide; subst; rewrite !elem_of_cons; [rewrite IH; naive_solver|].
  specialize (IH y). naive_solver.
Qed.

Lemma elem_of_dedup_all l x : x ∈ dedup attr_eqb l ↔ x ∈ l.
Proof.
  destruct l as [|y l]; simpl; [done|]. rewrite !elem_of_cons.
  pose proof (elem_of_dedup_attrs y l x). naive_solver.
Qed.

Lemma owned_dedup l p w t : owned (dedup attr_eqb l) p w t ↔ owned l p w t.
Proof. unfold owned. by setoid_rewrite elem_of_dedup_all. Qed.

(** Strictly sorted lists: sorted without repetition. *)
Definition attribution_lt (a b : Attribution) : Prop := attribution_le a b = true ∧ a ≠ b.

Lemma dedup_attrs_lt p l : sorted (p :: l) → StronglySorted attribution_lt (p :: dedup_from attr_eqb p l).
Proof.
  revert p. induction l as [|y l IH]; intros p H; simpl; [repeat constructor|].
  inversion_clear H as [|? ? Hs Hp]. case_bool_decide; [subst; by apply IH|].
  specialize (IH y Hs). inversion_clear Hp as [|? ? Hpy _]. constructor; [done|].
  constructor; [done|]. inversion_clear IH as [|? ? _ Hy].
  eapply Forall_impl; [exact Hy|]. intros z [Hyz Hne]. split; [eapply attribution_le_trans; eauto|].
  intros <-. apply Hne. by apply attribution_le_antisym.
Qed.

Lemma dedup_lt l : sorted l → StronglySorted attribution_lt (dedup attr_eqb l).
Proof. destruct l; simpl; [constructor|]. apply dedup_attrs_lt. Qed.

Lemma dedup_attrs_id l : StronglySorted attribution_lt l → dedup attr_eqb l = l.
Proof.
  destruct l as [|p l]; simpl; [done|]. intros H. f_equal. revert p H.
  induction l as [|y l IH]; intros p H; simpl; [done|].
  inversion_clear H as [|? ? Hs Hp]. inversion_clear Hp as [|? ? [_ Hne] _].
  rewrite bool_decide_false by done. f_equal. by apply IH.
Qed.

Lemma lt_sorted l : StronglySorted attribution_lt l → sorted l.
Proof.
  induction 1 as [|a l _ IH Ha]; constructor; [done|].
  eapply Forall_impl; [exact Ha|]. by intros b [? _].
Qed.

(** *** Coalescing *)

(** The test of the loop. *)
Definition joins (last attr : Attribution) : bool :=
  str_eqb (author_id last) (author_id attr) && (ts last =? ts attr)%N &&
  (start last <? end_ last) && (start attr <? end_ attr) && (start attr <=? end_ last).

Definition join (last attr : Attribution) : Attribution :=
  mkAttr (start last) (Nat.max (end_ last) (end_ attr)) (author_id last) (ts last).

Lemma joins_true l a :
  joins l a = true ↔ author_id l = author_id a ∧ ts l = ts a ∧ start l < end_ l ∧
    start a < end_ a ∧ start a ≤ end_ l.
Proof.
  unfold joins. rewrite !andb_true_iff, str_eqb_eq, N.eqb_eq, !Nat.ltb_lt, Nat.leb_le. tauto.
Qed.

Lemma coalesce_cons last a l :
  coalesce_loop last (a :: l) =
  if joins last a then coalesce_loop (join last a) l else last :: coalesce_loop a l.
Proof. done. Qed.

Lemma coalesce_owned last l p w t :
  StronglySorted (λ a b, start a ≤ start b) (last :: l) →
  owned (coalesce_loop last l) p w t ↔ owned (last :: l) p w t.
Proof.
  revert last. induction l as [|a l IH]; intros last Hs; [done|].
  inversion_clear Hs as [|? ? Hs' Hl]. inversion_clear Hl as [|? ? Hla Hl'].
  rewrite coalesce_cons. destruct (joins last a) eqn:E.
  - apply joins_true in E as (Ea & Et & H1 & H2 & H3). rewrite IH.
    + rewrite !owned_cons. simpl. rewrite Ea, Et. split; [intros [(? & ? & ?)|?]|]; [|tauto|].
      * destruct (decide (p < end_ last)); [left; split_and!; done || lia|].
        right. left. split_and!; done || lia.
      * intros [(? & ? & ?)|[(? & ? & ?)|?]]; [left; split_and!; done || lia..|by right].
    + inversion_clear Hs'. by constructor.
  - rewrite owned_cons, IH by done. by rewrite (owned_cons last).
Qed.

(** Every result of the loop keeps start, author, timestamp and emptiness of
    some input, and starts no earlier. *)
Lemma coalesce_sorted last l :
  StronglySorted attribution_lt (last :: l) →
  StronglySorted attribution_lt (coalesce_loop last l) ∧
  (∀ x, attribution_lt x last → (∀ y, y ∈ l → attribution_lt x y) →
     Forall (attribution_lt x) (coalesce_loop last l)).
Proof.
  revert last. induction l as [|a l IH]; intros last Hs;
    [split; [repeat constructor|intros x Hx _; constructor; [done|constructor]]|].
  inversion_clear Hs as [|? ? Hs' Hl]. inversion_clear Hl as [|? ? Hla Hl'].
  rewrite coalesce_cons. destruct (joins last a) eqn:E.
  - apply joins_true in E as (Ea & Et & H1 & H2 & H3).
    inversion_clear Hs' as [|? ? Hs'' Ha]. rewrite Forall_forall in Hl', Ha.
    assert (∀ y, y ∈ l → attribution_lt (join last a) y) as Hj.
    { intros y Hy. specialize (Ha _ Hy). specialize (Hl' _ Hy).
      destruct Ha as [Ha Hne], Hl' as [Hl' _], Hla as [Hla Hla'].
      destruct (decide (start last = start a)) as [Es|Es].
      - assert (join last a = a) as ->; [|by split].
        unfold join. rewrite attribution_le_spec in Hla. destruct last, a; simpl in *. f_equal; try done.
        destruct Hla as [?|[_ [?|[? _]]]]; lia.
      - rewrite attribution_le_spec in Hla, Ha. split.
        + rewrite attribution_le_spec. left. simpl. lia.
        + intros <-. simpl in Ha. lia. }
    destruct (IH (join last a)) as [IH1 IH2].
    { constructor; [done|]. by apply Forall_forall. }
    split; [done|]. intros x Hx Hxs. apply IH2; [|intros y Hy; apply Hxs; by right].
    assert (attribution_lt x a) as [Hxa Hxna] by (apply Hxs; left).
    destruct Hx as [Hx Hxn]. split.
    + rewrite attribution_le_spec in *. simpl. destruct Hx as [?|[Hx1 [?|[Hx2 Hx]]]]; [left; lia|right; split; [lia|left; lia]|].
      right. split; [done|]. destruct (decide (end_ last < end_ a)); [left; lia|].
      right. split; [lia|done].
    + intros ->. rewrite attribution_le_spec in Hx, Hxa. simpl in Hx, Hxa.
      destruct Hla as [Hla Hla']. rewrite attribution_le_spec in Hla.
      apply Hxn. destruct last, a; unfold join in *; simpl in *. f_equal.
      destruct Hx as [?|[_ [?|[? _]]]]; lia.
  - destruct (IH a Hs') as [IH1 IH2]. split.
    + constructor; [done|]. apply IH2; [done|]. rewrite Forall_forall in Hl'. auto.
    + intros x Hx Hxs. constructor; [done|]. apply IH2; [apply Hxs; left|].
      intros y Hy. apply Hxs. by right.
Qed.

(** No two neighbours of the result join. *)
Fixpoint separate (last : Attribution) (l : list Attribution) : Prop :=
  match l with
  | [] => True
  | a :: l' => joins last a = false ∧ separate a l'
  end.

Lemma joins_grow last a b :
  joins last a = false → start b = start a → author_id b = author_id a → ts b = ts a →
  (start a < end_ a ↔ start b < end_ b) → joins last b = false.
Proof.
  intros H Es Ea Et Hn. apply not_true_iff_false. intros E. apply not_true_iff_false in H.
  apply H. apply joins_true in E. apply joins_true. rewrite <-Es, <-Ea, <-Et, Hn in *. intuition lia.
Qed.

Lemma coalesce_separate last l :
  ∃ x l', coalesce_loop last l = x :: l' ∧ start x = start last ∧ author_id x = author_id last ∧
    ts x = ts last ∧ (start last < end_ last ↔ start x < end_ x) ∧ separate x l'.
Proof.
  revert last. induction l as [|a l IH]; intros last; [by exists last, []|].
  rewrite coalesce_cons. destruct (joins last a) eqn:E.
  - destruct (IH (join last a)) as (x & l' & -> & Hs & Ha & Ht & Hn & Hsep).
    exists x, l'. simpl in *. apply joins_true in E. split_and!; try done. intuition lia.
  - destruct (IH a) as (x & l' & -> & Hs & Ha & Ht & Hn & Hsep).
    exists last, (x :: l'). split_and!; try done. split; [by eapply joins_grow|done].
Qed.

Lemma coalesce_id last l : separate last l → coalesce_loop last l = last :: l.
Proof.
  revert last. induction l as [|a l IH]; intros last; [done|].
  intros [E H]. by rewrite coalesce_cons, E, IH.
Qed.

Lemma merge_attributions_owned l p w t : owned (merge_attributions l) p w t ↔ owned l p w t.
Proof.
  unfold merge_attributions.
  rewrite <-(owned_perm (sort_by attribution_le l) l) by apply sort_by_perm.
  rewrite <-(owned_dedup (sort_by attribution_le l)).
  pose proof (dedup_lt _ (sort_attributions_sorted l)) as Hlt.
  destruct (dedup attr_eqb (sort_by attribution_le l)) as [|a l'] eqn:E; [done|].
  apply coalesce_owned. by apply sorted_start, lt_sorted.
Qed.

Lemma merge_attributions_lt l : StronglySorted attribution_lt (merge_attributions l).
Proof.
  unfold merge_attributions. pose proof (dedup_lt _ (sort_attributions_sorted l)) as Hlt.
  destruct (dedup attr_eqb (sort_by attribution_le l)); [constructor|]. by apply coalesce_sorted.
Qed.

(** The deletion markers of a list. *)
Definition has_marker (l : list Attribution) (p : nat) (w : str) (t : N) : Prop :=
  mkAttr p p w t ∈ l.

Lemma coalesce_marker last l p w t :
  has_marker (coalesce_loop last l) p w t ↔ has_marker (last :: l) p w t.
Proof.
  unfold has_marker. revert last. induction l as [|a l IH]; intros last; [done|].
  rewrite coalesce_cons. destruct (joins last a) eqn:E.
  - apply joins_true in E as (? & ? & ? & ? & ?). rewrite IH, !elem_of_cons.
    split; [intros [Hx|Hx]|intros [Hx|[Hx|Hx]]]; try tauto; exfalso.
    + unfold join in Hx. simplify_eq. lia.
    + subst. simpl in *. lia.
    + subst. simpl in *. lia.
  - rewrite !elem_of_cons, IH. by rewrite elem_of_cons.
Qed.

Lemma merge_attributions_marker l p w t :
  has_marker (merge_attributions l) p w t ↔ has_marker l p w t.
Proof.
  unfold merge_attributions. transitivity (has_marker (dedup attr_eqb (sort_by attribution_le l)) p w t).
  - destruct (dedup _ _); [done|]. apply coalesce_marker.
  - unfold has_marker. by rewrite elem_of_dedup_all, elem_of_sort_by.
Qed.

(** *** Byte ranges *)

Lemma in_ranges_cons r l p : in_ranges (r :: l) p ↔ r.1 ≤ p < r.2 ∨ in_ranges l p.
Proof. unfold in_ranges. setoid_rewrite elem_of_cons. naive_solver. Qed.

Lemma in_ranges_nil p : ¬ in_ranges [] p.
Proof. intros (r & H & _). by apply not_elem_of_nil in H. Qed.

Lemma in_ranges_perm l l' p : l ≡ₚ l' → in_ranges l p ↔ in_ranges l' p.
Proof. intros H. unfold in_ranges. by setoid_rewrite H. Qed.

Definition by_starts (a b : nat * nat) : Prop := a.1 ≤ b.1.

(** Nonempty ranges in order, each ending before the next one starts. *)
Definition disjoint_ranges (l : list (nat * nat)) : Prop :=
  Forall (λ r, r.1 < r.2) l ∧ StronglySorted (λ a b, a.2 < b.1) l.

Definition opt_range (last : option (nat * nat)) : list (nat * nat) :=
  match last with Some r => [r] | None => [] end.

Lemma merge_range_loop_spec last l :
  StronglySorted by_starts (opt_range last ++ l) → Forall (λ r, r.1 < r.2) (opt_range last) →
  (∀ p, in_ranges (merge_range_loop last l) p ↔ in_ranges (opt_range last ++ l) p) ∧
  disjoint_ranges (merge_range_loop last l) ∧
  (∀ b, Forall (λ r, b < r.1) (opt_range last ++ l) → Forall (λ r, b < r.1) (merge_range_loop last l)).
Proof.
  revert last. induction l as [|[s e] l IH]; intros last Hs Hn.
  { rewrite app_nil_r in *. destruct last as [r|]; simpl in *; (split; [done|]); (split; [|auto]).
    - inversion_clear Hn. split; repeat constructor; done.
    - split; constructor. }
  cbn [merge_range_loop]. destruct (Nat.leb_spec e s).
  { destruct (IH last) as (H1 & H2 & H3); [|done|].
    - destruct last; simpl in *.
      + inversion_clear Hs as [|? ? Hs' Hl]. inversion_clear Hs'. inversion_clear Hl. by constructor.
      + by inversion_clear Hs.
    - split; [|split; [done|]].
      + intros p. rewrite H1. destruct last; simpl; rewrite !in_ranges_cons; simpl; intuition lia.
      + intros b Hb. apply H3. destruct last; simpl in *.
        * inversion_clear Hb as [|? ? ? Hb']. inversion_clear Hb'. by constructor.
        * by inversion_clear Hb. }
  destruct last as [[ls le]|]; simpl in Hs, Hn.
  - inversion_clear Hs as [|? ? Hs' Hl]. inversion_clear Hl as [|? ? Hls Hl'].
    inversion_clear Hs' as [|? ? Hs'' Hse]. inversion_clear Hn as [|? ? Hne _].
    unfold by_starts in Hls. simpl in *. destruct (Nat.leb_spec s le).
    + destruct (IH (Some (ls, Nat.max le e))) as (H1 & H2 & H3).
      { simpl. by constructor. } { repeat constructor. simpl. lia. }
      split; [|split; [done|]].
      * intros p. rewrite H1. simpl. rewrite !in_ranges_cons. simpl.
        destruct (decide (p < le)); intuition lia.
      * intros b Hb. apply H3. simpl in *. inversion_clear Hb as [|? ? ? Hb']. inversion_clear Hb'.
        by constructor.
    + destruct (IH (Some (s, e))) as (H1 & H2 & H3).
      { simpl. by constructor. } { repeat constructor. simpl. lia. }
      assert (Forall (λ r, le < r.1) (merge_range_loop (Some (s, e)) l)) as Hsep.
      { apply H3. simpl. constructor; [done|]. eapply Forall_impl; [exact Hse|].
        unfold by_starts. intros r. simpl. lia. }
      split; [|split].
      * intros p. rewrite in_ranges_cons, H1. simpl. by rewrite !in_ranges_cons.
      * destruct H2 as [H2 H2']. split; constructor; done.
      * intros b Hb. inversion_clear Hb. constructor; [done|]. by apply H3.
  - inversion_clear Hs as [|? ? Hs' Hl].
    destruct (IH (Some (s, e))) as (H1 & H2 & H3); [by constructor|by repeat constructor|].
    by split_and!.
Qed.

Lemma range_key_le_total a b : range_key_le a b = true ∨ range_key_le b a = true.
Proof.
  unfold range_key_le. rewrite !orb_true_iff, !andb_true_iff, !Nat.ltb_lt, !Nat.eqb_eq, !Nat.leb_le. lia.
Qed.
Lemma range_key_le_trans a b c :
  range_key_le a b = true → range_key_le b c = true → range_key_le a c = true.
Proof.
  unfold range_key_le. rewrite !orb_true_iff, !andb_true_iff, !Nat.ltb_lt, !Nat.eqb_eq, !Nat.leb_le. lia.
Qed.

Lemma sorted_by_starts (le : nat * nat → nat * nat → bool) l :
  (∀ a b, le a b = true → a.1 ≤ b.1) →
  StronglySorted (λ a b, le a b = true) l → StronglySorted by_starts l.
Proof.
  intros Hle. induction 1 as [|a l _ IH Ha]; constructor; [done|].
  eapply Forall_impl; [exact Ha|]. intros b Hb. by apply Hle.
Qed.

Lemma merge_ranges_spec l :
  disjoint_ranges (merge_ranges l) ∧ ∀ p, in_ranges (merge_ranges l) p ↔ in_ranges l p.
Proof.
  destruct (merge_range_loop_spec None (sort_by range_key_le l)) as (H1 & H2 & _).
  - simpl. apply (sorted_by_starts range_key_le).
    + unfold range_key_le. intros a b. rewrite orb_true_iff, andb_true_iff, Nat.ltb_lt, Nat.eqb_eq, Nat.leb_le. lia.
    + apply sort_by_sorted; [apply range_key_le_trans|apply range_key_le_total].
  - constructor.
  - split; [done|]. intros p. unfold merge_ranges. rewrite H1. apply in_ranges_perm, sort_by_perm.
Qed.

Lemma intersect_loop_spec l s e :
  disjoint_ranges l → s < e →
  intersect_loop l s e = true ↔ ∃ p, s ≤ p < e ∧ in_ranges l p.
Proof.
  intros [Hn Hs] He. induction l as [|[a b] l IH]; simpl.
  { split; [done|]. intros (p & _ & H). by apply in_ranges_nil in H. }
  inversion_clear Hn as [|? ? Hab Hn']. inversion_clear Hs as [|? ? Hs' Hl]. simpl in *.
  setoid_rewrite in_ranges_cons. simpl. destruct (Nat.leb_spec b s); [|destruct (Nat.leb_spec e a)].
  - rewrite IH by done. split; [naive_solver|]. intros (p & Hp & [?|?]); [lia|eauto].
  - split; [done|]. intros (p & Hp & [?|(r & Hr & ?)]); [lia|].
    rewrite Forall_forall in Hl. specialize (Hl _ Hr). simpl in Hl. lia.
  - split; [|done]. intros _. exists (Nat.max a s). split; [lia|]. left. lia.
Qed.

End AttributionMergeFacts.

(** ** Properties *)

Module AttributionMergeProps.
Import Attribution AttributionFacts AttributionMerge AttributionMergeFacts.

(** merging keeps exactly the bytes each author and timestamp own and
    exactly the deletion markers; the result is sorted without repetition, so
    it passes the sortedness test of the next update, and merging again
    changes nothing. *)
Theorem merge_keeps_ownership (l : list Attribution) :
  (∀ p w t, owned (merge_attributions l) p w t ↔ owned l p w t) ∧
  (∀ p w t, has_marker (merge_attributions l) p w t ↔ has_marker l p w t) ∧
  is_attribution_list_sorted (merge_attributions l) = true ∧
  merge_attributions (merge_attributions l) = merge_attributions l.
Proof.
  split_and!; [apply merge_attributions_owned|apply merge_attributions_marker| |].
  - by apply is_sorted_true, lt_sorted, merge_attributions_lt.
  - pose proof (merge_attributions_lt l) as Hlt.
    unfold merge_attributions at 1. rewrite sort_by_id by by apply lt_sorted.
    rewrite dedup_attrs_id by done. unfold merge_attributions.
    destruct (dedup attr_eqb (sort_by attribution_le l)) as [|a l']; [done|].
    destruct (coalesce_separate a l') as (x & l'' & -> & _ & _ & _ & _ & Hsep).
    by apply coalesce_id.
Qed.

(** [merge_ranges] denotes the same bytes by nonempty ranges in order
    with a gap between them, and on such ranges [ranges_intersect] finds a
    common byte exactly when there is one. *)
Theorem merged_ranges_intersect (l : list (nat * nat)) (s e : nat) :
  disjoint_ranges (merge_ranges l) ∧
  (∀ p, in_ranges (merge_ranges l) p ↔ in_ranges l p) ∧
  (ranges_intersect (merge_ranges l) (s, e) = true ↔ ∃ p, s ≤ p < e ∧ in_ranges l p).
Proof.
  destruct (merge_ranges_spec l) as [Hd Hp]. split_and!; [done..|].
  unfold ranges_intersect. destruct (Nat.leb_spec e s).
  - split; [done|]. intros (p & ? & _). lia.
  - rewrite intersect_loop_spec by done. by setoid_rewrite Hp.
Qed.

End AttributionMergeProps.
