(* ===== verification/Transform.v ===== *)
(** * Carrying attributions through a byte diff

    Models the middle phases of [AttributionTracker] in
    src/src/authorship/attribution_tracker.rs: the catalogue of deletions and
    insertions, and the transformation of attributions through the diff with
    its cursors.  An index out of bounds,
    where the code panics, is [None]. *)

From S2P Require Import Prelude Text ImaraDiff Attribution AttributionMerge.

Module Transform.
Import ImaraDiff Attribution AttributionMerge.

Record Deletion := mkDeletion { del_start : nat; del_end : nat }.
Record Insertion := mkInsertion { ins_start : nat; ins_end : nat }.

Record MoveMapping := mkMove {
  move_deletion_idx : nat;
  move_insertion_idx : nat;
  source_range : nat * nat;
  target_range : nat * nat
}.

(** ** The catalogue of a diff *)

Fixpoint catalog_loop (old_pos new_pos : nat) (diffs : list ByteDiff) :
    list Deletion * list Insertion :=
  match diffs with
  | [] => ([], [])
  | d :: diffs' =>
      let len := length (data d) in
      match op d with
      | Equal => catalog_loop (old_pos + len) (new_pos + len) diffs'
      | Delete =>
          let '(deletions, insertions) := catalog_loop (old_pos + len) new_pos diffs' in
          (mkDeletion old_pos (old_pos + len) :: deletions, insertions)
      | Insert =>
          let '(deletions, insertions) := catalog_loop old_pos (new_pos + len) diffs' in
          (deletions, mkInsertion new_pos (new_pos + len) :: insertions)
      end
  end.

Definition build_diff_catalog (diffs : list ByteDiff) : list Deletion * list Insertion :=
  catalog_loop 0 0 diffs.

(** ** Whitespace *)

(** [data.iter().all(char::is_whitespace)] on valid, nonempty UTF-8. *)
Definition data_is_whitespace (d : str) : bool :=
  match d with [] => false | _ => is_utf8 d && forallb is_whitespace (chars d) end.

(** ** Attribution of an insertion inside old text *)

(** The loop for the best overlap, over the attributions from the cursor on
    that start at or before the position. *)
Definition better_overlap (position : nat) (best : option Attribution) (attr : Attribution) :
    option Attribution :=
  let better_than_current :=
    match best with
    | None => true
    | Some b =>
        ((ts b <? ts attr)%N ||
         ((ts attr =? ts b)%N && (end_ b - start b <? end_ attr - start attr)))
    end in
  if overlaps attr position (S position) && better_than_current then Some attr else best.

Definition advance_cursor (attrs : list Attribution) (cursor pos : nat) : nat :=
  cursor + partition_point (λ a, end_ a <=? pos) (drop cursor attrs).

Definition find_attribution_for_insertion (attrs : list Attribution) (position cursor_hint : nat) :
    option Attribution * nat :=
  match attrs with
  | [] => (None, cursor_hint)
  | _ =>
      let cursor := advance_cursor attrs cursor_hint position in
      let best_overlap :=
        foldl (better_overlap position) None
          (take_while (λ a, start a <=? position) (drop cursor attrs)) in
      match best_overlap with
      | Some _ => (best_overlap, cursor)
      | None =>
          let before := match cursor with O => None | S c => attrs !! c end in
          let after := List.find (λ a, position <=? start a) (drop cursor attrs) in
          (match before with Some _ => before | None => after end, cursor)
      end
  end.

(** ** The transformation *)

Record TransformState := mkState {
  new_attributions : list Attribution;
  old_pos : nat;
  new_pos : nat;
  deletion_idx : nat;
  insertion_idx : nat;
  prev_whitespace_delete : bool;
  old_attr_cursor : nat;
  insertion_attr_cursor : nat;
  insertion_move_ranges : gmap nat (list (nat * nat))
}.

Section TransformAttributions.
Variable current_author : str.
Variable current_ts : N.
Variable old_attributions : list Attribution.
Variable insertions : list Insertion.
Variable substantive_new_ranges : list (nat * nat).
Variable is_ai_checkpoint : bool.

(** The maps of the moves: per deletion the distinct mappings in the order of
    their sources, per insertion the ranges they fill. *)
Definition add_deletion_move (m : gmap nat (list MoveMapping)) (mapping : MoveMapping) :
    gmap nat (list MoveMapping) :=
  let entry := default [] (m !! move_deletion_idx mapping) in
  if existsb (λ existing,
       bool_decide (source_range existing = source_range mapping ∧
                    target_range existing = target_range mapping)) entry
  then <[move_deletion_idx mapping := entry]> m
  else <[move_deletion_idx mapping := entry ++ [mapping]]> m.

Definition by_source (a b : MoveMapping) : bool := (source_range a).1 <=? (source_range b).1.

Definition deletion_to_move (mappings : list MoveMapping) : gmap nat (list MoveMapping) :=
  sort_by by_source <$> foldl add_deletion_move ∅ mappings.

Definition add_insertion_range (m : gmap nat (list (nat * nat))) (mapping : MoveMapping) :
    gmap nat (list (nat * nat)) :=
  <[move_insertion_idx mapping :=
      default [] (m !! move_insertion_idx mapping) ++ [target_range mapping]]> m.

Definition move_ranges (mappings : list MoveMapping) : gmap nat (list (nat * nat)) :=
  foldl add_insertion_range ∅ mappings.

(** The scan from a cursor: each overlap of an old attribution with [s, e),
    moved to the place of [s] in the new text. *)
Definition carry_one (s e target : nat) (attr : Attribution) : option Attribution :=
  try (overlap_start, overlap_end) := intersection attr s e in
  Some (mkAttr (target + (overlap_start - s))
          (target + (overlap_start - s) + (overlap_end - overlap_start))
          (author_id attr) (ts attr)).

Definition carry (cursor s e target : nat) : list Attribution :=
  omap (carry_one s e target) (take_while (λ a, start a <? e) (drop cursor old_attributions)).

Definition marker (pos : nat) : Attribution := mkAttr pos pos current_author current_ts.

Definition step_equal (st : TransformState) (len : nat) : TransformState :=
  let cursor := advance_cursor old_attributions (old_attr_cursor st) (old_pos st) in
  mkState
    (new_attributions st ++ carry cursor (old_pos st) (old_pos st + len) (new_pos st))
    (old_pos st + len) (new_pos st + len) (deletion_idx st) (insertion_idx st) false
    cursor (insertion_attr_cursor st) (insertion_move_ranges st).

(** One mapping of a deletion that was moved. *)
Definition carry_mapping (deletion_start : nat) (acc : option (list Attribution * nat))
    (mapping : MoveMapping) : option (list Attribution * nat) :=
  try (attrs, cursor) := acc in
  try insertion := insertions !! move_insertion_idx mapping in
  let source_start := deletion_start + (source_range mapping).1 in
  let source_end := deletion_start + (source_range mapping).2 in
  if source_start <? source_end then
    let target_start := ins_start insertion + (target_range mapping).1 in
    let cursor' := advance_cursor old_attributions cursor source_start in
    Some (attrs ++ filter (λ a, start a < end_ a) (carry cursor' source_start source_end target_start),
          cursor')
  else Some (attrs, cursor).

Definition step_delete (moves : gmap nat (list MoveMapping)) (st : TransformState) (d : str) :
    option TransformState :=
  try (attrs, cursor) :=
    match moves !! deletion_idx st with
    | Some mappings =>
        foldl (carry_mapping (old_pos st)) (Some (new_attributions st, old_attr_cursor st)) mappings
    | None =>
        Some (if is_ai_checkpoint || negb (data_is_whitespace d)
              then new_attributions st ++ [marker (new_pos st)] else new_attributions st,
              old_attr_cursor st)
    end in
  Some (mkState attrs (old_pos st + length d) (new_pos st) (S (deletion_idx st)) (insertion_idx st)
          (data_is_whitespace d) cursor (insertion_attr_cursor st) (insertion_move_ranges st)).

(** The parts of an insertion that no move fills. *)
Fixpoint fill_gaps (base len cursor : nat) (merged : list (nat * nat)) : list Attribution :=
  match merged with
  | [] =>
      if cursor <? len then [mkAttr (base + cursor) (base + len) current_author current_ts] else []
  | (s, e) :: merged' =>
      let clamped_start := Nat.min s len in
      let clamped_end := Nat.min e len in
      (if cursor <? clamped_start
       then [mkAttr (base + cursor) (base + clamped_start) current_author current_ts] else []) ++
      fill_gaps base len (Nat.max cursor clamped_end) merged'
  end.

Definition by_first (a b : nat * nat) : bool := a.1 <=? b.1.

Definition moved_insertion (base len : nat) (ranges : list (nat * nat)) : list Attribution :=
  fill_gaps base len 0 (merge_range_loop None (sort_by by_first ranges)).

Definition last_attribution (l : list Attribution) : option Attribution := last l.

(** The author and timestamp of an insertion outside moves at a checkpoint
    that is not an agent's; the cursor of the search is threaded. *)
Definition insertion_author (st : TransformState) (d : str) : (str * N) * nat :=
  let current := (current_author, current_ts) in
  let of_attr a := (author_id a, ts a) in
  let insertion_range := (new_pos st, new_pos st + length d) in
  let is_substantive_insert := ranges_intersect substantive_new_ranges insertion_range in
  let contains_newline := contains_byte LF d in
  let is_formatting_pair := prev_whitespace_delete st && data_is_whitespace d in
  let find := find_attribution_for_insertion old_attributions (old_pos st) (insertion_attr_cursor st) in
  if contains_newline then (current, insertion_attr_cursor st)
  else if is_substantive_insert then (current, insertion_attr_cursor st)
  else if is_formatting_pair then
    match find with
    | (Some attr, cursor) => (of_attr attr, cursor)
    | (None, cursor) =>
        match last_attribution (new_attributions st) with
        | Some attr => (of_attr attr, cursor)
        | None => (current, cursor)
        end
    end
  else
    match last_attribution (new_attributions st) with
    | Some attr => (of_attr attr, insertion_attr_cursor st)
    | None =>
        match find with
        | (Some attr, cursor) => (of_attr attr, cursor)
        | (None, cursor) => (current, cursor)
        end
    end.

Definition step_insert (st : TransformState) (d : str) : TransformState :=
  let len := length d in
  let done_with attrs ranges cursor :=
    mkState (new_attributions st ++ attrs) (old_pos st) (new_pos st + len) (deletion_idx st)
      (S (insertion_idx st)) false (old_attr_cursor st) cursor ranges in
  match insertion_move_ranges st !! insertion_idx st with
  | Some ranges =>
      done_with (moved_insertion (new_pos st) len ranges)
        (delete (insertion_idx st) (insertion_move_ranges st)) (insertion_attr_cursor st)
  | None =>
      if is_ai_checkpoint then
        done_with [mkAttr (new_pos st) (new_pos st + len) current_author current_ts]
          (insertion_move_ranges st) (insertion_attr_cursor st)
      else
        let '((who, when), cursor) := insertion_author st d in
        done_with [mkAttr (new_pos st) (new_pos st + len) who when] (insertion_move_ranges st) cursor
  end.

Definition step (moves : gmap nat (list MoveMapping)) (st : TransformState) (diff : ByteDiff) :
    option TransformState :=
  match op diff with
  | Equal => Some (step_equal st (length (data diff)))
  | Delete => step_delete moves st (data diff)
  | Insert => Some (step_insert st (data diff))
  end.

Fixpoint run (moves : gmap nat (list MoveMapping)) (st : TransformState) (diffs : list ByteDiff) :
    option TransformState :=
  match diffs with
  | [] => Some st
  | diff :: diffs' => try st' := step moves st diff in run moves st' diffs'
  end.

Definition transform_attributions (diffs : list ByteDiff) (move_mappings : list MoveMapping) :
    option (list Attribution) :=
  try st := run (deletion_to_move move_mappings)
              (mkState [] 0 0 0 0 false 0 0 (move_ranges move_mappings)) diffs in
  Some (new_attributions st).
End TransformAttributions.

(** ** Reference: the origin of a byte *)

(** Byte [p] of the new text is byte [q] of the old text, or inserted. *)
Inductive Origin := Kept (q : nat) | Inserted (idx : nat) (base : nat) (d : str).

Fixpoint origin (old_pos new_pos idx : nat) (diffs : list ByteDiff) (p : nat) : option Origin :=
  match diffs with
  | [] => None
  | d :: diffs' =>
      let len := length (data d) in
      match op d with
      | Equal =>
          if (new_pos <=? p) && (p <? new_pos + len) then Some (Kept (old_pos + (p - new_pos)))
          else origin (old_pos + len) (new_pos + len) idx diffs' p
      | Delete => origin (old_pos + len) new_pos idx diffs' p
      | Insert =>
          if (new_pos <=? p) && (p <? new_pos + len) then Some (Inserted idx new_pos (data d))
          else origin old_pos (new_pos + len) (S idx) diffs' p
      end
  end.

(** The two texts of a byte diff. *)
Definition old_text (diffs : list ByteDiff) : str :=
  flat_map (λ d, match op d with Insert => [] | _ => data d end) diffs.
Definition new_text (diffs : list ByteDiff) : str :=
  flat_map (λ d, match op d with Delete => [] | _ => data d end) diffs.

End Transform.

(** ** Lemmas *)

Module TransformFacts.
Import ImaraDiff Attribution AttributionFacts AttributionMerge AttributionMergeFacts Transform.

(** *** Origins *)

Lemma old_text_cons d ds :
  old_text (d :: ds) = match op d with Insert => [] | _ => data d end ++ old_text ds.
Proof. done. Qed.
Lemma new_text_cons d ds :
  new_text (d :: ds) = match op d with Delete => [] | _ => data d end ++ new_text ds.
Proof. done. Qed.

Lemma origin_ge op0 np idx ds p o : origin op0 np idx ds p = Some o → np ≤ p.
Proof.
  revert op0 np idx. induction ds as [|d ds IH]; intros op0 np idx; simpl; [done|].
  destruct (op d); [| |].
  - destruct (_ && _) eqn:E; bool_hyps; [lia|]. intros H%IH. lia.
  - apply IH.
  - destruct (_ && _) eqn:E; bool_hyps; [lia|]. intros H%IH. lia.
Qed.

Lemma origin_idx_ge op0 np idx ds p i base d :
  origin op0 np idx ds p = Some (Inserted i base d) → idx ≤ i ∧ base ≤ p < base + length d.
Proof.
  revert op0 np idx. induction ds as [|x ds IH]; intros op0 np idx; simpl; [done|].
  destruct (op x).
  - destruct (_ && _); [done|]. apply IH.
  - apply IH.
  - destruct (_ && _) eqn:E; bool_hyps; [intros [= <- <- <-]; lia|]. intros H%IH. lia.
Qed.

Lemma origin_kept_ge op0 np idx ds p q :
  origin op0 np idx ds p = Some (Kept q) → op0 ≤ q < op0 + length (old_text ds).
Proof.
  revert op0 np idx. induction ds as [|x ds IH]; intros op0 np idx; [done|].
  rewrite old_text_cons, length_app. cbn [origin]. destruct (op x); cbn [length].
  - destruct (_ && _) eqn:E; bool_hyps; [intros [= <-]; lia|]. intros H%IH. lia.
  - intros H%IH. lia.
  - destruct (_ && _); [done|]. intros H%IH. lia.
Qed.

(** Every byte of the new text has an origin, and kept bytes are equal. *)
Lemma origin_total op0 np idx ds p :
  np ≤ p < np + length (new_text ds) → is_Some (origin op0 np idx ds p).
Proof.
  revert op0 np idx. induction ds as [|x ds IH]; intros op0 np idx; [simpl; lia|].
  rewrite new_text_cons, length_app. cbn [origin]. destruct (op x); cbn [length]; intros H.
  - destruct (_ && _) eqn:E; [done|]. apply andb_false_iff in E. rewrite Nat.leb_gt, Nat.ltb_ge in E.
    apply IH. lia.
  - by apply IH.
  - destruct (_ && _) eqn:E; [done|]. apply andb_false_iff in E. rewrite Nat.leb_gt, Nat.ltb_ge in E.
    apply IH. lia.
Qed.

Lemma origin_kept_byte op0 np idx ds p q :
  origin op0 np idx ds p = Some (Kept q) →
  new_text ds !! (p - np) = old_text ds !! (q - op0) ∧ p - np < length (new_text ds).
Proof.
  revert op0 np idx. induction ds as [|x ds IH]; intros op0 np idx; [done|].
  rewrite new_text_cons, old_text_cons, length_app. cbn [origin].
  destruct (op x) eqn:Ex; cbn [length app].
  - destruct (_ && _) eqn:E; bool_hyps.
    + intros [= <-]. rewrite !lookup_app_l by lia. split; [f_equal; lia|lia].
    + intros H. pose proof (origin_ge _ _ _ _ _ _ H). pose proof (origin_kept_ge _ _ _ _ _ _ H).
      apply IH in H as [H ?]. rewrite !lookup_app_r by lia. split; [|lia].
      by replace (p - np - length (data x)) with (p - (np + length (data x))) by lia;
        replace (q - op0 - length (data x)) with (q - (op0 + length (data x))) by lia.
  - intros H. pose proof (origin_kept_ge _ _ _ _ _ _ H). apply IH in H as [H ?].
    rewrite (lookup_app_r (data x)) by lia. split; [|done].
    by replace (q - op0 - length (data x)) with (q - (op0 + length (data x))) by lia.
  - destruct (_ && _) eqn:E; [done|]. intros H. pose proof (origin_ge _ _ _ _ _ _ H).
    apply IH in H as [H ?]. rewrite lookup_app_r by lia. split; [|lia].
    by replace (p - np - length (data x)) with (p - (np + length (data x))) by lia.
Qed.

Section Run.
Variable cur : str.
Variable cts : N.
Variable olds : list Attribution.
Variable insertions : list Insertion.
Variable subst : list (nat * nat).
Variable ai : bool.
Variable moves : gmap nat (list MoveMapping).
Variable ranges : gmap nat (list (nat * nat)).
Hypothesis olds_sorted : StronglySorted (λ a b, start a ≤ start b) olds.

(** *** Cursors *)

Definition cursor_ok (cursor pos : nat) : Prop := ∀ a, a ∈ take cursor olds → end_ a ≤ pos.

Lemma cursor_weaken c pos pos' : cursor_ok c pos → pos ≤ pos' → cursor_ok c pos'.
Proof. intros H Hle a Ha. specialize (H a Ha). lia. Qed.

Lemma advance_ok c pos pos' :
  cursor_ok c pos → pos ≤ pos' → cursor_ok (advance_cursor olds c pos') pos'.
Proof.
  intros Hc Hle a. unfold advance_cursor. rewrite <-take_take_drop.
  intros [Ha|Ha]%elem_of_app; [specialize (Hc a Ha); lia|].
  apply partition_point_take in Ha. by apply Nat.leb_le.
Qed.

(** The scan from a cursor misses no attribution. *)
Lemma carry_owned c s e target p w t :
  cursor_ok c s → s ≤ e →
  owned (carry olds c s e target) p w t ↔
  target ≤ p < target + (e - s) ∧ owned olds (s + (p - target)) w t.
Proof.
  intros Hc Hle. unfold owned, carry. setoid_rewrite list_elem_of_omap.
  setoid_rewrite covers_byte_true. unfold carry_one. split.
  - intros (a' & (a & Ha & Hx) & Hp & <- & <-).
    apply elem_of_take_while in Ha as [Ha _].
    destruct (intersection a s e) as [[x y]|] eqn:E; [|done]. injection Hx as <-. simpl in *.
    apply intersection_Some in E as (-> & -> & ?). split; [lia|].
    exists a. split_and!; try done; try lia. rewrite <-(take_drop c olds). apply elem_of_app. by right.
  - intros (Hp & a & Ha & Hq & <- & <-).
    assert (intersection a s e = Some (Nat.max (start a) s, Nat.min (end_ a) e)) as E
      by (apply intersection_Some; split_and!; done || lia).
    eexists. split; [exists a; split; [|by rewrite E]|simpl; split_and!; done || lia].
    rewrite <-(take_drop c olds) in Ha. apply elem_of_app in Ha as [Ha|Ha].
    { specialize (Hc a Ha). lia. }
    eapply take_while_all; [|..|done|apply Nat.ltb_lt; lia].
    + rewrite <-(take_drop c olds) in olds_sorted. by apply StronglySorted_app_1_r in olds_sorted.
    + simpl. intros x y Hxy. rewrite !Nat.ltb_lt. lia.
Qed.

Lemma owned_filter l p w t : owned (filter (λ a, start a < end_ a) l) p w t ↔ owned l p w t.
Proof.
  unfold owned. setoid_rewrite list_elem_of_filter. setoid_rewrite covers_byte_true.
  split; [naive_solver|]. intros (a & ? & ? & ? & ?). exists a. split_and!; done || lia.
Qed.

(** *** Authors *)

(** The pairs of author and timestamp an update may use. *)
Definition known (w : str) (t : N) : Prop :=
  (w = cur ∧ t = cts) ∨ ∃ a, a ∈ olds ∧ author_id a = w ∧ ts a = t.

Definition all_known (l : list Attribution) : Prop := Forall (λ a, known (author_id a) (ts a)) l.

Lemma known_cur : known cur cts.
Proof. by left. Qed.

Lemma known_old a : a ∈ olds → known (author_id a) (ts a).
Proof. intros. right. eauto. Qed.

Lemma carry_known c s e target : all_known (carry olds c s e target).
Proof.
  apply Forall_forall. unfold carry, carry_one. intros a' (a & Ha & Hx)%list_elem_of_omap.
  destruct (intersection a s e) as [[x y]|]; [|done]. injection Hx as <-. simpl.
  apply elem_of_take_while in Ha as [Ha _]. apply known_old.
  rewrite <-(take_drop c olds). apply elem_of_app. by right.
Qed.

Lemma find_known pos c a c' :
  find_attribution_for_insertion olds pos c = (Some a, c') → a ∈ olds.
Proof.
  unfold find_attribution_for_insertion. destruct olds as [|o os] eqn:Eo; [done|].
  rewrite <-Eo. clear Eo olds_sorted.
  set (cu := advance_cursor olds c pos).
  assert (∀ l best, (∀ b, best = Some b → b ∈ olds) → (∀ b, b ∈ l → b ∈ olds) →
    ∀ b, foldl (better_overlap pos) best l = Some b → b ∈ olds) as Hbest.
  { induction l as [|x l IH]; intros best Hb Hl b; simpl; [apply Hb|].
    apply IH; [|intros y Hy; apply Hl; by right]. intros y. unfold better_overlap.
    case_match; [intros [= <-]; apply Hl; left|apply Hb]. }
  destruct (foldl _ _ _) as [b|] eqn:E.
  - intros [= <- <-]. eapply Hbest in E; [done|done|]. intros x [Hx _]%elem_of_take_while.
    rewrite <-(take_drop cu olds). apply elem_of_app. by right.
  - intros [= Hm <-]. assert (a ∈ olds ∨ ∃ p, List.find p (drop cu olds) = Some a) as [?|[p Hp]]; [|done|].
    { destruct cu as [|k]; [right; eauto|].
      destruct (olds !! k) as [x|] eqn:Ex; simplify_eq; [left; by eapply list_elem_of_lookup_2|right; eauto]. }
    apply find_some in Hp as [Hp _]. apply list_elem_of_In in Hp.
    rewrite <-(take_drop cu olds). apply elem_of_app. by right.
Qed.

Lemma insertion_author_known st d w t c :
  all_known (new_attributions st) → insertion_author cur cts olds subst st d = ((w, t), c) → known w t.
Proof.
  intros Hn. unfold insertion_author.
  assert (∀ a, last_attribution (new_attributions st) = Some a → known (author_id a) (ts a)) as Hlast.
  { intros a Ha%last_Some_elem_of. unfold all_known in Hn. rewrite Forall_forall in Hn. auto. }
  pose proof known_cur as Hcur.
  destruct (find_attribution_for_insertion _ _ _) as [o c'] eqn:Ef.
  assert (∀ a, o = Some a → known (author_id a) (ts a)) as Hfind.
  { intros a ->. apply find_known in Ef. by apply known_old. }
  repeat case_match; intros [= <- <- <-]; subst; auto.
Qed.

(** *** Insertions filled by moves *)

Lemma fill_gaps_owned base len cursor merged p w t :
  disjoint_ranges merged → Forall (λ r, cursor ≤ r.1) merged →
  owned (fill_gaps cur cts base len cursor merged) p w t ↔
  base + cursor ≤ p < base + len ∧ w = cur ∧ t = cts ∧ ¬ in_ranges merged (p - base).
Proof.
  intros [Hn Hs]. revert cursor. induction merged as [|[s e] l IH]; intros cursor Hc; simpl.
  { pose proof (in_ranges_nil (p - base)). destruct (Nat.ltb_spec cursor len).
    - rewrite owned_singleton. intuition lia.
    - split; [intros H1; by apply owned_nil in H1|lia]. }
  inversion_clear Hn as [|? ? Hse Hn']. inversion_clear Hs as [|? ? Hs' Hl].
  inversion_clear Hc as [|? ? Hcs Hc']. simpl in *.
  rewrite owned_app, IH; [|done|done|].
  2:{ eapply Forall_impl; [exact Hl|]. intros [s' e']. simpl. lia. }
  rewrite in_ranges_cons. simpl.
  assert (in_ranges l (p - base) → e < p - base) as Hafter.
  { intros (r & Hr & Hp). rewrite Forall_forall in Hl. specialize (Hl _ Hr). lia. }
  destruct (Nat.ltb_spec cursor (s `min` len)).
  - rewrite owned_singleton. split.
    + intros [(? & -> & ->)|(? & -> & -> & ?)]; split_and!; try done; try lia; intuition lia.
    + intros (? & -> & -> & Hno). destruct (decide (p < base + s)); [left; split_and!; done || lia|].
      right. split_and!; try done; [|lia|tauto].
      assert (¬ s ≤ p - base < e) by tauto. lia.
  - split.
    + intros [H1|(? & -> & -> & ?)]; [by apply owned_nil in H1|].
      split_and!; try done; try lia. intuition lia.
    + intros (? & -> & -> & Hno). right. split_and!; try done; [|lia|tauto].
      assert (¬ s ≤ p - base < e) by tauto. lia.
Qed.

Lemma fill_gaps_known base len cursor merged : all_known (fill_gaps cur cts base len cursor merged).
Proof.
  revert cursor. induction merged as [|[s e] l IH]; intros cursor; simpl.
  - case_match; repeat constructor; by left.
  - apply Forall_app. split; [|apply IH]. case_match; repeat constructor; by left.
Qed.

Lemma moved_insertion_owned base len rs p w t :
  owned (moved_insertion cur cts base len rs) p w t ↔
  base ≤ p < base + len ∧ w = cur ∧ t = cts ∧ ¬ in_ranges rs (p - base).
Proof.
  unfold moved_insertion.
  destruct (merge_range_loop_spec None (sort_by by_first rs)) as (H1 & H2 & _).
  - simpl. apply (sorted_by_starts by_first).
    + intros x y. unfold by_first. by rewrite Nat.leb_le.
    + apply sort_by_sorted; unfold by_first; intros *; rewrite !Nat.leb_le; lia.
  - constructor.
  - rewrite fill_gaps_owned; [|done|apply Forall_forall; intros; lia].
    rewrite H1. simpl. rewrite (in_ranges_perm _ rs) by apply sort_by_perm.
    by rewrite Nat.add_0_r.
Qed.

(** *** One step *)

Record state_ok (st : TransformState) : Prop := {
  ok_cursor : cursor_ok (old_attr_cursor st) (old_pos st);
  ok_known : all_known (new_attributions st);
  ok_ranges : ∀ i, insertion_idx st ≤ i → insertion_move_ranges st !! i = ranges !! i
}.

(** The mappings of each deletion read inside it, in the order of their
    sources, and land in an insertion of the catalogue. *)
Fixpoint moves_fit (didx : nat) (diffs : list ByteDiff) : Prop :=
  match diffs with
  | [] => True
  | d :: diffs' =>
      match op d with
      | Delete =>
          (∀ ms, moves !! didx = Some ms →
             Forall (λ m, (source_range m).1 ≤ length (data d) ∧
                          is_Some (insertions !! move_insertion_idx m)) ms ∧
             StronglySorted (λ m m', (source_range m).1 ≤ (source_range m').1) ms) ∧
          moves_fit (S didx) diffs'
      | _ => moves_fit didx diffs'
      end
  end.

(** Mapping [m] of a deletion at [dpos] lands old byte [q] on new byte [p]. *)
Definition lands (m : MoveMapping) (dpos p q : nat) : Prop :=
  ∃ i, insertions !! move_insertion_idx m = Some i ∧
    let target := ins_start i + (target_range m).1 in
    target ≤ p ∧ q = dpos + (source_range m).1 + (p - target) ∧ q < dpos + (source_range m).2.

Fixpoint moved_from (dpos didx : nat) (diffs : list ByteDiff) (p q : nat) : Prop :=
  match diffs with
  | [] => False
  | d :: diffs' =>
      match op d with
      | Equal => moved_from (dpos + length (data d)) didx diffs' p q
      | Insert => moved_from dpos didx diffs' p q
      | Delete =>
          (∃ ms m, moves !! didx = Some ms ∧ m ∈ ms ∧ lands m dpos p q) ∨
          moved_from (dpos + length (data d)) (S didx) diffs' p q
      end
  end.

Lemma carry_mappings_spec dpos len ms attrs c :
  Forall (λ m, (source_range m).1 ≤ len ∧ is_Some (insertions !! move_insertion_idx m)) ms →
  StronglySorted (λ m m', (source_range m).1 ≤ (source_range m').1) ms →
  (∃ b, cursor_ok c b ∧ b ≤ dpos + len ∧ Forall (λ m, b ≤ dpos + (source_range m).1) ms) →
  all_known attrs →
  ∃ attrs' c', foldl (carry_mapping olds insertions dpos) (Some (attrs, c)) ms = Some (attrs', c') ∧
    cursor_ok c' (dpos + len) ∧ all_known attrs' ∧
    ∀ p w t, owned attrs' p w t ↔
      owned attrs p w t ∨ ∃ q m, m ∈ ms ∧ lands m dpos p q ∧ owned olds q w t.
Proof.
  intros Hf Hs. revert attrs c. induction Hs as [|m ms Hs IH Hm]; intros attrs c (b & Hc & Hb & Hbm) Hk.
  { exists attrs, c. split_and!; try done; [by eapply cursor_weaken|].
    intros p w t. split; [auto|]. intros [?|(q & m & Hm & _)]; [done|by apply not_elem_of_nil in Hm]. }
  inversion_clear Hf as [|? ? [Hlen [i Hi]] Hf']. inversion_clear Hbm as [|? ? Hbm0 Hbm'].
  cbn [foldl]. unfold carry_mapping at 2. rewrite Hi.
  destruct (Nat.ltb_spec (dpos + (source_range m).1) (dpos + (source_range m).2)) as [Hlt|Hge].
  - set (s := dpos + (source_range m).1) in *. set (e := dpos + (source_range m).2) in *.
    set (c1 := advance_cursor olds c s).
    assert (cursor_ok c1 s) as Hc1 by (eapply advance_ok; [exact Hc|lia]).
    set (tgt := ins_start i + (target_range m).1).
    destruct (IH Hf' (attrs ++ filter (λ a, start a < end_ a) (carry olds c1 s e tgt)) c1)
      as (attrs' & c' & -> & Hc' & Hk' & Ho).
    { exists s. split_and!; [done|unfold s; lia|].
      eapply Forall_impl; [exact Hm|]. unfold s. intros; simpl in *; lia. }
    { apply Forall_app. split; [done|]. apply Forall_forall. intros a [_ Ha]%list_elem_of_filter.
      pose proof (carry_known c1 s e tgt) as Hck. unfold all_known in Hck.
      rewrite Forall_forall in Hck. auto. }
    exists attrs', c'. split_and!; try done. intros p w t.
    rewrite Ho, owned_app, owned_filter, carry_owned by (done || lia).
    setoid_rewrite elem_of_cons. split.
    + intros [[?|[Hp Hq]]|(q & m' & ? & ? & ?)]; [by left|right|right; exists q, m'; auto].
      exists (s + (p - tgt)), m. split; [by left|]. split; [|done].
      exists i. split; [done|]. simpl. fold tgt s e. lia.
    + intros [?|(q & m' & [->|?] & Hl & Hq)]; [auto| |right; eauto].
      left. right. destruct Hl as (i' & Hi' & Hl). rewrite Hi in Hi'. injection Hi' as <-.
      simpl in Hl. fold tgt s e in Hl. destruct Hl as (? & -> & ?). split; [lia|done].
  - destruct (IH Hf' attrs c) as (attrs' & c' & -> & Hc' & Hk' & Ho).
    { exists b. auto. } { done. }
    exists attrs', c'. split_and!; try done. intros p w t. rewrite Ho.
    setoid_rewrite elem_of_cons. split; [naive_solver|].
    intros [?|(q & m' & [->|?] & Hl & Hq)]; [auto| |right; eauto].
    exfalso. destruct Hl as (i' & Hi' & Hl). simpl in Hl. lia.
Qed.

(** What each byte of the new text owes to a diff read from a state: kept
    bytes their old owners, moved bytes the owners of their source, inserted
    bytes the current author outside moved ranges, or the pair [w0], [t0]
    chosen for the insertion. *)
Definition owner_of (st : TransformState) (ds : list ByteDiff) (p : nat) (w0 : str) (t0 : N)
    (w : str) (t : N) : Prop :=
  (∃ q, origin (old_pos st) (new_pos st) (insertion_idx st) ds p = Some (Kept q) ∧ owned olds q w t) ∨
  (∃ q, moved_from (old_pos st) (deletion_idx st) ds p q ∧ owned olds q w t) ∨
  (∃ idx base d, origin (old_pos st) (new_pos st) (insertion_idx st) ds p = Some (Inserted idx base d) ∧
     match ranges !! idx with
     | Some rs => w = cur ∧ t = cts ∧ ¬ in_ranges rs (p - base)
     | None => w = w0 ∧ t = t0
     end).

(** The insertions that always go to the current author. *)
Definition goes_to_current (base : nat) (d : str) : bool :=
  ai || contains_byte LF d || ranges_intersect subst (base, base + length d).

Definition choice_ok (st : TransformState) (ds : list ByteDiff) (p : nat) (w0 : str) (t0 : N) : Prop :=
  known w0 t0 ∧
  ∀ idx base d,
    origin (old_pos st) (new_pos st) (insertion_idx st) ds p = Some (Inserted idx base d) →
    goes_to_current base d = true → w0 = cur ∧ t0 = cts.

Lemma step_insert_spec st d :
  state_ok st →
  ∃ new c rs w0 t0,
    step_insert cur cts olds subst ai st d =
      mkState (new_attributions st ++ new) (old_pos st) (new_pos st + length d) (deletion_idx st)
        (S (insertion_idx st)) false (old_attr_cursor st) c rs ∧
    all_known new ∧ known w0 t0 ∧ (∀ i, S (insertion_idx st) ≤ i → rs !! i = ranges !! i) ∧
    (goes_to_current (new_pos st) d = true → w0 = cur ∧ t0 = cts) ∧
    ∀ p w t, owned new p w t ↔ new_pos st ≤ p < new_pos st + length d ∧
      match ranges !! insertion_idx st with
      | Some r => w = cur ∧ t = cts ∧ ¬ in_ranges r (p - new_pos st)
      | None => w = w0 ∧ t = t0
      end.
Proof.
  intros [Hc Hk Hr]. unfold step_insert. rewrite Hr by done.
  destruct (ranges !! insertion_idx st) as [r|] eqn:Er; [|destruct ai eqn:Eai].
  - eexists _, _, _, cur, cts. split; [done|]. split_and!; try done.
    + apply fill_gaps_known.
    + apply known_cur.
    + intros i Hi. rewrite lookup_delete_ne by lia. apply Hr. lia.
    + intros p w t. apply moved_insertion_owned.
  - eexists _, _, _, cur, cts. split; [done|]. split_and!; try done.
    + apply Forall_singleton, known_cur.
    + apply known_cur.
    + intros i Hi. apply Hr. lia.
    + intros p w t. apply owned_singleton.
  - destruct (insertion_author cur cts olds subst st d) as [[w0 t0] c] eqn:Ei.
    pose proof (insertion_author_known _ _ _ _ _ Hk Ei) as Hw.
    eexists _, _, _, w0, t0. split; [done|]. split_and!; try done.
    + apply Forall_singleton. exact Hw.
    + intros i Hi. apply Hr. lia.
    + unfold goes_to_current. rewrite Eai. cbn [orb]. rewrite orb_true_iff. unfold insertion_author in Ei.
      intros [H|H]; rewrite H in Ei; repeat case_match; by simplify_eq.
    + intros p w t. apply owned_singleton.
Qed.

(** What the state after the remaining segments says. *)
Definition carried (st : TransformState) (ds : list ByteDiff) (attrs : list Attribution) : Prop :=
  all_known attrs ∧
  ∀ p, ∃ w0 t0, choice_ok st ds p w0 t0 ∧
    ∀ w t, owned attrs p w t ↔ owned (new_attributions st) p w t ∨ owner_of st ds p w0 t0 w t.

Lemma carried_nil st : state_ok st → carried st [] (new_attributions st).
Proof.
  intros Hst. split; [apply Hst|]. intros p. exists cur, cts. split; [split; [apply known_cur|done]|].
  intros w t. unfold owner_of. simpl. naive_solver.
Qed.

(** Past a segment of the new text, no origin lies before it. *)
Lemma origin_before op0 np idx ds p : p < np → origin op0 np idx ds p = None.
Proof. intros Hp. destruct (origin _ _ _ _ _) eqn:E; [|done]. apply origin_ge in E. lia. Qed.

Lemma step_equal_ok st len :
  state_ok st →
  state_ok (step_equal olds st len) ∧
  ∀ p w t, owned (new_attributions (step_equal olds st len)) p w t ↔
    owned (new_attributions st) p w t ∨
    (new_pos st ≤ p < new_pos st + len ∧ owned olds (old_pos st + (p - new_pos st)) w t).
Proof.
  intros Hst. set (st1 := step_equal olds st len).
  assert (cursor_ok (old_attr_cursor st1) (old_pos st)) as Hc by (eapply advance_ok; [apply Hst|done]).
  split.
  - split; [eapply cursor_weaken; [exact Hc|simpl; lia]| |apply Hst].
    simpl. apply Forall_app. split; [apply Hst|apply carry_known].
  - intros p w t. unfold st1. simpl (new_attributions _). rewrite owned_app, carry_owned by (done || lia).
    by replace (old_pos st + len - old_pos st) with len by lia.
Qed.

Lemma carried_equal st d ds attrs :
  op d = Equal → state_ok st → carried (step_equal olds st (length (data d))) ds attrs →
  carried st (d :: ds) attrs.
Proof.
  intros Ed Hst [Hk Ho]. destruct (step_equal_ok st (length (data d)) Hst) as [_ Hown]. split; [done|].
  intros p. destruct (Ho p) as (w0 & t0 & [Hw Hch] & Hp). exists w0, t0.
  unfold choice_ok, owner_of in *. cbn [origin moved_from]. rewrite Ed.
  setoid_rewrite Hp. setoid_rewrite Hown.
  unfold step_equal in Hch |- *. cbn [old_pos new_pos insertion_idx deletion_idx] in *.
  destruct (_ && _) eqn:E.
  - bool_hyps. rewrite origin_before by lia. split; [split; [done|naive_solver]|]. intros w t.
    split; [intros [[?|[_ ?]]|[(q & ? & _)|[?|(? & ? & ? & ? & _)]]]; naive_solver|].
    intros [?|[(q & [= <-] & ?)|[?|(? & ? & ? & ? & _)]]]; [auto| |auto|done].
    left. right. split; [lia|done].
  - split; [done|]. intros w t. apply andb_false_iff in E. rewrite Nat.leb_gt, Nat.ltb_ge in E.
    split; [intros [[?|[? ?]]|?]; [auto|lia|auto]|intros [?|?]; auto].
Qed.

(** A deletion carries what its moves take, or leaves a marker. *)
Lemma step_delete_spec st d :
  state_ok st →
  (∀ l, moves !! deletion_idx st = Some l →
     Forall (λ m, (source_range m).1 ≤ length d ∧ is_Some (insertions !! move_insertion_idx m)) l ∧
     StronglySorted (λ m m', (source_range m).1 ≤ (source_range m').1) l) →
  ∃ st1, step_delete cur cts olds insertions ai moves st d = Some st1 ∧ state_ok st1 ∧
    old_pos st1 = old_pos st + length d ∧ new_pos st1 = new_pos st ∧
    deletion_idx st1 = S (deletion_idx st) ∧ insertion_idx st1 = insertion_idx st ∧
    ∀ p w t, owned (new_attributions st1) p w t ↔ owned (new_attributions st) p w t ∨
      ∃ q, (∃ ms m, moves !! deletion_idx st = Some ms ∧ m ∈ ms ∧ lands m (old_pos st) p q) ∧ owned olds q w t.
Proof.
  intros Hst Hms. unfold step_delete. destruct (moves !! deletion_idx st) as [ms|] eqn:Em.
  - destruct (Hms ms eq_refl) as [Hf Hs].
    destruct (carry_mappings_spec (old_pos st) (length d) ms (new_attributions st)
      (old_attr_cursor st) Hf Hs) as (attrs & c & -> & Hc & Hk & Ho).
    { exists (old_pos st). split_and!; [apply Hst|lia|apply Forall_forall; intros; lia]. }
    { apply Hst. }
    eexists. split; [done|]. split; [by split; [..|apply Hst]|]. split_and!; try done.
    intros p w t. simpl. rewrite Ho. naive_solver.
  - eexists. split; [done|]. split.
    { split; [eapply cursor_weaken; [apply Hst|simpl; lia]| |apply Hst].
      simpl. case_match; [|apply Hst]. apply Forall_app. split; [apply Hst|].
      apply Forall_singleton, known_cur. }
    split_and!; try done. intros p w t. simpl.
    split; [|intros [?|(q & (ms & m & ? & _) & _)]; [|done]].
    + intros H. left. case_match; [|done]. apply owned_app in H as [H|H]; [done|].
      apply owned_singleton in H. lia.
    + case_match; [|done]. apply owned_app. by left.
Qed.

Lemma carried_delete st st1 d ds attrs :
  op d = Delete →
  old_pos st1 = old_pos st + length (data d) → new_pos st1 = new_pos st →
  deletion_idx st1 = S (deletion_idx st) → insertion_idx st1 = insertion_idx st →
  (∀ p w t, owned (new_attributions st1) p w t ↔ owned (new_attributions st) p w t ∨
     ∃ q, (∃ ms m, moves !! deletion_idx st = Some ms ∧ m ∈ ms ∧ lands m (old_pos st) p q) ∧ owned olds q w t) →
  carried st1 ds attrs → carried st (d :: ds) attrs.
Proof.
  intros Ed E1 E2 E3 E4 Ho1 [Hk Ho]. split; [done|]. intros p.
  destruct (Ho p) as (w0 & t0 & [Hw Hch] & Hp). exists w0, t0.
  unfold choice_ok, owner_of in *. rewrite E1, E2, E3, E4 in *. cbn [origin moved_from]. rewrite Ed.
  split; [done|]. intros w t. rewrite Hp, Ho1. split.
  - intros [[?|(q & ? & ?)]|[?|[(q & ? & ?)|?]]]; [auto| | auto| |auto];
      right; right; left; exists q; auto.
  - intros [?|[?|[(q & [?|?] & ?)|?]]]; [auto|auto| | |auto].
    + left. right. exists q. auto.
    + right. right. left. exists q. auto.
Qed.

Lemma run_insert st d ds :
  op d = Insert → state_ok st →
  let st1 := step_insert cur cts olds subst ai st (data d) in
  state_ok st1 ∧ deletion_idx st1 = deletion_idx st ∧
  ∀ attrs, carried st1 ds attrs → carried st (d :: ds) attrs.
Proof.
  intros Ed Hst. cbv zeta.
  destruct (step_insert_spec st (data d) Hst) as (new & c & rs & w1 & t1 & -> & Hk & Hw1 & Hr & Hc1 & Ho1).
  split; [split; [apply Hst| |done]; simpl; apply Forall_app; split; [apply Hst|done]|]. split; [done|].
  intros attrs [Hk' Ho]. split; [done|]. intros p. destruct (Ho p) as (w0 & t0 & [Hw Hch] & Hp).
  unfold choice_ok, owner_of in *. cbn [origin moved_from]. rewrite Ed.
  cbn [old_pos new_pos insertion_idx deletion_idx new_attributions] in *.
  destruct (_ && _) eqn:E.
  - bool_hyps. rewrite origin_before in Hp by lia. exists w1, t1.
    split; [split; [done|]; intros ? ? ? [= <- <- <-]; done|].
    intros w t. rewrite Hp, owned_app, Ho1. split.
    + intros [[?|[? ?]]|[(? & ? & _)|[?|(? & ? & ? & ? & _)]]]; [auto| |done|auto|done].
      right. right. right. by eexists _, _, _.
    + intros [?|[(? & ? & _)|[?|(? & ? & ? & [= <- <- <-] & ?)]]]; [auto|done|auto|].
      left. right. done.
  - exists w0, t0. split; [done|]. intros w t. rewrite Hp, owned_app, Ho1.
    apply andb_false_iff in E. rewrite Nat.leb_gt, Nat.ltb_ge in E.
    split; [intros [[?|[? ?]]|?]; [auto|lia|auto]|intros [?|?]; auto].
Qed.

Lemma run_spec st ds :
  state_ok st → moves_fit (deletion_idx st) ds →
  ∃ st', run cur cts olds insertions subst ai moves st ds = Some st' ∧ carried st ds (new_attributions st').
Proof.
  revert st. induction ds as [|d ds IH]; intros st Hst Hfit; [exists st; split; [done|by apply carried_nil]|].
  cbn [run]. unfold step. cbn [moves_fit] in Hfit. destruct (op d) eqn:Ed.
  - destruct (step_equal_ok st (length (data d)) Hst) as [Hst1 _].
    destruct (IH _ Hst1 Hfit) as (st' & Hrun & Hc). exists st'. split; [done|]. by apply carried_equal.
  - destruct Hfit as [Hms Hfit].
    destruct (step_delete_spec st (data d) Hst Hms) as (st1 & -> & Hst1 & E1 & E2 & E3 & E4 & Ho1).
    destruct (IH st1) as (st' & Hrun & Hc); [done|by rewrite E3|].
    exists st'. split; [done|]. by eapply carried_delete.
  - destruct (run_insert st d ds Ed Hst) as (Hst1 & E & Hcar).
    destruct (IH _ Hst1) as (st' & Hrun & Hc); [by rewrite E|]. exists st'. split; [done|]. by apply Hcar.
Qed.

End Run.

(** *** The maps of the moves *)

Lemma sorted_by_source l :
  StronglySorted (λ m m', (source_range m).1 ≤ (source_range m').1) (sort_by by_source l).
Proof.
  assert (StronglySorted (λ m m', by_source m m' = true) (sort_by by_source l)) as H.
  { apply sort_by_sorted; unfold by_source; intros *; rewrite !Nat.leb_le; lia. }
  induction H as [|m l' _ IH Hm]; constructor; [done|].
  eapply Forall_impl; [exact Hm|]. unfold by_source. intros x. by rewrite Nat.leb_le.
Qed.

Lemma deletion_to_move_elem ms i l m :
  deletion_to_move ms !! i = Some l → m ∈ l → m ∈ ms ∧ move_deletion_idx m = i.
Proof.
  unfold deletion_to_move. rewrite lookup_fmap, fmap_Some. intros (l' & Hl & ->).
  rewrite elem_of_sort_by. revert l' Hl.
  assert (∀ acc, (∀ i l m, acc !! i = Some l → m ∈ l → m ∈ ms ∧ move_deletion_idx m = i) →
    ∀ l', foldl add_deletion_move acc ms !! i = Some l' → m ∈ l' → m ∈ ms ∧ move_deletion_idx m = i) as H.
  2:{ intros l' Hl. apply (H ∅); [done|done]. }
  assert (∀ xs, (∀ x, x ∈ xs → x ∈ ms) → ∀ acc,
    (∀ i l m, acc !! i = Some l → m ∈ l → m ∈ ms ∧ move_deletion_idx m = i) →
    ∀ l', foldl add_deletion_move acc xs !! i = Some l' → m ∈ l' → m ∈ ms ∧ move_deletion_idx m = i) as H.
  2:{ intros acc Hacc. by apply H. }
  induction xs as [|x xs IH]; intros Hxs acc Hacc l'; [apply Hacc|].
  cbn [foldl]. apply IH; [intros y Hy; apply Hxs; by right|].
  assert (∀ y, y ∈ default [] (acc !! move_deletion_idx x) → y ∈ ms ∧ move_deletion_idx y = move_deletion_idx x) as Hd.
  { intros y. destruct (acc !! move_deletion_idx x) eqn:E; simpl; [intros Hy; by apply (Hacc _ _ y E)|].
    intros Hy. by apply not_elem_of_nil in Hy. }
  intros j l m'. unfold add_deletion_move.
  case_match; (destruct (decide (j = move_deletion_idx x)) as [->|Hj];
    [rewrite lookup_insert_eq; intros [= <-]|rewrite lookup_insert_ne by done; apply Hacc]); [auto|].
  intros [Hm|Hm]%elem_of_app; [auto|]. apply list_elem_of_singleton in Hm as ->.
  split; [apply Hxs; left|done].
Qed.

(** The mappings of a catalogue fit a diff. *)
Definition mapping_ok (deletions : list Deletion) (insertions : list Insertion) (m : MoveMapping) : Prop :=
  ∃ d, deletions !! move_deletion_idx m = Some d ∧ is_Some (insertions !! move_insertion_idx m) ∧
    (source_range m).1 ≤ (source_range m).2 ∧ (source_range m).2 ≤ del_end d - del_start d.

Lemma catalog_deletions op0 np d ds :
  (catalog_loop op0 np (d :: ds)).1 =
  match op d with
  | Equal => (catalog_loop (op0 + length (data d)) (np + length (data d)) ds).1
  | Delete => mkDeletion op0 (op0 + length (data d)) :: (catalog_loop (op0 + length (data d)) np ds).1
  | Insert => (catalog_loop op0 (np + length (data d)) ds).1
  end.
Proof. simpl. destruct (op d); [done|..]; by destruct (catalog_loop _ _ ds). Qed.

Lemma catalog_insertions op0 np d ds :
  (catalog_loop op0 np (d :: ds)).2 =
  match op d with
  | Equal => (catalog_loop (op0 + length (data d)) (np + length (data d)) ds).2
  | Delete => (catalog_loop (op0 + length (data d)) np ds).2
  | Insert => mkInsertion np (np + length (data d)) :: (catalog_loop op0 (np + length (data d)) ds).2
  end.
Proof. simpl. destruct (op d); [done|..]; by destruct (catalog_loop _ _ ds). Qed.

Lemma moves_fit_catalog insertions ms ds op0 np didx :
  (∀ i l m, deletion_to_move ms !! i = Some l → m ∈ l → didx ≤ i →
     is_Some (insertions !! move_insertion_idx m) ∧
     ∀ d, (catalog_loop op0 np ds).1 !! (i - didx) = Some d →
       (source_range m).1 ≤ del_end d - del_start d) →
  moves_fit insertions (deletion_to_move ms) didx ds.
Proof.
  revert op0 np didx. induction ds as [|d ds IH]; intros op0 np didx Hc; cbn [moves_fit]; [done|].
  setoid_rewrite catalog_deletions in Hc. destruct (op d); [by eapply IH| |by eapply IH].
  split.
  - intros l Hl. split.
    + apply Forall_forall. intros m Hm. destruct (Hc _ _ _ Hl Hm) as [Hi Hd]; [done|].
      rewrite Nat.sub_diag in Hd. specialize (Hd _ eq_refl). simpl in Hd. split; [lia|done].
    + unfold deletion_to_move in Hl. rewrite lookup_fmap, fmap_Some in Hl.
      destruct Hl as (l' & _ & ->). apply sorted_by_source.
  - eapply IH. intros i l m Hl Hm Hi. destruct (Hc _ _ _ Hl Hm) as [Hin Hd]; [lia|].
    split; [done|]. intros d' Hd'. apply Hd. by replace (i - didx) with (S (i - S didx)) by lia.
Qed.

Lemma mappings_fit insertions ms ds :
  Forall (mapping_ok (build_diff_catalog ds).1 insertions) ms →
  moves_fit insertions (deletion_to_move ms) 0 ds.
Proof.
  intros Hms. rewrite Forall_forall in Hms. apply (moves_fit_catalog _ _ _ 0 0).
  intros i l m Hl Hm _. destruct (deletion_to_move_elem _ _ _ _ Hl Hm) as [Hin <-].
  destruct (Hms _ Hin) as (d' & Hd' & Hi & ? & ?). split; [done|]. intros d Hd.
  rewrite Nat.sub_0_r in Hd. unfold build_diff_catalog in Hd'. rewrite Hd in Hd'.
  injection Hd' as <-. lia.
Qed.

(** What [moved_from] says, in terms of the catalogue. *)
Lemma moved_from_catalog insertions mv ds op0 np didx p q :
  moved_from insertions mv op0 didx ds p q ↔
  ∃ i l m d, didx ≤ i ∧ mv !! i = Some l ∧ m ∈ l ∧
    (catalog_loop op0 np ds).1 !! (i - didx) = Some d ∧ lands insertions m (del_start d) p q.
Proof.
  revert op0 np didx. induction ds as [|d ds IH]; intros op0 np didx; cbn [moved_from].
  { simpl. setoid_rewrite lookup_nil. naive_solver. }
  setoid_rewrite catalog_deletions. destruct (op d); [apply IH| |apply IH].
  rewrite (IH _ np). split.
  - intros [(l & m & Hl & Hm & H)|(i & l & m & d' & Hi & Hl & Hm & Hd & H)].
    + exists didx, l, m, (mkDeletion op0 (op0 + length (data d))). rewrite Nat.sub_diag. by split_and!.
    + exists i, l, m, d'. replace (i - didx) with (S (i - S didx)) by lia. split_and!; done || lia.
  - intros (i & l & m & d' & Hi & Hl & Hm & Hd & H). destruct (decide (i = didx)) as [->|].
    + left. rewrite Nat.sub_diag in Hd. injection Hd as <-. eauto.
    + right. replace (i - didx) with (S (i - S didx)) in Hd by lia. exists i, l, m, d'. split_and!; done || lia.
Qed.

(** The start of a transformation. *)
Lemma transform_spec cur cts olds insertions subst ai ds ms :
  StronglySorted (λ a b, start a ≤ start b) olds →
  moves_fit insertions (deletion_to_move ms) 0 ds →
  ∃ attrs, transform_attributions cur cts olds insertions subst ai ds ms = Some attrs ∧
    all_known cur cts olds attrs ∧
    ∀ p, ∃ w0 t0,
      let st := mkState [] 0 0 0 0 false 0 0 (move_ranges ms) in
      choice_ok cur cts olds subst ai st ds p w0 t0 ∧
      ∀ w t, owned attrs p w t ↔
        owner_of cur cts olds insertions (deletion_to_move ms) (move_ranges ms) st ds p w0 t0 w t.
Proof.
  intros Hs Hfit. unfold transform_attributions.
  destruct (run_spec cur cts olds insertions subst ai (deletion_to_move ms) (move_ranges ms) Hs
    (mkState [] 0 0 0 0 false 0 0 (move_ranges ms)) ds) as (st' & -> & Hk & Ho); [|done|].
  { split; [|constructor|done]. intros a Ha. rewrite take_0 in Ha. by apply not_elem_of_nil in Ha. }
  exists (new_attributions st'). split; [done|]. split; [done|].
  intros p. destruct (Ho p) as (w0 & t0 & Hc & Hp). exists w0, t0. split; [done|].
  intros w t. rewrite Hp. simpl. pose proof (owned_nil p w t). tauto.
Qed.
(** *** The ownership after the transformation and the merge *)

Lemma ai_transform_owned (cur : str) (cts : N) (olds : list Attribution)
    (insertions : list Insertion) (subst : list (nat * nat)) (ds : list ByteDiff) :
  is_attribution_list_sorted olds = true →
  ∃ attrs, transform_attributions cur cts olds insertions subst true ds [] = Some attrs ∧
    ∀ p, match origin 0 0 0 ds p with
         | Some (Kept q) =>
             new_text ds !! p = old_text ds !! q ∧
             ∀ w t, owned (merge_attributions attrs) p w t ↔ owned olds q w t
         | Some (Inserted _ _ _) =>
             ∀ w t, owned (merge_attributions attrs) p w t ↔ w = cur ∧ t = cts
         | None =>
             length (new_text ds) ≤ p ∧ ∀ w t, ¬ owned (merge_attributions attrs) p w t
         end.
Proof.
  intros Hs%is_sorted_true%sorted_start.
  destruct (transform_spec cur cts olds insertions subst true ds [] Hs) as (attrs & Ht & _ & Ho);
    [by apply mappings_fit|].
  exists attrs. split; [done|]. intros p. destruct (Ho p) as (w0 & t0 & [_ Hch] & Hp).
  assert (∀ w t, owned (merge_attributions attrs) p w t ↔ owned attrs p w t) as Hmg
    by (intros; apply merge_attributions_owned).
  unfold choice_ok, owner_of in *. cbn [old_pos new_pos insertion_idx deletion_idx] in *.
  assert (∀ q, ¬ moved_from insertions (deletion_to_move []) 0 0 ds p q) as Hno.
  { intros q Hm. apply (moved_from_catalog _ _ _ _ 0) in Hm as (i & l & m & d & _ & Hl & Hm & _).
    destruct (deletion_to_move_elem _ _ _ _ Hl Hm) as [Hin _]. by apply not_elem_of_nil in Hin. }
  destruct (origin 0 0 0 ds p) as [[q|idx base d]|] eqn:E.
  - split; [apply origin_kept_byte in E as [E _]; by rewrite !Nat.sub_0_r in E|].
    intros w t. rewrite Hmg, Hp. split; [|by left; exists q].
    intros [(? & [= <-] & ?)|[(? & Hx & _)|(? & ? & ? & ? & _)]]; [done|by apply Hno in Hx|done].
  - destruct (Hch idx base d eq_refl eq_refl) as [-> ->]. intros w t.
    rewrite Hmg, Hp. split.
    + intros [(? & ? & _)|[(? & Hx & _)|(? & ? & ? & [= <- <- <-] & H)]]; [done|by apply Hno in Hx|done].
    + intros H. right. right. by exists idx, base, d.
  - split.
    + destruct (decide (length (new_text ds) ≤ p)); [done|].
      destruct (origin_total 0 0 0 ds p) as [o Ho']; [lia|]. congruence.
    + intros w t. rewrite Hmg, Hp.
      intros [(? & ? & _)|[(? & Hx & _)|(? & ? & ? & ? & _)]]; [done|by apply Hno in Hx|done].
Qed.

Lemma transform_owned (cur : str) (cts : N) (olds : list Attribution)
    (subst : list (nat * nat)) (ai : bool) (ds : list ByteDiff) (ms : list MoveMapping) :
  let cat := build_diff_catalog ds in
  is_attribution_list_sorted olds = true →
  Forall (mapping_ok cat.1 cat.2) ms →
  ∃ attrs, transform_attributions cur cts olds cat.2 subst ai ds ms = Some attrs ∧
    Forall (λ a, known cur cts olds (author_id a) (ts a)) attrs ∧
    ∀ p, ∃ w0 t0,
      known cur cts olds w0 t0 ∧
      (∀ idx base d, origin 0 0 0 ds p = Some (Inserted idx base d) →
         goes_to_current subst ai base d = true → w0 = cur ∧ t0 = cts) ∧
      ∀ w t, owned (merge_attributions attrs) p w t ↔
        (∃ q, origin 0 0 0 ds p = Some (Kept q) ∧ owned olds q w t) ∨
        (∃ i l m d q, deletion_to_move ms !! i = Some l ∧ m ∈ l ∧ cat.1 !! i = Some d ∧
           lands cat.2 m (del_start d) p q ∧ owned olds q w t) ∨
        (∃ idx base d, origin 0 0 0 ds p = Some (Inserted idx base d) ∧
           match move_ranges ms !! idx with
           | Some rs => w = cur ∧ t = cts ∧ ¬ in_ranges rs (p - base)
           | None => w = w0 ∧ t = t0
           end).
Proof.
  intros cat Hs%is_sorted_true%sorted_start Hms.
  destruct (transform_spec cur cts olds cat.2 subst ai ds ms Hs) as (attrs & Ht & Hk & Ho);
    [by apply mappings_fit|].
  exists attrs. split; [done|]. split; [done|]. intros p.
  destruct (Ho p) as (w0 & t0 & [Hw Hch] & Hp). exists w0, t0. split; [done|]. split; [done|].
  intros w t. rewrite merge_attributions_owned, Hp. unfold owner_of.
  cbn [old_pos new_pos insertion_idx deletion_idx].
  setoid_rewrite (moved_from_catalog _ _ _ _ 0). split.
  - intros [?|[(q & (i & l & m & d & _ & Hl & Hm & Hd & H) & Hq)|?]]; [by left| |by right; right].
    right. left. exists i, l, m, d, q. rewrite Nat.sub_0_r in Hd. by split_and!.
  - intros [?|[(i & l & m & d & q & Hl & Hm & Hd & H & Hq)|?]]; [by left| |by right; right].
    right. left. exists q. split; [|done]. exists i, l, m, d. rewrite Nat.sub_0_r. split_and!; done || lia.
Qed.

End TransformFacts.

(** ** Properties *)

Module TransformProps.
Import ImaraDiff Attribution AttributionFacts AttributionMerge AttributionMergeFacts
  Transform TransformFacts.

(** at an agent's checkpoint the transformation never panics, and after
    merging every byte the diff keeps belongs exactly to the authors and
    timestamps of the old byte it is (the two bytes are equal), every inserted
    byte belongs to the agent and the time of the checkpoint and to nobody
    else, and nothing is attributed outside the new text. *)
Theorem ai_checkpoint_ownership (cur : str) (cts : N) (olds : list Attribution)
    (insertions : list Insertion) (subst : list (nat * nat)) (ds : list ByteDiff) :
  is_attribution_list_sorted olds = true →
  ∃ attrs, transform_attributions cur cts olds insertions subst true ds [] = Some attrs ∧
    ∀ p, match origin 0 0 0 ds p with
         | Some (Kept q) =>
             new_text ds !! p = old_text ds !! q ∧
             ∀ w t, owned (merge_attributions attrs) p w t ↔ owned olds q w t
         | Some (Inserted _ _ _) =>
             ∀ w t, owned (merge_attributions attrs) p w t ↔ w = cur ∧ t = cts
         | None =>
             length (new_text ds) ≤ p ∧ ∀ w t, ¬ owned (merge_attributions attrs) p w t
         end.
Proof. apply ai_transform_owned. Qed.

(** at any checkpoint, with any moves that fit the catalogue, the
    transformation never panics and invents no author: every attribution has
    the checkpoint's author and time or those of an old attribution.  After
    merging a byte is owned in exactly these ways: kept with its old owners,
    moved with the owners of its source, or inserted.  An inserted
    byte outside moves has one owner, the current author when the insertion
    holds a line feed or meets a substantive range; an insertion with moves
    belongs to the current author outside the moved ranges. *)
Theorem checkpoint_ownership (cur : str) (cts : N) (olds : list Attribution)
    (subst : list (nat * nat)) (ai : bool) (ds : list ByteDiff) (ms : list MoveMapping) :
  let cat := build_diff_catalog ds in
  is_attribution_list_sorted olds = true →
  Forall (mapping_ok cat.1 cat.2) ms →
  ∃ attrs, transform_attributions cur cts olds cat.2 subst ai ds ms = Some attrs ∧
    Forall (λ a, known cur cts olds (author_id a) (ts a)) attrs ∧
    ∀ p, ∃ w0 t0,
      known cur cts olds w0 t0 ∧
      (∀ idx base d, origin 0 0 0 ds p = Some (Inserted idx base d) →
         goes_to_current subst ai base d = true → w0 = cur ∧ t0 = cts) ∧
      ∀ w t, owned (merge_attributions attrs) p w t ↔
        (∃ q, origin 0 0 0 ds p = Some (Kept q) ∧ owned olds q w t) ∨
        (∃ i l m d q, deletion_to_move ms !! i = Some l ∧ m ∈ l ∧ cat.1 !! i = Some d ∧
           lands cat.2 m (del_start d) p q ∧ owned olds q w t) ∨
        (∃ idx base d, origin 0 0 0 ds p = Some (Inserted idx base d) ∧
           match move_ranges ms !! idx with
           | Some rs => w = cur ∧ t = cts ∧ ¬ in_ranges rs (p - base)
           | None => w = w0 ∧ t = t0
           end).
Proof. apply transform_owned. Qed.

(** *** Witnesses *)

Definition sample_olds : list Attribution := [mkAttr 0 3 (lit "h_x") 1].
Definition sample_diffs : list ByteDiff :=
  [mkDiff Equal (lit "a"); mkDiff Delete (lit "bc"); mkDiff Equal (lit "d"); mkDiff Insert (lit "bc")].
Definition sample_move : MoveMapping := mkMove 0 0 (0, 2) (0, 2).

Lemma ai_checkpoint_ownership_witness :
  ∃ attrs, transform_attributions (lit "s_1") 5 sample_olds [] [] true sample_diffs [] = Some attrs ∧
    owned (merge_attributions attrs) 0 (lit "h_x") 1 ∧ owned (merge_attributions attrs) 2 (lit "s_1") 5.
Proof.
  destruct (ai_checkpoint_ownership (lit "s_1") 5 sample_olds [] [] sample_diffs eq_refl)
    as (attrs & Ht & H).
  exists attrs. split; [exact Ht|]. split.
  - specialize (H 0). destruct H as [_ H]. apply H.
    exists (mkAttr 0 3 (lit "h_x") 1). split; [left|]. split; [reflexivity|]. split; reflexivity.
  - specialize (H 2). apply H. split; reflexivity.
Defined.

Lemma checkpoint_ownership_witness :
  ∃ attrs,
    transform_attributions (lit "h_y") 5 sample_olds (build_diff_catalog sample_diffs).2 [] false
      sample_diffs [sample_move] = Some attrs ∧
    owned (merge_attributions attrs) 2 (lit "h_x") 1.
Proof.
  destruct (checkpoint_ownership (lit "h_y") 5 sample_olds [] false sample_diffs [sample_move] eq_refl)
    as (attrs & Ht & _ & H).
  { repeat constructor. exists (mkDeletion 1 3). split; [reflexivity|]. split; [eexists; reflexivity|].
    simpl. lia. }
  exists attrs. split; [exact Ht|]. destruct (H 2) as (w0 & t0 & _ & _ & Ho). apply Ho.
  right. left. exists 0, [sample_move], sample_move, (mkDeletion 1 3), 1.
  split; [reflexivity|]. split; [left|]. split; [reflexivity|]. split.
  - exists (mkInsertion 2 4). split; [reflexivity|]. simpl. lia.
  - exists (mkAttr 0 3 (lit "h_x") 1). split; [left|]. split; [reflexivity|]. split; reflexivity.
Defined.

End TransformProps.
