(* ===== verification/LineMeta.v ===== *)
(** * Lines and their byte ranges

    Models the line tables of src/src/authorship/attribution_tracker.rs:
    [LineMetadata], [LineBoundaries], the byte range of a range of lines and
    the rounding of offsets to character boundaries.  The reference is
    [line_offset], the number of bytes before a line. *)

From S2P Require Import Prelude Text ImaraDiff.

Module LineMeta.
Import ImaraDiff.

Record LineMetadata := mkLineMeta {
  number : nat; line_start : nat; line_end : nat; text : str
}.

(** The loop over [char_indices]: [idx] is the offset of [s] in [content]; a
    last line without line feed is pushed at the end. *)
Fixpoint collect_loop (content : str) (line_number start idx : nat) (s : str) : list LineMetadata :=
  match s with
  | [] =>
      if start <? idx
      then [mkLineMeta line_number start idx (strip_cr (slice start idx content))] else []
  | c :: s' =>
      if bool_decide (c = LF) then
        mkLineMeta line_number start (S idx) (strip_cr (slice start idx content)) ::
        collect_loop content (S line_number) (S idx) (S idx) s'
      else collect_loop content line_number start (S idx) s'
  end.

Definition collect_line_metadata (content : str) : list LineMetadata :=
  collect_loop content 1 0 0 content.

(** [LineBoundaries]: the vector of line ranges. *)
Fixpoint boundaries_loop (start idx : nat) (s : str) : list (nat * nat) :=
  match s with
  | [] => if start <? idx then [(start, idx)] else []
  | c :: s' =>
      if bool_decide (c = LF) then (start, S idx) :: boundaries_loop (S idx) (S idx) s'
      else boundaries_loop start (S idx) s'
  end.

Definition line_boundaries (content : str) : list (nat * nat) := boundaries_loop 0 0 content.

(** [len() as u32] truncates. *)
Definition line_count (boundaries : list (nat * nat)) : Z :=
  u32_wrap (Z.of_nat (length boundaries)).

Definition get_line_range (boundaries : list (nat * nat)) (line_num : Z) : option (nat * nat) :=
  if (line_num <? 1)%Z || (Z.of_nat (length boundaries) <? line_num)%Z then None
  else boundaries !! (Z.to_nat line_num - 1).

Definition line_range_to_byte_range (lines : list LineMetadata) (start_idx end_idx content_len : nat) :
    nat * nat :=
  if end_idx <=? start_idx then
    let pos := match lines !! start_idx with Some line => line_start line | None => content_len end in
    (pos, pos)
  else
    let s := match lines !! start_idx with Some line => line_start line | None => content_len end in
    let e := match lines !! (end_idx - 1) with Some line => line_end line | None => content_len end in
    (s, e).

(** [str::is_char_boundary]: the ends of the text, and every byte that is not
    a continuation byte. *)
Definition is_char_boundary (content : str) (i : nat) : bool :=
  (i =? 0) || (i =? length content) ||
  match content !! i with Some c => negb (is_continuation c) | None => false end.

Fixpoint floor_loop (content : str) (i : nat) : nat :=
  match i with
  | O => O
  | S i' => if is_char_boundary content i then i else floor_loop content i'
  end.

Definition floor_char_boundary (content : str) (idx : nat) : nat :=
  floor_loop content (Nat.min idx (length content)).

(** The loop ends at the length of the text at the latest: [fuel] is the
    distance to it. *)
Fixpoint ceil_loop (content : str) (fuel i : nat) : nat :=
  match fuel with
  | O => i
  | S f => if is_char_boundary content i then i else ceil_loop content f (S i)
  end.

Definition ceil_char_boundary (content : str) (idx : nat) : nat :=
  let i := Nat.min idx (length content) in ceil_loop content (length content - i) i.

(** ** Reference *)

Definition line_offset (content : str) (k : nat) : nat :=
  length (concat (take k (split_lines_with_terminators content))).

Abbreviation lines_of := split_lines_with_terminators.

End LineMeta.

Module LineMetaFacts.
Import ImaraDiff ImaraDiffFacts LineMeta.

Lemma line_offset_0 content : line_offset content 0 = 0.
Proof. done. Qed.

Lemma line_offset_S content k l :
  lines_of content !! k = Some l → line_offset content (S k) = line_offset content k + length l.
Proof.
  intros H. unfold line_offset. rewrite (take_S_r _ _ _ H), concat_app, length_app. simpl.
  by rewrite app_nil_r.
Qed.

Lemma line_offset_all content k :
  length (lines_of content) ≤ k → line_offset content k = length content.
Proof. intros. unfold line_offset. rewrite take_ge by done. by rewrite concat_split_lines. Qed.

Lemma line_offset_mono content i j : i ≤ j → line_offset content i ≤ line_offset content j.
Proof.
  intros H. unfold line_offset. rewrite <-(take_drop i (take j _)), take_take.
  rewrite Nat.min_l by done. rewrite concat_app, length_app. lia.
Qed.

Lemma line_offset_le content i : line_offset content i ≤ length content.
Proof.
  rewrite <-(line_offset_all content (i `max` length (lines_of content))) by lia.
  apply line_offset_mono. lia.
Qed.

Lemma line_offset_lt content i j :
  i < j → i < length (lines_of content) → line_offset content i < line_offset content j.
Proof.
  intros Hij Hi. destruct (lookup_lt_is_Some_2 _ _ Hi) as [l Hl].
  pose proof (line_offset_mono content (S i) j ltac:(lia)).
  rewrite (line_offset_S _ _ _ Hl) in H. destruct l; simpl in *; [|lia].
  exfalso. by apply (split_lines_nonempty content), list_elem_of_lookup_2 with i.
Qed.

Lemma take_slice_drop {A} (i j : nat) (l : list A) :
  i ≤ j → l = take i l ++ slice i j l ++ drop j l ∧ take j l = take i l ++ slice i j l.
Proof.
  intros Hij. assert (take j l = take i l ++ slice i j l) as E.
  { unfold slice. rewrite <-skipn_firstn_comm, <-(take_drop i (take j l)) at 1.
    by rewrite take_take, Nat.min_l by done. }
  split; [|done]. by rewrite app_assoc, <-E, take_drop.
Qed.

Lemma slice_line_offset content i j :
  i ≤ j →
  slice (line_offset content i) (line_offset content j) content = concat (slice i j (lines_of content)).
Proof.
  intros Hij. unfold line_offset. set (ls := lines_of content).
  destruct (take_slice_drop i j ls Hij) as [E1 E2].
  rewrite E2, concat_app, length_app.
  assert (content = concat (take i ls) ++ concat (slice i j ls) ++ concat (drop j ls)) as Ec
    by (rewrite <-!concat_app, <-E1; unfold ls; by rewrite concat_split_lines).
  unfold slice at 1. rewrite Nat.add_comm, Nat.add_sub. rewrite Ec at 1.
  by rewrite drop_app_length, take_app_length.
Qed.

(** The rest of a text after the part [pre] of its current line. *)
Lemma split_lines_line pre s :
  LF ∉ pre → lines_of (pre ++ LF :: s) = (pre ++ [LF]) :: lines_of s.
Proof.
  induction pre as [|c pre IH]; intros H; simpl; [done|].
  apply not_elem_of_cons in H as [Hc Hp]. rewrite bool_decide_false by done.
  by rewrite IH by done.
Qed.

Lemma split_lines_last pre : LF ∉ pre → pre ≠ [] → lines_of pre = [pre].
Proof.
  induction pre as [|c pre IH]; intros H Hne; simpl; [done|].
  apply not_elem_of_cons in H as [Hc Hp]. rewrite bool_decide_false by done.
  destruct pre as [|d pre]; [done|]. by rewrite IH by done.
Qed.

(** Both loops, after [done] whole lines and the part [pre] of the next one. *)
Lemma boundaries_loop_spec content whole pre s :
  LF ∉ pre → content = concat whole ++ pre ++ s →
  boundaries_loop (length (concat whole)) (length (concat whole) + length pre) s =
  imap (λ k l, (length (concat (take (length whole + k) (whole ++ lines_of (pre ++ s)))),
                length (concat (take (S (length whole + k)) (whole ++ lines_of (pre ++ s))))))
    (lines_of (pre ++ s)).
Proof.
  revert whole pre. induction s as [|c s IH]; intros whole pre Hp Hc; cbn [boundaries_loop].
  - rewrite app_nil_r. destruct pre as [|x pre]; [by rewrite (proj2 (Nat.ltb_ge _ _)) by (simpl; lia)|].
    rewrite (proj2 (Nat.ltb_lt _ _)) by (simpl; lia). rewrite split_lines_last by done.
    cbn [imap]. rewrite Nat.add_0_r, take_app_length.
    replace (S (length whole)) with (length whole + 1) by lia.
    rewrite take_app_add. simpl. by rewrite concat_app, length_app; simpl; rewrite app_nil_r.
  - destruct (decide (c = LF)) as [->|Hne];
      [rewrite bool_decide_true by done|rewrite bool_decide_false by done].
    + rewrite split_lines_line by done. cbn [imap]. f_equal.
      * f_equal; [by rewrite Nat.add_0_r, take_app_length|].
        replace (S (length whole + 0)) with (length whole + 1) by lia.
        rewrite take_app_add. simpl. rewrite concat_app, length_app. simpl.
        rewrite app_nil_r, length_app. simpl. lia.
      * specialize (IH (whole ++ [pre ++ [LF]]) [] ltac:(set_solver)).
        rewrite concat_app, length_app in IH. simpl in IH.
        rewrite app_nil_r, length_app, Nat.add_0_r in IH. simpl in IH.
        replace (S (length (concat whole) + length pre)) with (length (concat whole) + (length pre + 1)) by lia.
        rewrite IH by (rewrite Hc; by rewrite <-!app_assoc).
        apply imap_ext. intros k l _. simpl. rewrite length_app, <-app_assoc. simpl.
        by replace (length whole + S k) with (length whole + 1 + k) by lia.
    + replace (S (length (concat whole) + length pre)) with (length (concat whole) + length (pre ++ [c]))
        by (rewrite length_app; simpl; lia).
      rewrite IH; [by rewrite <-app_assoc|set_solver|by rewrite <-app_assoc].
Qed.

Lemma line_boundaries_spec content :
  line_boundaries content =
  imap (λ k _, (line_offset content k, line_offset content (S k))) (lines_of content).
Proof.
  unfold line_boundaries.
  pose proof (boundaries_loop_spec content [] [] content ltac:(set_solver) eq_refl) as H.
  exact H.
Qed.

Lemma collect_boundaries content n start idx s :
  map (λ m, (line_start m, line_end m)) (collect_loop content n start idx s) = boundaries_loop start idx s.
Proof.
  revert n start idx. induction s as [|c s IH]; intros n start idx; simpl; [by case_match|].
  case_bool_decide; simpl; by rewrite IH.
Qed.

Lemma collect_spec content k m :
  collect_line_metadata content !! k = Some m →
  k < length (lines_of content) ∧
  line_start m = line_offset content k ∧ line_end m = line_offset content (S k).
Proof.
  intros H. pose proof (collect_boundaries content 1 0 0 content) as E.
  fold (line_boundaries content) in E. rewrite line_boundaries_spec in E.
  apply (f_equal (λ l, l !! k)) in E.
  change (map (λ m, (line_start m, line_end m))) with
    (fmap (M:=list) (λ m, (line_start m, line_end m))) in E.
  unfold collect_line_metadata in H. rewrite list_lookup_fmap, H, list_lookup_imap in E. simpl in E.
  destruct (lines_of content !! k) as [l|] eqn:El; [|done].
  apply lookup_lt_Some in El. simpl in E. simplify_eq. auto.
Qed.

Lemma length_collect content : length (collect_line_metadata content) = length (lines_of content).
Proof.
  pose proof (collect_boundaries content 1 0 0 content) as E.
  fold (line_boundaries content) in E. rewrite line_boundaries_spec in E.
  apply (f_equal length) in E. by rewrite length_map, length_imap in E.
Qed.

Lemma collect_number content k m :
  collect_line_metadata content !! k = Some m → number m = S k.
Proof.
  unfold collect_line_metadata.
  assert (∀ s n start idx k m, collect_loop content n start idx s !! k = Some m → number m = n + k) as H.
  { clear. induction s as [|c s IH]; intros n start idx k m; simpl.
    - case_match; [|done]. destruct k; [|done]. intros [= <-]. simpl. lia.
    - case_bool_decide; [|apply IH]. destruct k; simpl; [intros [= <-]; simpl; lia|].
      intros Hm%IH. lia. }
  intros Hm%H. lia.
Qed.

(** The byte range of a range of lines. *)
Lemma line_range_to_byte_range_spec content a b :
  a ≤ b → b ≤ length (lines_of content) →
  line_range_to_byte_range (collect_line_metadata content) a b (length content) =
  (line_offset content a, line_offset content b).
Proof.
  intros Hab Hb. unfold line_range_to_byte_range.
  assert (∀ k, k ≤ length (lines_of content) →
    match collect_line_metadata content !! k with
    | Some line => line_start line | None => length content end = line_offset content k) as Hs.
  { intros k Hk. destruct (collect_line_metadata content !! k) as [m|] eqn:E.
    - by apply collect_spec in E as (_ & -> & _).
    - rewrite line_offset_all; [done|]. apply lookup_ge_None in E. by rewrite length_collect in E. }
  destruct (Nat.leb_spec b a).
  - assert (a = b) as -> by lia. by rewrite Hs.
  - rewrite Hs by lia. destruct (collect_line_metadata content !! (b - 1)) as [m|] eqn:E.
    + apply collect_spec in E as (_ & _ & ->). by replace (S (b - 1)) with b by lia.
    + apply lookup_ge_None in E. rewrite length_collect in E. lia.
Qed.

(** *** Character boundaries *)

(** An offset that cuts a text into two valid texts. *)
Definition boundary (content : str) (i : nat) : Prop :=
  i ≤ length content ∧ is_utf8 (take i content) = true ∧ is_utf8 (drop i content) = true.

Lemma chars_concat cs : forallb utf8_char cs = true → chars (concat cs) = cs.
Proof.
  intros H. pose proof (chars_concat_app cs [] H) as E. rewrite app_nil_r in E.
  rewrite E. by rewrite app_nil_r.
Qed.

Lemma is_utf8_concat cs : forallb utf8_char cs = true → is_utf8 (concat cs) = true.
Proof. intros H. unfold is_utf8. by rewrite chars_concat. Qed.

Lemma boundary_split content cs1 cs2 :
  content = concat cs1 ++ concat cs2 → forallb utf8_char cs1 = true → forallb utf8_char cs2 = true →
  boundary content (length (concat cs1)).
Proof.
  intros -> H1 H2. split; [rewrite length_app; lia|].
  rewrite take_app_length, drop_app_length. split; by apply is_utf8_concat.
Qed.

Lemma boundary_0 content : is_utf8 content = true → boundary content 0.
Proof. intros H. split; [lia|]. by rewrite take_0, drop_0. Qed.

Lemma boundary_end content : is_utf8 content = true → boundary content (length content).
Proof. intros H. split; [lia|]. by rewrite firstn_all, drop_all. Qed.

Lemma boundary_is_char_boundary content i : boundary content i → is_char_boundary content i = true.
Proof.
  intros (Hi & _ & Hd). unfold is_char_boundary.
  destruct (content !! i) as [c|] eqn:E.
  - rewrite (drop_S _ _ _ E) in Hd. unfold is_utf8 in Hd. rewrite chars_cons in Hd.
    simpl in Hd. apply andb_true_iff in Hd as [Hc _].
    pose proof (char_width_pos c). destruct (char_width c) as [|w]; [lia|]. simpl in Hc.
    destruct (is_continuation c); [done|]. by rewrite orb_true_r.
  - apply lookup_ge_None in E. rewrite (proj2 (Nat.eqb_eq i (length content))) by lia. by rewrite orb_true_r.
Qed.

(** In valid text, an offset after a line feed is a boundary. *)
Lemma boundary_after_lf content i :
  is_utf8 content = true → content !! i = Some LF → boundary content (S i).
Proof.
  intros Hu Hi. rewrite <-(concat_chars content) in Hi. unfold is_utf8 in Hu.
  assert (∀ cs1 cs2 j, forallb utf8_char cs1 = true → forallb utf8_char cs2 = true →
    concat cs2 !! j = Some LF → boundary (concat cs1 ++ concat cs2) (length (concat cs1) + S j)) as H.
  2:{ specialize (H [] (chars content) i eq_refl Hu Hi). simpl in H. by rewrite concat_chars in H. }
  intros cs1 cs2. revert cs1. induction cs2 as [|c cs2 IH]; intros cs1 j H1 H2 Hj; [done|].
  simpl in H2. apply andb_true_iff in H2 as [Hc H2]. simpl in Hj.
  destruct (decide (j < length c)) as [Hlt|Hge].
  - rewrite lookup_app_l in Hj by done.
    assert (c = [LF]) as ->.
    { destruct c as [|x rest]; [done|]. unfold utf8_char in Hc.
      apply andb_true_iff in Hc as [Hc Hrest]. apply andb_true_iff in Hc as [_ Hlen%Nat.eqb_eq].
      destruct j as [|j]; simpl in Hj.
      - simplify_eq. change (char_width LF) with 1 in Hlen. by destruct rest.
      - exfalso. apply list_elem_of_lookup_2 in Hj.
        assert (is_continuation LF = true); [|done].
        rewrite forallb_forall in Hrest. apply Hrest. by apply list_elem_of_In. }
    simpl in Hlt. replace j with 0 by lia.
    replace (length (concat cs1) + 1) with (length (concat (cs1 ++ [[LF]])))
      by (rewrite concat_app, length_app; done).
    apply (boundary_split _ _ cs2); [by rewrite concat_app, <-app_assoc| |done].
    rewrite forallb_app, H1. done.
  - rewrite lookup_app_r in Hj by lia.
    replace (length (concat cs1) + S j) with (length (concat (cs1 ++ [c])) + S (j - length c))
      by (rewrite concat_app, length_app; simpl; rewrite app_nil_r; lia).
    replace (concat cs1 ++ concat (c :: cs2)) with (concat (cs1 ++ [c]) ++ concat cs2)
      by (rewrite concat_app; simpl; by rewrite app_nil_r, <-app_assoc).
    apply IH; [|done|done]. rewrite forallb_app, H1. simpl. by rewrite Hc.
Qed.

(** Every line but the last ends with a line feed. *)
Lemma split_lines_ends s k l :
  lines_of s !! k = Some l → S k < length (lines_of s) → ∃ l', l = l' ++ [LF].
Proof.
  revert k l. induction s as [|c s IH]; intros k l; [done|]. simpl.
  destruct (decide (c = LF)) as [->|Hne];
    [rewrite bool_decide_true by done|rewrite bool_decide_false by done].
  - destruct k as [|k]; simpl; [intros [= <-] _; by exists []|]. intros H Hk. apply (IH k); [done|lia].
  - destruct (lines_of s) as [|l0 ls] eqn:E; simpl.
    { destruct k; [simpl; lia|done]. }
    destruct k as [|k]; simpl.
    + intros [= <-] Hk. destruct (IH 0 l0 eq_refl) as [l' ->]; [simpl; lia|]. by exists (c :: l').
    + intros H Hk. apply (IH (S k)); [done|simpl; lia].
Qed.

Lemma boundary_line_offset content k : is_utf8 content = true → boundary content (line_offset content k).
Proof.
  intros Hu. destruct (decide (length (lines_of content) ≤ k)).
  { rewrite line_offset_all by done. by apply boundary_end. }
  destruct k as [|k]; [by apply boundary_0|].
  destruct (lookup_lt_is_Some_2 (lines_of content) k ltac:(lia)) as [l Hl].
  destruct (split_lines_ends _ _ _ Hl ltac:(lia)) as [l' ->].
  rewrite (line_offset_S _ _ _ Hl), length_app. simpl.
  replace (line_offset content k + (length l' + 1)) with (S (line_offset content k + length l')) by lia.
  apply boundary_after_lf; [done|].
  pose proof (slice_line_offset content k (S k) ltac:(lia)) as Hs.
  assert (slice k (S k) (lines_of content) = [l' ++ [LF]]) as E.
  { unfold slice. rewrite (drop_S _ _ _ Hl). replace (S k - k) with 1 by lia. simpl. by rewrite take_0. }
  rewrite E in Hs. simpl in Hs. rewrite app_nil_r in Hs.
  rewrite (line_offset_S _ _ _ Hl), length_app in Hs. simpl in Hs.
  apply (f_equal (λ x, x !! length l')) in Hs. rewrite lookup_slice in Hs by lia.
  rewrite Hs. rewrite lookup_app_r by lia. by rewrite Nat.sub_diag.
Qed.

(** Between two boundaries the characters are those of the slice. *)
Lemma slice_utf8 content s e :
  s ≤ e → boundary content s → boundary content e → is_utf8 (slice s e content) = true.
Proof.
  intros Hse (Hs & Hsu & _) (He & Heu & _).
  destruct (take_slice_drop s e content Hse) as [_ E]. rewrite E in Heu.
  unfold is_utf8 in *. rewrite chars_app, forallb_app in Heu by done. by bool_hyps.
Qed.

(** A prefix of the characters between two boundaries ends at a boundary. *)
Lemma boundary_between content s e cs1 cs2 :
  s ≤ e → boundary content s → boundary content e → chars (slice s e content) = cs1 ++ cs2 →
  boundary content (s + length (concat cs1)).
Proof.
  intros Hse Hs He Hc. pose proof (slice_utf8 content s e Hse Hs He) as Hu.
  unfold is_utf8 in Hu. rewrite Hc, forallb_app in Hu. apply andb_true_iff in Hu as [H1 H2].
  destruct Hs as (Hsl & Hsu & _), He as (Hel & _ & Heu).
  assert (slice s e content = concat cs1 ++ concat cs2) as E
    by (rewrite <-concat_app, <-Hc; by rewrite concat_chars).
  destruct (take_slice_drop s e content Hse) as [Ec _]. rewrite E in Ec.
  assert (boundary content (length (concat (chars (take s content) ++ cs1)))) as Hb.
  { apply (boundary_split _ _ (cs2 ++ chars (drop e content))).
    - rewrite !concat_app, !concat_chars. rewrite Ec at 1. by rewrite <-!app_assoc.
    - rewrite forallb_app, H1, andb_true_r. done.
    - rewrite forallb_app, H2. done. }
  rewrite concat_app, concat_chars, length_app, length_take, Nat.min_l in Hb by done. done.
Qed.

End LineMetaFacts.
