(* ===== verification/Tokenizer.v ===== *)
(** * The tokenizer

    Models [tokenize_non_whitespace] and its helpers of
    src/src/authorship/attribution_tracker.rs.  The code walks the characters
    of [content[start..end]] by byte offsets; here the walk is over the list of
    those characters with the offset [i] of the next one, so [i < end] is "a
    character is left" and [content[i..].chars().next()] is the next one.  The
    Unicode tables behind [char::is_alphabetic] and [char::is_numeric] are
    parameters. *)

From S2P Require Import Prelude Text.

Module Tokenizer.

Record Token := mkToken { lexeme : str; tok_start : nat; tok_end : nat }.

(** ** Character classes *)

Definition in_chars (set : str) (ch : str) : bool :=
  match ch with [c] => contains_byte c set | _ => false end.

Definition is_operator_or_delimiter (ch : str) : bool :=
  in_chars (lit "+-*/%=<>!&|^~?@;,.:(){}[]") ch.

(** The pairs of [try_match_multi_char_op], as the two characters they match. *)
Definition multi_char_ops : list str :=
  [lit "=="; lit "!="; lit "<="; lit ">="; lit "&&"; lit "||"; lit "::"; lit "->"; lit "=>";
   lit ".."; lit "++"; lit "--"; lit "+="; lit "-="; lit "*="; lit "/="; lit "%="; lit "&=";
   lit "|="; lit "^="; lit "<<"; lit ">>"].

Definition try_match_multi_char_op (ch : str) (peek : option str) : option str :=
  match peek with
  | Some next => List.find (λ op, str_eqb op (ch ++ next)) multi_char_ops
  | None => None
  end.

Definition is_ascii_digit (ch : str) : bool := in_chars (lit "0123456789") ch.
Definition is_ascii_alphanumeric (ch : str) : bool :=
  is_ascii_digit ch ||
  in_chars (lit "abcdefghijklmnopqrstuvwxyzABCDEFGHIJKLMNOPQRSTUVWXYZ") ch.

Definition QUOTES : str := DQUOTE :: lit "'`".
Definition BACKSLASH : str := lit "\".

(** [while i < end] loops that push a character as long as it passes a test:
    the characters consumed and those left. *)
Fixpoint span (p : str → bool) (cs : list str) : list str * list str :=
  match cs with
  | [] => ([], [])
  | c :: cs' => if p c then let '(a, b) := span p cs' in (c :: a, b) else ([], cs)
  end.

(** The loop inside a string literal, up to and with the closing quote. *)
Fixpoint string_loop (quote_char : str) (escaped : bool) (cs : list str) : list str * list str :=
  match cs with
  | [] => ([], [])
  | c :: cs' =>
      if escaped then let '(a, b) := string_loop quote_char false cs' in (c :: a, b)
      else if str_eqb c BACKSLASH then
        let '(a, b) := string_loop quote_char true cs' in (c :: a, b)
      else if str_eqb c quote_char then ([c], cs')
      else let '(a, b) := string_loop quote_char false cs' in (c :: a, b)
  end.

(** The loop of a decimal number; an exponent needs a character after it and
    takes one sign. *)
Fixpoint number_loop (fuel : nat) (cs : list str) : list str * list str :=
  match fuel, cs with
  | S f, num_ch :: rest =>
      if is_ascii_digit num_ch || str_eqb num_ch (lit ".") || str_eqb num_ch (lit "_") then
        let '(a, b) := number_loop f rest in (num_ch :: a, b)
      else if str_eqb num_ch (lit "e") || str_eqb num_ch (lit "E") then
        match rest with
        | [] => ([], cs)
        | sign_ch :: rest' =>
            if str_eqb sign_ch (lit "+") || str_eqb sign_ch (lit "-")
            then let '(a, b) := number_loop f rest' in (num_ch :: sign_ch :: a, b)
            else let '(a, b) := number_loop f rest in (num_ch :: a, b)
        end
      else ([], cs)
  | _, _ => ([], cs)
  end.

Section Tokenize.
Variable is_alphabetic : str → bool.
Variable is_numeric : str → bool.

(** [char::is_alphanumeric] is documented as the union of both. *)
Definition is_alphanumeric (ch : str) : bool := is_alphabetic ch || is_numeric ch.

(** One token at a character that is not white space: the characters it takes
    and those left. *)
Definition next_token (ch : str) (rest : list str) : list str * list str :=
  match try_match_multi_char_op ch (head rest) with
  | Some _ => ([ch; default [] (head rest)], drop 1 rest)
  | None =>
      if in_chars QUOTES ch then
        let '(a, b) := string_loop ch false rest in (ch :: a, b)
      else if is_ascii_digit ch ||
              (str_eqb ch (lit ".") &&
               match rest with next :: _ => is_ascii_digit next | [] => false end) then
        match rest with
        | next_ch :: rest' =>
            if str_eqb ch (lit "0") && in_chars (lit "xXoObB") next_ch then
              let '(a, b) := span (λ c, is_ascii_alphanumeric c || str_eqb c (lit "_")) rest' in
              (ch :: next_ch :: a, b)
            else number_loop (S (length rest)) (ch :: rest)
        | [] => number_loop 1 [ch]
        end
      else if is_alphabetic ch || str_eqb ch (lit "_") then
        span (λ c, is_alphanumeric c || str_eqb c (lit "_")) (ch :: rest)
      else if is_operator_or_delimiter ch then ([ch], rest)
      else ([ch], rest)
  end.

(** The main loop; every turn takes at least one character. *)
Fixpoint tokenize_loop (fuel i : nat) (cs : list str) : list Token :=
  match fuel, cs with
  | S f, ch :: rest =>
      if is_whitespace ch then tokenize_loop f (i + length ch) rest
      else
        let '(tok, remaining) := next_token ch rest in
        let lexeme := concat tok in
        mkToken lexeme i (i + length lexeme) :: tokenize_loop f (i + length lexeme) remaining
  | _, _ => []
  end.

Definition tokenize_non_whitespace (content : str) (range : nat * nat) : list Token :=
  let '(s, e) := range in
  if e <=? s then []
  else let cs := chars (slice s e content) in tokenize_loop (length cs) s cs.
End Tokenize.

(** ** Reference: tokens and white space tile the characters *)

Inductive tokens_tile : nat → list str → list Token → Prop :=
  | tile_nil i cs : Forall (λ c, is_whitespace c = true) cs → tokens_tile i cs []
  | tile_cons i ws lex rest ts :
      Forall (λ c, is_whitespace c = true) ws → lex ≠ [] →
      head lex ≫= (λ c, if is_whitespace c then Some c else None) = None →
      tokens_tile (i + length (concat ws) + length (concat lex)) rest ts →
      tokens_tile i (ws ++ lex ++ rest)
        (mkToken (concat lex) (i + length (concat ws))
           (i + length (concat ws) + length (concat lex)) :: ts).

End Tokenizer.

Module TokenizerFacts.
Import Tokenizer.

Lemma span_app p cs : (span p cs).1 ++ (span p cs).2 = cs.
Proof.
  induction cs as [|c cs IH]; simpl; [done|]. destruct (p c); [|done].
  destruct (span p cs). simpl in *. by rewrite IH.
Qed.

Lemma string_loop_app q esc cs : (string_loop q esc cs).1 ++ (string_loop q esc cs).2 = cs.
Proof.
  revert esc. induction cs as [|c cs IH]; intros esc; simpl; [done|].
  pose proof (IH false) as Hf. pose proof (IH true) as Ht.
  destruct (string_loop q false cs), (string_loop q true cs). simpl in *.
  repeat case_match; simpl; by rewrite ?Hf, ?Ht.
Qed.

Lemma number_loop_app f cs : (number_loop f cs).1 ++ (number_loop f cs).2 = cs.
Proof.
  revert cs. induction f as [|f IH]; intros [|c rest]; simpl; try done.
  pose proof (IH rest) as Hr. destruct (number_loop f rest).
  case_match; simpl in *; [by rewrite Hr|]. case_match; [|done].
  destruct rest as [|s rest']; [done|]. pose proof (IH rest') as Hr'.
  destruct (number_loop f rest'). case_match; simpl in *; [by rewrite Hr'|by rewrite Hr].
Qed.

(** A number takes the character it starts with. *)
Lemma number_loop_first f c rest :
  is_ascii_digit c || str_eqb c (lit ".") = true → (number_loop (S f) (c :: rest)).1 ≠ [].
Proof. intros H. cbn [number_loop]. rewrite H. simpl. by destruct (number_loop f rest). Qed.

Section Tokenize.
Variable is_alphabetic : str → bool.
Variable is_numeric : str → bool.

Abbreviation next_token := (next_token is_alphabetic is_numeric).

Lemma try_match_some ch peek op : try_match_multi_char_op ch peek = Some op → ∃ next, peek = Some next.
Proof. destruct peek; [eauto|done]. Qed.

(** A token takes the character it starts at and a part of what follows. *)
Lemma next_token_app ch rest :
  ∃ a b, next_token ch rest = (ch :: a, b) ∧ a ++ b = rest.
Proof.
  unfold Tokenizer.next_token. destruct (try_match_multi_char_op ch (head rest)) as [o|] eqn:Em.
  { apply try_match_some in Em as [next Hn]. destruct rest as [|r rest]; [done|].
    exists [r], rest. simpl. by rewrite drop_0. }
  case_match.
  { pose proof (string_loop_app ch false rest). destruct (string_loop ch false rest) as [a b].
    by exists a, b. }
  assert (∀ a b, (a, b) = number_loop (S (length rest)) (ch :: rest) →
    is_ascii_digit ch || str_eqb ch (lit ".") = true → ∃ a', a = ch :: a' ∧ a' ++ b = rest) as Hnum.
  { intros a b E Hd. pose proof (number_loop_app (S (length rest)) (ch :: rest)) as Ha.
    pose proof (number_loop_first (length rest) ch rest Hd) as Hne. rewrite <-E in *. simpl in *.
    destruct a as [|x a]; [done|]. injection Ha as -> Ha. eauto. }
  destruct (is_ascii_digit ch || (str_eqb ch (lit ".") && _)) eqn:En.
  { assert (is_ascii_digit ch || str_eqb ch (lit ".") = true) as Hd.
    { apply orb_true_iff in En as [->|En]; [done|]. apply andb_true_iff in En as [En _]. by rewrite En, orb_true_r. }
    destruct rest as [|next rest'].
    - destruct (number_loop 1 [ch]) as [a b] eqn:E. destruct (Hnum a b) as (a' & -> & Ha); eauto.
    - case_match.
      + pose proof (span_app (λ c, is_ascii_alphanumeric c || str_eqb c (lit "_")) rest').
        destruct (span _ rest') as [a b]. exists (next :: a), b. simpl in *. by subst.
      + destruct (number_loop _ _) as [a b] eqn:E. destruct (Hnum a b) as (a' & -> & Ha); eauto. }
  destruct (is_alphabetic ch || str_eqb ch (lit "_")) eqn:Ei.
  { cbn [span]. assert (is_alphanumeric is_alphabetic is_numeric ch || str_eqb ch (lit "_") = true) as ->.
    { unfold is_alphanumeric. apply orb_true_iff in Ei as [->| ->]; [done|by rewrite orb_true_r]. }
    pose proof (span_app (λ c, is_alphanumeric is_alphabetic is_numeric c || str_eqb c (lit "_")) rest).
    destruct (span _ rest) as [a b]. by exists a, b. }
  exists [], rest. by destruct (is_operator_or_delimiter ch).
Qed.

(** The loop does not run out of fuel, and its tokens tile the characters. *)
Lemma tokenize_loop_tile f i cs :
  length cs ≤ f → tokens_tile i cs (tokenize_loop is_alphabetic is_numeric f i cs).
Proof.
  revert i cs. induction f as [|f IH]; intros i [|ch rest] Hf; simpl in *; try lia;
    [constructor; constructor..|].
  destruct (is_whitespace ch) eqn:Ew.
  - specialize (IH (i + length ch) rest ltac:(lia)).
    inversion IH as [? ? Hws|? ws lex rest' ts Hws Hl Hh Ht Hi Hr Ho].
    + constructor. by constructor.
    + change (ch :: ws ++ lex ++ rest') with ((ch :: ws) ++ lex ++ rest').
      assert (length (concat (ch :: ws)) = length ch + length (concat ws)) as E
        by (simpl; by rewrite length_app).
      replace (i + length ch + length (concat ws)) with (i + length (concat (ch :: ws))) in * by lia.
      constructor; [by constructor|done|done|done].
  - destruct (next_token_app ch rest) as (a & b & -> & <-).
    pose proof (tile_cons i [] (ch :: a) b
      (tokenize_loop is_alphabetic is_numeric f (i + length (concat (ch :: a))) b)) as H.
    simpl (concat []) in H. simpl (length []) in H. rewrite Nat.add_0_r in H. apply H.
    + constructor.
    + done.
    + simpl. by rewrite Ew.
    + apply IH. rewrite length_app in Hf. lia.
Qed.
End Tokenize.

(** *** What a tiling says about the bytes *)

Abbreviation bytes := (λ cs : list str, concat cs).

(** Every token is the slice of the text it names, tokens are in order and
    not empty, and they stay inside the range. *)
Fixpoint tokens_in (lo hi : nat) (ts : list Token) : Prop :=
  match ts with
  | [] => lo ≤ hi
  | t :: ts' => lo ≤ tok_start t ∧ tok_start t ≤ tok_end t ∧ tok_end t ≤ hi ∧ tokens_in (tok_end t) hi ts'
  end.

Lemma tokens_tile_in i cs ts : tokens_tile i cs ts → tokens_in i (i + length (concat cs)) ts.
Proof.
  induction 1 as [i cs|i ws lex rest ts Hws Hl Hh Ht IH]; simpl; [lia|].
  rewrite !concat_app, !length_app.
  replace (i + (length (concat ws) + (length (concat lex) + length (concat rest))))
    with (i + length (concat ws) + length (concat lex) + length (concat rest)) by lia.
  split_and!; done || lia.
Qed.

Lemma tokens_tile_slice i cs ts content t :
  tokens_tile i cs ts → slice i (i + length (concat cs)) content = concat cs →
  t ∈ ts → slice (tok_start t) (tok_end t) content = lexeme t.
Proof.
  intros H. revert t. induction H as [i cs|i ws lex rest ts Hws Hl Hh Ht IH]; intros t Hs Hin.
  { by apply not_elem_of_nil in Hin. }
  rewrite !concat_app, !length_app in Hs.
  assert (∀ n m, n ≤ m → m ≤ length (concat ws) + (length (concat lex) + length (concat rest)) →
    slice (i + n) (i + m) content = slice n m (concat ws ++ concat lex ++ concat rest)) as Hsub.
  { intros n m Hn Hm. rewrite <-(slice_full (_ ++ _)) in Hs. rewrite !length_app in Hs.
    pose proof (slice_sub _ _ _ _ n m _ _ Hs ltac:(lia) Hn ltac:(lia)) as H. exact H. }
  apply elem_of_cons in Hin as [->|Hin].
  - simpl. rewrite <-Nat.add_assoc, Hsub by lia. unfold slice.
    rewrite drop_app_length. replace (length (concat ws) + length (concat lex) - length (concat ws))
      with (length (concat lex)) by lia. by rewrite take_app_length.
  - apply IH; [|done]. rewrite <-!Nat.add_assoc.
    rewrite Hsub by lia. unfold slice.
    replace (length (concat ws) + (length (concat lex) + length (concat rest)) - (length (concat ws) + length (concat lex)))
      with (length (concat rest)) by lia.
    rewrite app_assoc, <-(length_app (concat ws)), drop_app_length. by apply take_ge.
Qed.

End TokenizerFacts.

(** ** Properties *)

Module TokenizerProps.
Import Tokenizer TokenizerFacts.

(** the tokenizer always ends, whatever the Unicode tables say, and its
    tokens and the white space between them tile the range: every character
    that is not white space is inside exactly one token, tokens are in order,
    not empty and inside the range, and each lexeme is the slice of the text
    its offsets name. *)
Theorem tokens_tile_range (is_alphabetic is_numeric : str → bool) (content : str) (s e : nat) :
  s ≤ e → e ≤ length content →
  let ts := tokenize_non_whitespace is_alphabetic is_numeric content (s, e) in
  tokens_tile s (chars (slice s e content)) ts ∧ tokens_in s e ts ∧
  ∀ t, t ∈ ts → slice (tok_start t) (tok_end t) content = lexeme t.
Proof.
  intros Hse He ts.
  assert (tokens_tile s (chars (slice s e content)) ts) as Ht.
  { unfold ts, tokenize_non_whitespace. destruct (Nat.leb_spec e s).
    - rewrite slice_empty by lia. constructor. constructor.
    - by apply tokenize_loop_tile. }
  assert (s + length (concat (chars (slice s e content))) = e) as El.
  { rewrite concat_chars, length_slice by lia. lia. }
  split; [done|]. split.
  - rewrite <-El. by apply tokens_tile_in.
  - intros t. eapply tokens_tile_slice; [exact Ht|]. rewrite El. by rewrite concat_chars.
Qed.

Lemma tokens_tile_range_witness :
  tokens_in 2 12 (tokenize_non_whitespace (λ _, false) (λ _, false) (lit "x 0x1F == 'y' ") (2, 12)).
Proof.
  apply (tokens_tile_range (λ _, false) (λ _, false) (lit "x 0x1F == 'y' ") 2 12); [lia|].
  vm_compute. lia.
Defined.

End TokenizerProps.
