(* ===== verification/DiffCompute.v ===== *)
(** * From two texts to a byte diff

    Models the first phase of [AttributionTracker] in
    src/src/authorship/attribution_tracker.rs: the line diff, the hunks of
    changed lines, the token-aligned diff inside a hunk, and the byte diff they
    produce.  A slice whose bounds are out of order, out of range or, for a
    [str], not on character boundaries is [Panic]; the error of
    [push_equal_lines] is [Fail]. *)

From S2P Require Import Prelude Text ImaraDiff Attribution AttributionMerge Transform LineMeta Tokenizer.

Module DiffCompute.
Import ImaraDiff AttributionMerge Transform LineMeta Tokenizer.

(** [GitAiError::Generic]. *)
Abbreviation result := (outcome str).

(** ** Slices *)

(** [&content.as_bytes()[a..b]] and [&content[a..b]]. *)
Definition byte_slice (content : str) (a b : nat) : result str :=
  if (a <=? b) && (b <=? length content) then Ret (slice a b content) else Panic.

Definition str_slice (content : str) (a b : nat) : result str :=
  if (a <=? b) && (b <=? length content) &&
     is_char_boundary content a && is_char_boundary content b
  then Ret (slice a b content) else Panic.

Definition index_or_panic {A : Type} (l : list A) (i : nat) : result A :=
  match l !! i with Some a => Ret a | None => Panic end.

Definition nonempty_diff (o : ByteDiffOp) (d : str) : list ByteDiff :=
  match d with [] => [] | _ => [mkDiff o d] end.

Definition append_range_diffs (diffs : list ByteDiff) (old_content new_content : str)
    (old_range new_range : nat * nat) (force_split : bool) : result (list ByteDiff) :=
  let '(old_start, old_end) := old_range in
  let '(new_start, new_end) := new_range in
  if (old_end <=? old_start) && (new_end <=? new_start) then Ret diffs
  else
    let? old_slice := str_slice old_content old_start old_end in
    let? new_slice := str_slice new_content new_start new_end in
    if negb force_split && bool_decide (old_slice ≠ []) && bool_decide (new_slice ≠ []) &&
       str_eqb old_slice new_slice
    then Ret (diffs ++ [mkDiff Equal new_slice])
    else Ret (diffs ++ nonempty_diff Delete old_slice ++ nonempty_diff Insert new_slice).

(** ** Token-aligned diffs *)

Record TokenState := mkTokenState {
  tok_diffs : list ByteDiff;
  substantive_ranges : list (nat * nat);
  old_cursor : nat;
  new_cursor : nat;
  last_was_change : bool
}.

Section Compute.
Context `{!DiffEngine}.
Variable is_alphabetic : str → bool.
Variable is_numeric : str → bool.

Section TokenDiff.
Variable old_content new_content : str.
Variable old_tokens new_tokens : list Token.

(** One pair of equal tokens. *)
Definition equal_token (old_index new_index : nat) (acc : result TokenState) (i : nat) : result TokenState :=
  let? st := acc in
  let? old_token := index_or_panic old_tokens (old_index + i) in
  let? new_token := index_or_panic new_tokens (new_index + i) in
  let? diffs := append_range_diffs (tok_diffs st) old_content new_content
      (old_cursor st, tok_start old_token) (new_cursor st, tok_start new_token)
      (last_was_change st) in
  let? d := byte_slice new_content (tok_start new_token) (tok_end new_token) in
  Ret (mkTokenState (diffs ++ [mkDiff Equal d]) (substantive_ranges st)
         (tok_end old_token) (tok_end new_token) false).

Definition token_op (st : TokenState) (o : DiffOp) : result TokenState :=
  match o with
  | OpEqual old_index new_index len =>
      foldl (equal_token old_index new_index) (Ret st) (seq 0 len)
  | OpDelete old_index old_len _ =>
      if old_len =? 0 then Ret st
      else
        let? first := index_or_panic old_tokens old_index in
        let? final := index_or_panic old_tokens (old_index + old_len - 1) in
        let? diffs := append_range_diffs (tok_diffs st) old_content new_content
            (old_cursor st, tok_start first) (new_cursor st, new_cursor st) (last_was_change st) in
        let? d := byte_slice old_content (tok_start first) (tok_end final) in
        Ret (mkTokenState (diffs ++ [mkDiff Delete d]) (substantive_ranges st)
               (tok_end final) (new_cursor st) true)
  | OpInsert _ new_index new_len =>
      if new_len =? 0 then Ret st
      else
        let? first := index_or_panic new_tokens new_index in
        let? final := index_or_panic new_tokens (new_index + new_len - 1) in
        let? diffs := append_range_diffs (tok_diffs st) old_content new_content
            (old_cursor st, old_cursor st) (new_cursor st, tok_start first) (last_was_change st) in
        let? d := byte_slice new_content (tok_start first) (tok_end final) in
        Ret (mkTokenState (diffs ++ [mkDiff Insert d])
               (substantive_ranges st ++ [(tok_start first, tok_end final)])
               (old_cursor st) (tok_end final) true)
  | OpReplace old_index old_len new_index new_len =>
      let old_start_pos :=
        match old_tokens !! old_index with Some t => tok_start t | None => old_cursor st end in
      let new_start_pos :=
        match new_tokens !! new_index with Some t => tok_start t | None => new_cursor st end in
      let? diffs := append_range_diffs (tok_diffs st) old_content new_content
          (old_cursor st, old_start_pos) (new_cursor st, new_start_pos) (last_was_change st) in
      let? (diffs', old_cursor') :=
        if 0 <? old_len then
          let? final := index_or_panic old_tokens (old_index + old_len - 1) in
          let? d := byte_slice old_content old_start_pos (tok_end final) in
          Ret (diffs ++ [mkDiff Delete d], tok_end final)
        else Ret (diffs, old_start_pos) in
      if 0 <? new_len then
        let? final := index_or_panic new_tokens (new_index + new_len - 1) in
        let? d := byte_slice new_content new_start_pos (tok_end final) in
        Ret (mkTokenState (diffs' ++ [mkDiff Insert d])
               (substantive_ranges st ++ [(new_start_pos, tok_end final)])
               old_cursor' (tok_end final) true)
      else Ret (mkTokenState diffs' (substantive_ranges st) old_cursor' new_start_pos true)
  end.

Fixpoint token_ops (st : TokenState) (ops : list DiffOp) : result TokenState :=
  match ops with
  | [] => Ret st
  | o :: ops' => let? st' := token_op st o in token_ops st' ops'
  end.
End TokenDiff.

Definition build_token_aligned_diffs (old_content new_content : str)
    (old_range new_range : nat * nat) : result (list ByteDiff * list (nat * nat)) :=
  let '(old_start, old_end) := old_range in
  let '(new_start, new_end) := new_range in
  let old_tokens := tokenize_non_whitespace is_alphabetic is_numeric old_content old_range in
  let new_tokens := tokenize_non_whitespace is_alphabetic is_numeric new_content new_range in
  match old_tokens, new_tokens with
  | [], [] =>
      let? diffs := append_range_diffs [] old_content new_content old_range new_range false in
      Ret (diffs, [])
  | _, _ =>
      let ops := capture_diff_slices (map lexeme old_tokens) (map lexeme new_tokens) in
      let? st := token_ops old_content new_content old_tokens new_tokens
          (mkTokenState [] [] old_start new_start false) ops in
      let? diffs := append_range_diffs (tok_diffs st) old_content new_content
          (old_cursor st, old_end) (new_cursor st, new_end) (last_was_change st) in
      Ret (diffs, substantive_ranges st)
  end.

(** ** Hunks of changed lines *)

Definition line_span_for_op (o : DiffOp) (for_old : bool) : nat * nat :=
  match o, for_old with
  | OpEqual old_index _ len, true => (old_index, old_index + len)
  | OpEqual _ new_index len, false => (new_index, new_index + len)
  | OpDelete old_index old_len _, true => (old_index, old_index + old_len)
  | OpDelete _ _ new_index, false => (new_index, new_index)
  | OpInsert old_index _ _, true => (old_index, old_index)
  | OpInsert _ new_index new_len, false => (new_index, new_index + new_len)
  | OpReplace old_index old_len _ _, true => (old_index, old_index + old_len)
  | OpReplace _ _ new_index new_len, false => (new_index, new_index + new_len)
  end.

(** [usize::MAX], which no span starts at, is [None]. *)
Definition widen (for_old : bool) (acc : option nat * nat) (o : DiffOp) : option nat * nat :=
  let '(s, e) := line_span_for_op o for_old in
  (Some (match acc.1 with Some x => Nat.min x s | None => s end), Nat.max acc.2 e).

Definition hunk_line_bounds (ops : list DiffOp) (for_old : bool) : nat * nat :=
  match foldl (widen for_old) (None, 0) ops with
  | (None, _) => (0, 0)
  | (Some s, e) => (s, e)
  end.

Definition TOKEN_DIFF_FAST_PATH_MIN_BYTES : Z := 32768.
Definition TOKEN_DIFF_FAST_PATH_MIN_LINES : Z := 256.
Definition TOKEN_DIFF_FAST_PATH_HUGE_BYTES : Z := 262144.
Definition TOKEN_DIFF_FAST_PATH_MAX_OPS : nat := 8.

Definition should_use_line_aligned_hunk_diff (ops : list DiffOp)
    (changed_old_lines changed_new_lines changed_old_bytes changed_new_bytes : nat) : bool :=
  if bool_decide (ops = []) || (TOKEN_DIFF_FAST_PATH_MAX_OPS <? length ops) then false
  else
    let changed_lines := Z.of_nat (Nat.max changed_old_lines changed_new_lines) in
    let changed_bytes := Z.of_nat (Nat.max changed_old_bytes changed_new_bytes) in
    ((TOKEN_DIFF_FAST_PATH_HUGE_BYTES <=? changed_bytes) ||
     ((TOKEN_DIFF_FAST_PATH_MIN_BYTES <=? changed_bytes) &&
      (TOKEN_DIFF_FAST_PATH_MIN_LINES <=? changed_lines)))%Z.

Record DiffComputation := mkComputation {
  diffs : list ByteDiff;
  substantive_new_ranges : list (nat * nat)
}.

Section Hunks.
Variable old_lines new_lines : list LineMetadata.
Variable old_content new_content : str.
Variable is_ai_checkpoint : bool.

Definition push_equal_lines (o : DiffOp) (c : DiffComputation) : result DiffComputation :=
  match o with
  | OpEqual old_index _ len =>
      if len =? 0 then Ret c
      else
        let '(s, e) := line_range_to_byte_range old_lines old_index (old_index + len)
                         (length old_content) in
        if s <? e then
          let? d := byte_slice old_content s e in
          Ret (mkComputation (diffs c ++ [mkDiff Equal d]) (substantive_new_ranges c))
        else Ret c
  | _ => Fail (lit "Expected equal operation in push_equal_lines")
  end.

Definition process_changed_hunk (ops : list DiffOp) (c : DiffComputation) : result DiffComputation :=
  match ops with
  | [] => Ret c
  | _ =>
      let '(old_start_line, old_end_line) := hunk_line_bounds ops true in
      let '(new_start_line, new_end_line) := hunk_line_bounds ops false in
      let '(old_start, old_end) :=
        line_range_to_byte_range old_lines old_start_line old_end_line (length old_content) in
      let '(new_start, new_end) :=
        line_range_to_byte_range new_lines new_start_line new_end_line (length new_content) in
      if is_ai_checkpoint then
        let? ds := append_range_diffs (diffs c) old_content new_content
            (old_start, old_end) (new_start, new_end) true in
        Ret (mkComputation ds (substantive_new_ranges c))
      else if should_use_line_aligned_hunk_diff ops (old_end_line - old_start_line)
                (new_end_line - new_start_line) (old_end - old_start) (new_end - new_start) then
        let? ds := append_range_diffs (diffs c) old_content new_content
            (old_start, old_end) (new_start, new_end) true in
        let? substantive :=
          if new_start <? new_end then
            let? d := byte_slice new_content new_start new_end in Ret (negb (data_is_whitespace d))
          else Ret false in
        Ret (mkComputation ds
               (if substantive : bool then substantive_new_ranges c ++ [(new_start, new_end)]
                else substantive_new_ranges c))
      else
        let? (hunk_diffs, ranges) := build_token_aligned_diffs old_content new_content
            (old_start, old_end) (new_start, new_end) in
        Ret (mkComputation (diffs c ++ hunk_diffs) (substantive_new_ranges c ++ ranges))
  end.

(** The loop over the line operations, with the changes that are pending. *)
Fixpoint line_ops (c : DiffComputation) (pending_changed : list DiffOp) (ops : list DiffOp) :
    result DiffComputation :=
  match ops with
  | [] => process_changed_hunk pending_changed c
  | OpEqual _ _ _ as o :: ops' =>
      let? c' := process_changed_hunk pending_changed c in
      let? c'' := push_equal_lines o c' in
      line_ops c'' [] ops'
  | o :: ops' => line_ops c (pending_changed ++ [o]) ops'
  end.
End Hunks.

Fixpoint slices_of_lines (content : str) (lines : list LineMetadata) : result (list str) :=
  match lines with
  | [] => Ret []
  | line :: lines' =>
      let? s := str_slice content (line_start line) (line_end line) in
      let? ss := slices_of_lines content lines' in
      Ret (s :: ss)
  end.

Definition compute_diffs (old_content new_content : str) (is_ai_checkpoint : bool) :
    result DiffComputation :=
  let old_lines := collect_line_metadata old_content in
  let new_lines := collect_line_metadata new_content in
  let? old_line_slices := slices_of_lines old_content old_lines in
  let? new_line_slices := slices_of_lines new_content new_lines in
  let ops := capture_diff_slices old_line_slices new_line_slices in
  let? c := line_ops old_lines new_lines old_content new_content is_ai_checkpoint
      (mkComputation [] []) [] ops in
  Ret (mkComputation (diffs c) (merge_ranges (substantive_new_ranges c))).

End Compute.
End DiffCompute.

(** ** Lemmas *)

Module DiffComputeFacts.
Import ImaraDiff ImaraDiffFacts AttributionMerge AttributionMergeFacts Transform TransformFacts LineMeta LineMetaFacts
  Tokenizer TokenizerFacts DiffCompute.

Lemma byte_slice_ret content a b :
  a ≤ b → b ≤ length content → byte_slice content a b = Ret (slice a b content).
Proof. intros. unfold byte_slice. by rewrite !(proj2 (Nat.leb_le _ _)) by done. Qed.

Lemma str_slice_ret content a b :
  a ≤ b → boundary content a → boundary content b → str_slice content a b = Ret (slice a b content).
Proof.
  intros Hab Ha Hb. unfold str_slice.
  rewrite !boundary_is_char_boundary by done. destruct Ha as [Ha _], Hb as [Hb _].
  by rewrite !(proj2 (Nat.leb_le _ _)) by done.
Qed.

Lemma old_text_app a b : old_text (a ++ b) = old_text a ++ old_text b.
Proof. apply flat_map_app. Qed.
Lemma new_text_app a b : new_text (a ++ b) = new_text a ++ new_text b.
Proof. apply flat_map_app. Qed.

Section Build.
Variable old_content new_content : str.

(** [ds] is a diff of the old text from [os] to [a] and the new from [ns] to [b]. *)
Definition diff_upto (os ns : nat) (ds : list ByteDiff) (a b : nat) : Prop :=
  os ≤ a ∧ ns ≤ b ∧ boundary old_content a ∧ boundary new_content b ∧
  old_text ds = slice os a old_content ∧ new_text ds = slice ns b new_content.

Lemma diff_upto_app os ns ds a b ds' a' b' :
  diff_upto os ns ds a b → a ≤ a' → b ≤ b' → boundary old_content a' → boundary new_content b' →
  old_text ds' = slice a a' old_content → new_text ds' = slice b b' new_content →
  diff_upto os ns (ds ++ ds') a' b'.
Proof.
  intros (H1 & H2 & _ & _ & Ho & Hn) Ha Hb Hba Hbb Ho' Hn'. split_and!; try done; try lia.
  - rewrite old_text_app, Ho, Ho'. by apply slice_app.
  - rewrite new_text_app, Hn, Hn'. by apply slice_app.
Qed.

Lemma nonempty_diff_text d :
  old_text (nonempty_diff Delete d) = d ∧ new_text (nonempty_diff Delete d) = [] ∧
  old_text (nonempty_diff Insert d) = [] ∧ new_text (nonempty_diff Insert d) = d.
Proof. unfold old_text, new_text. destruct d; simpl; by rewrite ?app_nil_r. Qed.

Lemma append_range_spec os ns ds a b a' b' force :
  diff_upto os ns ds a b → a ≤ a' → b ≤ b' → boundary old_content a' → boundary new_content b' →
  ∃ ds', append_range_diffs ds old_content new_content (a, a') (b, b') force = Ret ds' ∧
    diff_upto os ns ds' a' b'.
Proof.
  intros Hd Ha Hb Hba Hbb. unfold append_range_diffs.
  destruct ((a' <=? a) && (b' <=? b)) eqn:E.
  { bool_hyps. replace a' with a by lia. replace b' with b by lia. eauto. }
  pose proof Hd as (_ & _ & Hba0 & Hbb0 & _). rewrite !str_slice_ret by done. cbn [obind].
  destruct (_ && str_eqb _ _) eqn:E'.
  - apply andb_true_iff in E' as [_ Eq%str_eqb_eq]. eexists. split; [done|].
    apply (diff_upto_app _ _ _ a b); try done; unfold old_text, new_text; simpl; by rewrite app_nil_r.
  - eexists. split; [done|]. apply (diff_upto_app _ _ _ a b); try done;
      rewrite ?old_text_app, ?new_text_app.
    + destruct (nonempty_diff_text (slice a a' old_content)) as (-> & _ & _ & _).
      destruct (nonempty_diff_text (slice b b' new_content)) as (_ & _ & -> & _). apply app_nil_r.
    + destruct (nonempty_diff_text (slice a a' old_content)) as (_ & -> & _ & _).
      by destruct (nonempty_diff_text (slice b b' new_content)) as (_ & _ & _ & ->).
Qed.

Lemma append_delete os ns ds a b a' :
  diff_upto os ns ds a b → a ≤ a' → boundary old_content a' →
  diff_upto os ns (ds ++ [mkDiff Delete (slice a a' old_content)]) a' b.
Proof.
  intros Hd Ha Hba. pose proof Hd as (_ & _ & _ & Hbb & _).
  apply (diff_upto_app _ _ _ a b); try done; unfold old_text, new_text; simpl;
    by rewrite ?app_nil_r, ?slice_nil.
Qed.

Lemma append_insert os ns ds a b b' :
  diff_upto os ns ds a b → b ≤ b' → boundary new_content b' →
  diff_upto os ns (ds ++ [mkDiff Insert (slice b b' new_content)]) a b'.
Proof.
  intros Hd Hb Hbb. pose proof Hd as (_ & _ & Hba & _).
  apply (diff_upto_app _ _ _ a b); try done; unfold old_text, new_text; simpl;
    by rewrite ?app_nil_r, ?slice_nil.
Qed.

Lemma append_equal os ns ds a b a' b' :
  diff_upto os ns ds a b → a ≤ a' → b ≤ b' → boundary old_content a' → boundary new_content b' →
  slice a a' old_content = slice b b' new_content →
  diff_upto os ns (ds ++ [mkDiff Equal (slice b b' new_content)]) a' b'.
Proof.
  intros Hd Ha Hb Hba Hbb E. apply (diff_upto_app _ _ _ a b); try done;
    unfold old_text, new_text; simpl; by rewrite ?app_nil_r.
Qed.
End Build.

(** *** Cursors between tokens *)

(** The offset before token [i]: the end of the token before it. *)
Definition cursor_at (lo : nat) (ts : list Token) (i : nat) : nat :=
  match i with
  | O => lo
  | S k => match ts !! k with Some t => tok_end t | None => lo end
  end.

Lemma tokens_in_lookup lo hi ts i t :
  tokens_in lo hi ts → ts !! i = Some t →
  cursor_at lo ts i ≤ tok_start t ∧ tok_start t ≤ tok_end t ∧ tok_end t ≤ hi ∧
  cursor_at lo ts (S i) = tok_end t.
Proof.
  intros H Hi. cut (cursor_at lo ts i ≤ tok_start t ∧ tok_start t ≤ tok_end t ∧ tok_end t ≤ hi).
  { intros (? & ? & ?). split_and!; try done. simpl. by rewrite Hi. }
  revert lo i H Hi. induction ts as [|x ts IH]; intros lo i H Hi; [done|].
  destruct H as (H1 & H2 & H3 & H4). destruct i as [|i].
  - injection Hi as <-. simpl. lia.
  - simpl in Hi. destruct (IH (tok_end x) i H4 Hi) as (? & ? & ?). split_and!; try done.
    simpl. destruct i as [|i]; simpl in *; [done|].
    destruct (ts !! i) eqn:E; [done|]. apply lookup_ge_None in E. apply lookup_lt_Some in Hi. lia.
Qed.

Lemma cursor_at_mono lo hi ts i j :
  tokens_in lo hi ts → i ≤ j → j ≤ length ts → cursor_at lo ts i ≤ cursor_at lo ts j.
Proof.
  intros H Hij Hj. induction Hij as [|j Hij IH]; [done|].
  destruct (lookup_lt_is_Some_2 ts j ltac:(lia)) as [t Ht].
  destruct (tokens_in_lookup _ _ _ _ _ H Ht) as (? & ? & ? & ->). specialize (IH ltac:(lia)). lia.
Qed.

Lemma cursor_at_le lo hi ts i : tokens_in lo hi ts → i ≤ length ts → lo ≤ cursor_at lo ts i ≤ hi.
Proof.
  intros H Hi. split; [apply (cursor_at_mono lo hi ts 0 i H); lia|].
  destruct i as [|i]; [|destruct (lookup_lt_is_Some_2 ts i ltac:(lia)) as [t Ht];
    by destruct (tokens_in_lookup _ _ _ _ _ H Ht) as (? & ? & ? & ->)].
  simpl. clear Hi. revert lo H. induction ts as [|x ts IH]; intros lo; simpl; [done|].
  intros (? & ? & ? & ?). lia.
Qed.

(** Token bounds cut the characters of the range. *)
Lemma tokens_tile_cut i cs ts t :
  tokens_tile i cs ts → t ∈ ts →
  (∃ p q, cs = p ++ q ∧ tok_start t = i + length (concat p)) ∧
  (∃ p q, cs = p ++ q ∧ tok_end t = i + length (concat p)).
Proof.
  induction 1 as [i cs|i ws lex rest ts Hws Hl Hh Ht IH]; intros Hin; [by apply not_elem_of_nil in Hin|].
  apply elem_of_cons in Hin as [->|Hin].
  - split; [by exists ws, (lex ++ rest)|]. exists (ws ++ lex), rest.
    rewrite <-app_assoc, concat_app, length_app. simpl. split; [done|lia].
  - destruct (IH Hin) as [(p & q & -> & Ep) (p' & q' & Eq & Ep')].
    split; [exists (ws ++ lex ++ p), q|exists (ws ++ lex ++ p'), q']; rewrite <-!app_assoc;
      (split; [congruence|]); rewrite !concat_app, !length_app; lia.
Qed.

(** What the tokens of a range provide. *)
Record token_range (content : str) (lo hi : nat) (ts : list Token) : Prop := {
  range_in : tokens_in lo hi ts;
  range_bound : ∀ t, t ∈ ts → boundary content (tok_start t) ∧ boundary content (tok_end t);
  range_lexeme : ∀ t, t ∈ ts → slice (tok_start t) (tok_end t) content = lexeme t;
  range_lo : boundary content lo;
  range_hi : boundary content hi
}.

Lemma tokenize_range al num content lo hi :
  lo ≤ hi → boundary content lo → boundary content hi →
  token_range content lo hi (tokenize_non_whitespace al num content (lo, hi)).
Proof.
  intros Hle Hlo Hhi. pose proof Hhi as [Hlen _].
  assert (tokens_tile lo (chars (slice lo hi content))
    (tokenize_non_whitespace al num content (lo, hi))) as Ht.
  { unfold tokenize_non_whitespace. destruct (Nat.leb_spec hi lo).
    - rewrite slice_empty by lia. constructor. constructor.
    - by apply tokenize_loop_tile. }
  assert (lo + length (concat (chars (slice lo hi content))) = hi) as El.
  { rewrite concat_chars, length_slice by lia. lia. }
  split; try done.
  - rewrite <-El at 1. by apply tokens_tile_in.
  - intros t Hin. destruct (tokens_tile_cut _ _ _ _ Ht Hin) as [(p & q & E & ->) (p' & q' & E' & ->)].
    split; by eapply boundary_between.
  - intros t. eapply tokens_tile_slice; [exact Ht|]. rewrite El. by rewrite concat_chars.
Qed.

Lemma cursor_at_boundary content lo hi ts i :
  token_range content lo hi ts → boundary content (cursor_at lo ts i).
Proof.
  intros H. destruct i as [|i]; [apply H|]. simpl. destruct (ts !! i) eqn:E; [|apply H].
  apply (range_bound _ _ _ _ H). by eapply list_elem_of_lookup_2.
Qed.

Lemma token_range_lookup content lo hi ts i t :
  token_range content lo hi ts → ts !! i = Some t →
  cursor_at lo ts i ≤ tok_start t ∧ tok_start t ≤ tok_end t ∧ tok_end t ≤ hi ∧
  cursor_at lo ts (S i) = tok_end t ∧ boundary content (tok_start t) ∧ boundary content (tok_end t) ∧
  slice (tok_start t) (tok_end t) content = lexeme t ∧ tok_end t ≤ length content.
Proof.
  intros H Hi. destruct (tokens_in_lookup _ _ _ _ _ (range_in _ _ _ _ H) Hi) as (? & ? & ? & ?).
  pose proof (list_elem_of_lookup_2 _ _ _ Hi) as Hin.
  destruct (range_bound _ _ _ _ H t Hin) as [Hs He].
  split_and!; try done; [by apply H|apply He].
Qed.

(** *** Token operations *)

Section TokenOps.
Variable old_content new_content : str.
Variable olo ohi nlo nhi : nat.
Variable ots nts : list Token.
Hypothesis Hold : token_range old_content olo ohi ots.
Hypothesis Hnew : token_range new_content nlo nhi nts.

(** The state after [i] old tokens and [j] new tokens. *)
Definition at_tokens (st : TokenState) (i j : nat) : Prop :=
  old_cursor st = cursor_at olo ots i ∧ new_cursor st = cursor_at nlo nts j ∧
  diff_upto old_content new_content olo nlo (tok_diffs st) (old_cursor st) (new_cursor st).

Lemma index_lookup {A} (l : list A) i x : l !! i = Some x → index_or_panic l i = Ret x.
Proof. intros H. unfold index_or_panic. by rewrite H. Qed.

Lemma equal_token_spec st i j k :
  at_tokens st (i + k) (j + k) → i + k < length ots → j + k < length nts →
  map lexeme ots !! (i + k) = map lexeme nts !! (j + k) →
  ∃ st', equal_token old_content new_content ots nts i j (Ret st) k = Ret st' ∧
    at_tokens st' (i + S k) (j + S k).
Proof.
  intros (Ho & Hn & Hd) Hi Hj E.
  destruct (lookup_lt_is_Some_2 _ _ Hi) as [t Ht], (lookup_lt_is_Some_2 _ _ Hj) as [u Hu].
  change (map lexeme) with (fmap (M:=list) lexeme) in E.
  rewrite !list_lookup_fmap, Ht, Hu in E. injection E as E.
  destruct (token_range_lookup _ _ _ _ _ _ Hold Ht) as (? & ? & ? & Hc & ? & ? & Hs & ?).
  destruct (token_range_lookup _ _ _ _ _ _ Hnew Hu) as (? & ? & ? & Hc' & ? & ? & Hs' & ?).
  unfold equal_token. cbn [obind]. rewrite (index_lookup _ _ _ Ht), (index_lookup _ _ _ Hu).
  cbn [obind].
  destruct (append_range_spec old_content new_content olo nlo (tok_diffs st) (old_cursor st)
    (new_cursor st) (tok_start t) (tok_start u) (last_was_change st)) as (ds' & -> & Hds'); [done|lia|lia|done..|].
  cbn [obind]. rewrite byte_slice_ret by done. cbn [obind]. eexists. split; [done|].
  replace (i + S k) with (S (i + k)) by lia. replace (j + S k) with (S (j + k)) by lia.
  unfold at_tokens. cbn [tok_diffs old_cursor new_cursor]. rewrite Hc, Hc'. split_and!; try done.
  eapply append_equal; [done..|]. by rewrite Hs, Hs'.
Qed.

Lemma equal_tokens_spec st i j k n :
  at_tokens st (i + k) (j + k) → i + k + n ≤ length ots → j + k + n ≤ length nts →
  (∀ x, k ≤ x < k + n → map lexeme ots !! (i + x) = map lexeme nts !! (j + x)) →
  ∃ st', foldl (equal_token old_content new_content ots nts i j) (Ret st) (seq k n) = Ret st' ∧
    at_tokens st' (i + k + n) (j + k + n).
Proof.
  revert st k. induction n as [|n IH]; intros st k Hst Hi Hj E.
  { exists st. by rewrite !Nat.add_0_r. }
  destruct (equal_token_spec st i j k Hst) as (st1 & E1 & Hst1); [lia|lia|apply E; lia|].
  cbn [seq foldl]. rewrite E1. destruct (IH st1 (S k) Hst1) as (st' & E' & Hst'); [lia|lia|intros; apply E; lia|].
  exists st'. split; [done|]. by replace (i + k + S n) with (i + S k + n) by lia;
    replace (j + k + S n) with (j + S k + n) by lia.
Qed.

(** A run of tokens, from the first to the last. *)
Lemma token_run content lo hi ts i n :
  token_range content lo hi ts → 0 < n → i + n ≤ length ts →
  ∃ first final, ts !! i = Some first ∧ ts !! (i + n - 1) = Some final ∧
    cursor_at lo ts i ≤ tok_start first ∧ tok_start first ≤ tok_end final ∧
    cursor_at lo ts (i + n) = tok_end final ∧ boundary content (tok_start first) ∧
    boundary content (tok_end final) ∧ tok_end final ≤ length content.
Proof.
  intros H Hn Hl. destruct (lookup_lt_is_Some_2 ts i ltac:(lia)) as [a Ha].
  destruct (lookup_lt_is_Some_2 ts (i + n - 1) ltac:(lia)) as [b Hb]. exists a, b.
  destruct (token_range_lookup _ _ _ _ _ _ H Ha) as (? & ? & ? & Hc & ? & ? & ? & ?).
  destruct (token_range_lookup _ _ _ _ _ _ H Hb) as (? & ? & ? & Hc' & ? & ? & ? & ?).
  replace (S (i + n - 1)) with (i + n) in Hc' by lia.
  pose proof (cursor_at_mono lo hi ts (S i) (i + n) (range_in _ _ _ _ H) ltac:(lia) Hl).
  split_and!; try done; lia.
Qed.

Lemma token_op_spec st i j o ops :
  at_tokens st i j → ops_tile (map lexeme ots) (map lexeme nts) i j (o :: ops) →
  ∃ st' i' j', token_op old_content new_content ots nts st o = Ret st' ∧ at_tokens st' i' j' ∧
    ops_tile (map lexeme ots) (map lexeme nts) i' j' ops.
Proof.
  intros Hst. pose proof Hst as (Ho & Hn & Hd). pose proof Hd as (_ & _ & Hba & Hbb & _).
  destruct o as [oi nj l|oi ol nj|oi nj nl|oi ol nj nl]; cbn [ops_tile]; rewrite ?length_map;
    intros Ht.
  - destruct Ht as (-> & -> & Hl & Hi & Hj & E & Ht). cbn [token_op].
    destruct (equal_tokens_spec st i j 0 l) as (st' & E' & Hst').
    + by rewrite !Nat.add_0_r.
    + lia.
    + lia.
    + intros x Hx. apply (f_equal (λ y, y !! x)) in E. rewrite !lookup_slice in E by lia. done.
    + rewrite !Nat.add_0_r in Hst'. exists st', (i + l), (j + l). by rewrite E'.
  - destruct Ht as (-> & -> & Hl & Hi & Ht). cbn [token_op].
    rewrite (proj2 (Nat.eqb_neq _ _)) by lia.
    destruct (token_run _ _ _ _ i ol Hold Hl Hi) as (a & b & Ha & Hb & ? & ? & Hc & ? & ? & ?).
    rewrite (index_lookup _ _ _ Ha), (index_lookup _ _ _ Hb). cbn [obind].
    destruct (append_range_spec old_content new_content olo nlo (tok_diffs st) (old_cursor st)
      (new_cursor st) (tok_start a) (new_cursor st) (last_was_change st)) as (ds' & -> & Hds'); [done|lia|lia|done..|].
    cbn [obind]. rewrite byte_slice_ret by done. cbn [obind]. eexists _, (i + ol), j.
    split; [done|]. split; [|done]. unfold at_tokens. cbn [tok_diffs old_cursor new_cursor].
    rewrite Hc. split_and!; try done. by eapply append_delete.
  - destruct Ht as (-> & -> & Hl & Hj & Ht). cbn [token_op].
    rewrite (proj2 (Nat.eqb_neq _ _)) by lia.
    destruct (token_run _ _ _ _ j nl Hnew Hl Hj) as (a & b & Ha & Hb & ? & ? & Hc & ? & ? & ?).
    rewrite (index_lookup _ _ _ Ha), (index_lookup _ _ _ Hb). cbn [obind].
    destruct (append_range_spec old_content new_content olo nlo (tok_diffs st) (old_cursor st)
      (new_cursor st) (old_cursor st) (tok_start a) (last_was_change st)) as (ds' & -> & Hds'); [done|lia|lia|done..|].
    cbn [obind]. rewrite byte_slice_ret by done. cbn [obind]. eexists _, i, (j + nl).
    split; [done|]. split; [|done]. unfold at_tokens. cbn [tok_diffs old_cursor new_cursor].
    rewrite Hc. split_and!; try done. by eapply append_insert.
  - destruct Ht as (-> & -> & Hl & Hl' & Hi & Hj & Ht). cbn [token_op].
    destruct (token_run _ _ _ _ i ol Hold Hl Hi) as (a & b & Ha & Hb & ? & ? & Hc & ? & ? & ?).
    destruct (token_run _ _ _ _ j nl Hnew Hl' Hj) as (a' & b' & Ha' & Hb' & ? & ? & Hc' & ? & ? & ?).
    rewrite Ha, Ha', (index_lookup _ _ _ Hb), (index_lookup _ _ _ Hb').
    destruct (append_range_spec old_content new_content olo nlo (tok_diffs st) (old_cursor st)
      (new_cursor st) (tok_start a) (tok_start a') (last_was_change st)) as (ds' & -> & Hds'); [done|lia|lia|done..|].
    cbn [obind]. rewrite !(proj2 (Nat.ltb_lt _ _)) by done. cbn [obind].
    rewrite !byte_slice_ret by done. cbn [obind]. eexists _, (i + ol), (j + nl).
    split; [done|]. split; [|done]. unfold at_tokens. cbn [tok_diffs old_cursor new_cursor].
    rewrite Hc, Hc'. split_and!; try done. eapply append_insert; [|done..]. by eapply append_delete.
Qed.

Lemma token_ops_spec st i j ops :
  at_tokens st i j → ops_tile (map lexeme ots) (map lexeme nts) i j ops →
  ∃ st', token_ops old_content new_content ots nts st ops = Ret st' ∧
    at_tokens st' (length ots) (length nts).
Proof.
  revert st i j. induction ops as [|o ops IH]; intros st i j Hst Ht.
  - destruct Ht as [-> ->]. rewrite !length_map in Hst. by exists st.
  - destruct (token_op_spec st i j o ops Hst Ht) as (st' & i' & j' & E & Hst' & Ht').
    destruct (IH _ _ _ Hst' Ht') as (st'' & E' & Hst''). exists st''. cbn [token_ops]. by rewrite E.
Qed.
End TokenOps.

Section Whole.
Context `{!DiffEngine}.
Variable is_alphabetic is_numeric : str → bool.
Variable old_content new_content : str.
Hypothesis Hold8 : is_utf8 old_content = true.
Hypothesis Hnew8 : is_utf8 new_content = true.

Abbreviation upto := (diff_upto old_content new_content).

Lemma diff_upto_nil a b :
  boundary old_content a → boundary new_content b → upto a b [] a b.
Proof. intros. split_and!; try done; by rewrite slice_nil. Qed.

Lemma build_token_spec olo ohi nlo nhi :
  olo ≤ ohi → nlo ≤ nhi → boundary old_content olo → boundary old_content ohi →
  boundary new_content nlo → boundary new_content nhi →
  ∃ ds rs, build_token_aligned_diffs is_alphabetic is_numeric old_content new_content (olo, ohi) (nlo, nhi)
             = Ret (ds, rs) ∧ upto olo nlo ds ohi nhi.
Proof.
  intros Ho Hn Hb1 Hb2 Hb3 Hb4. unfold build_token_aligned_diffs.
  pose proof (tokenize_range is_alphabetic is_numeric old_content olo ohi Ho Hb1 Hb2) as Hot.
  pose proof (tokenize_range is_alphabetic is_numeric new_content nlo nhi Hn Hb3 Hb4) as Hnt.
  set (ots := tokenize_non_whitespace _ _ old_content _) in *.
  set (nts := tokenize_non_whitespace _ _ new_content _) in *. clearbody ots nts.
  assert (∃ ds rs,
    (let? st := token_ops old_content new_content ots nts (mkTokenState [] [] olo nlo false)
        (capture_diff_slices (map lexeme ots) (map lexeme nts)) in
     let? diffs := append_range_diffs (tok_diffs st) old_content new_content
        (old_cursor st, ohi) (new_cursor st, nhi) (last_was_change st) in
     Ret (diffs, substantive_ranges st)) = Ret (ds, rs) ∧ upto olo nlo ds ohi nhi) as Hgen.
  { destruct (token_ops_spec old_content new_content olo ohi nlo nhi ots nts Hot Hnt
      (mkTokenState [] [] olo nlo false) 0 0 (capture_diff_slices (map lexeme ots) (map lexeme nts)))
      as (st & -> & Hst).
    - split_and!; try done. by apply diff_upto_nil.
    - apply hunks_loop_tile, diff_slices_valid.
    - destruct Hst as (Hoc & Hnc & Hd). cbn [obind].
      pose proof (cursor_at_le olo ohi ots (length ots) (range_in _ _ _ _ Hot) ltac:(lia)).
      pose proof (cursor_at_le nlo nhi nts (length nts) (range_in _ _ _ _ Hnt) ltac:(lia)).
      destruct (append_range_spec old_content new_content olo nlo (tok_diffs st) (old_cursor st)
        (new_cursor st) ohi nhi (last_was_change st)) as (ds & -> & Hds); [done|lia|lia|done..|].
      eexists _, _. split; [done|]. done. }
  destruct ots as [|t ots'], nts as [|u nts']; try exact Hgen.
  destruct (append_range_spec old_content new_content olo nlo [] olo nlo ohi nhi false)
    as (ds & -> & Hds); [by apply diff_upto_nil|done..|].
  by eexists _, _.
Qed.

(** *** Hunks of lines *)

(** Operations that lead from line indices [i], [j] to [i'], [j']. *)
Fixpoint spans (i j : nat) (ops : list DiffOp) (i' j' : nat) : Prop :=
  match ops with
  | [] => i = i' ∧ j = j'
  | o :: ops' =>
      ∃ i1 j1, line_span_for_op o true = (i, i1) ∧ line_span_for_op o false = (j, j1) ∧
        i ≤ i1 ∧ j ≤ j1 ∧ spans i1 j1 ops' i' j'
  end.

Lemma spans_snoc i j ops i' j' o i2 j2 :
  spans i j ops i' j' → line_span_for_op o true = (i', i2) → line_span_for_op o false = (j', j2) →
  i' ≤ i2 → j' ≤ j2 → spans i j (ops ++ [o]) i2 j2.
Proof.
  revert i j. induction ops as [|x ops IH]; intros i j; simpl.
  - intros [-> ->] ? ? ? ?. by exists i2, j2.
  - intros (i1 & j1 & ? & ? & ? & ? & Hrest) ? ? ? ?. exists i1, j1. split_and!; auto.
Qed.

Lemma spans_le i j ops i' j' : spans i j ops i' j' → i ≤ i' ∧ j ≤ j'.
Proof.
  revert i j. induction ops as [|o ops IH]; intros i j; simpl; [lia|].
  intros (i1 & j1 & _ & _ & ? & ? & Hrest%IH). lia.
Qed.

Lemma widen_spans i j ops i' j' s e :
  spans i j ops i' j' →
  (s ≤ i → e ≤ i → foldl (widen true) (Some s, e) ops = (Some s, if bool_decide (ops = []) then e else i')) ∧
  (s ≤ j → e ≤ j → foldl (widen false) (Some s, e) ops = (Some s, if bool_decide (ops = []) then e else j')).
Proof.
  revert i j e. induction ops as [|o ops IH]; intros i j e; [done|].
  intros (i1 & j1 & E1 & E2 & ? & ? & Hsp). rewrite (bool_decide_false (o :: ops = [])) by done.
  destruct (IH _ _ i1 Hsp) as [IH1 _], (IH _ _ j1 Hsp) as [_ IH2]. cbn [foldl].
  pose proof (spans_le _ _ _ _ _ Hsp). split; intros Hs He; unfold widen at 2; rewrite ?E1, ?E2; cbn [fst snd].
  - rewrite Nat.min_l, Nat.max_r by lia. rewrite IH1 by lia. case_bool_decide; [|done].
    subst. by destruct Hsp as [-> _].
  - rewrite Nat.min_l, Nat.max_r by lia. rewrite IH2 by lia. case_bool_decide; [|done].
    subst. by destruct Hsp as [_ ->].
Qed.

Lemma hunk_bounds_spans i j ops i' j' :
  ops ≠ [] → spans i j ops i' j' →
  hunk_line_bounds ops true = (i, i') ∧ hunk_line_bounds ops false = (j, j').
Proof.
  destruct ops as [|o ops]; [done|]. intros _ (i1 & j1 & E1 & E2 & ? & ? & Hsp).
  unfold hunk_line_bounds. cbn [foldl]. unfold widen at 2 4. rewrite E1, E2. cbn [fst snd].
  rewrite !Nat.max_r by lia.
  destruct (widen_spans _ _ _ _ _ i i1 Hsp) as [-> _]; [|lia..].
  destruct (widen_spans _ _ _ _ _ j j1 Hsp) as [_ ->]; [|lia..].
  case_bool_decide; [|done]. subst. by destruct Hsp as [-> ->].
Qed.

Abbreviation old_lines := (collect_line_metadata old_content).
Abbreviation new_lines := (collect_line_metadata new_content).
Abbreviation oline := (line_offset old_content).
Abbreviation nline := (line_offset new_content).

Lemma process_hunk_spec ai ops i j i' j' c :
  spans i j ops i' j' → i' ≤ length (lines_of old_content) → j' ≤ length (lines_of new_content) →
  upto 0 0 (diffs c) (oline i) (nline j) →
  ∃ c', process_changed_hunk is_alphabetic is_numeric old_lines new_lines old_content new_content
          ai ops c = Ret c' ∧ upto 0 0 (diffs c') (oline i') (nline j').
Proof.
  intros Hs Hi Hj Hd. destruct (decide (ops = [])) as [->|Hne].
  { destruct Hs as [-> ->]. by exists c. }
  destruct (hunk_bounds_spans _ _ _ _ _ Hne Hs) as [E1 E2].
  destruct (spans_le _ _ _ _ _ Hs) as [Hle Hle'].
  assert (∀ k, boundary old_content (oline k)) as Hbo by (intros; by apply boundary_line_offset).
  assert (∀ k, boundary new_content (nline k)) as Hbn by (intros; by apply boundary_line_offset).
  pose proof (line_offset_mono old_content i i' Hle) as Ho.
  pose proof (line_offset_mono new_content j j' Hle') as Hn.
  destruct (append_range_spec old_content new_content 0 0 (diffs c) (oline i) (nline j)
    (oline i') (nline j') true Hd Ho Hn (Hbo _) (Hbn _)) as (ds & Ea & Hds).
  unfold process_changed_hunk. destruct ops as [|o ops]; [done|]. rewrite E1, E2.
  rewrite !line_range_to_byte_range_spec by done. rewrite Ea. cbn [obind].
  destruct ai; [by eexists|]. destruct (should_use_line_aligned_hunk_diff _ _ _ _ _).
  - case_match; [|by eexists]. rewrite byte_slice_ret by (lia || apply Hbn). by eexists.
  - destruct (build_token_spec (oline i) (oline i') (nline j) (nline j') Ho Hn (Hbo _) (Hbo _) (Hbn _) (Hbn _))
      as (hds & rs & -> & Hh). cbn [obind]. eexists. split; [done|]. cbn [diffs].
    destruct Hh as (_ & _ & _ & _ & Hh1 & Hh2). by eapply diff_upto_app.
Qed.

Lemma push_equal_spec i j l c :
  0 < l → i + l ≤ length (lines_of old_content) → j + l ≤ length (lines_of new_content) →
  slice i (i + l) (lines_of old_content) = slice j (j + l) (lines_of new_content) →
  upto 0 0 (diffs c) (oline i) (nline j) →
  ∃ c', push_equal_lines old_lines old_content (OpEqual i j l) c = Ret c' ∧
    upto 0 0 (diffs c') (oline (i + l)) (nline (j + l)).
Proof.
  intros Hl Hi Hj E Hd. unfold push_equal_lines. rewrite (proj2 (Nat.eqb_neq _ _)) by lia.
  rewrite line_range_to_byte_range_spec by lia.
  pose proof (line_offset_lt old_content i (i + l) ltac:(lia) ltac:(lia)) as Hlt.
  rewrite (proj2 (Nat.ltb_lt _ _)) by done.
  pose proof (boundary_line_offset old_content (i + l) Hold8) as Hb.
  rewrite byte_slice_ret by (lia || apply Hb). cbn [obind]. eexists. split; [done|]. cbn [diffs].
  assert (slice (oline i) (oline (i + l)) old_content = slice (nline j) (nline (j + l)) new_content) as Es
    by (rewrite !slice_line_offset by lia; by rewrite E).
  rewrite Es. eapply append_equal; [done|lia| |done|by apply boundary_line_offset|done].
  apply line_offset_mono. lia.
Qed.

Lemma line_ops_spec ai pending ops i j i' j' c :
  spans i j pending i' j' → i' ≤ length (lines_of old_content) → j' ≤ length (lines_of new_content) →
  upto 0 0 (diffs c) (oline i) (nline j) →
  ops_tile (lines_of old_content) (lines_of new_content) i' j' ops →
  ∃ c', line_ops is_alphabetic is_numeric old_lines new_lines old_content new_content ai c pending ops = Ret c' ∧
    upto 0 0 (diffs c') (length old_content) (length new_content).
Proof.
  revert i j i' j' pending c. induction ops as [|o ops IH]; intros i j i' j' pending c Hs Hi Hj Hd Ht.
  - destruct Ht as [-> ->]. cbn [line_ops].
    destruct (process_hunk_spec ai pending i j _ _ c Hs) as (c' & -> & Hc'); [done..|].
    rewrite !line_offset_all in Hc' by done. by exists c'.
  - destruct o as [oi nj l|oi ol nj|oi nj nl|oi ol nj nl]; cbn [ops_tile line_ops] in *.
    + destruct Ht as (-> & -> & Hl & Hi' & Hj' & E & Ht).
      destruct (process_hunk_spec ai pending i j i' j' c Hs) as (c1 & -> & Hc1); [done..|]. cbn [obind].
      destruct (push_equal_spec i' j' l c1) as (c2 & -> & Hc2); [done..|]. cbn [obind].
      apply (IH (i' + l) (j' + l) (i' + l) (j' + l)); done.
    + destruct Ht as (-> & -> & Hl & Hi' & Ht). apply (IH i j (i' + ol) j'); try done.
      eapply spans_snoc; [exact Hs|done|done|lia|lia].
    + destruct Ht as (-> & -> & Hl & Hj' & Ht). apply (IH i j i' (j' + nl)); try done.
      eapply spans_snoc; [exact Hs|done|done|lia|lia].
    + destruct Ht as (-> & -> & Hl & Hl' & Hi' & Hj' & Ht). apply (IH i j (i' + ol) (j' + nl)); try done.
      eapply spans_snoc; [exact Hs|done|done|lia|lia].
Qed.
End Whole.

Lemma slices_of_lines_ret content ms ls :
  Forall2 (λ m l, str_slice content (line_start m) (line_end m) = Ret l) ms ls →
  slices_of_lines content ms = Ret ls.
Proof. induction 1 as [|m l ms ls H _ IH]; simpl; [done|]. by rewrite H, IH. Qed.

Lemma slices_of_collected content :
  is_utf8 content = true → slices_of_lines content (collect_line_metadata content) = Ret (lines_of content).
Proof.
  intros Hu. apply slices_of_lines_ret, Forall2_same_length_lookup_2; [apply length_collect|].
  intros k m l Hm Hl. apply collect_spec in Hm as (_ & -> & ->).
  rewrite str_slice_ret; [|apply line_offset_mono; lia|by apply boundary_line_offset..].
  rewrite slice_line_offset by lia. f_equal. unfold slice. rewrite (drop_S _ _ _ Hl).
  replace (S k - k) with 1 by lia. simpl. by rewrite app_nil_r.
Qed.

Lemma compute_diffs_spec `{!DiffEngine} al num old_content new_content ai :
  is_utf8 old_content = true → is_utf8 new_content = true →
  ∃ c, compute_diffs al num old_content new_content ai = Ret c ∧
    old_text (diffs c) = old_content ∧ new_text (diffs c) = new_content ∧
    disjoint_ranges (substantive_new_ranges c).
Proof.
  intros Ho Hn. unfold compute_diffs. rewrite !slices_of_collected by done. cbn [obind].
  destruct (line_ops_spec al num old_content new_content Ho Hn ai []
    (capture_diff_slices (lines_of old_content) (lines_of new_content)) 0 0 0 0 (mkComputation [] []))
    as (c & -> & Hc); [done|lia|lia| | |].
  - apply diff_upto_nil; by apply boundary_0.
  - apply hunks_loop_tile, diff_slices_valid.
  - cbn [obind]. eexists. split; [done|]. destruct Hc as (_ & _ & _ & _ & E1 & E2).
    cbn [diffs substantive_new_ranges]. rewrite E1, E2, !slice_full. split_and!; try done.
    apply merge_ranges_spec.
Qed.

End DiffComputeFacts.

(** ** Properties *)

Module DiffComputeProps.
Import ImaraDiff CoarseEngine AttributionMerge AttributionMergeFacts Transform DiffCompute DiffComputeFacts.

(** C8: for any two texts of valid UTF-8, any hunks of the diff engine and
    any Unicode tables, computing the byte diff never panics and never fails:
    no slice is out of range or inside a character.  The kept and deleted
    segments are the old text and the kept and inserted segments the new
    text, byte for byte, at agent checkpoints and others, and the substantive
    ranges come out nonempty, in order and apart. *)
Theorem compute_diffs_reconstructs `{!DiffEngine} (is_alphabetic is_numeric : str → bool)
    (old_content new_content : str) (is_ai_checkpoint : bool) :
  is_utf8 old_content = true → is_utf8 new_content = true →
  ∃ c, compute_diffs is_alphabetic is_numeric old_content new_content is_ai_checkpoint = Ret c ∧
    old_text (diffs c) = old_content ∧ new_text (diffs c) = new_content ∧
    disjoint_ranges (substantive_new_ranges c).
Proof. apply compute_diffs_spec. Qed.

Lemma compute_diffs_reconstructs_witness :
  ∃ c, @compute_diffs coarse_engine (λ _, false) (λ _, false)
         (lit "a = 1;") (lit "a = 22;") false = Ret c ∧
    new_text (diffs c) = lit "a = 22;".
Proof.
  destruct (@compute_diffs_reconstructs coarse_engine (λ _, false) (λ _, false)
    (lit "a = 1;") (lit "a = 22;") false eq_refl eq_refl) as (c & E & _ & H & _).
  exists c. split; [exact E|exact H].
Defined.

End DiffComputeProps.
