(* ===== verification/MoveDetection.v ===== *)
(** * Detecting moved lines

    Models src/src/authorship/move_detection.rs: the grouping of consecutive
    lines and the search for runs of deleted lines among inserted ones, and
    the byte ranges [AttributionTracker::detect_moves] makes of them in
    src/src/authorship/attribution_tracker.rs.  The hasher is a parameter. *)

From S2P Require Import Prelude Text Attribution ImaraDiff LineMeta AttributionMerge Transform.

Module MoveDetection.

(** ** Lines *)

Record InsertedLine := mkInserted {
  ins_content : str; ins_normalized : str; ins_line_number : nat; ins_catalog_idx : nat
}.
Record DeletedLine := mkDeleted {
  del_content : str; del_normalized : str; del_line_number : nat; del_catalog_idx : nat
}.

Definition new_inserted (content : str) (line_number insertion_idx : nat) : InsertedLine :=
  mkInserted content [] line_number insertion_idx.
Definition new_deleted (content : str) (line_number deletion_idx : nat) : DeletedLine :=
  mkDeleted content [] line_number deletion_idx.

(** The trait both implement. *)
Class LineRecord (T : Type) := {
  line_number : T → nat;
  content : T → str;
  set_normalized_content : T → str → T;
  normalized_content : T → str
}.

#[export] Instance inserted_line_record : LineRecord InsertedLine := {
  line_number := ins_line_number;
  content := ins_content;
  set_normalized_content l n := mkInserted (ins_content l) n (ins_line_number l) (ins_catalog_idx l);
  normalized_content := ins_normalized
}.
#[export] Instance deleted_line_record : LineRecord DeletedLine := {
  line_number := del_line_number;
  content := del_content;
  set_normalized_content l n := mkDeleted (del_content l) n (del_line_number l) (del_catalog_idx l);
  normalized_content := del_normalized
}.

Definition by_line_number {T : Type} `{!LineRecord T} (a b : T) : bool :=
  line_number a <=? line_number b.

Definition sort_and_normalize {T : Type} `{!LineRecord T} (lines : list T) : list T :=
  map (λ l, set_normalized_content l (trim (content l))) (sort_by by_line_number lines).

(** ** Groups of consecutive lines, as indices *)

Definition close_group (threshold : nat) (current : list nat) : list (list nat) :=
  if threshold <=? length current then [current] else [].

Fixpoint groups_loop {T : Type} `{!LineRecord T} (threshold : nat) (current : list nat)
    (last_number : option nat) (idx : nat) (lines : list T) : list (list nat) :=
  match lines with
  | [] => close_group threshold current
  | line :: lines' =>
      match normalized_content line with
      | [] => groups_loop threshold current last_number (S idx) lines'
      | _ =>
          if bool_decide (option_map S last_number = Some (line_number line))
          then groups_loop threshold (current ++ [idx]) (Some (line_number line)) (S idx) lines'
          else close_group threshold current ++
               groups_loop threshold [idx] (Some (line_number line)) (S idx) lines'
      end
  end.

Definition build_groups {T : Type} `{!LineRecord T} (lines : list T) (threshold : nat) :
    list (list nat) :=
  groups_loop threshold [] None 0 lines.

(** The lines of a group; its indices are in range. *)
Definition group_lines {T : Type} (lines : list T) (group : list nat) : list T :=
  omap (λ i, lines !! i) group.

(** ** The search *)

Record LineMapping := mkLineMapping {
  deletion_group_index : nat;
  insertion_group_index : nat;
  deleted : list DeletedLine;
  inserted : list InsertedLine
}.

(** The lines two runs share from their first one on. *)
Fixpoint common_prefix (a : list InsertedLine) (b : list DeletedLine) : nat :=
  match a, b with
  | x :: a', y :: b' =>
      if str_eqb (normalized_content x) (normalized_content y) then S (common_prefix a' b') else 0
  | _, _ => 0
  end.

Section Search.
Variable hash_normalized : str → N.

(** [lookup.entry(hash).or_default().push(..)] for every line of every group. *)
Definition add_position (lookup : gmap N (list (nat * nat))) (entry : str * (nat * nat)) :
    gmap N (list (nat * nat)) :=
  let h := hash_normalized entry.1 in
  <[h := default [] (lookup !! h) ++ [entry.2]]> lookup.

Definition positions (deleted_groups : list (list DeletedLine)) : list (str * (nat * nat)) :=
  concat (imap (λ g group, imap (λ p line, (normalized_content line, (g, p))) group) deleted_groups).

Definition build_deletion_lookup (deleted_groups : list (list DeletedLine)) :
    gmap N (list (nat * nat)) :=
  foldl add_position ∅ (positions deleted_groups).

(** The loop over the candidates of a line: the first one whose run is long
    enough, with its length.  [rest] is the insert group from the line on. *)
Fixpoint try_candidates (threshold : nat) (deleted_groups : list (list DeletedLine))
    (rest : list InsertedLine) (candidates : list (nat * nat)) : option (nat * nat * nat) :=
  match candidates with
  | [] => None
  | (g, p) :: candidates' =>
      let run := drop p (default [] (deleted_groups !! g)) in
      match rest, run with
      | inserted_line :: rest', delete_line :: run' =>
          if str_eqb (normalized_content inserted_line) (normalized_content delete_line) then
            let match_len := S (common_prefix rest' run') in
            if threshold <=? match_len then Some (g, p, match_len)
            else try_candidates threshold deleted_groups rest candidates'
          else try_candidates threshold deleted_groups rest candidates'
      | _, _ => try_candidates threshold deleted_groups rest candidates'
      end
  end.

(** The loop over one insert group; every turn drops at least one line. *)
Fixpoint scan_group (fuel threshold : nat) (deleted_groups : list (list DeletedLine))
    (lookup : gmap N (list (nat * nat))) (insert_group_idx : nat) (rest : list InsertedLine) :
    list LineMapping :=
  match fuel, rest with
  | S f, inserted_line :: rest' =>
      let candidates := default [] (lookup !! hash_normalized (normalized_content inserted_line)) in
      match try_candidates threshold deleted_groups rest candidates with
      | Some (g, p, match_len) =>
          mkLineMapping g insert_group_idx
            (take match_len (drop p (default [] (deleted_groups !! g)))) (take match_len rest) ::
          scan_group f threshold deleted_groups lookup insert_group_idx (drop match_len rest)
      | None => scan_group f threshold deleted_groups lookup insert_group_idx rest'
      end
  | _, _ => []
  end.

Definition detect_moves (inserted_lines : list InsertedLine) (deleted_lines : list DeletedLine)
    (threshold : nat) : list LineMapping :=
  if threshold =? 0 then []
  else
    let inserted_lines' := sort_and_normalize inserted_lines in
    let deleted_lines' := sort_and_normalize deleted_lines in
    let threshold' := Nat.max threshold 1 in
    let inserted_groups := map (group_lines inserted_lines') (build_groups inserted_lines' threshold') in
    let deleted_groups := map (group_lines deleted_lines') (build_groups deleted_lines' threshold') in
    match inserted_groups, deleted_groups with
    | [], _ | _, [] => []
    | _, _ =>
        let deletion_lookup := build_deletion_lookup deleted_groups in
        concat (imap (λ insert_group_idx group,
          scan_group (length group) threshold' deleted_groups deletion_lookup insert_group_idx group)
          inserted_groups)
    end.
End Search.

(** ** The byte ranges of the moves *)

Module TrackerMoves.
Import LineMeta Transform.

(** The lines that meet each entry of the catalogue. *)
Definition lines_meeting {T : Type} (make : str → nat → nat → T) (lines : list LineMetadata)
    (spans : list (nat * nat)) : list T :=
  concat (imap (λ idx '(s, e),
    omap (λ line : LineMetadata,
      if (line_start line <? e) && (s <? line_end line)
      then Some (make (text line) (number line) idx) else None) lines) spans).

Definition line_map (lines : list LineMetadata) : gmap nat LineMetadata :=
  foldl (λ m line, <[number line := line]> m) ∅ lines.

(** The loop over the lines of one side of a mapping: [None] is
    [continue 'mapping], else the start of the first and end of the last line
    relative to the catalogue entry. *)
Fixpoint relative_range (lines : gmap nat LineMetadata) (s e : nat) (start_opt end_opt : option nat)
    (line_numbers : list nat) : option (option nat * option nat) :=
  match line_numbers with
  | [] => Some (start_opt, end_opt)
  | n :: ns =>
      try meta := lines !! n in
      let line_s := Nat.max (line_start meta) s in
      let line_e := Nat.min (line_end meta) e in
      if line_e <=? line_s then None
      else
        let rel_start := line_s - s in
        let rel_end := line_e - s in
        relative_range lines s e
          (match start_opt with Some x => Some x | None => Some rel_start end) (Some rel_end) ns
  end.

Definition proper_range (r : option nat * option nat) : option (nat * nat) :=
  match r with
  | (Some s, Some e) => if s <? e then Some (s, e) else None
  | _ => None
  end.

Definition same_index {T : Type} (idx : T → nat) (lines : list T) : option nat :=
  match lines with
  | [] => None
  | line :: _ => if forallb (λ l, idx l =? idx line) lines then Some (idx line) else None
  end.

Definition byte_mapping (old_line_map new_line_map : gmap nat LineMetadata)
    (deletions : list Deletion) (insertions : list Insertion) (m : LineMapping) : option MoveMapping :=
  if negb (length (deleted m) =? length (inserted m)) then None
  else
    try didx := same_index del_catalog_idx (deleted m) in
    try iidx := same_index ins_catalog_idx (inserted m) in
    try deletion := deletions !! didx in
    try insertion := insertions !! iidx in
    try source := relative_range old_line_map (del_start deletion) (del_end deletion) None None
                    (map del_line_number (deleted m)) in
    try target := relative_range new_line_map (ins_start insertion) (ins_end insertion) None None
                    (map ins_line_number (inserted m)) in
    try source' := proper_range source in
    try target' := proper_range target in
    Some (mkMove didx iidx source' target').

Definition tracker_detect_moves (hash_normalized : str → N) (move_lines_threshold : nat)
    (old_content new_content : str) (deletions : list Deletion) (insertions : list Insertion) :
    list MoveMapping :=
  if (move_lines_threshold =? 0) || bool_decide (deletions = []) || bool_decide (insertions = [])
  then []
  else
    let old_lines := collect_line_metadata old_content in
    let new_lines := collect_line_metadata new_content in
    let inserted_lines :=
      lines_meeting new_inserted new_lines (map (λ i, (ins_start i, ins_end i)) insertions) in
    let deleted_lines :=
      lines_meeting new_deleted old_lines (map (λ d, (del_start d, del_end d)) deletions) in
    if bool_decide (inserted_lines = []) || bool_decide (deleted_lines = []) then []
    else
      omap (byte_mapping (line_map old_lines) (line_map new_lines) deletions insertions)
        (detect_moves hash_normalized inserted_lines deleted_lines move_lines_threshold).
End TrackerMoves.

End MoveDetection.

(** ** Lemmas *)

Module MoveDetectionFacts.
Import MoveDetection.

Section Groups.
Context {T : Type} `{!LineRecord T}.
Implicit Types lines ls : list T.

(** Lines whose numbers follow each other. *)
Definition consecutive ls : Prop :=
  ∀ k a b, ls !! k = Some a → ls !! S k = Some b → line_number b = S (line_number a).

Lemma consecutive_drop n ls : consecutive ls → consecutive (drop n ls).
Proof.
  intros H k a b. rewrite !lookup_drop. replace (n + S k) with (S (n + k)) by lia. apply H.
Qed.

Lemma consecutive_take n ls : consecutive ls → consecutive (take n ls).
Proof.
  intros H k a b Ha Hb. apply lookup_take_Some in Ha as [Ha _], Hb as [Hb _]. by eapply H.
Qed.

Lemma consecutive_snoc ls a b :
  consecutive (ls ++ [a]) → line_number b = S (line_number a) → consecutive (ls ++ [a; b]).
Proof.
  intros H Hb k x y Hx Hy. replace (ls ++ [a; b]) with ((ls ++ [a]) ++ [b]) in * by (by rewrite <-app_assoc).
  apply lookup_lt_Some in Hy as Hl. rewrite !length_app in Hl. simpl in Hl.
  rewrite lookup_app_l in Hx by (rewrite length_app; simpl; lia).
  destruct (decide (S k < length (ls ++ [a]))) as [Hlt|Hge].
  - rewrite lookup_app_l in Hy by done. by eapply H.
  - rewrite lookup_app_r in Hy by lia. rewrite length_app in *. simpl in *.
    replace (S k - (length ls + 1)) with 0 in Hy by lia. injection Hy as <-.
    rewrite lookup_app_r in Hx by lia. replace (k - length ls) with 0 in Hx by lia.
    by injection Hx as <-.
Qed.

Lemma group_lines_app lines g h : group_lines lines (g ++ h) = group_lines lines g ++ group_lines lines h.
Proof. apply omap_app. Qed.

(** A group of at least [threshold] consecutive lines with text. *)
Definition group_ok (threshold : nat) lines (g : list nat) : Prop :=
  threshold ≤ length (group_lines lines g) ∧ consecutive (group_lines lines g) ∧
  Forall (λ l, normalized_content l ≠ []) (group_lines lines g).

(** The open group: its lines, and the number of its last line. *)
Definition current_ok lines (current : list nat) (last_number : option nat) : Prop :=
  length (group_lines lines current) = length current ∧
  consecutive (group_lines lines current) ∧
  Forall (λ l, normalized_content l ≠ []) (group_lines lines current) ∧
  (current = [] ∨ ∃ ls l, group_lines lines current = ls ++ [l] ∧ last_number = Some (line_number l)).

Lemma close_group_ok threshold lines current last :
  current_ok lines current last → Forall (group_ok threshold lines) (close_group threshold current).
Proof.
  intros (Hl & Hc & Hn & _). unfold close_group. destruct (Nat.leb_spec threshold (length current));
    [|constructor]. apply Forall_singleton. split_and!; try done. lia.
Qed.

Lemma groups_loop_ok threshold lines current last idx rest :
  rest = drop idx lines → current_ok lines current last → (current = [] → last = None) →
  Forall (group_ok threshold lines) (groups_loop threshold current last idx rest).
Proof.
  revert current last idx. induction rest as [|l rest IH]; intros current last idx Hr Hc Hlast; simpl.
  { by eapply close_group_ok. }
  assert (lines !! idx = Some l) as Hl
    by (rewrite <-(Nat.add_0_r idx), <-lookup_drop, <-Hr; done).
  assert (rest = drop (S idx) lines) as Hr'
    by (rewrite (drop_S _ _ _ Hl) in Hr; by injection Hr).
  assert (group_lines lines [idx] = [l]) as Hg by (unfold group_lines; simpl; by rewrite Hl).
  destruct (normalized_content l) as [|c n] eqn:En; [by apply IH|].
  case_bool_decide as Eb.
  - apply IH; [done| |by destruct current].
    destruct Hc as (Hlen & Hcons & Hne & [->|(ls & x & E & Elast)]);
      [by rewrite Hlast in Eb|].
    unfold current_ok. rewrite group_lines_app, Hg, !length_app. simpl. split_and!.
    + lia.
    + rewrite E, <-app_assoc. simpl. apply consecutive_snoc; [by rewrite <-E|].
      rewrite Elast in Eb. simpl in Eb. by injection Eb.
    + apply Forall_app. split; [done|]. apply Forall_singleton. by rewrite En.
    + right. eauto.
  - apply Forall_app. split; [by eapply close_group_ok|]. apply IH; [done| |done].
    unfold current_ok. rewrite Hg. split_and!; [done| | |].
    + intros k a b Ha Hb. by destruct k.
    + apply Forall_singleton. by rewrite En.
    + right. by exists [], l.
Qed.

Lemma build_groups_ok lines threshold :
  Forall (group_ok threshold lines) (build_groups lines threshold).
Proof.
  apply groups_loop_ok; [by rewrite drop_0| |done].
  split_and!; [done|intros k a b Ha; done|constructor|by left].
Qed.

(** The groups use every line at most once, in order. *)
Lemma groups_loop_sublist threshold current last idx rest :
  sublist (concat (groups_loop threshold current last idx rest))
    (current ++ seq idx (length (rest : list T))).
Proof.
  revert current last idx. induction rest as [|l rest IH]; intros current last idx; simpl.
  { unfold close_group. case_match; simpl; rewrite ?app_nil_r; [done|apply sublist_nil_l]. }
  assert (∀ a b : list nat, sublist (a ++ b) (a ++ idx :: b)) as Hskip.
  { intros a b. apply sublist_app; [done|]. by apply sublist_cons. }
  destruct (normalized_content l).
  - etrans; [apply IH|apply Hskip].
  - case_bool_decide.
    + specialize (IH (current ++ [idx]) (Some (line_number l)) (S idx)).
      by rewrite <-app_assoc in IH.
    + rewrite concat_app. apply sublist_app; [|apply (IH [idx])].
      unfold close_group. case_match; simpl; rewrite ?app_nil_r; [done|apply sublist_nil_l].
Qed.

Lemma group_lines_seq lines n : group_lines lines (seq n (length lines - n)) = drop n lines.
Proof.
  remember (length lines - n) as k eqn:Hk. revert n Hk. induction k as [|k IH]; intros n Hk; simpl.
  - by rewrite drop_ge by lia.
  - destruct (lookup_lt_is_Some_2 lines n ltac:(lia)) as [x Hx].
    unfold group_lines in *. simpl. rewrite Hx. rewrite (drop_S _ _ _ Hx). f_equal. apply IH. lia.
Qed.

Lemma sublist_omap {A B} (f : A → option B) l k : sublist l k → sublist (omap f l) (omap f k).
Proof.
  induction 1 as [|x l k _ IH|x l k _ IH]; simpl; [done|..]; destruct (f x); try done;
    by constructor.
Qed.

Lemma build_groups_sublist lines threshold :
  sublist (concat (map (group_lines lines) (build_groups lines threshold))) lines.
Proof.
  assert (concat (map (group_lines lines) (build_groups lines threshold)) =
    group_lines lines (concat (build_groups lines threshold))) as ->.
  { induction (build_groups lines threshold); simpl; [done|]. by rewrite group_lines_app, IHl. }
  pose proof (groups_loop_sublist threshold [] None 0 lines) as H. simpl in H.
  apply (sublist_omap (λ i, lines !! i)) in H.
  replace (seq 0 (length lines)) with (seq 0 (length lines - 0)) in H by (f_equal; lia).
  fold (group_lines lines (seq 0 (length lines - 0))) in H. by rewrite group_lines_seq, drop_0 in H.
Qed.
End Groups.

(** *** Runs *)

Definition same_text (d : DeletedLine) (i : InsertedLine) : Prop :=
  normalized_content d = normalized_content i.

Lemma common_prefix_runs n a b :
  n ≤ common_prefix a b → length (take n a) = n ∧ Forall2 same_text (take n b) (take n a).
Proof.
  revert n b. induction a as [|x a IH]; intros n b Hn; simpl in Hn.
  { replace n with 0 by lia. split; [done|constructor]. }
  destruct b as [|y b]; [replace n with 0 by lia; split; [done|constructor]|].
  destruct (str_eqb _ _) eqn:E; [|replace n with 0 by lia; split; [done|constructor]].
  apply str_eqb_eq in E. destruct n as [|n]; simpl; [split; [done|constructor]|].
  destruct (IH n b) as [Hl Hf]; [lia|]. split; [by f_equal|]. by constructor.
Qed.

(** A candidate that is taken, and one that is not. *)
Lemma try_candidates_some thr groups rest cs g p n :
  try_candidates thr groups rest cs = Some (g, p, n) →
  (g, p) ∈ cs ∧ thr ≤ n ∧ 0 < n ∧ n ≤ common_prefix rest (drop p (default [] (groups !! g))).
Proof.
  induction cs as [|[g' p'] cs IH]; cbn [try_candidates]; [done|].
  assert (try_candidates thr groups rest cs = Some (g, p, n) →
    (g, p) ∈ (g', p') :: cs ∧ thr ≤ n ∧ 0 < n ∧ n ≤ common_prefix rest (drop p (default [] (groups !! g)))) as Hskip.
  { intros (? & ? & ?)%IH. split; [by right|done]. }
  destruct rest as [|x rest']; [apply Hskip|].
  destruct (drop p' (default [] (groups !! g'))) as [|y run] eqn:Er; [apply Hskip|].
  destruct (str_eqb _ _) eqn:E; [|apply Hskip].
  destruct (Nat.leb_spec thr (S (common_prefix rest' run))); [|apply Hskip].
  intros [= <- <- <-]. split; [left|]. rewrite Er. cbn [common_prefix]. rewrite E.
  split_and!; done || lia.
Qed.

Lemma try_candidates_none thr groups rest cs g p :
  0 < thr → try_candidates thr groups rest cs = None → (g, p) ∈ cs →
  common_prefix rest (drop p (default [] (groups !! g))) < thr.
Proof.
  intros Hthr. induction cs as [|[g' p'] cs IH]; cbn [try_candidates];
    [intros _ H; by apply not_elem_of_nil in H|].
  destruct rest as [|x rest']; [simpl; lia|].
  destruct (drop p' (default [] (groups !! g'))) as [|y run] eqn:Er.
  { intros H [[= -> ->]|Hin]%elem_of_cons; [rewrite Er; simpl; lia|auto]. }
  destruct (str_eqb _ _) eqn:E.
  - destruct (Nat.leb_spec thr (S (common_prefix rest' run))); [done|].
    intros Hn [[= -> ->]|Hin]%elem_of_cons; [|auto]. rewrite Er. cbn [common_prefix]. by rewrite E.
  - intros Hn [[= -> ->]|Hin]%elem_of_cons; [|auto]. rewrite Er. cbn [common_prefix]. by rewrite E.
Qed.

(** *** The lookup table *)

Section Lookup.
Variable hash_normalized : str → N.

Lemma lookup_spec groups h :
  default [] (build_deletion_lookup hash_normalized groups !! h) =
  map snd (filter (λ e, hash_normalized e.1 = h) (positions groups)).
Proof.
  unfold build_deletion_lookup. generalize (positions groups) as ps. intros ps.
  assert (∀ acc, default [] (foldl (add_position hash_normalized) acc ps !! h) =
    default [] (acc !! h) ++ map snd (filter (λ e, hash_normalized e.1 = h) ps)) as H
    by (induction ps as [|e ps IH]; intros acc; cbn [foldl];
        [by rewrite app_nil_r|]; rewrite IH, filter_cons; unfold add_position;
        case_decide as Eh; [rewrite <-Eh, lookup_insert_eq; simpl; by rewrite <-app_assoc|];
        by rewrite lookup_insert_ne).
  by rewrite H, lookup_empty.
Qed.
End Lookup.

Lemma elem_of_positions groups c g p :
  (c, (g, p)) ∈ positions groups ↔
  ∃ group line, groups !! g = Some group ∧ group !! p = Some line ∧ normalized_content line = c.
Proof.
  unfold positions. rewrite elem_of_concat. setoid_rewrite elem_of_lookup_imap. split.
  - intros (l & Hin & g' & group & -> & Hg). apply elem_of_lookup_imap in Hin as (p' & line & Heq & Hp).
    injection Heq as -> -> ->. eauto.
  - intros (group & line & Hg & Hp & <-). eexists. split; [|by exists g, group].
    apply elem_of_lookup_imap. by exists p, line.
Qed.

(** Candidates with another text are skipped, so only the texts matter. *)
Lemma try_candidates_filter (hash : str → N) thr groups x rest ps :
  (∀ e, e ∈ ps → ∃ group line, groups !! e.2.1 = Some group ∧ group !! e.2.2 = Some line ∧
     normalized_content line = e.1) →
  try_candidates thr groups (x :: rest)
    (map snd (filter (λ e, hash e.1 = hash (normalized_content x)) ps)) =
  try_candidates thr groups (x :: rest)
    (map snd (filter (λ e : str * (nat * nat), e.1 = normalized_content x) ps)).
Proof.
  induction ps as [|[c [g p]] ps IH]; intros Hps; [done|]. rewrite !filter_cons. cbn [fst snd].
  assert (∀ e, e ∈ ps → ∃ group line, groups !! e.2.1 = Some group ∧ group !! e.2.2 = Some line ∧
    normalized_content line = e.1) as Hps' by (intros e He; apply Hps; by right).
  specialize (IH Hps'). destruct (Hps _ ltac:(left)) as (group & line & Hg & Hp & Hc). cbn [fst snd] in Hg, Hp, Hc.
  destruct (decide (c = normalized_content x)) as [E|E].
  - rewrite decide_True by (by rewrite E). cbn [map snd try_candidates]. by rewrite IH.
  - case_decide; [|done]. cbn [map snd try_candidates]. rewrite Hg. cbn [from_option id]. unfold id. rewrite (drop_S _ _ _ Hp).
    destruct (str_eqb _ _) eqn:Es; [apply str_eqb_eq in Es; congruence|exact IH].
Qed.

(** *** One group, and all of them *)

Section Scan.
Variable hash_normalized : str → N.
Variable thr : nat.
Variable groups : list (list DeletedLine).
Hypothesis thr_pos : 0 < thr.

Abbreviation lookup := (build_deletion_lookup hash_normalized groups).
Abbreviation scan := (scan_group hash_normalized).

(** What every mapping found in an insert group satisfies. *)
Definition mapping_in (group : list InsertedLine) (m : LineMapping) : Prop :=
  ∃ n p k, thr ≤ n ∧ Forall2 same_text (deleted m) (inserted m) ∧ length (inserted m) = n ∧
    inserted m = take n (drop k group) ∧
    ∃ dgroup, dgroup ∈ groups ∧ deleted m = take n (drop p dgroup).

Lemma scan_spec fuel gi group k rest :
  rest = drop k group → length rest ≤ fuel →
  Forall (mapping_in group) (scan fuel thr groups lookup gi rest) ∧
  sublist (concat (map inserted (scan fuel thr groups lookup gi rest))) rest ∧
  (scan fuel thr groups lookup gi rest = [] →
   ∀ j g p dgroup, k ≤ j → groups !! g = Some dgroup →
     common_prefix (drop j group) (drop p dgroup) < thr).
Proof.
  revert k rest. induction fuel as [|f IH]; intros k [|x rest'] Hr Hf; cbn [scan_group].
  1,3: split; [constructor|]; split; [done|]; intros _ j g p dgroup Hj _;
    rewrite drop_ge by (apply (f_equal length) in Hr; rewrite length_drop in Hr; simpl in Hr; lia); simpl; lia.
  { simpl in Hf. lia. }
  set (cs := default [] (lookup !! hash_normalized (normalized_content x))).
  destruct (try_candidates thr groups (x :: rest') cs) as [[[g p] n]|] eqn:Et.
  - apply try_candidates_some in Et as (Hin & Hthr & Hn & Hcp).
    set (run := drop p (default [] (groups !! g))) in *.
    destruct (common_prefix_runs n (x :: rest') run Hcp) as [Hl H2].
    destruct (IH (k + n) (drop n (x :: rest'))) as (IH1 & IH2 & _).
    { rewrite Hr, drop_drop. done. }
    { rewrite length_drop. simpl in *. lia. }
    split; [|split; [|done]].
    + constructor; [|done]. exists n, p, k. cbn [deleted inserted]. fold run.
      split_and!; try done; [by rewrite <-Hr|].
      unfold run in *. destruct (groups !! g) as [dg|] eqn:Eg; simpl.
      * exists dg. split; [by eapply list_elem_of_lookup_2|done].
      * exfalso. simpl in Hcp. rewrite drop_nil in Hcp. simpl in Hcp. lia.
    + cbn [map inserted concat]. rewrite <-(take_drop n (x :: rest')) at 3.
      by apply sublist_app.
  - assert (rest' = drop (S k) group) as Hr'.
    { replace (S k) with (k + 1) by lia. by rewrite <-drop_drop, <-Hr. }
    destruct (IH (S k) rest' Hr') as (IH1 & IH2 & IH3); [simpl in Hf; lia|].
    split; [done|]. split; [by apply sublist_cons|].
    intros Hnil j g p dgroup Hj Hg. destruct (decide (j = k)) as [->|]; [|eapply IH3; [done|lia|done]].
    rewrite <-Hr. destruct (drop p dgroup) as [|y run] eqn:Er; [simpl; lia|].
    destruct (str_eqb (normalized_content x) (normalized_content y)) eqn:E.
    2:{ cbn [common_prefix]. by rewrite E. }
    apply str_eqb_eq in E.
    assert (dgroup !! p = Some y) as Hp by (rewrite <-(Nat.add_0_r p), <-lookup_drop, Er; done).
    rewrite <-Er. replace dgroup with (default [] (groups !! g)) by (by rewrite Hg).
    apply (try_candidates_none thr groups _ cs); [done|done|].
    unfold cs. rewrite lookup_spec. apply list_elem_of_In, in_map_iff.
    exists (normalized_content y, (g, p)). split; [done|]. apply list_elem_of_In, list_elem_of_filter.
    split; [by rewrite E|]. apply elem_of_positions. eauto.
Qed.

(** The texts of the lines decide, not their hashes. *)
Lemma scan_hash hash' fuel gi rest :
  scan fuel thr groups lookup gi rest =
  scan_group hash' fuel thr groups (build_deletion_lookup hash' groups) gi rest.
Proof.
  revert rest. induction fuel as [|f IH]; intros [|x rest]; try done. cbn [scan_group].
  rewrite !lookup_spec, !try_candidates_filter.
  - case_match; [|apply IH]. destruct p as [[g p] n]. f_equal. apply IH.
  - intros [c [g p]]. apply elem_of_positions.
  - intros [c [g p]]. apply elem_of_positions.
Qed.
End Scan.

(** *** Every run of consecutive lines with text lies in a group *)

Section Completeness.
Context {T : Type} `{!LineRecord T}.
Implicit Types lines run : list T.

Lemma groups_loop_prefix thr current last idx rest :
  thr ≤ length current →
  ∃ ext, current ++ ext ∈ groups_loop (T:=T) thr current last idx rest.
Proof.
  revert current last idx. induction rest as [|l rest IH]; intros current last idx Ht; cbn [groups_loop].
  - exists []. rewrite app_nil_r. unfold close_group. rewrite (proj2 (Nat.leb_le _ _) Ht).
    apply list_elem_of_singleton. done.
  - destruct (normalized_content l); [by apply IH|]. case_bool_decide.
    + destruct (IH (current ++ [idx]) (Some (line_number l)) (S idx)) as [ext He];
        [rewrite length_app; simpl; lia|].
      exists (idx :: ext). by rewrite <-app_assoc in He.
    + exists []. rewrite app_nil_r. apply elem_of_app. left. unfold close_group.
      rewrite (proj2 (Nat.leb_le _ _) Ht). apply list_elem_of_singleton. done.
Qed.

(** The open group ends with the first part [s] of the run; [q] is the rest. *)
Lemma groups_loop_started thr lines current last idx pre s q tail :
  0 < thr → thr ≤ length (s ++ q) →
  length (group_lines lines current) = length current →
  group_lines lines current = pre ++ s →
  (∀ x ss, s = ss ++ [x] → last = Some (line_number x)) →
  q ++ tail = drop idx lines →
  consecutive (s ++ q) → Forall (λ l, normalized_content l ≠ []) q →
  ∃ g p, g ∈ groups_loop thr current last idx (q ++ tail) ∧
    take (length (s ++ q)) (drop p (group_lines lines g)) = s ++ q.
Proof.
  intros Hthr. revert current last idx pre s.
  induction q as [|l q IH]; intros current last idx pre s Hlen Hcl Hcur Hlast Hr Hc Hne.
  - rewrite app_nil_r in *. destruct (groups_loop_prefix thr current last idx ([] ++ tail)) as [ext He].
    { rewrite <-Hcl, Hcur, length_app. lia. }
    exists (current ++ ext), (length pre). split; [done|].
    rewrite group_lines_app, Hcur, <-app_assoc, drop_app_length, take_app_length. done.
  - apply Forall_cons in Hne as [Hl Hne].
    assert (lines !! idx = Some l) as Hidx
      by (rewrite <-(Nat.add_0_r idx), <-lookup_drop, <-Hr; done).
    assert (q ++ tail = drop (S idx) lines) as Hr'
      by (cbn [app] in Hr; rewrite (drop_S _ _ _ Hidx) in Hr; by injection Hr).
    assert (group_lines lines [idx] = [l]) as Hg by (unfold group_lines; simpl; by rewrite Hidx).
    replace (s ++ l :: q) with ((s ++ [l]) ++ q) in * by (by rewrite <-app_assoc).
    assert (∀ x ss, s ++ [l] = ss ++ [x] → Some (line_number l) = Some (line_number x)) as Hlast'
      by (intros x ss E; apply app_inj_tail in E as [_ ->]; done).
    cbn [app groups_loop]. destruct (normalized_content l) as [|c n] eqn:En; [done|].
    case_bool_decide as Eb.
    + apply (IH _ _ _ pre (s ++ [l])); try done.
      * rewrite group_lines_app, Hg, !length_app, Hcl. done.
      * by rewrite group_lines_app, Hg, Hcur, <-app_assoc.
    + assert (s = []) as ->.
      { destruct s as [|x ss _] using rev_ind; [done|]. exfalso. apply Eb.
        rewrite (Hlast x ss) by done. simpl. f_equal. symmetry.
        apply (Hc (length ss)); rewrite <-!app_assoc; cbn [app]; [by rewrite list_lookup_middle|].
        rewrite lookup_app_r by lia. by replace (S (length ss) - length ss) with 1 by lia. }
      destruct (IH [idx] (Some (line_number l)) (S idx) [] [l]) as (g & p & Hin & Htk); try done.
      { by rewrite Hg. }
      exists g, p. split; [|done]. apply elem_of_app. by right.
Qed.

Lemma groups_loop_complete thr lines current last idx before run tail :
  0 < thr → thr ≤ length run → length (group_lines lines current) = length current →
  before ++ run ++ tail = drop idx lines → consecutive run →
  Forall (λ l, normalized_content l ≠ []) run →
  ∃ g p, g ∈ groups_loop thr current last idx (before ++ run ++ tail) ∧
    take (length run) (drop p (group_lines lines g)) = run.
Proof.
  intros Hthr Hlen. revert current last idx.
  induction before as [|l before IH]; intros current last idx Hcl Hr Hc Hne.
  - apply (groups_loop_started thr lines current last idx (group_lines lines current) [] run tail); try done.
    + by rewrite app_nil_r.
    + intros x ss E. by destruct ss.
  - assert (lines !! idx = Some l) as Hidx
      by (rewrite <-(Nat.add_0_r idx), <-lookup_drop, <-Hr; done).
    assert (before ++ run ++ tail = drop (S idx) lines) as Hr'
      by (cbn [app] in Hr; rewrite (drop_S _ _ _ Hidx) in Hr; by injection Hr).
    assert (group_lines lines [idx] = [l]) as Hg by (unfold group_lines; simpl; by rewrite Hidx).
    cbn [app groups_loop]. destruct (normalized_content l); [by apply IH|]. case_bool_decide.
    + apply IH; try done. by rewrite group_lines_app, Hg, !length_app, Hcl.
    + destruct (IH [idx] (Some (line_number l)) (S idx)) as (g & p & Hin & Ht); try done.
      { by rewrite Hg. }
      exists g, p. split; [|done]. apply elem_of_app. by right.
Qed.

(** A run of a list: some consecutive part of it. *)
Definition run_of run lines : Prop := ∃ before tail, lines = before ++ run ++ tail.

Lemma build_groups_complete thr lines run :
  0 < thr → thr ≤ length run → run_of run lines → consecutive run →
  Forall (λ l, normalized_content l ≠ []) run →
  ∃ group p, group ∈ map (group_lines lines) (build_groups lines thr) ∧
    take (length run) (drop p group) = run.
Proof.
  intros Hthr Hlen (before & tail & E) Hc Hne.
  destruct (groups_loop_complete thr lines [] None 0 before run tail) as (g & p & Hin & Ht); try done.
  exists (group_lines lines g), p. split; [|done]. rewrite <-E in Hin.
  apply list_elem_of_In, in_map, list_elem_of_In, Hin.
Qed.
End Completeness.

Lemma same_text_prefix n a b :
  Forall2 same_text (take n b) (take n a) → length (take n a) = n → n ≤ common_prefix a b.
Proof.
  revert n b. induction a as [|x a IH]; intros [|n] b H Hl; simpl in *; try lia.
  destruct b as [|y b]; simpl in H; [by inversion H|]. apply Forall2_cons in H as [E H].
  rewrite (proj2 (str_eqb_eq _ _)) by done. specialize (IH n b H). lia.
Qed.

Lemma sublist_concat {A} (ls ks : list (list A)) : Forall2 sublist ls ks → sublist (concat ls) (concat ks).
Proof. induction 1; simpl; [done|]. by apply sublist_app. Qed.

Lemma concat_map_concat {A B} (f : A → list B) (ls : list (list A)) :
  concat (map f (concat ls)) = concat (map (λ l, concat (map f l)) ls).
Proof. induction ls as [|l ls IH]; simpl; [done|]. by rewrite map_app, concat_app, IH. Qed.

(** *** Normalized lines *)

(** What the setter of the trait does. *)
Class LawfulLineRecord (T : Type) `{!LineRecord T} := {
  normalized_set (l : T) n : normalized_content (set_normalized_content l n) = n;
  content_set (l : T) n : content (set_normalized_content l n) = content l;
  number_set (l : T) n : line_number (set_normalized_content l n) = line_number l
}.
#[export] Instance lawful_inserted : LawfulLineRecord InsertedLine.
Proof. by split. Qed.
#[export] Instance lawful_deleted : LawfulLineRecord DeletedLine.
Proof. by split. Qed.

Lemma elem_of_normalized `{LawfulLineRecord T} (x : T) lines :
  x ∈ sort_and_normalize lines →
  normalized_content x = trim (content x) ∧
  ∃ y, y ∈ lines ∧ x = set_normalized_content y (trim (content y)).
Proof.
  unfold sort_and_normalize. intros (y & <- & Hy)%list_elem_of_In%in_map_iff.
  apply list_elem_of_In, elem_of_sort_by in Hy. rewrite normalized_set, content_set. eauto.
Qed.

Lemma group_in `{LineRecord T} (lines group : list T) thr :
  group ∈ map (group_lines lines) (build_groups lines thr) →
  consecutive group ∧ Forall (λ l, normalized_content l ≠ []) group ∧ Forall (λ l, l ∈ lines) group.
Proof.
  intros (g & <- & Hg)%list_elem_of_In%in_map_iff.
  pose proof (build_groups_ok lines thr) as Hok. rewrite Forall_forall in Hok.
  destruct (Hok g) as (_ & Hc & Hn); [by apply list_elem_of_In|]. split_and!; [done..|].
  apply Forall_forall. intros x (i & _ & Hx)%list_elem_of_omap. by eapply list_elem_of_lookup_2.
Qed.

(** The mappings of all groups. *)
Lemma detect_moves_groups hash ins dels thr :
  0 < thr →
  detect_moves hash ins dels thr =
  let groups := map (group_lines (sort_and_normalize dels)) (build_groups (sort_and_normalize dels) thr) in
  concat (imap (λ gi group, scan_group hash (length group) thr groups (build_deletion_lookup hash groups) gi group)
    (map (group_lines (sort_and_normalize ins)) (build_groups (sort_and_normalize ins) thr))).
Proof.
  intros Hthr. unfold detect_moves. rewrite (proj2 (Nat.eqb_neq _ _)) by lia.
  replace (Nat.max thr 1) with thr by lia. cbv zeta.
  destruct (map _ (build_groups (sort_and_normalize ins) thr)) as [|g gs]; [done|].
  destruct (map _ (build_groups (sort_and_normalize dels) thr)) as [|d ds]; [|done].
  symmetry. apply concat_nil_Forall, Forall_forall. intros l (i & group & -> & _)%elem_of_lookup_imap.
  assert (∀ fuel thr rest, scan_group hash fuel thr [] (build_deletion_lookup hash []) i rest = []) as Hs.
  { clear. induction fuel as [|f IH]; intros thr [|x rest]; try done. cbn [scan_group].
    change (build_deletion_lookup hash []) with (∅ : gmap N (list (nat * nat))) in *.
    rewrite lookup_empty. apply IH. }
  apply Hs.
Qed.


(** *** The byte ranges *)

Section Ranges.
Import LineMeta LineMetaFacts Transform TransformFacts TrackerMoves.

Lemma elem_of_lines_meeting {T} (make : str → nat → nat → T) lines spans x :
  x ∈ lines_meeting make lines spans →
  ∃ idx line, line ∈ lines ∧ x = make (text line) (number line) idx.
Proof.
  unfold lines_meeting. intros (l & Hx & (idx & [a b] & -> & _)%elem_of_lookup_imap)%elem_of_concat.
  apply list_elem_of_omap in Hx as (line & Hl & Hx). case_match; [|done]. injection Hx as <-. eauto.
Qed.

Lemma line_map_lookup content n m :
  line_map (collect_line_metadata content) !! n = Some m → collect_line_metadata content !! (n - 1) = Some m ∧ 0 < n.
Proof.
  unfold line_map. intros H.
  assert (∀ ls (acc : gmap nat LineMetadata),
    foldl (λ m line, <[number line := line]> m) acc ls !! n = Some m →
    acc !! n = Some m ∨ m ∈ ls ∧ number m = n) as Hf.
  { clear. induction ls as [|l ls IH]; intros acc; simpl; [by left|].
    intros [Ha|[? ?]]%IH; [|right; split; [by right|done]].
    apply lookup_insert_Some in Ha as [[<- ->]|[_ ?]]; [right; split; [left|done]|by left]. }
  destruct (Hf _ _ H) as [He|[Hin Hn]]; [by rewrite lookup_empty in He|].
  apply list_elem_of_lookup in Hin as [k Hk]. rewrite (collect_number _ _ _ Hk) in Hn. subst n.
  replace (S k - 1) with k by lia. split; [done|lia].
Qed.

Lemma relative_range_spec lines s e so eo ns r :
  relative_range lines s e so eo ns = Some r →
  ∃ ms, Forall2 (λ n m, lines !! n = Some m) ns ms ∧
    Forall (λ m, Nat.max (line_start m) s < Nat.min (line_end m) e) ms ∧
    r.1 = match so with Some x => Some x | None => (λ m, Nat.max (line_start m) s - s) <$> head ms end ∧
    r.2 = match list.last ms with Some m => Some (Nat.min (line_end m) e - s) | None => eo end.
Proof.
  revert so eo. induction ns as [|n ns IH]; intros so eo; cbn [relative_range].
  { intros [= <-]. exists []. split_and!; try constructor; simpl; by destruct so. }
  destruct (lines !! n) as [m|] eqn:Em; [|done]. bool_hyps. case_match eqn:El; [done|].
  apply Nat.leb_gt in El. intros (ms & Hf & Hc & H1 & H2)%IH. exists (m :: ms).
  split_and!; [by constructor|by constructor| |].
  - rewrite H1. by destruct so.
  - rewrite H2. rewrite last_cons. by destruct (list.last ms).
Qed.
(** A run of consecutive lines of a text: their numbers follow each other. *)
Definition line_run (content : str) (ms : list LineMetadata) : Prop :=
  ∃ k, ms = take (length ms) (drop k (collect_line_metadata content)).

Lemma line_run_lookups content (ns : list nat) ms :
  Forall2 (λ n m, line_map (collect_line_metadata content) !! n = Some m) ns ms →
  (∀ k a b, ns !! k = Some a → ns !! S k = Some b → b = S a) → line_run content ms.
Proof.
  intros Hf. unfold line_run. induction Hf as [|n m ns ms Hm Hf IH]; intros Hc; [by exists 0|].
  apply line_map_lookup in Hm as [Hm Hn].
  destruct IH as [k Hk]; [intros k a b; apply (Hc (S k))|].
  exists (n - 1). rewrite (drop_S _ _ _ Hm). cbn [length take]. f_equal.
  destruct Hf as [|n' m' ns ms Hm' Hf]; [done|].
  assert (n' = S n) as -> by (by apply (Hc 0)).
  apply line_map_lookup in Hm' as [Hm' _]. replace (S (n - 1)) with (S n - 1) by lia.
  assert (collect_line_metadata content !! k = Some m') as Hk'
    by (apply (f_equal head) in Hk; simpl in Hk; rewrite <-(Nat.add_0_r k), <-lookup_drop;
        destruct (drop k (collect_line_metadata content)); [done|by injection Hk as ->]).
  apply collect_number in Hm' as E1, Hk' as E2. by replace (S n - 1) with k by lia.
Qed.

(** The texts of the lines a mapping looks up. *)
Lemma looked_up_texts {T} `{LawfulLineRecord T} content (make : str → nat → nat → T) spans ls ms :
  (∀ t n i, MoveDetection.content (make t n i) = t) → (∀ t n i, line_number (make t n i) = n) →
  Forall (λ l, l ∈ sort_and_normalize (lines_meeting make (collect_line_metadata content) spans)) ls →
  Forall2 (λ n m, line_map (collect_line_metadata content) !! n = Some m) (map line_number ls) ms →
  Forall2 (λ l m, normalized_content l = trim (text m)) ls ms.
Proof.
  intros Hc Hn Hls. revert ms. induction Hls as [|l ls Hl _ IH]; intros ms Hf; inversion Hf; subst;
    [constructor|]. constructor; [|by apply IH].
  apply elem_of_normalized in Hl as (-> & x & Hx & ->). rewrite content_set.
  apply elem_of_lines_meeting in Hx as (idx & line & Hline & ->). rewrite Hc.
  rewrite number_set, Hn in *. apply list_elem_of_lookup in Hline as [k Hk].
  match goal with Hl : line_map _ !! _ = Some _ |- _ => apply line_map_lookup in Hl as [Hl _] end.
  rewrite (collect_number _ _ _ Hk) in *. replace (S k - 1) with k in * by lia. by simplify_eq.
Qed.

Lemma consecutive_numbers {T} `{LineRecord T} (ls : list T) k a b :
  consecutive ls → map line_number ls !! k = Some a → map line_number ls !! S k = Some b → b = S a.
Proof.
  intros Hc. change (map line_number ls) with (line_number <$> ls). rewrite !list_lookup_fmap.
  destruct (ls !! k) as [x|] eqn:Ex; [|done]. destruct (ls !! S k) as [y|] eqn:Ey; [|done].
  intros [= <-] [= <-]. by eapply Hc.
Qed.
End Ranges.

(** What holds of every mapping. *)
Lemma detect_moves_mapping hash thr ins dels m :
  m ∈ detect_moves hash ins dels thr →
  0 < thr ∧ thr ≤ length (inserted m) ∧ length (deleted m) = length (inserted m) ∧
  consecutive (inserted m) ∧ consecutive (deleted m) ∧
  Forall (λ l, normalized_content l ≠ []) (inserted m) ∧
  Forall (λ l, l ∈ sort_and_normalize ins) (inserted m) ∧
  Forall (λ l, l ∈ sort_and_normalize dels) (deleted m) ∧ Forall2 same_text (deleted m) (inserted m).
Proof.
  destruct (decide (thr = 0)) as [->|]; [unfold detect_moves; simpl; intros Hm; by apply not_elem_of_nil in Hm|].
  rewrite detect_moves_groups by lia. cbv zeta.
  intros (ms & Hm & (gi & group & -> & Hg)%elem_of_lookup_imap)%elem_of_concat.
  apply list_elem_of_lookup_2 in Hg. apply group_in in Hg as (Hc & Hn & Hi).
  edestruct (scan_spec hash thr) with (k := 0) as (Hs & _); [lia|by rewrite drop_0|done|].
  rewrite Forall_forall in Hs. destruct (Hs m) as (n' & p & k & Hthr & H2 & Hl & Ei & dg & Hdg & Ed);
    [exact Hm|].
  apply group_in in Hdg as (Hdc & _ & Hdi). rewrite Ei, Ed in *.
  split_and!; try done; try lia; eauto using consecutive_take, consecutive_drop, Forall_take, Forall_drop.
  by apply Forall2_length in H2.
Qed.

Section Moves.
Import LineMeta LineMetaFacts Transform TransformFacts TrackerMoves.

(** The bytes of a run of lines inside a catalogue entry, relative to it. *)
Definition clipped (s e : nat) (ms : list LineMetadata) (r : nat * nat) : Prop :=
  ∃ first last, head ms = Some first ∧ list.last ms = Some last ∧
    r = (Nat.max (line_start first) s - s, Nat.min (line_end last) e - s).

Lemma relative_range_proper lines s e ns r r' :
  relative_range lines s e None None ns = Some r → proper_range r = Some r' →
  ∃ ms, Forall2 (λ n m, lines !! n = Some m) ns ms ∧ clipped s e ms r' ∧ r'.1 < r'.2 ≤ e - s.
Proof.
  intros (ms & Hf & Hc & H1 & H2)%relative_range_spec Hp. exists ms. split; [done|].
  destruct r as [[x|] [y|]]; simpl in *; try done. case_match eqn:Elt; [|done]. injection Hp as <-.
  apply Nat.ltb_lt in Elt. destruct ms as [|f ms]; [done|].
  destruct (list.last (f :: ms)) as [l|] eqn:El; [|done]. simpl in H1. simplify_eq.
  split; [by exists f, l|]. simpl. lia.
Qed.

Lemma same_index_head {T} (idx : T → nat) l i : same_index idx l = Some i → ∃ x, x ∈ l ∧ idx x = i.
Proof.
  destruct l as [|x l]; simpl; [done|]. case_match; [|done]. intros [= <-]. exists x. split; [left|done].
Qed.

(** What a move of the tracker is. *)
Definition move_of_lines (old new : str) (threshold : nat) (deletions : list Deletion)
    (insertions : list Insertion) (m : MoveMapping) : Prop :=
  ∃ d i os ns,
    deletions !! move_deletion_idx m = Some d ∧ insertions !! move_insertion_idx m = Some i ∧
    line_run old os ∧ line_run new ns ∧ threshold ≤ length ns ∧
    Forall2 (λ o n, trim (text o) = trim (text n)) os ns ∧ Forall (λ n, trim (text n) ≠ []) ns ∧
    clipped (del_start d) (del_end d) os (source_range m) ∧
    clipped (ins_start i) (ins_end i) ns (target_range m) ∧
    (source_range m).1 < (source_range m).2 ≤ del_end d - del_start d ∧
    (target_range m).1 < (target_range m).2 ≤ ins_end i - ins_start i.

Lemma tracker_moves hash thr old new deletions insertions m :
  m ∈ tracker_detect_moves hash thr old new deletions insertions →
  move_of_lines old new thr deletions insertions m.
Proof.
  unfold tracker_detect_moves. case_match; [intros Hm; by apply not_elem_of_nil in Hm|].
  case_match; [intros Hm; by apply not_elem_of_nil in Hm|].
  intros (lm & Hlm & Hm)%list_elem_of_omap.
  destruct (detect_moves_mapping _ _ _ _ _ Hlm) as (_ & Ht & Hl & Hci & Hcd & Hn & Hi & Hd & H2).
  unfold byte_mapping in Hm. case_match; [done|].
  destruct (same_index del_catalog_idx _) as [di|]; [|done].
  destruct (same_index ins_catalog_idx _) as [ii|]; [|done].
  destruct (deletions !! di) as [d|] eqn:Ed; [|done]. destruct (insertions !! ii) as [i|] eqn:Ei; [|done].
  destruct (relative_range _ (del_start d) _ _ _ _) as [r1|] eqn:E1; [|done].
  destruct (relative_range _ (ins_start i) _ _ _ _) as [r2|] eqn:E2; [|done].
  destruct (proper_range r1) as [s|] eqn:P1; [|done]. destruct (proper_range r2) as [t|] eqn:P2; [|done].
  injection Hm as <-. unfold move_of_lines. cbn [move_deletion_idx move_insertion_idx source_range target_range].
  destruct (relative_range_proper _ _ _ _ _ _ E1 P1) as (os & Ho & Hco & Hso).
  destruct (relative_range_proper _ _ _ _ _ _ E2 P2) as (ns & Hns & Hcn & Hsn).
  assert (Forall2 (λ l m, normalized_content l = trim (text m)) (deleted lm) os) as Fo
    by (by eapply (looked_up_texts old new_deleted)).
  assert (Forall2 (λ l m, normalized_content l = trim (text m)) (inserted lm) ns) as Fn
    by (by eapply (looked_up_texts new new_inserted)).
  pose proof (Forall2_length _ _ _ Fn) as Ln. pose proof (Forall2_length _ _ _ Fo) as Lo.
  exists d, i, os, ns. split_and!; try done.
  - eapply line_run_lookups; [exact Ho|]. intros k a b. exact (consecutive_numbers (deleted lm) k a b Hcd).
  - eapply line_run_lookups; [exact Hns|]. intros k a b. exact (consecutive_numbers (inserted lm) k a b Hci).
  - lia.
  - apply Forall2_same_length_lookup. split; [lia|]. intros k o n Hk Hk'.
    destruct (Forall2_lookup_r _ _ _ _ _ Fo Hk) as (x & Hx & <-).
    destruct (Forall2_lookup_r _ _ _ _ _ Fn Hk') as (y & Hy & <-).
    by apply (Forall2_lookup_lr _ _ _ _ _ _ H2 Hx Hy).
  - apply Forall_lookup. intros k n Hk. destruct (Forall2_lookup_r _ _ _ _ _ Fn Hk) as (y & Hy & <-).
    by apply (Forall_lookup_1 _ _ _ _ Hn Hy).
  - by destruct Hso.
  - by destruct Hso.
  - by destruct Hsn.
  - by destruct Hsn.
Qed.

Lemma tracker_moves_ok hash thr old new deletions insertions :
  Forall (mapping_ok deletions insertions)
    (tracker_detect_moves hash thr old new deletions insertions).
Proof.
  apply Forall_forall. intros m (d & i & os & ns & Hd & Hi & _ & _ & _ & _ & _ & _ & _ & Hs & _)%tracker_moves.
  exists d. rewrite Hi. split_and!; [done..|lia|lia].
Qed.
End Moves.

(** The hasher does not matter. *)
Lemma detect_moves_hash hash hash' thr ins dels :
  detect_moves hash' ins dels thr = detect_moves hash ins dels thr.
Proof.
  destruct (decide (thr = 0)) as [->|]; [done|]. rewrite !detect_moves_groups by lia. cbv zeta.
  f_equal. apply imap_ext. intros k group _. symmetry. apply scan_hash.
Qed.

End MoveDetectionFacts.

(** ** Properties *)

Module MoveDetectionProps.
Import MoveDetection MoveDetectionFacts.

(** every detected move is a pair of equally long runs of at least
    [threshold] lines with consecutive numbers, whose texts are the same up
    to white space around them and not blank; the deleted lines are among
    the given ones, and no inserted line is used by two moves (the inserted
    runs, in order, are a subsequence of the inserted lines).  The hasher
    only speeds the search up: with any other one the moves are the same. *)
Theorem detect_moves_runs hash hash' threshold ins dels :
  let ms := detect_moves hash ins dels threshold in
  Forall (λ m,
    threshold ≤ length (inserted m) ∧ consecutive (inserted m) ∧ consecutive (deleted m) ∧
    Forall (λ l, trim (content l) ≠ []) (inserted m) ∧
    Forall2 (λ d i, trim (content d) = trim (content i)) (deleted m) (inserted m) ∧
    Forall (λ l, l ∈ sort_and_normalize dels) (deleted m)) ms ∧
  sublist (concat (map inserted ms)) (sort_and_normalize ins) ∧
  detect_moves hash' ins dels threshold = ms.
Proof.
  cbv zeta. split_and!.
  - apply Forall_forall. intros m Hm.
    destruct (detect_moves_mapping _ _ _ _ _ Hm) as (_ & Ht & _ & Hci & Hcd & Hn & Hi & Hd & H2).
    split_and!; [done..| | |done].
    + rewrite Forall_forall in Hn. rewrite Forall_forall in Hi. apply Forall_forall. intros l Hl.
      destruct (elem_of_normalized l ins) as [<- _]; [by apply Hi|by apply Hn].
    + apply Forall2_same_length_lookup. split; [by apply Forall2_length in H2|]. intros k d i Ed Ei.
      rewrite Forall_forall in Hi. rewrite Forall_forall in Hd.
      destruct (elem_of_normalized d dels) as [<- _]; [by eapply Hd, list_elem_of_lookup_2|].
      destruct (elem_of_normalized i ins) as [<- _]; [by eapply Hi, list_elem_of_lookup_2|].
      by eapply (Forall2_lookup_lr _ _ _ _ _ _ H2).
  - destruct (decide (threshold = 0)) as [->|]; [apply sublist_nil_l|].
    rewrite detect_moves_groups by lia. cbv zeta. rewrite concat_map_concat.
    etrans; [|apply (build_groups_sublist _ threshold)]. apply sublist_concat.
    change (@map ?A ?B) with (@fmap list _ A B).
    rewrite fmap_imap. apply Forall2_same_length_lookup. split; [by rewrite length_imap|].
    intros k l group Hl Hg. rewrite list_lookup_imap, Hg in Hl. injection Hl as <-.
    edestruct (scan_spec hash threshold) with (k := 0) as (_ & Hs & _); [lia|by rewrite drop_0|done|].
    exact Hs.
  - apply detect_moves_hash.
Qed.

(** the search is complete: when a run of at least [threshold]
    consecutive inserted lines with text equals, up to white space around the
    lines, such a run of deleted lines, some move is detected. *)
Theorem detect_moves_complete hash threshold ins dels a b :
  0 < threshold → threshold ≤ length a →
  run_of a (sort_and_normalize ins) → run_of b (sort_and_normalize dels) →
  consecutive a → consecutive b →
  Forall (λ l, trim (content l) ≠ []) a →
  Forall2 (λ d i, trim (content d) = trim (content i)) b a →
  detect_moves hash ins dels threshold ≠ [].
Proof.
  intros Hpos Hlen Ha Hb Hca Hcb Hna H2.
  assert (∀ l, l ∈ a → normalized_content l = trim (content l)) as Ea.
  { intros l Hl. apply (elem_of_normalized l ins). destruct Ha as (p & q & ->). set_solver. }
  assert (∀ l, l ∈ b → normalized_content l = trim (content l)) as Eb.
  { intros l Hl. apply (elem_of_normalized l dels). destruct Hb as (p & q & ->). set_solver. }
  assert (Forall2 same_text b a) as Hs.
  { apply Forall2_same_length_lookup. split; [by apply Forall2_length in H2|]. intros k d i Hd Hi.
    unfold same_text. rewrite Ea, Eb by (by eapply list_elem_of_lookup_2).
    by apply (Forall2_lookup_lr _ _ _ _ _ _ H2 Hd Hi). }
  assert (Forall (λ l, normalized_content l ≠ []) a) as Hna'.
  { rewrite Forall_forall in *. intros l Hl. rewrite Ea by done. by apply Hna. }
  assert (Forall (λ l, normalized_content l ≠ []) b) as Hnb'.
  { apply Forall_lookup. intros k d Hd. destruct (Forall2_lookup_l _ _ _ _ _ Hs Hd) as (i & Hi & E).
    rewrite E. by eapply (Forall_lookup_1 _ _ _ _ Hna'). }
  pose proof (Forall2_length _ _ _ Hs) as El.
  destruct (build_groups_complete threshold _ a Hpos Hlen Ha Hca Hna') as (ga & pa & Hga & Ta).
  destruct (build_groups_complete threshold _ b Hpos ltac:(lia) Hb Hcb Hnb') as (gb & pb & Hgb & Tb).
  rewrite detect_moves_groups by done. cbv zeta. intros Hnil%concat_nil_Forall.
  apply list_elem_of_lookup in Hga as [ka Hka], Hgb as [kb Hkb].
  edestruct (scan_spec hash threshold) with (gi := ka) (k := 0) as (_ & _ & Hs0);
    [exact Hpos|symmetry; apply drop_0|reflexivity|].
  assert (common_prefix (drop pa ga) (drop pb gb) < threshold) as Hlt.
  { eapply Hs0; [|lia|exact Hkb]. rewrite Forall_forall in Hnil. apply Hnil.
    apply elem_of_lookup_imap. eauto. }
  assert (length a ≤ common_prefix (drop pa ga) (drop pb gb)); [|lia].
  apply same_text_prefix; rewrite Ta; [|done]. by rewrite <-El, Tb.
Qed.

(** A block of two lines moved to the front of a file. *)
Definition moved_in : list InsertedLine := [new_inserted (lit "b();") 1 0; new_inserted (lit " c();") 2 0].
Definition moved_out : list DeletedLine :=
  [new_deleted (lit "b();") 2 0; new_deleted (lit "c();") 3 0; new_deleted (lit "d();") 4 0].

Lemma detect_moves_complete_witness : detect_moves (λ s, N.of_nat (length s)) moved_in moved_out 2 ≠ [].
Proof.
  refine (detect_moves_complete _ 2 moved_in moved_out
    (sort_and_normalize moved_in) (take 2 (sort_and_normalize moved_out)) _ _ _ _ _ _ _ _).
  - lia.
  - vm_compute. lia.
  - exists [], []. by rewrite app_nil_r.
  - exists [], (drop 2 (sort_and_normalize moved_out)). by rewrite take_drop.
  - intros [|[|k]] a b; vm_compute; intros; by simplify_eq.
  - intros [|[|k]] a b; vm_compute; intros; by simplify_eq.
  - repeat (apply Forall_cons; split; [vm_compute; discriminate|]). constructor.
  - repeat (apply Forall2_cons; split; [vm_compute; reflexivity|]). constructor.
Defined.

(** the moves the tracker uses are moved lines: each comes from a run
    of at least [move_lines_threshold] consecutive lines of the new text that
    are not blank, and a run of as many consecutive lines of the old text
    equal to them up to white space around each line; its source range is
    the part of the old run inside the deletion it names and its target
    range the part of the new run inside the insertion it names, relative to
    their starts, both non-empty and inside. *)
Theorem tracker_moves_are_lines hash threshold old new deletions insertions :
  Forall (move_of_lines old new threshold deletions insertions)
    (TrackerMoves.tracker_detect_moves hash threshold old new deletions insertions).
Proof. apply Forall_forall. intros m. apply tracker_moves. Qed.

End MoveDetectionProps.
