(* ===== verification/WorkingLog.v ===== *)
(** * The working log

    The checkpoints of src/src/authorship/working_log.rs: the kind of a
    checkpoint, its entries and its statistics.  The clock is an argument. *)

From S2P Require Import Prelude Attribution AuthorshipLog.

Module WorkingLog.
Import Attribution AuthorshipLog.

Definition CHECKPOINT_API_VERSION : str := lit "checkpoint/1.0.0".

Record WorkingLogEntry := mkEntry {
  file : str;
  blob_sha : str;
  attributions : list Attribution;
  line_attributions : list LineAttribution
}.

Inductive CheckpointKind := Human | AiAgent | AiTab | KnownHuman.

#[export] Instance CheckpointKind_eq_dec : EqDecision CheckpointKind.
Proof. solve_decision. Defined.

Definition to_str (kind : CheckpointKind) : str :=
  match kind with
  | Human => lit "human"
  | AiAgent => lit "ai_agent"
  | AiTab => lit "ai_tab"
  | KnownHuman => lit "known_human"
  end.

(** [None] is the panic on any other name. *)
Definition from_str (s : str) : option CheckpointKind :=
  if str_eqb s (lit "human") then Some Human
  else if str_eqb s (lit "ai_agent") then Some AiAgent
  else if str_eqb s (lit "ai_tab") then Some AiTab
  else if str_eqb s (lit "known_human") then Some KnownHuman
  else None.

Definition is_ai (kind : CheckpointKind) : bool :=
  match kind with AiAgent | AiTab => true | Human | KnownHuman => false end.

Definition serde_default : CheckpointKind := Human.

Record KnownHumanMetadata := mkKnownHuman {
  editor : str; editor_version : str; extension_version : str
}.

Record CheckpointLineStats := mkLineStats {
  additions : Z; deletions : Z; additions_sloc : Z; deletions_sloc : Z
}.

Record Checkpoint := mkCheckpoint {
  kind : CheckpointKind;
  diff : str;
  author : str;
  entries : list WorkingLogEntry;
  timestamp : Z;
  agent_id : option AgentId;
  agent_metadata : option (gmap str str);
  line_stats : CheckpointLineStats;
  api_version : str;
  git_ai_version : option str;
  known_human_metadata : option KnownHumanMetadata;
  trace_id : option str
}.

(** [now] is the clock in seconds, [version] is [GIT_AI_VERSION]. *)
Definition new (version : str) (now : Z) (kind : CheckpointKind) (diff author : str)
    (entries : list WorkingLogEntry) : Checkpoint :=
  mkCheckpoint kind diff author entries now None None (mkLineStats 0 0 0 0)
    CHECKPOINT_API_VERSION (Some version) None None.

End WorkingLog.

Module WorkingLogFacts.
Import WorkingLog.

Lemma from_to_str kind : from_str (to_str kind) = Some kind.
Proof. by destruct kind. Qed.

End WorkingLogFacts.
