(* ===== verification/LineProjection.v ===== *)
(** * Byte attributions and line attributions

    Models the conversions of src/src/authorship/attribution_tracker.rs:
    [line_attributions_to_attributions], the sweep of
    [attributions_to_line_attributions_for_checkpoint], the choice of the
    author of a line and the merging of consecutive lines.

    An index into the attributions is carried together with the attribution
    it names. *)

From S2P Require Import Prelude Text Attribution ImaraDiff LineMeta WorkingLog.

Module LineProjection.
Import Attribution LineMeta WorkingLog.

(** ** Lines to bytes *)

Definition line_attributions_to_attributions (line_attributions : list LineAttribution)
    (content : str) (ts : N) : list Attribution :=
  if bool_decide (line_attributions = []) || bool_decide (content = []) then []
  else
    let boundaries := line_boundaries content in
    omap (λ line_attr,
      match get_line_range boundaries (start_line line_attr),
            get_line_range boundaries (end_line line_attr) with
      | Some (start_char, _), Some (_, end_char) =>
          Some (mkAttr start_char end_char (line_author_id line_attr) ts)
      | _, _ => None
      end) line_attributions.

(** ** The author of a line *)

Definition human_author (id : str) : bool :=
  str_eqb id (to_str Human) || starts_with (lit "h_") id.

Definition blank (s : str) : bool := forallb is_whitespace (chars s).

(** [content_slice.chars().any(|c| !c.is_whitespace())] on the part of the
    line the attribution covers, widened to character boundaries. *)
Definition has_non_whitespace (full_content : str) (line_start line_end : nat) (a : Attribution) : bool :=
  let slice_start := Nat.max line_start (start a) in
  let slice_end := Nat.min line_end (end_ a) in
  if slice_start <? slice_end then
    let safe_start :=
      if is_char_boundary full_content slice_start then slice_start
      else Nat.max (floor_char_boundary full_content slice_start) line_start in
    let safe_end :=
      if is_char_boundary full_content slice_end then slice_end
      else Nat.min (ceil_char_boundary full_content slice_end) line_end in
    if safe_start <? safe_end then negb (blank (slice safe_start safe_end full_content)) else false
  else false.

(** The attributions that take part in the choice. *)
Definition takes_part (full_content : str) (line_start line_end : nat)
    (is_line_empty is_ai_checkpoint : bool) (a : Attribution) : bool :=
  overlaps a line_start line_end &&
  (has_non_whitespace full_content line_start line_end a || is_line_empty ||
   (start a =? end_ a) || (is_ai_checkpoint && negb (human_author (author_id a)))).

(** [attr.ts > latest_author.ts]: the first of the latest. *)
Definition later (latest_author attr : Attribution) : Attribution :=
  if (ts latest_author <? ts attr)%N then attr else latest_author.

(** The last AI edit and the last human edit, in the order of the candidates. *)
Definition last_edit (human : bool) (candidates : list Attribution) : option Attribution :=
  foldl (λ acc a, if Bool.eqb (human_author (author_id a)) human then Some a else acc) None candidates.

Definition line_override (candidates : list Attribution) : option str :=
  match last_edit false candidates, last_edit true candidates with
  | Some ai, Some h => if (ts ai <? ts h)%N then Some (author_id ai) else None
  | _, _ => None
  end.

Definition find_dominant_author_for_line_candidates (line_start line_end : nat)
    (is_line_empty : bool) (candidates : list Attribution) (full_content : str)
    (is_ai_checkpoint : bool) : str * option str :=
  let candidate_attrs :=
    List.filter (takes_part full_content line_start line_end is_line_empty is_ai_checkpoint) candidates in
  match candidate_attrs with
  | [] => (to_str Human, None)
  | first :: rest =>
      (author_id (foldl later first rest), line_override candidate_attrs)
  end.

(** ** The sweep *)

Definition indexed : Type := nat * Attribution.

Definition index_key_le (a b : indexed) : bool :=
  let '(i, x) := a in let '(j, y) := b in
  if start x =? start y then
    if end_ x =? end_ y then i <=? j else end_ x <=? end_ y
  else start x <=? start y.

Definition sorted_indices (attributions : list Attribution) : list indexed :=
  sort_by index_key_le (imap pair attributions).

(** The inner loop that takes the attributions starting before [line_end]. *)
Fixpoint activate (line_end : nat) (pending active : list indexed) : list indexed * list indexed :=
  match pending with
  | [] => ([], active)
  | a :: pending' =>
      if start a.2 <? line_end then activate line_end pending' (active ++ [a]) else (pending, active)
  end.

Definition retain_active (line_start line_end : nat) (active : list indexed) : list indexed :=
  List.filter (λ a, (start a.2 <? line_end) && (line_start <? end_ a.2)) active.

(** The loop over the lines, from [line_num] on. *)
Fixpoint sweep (boundaries : list (nat * nat)) (content : str) (is_ai_checkpoint : bool)
    (pending active : list indexed) (line_nums : list Z) : list (option (str * option str)) :=
  match line_nums with
  | [] => []
  | line_num :: line_nums' =>
      match get_line_range boundaries line_num with
      | None =>
          Some (to_str Human, None) ::
          sweep boundaries content is_ai_checkpoint pending active line_nums'
      | Some (line_start, line_end) =>
          let '(pending', active') := activate line_end pending active in
          let active'' := retain_active line_start line_end active' in
          let line_content := slice line_start line_end content in
          let is_line_empty := blank line_content in
          Some (find_dominant_author_for_line_candidates line_start line_end is_line_empty
                  (map snd active'') content is_ai_checkpoint) ::
          sweep boundaries content is_ai_checkpoint pending' active'' line_nums'
      end
  end.

(** ** Merging lines *)

Fixpoint merge_lines_loop (current : option (str * option str)) (current_start : Z) (idx : nat)
    (line_authorship : list (option (str * option str))) : list LineAttribution :=
  let close (e : Z) (a : str * option str) := mkLineAttr current_start e a.1 a.2 in
  match line_authorship with
  | [] =>
      match current with
      | Some a => [close (u32_wrap (Z.of_nat idx)) a]
      | None => []
      end
  | authorship :: rest =>
      let line_num := u32_wrap (Z.of_nat (S idx)) in
      match current, authorship with
      | None, None => merge_lines_loop None current_start (S idx) rest
      | None, Some _ => merge_lines_loop authorship line_num (S idx) rest
      | Some a, None =>
          close (u32_sub line_num 1) a :: merge_lines_loop None current_start (S idx) rest
      | Some a, Some a' =>
          if bool_decide (a = a') then merge_lines_loop current current_start (S idx) rest
          else close (u32_sub line_num 1) a :: merge_lines_loop authorship line_num (S idx) rest
      end
  end.

Definition merge_consecutive_line_attributions (line_authorship : list (option (str * option str))) :
    list LineAttribution :=
  merge_lines_loop None 0 0 line_authorship.

(** ** Bytes to lines *)

Definition kept_line (a : LineAttribution) : bool :=
  negb (str_eqb (line_author_id a) (to_str Human)) || bool_decide (is_Some (overrode a)).

Definition attributions_to_line_attributions_for_checkpoint (attributions : list Attribution)
    (content : str) (is_ai_checkpoint : bool) : list LineAttribution :=
  if bool_decide (content = []) || bool_decide (attributions = []) then []
  else
    let boundaries := line_boundaries content in
    let line_count := LineMeta.line_count boundaries in
    if (line_count =? 0)%Z then []
    else
      let line_authors :=
        sweep boundaries content is_ai_checkpoint (sorted_indices attributions) []
          (map (λ k, Z.of_nat (S k)) (seq 0 (Z.to_nat line_count))) in
      List.filter kept_line (merge_consecutive_line_attributions line_authors).

Definition attributions_to_line_attributions (attributions : list Attribution) (content : str) :
    list LineAttribution :=
  attributions_to_line_attributions_for_checkpoint attributions content false.

(** ** Reference *)

(** The attributions that meet a line, in the order of the sweep. *)
Definition meeting (attributions : list Attribution) (line_start line_end : nat) : list Attribution :=
  map snd (List.filter (λ a : indexed, overlaps a.2 line_start line_end) (sorted_indices attributions)).

(** The author of line [k] (from 0), on its own. *)
Definition line_owner (attributions : list Attribution) (content : str) (is_ai_checkpoint : bool)
    (k : nat) : str * option str :=
  let line_start := line_offset content k in
  let line_end := line_offset content (S k) in
  find_dominant_author_for_line_candidates line_start line_end
    (blank (slice line_start line_end content)) (meeting attributions line_start line_end)
    content is_ai_checkpoint.

End LineProjection.

(** ** Lemmas *)

Module LineProjectionFacts.
Import Attribution AttributionFacts ImaraDiff LineMeta LineMetaFacts WorkingLog LineProjection.

(** *** The sweep *)

Lemma index_key_le_spec a b :
  index_key_le a b = true ↔
  start a.2 < start b.2 ∨ start a.2 = start b.2 ∧
    (end_ a.2 < end_ b.2 ∨ end_ a.2 = end_ b.2 ∧ a.1 ≤ b.1).
Proof.
  destruct a as [i x], b as [j y]. unfold index_key_le. simpl.
  destruct (Nat.eqb_spec (start x) (start y)), (Nat.eqb_spec (end_ x) (end_ y));
    rewrite Nat.leb_le; lia.
Qed.

Lemma sorted_indices_starts attributions :
  StronglySorted (λ a b : indexed, start a.2 ≤ start b.2) (sorted_indices attributions).
Proof.
  assert (StronglySorted (λ a b, index_key_le a b = true) (sorted_indices attributions)) as H.
  { apply sort_by_sorted.
    - intros a b c. rewrite !index_key_le_spec. lia.
    - intros a b. rewrite !index_key_le_spec. lia. }
  eapply StronglySorted_weaken; [|exact H]. intros a b. rewrite index_key_le_spec. lia.
Qed.

Lemma activate_spec e pending active pending' active' :
  activate e pending active = (pending', active') →
  ∃ taken, pending = taken ++ pending' ∧ active' = active ++ taken ∧
    Forall (λ a, start a.2 < e) taken ∧ (∀ a, head pending' = Some a → e ≤ start a.2).
Proof.
  revert active. induction pending as [|a pending IH]; intros active; cbn [activate].
  { intros [= <- <-]. exists []. rewrite (app_nil_r active). split_and!; [done|done|constructor|intros a [=]]. }
  destruct (Nat.ltb_spec (start a.2) e).
  - intros (taken & -> & -> & Ht & Hh)%IH. exists (a :: taken). rewrite <-app_assoc. auto.
  - intros [= <- <-]. exists []. rewrite app_nil_r. split_and!; try done. intros a' [= <-]. done.
Qed.

Lemma get_line_range_spec content k :
  k < length (lines_of content) →
  get_line_range (line_boundaries content) (Z.of_nat (S k)) =
  Some (line_offset content k, line_offset content (S k)).
Proof.
  intros Hk. unfold get_line_range. rewrite line_boundaries_spec, length_imap.
  destruct (Z.ltb_spec (Z.of_nat (S k)) 1); [lia|].
  destruct (Z.ltb_spec (Z.of_nat (length (lines_of content))) (Z.of_nat (S k))); [lia|]. simpl.
  replace (Z.to_nat (Z.of_nat (S k)) - 1) with k by lia. rewrite list_lookup_imap.
  by destruct (lookup_lt_is_Some_2 _ _ Hk) as [l ->].
Qed.

Lemma get_line_range_Z content l :
  (1 <= l <= Z.of_nat (length (lines_of content)))%Z →
  get_line_range (line_boundaries content) l =
  Some (line_offset content (Z.to_nat l - 1), line_offset content (Z.to_nat l)).
Proof.
  intros Hl. pose proof (get_line_range_spec content (Z.to_nat l - 1) ltac:(lia)) as H.
  replace (S (Z.to_nat l - 1)) with (Z.to_nat l) in H by lia. by rewrite Z2Nat.id in H by lia.
Qed.

Section Sweep.
Context (content : str) (ai : bool) (attributions : list Attribution).

Lemma sweep_spec m k pre pending s e :
  sorted_indices attributions = pre ++ pending → Forall (λ a : indexed, start a.2 < e) pre →
  s ≤ line_offset content k → e ≤ line_offset content (S k) →
  k + m ≤ length (lines_of content) →
  sweep (line_boundaries content) content ai pending
    (List.filter (λ a : indexed, overlaps a.2 s e) pre) (map (λ k, Z.of_nat (S k)) (seq k m)) =
  map (λ k, Some (line_owner attributions content ai k)) (seq k m).
Proof.
  revert k pre pending s e. induction m as [|m IH]; intros k pre pending s e Hs Hpre Hle He Hk; [done|].
  cbn [seq map sweep]. rewrite get_line_range_spec by lia.
  set (s' := line_offset content k) in *. set (e' := line_offset content (S k)) in *.
  destruct (activate e' pending _) as [pending' active'] eqn:Ea.
  apply activate_spec in Ea as (taken & -> & -> & Ht & Hh).
  assert (retain_active s' e' (List.filter (λ a : indexed, overlaps a.2 s e) pre ++ taken) =
    List.filter (λ a : indexed, overlaps a.2 s' e') (pre ++ taken)) as Er.
  { unfold retain_active, overlaps. rewrite !List.filter_app. f_equal.
    apply filter_sub. intros a Ha [H1 H2]%andb_true_iff. rewrite Forall_forall in Hpre.
    specialize (Hpre a Ha). simpl in Hpre. apply Nat.ltb_lt in H2.
    apply andb_true_iff; rewrite !Nat.ltb_lt; lia. }
  rewrite Er. f_equal.
  - f_equal. unfold line_owner. fold s' e'. f_equal. unfold meeting. f_equal.
    rewrite Hs, app_assoc, (List.filter_app _ (pre ++ taken)). rewrite (filter_none _ pending'); [by rewrite app_nil_r|].
    intros a Ha. unfold overlaps. apply andb_false_iff. left. apply Nat.ltb_ge.
    pose proof (sorted_indices_starts attributions) as Hsort. rewrite Hs, app_assoc in Hsort.
    apply StronglySorted_app_1_r in Hsort. destruct pending' as [|b pending']; [by apply not_elem_of_nil in Ha|].
    specialize (Hh b eq_refl). apply elem_of_cons in Ha as [->|Ha]; [done|].
    apply StronglySorted_inv in Hsort as [_ Hf]. rewrite Forall_forall in Hf. specialize (Hf a Ha). simpl in Hf. lia.
  - apply IH; try done; try lia.
    + by rewrite <-app_assoc.
    + apply Forall_app. split; [|done]. eapply Forall_impl; [exact Hpre|]. simpl. lia.
    + apply line_offset_mono. lia.
    + apply line_offset_mono. lia.
Qed.

Lemma sweep_lines :
  sweep (line_boundaries content) content ai (sorted_indices attributions) []
    (map (λ k, Z.of_nat (S k)) (seq 0 (length (lines_of content)))) =
  map (λ k, Some (line_owner attributions content ai k)) (seq 0 (length (lines_of content))).
Proof. by apply (sweep_spec _ 0 [] _ 0 0); try lia. Qed.
End Sweep.

(** *** Merging lines *)

(** What a list of line attributions says of a line. *)
Definition line_owned (la : list LineAttribution) (l : Z) (w : str * option str) : Prop :=
  ∃ a, a ∈ la ∧ covers_line a l = true ∧ (line_author_id a, overrode a) = w.

Definition line_author (a : LineAttribution) : str * option str := (line_author_id a, overrode a).

(** Ranges in order, and maximal: neighbours have different authors. *)
Definition before (a b : LineAttribution) : Prop :=
  (end_line a < start_line b ∧ start_line b <= end_line b ∧
   (end_line a + 1 = start_line b → line_author a ≠ line_author b))%Z.

Definition canonical (la : list LineAttribution) : Prop :=
  Forall (λ a, start_line a <= end_line a)%Z la ∧ StronglySorted before la.

Lemma line_owned_nil l w : line_owned [] l w ↔ False.
Proof. unfold line_owned. split; [|done]. intros (a & H & _). by apply not_elem_of_nil in H. Qed.

Lemma line_owned_cons a la l w :
  line_owned (a :: la) l w ↔ covers_line a l = true ∧ line_author a = w ∨ line_owned la l w.
Proof.
  unfold line_owned, line_author. setoid_rewrite elem_of_cons. naive_solver.
Qed.

(** Cases on where a line lies. *)
Ltac case_line l k :=
  destruct (decide (l = k)); intuition first [lia | congruence].

(** The loop denotes the open range and the authors of the lines left. *)
Lemma merge_lines_owned current c idx authors l w :
  (Z.of_nat (idx + length authors) <= u32_max)%Z → (current ≠ None → c < idx) →
  line_owned (merge_lines_loop current (Z.of_nat (S c)) idx authors) l w ↔
  (current = Some w ∧ Z.of_nat c + 1 <= l <= Z.of_nat idx)%Z ∨
  (∃ j, authors !! j = Some (Some w) ∧ l = Z.of_nat (idx + j + 1)).
Proof.
  revert current c idx. induction authors as [|a authors IH]; intros current c idx Hb Hc;
    cbn [merge_lines_loop]; simpl in Hb.
  - rewrite u32_wrap_small by (unfold is_u32; lia). destruct current as [[x o]|].
    + rewrite line_owned_cons, line_owned_nil, covers_line_true. simpl. unfold line_author. simpl.
      split; [intros [[? <-]|[]]; left; split; [done|lia]|].
      intros [[[= <-] ?]|(j & ? & _)]; [left; split; [lia|done]|done].
    + rewrite line_owned_nil. split; [done|]. intros [[? _]|(j & ? & _)]; done.
  - rewrite u32_wrap_small by (unfold is_u32; lia). rewrite u32_sub_small by (unfold is_u32; lia).
    assert (∀ P : Prop, (P ∨ (∃ j, authors !! j = Some (Some w) ∧ l = Z.of_nat (S idx + j + 1)) ↔
      P ∨ (∃ j, (a :: authors) !! S j = Some (Some w) ∧ l = Z.of_nat (idx + S j + 1)))) as Hshift.
    { intros P. split; (intros [?|(j & ? & ->)]; [by left|right; exists j; split; [done|lia]]). }
    assert ((∃ j, (a :: authors) !! j = Some (Some w) ∧ l = Z.of_nat (idx + j + 1)) ↔
      (a = Some w ∧ l = Z.of_nat (S idx)) ∨
      (∃ j, (a :: authors) !! S j = Some (Some w) ∧ l = Z.of_nat (idx + S j + 1))) as Hhead.
    { split.
      - intros ([|j] & Hj & ->); [left; simpl in Hj; split; [by injection Hj|lia]|right; eauto].
      - intros [[-> ->]|(j & ? & ->)]; [exists 0; split; [done|lia]|by exists (S j)]. }
    rewrite Hhead. clear Hhead. destruct current as [x|], a as [y|].
    + case_bool_decide as E.
      * subst y. rewrite IH by (lia || (intros; specialize (Hc ltac:(done)); lia)). rewrite Hshift.
        specialize (Hc ltac:(done)). clear -Hc. case_line l (Z.of_nat (S idx)).
      * rewrite line_owned_cons, covers_line_true, IH by lia. rewrite Hshift. unfold line_author. simpl.
        specialize (Hc ltac:(done)). destruct x as [x o]. simpl. clear -Hc.
        case_line l (Z.of_nat (S idx)).
    + rewrite line_owned_cons, covers_line_true. unfold line_author. simpl.
      rewrite IH by (lia || done). rewrite Hshift. specialize (Hc ltac:(done)). destruct x as [x o]. simpl.
      clear -Hc. case_line l (Z.of_nat (S idx)).
    + rewrite IH by lia. rewrite Hshift. clear. case_line l (Z.of_nat (S idx)).
    + rewrite IH by (lia || done). rewrite Hshift. clear. case_line l (Z.of_nat (S idx)).
Qed.

(** Its ranges start at the open range or later, in order and maximal. *)
Definition starts_from (current : option (str * option str)) (c idx : Z) (a : LineAttribution) : Prop :=
  match current with
  | Some w =>
      (start_line a = c ∧ line_author a = w ∨ idx < start_line a ∧ (start_line a = idx + 1 → line_author a ≠ w))%Z
  | None => (idx < start_line a)%Z
  end.

Lemma canonical_cons a la :
  (start_line a <= end_line a)%Z → canonical la →
  (∀ b, b ∈ la → end_line a < start_line b ∧
     (end_line a + 1 = start_line b → line_author a ≠ line_author b))%Z →
  canonical (a :: la).
Proof.
  intros Ha [Hf Hs] Hb. split; [by constructor|]. constructor; [done|].
  rewrite Forall_forall in *. intros b Hin. specialize (Hb b Hin) as [? ?]. specialize (Hf b Hin).
  done.
Qed.

Lemma merge_lines_canonical current c idx authors :
  (Z.of_nat (idx + length authors) <= u32_max)%Z → (current ≠ None → c < idx) →
  let la := merge_lines_loop current (Z.of_nat (S c)) idx authors in
  canonical la ∧ ∀ a, a ∈ la → starts_from current (Z.of_nat (S c)) (Z.of_nat idx) a.
Proof.
  revert current c idx. induction authors as [|a authors IH]; intros current c idx Hb Hc;
    cbn [merge_lines_loop]; simpl in Hb.
  - rewrite u32_wrap_small by (unfold is_u32; lia). destruct current as [w|]; [specialize (Hc ltac:(done))|].
    + split; [|by intros a ->%list_elem_of_singleton; left; destruct w].
      apply canonical_cons; [simpl; lia|by repeat constructor|]. intros b Hin. by apply not_elem_of_nil in Hin.
    + split; [by repeat constructor|]. intros b Hin. by apply not_elem_of_nil in Hin.
  - rewrite u32_wrap_small by (unfold is_u32; lia). rewrite u32_sub_small by (unfold is_u32; lia).
    destruct current as [x|], a as [y|]; [case_bool_decide as E| | |].
    + subst y. destruct (IH (Some x) c (S idx)) as [Hcan Hs]; [lia|intros; specialize (Hc ltac:(done)); lia|].
      split; [done|]. intros b Hin. destruct (Hs b Hin) as [?|[? ?]]; [by left|right; split; lia].
    + destruct (IH (Some y) idx (S idx)) as [Hcan Hs]; [lia|lia|]. specialize (Hc ltac:(done)). split.
      * apply canonical_cons; [simpl; lia|done|]. intros b Hin. simpl.
        destruct (Hs b Hin) as [[? Hw]|[? ?]]; [|lia]. split; [lia|]. intros _. rewrite Hw. by destruct x.
      * intros b [->|Hin]%elem_of_cons; [left; by destruct x|].
        destruct (Hs b Hin) as [[? Hw]|[? ?]]; right; split; [lia| |lia|lia]. intros _. rewrite Hw. congruence.
    + destruct (IH None c (S idx)) as [Hcan Hs]; [lia|done|]. specialize (Hc ltac:(done)). split.
      * apply canonical_cons; [simpl; lia|done|]. intros b Hin. specialize (Hs b Hin). simpl in *. lia.
      * intros b [->|Hin]%elem_of_cons; [left; by destruct x|]. specialize (Hs b Hin). simpl in Hs.
        right. lia.
    + destruct (IH (Some y) idx (S idx)) as [Hcan Hs]; [lia|lia|]. split; [done|].
      intros b Hin. specialize (Hs b Hin). simpl in *. lia.
    + destruct (IH None c (S idx)) as [Hcan Hs]; [lia|done|]. split; [done|].
      intros b Hin. specialize (Hs b Hin). simpl in *. lia.
Qed.

Lemma merge_lines_start s s' idx authors :
  merge_lines_loop None s idx authors = merge_lines_loop None s' idx authors.
Proof. revert idx. induction authors as [|[w|] authors IH]; intros idx; simpl; [done|done|apply IH]. Qed.

Lemma merge_consecutive_owned authors l w :
  (Z.of_nat (length authors) <= u32_max)%Z →
  line_owned (merge_consecutive_line_attributions authors) l w ↔
  ∃ j, authors !! j = Some (Some w) ∧ l = Z.of_nat (S j).
Proof.
  intros Hb. unfold merge_consecutive_line_attributions. rewrite (merge_lines_start _ (Z.of_nat 1)).
  rewrite (merge_lines_owned None 0 0) by done. split.
  - intros [[? _]|(j & ? & ->)]; [done|]. exists j. split; [done|lia].
  - intros (j & ? & ->). right. exists j. split; [done|lia].
Qed.

Lemma merge_consecutive_canonical authors :
  (Z.of_nat (length authors) <= u32_max)%Z →
  canonical (merge_consecutive_line_attributions authors) ∧
  ∀ a, a ∈ merge_consecutive_line_attributions authors → (1 <= start_line a)%Z.
Proof.
  intros Hb. unfold merge_consecutive_line_attributions. rewrite (merge_lines_start _ (Z.of_nat 1)).
  destruct (merge_lines_canonical None 0 0 authors) as [? Hs]; [done|done|]. split; [done|].
  intros a Ha. specialize (Hs a Ha). simpl in Hs. lia.
Qed.

(** Two canonical lists that say the same of every line are equal. *)
Lemma canonical_first a la l w :
  canonical (a :: la) → line_owned (a :: la) l w →
  (start_line a <= l)%Z ∧ ((l <= end_line a)%Z → w = line_author a).
Proof.
  intros [Hf [_ Hs]%StronglySorted_inv] (b & Hb & Hl%covers_line_true & <-).
  apply elem_of_cons in Hb as [->|Hb]; [split; [lia|done]|].
  apply Forall_cons in Hf as [Ha _]. rewrite Forall_forall in Hs. destruct (Hs b Hb) as (? & ? & _). lia.
Qed.

Lemma canonical_tail a la l w :
  canonical (a :: la) → line_owned la l w ↔ line_owned (a :: la) l w ∧ (end_line a < l)%Z.
Proof.
  intros [Hf [_ Hs]%StronglySorted_inv]. rewrite line_owned_cons, covers_line_true. split.
  - intros Ho. split; [by right|]. destruct Ho as (b & Hb & Hl%covers_line_true & _).
    rewrite Forall_forall in Hs. destruct (Hs b Hb) as (? & ? & _). lia.
  - intros [[[? _]|?] ?]; [lia|done].
Qed.

(** The range of the first element cannot be shorter than the other's. *)
Lemma canonical_end a la b lb :
  canonical (a :: la) → canonical (b :: lb) → start_line a = start_line b →
  line_author a = line_author b → (∀ l w, line_owned (a :: la) l w ↔ line_owned (b :: lb) l w) →
  (end_line b <= end_line a)%Z.
Proof.
  intros Ca Cb Es Ew H. destruct (Z.leb_spec (end_line b) (end_line a)) as [|Hlt]; [done|]. exfalso.
  pose proof Ca as [Hf [_ Hs]%StronglySorted_inv]. apply Forall_cons in Hf as [Ha _].
  assert (line_owned (b :: lb) (end_line a + 1) (line_author b)) as Ho
    by (rewrite line_owned_cons, covers_line_true; left; split; [lia|done]).
  apply H in Ho. assert (line_owned la (end_line a + 1) (line_author b)) as (x & Hx & Hl%covers_line_true & Hw)
    by (apply (canonical_tail a); [done|]; split; [done|lia]).
  rewrite Forall_forall in Hs. destruct (Hs x Hx) as (? & ? & Hne). apply Hne; [lia|].
  rewrite Ew. by rewrite <-Hw.
Qed.

Lemma canonical_unique la lb :
  canonical la → canonical lb → (∀ l w, line_owned la l w ↔ line_owned lb l w) → la = lb.
Proof.
  revert lb. induction la as [|a la IH]; intros [|b lb] Ca Cb H; [done| | |].
  - exfalso. pose proof Cb as [Hf _]. apply Forall_cons in Hf as [Hb _].
    apply (line_owned_nil (start_line b) (line_author b)), H. rewrite line_owned_cons, covers_line_true. left.
    split; [lia|done].
  - exfalso. pose proof Ca as [Hf _]. apply Forall_cons in Hf as [Ha _].
    apply (line_owned_nil (start_line a) (line_author a)), H. rewrite line_owned_cons, covers_line_true. left.
    split; [lia|done].
  - assert (∀ x ls, canonical (x :: ls) → line_owned (x :: ls) (start_line x) (line_author x)) as Hown.
    { intros x ls [Hf _]. apply Forall_cons in Hf as [Hx _]. rewrite line_owned_cons, covers_line_true. left.
      split; [lia|done]. }
    pose proof (proj1 (H _ _) (Hown _ _ Ca)) as Hab. pose proof (proj2 (H _ _) (Hown _ _ Cb)) as Hba.
    apply (canonical_first _ _ _ _ Cb) in Hab as [H1 H1']. apply (canonical_first _ _ _ _ Ca) in Hba as [H2 H2'].
    assert (start_line a = start_line b) as Es by lia.
    assert (line_author a = line_author b) as Ew.
    { apply H1'. destruct Cb as [Hf _]. apply Forall_cons in Hf as [Hb _]. lia. }
    assert (end_line a = end_line b) as Ee.
    { apply Z.le_antisymm; [by apply (canonical_end b lb a la)|by apply (canonical_end a la b lb)]. }
    assert (a = b) as <-.
    { destruct a, b. unfold line_author in Ew. simpl in *. congruence. }
    f_equal. apply IH.
    + destruct Ca as [Hf Hs]. apply Forall_cons in Hf as [_ Hf]. apply StronglySorted_inv in Hs as [Hs _]. done.
    + destruct Cb as [Hf Hs]. apply Forall_cons in Hf as [_ Hf]. apply StronglySorted_inv in Hs as [Hs _]. done.
    + intros l w. rewrite (canonical_tail a la), (canonical_tail a lb) by done. by rewrite H.
Qed.

(** *** The projection *)

Definition kept_author (w : str * option str) : Prop := w.1 ≠ to_str Human ∨ w.2 ≠ None.

Lemma kept_line_spec a : kept_line a = true ↔ kept_author (line_author a).
Proof.
  unfold kept_line, kept_author, line_author. simpl.
  rewrite orb_true_iff, negb_true_iff, bool_decide_eq_true, <-not_true_iff_false, str_eqb_eq, <-not_eq_None_Some.
  done.
Qed.

Lemma line_owned_filter la l w :
  line_owned (List.filter kept_line la) l w ↔ line_owned la l w ∧ kept_author w.
Proof.
  unfold line_owned. setoid_rewrite elem_of_filter_b. setoid_rewrite kept_line_spec.
  unfold line_author. naive_solver.
Qed.

Lemma canonical_filter p la : canonical la → canonical (List.filter p la).
Proof.
  intros [Hf Hs]. split; [|by apply StronglySorted_filter].
  rewrite List.Forall_forall in *. intros x [Hx _]%filter_In. by apply Hf.
Qed.

Lemma line_owner_nil content ai k : line_owner [] content ai k = (to_str Human, None).
Proof. done. Qed.

Section Projection.
Context (attributions : list Attribution) (content : str) (ai : bool).
Hypothesis few_lines : (Z.of_nat (length (lines_of content)) <= u32_max)%Z.

Lemma projection_sweep :
  content ≠ [] → attributions ≠ [] →
  attributions_to_line_attributions_for_checkpoint attributions content ai =
  List.filter kept_line (merge_consecutive_line_attributions
    (map (λ k, Some (line_owner attributions content ai k)) (seq 0 (length (lines_of content))))).
Proof.
  intros Hc Ha. unfold attributions_to_line_attributions_for_checkpoint.
  rewrite !bool_decide_false by done. cbn [orb]. cbv zeta.
  assert (LineMeta.line_count (line_boundaries content) = Z.of_nat (length (lines_of content))) as ->.
  { unfold LineMeta.line_count. rewrite line_boundaries_spec, length_imap, u32_wrap_small; [done|].
    unfold is_u32. lia. }
  rewrite Nat2Z.id, sweep_lines. case_match eqn:E; [|done].
  apply Z.eqb_eq in E. by replace (length (lines_of content)) with 0 by lia.
Qed.

Lemma projection_owned l w :
  line_owned (attributions_to_line_attributions_for_checkpoint attributions content ai) l w ↔
  ∃ k, k < length (lines_of content) ∧ l = Z.of_nat (S k) ∧ line_owner attributions content ai k = w ∧
    kept_author w.
Proof.
  destruct (decide (content = [])) as [E|Hc].
  { subst content. cbn. rewrite line_owned_nil. split; [done|]. intros (k & ? & _). lia. }
  destruct (decide (attributions = [])) as [E|Ha].
  { subst attributions. unfold attributions_to_line_attributions_for_checkpoint.
    rewrite (bool_decide_true ([] = [])), orb_true_r, line_owned_nil by done. split; [done|].
    intros (k & _ & _ & <- & [H|H]); rewrite line_owner_nil in H; done. }
  rewrite projection_sweep, line_owned_filter, merge_consecutive_owned by (rewrite ?length_map, ?length_seq; done).
  split.
  - intros [(j & Hj & ->) Hk]. change (map ?f ?x) with (f <$> x) in Hj. rewrite list_lookup_fmap in Hj.
    destruct (seq 0 _ !! j) as [k|] eqn:Ek; [|done]. apply lookup_seq in Ek as [-> ?]. injection Hj as Hj.
    exists j. simpl. auto.
  - intros (k & Hk & -> & Hw & Hkept). split; [|done]. exists k. split; [|done].
    change (map ?f ?x) with (f <$> x). rewrite list_lookup_fmap, lookup_seq_lt by done. simpl. by rewrite Hw.
Qed.

Lemma projection_canonical :
  canonical (attributions_to_line_attributions_for_checkpoint attributions content ai).
Proof.
  assert (canonical []) as Hnil by (repeat constructor).
  destruct (decide (content = [])) as [E|Hc]; [by subst content|].
  destruct (decide (attributions = [])) as [E|Ha].
  { subst attributions. unfold attributions_to_line_attributions_for_checkpoint.
    by rewrite (bool_decide_true ([] = [])), orb_true_r by done. }
  rewrite projection_sweep by done. apply canonical_filter, merge_consecutive_canonical.
  by rewrite length_map, length_seq.
Qed.
End Projection.

(** *** The author of a line *)

(** The first of the latest. *)
Lemma foldl_later rest first :
  ∃ pre a post, first :: rest = pre ++ a :: post ∧ foldl later first rest = a ∧
    Forall (λ b, ts b < ts a)%N pre ∧ Forall (λ b, ts b <= ts a)%N post.
Proof.
  induction rest as [|b rest IH] using rev_ind; [by exists [], first, []|].
  destruct IH as (pre & a & post & E & Ea & Hpre & Hpost). rewrite foldl_app, Ea. simpl. unfold later.
  rewrite app_comm_cons, E. destruct (N.ltb_spec (ts a) (ts b)).
  - exists (pre ++ a :: post), b, []. split_and!; [done..| |done].
    apply Forall_app. split; [eapply Forall_impl; [exact Hpre|simpl; lia]|].
    constructor; [done|]. eapply Forall_impl; [exact Hpost|]. simpl. lia.
  - exists pre, a, (post ++ [b]). split_and!; [by rewrite <-app_assoc|done..|].
    apply Forall_app. split; [done|]. by constructor.
Qed.

Lemma last_edit_spec human cs :
  last_edit human cs = list.last (List.filter (λ a, Bool.eqb (human_author (author_id a)) human) cs).
Proof.
  unfold last_edit. induction cs as [|a cs IH] using rev_ind; [done|].
  rewrite foldl_app, List.filter_app. simpl. case_match; [by rewrite last_snoc|].
  by rewrite app_nil_r, IH.
Qed.

Lemma dominant_single s e empty cs content ai w :
  cs ≠ [] → Forall (λ a, author_id a = w ∧ takes_part content s e empty ai a = true) cs →
  find_dominant_author_for_line_candidates s e empty cs content ai = (w, None).
Proof.
  intros Hne Hcs. unfold find_dominant_author_for_line_candidates.
  assert (List.filter (takes_part content s e empty ai) cs = cs) as ->.
  { clear Hne. induction Hcs as [|a cs [_ Ha] _ IH]; simpl; [done|]. by rewrite Ha, IH. }
  destruct cs as [|a cs]; [done|]. destruct (foldl_later cs a) as (pre & x & post & E & Ex & _).
  rewrite Forall_forall in Hcs. f_equal.
  - rewrite Ex. apply Hcs. rewrite E. set_solver.
  - unfold line_override. rewrite !last_edit_spec.
    destruct (list.last _) as [x1|] eqn:E1; [|done]. destruct (list.last (List.filter _ _)) as [x2|] eqn:E2 in |- *; [|done].
    apply last_Some_elem_of, elem_of_filter_b in E1 as [H1 K1], E2 as [H2 K2].
    apply Hcs in H1 as [H1 _], H2 as [H2 _]. rewrite H1 in K1. rewrite H2 in K2.
    by destruct (human_author w).
Qed.

Lemma elem_of_meeting attributions s e a :
  a ∈ meeting attributions s e ↔ a ∈ attributions ∧ overlaps a s e = true.
Proof.
  unfold meeting, sorted_indices. rewrite list_elem_of_In, in_map_iff. split.
  - intros ([i x] & <- & Hin). apply list_elem_of_In, elem_of_filter_b in Hin as [Hin Ho].
    apply elem_of_sort_by, elem_of_lookup_imap in Hin as (j & y & [= -> ->] & Hy).
    split; [by eapply list_elem_of_lookup_2|done].
  - intros [[i Hi]%list_elem_of_lookup Ho]. exists (i, a). split; [done|].
    apply list_elem_of_In, elem_of_filter_b. split; [|done]. apply elem_of_sort_by, elem_of_lookup_imap. eauto.
Qed.

Lemma index_key_le_trans a b c :
  index_key_le a b = true → index_key_le b c = true → index_key_le a c = true.
Proof. rewrite !index_key_le_spec. lia. Qed.

Lemma index_key_le_total a b : index_key_le a b = true ∨ index_key_le b a = true.
Proof. rewrite !index_key_le_spec. lia. Qed.

(** An attribution that meets no line does not count. *)
Lemma meeting_snoc attributions m s e :
  overlaps m s e = false → meeting (attributions ++ [m]) s e = meeting attributions s e.
Proof.
  intros Hm. unfold meeting, sorted_indices.
  rewrite !(filter_sort_by _ index_key_le_trans index_key_le_total). do 2 f_equal.
  rewrite imap_app, List.filter_app. simpl. rewrite Hm. by rewrite app_nil_r.
Qed.

(** *** Lines to bytes and back *)

Definition lines_within (n : nat) (la : list LineAttribution) : Prop :=
  Forall (λ a, 1 <= start_line a ∧ end_line a <= Z.of_nat n)%Z la.

Lemma elem_of_line_bytes la content t x :
  canonical la → lines_within (length (lines_of content)) la →
  x ∈ line_attributions_to_attributions la content t ↔
  ∃ a, a ∈ la ∧ x = mkAttr (line_offset content (Z.to_nat (start_line a) - 1))
                      (line_offset content (Z.to_nat (end_line a))) (line_author_id a) t.
Proof.
  intros [Hle _] Hw. unfold line_attributions_to_attributions. unfold lines_within in Hw.
  destruct (decide (la = [])) as [->|Hla].
  { simpl. split; [intros H; by apply not_elem_of_nil in H|intros (a & H & _); by apply not_elem_of_nil in H]. }
  destruct (decide (content = [])) as [->|Hc].
  { exfalso. destruct la as [|a la]; [done|]. apply Forall_cons in Hle as [? _], Hw as [[? ?] _]. simpl in *. lia. }
  rewrite !bool_decide_false by done. cbn [orb]. rewrite Forall_forall in Hle. rewrite Forall_forall in Hw.
  assert (∀ a, a ∈ la →
    match get_line_range (line_boundaries content) (start_line a),
          get_line_range (line_boundaries content) (end_line a) with
    | Some (start_char, _), Some (_, end_char) => Some (mkAttr start_char end_char (line_author_id a) t)
    | _, _ => None end =
    Some (mkAttr (line_offset content (Z.to_nat (start_line a) - 1))
            (line_offset content (Z.to_nat (end_line a))) (line_author_id a) t)) as E.
  { intros a Ha. specialize (Hle a Ha). destruct (Hw a Ha). simpl in Hle.
    by rewrite !get_line_range_Z by lia. }
  rewrite list_elem_of_omap. split.
  - intros (a & Ha & Hx). rewrite E in Hx by done. injection Hx as <-. eauto.
  - intros (a & Ha & ->). exists a. split; [done|]. by apply E.
Qed.

(** Such a range meets a line exactly when it covers it. *)
Lemma offsets_overlap content i j k w t :
  i < j → j ≤ length (lines_of content) → k < length (lines_of content) →
  overlaps (mkAttr (line_offset content i) (line_offset content j) w t)
    (line_offset content k) (line_offset content (S k)) = true ↔ i ≤ k < j.
Proof.
  intros Hij Hj Hk. rewrite overlaps_true. simpl. split.
  - intros [H1 H2]. split.
    + destruct (decide (i ≤ k)); [done|]. pose proof (line_offset_mono content (S k) i). lia.
    + destruct (decide (k < j)); [done|]. pose proof (line_offset_mono content j k). lia.
  - intros [H1 H2]. pose proof (line_offset_mono content i k H1).
    pose proof (line_offset_mono content (S k) j). pose proof (line_offset_lt content k (S k)). lia.
Qed.

(** It covers the whole line, so it takes part in the choice. *)
Lemma whole_line_takes_part content i j k w t ai :
  is_utf8 content = true → i ≤ k < j → j ≤ length (lines_of content) →
  takes_part content (line_offset content k) (line_offset content (S k))
    (blank (slice (line_offset content k) (line_offset content (S k)) content)) ai
    (mkAttr (line_offset content i) (line_offset content j) w t) = true.
Proof.
  intros Hu Hk Hj. unfold takes_part. rewrite (proj2 (offsets_overlap content i j k w t ltac:(lia) Hj ltac:(lia))) by done.
  cbn [andb start end_]. destruct (blank _) eqn:Eb; [by rewrite orb_true_r|].
  unfold has_non_whitespace. cbn [start end_].
  pose proof (line_offset_mono content i k). pose proof (line_offset_mono content (S k) j).
  pose proof (line_offset_lt content k (S k)).
  rewrite (Nat.max_l _ (line_offset content i)), (Nat.min_l _ (line_offset content j)) by lia.
  rewrite !(boundary_is_char_boundary _ _ (boundary_line_offset _ _ Hu)).
  rewrite (proj2 (Nat.ltb_lt _ _)) by lia. by rewrite Eb.
Qed.

Lemma canonical_disjoint la a b l :
  canonical la → a ∈ la → b ∈ la → covers_line a l = true → covers_line b l = true → a = b.
Proof.
  intros [Hf Hs]. rewrite !covers_line_true. intros Ha Hb Hla Hlb.
  apply list_elem_of_split in Ha as (l1 & l2 & ->). rewrite elem_of_app, elem_of_cons in Hb.
  destruct Hb as [Hb|[->|Hb]]; [|done|].
  - destruct (StronglySorted_app_1_elem_of _ _ _ b a Hs Hb ltac:(left)) as (? & _). lia.
  - apply StronglySorted_app_1_r, StronglySorted_inv in Hs as [_ Hs]. rewrite Forall_forall in Hs.
    destruct (Hs b Hb) as (? & _). lia.
Qed.

(** The authors of the lines after the way to bytes. *)
Lemma round_trip_owner la content t ai k :
  is_utf8 content = true → canonical la → lines_within (length (lines_of content)) la →
  k < length (lines_of content) →
  (∀ a, a ∈ la → covers_line a (Z.of_nat (S k)) = true →
     line_owner (line_attributions_to_attributions la content t) content ai k = (line_author_id a, None)) ∧
  ((∀ a, a ∈ la → covers_line a (Z.of_nat (S k)) = false) →
     line_owner (line_attributions_to_attributions la content t) content ai k = (to_str Human, None)).
Proof.
  intros Hu Hcan Hw Hk.
  set (bytes := λ a, mkAttr (line_offset content (Z.to_nat (start_line a) - 1))
    (line_offset content (Z.to_nat (end_line a))) (line_author_id a) t).
  assert (∀ a, a ∈ la → (1 <= start_line a <= end_line a)%Z ∧ (end_line a <= Z.of_nat (length (lines_of content)))%Z) as Hb.
  { intros a Ha. destruct Hcan as [Hf _]. rewrite Forall_forall in Hf. unfold lines_within in Hw.
    rewrite Forall_forall in Hw. specialize (Hf a Ha). destruct (Hw a Ha). simpl in Hf. lia. }
  assert (∀ x, x ∈ meeting (line_attributions_to_attributions la content t) (line_offset content k) (line_offset content (S k)) ↔
    ∃ a, a ∈ la ∧ covers_line a (Z.of_nat (S k)) = true ∧ x = bytes a) as Hm.
  { intros x. rewrite elem_of_meeting, elem_of_line_bytes by done. split.
    - intros [(a & Ha & ->) Ho]. destruct (Hb a Ha). rewrite offsets_overlap in Ho by lia.
      exists a. split; [done|]. split; [apply covers_line_true; lia|done].
    - intros (a & Ha & Hc%covers_line_true & ->). destruct (Hb a Ha). split; [by exists a|].
      apply offsets_overlap; lia. }
  unfold line_owner. split.
  - intros a Ha Hc. apply dominant_single.
    + intros E. apply (not_elem_of_nil (bytes a)). rewrite <-E. apply Hm. by exists a.
    + apply Forall_forall. intros x (b & Hb' & Hcb & ->)%Hm.
      assert (b = a) as -> by (by apply (canonical_disjoint la b a (Z.of_nat (S k)))).
      split; [done|]. destruct (Hb a Ha). apply covers_line_true in Hc.
      apply whole_line_takes_part; [done|lia|lia].
  - intros Hno. assert (meeting (line_attributions_to_attributions la content t) (line_offset content k)
      (line_offset content (S k)) = []) as ->; [|done].
    destruct (meeting _ _ _) as [|x xs] eqn:E; [done|]. exfalso.
    destruct (proj1 (Hm x) ltac:(left)) as (a & Ha & Hc & _). by rewrite Hno in Hc.
Qed.

End LineProjectionFacts.

(** ** Properties *)

Module LineProjectionProps.
Import Attribution AttributionFacts ImaraDiff LineMeta LineMetaFacts WorkingLog LineProjection
  LineProjectionFacts.

(** C15: the sweep computes the author of every line on its own.  The
    result is a canonical list (ranges in order, disjoint, and neighbours of
    the same author merged), and it gives line [l] the author and override
    [w] exactly when [l] is a line of the text, [w] is what the choice among
    the attributions that meet this line yields, and [w] is not a plain
    human line. *)
Theorem line_projection attributions content is_ai_checkpoint
    (few_lines : (Z.of_nat (length (lines_of content)) <= u32_max)%Z) :
  let result := attributions_to_line_attributions_for_checkpoint attributions content is_ai_checkpoint in
  canonical result ∧
  ∀ l w, line_owned result l w ↔
    ∃ k, k < length (lines_of content) ∧ l = Z.of_nat (S k) ∧
      line_owner attributions content is_ai_checkpoint k = w ∧ kept_author w.
Proof. split; [by apply projection_canonical|]. intros l w. by apply projection_owned. Qed.

(** the choice.  Without a candidate the line is human.  Otherwise the
    author is that of the candidate with the latest timestamp, the first one
    of those; and the line overrides the author [w] exactly when the last AI
    candidate, in the order of the sweep, is [w]'s and older than the last
    human one. *)
Theorem dominant_author s e line_empty cs content is_ai_checkpoint :
  let parts := List.filter (takes_part content s e line_empty is_ai_checkpoint) cs in
  let chosen := find_dominant_author_for_line_candidates s e line_empty cs content is_ai_checkpoint in
  let last human := list.last (List.filter (λ a, Bool.eqb (human_author (author_id a)) human) parts) in
  (parts = [] ∧ chosen = (to_str Human, None)) ∨
  (∃ pre a post, parts = pre ++ a :: post ∧ chosen.1 = author_id a ∧
     Forall (λ b, ts b < ts a)%N pre ∧ Forall (λ b, ts b <= ts a)%N post) ∧
  ∀ w, chosen.2 = Some w ↔
    ∃ ai h, last false = Some ai ∧ last true = Some h ∧ author_id ai = w ∧ (ts ai < ts h)%N.
Proof.
  cbv zeta. unfold find_dominant_author_for_line_candidates.
  destruct (List.filter _ cs) as [|first rest] eqn:E; [by left|]. right. split.
  - destruct (foldl_later rest first) as (pre & a & post & -> & -> & ? & ?). by exists pre, a, post.
  - intros w. cbn [snd]. unfold line_override. rewrite !last_edit_spec.
    destruct (list.last _) as [ai|]; [|naive_solver].
    destruct (list.last (List.filter (λ a, Bool.eqb _ true) _)) as [h|]; [|naive_solver].
    destruct (N.ltb_spec (ts ai) (ts h)); [naive_solver|].
    split; [done|]. intros (ai' & h' & [= <-] & [= <-] & _ & ?). lia.
Qed.

(** the round trip.  A canonical list of line attributions inside the
    text, of authors other than the plain human and without overrides, comes
    back unchanged after the conversion to bytes, whatever the timestamp and
    the kind of the checkpoint. *)
Theorem line_byte_round_trip la content t is_ai_checkpoint
    (valid : is_utf8 content = true)
    (few_lines : (Z.of_nat (length (lines_of content)) <= u32_max)%Z)
    (la_canonical : canonical la) (inside : lines_within (length (lines_of content)) la)
    (authors : Forall (λ a, line_author_id a ≠ to_str Human ∧ overrode a = None) la) :
  attributions_to_line_attributions_for_checkpoint (line_attributions_to_attributions la content t)
    content is_ai_checkpoint = la.
Proof.
  apply canonical_unique; [by apply projection_canonical|done|]. intros l w.
  rewrite projection_owned by done. rewrite Forall_forall in authors. split.
  - intros (k & Hk & -> & <- & Hkept).
    destruct (round_trip_owner la content t is_ai_checkpoint k valid la_canonical inside Hk) as [Hyes Hno].
    destruct (decide (Exists (λ a, covers_line a (Z.of_nat (S k)) = true) la)) as [Hex|Hnex].
    + apply Exists_exists in Hex as (a & Ha & Hc). exists a. rewrite (Hyes a Ha Hc).
      destruct (authors a Ha) as [_ ->]. done.
    + exfalso. rewrite Hno in Hkept; [by destruct Hkept|]. intros a Ha. apply not_true_iff_false. intros Hc.
      apply Hnex, Exists_exists. eauto.
  - intros (a & Ha & Hc & <-). destruct (authors a Ha) as [Hh ->].
    pose proof (proj1 (covers_line_true _ _) Hc) as Hl. unfold lines_within in inside.
    rewrite Forall_forall in inside. destruct (inside a Ha).
    exists (Z.to_nat l - 1). assert (Z.of_nat (S (Z.to_nat l - 1)) = l) as El by lia.
    split; [lia|]. split; [done|].
    destruct (round_trip_owner la content t is_ai_checkpoint (Z.to_nat l - 1) valid la_canonical
      ltac:(by apply Forall_forall) ltac:(lia)) as [Hyes _].
    rewrite (Hyes a Ha) by (by rewrite El). split; [done|by left].
Qed.

(** a deletion marker (an empty range) between two lines, or at the
    start or end of the text, changes no line attribution: the authors of
    deletions count only inside a line. *)
Theorem marker_between_lines_ignored attributions content is_ai_checkpoint m k
    (few_lines : (Z.of_nat (length (lines_of content)) <= u32_max)%Z)
    (marker : start m = end_ m) (between : start m = line_offset content k) :
  attributions_to_line_attributions_for_checkpoint (attributions ++ [m]) content is_ai_checkpoint =
  attributions_to_line_attributions_for_checkpoint attributions content is_ai_checkpoint.
Proof.
  apply canonical_unique; [by apply projection_canonical..|]. intros l w. rewrite !projection_owned by done.
  assert (∀ j, line_owner (attributions ++ [m]) content is_ai_checkpoint j =
    line_owner attributions content is_ai_checkpoint j) as E.
  { intros j. unfold line_owner. rewrite meeting_snoc; [done|]. apply not_true_iff_false.
    rewrite overlaps_true. rewrite <-marker, between. intros [H1 H2].
    destruct (decide (k ≤ j)) as [Hle|Hgt].
    - pose proof (line_offset_mono content k j Hle). lia.
    - pose proof (line_offset_mono content (S j) k ltac:(lia)). lia. }
  by setoid_rewrite E.
Qed.

(** An AI line, a line its user changed later, and a blank line. *)
Definition sample_text : str := lit "ab" ++ [LF] ++ lit "cd" ++ [LF] ++ lit " " ++ [LF] ++ lit "e".
Definition sample_attributions : list Attribution :=
  [mkAttr 0 8 (lit "s_1") 5; mkAttr 3 5 (lit "human") 7].

Lemma line_projection_witness :
  line_owned (attributions_to_line_attributions_for_checkpoint sample_attributions sample_text false) 2
    (lit "human", Some (lit "s_1")).
Proof.
  apply (line_projection sample_attributions sample_text false).
  - vm_compute. discriminate.
  - exists 1. split_and!; [vm_compute; lia|reflexivity|vm_compute; reflexivity|right; discriminate].
Defined.

Definition sample_lines : list LineAttribution :=
  [mkLineAttr 1 1 (lit "s_1") None; mkLineAttr 2 3 (lit "h_2") None].

Lemma line_byte_round_trip_witness :
  attributions_to_line_attributions_for_checkpoint
    (line_attributions_to_attributions sample_lines sample_text 9) sample_text true = sample_lines.
Proof.
  apply (line_byte_round_trip sample_lines sample_text 9 true).
  - vm_compute. reflexivity.
  - vm_compute. discriminate.
  - split; [repeat constructor; simpl; lia|]. repeat constructor; simpl; try lia. intros _ E. discriminate.
  - repeat constructor; vm_compute; discriminate.
  - repeat constructor; discriminate.
Defined.

Lemma marker_between_lines_ignored_witness :
  attributions_to_line_attributions_for_checkpoint (sample_attributions ++ [mkAttr 3 3 (lit "s_9") 99])
    sample_text true =
  attributions_to_line_attributions_for_checkpoint sample_attributions sample_text true.
Proof.
  apply (marker_between_lines_ignored sample_attributions sample_text true (mkAttr 3 3 (lit "s_9") 99) 1).
  - vm_compute. discriminate.
  - reflexivity.
  - vm_compute. reflexivity.
Defined.

End LineProjectionProps.
