(* ===== verification/Tracker.v ===== *)
(** * The attribution tracker

    Puts the phases of [AttributionTracker] in
    src/src/authorship/attribution_tracker.rs together: the update of the
    attributions of a file from one content to the next, in the coordinates
    of the files with their line ends, and the attribution of what nobody
    owns.  The diff engine, the Unicode tables of the tokenizer and the
    hasher of the move detection are parameters. *)

From S2P Require Import Prelude Text ImaraDiff Attribution LineEndings AttributionMerge Transform LineMeta Tokenizer DiffCompute MoveDetection.

Module Tracker.
Import ImaraDiff Attribution LineEndings AttributionMerge Transform DiffCompute.
Import MoveDetection.TrackerMoves.

Definition INITIAL_ATTRIBUTION_TS : N := 42.
Definition MOVE_DETECTION_MIN_FILE_BYTES : Z := 65536.
Definition MOVE_DETECTION_MAX_OPS : nat := 256.

Record AttributionConfig := mkConfig { move_lines_threshold : nat }.
Definition default_config : AttributionConfig := mkConfig 3.

(** ** Unattributed ranges *)

(** The loop over [char_indices]; the state is the list being extended and
    the start of the open range. *)
Fixpoint unattributed_loop (author : str) (ts : N) (attributions : list Attribution)
    (range_start : option nat) (idx : nat) (cs : list str) : list Attribution * option nat :=
  match cs with
  | [] => (attributions, range_start)
  | ch :: cs' =>
      let e := idx + length ch in
      if existsb (λ a, overlaps a idx e) attributions then
        match range_start with
        | Some s =>
            unattributed_loop author ts
              (if s <? idx then attributions ++ [mkAttr s idx author ts] else attributions) None e cs'
        | None => unattributed_loop author ts attributions None e cs'
        end
      else
        unattributed_loop author ts attributions
          (match range_start with None => Some idx | Some _ => range_start end) e cs'
  end.

Definition attribute_unattributed_ranges (content : str) (prev_attributions : list Attribution)
    (author : str) (ts : N) : list Attribution :=
  let '(attributions, range_start) :=
    unattributed_loop author ts prev_attributions None 0 (chars content) in
  match range_start with
  | Some s =>
      if s <? length content then attributions ++ [mkAttr s (length content) author ts] else attributions
  | None => attributions
  end.

(** ** The update *)

Section Update.
Context `{engine : !DiffEngine}.
Variable is_alphabetic : str → bool.
Variable is_numeric : str → bool.
Variable hash_normalized : str → N.
Variable config : AttributionConfig.

Definition total_bytes (spans : list (nat * nat)) : nat :=
  foldr (λ '(s, e) n, (e - s) + n) 0 spans.

Definition should_skip_move_detection (old_content new_content : str)
    (deletions : list Deletion) (insertions : list Insertion) : bool :=
  if move_lines_threshold config =? 0 then true
  else if bool_decide (deletions = []) || bool_decide (insertions = []) then true
  else
    let max_file_bytes := Z.of_nat (Nat.max (length old_content) (length new_content)) in
    let operation_count := length deletions + length insertions in
    if (max_file_bytes <? MOVE_DETECTION_MIN_FILE_BYTES)%Z &&
       (operation_count <=? MOVE_DETECTION_MAX_OPS) then false
    else
      let deleted_bytes := total_bytes (map (λ d, (del_start d, del_end d)) deletions) in
      let inserted_bytes := total_bytes (map (λ i, (ins_start i, ins_end i)) insertions) in
      let changed_bytes := Z.of_nat (deleted_bytes + inserted_bytes) in
      (MOVE_DETECTION_MAX_OPS <? operation_count) ||
      ((MOVE_DETECTION_MIN_FILE_BYTES <=? max_file_bytes) &&
       (max_file_bytes * 3 / 2 <=? changed_bytes))%Z.

Definition detected_moves (old_content new_content : str) (deletions : list Deletion)
    (insertions : list Insertion) (is_ai_checkpoint : bool) : list MoveMapping :=
  if is_ai_checkpoint then []
  else if should_skip_move_detection old_content new_content deletions insertions then []
  else tracker_detect_moves hash_normalized (move_lines_threshold config)
         old_content new_content deletions insertions.

Definition update_attributions_normalized (old_content new_content : str)
    (old_attributions : list Attribution) (current_author : str) (ts : N)
    (is_ai_checkpoint : bool) : result (list Attribution) :=
  let old_attributions' :=
    if is_attribution_list_sorted old_attributions then old_attributions
    else sort_attributions_for_transform old_attributions in
  let? diff_result := compute_diffs is_alphabetic is_numeric old_content new_content is_ai_checkpoint in
  let '(deletions, insertions) := build_diff_catalog (diffs diff_result) in
  let move_mappings := detected_moves old_content new_content deletions insertions is_ai_checkpoint in
  match transform_attributions current_author ts old_attributions' insertions
          (substantive_new_ranges diff_result) is_ai_checkpoint (diffs diff_result) move_mappings with
  | None => Panic
  | Some new_attributions => Ret (merge_attributions new_attributions)
  end.

Definition update_attributions_for_checkpoint (old_content new_content : str)
    (old_attributions : list Attribution) (current_author : str) (ts : N)
    (is_ai_checkpoint : bool) : result (list Attribution) :=
  if negb (has_crlf old_content) && negb (has_crlf new_content) then
    update_attributions_normalized old_content new_content old_attributions current_author ts
      is_ai_checkpoint
  else
    let old_offsets := LineEndings.new_offsets old_content in
    let new_offsets := LineEndings.new_offsets new_content in
    let normalized_attrs := omap (normalize_attribution old_offsets) old_attributions in
    let? updated :=
      update_attributions_normalized (normalize_line_endings old_content)
        (normalize_line_endings new_content) normalized_attrs current_author ts is_ai_checkpoint in
    Ret (map (original_attribution new_offsets) updated).

Definition update_attributions (old_content new_content : str) (old_attributions : list Attribution)
    (current_author : str) (ts : N) : result (list Attribution) :=
  update_attributions_for_checkpoint old_content new_content old_attributions current_author ts false.
End Update.

(** ** Reference *)

(** The byte of a file that is byte [q] of its normalized text: of a CRLF
    pair, the line feed. *)
Definition content_byte (content : str) (q : nat) : nat :=
  to_original (LineEndings.new_offsets content) (S q) - 1.

End Tracker.

(** ** Lemmas *)

Module TrackerFacts.
Import ImaraDiff ImaraDiffFacts Attribution AttributionFacts LineEndings LineEndingsFacts
  AttributionMerge AttributionMergeFacts Transform TransformFacts DiffCompute DiffComputeFacts
  MoveDetection.TrackerMoves MoveDetectionFacts Tracker.

(** *** Offsets *)

Lemma offsets_galois s q o :
  to_original (LineEndings.new_offsets s) q ≤ o ↔ q ≤ to_normalized (LineEndings.new_offsets s) o.
Proof.
  rewrite to_original_eq, to_normalized_eq. revert q o.
  induction s as [|c s IH]; intros [|q] [|o]; cbn [crs_norm crs_before]; try lia.
  pose proof (crs_before_le s o). destruct (is_crlf c s); cbn [crs_norm crs_before].
  - specialize (IH (S q) o). lia.
  - specialize (IH q o). lia.
Qed.

Lemma to_original_pos s q : q ≤ to_original (LineEndings.new_offsets s) q.
Proof. rewrite to_original_eq. lia. Qed.

Lemma original_owned s attrs o w t :
  owned (map (original_attribution (LineEndings.new_offsets s)) attrs) o w t ↔
  owned attrs (to_normalized (LineEndings.new_offsets s) o) w t.
Proof.
  induction attrs as [|a attrs IH]; [split; intros []%owned_nil|]. cbn [map]. rewrite !owned_cons, IH.
  unfold original_attribution. cbn [start end_ author_id ts]. rewrite offsets_galois.
  pose proof (offsets_galois s (end_ a) o). intuition lia.
Qed.

Lemma normalized_owned s attrs q w t :
  owned (omap (normalize_attribution (LineEndings.new_offsets s)) attrs) q w t ↔
  owned attrs (content_byte s q) w t.
Proof.
  unfold content_byte. pose proof (to_original_pos s (S q)).
  set (o := LineEndings.new_offsets s) in *.
  induction attrs as [|a attrs IH]; [split; intros []%owned_nil|].
  change (omap ?f (a :: attrs)) with (match f a with Some b => b :: omap f attrs | None => omap f attrs end).
  rewrite (owned_cons a). unfold normalize_attribution at 1. cbv zeta.
  pose proof (offsets_galois s (S q) (start a)) as Hs. pose proof (offsets_galois s (S q) (end_ a)) as He.
  fold o in Hs, He. destruct (_ || _) eqn:E.
  - rewrite owned_cons, IH. cbn [start end_ author_id ts]. intuition lia.
  - apply orb_false_iff in E as [E1 E2]. apply Nat.ltb_ge in E1. apply Nat.eqb_neq in E2.
    rewrite IH. intuition lia.
Qed.

Lemma no_crlf_offsets s : has_crlf s = false → LineEndings.new_offsets s = mkOffsets [].
Proof.
  unfold LineEndings.new_offsets. generalize 0 at 1. generalize 0. intros r n H. f_equal. revert r n H.
  induction s as [|c s IH]; intros r n; simpl; [done|]. rewrite orb_false_iff. unfold is_crlf.
  intros [-> H]. by apply IH.
Qed.

(** Without CRLF the coordinates are the same. *)
Lemma trivial_offsets s :
  has_crlf s = false →
  (∀ o, to_normalized (LineEndings.new_offsets s) o = o) ∧ (∀ q, content_byte s q = q).
Proof.
  intros H. unfold content_byte. rewrite no_crlf_offsets by done.
  unfold to_normalized, to_original. simpl. split; intros; lia.
Qed.

(** The byte is the same. *)
Lemma replace_crlf_snoc l x : list.last (replace_crlf (l ++ [x])) = Some x.
Proof.
  induction l as [|c l IH]; [simpl; by rewrite andb_false_r|]. cbn [app replace_crlf].
  case_match; [done|]. rewrite last_cons. by rewrite IH.
Qed.

Lemma content_byte_lookup s q :
  q < length (normalize_line_endings s) → s !! content_byte s q = normalize_line_endings s !! q.
Proof.
  rewrite normalize_replace. intros Hq. destruct (cut_at_normalized s (S q) Hq) as (H1 & H2 & _).
  unfold content_byte. rewrite to_original_eq. set (n := S q + crs_norm s (S q)) in *.
  destruct (lookup_lt_is_Some_2 s (n - 1) ltac:(lia)) as [x Hx]. rewrite Hx.
  replace n with (S (n - 1)) in H2 by lia. rewrite (take_S_r _ _ _ Hx) in H2.
  pose proof (replace_crlf_snoc (take (n - 1) s) x) as Hl. rewrite H2 in Hl.
  rewrite last_lookup in Hl. rewrite length_take, Nat.min_l in Hl by lia. simpl in Hl.
  by rewrite lookup_take_lt in Hl by lia.
Qed.

Lemma normalized_end s o :
  length (normalize_line_endings s) ≤ to_normalized (LineEndings.new_offsets s) o → length s ≤ o.
Proof.
  rewrite normalize_replace. intros H. apply offsets_galois in H. rewrite to_original_eq in H.
  destruct (cut_at_normalized s (length (replace_crlf s)) (le_n _)) as (H1 & _ & H3).
  rewrite drop_all in H3.
  destruct (drop (length (replace_crlf s) + crs_norm s (length (replace_crlf s))) s) as [|c r] eqn:E.
  - apply (f_equal length) in E. rewrite length_drop in E. simpl in E. lia.
  - exfalso. revert H3. clear. revert c. induction r as [|d r IH]; intros c; simpl.
    + by rewrite andb_false_r.
    + case_match; [apply IH|done].
Qed.

(** Normalizing keeps a text valid: it drops whole characters. *)
Lemma replace_crlf_char ch s :
  utf8_char ch = true → replace_crlf (ch ++ s) = ch ++ replace_crlf s ∨ replace_crlf (ch ++ s) = replace_crlf s.
Proof.
  intros Hch. unfold utf8_char in Hch. destruct ch as [|c rest]; [done|].
  apply andb_true_iff in Hch as [Hch Hrest]. apply andb_true_iff in Hch as [_ Hlen%Nat.eqb_eq].
  assert (∀ l, forallb is_continuation l = true → replace_crlf (l ++ s) = l ++ replace_crlf s) as Hl.
  { clear. induction l as [|d l IH]; [done|]. cbn [app forallb]. intros [Hd Hl]%andb_true_iff.
    rewrite replace_cons, IH; [done|done|]. unfold is_crlf. rewrite bool_decide_false; [done|].
    intros ->. done. }
  cbn [app replace_crlf]. case_match eqn:E; [|left; by rewrite Hl].
  apply andb_true_iff in E as [E _]. apply bool_decide_eq_true in E as ->.
  right. change (char_width CR) with 1 in Hlen. by destruct rest.
Qed.

Lemma normalize_utf8 s : is_utf8 s = true → is_utf8 (normalize_line_endings s) = true.
Proof.
  rewrite normalize_replace. intros Hs. rewrite <-(concat_chars s). unfold is_utf8 in Hs.
  induction (chars s) as [|ch cs IH]; [done|]. simpl in Hs. apply andb_true_iff in Hs as [Hch Hs].
  cbn [concat]. destruct (replace_crlf_char ch (concat cs) Hch) as [->| ->]; [|by apply IH].
  apply is_utf8_app; [|by apply IH]. unfold is_utf8.
  rewrite <-(app_nil_r ch), chars_char_app by done. simpl. by rewrite Hch.
Qed.

(** *** The phases together *)

Lemma merge_known (P : str → N → Prop) l :
  Forall (λ a, P (author_id a) (ts a)) l → Forall (λ a, P (author_id a) (ts a)) (merge_attributions l).
Proof.
  intros H. unfold merge_attributions.
  assert (Forall (λ a, P (author_id a) (ts a)) (dedup attr_eqb (sort_by attribution_le l))) as Hd.
  { rewrite Forall_forall in *. intros a. rewrite elem_of_dedup_all, elem_of_sort_by. apply H. }
  destruct (dedup attr_eqb (sort_by attribution_le l)) as [|a l']; [constructor|]. clear H.
  apply Forall_cons in Hd as [Ha Hl]. revert a Ha. induction Hl as [|b l' Hb _ IH]; intros a Ha;
    cbn [coalesce_loop]; [by constructor|].
  case_match; [by apply IH|]. constructor; [done|by apply IH].
Qed.

Lemma sorted_or_sort olds :
  let olds' := if is_attribution_list_sorted olds then olds else sort_attributions_for_transform olds in
  is_attribution_list_sorted olds' = true ∧ olds' ≡ₚ olds.
Proof.
  cbv zeta. destruct (is_attribution_list_sorted olds) eqn:E; [done|]. split.
  - apply is_sorted_true, sort_attributions_sorted.
  - apply sort_by_perm.
Qed.

Lemma known_mono cur cts olds olds' w t :
  (∀ a, a ∈ olds → ∃ b, b ∈ olds' ∧ author_id b = author_id a ∧ ts b = ts a) →
  known cur cts olds w t → known cur cts olds' w t.
Proof.
  intros H [?|(a & Ha & <- & <-)]; [by left|]. right. destruct (H a Ha) as (b & ? & <- & <-). eauto.
Qed.

Section Checkpoint.
Context `{engine : !DiffEngine}.
Variable is_alphabetic : str → bool.
Variable is_numeric : str → bool.
Variable hash_normalized : str → N.
Variable config : AttributionConfig.
Variable cur : str.
Variable cts : N.
Variable ai : bool.

Abbreviation moves old new cat := (detected_moves hash_normalized config old new cat.1 cat.2 ai).

(** The ways a byte of the new text, at [p], gets an owner; [old_owned] is
    the ownership of the old text. *)
Definition owned_after (old new : str) (c : DiffComputation) (old_owned : nat → str → N → Prop)
    (p : nat) (w0 : str) (t0 : N) (w : str) (t : N) : Prop :=
  let cat := build_diff_catalog (diffs c) in
  let ms := detected_moves hash_normalized config old new cat.1 cat.2 ai in
  (∃ q, origin 0 0 0 (diffs c) p = Some (Kept q) ∧ old_owned q w t) ∨
  (∃ i l m d q, deletion_to_move ms !! i = Some l ∧ m ∈ l ∧ cat.1 !! i = Some d ∧
     lands cat.2 m (del_start d) p q ∧ old_owned q w t) ∨
  (∃ idx base d, origin 0 0 0 (diffs c) p = Some (Inserted idx base d) ∧
     match move_ranges ms !! idx with
     | Some rs => w = cur ∧ t = cts ∧ ¬ in_ranges rs (p - base)
     | None => w = w0 ∧ t = t0
     end).

(** An inserted byte that must be the current author's. *)
Definition choice_fits (c : DiffComputation) (p : nat) (w0 : str) (t0 : N) : Prop :=
  ∀ idx base d, origin 0 0 0 (diffs c) p = Some (Inserted idx base d) →
    goes_to_current (substantive_new_ranges c) ai base d = true → w0 = cur ∧ t0 = cts.

Lemma owned_after_ext old new c P Q p w0 t0 w t :
  (∀ q, P q w t ↔ Q q w t) → owned_after old new c P p w0 t0 w t ↔ owned_after old new c Q p w0 t0 w t.
Proof. intros HPQ. unfold owned_after. by setoid_rewrite HPQ. Qed.

Lemma moves_ok old new c :
  let cat := build_diff_catalog (diffs c) in Forall (mapping_ok cat.1 cat.2) (moves old new cat).
Proof.
  cbv zeta. unfold detected_moves. destruct ai; [constructor|]. case_match; [constructor|].
  apply tracker_moves_ok.
Qed.

Lemma normalized_spec old new olds :
  is_utf8 old = true → is_utf8 new = true →
  ∃ c attrs,
    compute_diffs is_alphabetic is_numeric old new ai = Ret c ∧
    old_text (diffs c) = old ∧ new_text (diffs c) = new ∧
    update_attributions_normalized is_alphabetic is_numeric hash_normalized config
      old new olds cur cts ai = Ret attrs ∧
    Forall (λ a, known cur cts olds (author_id a) (ts a)) attrs ∧
    ∀ p, ∃ w0 t0, known cur cts olds w0 t0 ∧ choice_fits c p w0 t0 ∧
      ∀ w t, owned attrs p w t ↔ owned_after old new c (owned olds) p w0 t0 w t.
Proof.
  intros Ho Hn.
  destruct (compute_diffs_spec is_alphabetic is_numeric old new ai Ho Hn) as (c & Hc & Eo & En & _).
  destruct (sorted_or_sort olds) as [Hs Hperm]. set (olds' := if is_attribution_list_sorted olds then olds else sort_attributions_for_transform olds) in *.
  destruct (transform_owned cur cts olds' (substantive_new_ranges c) ai (diffs c)
    (moves old new (build_diff_catalog (diffs c))) Hs (moves_ok old new c)) as (attrs & Ht & Hk & Hown).
  assert (∀ w t, known cur cts olds' w t → known cur cts olds w t) as Hkm.
  { intros w t. apply known_mono. intros a Ha. exists a. by rewrite <-Hperm. }
  exists c, (merge_attributions attrs). split_and!; [done..| | |].
  - unfold update_attributions_normalized. fold olds'. rewrite Hc. cbn [obind].
    destruct (build_diff_catalog (diffs c)) as [dels inss]. cbn [fst snd] in Ht. by rewrite Ht.
  - apply merge_known. eapply Forall_impl; [exact Hk|]. intros a. apply Hkm.
  - intros p. destruct (Hown p) as (w0 & t0 & Hw & Hch & Hp). exists w0, t0.
    split; [by apply Hkm|]. split; [done|]. intros w t. rewrite Hp.
    unfold owned_after. cbv zeta. by setoid_rewrite (owned_perm _ _ _ _ _ Hperm).
Qed.

(** The same in the coordinates of the files. *)
Lemma checkpoint_spec old new olds :
  is_utf8 old = true → is_utf8 new = true →
  ∃ c attrs,
    let old' := normalize_line_endings old in
    let new' := normalize_line_endings new in
    compute_diffs is_alphabetic is_numeric old' new' ai = Ret c ∧
    old_text (diffs c) = old' ∧ new_text (diffs c) = new' ∧
    update_attributions_for_checkpoint is_alphabetic is_numeric hash_normalized config
      old new olds cur cts ai = Ret attrs ∧
    Forall (λ a, known cur cts olds (author_id a) (ts a)) attrs ∧
    ∀ o, let p := to_normalized (LineEndings.new_offsets new) o in
      ∃ w0 t0, known cur cts olds w0 t0 ∧ choice_fits c p w0 t0 ∧
      ∀ w t, owned attrs o w t ↔
        owned_after old' new' c (λ q, owned olds (content_byte old q)) p w0 t0 w t.
Proof.
  intros Ho Hn. apply normalize_utf8 in Ho as Ho', Hn as Hn'.
  unfold update_attributions_for_checkpoint. destruct (negb _ && negb _) eqn:E.
  - apply andb_true_iff in E as [E1%negb_true_iff E2%negb_true_iff].
    assert (normalize_line_endings old = old) as Eo by (unfold normalize_line_endings; by rewrite E1).
    assert (normalize_line_endings new = new) as En by (unfold normalize_line_endings; by rewrite E2).
    destruct (normalized_spec old new olds Ho Hn) as (c & attrs & Hc & Hot & Hnt & Hu & Hk & Hown).
    exists c, attrs. cbv zeta. rewrite Eo, En. split_and!; [done..|]. intros o.
    destruct (trivial_offsets old E1) as [_ Eb]. destruct (trivial_offsets new E2) as [Ez _]. rewrite Ez.
    destruct (Hown o) as (w0 & t0 & ? & ? & Hp). exists w0, t0. split_and!; [done..|]. intros w t.
    rewrite Hp. apply owned_after_ext. intros q. by rewrite Eb.
  - set (olds' := omap _ olds).
    destruct (normalized_spec (normalize_line_endings old) (normalize_line_endings new) olds' Ho' Hn')
      as (c & attrs & Hc & Hot & Hnt & Hu & Hk & Hown).
    assert (∀ w t, known cur cts olds' w t → known cur cts olds w t) as Hkm.
    { intros w t. apply known_mono. intros a (b & Hb & Ha)%list_elem_of_omap. exists b. split; [done|].
      unfold normalize_attribution in Ha. case_match; [|done]. by injection Ha as <-. }
    exists c, (map (original_attribution (LineEndings.new_offsets new)) attrs). cbv zeta.
    rewrite Hu. split_and!; [done..| |].
    + apply Forall_forall. intros x (y & <- & Hy)%list_elem_of_In%in_map_iff.
      rewrite List.Forall_forall in Hk. apply Hkm. exact (Hk y Hy).
    + intros o. destruct (Hown (to_normalized (LineEndings.new_offsets new) o)) as (w0 & t0 & ? & ? & Hp).
      exists w0, t0. split; [by apply Hkm|]. split; [done|]. intros w t. rewrite original_owned, Hp.
      apply owned_after_ext. intros q. apply normalized_owned.
Qed.
End Checkpoint.

(** *** Unattributed ranges *)

Section Unattributed.
Variable author : str.
Variable t : N.
Variable prev : list Attribution.

(** The bytes of the characters that no old attribution meets, from [idx] on. *)
Fixpoint free_from (idx : nat) (cs : list str) (p : nat) : Prop :=
  match cs with
  | [] => False
  | ch :: cs' =>
      (idx ≤ p < idx + length ch ∧ existsb (λ a, overlaps a idx (idx + length ch)) prev = false) ∨
      free_from (idx + length ch) cs' p
  end.

(** Ranges of the author, in order with gaps, between [lo] and [hi]. *)
Definition ranges_between (lo hi : nat) (added : list Attribution) : Prop :=
  Forall (λ a, author_id a = author ∧ ts a = t ∧ lo ≤ start a ∧ start a < end_ a ∧ end_ a ≤ hi) added ∧
  StronglySorted (λ a b, end_ a < start b) added.

Lemma ranges_between_nil lo hi : ranges_between lo hi [].
Proof. split; constructor. Qed.

Lemma ranges_between_cons lo hi s e added :
  lo ≤ s → s < e → e ≤ hi → ranges_between (S e) hi added →
  ranges_between lo hi (mkAttr s e author t :: added).
Proof.
  intros Hs He Hhi [Hf Hso]. split.
  - constructor; [by split_and!|]. eapply Forall_impl; [exact Hf|]. simpl. intros a (? & ? & ? & ? & ?).
    split_and!; done || lia.
  - constructor; [done|]. eapply Forall_impl; [exact Hf|]. simpl. lia.
Qed.

Lemma ranges_between_mono lo lo' hi added :
  lo' ≤ lo → ranges_between lo hi added → ranges_between lo' hi added.
Proof. intros H [Hf Hs]. split; [|done]. eapply Forall_impl; [exact Hf|]. simpl. intros a (? & ? & ? & ? & ?).
  split_and!; done || lia.
Qed.

(** What the end of the function makes of the state of the loop. *)
Definition close_range (len : nat) (st : list Attribution * option nat) : list Attribution :=
  match st.2 with
  | Some s => if s <? len then st.1 ++ [mkAttr s len author t] else st.1
  | None => st.1
  end.

Lemma unattributed_spec added rs idx cs :
  Forall (λ ch, 0 < length ch) cs →
  (match rs with Some s => s < idx | None => True end) →
  Forall (λ a, end_ a ≤ idx) added →
  let hi := idx + length (concat cs) in
  ∃ more,
    close_range hi (unattributed_loop author t (prev ++ added) rs idx cs) = prev ++ added ++ more ∧
    ranges_between (default idx rs) hi more ∧
    ∀ p, (∃ a, a ∈ more ∧ start a ≤ p < end_ a) ↔
      (∃ s, rs = Some s ∧ s ≤ p < idx) ∨ free_from idx cs p.
Proof.
  revert added rs idx. induction cs as [|ch cs IH]; intros added rs idx Hcs Hrs Hadd; cbv zeta;
    cbn [unattributed_loop free_from concat length].
  { rewrite Nat.add_0_r. unfold close_range. cbn [fst snd]. destruct rs as [s|].
    - rewrite (proj2 (Nat.ltb_lt _ _) Hrs). exists [mkAttr s idx author t]. split; [by rewrite <-app_assoc|].
      split; [apply ranges_between_cons; simpl; try lia; apply ranges_between_nil|]. intros p.
      setoid_rewrite list_elem_of_singleton. simpl. split.
      + intros (a & -> & Ha). left. by exists s.
      + intros [(s' & [= <-] & Hs')|[]]. by eexists.
    - exists []. rewrite app_nil_r. split; [done|]. split; [apply ranges_between_nil|]. intros p. split.
      + intros (a & Ha & _). by apply not_elem_of_nil in Ha.
      + intros [(s & ? & _)|[]]. done. }
  apply Forall_cons in Hcs as [Hch Hcs]. rewrite length_app, Nat.add_assoc.
  assert (existsb (λ a, overlaps a idx (idx + length ch)) (prev ++ added) =
    existsb (λ a, overlaps a idx (idx + length ch)) prev) as ->.
  { rewrite existsb_app. assert (existsb (λ a, overlaps a idx (idx + length ch)) added = false) as ->;
      [|by rewrite orb_false_r].
    apply not_true_iff_false. intros (a & Ha%list_elem_of_In & Ho)%existsb_exists. apply overlaps_true in Ho.
    rewrite Forall_forall in Hadd. specialize (Hadd a Ha). simpl in Hadd. lia. }
  destruct (existsb _ prev) eqn:Ec.
  - destruct rs as [s|].
    + rewrite (proj2 (Nat.ltb_lt _ _) Hrs), <-app_assoc.
      destruct (IH (added ++ [mkAttr s idx author t]) None (idx + length ch) Hcs I) as (more & E & Hr & Hp).
      { apply Forall_app. split; [eapply Forall_impl; [exact Hadd|]; simpl; lia|].
        apply Forall_singleton. simpl. lia. }
      exists (mkAttr s idx author t :: more). split; [by rewrite E, <-app_assoc|]. split.
      * apply ranges_between_cons; simpl; try lia.
        eapply ranges_between_mono; [|exact Hr]. simpl. lia.
      * intros p. setoid_rewrite elem_of_cons. split.
        -- intros (a & [->|Ha] & Hap); [left; by exists s|].
           destruct (proj1 (Hp p)) as [(? & ? & _)|Hf]; [by exists a|done|]. auto.
        -- intros [(s' & [= <-] & Hs')|[[_ ?]|Hf]]; [by eexists; split; [left|]|done|].
           destruct (proj2 (Hp p) ltac:(auto)) as (a & Ha & Hap). exists a. auto.
    + destruct (IH added None (idx + length ch) Hcs I) as (more & E & Hr & Hp).
      { eapply Forall_impl; [exact Hadd|]; simpl; lia. }
      exists more. split; [done|]. split; [eapply ranges_between_mono; [|exact Hr]; simpl; lia|].
      intros p. rewrite Hp. split; intros [(? & ? & _)|Hf]; try done; [auto|]. destruct Hf as [[_ ?]|?]; [done|auto].
  - destruct (IH added (match rs with None => Some idx | Some _ => rs end) (idx + length ch) Hcs)
      as (more & E & Hr & Hp); [by destruct rs; lia| |].
    { eapply Forall_impl; [exact Hadd|]; simpl; lia. }
    exists more. split; [done|]. split; [by destruct rs|]. intros p. rewrite Hp.
    destruct rs as [s|]; split.
    + intros [(s' & [= <-] & Hs')|Hf]; [|auto]. destruct (decide (p < idx)); [left; exists s; split; [done|lia]|].
      right. left. split; [lia|done].
    + intros [(s' & [= <-] & Hs')|[[? _]|Hf]]; [left; exists s; split; [done|lia]..|auto].
    + intros [(s' & [= <-] & Hs')|Hf]; [right; left; done|auto].
    + intros [(? & ? & _)|[[? _]|Hf]]; [done|left; by exists idx|auto].
Qed.

Lemma free_from_char idx cs1 ch cs2 p :
  Forall (λ ch, 0 < length ch) cs1 →
  let s := idx + length (concat cs1) in
  s ≤ p < s + length ch →
  free_from idx (cs1 ++ ch :: cs2) p ↔ existsb (λ a, overlaps a s (s + length ch)) prev = false.
Proof.
  cbv zeta. revert idx. induction cs1 as [|c cs1 IH]; intros idx Hcs Hp; cbn [app free_from concat length] in *.
  - rewrite Nat.add_0_r in *. split; [|by left]. intros [[_ ?]|Hf]; [done|]. exfalso.
    assert (∀ cs i, free_from i cs p → i ≤ p) as Hge.
    { clear. induction cs as [|c cs IH]; intros i; cbn [free_from]; [done|]. intros [[? _]|Hf%IH]; lia. }
    apply Hge in Hf. lia.
  - apply Forall_cons in Hcs as [Hc Hcs]. rewrite length_app in *.
    replace (idx + (length c + length (concat cs1))) with (idx + length c + length (concat cs1)) in * by lia.
    rewrite <-IH by done. split; [|by right]. intros [[? _]|?]; [lia|done].
Qed.
End Unattributed.

End TrackerFacts.

(** ** Properties *)

Module TrackerProps.
Import ImaraDiff CoarseEngine Attribution AttributionFacts LineEndings AttributionMerge AttributionMergeFacts
  Transform TransformFacts DiffCompute MoveDetection.TrackerMoves MoveDetectionFacts Tracker TrackerFacts.

(** C6: the update of a file at an agent's checkpoint.  For two valid
    texts, whatever their line ends and the order of the old attributions, it
    returns a result; the byte diff it goes by keeps and deletes exactly the
    old text and keeps and inserts exactly the new text, both normalized.  A
    kept byte is the same byte in both files and has exactly the authors and
    times it had; every inserted byte is the agent's, at the time of the
    checkpoint, and nobody else's; nothing beyond the file is attributed.  A
    carriage return of a CRLF pair goes with its line feed. *)
Theorem ai_update_ownership `{engine : !DiffEngine} (is_alphabetic is_numeric : str → bool)
    (hash_normalized : str → N) (config : AttributionConfig) (old new : str)
    (olds : list Attribution) (cur : str) (cts : N)
    (old_valid : is_utf8 old = true) (new_valid : is_utf8 new = true) :
  ∃ c attrs,
    compute_diffs is_alphabetic is_numeric (normalize_line_endings old) (normalize_line_endings new) true = Ret c ∧
    old_text (diffs c) = normalize_line_endings old ∧ new_text (diffs c) = normalize_line_endings new ∧
    update_attributions_for_checkpoint is_alphabetic is_numeric hash_normalized config
      old new olds cur cts true = Ret attrs ∧
    ∀ o, let p := to_normalized (LineEndings.new_offsets new) o in
      match origin 0 0 0 (diffs c) p with
      | Some (Kept q) =>
          new !! content_byte new p = old !! content_byte old q ∧
          ∀ w t, owned attrs o w t ↔ owned olds (content_byte old q) w t
      | Some (Inserted _ _ _) => ∀ w t, owned attrs o w t ↔ w = cur ∧ t = cts
      | None => length new ≤ o ∧ ∀ w t, ¬ owned attrs o w t
      end.
Proof.
  destruct (checkpoint_spec is_alphabetic is_numeric hash_normalized config cur cts true old new olds
    old_valid new_valid) as (c & attrs & Hc & Hot & Hnt & Hu & _ & Hown).
  exists c, attrs. split_and!; [done..|]. intros o. destruct (Hown o) as (w0 & t0 & _ & Hch & Hp).
  cbv zeta in *. set (p := to_normalized _ o) in *. unfold owned_after in Hp. cbv zeta in Hp.
  unfold detected_moves in Hp.
  assert (∀ i l m, deletion_to_move [] !! i = Some l → m ∈ l → False) as Hno.
  { intros i l m Hl Hm. destruct (deletion_to_move_elem _ _ _ _ Hl Hm) as [Hin _]. by apply not_elem_of_nil in Hin. }
  destruct (origin 0 0 0 (diffs c) p) as [[q|idx base d]|] eqn:E.
  - apply origin_kept_byte in E as E'. destruct E' as [E' Hlp]. rewrite !Nat.sub_0_r, Hot, Hnt in E'. rewrite Nat.sub_0_r in Hlp. split.
    + pose proof (origin_kept_ge _ _ _ _ _ _ E) as [_ Hlq]. simpl in Hlq. rewrite Hnt in Hlp. rewrite Hot in Hlq.
      by rewrite !content_byte_lookup.
    + intros w t. rewrite Hp. split; [|intros H; left; by exists q].
      intros [(? & [= <-] & ?)|[(? & ? & ? & ? & ? & Hl & Hm & _)|(? & ? & ? & ? & _)]];
        [done|by destruct (Hno _ _ _ Hl Hm)|done].
  - destruct (Hch idx base d E eq_refl) as [-> ->]. intros w t. rewrite Hp. split.
    + intros [(? & ? & _)|[(? & ? & ? & ? & ? & Hl & Hm & _)|(? & ? & ? & [= <- <- <-] & H)]];
        [done|by destruct (Hno _ _ _ Hl Hm)|done].
    + intros H. right. right. by exists idx, base, d.
  - split.
    + apply normalized_end. fold p. rewrite <-Hnt.
      destruct (decide (length (new_text (diffs c)) ≤ p)); [done|].
      destruct (origin_total 0 0 0 (diffs c) p) as [x Hx]; [lia|]. congruence.
    + intros w t. rewrite Hp.
      intros [(? & ? & _)|[(? & ? & ? & ? & ? & Hl & Hm & _)|(? & ? & ? & ? & _)]];
        [done|by destruct (Hno _ _ _ Hl Hm)|done].
Qed.

(** C7: the update of a file at any checkpoint.  It returns a result for
    all valid texts, and every attribution of the result has the checkpoint's
    author and time or those of an old attribution.  Every move it uses is a
    run of moved lines.  A byte of the new file is owned exactly as the diff
    of the normalized texts and these moves say: kept bytes with their old
    owners, bytes in the target of a move with the owners of the source,
    inserted bytes with a single owner, which is the current author when the
    checkpoint is an agent's, the insertion holds a line feed or it meets a
    substantive range. *)
Theorem update_ownership `{engine : !DiffEngine} (is_alphabetic is_numeric : str → bool)
    (hash_normalized : str → N) (config : AttributionConfig) (old new : str)
    (olds : list Attribution) (cur : str) (cts : N) (ai : bool)
    (old_valid : is_utf8 old = true) (new_valid : is_utf8 new = true) :
  ∃ c attrs,
    let old' := normalize_line_endings old in
    let new' := normalize_line_endings new in
    let cat := build_diff_catalog (diffs c) in
    compute_diffs is_alphabetic is_numeric old' new' ai = Ret c ∧
    old_text (diffs c) = old' ∧ new_text (diffs c) = new' ∧
    Forall (move_of_lines old' new' (move_lines_threshold config) cat.1 cat.2)
      (detected_moves hash_normalized config old' new' cat.1 cat.2 ai) ∧
    update_attributions_for_checkpoint is_alphabetic is_numeric hash_normalized config
      old new olds cur cts ai = Ret attrs ∧
    Forall (λ a, known cur cts olds (author_id a) (ts a)) attrs ∧
    ∀ o, let p := to_normalized (LineEndings.new_offsets new) o in
      ∃ w0 t0, known cur cts olds w0 t0 ∧ choice_fits cur cts ai c p w0 t0 ∧
      ∀ w t, owned attrs o w t ↔
        owned_after hash_normalized config cur cts ai old' new' c
          (λ q, owned olds (content_byte old q)) p w0 t0 w t.
Proof.
  destruct (checkpoint_spec is_alphabetic is_numeric hash_normalized config cur cts ai old new olds
    old_valid new_valid) as (c & attrs & Hc & Hot & Hnt & Hu & Hk & Hown).
  exists c, attrs. cbv zeta in *. split_and!; try done.
  unfold detected_moves. destruct ai; [constructor|]. case_match; [constructor|].
  apply Forall_forall. intros m. apply tracker_moves.
Qed.

(** filling a file.  The result is the old attributions followed by
    new ones of the given author and time, nonempty, inside the file, in
    order and with gaps between them, and these cover a byte exactly when no
    old attribution meets the character the byte belongs to.  So afterwards
    every character is attributed and none twice by this author. *)
Theorem unattributed_ranges_filled (content : str) (prev : list Attribution) (author : str) (t : N) :
  ∃ added,
    attribute_unattributed_ranges content prev author t = prev ++ added ∧
    Forall (λ a, author_id a = author ∧ ts a = t ∧ start a < end_ a ∧ end_ a ≤ length content) added ∧
    StronglySorted (λ a b, end_ a < start b) added ∧
    ∀ cs1 ch cs2 p, chars content = cs1 ++ ch :: cs2 →
      let s := length (concat cs1) in
      s ≤ p < s + length ch →
      (∃ a, a ∈ added ∧ covers_byte a p = true) ↔
      ∀ a, a ∈ prev → overlaps a s (s + length ch) = false.
Proof.
  destruct (unattributed_spec author t prev [] None 0 (chars content) (chars_nonempty content) I ltac:(constructor))
    as (added & E & [Hf Hs] & Hp).
  rewrite concat_chars in *. exists added. split_and!.
  - unfold attribute_unattributed_ranges. rewrite app_nil_r in E. unfold close_range in E.
    destruct (unattributed_loop _ _ _ _ _ _) as [attrs rs]. exact E.
  - eapply Forall_impl; [exact Hf|]. simpl. intros a (? & ? & ? & ? & ?). done.
  - done.
  - intros cs1 ch cs2 p Ec s Hsp. setoid_rewrite covers_byte_true. rewrite Hp, Ec.
    pose proof (chars_nonempty content) as Hne. rewrite Ec in Hne. apply Forall_app in Hne as [Hne _].
    rewrite (free_from_char prev 0 cs1 ch cs2 p Hne Hsp). simpl. fold s. split.
    + intros [(? & ? & _)|Hx]; [done|]. intros a Ha. apply not_true_iff_false. intros Ho.
      apply not_true_iff_false in Hx. apply Hx, existsb_exists. exists a. by rewrite <-list_elem_of_In.
    + intros Hx. right. apply not_true_iff_false. intros (a & Ha%list_elem_of_In & Ho)%existsb_exists.
      rewrite Hx in Ho by done. done.
Qed.

(** A block of three lines that is cut and pasted twice. *)
Definition block : str := lit "x1" ++ [LF] ++ lit "x2" ++ [LF] ++ lit "x3" ++ [LF].
Definition stay (s : string) : str := lit s ++ [LF].
Definition twice_diff : list ByteDiff :=
  [mkDiff Delete block; mkDiff Equal (stay "keep one"); mkDiff Insert block;
   mkDiff Equal (stay "keep two"); mkDiff Insert block].

(** a block pasted twice loses its owner in the second copy.  When a
    deleted block of lines reappears in two insertions, the move detection
    maps it to both, at the same place relative to each insertion; the
    transformation keeps one mapping per source and target range only, but
    reserves the target in both insertions.  So, although every byte of the
    old text has an owner, the bytes of the second copy end without any. *)
Theorem second_copy_unowned (hash_normalized : str → N) :
  let cat := build_diff_catalog twice_diff in
  let old := old_text twice_diff in
  let new := new_text twice_diff in
  let ms := detected_moves hash_normalized default_config old new cat.1 cat.2 false in
  let olds := [mkAttr 0 (length old) (lit "s_1") 1] in
  length ms = 2 ∧
  (∀ q, q < length old → owned olds q (lit "s_1") 1) ∧
  ∃ attrs, transform_attributions (lit "h_y") 5 olds cat.2 [] false twice_diff ms = Some attrs ∧
    ∀ p, 27 ≤ p < 36 → p < length new ∧ ∀ w t, ¬ owned (merge_attributions attrs) p w t.
Proof.
  assert (∀ old new dels inss, detected_moves hash_normalized default_config old new dels inss false =
    detected_moves (λ _, 0%N) default_config old new dels inss false) as Eh.
  { intros old new dels inss. unfold detected_moves, tracker_detect_moves. by rewrite (detect_moves_hash (λ _, 0%N)). }
  cbv zeta. rewrite Eh.
  assert (detected_moves (λ _, 0%N) default_config (old_text twice_diff) (new_text twice_diff)
    (build_diff_catalog twice_diff).1 (build_diff_catalog twice_diff).2 false =
    [mkMove 0 0 (0, 9) (0, 9); mkMove 0 1 (0, 9) (0, 9)]) as -> by (vm_compute; reflexivity).
  change (length (old_text twice_diff)) with 27. change (length (new_text twice_diff)) with 36.
  split; [done|]. split.
  { intros q Hq. apply owned_singleton. split; [lia|done]. }
  eexists. split; [vm_compute; reflexivity|]. intros p Hp. split; [lia|]. intros w t.
  rewrite merge_attributions_owned, !owned_cons. cbn [start end_].
  intros [[? _]|[[? _]|[[? _]|[]%owned_nil]]]; lia.
Qed.


(** *** Witnesses *)

(** A file with CRLF line ends in which the agent replaces the second line. *)
Definition crlf : str := [CR; LF].
Definition crlf_old : str := lit "a" ++ crlf ++ lit "b" ++ crlf.
Definition crlf_new : str := lit "a" ++ crlf ++ lit "c" ++ crlf.

Lemma ai_update_ownership_witness :
  ∃ attrs, @update_attributions_for_checkpoint coarse_engine (λ _, false) (λ _, false) (λ _, 0%N) default_config
    crlf_old crlf_new [mkAttr 0 6 (lit "h_x") 1] (lit "s_1") 5 true = Ret attrs ∧
    owned attrs 3 (lit "s_1") 5.
Proof.
  destruct (@ai_update_ownership coarse_engine (λ _, false) (λ _, false) (λ _, 0%N) default_config
    crlf_old crlf_new [mkAttr 0 6 (lit "h_x") 1] (lit "s_1") 5 eq_refl eq_refl)
    as (c & attrs & Hc & _ & _ & Hu & Ho).
  exists attrs. split; [exact Hu|]. specialize (Ho 3). vm_compute in Hc. injection Hc as <-.
  cbv zeta in Ho.
  apply Ho. split; reflexivity.
Defined.

Lemma update_ownership_witness :
  ∃ attrs, @update_attributions_for_checkpoint coarse_engine (λ _, false) (λ _, false) (λ _, 0%N) default_config
    (lit "ab") (lit "b") [mkAttr 0 2 (lit "h_x") 1] (lit "h_y") 5 false = Ret attrs ∧
    Forall (λ a, known (lit "h_y") 5 [mkAttr 0 2 (lit "h_x") 1] (author_id a) (ts a)) attrs.
Proof.
  destruct (@update_ownership coarse_engine (λ _, false) (λ _, false) (λ _, 0%N) default_config
    (lit "ab") (lit "b") [mkAttr 0 2 (lit "h_x") 1] (lit "h_y") 5 false eq_refl eq_refl)
    as (c & attrs & _ & _ & _ & _ & Hu & Hk & _).
  exists attrs. split; [exact Hu|exact Hk].
Defined.

End TrackerProps.
