(* ===== verification/PatchParse.v ===== *)
(** * Reading patches

    Models the patch reader of src/src/commands/diff.rs ([parse_diff_hunks],
    a state machine over the lines of a [git diff -U0]) and
    [unescape_git_path] of src/src/utils.rs, which undoes git's quoting of
    path names.  The reference is the text git writes: [render_patch] for the
    patch, [git_quote] for a path.  Unicode normalization is a parameter. *)

From S2P Require Import Prelude Text HunkShift.

Local Open Scope Z_scope.

Module PatchParse.

(** ** UTF-8 decoding: [String::from_utf8_lossy] *)

Definition in_range (lo hi : N) (c : ascii) : bool :=
  let n := N_of_ascii c in (lo <=? n)%N && (n <=? hi)%N.

(** The bounds of the byte after a lead byte, and how many plain
    continuation bytes follow that one; [None] for a byte that leads nothing. *)
Definition lead_shape (c : ascii) : option (N * N * nat) :=
  let n := N_of_ascii c in
  if in_range 194 223 c then Some (128, 191, 0%nat)%N
  else if (n =? 224)%N then Some (160, 191, 1%nat)%N
  else if in_range 225 236 c || in_range 238 239 c then Some (128, 191, 1%nat)%N
  else if (n =? 237)%N then Some (128, 159, 1%nat)%N
  else if (n =? 240)%N then Some (144, 191, 2%nat)%N
  else if in_range 241 243 c then Some (128, 191, 2%nat)%N
  else if (n =? 244)%N then Some (128, 143, 2%nat)%N
  else None.

(** The bytes of the sequence that starts a text, and whether they are a
    well-formed character. *)
Fixpoint continuations (k : nat) (s : str) : nat * bool :=
  match k, s with
  | O, _ => (0%nat, true)
  | S k', c :: s' =>
      if in_range 128 191 c then let '(n, ok) := continuations k' s' in (S n, ok) else (0%nat, false)
  | S _, [] => (0%nat, false)
  end.

Definition utf8_sequence (s : str) : nat * bool :=
  match s with
  | [] => (0%nat, false)
  | c :: s' =>
      if is_ascii c then (1%nat, true)
      else match lead_shape c, s' with
           | Some (lo, hi, k), d :: s'' =>
               if in_range lo hi d then let '(n, ok) := continuations k s'' in (S (S n), ok)
               else (1%nat, false)
           | _, _ => (1%nat, false)
           end
  end.

Definition REPLACEMENT : str := map ascii_of_N [239; 191; 189]%N.

Fixpoint lossy_loop (fuel : nat) (s : str) : str :=
  match fuel, s with
  | S f, _ :: _ =>
      let '(n, ok) := utf8_sequence s in
      (if ok then take n s else REPLACEMENT) ++ lossy_loop f (drop n s)
  | _, _ => []
  end.

Definition from_utf8_lossy (s : str) : str := lossy_loop (length s) s.

(** ** Quoted paths *)

Definition BACKSLASH : ascii := ascii_of_nat 92.
Definition TAB : ascii := ascii_of_nat 9.

(** [char::is_ascii_digit]. *)
Definition is_ascii_digit (ch : str) : bool :=
  match ch with [c] => in_range 48 57 c | _ => false end.
Definition is_octal_digit (ch : str) : bool :=
  match ch with [c] => in_range 48 55 c | _ => false end.

(** The octal digits taken, at most [n], and the characters left. *)
Fixpoint take_octal (n : nat) (cs : list str) : str * list str :=
  match n, cs with
  | S n', ch :: cs' =>
      if is_octal_digit ch then let '(o, r) := take_octal n' cs' in (ch ++ o, r) else ([], cs)
  | _, _ => ([], cs)
  end.

(** [u8::from_str_radix(_, 8)] on octal digits. *)
Definition octal_byte (digits : str) : option ascii :=
  match digits with
  | [] => None
  | _ =>
      let v := foldl (λ acc c, acc * 8 + (N_of_ascii c - 48))%N 0%N digits in
      if (v <=? 255)%N then Some (ascii_of_N v) else None
  end.

(** The loop over the characters between the quotes: the bytes collected. *)
Fixpoint unescape_loop (fuel : nat) (cs : list str) : str :=
  match fuel, cs with
  | S f, c :: rest =>
      if str_eqb c [BACKSLASH] then
        match rest with
        | d :: rest' =>
            if str_eqb d [BACKSLASH] then BACKSLASH :: unescape_loop f rest'
            else if str_eqb d [DQUOTE] then DQUOTE :: unescape_loop f rest'
            else if str_eqb d (lit "n") then LF :: unescape_loop f rest'
            else if str_eqb d (lit "t") then TAB :: unescape_loop f rest'
            else if str_eqb d (lit "r") then CR :: unescape_loop f rest'
            else if is_ascii_digit d then
              let '(octal, rest'') := take_octal 3 rest in
              match octal_byte octal with
              | Some b => b :: unescape_loop f rest''
              | None => unescape_loop f rest''
              end
            else BACKSLASH :: unescape_loop f rest
        | [] => BACKSLASH :: unescape_loop f rest
        end
      else c ++ unescape_loop f rest
  | _, _ => []
  end.

(** [&path[1..path.len() - 1]] panics on a lone quote. *)
Definition unescape_git_path {E : Type} (path : str) : outcome E str :=
  if starts_with [DQUOTE] path && ends_with [DQUOTE] path then
    if (length path <? 2)%nat then Panic
    else
      let cs := chars (slice 1 (length path - 1) path) in
      Ret (from_utf8_lossy (unescape_loop (length cs) cs))
  else Ret path.

(** ** The patch reader *)

Record DiffHunk := mkDiffHunk {
  hunk_file_path : str;
  hunk_old_file_path : option str;
  hunk_old_start : Z;
  hunk_old_count : Z;
  hunk_new_start : Z;
  hunk_new_count : Z;
  deleted_lines : list Z;
  added_lines : list Z;
  deleted_contents : list str;
  added_contents : list str
}.

Inductive GitAiError := Generic (message : str).
Abbreviation result := (outcome GitAiError).

Section Reader.
(** Unicode NFC normalization. *)
Variable nfc : str → str.

Definition path_prefixes : list str :=
  [lit "a/"; lit "b/"; lit "c/"; lit "w/"; lit "i/"; lit "o/"].

(** [prefixes.iter().find_map(..).unwrap_or(..)]. *)
Fixpoint strip_first_prefix (prefixes : list str) (s : str) : str :=
  match prefixes with
  | [] => s
  | p :: prefixes' =>
      match strip_prefix p s with
      | Some stripped => stripped
      | None => strip_first_prefix prefixes' s
      end
  end.

Definition normalize_diff_path_token (path : str) : result str :=
  let? unescaped := unescape_git_path (trim_end path) in
  Ret (nfc (strip_first_prefix path_prefixes unescaped)).

(** Outer [None]: the line is not this header. *)
Definition parse_file_path_from_header_line (line prefix : str) : result (option (option str)) :=
  match strip_prefix prefix line with
  | None => Ret None
  | Some raw =>
      if str_eqb (trim_end raw) (lit "/dev/null") then Ret (Some None)
      else let? p := normalize_diff_path_token raw in Ret (Some (Some p))
  end.

Definition parse_new_file_path_from_plus_header_line (line : str) : result (option (option str)) :=
  parse_file_path_from_header_line line (lit "+++ ").
Definition parse_old_file_path_from_minus_header_line (line : str) : result (option (option str)) :=
  parse_file_path_from_header_line line (lit "--- ").

(** A quoted token after its first quote: up to the closing quote. *)
Fixpoint quoted_token (escaped : bool) (cs : list str) : str * list str :=
  match cs with
  | [] => ([], [])
  | ch :: cs' =>
      if escaped then let '(t, r) := quoted_token false cs' in (ch ++ t, r)
      else if str_eqb ch [BACKSLASH] then let '(t, r) := quoted_token true cs' in (ch ++ t, r)
      else if str_eqb ch [DQUOTE] then (ch, cs')
      else let '(t, r) := quoted_token false cs' in (ch ++ t, r)
  end.

Fixpoint plain_token (cs : list str) : str * list str :=
  match cs with
  | [] => ([], [])
  | ch :: cs' =>
      if is_whitespace ch then ([], cs)
      else let '(t, r) := plain_token cs' in (ch ++ t, r)
  end.

(** One turn of the outer loop: the next token, if any text is left. *)
Definition next_token (cs : list str) : option (str * list str) :=
  match drop_while is_whitespace cs with
  | [] => None
  | ch :: cs' =>
      if str_eqb ch [DQUOTE] then let '(t, r) := quoted_token false cs' in Some (ch ++ t, r)
      else Some (plain_token (ch :: cs'))
  end.

Definition parse_two_git_path_tokens (raw : str) : option (str * str) :=
  match next_token (chars raw) with
  | Some (t1, rest) =>
      if bool_decide (t1 = []) then None
      else
        match next_token rest with
        | Some (t2, _) => if bool_decide (t2 = []) then None else Some (t1, t2)
        | None => None
        end
  | None => None
  end.

Definition parse_diff_git_header_paths (line : str) : result (option (str * str)) :=
  match strip_prefix (lit "diff --git ") line with
  | None => Ret None
  | Some raw =>
      match parse_two_git_path_tokens raw with
      | None => Ret None
      | Some (old_raw, new_raw) =>
          let? o := normalize_diff_path_token old_raw in
          let? n := normalize_diff_path_token new_raw in
          Ret (Some (o, n))
      end
  end.

Definition parse_or_zero (s : str) : Z := default 0 (parse_u32 s).

(** One side of a hunk header: its start and count. *)
Definition parse_side (sign : str) (part : str) : Z * Z :=
  match strip_prefix sign part with
  | Some spec =>
      match split_once (lit ",") spec with
      | Some (start_str, count_str) => (parse_or_zero start_str, parse_or_zero count_str)
      | None => (parse_or_zero spec, 1)
      end
  | None => (0, 0)
  end.

(** [(start..start + count).collect()]. *)
Definition line_numbers (start count : Z) : list Z :=
  if 0 <? count then seqZ start (u32_add start count - start) else [].

Definition parse_hunk_line (line file_path : str) (old_file_path : option str) : option DiffHunk :=
  match split_whitespace line with
  | _ :: old_part :: new_part :: _ =>
      let '(old_start, old_count) := parse_side (lit "-") old_part in
      let '(new_start, new_count) := parse_side (lit "+") new_part in
      Some (mkDiffHunk file_path old_file_path old_start old_count new_start new_count
              (line_numbers old_start old_count) (line_numbers new_start new_count) [] [])
  | _ => None
  end.

(** The variables of the loop. *)
Record Reader := mkReader {
  hunks : list DiffHunk;
  current_old_file : option str;
  current_file : str;
  current_hunk : option DiffHunk;
  old_line_cursor : Z;
  new_line_cursor : Z
}.

Definition initial_reader : Reader := mkReader [] None [] None 0 0.

Definition flush_current_hunk (r : Reader) : Reader :=
  match current_hunk r with
  | Some hunk => mkReader (hunks r ++ [hunk]) (current_old_file r) (current_file r) None
                   (old_line_cursor r) (new_line_cursor r)
  | None => r
  end.

Definition set_files (r : Reader) (old : option str) (file : str) : Reader :=
  mkReader (hunks r) old file (current_hunk r) (old_line_cursor r) (new_line_cursor r).

(** [hunk.deleted_lines.clear(); hunk.added_lines.clear();] *)
Definition clear_lines (h : DiffHunk) : DiffHunk :=
  mkDiffHunk (hunk_file_path h) (hunk_old_file_path h) (hunk_old_start h) (hunk_old_count h)
    (hunk_new_start h) (hunk_new_count h) [] [] (deleted_contents h) (added_contents h).

Definition push_deleted (h : DiffHunk) (line : Z) (content : str) : DiffHunk :=
  mkDiffHunk (hunk_file_path h) (hunk_old_file_path h) (hunk_old_start h) (hunk_old_count h)
    (hunk_new_start h) (hunk_new_count h) (deleted_lines h ++ [line]) (added_lines h)
    (deleted_contents h ++ [content]) (added_contents h).

Definition push_added (h : DiffHunk) (line : Z) (content : str) : DiffHunk :=
  mkDiffHunk (hunk_file_path h) (hunk_old_file_path h) (hunk_old_start h) (hunk_old_count h)
    (hunk_new_start h) (hunk_new_count h) (deleted_lines h) (added_lines h ++ [line])
    (deleted_contents h) (added_contents h ++ [content]).

(** A line that is neither a file header nor a hunk header. *)
Definition read_body (r : Reader) (line : str) : Reader :=
  match current_hunk r with
  | None => r
  | Some hunk =>
      let o := old_line_cursor r in
      let n := new_line_cursor r in
      match strip_prefix (lit "-") line with
      | Some stripped =>
          mkReader (hunks r) (current_old_file r) (current_file r)
            (Some (push_deleted hunk o stripped)) (u32_add o 1) n
      | None =>
          match strip_prefix (lit "+") line with
          | Some stripped =>
              mkReader (hunks r) (current_old_file r) (current_file r)
                (Some (push_added hunk n stripped)) o (u32_add n 1)
          | None =>
              if starts_with (lit " ") line then
                mkReader (hunks r) (current_old_file r) (current_file r) (Some hunk)
                  (u32_add o 1) (u32_add n 1)
              else r
          end
      end
  end.

Definition read_hunk_header (r : Reader) (line : str) : Reader :=
  let r := flush_current_hunk r in
  let old_file_path :=
    match current_old_file r with
    | Some old_path => if str_eqb old_path (current_file r) then None else Some old_path
    | None => None
    end in
  match parse_hunk_line line (current_file r) old_file_path with
  | Some hunk =>
      mkReader (hunks r) (current_old_file r) (current_file r) (Some (clear_lines hunk))
        (hunk_old_start hunk) (hunk_new_start hunk)
  | None => r
  end.

Definition read_rest (r : Reader) (line : str) : Reader :=
  if starts_with (lit "@@ ") line then read_hunk_header r line else read_body r line.

(** The body of the loop over the lines. *)
Definition read_line (r : Reader) (line : str) : result Reader :=
  if starts_with (lit "diff --git ") line then
    let r := flush_current_hunk r in
    let? paths := parse_diff_git_header_paths line in
    match paths with
    | Some (old_file, new_file) => Ret (set_files r (Some old_file) new_file)
    | None => Ret (set_files r None [])
    end
  else
    match current_hunk r with
    | Some _ => Ret (read_rest r line)
    | None =>
        let? minus := parse_old_file_path_from_minus_header_line line in
        match minus with
        | Some path_opt =>
            Ret (set_files r path_opt
              (match current_file r with [] => default [] path_opt | f => f end))
        | None =>
            let? plus := parse_new_file_path_from_plus_header_line line in
            match plus with
            | Some path_opt =>
                Ret (set_files r (current_old_file r)
                  (match path_opt with
                   | Some p => p
                   | None => default [] (current_old_file r)
                   end))
            | None => Ret (read_rest r line)
            end
        end
    end.

Fixpoint read_lines (r : Reader) (ls : list str) : result Reader :=
  match ls with
  | [] => Ret r
  | line :: ls' => let? r' := read_line r line in read_lines r' ls'
  end.

Definition parse_diff_hunks (diff_text : str) : result (list DiffHunk) :=
  let? r := read_lines initial_reader (lines diff_text) in
  Ret (hunks (flush_current_hunk r)).
End Reader.

End PatchParse.

(** ** Reference: what git writes *)

Module PatchText.
Import HunkShift HunkShiftFacts PatchParse.

(** Well-formed UTF-8. *)
Fixpoint valid_loop (fuel : nat) (s : str) : bool :=
  match fuel, s with
  | S f, _ :: _ => let '(n, ok) := utf8_sequence s in ok && valid_loop f (drop n s)
  | _, _ => true
  end.
Definition valid_utf8 (s : str) : bool := valid_loop (length s) s.

(** Git's C-style quoting of one character; [quote_path] is the setting
    [core.quotePath]. *)
Definition octal_digit (n : N) : ascii := ascii_of_N (48 + n).
Definition octal3 (c : ascii) : str :=
  let n := N_of_ascii c in
  BACKSLASH :: map octal_digit [n / 64; (n / 8) mod 8; n mod 8]%N.

Definition quote_byte (c : ascii) : str :=
  let n := N_of_ascii c in
  if (n =? 7)%N then BACKSLASH :: lit "a"
  else if (n =? 8)%N then BACKSLASH :: lit "b"
  else if (n =? 9)%N then BACKSLASH :: lit "t"
  else if (n =? 10)%N then BACKSLASH :: lit "n"
  else if (n =? 11)%N then BACKSLASH :: lit "v"
  else if (n =? 12)%N then BACKSLASH :: lit "f"
  else if (n =? 13)%N then BACKSLASH :: lit "r"
  else if (n =? 34)%N then [BACKSLASH; DQUOTE]
  else if (n =? 92)%N then [BACKSLASH; BACKSLASH]
  else if (n <? 32)%N || (n =? 127)%N then octal3 c
  else [c].

Definition quote_char (quote_path : bool) (ch : str) : str :=
  match ch with
  | [c] => quote_byte c
  | _ => if quote_path then flat_map octal3 ch else ch
  end.

(** A name is quoted when quoting changes it. *)
Definition git_name (quote_path : bool) (p : str) : str :=
  let q := flat_map (quote_char quote_path) (chars p) in
  if str_eqb q p then p else DQUOTE :: q ++ [DQUOTE].

(** The control characters git names by a letter and the reader does not know. *)
Definition named_control (c : ascii) : bool :=
  let n := N_of_ascii c in ((n =? 7) || (n =? 8) || (n =? 11) || (n =? 12))%N.

(** One hunk of a patch without context lines. *)
Record HunkPatch := mkHunkPatch {
  hp_range : HunkShift.DiffHunk;
  hp_short : bool * bool;
  hp_context : str;
  hp_deleted : list str;
  hp_deleted_open : bool;
  hp_added : list str;
  hp_added_open : bool
}.

Definition no_newline (b : bool) : list str :=
  if b then [lit "\ No newline at end of file"] else [].

Definition hunk_lines (hp : HunkPatch) : list str :=
  header_text (hp_short hp).1 (hp_short hp).2 (hp_range hp) (hp_context hp) ::
  map (cons "-"%char) (hp_deleted hp) ++ no_newline (hp_deleted_open hp) ++
  map (cons "+"%char) (hp_added hp) ++ no_newline (hp_added_open hp).

(** One file of a patch: the text after [diff --git ], the lines of extended
    headers, and, when there are hunks, the two names and the hunks. *)
Record FilePatch := mkFilePatch {
  fp_git : str;
  fp_extended : list str;
  fp_body : option (str * str * list HunkPatch)
}.

Definition file_lines (fp : FilePatch) : list str :=
  (lit "diff --git " ++ fp_git fp) :: fp_extended fp ++
  match fp_body fp with
  | None => []
  | Some (minus, plus, hps) =>
      (lit "--- " ++ minus) :: (lit "+++ " ++ plus) :: flat_map hunk_lines hps
  end.

Definition render_lines (ls : list str) : str := flat_map (λ l, l ++ [LF]) ls.
Definition render_patch (fps : list FilePatch) : str := render_lines (flat_map file_lines fps).

Section Reading.
Variable nfc : str → str.

(** What a name of a [---] or [+++] line denotes. *)
Definition names (raw : str) (path : option str) : Prop :=
  match path with
  | None => trim_end raw = lit "/dev/null"
  | Some p => trim_end raw ≠ lit "/dev/null" ∧ normalize_diff_path_token nfc raw = Ret p
  end.

Definition extended_header (l : str) : Prop :=
  starts_with (lit "diff --git ") l = false ∧ starts_with (lit "--- ") l = false ∧
  starts_with (lit "+++ ") l = false ∧ starts_with (lit "@@ ") l = false.

(** Names never end in a carriage return: git quotes it. *)
Definition one_line (l : str) : Prop := LF ∉ l ∧ strip_cr l = l.

Definition hunk_ok (hp : HunkPatch) : Prop :=
  let h := hp_range hp in
  is_u32 (old_start h) ∧ is_u32 (new_start h) ∧
  old_count h = Z.of_nat (length (hp_deleted hp)) ∧ new_count h = Z.of_nat (length (hp_added hp)) ∧
  old_start h + old_count h <= u32_max ∧ new_start h + new_count h <= u32_max ∧
  LF ∉ hp_context hp ∧ Forall (λ l, LF ∉ l) (hp_deleted hp) ∧ Forall (λ l, LF ∉ l) (hp_added hp).

(** A file's texts, and the old and new path they denote. *)
Definition file_ok (fp : FilePatch) (paths : option str * option str) : Prop :=
  one_line (fp_git fp) ∧
  (∃ v, parse_diff_git_header_paths nfc (lit "diff --git " ++ fp_git fp) = Ret v) ∧
  Forall (λ l, one_line l ∧ extended_header l) (fp_extended fp) ∧
  match fp_body fp with
  | None => True
  | Some (minus, plus, hps) =>
      one_line minus ∧ one_line plus ∧ names minus paths.1 ∧ names plus paths.2 ∧ Forall hunk_ok hps
  end.

(** The record of a hunk of a file with the given paths. *)
Definition read_as (paths : option str * option str) (hp : HunkPatch) : PatchParse.DiffHunk :=
  let file := match paths.2 with Some p => p | None => default [] paths.1 end in
  let h := hp_range hp in
  mkDiffHunk file
    (match paths.1 with Some o => if str_eqb o file then None else Some o | None => None end)
    (old_start h) (old_count h) (new_start h) (new_count h)
    (seqZ (old_start h) (old_count h)) (seqZ (new_start h) (new_count h))
    (map strip_cr (hp_deleted hp)) (map strip_cr (hp_added hp)).

Definition file_hunks (fp : FilePatch) (paths : option str * option str) : list PatchParse.DiffHunk :=
  match fp_body fp with
  | None => []
  | Some (_, _, hps) => map (read_as paths) hps
  end.
End Reading.

End PatchText.

(** ** Lemmas *)

Module PatchParseFacts.
Import HunkShift HunkShiftFacts PatchParse PatchText.

(** *** Rendered lines *)

Lemma lines_render ls : Forall (λ l, LF ∉ l) ls → lines (render_lines ls) = map strip_cr ls.
Proof.
  unfold render_lines. induction 1 as [|l ls Hl _ IH]; [done|]. cbn [flat_map map].
  rewrite <-app_assoc. change ([LF] ++ ?s) with (LF :: s). by rewrite lines_line, IH.
Qed.

Lemma strip_cr_cons c l : c ≠ CR → strip_cr (c :: l) = c :: strip_cr l.
Proof.
  intros Hc. unfold strip_cr. simpl. destruct (rev l) as [|d r] eqn:E.
  - assert (l = []) as -> by (apply (f_equal (@rev _)) in E; by rewrite rev_involutive in E).
    simpl. by rewrite bool_decide_false.
  - simpl. case_bool_decide; [|done]. by rewrite rev_app_distr.
Qed.

(** *** Composition of the reader *)

Section Reader.
Variable nfc : str → str.
Local Abbreviation read := (read_line nfc).

Lemma read_lines_app r a b :
  read_lines nfc r (a ++ b) = obind (read_lines nfc r a) (λ r', read_lines nfc r' b).
Proof. revert r. induction a as [|l a IH]; intros r; simpl; [done|]. by destruct (read r l); simpl. Qed.

Lemma read_lines_step r ls r' ls' :
  read_lines nfc r ls = Ret r' → read_lines nfc r (ls ++ ls') = read_lines nfc r' ls'.
Proof. intros H. by rewrite read_lines_app, H. Qed.

(** What the records of [r] and its open hunk amount to. *)
Definition collected (r : PatchParse.Reader) : list PatchParse.DiffHunk :=
  PatchParse.hunks (flush_current_hunk r).

Lemma starts_with_cons_ne c p d s : c ≠ d → starts_with (c :: p) (d :: s) = false.
Proof. intros H. unfold starts_with. simpl. by rewrite bool_decide_false. Qed.

Lemma strip_prefix_cons_ne c p d s : c ≠ d → strip_prefix (c :: p) (d :: s) = None.
Proof. intros H. simpl. by rewrite bool_decide_false. Qed.

Lemma starts_with_app p s : starts_with p (p ++ s) = true.
Proof. apply starts_with_spec. by exists s. Qed.

Lemma strip_prefix_app p s : strip_prefix p (p ++ s) = Some s.
Proof. by apply strip_prefix_spec. Qed.

(** A line that starts with neither of the letters of a header. *)
Lemma read_plain r c l :
  c ≠ "d"%char → (current_hunk r = None → c ≠ "-"%char ∧ c ≠ "+"%char) →
  read r (c :: l) = Ret (read_rest r (c :: l)).
Proof.
  intros Hd Hh. unfold read_line. change (lit "diff --git ") with ("d"%char :: lit "iff --git ").
  rewrite starts_with_cons_ne by done. destruct (current_hunk r); [done|].
  destruct (Hh eq_refl) as [Hm Hp].
  unfold parse_old_file_path_from_minus_header_line, parse_new_file_path_from_plus_header_line.
  unfold parse_file_path_from_header_line.
  change (lit "--- ") with ("-"%char :: lit "-- "). change (lit "+++ ") with ("+"%char :: lit "++ ").
  by rewrite !strip_prefix_cons_ne.
Qed.

Lemma read_rest_body r c l :
  c ≠ "@"%char → read_rest r (c :: l) = read_body r (c :: l).
Proof.
  intros Hc. unfold read_rest. change (lit "@@ ") with ("@"%char :: lit "@ ").
  by rewrite starts_with_cons_ne.
Qed.

(** *** The body of a hunk *)

Definition with_hunk (r : PatchParse.Reader) (h : PatchParse.DiffHunk) (o n : Z) : PatchParse.Reader :=
  mkReader (PatchParse.hunks r) (current_old_file r) (current_file r) (Some h) o n.

Lemma with_hunk_with_hunk r h o n h' o' n' :
  with_hunk (with_hunk r h o n) h' o' n' = with_hunk r h' o' n'.
Proof. done. Qed.

Lemma read_deleted r h o n l :
  read (with_hunk r h o n) ("-"%char :: l) = Ret (with_hunk r (push_deleted h o l) (u32_add o 1) n).
Proof. rewrite read_plain by (done || discriminate). by rewrite read_rest_body. Qed.

Lemma read_added r h o n l :
  read (with_hunk r h o n) ("+"%char :: l) = Ret (with_hunk r (push_added h n l) o (u32_add n 1)).
Proof. rewrite read_plain by (done || discriminate). by rewrite read_rest_body. Qed.

Definition push_all_deleted (h : PatchParse.DiffHunk) (start : Z) (ls : list str) : PatchParse.DiffHunk :=
  mkDiffHunk (hunk_file_path h) (hunk_old_file_path h) (hunk_old_start h) (hunk_old_count h)
    (hunk_new_start h) (hunk_new_count h)
    (deleted_lines h ++ seqZ start (Z.of_nat (length ls))) (added_lines h)
    (deleted_contents h ++ ls) (added_contents h).

Definition push_all_added (h : PatchParse.DiffHunk) (start : Z) (ls : list str) : PatchParse.DiffHunk :=
  mkDiffHunk (hunk_file_path h) (hunk_old_file_path h) (hunk_old_start h) (hunk_old_count h)
    (hunk_new_start h) (hunk_new_count h)
    (deleted_lines h) (added_lines h ++ seqZ start (Z.of_nat (length ls)))
    (deleted_contents h) (added_contents h ++ ls).

Lemma seqZ_push (l : list Z) x (m : nat) :
  (l ++ [x]) ++ seqZ (x + 1) (Z.of_nat m) = l ++ seqZ x (Z.of_nat (S m)).
Proof.
  rewrite <-app_assoc. f_equal. rewrite (seqZ_cons x) by lia. simpl.
  f_equal. unfold Z.succ. f_equal. lia.
Qed.

Lemma read_all_deleted r h o n ls :
  0 <= o → o + Z.of_nat (length ls) <= u32_max →
  read_lines nfc (with_hunk r h o n) (map (cons "-"%char) ls) =
  Ret (with_hunk r (push_all_deleted h o ls) (o + Z.of_nat (length ls)) n).
Proof.
  revert h o. induction ls as [|l ls IH]; intros h o Ho Hm.
  { simpl. unfold push_all_deleted. simpl. rewrite !app_nil_r, Z.add_0_r. by destruct h. }
  cbn [map read_lines]. rewrite read_deleted. cbn [obind].
  cbn [length] in Hm. assert (u32_add o 1 = o + 1) as -> by (u32; done).
  rewrite IH by lia. do 2 f_equal; [|cbn [length]; lia].
  unfold push_all_deleted, push_deleted. simpl. by rewrite seqZ_push, <-app_assoc.
Qed.

Lemma read_all_added r h o n ls :
  0 <= n → n + Z.of_nat (length ls) <= u32_max →
  read_lines nfc (with_hunk r h o n) (map (cons "+"%char) ls) =
  Ret (with_hunk r (push_all_added h n ls) o (n + Z.of_nat (length ls))).
Proof.
  revert h n. induction ls as [|l ls IH]; intros h n Hn Hm.
  { simpl. unfold push_all_added. simpl. rewrite !app_nil_r, Z.add_0_r. by destruct h. }
  cbn [map read_lines]. rewrite read_added. cbn [obind].
  cbn [length] in Hm. assert (u32_add n 1 = n + 1) as -> by (u32; done).
  rewrite IH by lia. do 2 f_equal; [|cbn [length]; lia].
  unfold push_all_added, push_added. simpl. by rewrite seqZ_push, <-app_assoc.
Qed.

Lemma read_no_newline r h o n b :
  read_lines nfc (with_hunk r h o n) (no_newline b) = Ret (with_hunk r h o n).
Proof.
  destruct b; [|done]. cbn [no_newline read_lines].
  change (lit "\ No newline at end of file") with ("\"%char :: lit " No newline at end of file").
  rewrite read_plain by (done || discriminate). by rewrite read_rest_body.
Qed.

(** *** A hunk *)

Lemma parse_side_text c short s n :
  is_u32 s → is_u32 n → parse_side [c] (c :: range_text short s n) = (s, n).
Proof.
  intros Hs Hn. unfold parse_side, parse_or_zero. change (c :: ?x) with ([c] ++ x).
  rewrite strip_prefix_app. unfold range_text. change (lit ",") with [","%char].
  assert (∀ k, ","%char ∉ show_u32 k) as Hd.
  { intros k. apply digits_not_elem; [apply show_u32_digits|]. vm_compute. naive_solver. }
  destruct (short && (n =? 1)) eqn:E.
  - bool_hyps. subst. rewrite split_once_none by done. by rewrite parse_show_u32.
  - change ([","%char] ++ show_u32 n) with (","%char :: show_u32 n).
    rewrite split_once_first by done. by rewrite !parse_show_u32.
Qed.

Definition opened (paths : option str * option str) (hp : HunkPatch) : PatchParse.DiffHunk :=
  let h := read_as paths hp in
  mkDiffHunk (hunk_file_path h) (hunk_old_file_path h) (hunk_old_start h) (hunk_old_count h)
    (hunk_new_start h) (hunk_new_count h) [] [] [] [].

Definition new_file (paths : option str * option str) : str :=
  match paths.2 with Some p => p | None => default [] paths.1 end.

(** The reader is in the file of [paths]. *)
Definition in_file (paths : option str * option str) (r : PatchParse.Reader) : Prop :=
  current_old_file r = paths.1 ∧ current_file r = new_file paths.

Lemma hunk_ok_counts hp :
  hunk_ok hp → is_u32 (old_count (hp_range hp)) ∧ is_u32 (new_count (hp_range hp)).
Proof. unfold hunk_ok, is_u32. intros. destruct_and!. lia. Qed.

Lemma range_text_no_cr short s c : CR ∉ range_text short s c.
Proof.
  pose proof (range_text_printable short s c) as H. rewrite Forall_forall in H.
  intros [_ Hin]%H. by vm_compute in Hin.
Qed.

Lemma range_text_no_lf short s c : LF ∉ range_text short s c.
Proof.
  pose proof (range_text_printable short s c) as H. rewrite Forall_forall in H.
  intros [_ Hin]%H. by vm_compute in Hin.
Qed.

Lemma strip_cr_app a b : strip_cr (a ++ b) = match b with [] => strip_cr a | _ => a ++ strip_cr b end.
Proof.
  destruct b as [|x b]; [by rewrite app_nil_r|]. unfold strip_cr. rewrite rev_app_distr.
  destruct (rev (x :: b)) as [|c r] eqn:E.
  { apply (f_equal (@length _)) in E. by rewrite length_rev in E. }
  simpl. case_bool_decide; [|done]. by rewrite rev_app_distr, rev_involutive.
Qed.

(** A carriage return at the end of the context is lost, nothing else. *)
Lemma strip_header a b h context :
  strip_cr (header_text a b h context) = header_text a b h (strip_cr context).
Proof.
  unfold header_text. rewrite !app_assoc. rewrite (strip_cr_app _ context).
  destruct context as [|c context]; [|done]. rewrite strip_cr_app. simpl. by rewrite app_nil_r.
Qed.

Lemma read_header paths r hp :
  in_file paths r → hunk_ok hp →
  read r (strip_cr (header_text (hp_short hp).1 (hp_short hp).2 (hp_range hp) (hp_context hp))) =
  Ret (with_hunk (flush_current_hunk r) (opened paths hp)
         (old_start (hp_range hp)) (new_start (hp_range hp))).
Proof.
  intros [Ho Hf] Hok. pose proof (hunk_ok_counts hp Hok) as [? ?].
  destruct Hok as (H1 & H2 & _). rewrite strip_header.
  destruct (header_words (hp_short hp).1 (hp_short hp).2 (hp_range hp) (strip_cr (hp_context hp)))
    as (w & ws & Hw).
  set (text := header_text _ _ _ _) in *.
  assert (text = "@"%char :: drop 1 text) as Ht by done.
  rewrite Ht, read_plain by (done || (intros; split; discriminate)). rewrite <-Ht.
  f_equal. unfold read_rest.
  assert (starts_with (lit "@@ ") text = true) as ->.
  { unfold text, header_text. change (lit "@@ -") with (lit "@@ " ++ lit "-").
    rewrite <-app_assoc. apply starts_with_app. }
  unfold read_hunk_header, parse_hunk_line. rewrite Hw.
  change (lit "-") with ["-"%char]. change (lit "+") with ["+"%char].
  rewrite !parse_side_text by done.
  assert (current_old_file (flush_current_hunk r) = current_old_file r ∧
    current_file (flush_current_hunk r) = current_file r) as [Ho' Hf'].
  { unfold flush_current_hunk. by destruct (current_hunk r). }
  rewrite Ho', Hf', Ho, Hf. unfold with_hunk, clear_lines, opened, read_as, new_file. simpl.
  rewrite Ho', Hf', Ho, Hf. done.
Qed.

Lemma strip_no_newline b : map strip_cr (no_newline b) = no_newline b.
Proof. by destruct b. Qed.

Lemma map_strip_cons c ls : c ≠ CR → map strip_cr (map (cons c) ls) = map (cons c) (map strip_cr ls).
Proof. intros Hc. rewrite !map_map. apply map_ext. intros l. by apply strip_cr_cons. Qed.

Lemma read_hunk paths r hp :
  in_file paths r → hunk_ok hp →
  ∃ r', read_lines nfc r (map strip_cr (hunk_lines hp)) = Ret r' ∧ in_file paths r' ∧
    collected r' = collected r ++ [read_as paths hp].
Proof.
  intros Hin Hok. unfold hunk_lines. cbn [map read_lines]. rewrite (read_header paths) by done.
  cbn [obind]. rewrite !map_app, !strip_no_newline, !map_strip_cons by discriminate.
  destruct Hok as (H1 & H2 & Hc1 & Hc2 & Hm1 & Hm2 & _). unfold is_u32 in *.
  rewrite read_lines_app, read_all_deleted by (rewrite ?length_map; lia). cbn [obind].
  rewrite read_lines_app, read_no_newline. cbn [obind].
  rewrite read_lines_app, read_all_added by (rewrite ?length_map; lia). cbn [obind].
  rewrite read_no_newline. eexists. split; [done|]. split.
  { destruct Hin. unfold in_file, flush_current_hunk. by destruct (current_hunk r). }
  unfold collected, flush_current_hunk at 1. cbn [current_hunk with_hunk PatchParse.hunks].
  f_equal. f_equal. unfold push_all_added, push_all_deleted, opened, read_as. simpl.
  by rewrite !length_map, Hc1, Hc2.
Qed.

Lemma read_hunks paths r hps :
  in_file paths r → Forall hunk_ok hps →
  ∃ r', read_lines nfc r (map strip_cr (flat_map hunk_lines hps)) = Ret r' ∧
    collected r' = collected r ++ map (read_as paths) hps.
Proof.
  intros Hin Hok. revert r Hin. induction Hok as [|hp hps Hhp _ IH]; intros r Hin.
  { exists r. by rewrite app_nil_r. }
  cbn [flat_map map]. rewrite map_app.
  destruct (read_hunk paths r hp Hin Hhp) as (r1 & H1 & Hin1 & Hc1).
  destruct (IH r1 Hin1) as (r2 & H2 & Hc2).
  exists r2. rewrite (read_lines_step _ _ _ _ H1). split; [done|].
  by rewrite Hc2, Hc1, <-app_assoc.
Qed.
(** *** A file *)

Lemma strip_cr_prefix p l : strip_cr p = p → one_line l → strip_cr (p ++ l) = p ++ l.
Proof. intros Hp [_ Hl]. rewrite strip_cr_app. destruct l; [by rewrite app_nil_r|]. by rewrite Hl. Qed.

Lemma not_prefix p s : starts_with p s = false → strip_prefix p s = None.
Proof. unfold starts_with. by destruct (strip_prefix p s). Qed.

Lemma read_extended r ls :
  current_hunk r = None → Forall (λ l, one_line l ∧ extended_header l) ls →
  read_lines nfc r (map strip_cr ls) = Ret r.
Proof.
  intros Hr. induction 1 as [|l ls [[_ Hl] (H1 & H2 & H3 & H4)] _ IH]; [done|].
  cbn [map read_lines]. rewrite Hl. unfold read_line. rewrite H1, Hr.
  unfold parse_old_file_path_from_minus_header_line, parse_new_file_path_from_plus_header_line.
  unfold parse_file_path_from_header_line. rewrite !not_prefix by done. cbn [obind].
  unfold read_rest, read_body. by rewrite H4, Hr.
Qed.

Lemma read_name raw path prefix :
  names nfc raw path →
  parse_file_path_from_header_line nfc (prefix ++ raw) prefix = Ret (Some path).
Proof.
  unfold parse_file_path_from_header_line. rewrite strip_prefix_app.
  destruct path as [p|]; simpl.
  - intros [Hne Hp]. rewrite Hp. unfold str_eqb. by rewrite bool_decide_false.
  - intros ->. unfold str_eqb. by rewrite bool_decide_true.
Qed.

Lemma minus_header_other c l :
  c ≠ "-"%char → parse_old_file_path_from_minus_header_line nfc (c :: l) = Ret None.
Proof.
  intros Hc. unfold parse_old_file_path_from_minus_header_line, parse_file_path_from_header_line.
  change (lit "--- ") with ("-"%char :: lit "-- "). by rewrite strip_prefix_cons_ne.
Qed.

Lemma read_names r minus plus paths :
  current_hunk r = None → names nfc minus paths.1 → names nfc plus paths.2 →
  read_lines nfc r [lit "--- " ++ minus; lit "+++ " ++ plus] =
  Ret (set_files r paths.1 (new_file paths)).
Proof.
  intros Hr Hm Hp. cbn [read_lines]. unfold read_line at 1.
  change (lit "--- " ++ minus) with ("-"%char :: (lit "-- " ++ minus)) at 1.
  change (lit "diff --git ") with ("d"%char :: lit "iff --git ").
  rewrite starts_with_cons_ne, Hr by done.
  unfold parse_old_file_path_from_minus_header_line at 1. rewrite (read_name _ paths.1) by done.
  cbn [obind]. unfold read_line at 1.
  change (lit "+++ " ++ plus) with ("+"%char :: (lit "++ " ++ plus)) at 1 2.
  change (lit "diff --git ") with ("d"%char :: lit "iff --git ").
  rewrite starts_with_cons_ne by done. cbn [current_hunk set_files]. rewrite Hr.
  assert (parse_old_file_path_from_minus_header_line nfc (lit "+++ " ++ plus) = Ret None) as ->
    by by apply (minus_header_other "+" (lit "++ " ++ plus)).
  cbn [obind].
  unfold parse_new_file_path_from_plus_header_line. rewrite (read_name _ paths.2) by done.
  cbn [obind]. unfold new_file, set_files. simpl. by rewrite Hr.
Qed.

Lemma read_git_line r git :
  (∃ v, parse_diff_git_header_paths nfc (lit "diff --git " ++ git) = Ret v) →
  ∃ r', read r (lit "diff --git " ++ git) = Ret r' ∧ current_hunk r' = None ∧
    PatchParse.hunks r' = collected r.
Proof.
  intros [v Hv]. unfold read_line. rewrite starts_with_app, Hv. cbn [obind].
  assert (current_hunk (flush_current_hunk r) = None) as Hn.
  { unfold flush_current_hunk. by destruct (current_hunk r) eqn:E. }
  destruct v as [[o n]|]; by eexists.
Qed.

Lemma collected_closed r : current_hunk r = None → collected r = PatchParse.hunks r.
Proof. intros H. unfold collected, flush_current_hunk. by rewrite H. Qed.

Lemma read_file r fp paths :
  file_ok nfc fp paths →
  ∃ r', read_lines nfc r (map strip_cr (file_lines fp)) = Ret r' ∧
    collected r' = collected r ++ file_hunks fp paths.
Proof.
  intros (Hg1 & Hg2 & Hext & Hbody). unfold file_lines. cbn [map read_lines].
  rewrite (strip_cr_prefix (lit "diff --git ")) by done.
  destruct (read_git_line r (fp_git fp) Hg2) as (r1 & -> & Hn & Hc). cbn [obind].
  rewrite map_app, (read_lines_step _ _ r1) by by apply read_extended.
  unfold file_hunks. destruct (fp_body fp) as [[[minus plus] hps]|].
  - destruct Hbody as (Hm1 & Hp1 & Hm & Hp & Hok).
    cbn [map]. rewrite (strip_cr_prefix (lit "--- ")), (strip_cr_prefix (lit "+++ ")) by done.
    change (?a :: ?b :: ?l) with ([a; b] ++ l).
    rewrite (read_lines_step _ _ _ _ (read_names r1 minus plus paths Hn Hm Hp)).
    destruct (read_hunks paths (set_files r1 paths.1 (new_file paths)) hps) as (r2 & H2 & Hc2); [done..|].
    exists r2. split; [done|]. rewrite Hc2, collected_closed by done. by rewrite <-Hc.
  - exists r1. split; [done|]. by rewrite collected_closed, Hc, app_nil_r.
Qed.

Lemma read_files r fps paths :
  Forall2 (file_ok nfc) fps paths →
  ∃ r', read_lines nfc r (map strip_cr (flat_map file_lines fps)) = Ret r' ∧
    collected r' = collected r ++ concat (zip_with file_hunks fps paths).
Proof.
  intros H. revert r. induction H as [|fp p fps ps Hf _ IH]; intros r.
  { exists r. by rewrite app_nil_r. }
  cbn [flat_map]. rewrite map_app.
  destruct (read_file r fp p Hf) as (r1 & H1 & Hc1). destruct (IH r1) as (r2 & H2 & Hc2).
  exists r2. rewrite (read_lines_step _ _ _ _ H1). split; [done|].
  cbn [zip_with concat]. by rewrite Hc2, Hc1, <-app_assoc.
Qed.

Lemma lf_prefix p l : LF ∉ p → LF ∉ l → LF ∉ p ++ l.
Proof. set_solver. Qed.

Lemma header_no_lf a b h context : LF ∉ context → LF ∉ header_text a b h context.
Proof.
  intros Hc. unfold header_text.
  repeat apply lf_prefix; [..|done]; try apply range_text_no_lf; vm_compute; set_solver.
Qed.

Lemma hunk_lines_no_lf hp : hunk_ok hp → Forall (λ l, LF ∉ l) (hunk_lines hp).
Proof.
  intros Hok. unfold hunk_ok in Hok. destruct_and!. constructor; [by apply header_no_lf|].
  assert (∀ b, Forall (λ l, LF ∉ l) (no_newline b)) as Hnn.
  { intros []; repeat constructor. vm_compute. set_solver. }
  assert (∀ c ls, c ≠ LF → Forall (λ l, LF ∉ l) ls → Forall (λ l, LF ∉ l) (map (cons c) ls)) as Hm.
  { intros c ls Hc Hls. induction Hls; constructor; [|done]. set_solver. }
  rewrite !Forall_app. split_and!; auto; by apply Hm.
Qed.

Lemma file_lines_no_lf fp paths : file_ok nfc fp paths → Forall (λ l, LF ∉ l) (file_lines fp).
Proof.
  intros ([Hg _] & _ & Hext & Hbody). unfold file_lines.
  constructor; [by apply lf_prefix; [vm_compute; set_solver|]|]. apply Forall_app. split.
  { eapply Forall_impl; [exact Hext|]. by intros l [[? _] _]. }
  destruct (fp_body fp) as [[[minus plus] hps]|]; [|done].
  destruct Hbody as ([Hm _] & [Hp _] & _ & _ & Hok).
  repeat (constructor; [by apply lf_prefix; [vm_compute; set_solver|]|]).
  induction Hok as [|hp hps Hhp _ IH]; [done|]. cbn [flat_map]. apply Forall_app.
  split; [by apply hunk_lines_no_lf|done].
Qed.

Lemma patch_lines_no_lf fps paths :
  Forall2 (file_ok nfc) fps paths → Forall (λ l, LF ∉ l) (flat_map file_lines fps).
Proof.
  induction 1 as [|fp p fps ps Hf _ IH]; [done|]. cbn [flat_map]. apply Forall_app.
  split; [by eapply file_lines_no_lf|done].
Qed.
End Reader.

(** *** Quoted names *)

Lemma in_range_spec lo hi c : in_range lo hi c = true ↔ (lo ≤ N_of_ascii c ≤ hi)%N.
Proof. unfold in_range. rewrite andb_true_iff, !N.leb_le. done. Qed.

Lemma continuations_spec k s n :
  continuations k s = (n, true) → n = k ∧ (k ≤ length s)%nat ∧ forallb is_continuation (take k s) = true.
Proof.
  revert s n. induction k as [|k IH]; intros [|c s] n; simpl; try (by intros [= <-]; split_and!; [|lia|]);
    [done|].
  destruct (in_range 128 191 c) eqn:E; [|done].
  destruct (continuations k s) as [m ok] eqn:E'. intros [= <- ->].
  destruct (IH s m E') as (-> & ? & Hf). split_and!; [done|lia|].
  apply in_range_spec in E. rewrite Hf, andb_true_r. unfold is_continuation.
  apply andb_true_iff. rewrite N.leb_le, N.ltb_lt. lia.
Qed.

(** A well-formed sequence is one character. *)
Lemma utf8_sequence_char s n :
  utf8_sequence s = (n, true) → utf8_char (take n s) = true ∧ (n ≤ length s)%nat ∧ (1 ≤ n)%nat.
Proof.
  destruct s as [|c s]; [done|]. cbn [utf8_sequence]. destruct (is_ascii c) eqn:Ha.
  { intros [= <-]. split_and!; [|simpl; lia..]. by apply utf8_char_ascii. }
  destruct (lead_shape c) as [[[lo hi] k]|] eqn:El; [|done].
  destruct s as [|d s]; [done|]. destruct (in_range lo hi d) eqn:Ed; [|done].
  destruct (continuations k s) as [m ok] eqn:Ek. intros [= <- ->].
  destruct (continuations_spec k s m Ek) as (-> & Hk & Hf).
  split_and!; [|cbn [length]; lia|lia]. cbn [take]. unfold utf8_char.
  apply in_range_spec in Ed. cbn [length forallb]. rewrite length_take_le, Hf, andb_true_r by lia.
  assert (char_width c = S (S k) ∧ is_continuation c = false ∧ (128 ≤ lo)%N ∧ (hi ≤ 191)%N)
    as (-> & -> & Hlo & Hhi).
  { unfold lead_shape, in_range in El. unfold char_width, is_continuation.
    destruct c as [[] [] [] [] [] [] [] []]; vm_compute in El; try discriminate El;
      injection El as <- <- <-; vm_compute; repeat split; discriminate. }
  rewrite Nat.eqb_refl. cbn [negb andb]. unfold is_continuation.
  apply andb_true_iff. rewrite N.leb_le, N.ltb_lt. lia.
Qed.

Lemma valid_chars f s :
  (length s ≤ f)%nat → valid_loop f s = true →
  forallb utf8_char (chars s) = true ∧ lossy_loop f s = s.
Proof.
  revert s. induction f as [|f IH]; intros [|c s] Hf; try done; [simpl in Hf; lia|].
  cbn [valid_loop lossy_loop]. destruct (utf8_sequence (c :: s)) as [n []] eqn:E; [|done].
  cbn [andb]. intros H. apply utf8_sequence_char in E as (Hc & Hle & Hn).
  destruct (IH (drop n (c :: s))) as [H1 H2]; [rewrite length_drop; simpl in *; lia|done|].
  rewrite H2, take_drop. split; [|done].
  rewrite <-(take_drop n (c :: s)), chars_char_app by done. simpl. by rewrite Hc.
Qed.

Lemma valid_is_utf8 s : valid_utf8 s = true → is_utf8 s = true.
Proof. intros H. by apply (valid_chars (length s)). Qed.

Lemma lossy_valid s : valid_utf8 s = true → from_utf8_lossy s = s.
Proof. intros H. by apply (valid_chars (length s)). Qed.

Lemma take_octal_length n cs : (length (take_octal n cs).2 ≤ length cs)%nat.
Proof.
  revert cs. induction n as [|n IH]; intros [|ch cs]; simpl; try lia.
  case_match; [|simpl; lia]. specialize (IH cs). destruct (take_octal n cs). simpl in *. lia.
Qed.

Lemma unescape_fuel f g cs :
  (length cs ≤ f)%nat → (length cs ≤ g)%nat → unescape_loop f cs = unescape_loop g cs.
Proof.
  revert g cs. induction f as [|f IH]; intros [|g] [|c rest] Hf Hg; try done; try (simpl in *; lia).
  cbn [unescape_loop length] in *.
  destruct (str_eqb c [BACKSLASH]); [|f_equal; apply IH; lia].
  destruct rest as [|d rest']; [f_equal; apply IH; simpl; lia|]. cbn [length] in *.
  repeat (case_match; [f_equal; apply IH; lia|]).
  case_match; [|f_equal; apply IH; simpl; lia].
  pose proof (take_octal_length 3 (d :: rest')) as Hl.
  destruct (take_octal 3 (d :: rest')) as [o r]. simpl in Hl.
  case_match; [f_equal|]; apply IH; lia.
Qed.

Definition unescape (cs : list str) : str := unescape_loop (length cs) cs.

Lemma unescape_plain ch cs : ch ≠ [BACKSLASH] → unescape (ch :: cs) = ch ++ unescape cs.
Proof.
  intros H. unfold unescape. cbn [length unescape_loop]. unfold str_eqb. by rewrite bool_decide_false.
Qed.

Lemma unescape_letter l c cs :
  (l, c) ∈ [(BACKSLASH, BACKSLASH); (DQUOTE, DQUOTE); ("n"%char, LF); ("t"%char, TAB); ("r"%char, CR)] →
  unescape ([BACKSLASH] :: [l] :: cs) = c :: unescape cs.
Proof.
  intros Hin. transitivity (c :: unescape_loop (S (length cs)) cs);
    [|unfold unescape; f_equal; apply unescape_fuel; lia].
  repeat (apply elem_of_cons in Hin as [[= -> ->]|Hin]; [reflexivity|]).
  by apply not_elem_of_nil in Hin.
Qed.

(** The three octal digits of a byte. *)
Lemma octal3_digits c :
  ∃ x y z, octal3 c = [BACKSLASH; x; y; z] ∧ octal_byte [x; y; z] = Some c ∧
    is_octal_digit [x] = true ∧ is_octal_digit [y] = true ∧ is_octal_digit [z] = true ∧
    forallb is_ascii (octal3 c) = true.
Proof.
  eexists _, _, _. split; [done|].
  destruct c as [[] [] [] [] [] [] [] []]; vm_compute; repeat split.
Qed.

Lemma octal_digit_plain x :
  is_octal_digit [x] = true →
  is_ascii_digit [x] = true ∧ ∀ y, ¬ in_range 48 55 y → str_eqb [x] [y] = false.
Proof.
  intros H. split.
  - apply in_range_spec in H. apply in_range_spec. lia.
  - intros y Hy. apply bool_decide_eq_false. intros [= Exy]. subst. apply Hy.
    by apply Is_true_true.
Qed.

Lemma unescape_octal c cs : unescape (map (λ b, [b]) (octal3 c) ++ cs) = c :: unescape cs.
Proof.
  destruct (octal3_digits c) as (x & y & z & -> & Hc & Hx & Hy & Hz & _).
  destruct (octal_digit_plain x Hx) as [Hd Hne].
  transitivity (c :: unescape_loop (S (S (S (length cs)))) cs);
    [|unfold unescape; f_equal; apply unescape_fuel; lia].
  cbn [map app]. unfold unescape. cbn [length]. generalize (S (S (S (length cs)))) as f. intros f.
  cbn [unescape_loop]. assert (str_eqb [BACKSLASH] [BACKSLASH] = true) as -> by done.
  change (lit "n") with ["n"%char]. change (lit "t") with ["t"%char]. change (lit "r") with ["r"%char].
  rewrite !Hne by (by vm_compute). rewrite Hd.
  assert (take_octal 3 ([x] :: [y] :: [z] :: cs) = ([x; y; z], cs)) as ->.
  { cbn -[is_octal_digit]. rewrite Hx. cbn -[is_octal_digit]. rewrite Hy.
    cbn -[is_octal_digit]. by rewrite Hz. }
  by rewrite Hc.
Qed.

Lemma unescape_octals s cs :
  unescape (map (λ b, [b]) (flat_map octal3 s) ++ cs) = s ++ unescape cs.
Proof.
  induction s as [|c s IH]; [done|]. cbn [flat_map app].
  by rewrite map_app, <-app_assoc, unescape_octal, IH.
Qed.

Lemma octals_ascii s : forallb is_ascii (flat_map octal3 s) = true.
Proof.
  induction s as [|c s IH]; [done|]. cbn [flat_map]. rewrite forallb_app, IH, andb_true_r.
  destruct (octal3_digits c) as (x & y & z & _ & _ & _ & _ & _ & Ha). exact Ha.
Qed.

Lemma utf8_single c : utf8_char [c] = true → is_ascii c = true.
Proof.
  unfold utf8_char, char_width, is_continuation, is_ascii. intros H. bool_hyps.
  destruct (N_of_ascii c <? 192)%N eqn:E; [|by repeat case_match].
  apply N.ltb_lt in E. apply N.ltb_lt.
  destruct (N.leb_spec 128 (N_of_ascii c)); [|done].
  assert ((N_of_ascii c <? 192)%N = true) by by apply N.ltb_lt. naive_solver.
Qed.

Lemma code_eq c n : (N_of_ascii c =? n)%N = true → c = ascii_of_N n.
Proof. intros H%N.eqb_eq. by rewrite <-H, ascii_N_embedding. Qed.

Lemma quote_byte_step c cs :
  is_ascii c = true → named_control c = false →
  is_ascii c = true ∧ forallb is_ascii (quote_byte c) = true ∧
  unescape (map (λ b, [b]) (quote_byte c) ++ cs) = c :: unescape cs.
Proof.
  unfold named_control, quote_byte. intros Ha Hn. bool_hyps.
  repeat match goal with
  | H : (N_of_ascii c =? _)%N = false |- _ => rewrite H; clear H
  end.
  repeat (case_match;
    [match goal with H : (N_of_ascii c =? _)%N = true |- _ => apply code_eq in H as -> end;
     split_and!; [done|done|apply unescape_letter; vm_compute; set_solver]|]).
  case_match.
  - split_and!; [done| |apply unescape_octal].
    destruct (octal3_digits c) as (? & ? & ? & _ & _ & _ & _ & _ & H'). exact H'.
  - split_and!; [done|simpl; by rewrite Ha|]. apply unescape_plain. intros [= ->]. done.
Qed.

(** One character: its quoted text is made of characters that read back to it. *)
Lemma quote_char_step qp ch cs :
  utf8_char ch = true → Forall (λ c, named_control c = false) ch →
  is_utf8 (quote_char qp ch) = true ∧
  unescape (chars (quote_char qp ch) ++ cs) = ch ++ unescape cs.
Proof.
  intros Hu Hn. destruct ch as [|c [|d rest]]; [done| |].
  - apply Forall_cons in Hn as [Hn _]. apply utf8_single in Hu.
    destruct (quote_byte_step c cs Hu Hn) as (_ & Ha & Hs). cbn [quote_char].
    rewrite chars_ascii by done. split; [by apply is_utf8_ascii|done].
  - cbn [quote_char]. destruct qp.
    + rewrite chars_ascii by apply octals_ascii.
      split; [apply is_utf8_ascii, octals_ascii|apply unescape_octals].
    + pose proof (chars_char_app _ [] Hu) as Hc. rewrite app_nil_r in Hc. rewrite Hc.
      split; [unfold is_utf8; rewrite Hc; simpl in *; by rewrite Hu|].
      by apply unescape_plain.
Qed.

Lemma quote_chars qp cs :
  forallb utf8_char cs = true → Forall (λ c, named_control c = false) (concat cs) →
  is_utf8 (flat_map (quote_char qp) cs) = true ∧
  unescape (chars (flat_map (quote_char qp) cs)) = concat cs.
Proof.
  induction cs as [|ch cs IH]; [done|]. cbn [forallb concat flat_map]. intros H Hn.
  bool_hyps. apply Forall_app in Hn as [Hn1 Hn2]. destruct (IH ltac:(done) Hn2) as [Hu He].
  destruct (quote_char_step qp ch (chars (flat_map (quote_char qp) cs))) as [Hu' He']; [done..|].
  split; [by apply is_utf8_app|]. by rewrite chars_app, He', He.
Qed.

Definition tab_text (tab : bool) : str := if tab then [TAB] else [].

Lemma trim_tab a tab : is_utf8 a = true → trim_end (a ++ tab_text tab) = trim_end a.
Proof. intros Ha. destruct tab; simpl; [by apply trim_end_whitespace|by rewrite app_nil_r]. Qed.

Lemma unescape_quoted {E} q :
  unescape_git_path (E := E) (DQUOTE :: q ++ [DQUOTE]) = Ret (from_utf8_lossy (unescape (chars q))).
Proof.
  unfold unescape_git_path.
  assert (starts_with [DQUOTE] (DQUOTE :: q ++ [DQUOTE]) = true) as -> by done.
  assert (ends_with [DQUOTE] (DQUOTE :: q ++ [DQUOTE]) = true) as ->.
  { unfold ends_with. by rewrite app_comm_cons, rev_app_distr. }
  cbn [andb]. cbn [length]. rewrite length_app. cbn [length].
  destruct (Nat.ltb_spec (S (length q + 1)) 2); [lia|].
  assert (slice 1 (S (length q + 1) - 1) (DQUOTE :: q ++ [DQUOTE]) = q) as ->; [|done].
  unfold slice. cbn [drop]. replace (S (length q + 1) - 1 - 1)%nat with (length q) by lia.
  apply take_app_length.
Qed.

(** A name without special characters has no quote. *)
Lemma unquoted_no_quote qp w :
  flat_map (quote_char qp) (chars w) = w → starts_with [DQUOTE] w = false.
Proof.
  destruct w as [|c w]; [done|]. intros Hq. unfold starts_with. cbn [strip_prefix].
  case_bool_decide as E; [|done]. subst c. exfalso.
  change (DQUOTE :: w) with ([DQUOTE] ++ w) in Hq at 1.
  rewrite chars_char_app in Hq by done. cbn [flat_map] in Hq.
  change (quote_char qp [DQUOTE]) with [BACKSLASH; DQUOTE] in Hq. by injection Hq.
Qed.

Lemma unescape_name {E} qp w tab :
  valid_utf8 w = true → Forall (λ c, named_control c = false) w →
  (git_name qp w = w → trim_end w = w) →
  unescape_git_path (E := E) (trim_end (git_name qp w ++ tab_text tab)) = Ret w.
Proof.
  intros Hv Hn Ht. pose proof (valid_is_utf8 w Hv) as Hu.
  destruct (quote_chars qp (chars w)) as [Hq He]; [done|by rewrite concat_chars|].
  unfold git_name in *. destruct (str_eqb _ w) eqn:Eq.
  - rewrite trim_tab, Ht by done. apply bool_decide_eq_true in Eq.
    unfold unescape_git_path. by rewrite (unquoted_no_quote qp w).
  - assert (is_utf8 (DQUOTE :: flat_map (quote_char qp) (chars w)) = true) as Hq'.
    { change (DQUOTE :: ?x) with ([DQUOTE] ++ x). by apply is_utf8_app. }
    rewrite trim_tab by (rewrite app_comm_cons; by apply is_utf8_app).
    rewrite app_comm_cons, trim_end_snoc by done. rewrite <-app_comm_cons.
    by rewrite unescape_quoted, He, concat_chars, lossy_valid.
Qed.

End PatchParseFacts.

(** ** Properties *)

Module PatchParseProps.
Import PatchParse PatchText PatchParseFacts.

(** a patch without context lines is read back: each hunk of each file
    gives one record with the file's path, the old path when it differs, the
    numbers of the lines it deletes and adds and their texts (less a final
    carriage return), in order; files without hunks give none. *)
Theorem patch_round_trip (nfc : str → str) fps paths :
  Forall2 (file_ok nfc) fps paths →
  parse_diff_hunks nfc (render_patch fps) = Ret (concat (zip_with file_hunks fps paths)).
Proof.
  intros H. unfold parse_diff_hunks, render_patch. rewrite lines_render by by eapply patch_lines_no_lf.
  destruct (read_files nfc initial_reader fps paths H) as (r & -> & Hc). cbn [obind].
  f_equal. exact Hc.
Qed.

(** the name git writes for a path, quoted or not and followed by a tab
    or not, is read back to the path without its prefix, up to normalization.
    Git quotes four control characters by letters the reader does not know. *)
Theorem git_name_round_trip (nfc : str → str) quote_path prefix p tab :
  prefix ∈ path_prefixes → valid_utf8 (prefix ++ p) = true →
  Forall (λ c, named_control c = false) p →
  (git_name quote_path (prefix ++ p) = prefix ++ p → trim_end (prefix ++ p) = prefix ++ p) →
  normalize_diff_path_token nfc (git_name quote_path (prefix ++ p) ++ tab_text tab) = Ret (nfc p).
Proof.
  intros Hin Hv Hn Ht. unfold normalize_diff_path_token.
  assert (Forall (λ c, named_control c = false) prefix ∧
    strip_first_prefix path_prefixes (prefix ++ p) = p) as [Hp Hs].
  { repeat (apply elem_of_cons in Hin as [->|Hin]; [by split; [repeat constructor|]|]).
    by apply not_elem_of_nil in Hin. }
  rewrite unescape_name by (done || by apply Forall_app). cbn [obind]. by rewrite Hs.
Qed.

(** *** Witnesses *)

Definition sample_patch : list FilePatch :=
  [mkFilePatch (lit "a/old name.txt b/new.txt") [lit "similarity index 90%"; lit "rename from old name.txt"]
     (Some (lit "a/old name.txt" ++ [TAB], lit "b/new.txt",
        [mkHunkPatch (HunkShift.mkHunk 2 1 2 2) (true, false) (lit " fn main") [lit "-- x"] false
           [lit "y"; lit "++ z"] true;
         mkHunkPatch (HunkShift.mkHunk 9 0 11 1) (false, true) [] [] false [lit "end"] false]));
   mkFilePatch (lit "a/bin b/bin") [lit "Binary files a/bin and b/bin differ"] None;
   mkFilePatch (lit "a/gone b/gone") [lit "deleted file mode 100644"]
     (Some (lit "a/gone", lit "/dev/null",
        [mkHunkPatch (HunkShift.mkHunk 1 1 0 0) (true, false) [] [lit "bye"] false [] false]))].
Definition sample_paths : list (option str * option str) :=
  [(Some (lit "old name.txt"), Some (lit "new.txt")); (None, None); (Some (lit "gone"), None)].

Ltac decide_lf := intros Hlf; vm_compute in Hlf;
  repeat (apply elem_of_cons in Hlf as [Hlf|Hlf]; [discriminate|]); by apply not_elem_of_nil in Hlf.

Lemma patch_round_trip_witness :
  parse_diff_hunks (λ s, s) (render_patch sample_patch) =
  Ret (concat (zip_with file_hunks sample_patch sample_paths)) ∧
  map (λ h, (hunk_file_path h, deleted_lines h, added_lines h))
    (concat (zip_with file_hunks sample_patch sample_paths)) =
  [(lit "new.txt", [2], [2; 3]); (lit "new.txt", [], [11]); (lit "gone", [1], [])].
Proof.
  split; [|reflexivity]. apply (patch_round_trip (λ s, s) sample_patch sample_paths).
  repeat constructor;
    try (eexists; reflexivity);
    try (unfold hunk_ok, is_u32, u32_max; simpl; lia);
    try (vm_compute; congruence);
    try decide_lf.
Defined.

Lemma git_name_round_trip_witness :
  normalize_diff_path_token (λ s, s)
    (git_name true (lit "b/" ++ map ascii_of_N [195; 169; 34]%N) ++ tab_text true) =
  Ret (map ascii_of_N [195; 169; 34]%N) ∧
  git_name true (lit "b/" ++ map ascii_of_N [195; 169; 34]%N) =
  DQUOTE :: lit "b/\303\251\" ++ [DQUOTE; DQUOTE].
Proof.
  split.
  - apply (git_name_round_trip (λ s, s) true (lit "b/") (map ascii_of_N [195; 169; 34]%N) true).
    + right; left.
    + reflexivity.
    + repeat constructor.
    + vm_compute. discriminate.
  - reflexivity.
Defined.

End PatchParseProps.
