(* ===== verification/Ignore.v ===== *)
(** * Ignore patterns

    Models src/src/authorship/ignore.rs: the matcher built from patterns, the
    readers of [.gitattributes] and [.git-ai-ignore] texts and the merged
    list of patterns.  Glob matching (the crate [glob]) is a parameter; the
    repository's files are the texts given. *)

From S2P Require Import Prelude Text.

Module Ignore.

Definition DEFAULT_IGNORE_PATTERNS : list str :=
  map lit ["*.lock"; "Cargo.lock"; "package-lock.json"; "yarn.lock"; "pnpm-lock.yaml"; "go.sum";
    "Gemfile.lock"; "poetry.lock"; "composer.lock"; "Pipfile.lock"; "shrinkwrap.yaml";
    "*.generated.*"; "*.min.js"; "*.min.css"; "*.map"; "**/vendor/**"; "**/node_modules/**";
    "**/__snapshots__/**"; "**/*.snap"; "**/*.snap.new"; "**/drizzle/meta/**";
    "*.pbobjc.h"; "*.pbobjc.m"; "*.pb.go"; "*.pb.h"; "*.pb.cc"; "*_pb2.py"; "*_pb2_grpc.py";
    "*.pb.swift"; "*.pb.dart"]%string.

(** [Path::file_name] on Unix: the last component, unless it is [..]; empty
    components and [.] are no components. *)
Definition file_name (path : str) : option str :=
  match last (List.filter (λ c, negb (str_eqb c [] || str_eqb c (lit "."))) (split_on "/" path)) with
  | Some c => if str_eqb c (lit "..") then None else Some c
  | None => None
  end.

Section Matcher.
(** The crate [glob]: compiled patterns, their parser and their test. *)
Context {Glob : Type} (glob_new : str → option Glob) (glob_matches : Glob → str → bool).

Inductive CompiledPattern :=
  | GlobPattern (g : Glob)
  | Exact (p : str).

Record IgnoreMatcher := mkMatcher { patterns : list CompiledPattern }.

Definition new_matcher (ps : list str) : IgnoreMatcher :=
  mkMatcher (map (λ pattern, match glob_new pattern with
                             | Some g => GlobPattern g
                             | None => Exact pattern
                             end) ps).

Definition is_ignored (m : IgnoreMatcher) (path : str) : bool :=
  let filename := default [] (file_name path) in
  existsb (λ pattern, match pattern with
                      | GlobPattern g => glob_matches g path || glob_matches g filename
                      | Exact p => str_eqb filename p || str_eqb path p
                      end) (patterns m).

Definition build_ignore_matcher (ps : list str) : IgnoreMatcher := new_matcher ps.
Definition should_ignore_file_with_matcher (path : str) (m : IgnoreMatcher) : bool := is_ignored m path.
Definition should_ignore_file (path : str) (ps : list str) : bool :=
  should_ignore_file_with_matcher path (build_ignore_matcher ps).
End Matcher.
Arguments IgnoreMatcher : clear implicits.
Arguments CompiledPattern : clear implicits.

(** The set of patterns seen so far is the list kept so far. *)
Definition dedupe_patterns (ps : list str) : list str :=
  foldl (λ deduped pattern, if bool_decide (pattern ∈ deduped) then deduped else deduped ++ [pattern])
    [] ps.

(** The loop over the characters of a line of [.gitattributes]. *)
Fixpoint tokens_loop (current : str) (escaped : bool) (cs : list str) : list str :=
  match cs with
  | [] =>
      let current := if escaped then current ++ lit "\" else current in
      if bool_decide (current = []) then [] else [current]
  | ch :: cs' =>
      if escaped then tokens_loop (current ++ ch) false cs'
      else if str_eqb ch (lit "\") then tokens_loop current true cs'
      else if is_whitespace ch then
        (if bool_decide (current = []) then [] else [current]) ++ tokens_loop [] false cs'
      else tokens_loop (current ++ ch) false cs'
  end.

Definition split_gitattributes_tokens (line : str) : list str := tokens_loop [] false (chars line).

(** [str::eq_ignore_ascii_case]. *)
Definition to_ascii_lowercase (c : ascii) : ascii :=
  let n := N_of_ascii c in if (65 <=? n)%N && (n <=? 90)%N then ascii_of_N (n + 32) else c.
Definition eq_ignore_ascii_case (a b : str) : bool :=
  str_eqb (map to_ascii_lowercase a) (map to_ascii_lowercase b).

(** The effect of one attribute on [state]. *)
Definition linguist_step (state : option bool) (attr : str) : option bool :=
  if str_eqb attr (lit "linguist-generated") then Some true
  else if str_eqb attr (lit "-linguist-generated") || str_eqb attr (lit "!linguist-generated")
  then Some false
  else
    match strip_prefix (lit "linguist-generated=") attr with
    | Some value =>
        if eq_ignore_ascii_case value (lit "true") || str_eqb value (lit "1") then Some true
        else if eq_ignore_ascii_case value (lit "false") || str_eqb value (lit "0") then Some false
        else state
    | None => state
    end.

(** The pattern a line of [.gitattributes] marks as generated. *)
Definition generated_pattern (raw_line : str) : option str :=
  let line := trim raw_line in
  if str_eqb line [] || starts_with (lit "#") line then None
  else
    match split_gitattributes_tokens line with
    | path_pattern :: ((_ :: _) as attrs) =>
        if starts_with (lit "[attr]") path_pattern then None
        else if bool_decide (foldl linguist_step None attrs = Some true)
        then Some path_pattern else None
    | _ => None
    end.

Definition parse_linguist_generated_patterns (contents : str) : list str :=
  dedupe_patterns (omap generated_pattern (lines contents)).

(** The loop of [load_git_ai_ignore_patterns] on the text of the file. *)
Definition ignore_line (raw_line : str) : option str :=
  let line := trim raw_line in
  if str_eqb line [] || starts_with (lit "#") line then None else Some line.

Definition load_git_ai_ignore_patterns (contents : option str) : list str :=
  match contents with
  | None => []
  | Some contents => dedupe_patterns (omap ignore_line (lines contents))
  end.

Definition load_linguist_generated_patterns (contents : option str) : list str :=
  match contents with
  | None => []
  | Some contents => parse_linguist_generated_patterns contents
  end.

(** The texts of [.gitattributes] and [.git-ai-ignore] in the repository. *)
Definition effective_ignore_patterns (gitattributes git_ai_ignore : option str)
    (user_patterns extra_patterns : list str) : list str :=
  dedupe_patterns (DEFAULT_IGNORE_PATTERNS ++ load_linguist_generated_patterns gitattributes ++
    load_git_ai_ignore_patterns git_ai_ignore ++ extra_patterns ++ user_patterns).

End Ignore.

(** ** Lemmas *)

Module IgnoreFacts.
Import Ignore.

Lemma dedupe_loop (acc ps : list str) :
  NoDup acc →
  let r := foldl (λ d p, if bool_decide (p ∈ d) then d else d ++ [p]) acc ps in
  NoDup r ∧ ∀ p, p ∈ r ↔ p ∈ acc ∨ p ∈ ps.
Proof.
  revert acc. induction ps as [|x ps IH]; intros acc Hn; simpl; [set_solver|].
  case_bool_decide as Hx.
  - destruct (IH acc Hn) as [H1 H2]. split; [done|]. intros p. rewrite H2. set_solver.
  - destruct (IH (acc ++ [x])) as [H1 H2].
    { apply NoDup_app. split_and!; [done|set_solver|apply NoDup_singleton]. }
    split; [done|]. intros p. rewrite H2. set_solver.
Qed.

Lemma dedupe_patterns_NoDup ps : NoDup (dedupe_patterns ps).
Proof. apply dedupe_loop. constructor. Qed.

Lemma elem_of_dedupe_patterns p ps : p ∈ dedupe_patterns ps ↔ p ∈ ps.
Proof.
  destruct (dedupe_loop [] ps) as [_ H]; [constructor|]. unfold dedupe_patterns.
  rewrite H. set_solver.
Qed.

Section MatcherFacts.
Context {Glob : Type} (glob_new : str → option Glob) (glob_matches : Glob → str → bool).

(** One pattern on one path. *)
Definition pattern_ignores (pattern path : str) : Prop :=
  let filename := default [] (file_name path) in
  match glob_new pattern with
  | Some g => glob_matches g path = true ∨ glob_matches g filename = true
  | None => filename = pattern ∨ path = pattern
  end.

Lemma should_ignore_spec path ps :
  should_ignore_file glob_new glob_matches path ps = true ↔ ∃ p, p ∈ ps ∧ pattern_ignores p path.
Proof.
  unfold should_ignore_file, should_ignore_file_with_matcher, is_ignored, build_ignore_matcher.
  unfold new_matcher, pattern_ignores. simpl. rewrite existsb_exists. split.
  - intros (c & Hin & Hc). apply in_map_iff in Hin as (p & <- & Hp). exists p.
    split; [by apply list_elem_of_In|]. destruct (glob_new p); simpl in Hc;
      by apply orb_true_iff in Hc; rewrite ?str_eqb_eq in Hc.
  - intros (p & Hin & Hp). eexists. split; [apply in_map, list_elem_of_In, Hin|].
    simpl. destruct (glob_new p); simpl; apply orb_true_iff; by rewrite ?str_eqb_eq.
Qed.

(** Deduplication does not change what is ignored. *)
Lemma should_ignore_dedupe path ps :
  should_ignore_file glob_new glob_matches path (dedupe_patterns ps) =
  should_ignore_file glob_new glob_matches path ps.
Proof.
  apply eq_bool_prop_intro. rewrite !Is_true_true, !should_ignore_spec.
  by setoid_rewrite elem_of_dedupe_patterns.
Qed.

Lemma should_ignore_app path a b :
  should_ignore_file glob_new glob_matches path (a ++ b) =
  should_ignore_file glob_new glob_matches path a || should_ignore_file glob_new glob_matches path b.
Proof.
  apply eq_bool_prop_intro. rewrite orb_True, !Is_true_true, !should_ignore_spec.
  setoid_rewrite elem_of_app. naive_solver.
Qed.
End MatcherFacts.

End IgnoreFacts.
