(* ===== verification/Stats.v ===== *)
(** * Commit statistics

    Models the counting of src/src/authorship/stats.rs: the added lines a
    note attests ([accepted_lines_from_attestations]), the totals of a commit
    ([stats_for_commit_stats_from_hunks_with_merge_flag]) and the record
    built from them.  The reference is the set of added lines and, for a
    class of keys, the lines an entry with such a key covers.  The terminal
    and Markdown reports (floating-point percentages) are not modelled. *)

From S2P Require Import Prelude Text LineRange AuthorshipLog PatchParse Ignore.

Local Open Scope Z_scope.

Module Stats.
Import LineRange AuthorshipLog PatchParse Ignore.

Record ToolModelHeadlineStats := mkToolStats { tool_ai_additions : Z; tool_ai_accepted : Z }.

Record CommitStats := mkCommitStats {
  human_additions : Z;
  unknown_additions : Z;
  ai_additions : Z;
  ai_accepted : Z;
  git_diff_deleted_lines : Z;
  git_diff_added_lines : Z;
  tool_model_breakdown : gmap str ToolModelHeadlineStats
}.

(** [slice::binary_search(x).is_ok()] on a sorted slice. *)
Definition binary_search_is_ok (l : list Z) (x : Z) : bool :=
  match l !! partition_point (λ y, y <? x) l with
  | Some y => y =? x
  | None => false
  end.

Definition line_range_overlap_len (range : LineRange) (added : list Z) : Z :=
  match range with
  | Single line => if binary_search_is_ok added line then 1 else 0
  | Range s e =>
      let start_idx := partition_point (λ line, line <? s) added in
      let end_idx := partition_point (λ line, line <=? e) added in
      u32_wrap (Z.of_nat (end_idx - start_idx)%nat)
  end.

(** [.sum::<u32>()]. *)
Definition u32_sum (l : list Z) : Z := foldl u32_add 0 l.

Definition entry_accepted (e : AttestationEntry) (added : list Z) : Z :=
  u32_sum (map (λ r, line_range_overlap_len r added) (line_ranges e)).

(** [*per_tool_model.entry(tool_model).or_insert(0) += accepted]. *)
Definition bump (per_tool_model : gmap str Z) (tool_model : str) (accepted : Z) : gmap str Z :=
  <[tool_model := u32_add (default 0 (per_tool_model !! tool_model)) accepted]> per_tool_model.

Definition tool_model (a : AgentId) : str := tool a ++ lit "::" ++ model a.

(** The totals: AI lines, known human lines, AI lines per tool and model. *)
Definition Totals : Type := Z * Z * gmap str Z.

Definition count_entry (md : AuthorshipMetadata) (added : list Z) (t : Totals) (e : AttestationEntry) : Totals :=
  let '(ai, human, per_tool) := t in
  let accepted := entry_accepted e added in
  if starts_with (lit "h_") (hash e) then
    (ai, if 0 <? accepted then u32_add human accepted else human, per_tool)
  else if accepted =? 0 then t
  else
    let ai := u32_add ai accepted in
    if starts_with (lit "s_") (hash e) then
      match sessions md !! first_piece (lit "::") (hash e) with
      | Some session_record =>
          (ai, human, bump per_tool (tool_model (agent_id_for_author session_record (hash e))) accepted)
      | None => (ai, human, per_tool)
      end
    else
      match prompts md !! hash e with
      | Some prompt_record => (ai, human, bump per_tool (tool_model (prompt_agent_id prompt_record)) accepted)
      | None => (ai, human, per_tool)
      end.

Definition count_file (md : AuthorshipMetadata) (added_lines_by_file : gmap str (list Z))
    (t : Totals) (f : FileAttestation) : Totals :=
  match added_lines_by_file !! file_path f with
  | None => t
  | Some added => foldl (count_entry md added) t (entries f)
  end.

Definition accepted_lines_from_attestations (authorship_log : option AuthorshipLog)
    (added_lines_by_file : gmap str (list Z)) (is_merge_commit : bool) : Totals :=
  if is_merge_commit then (0, 0, ∅)
  else
    match authorship_log with
    | None => (0, 0, ∅)
    | Some log => foldl (count_file (metadata log) added_lines_by_file) (0, 0, ∅) (attestations log)
    end.

Definition stats_from_authorship_log (added deleted accepted known_human_accepted : Z)
    (ai_accepted_by_tool : gmap str Z) : CommitStats :=
  let breakdown := (λ a, mkToolStats 0 a) <$> ai_accepted_by_tool in
  let breakdown := (λ t, mkToolStats (tool_ai_accepted t) (tool_ai_accepted t)) <$> breakdown in
  mkCommitStats known_human_accepted
    (u32_saturating_sub (u32_saturating_sub added accepted) known_human_accepted)
    accepted accepted deleted added breakdown.

(** The loop over the hunks: added and deleted lines, added lines by file. *)
Definition count_hunk (ignored : str → bool) (is_merge_commit : bool)
    (t : Z * Z * gmap str (list Z)) (hunk : DiffHunk) : Z * Z * gmap str (list Z) :=
  let '(added, deleted, by_file) := t in
  if ignored (hunk_file_path hunk) then t
  else
    (u32_add added (u32_wrap (Z.of_nat (length (added_lines hunk)))),
     u32_add deleted (u32_wrap (Z.of_nat (length (deleted_lines hunk)))),
     if negb is_merge_commit && negb (bool_decide (added_lines hunk = [])) then
       <[hunk_file_path hunk :=
           default [] (by_file !! hunk_file_path hunk) ++ added_lines hunk]> by_file
     else by_file).

Section Stats.
Context {Glob : Type} (glob_new : str → option Glob) (glob_matches : Glob → str → bool).

Definition stats_for_commit_stats_from_hunks_with_merge_flag (ignore_patterns : list str)
    (hunks : list DiffHunk) (authorship_log : option AuthorshipLog) (is_merge_commit : bool) : CommitStats :=
  let ignore_matcher := build_ignore_matcher glob_new ignore_patterns in
  let '(added, deleted, by_file) :=
    foldl (count_hunk (λ path, should_ignore_file_with_matcher glob_matches path ignore_matcher)
             is_merge_commit) (0, 0, ∅) hunks in
  let by_file := (λ ls, dedup Z.eqb (sort_by Z.leb ls)) <$> by_file in
  let '(ai, human, by_tool) := accepted_lines_from_attestations authorship_log by_file is_merge_commit in
  stats_from_authorship_log added deleted ai human by_tool.

(** The counting of [get_git_diff_stats], for a commit with at most one
    parent and the hunks of its diff. *)
Definition get_git_diff_stats (parent_count : nat) (hunks : list DiffHunk) (ignore_patterns : list str) : Z * Z :=
  if (1 <? parent_count)%nat then (0, 0)
  else
    let ignore_matcher := build_ignore_matcher glob_new ignore_patterns in
    foldl (λ '(added, deleted) hunk,
      if should_ignore_file_with_matcher glob_matches (hunk_file_path hunk) ignore_matcher
      then (added, deleted)
      else (u32_add added (u32_wrap (Z.of_nat (length (added_lines hunk)))),
            u32_add deleted (u32_wrap (Z.of_nat (length (deleted_lines hunk)))))) (0, 0) hunks.
End Stats.

(** ** Reference: sets of lines *)

(** The lines a diff adds to files that are not ignored. *)
Definition added_list (ignored : str → bool) (hunks : list DiffHunk) : list (str * Z) :=
  flat_map (λ h, if ignored (hunk_file_path h) then [] else map (pair (hunk_file_path h)) (added_lines h)) hunks.
Definition added_set (ignored : str → bool) (hunks : list DiffHunk) : gset (str * Z) :=
  list_to_set (added_list ignored hunks).

(** The lines attested under a key of a class. *)
Definition attests (P : str → bool) (log : AuthorshipLog) (fl : str * Z) : bool :=
  existsb (λ f, str_eqb (file_path f) fl.1 &&
    existsb (λ e, P (hash e) && contains_any (line_ranges e) fl.2) (entries f)) (attestations log).

Definition is_human_key (h : str) : bool := starts_with (lit "h_") h.
Definition is_ai_key (h : str) : bool := negb (is_human_key h).

(** The tool and model of an AI key, when the metadata knows it. *)
Definition key_tool (md : AuthorshipMetadata) (h : str) : option str :=
  if is_human_key h then None
  else if starts_with (lit "s_") h then
    (λ s, tool_model (agent_id_for_author s h)) <$> sessions md !! first_piece (lit "::") h
  else (λ p, tool_model (prompt_agent_id p)) <$> prompts md !! h.

Definition of_tool (md : AuthorshipMetadata) (tm h : str) : bool := bool_decide (key_tool md h = Some tm).

(** Each file is attested once and each of its lines by one range at most. *)
Definition file_lines_once (f : FileAttestation) : Prop :=
  NoDup (flat_map (λ e, flat_map expand (line_ranges e)) (entries f)).
Definition lines_once (log : AuthorshipLog) : Prop :=
  NoDup (map file_path (attestations log)) ∧ Forall file_lines_once (attestations log).

End Stats.

(** ** Lemmas *)

Module StatsFacts.
Import LineRange LineRangeFacts AuthorshipLog PatchParse Ignore Stats.

(** *** Counting in a sorted list *)

Definition count {A} (p : A → bool) (l : list A) : nat := length (List.filter p l).

Lemma partition_point_count p l :
  (∀ x y, x < y → p y = true → p x = true) → StronglySorted Z.lt l → partition_point p l = count p l.
Proof.
  intros Hp Hs. unfold count. induction Hs as [|x l _ IH Hx]; [done|]. simpl.
  destruct (p x) eqn:E; simpl; [by rewrite IH|]. rewrite filter_none; [done|].
  intros y Hy. rewrite Forall_forall in Hx. apply not_true_is_false. intros Hpy.
  by rewrite (Hp x y (Hx y Hy) Hpy) in E.
Qed.

Lemma count_none {A} (p : A → bool) l : (∀ x, x ∈ l → p x = false) → count p l = 0%nat.
Proof. intros H. unfold count. by rewrite filter_none. Qed.

Lemma count_disjoint {A} (p q : A → bool) l :
  (∀ x, x ∈ l → p x = true → q x = false) →
  count (λ x, p x || q x) l = (count p l + count q l)%nat.
Proof.
  unfold count. induction l as [|x l IH]; intros H; [done|]. simpl.
  assert (∀ y, y ∈ l → p y = true → q y = false) as Hl by (intros; apply H; [by right|done]).
  specialize (H x ltac:(left)). destruct (p x); simpl.
  - rewrite H by done. simpl. by rewrite IH.
  - destruct (q x); simpl; rewrite IH by done; lia.
Qed.

Lemma count_le {A} (p q : A → bool) l : (∀ x, p x = true → q x = true) → (count p l ≤ count q l)%nat.
Proof.
  unfold count. intros H. induction l as [|x l IH]; [done|]. simpl.
  destruct (p x) eqn:E; [rewrite (H x E)|destruct (q x)]; simpl; lia.
Qed.

Lemma count_between (s e : Z) l :
  Nat.sub (count (λ x, x <=? e) l) (count (λ x, x <? s) l) = count (contains (Range s e)) l.
Proof.
  destruct (Z.le_gt_cases s (e + 1)) as [Hse|Hse].
  - enough (count (λ x, x <=? e) l = Nat.add (count (λ x, x <? s) l) (count (contains (Range s e)) l)) by lia.
    rewrite <-count_disjoint by (simpl; intros; bool_lia).
    unfold count. f_equal. apply List.filter_ext. intros x. simpl. bool_lia.
  - rewrite (count_none (contains (Range s e))) by (simpl; intros; bool_lia).
    enough (Nat.le (count (λ x, x <=? e) l) (count (λ x, x <? s) l)) by lia.
    apply count_le. intros x Hx. bool_lia.
Qed.

Lemma binary_search_count l x :
  StronglySorted Z.lt l →
  (if binary_search_is_ok l x then 1 else 0) = Z.of_nat (count (contains (Single x)) l).
Proof.
  unfold binary_search_is_ok. induction 1 as [|y l _ IH Hy]; [done|]. simpl.
  unfold count. simpl. destruct (Z.ltb_spec y x) as [Hlt|Hge]; simpl.
  - destruct (Z.eqb_spec x y); [lia|]. apply IH.
  - rewrite filter_none.
    2: { intros z Hz. rewrite Forall_forall in Hy. specialize (Hy z Hz). simpl. bool_lia. }
    destruct (Z.eqb_spec y x), (Z.eqb_spec x y); simpl; lia.
Qed.

Lemma overlap_len_count r l :
  StronglySorted Z.lt l →
  line_range_overlap_len r l = u32_wrap (Z.of_nat (count (contains r) l)).
Proof.
  intros Hs. destruct r as [x|s e]; simpl.
  - rewrite <-binary_search_count by done. by destruct (binary_search_is_ok l x).
  - rewrite !partition_point_count by (done || (intros; bool_lia)). by rewrite count_between.
Qed.

(** *** Wrapped sums *)

Lemma u32_add_wrap a b : u32_add (u32_wrap a) (u32_wrap b) = u32_wrap (a + b).
Proof. unfold u32_add, u32_wrap. by rewrite <-Zplus_mod. Qed.

Definition ranges_count (rs : list LineRange) (added : list Z) : nat :=
  list_sum (map (λ r, count (contains r) added) rs).

Lemma u32_sum_counts (ns : list nat) :
  u32_sum (map (λ n, u32_wrap (Z.of_nat n)) ns) = u32_wrap (Z.of_nat (list_sum ns)).
Proof.
  unfold u32_sum. change 0 with (u32_wrap (Z.of_nat 0)) at 1.
  rewrite <-(Nat.add_0_l (list_sum ns)). generalize 0%nat as acc.
  induction ns as [|n ns IH]; intros acc; cbn [map foldl list_sum foldr].
  { by rewrite Nat.add_0_r. }
  rewrite u32_add_wrap, <-Nat2Z.inj_add, IH. do 2 f_equal. change (foldr Nat.add 0%nat ns) with (list_sum ns). lia.
Qed.

Lemma entry_accepted_count e added :
  StronglySorted Z.lt added →
  entry_accepted e added = u32_wrap (Z.of_nat (ranges_count (line_ranges e) added)).
Proof.
  intros Hs. unfold entry_accepted, ranges_count. rewrite <-u32_sum_counts, map_map.
  f_equal. apply map_ext. intros r. by apply overlap_len_count.
Qed.

(** *** The totals *)

(** [t] holds the wrapped counts [n] of the classes it tracks. *)
Definition tallied (md : AuthorshipMetadata) (t : Totals) (n : (str → bool) → nat) : Prop :=
  t.1.1 = u32_wrap (Z.of_nat (n is_ai_key)) ∧ t.1.2 = u32_wrap (Z.of_nat (n is_human_key)) ∧
  ∀ tm, default 0 (t.2 !! tm) = u32_wrap (Z.of_nat (n (of_tool md tm))).

Definition add_if (b : bool) (k : nat) : nat := if b then k else 0%nat.

Lemma u32_add_count a k : u32_add (u32_wrap (Z.of_nat a)) (u32_wrap (Z.of_nat k)) = u32_wrap (Z.of_nat (a + k)).
Proof. by rewrite u32_add_wrap, Nat2Z.inj_add. Qed.

Lemma u32_wrap_zero_count a k :
  u32_wrap (Z.of_nat k) = 0 → u32_wrap (Z.of_nat (a + k)) = u32_wrap (Z.of_nat a).
Proof.
  intros H. rewrite <-u32_add_count, H. change 0 with (u32_wrap (Z.of_nat 0)) at 1.
  by rewrite u32_add_count, Nat.add_0_r.
Qed.

Lemma bump_count md per n tm0 k :
  (∀ tm, default 0 (per !! tm) = u32_wrap (Z.of_nat (n (of_tool md tm)))) →
  ∀ tm, default 0 (bump per tm0 (u32_wrap (Z.of_nat k)) !! tm) =
    u32_wrap (Z.of_nat (n (of_tool md tm) + add_if (bool_decide (Some tm0 = Some tm)) k)).
Proof.
  intros H tm. unfold bump, add_if. destruct (decide (tm0 = tm)) as [->|Hne].
  - rewrite lookup_insert_eq, H, bool_decide_true by done. apply u32_add_count.
  - rewrite lookup_insert_ne, bool_decide_false by congruence. rewrite H. do 2 f_equal. lia.
Qed.

Lemma count_entry_tallied md added t n e :
  StronglySorted Z.lt added → tallied md t n →
  tallied md (count_entry md added t e)
    (λ P, n P + add_if (P (hash e)) (ranges_count (line_ranges e) added))%nat.
Proof.
  intros Hs. destruct t as [[ai human] per]. intros (Ha & Hh & Hp). cbn [fst snd] in *.
  unfold count_entry. rewrite (entry_accepted_count e added Hs).
  set (k := ranges_count (line_ranges e) added).
  assert (∀ b a, u32_wrap (Z.of_nat k) = 0 →
    u32_wrap (Z.of_nat (a + add_if b k)) = u32_wrap (Z.of_nat a)) as Hzero.
  { intros [] a Hk; [by apply u32_wrap_zero_count|]. by rewrite Nat.add_0_r. }
  unfold tallied, is_ai_key, of_tool, key_tool, is_human_key.
  destruct (starts_with (lit "h_") (hash e)) eqn:Eh; cbn [negb add_if fst snd].
  { rewrite Nat.add_0_r. split_and!; [done| |intros tm; by rewrite Nat.add_0_r, Hp].
    destruct (Z.ltb_spec 0 (u32_wrap (Z.of_nat k))); [rewrite Hh; apply u32_add_count|].
    rewrite u32_wrap_zero_count; [done|]. unfold u32_wrap in *.
    pose proof (Z.mod_pos_bound (Z.of_nat k) 4294967296). lia. }
  destruct (Z.eqb_spec (u32_wrap (Z.of_nat k)) 0) as [Hk|_].
  { cbn [fst snd]. rewrite u32_wrap_zero_count, Nat.add_0_r by done.
    split_and!; [done..|]. intros tm. by rewrite Hzero. }
  rewrite Ha, u32_add_count. rewrite Nat.add_0_r.
  destruct (starts_with (lit "s_") (hash e)); case_match; cbn [fst snd fmap option_fmap option_map];
    split_and!; try done; intros tm;
    try (rewrite (bump_count md per n) by done; done);
    by rewrite Hp, bool_decide_false, Nat.add_0_r.
Qed.

(** The ranges of the entries of a class. *)
Definition class_ranges (P : str → bool) (es : list AttestationEntry) : list LineRange :=
  flat_map line_ranges (List.filter (λ e, P (hash e)) es).

Lemma ranges_count_app a b l : ranges_count (a ++ b) l = (ranges_count a l + ranges_count b l)%nat.
Proof. unfold ranges_count. by rewrite map_app, list_sum_app. Qed.

Lemma count_entries_tallied md added es t n :
  StronglySorted Z.lt added → tallied md t n →
  tallied md (foldl (count_entry md added) t es)
    (λ P, n P + ranges_count (class_ranges P es) added)%nat.
Proof.
  intros Hs. revert t n. induction es as [|e es IH]; intros t n Ht; cbn [foldl].
  - unfold tallied in *. cbn. by setoid_rewrite Nat.add_0_r.
  - pose proof (IH _ _ (count_entry_tallied md added t n e Hs Ht)) as H.
    unfold tallied in *. cbv beta in H.
    assert (∀ P, n P + add_if (P (hash e)) (ranges_count (line_ranges e) added) +
      ranges_count (class_ranges P es) added = n P + ranges_count (class_ranges P (e :: es)) added)%nat as Heq.
    { intros P. unfold class_ranges. cbn [List.filter]. destruct (P (hash e)); cbn [flat_map add_if];
        rewrite ?ranges_count_app; lia. }
    by setoid_rewrite Heq in H.
Qed.

Definition file_added (m : gmap str (list Z)) (f : FileAttestation) : list Z :=
  default [] (m !! file_path f).

Definition class_count (m : gmap str (list Z)) (P : str → bool) (fs : list FileAttestation) : nat :=
  list_sum (map (λ f, ranges_count (class_ranges P (entries f)) (file_added m f)) fs).

Lemma ranges_count_nil rs : ranges_count rs [] = 0%nat.
Proof. unfold ranges_count. by induction rs. Qed.

Lemma count_files_tallied md m fs t n :
  map_Forall (λ _, StronglySorted Z.lt) m → tallied md t n →
  tallied md (foldl (count_file md m) t fs) (λ P, n P + class_count m P fs)%nat.
Proof.
  intros Hm. revert t n. induction fs as [|f fs IH]; intros t n Ht; cbn [foldl].
  - unfold tallied in *. cbn. by setoid_rewrite Nat.add_0_r.
  - assert (tallied md (count_file md m t f)
      (λ P, n P + ranges_count (class_ranges P (entries f)) (file_added m f))%nat) as H1.
    { unfold count_file, file_added. destruct (m !! file_path f) as [added|] eqn:E.
      - apply count_entries_tallied; [|done]. by apply (Hm (file_path f)).
      - unfold tallied in *. simpl. setoid_rewrite ranges_count_nil. by setoid_rewrite Nat.add_0_r. }
    pose proof (IH _ _ H1) as H. unfold tallied in *. cbv beta in H.
    assert (∀ P, n P + ranges_count (class_ranges P (entries f)) (file_added m f) + class_count m P fs =
      n P + class_count m P (f :: fs))%nat as Heq.
    { intros P. unfold class_count. simpl. lia. }
    by setoid_rewrite Heq in H.
Qed.

(** *** Lines attested once *)

Lemma class_expand_submseteq P es :
  sublist (flat_map expand (class_ranges P es)) (flat_map (λ e, flat_map expand (line_ranges e)) es).
Proof.
  induction es as [|e es IH]; [constructor|]. unfold class_ranges in *. cbn [List.filter].
  destruct (P (hash e)); cbn [flat_map].
  - rewrite flat_map_app. by apply sublist_app.
  - by apply sublist_inserts_l.
Qed.

Lemma ranges_count_once rs l :
  NoDup (flat_map expand rs) → ranges_count rs l = count (contains_any rs) l.
Proof.
  unfold ranges_count. induction rs as [|r rs IH]; intros Hn.
  { symmetry. by apply count_none. }
  cbn [flat_map map list_sum foldr] in *. apply NoDup_app in Hn as (_ & Hd & Hn).
  change (foldr Nat.add 0%nat ?x) with (list_sum x). rewrite IH by done.
  rewrite <-count_disjoint; [done|]. intros x _ Hx. apply not_true_is_false. intros Hx'.
  apply (Hd x); [by apply elem_of_expand|by apply elem_of_flat_expand].
Qed.

Lemma class_ranges_cover P es l :
  contains_any (class_ranges P es) l = existsb (λ e, P (hash e) && contains_any (line_ranges e) l) es.
Proof.
  induction es as [|e es IH]; [done|]. unfold class_ranges in *. cbn [List.filter existsb].
  destruct (P (hash e)); cbn [flat_map andb orb]; rewrite ?contains_any_app, IH; done.
Qed.

(** The attested lines of the files of a note, as a list. *)
Definition attested_list (m : gmap str (list Z)) (P : str → bool) (fs : list FileAttestation) : list (str * Z) :=
  flat_map (λ f, map (pair (file_path f))
    (List.filter (contains_any (class_ranges P (entries f))) (file_added m f))) fs.

Lemma length_attested m P fs :
  Forall file_lines_once fs → length (attested_list m P fs) = class_count m P fs.
Proof.
  unfold class_count, attested_list. induction 1 as [|f fs Hf _ IH]; [done|].
  cbn [flat_map map list_sum foldr]. change (foldr Nat.add 0%nat ?x) with (list_sum x).
  rewrite length_app, length_map, IH, ranges_count_once; [done|].
  eapply sublist_NoDup; [exact Hf|apply class_expand_submseteq].
Qed.

Lemma sorted_NoDup l : StronglySorted Z.lt l → NoDup l.
Proof.
  induction 1 as [|x l _ IH Hx]; constructor; [|done]. intros Hin.
  rewrite Forall_forall in Hx. specialize (Hx x Hin). lia.
Qed.

Lemma attested_NoDup m P fs :
  map_Forall (λ _, StronglySorted Z.lt) m → NoDup (map file_path fs) → NoDup (attested_list m P fs).
Proof.
  intros Hm. induction fs as [|f fs IH]; intros Hn; [constructor|]. cbn [map] in Hn.
  apply NoDup_cons in Hn as [Hf Hn]. unfold attested_list. cbn [flat_map]. apply NoDup_app. split_and!.
  - apply NoDup_fmap_2; [congruence|]. apply sorted_NoDup, StronglySorted_filter.
    unfold file_added. destruct (m !! file_path f) eqn:E; [by apply (Hm (file_path f))|constructor].
  - intros x Hx Hx'. apply list_elem_of_In, in_map_iff in Hx as (l & <- & _).
    apply list_elem_of_In, in_flat_map in Hx' as (g & Hg & Hx').
    apply in_map_iff in Hx' as (l' & [= He _] & _). apply Hf. rewrite <-He.
    apply list_elem_of_In. by apply in_map.
  - by apply IH.
Qed.

Lemma elem_of_attested m P log x :
  x ∈ attested_list m P (attestations log) ↔
  attests P log x = true ∧ x.2 ∈ default [] (m !! x.1).
Proof.
  unfold attested_list, attests. rewrite list_elem_of_In, in_flat_map, existsb_exists. split.
  - intros (f & Hf & Hx). apply in_map_iff in Hx as (l & <- & Hl). apply filter_In in Hl as [Hl Hc].
    split; [|by apply list_elem_of_In]. exists f. split; [done|]. apply andb_true_iff.
    split; [by apply str_eqb_eq|]. by rewrite <-class_ranges_cover.
  - intros [(f & Hf & Hc) Hl]. destruct x as [p l]. simpl in *. apply andb_true_iff in Hc as [Hp Hc].
    apply str_eqb_eq in Hp as <-. exists f. split; [done|]. apply in_map, filter_In.
    rewrite class_ranges_cover. split; [by apply list_elem_of_In|done].
Qed.

(** *** The lines of a diff *)

Lemma count_hunks ignored hunks :
  let '(added, deleted, by_file) := foldl (count_hunk ignored false) (0, 0, ∅) hunks in
  added = u32_wrap (Z.of_nat (length (added_list ignored hunks))) ∧
  ∀ f l, l ∈ default [] (by_file !! f) ↔ (f, l) ∈ added_list ignored hunks.
Proof.
  induction hunks as [|h hunks IH] using rev_ind; [split; [done|]; simpl; set_solver|].
  rewrite foldl_snoc. destruct (foldl _ _ hunks) as [[added deleted] by_file].
  destruct IH as [Ha Hb]. unfold count_hunk, added_list in *.
  rewrite flat_map_app. cbn [flat_map]. rewrite app_nil_r.
  destruct (ignored (hunk_file_path h)); [by rewrite app_nil_r|].
  split; [rewrite Ha, u32_add_wrap, length_app, length_map; do 2 f_equal; lia|].
  intros f l. rewrite elem_of_app, <-Hb. clear Ha Hb.
  assert (((f, l) ∈ map (pair (hunk_file_path h)) (added_lines h)) ↔
    f = hunk_file_path h ∧ l ∈ added_lines h) as ->.
  { rewrite list_elem_of_In, in_map_iff, list_elem_of_In. naive_solver. }
  cbn [negb andb]. case_bool_decide as E; cbn [negb]; [rewrite E; set_solver|].
  destruct (decide (f = hunk_file_path h)) as [->|Hne].
  - rewrite lookup_insert_eq. set_solver.
  - rewrite lookup_insert_ne by done. naive_solver.
Qed.

Lemma sorted_by_file (by_file : gmap str (list Z)) :
  let m := (λ ls, dedup Z.eqb (sort_by Z.leb ls)) <$> by_file in
  map_Forall (λ _, StronglySorted Z.lt) m ∧
  ∀ f l, l ∈ default [] (m !! f) ↔ l ∈ default [] (by_file !! f).
Proof.
  split.
  - intros f l. rewrite lookup_fmap. destruct (by_file !! f); simpl; [|done]. intros [= <-].
    apply sort_dedup_lt.
  - intros f l. rewrite lookup_fmap. destruct (by_file !! f); simpl; [|done].
    apply elem_of_sort_dedup.
Qed.

(** The attested lines of a diff: as many as the reader counts. *)
Lemma attested_size ignored hunks m P log :
  map_Forall (λ _, StronglySorted Z.lt) m →
  (∀ f l, l ∈ default [] (m !! f) ↔ (f, l) ∈ added_list ignored hunks) →
  lines_once log →
  size (filter (λ fl, attests P log fl = true) (added_set ignored hunks)) =
  class_count m P (attestations log).
Proof.
  intros Hm Hl [Hn Ho]. rewrite <-(length_attested m P _ Ho).
  rewrite <-(size_list_to_set (C := gset (str * Z)) (attested_list m P (attestations log)))
    by by apply attested_NoDup.
  f_equal. apply set_eq. intros [f l]. unfold added_set.
  rewrite elem_of_filter, !elem_of_list_to_set, elem_of_attested. simpl. by rewrite Hl.
Qed.

Lemma added_set_size ignored hunks :
  (size (added_set ignored hunks) ≤ length (added_list ignored hunks))%nat.
Proof.
  unfold added_set. generalize (added_list ignored hunks) as l. induction l as [|x l IH]; [done|].
  rewrite list_to_set_cons, size_union_alt, size_singleton. cbn [length]. apply le_n_S.
  etrans; [|exact IH]. apply subseteq_size. set_solver.
Qed.

Lemma once_unique es (e e' : AttestationEntry) l :
  NoDup (flat_map (λ e, flat_map expand (line_ranges e)) es) → e ∈ es → e' ∈ es →
  contains_any (line_ranges e) l = true → contains_any (line_ranges e') l = true → e = e'.
Proof.
  rewrite <-!elem_of_flat_expand. induction es as [|x es IH]; intros Hn He He' Hl Hl'; [set_solver|].
  cbn [flat_map] in Hn. apply NoDup_app in Hn as (_ & Hd & Hn).
  assert (∀ y, y ∈ es → l ∈ flat_map expand (line_ranges y) →
    l ∈ flat_map (λ e, flat_map expand (line_ranges e)) es) as Hin.
  { intros y Hy Hly. apply list_elem_of_In, in_flat_map. exists y. by rewrite <-!list_elem_of_In. }
  apply elem_of_cons in He as [->|He], He' as [->|He'].
  - done.
  - exfalso. apply (Hd l Hl). by eapply Hin.
  - exfalso. apply (Hd l Hl'). by eapply Hin.
  - by apply IH.
Qed.

(** A line has one key at most. *)
Lemma attests_unique P Q log x :
  lines_once log → (∀ h, P h = true → Q h = false) → attests P log x = true → attests Q log x = false.
Proof.
  intros [Hn Ho] HPQ HP. apply not_true_is_false. intros HQ. unfold attests in *.
  apply existsb_exists in HP as (f & Hf & HP), HQ as (g & Hg & HQ). bool_hyps.
  repeat match goal with H : str_eqb _ _ = true |- _ => apply str_eqb_eq in H end.
  assert (f = g) as <-.
  { apply list_elem_of_In in Hf, Hg. apply list_elem_of_lookup in Hf as [i Hi], Hg as [j Hj].
    assert (i = j) as ->; [|congruence].
    eapply (NoDup_lookup (map file_path (attestations log)) i j (x.1)); [done|..];
      change (map file_path) with (fmap (M := list) file_path); rewrite list_lookup_fmap, ?Hi, ?Hj;
      simpl; congruence. }
  repeat match goal with H : existsb _ _ = true |- _ => apply existsb_exists in H as (? & ? & ?) end.
  bool_hyps. rewrite Forall_forall in Ho. apply list_elem_of_In in Hf. specialize (Ho f Hf).
  repeat match goal with H : In _ _ |- _ => apply list_elem_of_In in H end.
  assert (x0 = x1) as -> by by eapply once_unique.
  match goal with H : P _ = true |- _ => apply HPQ in H; congruence end.
Qed.

(** The totals of a note over a table [m] of the added lines. *)
Lemma totals_attested ignored hunks m log :
  map_Forall (λ _, StronglySorted Z.lt) m →
  (∀ f l, l ∈ default [] (m !! f) ↔ (f, l) ∈ added_list ignored hunks) →
  lines_once log → Z.of_nat (size (added_set ignored hunks)) <= u32_max →
  let attested P := Z.of_nat (size (filter (λ fl, attests P log fl = true) (added_set ignored hunks))) in
  let '(ai, human, per) := foldl (count_file (metadata log) m) (0, 0, ∅) (attestations log) in
  ai = attested is_ai_key ∧ human = attested is_human_key ∧
  ∀ tm, default 0 (per !! tm) = attested (of_tool (metadata log) tm).
Proof.
  intros Hs Hml Ho Hb. cbv zeta.
  pose proof (count_files_tallied (metadata log) m (attestations log) (0, 0, ∅) (λ _, 0%nat) Hs) as Ht.
  destruct (foldl (count_file _ m) _ _) as [[ai human] per]. destruct Ht as (Hai & Hhu & Hper).
  { unfold tallied. split_and!; [done..|]. intros tm. cbn [snd]. by rewrite lookup_empty. }
  cbn [fst snd Nat.add] in Hai, Hhu, Hper.
  assert (∀ P, u32_wrap (Z.of_nat (class_count m P (attestations log))) =
    Z.of_nat (size (filter (λ fl, attests P log fl = true) (added_set ignored hunks)))) as Hw.
  { intros P. rewrite (attested_size ignored hunks m P log) by done. apply u32_wrap_small.
    rewrite <-(attested_size ignored hunks m P log) by done. unfold is_u32. split; [lia|].
    etrans; [apply inj_le, subseteq_size|exact Hb]. set_solver. }
  rewrite Hai, Hhu, !Hw. split_and!; [done..|]. intros tm. by rewrite Hper, Hw.
Qed.

(** AI and human lines are different lines. *)
Lemma ai_human_disjoint (log : AuthorshipLog) (lines : gset (str * Z)) :
  lines_once log →
  (size (filter (λ fl, attests is_ai_key log fl = true) lines) +
   size (filter (λ fl, attests is_human_key log fl = true) lines) ≤ size lines)%nat.
Proof.
  intros Ho. rewrite <-size_union; [apply subseteq_size; set_solver|].
  intros x Hx Hy. apply elem_of_filter in Hx as [Hx _], Hy as [Hy _].
  rewrite (attests_unique is_ai_key is_human_key log x) in Hy; [done|done| |done].
  intros h. unfold is_ai_key. by destruct (is_human_key h).
Qed.

End StatsFacts.

(** ** Properties *)

Module StatsProps.
Import LineRange AuthorshipLog PatchParse Ignore IgnoreFacts Stats StatsFacts.

Section Props.
Context {Glob : Type} (glob_new : str → option Glob) (glob_matches : Glob → str → bool).
Local Abbreviation ignored_by := (λ ps path, should_ignore_file glob_new glob_matches path ps).
Local Abbreviation stats_of := (stats_for_commit_stats_from_hunks_with_merge_flag glob_new glob_matches).

(** C29: for a note that attests each line once, the statistics of a commit
    count sets of lines: the added lines of the files that are not ignored,
    those an AI key attests, those a human key attests, and per tool and model
    those whose key the metadata resolves to it; every added line is counted
    as AI, human or unknown exactly once. *)
Theorem stats_count_attested_lines patterns hunks log :
  lines_once log → Z.of_nat (length (added_list (ignored_by patterns) hunks)) <= u32_max →
  let s := stats_of patterns hunks (Some log) false in
  let attested P := Z.of_nat (size (filter (λ fl, attests P log fl = true)
                                      (added_set (ignored_by patterns) hunks))) in
  git_diff_added_lines s = Z.of_nat (length (added_list (ignored_by patterns) hunks)) ∧
  ai_additions s = attested is_ai_key ∧ human_additions s = attested is_human_key ∧
  (∀ tm, default 0 (tool_ai_accepted <$> tool_model_breakdown s !! tm) =
         attested (of_tool (metadata log) tm)) ∧
  ai_additions s + human_additions s + unknown_additions s = git_diff_added_lines s.
Proof.
  intros Ho Hb. cbv zeta. unfold stats_for_commit_stats_from_hunks_with_merge_flag.
  pose proof (count_hunks (ignored_by patterns) hunks) as Hc.
  pose proof (added_set_size (ignored_by patterns) hunks) as Hset.
  pose proof (ai_human_disjoint log (added_set (ignored_by patterns) hunks) Ho) as Hd.
  unfold should_ignore_file in *. destruct (foldl (count_hunk _ false) _ hunks) as [[added deleted] bf].
  destruct Hc as [Ha Hl]. destruct (sorted_by_file bf) as [Hs Hm].
  set (m := _ <$> bf) in *.
  pose proof (totals_attested _ hunks m log Hs (λ f l, iff_trans (Hm f l) (Hl f l)) Ho ltac:(lia)) as Ht.
  cbv zeta in Ht. unfold accepted_lines_from_attestations.
  destruct (foldl (count_file _ m) _ _) as [[ai human] per]. destruct Ht as (Hai & Hhu & Hper).
  rewrite Ha, u32_wrap_small by (unfold is_u32; lia).
  unfold stats_from_authorship_log.
  cbn [ai_additions human_additions unknown_additions git_diff_added_lines tool_model_breakdown].
  split_and!; [done..| |].
  - intros tm. rewrite <-Hper, !lookup_fmap. by destruct (per !! tm).
  - unfold u32_saturating_sub. lia.
Qed.
End Props.

(** *** Overlapping entries *)

Definition sample_hunk (file : str) (added : list Z) : DiffHunk :=
  mkDiffHunk file None 0 0 1 0 [] added [] [].
Definition no_glob (_ : str) : option unit := None.

(** A line that two entries cover is counted twice, so the AI lines of a
    commit can exceed its added lines. *)
Example overlap_counted_twice :
  let log := mkLog [mkFile (lit "f") [mkEntry (lit "s_a::t") [Single 1]; mkEntry (lit "s_b::t") [Range 1 2]]]
               (new_metadata []) in
  let s := stats_for_commit_stats_from_hunks_with_merge_flag no_glob (λ _ _, false) []
             [sample_hunk (lit "f") [1]] (Some log) false in
  git_diff_added_lines s = 1 ∧ ai_additions s = 2.
Proof. by vm_compute. Qed.

(** *** Witness *)

Definition sample_log : AuthorshipLog :=
  mkLog [mkFile (lit "f") [mkEntry (lit "s_a::t") [Range 1 3]; mkEntry (lit "h_b") [Single 5]]]
    (mkMetadata [] None [] ∅ ∅
       {[lit "s_a" := mkSessionRecord (mkAgentId (lit "cursor") [] (lit "m1")) {[lit "t" := lit "m2"]} None None]}).

Lemma stats_count_attested_lines_witness :
  let s := stats_for_commit_stats_from_hunks_with_merge_flag no_glob (λ _ _, false) [lit "skip"]
             [sample_hunk (lit "f") [2; 3; 4; 5]; sample_hunk (lit "dir/skip") [1]] (Some sample_log) false in
  ai_additions s + human_additions s + unknown_additions s = git_diff_added_lines s ∧
  (ai_additions s, human_additions s, unknown_additions s) = (2, 1, 1) ∧
  tool_ai_accepted <$> tool_model_breakdown s !! lit "cursor::m2" = Some 2.
Proof.
  split.
  - apply (stats_count_attested_lines no_glob (λ _ _, false) [lit "skip"]
             [sample_hunk (lit "f") [2; 3; 4; 5]; sample_hunk (lit "dir/skip") [1]] sample_log).
    + split; [apply NoDup_singleton|]. apply Forall_cons. split; [|done].
      change (NoDup [1; 2; 3; 5]). repeat constructor; set_solver.
    + vm_compute. discriminate.
  - by vm_compute.
Defined.

End StatsProps.
