(* ===== verification/Carryover.v ===== *)
(** * Carrying uncommitted text across a commit

    Models the text functions of src/src/authorship/virtual_attribution.rs
    that reconstruct the uncommitted state of a file: lines with their
    terminators, the hunks between two texts, the test that one text's lines
    are contained in another's, the three-way merge of the parent, the
    committed and the observed text, and the removal of conflict markers.  The
    reference of the merge is a list of regions between the lines both sides
    keep, each region resolved on its own ([merge_of]). *)

From S2P Require Import Prelude Text LineRange Attribution HunkShift ImaraDiff.

Module Carryover.
Import Attribution HunkShift ImaraDiff.

(** The loop over [char_indices]; [cur] is [s[start..idx]]. *)
Fixpoint terminated_loop (cur s : str) : list str :=
  match s with
  | [] => if bool_decide (cur = []) then [] else [cur]
  | ch :: s' =>
      if bool_decide (ch = LF) then (cur ++ [ch]) :: terminated_loop [] s'
      else terminated_loop (cur ++ [ch]) s'
  end.

Definition split_lines_preserving_terminators (s : str) : list str := terminated_loop [] s.

Definition content_eq (a b : str) : bool := default false (content_eq_ignoring_line_endings a b).

(** [usize as u32]. *)
Definition as_u32 (n : nat) : Z := u32_wrap (Z.of_nat n).

(** The hunk of one operation. *)
Definition op_hunk (op : DiffOp) : option HunkShift.DiffHunk :=
  match op with
  | OpInsert old_index new_index new_len =>
      Some (mkHunk (as_u32 old_index) 0 (u32_add (as_u32 new_index) 1) (as_u32 new_len))
  | OpDelete old_index old_len new_index =>
      Some (mkHunk (u32_add (as_u32 old_index) 1) (as_u32 old_len) (u32_add (as_u32 new_index) 1) 0)
  | OpReplace old_index old_len new_index new_len =>
      Some (mkHunk (u32_add (as_u32 old_index) 1) (as_u32 old_len)
              (u32_add (as_u32 new_index) 1) (as_u32 new_len))
  | OpEqual _ _ _ => None
  end.

Definition diff_hunks_between_contents `{engine : !DiffEngine} (old_content new_content : str) :
    list HunkShift.DiffHunk :=
  let normalized_old := normalize_line_endings old_content in
  let normalized_new := normalize_line_endings new_content in
  omap op_hunk (capture_diff_slices (split_lines_preserving_terminators normalized_old)
                  (split_lines_preserving_terminators normalized_new)).

(** The loop over the lines of the haystack; [needle] is what is left to find. *)
Fixpoint contains_loop (needle haystack : list str) : bool :=
  match haystack with
  | [] => false
  | line :: haystack' =>
      match needle with
      | [] => false
      | n :: needle' =>
          if str_eqb line n then
            match needle' with [] => true | _ => contains_loop needle' haystack' end
          else contains_loop needle haystack'
      end
  end.

Definition line_sequence_contains (needle haystack : str) : bool :=
  match split_lines_preserving_terminators (normalize_line_endings needle) with
  | [] => true
  | needle_lines =>
      contains_loop needle_lines (split_lines_preserving_terminators (normalize_line_endings haystack))
  end.

(** ** The three-way merge *)

(** [map[old_index + k] = Some(new_index + k)] for each [Equal] operation. *)
Definition set_aligned (map : list (option nat)) (op : DiffOp) : list (option nat) :=
  match op with
  | OpEqual old_index new_index len =>
      foldl (λ m k, <[old_index + k := Some (new_index + k)]> m) map (seq 0 len)
  | _ => map
  end.

Definition align_to_base `{engine : !DiffEngine} (base side : list str) : list (option nat) :=
  foldl set_aligned (replicate (length base) None) (capture_diff_slices base side).

(** [&l[a..b]], which panics unless [a <= b <= len]. *)
Definition checked_slice {E A : Type} (a b : nat) (l : list A) : outcome E (list A) :=
  if (a <=? b) && (b <=? length l) then Ret (slice a b l) else Panic.

Section Merge.
Context {E : Type}.
(** The lines of the three texts and the same lines with normalized ends. *)
Context (base_lines committed_lines observed_lines : list str).
Context (base_cmp_lines committed_cmp_lines observed_cmp_lines : list str).
Context (committed_map observed_map : list (option nat)).

(** Both positions of a base line that both sides keep. *)
Definition stable (i : nat) : option (nat * nat) :=
  match committed_map !! i, observed_map !! i with
  | Some (Some c), Some (Some o) => Some (c, o)
  | _, _ => None
  end.

(** The lines inserted before an anchor. *)
Definition pending (lines : list str) (i anchor : nat) : outcome E (list str) :=
  if i <? anchor then checked_slice i anchor lines else Ret [].

(** [==] on [committed_cmp_lines[..]] and [observed_cmp_lines[..]]. *)
Definition same_cmp (ci ca oi oa : nat) : outcome E bool :=
  let? c := checked_slice ci ca committed_cmp_lines in
  let? o := checked_slice oi oa observed_cmp_lines in
  Ret (bool_decide (c = o)).

(** Two-sided insertions: the observed one, unless they agree. *)
Definition resolve_inserts (ci ca oi oa : nat) (c o : list str) : outcome E (list str) :=
  match c, o with
  | _ :: _, _ :: _ => let? same := same_cmp ci ca oi oa in Ret (if same then c else o)
  | _ :: _, [] => Ret c
  | [], _ => Ret o
  end.

(** The region before the next anchor, when no base line is in it. *)
Definition insert_region (ci ca oi oa : nat) : outcome E (list str) :=
  let? c := pending committed_lines ci ca in
  let? o := pending observed_lines oi oa in
  resolve_inserts ci ca oi oa c o.

(** A region of base lines at least one side changed. *)
Definition change_region (bi be ci ca oi oa : nat) : outcome E (list str) :=
  let? c := checked_slice ci ca committed_lines in
  let? o := checked_slice oi oa observed_lines in
  let? b := checked_slice bi be base_lines in
  let? b_cmp := checked_slice bi be base_cmp_lines in
  let? c_cmp := checked_slice ci ca committed_cmp_lines in
  let? o_cmp := checked_slice oi oa observed_cmp_lines in
  Ret (match negb (bool_decide (c_cmp = b_cmp)), negb (bool_decide (o_cmp = b_cmp)) with
       | true, false => c
       | false, true => o
       | true, true => if bool_decide (c_cmp = o_cmp) then c else o
       | false, false => b
       end).

(** [while base_i < base_lines.len() && !is_stable(base_i)]. *)
Fixpoint skip_unstable (fuel base_i : nat) : nat :=
  match fuel with
  | O => base_i
  | S f =>
      if base_i <? length base_lines then
        match stable base_i with Some _ => base_i | None => skip_unstable f (S base_i) end
      else base_i
  end.

(** [base_lines[i]]. *)
Definition index {A} (l : list A) (i : nat) : outcome E A :=
  match l !! i with Some x => Ret x | None => Panic end.

(** The main loop and what follows it; the lines pushed to [result]. *)
Fixpoint merge_loop (fuel base_i committed_i observed_i : nat) : outcome E (list str) :=
  match fuel with
  | S f =>
      if base_i <? length base_lines then
        match stable base_i with
        | Some (c_anchor, o_anchor) =>
            let? region := insert_region committed_i c_anchor observed_i o_anchor in
            let? line := index base_lines base_i in
            let? rest := merge_loop f (S base_i) (S c_anchor) (S o_anchor) in
            Ret (region ++ line :: rest)
        | None =>
            let base_end := skip_unstable (length base_lines) base_i in
            let '(c_anchor, o_anchor) :=
              match stable base_end with
              | Some anchors => if base_end <? length base_lines then anchors
                                else (length committed_lines, length observed_lines)
              | None => (length committed_lines, length observed_lines)
              end in
            let? region := change_region base_i base_end committed_i c_anchor observed_i o_anchor in
            let? rest := merge_loop f base_end c_anchor o_anchor in
            Ret (region ++ rest)
        end
      else
        let? c_tail := checked_slice committed_i (length committed_lines) committed_lines in
        let? o_tail := checked_slice observed_i (length observed_lines) observed_lines in
        resolve_inserts committed_i (length committed_cmp_lines) observed_i (length observed_cmp_lines)
          c_tail o_tail
  | O => Panic
  end.
End Merge.

Definition carryover_merge_content `{engine : !DiffEngine} {E : Type} (parent committed observed : str) :
    outcome E str :=
  if content_eq committed observed then Ret committed
  else if content_eq parent committed then Ret observed
  else if content_eq parent observed then Ret committed
  else
    let base_lines := split_lines_preserving_terminators parent in
    let committed_lines := split_lines_preserving_terminators committed in
    let observed_lines := split_lines_preserving_terminators observed in
    let base_cmp_lines := split_lines_preserving_terminators (normalize_line_endings parent) in
    let committed_cmp_lines := split_lines_preserving_terminators (normalize_line_endings committed) in
    let observed_cmp_lines := split_lines_preserving_terminators (normalize_line_endings observed) in
    let committed_map := align_to_base base_cmp_lines committed_cmp_lines in
    let observed_map := align_to_base base_cmp_lines observed_cmp_lines in
    let? result := merge_loop base_lines committed_lines observed_lines
                     base_cmp_lines committed_cmp_lines observed_cmp_lines
                     committed_map observed_map (S (length base_lines)) 0 0 0 in
    Ret (concat result).

Definition merged_carryover_content_pure `{engine : !DiffEngine} {E : Type}
    (parent_content committed_content observed_content : str) : outcome E str :=
  if content_eq committed_content observed_content then Ret committed_content
  else if line_sequence_contains committed_content observed_content then Ret observed_content
  else if line_sequence_contains observed_content committed_content then Ret committed_content
  else if content_eq committed_content parent_content then Ret observed_content
  else if content_eq observed_content parent_content then Ret committed_content
  else carryover_merge_content parent_content committed_content observed_content.

(** ** Conflict markers *)

(** The loop of [content_has_conflict_markers]. *)
Fixpoint markers_loop (has_open has_close : bool) (ls : list str) : bool :=
  match ls with
  | [] => false
  | line :: ls' =>
      let has_open' := has_open || starts_with (lit "<<<<<<<") line in
      let has_close' :=
        has_close || (negb (starts_with (lit "<<<<<<<") line) && starts_with (lit ">>>>>>>") line) in
      if has_open' && has_close' then true else markers_loop has_open' has_close' ls'
  end.

Definition content_has_conflict_markers (content : str) : bool := markers_loop false false (lines content).

(** The loop of [strip_conflict_markers_keep_ours]: the lines kept. *)
Fixpoint strip_loop (in_conflict in_ours : bool) (ls : list str) : list str :=
  match ls with
  | [] => []
  | line :: ls' =>
      if starts_with (lit "<<<<<<<") line then strip_loop true false ls'
      else if in_conflict && starts_with (lit "|||||||") line then strip_loop in_conflict false ls'
      else if in_conflict && starts_with (lit "=======") line then strip_loop in_conflict true ls'
      else if in_conflict && starts_with (lit ">>>>>>>") line then strip_loop false false ls'
      else if negb in_conflict || in_ours then line :: strip_loop in_conflict in_ours ls'
      else strip_loop in_conflict in_ours ls'
  end.

Definition strip_conflict_markers_keep_ours (content : str) : str :=
  join_with [LF] (strip_loop false false (lines content)) ++
  (if ends_with [LF] content then [LF] else []).

(** ** Reference: regions between anchors *)

Definition norm_lines (ls : list str) : list str := map normalize_line_endings ls.

(** A region on its own: the side that changed, the committed one when both
    made the same change, the observed one when they differ. *)
Definition resolve (b c o : list str) : list str :=
  match negb (bool_decide (norm_lines c = norm_lines b)), negb (bool_decide (norm_lines o = norm_lines b)) with
  | true, false => c
  | false, true => o
  | true, true => if bool_decide (norm_lines c = norm_lines o) then c else o
  | false, false => b
  end.

(** The three texts from positions [bi], [ci] and [oi] on, cut at the anchors:
    the base lines both sides keep, with their positions. *)
Fixpoint diff3 (base committed observed : list str) (anchors : list (nat * (nat * nat)))
    (bi ci oi : nat) : list str :=
  match anchors with
  | [] => resolve (drop bi base) (drop ci committed) (drop oi observed)
  | (b, (c, o)) :: anchors' =>
      resolve (slice bi b base) (slice ci c committed) (slice oi o observed) ++
      slice b (S b) base ++ diff3 base committed observed anchors' (S b) (S c) (S o)
  end.

(** The anchors two diffs of the same base give. *)
Definition anchors_from (len : nat) (committed_map observed_map : list (option nat)) (bi : nat) :
    list (nat * (nat * nat)) :=
  omap (λ i, (λ co, (i, co)) <$> stable committed_map observed_map i) (seq bi (len - bi)).

(** The lines two texts have in common according to a diff. *)
Definition aligned (ops : list DiffOp) : list (nat * nat) :=
  flat_map (λ op, match op with
                  | OpEqual o n l => map (λ k, (o + k, n + k)) (seq 0 l)
                  | _ => []
                  end) ops.

End Carryover.

(** ** Lemmas *)

Module CarryoverFacts.
Import Attribution HunkShift ImaraDiff ImaraDiffFacts Carryover.

Lemma terminated_loop_spec cur s :
  terminated_loop cur s =
  match split_lines_with_terminators s with
  | [] => if bool_decide (cur = []) then [] else [cur]
  | l :: ls => (cur ++ l) :: ls
  end.
Proof.
  revert cur. induction s as [|c s IH]; intros cur; [done|].
  cbn [terminated_loop split_lines_with_terminators].
  destruct (decide (c = LF)) as [->|Hne].
  - rewrite !bool_decide_true by done. rewrite IH. destruct (split_lines_with_terminators s); [|done].
    by rewrite bool_decide_true.
  - rewrite !bool_decide_false by done. rewrite IH.
    destruct (split_lines_with_terminators s) as [|l ls].
    + rewrite bool_decide_false; [done|]. by destruct cur.
    + by rewrite <-app_assoc.
Qed.

Lemma split_lines_preserving s : split_lines_preserving_terminators s = split_lines_with_terminators s.
Proof.
  unfold split_lines_preserving_terminators. rewrite terminated_loop_spec.
  by destruct (split_lines_with_terminators s).
Qed.

Lemma cmp_lines s :
  split_lines_preserving_terminators (normalize_line_endings s) =
  norm_lines (split_lines_preserving_terminators s).
Proof. rewrite !split_lines_preserving. apply (content_eq_is_normalized_eq s s). Qed.

Lemma content_eq_spec a b :
  content_eq a b = bool_decide (normalize_line_endings a = normalize_line_endings b).
Proof. unfold content_eq. by rewrite (proj1 (content_eq_is_normalized_eq a b)). Qed.

(** *** Alignment *)

Lemma set_aligned_lookup m op i x :
  set_aligned m op !! i = Some (Some x) →
  (i, x) ∈ aligned [op] ∨ m !! i = Some (Some x).
Proof.
  destruct op as [o n l| | |]; simpl; try (by right). rewrite app_nil_r.
  enough (∀ ks m, (∀ k, k ∈ ks → k ∈ seq 0 l) →
    foldl (λ m k, <[o + k := Some (n + k)]> m) m ks !! i = Some (Some x) →
    (i, x) ∈ map (λ k, (o + k, n + k)) (seq 0 l) ∨ m !! i = Some (Some x)) as H by (by apply H).
  induction ks as [|k ks IH]; intros m' Hks; simpl; [by right|].
  intros [H|H]%IH; [by left| |set_solver].
  apply list_lookup_insert_Some in H as [(<- & [= <-] & _)|[_ H]]; [|by right].
  left. apply list_elem_of_In, in_map_iff. exists k. split; [done|]. apply list_elem_of_In. set_solver.
Qed.

Lemma align_lookup m ops i x :
  foldl set_aligned m ops !! i = Some (Some x) → (i, x) ∈ aligned ops ∨ m !! i = Some (Some x).
Proof.
  revert m. induction ops as [|op ops IH]; intros m; simpl; [by right|].
  intros [H|H]%IH; [left|]; [unfold aligned in *; simpl; set_solver|].
  apply set_aligned_lookup in H as [H|H]; [left|by right].
  unfold aligned in *. simpl in *. rewrite app_nil_r in H. set_solver.
Qed.

Lemma set_aligned_length m op : length (set_aligned m op) = length m.
Proof.
  destruct op as [o n l| | |]; try done. simpl. generalize (seq 0 l) as ks. intros ks. revert m.
  induction ks as [|k ks IH]; intros m; simpl; [done|]. by rewrite IH, length_insert.
Qed.

(** Pairs of a tiling go up on both sides, from the tiling's start. *)
Definition pair_lt (a b : nat * nat) : Prop := a.1 < b.1 ∧ a.2 < b.2.

Lemma equal_pairs_sorted o n l k0 :
  StronglySorted pair_lt (map (λ k, (o + k, n + k)) (seq k0 l)).
Proof.
  revert k0. induction l as [|l IH]; intros k0; simpl; constructor; [done|].
  apply Forall_forall. intros [x y] H. apply list_elem_of_In, in_map_iff in H as (k & [= <- <-] & Hk).
  apply in_seq in Hk. unfold pair_lt. simpl. lia.
Qed.

Lemma StronglySorted_app_2 {A} (R : A → A → Prop) l1 l2 :
  StronglySorted R l1 → StronglySorted R l2 → (∀ x y, x ∈ l1 → y ∈ l2 → R x y) →
  StronglySorted R (l1 ++ l2).
Proof.
  induction 1 as [|x l1 _ IH Hx]; intros H2 H12; [done|]. simpl. constructor.
  - apply IH; [done|]. intros. apply H12; [by right|done].
  - apply Forall_app. split; [done|]. apply Forall_forall. intros y Hy. apply H12; [left|done].
Qed.

Lemma aligned_tile {T} (old new : list T) i j ops :
  ops_tile old new i j ops →
  StronglySorted pair_lt (aligned ops) ∧
  ∀ x y, (x, y) ∈ aligned ops → i ≤ x < length old ∧ j ≤ y < length new ∧ old !! x = new !! y.
Proof.
  revert i j. induction ops as [|op ops IH]; intros i j; [by split; [constructor|intros ?? ?%not_elem_of_nil]|].
  destruct op as [o n l|o ol n|o n nl|o ol n nl]; cbn [ops_tile].
  - intros (-> & -> & Hl & Ho & Hn & E & Ht). destruct (IH _ _ Ht) as [Hs Hin].
    assert (∀ x y, (x, y) ∈ map (λ k, (i + k, j + k)) (seq 0 l) → ∃ k, k < l ∧ x = i + k ∧ y = j + k) as Hm.
    { intros x y H. apply list_elem_of_In, in_map_iff in H as (k & [= <- <-] & Hk).
      apply in_seq in Hk. exists k. lia. }
    unfold aligned in *. cbn [flat_map]. split.
    + apply StronglySorted_app_2; [apply equal_pairs_sorted|done|].
      intros [x y] [x' y'] (k & ? & -> & ->)%Hm (? & ? & _)%Hin. unfold pair_lt. simpl. lia.
    + intros x y [(k & Hk & -> & ->)%Hm|(? & ? & ?)%Hin]%elem_of_app; [|split_and!; lia || done].
      split_and!; try lia. apply (f_equal (.!! k)) in E. by rewrite !lookup_slice in E by lia.
  - intros (-> & -> & ? & ? & Ht). destruct (IH _ _ Ht) as [Hs Hin]. split; [done|].
    intros x y (? & ? & ?)%Hin. split_and!; lia || done.
  - intros (-> & -> & ? & ? & Ht). destruct (IH _ _ Ht) as [Hs Hin]. split; [done|].
    intros x y (? & ? & ?)%Hin. split_and!; lia || done.
  - intros (-> & -> & ? & ? & ? & ? & Ht). destruct (IH _ _ Ht) as [Hs Hin]. split; [done|].
    intros x y (? & ? & ?)%Hin. split_and!; lia || done.
Qed.

Lemma pairs_mono l x y x' y' :
  StronglySorted pair_lt l → (x, y) ∈ l → (x', y') ∈ l → x < x' → y < y'.
Proof.
  induction 1 as [|a l _ IH Ha]; intros H H' Hlt; [set_solver|]. rewrite Forall_forall in Ha.
  apply elem_of_cons in H as [Ex|H], H' as [Ex'|H'].
  - simplify_eq. lia.
  - subst a. by destruct (Ha _ H').
  - subst a. destruct (Ha _ H) as [? _]. simpl in *. lia.
  - by apply IH.
Qed.

(** A map that goes up, into the lines of a side. *)
Definition increasing (m : list (option nat)) (len : nat) : Prop :=
  (∀ i x, m !! i = Some (Some x) → x < len) ∧
  ∀ i i' x x', i < i' → m !! i = Some (Some x) → m !! i' = Some (Some x') → x < x'.

Lemma align_increasing `{engine : !DiffEngine} (base side : list str) :
  increasing (align_to_base base side) (length side) ∧
  (∀ i x, align_to_base base side !! i = Some (Some x) → base !! i = side !! x) ∧
  length (align_to_base base side) = length base.
Proof.
  pose proof (hunks_loop_tile base side 0 0 _ (diff_slices_valid _ _ base side)) as Ht.
  apply aligned_tile in Ht as [Hs Hin].
  assert (∀ i x, align_to_base base side !! i = Some (Some x) → (i, x) ∈ aligned (capture_diff_slices base side)) as Hal.
  { intros i x [H|H]%align_lookup; [done|]. by apply lookup_replicate in H as [[=] _]. }
  split; [split|split].
  - intros i x H%Hal%Hin. lia.
  - intros i i' x x' Hlt Hx%Hal Hx'%Hal. by eapply pairs_mono.
  - intros i x H%Hal%Hin. naive_solver.
  - unfold align_to_base. generalize (capture_diff_slices base side) as ops. intros ops.
    rewrite <-(length_replicate (length base) (@None nat)) at 2.
    generalize (replicate (length base) (@None nat)) as m.
    induction ops as [|op ops IH]; intros m; simpl; [done|]. by rewrite IH, set_aligned_length.
Qed.

(** *** The merge loop *)

Lemma checked_slice_ok {E A} a b (l : list A) :
  a ≤ b → b ≤ length l → checked_slice (E := E) a b l = Ret (slice a b l).
Proof.
  intros Hab Hb. unfold checked_slice.
  by rewrite (proj2 (Nat.leb_le a b) Hab), (proj2 (Nat.leb_le _ _) Hb).
Qed.

Lemma norm_lines_slice a b ls : slice a b (norm_lines ls) = norm_lines (slice a b ls).
Proof. symmetry. apply map_slice. Qed.

Lemma norm_lines_length ls : length (norm_lines ls) = length ls.
Proof. apply length_map. Qed.

Lemma resolve_nil : resolve [] [] [] = [].
Proof. done. Qed.

Lemma slice_one {A} i (l : list A) x : l !! i = Some x → slice i (S i) l = [x].
Proof. intros H. unfold slice. replace (S i - i) with 1 by lia. by rewrite (drop_S _ _ _ H). Qed.

Section Loop.
Context {E : Type} (base committed observed : list str) (cm om : list (option nat)).
Context (Hlen : length cm = length base).
Context (Hcm : increasing cm (length committed)) (Hom : increasing om (length observed)).
Local Abbreviation st := (stable cm om).
Local Abbreviation anchors := (anchors_from (length base) cm om).

Lemma stable_spec i x y : st i = Some (x, y) ↔ cm !! i = Some (Some x) ∧ om !! i = Some (Some y).
Proof.
  unfold stable. destruct (cm !! i) as [[c|]|], (om !! i) as [[o|]|]; naive_solver.
Qed.

Lemma stable_bounds i x y : st i = Some (x, y) → x < length committed ∧ y < length observed.
Proof.
  intros [H1 H2]%stable_spec. split; [exact (proj1 Hcm _ _ H1)|exact (proj1 Hom _ _ H2)].
Qed.

Lemma stable_mono i i' x y x' y' :
  i < i' → st i = Some (x, y) → st i' = Some (x', y') → x < x' ∧ y < y'.
Proof.
  intros Hlt [H1 H2]%stable_spec [H1' H2']%stable_spec.
  split; [exact (proj2 Hcm _ _ _ _ Hlt H1 H1')|exact (proj2 Hom _ _ _ _ Hlt H2 H2')].
Qed.

Lemma anchors_end i : length base ≤ i → anchors i = [].
Proof. intros H. unfold anchors_from. by replace (length base - i) with 0 by lia. Qed.

Lemma anchors_step i :
  i < length base →
  anchors i = match st i with Some co => (i, co) :: anchors (S i) | None => anchors (S i) end.
Proof.
  intros H. unfold anchors_from. replace (length base - i) with (S (length base - S i)) by lia.
  cbn [seq omap list_omap]. by destruct (st i).
Qed.

Lemma skip_unstable_spec fuel i :
  i ≤ length base → length base - i ≤ fuel →
  let j := skip_unstable base cm om fuel i in
  i ≤ j ≤ length base ∧ anchors i = anchors j ∧ (j < length base → st j ≠ None) ∧
  (i < length base → st i = None → i < j).
Proof.
  revert i. induction fuel as [|f IH]; intros i Hi Hf; cbn [skip_unstable].
  { split_and!; done || lia. }
  destruct (Nat.ltb_spec i (length base)) as [Hlt|Hge]; [|split_and!; done || lia].
  destruct (st i) eqn:Es; [split_and!; done || congruence || lia|].
  destruct (IH (S i)) as ([? ?] & Ha & Hn & _); [lia..|].
  split_and!; [lia..| |done|lia]. by rewrite anchors_step, Es, Ha.
Qed.

Lemma slice_nonempty_norm (l : list str) : norm_lines l = [] ↔ l = [].
Proof. by destruct l. Qed.

Lemma insert_region_spec ci ca oi oa :
  ci ≤ ca → ca ≤ length committed → oi ≤ oa → oa ≤ length observed →
  resolve_inserts (E := E) (norm_lines committed) (norm_lines observed) ci ca oi oa
    (slice ci ca committed) (slice oi oa observed) =
  Ret (resolve [] (slice ci ca committed) (slice oi oa observed)).
Proof.
  intros H1 H2 H3 H4. unfold resolve_inserts, same_cmp.
  rewrite !checked_slice_ok by (rewrite ?norm_lines_length; lia). cbn [obind].
  rewrite !norm_lines_slice. unfold resolve.
  destruct (slice ci ca committed) eqn:Ec, (slice oi oa observed) eqn:Eo; try done.
Qed.

Lemma pending_spec (ls : list str) i a :
  i ≤ a → a ≤ length ls → pending (E := E) ls i a = Ret (slice i a ls).
Proof.
  intros H1 H2. unfold pending. destruct (Nat.ltb_spec i a); [by apply checked_slice_ok|].
  by rewrite slice_empty by lia.
Qed.

Lemma change_region_spec bi be ci ca oi oa :
  bi ≤ be → be ≤ length base → ci ≤ ca → ca ≤ length committed → oi ≤ oa → oa ≤ length observed →
  change_region (E := E) base committed observed (norm_lines base) (norm_lines committed)
    (norm_lines observed) bi be ci ca oi oa =
  Ret (resolve (slice bi be base) (slice ci ca committed) (slice oi oa observed)).
Proof.
  intros. unfold change_region.
  rewrite !checked_slice_ok by (rewrite ?norm_lines_length; lia). cbn [obind].
  by rewrite !norm_lines_slice.
Qed.

(** The positions reached are before every anchor still to come. *)
Definition before_anchors (bi ci oi : nat) : Prop :=
  ci ≤ length committed ∧ oi ≤ length observed ∧
  ∀ i x y, bi ≤ i → st i = Some (x, y) → ci ≤ x ∧ oi ≤ y.

Lemma before_next i x y : st i = Some (x, y) → before_anchors (S i) (S x) (S y).
Proof.
  intros Hs. destruct (stable_bounds i x y Hs). split_and!; [lia..|].
  intros i' x' y' Hi Hs'. destruct (stable_mono i i' x y x' y'); [lia|done..|lia].
Qed.

Lemma before_same i x y : st i = Some (x, y) → before_anchors i x y.
Proof.
  intros Hs. destruct (stable_bounds i x y Hs). split_and!; [lia..|].
  intros i' x' y' Hi Hs'. destruct (decide (i = i')) as [->|]; [naive_solver lia|].
  destruct (stable_mono i i' x y x' y'); [lia|done..|lia].
Qed.

(** The end of a region of changed lines: the next anchor, or the ends. *)
Lemma diff3_region bi be ci oi ca oa :
  anchors bi = anchors be → bi ≤ be → be ≤ length base →
  (if bool_decide (be < length base) then st be = Some (ca, oa)
   else ca = length committed ∧ oa = length observed) →
  diff3 base committed observed (anchors bi) bi ci oi =
  resolve (slice bi be base) (slice ci ca committed) (slice oi oa observed) ++
  diff3 base committed observed (anchors be) be ca oa.
Proof.
  intros Ha Hle Hbe H. rewrite Ha. case_bool_decide as Hlt.
  - rewrite (anchors_step be), H by done. cbn [diff3]. by rewrite !slice_nil, resolve_nil.
  - destruct H as [-> ->]. assert (be = length base) as -> by lia.
    rewrite anchors_end by lia. cbn [diff3].
    by rewrite !drop_all, resolve_nil, app_nil_r, !slice_to_end.
Qed.

Lemma merge_loop_spec fuel bi ci oi :
  bi ≤ length base → length base - bi < fuel → before_anchors bi ci oi →
  merge_loop (E := E) base committed observed (norm_lines base) (norm_lines committed)
    (norm_lines observed) cm om fuel bi ci oi =
  Ret (diff3 base committed observed (anchors bi) bi ci oi).
Proof.
  revert bi ci oi. induction fuel as [|f IH]; intros bi ci oi Hbi Hf Hb; [lia|].
  pose proof Hb as (Hci & Hoi & Hnext). cbn [merge_loop].
  destruct (Nat.ltb_spec bi (length base)) as [Hlt|Hge].
  2:{ rewrite !checked_slice_ok by lia. cbn [obind]. rewrite !norm_lines_length, insert_region_spec by lia.
      rewrite anchors_end by lia. cbn [diff3].
      rewrite (drop_ge base) by lia. by rewrite !slice_to_end. }
  destruct (st bi) as [[x y]|] eqn:Es.
  - destruct (Hnext bi x y ltac:(lia) Es). destruct (stable_bounds bi x y Es).
    unfold insert_region. rewrite !pending_spec by lia. cbn [obind]. rewrite insert_region_spec by lia.
    cbn [obind]. unfold index. destruct (lookup_lt_is_Some_2 base bi Hlt) as [line Hl]. rewrite Hl.
    cbn [obind]. rewrite IH by (lia || by apply before_next). cbn [obind].
    rewrite (anchors_step bi), Es by done. cbn [diff3]. rewrite slice_nil.
    by rewrite (slice_one bi base line Hl).
  - destruct (skip_unstable_spec (length base) bi Hbi ltac:(lia)) as ([H1 H2] & Ha & Hst & Hs).
    specialize (Hs Hlt Es). set (be := skip_unstable _ _ _ _ bi) in *.
    destruct (Nat.ltb_spec be (length base)) as [Hbe|Hbe].
    + specialize (Hst Hbe). destruct (st be) as [[x y]|] eqn:Eb; [|done].
      destruct (Hnext be x y ltac:(lia) Eb), (stable_bounds be x y Eb).
      rewrite change_region_spec by lia. cbn [obind].
      rewrite IH by (lia || by apply before_same). cbn [obind].
      rewrite (diff3_region bi be ci oi x y) by (done || rewrite ?bool_decide_true by done; done). done.
    + assert (st be = None ∨ ∃ a, st be = Some a) as Hx by (destruct (st be); eauto).
      assert (match st be with Some _ => (length committed, length observed)
              | None => (length committed, length observed) end = (length committed, length observed)) as ->
        by by destruct (st be).
      rewrite change_region_spec by lia. cbn [obind].
      rewrite IH; [|lia..|].
      2:{ split_and!; [lia..|]. intros i x y Hi Hsx.
          apply stable_spec in Hsx as [Hc%lookup_lt_Some _]. lia. }
      cbn [obind]. rewrite (diff3_region bi be ci oi (length committed) (length observed));
        [done|done|lia|lia|]. by rewrite bool_decide_false by lia.
Qed.
End Loop.

(** *** Containment of line sequences *)

Lemma sublist_same (x : str) a b : sublist (x :: a) (x :: b) ↔ sublist a b.
Proof.
  split; [|by apply sublist_skip]. intros H. inversion H; subst; [done|].
  etrans; [|eassumption]. by apply sublist_cons.
Qed.

Lemma sublist_other (x y : str) a b : x ≠ y → sublist (x :: a) (y :: b) ↔ sublist (x :: a) b.
Proof. intros Hne. split; [|by apply sublist_cons]. intros H. by inversion H. Qed.

Lemma contains_loop_spec n ns hs : contains_loop (n :: ns) hs = true ↔ sublist (n :: ns) hs.
Proof.
  revert n ns. induction hs as [|h hs IH]; intros n ns; cbn [contains_loop].
  { split; [done|]. intros H%sublist_nil_r. done. }
  unfold str_eqb. case_bool_decide as E; [subst h|].
  - rewrite sublist_same. destruct ns as [|m ns]; [|apply IH].
    split; [intros _; apply sublist_nil_l|done].
  - rewrite sublist_other by done. apply IH.
Qed.

(** *** The hunks between two texts *)

Lemma tile_bounds {T} (old new : list T) i j ops :
  ops_tile old new i j ops → i ≤ length old ∧ j ≤ length new.
Proof.
  revert i j. induction ops as [|[o n l|o k n|o n l|o k n l] ops IH]; intros i j; cbn [ops_tile];
    intros; destruct_and?; subst; try (edestruct IH; [eassumption|]); lia.
Qed.

Section Hunks.
Context (ol nl : list str).
Local Open Scope Z_scope.
Context (Hol : Z.of_nat (length ol) < u32_max) (Hnl : Z.of_nat (length nl) < u32_max).

(** A hunk with the lines it adds. *)
Definition op_change (op : DiffOp) : option (HunkShift.DiffHunk * list str) :=
  try h := op_hunk op in
  Some (h, match op with
           | OpInsert _ n l | OpReplace _ _ n l => slice n (n + l)%nat nl
           | _ => []
           end).

Lemma op_change_fst ops : map fst (omap op_change ops) = omap op_hunk ops.
Proof.
  induction ops as [|op ops IH]; [done|]. cbn [omap list_omap]. unfold op_change at 1.
  destruct (op_hunk op); [|exact IH]. cbn [map fst]. by f_equal.
Qed.

Lemma as_u32_small n : Z.of_nat n <= u32_max → as_u32 n = Z.of_nat n.
Proof. intros H. apply u32_wrap_small. unfold is_u32. lia. Qed.

Lemma as_u32_succ n : Z.of_nat n < u32_max → u32_add (as_u32 n) 1 = Z.of_nat n + 1.
Proof. intros H. rewrite as_u32_small by lia. by u32. Qed.

Lemma hunks_ok_weaken lo lo' hs : lo' <= lo → hunks_ok lo hs → hunks_ok lo' hs.
Proof. destruct hs as [|h hs]; [done|]. simpl. intros. destruct_and!. split_and!; done || lia. Qed.

Lemma patched_prefix pre old pos hs :
  hunks_ok (pos + Z.of_nat (length pre)) (map fst hs) →
  patched pos (pre ++ old) hs = pre ++ patched (pos + Z.of_nat (length pre)) old hs.
Proof.
  destruct hs as [|[h added] hs]; [done|]. cbn [map fst hunks_ok patched]. intros (Hlo & _ & Hc & _).
  assert (first_gone h <= old_next h) by (unfold old_next; lia).
  rewrite take_app_ge, drop_app_ge by lia. rewrite <-app_assoc.
  f_equal. f_equal; [f_equal; lia|]. f_equal. f_equal. f_equal. lia.
Qed.

(** What the operations from [i] and [j] on give. *)
Definition changes_ok (i j : nat) (hs : list (HunkShift.DiffHunk * list str)) : Prop :=
  hunks_ok (Z.of_nat i + 1) (map fst hs) ∧
  Forall (λ '(h, added), Z.of_nat (length added) = new_count h) hs ∧
  Forall (λ '(h, _), old_next h <= Z.of_nat (length ol) + 1) hs ∧
  total_new (map fst hs) <= Z.of_nat (length nl - j) ∧
  patched (Z.of_nat i + 1) (drop i ol) hs = drop j nl.

(** One hunk that replaces [k] lines at [i] by [l] lines at [j]. *)
Lemma changes_step h i j k l hs :
  first_gone h = Z.of_nat i + 1 → old_next h = Z.of_nat i + 1 + Z.of_nat k →
  is_u32 (old_start h) → 0 <= old_count h → new_count h = Z.of_nat l →
  (i + k ≤ length ol)%nat → (j + l ≤ length nl)%nat →
  changes_ok (i + k) (j + l) hs → changes_ok i j ((h, slice j (j + l) nl) :: hs).
Proof.
  intros Hf Hn Hs Hc Hl Hi Hj (H1 & H2 & H3 & H4 & H5). unfold changes_ok.
  cbn [map fst hunks_ok total_new foldr patched]. change (foldr _ 0 ?x) with (total_new x).
  replace (Z.of_nat (i + k) + 1) with (old_next h) in * by lia. split_and!; try done || lia.
  - constructor; [|done]. rewrite length_slice by lia. lia.
  - constructor; [|done]. lia.
  - rewrite Hf, Z.sub_diag. cbn [Z.to_nat take app].
    rewrite drop_drop, Hn. replace (Z.to_nat (_ - _)) with k by lia.
    rewrite <-Hn, H5. rewrite <-!(slice_to_end _ nl). apply slice_app; lia.
Qed.

Lemma ops_changes i j ops : ops_tile ol nl i j ops → changes_ok i j (omap op_change ops).
Proof.
  revert i j. induction ops as [|op ops IH]; intros i j; cbn [ops_tile omap list_omap].
  { intros [-> ->]. unfold changes_ok. simpl. rewrite !drop_all. split_and!; done || lia. }
  destruct op as [o n l|o ol' n|o n l|o ol' n l]; unfold op_change at 1; cbn [op_hunk].
  - intros (-> & -> & Hl & Ho & Hn & E & Ht). destruct (IH _ _ Ht) as (H1 & H2 & H3 & H4 & H5).
    assert (length (slice i (i + l) ol) = l) as Hlen by (rewrite length_slice; lia).
    assert (Z.of_nat i + 1 + Z.of_nat (length (slice i (i + l) ol)) = Z.of_nat (i + l) + 1) as Hp by lia.
    split_and!; try done || lia; [by eapply hunks_ok_weaken; [|exact H1]; lia|].
    rewrite <-(slice_to_end i ol), <-(slice_app i (i + l)) by lia.
    rewrite patched_prefix, Hp by by rewrite Hp.
    rewrite slice_to_end, H5, E. rewrite <-!(slice_to_end _ nl). apply slice_app; lia.
  - intros (-> & -> & Hl & Ho & Ht). pose proof (tile_bounds _ _ _ _ _ Ht).
    rewrite <-(Nat.add_0_r j) in Ht.
    assert ([] = slice j (j + 0)%nat nl) as -> by (rewrite Nat.add_0_r; symmetry; apply slice_nil).
    apply (changes_step _ i j ol' 0); [..|by apply IH];
      unfold first_gone, old_next, first_gone, is_u32; cbn [old_start old_count new_count];
      rewrite ?as_u32_succ, ?as_u32_small by lia; try lia;
      destruct (Z.eqb_spec (Z.of_nat ol') 0); lia.
  - intros (-> & -> & Hl & Hn & Ht). pose proof (tile_bounds _ _ _ _ _ Ht).
    rewrite <-(Nat.add_0_r i) in Ht.
    apply (changes_step _ i j 0 l); [..|by apply IH];
      unfold first_gone, old_next, first_gone, is_u32; cbn [old_start old_count new_count];
      rewrite ?as_u32_small by lia; simpl; lia.
  - intros (-> & -> & Hl & Hl' & Ho & Hn & Ht).
    apply (changes_step _ i j ol' l); [..|by apply IH];
      unfold first_gone, old_next, first_gone, is_u32; cbn [old_start old_count new_count];
      rewrite ?as_u32_succ, ?as_u32_small by lia; try lia;
      destruct (Z.eqb_spec (Z.of_nat ol') 0); lia.
Qed.
End Hunks.

(** *** The functions as a whole *)

Lemma line_sequence_contains_spec a b :
  line_sequence_contains a b = true ↔
  sublist (norm_lines (split_lines_preserving_terminators a))
          (norm_lines (split_lines_preserving_terminators b)).
Proof.
  unfold line_sequence_contains. rewrite !cmp_lines.
  destruct (norm_lines (split_lines_preserving_terminators a)) as [|n ns]; [|apply contains_loop_spec].
  split; [intros _; apply sublist_nil_l|done].
Qed.

(** The reference of the merge of three texts. *)
Definition merge_texts `{engine : !DiffEngine} (parent committed observed : str) : str :=
  let ls := split_lines_preserving_terminators in
  let base := norm_lines (ls parent) in
  concat (diff3 (ls parent) (ls committed) (ls observed)
    (anchors_from (length base) (align_to_base base (norm_lines (ls committed)))
       (align_to_base base (norm_lines (ls observed))) 0) 0 0 0).

Lemma merge_lines_spec `{engine : !DiffEngine} {E} (base committed observed : list str) :
  let cm := align_to_base (norm_lines base) (norm_lines committed) in
  let om := align_to_base (norm_lines base) (norm_lines observed) in
  merge_loop (E := E) base committed observed (norm_lines base) (norm_lines committed)
    (norm_lines observed) cm om (S (length base)) 0 0 0 =
  Ret (diff3 base committed observed (anchors_from (length base) cm om 0) 0 0 0).
Proof.
  intros cm om. destruct (align_increasing (norm_lines base) (norm_lines committed)) as (Hc & _ & Hl).
  destruct (align_increasing (norm_lines base) (norm_lines observed)) as (Ho & _ & _).
  rewrite norm_lines_length in Hc, Ho, Hl.
  apply merge_loop_spec; [done|done|done|lia|lia|]. split_and!; lia.
Qed.

(** *** Conflict markers *)

(** A stretch of lines: text outside conflicts, or a conflict with the
    target's lines, the common ancestor's if the style shows them, and the
    local lines. *)
Inductive block :=
  | Plain (ls : list str)
  | Conflict (target : str) (theirs : list str) (ancestor : option (str * list str))
      (separator : str) (ours : list str) (local : str).

Definition block_lines (b : block) : list str :=
  match b with
  | Plain ls => ls
  | Conflict target theirs ancestor separator ours local =>
      (lit "<<<<<<<" ++ target) :: theirs ++
      match ancestor with Some (name, ls) => (lit "|||||||" ++ name) :: ls | None => [] end ++
      (lit "=======" ++ separator) :: ours ++ [lit ">>>>>>>" ++ local]
  end.

Definition kept (b : block) : list str :=
  match b with Plain ls => ls | Conflict _ _ _ _ ours _ => ours end.

Definition no_marker (l : str) : Prop :=
  starts_with (lit "<<<<<<<") l = false ∧ starts_with (lit "|||||||") l = false ∧
  starts_with (lit "=======") l = false ∧ starts_with (lit ">>>>>>>") l = false.

Definition block_ok (b : block) : Prop :=
  match b with
  | Plain ls => Forall (λ l, starts_with (lit "<<<<<<<") l = false) ls
  | Conflict _ theirs ancestor _ ours _ =>
      Forall no_marker theirs ∧ Forall no_marker ours ∧
      match ancestor with Some (_, ls) => Forall no_marker ls | None => True end
  end.

Lemma starts_with_marker p r : starts_with p (p ++ r) = true.
Proof. apply starts_with_spec. by exists r. Qed.

Lemma starts_with_head c p d s : c ≠ d → starts_with (c :: p) (d :: s) = false.
Proof. intros H. unfold starts_with. simpl. by rewrite bool_decide_false. Qed.

Lemma strip_plain ls rest :
  Forall (λ l, starts_with (lit "<<<<<<<") l = false) ls →
  strip_loop false false (ls ++ rest) = ls ++ strip_loop false false rest.
Proof.
  induction 1 as [|l ls Hl _ IH]; [done|]. cbn [app strip_loop]. rewrite Hl. simpl. by rewrite IH.
Qed.

Lemma strip_inside (in_ours : bool) ls rest :
  Forall no_marker ls →
  strip_loop true in_ours (ls ++ rest) = (if in_ours then ls else []) ++ strip_loop true in_ours rest.
Proof.
  induction 1 as [|l ls (H1 & H2 & H3 & H4) _ IH]; [by destruct in_ours|].
  cbn [app strip_loop]. rewrite H1, H2, H3, H4. destruct in_ours; simpl; by rewrite IH.
Qed.

Lemma strip_markers target name separator local (in_ours : bool) rest :
  strip_loop false false ((lit "<<<<<<<" ++ target) :: rest) = strip_loop true false rest ∧
  strip_loop true in_ours ((lit "|||||||" ++ name) :: rest) = strip_loop true false rest ∧
  strip_loop true in_ours ((lit "=======" ++ separator) :: rest) = strip_loop true true rest ∧
  strip_loop true in_ours ((lit ">>>>>>>" ++ local) :: rest) = strip_loop false false rest.
Proof. done. Qed.

Lemma strip_block b rest :
  block_ok b → strip_loop false false (block_lines b ++ rest) = kept b ++ strip_loop false false rest.
Proof.
  destruct b as [ls|target theirs ancestor separator ours local]; [apply strip_plain|].
  intros (Ht & Ho & Ha). cbn [block_lines kept]. rewrite <-app_comm_cons, <-!app_assoc.
  rewrite (proj1 (strip_markers target [] [] [] false _)), strip_inside by done. cbn [app].
  destruct ancestor as [[name ls]|]; cbn [app].
  - rewrite (proj1 (proj2 (strip_markers [] name [] [] false _))), strip_inside by done. cbn [app].
    rewrite (proj1 (proj2 (proj2 (strip_markers [] [] separator [] false _)))), <-app_assoc.
    by rewrite strip_inside.
  - rewrite (proj1 (proj2 (proj2 (strip_markers [] [] separator [] false _)))), <-app_assoc.
    by rewrite strip_inside.
Qed.

Lemma strip_blocks bs :
  Forall block_ok bs → strip_loop false false (flat_map block_lines bs) = flat_map kept bs.
Proof.
  induction 1 as [|b bs Hb _ IH]; [done|]. cbn [flat_map]. by rewrite strip_block, IH.
Qed.

(** A text whose lines end in [eol]. *)
Definition text_of (eol : str) (ls : list str) : str := flat_map (λ l, l ++ eol) ls.

Lemma lines_text_of eol ls :
  eol = [LF] ∨ eol = [CR; LF] → Forall (λ l, LF ∉ l ∧ CR ∉ l) ls → lines (text_of eol ls) = ls.
Proof.
  intros Heol. unfold text_of. induction 1 as [|l ls [H1 H2] _ IH]; [done|]. cbn [flat_map].
  rewrite <-app_assoc. destruct Heol as [-> | ->]; cbn [app].
  - rewrite lines_line by done. by rewrite IH, strip_cr_id.
  - change (l ++ CR :: LF :: ?x) with (l ++ [CR] ++ LF :: x). rewrite app_assoc.
    rewrite lines_line by (apply not_elem_of_app; split; [done|set_solver]).
    rewrite IH. f_equal. unfold strip_cr. rewrite rev_app_distr. simpl. by rewrite rev_involutive.
Qed.

Lemma text_of_ends ls eol : eol = [LF] ∨ eol = [CR; LF] → ls ≠ [] → ends_with [LF] (text_of eol ls) = true.
Proof.
  intros Heol Hne. destruct (exists_last Hne) as (ls' & l & ->). unfold text_of, ends_with.
  rewrite flat_map_app. cbn [flat_map]. rewrite app_nil_r, !rev_app_distr.
  destruct Heol as [-> | ->]; reflexivity.
Qed.

Lemma join_text_of ls : ls ≠ [] → join_with [LF] ls ++ [LF] = text_of [LF] ls.
Proof.
  induction ls as [|l ls IH]; [done|]. intros _. unfold text_of in *. cbn [flat_map].
  destruct ls as [|l' ls]; [by rewrite app_nil_r|]. rewrite <-IH by done.
  change (join_with [LF] (l :: l' :: ls)) with (l ++ [LF] ++ join_with [LF] (l' :: ls)).
  by rewrite <-!app_assoc.
Qed.

End CarryoverFacts.

(** ** Properties *)

Module CarryoverProps.
Import LineRange Attribution AttributionFacts HunkShift HunkShiftFacts ImaraDiff ImaraDiffFacts CoarseEngine.
Import Carryover CarryoverFacts.

(** C9: reconciling the uncommitted text with a commit never panics, and
    implements the three-way merge: equal texts up to line ends give the
    committed one; a text whose lines contain the other's in order wins; a
    side equal to the parent gives the other side; otherwise the texts are cut
    at the base lines that both diffs keep, and each region between them is
    resolved on its own, the observed side winning conflicts. *)
Theorem carryover_is_three_way_merge `{engine : !DiffEngine} (E : Type) (parent committed observed : str) :
  let ls s := norm_lines (split_lines_preserving_terminators s) in
  let same a b := normalize_line_endings a = normalize_line_endings b in
  ∃ r, merged_carryover_content_pure (E := E) parent committed observed = Ret r ∧
    (same committed observed → r = committed) ∧
    (¬ same committed observed →
      (sublist (ls committed) (ls observed) → r = observed) ∧
      (¬ sublist (ls committed) (ls observed) →
        (sublist (ls observed) (ls committed) → r = committed) ∧
        (¬ sublist (ls observed) (ls committed) →
          (same committed parent → r = observed) ∧
          (¬ same committed parent →
            (same observed parent → r = committed) ∧
            (¬ same observed parent → r = merge_texts parent committed observed))))).
Proof.
  cbv zeta. unfold merged_carryover_content_pure, carryover_merge_content.
  rewrite !content_eq_spec, !cmp_lines, merge_lines_spec. cbn [obind].
  pose proof (line_sequence_contains_spec committed observed) as Hco.
  pose proof (line_sequence_contains_spec observed committed) as Hoc.
  unfold merge_texts. rewrite norm_lines_length.
  destruct (line_sequence_contains committed observed), (line_sequence_contains observed committed);
    repeat case_bool_decide; eexists; (split; [reflexivity|]); naive_solver.
Qed.

(** moving line attributions of one text to another by the hunks between
    them keeps each attribution on lines with the same text, up to line ends;
    no attribution appears on a line the diff does not keep. *)
Theorem carried_lines_follow_text `{engine : !DiffEngine} (old new : str) (attrs : list LineAttribution) :
  let old_lines := norm_lines (split_lines_preserving_terminators old) in
  let new_lines := norm_lines (split_lines_preserving_terminators new) in
  let hunks := diff_hunks_between_contents old new in
  (Z.of_nat (length old_lines) < u32_max)%Z → (Z.of_nat (length new_lines) < u32_max)%Z →
  Forall (λ a, 1 <= start_line a <= u32_max ∧ 0 <= end_line a ∧
               end_line a + Z.of_nat (length new_lines) <= u32_max)%Z attrs →
  ∀ author prev n,
    (∃ a, a ∈ apply_hunk_shifts_to_line_attributions attrs hunks ∧
       line_author_id a = author ∧ overrode a = prev ∧ covers_line a n = true) ↔
    ∃ a o, a ∈ attrs ∧ line_author_id a = author ∧ overrode a = prev ∧ covers_line a o = true ∧
       line_after 0 hunks o = Some n ∧
       new_lines !! Z.to_nat (n - 1) = old_lines !! Z.to_nat (o - 1).
Proof.
  intros old_lines new_lines hunks Hol Hnl Hfit author prev n.
  pose proof (hunks_loop_tile old_lines new_lines 0 0 _ (diff_slices_valid _ _ old_lines new_lines)) as Ht.
  destruct (ops_changes old_lines new_lines Hol Hnl 0 0 _ Ht) as (H1 & H2 & H3 & H4 & H5).
  rewrite op_change_fst in H1, H4. rewrite Nat.sub_0_r in H4.
  assert (hunks = omap op_hunk (hunks_loop 0 0 (diff_slices _ _ old_lines new_lines) (length old_lines)))
    as Hh by (unfold hunks, diff_hunks_between_contents; by rewrite !cmp_lines).
  rewrite <-Hh in H1, H4. rewrite (shift_line_attributions_spec attrs hunks); [|done|].
  2:{ eapply Forall_impl; [exact Hfit|]. intros a. unfold range_fits, is_u32. lia. }
  enough (∀ a o, a ∈ attrs → covers_line a o = true → line_after 0 hunks o = Some n →
    new_lines !! Z.to_nat (n - 1) = old_lines !! Z.to_nat (o - 1)) by naive_solver.
  intros a o Ha Ho Hn. rewrite Forall_forall in Hfit. specialize (Hfit a Ha). apply covers_line_true in Ho.
  rewrite Hh, <-(op_change_fst new_lines) in Hn.
  apply (line_after_text _ 1 0 old_lines) in Hn; [|by rewrite op_change_fst, <-Hh|done| |lia].
  - destruct Hn as [_ Hn]. change (Z.of_nat 0 + 1)%Z with 1%Z in H5. rewrite !drop_0 in H5.
    rewrite H5, Z.add_0_r in Hn. done.
  - eapply Forall_impl; [exact H3|]. intros [h a']. lia.
Qed.

(** removing conflict markers keeps the text outside conflicts and, of
    each conflict, the local side, whatever the conflict style; every line
    then ends in a line feed, also in a file whose lines end in CRLF. *)
Theorem strip_keeps_local_side (eol : str) (blocks : list block) :
  eol = [LF] ∨ eol = [CR; LF] →
  Forall block_ok blocks → Forall (λ l, LF ∉ l ∧ CR ∉ l) (flat_map block_lines blocks) →
  flat_map kept blocks ≠ [] →
  strip_conflict_markers_keep_ours (text_of eol (flat_map block_lines blocks)) =
  text_of [LF] (flat_map kept blocks).
Proof.
  intros Heol Hok Hl Hne. unfold strip_conflict_markers_keep_ours.
  rewrite lines_text_of, strip_blocks by done. rewrite text_of_ends by
    (done || (intros E; apply Hne; rewrite <-strip_blocks, E by done; done)).
  by apply join_text_of.
Qed.

(** *** Witnesses *)

Definition nl_text (l : string) : str := lit l ++ [LF].

Lemma carryover_is_three_way_merge_witness :
  @merged_carryover_content_pure coarse_engine Empty_set (nl_text "p") (nl_text "c") (nl_text "o") =
  Ret (nl_text "o").
Proof.
  destruct (@carryover_is_three_way_merge coarse_engine Empty_set (nl_text "p") (nl_text "c") (nl_text "o"))
    as (r & Hr & _).
  etransitivity; [exact Hr|]. rewrite <-Hr. reflexivity.
Defined.

Lemma carried_lines_follow_text_witness :
  ∃ a, a ∈ apply_hunk_shifts_to_line_attributions [mkLineAttr 1 2 (lit "s_a::t") None]
             (@diff_hunks_between_contents coarse_engine (nl_text "x" ++ nl_text "y") (nl_text "x" ++ nl_text "y")) ∧
    line_author_id a = lit "s_a::t" ∧ overrode a = None ∧ covers_line a 2 = true.
Proof.
  apply (@carried_lines_follow_text coarse_engine (nl_text "x" ++ nl_text "y") (nl_text "x" ++ nl_text "y")
    [mkLineAttr 1 2 (lit "s_a::t") None]).
  - vm_compute. reflexivity.
  - vm_compute. reflexivity.
  - repeat constructor; vm_compute; discriminate.
  - exists (mkLineAttr 1 2 (lit "s_a::t") None), 2%Z. split; [left|]. split_and!; reflexivity.
Defined.

Definition sample_blocks : list block :=
  [Plain [lit "fn main"; lit "======="];
   Conflict (lit " feature") [lit "theirs"] (Some (lit " base", [lit "shared"])) [] [lit "ours"] (lit " local");
   Plain [lit "end"]].

Lemma strip_keeps_local_side_witness :
  strip_conflict_markers_keep_ours (text_of [CR; LF] (flat_map block_lines sample_blocks)) =
  text_of [LF] [lit "fn main"; lit "======="; lit "ours"; lit "end"].
Proof.
  apply (strip_keeps_local_side [CR; LF] sample_blocks).
  - right. reflexivity.
  - repeat constructor.
  - repeat constructor; apply not_elem_of_In || idtac; vm_compute; set_solver.
  - discriminate.
Defined.

End CarryoverProps.
