(* ===== verification/HashIter.v ===== *)
(** * Iteration over maps

    The loops of the code over [HashMap]s see their entries in an order nobody
    may rely on: the class [HashOrder] gives one, and theorems are proved for
    all of them.  [BTreeMap]s are iterated in the order of their keys. *)

From S2P Require Import Prelude.

Module HashIter.

(** The order in which a map with the given entries is iterated. *)
Class HashOrder := {
  shuffle : ∀ {A : Type}, list (str * A) → list (str * A);
  shuffle_perm : ∀ (A : Type) (l : list (str * A)), shuffle l ≡ₚ l
}.

Definition hash_iter `{HashOrder} {A : Type} (m : gmap str A) : list (str * A) := shuffle (map_to_list m).
Definition hash_keys `{HashOrder} {A : Type} (m : gmap str A) : list str := map fst (hash_iter m).
Definition hash_values `{HashOrder} {A : Type} (m : gmap str A) : list A := map snd (hash_iter m).
Definition set_iter `{HashOrder} (s : gset str) : list str :=
  map fst (shuffle (map (λ k, (k, tt)) (elements s))).

(** The order of [String]s. *)
Definition str_le (a b : str) : bool :=
  match str_compare a b with Gt => false | _ => true end.
Definition key_le {A : Type} (x y : str * A) : bool := str_le x.1 y.1.

(** [BTreeMap::iter]. *)
Definition btree_iter {A : Type} (m : gmap str A) : list (str * A) := sort_by key_le (map_to_list m).

(** [BTreeMap::values().next()]. *)
Definition first_value {A : Type} (m : gmap str A) : option A := snd <$> head (btree_iter m).

(** [map.entry(k).or_default().extend(xs)] on a map of lists. *)
Definition extend {A : Type} (m : gmap str (list A)) (k : str) (xs : list A) : gmap str (list A) :=
  <[k := default [] (m !! k) ++ xs]> m.

(** Two orders: as the entries come and reversed. *)
Definition in_order : HashOrder.
Proof. by refine {| shuffle := λ _ l, l |}. Defined.

Definition reversed : HashOrder.
Proof. refine {| shuffle := λ _ l, reverse l |}. intros. apply reverse_Permutation. Defined.

End HashIter.

(** ** Lemmas *)

Module HashIterFacts.
Import HashIter.

Lemma str_eqb_refl a : str_eqb a a = true.
Proof. by apply str_eqb_eq. Qed.

Lemma hash_iter_perm `{HashOrder} {A} (m : gmap str A) : hash_iter m ≡ₚ map_to_list m.
Proof. apply shuffle_perm. Qed.

Lemma elem_of_hash_iter `{HashOrder} {A} (m : gmap str A) k x : (k, x) ∈ hash_iter m ↔ m !! k = Some x.
Proof. by rewrite hash_iter_perm, elem_of_map_to_list. Qed.

Lemma elem_of_hash_keys `{HashOrder} {A} (m : gmap str A) k : k ∈ hash_keys m ↔ is_Some (m !! k).
Proof.
  unfold hash_keys, is_Some. rewrite list_elem_of_fmap. setoid_rewrite <-elem_of_hash_iter. split.
  - intros ([k' x] & -> & Hx). eauto.
  - intros [x Hx]. by exists (k, x).
Qed.

Lemma elem_of_hash_values `{HashOrder} {A} (m : gmap str A) x : x ∈ hash_values m ↔ ∃ k, m !! k = Some x.
Proof.
  unfold hash_values. rewrite list_elem_of_fmap. setoid_rewrite <-elem_of_hash_iter. split.
  - intros ([k x'] & -> & Hx). eauto.
  - intros [k Hx]. by exists (k, x).
Qed.

Lemma elem_of_set_iter `{HashOrder} (s : gset str) k : k ∈ set_iter s ↔ k ∈ s.
Proof.
  unfold set_iter. rewrite shuffle_perm, map_map, map_id. apply elem_of_elements.
Qed.

Lemma hash_iter_NoDup `{HashOrder} {A} (m : gmap str A) : NoDup (hash_iter m).*1.
Proof. rewrite hash_iter_perm. apply NoDup_fst_map_to_list. Qed.

Lemma str_le_trans a b c : str_le a b = true → str_le b c = true → str_le a c = true.
Proof.
  unfold str_le. destruct (str_compare a b) eqn:E1, (str_compare b c) eqn:E2; try done.
  - apply str_compare_eq in E1 as ->. by rewrite E2.
  - apply str_compare_eq in E1 as ->. by rewrite E2.
  - apply str_compare_eq in E2 as ->. by rewrite E1.
  - by rewrite (str_compare_lt_trans a b c).
Qed.

Lemma str_le_total a b : str_le a b = true ∨ str_le b a = true.
Proof. unfold str_le. rewrite (str_compare_antisym a b). destruct (str_compare a b); auto. Qed.

Lemma str_le_antisym a b : str_le a b = true → str_le b a = true → a = b.
Proof.
  unfold str_le. rewrite (str_compare_antisym a b). destruct (str_compare a b) eqn:E; try done.
  intros _ _. by apply str_compare_eq.
Qed.

(** A sort by distinct keys does not depend on the order of its input. *)
Lemma sort_by_key_unique {A} (f : A → str) l l' :
  (∀ x y, x ∈ l → y ∈ l → f x = f y → x = y) → l ≡ₚ l' →
  sort_by (λ a b, str_le (f a) (f b)) l = sort_by (λ a b, str_le (f a) (f b)) l'.
Proof.
  intros Hf Hp. apply (StronglySorted_unique_strong (λ a b, str_le (f a) (f b) = true)).
  - intros x y Hx Hy H1 H2. rewrite elem_of_sort_by in Hx, Hy. rewrite <-Hp in Hy.
    apply Hf; [done..|]. by apply str_le_antisym.
  - apply sort_by_sorted; intros *; [apply str_le_trans|apply str_le_total].
  - apply sort_by_sorted; intros *; [apply str_le_trans|apply str_le_total].
  - by rewrite !sort_by_perm.
Qed.

(** Lines collected per key, in the order they come. *)
Lemma fold_extend_lookup {A B} (f : A → option (str * B)) (l : list A) (m : gmap str (list B)) k :
  default [] (foldl (λ m a, match f a with Some (k, b) => extend m k [b] | None => m end) m l !! k) =
  default [] (m !! k) ++
  omap (λ a, match f a with Some (k', b) => if str_eqb k' k then Some b else None | None => None end) l.
Proof.
  revert m. induction l as [|a l IH]; intros m; simpl; [by rewrite app_nil_r|].
  rewrite IH. destruct (f a) as [[k' b]|]; simpl; [|done]. unfold extend.
  destruct (str_eqb k' k) eqn:E.
  - apply str_eqb_eq in E as ->. rewrite lookup_insert_eq. simpl. by rewrite <-app_assoc.
  - rewrite lookup_insert_ne; [done|]. intros ->. by rewrite str_eqb_refl in E.
Qed.

Lemma fold_extend_nonempty {A B} (f : A → option (str * B)) (l : list A) (m : gmap str (list B)) k bs :
  (∀ bs, m !! k = Some bs → bs ≠ []) →
  foldl (λ m a, match f a with Some (k, b) => extend m k [b] | None => m end) m l !! k = Some bs → bs ≠ [].
Proof.
  revert m. induction l as [|a l IH]; intros m Hm; simpl; [apply Hm|].
  apply IH. intros bs'. destruct (f a) as [[k' b]|]; [|apply Hm]. unfold extend.
  rewrite lookup_insert_Some. intros [[-> <-]|[_ H]]; [|by eapply Hm].
  intros E. by apply app_eq_nil in E as [_ ?].
Qed.

Lemma elem_of_btree_iter {A : Type} (m : gmap str A) k x : (k, x) ∈ btree_iter m ↔ m !! k = Some x.
Proof. unfold btree_iter. by rewrite elem_of_sort_by, elem_of_map_to_list. Qed.

Lemma btree_iter_NoDup {A : Type} (m : gmap str A) : NoDup (btree_iter m).*1.
Proof. unfold btree_iter. rewrite sort_by_perm. apply NoDup_fst_map_to_list. Qed.

End HashIterFacts.
