(* ===== verification/DiffTree.v ===== *)
(** * Reading diff-tree

    The readers of src/src/authorship/rewrite.rs for the output of [git
    diff-tree --stdin -p -U0 -M]: [DiffTreeChunkParser] for the patch of one
    pair of trees, [BatchedDiffTreeParser] for many pairs, each after a line
    with its two trees.  Both are fed line by line. *)

From S2P Require Import Prelude Text HunkShift HashIter PatchParse.

Local Open Scope Z_scope.

Module DiffTree.
Import HunkShift HashIter.

Record DiffHunkContents := mkContents { deleted : list str; added : list str }.

Record DiffTreeResult := mkDiffTree {
  hunks_by_file : gmap str (list DiffHunk);
  hunk_contents_by_file : gmap str (list DiffHunkContents);
  added_lines_by_file : gmap str (list Z);
  renames : list (str * str)
}.

(** [DiffTreeResult::default]. *)
Definition empty_result : DiffTreeResult := mkDiffTree ∅ ∅ ∅ [].

(** What follows the last occurrence of a marker. *)
Fixpoint after_last (marker s : str) : option str :=
  match s with
  | [] => strip_prefix marker s
  | _ :: s' =>
      match after_last marker s' with
      | Some rest => Some rest
      | None => strip_prefix marker s
      end
  end.

Definition extract_b_path (diff_header : str) : option str := after_last (lit " b/") diff_header.

(** [u8::is_ascii_hexdigit]. *)
Definition is_hexdigit (c : ascii) : bool :=
  let n := N_of_ascii c in
  ((48 <=? n) && (n <=? 57) || (97 <=? n) && (n <=? 102) || (65 <=? n) && (n <=? 70))%N.

Definition is_valid_git_oid (value : str) : bool :=
  ((length value =? 40)%nat || (length value =? 64)%nat) && forallb is_hexdigit value.

Definition is_tree_pair_separator (line : str) : bool :=
  match split_once (lit " ") line with
  | Some (old, new) => is_valid_git_oid old && is_valid_git_oid new
  | None => false
  end.

(** ** One pair *)

Record DiffTreeChunkParser := mkChunk {
  c_hunks : gmap str (list DiffHunk);
  c_contents : gmap str (list DiffHunkContents);
  c_added : gmap str (list Z);
  c_renames : list (str * str);
  current_file : option str;
  current_rename_from : option str;
  active_hunk_new_line : option Z
}.

Definition empty_chunk : DiffTreeChunkParser := mkChunk ∅ ∅ ∅ [] None None None.

(** [get_mut(file).and_then(last_mut)] and an update of what it gives. *)
Fixpoint update_last {A : Type} (f : A → A) (l : list A) : list A :=
  match l with
  | [] => []
  | [x] => [f x]
  | x :: l' => x :: update_last f l'
  end.

Definition update_contents (f : DiffHunkContents → DiffHunkContents) (m : gmap str (list DiffHunkContents)) (file : str) :
    gmap str (list DiffHunkContents) :=
  match m !! file with Some l => <[file := update_last f l]> m | None => m end.

Definition push_added (line : str) (c : DiffHunkContents) : DiffHunkContents := mkContents (deleted c) (added c ++ [line]).
Definition push_deleted (line : str) (c : DiffHunkContents) : DiffHunkContents := mkContents (deleted c ++ [line]) (added c).

(** A line inside a hunk. *)
Definition feed_body (p : DiffTreeChunkParser) (new_line : Z) (line : str) : DiffTreeChunkParser :=
  match strip_prefix (lit "+") line with
  | Some added_line =>
      match current_file p with
      | Some file =>
          mkChunk (c_hunks p) (update_contents (push_added added_line) (c_contents p) file)
            (extend (c_added p) file [new_line]) (c_renames p) (current_file p) (current_rename_from p)
            (Some (u32_add new_line 1))
      | None =>
          mkChunk (c_hunks p) (c_contents p) (c_added p) (c_renames p) (current_file p) (current_rename_from p)
            (Some (u32_add new_line 1))
      end
  | None =>
      match strip_prefix (lit "-") line with
      | Some deleted_line =>
          match current_file p with
          | Some file =>
              mkChunk (c_hunks p) (update_contents (push_deleted deleted_line) (c_contents p) file) (c_added p)
                (c_renames p) (current_file p) (current_rename_from p) (active_hunk_new_line p)
          | None => p
          end
      | None =>
          if starts_with (lit "\") line then p
          else mkChunk (c_hunks p) (c_contents p) (c_added p) (c_renames p) (current_file p) (current_rename_from p)
                 (Some (u32_add new_line 1))
      end
  end.

Definition feed_rest (p : DiffTreeChunkParser) (line : str) : DiffTreeChunkParser :=
  match active_hunk_new_line p with
  | Some new_line => feed_body p new_line line
  | None => p
  end.

Definition feed_line (p : DiffTreeChunkParser) (line : str) : DiffTreeChunkParser :=
  match strip_prefix (lit "diff --git ") line with
  | Some rest =>
      mkChunk (c_hunks p) (c_contents p) (c_added p) (c_renames p) (extract_b_path rest) None None
  | None =>
      match strip_prefix (lit "rename from ") line with
      | Some from_path =>
          mkChunk (c_hunks p) (c_contents p) (c_added p) (c_renames p) (current_file p) (Some from_path) None
      | None =>
          match strip_prefix (lit "rename to ") line with
          | Some to_path =>
              match current_rename_from p with
              | Some from_path =>
                  mkChunk (c_hunks p) (c_contents p) (c_added p) (c_renames p ++ [(from_path, to_path)]) (current_file p)
                    None (active_hunk_new_line p)
              | None => p
              end
          | None =>
              match (if starts_with (lit "@@") line then
                       try file := current_file p in
                       try hunk := parse_hunk_header line in
                       Some (file, hunk)
                     else None) with
              | Some (file, hunk) =>
                  mkChunk (extend (c_hunks p) file [hunk]) (extend (c_contents p) file [mkContents [] []]) (c_added p)
                    (c_renames p) (current_file p) (current_rename_from p) (Some (new_start hunk))
              | None => feed_rest p line
              end
          end
      end
  end.

(** [sort_unstable] and [dedup] of the lines of each file. *)
Definition sort_lines (m : gmap str (list Z)) : gmap str (list Z) := (λ l, dedup Z.eqb (sort_by Z.leb l)) <$> m.

Definition finish (p : DiffTreeChunkParser) : DiffTreeResult :=
  mkDiffTree (c_hunks p) (c_contents p) (sort_lines (c_added p)) (c_renames p).

(** ** Many pairs *)

Record BatchedDiffTreeParser := mkBatched {
  expected_pairs : nat;
  results : list DiffTreeResult;
  current : DiffTreeChunkParser;
  seen_first_header : bool
}.

Definition new_parser (expected_pairs : nat) : BatchedDiffTreeParser := mkBatched expected_pairs [] empty_chunk false.

Definition batched_feed_line (p : BatchedDiffTreeParser) (line : str) : BatchedDiffTreeParser :=
  if is_tree_pair_separator line then
    if seen_first_header p then mkBatched (expected_pairs p) (results p ++ [finish (current p)]) empty_chunk true
    else mkBatched (expected_pairs p) (results p) (current p) true
  else if seen_first_header p then
    mkBatched (expected_pairs p) (results p) (feed_line (current p) line) (seen_first_header p)
  else p.

Definition completed_count (p : BatchedDiffTreeParser) : nat := length (results p).

(** The results so far and the parser without them. *)
Definition take_completed (p : BatchedDiffTreeParser) : list DiffTreeResult * BatchedDiffTreeParser :=
  (results p, mkBatched (expected_pairs p - length (results p))%nat [] (current p) (seen_first_header p)).

(** All the results, padded, and the parser left. *)
Definition take_all (p : BatchedDiffTreeParser) : list DiffTreeResult * BatchedDiffTreeParser :=
  let p := if seen_first_header p
           then mkBatched (expected_pairs p) (results p ++ [finish (current p)]) empty_chunk false else p in
  (results p ++ replicate (expected_pairs p - length (results p))%nat empty_result,
   mkBatched 0 [] (current p) (seen_first_header p)).

Definition batched_finish (p : BatchedDiffTreeParser) : list DiffTreeResult := (take_all p).1.

Definition parse_batched_diff_tree_output (output : str) (expected_pairs : nat) : list DiffTreeResult :=
  batched_finish (foldl batched_feed_line (new_parser expected_pairs) (lines output)).

End DiffTree.

(** ** What git writes *)

Module DiffTreeText.
Import HunkShift HashIter PatchText DiffTree.

(** A file of the patch: the text after [diff --git ], the lines of extended
    headers around those of a rename, and the hunks. *)
Record TreeFile := mkTreeFile {
  tf_names : str;
  tf_before : list str;
  tf_rename : option (str * str);
  tf_after : list str;
  tf_hunks : list HunkPatch
}.

Definition rename_lines (r : option (str * str)) : list str :=
  match r with
  | Some (from_path, to_path) => [lit "rename from " ++ from_path; lit "rename to " ++ to_path]
  | None => []
  end.

Definition tree_file_lines (tf : TreeFile) : list str :=
  (lit "diff --git " ++ tf_names tf) :: tf_before tf ++ rename_lines (tf_rename tf) ++ tf_after tf ++
  flat_map hunk_lines (tf_hunks tf).

(** Two trees and the patch between them. *)
Record TreePair := mkTreePair { old_tree : str; new_tree : str; tp_files : list TreeFile }.

Definition pair_lines (tp : TreePair) : list str :=
  (old_tree tp ++ [" "%char] ++ new_tree tp) :: flat_map tree_file_lines (tp_files tp).

Definition render_pairs (tps : list TreePair) : str := render_lines (flat_map pair_lines tps).

(** A line of an extended header the reader has no use for. *)
Definition plain_header (l : str) : Prop :=
  one_line l ∧ starts_with (lit "diff --git ") l = false ∧ starts_with (lit "rename from ") l = false ∧
  starts_with (lit "rename to ") l = false ∧ starts_with (lit "@@") l = false ∧ is_tree_pair_separator l = false.

Definition tree_file_ok (tf : TreeFile) : Prop :=
  one_line (tf_names tf) ∧ Forall plain_header (tf_before tf) ∧ Forall plain_header (tf_after tf) ∧
  (∀ from_path to_path, tf_rename tf = Some (from_path, to_path) → one_line from_path ∧ one_line to_path) ∧
  Forall hunk_ok (tf_hunks tf).

Definition tree_pair_ok (tp : TreePair) : Prop :=
  is_valid_git_oid (old_tree tp) = true ∧ is_valid_git_oid (new_tree tp) = true ∧
  Forall tree_file_ok (tp_files tp).

(** The hunks of the files whose new path is [path]. *)
Definition hunks_of (tfs : list TreeFile) (path : str) : list HunkPatch :=
  flat_map (λ tf, if bool_decide (extract_b_path (tf_names tf) = Some path) then tf_hunks tf else []) tfs.

Definition hunk_contents (hp : HunkPatch) : DiffHunkContents :=
  mkContents (map strip_cr (hp_deleted hp)) (map strip_cr (hp_added hp)).

Definition hunk_added (hp : HunkPatch) : list Z :=
  seqZ (new_start (hp_range hp)) (new_count (hp_range hp)).

(** The result reports the patch. *)
Definition reports (tfs : list TreeFile) (r : DiffTreeResult) : Prop :=
  (∀ path, hunks_by_file r !! path = Some (map hp_range (hunks_of tfs path)) ∨
           hunks_by_file r !! path = None ∧ hunks_of tfs path = []) ∧
  (∀ path, default [] (hunk_contents_by_file r !! path) = map hunk_contents (hunks_of tfs path)) ∧
  (∀ path, StronglySorted Z.lt (default [] (added_lines_by_file r !! path)) ∧
     ∀ line, line ∈ default [] (added_lines_by_file r !! path) ↔ line ∈ flat_map hunk_added (hunks_of tfs path)) ∧
  renames r = omap tf_rename tfs.

End DiffTreeText.

(** ** Lemmas *)

Module DiffTreeFacts.
Import HunkShift HunkShiftFacts HashIter PatchText PatchParseFacts DiffTree DiffTreeText.

Lemma after_last_none_cons marker c s :
  after_last marker s = None → strip_prefix marker (c :: s) = None → after_last marker (c :: s) = None.
Proof. intros H1 H2. cbn [after_last]. by rewrite H1. Qed.

Lemma after_last_app marker a b r : after_last marker b = Some r → after_last marker (a ++ b) = Some r.
Proof. intros H. induction a as [|c a IH]; [done|]. cbn [app after_last]. by rewrite IH. Qed.

(** What the reader has seen of a patch. *)
Record seen (tfs : list TreeFile) (p : DiffTreeChunkParser) : Prop := mkSeen {
  s_hunks : ∀ path, c_hunks p !! path = Some (map hp_range (hunks_of tfs path)) ∨
              c_hunks p !! path = None ∧ hunks_of tfs path = [];
  s_contents : ∀ path, default [] (c_contents p !! path) = map hunk_contents (hunks_of tfs path);
  s_added : ∀ path, default [] (c_added p !! path) = flat_map hunk_added (hunks_of tfs path);
  s_renames : c_renames p = omap tf_rename tfs
}.

Definition feed_lines (p : DiffTreeChunkParser) (ls : list str) : DiffTreeChunkParser := foldl feed_line p ls.

Lemma hunks_of_app tfs tfs' path : hunks_of (tfs ++ tfs') path = hunks_of tfs path ++ hunks_of tfs' path.
Proof. unfold hunks_of. by rewrite flat_map_app. Qed.

Lemma hunks_of_single tf path :
  hunks_of [tf] path = if bool_decide (extract_b_path (tf_names tf) = Some path) then tf_hunks tf else [].
Proof. unfold hunks_of. simpl. by rewrite app_nil_r. Qed.

Lemma lookup_extend {A} (m : gmap str (list A)) k k' xs :
  extend m k xs !! k' = if bool_decide (k = k') then Some (default [] (m !! k) ++ xs) else m !! k'.
Proof.
  unfold extend. case_bool_decide as E; [subst; apply lookup_insert_eq|by apply lookup_insert_ne].
Qed.

Lemma extend_extend {A} (m : gmap str (list A)) k xs ys : extend (extend m k xs) k ys = extend m k (xs ++ ys).
Proof. unfold extend. by rewrite lookup_insert_eq, insert_insert_eq, app_assoc. Qed.

Lemma update_last_snoc {A} (f : A → A) l x : update_last f (l ++ [x]) = l ++ [f x].
Proof.
  induction l as [|y l IH]; [done|]. cbn [app update_last]. rewrite IH. by destruct l.
Qed.

Lemma update_contents_extend f m file c :
  update_contents f (extend m file [c]) file = extend m file [f c].
Proof.
  unfold update_contents, extend. by rewrite lookup_insert_eq, insert_insert_eq, update_last_snoc.
Qed.

(** A character that is not in the marker separates its occurrences. *)
Lemma strip_prefix_none_app marker a c b :
  c ∉ marker → strip_prefix marker a = None → strip_prefix marker (a ++ c :: b) = None.
Proof.
  revert a. induction marker as [|m marker IH]; intros a Hc; [by destruct a|].
  apply not_elem_of_cons in Hc as [Hcm Hc]. destruct a as [|x a]; cbn.
  - intros _. by rewrite bool_decide_false by congruence.
  - case_bool_decide; [|done]. by apply IH.
Qed.

Lemma after_last_none_app marker a c b :
  c ∉ marker → marker ≠ [] → after_last marker a = None → after_last marker b = None → after_last marker (a ++ c :: b) = None.
Proof.
  intros Hc Hm. induction a as [|x a IH]; cbn [app after_last]; intros Ha Hb.
  - rewrite Hb. destruct marker as [|m marker]; [done|]. cbn. rewrite bool_decide_false; [done|]. intros ->. set_solver.
  - destruct (after_last marker a) eqn:E; [done|]. rewrite IH by done.
    by apply (strip_prefix_none_app marker (x :: a)).
Qed.

(** *** The lines of a hunk *)

(** A line that starts with none of the letters of a header. *)
Lemma feed_plain p c l :
  c ≠ "d"%char → c ≠ "r"%char → c ≠ "@"%char → feed_line p (c :: l) = feed_rest p (c :: l).
Proof.
  intros Hd Hr Ha. unfold feed_line. change (lit "diff --git ") with ("d"%char :: lit "iff --git ").
  change (lit "rename from ") with ("r"%char :: lit "ename from ").
  change (lit "rename to ") with ("r"%char :: lit "ename to "). change (lit "@@") with ("@"%char :: lit "@").
  by rewrite !strip_prefix_cons_ne, starts_with_cons_ne.
Qed.

(** The parser inside the last hunk of [file]. *)
Definition inside (p : DiffTreeChunkParser) (file : str) (h : DiffHunk) (dels adds : list str) (nums : list Z) (n : Z) :
    DiffTreeChunkParser :=
  mkChunk (extend (c_hunks p) file [h]) (extend (c_contents p) file [mkContents dels adds])
    (match nums with [] => c_added p | _ => extend (c_added p) file nums end)
    (c_renames p) (Some file) (current_rename_from p) (Some n).

Lemma feed_deleted p file h dels adds nums n l :
  feed_line (inside p file h dels adds nums n) ("-"%char :: l) = inside p file h (dels ++ [l]) adds nums n.
Proof.
  rewrite feed_plain by done. unfold feed_rest. cbn [active_hunk_new_line inside]. unfold feed_body.
  change (lit "+") with ["+"%char]. change (lit "-") with ["-"%char].
  rewrite strip_prefix_cons_ne by done. change ("-"%char :: l) with (["-"%char] ++ l). rewrite strip_prefix_app.
  unfold inside. cbn. by rewrite update_contents_extend.
Qed.

Lemma feed_added p file h dels adds nums n l :
  feed_line (inside p file h dels adds nums n) ("+"%char :: l) =
  inside p file h dels (adds ++ [l]) (nums ++ [n]) (u32_add n 1).
Proof.
  rewrite feed_plain by done. unfold feed_rest. cbn [active_hunk_new_line inside]. unfold feed_body.
  change (lit "+") with ["+"%char].
  change ("+"%char :: l) with (["+"%char] ++ l). rewrite strip_prefix_app.
  unfold inside. cbn. rewrite update_contents_extend. f_equal.
  destruct nums; cbn; [done|]. by rewrite extend_extend.
Qed.

Lemma feed_no_newline p b :
  is_Some (active_hunk_new_line p) → feed_lines p (no_newline b) = p.
Proof.
  intros [n Hn]. destruct b; [|done]. cbn [no_newline feed_lines foldl].
  change (lit "\ No newline at end of file") with ("\"%char :: lit " No newline at end of file").
  rewrite feed_plain by done. unfold feed_rest. by rewrite Hn.
Qed.

Lemma feed_all_deleted p file h dels adds nums n ls :
  feed_lines (inside p file h dels adds nums n) (map (cons "-"%char) ls) = inside p file h (dels ++ ls) adds nums n.
Proof.
  revert dels. induction ls as [|l ls IH]; intros dels; [by rewrite app_nil_r|].
  cbn [map feed_lines foldl]. rewrite feed_deleted. change (l :: ls) with ([l] ++ ls). rewrite app_assoc. apply IH.
Qed.

Lemma feed_all_added p file h dels adds nums n ls :
  0 <= n → n + Z.of_nat (length ls) <= u32_max →
  feed_lines (inside p file h dels adds nums n) (map (cons "+"%char) ls) =
  inside p file h dels (adds ++ ls) (nums ++ seqZ n (Z.of_nat (length ls))) (n + Z.of_nat (length ls)).
Proof.
  revert adds nums n. induction ls as [|l ls IH]; intros adds nums n Hn Hm.
  { cbn [map feed_lines foldl length]. cbn [seqZ seq fmap list_fmap Z.of_nat Z.to_nat].
    by rewrite !app_nil_r, Z.add_0_r. }
  cbn [map feed_lines foldl]. cbn [length] in Hm. rewrite feed_added.
  assert (u32_add n 1 = n + 1) as -> by (u32; done).
  change (foldl feed_line ?q ?ks) with (feed_lines q ks). rewrite IH by lia.
  rewrite <-!app_assoc. cbn [app length]. rewrite (seqZ_cons n) by lia.
  replace (Z.pred (Z.of_nat (S (length ls)))) with (Z.of_nat (length ls)) by lia.
  f_equal; lia.
Qed.

Lemma feed_hunk_header p hp :
  hunk_ok hp →
  feed_line p (strip_cr (header_text (hp_short hp).1 (hp_short hp).2 (hp_range hp) (hp_context hp))) =
  match current_file p with
  | Some file => inside p file (hp_range hp) [] [] [] (new_start (hp_range hp))
  | None => feed_rest p (strip_cr (header_text (hp_short hp).1 (hp_short hp).2 (hp_range hp) (hp_context hp)))
  end.
Proof.
  intros Hok. pose proof (hunk_ok_counts hp Hok) as [? ?]. destruct Hok as (? & ? & _). rewrite strip_header.
  pose proof (parse_header_text (hp_short hp).1 (hp_short hp).2 (hp_range hp) (strip_cr (hp_context hp))
    ltac:(done) ltac:(done) ltac:(done) ltac:(done)) as Hp.
  set (text := header_text _ _ _ _) in *.
  assert (∃ text', text = lit "@@" ++ text') as [text' E].
  { unfold text, header_text. change (lit "@@ -") with (lit "@@" ++ lit " -"). rewrite <-app_assoc. by eexists. }
  unfold feed_line. rewrite Hp, E. change (lit "@@") with ("@"%char :: lit "@"). cbn [app].
  change (lit "diff --git ") with ("d"%char :: lit "iff --git ").
  change (lit "rename from ") with ("r"%char :: lit "ename from ").
  change (lit "rename to ") with ("r"%char :: lit "ename to ").
  rewrite !strip_prefix_cons_ne by done. rewrite app_comm_cons, starts_with_app.
  by destruct (current_file p).
Qed.

Lemma strip_hunk_lines hp :
  map strip_cr (hunk_lines hp) =
  strip_cr (header_text (hp_short hp).1 (hp_short hp).2 (hp_range hp) (hp_context hp)) ::
  map (cons "-"%char) (map strip_cr (hp_deleted hp)) ++ no_newline (hp_deleted_open hp) ++
  map (cons "+"%char) (map strip_cr (hp_added hp)) ++ no_newline (hp_added_open hp).
Proof.
  unfold hunk_lines. rewrite map_cons, !map_app, !map_map. f_equal.
  assert (∀ b, map strip_cr (no_newline b) = no_newline b) as -> by by intros [].
  assert (∀ b, map strip_cr (no_newline b) = no_newline b) as -> by by intros [].
  assert (∀ c, c ≠ CR → ∀ ls, map (λ x, strip_cr (c :: x)) ls = map (λ x, c :: strip_cr x) ls) as Hs.
  { intros c Hc ls. apply map_ext. intros l. by apply strip_cr_cons. }
  by rewrite !Hs.
Qed.

Lemma feed_hunk p file hp :
  current_file p = Some file → hunk_ok hp →
  feed_lines p (map strip_cr (hunk_lines hp)) =
  inside p file (hp_range hp) (map strip_cr (hp_deleted hp)) (map strip_cr (hp_added hp)) (hunk_added hp)
    (new_start (hp_range hp) + new_count (hp_range hp)).
Proof.
  intros Hf Hok. rewrite strip_hunk_lines. cbn [feed_lines foldl]. rewrite (feed_hunk_header p hp Hok), Hf.
  rewrite !foldl_app. repeat change (foldl feed_line ?q ?ks) with (feed_lines q ks).
  rewrite feed_all_deleted, (feed_no_newline (inside _ _ _ _ _ _ _)) by by eexists.
  destruct Hok as (_ & ? & _ & Hn & _ & ? & _). rewrite feed_all_added.
  - rewrite feed_no_newline by by eexists. rewrite length_map, <-Hn. done.
  - unfold is_u32 in *. lia.
  - rewrite length_map. lia.
Qed.

(** Without a path, hunks are lost. *)
Lemma feed_lost p hp :
  current_file p = None → active_hunk_new_line p = None → hunk_ok hp →
  feed_lines p (map strip_cr (hunk_lines hp)) = p.
Proof.
  intros Hf Ha Hok. rewrite strip_hunk_lines. cbn [feed_lines foldl]. rewrite (feed_hunk_header p hp Hok), Hf.
  assert (∀ l, feed_rest p l = p) as Hr by (intros l; unfold feed_rest; by rewrite Ha). rewrite Hr.
  assert (∀ c ls, c ≠ "d"%char → c ≠ "r"%char → c ≠ "@"%char → feed_lines p (map (cons c) ls) = p) as Hl.
  { intros c ls H1 H2 H3. induction ls as [|l ls IH]; [done|]. cbn [map feed_lines foldl].
    rewrite feed_plain by done. rewrite Hr. apply IH. }
  assert (∀ b, feed_lines p (no_newline b) = p) as Hn.
  { intros []; [|done]. apply (Hl "\"%char [lit " No newline at end of file"]); done. }
  rewrite !foldl_app. repeat change (foldl feed_line ?q ?ks) with (feed_lines q ks).
  rewrite Hl by done. rewrite Hn, Hl, Hn by done. done.
Qed.

(** *** A file *)

Definition with_hunks (tf : TreeFile) (hs : list HunkPatch) : TreeFile :=
  mkTreeFile (tf_names tf) (tf_before tf) (tf_rename tf) (tf_after tf) hs.

(** Inside a file: what is seen, and the path its hunks go to. *)
Record within (tfs : list TreeFile) (tf : TreeFile) (p : DiffTreeChunkParser) : Prop := mkWithin {
  w_seen : seen (tfs ++ [tf]) p;
  w_file : current_file p = extract_b_path (tf_names tf);
  w_active : current_file p = None → active_hunk_new_line p = None
}.

Lemma within_hunk tfs tf hs hp p :
  within tfs (with_hunks tf hs) p → hunk_ok hp →
  within tfs (with_hunks tf (hs ++ [hp])) (feed_lines p (map strip_cr (hunk_lines hp))).
Proof.
  intros [[Hh Hc Ha Hr] Hf Hact] Hok. cbn [tf_names with_hunks] in Hf. destruct (current_file p) as [file|] eqn:E.
  - rewrite (feed_hunk p file hp) by done.
    assert (∀ path, hunks_of (tfs ++ [with_hunks tf (hs ++ [hp])]) path =
      hunks_of (tfs ++ [with_hunks tf hs]) path ++ if bool_decide (file = path) then [hp] else []) as Hof.
    { intros path. rewrite !hunks_of_app, !hunks_of_single. cbn [tf_names tf_hunks with_hunks]. rewrite <-Hf.
      destruct (decide (file = path)) as [->|Hne].
      - by rewrite !bool_decide_true, app_assoc.
      - rewrite !bool_decide_false by congruence. by rewrite !app_nil_r. }
    split; [split| |by intros]; [..|done].
    + intros path. cbn [c_hunks inside]. rewrite lookup_extend, Hof, map_app. case_bool_decide; [subst|].
      * left. destruct (Hh path) as [-> | [-> ->]]; done.
      * rewrite app_nil_r. cbn [map]. rewrite app_nil_r. apply Hh.
    + intros path. cbn [c_contents inside]. rewrite lookup_extend, Hof, map_app, <-Hc. case_bool_decide; [by subst|].
      by rewrite app_nil_r.
    + intros path. cbn [c_added inside]. rewrite Hof, flat_map_app, <-Ha.
      destruct (hunk_added hp) as [|x l] eqn:En.
      * case_bool_decide; cbn [flat_map]; [rewrite En|]; by rewrite app_nil_r.
      * rewrite lookup_extend. case_bool_decide; cbn [flat_map default from_option]; [subst; by rewrite En, app_nil_r|by rewrite app_nil_r].
    + cbn [c_renames inside]. rewrite Hr, !omap_app. done.
  - rewrite feed_lost by auto. split; [split| |]; try (by rewrite E); cbn [tf_names with_hunks].
    all: assert (∀ path, hunks_of (tfs ++ [with_hunks tf (hs ++ [hp])]) path = hunks_of (tfs ++ [with_hunks tf hs]) path) as Hof
      by (intros path; rewrite !hunks_of_app, !hunks_of_single; cbn [tf_names with_hunks]; by rewrite <-Hf).
    + intros path. rewrite Hof. apply Hh.
    + intros path. rewrite Hof. apply Hc.
    + intros path. rewrite Hof. apply Ha.
    + rewrite Hr, !omap_app. done.
Qed.

Lemma within_hunks tfs tf hs hps p :
  within tfs (with_hunks tf hs) p → Forall hunk_ok hps →
  within tfs (with_hunks tf (hs ++ hps)) (feed_lines p (map strip_cr (flat_map hunk_lines hps))).
Proof.
  intros Hw Hok. revert hs p Hw. induction Hok as [|hp hps Hhp _ IH]; intros hs p Hw; [by rewrite app_nil_r|].
  cbn [flat_map]. rewrite map_app. unfold feed_lines. rewrite foldl_app.
  rewrite (app_assoc hs [hp] hps : hs ++ hp :: hps = _). apply IH. by apply within_hunk.
Qed.

Lemma feed_plain_header p l :
  plain_header l → active_hunk_new_line p = None → feed_line p (strip_cr l) = p.
Proof.
  intros ([_ ->] & H1 & H2 & H3 & H4 & _) Ha. unfold feed_line.
  rewrite (not_prefix _ _ H1), (not_prefix _ _ H2), (not_prefix _ _ H3), H4. unfold feed_rest. by rewrite Ha.
Qed.

Lemma feed_plain_headers p ls :
  Forall plain_header ls → active_hunk_new_line p = None → feed_lines p (map strip_cr ls) = p.
Proof.
  intros H Ha. induction H as [|l ls Hl _ IH]; [done|]. cbn [map feed_lines foldl].
  rewrite feed_plain_header by done. apply IH.
Qed.

Lemma feed_rename p r :
  active_hunk_new_line p = None → current_rename_from p = None →
  (∀ from_path to_path, r = Some (from_path, to_path) → one_line from_path ∧ one_line to_path) →
  feed_lines p (map strip_cr (rename_lines r)) =
  mkChunk (c_hunks p) (c_contents p) (c_added p) (c_renames p ++ option_list r) (current_file p) None None.
Proof.
  intros Ha Hr Hl. destruct r as [[from_path to_path]|].
  - destruct (Hl _ _ eq_refl) as [Hf Ht]. cbn [rename_lines map feed_lines foldl option_list].
    rewrite !strip_cr_prefix by done. unfold feed_line at 2.
    rewrite (not_prefix (lit "diff --git ")), strip_prefix_app by done. unfold feed_line.
    rewrite (not_prefix (lit "diff --git ")), (not_prefix (lit "rename from ")), strip_prefix_app by done. done.
  - cbn. rewrite app_nil_r. destruct p. cbn in *. by subst.
Qed.

Lemma feed_file tfs tf p :
  seen tfs p → tree_file_ok tf → seen (tfs ++ [tf]) (feed_lines p (map strip_cr (tree_file_lines tf))).
Proof.
  intros [Hh Hc Ha Hr] (Hn & Hb & Haf & Hre & Hhp). unfold tree_file_lines.
  cbn [map feed_lines foldl]. rewrite strip_cr_prefix by done. unfold feed_line at 2. rewrite strip_prefix_app.
  rewrite !map_app, !foldl_app. repeat change (foldl feed_line ?q ?ks) with (feed_lines q ks).
  rewrite (feed_plain_headers _ (tf_before tf)) by done. rewrite feed_rename by done.
  rewrite (feed_plain_headers _ (tf_after tf)) by done. cbn [c_hunks c_contents c_added c_renames current_file].
  set (p1 := mkChunk _ _ _ _ _ _ _).
  assert (∀ path, hunks_of (tfs ++ [with_hunks tf []]) path = hunks_of tfs path) as Hof.
  { intros path. rewrite hunks_of_app, hunks_of_single. cbn. case_bool_decide; by rewrite app_nil_r. }
  assert (within tfs (with_hunks tf []) p1) as Hw.
  { split; [split|done|by intros].
    - intros path. rewrite Hof. apply Hh.
    - intros path. rewrite Hof. apply Hc.
    - intros path. rewrite Hof. apply Ha.
    - unfold p1. cbn [c_renames]. rewrite Hr, omap_app. done. }
  apply (within_hunks tfs tf [] (tf_hunks tf)) in Hw; [|done]. destruct Hw as [Hw _ _]. by destruct tf.
Qed.

Lemma feed_files tfs tfs' p :
  seen tfs p → Forall tree_file_ok tfs' →
  seen (tfs ++ tfs') (feed_lines p (map strip_cr (flat_map tree_file_lines tfs'))).
Proof.
  intros Hs H. revert tfs p Hs. induction H as [|tf tfs' Htf _ IH]; intros tfs p Hs; [by rewrite app_nil_r|].
  cbn [flat_map]. rewrite map_app. unfold feed_lines. rewrite foldl_app.
  change (tf :: tfs') with ([tf] ++ tfs'). rewrite app_assoc. apply IH. by apply feed_file.
Qed.

Lemma seen_nothing : seen [] empty_chunk.
Proof. split; try done; intros path; [by right|..]; cbn; by rewrite lookup_empty. Qed.

Lemma finish_reports tfs p : seen tfs p → reports tfs (finish p).
Proof.
  intros [Hh Hc Ha Hr]. split_and!; [done|done| |done]. intros path. unfold finish, sort_lines. cbn [added_lines_by_file].
  rewrite lookup_fmap, <-Ha. destruct (c_added p !! path) as [l|]; cbn [fmap option_fmap option_map default from_option].
  - split; [apply sort_dedup_lt|]. intros line. apply elem_of_sort_dedup.
  - split; [constructor|done].
Qed.

(** *** Pairs *)

Lemma hex_no_space s : forallb is_hexdigit s = true → " "%char ∉ s.
Proof. intros H Hin. rewrite forallb_forall in H. apply list_elem_of_In in Hin. by specialize (H _ Hin). Qed.

Lemma separator_line a b : is_valid_git_oid a = true → is_valid_git_oid b = true →
  is_tree_pair_separator (strip_cr (a ++ [" "%char] ++ b)) = true.
Proof.
  intros Ha Hb. assert (CR ∉ a ++ [" "%char] ++ b) as Hcr.
  { unfold is_valid_git_oid in Ha, Hb. bool_hyps. rewrite !elem_of_app, list_elem_of_singleton.
    rewrite !forallb_forall in *. intros [Hin|[Hin|Hin]]; try done; apply list_elem_of_In in Hin;
      match goal with H : ∀ x, In x _ → _ |- _ => by specialize (H _ Hin) end. }
  rewrite strip_cr_id by done. unfold is_tree_pair_separator. change (lit " ") with [" "%char]. cbn [app].
  rewrite split_once_first; [by rewrite Ha, Hb|]. apply hex_no_space. unfold is_valid_git_oid in Ha. by bool_hyps.
Qed.

Lemma nonhex_no_separator c l : is_hexdigit c = false → is_tree_pair_separator (c :: l) = false.
Proof.
  intros Hc. unfold is_tree_pair_separator. cbn [split_once]. change (lit " ") with [" "%char]. cbn [strip_prefix].
  case_bool_decide; [done|]. destruct (split_once [" "%char] l) as [[a b]|]; [|done].
  unfold is_valid_git_oid. cbn [forallb]. rewrite Hc. by rewrite andb_false_r.
Qed.

Definition no_separator (l : str) : Prop := is_tree_pair_separator l = false.

Lemma hunk_no_separator hp : Forall no_separator (map strip_cr (hunk_lines hp)).
Proof.
  assert (∀ c ls, is_hexdigit c = false → Forall no_separator (map (cons c) ls)) as Hl.
  { intros c ls Hc. apply Forall_map, Forall_true. intros l. by apply nonhex_no_separator. }
  assert (∀ b, Forall no_separator (no_newline b)) as Hn.
  { intros []; [|constructor]. by apply (Hl "\"%char [lit " No newline at end of file"]). }
  rewrite strip_hunk_lines. constructor.
  - rewrite strip_header. unfold header_text. change (lit "@@ -") with ("@"%char :: lit "@ -"). cbn [app].
    by apply nonhex_no_separator.
  - repeat (apply Forall_app; split); auto.
Qed.

Lemma file_no_separator tf : tree_file_ok tf → Forall no_separator (map strip_cr (tree_file_lines tf)).
Proof.
  intros (Hn & Hb & Ha & Hr & _). unfold tree_file_lines. rewrite map_cons, !map_app. constructor.
  { rewrite strip_cr_prefix by done. reflexivity. }
  assert (∀ ls, Forall plain_header ls → Forall no_separator (map strip_cr ls)) as Hp.
  { intros ls H. apply Forall_map. eapply Forall_impl; [exact H|]. intros l ([_ Hl] & _ & _ & _ & _ & Hs).
    unfold no_separator. by rewrite Hl. }
  repeat (apply Forall_app; split); [by apply Hp| |by apply Hp|].
  - destruct (tf_rename tf) as [[f g]|]; [|constructor]. destruct (Hr _ _ eq_refl) as [Hf Hg].
    cbn [rename_lines map]. rewrite !strip_cr_prefix by done. repeat constructor.
  - induction (tf_hunks tf) as [|hp hps IH]; [constructor|]. cbn [flat_map]. rewrite map_app.
    apply Forall_app. split; [apply hunk_no_separator|done].
Qed.

Lemma batched_body p ls :
  seen_first_header p = true → Forall no_separator ls →
  foldl batched_feed_line p ls = mkBatched (expected_pairs p) (results p) (feed_lines (current p) ls) true.
Proof.
  intros Hs H. revert p Hs. induction H as [|l ls Hl _ IH]; intros p Hs; cbn [foldl].
  { destruct p. cbn in *. by subst. }
  unfold batched_feed_line at 2. rewrite Hl, Hs. by rewrite IH.
Qed.

(** The pairs read so far, and what is left to report. *)
Definition read_pairs (n : nat) (tps : list TreePair) (p : BatchedDiffTreeParser) : Prop :=
  expected_pairs p = n ∧
  if seen_first_header p then Forall2 reports (map tp_files tps) (results p ++ [finish (current p)])
  else tps = [] ∧ results p = [] ∧ current p = empty_chunk.

Lemma read_pair n tps p tp :
  read_pairs n tps p → tree_pair_ok tp →
  read_pairs n (tps ++ [tp]) (foldl batched_feed_line p (map strip_cr (pair_lines tp))).
Proof.
  intros [Hn Hp] (Ho & Hw & Hf). unfold pair_lines. cbn [map foldl].
  assert (Forall no_separator (map strip_cr (flat_map tree_file_lines (tp_files tp)))) as Hns.
  { induction Hf as [|tf tfs Htf _ IH]; [constructor|]. cbn [flat_map]. rewrite map_app. apply Forall_app.
    split; [by apply file_no_separator|done]. }
  pose proof (feed_files [] (tp_files tp) empty_chunk seen_nothing Hf) as Hfed%finish_reports.
  unfold batched_feed_line at 2. rewrite separator_line by done. destruct (seen_first_header p) eqn:Es.
  - rewrite batched_body by done. split; [done|]. cbn [seen_first_header results current]. rewrite map_app.
    apply Forall2_app; [done|]. constructor; [exact Hfed|constructor].
  - destruct Hp as (-> & Hr & Hc). rewrite batched_body by done. split; [done|].
    cbn [seen_first_header results current]. rewrite Hr, Hc. constructor; [exact Hfed|constructor].
Qed.

Lemma read_all_pairs n tps :
  Forall tree_pair_ok tps →
  read_pairs n tps (foldl batched_feed_line (new_parser n) (map strip_cr (flat_map pair_lines tps))).
Proof.
  intros H. enough (∀ before p, read_pairs n before p →
    read_pairs n (before ++ tps) (foldl batched_feed_line p (map strip_cr (flat_map pair_lines tps)))) as Hgen.
  { by apply (Hgen [] (new_parser n)). }
  induction H as [|tp tps Htp _ IH]; intros before p Hp; [by rewrite app_nil_r|].
  cbn [flat_map]. rewrite map_app, foldl_app. change (tp :: tps) with ([tp] ++ tps). rewrite app_assoc.
  apply IH. by apply read_pair.
Qed.

Lemma read_pairs_finish n tps p :
  read_pairs n tps p → ∃ rs, batched_finish p = rs ++ replicate (n - length tps) empty_result ∧ Forall2 reports (map tp_files tps) rs.
Proof.
  intros [Hn Hp]. unfold batched_finish, take_all. destruct (seen_first_header p).
  - exists (results p ++ [finish (current p)]). cbn [fst results expected_pairs]. split; [|done].
    apply Forall2_length in Hp. rewrite length_map in Hp. by rewrite Hn, Hp.
  - destruct Hp as (-> & Hr & _). exists []. cbn [fst]. rewrite Hr, Hn. by split; [|constructor].
Qed.

Lemma pair_lines_no_lf tp : tree_pair_ok tp → Forall (λ l, LF ∉ l) (pair_lines tp).
Proof.
  intros (Ho & Hw & Hf). assert (∀ s, is_valid_git_oid s = true → LF ∉ s) as Hh.
  { intros s Hs Hin. unfold is_valid_git_oid in Hs. bool_hyps. rewrite forallb_forall in *.
    apply list_elem_of_In in Hin. match goal with H : ∀ x, In x _ → _ |- _ => by specialize (H _ Hin) end. }
  unfold pair_lines. constructor.
  { rewrite !elem_of_app, list_elem_of_singleton. intros [?|[?|?]]; [by eapply (Hh (old_tree tp))|done|by eapply (Hh (new_tree tp))]. }
  induction Hf as [|tf tfs (Hn & Hb & Ha & Hr & Hhp) _ IH]; [constructor|]. cbn [flat_map]. apply Forall_app. split; [|done].
  unfold tree_file_lines. assert (∀ p l, LF ∉ p → one_line l → LF ∉ p ++ l) as Hp.
  { intros p l H1 [H2 _]. rewrite elem_of_app. tauto. }
  assert (∀ ls, Forall plain_header ls → Forall (λ l, LF ∉ l) ls) as Hpl.
  { intros ls H. eapply Forall_impl; [exact H|]. by intros l ([Hl _] & _). }
  constructor; [apply Hp; [vm_compute; set_solver|done]|]. repeat (apply Forall_app; split); [by apply Hpl| |by apply Hpl|].
  - destruct (tf_rename tf) as [[f g]|]; [|constructor]. destruct (Hr _ _ eq_refl). cbn [rename_lines].
    repeat constructor; (apply Hp; [vm_compute; set_solver|done]).
  - induction Hhp as [|hp hps Hhp _ IH']; [constructor|]. cbn [flat_map]. apply Forall_app. split; [|done].
    by apply hunk_lines_no_lf.
Qed.

End DiffTreeFacts.

(** ** Properties *)

Module DiffTreeProps.
Import HunkShift PatchText PatchParseFacts DiffTree DiffTreeText DiffTreeFacts.

(** the output of a batched diff-tree is read back: one result per pair of
    trees, in order, and empty results for the pairs git did not answer.  A
    result has the hunks of each file under its new path, the texts the hunks
    delete and add (less a final carriage return), the numbers of the added
    lines in order, and the renames.  When it does not contain [" b/"] the new
    path is the one after [" b/"]. *)
Theorem diff_tree_round_trip (tps : list TreePair) (expected : nat) (pairs_ok : Forall tree_pair_ok tps) :
  (∃ rs, parse_batched_diff_tree_output (render_pairs tps) expected =
           rs ++ replicate (expected - length tps) empty_result ∧
         Forall2 reports (map tp_files tps) rs) ∧
  (∀ old_path new_path, after_last (lit " b/") new_path = None →
     extract_b_path (lit "a/" ++ old_path ++ lit " b/" ++ new_path) = Some new_path).
Proof.
  split.
  - unfold parse_batched_diff_tree_output, render_pairs. rewrite lines_render.
    + eapply read_pairs_finish. by apply read_all_pairs.
    + induction pairs_ok as [|tp tps Htp _ IH]; [constructor|]. cbn [flat_map]. apply Forall_app.
      split; [by apply pair_lines_no_lf|done].
  - intros old_path new_path H. unfold extract_b_path. rewrite app_assoc. apply after_last_app.
    change (lit " b/" ++ new_path) with (" "%char :: "b"%char :: "/"%char :: new_path).
    assert (after_last (lit " b/") ("/"%char :: new_path) = None) as H1 by by apply after_last_none_cons.
    assert (after_last (lit " b/") ("b"%char :: "/"%char :: new_path) = None) as H2 by by apply after_last_none_cons.
    cbn [after_last]. cbn [after_last] in H2. rewrite H2. change (lit " b/") with ([" "; "b"; "/"]%char). reflexivity.
Qed.

(** a file whose name git quotes is lost.  When git quotes its names, and
    their texts do not contain [" b/"], the reader finds no path in the header,
    so the hunks of the file are reported under no path at all. *)
Theorem quoted_path_loses_hunks (quote_path : bool) (path : str)
    (quoted : git_name quote_path (lit "a/" ++ path) ≠ lit "a/" ++ path ∧
              git_name quote_path (lit "b/" ++ path) ≠ lit "b/" ++ path)
    (unmarked : after_last (lit " b/") (git_name quote_path (lit "a/" ++ path)) = None ∧
                after_last (lit " b/") (git_name quote_path (lit "b/" ++ path)) = None) :
  let header := git_name quote_path (lit "a/" ++ path) ++ [" "%char] ++ git_name quote_path (lit "b/" ++ path) in
  extract_b_path header = None ∧
  ∀ tf tfs p, tf_names tf = header → hunks_of (tf :: tfs) p = hunks_of tfs p.
Proof.
  intros header. assert (extract_b_path header = None) as Hnone.
  { unfold extract_b_path, header. destruct quoted as [Hqa Hqb], unmarked as [Ha Hb].
    unfold git_name in *. destruct (str_eqb _ (lit "a/" ++ path)) in Hqa, Ha |- *; [done|].
    destruct (str_eqb _ (lit "b/" ++ path)) in Hqb, Hb |- *; [done|].
    set (qa := flat_map _ _) in *. set (qb := flat_map _ (chars (lit "b/" ++ path))) in *.
    change ((DQUOTE :: qa ++ [DQUOTE]) ++ [" "%char] ++ DQUOTE :: qb ++ [DQUOTE]) with
      (((DQUOTE :: qa) ++ [DQUOTE]) ++ ([" "%char] ++ DQUOTE :: qb ++ [DQUOTE])).
    rewrite <-app_assoc. cbn [app]. change (DQUOTE :: ?x) with ([] ++ DQUOTE :: x) at 1.
    assert (DQUOTE ∉ lit " b/") as Hd by (vm_compute; set_solver).
    assert (∀ q, after_last (lit " b/") (DQUOTE :: q ++ [DQUOTE]) = None → after_last (lit " b/") q = None) as Hin.
    { intros q Hq. destruct (after_last (lit " b/") q) as [r|] eqn:E; [|done]. exfalso.
      cbn [after_last] in Hq. assert (after_last (lit " b/") (q ++ [DQUOTE]) = None) as Hq' by by destruct (after_last (lit " b/") (q ++ [DQUOTE])).
      clear -E Hq'. revert r E Hq'. induction q as [|c q IH]; intros r; cbn [after_last app].
      - by vm_compute.
      - destruct (after_last (lit " b/") q) as [r'|] eqn:E'.
        + intros _ Hq. by destruct (after_last (lit " b/") (q ++ [DQUOTE])) eqn:E''; [|eapply IH].
        + intros Hs. apply strip_prefix_spec in Hs. destruct (after_last _ (q ++ [DQUOTE])); [done|].
          rewrite app_comm_cons, Hs, <-app_assoc, strip_prefix_app. done. }
    apply after_last_none_app; [done..| |]; [done|].
    change (qa ++ DQUOTE :: " "%char :: DQUOTE :: qb ++ [DQUOTE]) with (qa ++ DQUOTE :: [" "%char] ++ DQUOTE :: qb ++ [DQUOTE]).
    apply after_last_none_app; [done..|by apply Hin|].
    apply after_last_none_app; [done..|]. apply after_last_none_app; [done..|by apply Hin|done]. }
  split; [done|]. intros tf tfs p E. unfold hunks_of. cbn [flat_map]. by rewrite E, Hnone.
Qed.

(** *** Witnesses *)

Definition sample_oid (c : ascii) : str := repeat c 40.

Definition sample_pairs : list TreePair :=
  [mkTreePair (sample_oid "a") (sample_oid "b")
     [mkTreeFile (lit "a/old.rs b/new.rs") [lit "similarity index 90%"] (Some (lit "old.rs", lit "new.rs"))
        [lit "index 12..34 100644"; lit "--- a/old.rs"; lit "+++ b/new.rs"]
        [mkHunkPatch (HunkShift.mkHunk 2 1 2 2) (true, false) (lit " fn main") [lit "-- x"] false
           [lit "y"; lit "rename to z"] true]];
   mkTreePair (sample_oid "b") (sample_oid "c") []].

Lemma diff_tree_round_trip_witness :
  ∃ rs, parse_batched_diff_tree_output (render_pairs sample_pairs) 3 = rs ++ [empty_result] ∧
    map (λ r, (added_lines_by_file r !! lit "new.rs", renames r)) rs =
    [(Some [2; 3], [(lit "old.rs", lit "new.rs")]); (None, [])].
Proof.
  destruct (diff_tree_round_trip sample_pairs 3) as [(rs & Hrs & _) _].
  - repeat constructor; try (vm_compute; congruence); try (unfold hunk_ok, is_u32, u32_max; simpl; lia);
      try PatchParseProps.decide_lf;
      try (cbn in *; match goal with H : Some _ = Some _ |- _ => injection H as <- <- end; PatchParseProps.decide_lf || reflexivity).
  - exists rs. split; [exact Hrs|].
    assert (map (λ r, (added_lines_by_file r !! lit "new.rs", renames r))
      (parse_batched_diff_tree_output (render_pairs sample_pairs) 3) =
      [(Some [2; 3], [(lit "old.rs", lit "new.rs")]); (None, []); (None, [])]) as E by (vm_compute; reflexivity).
    rewrite Hrs, map_app in E. cbn in E. by apply (app_inj_tail _ [_; _]) in E as [E _].
Defined.

Lemma quoted_path_loses_hunks_witness :
  extract_b_path (git_name true (lit "a/caf" ++ map ascii_of_N [195; 169]%N) ++ [" "%char] ++
                  git_name true (lit "b/caf" ++ map ascii_of_N [195; 169]%N)) = None ∧
  git_name true (lit "b/caf" ++ map ascii_of_N [195; 169]%N) = DQUOTE :: lit "b/caf\303\251" ++ [DQUOTE].
Proof.
  split; [|reflexivity].
  apply (quoted_path_loses_hunks true (lit "caf" ++ map ascii_of_N [195; 169]%N)).
  - split; vm_compute; discriminate.
  - split; reflexivity.
Defined.

End DiffTreeProps.
