(* ===== verification/Attestations.v ===== *)
(** * Attestations of line attributions

    The last step towards a note, src/src/authorship/virtual_attribution.rs:
    the line attributions of each file become attestations, and the added
    lines of a diff become ranges.  Line attributions come in maps; their
    iteration order is the class [HashOrder]. *)

From S2P Require Import Prelude LineRange AuthorshipLog Attribution WorkingLog Stats HashIter DiffTree.

Local Open Scope Z_scope.

Module Attestations.
Import LineRange AuthorshipLog Attribution HashIter.
Import DiffTree(DiffTreeResult, mkDiffTree, added_lines_by_file).

(** The attributions of files: by byte and by line. *)
Abbreviation FileAttributions := (list Attribution * list LineAttribution)%type.

(** ["human"], the author of checkpoints nobody attested. *)
Definition HUMAN : str := WorkingLog.to_str WorkingLog.Human.

Definition u32_saturating_add (a b : Z) : Z := Z.min u32_max (a + b).

(** [sort_by_key] by start, then end. *)
Definition bounds_le (a b : Z * Z) : bool := (a.1 <? b.1) || ((a.1 =? b.1) && (a.2 <=? b.2)).

(** The loop that merges sorted ranges; [last] is [merged.last_mut()]. *)
Fixpoint merge_bounds (last : Z * Z) (ranges : list (Z * Z)) : list (Z * Z) :=
  match ranges with
  | [] => [last]
  | (start, end_) :: ranges' =>
      if start <=? u32_saturating_add last.2 1 then merge_bounds (last.1, Z.max last.2 end_) ranges'
      else last :: merge_bounds (start, end_) ranges'
  end.

Definition merged_bounds (ranges : list (Z * Z)) : list (Z * Z) :=
  match ranges with
  | [] => []
  | range :: ranges' => merge_bounds range ranges'
  end.

Definition bounds_range (b : Z * Z) : LineRange := if b.1 =? b.2 then Single b.1 else Range b.1 b.2.

Definition author_bounds (la : LineAttribution) : option (str * (Z * Z)) :=
  if str_eqb (line_author_id la) HUMAN then None
  else Some (line_author_id la, (start_line la, end_line la)).

(** The ranges of each author but the unattested human. *)
Definition author_ranges (line_attrs : list LineAttribution) : gmap str (list (Z * Z)) :=
  foldl (λ m la, match author_bounds la with Some (a, b) => extend m a [b] | None => m end) ∅ line_attrs.

Definition author_entry (ar : str * list (Z * Z)) : option AttestationEntry :=
  if bool_decide (ar.2 = []) then None
  else Some (mkEntry ar.1 (map bounds_range (merged_bounds (sort_by bounds_le ar.2)))).

Section Build.
Context `{order : HashOrder}.
(** Unicode NFC normalization. *)
Variable nfc : str → str.

Definition file_attestation (fa : str * FileAttributions) : option FileAttestation :=
  let '(path, (_, line_attrs)) := fa in
  if bool_decide (line_attrs = []) then None
  else
    let es := omap author_entry (hash_iter (author_ranges line_attrs)) in
    if bool_decide (es = []) then None
    else Some (mkFile (nfc path) (sort_by (λ a b, str_le (hash a) (hash b)) es)).

Definition build_attestations_from_attributions (attributions : gmap str FileAttributions) :
    list FileAttestation :=
  sort_by (λ a b, str_le (file_path a) (file_path b)) (omap file_attestation (hash_iter attributions)).
End Build.

Definition committed_hunks_from_diff_result (diff : DiffTreeResult) (pathspecs : option (gset str)) :
    gmap str (list LineRange) :=
  map_imap (λ file_path added_lines,
    if match pathspecs with Some paths => negb (bool_decide (file_path ∈ paths)) | None => false end then None
    else
      let lines := List.filter (λ line, 0 <? line) added_lines in
      if bool_decide (lines = []) then None else Some (compress_lines lines)) (added_lines_by_file diff).

(** ** Reference *)

(** A line is attributed to an author in the file of a path. *)
Definition attributed (attributions : gmap str FileAttributions) (path author : str) (line : Z) : Prop :=
  ∃ bytes line_attrs la, attributions !! path = Some (bytes, line_attrs) ∧ la ∈ line_attrs ∧
    line_author_id la = author ∧ covers_line la line = true.

Definition in_bounds (bs : list (Z * Z)) (line : Z) : Prop := ∃ b, b ∈ bs ∧ b.1 <= line <= b.2.

Definition proper_lines (la : LineAttribution) : Prop :=
  0 <= start_line la ∧ start_line la <= end_line la ∧ end_line la <= u32_max.

End Attestations.

(** ** Lemmas *)

Module AttestationsFacts.
Import LineRange LineRangeFacts AuthorshipLog AuthorshipLogFacts Attribution AttributionFacts HashIter HashIterFacts.
Import DiffTree(DiffTreeResult, mkDiffTree, added_lines_by_file).
Import Attestations.

Local Arguments file_attestation : simpl never.
Local Arguments author_entry : simpl never.

Lemma in_bounds_nil l : ¬ in_bounds [] l.
Proof. intros (b & Hb & _). set_solver. Qed.

Lemma in_bounds_cons b bs l : in_bounds (b :: bs) l ↔ b.1 <= l <= b.2 ∨ in_bounds bs l.
Proof. unfold in_bounds. setoid_rewrite elem_of_cons. naive_solver. Qed.

Lemma bounds_le_trans a b c : bounds_le a b = true → bounds_le b c = true → bounds_le a c = true.
Proof. unfold bounds_le. lia. Qed.

Lemma bounds_le_total a b : bounds_le a b = true ∨ bounds_le b a = true.
Proof. unfold bounds_le. lia. Qed.

Lemma bounds_le_antisym a b : bounds_le a b = true → bounds_le b a = true → a = b.
Proof. destruct a, b. unfold bounds_le. cbn. intros. f_equal; lia. Qed.

(** Merging sorted ranges keeps their lines, and gives ranges apart. *)
Lemma merge_bounds_lines last bs l :
  StronglySorted (λ a b, a.1 <= b.1) (last :: bs) → Forall (λ b, b.1 <= u32_max) bs →
  in_bounds (merge_bounds last bs) l ↔ in_bounds (last :: bs) l.
Proof.
  revert last. induction bs as [|[s e] bs IH]; intros [ls le] Hs Hb; cbn [merge_bounds fst snd]; [done|].
  inversion_clear Hs as [|? ? Hs' Hl]. inversion_clear Hl as [|? ? Hle Hl'].
  inversion_clear Hb as [|? ? Hb1 Hb']. cbn in Hle, Hb1.
  destruct (Z.leb_spec s (u32_saturating_add le 1)) as [H|H].
  - rewrite IH; [|constructor; [by inversion_clear Hs'|done]|done].
    rewrite !in_bounds_cons. cbn. unfold u32_saturating_add in H.
    split; [intros [?|?]|intros [?|[?|?]]]; try tauto; [|left; lia..].
    destruct (decide (l <= le)); [left|right; left]; lia.
  - rewrite in_bounds_cons, IH, !in_bounds_cons by done. tauto.
Qed.

Lemma merge_bounds_separated last bs :
  StronglySorted (λ a b, a.1 <= b.1) (last :: bs) →
  Forall (λ b, b.1 <= b.2 /\ b.2 <= u32_max) (last :: bs) →
  StronglySorted (λ a b, a.2 + 1 < b.1) (merge_bounds last bs) ∧
  Forall (λ b, last.1 <= b.1 ∧ b.1 <= b.2 ∧ b.2 <= u32_max) (merge_bounds last bs).
Proof.
  revert last. induction bs as [|[s e] bs IH]; intros [ls le] Hs Hb; cbn [merge_bounds fst snd].
  { inversion_clear Hb as [|? ? Hb1 _]. cbn in Hb1. repeat constructor; cbn; lia. }
  inversion_clear Hs as [|? ? Hs' Hl]. inversion_clear Hl as [|? ? Hle Hl'].
  inversion_clear Hb as [|? ? Hb1 Hb']. inversion_clear Hb' as [|? ? Hb2 Hb3]. cbn in Hle, Hb1, Hb2.
  destruct (Z.leb_spec s (u32_saturating_add le 1)) as [H|H].
  - apply IH; constructor; [by inversion_clear Hs'|done|cbn; lia|done].
  - destruct (IH (s, e)) as [IH1 IH2]; [done|by constructor|]. unfold u32_saturating_add in H.
    split; constructor; cbn; [done| |lia|]; eapply Forall_impl; try exact IH2; cbn; lia.
Qed.

Lemma contains_bounds bs l : contains_any (map bounds_range bs) l = true ↔ in_bounds bs l.
Proof.
  induction bs as [|b bs IH]; [split; [done|intros H; by apply in_bounds_nil in H]|].
  rewrite in_bounds_cons, <-IH. change (map bounds_range (b :: bs)) with ([bounds_range b] ++ map bounds_range bs).
  rewrite contains_any_app, orb_true_iff. cbn [contains_any existsb]. rewrite orb_false_r.
  change (bounds_range b) with (close_run b.1 b.2). rewrite contains_close_run, andb_true_iff, !Z.leb_le. tauto.
Qed.

Lemma sort_bounds_starts bs : StronglySorted (λ a b, a.1 <= b.1) (sort_by bounds_le bs).
Proof.
  eapply StronglySorted_weaken; [|apply sort_by_sorted; [apply bounds_le_trans|apply bounds_le_total]].
  intros [] []. unfold bounds_le. cbn. lia.
Qed.

Lemma in_bounds_perm bs bs' l : bs ≡ₚ bs' → in_bounds bs l ↔ in_bounds bs' l.
Proof. intros H. unfold in_bounds. by setoid_rewrite H. Qed.

Lemma merged_bounds_lines bs l :
  Forall (λ b, b.1 <= u32_max) bs → in_bounds (merged_bounds (sort_by bounds_le bs)) l ↔ in_bounds bs l.
Proof.
  intros Hb. rewrite <-(in_bounds_perm (sort_by bounds_le bs) bs) by apply sort_by_perm.
  rewrite <-(sort_by_perm bounds_le) in Hb. pose proof (sort_bounds_starts bs) as Hs.
  destruct (sort_by bounds_le bs) as [|b bs']; [done|]. inversion_clear Hb. by apply merge_bounds_lines.
Qed.

Lemma merged_bounds_canonical bs :
  Forall (λ b, b.1 <= b.2 ∧ b.2 <= u32_max) bs →
  canonical (map bounds_range (merged_bounds (sort_by bounds_le bs))).
Proof.
  intros Hb. rewrite <-(sort_by_perm bounds_le) in Hb. pose proof (sort_bounds_starts bs) as Hs.
  destruct (sort_by bounds_le bs) as [|b bs']; [repeat constructor|].
  destruct (merge_bounds_separated b bs' Hs Hb) as [Hsep Hp]. split.
  - apply Forall_map. eapply Forall_impl; [exact Hp|]. intros c (_ & Hc & _). by apply (close_run_proper c.1 c.2).
  - cbn [merged_bounds]. induction Hsep as [|c cs Hcs IH Hc]; cbn; constructor.
    + inversion_clear Hp. by apply IH.
    + apply Forall_map. eapply Forall_impl; [exact Hc|]. intros d Hd. unfold separated.
      change (bounds_range c) with (close_run c.1 c.2). change (bounds_range d) with (close_run d.1 d.2).
      by rewrite close_run_start, close_run_end.
Qed.

(** *** One file *)

Lemma author_ranges_lookup las h bs :
  author_ranges las !! h = Some bs →
  h ≠ HUMAN ∧ bs ≠ [] ∧ ∀ b, b ∈ bs ↔ ∃ la, la ∈ las ∧ line_author_id la = h ∧ b = (start_line la, end_line la).
Proof.
  intros H. assert (bs ≠ []) as Hne by (eapply (fold_extend_nonempty author_bounds); [|exact H]; done).
  pose proof (fold_extend_lookup author_bounds las ∅ h) as Hl.
  unfold author_ranges in H. rewrite H, lookup_empty in Hl. cbn in Hl. subst bs.
  assert (∀ b, b ∈ omap (λ a, match author_bounds a with
                              | Some (k', b) => if str_eqb k' h then Some b else None
                              | None => None
                              end) las ↔
    h ≠ HUMAN ∧ ∃ la, la ∈ las ∧ line_author_id la = h ∧ b = (start_line la, end_line la)) as E.
  { intros b. rewrite list_elem_of_omap. unfold author_bounds. split.
    - intros (la & Hla & Hb). destruct (str_eqb (line_author_id la) HUMAN) eqn:Eh; [done|].
      destruct (str_eqb (line_author_id la) h) eqn:E; [|done]. apply str_eqb_eq in E.
      injection Hb as <-. split; [|by eauto].
      intros ->. by rewrite <-E, str_eqb_refl in Eh.
    - intros (Hh & la & Hla & <- & ->). exists la. split; [done|].
      destruct (str_eqb (line_author_id la) HUMAN) eqn:Eh; [by apply str_eqb_eq in Eh|].
      by rewrite str_eqb_refl. }
  assert (h ≠ HUMAN) as Hh.
  { intros Hh. destruct (omap _ las) as [|b bs]; [done|]. by destruct (proj1 (E b)) as [? _]; [left|]. }
  split_and!; [done..|]. intros b. rewrite E. naive_solver.
Qed.

Lemma author_ranges_some las la :
  la ∈ las → line_author_id la ≠ HUMAN → is_Some (author_ranges las !! line_author_id la).
Proof.
  intros Hla Hh. pose proof (fold_extend_lookup author_bounds las ∅ (line_author_id la)) as Hl.
  unfold author_ranges. destruct (foldl _ ∅ las !! _) eqn:E; [done|]. rewrite lookup_empty in Hl. cbn in Hl.
  exfalso. assert ((start_line la, end_line la) ∈ @nil (Z * Z)) as H; [|by apply not_elem_of_nil in H].
  rewrite Hl. apply list_elem_of_omap. exists la. split; [done|]. unfold author_bounds.
  destruct (str_eqb (line_author_id la) HUMAN) eqn:Eh; [by apply str_eqb_eq in Eh|].
  by rewrite str_eqb_refl.
Qed.

Section Order.
Context `{order : HashOrder} (nfc : str → str).

Lemma author_entries_elem las e :
  e ∈ omap author_entry (hash_iter (author_ranges las)) ↔
  ∃ bs, author_ranges las !! hash e = Some bs ∧
        line_ranges e = map bounds_range (merged_bounds (sort_by bounds_le bs)).
Proof.
  rewrite list_elem_of_omap. split.
  - intros ([h bs] & Hin & He). apply elem_of_hash_iter in Hin. unfold author_entry in He.
    case_bool_decide; [done|]. injection He as <-. by exists bs.
  - intros (bs & Hl & Hr). exists (hash e, bs). split; [by apply elem_of_hash_iter|].
    unfold author_entry. rewrite bool_decide_false by (by apply author_ranges_lookup in Hl as (_ & ? & _)).
    cbn [fst snd]. rewrite <-Hr. by destruct e.
Qed.

Lemma author_entries_hash las e e' :
  e ∈ omap author_entry (hash_iter (author_ranges las)) →
  e' ∈ omap author_entry (hash_iter (author_ranges las)) → hash e = hash e' → e = e'.
Proof.
  rewrite !author_entries_elem. intros (bs & Hl & Hr) (bs' & Hl' & Hr') E.
  rewrite <-E, Hl in Hl'. injection Hl' as <-. destruct e, e'. cbn in *. congruence.
Qed.

(** The attestation of a file, without the iteration order. *)
Lemma file_attestation_spec path bytes las f :
  file_attestation nfc (path, (bytes, las)) = Some f →
  file_path f = nfc path ∧ entries f ≠ [] ∧
  StronglySorted (λ a b, str_le (hash a) (hash b) = true) (entries f) ∧
  (∀ e, e ∈ entries f ↔ ∃ bs, author_ranges las !! hash e = Some bs ∧
          line_ranges e = map bounds_range (merged_bounds (sort_by bounds_le bs))).
Proof.
  unfold file_attestation. case_bool_decide; [done|]. case_bool_decide as Hes; [done|].
  intros [= <-]. cbn [file_path entries]. split_and!; [done| | |].
  - intros E. apply Hes. pose proof (sort_by_perm (λ a b, str_le (hash a) (hash b))
      (omap author_entry (hash_iter (author_ranges las)))) as Hp. rewrite E in Hp.
    by apply Permutation_nil in Hp.
  - apply sort_by_sorted; intros *; [apply str_le_trans|apply str_le_total].
  - intros e. rewrite elem_of_sort_by. apply author_entries_elem.
Qed.

Lemma file_attestation_some path bytes las la :
  la ∈ las → line_author_id la ≠ HUMAN → is_Some (file_attestation nfc (path, (bytes, las))).
Proof.
  intros Hla Hh. unfold file_attestation. rewrite bool_decide_false by (intros ->; set_solver).
  destruct (author_ranges_some las la Hla Hh) as [bs Hbs]. rewrite bool_decide_false; [done|].
  intros E. apply (not_elem_of_nil (mkEntry (line_author_id la) (map bounds_range (merged_bounds (sort_by bounds_le bs))))).
  rewrite <-E. apply author_entries_elem. by exists bs.
Qed.

(** *** All files *)

Lemma elem_of_attestations m f :
  f ∈ build_attestations_from_attributions nfc m ↔
  ∃ path fa, m !! path = Some fa ∧ file_attestation nfc (path, fa) = Some f.
Proof.
  unfold build_attestations_from_attributions. rewrite elem_of_sort_by, list_elem_of_omap. split.
  - intros ([path fa] & Hin & Hf). apply elem_of_hash_iter in Hin. eauto.
  - intros (path & fa & Hin & Hf). exists (path, fa). by rewrite elem_of_hash_iter.
Qed.

Lemma attestations_cover md m file h l :
  (∀ path fa la, m !! path = Some fa → la ∈ fa.2 → start_line la <= u32_max) →
  covers (mkLog (build_attestations_from_attributions nfc m) md) file h l ↔
  h ≠ HUMAN ∧ ∃ path, nfc path = file ∧ attributed m path h l.
Proof.
  intros Hb. unfold covers, files_cover, entries_cover. cbn [AuthorshipLog.attestations].
  setoid_rewrite elem_of_attestations. split.
  - intros (f & (path & [bytes las] & Hm & Hf) & <- & e & He & <- & Hc).
    apply file_attestation_spec in Hf as (-> & _ & _ & Hes). apply Hes in He as (bs & Hbs & Hr).
    apply author_ranges_lookup in Hbs as (Hh & _ & Hel). split; [done|]. exists path. split; [done|].
    rewrite Hr, contains_bounds, merged_bounds_lines in Hc.
    + destruct Hc as (b & Hin & Hbl). apply Hel in Hin as (la & Hla & Ha & ->).
      exists bytes, las, la. by rewrite covers_line_true.
    + apply Forall_forall. intros b (la & Hla & _ & ->)%Hel. by eapply (Hb path (bytes, las)).
  - intros (Hh & path & <- & bytes & las & la & Hm & Hla & Ha & Hc). subst h.
    destruct (file_attestation_some path bytes las la Hla Hh) as [f Hf].
    pose proof (file_attestation_spec _ _ _ _ Hf) as (Hp & _ & _ & Hes).
    destruct (author_ranges_some las la Hla Hh) as [bs Hbs].
    exists f. split_and!; [by eauto|done|].
    exists (mkEntry (line_author_id la) (map bounds_range (merged_bounds (sort_by bounds_le bs)))).
    split_and!; [by apply Hes; exists bs|done|]. cbn [line_ranges].
    apply author_ranges_lookup in Hbs as (_ & _ & Hel).
    rewrite contains_bounds, merged_bounds_lines.
    + exists (start_line la, end_line la). apply covers_line_true in Hc. split; [|done]. apply Hel. eauto.
    + apply Forall_forall. intros b (la' & Hla' & _ & ->)%Hel. by eapply (Hb path (bytes, las)).
Qed.

Lemma attestations_entries m f e :
  (∀ path fa, m !! path = Some fa → Forall proper_lines fa.2) →
  f ∈ build_attestations_from_attributions nfc m → e ∈ entries f →
  canonical (line_ranges e) ∧ line_ranges e ≠ [].
Proof.
  intros Hp Hf He. apply elem_of_attestations in Hf as (path & [bytes las] & Hm & Hf).
  apply file_attestation_spec in Hf as (_ & _ & _ & Hes). apply Hes in He as (bs & Hbs & ->).
  apply author_ranges_lookup in Hbs as (_ & Hne & Hel). split.
  - apply merged_bounds_canonical. apply Forall_forall. intros b (la & Hla & _ & ->)%Hel.
    specialize (Hp _ _ Hm). rewrite Forall_forall in Hp. destruct (Hp _ Hla) as (_ & ? & ?). done.
  - intros E%map_eq_nil. destruct bs as [|b bs]; [done|]. 
    assert (length (sort_by bounds_le (b :: bs)) = S (length bs)) as Hl by by rewrite length_sort_by.
    destruct (sort_by bounds_le (b :: bs)) as [|c cs]; [done|]. cbn [merged_bounds] in E. clear Hl Hel.
    revert c E. induction cs as [|[s e'] cs IH]; intros c; cbn [merge_bounds]; [done|].
    case_match; [apply IH|done].
Qed.
End Order.

(** The iteration orders do not matter. *)
Lemma file_attestation_order (o1 o2 : HashOrder) nfc fa :
  file_attestation (order := o1) nfc fa = file_attestation (order := o2) nfc fa.
Proof.
  destruct fa as [path [bytes las]]. unfold file_attestation. case_bool_decide; [done|].
  assert (omap author_entry (hash_iter (H := o1) (author_ranges las)) ≡ₚ
          omap author_entry (hash_iter (H := o2) (author_ranges las))) as Hp
    by (by rewrite !hash_iter_perm).
  rewrite (sort_by_key_unique hash _ _ (author_entries_hash las) Hp).
  case_bool_decide as H1; case_bool_decide as H2; try done.
  - rewrite H1 in Hp. by apply Permutation_nil in Hp.
  - rewrite H2 in Hp. symmetry in Hp. by apply Permutation_nil in Hp.
Qed.

Lemma build_order (o1 o2 : HashOrder) nfc m :
  (∀ p q, is_Some (m !! p) → is_Some (m !! q) → nfc p = nfc q → p = q) →
  build_attestations_from_attributions (order := o1) nfc m =
  build_attestations_from_attributions (order := o2) nfc m.
Proof.
  intros Hinj. unfold build_attestations_from_attributions.
  apply (sort_by_key_unique file_path).
  - intros x y Hx Hy E. apply list_elem_of_omap in Hx as ([p fa] & Hp & Hx), Hy as ([q fb] & Hq & Hy).
    apply elem_of_hash_iter in Hp, Hq. destruct fa as [ba la], fb as [bb lb].
    pose proof (file_attestation_spec _ _ _ _ _ Hx) as (Ex & _). pose proof (file_attestation_spec _ _ _ _ _ Hy) as (Ey & _).
    assert (p = q) as <- by (apply Hinj; [eauto..|congruence]). rewrite Hp in Hq. congruence.
  - rewrite !hash_iter_perm. induction (map_to_list m) as [|fa l IH]; [done|]. cbn.
    rewrite (file_attestation_order o1 o2). by destruct (file_attestation _ _); rewrite IH.
Qed.

(** *** Lines attested once *)

Lemma flat_map_bind {A B} (f : A → list B) l : flat_map f l = l ≫= f.
Proof. induction l as [|x l IH]; [done|]. cbn. by rewrite IH. Qed.

Lemma canonical_lines_once rs : canonical rs → NoDup (flat_map expand rs).
Proof.
  intros [Hp Hs]. induction Hs as [|r rs Hs IH Hr]; cbn; [constructor|].
  inversion_clear Hp as [|? ? Pr Ps]. apply NoDup_app. split_and!; [|clear IH|by apply IH].
  - destruct r; cbn; [apply NoDup_singleton|apply NoDup_seqZ].
  - intros l Hl%elem_of_expand Hls%elem_of_flat_expand. apply contains_any_true in Hls as (r' & Hin & Hc).
    rewrite Forall_forall in Hr, Ps. specialize (Hr r' Hin). specialize (Ps r' Hin). unfold separated in Hr.
    destruct r, r'; cbn in *; bool_hyps; lia.
Qed.

Lemma author_entries_NoDup (l : list (str * list (Z * Z))) : NoDup l.*1 → NoDup (omap author_entry l).
Proof.
  induction l as [|[h bs] l IH]; [constructor|]. intros [Hh Hn]%NoDup_cons. cbn.
  destruct (author_entry (h, bs)) as [e|] eqn:E; [|by apply IH]. apply NoDup_cons. split; [|by apply IH].
  intros ([h' bs'] & Hin & E')%list_elem_of_omap. apply Hh. apply list_elem_of_fmap.
  exists (h', bs'). split; [|done]. unfold author_entry in E, E'. cbn [fst snd] in *.
  repeat case_bool_decide; naive_solver.
Qed.

Definition lines_disjoint (las : list LineAttribution) : Prop :=
  ∀ la lb l, la ∈ las → lb ∈ las → covers_line la l = true → covers_line lb l = true →
             line_author_id la = line_author_id lb.

(** When no two authors own a line, it is attested once. *)
Lemma file_attestation_once `{order : HashOrder} nfc path bytes las f :
  Forall proper_lines las → lines_disjoint las →
  file_attestation nfc (path, (bytes, las)) = Some f →
  NoDup (flat_map (λ e, flat_map expand (line_ranges e)) (entries f)).
Proof.
  intros Hp Hd Hf. rewrite flat_map_bind. apply NoDup_bind.
  - intros e e' l He He' Hl%elem_of_flat_expand Hl'%elem_of_flat_expand.
    apply file_attestation_spec in Hf as (_ & _ & _ & Hes).
    pose proof (proj1 (Hes e) He) as (bs & Hbs & Hr). pose proof (proj1 (Hes e') He') as (bs' & Hbs' & Hr').
    assert (hash e = hash e') as E.
    { assert (∀ e bs, author_ranges las !! hash e = Some bs →
        contains_any (map bounds_range (merged_bounds (sort_by bounds_le bs))) l = true →
        ∃ la, la ∈ las ∧ line_author_id la = hash e ∧ covers_line la l = true) as Hx.
      { clear -Hp. intros e bs Hbs Hc. apply author_ranges_lookup in Hbs as (_ & _ & Hel).
        rewrite contains_bounds, merged_bounds_lines in Hc.
        - destruct Hc as (b & (la & Hla & Ha & ->)%Hel & Hl). exists la. by rewrite covers_line_true.
        - apply Forall_forall. intros b (la & Hla & _ & ->)%Hel. rewrite Forall_forall in Hp.
          destruct (Hp la Hla) as (_ & ? & ?). cbn. lia. }
      rewrite Hr in Hl. rewrite Hr' in Hl'.
      destruct (Hx e bs Hbs Hl) as (la & Hla & <- & Hc), (Hx e' bs' Hbs' Hl') as (lb & Hlb & <- & Hc').
      by eapply Hd. }
    rewrite E, Hbs' in Hbs. injection Hbs as ->. destruct e, e'. cbn in *. congruence.
  - intros e He. apply file_attestation_spec in Hf as (_ & _ & _ & Hes). apply Hes in He as (bs & Hbs & ->).
    apply canonical_lines_once, merged_bounds_canonical. apply Forall_forall.
    apply author_ranges_lookup in Hbs as (_ & _ & Hel). intros b (la & Hla & _ & ->)%Hel.
    rewrite Forall_forall in Hp. destruct (Hp la Hla) as (_ & ? & ?). done.
  - revert Hf. unfold file_attestation. case_bool_decide; [done|]. case_bool_decide; [done|].
    intros [= <-]. cbn [entries]. rewrite sort_by_perm.
    apply author_entries_NoDup, hash_iter_NoDup.
Qed.

Lemma attestations_once `{order : HashOrder} nfc m md :
  (∀ p q, is_Some (m !! p) → is_Some (m !! q) → nfc p = nfc q → p = q) →
  (∀ path fa, m !! path = Some fa → Forall proper_lines fa.2 ∧ lines_disjoint fa.2) →
  Stats.Stats.lines_once (mkLog (build_attestations_from_attributions nfc m) md).
Proof.
  intros Hinj Hm. split; cbn [AuthorshipLog.attestations].
  - unfold build_attestations_from_attributions. rewrite sort_by_perm.
    pose proof (hash_iter_NoDup m) as Hn.
    assert (∀ kv, kv ∈ hash_iter m → is_Some (m !! kv.1)) as Hin
      by (intros [k x] H%elem_of_hash_iter; by exists x).
    induction (hash_iter m) as [|[p fa] l IH]; [constructor|]. cbn in Hn. apply NoDup_cons in Hn as [Hp Hn].
    assert (∀ kv, kv ∈ l → is_Some (m !! kv.1)) as Hin' by (intros; apply Hin; by right).
    cbn. destruct (file_attestation nfc (p, fa)) as [f|] eqn:Ef; [|by apply IH].
    cbn. apply NoDup_cons. split; [|by apply IH]. intros Hf. apply Hp.
    apply list_elem_of_fmap in Hf as (f' & E & Hf'). apply list_elem_of_omap in Hf' as ([q fb] & Hq & Eq).
    destruct fa, fb. apply file_attestation_spec in Ef as (Ef & _), Eq as (Eq & _).
    apply list_elem_of_fmap. eexists. split; [|exact Hq]. cbn.
    apply Hinj; [by eapply (Hin (p, (_, _))); left|by eapply (Hin' (q, (_, _)))|congruence].
  - apply Forall_forall. intros f (path & [bytes las] & Hp & Hf)%elem_of_attestations.
    destruct (Hm _ _ Hp). by eapply file_attestation_once.
Qed.

Lemma committed_hunks_lines diff pathspecs path l :
  map_Forall (λ _ ls, StronglySorted Z.lt ls ∧ Forall is_u32 ls) (added_lines_by_file diff) →
  contains_any (default [] (committed_hunks_from_diff_result diff pathspecs !! path)) l = true ↔
  (∀ paths, pathspecs = Some paths → path ∈ paths) ∧ 0 < l ∧
  ∃ ls, added_lines_by_file diff !! path = Some ls ∧ l ∈ ls.
Proof.
  intros Hm. unfold committed_hunks_from_diff_result. rewrite map_lookup_imap.
  destruct (added_lines_by_file diff !! path) as [ls|] eqn:E; cbn; [|naive_solver].
  destruct (Hm _ _ E) as [Hs Hu]. clear E.
  destruct (match pathspecs with Some paths => negb (bool_decide (path ∈ paths)) | None => false end) eqn:Ep.
  - cbn. split; [done|]. intros [H _]. destruct pathspecs as [paths|]; [|done].
    rewrite bool_decide_true in Ep by by apply H. done.
  - transitivity (l ∈ List.filter (λ line, 0 <? line) ls).
    + case_bool_decide as En; cbn; [by rewrite En; split; [|intros ?%not_elem_of_nil]|].
      apply contains_any_compress; [|by apply StronglySorted_filter].
      apply Forall_forall. intros x [Hx _]%elem_of_filter_b. rewrite Forall_forall in Hu. by apply Hu.
    + rewrite elem_of_filter_b, Z.ltb_lt. split.
      * intros [Hl H0]. split_and!; [|done|by eauto]. intros paths ->.
        destruct (decide (path ∈ paths)) as [|Hn]; [done|]. by rewrite bool_decide_false in Ep.
      * intros (_ & H0 & ? & [= ->] & Hl). done.
Qed.

End AttestationsFacts.

(** ** Properties *)

Module AttestationsProps.
Import LineRange AuthorshipLog Attribution HashIter HashIterFacts Attestations AttestationsFacts.
Import DiffTree(DiffTreeResult, mkDiffTree, added_lines_by_file).

(** the attestations of line attributions attest a line to a key exactly
    when an attribution in a file with that path gives the line to that author
    and the author is not the unattested human; the ranges of an entry are
    canonical; whatever order the maps are iterated in, the note is the same;
    and when no two authors own a line, each line is attested once, as the
    statistics of a commit require. *)
Theorem attestations_of_attributions `{order : HashOrder} (nfc : str → str)
    (m : gmap str FileAttributions) (md : AuthorshipMetadata)
    (paths_apart : ∀ p q, is_Some (m !! p) → is_Some (m !! q) → nfc p = nfc q → p = q)
    (lines_proper : map_Forall (λ _ fa, Forall proper_lines fa.2) m) :
  let log := mkLog (build_attestations_from_attributions nfc m) md in
  (∀ file h l, covers log file h l ↔ h ≠ HUMAN ∧ ∃ path, nfc path = file ∧ attributed m path h l) ∧
  (∀ f e, f ∈ attestations log → e ∈ entries f → canonical (line_ranges e) ∧ line_ranges e ≠ []) ∧
  (∀ order' : HashOrder, build_attestations_from_attributions (order := order') nfc m = attestations log) ∧
  (map_Forall (λ _ fa, lines_disjoint fa.2) m → Stats.Stats.lines_once log).
Proof.
  intros log. split_and!.
  - intros file h l. apply attestations_cover. intros path fa la Hm Hla. specialize (lines_proper _ _ Hm).
    rewrite Forall_forall in lines_proper. destruct (lines_proper la Hla) as (_ & ? & ?). lia.
  - intros f e Hf He. eapply (attestations_entries nfc m); [|done..]. apply lines_proper.
  - intros order'. by apply build_order.
  - intros Hd. apply attestations_once; [done|]. intros path fa Hp. split; [by eapply lines_proper|by eapply Hd].
Qed.

(** *** Witness *)

Definition sample_lines : list LineAttribution :=
  [mkLineAttr 5 6 (lit "s_a") None; mkLineAttr 1 2 (lit "human") None;
   mkLineAttr 3 4 (lit "s_a") None; mkLineAttr 9 9 (lit "h_b") (Some (lit "s_a"))].
Definition sample_map : gmap str FileAttributions :=
  {[lit "b.rs" := ([], sample_lines); lit "a.rs" := ([], [mkLineAttr 1 1 (lit "s_a") None])]}.

Lemma attestations_of_attributions_witness :
  let build o := build_attestations_from_attributions (order := o) id sample_map in
  build reversed = build in_order ∧
  build in_order =
    [mkFile (lit "a.rs") [mkEntry (lit "s_a") [Single 1]];
     mkFile (lit "b.rs") [mkEntry (lit "h_b") [Single 9]; mkEntry (lit "s_a") [Range 3 6]]].
Proof.
  split; [|vm_compute; reflexivity].
  destruct (attestations_of_attributions (order := in_order) id sample_map (new_metadata []))
    as (_ & _ & H & _); [done| |exact (H reversed)].
  intros path fa. unfold sample_map. rewrite lookup_insert_Some, lookup_singleton_Some.
  intros [[_ <-]|[_ [_ <-]]]; repeat constructor; done.
Defined.

End AttestationsProps.
