(* ===== verification/CharMerge.v ===== *)
(** * Merging byte attributions by precedence

    [merge_char_attributions] of src/src/authorship/virtual_attribution.rs:
    the primary attributions of a text win, the secondary ones fill the
    characters no primary attribution touches.  A slice outside character
    boundaries is a panic. *)

From S2P Require Import Prelude Text Attribution AttributionMerge Transform LineMeta DiffCompute.

Module CharMerge.
Import Text Attribution LineMeta DiffCompute.

(** [covered[i] = true] for [i] in [start..end.min(content_len)]. *)
Definition cover (covered : list bool) (attr : Attribution) : list bool :=
  foldl (λ m i, <[i := true]> m) covered
    (seq (start attr) (Nat.min (end_ attr) (length covered) - start attr)).

Definition coverage (content_len : nat) (primary : list Attribution) : list bool :=
  foldl cover (replicate content_len false) primary.

(** Some byte from [s] to before [e.min(content_len)] is covered. *)
Definition char_covered (covered : list bool) (s e : nat) : bool :=
  existsb (λ i, bool_decide (covered !! i = Some true)) (seq s (Nat.min e (length covered) - s)).

(** The loop over the characters of a slice; the ranges pushed and the start
    of the range that is open at the end. *)
Fixpoint fill_loop (covered : list bool) (attr : Attribution) (range_start : option nat)
    (start : nat) (cs : list str) : list Attribution * option nat :=
  match cs with
  | [] => ([], range_start)
  | ch :: cs' =>
      let end_ := start + length ch in
      if char_covered covered start end_ then
        let '(rest, open) := fill_loop covered attr None end_ cs' in
        match range_start with
        | Some s => if s <? start then (mkAttr s start (author_id attr) (ts attr) :: rest, open) else (rest, open)
        | None => (rest, open)
        end
      else
        fill_loop covered attr (match range_start with None => Some start | Some _ => range_start end) end_ cs'
  end.

(** What one secondary attribution adds. *)
Definition fill_attribution (content : str) (covered : list bool) (attr : Attribution) : result (list Attribution) :=
  let safe_start := floor_char_boundary content (start attr) in
  let safe_end := ceil_char_boundary content (end_ attr) in
  if safe_end <=? safe_start then Ret []
  else
    let? text := str_slice content safe_start safe_end in
    let '(pushed, open) := fill_loop covered attr None safe_start (chars text) in
    Ret (pushed ++ match open with
                   | Some s => if s <? safe_end then [mkAttr s safe_end (author_id attr) (ts attr)] else []
                   | None => []
                   end).

Fixpoint fill_all (content : str) (covered : list bool) (secondary : list Attribution) : result (list Attribution) :=
  match secondary with
  | [] => Ret []
  | attr :: secondary' =>
      let? pushed := fill_attribution content covered attr in
      let? rest := fill_all content covered secondary' in
      Ret (pushed ++ rest)
  end.

(** The key [(a.start, a.end)]. *)
Definition range_le (a b : Attribution) : bool :=
  (start a <? start b) || ((start a =? start b) && (end_ a <=? end_ b)).

Definition merge_char_attributions (primary secondary : list Attribution) (content : str) : result (list Attribution) :=
  if length content =? 0 then Ret primary
  else
    let covered := coverage (length content) primary in
    let? filled := fill_all content covered secondary in
    Ret (sort_by range_le (primary ++ filled)).

End CharMerge.

(** ** Lemmas *)

Module CharMergeFacts.
Import Text Attribution AttributionFacts AttributionMerge AttributionMergeFacts LineMeta LineMetaFacts DiffCompute CharMerge.

(** *** Character boundaries of valid text *)

(** The character of a text at an offset. *)
Definition char_at (content : str) (cs1 : list str) (ch : str) (cs2 : list str) (p : nat) : Prop :=
  chars content = cs1 ++ ch :: cs2 ∧ length (concat cs1) ≤ p < length (concat cs1) + length ch.

Lemma char_at_exists content p : is_utf8 content = true → p < length content →
  ∃ cs1 ch cs2, char_at content cs1 ch cs2 p.
Proof.
  intros _ Hp. unfold char_at. rewrite <-(concat_chars content) in Hp.
  induction (chars content) as [|ch cs IH] in p, Hp |- *; cbn [concat] in Hp; [cbn in Hp; lia|].
  rewrite length_app in Hp. destruct (decide (p < length ch)) as [H|H].
  - exists [], ch, cs. split; [done|]. cbn. lia.
  - destruct (IH (p - length ch)) as (cs1 & c & cs2 & -> & Hc); [lia|].
    exists (ch :: cs1), c, cs2. split; [done|]. cbn [concat]. rewrite length_app. lia.
Qed.

Lemma char_at_utf8 content cs1 ch cs2 p :
  is_utf8 content = true → char_at content cs1 ch cs2 p →
  content = concat cs1 ++ ch ++ concat cs2 ∧ forallb utf8_char cs1 = true ∧ utf8_char ch = true ∧
  forallb utf8_char cs2 = true.
Proof.
  unfold is_utf8. intros Hu [Hc _]. rewrite Hc, forallb_app in Hu. cbn [forallb] in Hu.
  apply andb_true_iff in Hu as [H1 Hu]. apply andb_true_iff in Hu as [H2 H3]. split_and!; [|done..].
  rewrite <-(concat_chars content), Hc, concat_app. done.
Qed.

Lemma char_at_boundary content cs1 ch cs2 p i :
  is_utf8 content = true → char_at content cs1 ch cs2 p →
  length (concat cs1) ≤ i < length (concat cs1) + length ch →
  is_char_boundary content i = bool_decide (i = length (concat cs1)).
Proof.
  intros Hu Hc Hi. destruct (char_at_utf8 _ _ _ _ _ Hu Hc) as (E & H1 & H2 & H3).
  case_bool_decide as Ei.
  - subst i. apply boundary_is_char_boundary, (boundary_split _ cs1 (ch :: cs2)); [exact E|exact H1|].
    cbn [forallb]. by rewrite H2.
  - unfold is_char_boundary. rewrite (proj2 (Nat.eqb_neq _ _)) by lia.
    rewrite (proj2 (Nat.eqb_neq i (length content))) by (rewrite E, !length_app; lia).
    rewrite E, lookup_app_r, lookup_app_l by lia. destruct ch as [|c rest]; [cbn in Hi; lia|].
    cbn [utf8_char] in H2. apply andb_true_iff in H2 as [_ H2].
    destruct (i - length (concat cs1)) as [|j] eqn:Ej; [lia|]. cbn [lookup list_lookup].
    destruct (rest !! j) as [d|] eqn:Ed; [|apply lookup_ge_None in Ed; cbn in Hi; lia].
    rewrite forallb_forall in H2. by rewrite (H2 d) by by eapply list_elem_of_In, list_elem_of_lookup_2.
Qed.

Lemma floor_of_char content cs1 ch cs2 p :
  is_utf8 content = true → char_at content cs1 ch cs2 p →
  floor_char_boundary content p = length (concat cs1).
Proof.
  intros Hu Hc. pose proof (char_at_utf8 _ _ _ _ _ Hu Hc) as (E & _ & _ & _).
  assert (length content = length (concat cs1) + length ch + length (concat cs2)) as El
    by (rewrite E, !length_app; lia).
  pose proof (λ i, char_at_boundary _ _ _ _ _ i Hu Hc) as Hb. destruct Hc as [_ Hp].
  unfold floor_char_boundary. rewrite Nat.min_l by lia.
  induction p as [|p IH]; [cbn; lia|]. cbn [floor_loop]. rewrite Hb by lia.
  destruct (decide (S p = length (concat cs1))) as [Ep|Ep].
  - by rewrite bool_decide_true.
  - rewrite bool_decide_false by done. apply IH. lia.
Qed.

Lemma ceil_of_char content cs1 ch cs2 p :
  is_utf8 content = true → char_at content cs1 ch cs2 p →
  ceil_char_boundary content p =
  if bool_decide (p = length (concat cs1)) then p else length (concat cs1) + length ch.
Proof.
  intros Hu Hc. pose proof (char_at_utf8 _ _ _ _ _ Hu Hc) as (E & H1 & H2 & H3).
  assert (length content = length (concat cs1) + length ch + length (concat cs2)) as El
    by (rewrite E, !length_app; lia).
  unfold ceil_char_boundary. destruct Hc as [Hc Hp]. rewrite Nat.min_l by lia.
  assert (∀ fuel i, length (concat cs1) < i ≤ length (concat cs1) + length ch →
    fuel = length content - i → ceil_loop content fuel i = length (concat cs1) + length ch) as Hl.
  { induction fuel as [|fuel IH]; intros i Hi Hf; cbn [ceil_loop]; [lia|].
    destruct (decide (i = length (concat cs1) + length ch)) as [->|Hne].
    - assert (is_char_boundary content (length (concat cs1) + length ch) = true) as ->; [|done].
      replace (length (concat cs1) + length ch) with (length (concat (cs1 ++ [ch])))
        by (rewrite concat_app, length_app; cbn; rewrite app_nil_r; done).
      apply boundary_is_char_boundary, (boundary_split _ _ cs2).
      + rewrite concat_app. cbn. rewrite app_nil_r. by rewrite <-app_assoc.
      + rewrite forallb_app, H1. cbn. by rewrite H2.
      + done.
    - rewrite (char_at_boundary content cs1 ch cs2 i) by (done || (split; [done|lia]) || lia).
      rewrite bool_decide_false by lia. apply IH; lia. }
  destruct (length content - p) as [|fuel] eqn:Ef; [lia|]. cbn [ceil_loop].
  rewrite (char_at_boundary content cs1 ch cs2 p) by (done || (split; [done|lia]) || lia).
  case_bool_decide; [done|]. apply Hl; lia.
Qed.

(** Two characters of a text are the same or one ends before the other. *)
Lemma chars_cmp (cs1 cs2 cs1' cs2' : list str) ch ch' :
  cs1 ++ ch :: cs2 = cs1' ++ ch' :: cs2' →
  (cs1 = cs1' ∧ ch = ch' ∧ cs2 = cs2') ∨
  length (concat cs1) + length ch ≤ length (concat cs1') ∨
  length (concat cs1') + length ch' ≤ length (concat cs1).
Proof.
  revert cs1'. induction cs1 as [|c cs1 IH]; intros [|c' cs1'] E; cbn [app] in E; injection E as ? E; subst.
  - by left.
  - right; left. cbn [concat]. rewrite length_app. cbn. lia.
  - right; right. cbn [concat]. rewrite length_app. cbn. lia.
  - destruct (IH cs1' E) as [(-> & -> & ->)|H]; [by left|right]. cbn [concat]. rewrite !length_app. lia.
Qed.

Lemma char_at_unique content cs1 ch cs2 cs1' ch' cs2' p :
  char_at content cs1 ch cs2 p → char_at content cs1' ch' cs2' p → cs1 = cs1' ∧ ch = ch' ∧ cs2 = cs2'.
Proof.
  intros [H Hp] [H' Hp']. rewrite H in H'. destruct (chars_cmp _ _ _ _ _ _ H') as [?|?]; [done|lia].
Qed.

Lemma char_at_length content cs1 ch cs2 p :
  char_at content cs1 ch cs2 p → length (concat cs1) + length ch ≤ length content.
Proof.
  intros [H _]. rewrite <-(concat_chars content), H, concat_app, !length_app. cbn. rewrite length_app. lia.
Qed.

(** A character lies after the floor of [i] when it ends after [i], and before
    the ceiling of [i] when it starts before [i]. *)
Lemma floor_le_char content cs1 ch cs2 p i :
  is_utf8 content = true → char_at content cs1 ch cs2 p →
  floor_char_boundary content i ≤ length (concat cs1) ↔ i < length (concat cs1) + length ch.
Proof.
  intros Hu Hc. pose proof (char_at_length _ _ _ _ _ Hc) as Hl. destruct (decide (i < length content)) as [Hi|Hi].
  - destruct (char_at_exists content i Hu Hi) as (ds1 & d & ds2 & Hd). rewrite (floor_of_char _ _ _ _ _ Hu Hd).
    destruct Hc as [Hc Hp], Hd as [Hd Hdi]. rewrite Hc in Hd.
    destruct (chars_cmp _ _ _ _ _ _ Hd) as [(-> & -> & ->)|?]; lia.
  - unfold floor_char_boundary. rewrite Nat.min_r by lia. destruct Hc as [_ Hp].
    assert (floor_loop content (length content) = length content) as ->; [|lia].
    destruct (length content) as [|n] eqn:E; [done|]. cbn [floor_loop]. rewrite <-E.
    by rewrite boundary_is_char_boundary by by apply boundary_end.
Qed.

Lemma char_lt_ceil content cs1 ch cs2 p i :
  is_utf8 content = true → char_at content cs1 ch cs2 p →
  length (concat cs1) < ceil_char_boundary content i ↔ length (concat cs1) < i.
Proof.
  intros Hu Hc. pose proof (char_at_length _ _ _ _ _ Hc) as Hl. destruct (decide (i < length content)) as [Hi|Hi].
  - destruct (char_at_exists content i Hu Hi) as (ds1 & d & ds2 & Hd). rewrite (ceil_of_char _ _ _ _ _ Hu Hd).
    case_bool_decide; [done|]. destruct Hc as [Hc Hp], Hd as [Hd Hdi]. rewrite Hc in Hd.
    destruct (chars_cmp _ _ _ _ _ _ Hd) as [(-> & -> & ->)|?]; lia.
  - unfold ceil_char_boundary. rewrite Nat.min_r, Nat.sub_diag by lia. cbn [ceil_loop]. destruct Hc as [_ Hp]. lia.
Qed.

Lemma char_start_boundary content cs1 cs2 :
  is_utf8 content = true → chars content = cs1 ++ cs2 → boundary content (length (concat cs1)).
Proof.
  unfold is_utf8. intros Hu E. rewrite E, forallb_app in Hu. apply andb_true_iff in Hu as [H1 H2].
  apply (boundary_split _ _ cs2); [|done..]. by rewrite <-concat_app, <-E, concat_chars.
Qed.

Lemma floor_boundary content i : is_utf8 content = true → boundary content (floor_char_boundary content i).
Proof.
  intros Hu. destruct (decide (i < length content)) as [Hi|Hi].
  - destruct (char_at_exists content i Hu Hi) as (ds1 & d & ds2 & Hd). rewrite (floor_of_char _ _ _ _ _ Hu Hd).
    destruct Hd as [Hd _]. by apply (char_start_boundary _ _ (d :: ds2)).
  - unfold floor_char_boundary. rewrite Nat.min_r by lia.
    destruct (length content) as [|n] eqn:E; [by apply boundary_0|]. cbn [floor_loop]. rewrite <-E.
    rewrite boundary_is_char_boundary by by apply boundary_end. by apply boundary_end.
Qed.

Lemma ceil_boundary content i : is_utf8 content = true → boundary content (ceil_char_boundary content i).
Proof.
  intros Hu. destruct (decide (i < length content)) as [Hi|Hi].
  - destruct (char_at_exists content i Hu Hi) as (ds1 & d & ds2 & Hd). rewrite (ceil_of_char _ _ _ _ _ Hu Hd).
    destruct Hd as [Hd _]. case_bool_decide as Ei; [rewrite Ei; by apply (char_start_boundary _ _ (d :: ds2))|].
    replace (length (concat ds1) + length d) with (length (concat (ds1 ++ [d])))
      by (rewrite concat_app, length_app; cbn; by rewrite app_nil_r).
    apply (char_start_boundary _ _ ds2); [done|]. by rewrite <-app_assoc.
  - unfold ceil_char_boundary. rewrite Nat.min_r, Nat.sub_diag by lia. by apply boundary_end.
Qed.

Lemma chars_slice content a b :
  a ≤ b → boundary content a → boundary content b →
  chars content = chars (take a content) ++ chars (slice a b content) ++ chars (drop b content).
Proof.
  intros Hab Ha Hb. pose proof (slice_utf8 content a b Hab Ha Hb) as Hs. destruct Ha as (_ & Ha & _).
  rewrite <-(chars_app (slice a b content)) by done. rewrite <-chars_app by done. f_equal.
  by destruct (take_slice_drop a b content Hab) as [? _].
Qed.

(** *** The coverage map *)

Lemma cover_lookup m a i :
  cover m a !! i = if (start a <=? i) && (i <? end_ a) && (i <? length m) then Some true else m !! i.
Proof.
  unfold cover.
  assert (∀ n s (m : list bool), foldl (λ m i, <[i := true]> m) m (seq s n) !! i =
    if (s <=? i) && (i <? s + n) && (i <? length m) then Some true else m !! i) as H.
  { induction n as [|n IH]; intros s m0; cbn [seq foldl].
    - rewrite Nat.add_0_r. destruct (Nat.leb_spec s i), (Nat.ltb_spec i s); try done; lia.
    - rewrite IH, length_insert. destruct (decide (i = s)) as [->|Hne].
      + rewrite (proj2 (Nat.leb_gt (S s) s)), (proj2 (Nat.leb_le s s)), (proj2 (Nat.ltb_lt s (s + S n))) by lia.
        cbn [andb]. destruct (Nat.ltb_spec s (length m0)); [by apply list_lookup_insert_eq|].
        rewrite list_insert_ge by lia. done.
      + rewrite list_lookup_insert_ne by done. replace (s + S n) with (S s + n) by lia.
        assert ((S s <=? i) = (s <=? i)) as ->; [|done]. apply eq_true_iff_eq. rewrite !Nat.leb_le. lia. }
  rewrite H. assert ((start a <=? i) && (i <? start a + (end_ a `min` length m - start a)) && (i <? length m) =
    (start a <=? i) && (i <? end_ a) && (i <? length m)) as ->; [|done].
  apply eq_true_iff_eq. rewrite !andb_true_iff, Nat.leb_le, !Nat.ltb_lt. lia.
Qed.

Lemma cover_length m a : length (cover m a) = length m.
Proof.
  unfold cover. generalize (seq (start a) (end_ a `min` length m - start a)). intros l. revert m.
  induction l as [|i l IH]; intros m; cbn; [done|]. by rewrite IH, length_insert.
Qed.

Lemma coverage_spec n primary i :
  coverage n primary !! i = Some true ↔ i < n ∧ ∃ a, a ∈ primary ∧ covers_byte a i = true.
Proof.
  unfold coverage. assert (∀ m : list bool, foldl cover m primary !! i = Some true ↔
    m !! i = Some true ∨ (i < length m ∧ ∃ a, a ∈ primary ∧ covers_byte a i = true)) as H.
  { induction primary as [|a l IH]; intros m; cbn [foldl].
    - split; [auto|]. intros [?|(_ & a & Ha & _)]; [done|]. by apply not_elem_of_nil in Ha.
    - rewrite IH, cover_lookup, cover_length. setoid_rewrite elem_of_cons.
      fold (covers_byte a i). destruct (covers_byte a i) eqn:Ec; cbn [andb].
      + destruct (Nat.ltb_spec i (length m)); [naive_solver|].
        split; (intros [?|[? _]]; [by left|lia]).
      + split; (intros [?|[? (b & Hb & Hc)]]; [by left|right; split; [done|]]); [by exists b; auto|].
        destruct Hb as [->|Hb]; [by rewrite Ec in Hc|by exists b]. }
  rewrite H, length_replicate, lookup_replicate. naive_solver.
Qed.

Lemma coverage_length n primary : length (coverage n primary) = n.
Proof.
  unfold coverage. rewrite <-(length_replicate n false) at 2. generalize (replicate n false).
  induction primary as [|a l IH]; intros m; cbn; [done|]. by rewrite IH, cover_length.
Qed.

(** Some primary attribution covers a byte of the range. *)
Definition touched (primary : list Attribution) (s e : nat) : Prop :=
  ∃ q, s ≤ q < e ∧ ∃ a, a ∈ primary ∧ covers_byte a q = true.

Lemma char_covered_spec n primary s e :
  e ≤ n → char_covered (coverage n primary) s e = true ↔ touched primary s e.
Proof.
  intros He. unfold char_covered, touched. rewrite coverage_length, Nat.min_l, existsb_exists by done.
  split.
  - intros (q & Hq%in_seq & Hc%bool_decide_eq_true). apply coverage_spec in Hc as [_ Hc]. exists q. split; [lia|done].
  - intros (q & Hq & Ha). exists q. rewrite in_seq, bool_decide_eq_true, coverage_spec. split; [lia|]. split; [lia|done].
Qed.

(** *** Filling *)

Section Fill.
Context (covered : list bool) (attr : Attribution).

(** The bytes of the characters that are not covered. *)
Fixpoint free_from (idx : nat) (cs : list str) (p : nat) : Prop :=
  match cs with
  | [] => False
  | ch :: cs' =>
      (idx ≤ p < idx + length ch ∧ char_covered covered idx (idx + length ch) = false) ∨
      free_from (idx + length ch) cs' p
  end.

Definition close_range (hi : nat) (st : list Attribution * option nat) : list Attribution :=
  st.1 ++ match st.2 with
          | Some s => if s <? hi then [mkAttr s hi (author_id attr) (ts attr)] else []
          | None => []
          end.

Lemma fill_loop_owned rs idx cs p w t :
  Forall (λ ch, 0 < length ch) cs →
  match rs with Some s => s < idx | None => True end →
  owned (close_range (idx + length (concat cs)) (fill_loop covered attr rs idx cs)) p w t ↔
  author_id attr = w ∧ ts attr = t ∧ ((∃ s, rs = Some s ∧ s ≤ p < idx) ∨ free_from idx cs p).
Proof.
  revert rs idx. induction cs as [|ch cs IH]; intros rs idx Hcs Hrs; cbn [fill_loop free_from concat length].
  { rewrite Nat.add_0_r. unfold close_range. cbn [fst snd app]. destruct rs as [s|].
    - rewrite (proj2 (Nat.ltb_lt _ _) Hrs), owned_singleton. naive_solver.
    - split; [by intros ?%owned_nil|]. naive_solver. }
  apply Forall_cons in Hcs as [Hch Hcs]. rewrite length_app, Nat.add_assoc.
  destruct (char_covered covered idx (idx + length ch)).
  - destruct (fill_loop covered attr None (idx + length ch) cs) as [rest open] eqn:E.
    pose proof (IH None (idx + length ch) Hcs I) as H. rewrite E in H.
    destruct rs as [s|].
    + rewrite (proj2 (Nat.ltb_lt _ _) Hrs). unfold close_range in *. cbn [fst snd app] in *.
      rewrite owned_cons, H. cbn [start end_ author_id ts]. naive_solver.
    + rewrite H. naive_solver.
  - rewrite IH by (done || by destruct rs; lia). destruct rs as [s|].
    + split; (intros (Hw & Ht & Hp); split_and!; [done..|]).
      * destruct Hp as [(s' & [= <-] & Hs')|Hf]; [|auto].
        destruct (decide (p < idx)); [left; exists s; split; [done|lia]|right; left; split; [lia|done]].
      * destruct Hp as [(s' & [= <-] & Hs')|[[? _]|Hf]]; [left; exists s; split; [done|lia]..|auto].
    + split; (intros (Hw & Ht & Hp); split_and!; [done..|]).
      * destruct Hp as [(s' & [= <-] & Hs')|Hf]; [right; left; done|auto].
      * destruct Hp as [(? & ? & _)|[[? _]|Hf]]; [done|left; by exists idx|auto].
Qed.

Lemma free_from_gap content cs1 ch cs2 p A M B :
  char_at content cs1 ch cs2 p → chars content = A ++ M ++ B →
  free_from (length (concat A)) M p ↔
  length (concat A) ≤ length (concat cs1) ∧
  length (concat cs1) + length ch ≤ length (concat A) + length (concat M) ∧
  char_covered covered (length (concat cs1)) (length (concat cs1) + length ch) = false.
Proof.
  intros Hc. pose proof Hc as [Hch Hp]. revert A. induction M as [|c M IH]; intros A E; cbn [free_from concat length].
  - split; [done|]. intros (? & ? & _). lia.
  - specialize (IH (A ++ [c])). rewrite concat_app, length_app in IH. cbn [concat] in IH.
    rewrite app_nil_r in IH. rewrite IH by (by rewrite E, <-app_assoc). rewrite length_app.
    pose proof E as E'. rewrite Hch in E'. cbn [app] in E'.
    destruct (chars_cmp _ _ _ _ _ _ E') as [(<- & <- & _)|[H|H]]; split.
    + intros [[_ ?]|(? & ? & ?)]; [split_and!; [lia|lia|done]|lia].
    + intros (_ & _ & ?). left. done.
    + intros [[? _]|(? & ? & ?)]; lia.
    + intros (? & ? & ?). lia.
    + intros [[? _]|(? & ? & ?)]; [lia|split_and!; [lia|lia|done]].
    + intros (? & ? & ?). right. split_and!; [lia|lia|done].
Qed.

(** Nothing outside the characters walked is free. *)
Lemma free_from_range idx cs p : free_from idx cs p → idx ≤ p < idx + length (concat cs).
Proof.
  revert idx. induction cs as [|ch cs IH]; intros idx; cbn [free_from concat]; [done|].
  rewrite length_app. intros [[? _]|H%IH]; lia.
Qed.
End Fill.

Lemma boundary_le content i : boundary content i → i ≤ length content.
Proof. by intros [? _]. Qed.

Lemma concat_chars_length s : length (concat (chars s)) = length s.
Proof. by rewrite concat_chars. Qed.

Lemma fill_attribution_spec content covered attr :
  is_utf8 content = true →
  ∃ pushed, fill_attribution content covered attr = Ret pushed ∧
    (∀ p w t, length content ≤ p → ¬ owned pushed p w t) ∧
    ∀ cs1 ch cs2 p w t, char_at content cs1 ch cs2 p →
      owned pushed p w t ↔
      author_id attr = w ∧ ts attr = t ∧ overlaps attr (length (concat cs1)) (length (concat cs1) + length ch) = true ∧
      char_covered covered (length (concat cs1)) (length (concat cs1) + length ch) = false.
Proof.
  intros Hu. unfold fill_attribution.
  pose proof (floor_boundary content (start attr) Hu) as Hfb. pose proof (ceil_boundary content (end_ attr) Hu) as Hcb.
  pose proof (λ cs1 ch cs2 p, floor_le_char content cs1 ch cs2 p (start attr) Hu) as Hfl.
  pose proof (λ cs1 ch cs2 p, char_lt_ceil content cs1 ch cs2 p (end_ attr) Hu) as Hcl.
  destruct (Nat.leb_spec (ceil_char_boundary content (end_ attr)) (floor_char_boundary content (start attr))) as [H|H].
  { exists []. split; [done|]. split; [by intros p w t _ ?%owned_nil|].
    intros cs1 ch cs2 p w t Hc. split; [by intros ?%owned_nil|]. intros (_ & _ & Ho & _).
    apply overlaps_true in Ho as [Ho1 Ho2]. apply (Hfl _ _ _ _ Hc) in Ho1. apply (Hcl _ _ _ _ Hc) in Ho2. lia. }
  set (a := floor_char_boundary content (start attr)) in *. set (b := ceil_char_boundary content (end_ attr)) in *.
  unfold str_slice. rewrite (proj2 (Nat.leb_le a b)), (proj2 (Nat.leb_le b _)) by (apply boundary_le in Hcb; lia).
  rewrite !boundary_is_char_boundary by done. cbn [andb obind].
  pose proof (slice_utf8 content a b ltac:(lia) Hfb Hcb) as Hsu.
  pose proof (chars_slice content a b ltac:(lia) Hfb Hcb) as Hs.
  apply boundary_le in Hfb, Hcb.
  assert (length (concat (chars (take a content))) = a) as HA by (rewrite concat_chars_length, length_take; lia).
  assert (length (concat (chars (slice a b content))) = b - a) as HM by (rewrite concat_chars_length, length_slice; lia).
  pose proof (λ p w t, fill_loop_owned covered attr None a (chars (slice a b content)) p w t (chars_nonempty _) I) as Hl.
  replace (a + length (concat (chars (slice a b content)))) with b in Hl by lia. unfold close_range in Hl.
  destruct (fill_loop covered attr None a (chars (slice a b content))) as [pushed open]. cbn [fst snd] in Hl.
  eexists. split; [done|]. split.
  - intros p w t Hp Ho. apply Hl in Ho as (_ & _ & [(? & ? & _)|Hf]); [done|].
    apply free_from_range in Hf. lia.
  - intros cs1 ch cs2 p w t Hc. rewrite Hl.
    pose proof (free_from_gap covered _ _ _ _ _ _ _ _ Hc Hs) as Hf.
    set (s := length (concat cs1)) in *.
    rewrite HA, HM in Hf. rewrite Hf, overlaps_true.
    pose proof (Hfl _ _ _ _ Hc) as Hfl'. fold s in Hfl'. rewrite Hfl'.
    assert (s + length ch ≤ a + (b - a) ↔ s < end_ attr) as ->; [|naive_solver].
    pose proof (Hcl _ _ _ _ Hc) as Hcl'. fold s in Hcl'. rewrite <-Hcl'. split; [destruct Hc; unfold s; lia|]. intros Hsb.
    (* the ceiling does not cut the character *)
    destruct (decide (end_ attr < length content)) as [He|He].
    + destruct (char_at_exists content (end_ attr) Hu He) as (ds1 & d & ds2 & Hd). pose proof (ceil_of_char _ _ _ _ _ Hu Hd) as Hb.
      fold b in Hb. destruct Hc as [Hc Hp], Hd as [Hd Hdi]. rewrite Hc in Hd.
      case_bool_decide; destruct (chars_cmp _ _ _ _ _ _ Hd) as [(-> & -> & ->)|?]; lia.
    + assert (b = length content) as ->.
      { unfold b, ceil_char_boundary. rewrite Nat.min_r, Nat.sub_diag by lia. done. }
      pose proof (char_at_length _ _ _ _ _ Hc). lia.
Qed.

Lemma fill_all_spec content covered secondary :
  is_utf8 content = true →
  ∃ filled, fill_all content covered secondary = Ret filled ∧
    (∀ p w t, length content ≤ p → ¬ owned filled p w t) ∧
    ∀ cs1 ch cs2 p w t, char_at content cs1 ch cs2 p →
      owned filled p w t ↔
      char_covered covered (length (concat cs1)) (length (concat cs1) + length ch) = false ∧
      ∃ a, a ∈ secondary ∧ author_id a = w ∧ ts a = t ∧ overlaps a (length (concat cs1)) (length (concat cs1) + length ch) = true.
Proof.
  intros Hu. induction secondary as [|a secondary (filled & E & Hout & Hin)]; cbn [fill_all].
  - exists []. split; [done|]. split; [by intros p w t _ ?%owned_nil|].
    intros cs1 ch cs2 p w t _. split; [by intros ?%owned_nil|]. intros (_ & a & Ha & _). by apply not_elem_of_nil in Ha.
  - destruct (fill_attribution_spec content covered a Hu) as (pushed & -> & Hpout & Hpin).
    cbn [obind]. rewrite E. cbn [obind]. eexists. split; [done|]. split.
    + intros p w t Hp [Ho|Ho]%owned_app; [by eapply Hpout|by eapply Hout].
    + intros cs1 ch cs2 p w t Hc. rewrite owned_app, (Hpin _ _ _ _ _ _ Hc), (Hin _ _ _ _ _ _ Hc).
      split.
      * intros [(Hw & Ht & Ho & Hn)|(Hn & b & Hb & Hx)]; (split; [done|]).
        -- exists a. split; [by left|done].
        -- exists b. split; [by right|done].
      * intros (Hn & b & [->|Hb]%elem_of_cons & Hw & Ht & Ho); [left; done|right]. split; [done|]. by exists b.
Qed.

Lemma merge_char_spec primary secondary content :
  is_utf8 content = true →
  ∃ merged, merge_char_attributions primary secondary content = Ret merged ∧
    (∀ p w t, length content ≤ p → owned merged p w t ↔ owned primary p w t) ∧
    (∀ cs1 ch cs2 p w t, char_at content cs1 ch cs2 p →
      owned merged p w t ↔
      owned primary p w t ∨
      (¬ touched primary (length (concat cs1)) (length (concat cs1) + length ch) ∧
       ∃ a, a ∈ secondary ∧ author_id a = w ∧ ts a = t ∧ overlaps a (length (concat cs1)) (length (concat cs1) + length ch) = true)).
Proof.
  intros Hu. unfold merge_char_attributions. destruct (Nat.eqb_spec (length content) 0) as [E|E].
  - exists primary. split; [done|]. split; [done|]. intros cs1 ch cs2 p w t Hc.
    pose proof (char_at_length _ _ _ _ _ Hc). destruct Hc. lia.
  - destruct (fill_all_spec content (coverage (length content) primary) secondary Hu) as (filled & -> & Hout & Hin).
    cbn [obind]. eexists. split; [done|].
    assert (∀ p w t, owned (sort_by range_le (primary ++ filled)) p w t ↔ owned primary p w t ∨ owned filled p w t) as Ho.
    { intros. rewrite (owned_perm _ (primary ++ filled)) by apply sort_by_perm. apply owned_app. }
    split.
    { intros p w t Hp. rewrite Ho. split; [|by left]. intros [?|Hf]; [done|]. by destruct (Hout p w t Hp). }
    intros cs1 ch cs2 p w t Hc. rewrite Ho, (Hin _ _ _ _ _ _ Hc).
    rewrite <-not_true_iff_false, char_covered_spec; [done|]. by eapply char_at_length.
Qed.

End CharMergeFacts.
