(* ===== verification/VirtualAttributions.v ===== *)
(** * Virtual attributions

    The attributions of a set of files that are not in a commit yet,
    [VirtualAttributions] of src/src/authorship/virtual_attribution.rs: their
    conversion to a note and to an INITIAL file, their metrics, and the merge
    of two of them.  The repository handle is left out. *)

From S2P Require Import Prelude Text LineRange AuthorshipLog ImaraDiff Attribution AttributionMerge WorkingLog LineEndings Transform LineMeta DiffCompute LineProjection Tracker HashIter Attestations CharMerge.

Module VirtualAttributions.
Import AuthorshipLog ImaraDiff Attribution AttributionMerge Transform DiffCompute LineProjection Tracker HashIter Attestations CharMerge.

Record VirtualAttributions := mkVA {
  base_commit : str;
  va_attributions : gmap str FileAttributions;
  file_contents : gmap str str;
  (** prompt id, then commit *)
  va_prompts : gmap str (gmap str PromptRecord);
  va_ts : N;
  blame_start_commit : option str;
  va_humans : gmap str HumanRecord;
  initial_only_prompt_ids : gset str;
  va_sessions : gmap str SessionRecord;
  failed_tool_snapshots : gmap str str
}.

Definition new (base_commit : str) (attributions : gmap str FileAttributions) (file_contents : gmap str str)
    (ts : N) : VirtualAttributions :=
  mkVA base_commit attributions file_contents ∅ ts None ∅ ∅ ∅ ∅.

Definition new_with_prompts (base_commit : str) (attributions : gmap str FileAttributions)
    (file_contents : gmap str str) (prompts : gmap str (gmap str PromptRecord)) (ts : N) : VirtualAttributions :=
  mkVA base_commit attributions file_contents prompts ts None ∅ ∅ ∅ ∅.

Definition get_char_attributions (va : VirtualAttributions) (path : str) : option (list Attribution) :=
  fst <$> va_attributions va !! path.
Definition get_line_attributions (va : VirtualAttributions) (path : str) : option (list LineAttribution) :=
  snd <$> va_attributions va !! path.
Definition get_file_content (va : VirtualAttributions) (path : str) : option str := file_contents va !! path.

(** ** The note *)

(** The record of the first commit of each prompt, in the order of commits. *)
Definition flatten_prompts (prompts : gmap str (gmap str PromptRecord)) : gmap str PromptRecord :=
  omap first_value prompts.

Definition to_authorship_log `{order : HashOrder} (nfc : str → str) (version : str) (va : VirtualAttributions) :
    AuthorshipLog :=
  let md := new_metadata version in
  retain_referenced
    (mkLog (build_attestations_from_attributions nfc (va_attributions va))
       (mkMetadata (schema_version md) (git_ai_version md) (base_commit va)
          (flatten_prompts (va_prompts va)) (va_humans va) (va_sessions va))).

(** ** The INITIAL file *)

Record InitialAttributions := mkInitial {
  initial_files : gmap str (list LineAttribution);
  initial_prompts : gmap str PromptRecord;
  file_blobs : gmap str str;
  initial_humans : gmap str HumanRecord;
  initial_sessions : gmap str SessionRecord
}.

(** The entries of a map whose key is in a set. *)
Definition restrict {A : Type} (keys : gset str) (m : gmap str A) : gmap str A :=
  filter (λ kv : str * A, kv.1 ∈ keys) m.

Definition ai_lines (line_attrs : list LineAttribution) : list LineAttribution :=
  List.filter (λ attr, negb (str_eqb (line_author_id attr) HUMAN)) line_attrs.

Definition file_authors (files : gmap str (list LineAttribution)) : list str :=
  flat_map (λ kv, map line_author_id kv.2) (map_to_list files).

(** The session keys of author ids. *)
Definition session_keys_of (authors : gset str) : gset str :=
  set_map (first_piece (lit "::")) (filter (λ id, starts_with (lit "s_") id = true) authors).

Definition to_initial_working_log_only (va : VirtualAttributions) : InitialAttributions :=
  let files :=
    omap (λ fa : FileAttributions, let filtered := ai_lines fa.2 in
                                   if bool_decide (filtered = []) then None else Some filtered)
      (va_attributions va) in
  let referenced : gset str := list_to_set (file_authors files) in
  mkInitial files
    (flatten_prompts (restrict referenced (va_prompts va)))
    ∅
    (restrict (filter (λ id, starts_with (lit "h_") id = true) referenced) (va_humans va))
    (retain_referenced_trace_models (restrict (session_keys_of referenced) (va_sessions va)) (file_authors files)).

(** ** Metrics *)

(** [*map.entry(k).or_insert(0) += n]. *)
Definition add_count (m : gmap str Z) (k : str) (n : Z) : gmap str Z :=
  <[k := u32_add (default 0%Z (m !! k)) n]> m.

Definition count_accepted (m : gmap str Z) (la : LineAttribution) : gmap str Z :=
  if str_eqb (line_author_id la) HUMAN then m
  else add_count m (line_author_id la) (u32_add (u32_sub (end_line la) (start_line la)) 1).

(** The set of the lines of [start_line..=end_line] has that many. *)
Definition count_overridden (m : gmap str Z) (la : LineAttribution) : gmap str Z :=
  match overrode la with
  | Some id => add_count m id (u32_wrap (Z.max 0 (end_line la - start_line la + 1)))
  | None => m
  end.

Definition set_metrics (r : PromptRecord) (additions deletions accepted overriden : Z) : PromptRecord :=
  mkPromptRecord (prompt_agent_id r) (prompt_human_author r) (messages_url r)
    additions deletions accepted overriden (prompt_custom_attributes r).

(** [commits.values_mut()]. *)
Definition update_records (f : PromptRecord → PromptRecord) (commits : gmap str PromptRecord) :
    gmap str PromptRecord := f <$> commits.

Section Ordered.
Context `{order : HashOrder}.

Definition all_line_attributions (attributions : gmap str FileAttributions) : list LineAttribution :=
  flat_map snd (hash_values attributions).

Definition calculate_and_update_prompt_metrics (prompts : gmap str (gmap str PromptRecord))
    (attributions : gmap str FileAttributions) (session_additions session_deletions : gmap str Z) :
    gmap str (gmap str PromptRecord) :=
  let accepted := foldl count_accepted ∅ (all_line_attributions attributions) in
  let overridden := foldl count_overridden ∅ (all_line_attributions attributions) in
  map_imap (λ session_id commits,
    Some (update_records (λ r, set_metrics r (default 0%Z (session_additions !! session_id)) (default 0%Z (session_deletions !! session_id))
                  (default 0%Z (accepted !! session_id)) (default 0%Z (overridden !! session_id))) commits)) prompts.
End Ordered.

Definition filter_to_commits (va : VirtualAttributions) (commit_shas : gset str) : VirtualAttributions :=
  let original_prompt_ids := dom (va_prompts va) in
  let prompts :=
    omap (λ commits : gmap str PromptRecord, let filtered := restrict commit_shas commits in
                                             if bool_decide (filtered = ∅) then None else Some filtered)
      (va_prompts va) in
  let valid_prompt_ids := dom prompts in
  let attributions :=
    map_imap (λ path (fa : FileAttributions),
      let char_attrs :=
        List.filter (λ a, bool_decide (author_id a ∉ original_prompt_ids) || bool_decide (author_id a ∈ valid_prompt_ids))
          fa.1 in
      Some (char_attrs, attributions_to_line_attributions char_attrs (default [] (file_contents va !! path))))
      (va_attributions va) in
  mkVA (base_commit va) attributions (file_contents va) prompts (va_ts va) (blame_start_commit va) (va_humans va)
    (initial_only_prompt_ids va) (va_sessions va) (failed_tool_snapshots va).

(** ** Merging *)

(** [b] wins. *)
Definition merge_humans (a b : gmap str HumanRecord) : gmap str HumanRecord := b ∪ a.

Definition DUMMY : str := lit "__DUMMY__".

(** The totals of a prompt's records, added up. *)
Definition u32_saturating_add := Attestations.u32_saturating_add.
Definition add_totals (totals : gmap str (Z * Z)) (prompt : str * gmap str PromptRecord) : gmap str (Z * Z) :=
  foldl (λ m r, let '(additions, deletions) := default (0, 0)%Z (m !! prompt.1) in
                <[prompt.1 := (u32_saturating_add additions (total_additions r.2),
                               u32_saturating_add deletions (total_deletions r.2))]> m)
    totals (btree_iter prompt.2).

Definition restore_totals (totals : gmap str (Z * Z)) (id : str) (r : PromptRecord) : PromptRecord :=
  match totals !! id with
  | Some (additions, deletions) => set_metrics r additions deletions (accepted_lines r) (overriden_lines r)
  | None => r
  end.

(** The records of two sources, the first one's trace models filled in from
    the second. *)
Definition merge_sessions (primary secondary : gmap str SessionRecord) : gmap str SessionRecord :=
  union_with (λ record secondary_record, Some (merge_from record secondary_record)) primary secondary.

Section Merge.
Context `{engine : !DiffEngine} `{order : HashOrder}.
Variable is_alphabetic : str → bool.
Variable is_numeric : str → bool.
Variable hash_normalized : str → N.

Definition transform_attributions_to_final (old_content : str) (old_attributions : list Attribution)
    (new_content : str) (ts : N) : result (list Attribution) :=
  let? transformed :=
    update_attributions is_alphabetic is_numeric hash_normalized default_config
      old_content new_content old_attributions DUMMY ts in
  Ret (List.filter (λ attr, negb (str_eqb (author_id attr) DUMMY)) transformed).

(** The attributions of one source in the final content of a file. *)
Definition transformed_source (va : VirtualAttributions) (path final_content : str) (ts : N) :
    result (list Attribution) :=
  match get_char_attributions va path, get_file_content va path with
  | Some attrs, Some content => transform_attributions_to_final content attrs final_content ts
  | _, _ => Ret []
  end.

Definition merged_file (primary secondary : VirtualAttributions) (path final_content : str) : result FileAttributions :=
  let? transformed_primary := transformed_source primary path final_content (va_ts primary) in
  let? transformed_secondary := transformed_source secondary path final_content (va_ts primary) in
  let? merged := merge_char_attributions transformed_primary transformed_secondary final_content in
  Ret (merged, attributions_to_line_attributions merged final_content).

(** The loop over the files, in the order they come. *)
Fixpoint merge_files (primary secondary : VirtualAttributions) (final_state : gmap str str) (paths : list str)
    (merged : gmap str FileAttributions * gmap str str) : result (gmap str FileAttributions * gmap str str) :=
  match paths with
  | [] => Ret merged
  | path :: paths' =>
      match final_state !! path with
      | None => merge_files primary secondary final_state paths' merged
      | Some final_content =>
          let? fa := merged_file primary secondary path final_content in
          merge_files primary secondary final_state paths'
            (<[path := fa]> merged.1, <[path := final_content]> merged.2)
      end
  end.

Definition merge_attributions_favoring_first (primary secondary : VirtualAttributions) (final_state : gmap str str) :
    result VirtualAttributions :=
  let merged_prompts := va_prompts primary ∪ va_prompts secondary in
  let merged_humans := merge_humans (va_humans primary) (va_humans secondary) in
  let merged_sessions := merge_sessions (va_sessions primary) (va_sessions secondary) in
  let all_files := dom (va_attributions primary) ∪ dom (va_attributions secondary) ∪ dom final_state in
  let? files := merge_files primary secondary final_state (set_iter all_files) (∅, ∅) in
  let saved_totals :=
    foldl add_totals (foldl add_totals ∅ (btree_iter (va_prompts primary))) (btree_iter (va_prompts secondary)) in
  let prompts := calculate_and_update_prompt_metrics merged_prompts files.1 ∅ ∅ in
  let prompts := map_imap (λ id commits, Some (update_records (restore_totals saved_totals id) commits)) prompts in
  Ret (mkVA (base_commit primary) files.1 files.2 prompts (va_ts primary) None merged_humans ∅ merged_sessions
         (failed_tool_snapshots primary ∪ failed_tool_snapshots secondary)).
End Merge.

(** ** Reference *)

Section Reference.
Context `{engine : !DiffEngine}.
Variable is_alphabetic : str → bool.
Variable is_numeric : str → bool.

(** Attributions carried from one content to another: none is invented, and
    bytes the diff keeps keep their owners. *)
Definition carried (attrs : list Attribution) (old new : str) (carried_attrs : list Attribution) : Prop :=
  Forall (λ a, author_id a ≠ DUMMY ∧ ∃ b, b ∈ attrs ∧ author_id b = author_id a) carried_attrs ∧
  ∀ c, compute_diffs is_alphabetic is_numeric (normalize_line_endings old) (normalize_line_endings new) false = Ret c →
    ∀ o q w t, origin 0 0 0 (diffs c) (LineEndings.LineEndings.to_normalized (LineEndings.LineEndings.new_offsets new) o) = Some (Kept q) →
      owned attrs (content_byte old q) w t → w ≠ DUMMY → owned carried_attrs o w t.

(** One source of a merge in a file of the final state. *)
Definition source_carried (va : VirtualAttributions) (path final_content : str) (carried_attrs : list Attribution) : Prop :=
  match get_char_attributions va path, get_file_content va path with
  | Some attrs, Some content => carried attrs content final_content carried_attrs
  | _, _ => carried_attrs = []
  end.
End Reference.

(** The sums of a merge: the lines given to an author, those it lost, and
    what the records of a prompt add up to. *)
Definition zsum (l : list Z) : Z := foldr Z.add 0%Z l.

Definition author_lines (attributions : gmap str FileAttributions) (id : str) : Z :=
  if str_eqb id HUMAN then 0%Z
  else zsum (flat_map (λ kv : str * FileAttributions,
         map (λ la, end_line la - start_line la + 1)%Z
           (List.filter (λ la, str_eqb (line_author_id la) id) kv.2.2)) (map_to_list attributions)).

Definition overridden_from (attributions : gmap str FileAttributions) (id : str) : Z :=
  zsum (flat_map (λ kv : str * FileAttributions,
         map (λ la, Z.max 0 (end_line la - start_line la + 1))%Z
           (List.filter (λ la, bool_decide (overrode la = Some id)) kv.2.2)) (map_to_list attributions)).

Definition record_sum (f : PromptRecord → Z) (prompts : gmap str (gmap str PromptRecord)) (id : str) : Z :=
  zsum (map (f ∘ snd) (map_to_list (default ∅ (prompts !! id)))).

End VirtualAttributions.

(** ** Lemmas *)

Module VirtualAttributionsFacts.
Import AuthorshipLog ImaraDiff Attribution AttributionFacts AttributionMerge AttributionMergeFacts DiffCompute.
Import LineProjection Tracker TrackerFacts HashIter HashIterFacts Attestations AttestationsFacts CharMerge CharMergeFacts.
Import VirtualAttributions.

(** *** Sums *)

Lemma zsum_app a b : zsum (a ++ b) = (zsum a + zsum b)%Z.
Proof. unfold zsum. induction a; cbn; lia. Qed.

Lemma zsum_perm a b : a ≡ₚ b → zsum a = zsum b.
Proof. unfold zsum. induction 1; cbn; lia. Qed.

Lemma u32_wrap_u32 z : is_u32 (u32_wrap z).
Proof. unfold is_u32, u32_wrap, u32_max. pose proof (Z.mod_pos_bound z 4294967296). lia. Qed.

Lemma filter_perm {A} (p : A → bool) l l' : l ≡ₚ l' → List.filter p l ≡ₚ List.filter p l'.
Proof.
  induction 1 as [|x l l' _ IH|x y l|]; cbn; [done|by destruct (p x); [constructor|]| |by etrans].
  destruct (p x), (p y); try done. constructor.
Qed.

(** Counters add up modulo the width of [u32]. *)
Lemma fold_counts {A} (f : A → option (str * Z)) (l : list A) (m : gmap str Z) k :
  is_u32 (default 0%Z (m !! k)) →
  default 0%Z (foldl (λ m a, match f a with Some (id, n) => add_count m id n | None => m end) m l !! k) =
  u32_wrap (default 0%Z (m !! k) +
            zsum (omap (λ a, match f a with Some (id, n) => if str_eqb id k then Some n else None | None => None end) l)).
Proof.
  revert m. induction l as [|a l IH]; intros m Hm; cbn [foldl].
  { cbn. rewrite Z.add_0_r. by rewrite u32_wrap_small. }
  destruct (f a) as [[id n]|] eqn:Ef; cbn; rewrite Ef; [|by apply IH].
  rewrite IH; unfold add_count; destruct (str_eqb id k) eqn:E.
  - apply str_eqb_eq in E as ->. rewrite lookup_insert_eq. cbn. unfold u32_add.
    rewrite u32_wrap_add_l. f_equal. unfold zsum. cbn. lia.
  - rewrite lookup_insert_ne; [done|]. intros ->. by rewrite str_eqb_refl in E.
  - apply str_eqb_eq in E as ->. rewrite lookup_insert_eq. apply u32_wrap_u32.
  - rewrite lookup_insert_ne; [done|]. intros ->. by rewrite str_eqb_refl in E.
Qed.

Section Counts.
Context `{order : HashOrder}.

Lemma all_lines_perm attributions :
  all_line_attributions attributions ≡ₚ flat_map (λ kv : str * FileAttributions, kv.2.2) (map_to_list attributions).
Proof.
  unfold all_line_attributions, hash_values. rewrite hash_iter_perm.
  induction (map_to_list attributions) as [|kv l IH]; [done|]. cbn. by rewrite IH.
Qed.

Definition accepted_step (la : LineAttribution) : option (str * Z) :=
  if str_eqb (line_author_id la) HUMAN then None
  else Some (line_author_id la, u32_add (u32_sub (end_line la) (start_line la)) 1).

Definition overridden_step (la : LineAttribution) : option (str * Z) :=
  match overrode la with
  | Some id => Some (id, u32_wrap (Z.max 0 (end_line la - start_line la + 1)))
  | None => None
  end.

Lemma foldl_ext {A B} (f g : A → B → A) l a : (∀ x y, f x y = g x y) → foldl f a l = foldl g a l.
Proof. intros H. revert a. induction l as [|b l IH]; intros a; cbn; [done|]. by rewrite H. Qed.

Lemma wrap_sum {A} (g : A → option Z) (sel : A → bool) (n : A → Z) l :
  (∀ x, x ∈ l → g x = if sel x then Some (u32_wrap (n x)) else None) →
  u32_wrap (zsum (omap g l)) = u32_wrap (zsum (map n (List.filter sel l))).
Proof.
  induction l as [|x l IH]; intros H; [done|].
  assert (u32_wrap (zsum (omap g l)) = u32_wrap (zsum (map n (List.filter sel l)))) as E
    by (apply IH; intros; apply H; by right).
  cbn [List.filter]. cbn [omap list_omap]. rewrite (H x) by by left.
  destruct (sel x); [|done]. cbn [map]. unfold zsum in *. cbn [foldr].
  rewrite u32_wrap_add_l, <-(u32_wrap_add_r (n x)), <-(u32_wrap_add_r (n x) (foldr _ _ (map _ _))).
  unfold zsum in E. by rewrite E.
Qed.

Lemma filter_flat_map {A B C} (n : B → C) (sel : B → bool) (h : A → list B) l :
  map n (List.filter sel (flat_map h l)) = flat_map (λ x, map n (List.filter sel (h x))) l.
Proof.
  induction l as [|x l IH]; [done|]. cbn. by rewrite List.filter_app, map_app, IH.
Qed.

Lemma accepted_lines_sum attributions id :
  default 0%Z (foldl count_accepted ∅ (all_line_attributions attributions) !! id) = u32_wrap (author_lines attributions id).
Proof.
  pose proof (fold_counts accepted_step (all_line_attributions attributions) ∅ id) as H.
  rewrite lookup_empty in H. cbn [default] in H. rewrite Z.add_0_l in H.
  rewrite (foldl_ext count_accepted (λ m a, match accepted_step a with Some (i, n) => add_count m i n | None => m end))
    by (intros m la; unfold count_accepted, accepted_step; by case_match).
  rewrite H by by unfold is_u32, u32_max.
  rewrite (wrap_sum _ (λ la, negb (str_eqb (line_author_id la) HUMAN) && str_eqb (line_author_id la) id)
             (λ la, end_line la - start_line la + 1)%Z).
  - unfold author_lines. f_equal. destruct (str_eqb id HUMAN) eqn:E.
    + apply str_eqb_eq in E as ->. rewrite filter_none; [done|]. intros la _. by destruct (str_eqb _ _).
    + rewrite (zsum_perm _ (map (λ la, end_line la - start_line la + 1)%Z
        (List.filter (λ la, negb (str_eqb (line_author_id la) HUMAN) && str_eqb (line_author_id la) id)
           (flat_map (λ kv : str * FileAttributions, kv.2.2) (map_to_list attributions))))).
      * rewrite filter_flat_map. f_equal. apply flat_map_ext. intros [p [b las]]. cbn [fst snd]. f_equal.
        apply List.filter_ext. intros la. destruct (str_eqb (line_author_id la) id) eqn:E'; [|by rewrite andb_false_r].
        apply str_eqb_eq in E' as ->. by rewrite E.
      * apply Permutation_map, filter_perm, all_lines_perm.
  - intros la _. unfold accepted_step. destruct (str_eqb (line_author_id la) HUMAN); [done|]. cbn.
    case_match; [|done]. f_equal. unfold u32_add, u32_sub. apply u32_wrap_add_l.
Qed.

Lemma overridden_lines_sum attributions id :
  default 0%Z (foldl count_overridden ∅ (all_line_attributions attributions) !! id) =
  u32_wrap (overridden_from attributions id).
Proof.
  pose proof (fold_counts overridden_step (all_line_attributions attributions) ∅ id) as H.
  rewrite lookup_empty in H. cbn [default] in H. rewrite Z.add_0_l in H.
  rewrite (foldl_ext count_overridden (λ m a, match overridden_step a with Some (i, n) => add_count m i n | None => m end))
    by (intros m la; unfold count_overridden, overridden_step; by case_match).
  rewrite H by by unfold is_u32, u32_max.
  rewrite (wrap_sum _ (λ la, bool_decide (overrode la = Some id)) (λ la, Z.max 0 (end_line la - start_line la + 1))%Z).
  - unfold overridden_from. f_equal. rewrite <-filter_flat_map. apply zsum_perm.
    apply Permutation_map, filter_perm, all_lines_perm.
  - intros la _. unfold overridden_step. destruct (overrode la) as [i|]; [|done]. unfold str_eqb.
    repeat case_bool_decide; congruence.
Qed.

Lemma metrics_lookup prompts attributions additions deletions id :
  calculate_and_update_prompt_metrics prompts attributions additions deletions !! id =
  update_records (λ r, set_metrics r (default 0%Z (additions !! id)) (default 0%Z (deletions !! id))
    (u32_wrap (author_lines attributions id)) (u32_wrap (overridden_from attributions id))) <$> prompts !! id.
Proof.
  unfold calculate_and_update_prompt_metrics. rewrite map_lookup_imap.
  rewrite accepted_lines_sum, overridden_lines_sum. by destruct (prompts !! id).
Qed.
End Counts.
(** *** Totals *)

Definition totals_ok (prompts : gmap str (gmap str PromptRecord)) : Prop :=
  map_Forall (λ _ commits, map_Forall (λ _ r, (0 <= total_additions r)%Z ∧ (0 <= total_deletions r)%Z) commits) prompts.

Definition capped (p : Z * Z) : Prop := (0 <= p.1 <= u32_max ∧ 0 <= p.2 <= u32_max)%Z.

Lemma zsum_nonneg l : Forall (λ x, (0 <= x)%Z) l → (0 <= zsum l)%Z.
Proof. unfold zsum. induction 1; cbn; lia. Qed.

Lemma add_totals_lookup totals kc id :
  Forall (λ r : str * PromptRecord, (0 <= total_additions r.2)%Z ∧ (0 <= total_deletions r.2)%Z) (map_to_list kc.2) →
  capped (default (0, 0)%Z (totals !! id)) →
  default (0, 0)%Z (add_totals totals kc !! id) =
  if str_eqb kc.1 id then
    let p := default (0, 0)%Z (totals !! id) in
    (Z.min u32_max (p.1 + zsum (map (total_additions ∘ snd) (map_to_list kc.2))),
     Z.min u32_max (p.2 + zsum (map (total_deletions ∘ snd) (map_to_list kc.2))))
  else default (0, 0)%Z (totals !! id).
Proof.
  destruct kc as [k commits]. cbn [fst snd]. intros Hr. unfold add_totals, btree_iter. cbn [fst snd].
  assert (∀ f : PromptRecord → Z, zsum (map (f ∘ snd) (map_to_list commits)) =
    zsum (map (f ∘ snd) (sort_by key_le (map_to_list commits)))) as Hs
    by (intros f; apply zsum_perm, Permutation_map; by rewrite sort_by_perm).
  rewrite !Hs. clear Hs. rewrite <-(sort_by_perm key_le) in Hr.
  revert totals. induction Hr as [|r l [Ha Hd] Hl IH]; intros totals Hc; cbn [foldl map].
  { unfold capped in Hc. destruct (str_eqb k id) eqn:E; [|done]. cbn [zsum foldr].
    rewrite !Z.add_0_r, !Z.min_r by tauto. by destruct (default _ _). }
  assert (0 <= zsum (map (total_additions ∘ snd) l) ∧ 0 <= zsum (map (total_deletions ∘ snd) l))%Z as [Hsa Hsd].
  { split; apply zsum_nonneg, Forall_map; (eapply Forall_impl; [exact Hl|]); by intros x [? ?]. }
  unfold zsum in *. cbn [foldr]. unfold capped in Hc.
  destruct (default (0, 0)%Z (totals !! k)) as [a d] eqn:Ek. cbn [fst snd].
  destruct (str_eqb k id) eqn:E.
  - apply str_eqb_eq in E as <-. rewrite Ek in *. cbn [fst snd] in Hc.
    rewrite IH; rewrite lookup_insert_eq; cbn [default from_option Datatypes.id fst snd];
      unfold u32_saturating_add, Attestations.u32_saturating_add, capped, compose, u32_max in *; cbn [fst snd]; [f_equal; lia|lia].
  - assert (k ≠ id) as Hne by (intros ->; by rewrite str_eqb_refl in E).
    rewrite IH; rewrite lookup_insert_ne by done; done.
Qed.

(** The totals of a prompt over one source. *)
Lemma fold_totals_lookup totals prompts id :
  totals_ok prompts → capped (default (0, 0)%Z (totals !! id)) →
  default (0, 0)%Z (foldl add_totals totals (btree_iter prompts) !! id) =
  (Z.min u32_max ((default (0, 0)%Z (totals !! id)).1 + record_sum total_additions prompts id),
   Z.min u32_max ((default (0, 0)%Z (totals !! id)).2 + record_sum total_deletions prompts id)).
Proof.
  intros Hok Hc. unfold record_sum.
  assert (∀ l : list (str * gmap str PromptRecord), NoDup l.*1 →
    Forall (λ kc, map_Forall (λ _ r, (0 <= total_additions r)%Z ∧ (0 <= total_deletions r)%Z) kc.2) l →
    ∀ totals, capped (default (0, 0)%Z (totals !! id)) →
    default (0, 0)%Z (foldl add_totals totals l !! id) =
    let commits := default ∅ ((list_to_map l : gmap str (gmap str PromptRecord)) !! id) in
    (Z.min u32_max ((default (0, 0)%Z (totals !! id)).1 + zsum (map (total_additions ∘ snd) (map_to_list commits))),
     Z.min u32_max ((default (0, 0)%Z (totals !! id)).2 + zsum (map (total_deletions ∘ snd) (map_to_list commits))))) as H.
  { clear. intros l Hn Hl. induction l as [|[k c] l IH]; intros totals Hc.
    - cbn [foldl list_to_map foldr]. cbv zeta. rewrite lookup_empty. cbn [default from_option Datatypes.id].
      rewrite map_to_list_empty. cbn [map zsum foldr]. unfold capped in Hc. rewrite !Z.add_0_r, !Z.min_r by tauto.
      by destruct (default _ _).
    - cbn [foldl fmap list_fmap fst] in *. apply NoDup_cons in Hn as [Hk Hn]. inversion_clear Hl as [|? ? Hc1 Hl'].
      assert (Forall (λ r : str * PromptRecord, (0 <= total_additions r.2)%Z ∧ (0 <= total_deletions r.2)%Z)
        (map_to_list c)) as Hr by by apply map_Forall_to_list in Hc1; eapply Forall_impl; [exact Hc1|]; intros [].
      pose proof (add_totals_lookup totals (k, c) id Hr Hc) as Ha. cbn [fst snd] in Ha.
      assert (capped (default (0, 0)%Z (add_totals totals (k, c) !! id))) as Hc'.
      { rewrite Ha. case_match; [|done]. unfold capped in *. cbn [fst snd].
        assert (0 <= zsum (map (total_additions ∘ snd) (map_to_list c)) ∧
                0 <= zsum (map (total_deletions ∘ snd) (map_to_list c)))%Z.
        { split; apply zsum_nonneg, Forall_map; (eapply Forall_impl; [exact Hr|]); by intros x [? ?]. }
        unfold u32_max in *. lia. }
      rewrite (IH Hn Hl' _ Hc'), Ha. cbn [list_to_map foldr curry]. cbv zeta.
      destruct (str_eqb k id) eqn:E.
      + apply str_eqb_eq in E as <-. change (list_to_map ((k, c) :: l)) with (<[k:=c]> (list_to_map l) : gmap str (gmap str PromptRecord)).
        rewrite lookup_insert_eq. rewrite not_elem_of_list_to_map_1 by done. cbn [default from_option Datatypes.id].
        rewrite map_to_list_empty. cbn [map zsum foldr fst snd]. f_equal; lia.
      + assert (k ≠ id) as Hne by (intros ->; by rewrite str_eqb_refl in E).
        change (list_to_map ((k, c) :: l)) with (<[k:=c]> (list_to_map l) : gmap str (gmap str PromptRecord)).
        by rewrite lookup_insert_ne by done. }
  unfold btree_iter. pose proof (sort_by_perm key_le (map_to_list prompts)) as Hperm.
  rewrite H; [|by rewrite Hperm; apply NoDup_fst_map_to_list| |done].
  - cbv zeta. rewrite (list_to_map_proper _ (map_to_list prompts)); [by rewrite list_to_map_to_list| |done].
    rewrite Hperm. apply NoDup_fst_map_to_list.
  - rewrite Hperm. by apply map_Forall_to_list in Hok; eapply Forall_impl; [exact Hok|]; intros [].
Qed.

(** *** Merging files *)

Section Merge.
Context `{engine : !DiffEngine} `{order : HashOrder}.
Variable is_alphabetic : str → bool.
Variable is_numeric : str → bool.
Variable hash_normalized : str → N.

Abbreviation transform := (transform_attributions_to_final is_alphabetic is_numeric hash_normalized).
Abbreviation source := (transformed_source is_alphabetic is_numeric hash_normalized).
Abbreviation file_of := (merged_file is_alphabetic is_numeric hash_normalized).

Lemma final_transform_spec old attrs new ts :
  is_utf8 old = true → is_utf8 new = true →
  ∃ r, transform old attrs new ts = Ret r ∧ carried is_alphabetic is_numeric attrs old new r.
Proof.
  intros Ho Hn.
  destruct (checkpoint_spec is_alphabetic is_numeric hash_normalized default_config DUMMY ts false old new attrs Ho Hn)
    as (c & r & Hc & _ & _ & Hu & Hk & Hown).
  unfold transform_attributions_to_final, update_attributions. rewrite Hu. cbn [obind].
  eexists. split; [done|]. split.
  - apply Forall_forall. intros a [Ha Hd%negb_true_iff]%elem_of_filter_b.
    assert (author_id a ≠ DUMMY) as Hne by (intros E; by rewrite E, str_eqb_refl in Hd). split; [done|].
    rewrite Forall_forall in Hk. destruct (Hk a Ha) as [[? _]|(b & Hb & ? & _)]; [done|by exists b].
  - intros c' Hc' o q w t Hq Hw Hd. rewrite Hc in Hc'. injection Hc' as <-.
    destruct (Hown o) as (w0 & t0 & _ & _ & Hi).
    destruct (proj2 (Hi w t)) as (a & Ha & Hcov & Hau & Hts); [left; by exists q|].
    exists a. split_and!; [|done..]. apply elem_of_filter_b. split; [done|]. apply negb_true_iff.
    destruct (str_eqb (author_id a) DUMMY) eqn:E; [|done]. apply str_eqb_eq in E. congruence.
Qed.

(** A source whose contents are valid text. *)
Definition valid_contents (m : gmap str str) : Prop := map_Forall (λ _ c, is_utf8 c = true) m.

Lemma source_spec va path c ts :
  valid_contents (file_contents va) → is_utf8 c = true →
  ∃ r, source va path c ts = Ret r ∧ source_carried is_alphabetic is_numeric va path c r.
Proof.
  intros Hv Hc. unfold transformed_source, source_carried.
  destruct (get_char_attributions va path) as [attrs|]; [|by exists []].
  unfold get_file_content. destruct (file_contents va !! path) as [old|] eqn:E; [|by exists []].
  apply final_transform_spec; [by eapply Hv|done].
Qed.

(** The file a merge gives: the primary source wins, the secondary fills the
    characters it does not touch. *)
Definition file_merged (primary secondary : VirtualAttributions) (path c : str) (fa : FileAttributions) : Prop :=
  ∃ P S, source_carried is_alphabetic is_numeric primary path c P ∧
    source_carried is_alphabetic is_numeric secondary path c S ∧
    fa.2 = attributions_to_line_attributions fa.1 c ∧
    ∀ cs1 ch cs2 p w t, char_at c cs1 ch cs2 p →
      owned fa.1 p w t ↔
      owned P p w t ∨
      (¬ touched P (length (concat cs1)) (length (concat cs1) + length ch) ∧
       ∃ a, a ∈ S ∧ author_id a = w ∧ ts a = t ∧
            overlaps a (length (concat cs1)) (length (concat cs1) + length ch) = true).

Lemma merged_file_spec primary secondary path c :
  valid_contents (file_contents primary) → valid_contents (file_contents secondary) → is_utf8 c = true →
  ∃ fa, file_of primary secondary path c = Ret fa ∧ file_merged primary secondary path c fa.
Proof.
  intros Hp Hs Hc. unfold merged_file.
  destruct (source_spec primary path c (va_ts primary) Hp Hc) as (P & -> & HP).
  destruct (source_spec secondary path c (va_ts primary) Hs Hc) as (S & -> & HS). cbn [obind].
  destruct (merge_char_spec P S c Hc) as (m & -> & _ & Hm). cbn [obind].
  eexists. split; [done|]. exists P, S. split_and!; [done..|]. exact Hm.
Qed.

Lemma merge_files_spec (primary secondary : VirtualAttributions) (final : gmap str str) (paths : list str) (merged : gmap str FileAttributions * gmap str str) :
  valid_contents (file_contents primary) → valid_contents (file_contents secondary) → valid_contents final →
  ∃ m, merge_files is_alphabetic is_numeric hash_normalized primary secondary final paths merged = Ret m ∧
    (∀ p c, p ∈ paths → final !! p = Some c →
      m.2 !! p = Some c ∧ ∃ fa, m.1 !! p = Some fa ∧ file_merged primary secondary p c fa) ∧
    (∀ p, p ∉ paths ∨ final !! p = None → m.1 !! p = merged.1 !! p ∧ m.2 !! p = merged.2 !! p).
Proof.
  intros Hp Hs Hf. revert merged. induction paths as [|path paths IH]; intros merged; cbn [merge_files].
  { exists merged. split; [done|]. split; [|done]. by intros p c ?%not_elem_of_nil. }
  destruct (final !! path) as [c|] eqn:E.
  - destruct (merged_file_spec primary secondary path c Hp Hs (Hf _ _ E)) as (fa & Hfa & Hm). rewrite Hfa. cbn [obind].
    destruct (IH (<[path := fa]> merged.1, <[path := c]> merged.2)) as (m & -> & Hin & Hout).
    exists m. split; [done|]. split.
    + intros p c' Hpin Hc'. destruct (decide (p ∈ paths)) as [|Hn]; [by apply Hin|].
      apply elem_of_cons in Hpin as [->|?]; [|done]. rewrite E in Hc'. injection Hc' as <-.
      destruct (Hout path ltac:(auto)) as [-> ->]. cbn [fst snd]. rewrite !lookup_insert_eq. eauto.
    + intros p Hpn. assert (p ≠ path) by (destruct Hpn as [Hn|Hn]; [set_solver|congruence]).
      destruct (Hout p) as [-> ->]; [destruct Hpn; [left; set_solver|auto]|]. cbn [fst snd].
      by rewrite !lookup_insert_ne by done.
  - destruct (IH merged) as (m & -> & Hin & Hout). exists m. split; [done|]. split.
    + intros p c' Hpin Hc'. apply elem_of_cons in Hpin as [->|?]; [congruence|by apply Hin].
    + intros p Hpn. apply Hout. destruct Hpn as [Hn|]; [left; set_solver|auto].
Qed.
End Merge.

(** *** The INITIAL file *)

Lemma lookup_restrict {A : Type} (keys : gset str) (m : gmap str A) k x :
  restrict keys m !! k = Some x ↔ m !! k = Some x ∧ k ∈ keys.
Proof. unfold restrict. by rewrite map_lookup_filter_Some. Qed.

Lemma elem_of_file_authors files id :
  id ∈ file_authors files ↔ ∃ path las la, files !! path = Some las ∧ la ∈ las ∧ line_author_id la = id.
Proof.
  unfold file_authors. rewrite list_elem_of_In, in_flat_map. split.
  - intros ([path las] & Hin & Hid). apply list_elem_of_In, elem_of_map_to_list in Hin.
    apply in_map_iff in Hid as (la & <- & Hla%list_elem_of_In). by exists path, las, la.
  - intros (path & las & la & Hf & Hla & <-). exists (path, las).
    rewrite <-list_elem_of_In, elem_of_map_to_list. split; [done|]. by apply in_map, list_elem_of_In.
Qed.

Lemma elem_of_session_keys authors k :
  k ∈ session_keys_of authors ↔
  ∃ id, id ∈ authors ∧ starts_with (lit "s_") id = true ∧ k = first_piece (lit "::") id.
Proof. unfold session_keys_of. rewrite elem_of_map. setoid_rewrite elem_of_filter. naive_solver. Qed.

Lemma restore_metrics totals id r acc ovr a d :
  default (0, 0)%Z (totals !! id) = (a, d) →
  restore_totals totals id (set_metrics r 0 0 acc ovr) = set_metrics r a d acc ovr.
Proof.
  unfold restore_totals. destruct (totals !! id) as [[a' d']|]; cbn; by intros [= <- <-].
Qed.

End VirtualAttributionsFacts.

(** ** Properties *)

Module VirtualAttributionsProps.
Import AuthorshipLog AuthorshipLogFacts ImaraDiff Attribution DiffCompute LineProjection HashIter HashIterFacts.
Import Attestations AttestationsFacts VirtualAttributions VirtualAttributionsFacts.

(** merging two sets of attributions for a final state returns a result
    for all valid texts, whatever order the files are visited in.  A file of
    the final state gets its final content; its bytes are owned as the primary
    attributions, carried to that content, say, and, in characters these do
    not touch, as the secondary ones say; its lines are the projection of its
    bytes.  No other file is left.  Prompts and sessions are united, the
    primary's first; each record counts the lines its prompt owns and lost,
    and the additions and deletions of both sources, capped. *)
Theorem merge_favors_first `{engine : !DiffEngine} `{order : HashOrder} (is_alphabetic is_numeric : str → bool)
    (hash_normalized : str → N) (primary secondary : VirtualAttributions) (final_state : gmap str str)
    (primary_valid : valid_contents (file_contents primary))
    (secondary_valid : valid_contents (file_contents secondary)) (final_valid : valid_contents final_state)
    (primary_totals : totals_ok (va_prompts primary)) (secondary_totals : totals_ok (va_prompts secondary)) :
  ∃ merged,
    merge_attributions_favoring_first is_alphabetic is_numeric hash_normalized primary secondary final_state = Ret merged ∧
    (∀ path, match final_state !! path with
             | Some content =>
                 file_contents merged !! path = Some content ∧
                 ∃ fa, va_attributions merged !! path = Some fa ∧
                       file_merged is_alphabetic is_numeric primary secondary path content fa
             | None => file_contents merged !! path = None ∧ va_attributions merged !! path = None
             end) ∧
    (∀ id, va_prompts merged !! id =
       update_records (λ r, set_metrics r
           (Z.min u32_max (record_sum total_additions (va_prompts primary) id + record_sum total_additions (va_prompts secondary) id))
           (Z.min u32_max (record_sum total_deletions (va_prompts primary) id + record_sum total_deletions (va_prompts secondary) id))
           (u32_wrap (author_lines (va_attributions merged) id))
           (u32_wrap (overridden_from (va_attributions merged) id))) <$>
         (va_prompts primary ∪ va_prompts secondary) !! id) ∧
    (∀ id, va_sessions merged !! id =
       match va_sessions primary !! id, va_sessions secondary !! id with
       | Some p, Some s => Some (merge_from p s)
       | Some p, None => Some p
       | None, s => s
       end).
Proof.
  unfold merge_attributions_favoring_first.
  set (files := dom (va_attributions primary) ∪ dom (va_attributions secondary) ∪ dom final_state).
  destruct (merge_files_spec is_alphabetic is_numeric hash_normalized primary secondary final_state (set_iter files) (∅, ∅)
    primary_valid secondary_valid final_valid) as (m & -> & Hin & Hout).
  cbn [obind]. eexists. split; [done|]. cbn [file_contents va_attributions va_prompts va_sessions]. split_and!.
  - intros path. destruct (final_state !! path) as [c|] eqn:E; [|by destruct (Hout path) as [-> ->]; auto].
    apply Hin; [|done]. rewrite elem_of_set_iter. unfold files. rewrite !elem_of_union, !elem_of_dom, E. eauto.
  - intros id. rewrite map_lookup_imap, metrics_lookup.
    destruct ((va_prompts primary ∪ va_prompts secondary) !! id) as [commits|]; [|done]. cbn [fmap option_fmap option_map mbind option_bind].
    f_equal. unfold update_records. rewrite <-map_fmap_compose. apply map_fmap_ext. intros sha r _. cbn [compose].
    rewrite lookup_empty. cbn [default from_option Datatypes.id]. apply restore_metrics.
    assert (capped (default (0, 0)%Z ((∅ : gmap str (Z * Z)) !! id))) as H0
      by (rewrite lookup_empty; unfold capped, u32_max; cbn; lia).
    pose proof (fold_totals_lookup ∅ (va_prompts primary) id primary_totals H0) as H1.
    rewrite lookup_empty in H1. cbn [default from_option Datatypes.id fst snd] in H1.
    assert (∀ f ps, totals_ok ps → f = total_additions ∨ f = total_deletions → (0 <= record_sum f ps id)%Z) as Hpos.
    { clear. intros f ps Hps Hf. apply zsum_nonneg, Forall_map, Forall_forall. intros [k r] Hr.
      apply elem_of_map_to_list in Hr. destruct (ps !! id) as [c|] eqn:E; [|by cbn in Hr; rewrite lookup_empty in Hr].
      destruct (Hps _ _ E _ _ Hr). cbn. by destruct Hf as [->| ->]. }
    pose proof (Hpos _ _ primary_totals (or_introl eq_refl)). pose proof (Hpos _ _ primary_totals (or_intror eq_refl)).
    pose proof (Hpos _ _ secondary_totals (or_introl eq_refl)). pose proof (Hpos _ _ secondary_totals (or_intror eq_refl)).
    rewrite fold_totals_lookup; [|done|rewrite H1; unfold capped, u32_max; cbn; lia].
    rewrite H1. cbn [fst snd]. unfold u32_max in *. f_equal; lia.
  - intros id. unfold merge_sessions. rewrite lookup_union_with.
    by destruct (va_sessions primary !! id), (va_sessions secondary !! id).
Qed.

(** the INITIAL file made of all attributions keeps, of each file, exactly
    the lines of authors other than the unattested human, and no empty file;
    it holds exactly the records of the authors it names: the first record of a
    prompt, a human's record, and a session's record with the trace models its
    lines refer to, so that every author it names has the same agent as before. *)
Theorem initial_holds_what_it_names (va : VirtualAttributions) :
  let i := to_initial_working_log_only va in
  let names id :=
    id ≠ HUMAN ∧ ∃ path bytes all la, va_attributions va !! path = Some (bytes, all) ∧ la ∈ all ∧ line_author_id la = id in
  (∀ path las, initial_files i !! path = Some las ↔
     las ≠ [] ∧ ∃ bytes all, va_attributions va !! path = Some (bytes, all) ∧ las = ai_lines all) ∧
  (∀ id r, initial_prompts i !! id = Some r ↔
     names id ∧ ∃ commits, va_prompts va !! id = Some commits ∧ first_value commits = Some r) ∧
  (∀ id r, initial_humans i !! id = Some r ↔
     names id ∧ starts_with (lit "h_") id = true ∧ va_humans va !! id = Some r) ∧
  (∀ k, is_Some (initial_sessions i !! k) ↔
     is_Some (va_sessions va !! k) ∧
     ∃ id, names id ∧ starts_with (lit "s_") id = true ∧ k = first_piece (lit "::") id) ∧
  (∀ id k s s', names id → va_sessions va !! k = Some s → initial_sessions i !! k = Some s' →
     k = first_piece (lit "::") id → agent_id_for_author s' id = agent_id_for_author s id).
Proof.
  intros i names.
  assert (∀ path las, initial_files i !! path = Some las ↔
    las ≠ [] ∧ ∃ bytes all, va_attributions va !! path = Some (bytes, all) ∧ las = ai_lines all) as Hfiles.
  { intros path las. cbn [initial_files i to_initial_working_log_only]. rewrite lookup_omap.
    destruct (va_attributions va !! path) as [[bytes all]|]; cbn; [|naive_solver].
    case_bool_decide; naive_solver. }
  assert (∀ id, id ∈ file_authors (initial_files i) ↔ names id) as Hnames.
  { intros id. rewrite elem_of_file_authors. unfold names. split.
    - intros (path & las & la & Hl & Hla & <-). apply Hfiles in Hl as (_ & bytes & all & Hl & ->).
      apply elem_of_filter_b in Hla as [Hla Hh%negb_true_iff]. split; [|eauto 10].
      intros E. by rewrite E, str_eqb_refl in Hh.
    - intros (Hh & path & bytes & all & la & Hl & Hla & <-).
      assert (la ∈ ai_lines all) as Hin.
      { apply elem_of_filter_b. split; [done|]. apply negb_true_iff. destruct (str_eqb _ _) eqn:E; [|done].
        by apply str_eqb_eq in E. }
      exists path, (ai_lines all), la. split_and!; [|done..]. apply Hfiles. split; [|eauto].
      intros E. rewrite E in Hin. by apply not_elem_of_nil in Hin. }
  assert (∀ id, id ∈ (list_to_set (file_authors (initial_files i)) : gset str) ↔ names id) as Hset
    by (intros; by rewrite elem_of_list_to_set).
  split_and!; [done| | | |]; clear Hfiles; unfold i, to_initial_working_log_only in Hset, Hnames;
    cbn [initial_files] in Hset, Hnames.
  - intros id r. cbn [initial_prompts i to_initial_working_log_only]. unfold flatten_prompts.
    rewrite lookup_omap_Some. setoid_rewrite lookup_restrict. setoid_rewrite Hset. naive_solver.
  - intros id r. cbn [initial_humans i to_initial_working_log_only].
    rewrite lookup_restrict, elem_of_filter, Hset. naive_solver.
  - intros k. cbn [initial_sessions i to_initial_working_log_only].
    rewrite <-elem_of_dom. pose proof (retain_trace_models_spec (restrict (session_keys_of
      (list_to_set (file_authors (initial_files i)))) (va_sessions va)) (file_authors (initial_files i))) as [Hd _].
    cbn [initial_files i to_initial_working_log_only] in *. rewrite Hd, elem_of_dom. unfold is_Some.
    setoid_rewrite lookup_restrict. setoid_rewrite elem_of_session_keys. setoid_rewrite Hset. naive_solver.
  - intros id k s s' Hid Hs Hs' ->. cbn [initial_sessions i to_initial_working_log_only] in Hs'.
    pose proof (retain_trace_models_spec (restrict (session_keys_of
      (list_to_set (file_authors (initial_files i)))) (va_sessions va)) (file_authors (initial_files i))) as [Hd Hr].
    cbn [initial_files i to_initial_working_log_only] in *.
    assert (is_Some (restrict (session_keys_of (list_to_set (file_authors _))) (va_sessions va) !! first_piece (lit "::") id))
      as [s0 Hs0] by (apply elem_of_dom; rewrite <-Hd; apply elem_of_dom; eauto).
    destruct (Hr _ _ Hs0) as (s1 & Hs1 & _ & _ & Ha). rewrite Hs' in Hs1. injection Hs1 as <-.
    apply lookup_restrict in Hs0 as [Hs0 _]. rewrite Hs in Hs0. injection Hs0 as <-.
    apply Ha; [|done]. by apply Hnames.
Qed.

(** *** Witnesses *)

Definition sample_agent : AgentId := mkAgentId (lit "tool") (lit "id") (lit "m").
Definition sample_record (additions : Z) : PromptRecord :=
  mkPromptRecord sample_agent None None additions 1 0 0 None.

Definition one_file (prompt : str) (additions : Z) (s e : nat) : VirtualAttributions :=
  mkVA (lit "c0") {[lit "a.rs" := ([mkAttr s e prompt 1], [])]} {[lit "a.rs" := lit "abcd"]}
    {[prompt := {[lit "c1" := sample_record additions]}]} 7 None ∅ ∅ ∅ ∅.

Lemma one_text_valid p c : is_utf8 c = true → valid_contents {[p := c]}.
Proof. intros H k x. rewrite lookup_singleton_Some. by intros [_ <-]. Qed.

Lemma one_file_totals prompt additions s e : (0 <= additions)%Z → totals_ok (va_prompts (one_file prompt additions s e)).
Proof.
  intros H k c. cbn [va_prompts one_file]. rewrite lookup_singleton_Some. intros [_ <-] k' r.
  rewrite lookup_singleton_Some. intros [_ <-]. cbn. lia.
Qed.

Lemma merge_favors_first_witness :
  let P := one_file (lit "p1") 4294967295 0 2 in
  let S := one_file (lit "p2") 5 0 4 in
  let final := {[lit "a.rs" := lit "abcd"]} in
  ∃ merged,
    merge_attributions_favoring_first (engine := CoarseEngine.coarse_engine) (order := in_order) (λ _, true) (λ _, false) (λ _, 0%N)
      P S final = Ret merged ∧
    va_attributions merged !! lit "a.rs" =
      Some ([mkAttr 0 2 (lit "p1") 1; mkAttr 2 4 (lit "p2") 1], [mkLineAttr 1 1 (lit "p1") None]) ∧
    va_prompts merged !! lit "p1" = Some {[lit "c1" := set_metrics (sample_record 0) 4294967295 1 1 0]}.
Proof.
  destruct (merge_favors_first (engine := CoarseEngine.coarse_engine) (order := in_order) (λ _, true) (λ _, false) (λ _, 0%N)
    (one_file (lit "p1") 4294967295 0 2) (one_file (lit "p2") 5 0 4) {[lit "a.rs" := lit "abcd"]})
    as (merged & H & _); [by apply one_text_valid|by apply one_text_valid|by apply one_text_valid|by apply one_file_totals|by apply one_file_totals|].
  exists merged. split; [exact H|]. vm_compute in H. injection H as <-. split; vm_compute; reflexivity.
Defined.

End VirtualAttributionsProps.
