(* ===== verification/WorkingState.v ===== *)
(** * The working state of a repository

    [VirtualAttributions] built from the working log: the INITIAL file and the
    checkpoints since the last commit (from_just_working_log,
    from_working_log_snapshot and from_persisted_working_log of
    src/src/authorship/virtual_attribution.rs).  Reading blobs and the work
    tree are functions; a failed read is [Fail]. *)

From S2P Require Import Prelude Text AuthorshipLog ImaraDiff Attribution WorkingLog DiffCompute LineProjection HashIter Attestations VirtualAttributions.

Module WorkingState.
Import AuthorshipLog Attribution WorkingLog DiffCompute LineProjection HashIter VirtualAttributions.

(** The local variables of the three functions. *)
Record Loading := mkLoading {
  l_attributions : gmap str Attestations.FileAttributions;
  l_prompts : gmap str (gmap str PromptRecord);
  l_humans : gmap str HumanRecord;
  l_contents : gmap str str;
  l_initial_only : gset str;
  l_sessions : gmap str SessionRecord;
  l_additions : gmap str Z;
  l_deletions : gmap str Z
}.

(** [repo.storage]: the files of a working log. *)
Record PersistedWorkingLog := mkWorkingLog {
  initial_attributions : InitialAttributions;
  checkpoints : list Checkpoint;
  get_file_version : str → result str
}.

Section Load.
Context `{order : HashOrder}.
Variable sha256_hex : str → str.
Variable human_author : option str.

Definition with_attributions (st : Loading) (m : gmap str Attestations.FileAttributions) : Loading :=
  mkLoading m (l_prompts st) (l_humans st) (l_contents st) (l_initial_only st) (l_sessions st)
    (l_additions st) (l_deletions st).
Definition with_contents (st : Loading) (m : gmap str str) : Loading :=
  mkLoading (l_attributions st) (l_prompts st) (l_humans st) m (l_initial_only st) (l_sessions st)
    (l_additions st) (l_deletions st).

(** The records of the INITIAL file; prompts get the empty commit. *)
Definition load_initial_records (initial : InitialAttributions) : Loading :=
  mkLoading ∅ ((λ r, {[ [] := r ]}) <$> initial_prompts initial) (initial_humans initial) ∅
    (dom (initial_prompts initial)) (initial_sessions initial) ∅ ∅.

(** One file of the INITIAL file; [content] is [None] when the work tree is
    not available. *)
Definition load_initial_file (st : Loading) (path : str) (line_attrs : list LineAttribution) (content : option str) : Loading :=
  match content with
  | Some file_content =>
      with_attributions (with_contents st (<[path := file_content]> (l_contents st)))
        (<[path := (line_attributions_to_attributions line_attrs file_content 0, line_attrs)]> (l_attributions st))
  | None => st
  end.

Fixpoint load_initial_files (content_of : str → result (option str)) (st : Loading)
    (files : list (str * list LineAttribution)) : result Loading :=
  match files with
  | [] => Ret st
  | (path, line_attrs) :: files' =>
      let? content := content_of path in
      load_initial_files content_of (load_initial_file st path line_attrs content) files'
  end.

(** The session of a checkpoint with a trace. *)
Definition register_session (st : Loading) (agent : AgentId) (trace : str) (stats : CheckpointLineStats) : Loading :=
  let session_id := generate_session_id sha256_hex (agent_id_id agent) (tool agent) in
  let session_record := default (mkSessionRecord agent ∅ human_author None) (l_sessions st !! session_id) in
  mkLoading (l_attributions st) (l_prompts st) (l_humans st) (l_contents st) (l_initial_only st)
    (<[session_id := record_trace_model session_record trace (model agent)]> (l_sessions st))
    (add_count (l_additions st) session_id (additions stats))
    (add_count (l_deletions st) session_id (deletions stats)).

(** The prompt of a checkpoint without one. *)
Definition register_prompt (st : Loading) (agent : AgentId) (stats : CheckpointLineStats) : Loading :=
  let author_id := generate_short_hash sha256_hex (agent_id_id agent) (tool agent) in
  let prompt_record := mkPromptRecord agent human_author None 0 0 0 0 None in
  mkLoading (l_attributions st)
    (<[author_id := <[ [] := prompt_record ]> (default ∅ (l_prompts st !! author_id))]> (l_prompts st))
    (l_humans st) (l_contents st) (l_initial_only st ∖ {[author_id]}) (l_sessions st)
    (add_count (l_additions st) author_id (additions stats))
    (add_count (l_deletions st) author_id (deletions stats)).

Definition register_agent (st : Loading) (c : Checkpoint) : Loading :=
  match agent_id c with
  | Some agent =>
      match trace_id c with
      | Some trace => register_session st agent trace (line_stats c)
      | None => register_prompt st agent (line_stats c)
      end
  | None => st
  end.

Definition register_human (st : Loading) (c : Checkpoint) : Loading :=
  if bool_decide (kind c = KnownHuman) then
    let h := generate_human_short_hash sha256_hex (author c) in
    mkLoading (l_attributions st) (l_prompts st)
      (<[h := default (mkHumanRecord (author c)) (l_humans st !! h)]> (l_humans st))
      (l_contents st) (l_initial_only st) (l_sessions st) (l_additions st) (l_deletions st)
  else st.

(** Entries of human-only checkpoints carry no attributions. *)
Definition has_data (e : WorkingLogEntry) : bool :=
  negb (bool_decide (line_attributions e = []) && bool_decide (attributions e = [])).

Definition entry_lines (e : WorkingLogEntry) (file_content : str) : list LineAttribution :=
  if bool_decide (line_attributions e = []) then attributions_to_line_attributions (attributions e) file_content
  else line_attributions e.

Definition load_entry (content_of : WorkingLogEntry → result (option str)) (st : Loading) (e : WorkingLogEntry) :
    result Loading :=
  if negb (has_data e) then Ret st
  else
    let? content := content_of e in
    let st := match content with
              | Some c => with_contents st (<[file e := c]> (l_contents st))
              | None => st
              end in
    let file_content := default [] (l_contents st !! file e) in
    let line_attrs := entry_lines e file_content in
    Ret (with_attributions st
      (if bool_decide (line_attrs = []) then delete (file e) (l_attributions st)
       else <[file e := (line_attributions_to_attributions line_attrs file_content 0, line_attrs)]> (l_attributions st))).

Fixpoint load_entries (content_of : WorkingLogEntry → result (option str)) (st : Loading) (es : list WorkingLogEntry) :
    result Loading :=
  match es with
  | [] => Ret st
  | e :: es' => let? st' := load_entry content_of st e in load_entries content_of st' es'
  end.

Fixpoint load_checkpoints (content_of : WorkingLogEntry → result (option str)) (st : Loading) (cs : list Checkpoint) :
    result Loading :=
  match cs with
  | [] => Ret st
  | c :: cs' =>
      let? st' := load_entries content_of (register_human (register_agent st c) c) (entries c) in
      load_checkpoints content_of st' cs'
  end.

(** ** Snapshots of failed tools *)

Definition failed_tool (c : Checkpoint) : bool :=
  bool_decide (kind c = Human) &&
  match agent_id c with Some agent => str_eqb (tool agent) (lit "zcode") | None => false end &&
  match agent_metadata c with
  | Some metadata =>
      match metadata !! lit "tool_outcome" with
      | Some outcome => str_eqb outcome (lit "failed") || str_eqb outcome (lit "backgrounded")
      | None => false
      end
  | None => false
  end.

Fixpoint collect_snapshots (log : PersistedWorkingLog) (snapshots : gmap str str) (es : list WorkingLogEntry) :
    result (gmap str str) :=
  match es with
  | [] => Ret snapshots
  | e :: es' =>
      let? content := get_file_version log (blob_sha e) in
      collect_snapshots log (<[file e := content]> snapshots) es'
  end.

Definition collect_failed_tool_snapshots (log : PersistedWorkingLog) : result (gmap str str) :=
  collect_snapshots log ∅ (flat_map entries (List.filter failed_tool (checkpoints log))).

(** ** The three functions *)

Definition finish (base : str) (failed : gmap str str) (st : Loading) : VirtualAttributions :=
  mkVA base (l_attributions st) (l_contents st)
    (calculate_and_update_prompt_metrics (l_prompts st) (l_attributions st) (l_additions st) (l_deletions st))
    0 None (l_humans st) (l_initial_only st) (l_sessions st) failed.

Definition load (initial_content : str → result (option str)) (entry_content : WorkingLogEntry → result (option str))
    (base : str) (log : PersistedWorkingLog) : result VirtualAttributions :=
  let? failed := collect_failed_tool_snapshots log in
  let initial := initial_attributions log in
  let? st := load_initial_files initial_content (load_initial_records initial) (hash_iter (initial_files initial)) in
  let? st := load_checkpoints entry_content st (checkpoints log) in
  Ret (finish base failed st).

(** [workdir]: the content of a path in the work tree, empty when it does not
    exist or is not text; [None] when the repository has no work tree. *)
Definition from_just_working_log (workdir : option (str → str)) (base : str) (log : PersistedWorkingLog) :
    result VirtualAttributions :=
  load (λ path, Ret ((λ read, read path) <$> workdir)) (λ e, Ret ((λ read, read (file e)) <$> workdir)) base log.

Definition stored_initial_file_content_from (log : PersistedWorkingLog) (path : str) : result (option str) :=
  match file_blobs (initial_attributions log) !! path with
  | Some blob => let? content := get_file_version log blob in Ret (Some content)
  | None => Ret None
  end.

Definition from_working_log_snapshot (final_state_snapshot : gmap str str) (base : str) (log : PersistedWorkingLog) :
    result VirtualAttributions :=
  load (λ path,
          let? stored := stored_initial_file_content_from log path in
          Ret (Some (match stored with
                     | Some content => content
                     | None => default [] (final_state_snapshot !! path)
                     end)))
       (λ e, Ret (Some (match final_state_snapshot !! file e with
                        | Some content => content
                        | None => match get_file_version log (blob_sha e) with Ret content => content | _ => [] end
                        end)))
       base log.

Definition from_persisted_working_log (base : str) (log : PersistedWorkingLog) : result VirtualAttributions :=
  load (λ path,
          let? stored := stored_initial_file_content_from log path in
          match stored with
          | Some content => Ret (Some content)
          | None => Fail (lit "INITIAL missing persisted file snapshot for " ++ path)
          end)
       (λ e, let? content := get_file_version log (blob_sha e) in Ret (Some content))
       base log.
End Load.

(** ** Reference *)

(** The last entry of a file that carries attributions. *)
Definition last_entry (path : str) (cs : list Checkpoint) : option WorkingLogEntry :=
  list.last (List.filter (λ e, has_data e && str_eqb (file e) path) (flat_map entries cs)).

(** The session, trace and model a checkpoint reports, or the prompt it uses. *)
Definition session_event (sha256_hex : str → str) (c : Checkpoint) : option (str * str * str) :=
  match agent_id c, trace_id c with
  | Some a, Some trace => Some (generate_session_id sha256_hex (agent_id_id a) (tool a), trace, model a)
  | _, _ => None
  end.
Definition prompt_event (sha256_hex : str → str) (c : Checkpoint) : option str :=
  match agent_id c, trace_id c with
  | Some a, None => Some (generate_short_hash sha256_hex (agent_id_id a) (tool a))
  | _, _ => None
  end.

(** The model first reported for a trace of a session. *)
Definition first_model (events : list (str * str * str)) (k t : str) : option str :=
  head (omap (λ e, if str_eqb e.1.1 k && str_eqb e.1.2 t then Some e.2 else None) events).

(** The model a table of sessions has for a trace. *)
Definition known_model (ss : gmap str SessionRecord) (k t : str) : option str :=
  ss !! k ≫= λ s, trace_models s !! t.

(** What an entry makes of its file. *)
Definition entry_attributions (e : WorkingLogEntry) (file_content : str) : option Attestations.FileAttributions :=
  let line_attrs := entry_lines e file_content in
  if bool_decide (line_attrs = []) then None
  else Some (line_attributions_to_attributions line_attrs file_content 0, line_attrs).

End WorkingState.

(** ** Lemmas *)

Module WorkingStateFacts.
Import AuthorshipLog AuthorshipLogFacts Attribution WorkingLog DiffCompute LineProjection HashIter HashIterFacts.
Import VirtualAttributions VirtualAttributionsFacts WorkingState.

Lemma last_filter_snoc {A} (p : A → bool) l x :
  list.last (List.filter p (l ++ [x])) = if p x then Some x else list.last (List.filter p l).
Proof.
  rewrite List.filter_app. cbn. destruct (p x); [by rewrite last_snoc|by rewrite app_nil_r].
Qed.

(** The entry of a file that counts, over a list of entries. *)
Definition of_file (path : str) (e : WorkingLogEntry) : bool := has_data e && str_eqb (file e) path.

Section Entries.
Variable content_of : WorkingLogEntry → result (option str).
Variable f : WorkingLogEntry → str.

Definition readable (es : list WorkingLogEntry) : Prop :=
  ∀ e, e ∈ es → has_data e = true → content_of e = Ret (Some (f e)).

(** The fields entries do not change. *)
Definition same_records (st st' : Loading) : Prop :=
  l_prompts st' = l_prompts st ∧ l_humans st' = l_humans st ∧ l_initial_only st' = l_initial_only st ∧
  l_sessions st' = l_sessions st ∧ l_additions st' = l_additions st ∧ l_deletions st' = l_deletions st.

(** The files after some entries. *)
Definition files_after (es : list WorkingLogEntry) (st st' : Loading) : Prop :=
  ∀ path,
    l_attributions st' !! path =
      match list.last (List.filter (of_file path) es) with
      | Some e => entry_attributions e (f e)
      | None => l_attributions st !! path
      end ∧
    l_contents st' !! path =
      match list.last (List.filter (of_file path) es) with
      | Some e => Some (f e)
      | None => l_contents st !! path
      end.

Lemma load_entry_spec st e :
  (has_data e = true → content_of e = Ret (Some (f e))) →
  ∃ st', load_entry content_of st e = Ret st' ∧ same_records st st' ∧ files_after [e] st st'.
Proof.
  intros He. unfold load_entry. destruct (has_data e) eqn:Ed; cbn [negb].
  - rewrite He by done. cbn [obind]. eexists. split; [done|]. split; [done|]. intros path.
    cbn [with_attributions with_contents l_attributions l_contents]. rewrite lookup_insert_eq.
    cbn [default from_option Datatypes.id]. unfold files_after, of_file, entry_attributions.
    cbn [List.filter]. rewrite Ed. cbn [andb]. destruct (str_eqb (file e) path) eqn:E; cbn [list.last].
    + apply str_eqb_eq in E as <-. rewrite lookup_insert_eq.
      case_bool_decide; [by rewrite lookup_delete_eq|by rewrite lookup_insert_eq].
    + assert (file e ≠ path) by (intros Ep; by rewrite Ep, str_eqb_refl in E).
      rewrite lookup_insert_ne by done. case_bool_decide; [by rewrite lookup_delete_ne|by rewrite lookup_insert_ne].
  - eexists. split; [done|]. split; [done|]. intros path. cbn [List.filter]. unfold of_file. by rewrite Ed.
Qed.

Lemma files_after_trans es1 es2 st st1 st2 :
  files_after es1 st st1 → files_after es2 st1 st2 → files_after (es1 ++ es2) st st2.
Proof.
  intros H1 H2 path. destruct (H1 path) as [A1 C1], (H2 path) as [A2 C2]. rewrite A2, C2.
  rewrite List.filter_app, last_app. destruct (list.last (List.filter (of_file path) es2)); [done|]. by rewrite A1, C1.
Qed.

Lemma same_records_trans st st1 st2 : same_records st st1 → same_records st1 st2 → same_records st st2.
Proof. unfold same_records. intuition congruence. Qed.

Lemma load_entries_spec st es :
  readable es → ∃ st', load_entries content_of st es = Ret st' ∧ same_records st st' ∧ files_after es st st'.
Proof.
  revert st. induction es as [|e es IH]; intros st Hr; cbn [load_entries].
  - by exists st.
  - destruct (load_entry_spec st e) as (st1 & -> & Hs1 & Hf1); [by apply Hr; left|]. cbn [obind].
    destruct (IH st1) as (st2 & -> & Hs2 & Hf2); [intros e' ?; apply Hr; by right|].
    exists st2. split; [done|]. split; [by eapply same_records_trans|]. by eapply (files_after_trans [e]).
Qed.
End Entries.

Section Checkpoints.
Context (sha256_hex : str → str) (human_author : option str).
Variable content_of : WorkingLogEntry → result (option str).
Variable f : WorkingLogEntry → str.

(** The records after some checkpoints. *)
Definition records_after (cs : list Checkpoint) (st st' : Loading) : Prop :=
  (∀ k t, known_model (l_sessions st') k t =
     match known_model (l_sessions st) k t with
     | Some m => Some m
     | None => first_model (omap (session_event sha256_hex) cs) k t
     end) ∧
  (∀ k, is_Some (l_sessions st' !! k) ↔
     is_Some (l_sessions st !! k) ∨ ∃ c t m, c ∈ cs ∧ session_event sha256_hex c = Some (k, t, m)) ∧
  (∀ id, id ∈ l_initial_only st' ↔
     id ∈ l_initial_only st ∧ ∀ c, c ∈ cs → prompt_event sha256_hex c ≠ Some id).

Lemma records_after_trans cs1 cs2 st st1 st2 :
  records_after cs1 st st1 → records_after cs2 st1 st2 → records_after (cs1 ++ cs2) st st2.
Proof.
  intros (A1 & B1 & C1) (A2 & B2 & C2). split_and!.
  - intros k t. rewrite A2, A1, omap_app. unfold first_model. rewrite omap_app.
    destruct (known_model (l_sessions st) k t); [done|]. by destruct (omap _ (omap _ cs1)).
  - intros k. rewrite B2, B1. setoid_rewrite elem_of_app. naive_solver.
  - intros id. rewrite C2, C1. setoid_rewrite elem_of_app. naive_solver.
Qed.

Lemma records_after_same cs st st1 st2 :
  records_after cs st st1 → same_records st1 st2 → records_after cs st st2.
Proof. unfold records_after. intros H (_ & _ & -> & -> & _). exact H. Qed.

Lemma register_agent_records st c : records_after [c] st (register_agent sha256_hex human_author st c).
Proof.
  unfold records_after, register_agent. cbn [omap list_omap]. unfold session_event, prompt_event.
  destruct (agent_id c) as [a|] eqn:Ea; [destruct (trace_id c) as [trace|] eqn:Et|].
  - set (k0 := generate_session_id sha256_hex (agent_id_id a) (tool a)).
    cbn [register_session l_sessions l_initial_only]. fold k0. split_and!.
    + intros k t. unfold first_model, known_model. cbn [omap list_omap fst snd].
      destruct (str_eqb k0 k) eqn:E.
      * apply str_eqb_eq in E as <-. rewrite lookup_insert_eq. cbn [mbind option_bind].
        rewrite record_trace_model_models, lookup_union. cbn [andb].
        assert (trace_models (default (mkSessionRecord a ∅ human_author None) (l_sessions st !! k0)) !! t =
          (l_sessions st !! k0 ≫= λ s, trace_models s !! t)) as -> by by destruct (l_sessions st !! k0).
        destruct (l_sessions st !! k0 ≫= λ s, trace_models s !! t) as [m|]; [by rewrite union_Some_l|].
        destruct (str_eqb trace t) eqn:E'.
        -- apply str_eqb_eq in E' as <-. by rewrite lookup_singleton_eq.
        -- rewrite lookup_singleton_ne; [done|]. intros ->. by rewrite str_eqb_refl in E'.
      * rewrite lookup_insert_ne by (intros Ek; by rewrite Ek, str_eqb_refl in E). cbn [andb head].
        by destruct (l_sessions st !! k ≫= _).
    + intros k. rewrite lookup_insert_is_Some'. setoid_rewrite list_elem_of_singleton. split.
      * intros [<-|?]; [right|by left]. exists c, trace, (model a). by rewrite Ea, Et.
      * intros [?|(c' & t & m & -> & H)]; [by right|left]. rewrite Ea, Et in H. by injection H.
    + intros id. setoid_rewrite list_elem_of_singleton. split; [|tauto]. intros H. split; [done|].
      intros c' ->. by rewrite Ea, Et.
  - cbn [register_prompt l_sessions l_initial_only]. split_and!.
    + intros k t. unfold first_model. cbn. by destruct (known_model _ k t).
    + intros k. setoid_rewrite list_elem_of_singleton. split; [by left|].
      intros [?|(c' & t & m & -> & H)]; [done|]. by rewrite Ea, Et in H.
    + intros id. rewrite elem_of_difference, elem_of_singleton. setoid_rewrite list_elem_of_singleton.
      split; (intros [H1 H2]; split; [done|]).
      * intros c' ->. rewrite Ea, Et. congruence.
      * intros ->. apply (H2 c eq_refl). by rewrite Ea, Et.
  - split_and!.
    + intros k t. unfold first_model. cbn. by destruct (known_model _ k t).
    + intros k. setoid_rewrite list_elem_of_singleton. split; [by left|].
      intros [?|(c' & t & m & -> & H)]; [done|]. by rewrite Ea in H.
    + intros id. setoid_rewrite list_elem_of_singleton. split; [|tauto]. intros H. split; [done|].
      intros c' ->. by rewrite Ea.
Qed.

(** Registering touches no file. *)
Lemma register_files st c :
  let st' := register_human sha256_hex (register_agent sha256_hex human_author st c) c in
  l_attributions st' = l_attributions st ∧ l_contents st' = l_contents st.
Proof.
  unfold register_human, register_agent, register_session, register_prompt.
  destruct (agent_id c), (trace_id c), (bool_decide _); done.
Qed.

Lemma register_human_records st c :
  let st' := register_human sha256_hex st c in l_sessions st' = l_sessions st ∧ l_initial_only st' = l_initial_only st.
Proof. unfold register_human. by destruct (bool_decide _). Qed.

Lemma load_checkpoints_spec st cs :
  readable content_of f (flat_map entries cs) →
  ∃ st', load_checkpoints sha256_hex human_author content_of st cs = Ret st' ∧
    records_after cs st st' ∧ files_after f (flat_map entries cs) st st'.
Proof.
  revert st. induction cs as [|c cs IH]; intros st Hr; cbn [load_checkpoints flat_map].
  - exists st. split; [done|]. split; [|done]. split_and!.
    + intros k t. cbn. by destruct (known_model _ k t).
    + intros k. setoid_rewrite elem_of_nil. naive_solver.
    + intros id. setoid_rewrite elem_of_nil. naive_solver.
  - cbn [flat_map] in Hr.
    destruct (load_entries_spec content_of f (register_human sha256_hex (register_agent sha256_hex human_author st c) c)
      (entries c)) as (st1 & -> & Hs1 & Hf1); [intros e ?; apply Hr, elem_of_app; by left|]. cbn [obind].
    destruct (IH st1) as (st2 & -> & Hr2 & Hf2); [intros e ?; apply Hr, elem_of_app; by right|].
    exists st2. split; [done|]. split.
    + apply (records_after_trans [c] cs st st1); [|done].
      eapply records_after_same; [|exact Hs1].
      pose proof (register_agent_records st c) as (A & B & C).
      destruct (register_human_records (register_agent sha256_hex human_author st c) c) as [Es Ei].
      unfold records_after. rewrite Es, Ei. by split_and!.
    + apply (files_after_trans _ _ _ _ st1); [|done]. intros path. destruct (Hf1 path) as [-> ->].
      by destruct (register_files st c) as [-> ->].
Qed.
End Checkpoints.

(** *** The INITIAL file *)

Lemma load_initial_files_spec (content_of : str → result (option str)) (g : str → str) st files :
  NoDup files.*1 → (∀ p las, (p, las) ∈ files → content_of p = Ret (Some (g p))) →
  ∃ st', load_initial_files content_of st files = Ret st' ∧ same_records st st' ∧
    ∀ path,
      (∀ las, (path, las) ∈ files →
         l_attributions st' !! path = Some (line_attributions_to_attributions las (g path) 0, las) ∧
         l_contents st' !! path = Some (g path)) ∧
      (path ∉ files.*1 → l_attributions st' !! path = l_attributions st !! path ∧
                         l_contents st' !! path = l_contents st !! path).
Proof.
  revert st. induction files as [|[p las] files IH]; intros st Hn Hc; cbn [load_initial_files].
  { exists st. split; [done|]. split; [done|]. intros path. split; [by intros ? ?%not_elem_of_nil|done]. }
  cbn in Hn. apply NoDup_cons in Hn as [Hp Hn]. rewrite (Hc p las) by by left. cbn [obind].
  destruct (IH (load_initial_file st p las (Some (g p))) Hn) as (st' & -> & Hs & Hf);
    [intros q lq ?; eapply Hc; by right|].
  exists st'. split; [done|]. split; [done|]. intros path. destruct (Hf path) as [Hin Hout]. split.
  - intros lq [[= -> ->]|?]%elem_of_cons; [|by apply Hin].
    destruct (Hout Hp) as [-> ->]. cbn. by rewrite !lookup_insert_eq.
  - cbn. intros [Hne Hnot]%not_elem_of_cons. destruct (Hout Hnot) as [-> ->]. cbn.
    by rewrite !lookup_insert_ne by done.
Qed.

Lemma collect_snapshots_reads log snapshots es :
  (∀ e, e ∈ es → ∃ x, get_file_version log (blob_sha e) = Ret x) →
  ∃ m, collect_snapshots log snapshots es = Ret m.
Proof.
  revert snapshots. induction es as [|e es IH]; intros snapshots H; cbn [collect_snapshots]; [eauto|].
  destruct (H e) as [x ->]; [by left|]. cbn [obind]. apply IH. intros e' ?. apply H. by right.
Qed.

End WorkingStateFacts.

(** ** Properties *)

Module WorkingStateProps.
Import AuthorshipLog Attribution WorkingLog DiffCompute LineProjection HashIter HashIterFacts VirtualAttributions.
Import WorkingState WorkingStateFacts.

(** C16: the working state.  When the blobs the working log names can be read,
    loading it succeeds, in whatever order the INITIAL files come.  The
    attributions and the content of a file are those of the last entry that
    carries attributions for it (none when that entry leaves no line), else
    those of the INITIAL file.  A trace has the model of the INITIAL session,
    else the model of the first checkpoint that reports it, and the sessions
    are those of the INITIAL file and the checkpoints.  A prompt is carried
    over only when it is in the INITIAL file and no checkpoint used it. *)
Theorem last_checkpoint_wins `{order : HashOrder} (sha256_hex : str → str) (human_author : option str)
    (base : str) (log : PersistedWorkingLog) (blob_of_file content_of_blob : str → str)
    (initial_stored : ∀ path, is_Some (initial_files (initial_attributions log) !! path) →
       file_blobs (initial_attributions log) !! path = Some (blob_of_file path) ∧
       get_file_version log (blob_of_file path) = Ret (content_of_blob (blob_of_file path)))
    (entries_stored : ∀ c e, c ∈ checkpoints log → e ∈ entries c →
       get_file_version log (blob_sha e) = Ret (content_of_blob (blob_sha e))) :
  ∃ va, from_persisted_working_log sha256_hex human_author base log = Ret va ∧
    (∀ path,
       va_attributions va !! path =
         match last_entry path (checkpoints log) with
         | Some e => entry_attributions e (content_of_blob (blob_sha e))
         | None => (λ las, (line_attributions_to_attributions las (content_of_blob (blob_of_file path)) 0, las)) <$>
                     initial_files (initial_attributions log) !! path
         end ∧
       file_contents va !! path =
         match last_entry path (checkpoints log) with
         | Some e => Some (content_of_blob (blob_sha e))
         | None => (λ _, content_of_blob (blob_of_file path)) <$> initial_files (initial_attributions log) !! path
         end) ∧
    (∀ k t, known_model (va_sessions va) k t =
       match known_model (initial_sessions (initial_attributions log)) k t with
       | Some m => Some m
       | None => first_model (omap (session_event sha256_hex) (checkpoints log)) k t
       end) ∧
    (∀ k, is_Some (va_sessions va !! k) ↔
       is_Some (initial_sessions (initial_attributions log) !! k) ∨
       ∃ c t m, c ∈ checkpoints log ∧ session_event sha256_hex c = Some (k, t, m)) ∧
    (∀ id, id ∈ initial_only_prompt_ids va ↔
       is_Some (initial_prompts (initial_attributions log) !! id) ∧
       ∀ c, c ∈ checkpoints log → prompt_event sha256_hex c ≠ Some id).
Proof.
  unfold from_persisted_working_log, load, collect_failed_tool_snapshots.
  destruct (collect_snapshots_reads log ∅ (flat_map entries (List.filter failed_tool (checkpoints log)))) as [failed ->].
  { intros e He. rewrite list_elem_of_In, in_flat_map in He. destruct He as (c & Hc & He).
    apply filter_In in Hc as [Hc _]. apply list_elem_of_In in Hc, He. eauto. }
  cbn [obind]. set (initial := initial_attributions log) in *.
  match goal with |- context [load_initial_files ?c ?s ?fs] =>
    destruct (load_initial_files_spec c (λ p, content_of_blob (blob_of_file p)) s fs) as (st1 & -> & Hs1 & Hf1) end.
  { apply hash_iter_NoDup. }
  { intros p las Hp%elem_of_hash_iter. destruct (initial_stored p) as [Hb Hg]; [by rewrite Hp|].
    unfold stored_initial_file_content_from. fold initial. rewrite Hb, Hg. done. }
  cbn [obind].
  match goal with |- context [load_checkpoints _ _ ?c _ _] =>
    destruct (load_checkpoints_spec sha256_hex human_author c (λ e, content_of_blob (blob_sha e)) st1 (checkpoints log))
      as (st2 & -> & Hr2 & Hf2) end.
  { intros e He _. rewrite list_elem_of_In, in_flat_map in He. destruct He as (c & Hc & He).
    apply list_elem_of_In in Hc, He. by rewrite (entries_stored c e Hc He). }
  cbn [obind]. eexists. split; [done|]. cbn [finish va_attributions file_contents va_sessions initial_only_prompt_ids].
  destruct Hr2 as (Hm & Hk & Hi). destruct Hs1 as (_ & _ & Ei & Es & _). rewrite Es in Hm, Hk. rewrite Ei in Hi.
  split_and!; [|exact Hm|exact Hk|].
  - intros path. destruct (Hf2 path) as [-> ->]. fold (last_entry path (checkpoints log)).
    unfold last_entry, of_file. destruct (list.last _); [done|]. destruct (Hf1 path) as [Hin Hout].
    destruct (initial_files initial !! path) as [las|] eqn:E.
    + destruct (Hin las) as [-> ->]; [by apply elem_of_hash_iter|done].
    + destruct Hout as [-> ->]; [|cbn; by rewrite !lookup_empty].
      intros ([p las] & -> & Hp)%list_elem_of_fmap. apply elem_of_hash_iter in Hp. cbn in E. congruence.
  - intros id. rewrite Hi. cbn [load_initial_records l_initial_only]. by rewrite elem_of_dom.
Qed.

(** *** Witness *)

Definition sample_prompt : PromptRecord :=
  mkPromptRecord (mkAgentId (lit "tool") (lit "id") (lit "m")) None None 0 0 0 0 None.
Definition sample_entry (file blob : str) (las : list LineAttribution) : WorkingLogEntry :=
  mkEntry file blob [] las.
Definition sample_checkpoint (agent_model trace : str) (es : list WorkingLogEntry) : Checkpoint :=
  mkCheckpoint AiAgent [] (lit "dev") es 0 (Some (mkAgentId (lit "tool") (lit "id") agent_model)) None
    (mkLineStats 1 0 0 0) CHECKPOINT_API_VERSION None None (Some trace).
Definition sample_log : PersistedWorkingLog :=
  mkWorkingLog (mkInitial {[lit "a.rs" := [mkLineAttr 1 1 (lit "p_old") None]]} {[lit "p_old" := sample_prompt]}
                  {[lit "a.rs" := lit "blob"]} ∅ ∅)
    [sample_checkpoint (lit "m1") (lit "t_1") [sample_entry (lit "b.rs") (lit "blob") [mkLineAttr 1 1 (lit "s_x") None]];
     sample_checkpoint (lit "m2") (lit "t_1") [sample_entry (lit "b.rs") (lit "blob") [mkLineAttr 2 2 (lit "s_x") None]]]
    (λ _, Ret (lit "one" ++ [LF] ++ lit "two")).
Lemma last_checkpoint_wins_witness :
  ∃ va, from_persisted_working_log (order := in_order) (λ _, lit "0123456789abcdef") None (lit "c0") sample_log = Ret va ∧
    get_line_attributions va (lit "b.rs") = Some [mkLineAttr 2 2 (lit "s_x") None] ∧
    get_line_attributions va (lit "a.rs") = Some [mkLineAttr 1 1 (lit "p_old") None] ∧
    known_model (va_sessions va) (lit "s_0123456789abcd") (lit "t_1") = Some (lit "m1").
Proof.
  destruct (last_checkpoint_wins (order := in_order) (λ _, lit "0123456789abcdef") None (lit "c0") sample_log
    (λ _, lit "blob") (λ _, lit "one" ++ [LF] ++ lit "two")) as (va & H & Hf & Hm & _).
  - intros path [las Hp]. cbn in Hp. apply lookup_singleton_Some in Hp as [<- _]. by vm_compute.
  - done.
  - exists va. split; [exact H|]. unfold get_line_attributions.
    destruct (Hf (lit "b.rs")) as [-> _], (Hf (lit "a.rs")) as [-> _].
    split; [by vm_compute|]. split; [by vm_compute|]. rewrite Hm. by vm_compute.
Defined.

End WorkingStateProps.
