(* ===== verification/CommitSplit.v ===== *)
(** * Splitting attributions at a commit

    When a commit is made, the attributions of the working state go to the
    commit's note, for the lines the commit adds, and to the INITIAL file of
    the next working state, for the lines left uncommitted
    (src/src/authorship/virtual_attribution.rs).  What git answers is a record
    of functions. *)

From S2P Require Import Prelude Text LineRange AuthorshipLog HunkShift ImaraDiff Attribution WorkingLog DiffCompute LineProjection Tracker PatchParse Carryover HashIter Attestations VirtualAttributions.

Local Open Scope Z_scope.

Module CommitSplit.
Import LineRange AuthorshipLog ImaraDiff Attribution DiffCompute LineProjection Tracker Carryover HashIter Attestations.
Import VirtualAttributions.

(** ** Projection of lines onto a commit *)

Section Projection.
Context `{engine : !DiffEngine}.
Variable is_alphabetic : str → bool.
Variable is_numeric : str → bool.
Variable hash_normalized : str → N.

(** [new_index..new_index + len], from 1, as [u32]. *)
Definition new_lines (new_index len : nat) : list Z :=
  map (λ index, u32_add (as_u32 index) 1) (seq new_index len).

Definition project_failed_tool_lines (failed committed : str) : list Z :=
  flat_map (λ op, match op with OpEqual _ new_index len => new_lines new_index len | _ => [] end)
    (capture_diff_slices (lines (normalize_line_endings failed)) (lines (normalize_line_endings committed))).

Record CommittedLineProjection := mkProjection {
  proj_authors : gmap str (list Z);
  overwritten : list Z;
  preexisting : list Z
}.

(** [start_line..=end_line]. *)
Definition line_span (la : LineAttribution) : list Z := seqZ (start_line la) (end_line la - start_line la + 1).

(** The author of each observed line; a later attribution wins. *)
Definition line_authors (attrs : list LineAttribution) : gmap Z str :=
  foldl (λ m la, foldl (λ m line, <[line := line_author_id la]> m) m (line_span la)) ∅ attrs.

Definition authored (authors : gmap Z str) (index : nat) : bool :=
  match authors !! as_u32 (S index) with Some a => negb (str_eqb a HUMAN) | None => false end.

(** The lines of the commit an operation shows as overwritten, and as there
    before. *)
Definition op_overwritten (authors : gmap Z str) (op : DiffOp) : list Z :=
  match op with
  | OpReplace old_index old_len new_index new_len =>
      if existsb (authored authors) (seq old_index old_len) then new_lines new_index new_len else []
  | _ => []
  end.
Definition op_preexisting (authors : gmap Z str) (op : DiffOp) : list Z :=
  match op with
  | OpEqual old_index new_index len =>
      flat_map (λ offset, if authored authors (old_index + offset) then [] else [as_u32 (new_index + offset + 1)])
        (seq 0 len)
  | _ => []
  end.

Definition project_committed_lines (observed committed : str) (attrs : list LineAttribution) :
    result CommittedLineProjection :=
  let original := line_attributions_to_attributions attrs observed 0 in
  let? updated :=
    update_attributions is_alphabetic is_numeric hash_normalized default_config observed committed original HUMAN 1 in
  let projected :=
    foldl (λ m la, extend m (line_author_id la) (line_span la)) ∅ (attributions_to_line_attributions updated committed) in
  let authors := line_authors attrs in
  let ops := capture_diff_slices (lines (normalize_line_endings observed)) (lines (normalize_line_endings committed)) in
  Ret (mkProjection projected (flat_map (op_overwritten authors) ops) (flat_map (op_preexisting authors) ops)).

(** ** Sources of an amended commit *)

Definition has_evidence (va : VirtualAttributions) (path : str) : bool :=
  match va_attributions va !! path with Some (_, _ :: _) => true | _ => false end.

Definition str_lt (a b : str) : bool := match str_compare a b with Lt => true | _ => false end.

Section Ordered.
Context `{order : HashOrder}.
Variable nfc : str → str.

(** The path that stands for each normalized path: one with lines first, then
    the least. *)
Definition source_paths (va : VirtualAttributions) : gmap str (str * str) :=
  foldl (λ paths '(path, content),
    match paths !! nfc path with
    | Some (existing, _) =>
        if (has_evidence va path && negb (has_evidence va existing)) ||
           (Bool.eqb (has_evidence va path) (has_evidence va existing) && str_lt path existing)
        then <[nfc path := (path, content)]> paths else paths
    | None => <[nfc path := (path, content)]> paths
    end) ∅ (hash_iter (file_contents va)).

(** [source.attributions.get(path).or_else(|| source.attributions.get(normalized))]. *)
Definition lines_of_path (va : VirtualAttributions) (path normalized : str) : list LineAttribution :=
  match va_attributions va !! path with
  | Some (_, ls) => ls
  | None => match va_attributions va !! normalized with Some (_, ls) => ls | None => [] end
  end.

(** [file_owners.entry(line).or_insert_with(|| author.clone())] for each line. *)
Definition claim_lines (owners : gmap Z str) (author_lines : str * list Z) : gmap Z str :=
  if str_eqb author_lines.1 HUMAN then owners
  else foldl (λ m line, match m !! line with Some _ => m | None => <[line := author_lines.1]> m end)
         owners author_lines.2.

Definition project_source_file (va : VirtualAttributions) (contents : gmap str str) (renames : gmap str str)
    (owners : gmap str (gmap Z str)) (normalized path observed : str) : result (gmap str (gmap Z str)) :=
  let committed_path := default normalized (renames !! normalized) in
  match contents !! committed_path with
  | None => Ret owners
  | Some committed =>
      let? projection := project_committed_lines observed committed (lines_of_path va path normalized) in
      Ret (<[committed_path :=
               foldl claim_lines (default ∅ (owners !! committed_path)) (hash_iter (proj_authors projection))]> owners)
  end.

Fixpoint project_source (va : VirtualAttributions) (contents renames : gmap str str)
    (owners : gmap str (gmap Z str)) (paths : list (str * (str * str))) : result (gmap str (gmap Z str)) :=
  match paths with
  | [] => Ret owners
  | (normalized, (path, observed)) :: paths' =>
      let? owners' := project_source_file va contents renames owners normalized path observed in
      project_source va contents renames owners' paths'
  end.

(** The lines of each author, in the order of lines. *)
Definition lines_by_author (owners : gmap Z str) : gmap str (list Z) :=
  foldl (λ m '(line, author), extend m author [line]) ∅ (sort_by (λ a b, a.1 <=? b.1) (map_to_list owners)).

Definition project_committed_sources (checkpoint blame : VirtualAttributions) (contents renames : gmap str str) :
    result (gmap str (gmap str (list Z))) :=
  let? owners := project_source checkpoint contents renames ∅ (btree_iter (source_paths checkpoint)) in
  let? owners := project_source blame contents renames owners (btree_iter (source_paths blame)) in
  Ret (lines_by_author <$> owners).
End Ordered.
End Projection.

(** ** Reference *)

(** The author of an observed line: that of the last attribution on it. *)
Definition last_author (attrs : list LineAttribution) (line : Z) : option str :=
  line_author_id <$> list.last (List.filter (λ la, covers_line la line) attrs).

(** An observed line of an author other than the unattested human. *)
Definition ai_line (attrs : list LineAttribution) (line : Z) : Prop :=
  ∃ w, last_author attrs line = Some w ∧ w ≠ HUMAN.

(** A line of the commit a projection gives to an author. *)
Definition projected (p : CommittedLineProjection) (w : str) (line : Z) : Prop :=
  line ∈ default [] (proj_authors p !! w).

Definition compared_lines (s : str) : list str := lines (normalize_line_endings s).

(** What the files of the sources project on the paths of a commit, in the
    order they are looked at. *)
Definition claims_of `{engine : !DiffEngine} `{order : HashOrder} (is_alphabetic is_numeric : str → bool)
    (hash_normalized : str → N) (nfc : str → str) (contents renames : gmap str str) (va : VirtualAttributions) :
    list (str * CommittedLineProjection) :=
  omap (λ '(n, (path, observed)),
    match contents !! default n (renames !! n) with
    | Some committed =>
        match project_committed_lines is_alphabetic is_numeric hash_normalized observed committed (lines_of_path va path n) with
        | Ret p => Some (default n (renames !! n), p)
        | _ => None
        end
    | None => None
    end) (btree_iter (source_paths nfc va)).

(** The first claim to a line, but those of the unattested human, wins. *)
Definition first_claim (claims : list (str * CommittedLineProjection)) (path w : str) (line : Z) : Prop :=
  ∃ pre p post, claims = pre ++ (path, p) :: post ∧ projected p w line ∧ w ≠ HUMAN ∧
    ∀ p' w', (path, p') ∈ pre → projected p' w' line → w' = HUMAN.

End CommitSplit.

(** ** Lemmas *)

Module CommitSplitFacts.
Import LineRange LineRangeFacts AuthorshipLog ImaraDiff ImaraDiffFacts Attribution AttributionFacts DiffCompute LineMeta.
Import LineProjection LineProjectionFacts Tracker TrackerFacts Carryover CarryoverFacts HashIter HashIterFacts.
Import Attestations VirtualAttributions CommitSplit.

Local Open Scope nat_scope.

(** *** Maps filled by folds *)

Lemma fold_extend_many {A B : Type} (f : A → str) (g : A → list B) (l : list A) (m : gmap str (list B)) k :
  default [] (foldl (λ m a, extend m (f a) (g a)) m l !! k) =
  default [] (m !! k) ++ flat_map g (List.filter (λ a, str_eqb (f a) k) l).
Proof.
  revert m. induction l as [|a l IH]; intros m; cbn; [by rewrite app_nil_r|]. rewrite IH. unfold extend.
  destruct (str_eqb (f a) k) eqn:E; cbn.
  - apply str_eqb_eq in E as ->. rewrite lookup_insert_eq. cbn. by rewrite <-app_assoc.
  - rewrite lookup_insert_ne; [done|]. intros H. by rewrite H, str_eqb_refl in E.
Qed.

Lemma elem_of_line_span la l : l ∈ line_span la ↔ covers_line la l = true.
Proof. unfold line_span. rewrite elem_of_seqZ, covers_line_true. lia. Qed.

Lemma fold_insert_all (w : str) (ls : list Z) (m : gmap Z str) l :
  foldl (λ m line, <[line := w]> m) m ls !! l = if bool_decide (l ∈ ls) then Some w else m !! l.
Proof.
  revert m. induction ls as [|x ls IH]; intros m; cbn; [done|]. rewrite IH.
  destruct (decide (l ∈ ls)) as [Hin|Hn].
  - rewrite !bool_decide_true by set_solver. done.
  - rewrite (bool_decide_false (l ∈ ls)) by done. destruct (decide (x = l)) as [->|Hx].
    + rewrite lookup_insert_eq, bool_decide_true by set_solver. done.
    + rewrite lookup_insert_ne, bool_decide_false by set_solver. done.
Qed.

Lemma line_authors_lookup attrs l : line_authors attrs !! l = last_author attrs l.
Proof.
  unfold line_authors, last_author. induction attrs as [|la attrs IH] using rev_ind; [done|].
  rewrite foldl_app, List.filter_app. cbn [foldl List.filter]. rewrite fold_insert_all, IH.
  destruct (covers_line la l) eqn:E.
  - rewrite bool_decide_true by by apply elem_of_line_span. cbn. by rewrite last_snoc.
  - rewrite bool_decide_false by (rewrite elem_of_line_span; congruence). cbn. by rewrite app_nil_r.
Qed.

Lemma authored_spec attrs i :
  (Z.of_nat (S i) <= u32_max)%Z → authored (line_authors attrs) i = true ↔ ai_line attrs (Z.of_nat (S i)).
Proof.
  intros Hi. unfold authored, ai_line, as_u32. rewrite u32_wrap_small by (unfold is_u32; lia).
  rewrite line_authors_lookup. destruct (last_author _ _) as [w|]; [|naive_solver].
  rewrite negb_true_iff. destruct (str_eqb w HUMAN) eqn:E; [apply str_eqb_eq in E; naive_solver|].
  split; [|done]. intros _. exists w. split; [done|]. intros ->. by rewrite str_eqb_refl in E.
Qed.

(** *** Operations of a diff *)

Lemma elem_of_new_lines n len line :
  (Z.of_nat (n + len) <= u32_max)%Z →
  line ∈ new_lines n len ↔ (Z.of_nat n < line <= Z.of_nat (n + len))%Z.
Proof.
  intros Hb. unfold new_lines, u32_max in *. rewrite list_elem_of_In, in_map_iff. split.
  - intros (i & <- & Hi%in_seq). unfold as_u32, u32_add. rewrite !u32_wrap_small; unfold is_u32, u32_max; try lia.
    rewrite u32_wrap_small; unfold is_u32, u32_max; lia.
  - intros Hl. exists (Z.to_nat (line - 1)). split; [|apply in_seq; lia].
    unfold as_u32, u32_add. rewrite !u32_wrap_small; unfold is_u32, u32_max; try lia.
    rewrite u32_wrap_small; unfold is_u32, u32_max; lia.
Qed.

Lemma tile_replace_bounds {T : Type} (old new : list T) i j ops o ol n nl :
  ops_tile old new i j ops → OpReplace o ol n nl ∈ ops → i ≤ o ∧ o + ol ≤ length old ∧ j ≤ n ∧ n + nl ≤ length new.
Proof.
  revert i j. induction ops as [|op ops IH]; intros i j; [by intros _ ?%not_elem_of_nil|].
  rewrite elem_of_cons. cbn [ops_tile]. intros Ht [<-|Hin].
  - destruct Ht as (-> & -> & ? & ? & ? & ? & _). lia.
  - destruct op; cbn in Ht; destruct_and?; subst;
      match goal with H : ops_tile _ _ _ _ _ |- _ => apply IH in H; [|done]; lia end.
Qed.

(** The new sides of equal and of replaced parts do not meet. *)
Lemma tile_apart {T : Type} (old new : list T) i j ops x y o ol n nl :
  ops_tile old new i j ops → (x, y) ∈ aligned ops → OpReplace o ol n nl ∈ ops → ¬ (n ≤ y < n + nl).
Proof.
  revert i j. induction ops as [|op ops IH]; intros i j; [by intros _ ?%not_elem_of_nil|].
  intros Ht. unfold aligned. cbn [flat_map]. rewrite elem_of_app, elem_of_cons. intros [Hx|Hx] [Ho|Ho].
  - subst op. by apply not_elem_of_nil in Hx.
  - destruct op as [o' n' l| | |]; try by apply not_elem_of_nil in Hx.
    apply list_elem_of_In, in_map_iff in Hx as (k & [= <- <-] & Hk%in_seq).
    destruct Ht as (-> & -> & _ & _ & _ & _ & Ht). apply (tile_replace_bounds _ _ _ _ _ _ _ _ _ Ht) in Ho. lia.
  - subst op. destruct Ht as (-> & -> & _ & _ & _ & _ & Ht).
    destruct (proj2 (aligned_tile _ _ _ _ _ Ht) x y Hx) as (_ & ? & _). lia.
  - destruct op; cbn in Ht; destruct_and?; subst;
      match goal with H : ops_tile _ _ _ _ _ |- _ => by eapply IH end.
Qed.

Section Ops.
Context `{engine : !DiffEngine}.
Variables (observed committed : str) (attrs : list LineAttribution).
Hypothesis few_observed : (Z.of_nat (length (compared_lines observed)) <= u32_max)%Z.
Hypothesis few_committed : (Z.of_nat (length (compared_lines committed)) <= u32_max)%Z.

Let ops := capture_diff_slices (compared_lines observed) (compared_lines committed).

Lemma compared_tile : ops_tile (compared_lines observed) (compared_lines committed) 0 0 ops.
Proof. apply hunks_loop_tile, diff_slices_valid. Qed.

Lemma elem_of_aligned o n len k : OpEqual o n len ∈ ops → k < len → (o + k, n + k) ∈ aligned ops.
Proof.
  intros Ho Hk. apply elem_of_flat_map. exists (OpEqual o n len). split; [done|].
  apply elem_of_list_map. exists k. split; [apply elem_of_seq; lia|done].
Qed.

Lemma aligned_line i j :
  (i, j) ∈ aligned ops →
  (authored (line_authors attrs) i = true ↔ ai_line attrs (Z.of_nat (S i))) ∧ as_u32 (j + 1) = Z.of_nat (S j).
Proof.
  intros Hij. destruct (proj2 (aligned_tile _ _ _ _ _ compared_tile) i j Hij) as (? & ? & _).
  split; [apply authored_spec; lia|]. unfold as_u32. rewrite u32_wrap_small; [lia|]. unfold is_u32. lia.
Qed.

Lemma elem_of_preexisting line :
  line ∈ flat_map (op_preexisting (line_authors attrs)) ops ↔
  ∃ i j, (i, j) ∈ aligned ops ∧ line = Z.of_nat (S j) ∧ ¬ ai_line attrs (Z.of_nat (S i)).
Proof.
  rewrite elem_of_flat_map. split.
  - intros (op & Hop & Hl). destruct op as [o n len| | |]; try by apply not_elem_of_nil in Hl.
    apply elem_of_flat_map in Hl as (k & Hk%elem_of_seq & Hl).
    pose proof (elem_of_aligned _ _ _ k Hop ltac:(lia)) as Hij. destruct (aligned_line _ _ Hij) as [Ha Hu].
    destruct (authored _ (o + k)) eqn:E; [by apply not_elem_of_nil in Hl|].
    apply list_elem_of_singleton in Hl as ->. rewrite Hu. exists (o + k), (n + k). split_and!; [done..|].
    intros H%Ha. congruence.
  - intros (i & j & Hij & -> & Hn). destruct (aligned_line _ _ Hij) as [Ha Hu].
    unfold aligned in Hij. apply elem_of_flat_map in Hij as (op & Hop & Hij). exists op. split; [done|].
    destruct op as [o n len| | |]; try by apply not_elem_of_nil in Hij.
    apply elem_of_list_map in Hij as (k & Hk & [= -> ->]). apply elem_of_flat_map. exists k. split; [done|].
    destruct (authored _ (o + k)) eqn:E; [by destruct Hn; apply Ha|]. apply list_elem_of_singleton. by rewrite Hu.
Qed.

Lemma replaced_authored o ol n nl :
  OpReplace o ol n nl ∈ ops →
  (existsb (authored (line_authors attrs)) (seq o ol) = true ↔
   ∃ i, o ≤ i < o + ol ∧ ai_line attrs (Z.of_nat (S i))) ∧ (Z.of_nat (n + nl) <= u32_max)%Z.
Proof.
  intros Ho. apply (tile_replace_bounds _ _ _ _ _ _ _ _ _ compared_tile) in Ho. split; [|lia].
  rewrite existsb_exists. split; intros (i & Hi & Ha).
  - apply in_seq in Hi. exists i. split; [done|]. apply authored_spec in Ha; [done|lia].
  - exists i. split; [by apply in_seq|]. apply authored_spec; [lia|done].
Qed.

Lemma elem_of_overwritten line :
  line ∈ flat_map (op_overwritten (line_authors attrs)) ops ↔
  ∃ o ol n nl i, OpReplace o ol n nl ∈ ops ∧ o ≤ i < o + ol ∧ ai_line attrs (Z.of_nat (S i)) ∧
    (Z.of_nat n < line <= Z.of_nat (n + nl))%Z.
Proof.
  rewrite elem_of_flat_map. split.
  - intros (op & Hop & Hl). destruct op as [| | |o ol n nl]; try by apply not_elem_of_nil in Hl.
    cbn [op_overwritten] in Hl. destruct (replaced_authored _ _ _ _ Hop) as [He Hb].
    destruct (existsb _ _) eqn:E; [|by apply not_elem_of_nil in Hl].
    destruct (proj1 He eq_refl) as (i & Hi & Ha). apply elem_of_new_lines in Hl; [|done].
    by exists o, ol, n, nl, i.
  - intros (o & ol & n & nl & i & Hop & Hi & Ha & Hl). exists (OpReplace o ol n nl). split; [done|].
    cbn [op_overwritten]. destruct (replaced_authored _ _ _ _ Hop) as [He Hb].
    rewrite (proj2 He) by eauto. by apply elem_of_new_lines.
Qed.
End Ops.

(** *** Authors of projected lines *)

Lemma line_bytes_author attrs content t x :
  x ∈ line_attributions_to_attributions attrs content t →
  ∃ la, la ∈ attrs ∧ line_author_id la = author_id x.
Proof.
  unfold line_attributions_to_attributions. case_match; [by intros ?%not_elem_of_nil|].
  intros (la & Hla & Hx)%list_elem_of_omap. exists la. split; [done|].
  repeat case_match; try done. by injection Hx as <-.
Qed.

(** The author of a line is human or one of its attributions'. *)
Lemma line_owner_author attributions content ai k :
  (line_owner attributions content ai k).1 = HUMAN ∨
  ∃ a, a ∈ attributions ∧ author_id a = (line_owner attributions content ai k).1.
Proof.
  unfold line_owner, find_dominant_author_for_line_candidates.
  destruct (List.filter _ _) as [|first rest] eqn:E; [by left|right]. cbn [fst].
  destruct (foldl_later rest first) as (pre & a & post & Ep & -> & _). exists a. split; [|done].
  assert (a ∈ first :: rest) as Ha by (rewrite Ep; set_solver). rewrite <-E in Ha.
  apply elem_of_filter_b in Ha as [Ha _]. by apply elem_of_meeting in Ha as [? _].
Qed.

Section Project.
Context `{engine : !DiffEngine}.
Variables (is_alphabetic is_numeric : str → bool) (hash_normalized : str → N).

Abbreviation project := (project_committed_lines is_alphabetic is_numeric hash_normalized).

Lemma project_spec observed committed attrs :
  is_utf8 observed = true → is_utf8 committed = true →
  (Z.of_nat (length (split_lines_with_terminators committed)) <= u32_max)%Z →
  ∃ p updated, project observed committed attrs = Ret p ∧
    (∀ w line, projected p w line ↔ ∃ prev, line_owned (attributions_to_line_attributions updated committed) line (w, prev)) ∧
    (∀ x, x ∈ updated → author_id x = HUMAN ∨ ∃ la, la ∈ attrs ∧ line_author_id la = author_id x) ∧
    let ops := capture_diff_slices (compared_lines observed) (compared_lines committed) in
    overwritten p = flat_map (op_overwritten (line_authors attrs)) ops ∧
    preexisting p = flat_map (op_preexisting (line_authors attrs)) ops.
Proof.
  intros Ho Hc Hfew. unfold project_committed_lines.
  set (original := line_attributions_to_attributions attrs observed 0).
  destruct (checkpoint_spec is_alphabetic is_numeric hash_normalized default_config HUMAN 1 false
    observed committed original Ho Hc) as (c & updated & _ & _ & _ & Hu & Hk & _).
  unfold update_attributions. rewrite Hu. cbn [obind]. eexists _, updated. split; [done|].
  cbn [overwritten preexisting]. split_and!; [| |done..].
  - intros w line. unfold projected. cbn [proj_authors]. rewrite fold_extend_many, lookup_empty. cbn [default from_option app].
    rewrite elem_of_flat_map. unfold line_owned. split.
    + intros (la & Hla & Hl). apply elem_of_filter_b in Hla as [Hla Hw%str_eqb_eq].
      exists (overrode la), la. rewrite <-elem_of_line_span, <-Hw. done.
    + intros (prev & la & Hla & Hl & [= Hw _]). exists la. rewrite elem_of_filter_b, elem_of_line_span.
      by rewrite Hw, str_eqb_refl.
  - intros x Hx. rewrite Forall_forall in Hk. destruct (Hk x Hx) as [[-> _]|(a & Ha & <- & _)]; [by left|right].
    by eapply line_bytes_author.
Qed.

Lemma projected_line p updated (attrs : list LineAttribution) committed w line :
  (Z.of_nat (length (split_lines_with_terminators committed)) <= u32_max)%Z →
  (∀ w line, projected p w line ↔ ∃ prev, line_owned (attributions_to_line_attributions updated committed) line (w, prev)) →
  (∀ x, x ∈ updated → author_id x = HUMAN ∨ ∃ la, la ∈ attrs ∧ line_author_id la = author_id x) →
  projected p w line →
  (1 <= line <= Z.of_nat (length (split_lines_with_terminators committed)))%Z ∧
  (line_owner updated committed false (Z.to_nat (line - 1))).1 = w ∧
  (w = HUMAN ∨ ∃ la, la ∈ attrs ∧ line_author_id la = w).
Proof.
  intros Hfew Hp Hk (prev & Hl)%Hp. unfold attributions_to_line_attributions in Hl.
  apply projection_owned in Hl as (k & Hlt & -> & Hw & _); [|done]. split; [lia|].
  replace (Z.to_nat (Z.of_nat (S k) - 1)) with k by lia.
  pose proof (line_owner_author updated committed false k) as Ha. rewrite Hw in Ha |- *. cbn [fst] in *.
  split; [done|]. destruct Ha as [?|(x & Hx & <-)]; [by left|by apply Hk].
Qed.
End Project.

(** *** Claims of sources *)

(** A projection gives a line to one author. *)
Definition one_author (p : CommittedLineProjection) : Prop :=
  ∀ w w' line, projected p w line → projected p w' line → w = w'.

Lemma claim_lines_lookup owners w ls line :
  claim_lines owners (w, ls) !! line =
  match owners !! line with
  | Some v => Some v
  | None => if negb (str_eqb w HUMAN) && bool_decide (line ∈ ls) then Some w else None
  end.
Proof.
  unfold claim_lines. cbn [fst snd]. destruct (str_eqb w HUMAN); cbn [negb andb]; [by destruct (owners !! line)|].
  revert owners. induction ls as [|x ls IH]; intros owners; cbn [foldl]; [by destruct (owners !! line)|]. rewrite IH.
  destruct (decide (x = line)) as [->|Hne].
  - rewrite (bool_decide_true (line ∈ line :: ls)) by by left.
    destruct (owners !! line) eqn:E; [by rewrite E|]. by rewrite lookup_insert_eq.
  - rewrite (bool_decide_ext (line ∈ x :: ls) (line ∈ ls)) by (rewrite elem_of_cons; naive_solver).
    destruct (owners !! x); [done|]. by rewrite lookup_insert_ne.
Qed.

Lemma claim_all_lookup (l : list (str * list Z)) owners line v :
  (∀ w w' ls ls', (w, ls) ∈ l → (w', ls') ∈ l → line ∈ ls → line ∈ ls' → w = w') →
  foldl claim_lines owners l !! line = Some v ↔
  owners !! line = Some v ∨ owners !! line = None ∧ v ≠ HUMAN ∧ ∃ ls, (v, ls) ∈ l ∧ line ∈ ls.
Proof.
  revert owners. induction l as [|[w ls] l IH]; intros owners Hone; cbn [foldl].
  { split; [by left|]. by intros [?|(_ & _ & ? & ?%not_elem_of_nil & _)]. }
  rewrite IH by (intros w1 w2 ls1 ls2 H1 H2; apply (Hone w1 w2 ls1 ls2); by right). rewrite claim_lines_lookup. setoid_rewrite elem_of_cons.
  destruct (owners !! line) as [u|]; [naive_solver|].
  destruct (str_eqb w HUMAN) eqn:Ew; cbn [negb andb].
  { apply str_eqb_eq in Ew as ->. split; [|naive_solver]. intros [?|(_ & ? & ls' & ? & ?)]; [done|]. right. eauto 10. }
  assert (w ≠ HUMAN) by (intros ->; by rewrite str_eqb_refl in Ew).
  case_bool_decide as Hin.
  - split.
    + intros [[= <-]|[? _]]; [|done]. right. split_and!; [done..|]. exists ls. auto.
    + intros [?|(_ & _ & ls' & Hl' & Hin')]; [done|]. left. f_equal.
      destruct Hl' as [[= -> ->]|Hl']; [done|]. symmetry. apply (Hone v w ls' ls); [by right|by left|done..].
  - split.
    + intros [?|(_ & ? & ls' & ? & ?)]; [done|]. right. eauto 10.
    + intros [?|(_ & ? & ls' & [[= -> ->]|?] & ?)]; [done..|]. right. eauto.
Qed.

(** Owners of lines by path, in the order of claims. *)
Definition owned_by (owners : gmap str (gmap Z str)) (path w : str) (line : Z) : Prop :=
  default ∅ (owners !! path) !! line = Some w.

Lemma first_claim_app claims path p w path' line :
  first_claim (claims ++ [(path, p)]) path' w line ↔
  first_claim claims path' w line ∨
  (¬ (∃ v, first_claim claims path' v line) ∧ path' = path ∧ projected p w line ∧ w ≠ HUMAN).
Proof.
  assert (∀ claims : list (str * CommittedLineProjection),
    (∃ v, first_claim claims path' v line) ∨
    ∀ p' w', (path', p') ∈ claims → projected p' w' line → w' = HUMAN) as Hdec.
  { clear. induction claims as [|[q p] claims [[v (pre & p0 & post & -> & Hp & Hv & Hno)]|IH]] using rev_ind.
    - right. by intros ?? ?%not_elem_of_nil.
    - left. exists v, pre, p0, (post ++ [(q, p)]). split_and!; [by rewrite <-app_assoc|done..].
    - destruct (decide (q = path')) as [->|Hne].
      + assert ((∃ v, projected p v line ∧ v ≠ HUMAN) ∨ ∀ v, projected p v line → v = HUMAN) as [(v & Hp & Hv)|Hh].
        { destruct (decide (Exists (λ kv : str * list Z, line ∈ kv.2 ∧ kv.1 ≠ HUMAN) (map_to_list (proj_authors p)))) as [He|Hn].
          - left. apply Exists_exists in He as ([v ls] & Hin%elem_of_map_to_list & Hl & Hv). exists v. split; [|done].
            unfold projected. by rewrite Hin.
          - right. intros v Hp. destruct (decide (v = HUMAN)) as [|Hv]; [done|]. destruct Hn. apply Exists_exists.
            unfold projected in Hp. destruct (proj_authors p !! v) as [ls|] eqn:E; [|by apply not_elem_of_nil in Hp].
            exists (v, ls). by rewrite elem_of_map_to_list. }
        * left. exists v, claims, p, []. split_and!; done.
        * right. intros p' w' [Hin|Hin%list_elem_of_singleton]%elem_of_app Hp; [by eapply IH|]. injection Hin as <-. by apply Hh.
      + right. intros p' w' [Hin|Hin%list_elem_of_singleton]%elem_of_app; [by apply IH|]. by injection Hin as <-. }
  split.
  - intros (pre & p0 & post & E & Hp & Hw & Hno). destruct post as [|x post _] using rev_ind.
    + apply app_inj_tail in E as [-> [= -> ->]]. right. split_and!; try done.
      intros (v & pre' & p' & post' & -> & Hp' & Hv & _). apply Hv, (Hno p'); [|done]. rewrite elem_of_app. right. by left.
    + left. rewrite app_comm_cons, app_assoc in E. apply app_inj_tail in E as [-> _]. by exists pre, p0, post.
  - intros [(pre & p0 & post & -> & Hp & Hw & Hno)|(Hnone & -> & Hp & Hw)].
    + exists pre, p0, (post ++ [(path, p)]). split_and!; [by rewrite <-app_assoc|done..].
    + exists claims, p, []. split_and!; [done..|]. destruct (Hdec claims) as [?|H]; [done|exact H].
Qed.

Section Sources.
Context `{engine : !DiffEngine} `{order : HashOrder}.
Variables (is_alphabetic is_numeric : str → bool) (hash_normalized : str → N) (nfc : str → str).

Lemma claim_step owners (claims : list (str * CommittedLineProjection)) path p :
  one_author p → (∀ q w line, owned_by owners q w line ↔ first_claim claims q w line) →
  ∀ q w line,
    owned_by (<[path := foldl claim_lines (default ∅ (owners !! path)) (hash_iter (proj_authors p))]> owners) q w line ↔
    first_claim (claims ++ [(path, p)]) q w line.
Proof.
  intros Hone Hown q w line. rewrite first_claim_app. unfold owned_by at 1.
  destruct (decide (path = q)) as [<-|Hne].
  - rewrite lookup_insert_eq. cbn [default from_option Datatypes.id]. rewrite claim_all_lookup.
    + pose proof (Hown path w line) as Hw. unfold owned_by in Hw. rewrite Hw. apply or_iff_compat_l.
      assert (default ∅ (owners !! path) !! line = None ↔ ¬ ∃ v, first_claim claims path v line) as ->.
      { rewrite eq_None_not_Some. unfold is_Some. by setoid_rewrite (λ v, Hown path v line : default ∅ (owners !! path) !! line = Some v ↔ _). }
      unfold projected. split.
      * intros (? & ? & ls & Hin%elem_of_hash_iter & Hl). split_and!; [done..| |done]. by rewrite Hin.
      * intros (? & _ & Hl & ?). split_and!; [done..|]. destruct (proj_authors p !! w) as [ls|] eqn:E; [|by apply not_elem_of_nil in Hl].
        exists ls. by rewrite elem_of_hash_iter.
    + intros v v' ls ls' Hv%elem_of_hash_iter Hv'%elem_of_hash_iter Hl Hl'. apply (Hone v v' line); unfold projected; by rewrite ?Hv, ?Hv'.
  - rewrite lookup_insert_ne by done. rewrite <-Hown. unfold owned_by. naive_solver.
Qed.

Lemma project_one_author observed committed (attrs : list LineAttribution) :
  is_utf8 observed = true → is_utf8 committed = true →
  (Z.of_nat (length (split_lines_with_terminators committed)) <= u32_max)%Z →
  ∃ p, project_committed_lines is_alphabetic is_numeric hash_normalized observed committed attrs = Ret p ∧ one_author p.
Proof.
  intros Ho Hc Hfew.
  destruct (project_spec is_alphabetic is_numeric hash_normalized observed committed attrs)
    as (p & updated & Hp & Hproj & Hk & _); [done..|].
  exists p. split; [done|]. intros w w' line H H'.
  destruct (projected_line p updated attrs committed w line) as (_ & <- & _); [done..|].
  by destruct (projected_line p updated attrs committed w' line) as (_ & <- & _).
Qed.

Lemma project_source_spec va contents renames owners claims (paths : list (str * (str * str))) :
  map_Forall (λ _ c, is_utf8 c = true ∧ (Z.of_nat (length (split_lines_with_terminators c)) <= u32_max)%Z) contents →
  Forall (λ x, is_utf8 x.2.2 = true) paths → (∀ q w line, owned_by owners q w line ↔ first_claim claims q w line) →
  ∃ owners', project_source is_alphabetic is_numeric hash_normalized va contents renames owners paths = Ret owners' ∧
    ∀ q w line, owned_by owners' q w line ↔
      first_claim (claims ++ omap (λ '(n, (path, observed)),
        match contents !! default n (renames !! n) with
        | Some committed =>
            match project_committed_lines is_alphabetic is_numeric hash_normalized observed committed (lines_of_path va path n) with
            | Ret p => Some (default n (renames !! n), p)
            | _ => None
            end
        | None => None
        end) paths) q w line.
Proof.
  intros Hc Hp. revert owners claims. induction Hp as [|[n [path observed]] paths Hu _ IH]; intros owners claims Hown; cbn [project_source].
  { exists owners. split; [done|]. by rewrite app_nil_r. }
  unfold project_source_file. cbn [omap list_omap]. destruct (contents !! default n (renames !! n)) as [text|] eqn:Et; [|by apply IH].
  destruct (Hc _ _ Et) as [Htu Htl]. cbn [snd] in Hu.
  destruct (project_one_author observed text (lines_of_path va path n) Hu Htu Htl) as (p & Hpp & Hone). rewrite Hpp. cbn [obind].
  destruct (IH _ _ (claim_step owners claims (default n (renames !! n)) p Hone Hown)) as (owners' & -> & Hown').
  exists owners'. split; [done|]. intros q w line. by rewrite Hown', <-app_assoc.
Qed.

Lemma lines_by_author_spec owners w line : line ∈ default [] (lines_by_author owners !! w) ↔ owners !! line = Some w.
Proof.
  unfold lines_by_author.
  assert (∀ l (m : gmap str (list Z)), default [] (foldl (λ m '(line, author), extend m author [line]) m l !! w) =
    default [] (foldl (λ m (x : Z * str), extend m x.2 [x.1]) m l !! w)) as E.
  { intros l. induction l as [|[x a] l IH]; intros m; [done|]. cbn. apply IH. }
  rewrite E, (fold_extend_many (λ x : Z * str, x.2) (λ x, [x.1])), lookup_empty. cbn [default from_option app].
  rewrite elem_of_flat_map. setoid_rewrite elem_of_filter_b. setoid_rewrite elem_of_sort_by. split.
  - intros ([x a] & [Hin%elem_of_map_to_list Ha%str_eqb_eq] & Hl%list_elem_of_singleton). cbn in *. by subst.
  - intros Ho. exists (line, w). rewrite elem_of_map_to_list. cbn. rewrite str_eqb_refl. split; [done|]. by left.
Qed.
End Sources.

End CommitSplitFacts.

(** ** Properties *)

Module CommitSplitProps.
Import ImaraDiff ImaraDiffFacts Attribution DiffCompute LineMeta LineProjection Tracker Carryover CarryoverFacts HashIter.
Import Attestations CommitSplit CommitSplitFacts.

Local Open Scope nat_scope.

(** projecting the attributions of an observed text on the committed one
    returns a result for all valid texts.  It gives a committed line to at most
    one author, who owned observed lines or is the unattested human.  The lines
    that were there before are those the diff aligns with the same observed
    line of no AI author; those that overwrite AI lines are the new side of a
    replacement of a part that has one; no line is both. *)
Theorem committed_line_projection `{engine : !DiffEngine} (is_alphabetic is_numeric : str → bool)
    (hash_normalized : str → N) (observed committed : str) (attrs : list LineAttribution)
    (observed_valid : is_utf8 observed = true) (committed_valid : is_utf8 committed = true)
    (few_observed : (Z.of_nat (length (compared_lines observed)) <= u32_max)%Z)
    (few_compared : (Z.of_nat (length (compared_lines committed)) <= u32_max)%Z)
    (few_committed : (Z.of_nat (length (split_lines_with_terminators committed)) <= u32_max)%Z) :
  let ops := capture_diff_slices (compared_lines observed) (compared_lines committed) in
  ∃ p, project_committed_lines is_alphabetic is_numeric hash_normalized observed committed attrs = Ret p ∧
    (∀ w line, projected p w line →
       (1 <= line <= Z.of_nat (length (split_lines_with_terminators committed)))%Z ∧
       (w = HUMAN ∨ ∃ la, la ∈ attrs ∧ line_author_id la = w)) ∧
    (∀ w w' line, projected p w line → projected p w' line → w = w') ∧
    (∀ line, line ∈ preexisting p ↔
       ∃ i j, (i, j) ∈ aligned ops ∧ line = Z.of_nat (S j) ∧ ¬ ai_line attrs (Z.of_nat (S i))) ∧
    (∀ i j, (i, j) ∈ aligned ops → ∃ text, compared_lines observed !! i = Some text ∧ compared_lines committed !! j = Some text) ∧
    (∀ line, line ∈ overwritten p ↔
       ∃ o ol n nl i, OpReplace o ol n nl ∈ ops ∧ o ≤ i < o + ol ∧ ai_line attrs (Z.of_nat (S i)) ∧
         (Z.of_nat n < line <= Z.of_nat (n + nl))%Z) ∧
    (∀ line, line ∈ preexisting p → line ∈ overwritten p → False).
Proof.
  intros ops.
  destruct (project_spec is_alphabetic is_numeric hash_normalized observed committed attrs)
    as (p & updated & Hp & Hproj & Hk & Hover & Hpre); [done..|].
  pose proof (compared_tile observed committed) as Ht. fold ops in Ht, Hover, Hpre.
  exists p. split_and!; [done|..].
  - intros w line H. by destruct (projected_line p updated attrs committed w line) as (? & _ & ?).
  - intros w w' line H H'. destruct (projected_line p updated attrs committed w line) as (_ & <- & _); [done..|].
    by destruct (projected_line p updated attrs committed w' line) as (_ & <- & _).
  - intros line. rewrite Hpre. by apply elem_of_preexisting.
  - intros i j Hij. destruct (proj2 (aligned_tile _ _ _ _ _ Ht) i j Hij) as (Hi & _ & E).
    destruct (lookup_lt_is_Some_2 (compared_lines observed) i) as [text Htext]; [lia|]. exists text. by rewrite <-E.
  - intros line. rewrite Hover. by apply elem_of_overwritten.
  - intros line H1 H2. rewrite Hpre in H1. rewrite Hover in H2.
    apply elem_of_preexisting in H1 as (i & j & Hij & -> & _); [|done..].
    apply elem_of_overwritten in H2 as (o & ol & n & nl & i' & Hr & _ & _ & Hl); [|done..].
    eapply (tile_apart _ _ _ _ _ _ _ _ _ _ _ Ht Hij Hr). lia.
Qed.

(** An AI line that was changed; the engine replaces the whole text. *)
Definition sample_observed : str := lit "ai" ++ [LF] ++ lit "old" ++ [LF].
Definition sample_committed : str := lit "mine" ++ [LF] ++ lit "old" ++ [LF].

Lemma committed_line_projection_witness :
  ∃ p, @project_committed_lines CoarseEngine.coarse_engine (λ _, true) (λ _, false) (λ _, 0%N)
         sample_observed sample_committed [mkLineAttr 1 1 (lit "s_a") None] = Ret p ∧
    (∀ w w' line, projected p w line → projected p w' line → w = w') ∧
    overwritten p = [1%Z; 2%Z] ∧ preexisting p = [].
Proof.
  destruct (@committed_line_projection CoarseEngine.coarse_engine (λ _, true) (λ _, false) (λ _, 0%N)
    sample_observed sample_committed [mkLineAttr 1 1 (lit "s_a") None]) as (p & Hp & _ & Hone & _);
    [reflexivity|reflexivity|vm_compute; discriminate..|].
  exists p. split; [exact Hp|]. split; [exact Hone|].
  vm_compute in Hp. injection Hp as <-. done.
Defined.

End CommitSplitProps.
