(* ===== verification/CommitNote.v ===== *)
(** * The note of a commit and the working state after it

    [to_authorship_log_and_initial_working_log_with_precomputed_diff] of
    src/src/authorship/virtual_attribution.rs and what it calls: the lines a
    commit adds go to its note, the lines left uncommitted to the INITIAL file
    of the next working state.  What git answers is the record [Git]. *)

From S2P Require Import Prelude Text LineRange AuthorshipLog HunkShift ImaraDiff Attribution WorkingLog DiffCompute LineProjection PatchParse Carryover HashIter DiffTree Attestations VirtualAttributions CommitSplit.

Local Open Scope Z_scope.

Module CommitNote.
Import DiffTree(DiffTreeResult, mkDiffTree, added_lines_by_file, renames).
Import LineRange AuthorshipLog ImaraDiff Attribution DiffCompute Carryover HashIter Attestations VirtualAttributions CommitSplit.
Import VirtualAttributionsFacts(valid_contents).

(** The answers of git. *)
Record Git := mkGit {
  (** the contents of paths at trees, for those that exist *)
  batch_read_paths_at_treeishes : list (str * str) → result (gmap (str * str) str);
  (** diff-tree with renames: success and output *)
  diff_tree_renames : str → str → result (bool * str);
  diff_added_lines : str → str → option (gset str) → result (gmap str (list Z));
  (** the lines the work tree adds to a commit, and those of pure insertions *)
  diff_workdir_added_lines_with_insertions :
    str → option (gset str) → result (gmap str (list Z) * gmap str (list Z));
  (** [unwrap_or(false)] *)
  file_exists_in_commit : str → str → bool;
  (** regular text files of the work tree, when there is one *)
  workdir_file : option (str → option str)
}.

Record RecoveryProtection := mkProtection {
  protected_overwritten : gmap str (list Z);
  protected_preexisting : gmap str (list Z)
}.

Record AuthorshipLogDiffContext := mkContext {
  precomputed_parent_diff : option DiffTreeResult;
  fallback_committed_diff_base : option str;
  recovery_observed_snapshot : option (gmap str str);
  preexisting_only_from_observed : bool;
  committed_sources : option (VirtualAttributions * VirtualAttributions)
}.

(** ["initial"], the parent of a first commit, and git's empty tree. *)
Definition INITIAL_PARENT : str := lit "initial".
Definition EMPTY_TREE : str := lit "4b825dc642cb6eb9a060e54bf8d69288fbee4904".

(** ** Questions to git *)

Definition compress_nonempty (m : gmap str (list Z)) : gmap str (list LineRange) :=
  omap (λ ls : list Z, if bool_decide (ls = []) then None else Some (compress_lines ls)) m.

Definition collect_committed_hunks (git : Git) (parent_sha commit_sha : str) (pathspecs : option (gset str)) :
    result (gmap str (list LineRange)) :=
  let from := if str_eqb parent_sha INITIAL_PARENT then EMPTY_TREE else parent_sha in
  let? added := diff_added_lines git from commit_sha pathspecs in
  Ret (compress_nonempty added).

(** One line of diff-tree: the modes and hashes, the old and the new path. *)
Definition rename_line (m : gmap str str) (line : str) : gmap str str :=
  match split_on PatchParse.PatchParse.TAB line with
  | [_; old_path; new_path] => <[old_path := new_path]> m
  | _ => m
  end.

Definition detect_renames_in_commit (git : Git) (parent_sha commit_sha : str) : result (gmap str str) :=
  let? output := diff_tree_renames git parent_sha commit_sha in
  if output.1 then Ret (foldl rename_line ∅ (lines (PatchParse.PatchParse.from_utf8_lossy output.2))) else Ret ∅.

Definition batch_file_contents (git : Git) (requests : list (str * str)) : result (gmap (str * str) str) :=
  if bool_decide (requests = []) then Ret ∅
  else
    let? m := batch_read_paths_at_treeishes git requests in
    Ret (foldl (λ m req, <[req := default [] (m !! req)]> m) m requests).

Section Split.
Context `{engine : !DiffEngine} `{order : HashOrder}.
Variable is_alphabetic : str → bool.
Variable is_numeric : str → bool.
Variable hash_normalized : str → N.
Variable nfc : str → str.
(** [GIT_AI_VERSION]. *)
Variable version : str.
Variable git : Git.

Definition committed_projection_contents (commit_sha : str) (paths : list str) (renames : gmap str str) :
    result (gmap str str) :=
  let pairs := map (λ path, let normalized := nfc path in
                            (default path (renames !! normalized), default normalized (renames !! normalized))) paths in
  let requests := flat_map (λ '(raw, normalized), [(commit_sha, raw); (commit_sha, normalized)]) pairs in
  let? contents := batch_read_paths_at_treeishes git requests in
  Ret (foldl (λ m '(raw, normalized),
         match (match contents !! (commit_sha, raw) with
                | Some content => Some content
                | None => contents !! (commit_sha, normalized)
                end) with
         | Some content => <[normalized := content]> m
         | None => m
         end) ∅ pairs).

(** *** Unstaged lines *)

(** [as u32] of a number of lines. *)
Definition untracked_range (content : str) : option (list LineRange) :=
  let line_count := as_u32 (length (lines content)) in
  if 0 <? line_count then Some [Range 1 line_count] else None.

Definition add_untracked (commit_sha : str) (workdir : str → option str)
    (hunks : gmap str (list LineRange) * gmap str (list LineRange)) (path : str) :
    gmap str (list LineRange) * gmap str (list LineRange) :=
  match hunks.1 !! path with
  | Some _ => hunks
  | None =>
      if file_exists_in_commit git commit_sha path then hunks
      else match workdir path ≫= untracked_range with
           | Some range => (<[path := range]> hunks.1, <[path := range]> hunks.2)
           | None => hunks
           end
  end.

Definition collect_unstaged_hunks (commit_sha : str) (pathspecs : option (gset str)) :
    result (gmap str (list LineRange) * gmap str (list LineRange)) :=
  let? lines := diff_workdir_added_lines_with_insertions git commit_sha pathspecs in
  let hunks := (compress_nonempty lines.1, compress_nonempty lines.2) in
  Ret (match pathspecs, workdir_file git with
       | Some paths, Some workdir => foldl (add_untracked commit_sha workdir) hunks (set_iter paths)
       | _, _ => hunks
       end).

(** The lines a text adds to another, and those of pure insertions. *)
Definition op_added (op : DiffOp) : list Z * list Z :=
  match op with
  | OpInsert _ new_index new_len =>
      let start := u32_add (as_u32 new_index) 1 in
      let ls := seqZ start (u32_add start (as_u32 new_len) - start) in (ls, ls)
  | OpReplace _ _ new_index new_len =>
      let start := u32_add (as_u32 new_index) 1 in
      (seqZ start (u32_add start (as_u32 new_len) - start), [])
  | _ => ([], [])
  end.

Definition added_between (committed final : str) : list Z * list Z :=
  if content_eq committed final then ([], [])
  else
    let ops := capture_diff_slices (split_lines_preserving_terminators (normalize_line_endings committed))
                 (split_lines_preserving_terminators (normalize_line_endings final)) in
    (flat_map (λ op, (op_added op).1) ops, flat_map (λ op, (op_added op).2) ops).

Definition insert_compressed (m : gmap str (list LineRange)) (path : str) (ls : list Z) : gmap str (list LineRange) :=
  if bool_decide (ls = []) then m else <[path := compress_lines ls]> m.

(** The paths that are looked at: the given ones, or those of a snapshot. *)
Definition snapshot_paths (pathspecs : option (gset str)) (snapshot : gmap str str) : list str :=
  set_iter (match pathspecs with Some paths => paths | None => dom snapshot end).

Definition collect_unstaged_hunks_from_snapshot (commit_sha : str) (pathspecs : option (gset str))
    (final_state_snapshot : gmap str str) : result (gmap str (list LineRange) * gmap str (list LineRange)) :=
  let file_paths := snapshot_paths pathspecs final_state_snapshot in
  let? contents := batch_file_contents git (map (λ path, (commit_sha, path)) file_paths) in
  Ret (foldl (λ '(unstaged, pure_insertions) path,
         let committed_content := default [] (contents !! (commit_sha, path)) in
         let final_content := default committed_content (final_state_snapshot !! path) in
         let '(added, inserted) := added_between committed_content final_content in
         (insert_compressed unstaged path added, insert_compressed pure_insertions path inserted))
       (∅, ∅) file_paths).

Definition carryover_content (contents : gmap (str * str) str) (parent_sha commit_sha : str)
    (observed_snapshot : gmap str str) (path : str) : result str :=
  let committed_content := default [] (contents !! (commit_sha, path)) in
  match observed_snapshot !! path with
  | Some observed_content =>
      let parent_content :=
        if str_eqb parent_sha INITIAL_PARENT then [] else default [] (contents !! (parent_sha, path)) in
      merged_carryover_content_pure parent_content committed_content observed_content
  | None => Ret committed_content
  end.

Fixpoint carryover_contents (contents : gmap (str * str) str) (parent_sha commit_sha : str)
    (observed_snapshot : gmap str str) (paths : list str) (m : gmap str str) : result (gmap str str) :=
  match paths with
  | [] => Ret m
  | path :: paths' =>
      let? content := carryover_content contents parent_sha commit_sha observed_snapshot path in
      carryover_contents contents parent_sha commit_sha observed_snapshot paths' (<[path := content]> m)
  end.

Definition build_carryover_snapshot (parent_sha commit_sha : str) (pathspecs : option (gset str))
    (observed_snapshot : gmap str str) : result (gmap str str) :=
  let file_paths := snapshot_paths pathspecs observed_snapshot in
  let requests :=
    flat_map (λ path,
      (commit_sha, path) ::
      (if negb (str_eqb parent_sha INITIAL_PARENT) && bool_decide (is_Some (observed_snapshot !! path))
       then [(parent_sha, path)] else [])) file_paths in
  let? contents := batch_file_contents git requests in
  carryover_contents contents parent_sha commit_sha observed_snapshot file_paths ∅.

(** Lines committed and then changed again count as committed, except pure
    insertions, which only share the number. *)
Definition uncommitted_ranges (committed pure_insertions unstaged : list LineRange) : list LineRange :=
  let committed_lines := flat_map expand committed in
  let pure_insertion_lines := flat_map expand pure_insertions in
  let filtered :=
    List.filter (λ line, negb (bool_decide (line ∈ committed_lines)) || bool_decide (line ∈ pure_insertion_lines))
      (flat_map expand unstaged) in
  if bool_decide (filtered = []) then [] else compress_lines (dedup Z.eqb (sort_by Z.leb filtered)).

Definition filter_unstaged (committed_hunks unstaged_hunks pure_insertion_hunks : gmap str (list LineRange)) :
    gmap str (list LineRange) :=
  let filtered :=
    map_imap (λ path unstaged,
      Some (match committed_hunks !! path with
            | Some committed => uncommitted_ranges committed (default [] (pure_insertion_hunks !! path)) unstaged
            | None => unstaged
            end)) unstaged_hunks in
  filter (λ kv : str * list LineRange, kv.2 ≠ []) filtered.
(** *** The lines of the commit *)

(** [(bool, bool)] compared lexicographically. *)
Definition bool_gt (a b : bool) : bool := a && negb b.
Definition priority_gt (a b : bool * bool) : bool :=
  bool_gt a.1 b.1 || (Bool.eqb a.1 b.1 && bool_gt a.2 b.2).
Definition priority_eq (a b : bool * bool) : bool := Bool.eqb a.1 b.1 && Bool.eqb a.2 b.2.

Definition source_priority (va : VirtualAttributions) (ctx : AuthorshipLogDiffContext) (path : str) : bool * bool :=
  (match recovery_observed_snapshot ctx with Some snapshot => bool_decide (is_Some (snapshot !! path)) | None => false end,
   has_evidence va path).

Definition observe (va : VirtualAttributions) (ctx : AuthorshipLogDiffContext)
    (observed : gmap str (str * str)) (pc : str * str) : gmap str (str * str) :=
  let prio := source_priority va ctx in
  match observed !! nfc pc.1 with
  | Some (existing, _) =>
      if priority_gt (prio pc.1) (prio existing) || (priority_eq (prio pc.1) (prio existing) && str_lt pc.1 existing)
      then <[nfc pc.1 := pc]> observed else observed
  | None => <[nfc pc.1 := pc]> observed
  end.

(** [entry(path.nfc()).or_insert((path, content))]. *)
Definition observe_more (observed : gmap str (str * str)) (pc : str * str) : gmap str (str * str) :=
  match observed !! nfc pc.1 with Some _ => observed | None => <[nfc pc.1 := pc]> observed end.

Definition source_contents (ctx : AuthorshipLogDiffContext) : list (str * str) :=
  match committed_sources ctx with
  | Some (checkpoint, blame) => hash_iter (file_contents checkpoint) ++ hash_iter (file_contents blame)
  | None => []
  end.

(** The observed content of each normalized path, with the path it came by. *)
Definition observed_contents (va : VirtualAttributions) (ctx : AuthorshipLogDiffContext) : gmap str (str * str) :=
  foldl observe_more
    (foldl (observe va ctx) ∅ (hash_iter (file_contents va)))
    (match recovery_observed_snapshot ctx with Some snapshot => hash_iter snapshot | None => [] end ++
     hash_iter (failed_tool_snapshots va) ++ source_contents ctx).

Definition preexisting_sources (ctx : AuthorshipLogDiffContext) : option (gset str) :=
  if preexisting_only_from_observed ctx then
    Some (match recovery_observed_snapshot ctx with Some snapshot => set_map nfc (dom snapshot) | None => ∅ end)
  else None.

(** What the loop over the observed contents collects. *)
Record Projections := mkProjections {
  protected_lines : RecoveryProtection;
  committed_projections : gmap str (gmap str (list Z))
}.

Definition project_observed (va : VirtualAttributions) (ctx : AuthorshipLogDiffContext)
    (rename_map committed_contents : gmap str str) (st : Projections) (normalized path observed : str) :
    result Projections :=
  let committed_path := default normalized (rename_map !! normalized) in
  match committed_contents !! committed_path with
  | None => Ret st
  | Some committed =>
      let? projection :=
        project_committed_lines is_alphabetic is_numeric hash_normalized observed committed
          (lines_of_path va path normalized) in
      let failed := match failed_tool_snapshots va !! path with
                    | Some failed => Some failed
                    | None => failed_tool_snapshots va !! normalized
                    end in
      let over := protected_overwritten (protected_lines st) in
      let over := match failed with
                  | Some failed => extend over committed_path (project_failed_tool_lines failed committed)
                  | None => over
                  end in
      let over := extend over committed_path (overwritten projection) in
      let pre := protected_preexisting (protected_lines st) in
      let pre := if match preexisting_sources ctx with Some paths => bool_decide (normalized ∈ paths) | None => true end
                 then extend pre committed_path (preexisting projection) else pre in
      Ret (mkProjections (mkProtection over pre)
             (<[normalized := proj_authors projection]> (committed_projections st)))
  end.

Fixpoint project_all (va : VirtualAttributions) (ctx : AuthorshipLogDiffContext)
    (rename_map committed_contents : gmap str str) (st : Projections) (observed : list (str * (str * str))) :
    result Projections :=
  match observed with
  | [] => Ret st
  | (normalized, (path, content)) :: observed' =>
      let? st' := project_observed va ctx rename_map committed_contents st normalized path content in
      project_all va ctx rename_map committed_contents st' observed'
  end.

(** The lines of one author that the commit adds; all of them in a file that
    was renamed. *)
Definition author_committed (keep_renamed : bool) (hunks : option (list LineRange)) (al : str * list Z) :
    list LineAttribution :=
  let kept := List.filter (λ line, keep_renamed || match hunks with Some ranges => contains_any ranges line | None => false end) al.2 in
  map (λ range, match range with
                | Single line => mkLineAttr line line al.1 None
                | Range s e => mkLineAttr s e al.1 None
                end) (compress_lines (dedup Z.eqb (sort_by Z.leb kept))).

Definition commit_file (ctx : AuthorshipLogDiffContext) (rename_map : gmap str str)
    (committed_hunks : gmap str (list LineRange)) (m : gmap str FileAttributions)
    (pa : str * gmap str (list Z)) : gmap str FileAttributions :=
  let committed_path :=
    match committed_sources ctx with Some _ => pa.1 | None => default pa.1 (rename_map !! pa.1) end in
  let renamed_paths := map snd (map_to_list rename_map) in
  let keep_renamed := bool_decide (is_Some (rename_map !! pa.1)) || bool_decide (committed_path ∈ renamed_paths) in
  let existing := default ([], []) (m !! committed_path) in
  <[committed_path :=
      (existing.1,
       existing.2 ++ flat_map (author_committed keep_renamed (committed_hunks !! committed_path)) (hash_iter pa.2))]> m.

Definition committed_attributions (ctx : AuthorshipLogDiffContext) (rename_map : gmap str str)
    (committed_hunks : gmap str (list LineRange)) (projections : gmap str (gmap str (list Z))) : gmap str FileAttributions :=
  foldl (commit_file ctx rename_map committed_hunks) ∅ (hash_iter projections).

(** *** The lines left uncommitted *)

(** The runs of consecutive lines of an author. *)
Fixpoint runs_loop (author_id : str) (range_start range_end : Z) (ls : list Z) : list LineAttribution :=
  match ls with
  | [] => [mkLineAttr range_start range_end author_id None]
  | line :: ls' =>
      if line =? u32_add range_end 1 then runs_loop author_id range_start line ls'
      else mkLineAttr range_start range_end author_id None :: runs_loop author_id line line ls'
  end.

Definition uncommitted_runs (author_id : str) (ls : list Z) : list LineAttribution :=
  match dedup Z.eqb (sort_by Z.leb ls) with
  | [] => []
  | line :: ls' => runs_loop author_id line line ls'
  end.

(** The lines of each author that are unstaged. *)
Definition uncommitted_lines (unstaged_lines : list Z) (line_attrs : list LineAttribution) : gmap str (list Z) :=
  foldl (λ m la,
    foldl (λ m line, if Stats.Stats.binary_search_is_ok unstaged_lines line then extend m (line_author_id la) [line] else m)
      m (line_span la)) ∅ line_attrs.

(** What the loop over the files collects. *)
Record Uncommitted := mkUncommitted {
  un_files : gmap str (list LineAttribution);
  un_referenced : gset str;
  un_humans : gmap str HumanRecord;
  un_sessions : gmap str SessionRecord;
  un_contents : gmap str str
}.

(** Adds the record of one key of a map to another map. *)
Definition copy_record {A : Type} (records : gmap str A) (k : str) (m : gmap str A) : gmap str A :=
  match records !! k with Some record => <[k := record]> m | None => m end.

(** One author of a file: its runs, and the records it needs. *)
Definition uncommitted_author (va : VirtualAttributions)
    (acc : list LineAttribution * gmap str HumanRecord * gmap str SessionRecord) (al : str * list Z) :
    list LineAttribution * gmap str HumanRecord * gmap str SessionRecord :=
  let '(attrs, hs, ss) := acc in
  let '(author_id, ls) := al in
  if str_eqb author_id HUMAN then acc
  else if bool_decide (ls = []) then acc
  else
    (attrs ++ uncommitted_runs author_id ls,
     if starts_with (lit "h_") author_id then copy_record (va_humans va) author_id hs else hs,
     if starts_with (lit "s_") author_id then copy_record (va_sessions va) (first_piece (lit "::") author_id) ss else ss).

(** [get(a).or_else(|| get(b))]. *)
Definition get_either {A : Type} (m : gmap str A) (a b : str) : option A :=
  match m !! a with Some x => Some x | None => m !! b end.

(** The lines of a file in the coordinates of what is left after the commit. *)
Definition rebased_lines (va : VirtualAttributions) (carryover_snapshot : option (gmap str str)) (file_path : str)
    (line_attrs : list LineAttribution) : result (list LineAttribution) :=
  match carryover_snapshot with
  | None => Ret line_attrs
  | Some snapshot =>
      match get_either snapshot (nfc file_path) file_path with
      | None => Fail (lit "carryover snapshot missing content for " ++ file_path)
      | Some carryover_content =>
          match get_either (file_contents va) file_path (nfc file_path) with
          | None => Fail (lit "virtual attribution missing content for " ++ file_path)
          | Some observed_content =>
              Ret (HunkShift.HunkShift.apply_hunk_shifts_to_line_attributions line_attrs
                     (diff_hunks_between_contents observed_content carryover_content))
          end
      end
  end.

Definition unstaged_lines_of (rename_map : gmap str str) (unstaged_hunks : gmap str (list LineRange)) (file_path : str) :
    list Z :=
  let unstaged_lookup :=
    match unstaged_hunks !! nfc file_path with
    | Some ranges => Some ranges
    | None => (rename_map !! nfc file_path) ≫= (λ np, unstaged_hunks !! np)
    end in
  match unstaged_lookup with
  | Some ranges => sort_by Z.leb (flat_map expand ranges)
  | None => []
  end.

Definition initial_content (va : VirtualAttributions) (carryover_snapshot : option (gmap str str))
    (initial_path file_path : str) : option str :=
  match carryover_snapshot with
  | Some snapshot => get_either snapshot initial_path file_path
  | None => get_either (file_contents va) file_path (nfc file_path)
  end.

Definition uncommitted_file (va : VirtualAttributions) (carryover_snapshot : option (gmap str str))
    (rename_map : gmap str str) (unstaged_hunks : gmap str (list LineRange)) (st : Uncommitted)
    (file_path : str) (all_line_attrs : list LineAttribution) : result Uncommitted :=
  if bool_decide (all_line_attrs = []) then Ret st
  else
    let? line_attrs := rebased_lines va carryover_snapshot file_path all_line_attrs in
    let lines_map := uncommitted_lines (unstaged_lines_of rename_map unstaged_hunks file_path) line_attrs in
    if bool_decide (lines_map = ∅) then Ret st
    else
      let '(attrs, hs, ss) :=
        foldl (uncommitted_author va) ([], un_humans st, un_sessions st) (hash_iter lines_map) in
      let initial_path := default file_path (rename_map !! file_path) in
      Ret (mkUncommitted (<[initial_path := attrs]> (un_files st)) (un_referenced st ∪ dom lines_map) hs ss
             (match initial_content va carryover_snapshot initial_path file_path with
              | Some content => <[initial_path := content]> (un_contents st)
              | None => un_contents st
              end)).

Fixpoint uncommitted_all (va : VirtualAttributions) (carryover_snapshot : option (gmap str str))
    (rename_map : gmap str str) (unstaged_hunks : gmap str (list LineRange)) (st : Uncommitted)
    (files : list (str * FileAttributions)) : result Uncommitted :=
  match files with
  | [] => Ret st
  | (file_path, (_, line_attrs)) :: files' =>
      let? st' := uncommitted_file va carryover_snapshot rename_map unstaged_hunks st file_path line_attrs in
      uncommitted_all va carryover_snapshot rename_map unstaged_hunks st' files'
  end.

(** *** The note and the INITIAL file *)

(** The records of a source of an amended commit fill in those there are. *)
Definition add_source (md : AuthorshipMetadata) (source : VirtualAttributions) : AuthorshipMetadata :=
  mkMetadata (schema_version md) (git_ai_version md) (base_commit_sha md)
    (prompts md ∪ flatten_prompts (va_prompts source)) (humans md ∪ va_humans source)
    (merge_sessions (sessions md) (va_sessions source)).

Definition initial_metadata (va : VirtualAttributions) (ctx : AuthorshipLogDiffContext) : AuthorshipMetadata :=
  let md := new_metadata version in
  let md := mkMetadata (schema_version md) (git_ai_version md) (base_commit va) (flatten_prompts (va_prompts va))
              (va_humans va) (va_sessions va) in
  match committed_sources ctx with
  | Some (checkpoint, blame) => add_source (add_source md checkpoint) blame
  | None => md
  end.

(** [unwrap_or_default]. *)
Definition ret_or {A : Type} (d : A) (m : result A) : result A :=
  match m with Fail _ => Ret d | m => m end.

Definition commit_renames (ctx : AuthorshipLogDiffContext) (parent_sha commit_sha : str) : result (gmap str str) :=
  match precomputed_parent_diff ctx with
  | Some diff => Ret (foldl (λ m r, <[r.1 := r.2]> m) ∅ (renames diff))
  | None =>
      if negb (str_eqb parent_sha INITIAL_PARENT)
      then ret_or ∅ (detect_renames_in_commit git (default parent_sha (fallback_committed_diff_base ctx)) commit_sha)
      else Ret ∅
  end.

(** The given paths and what they were renamed to. *)
Definition extend_pathspecs (rename_map : gmap str str) (pathspecs : option (gset str)) : option (gset str) :=
  match pathspecs with
  | Some ps =>
      Some (foldl (λ ps '(old_path, new_path), if bool_decide (old_path ∈ ps) then {[new_path]} ∪ ps else ps)
              ps (hash_iter rename_map))
  | None => None
  end.

Definition committed_hunks_of (ctx : AuthorshipLogDiffContext) (parent_sha commit_sha : str)
    (pathspecs : option (gset str)) : result (gmap str (list LineRange)) :=
  match precomputed_parent_diff ctx with
  | Some diff => Ret (committed_hunks_from_diff_result diff pathspecs)
  | None => collect_committed_hunks git (default parent_sha (fallback_committed_diff_base ctx)) commit_sha pathspecs
  end.

(** The keys of a note's attestations. *)
Definition attested_hashes (files : list FileAttestation) : gset str := list_to_set (map hash (flat_map entries files)).

Definition prune_metadata (va : VirtualAttributions) (files : list FileAttestation) (md : AuthorshipMetadata) :
    AuthorshipMetadata :=
  let hashes := attested_hashes files in
  mkMetadata (schema_version md) (git_ai_version md) (base_commit_sha md)
    (if bool_decide (initial_only_prompt_ids va = ∅) then prompts md
     else filter (λ kv : str * PromptRecord, kv.1 ∉ initial_only_prompt_ids va ∨ kv.1 ∈ hashes) (prompts md))
    (humans md) (restrict (session_keys_of hashes) (sessions md)).

Definition to_authorship_log_and_initial_working_log_with_precomputed_diff (va : VirtualAttributions)
    (parent_sha commit_sha : str) (pathspecs : option (gset str)) (final_state_snapshot : option (gmap str str))
    (ctx : AuthorshipLogDiffContext) :
    result (AuthorshipLog * InitialAttributions * gmap str str * RecoveryProtection) :=
  let? rename_map := commit_renames ctx parent_sha commit_sha in
  let pathspecs := extend_pathspecs rename_map pathspecs in
  let? committed_hunks := committed_hunks_of ctx parent_sha commit_sha pathspecs in
  let observed := btree_iter (observed_contents va ctx) in
  let? committed_contents := committed_projection_contents commit_sha (map (λ kv, kv.2.1) observed) rename_map in
  let? projected := project_all va ctx rename_map committed_contents (mkProjections (mkProtection ∅ ∅) ∅) observed in
  let? projections :=
    match committed_sources ctx with
    | Some (checkpoint, blame) =>
        project_committed_sources is_alphabetic is_numeric hash_normalized nfc checkpoint blame committed_contents rename_map
    | None => Ret (committed_projections projected)
    end in
  let files :=
    build_attestations_from_attributions nfc (committed_attributions ctx rename_map committed_hunks projections) in
  let? carryover_snapshot :=
    match final_state_snapshot with
    | Some snapshot =>
        let? built := build_carryover_snapshot parent_sha commit_sha pathspecs snapshot in Ret (Some built)
    | None => Ret None
    end in
  let? hunks :=
    match carryover_snapshot with
    | Some snapshot => collect_unstaged_hunks_from_snapshot commit_sha pathspecs snapshot
    | None => collect_unstaged_hunks commit_sha pathspecs
    end in
  let unstaged_hunks := filter_unstaged committed_hunks hunks.1 hunks.2 in
  let? un := uncommitted_all va carryover_snapshot rename_map unstaged_hunks (mkUncommitted ∅ ∅ ∅ ∅ ∅)
               (hash_iter (va_attributions va)) in
  let md := prune_metadata va files (initial_metadata va ctx) in
  Ret (retain_referenced (mkLog files md),
       mkInitial (un_files un) (flatten_prompts (restrict (un_referenced un) (va_prompts va))) ∅ (un_humans un)
         (retain_referenced_trace_models (un_sessions un) (file_authors (un_files un))),
       un_contents un, protected_lines projected).

Definition default_context : AuthorshipLogDiffContext := mkContext None None None false None.

Definition to_authorship_log_and_initial_working_log (va : VirtualAttributions) (parent_sha commit_sha : str)
    (pathspecs : option (gset str)) (final_state_snapshot : option (gmap str str)) :
    result (AuthorshipLog * InitialAttributions * gmap str str) :=
  let? r := to_authorship_log_and_initial_working_log_with_precomputed_diff va parent_sha commit_sha pathspecs
              final_state_snapshot default_context in
  Ret r.1.
End Split.

(** ** Reference *)

(** The path a projection is recorded under, and whether its file was renamed. *)
Definition note_path (ctx : AuthorshipLogDiffContext) (rename_map : gmap str str) (n : str) : str :=
  match committed_sources ctx with Some _ => n | None => default n (rename_map !! n) end.
Definition renamed (ctx : AuthorshipLogDiffContext) (rename_map : gmap str str) (n : str) : Prop :=
  is_Some (rename_map !! n) ∨ ∃ old, rename_map !! old = Some (note_path ctx rename_map n).

(** The lines of authors in projections that a commit adds. *)
Definition committed_line (ctx : AuthorshipLogDiffContext) (rename_map : gmap str str)
    (committed_hunks : gmap str (list LineRange)) (projections : gmap str (gmap str (list Z)))
    (path w : str) (line : Z) : Prop :=
  ∃ n authors, projections !! n = Some authors ∧ note_path ctx rename_map n = path ∧
    line ∈ default [] (authors !! w) ∧
    (renamed ctx rename_map n ∨ contains_any (default [] (committed_hunks !! path)) line = true).

(** The texts the code compares are valid and have less than 2^32 lines. *)
Definition valid_text (s : str) : Prop :=
  is_utf8 s = true ∧ (Z.of_nat (length (split_lines_with_terminators s)) <= u32_max)%Z.

(** Git answers everything it is asked, with valid texts. *)
Record answers (git : Git) : Prop := {
  reads_objects : ∀ requests, ∃ m, batch_read_paths_at_treeishes git requests = Ret m ∧
    map_Forall (λ _ c, valid_text c) m;
  finds_renames : ∀ a b, diff_tree_renames git a b ≠ Panic;
  diffs_commits : ∀ a b paths, ∃ m, diff_added_lines git a b paths = Ret m;
  diffs_workdir : ∀ a paths, ∃ m, diff_workdir_added_lines_with_insertions git a paths = Ret m ∧
    map_Forall (λ _ ls, Forall is_u32 ls) m.1 ∧ map_Forall (λ _ ls, Forall is_u32 ls) m.2
}.

(** The texts of a working state are valid. *)
Definition valid_observed (va : VirtualAttributions) (ctx : AuthorshipLogDiffContext) : Prop :=
  valid_contents (file_contents va) ∧ valid_contents (failed_tool_snapshots va) ∧
  (∀ snapshot, recovery_observed_snapshot ctx = Some snapshot → valid_contents snapshot) ∧
  (∀ checkpoint blame, committed_sources ctx = Some (checkpoint, blame) →
     valid_contents (file_contents checkpoint) ∧ valid_contents (file_contents blame)).

End CommitNote.

(** ** Lemmas *)

Module CommitNoteFacts.
Import DiffTree(DiffTreeResult, mkDiffTree, added_lines_by_file, renames).
Import LineRange LineRangeFacts AuthorshipLog ImaraDiff Attribution AttributionFacts DiffCompute Carryover CarryoverFacts.
Import HashIter HashIterFacts.
Import Attestations AttestationsFacts VirtualAttributions VirtualAttributionsFacts CommitSplit CommitSplitFacts CommitNote.

Section Committed.
Context `{order : HashOrder}.

Lemma kept_u32 p ls : Forall is_u32 ls → Forall is_u32 (dedup Z.eqb (sort_by Z.leb (List.filter p ls))).
Proof.
  rewrite !Forall_forall. intros Hu x Hx. rewrite elem_of_sort_dedup in Hx.
  apply elem_of_filter_b in Hx as [Hx _]. by apply Hu.
Qed.

Lemma author_committed_line keep hunks w ls la line :
  Forall is_u32 ls → la ∈ author_committed keep hunks (w, ls) →
  line_author_id la = w ∧ proper_lines la ∧
  (covers_line la line = true → line ∈ ls ∧ (keep = true ∨ contains_any (default [] hunks) line = true)).
Proof.
  intros Hu. unfold author_committed. rewrite elem_of_list_map. cbn [fst snd]. intros (r & Hr & ->).
  set (kept := List.filter _ ls) in *.
  assert (Forall is_u32 (dedup Z.eqb (sort_by Z.leb kept))) as Hk by by apply kept_u32.
  pose proof (compress_canonical _ Hk (sort_dedup_lt kept)) as [Hp _].
  pose proof (compress_in_u32 _ Hk) as Hin. rewrite Forall_forall in Hp, Hin.
  specialize (Hp r Hr). specialize (Hin r Hr). split; [by destruct r|]. split.
  - unfold proper_lines. destruct r; cbn in *; unfold is_u32 in *; lia.
  - intros Hc. assert (contains_any (compress_lines (dedup Z.eqb (sort_by Z.leb kept))) line = true) as Hl.
    { apply contains_any_true. exists r. split; [done|]. destruct r; apply covers_line_true in Hc; cbn in *; lia. }
    apply contains_any_compress in Hl; [|done|apply sort_dedup_lt]. apply elem_of_sort_dedup, elem_of_filter_b in Hl as [Hl Hc'].
    split; [done|]. apply orb_true_iff in Hc' as [->|Hc']; [by left|right]. by destruct hunks.
Qed.

Lemma author_committed_some keep hunks w ls line :
  Forall is_u32 ls → line ∈ ls → keep = true ∨ contains_any (default [] hunks) line = true →
  ∃ la, la ∈ author_committed keep hunks (w, ls) ∧ covers_line la line = true.
Proof.
  intros Hu Hl Hc. unfold author_committed. cbn [fst snd]. set (kept := List.filter _ ls).
  assert (line ∈ kept) as Hk.
  { apply elem_of_filter_b. split; [done|]. apply orb_true_iff. destruct Hc as [->|Hc]; [by left|right].
    by destruct hunks. }
  assert (Forall is_u32 (dedup Z.eqb (sort_by Z.leb kept))) as Hku by by apply kept_u32.
  rewrite <-elem_of_sort_dedup, <-contains_any_compress, contains_any_true in Hk; [|done|apply sort_dedup_lt].
  destruct Hk as (r & Hr & Hk).
  eexists. split; [by apply elem_of_list_map; exists r|]. rewrite covers_line_true. destruct r; cbn in *; lia.
Qed.

Lemma keep_renamed_spec (ctx : AuthorshipLogDiffContext) (rename_map : gmap str str) n :
  bool_decide (is_Some (rename_map !! n)) || bool_decide (note_path ctx rename_map n ∈ map snd (map_to_list rename_map)) = true ↔
  renamed ctx rename_map n.
Proof.
  unfold renamed. rewrite orb_true_iff, !bool_decide_eq_true, elem_of_list_map. split; intros [?|H]; [by left|right|by left|right].
  - destruct H as ([old new] & Hin%elem_of_map_to_list & E). exists old. by rewrite E.
  - destruct H as [old H]. exists (old, note_path ctx rename_map n). split; [by apply elem_of_map_to_list|done].
Qed.

(** The line attributions of a path, file by file. *)
Lemma commit_files_lookup (ctx : AuthorshipLogDiffContext) (rename_map : gmap str str) (hunks : gmap str (list LineRange)) (l : list (str * gmap str (list Z)))
    (m : gmap str FileAttributions) path la :
  la ∈ (default ([], []) (foldl (commit_file ctx rename_map hunks) m l !! path)).2 ↔
  la ∈ (default ([], []) (m !! path)).2 ∨
  ∃ pa al keep, pa ∈ l ∧ note_path ctx rename_map pa.1 = path ∧ al ∈ hash_iter pa.2 ∧
    la ∈ author_committed keep (hunks !! path) al ∧ (keep = true ↔ renamed ctx rename_map pa.1).
Proof.
  revert m. induction l as [|pa l IH]; intros m; cbn [foldl].
  { split; [by left|]. intros [?|(pa & al & keep & ?%not_elem_of_nil & _)]; done. }
  rewrite IH. clear IH.
  change (commit_file ctx rename_map hunks m pa) with
    (<[note_path ctx rename_map pa.1 :=
      ((default ([], []) (m !! note_path ctx rename_map pa.1)).1,
       (default ([], []) (m !! note_path ctx rename_map pa.1)).2 ++
       flat_map (author_committed (bool_decide (is_Some (rename_map !! pa.1)) ||
         bool_decide (note_path ctx rename_map pa.1 ∈ map snd (map_to_list rename_map)))
         (hunks !! note_path ctx rename_map pa.1)) (hash_iter pa.2))]> m).
  pose proof (keep_renamed_spec ctx rename_map pa.1) as Hk.
  destruct (decide (note_path ctx rename_map pa.1 = path)) as [E|Hne].
  - rewrite E in *. rewrite lookup_insert_eq. cbn [default from_option Datatypes.id snd].
    rewrite elem_of_app, elem_of_flat_map. setoid_rewrite elem_of_cons. split.
    + intros [[H|(al & Hal & H)]|(pa' & al & keep & ? & ?)]; [by left|right|right].
      * eexists pa, al, _. split_and!; [by left|done|exact Hal|exact H|done].
      * exists pa', al, keep. tauto.
    + intros [H|(pa' & al & keep & [->|Hin] & Hp & Hal & H & Hr)]; [by left; left|left; right|right].
      * exists al. split; [done|]. assert (keep = bool_decide (is_Some (rename_map !! pa.1)) ||
          bool_decide (path ∈ map snd (map_to_list rename_map))) as <-; [|done].
        apply eq_true_iff_eq. by rewrite Hk.
      * by exists pa', al, keep.
  - rewrite lookup_insert_ne by done. setoid_rewrite elem_of_cons. split.
    + intros [?|(pa' & al & keep & ? & ?)]; [by left|right]. exists pa', al, keep. tauto.
    + intros [?|(pa' & al & keep & [->|?] & Hp & ?)]; [by left|done|right]. by exists pa', al, keep.
Qed.

Definition projections_u32 (projections : gmap str (gmap str (list Z))) : Prop :=
  map_Forall (λ _ authors, map_Forall (λ _ ls, Forall is_u32 ls) authors) projections.

Lemma committed_attributions_lines (ctx : AuthorshipLogDiffContext) (rename_map : gmap str str) (hunks : gmap str (list LineRange))
    (projections : gmap str (gmap str (list Z))) path la :
  la ∈ (default ([], []) (committed_attributions ctx rename_map hunks projections !! path)).2 ↔
  ∃ n authors w ls keep, projections !! n = Some authors ∧ note_path ctx rename_map n = path ∧ authors !! w = Some ls ∧
    la ∈ author_committed keep (hunks !! path) (w, ls) ∧ (keep = true ↔ renamed ctx rename_map n).
Proof.
  unfold committed_attributions. rewrite commit_files_lookup, lookup_empty. cbn [default from_option snd]. split.
  - intros [?%not_elem_of_nil|([n authors] & [w ls] & keep & Hn & Hp & Hw & Hla & Hk)]; [done|].
    apply elem_of_hash_iter in Hn, Hw. by exists n, authors, w, ls, keep.
  - intros (n & authors & w & ls & keep & Hn & Hp & Hw & Hla & Hk). right.
    exists (n, authors), (w, ls), keep. by rewrite !elem_of_hash_iter.
Qed.

Lemma committed_attributed (ctx : AuthorshipLogDiffContext) (rename_map : gmap str str) (hunks : gmap str (list LineRange))
    (projections : gmap str (gmap str (list Z))) path w line :
  projections_u32 projections →
  attributed (committed_attributions ctx rename_map hunks projections) path w line ↔
  committed_line ctx rename_map hunks projections path w line.
Proof.
  intros Hu. transitivity (∃ la, la ∈ (default ([], []) (committed_attributions ctx rename_map hunks projections !! path)).2 ∧
    line_author_id la = w ∧ covers_line la line = true).
  { unfold attributed. destruct (committed_attributions _ _ _ _ !! path) as [[bytes las]|]; cbn; split.
    - intros (? & ? & la & [= <- <-] & ?). by exists la.
    - intros (la & ?). by exists bytes, las, la.
    - by intros (? & ? & ? & ? & _).
    - by intros (? & ?%not_elem_of_nil & _). }
  setoid_rewrite committed_attributions_lines. unfold committed_line. split.
  - intros (la & (n & authors & w' & ls & keep & Hn & Hp & Hw & Hla & Hk) & <- & Hc).
    apply (author_committed_line _ _ _ _ _ line) in Hla as (-> & _ & Hl); [|by eapply Hu].
    destruct (Hl Hc) as [Hin Hor]. exists n, authors. rewrite Hw. split_and!; [done..|].
    by destruct Hor as [H%Hk|?]; [left|right].
  - intros (n & authors & Hn & Hp & Hl & Hor). destruct (authors !! w) as [ls|] eqn:Hw; [|by apply not_elem_of_nil in Hl].
    cbn in Hl. set (keep := bool_decide (is_Some (rename_map !! n)) ||
      bool_decide (note_path ctx rename_map n ∈ map snd (map_to_list rename_map))).
    pose proof (keep_renamed_spec ctx rename_map n) as Hk. fold keep in Hk.
    destruct (author_committed_some keep (hunks !! path) w ls line) as (la & Hla & Hc).
    + by apply (Hu n authors Hn w).
    + done.
    + by destruct Hor as [H%Hk|?]; [left|right].
    + exists la. split; [by exists n, authors, w, ls, keep|]. split; [|done].
      apply (author_committed_line _ _ _ _ _ line) in Hla as (? & _); [done|]. by eapply Hu.
Qed.

Lemma committed_attributions_proper (ctx : AuthorshipLogDiffContext) (rename_map : gmap str str)
    (hunks : gmap str (list LineRange)) (projections : gmap str (gmap str (list Z))) :
  projections_u32 projections →
  map_Forall (λ _ fa, Forall proper_lines fa.2) (committed_attributions ctx rename_map hunks projections).
Proof.
  intros Hu path fa Hfa. apply Forall_forall. intros la Hla.
  assert (la ∈ (default ([], []) (committed_attributions ctx rename_map hunks projections !! path)).2) as H by by rewrite Hfa.
  apply committed_attributions_lines in H as (n & authors & w & ls & keep & Hn & _ & Hw & H & _).
  apply (author_committed_line _ _ _ _ _ 0) in H as (_ & ? & _); [done|]. by eapply Hu.
Qed.
End Committed.

(** *** Projections of observed texts *)

Section Project.
Context `{engine : !DiffEngine}.
Variables (is_alphabetic is_numeric : str → bool) (hash_normalized : str → N) (nfc : str → str).

Abbreviation project := (project_committed_lines is_alphabetic is_numeric hash_normalized).

(** What the observed text of a path projects on the commit. *)
Definition path_projection (va : VirtualAttributions) (rename_map committed_contents : gmap str str)
    (n path observed : str) (p : CommittedLineProjection) : Prop :=
  ∃ text, committed_contents !! default n (rename_map !! n) = Some text ∧
    project observed text (lines_of_path va path n) = Ret p.

Lemma project_all_spec (va : VirtualAttributions) (ctx : AuthorshipLogDiffContext) (rename_map committed_contents : gmap str str)
    (observed : list (str * (str * str))) (st : Projections) :
  map_Forall (λ _ c, valid_text c) committed_contents → Forall (λ x, is_utf8 x.2.2 = true) observed →
  NoDup observed.*1 →
  ∃ st', project_all is_alphabetic is_numeric hash_normalized nfc va ctx rename_map committed_contents st observed = Ret st' ∧
    ∀ n authors, committed_projections st' !! n = Some authors ↔
      (∃ path content p, (n, (path, content)) ∈ observed ∧
         path_projection va rename_map committed_contents n path content p ∧ authors = proj_authors p) ∨
      (committed_projections st !! n = Some authors ∧
       ¬ ∃ path content, (n, (path, content)) ∈ observed ∧ is_Some (committed_contents !! default n (rename_map !! n))).
Proof.
  intros Hc. revert st. induction observed as [|[n [path content]] observed IH]; intros st Ho Hn.
  { exists st. split; [done|]. intros n authors. split.
    - intros H. right. split; [done|]. by intros (? & ? & ?%not_elem_of_nil & _).
    - intros [(? & ? & ? & ?%not_elem_of_nil & _)|[? _]]; done. }
  inversion_clear Ho as [|? ? Hu Ho']. cbn [fmap list_fmap fst] in Hn. apply NoDup_cons in Hn as [Hnot Hn].
  assert (∀ path' content', (n, (path', content')) ∉ observed) as Hnot'.
  { intros path' content' Hin. apply Hnot. apply list_elem_of_fmap. by exists (n, (path', content')). }
  cbn [project_all]. unfold project_observed. cbn [snd] in Hu.
  destruct (committed_contents !! default n (rename_map !! n)) as [text|] eqn:Et.
  - destruct (Hc _ _ Et) as [Htu Htl].
    destruct (project_spec is_alphabetic is_numeric hash_normalized content text (lines_of_path va path n) Hu Htu Htl)
      as (p & updated & Hp & _). rewrite Hp. cbn [obind].
    set (st1 := mkProjections _ _). destruct (IH st1 Ho' Hn) as (st' & -> & Hst). exists st'. split; [done|].
    intros m authors. rewrite Hst. subst st1. cbn [committed_projections]. setoid_rewrite elem_of_cons.
    destruct (decide (m = n)) as [->|Hne].
    + rewrite lookup_insert_eq. split.
      * intros [(path' & content' & p' & Hin & _)|[[= <-] _]]; [by apply Hnot' in Hin|]. left.
        exists path, content, p. split_and!; [by left| |done]. by exists text.
      * intros [(path' & content' & p' & [[= <- <-]|Hin] & (text' & Ht & Hp') & ->)|[_ Hno]].
        -- right. rewrite Ht in Et. injection Et as <-. rewrite Hp in Hp'. injection Hp' as <-.
           split; [done|]. by intros (? & ? & Hin & _); apply Hnot' in Hin.
        -- by apply Hnot' in Hin.
        -- destruct Hno. exists path, content. split; [by left|]. by rewrite Et.
    + rewrite lookup_insert_ne by done. split.
      * intros [(path' & content' & p' & Hin & Hrest)|[Hst0 Hno]]; [left|right].
        -- exists path', content', p'. tauto.
        -- split; [done|]. intros (path' & content' & [[= -> _ _]|Hin] & H'); [done|]. apply Hno. eauto.
      * intros [(path' & content' & p' & [[= -> _ _]|Hin] & Hrest)|[Hst0 Hno]]; [done|left|right].
        -- by exists path', content', p'.
        -- split; [done|]. intros (path' & content' & Hin & H'). apply Hno. eauto.
  - cbn [obind]. destruct (IH st Ho' Hn) as (st' & -> & Hst). exists st'. split; [done|].
    intros m authors. rewrite Hst. setoid_rewrite elem_of_cons. split.
    + intros [(path' & content' & p' & Hin & Hrest)|[Hst0 Hno]]; [left|right].
      * exists path', content', p'. tauto.
      * split; [done|]. intros (path' & content' & [[= -> _ _]|Hin] & H'); [rewrite Et in H'; by destruct H'|]. apply Hno. eauto.
    + intros [(path' & content' & p' & [[= -> -> ->]|Hin] & Hrest)|[Hst0 Hno]]; [|left|right].
      * destruct Hrest as ((text & Ht & _) & _). congruence.
      * by exists path', content', p'.
      * split; [done|]. intros (path' & content' & Hin & H'). apply Hno. eauto.
Qed.

Lemma path_projection_u32 (va : VirtualAttributions) (rename_map committed_contents : gmap str str) n path content p w line :
  map_Forall (λ _ c, valid_text c) committed_contents → is_utf8 content = true →
  path_projection va rename_map committed_contents n path content p → projected p w line →
  is_u32 line ∧ (w = HUMAN ∨ ∃ la, la ∈ lines_of_path va path n ∧ line_author_id la = w).
Proof.
  intros Hc Hu (text & Ht & Hp) Hl. destruct (Hc _ _ Ht) as [Htu Htl].
  destruct (project_spec is_alphabetic is_numeric hash_normalized content text (lines_of_path va path n) Hu Htu Htl)
    as (p' & updated & Hp' & Hproj & Hk & _). rewrite Hp in Hp'. injection Hp' as <-.
  destruct (projected_line p updated (lines_of_path va path n) text w line Htl Hproj Hk Hl) as (Hb & _ & Hw).
  split; [|done]. unfold is_u32. lia.
Qed.

(** *** Observed texts *)

Section Observed.
Context `{order : HashOrder}.

Definition observed_ok (m : gmap str (str * str)) : Prop :=
  map_Forall (λ n pc, nfc pc.1 = n ∧ is_utf8 pc.2 = true) m.

Lemma observe_ok va ctx m pc : is_utf8 pc.2 = true → observed_ok m → observed_ok (observe nfc va ctx m pc).
Proof.
  intros Hp Hm. unfold observe.
  assert (observed_ok (<[nfc pc.1 := pc]> m)) as H by by apply map_Forall_insert_2.
  destruct (m !! nfc pc.1) as [[]|]; [|done]. by case_match.
Qed.

Lemma observe_more_ok m pc : is_utf8 pc.2 = true → observed_ok m → observed_ok (observe_more nfc m pc).
Proof. intros Hp Hm. unfold observe_more. case_match; [done|]. by apply map_Forall_insert_2. Qed.

Lemma fold_ok (f : gmap str (str * str) → str * str → gmap str (str * str)) l m :
  (∀ m pc, is_utf8 pc.2 = true → observed_ok m → observed_ok (f m pc)) →
  Forall (λ pc : str * str, is_utf8 pc.2 = true) l → observed_ok m → observed_ok (foldl f m l).
Proof. intros Hf Hl. revert m. induction Hl as [|pc l Hp Hl IH]; intros m Hm; cbn; [done|]. by apply IH, Hf. Qed.

Lemma hash_iter_valid m : valid_contents m → Forall (λ pc : str * str, is_utf8 pc.2 = true) (hash_iter m).
Proof. intros Hm. apply Forall_forall. intros [k c] Hin%elem_of_hash_iter. by eapply Hm. Qed.

Lemma observed_contents_ok va ctx : valid_observed va ctx → observed_ok (observed_contents nfc va ctx).
Proof.
  intros (Hf & Hfail & Hs & Hc). unfold observed_contents. apply fold_ok; [apply observe_more_ok| |].
  - rewrite !Forall_app. split_and!.
    + destruct (recovery_observed_snapshot ctx) as [snapshot|]; [|constructor]. by apply hash_iter_valid, Hs.
    + by apply hash_iter_valid.
    + unfold source_contents. destruct (committed_sources ctx) as [[checkpoint blame]|]; [|constructor].
      destruct (Hc _ _ eq_refl). apply Forall_app. split; by apply hash_iter_valid.
  - apply fold_ok; [intros; by apply observe_ok|by apply hash_iter_valid|done].
Qed.

Lemma projection_contents_valid git commit_sha paths renames :
  answers git → ∃ m, committed_projection_contents nfc git commit_sha paths renames = Ret m ∧ map_Forall (λ _ c, valid_text c) m.
Proof.
  intros Hg. unfold committed_projection_contents. set (requests := flat_map _ _).
  destruct (reads_objects _ Hg requests) as (contents & -> & Hv). cbn [obind]. eexists. split; [done|].
  set (pairs := map _ paths). clearbody pairs.
  enough (∀ m, map_Forall (λ _ c, valid_text c) m → map_Forall (λ _ c, valid_text c)
    (foldl (λ (m : gmap str str) '(raw, normalized), match (match contents !! (commit_sha, raw) with
       | Some content => Some content | None => contents !! (commit_sha, normalized) end) with
       | Some content => <[normalized := content]> m | None => m end) m pairs)) as H by (apply H, map_Forall_empty).
  induction pairs as [|[raw normalized] pairs IH]; intros m Hm; cbn [foldl]; [done|]. apply IH.
  destruct (contents !! (commit_sha, raw)) as [c|] eqn:E1.
  - apply map_Forall_insert_2; [by eapply (Hv (commit_sha, raw))|done].
  - destruct (contents !! (commit_sha, normalized)) as [c|] eqn:E2; [|done].
    apply map_Forall_insert_2; [by eapply (Hv (commit_sha, normalized))|done].
Qed.

(** *** Independent sources *)

Lemma source_paths_valid va : valid_contents (file_contents va) → observed_ok (source_paths nfc va).
Proof.
  intros Hv. unfold source_paths. apply fold_ok; [|by apply hash_iter_valid|done].
  intros m [path c] Hp Hm. assert (observed_ok (<[nfc path := (path, c)]> m)) as H by by apply map_Forall_insert_2.
  destruct (m !! nfc path) as [[]|]; [|done]. by case_match.
Qed.

Lemma project_source_total va contents renames owners paths :
  map_Forall (λ _ c, valid_text c) contents → Forall (λ x : str * (str * str), is_utf8 x.2.2 = true) paths →
  ∃ owners', project_source is_alphabetic is_numeric hash_normalized va contents renames owners paths = Ret owners'.
Proof.
  intros Hc Hp. revert owners. induction Hp as [|[n [path observed]] paths Hu _ IH]; intros owners; cbn [project_source]; [by eexists|].
  unfold project_source_file. destruct (contents !! _) as [text|] eqn:Et; [|apply IH].
  destruct (Hc _ _ Et) as [Htu Htl].
  destruct (project_spec is_alphabetic is_numeric hash_normalized observed text (lines_of_path va path n) Hu Htu Htl)
    as (p & updated & -> & _). cbn [obind]. apply IH.
Qed.

Lemma project_sources_total checkpoint blame contents renames :
  map_Forall (λ _ c, valid_text c) contents →
  valid_contents (file_contents checkpoint) → valid_contents (file_contents blame) →
  ∃ r, project_committed_sources is_alphabetic is_numeric hash_normalized nfc checkpoint blame contents renames = Ret r.
Proof.
  intros Hc Hv1 Hv2. unfold project_committed_sources.
  assert (∀ va, valid_contents (file_contents va) →
    Forall (λ x : str * (str * str), is_utf8 x.2.2 = true) (btree_iter (source_paths nfc va))) as Hb.
  { intros va Hv%source_paths_valid. apply Forall_forall. intros [n pc] Hin%elem_of_btree_iter. by apply (Hv n pc). }
  destruct (project_source_total checkpoint contents renames ∅ _ Hc (Hb _ Hv1)) as [o1 ->]. cbn [obind].
  destruct (project_source_total blame contents renames o1 _ Hc (Hb _ Hv2)) as [o2 ->]. cbn [obind]. eauto.
Qed.
End Observed.
End Project.

(** *** Uncommitted lines *)

Lemma binary_search_in l x :
  StronglySorted (λ a b, Z.leb a b = true) l → Stats.Stats.binary_search_is_ok l x = true ↔ x ∈ l.
Proof.
  unfold Stats.Stats.binary_search_is_ok. induction 1 as [|y l _ IH Hy]; cbn.
  { split; [done|]. by intros ?%not_elem_of_nil. }
  rewrite elem_of_cons. destruct (Z.ltb_spec y x) as [Hlt|Hge]; cbn.
  - rewrite IH. split; [by right|]. intros [->|?]; [lia|done].
  - rewrite Z.eqb_eq. split; [by left|]. intros [->|Hin]; [done|].
    rewrite Forall_forall in Hy. specialize (Hy x Hin). cbn in Hy. lia.
Qed.

Lemma runs_loop_compress w s e ls :
  runs_loop w s e ls = map (λ r, mkLineAttr (start_of r) (end_of r) w None) (compress_loop s e ls).
Proof.
  revert s e. induction ls as [|l ls IH]; intros s e; cbn.
  { by rewrite close_run_start, close_run_end. }
  case_match; [apply IH|]. cbn. by rewrite close_run_start, close_run_end, IH.
Qed.

Lemma uncommitted_runs_compress w ls :
  uncommitted_runs w ls =
  map (λ r, mkLineAttr (start_of r) (end_of r) w None) (compress_lines (dedup Z.eqb (sort_by Z.leb ls))).
Proof. unfold uncommitted_runs. destruct (dedup _ _); [done|]. cbn [compress_lines]. apply runs_loop_compress. Qed.

Lemma sort_dedup_u32 ls : Forall is_u32 ls → Forall is_u32 (dedup Z.eqb (sort_by Z.leb ls)).
Proof. rewrite !Forall_forall. intros Hu x Hx. rewrite elem_of_sort_dedup in Hx. by apply Hu. Qed.

Lemma uncommitted_runs_spec w ls la :
  Forall is_u32 ls → la ∈ uncommitted_runs w ls → line_author_id la = w ∧ overrode la = None ∧ start_line la <= end_line la.
Proof.
  intros Hu. rewrite uncommitted_runs_compress, elem_of_list_map. intros (r & Hr & ->). split_and!; [done..|]. cbn.
  destruct (compress_canonical _ (sort_dedup_u32 _ Hu) (sort_dedup_lt ls)) as [Hp _].
  rewrite Forall_forall in Hp. by apply proper_le, Hp.
Qed.

Lemma uncommitted_runs_lines w ls line :
  Forall is_u32 ls → (∃ la, la ∈ uncommitted_runs w ls ∧ covers_line la line = true) ↔ line ∈ ls.
Proof.
  intros Hu. rewrite <-elem_of_sort_dedup, <-contains_any_compress, contains_any_true, uncommitted_runs_compress
    by (by apply sort_dedup_u32 || apply sort_dedup_lt).
  setoid_rewrite elem_of_list_map. split.
  - intros (la & (r & Hr & ->) & Hc). exists r. split; [done|]. apply covers_line_true in Hc. destruct r; cbn in *; lia.
  - intros (r & Hr & Hc). eexists. split; [by exists r|]. apply covers_line_true. destruct r; cbn in *; lia.
Qed.

(** The lines a list of attributions gives to an author. *)
Definition owns (attrs : list LineAttribution) (w : str) (line : Z) : Prop :=
  ∃ la, la ∈ attrs ∧ line_author_id la = w ∧ covers_line la line = true.

Lemma fold_if_extend (p : Z → bool) (w : str) (ls : list Z) (m : gmap str (list Z)) (k : str) :
  default [] (foldl (λ m line, if p line then extend m w [line] else m) m ls !! k) =
  default [] (m !! k) ++ (if str_eqb w k then List.filter p ls else []).
Proof.
  revert m. induction ls as [|x ls IH]; intros m; cbn [foldl List.filter].
  { by destruct (str_eqb w k); rewrite app_nil_r. }
  rewrite IH. destruct (p x); [|done]. unfold extend. destruct (str_eqb w k) eqn:E.
  - apply str_eqb_eq in E as ->. rewrite lookup_insert_eq. cbn. by rewrite <-app_assoc.
  - rewrite lookup_insert_ne; [done|]. intros H. by rewrite H, str_eqb_refl in E.
Qed.

Lemma fold_if_nonempty (p : Z → bool) (w : str) (ls : list Z) (m : gmap str (list Z)) (k : str) :
  (∀ bs, m !! k = Some bs → bs ≠ []) →
  ∀ bs, foldl (λ m line, if p line then extend m w [line] else m) m ls !! k = Some bs → bs ≠ [].
Proof.
  revert m. induction ls as [|x ls IH]; intros m Hm; cbn [foldl]; [done|]. apply IH. intros bs.
  destruct (p x); [|apply Hm]. unfold extend. rewrite lookup_insert_Some. intros [[_ <-]|[_ H]]; [|by apply Hm].
  by intros [_ ?]%app_eq_nil.
Qed.

Lemma uncommitted_lines_spec unstaged attrs w line :
  StronglySorted (λ a b, Z.leb a b = true) unstaged →
  line ∈ default [] (uncommitted_lines unstaged attrs !! w) ↔ line ∈ unstaged ∧ owns attrs w line.
Proof.
  intros Hs. unfold uncommitted_lines, owns. induction attrs as [|la attrs IH] using rev_ind.
  { cbn. rewrite lookup_empty. split; [by intros ?%not_elem_of_nil|]. by intros (_ & ? & ?%not_elem_of_nil & _). }
  rewrite foldl_app. cbn [foldl]. rewrite fold_if_extend, elem_of_app, IH. setoid_rewrite elem_of_app.
  setoid_rewrite list_elem_of_singleton. destruct (str_eqb (line_author_id la) w) eqn:E.
  - apply str_eqb_eq in E as <-. rewrite elem_of_filter_b, elem_of_line_span, binary_search_in by done. naive_solver.
  - assert (line_author_id la ≠ w) by (intros H; by rewrite H, str_eqb_refl in E).
    rewrite elem_of_nil. naive_solver.
Qed.

Lemma uncommitted_lines_nonempty unstaged attrs w ls : uncommitted_lines unstaged attrs !! w = Some ls → ls ≠ [].
Proof.
  unfold uncommitted_lines. revert ls. induction attrs as [|la attrs IH] using rev_ind; [done|].
  intros ls. rewrite foldl_app. cbn [foldl]. by apply fold_if_nonempty.
Qed.

Lemma sorted_lines ls : StronglySorted (λ a b, Z.leb a b = true) (sort_by Z.leb ls).
Proof. apply sort_by_sorted; intros *; rewrite !Z.leb_le; lia. Qed.

Lemma unstaged_sorted (nfc : str → str) rename_map unstaged path :
  StronglySorted (λ a b, Z.leb a b = true) (unstaged_lines_of nfc rename_map unstaged path).
Proof. unfold unstaged_lines_of. case_match; [apply sorted_lines|constructor]. Qed.

(** *** Records that are copied *)

Lemma copy_record_subseteq {A : Type} (records m : gmap str A) k :
  m ⊆ records → m ⊆ copy_record records k m ∧ copy_record records k m ⊆ records ∧
  copy_record records k m !! k = records !! k.
Proof.
  intros Hm. unfold copy_record. destruct (records !! k) as [r|] eqn:E.
  - rewrite lookup_insert_eq. split_and!; [|by apply insert_subseteq_l|done].
    apply map_subseteq_spec. intros k' x Hx. destruct (decide (k = k')) as [->|Hne].
    + rewrite lookup_insert_eq, <-E. by apply (lookup_weaken m).
    + by rewrite lookup_insert_ne.
  - split_and!; [done..|]. destruct (m !! k) as [x|] eqn:Ex; [|done]. by rewrite (lookup_weaken m records k x) in E.
Qed.

(** A record that was copied stays. *)
Lemma copied_weaken {A : Type} (records m m' : gmap str A) k :
  m ⊆ m' → m' ⊆ records → m !! k = records !! k → m' !! k = records !! k.
Proof.
  intros Hm Hm' E. destruct (records !! k) as [r|] eqn:Er; [by apply (lookup_weaken m)|].
  destruct (m' !! k) as [x|] eqn:Ex; [|done]. by rewrite (lookup_weaken m' records k x) in Er.
Qed.

Section Uncommitted.
Variable va : VirtualAttributions.

(** The records an author needs are there. *)
Definition records_of (hs : gmap str HumanRecord) (ss : gmap str SessionRecord) (w : str) : Prop :=
  (starts_with (lit "h_") w = true → hs !! w = va_humans va !! w) ∧
  (starts_with (lit "s_") w = true → ss !! first_piece (lit "::") w = va_sessions va !! first_piece (lit "::") w).

Lemma records_weaken hs ss hs' ss' w :
  hs ⊆ hs' → hs' ⊆ va_humans va → ss ⊆ ss' → ss' ⊆ va_sessions va → records_of hs ss w → records_of hs' ss' w.
Proof. intros H1 H2 H3 H4 [Hh Hs]. split; intros Hw; eapply copied_weaken; eauto. Qed.

Lemma author_step acc w ls attrs' hs' ss' :
  acc.1.2 ⊆ va_humans va → acc.2 ⊆ va_sessions va →
  uncommitted_author va acc (w, ls) = (attrs', hs', ss') →
  (acc.1.2 ⊆ hs' ∧ hs' ⊆ va_humans va) ∧ (acc.2 ⊆ ss' ∧ ss' ⊆ va_sessions va) ∧
  (∀ la, la ∈ attrs' ↔ la ∈ acc.1.1 ∨ w ≠ HUMAN ∧ la ∈ uncommitted_runs w ls) ∧
  (w ≠ HUMAN → ls ≠ [] → records_of hs' ss' w).
Proof.
  destruct acc as [[attrs hs] ss]. cbn [fst snd]. intros Hh Hs. unfold uncommitted_author.
  destruct (str_eqb w HUMAN) eqn:E.
  { apply str_eqb_eq in E as ->. intros [= <- <- <-]. split_and!; [done..| |done]. intros la. naive_solver. }
  assert (w ≠ HUMAN) as Hw by (intros ->; by rewrite str_eqb_refl in E).
  case_bool_decide as El.
  { subst ls. intros [= <- <- <-]. split_and!; [done..| |done]. intros la. cbn. rewrite elem_of_nil. naive_solver. }
  intros [= <- <- <-].
  destruct (copy_record_subseteq (va_humans va) hs w Hh) as (A1 & A2 & A3).
  destruct (copy_record_subseteq (va_sessions va) ss (first_piece (lit "::") w) Hs) as (B1 & B2 & B3).
  split_and!; [by case_match..| |].
  - intros la. rewrite elem_of_app. naive_solver.
  - intros _ _. split; intros Hpre; by rewrite Hpre.
Qed.

Lemma authors_fold (l : list (str * list Z)) acc attrs' hs' ss' :
  acc.1.2 ⊆ va_humans va → acc.2 ⊆ va_sessions va →
  foldl (uncommitted_author va) acc l = (attrs', hs', ss') →
  (acc.1.2 ⊆ hs' ∧ hs' ⊆ va_humans va) ∧ (acc.2 ⊆ ss' ∧ ss' ⊆ va_sessions va) ∧
  (∀ la, la ∈ attrs' ↔ la ∈ acc.1.1 ∨ ∃ w ls, (w, ls) ∈ l ∧ w ≠ HUMAN ∧ la ∈ uncommitted_runs w ls) ∧
  (∀ w ls, (w, ls) ∈ l → w ≠ HUMAN → ls ≠ [] → records_of hs' ss' w).
Proof.
  revert acc. induction l as [|[w ls] l IH]; intros acc Hh Hs; cbn [foldl].
  { intros ->. cbn. split_and!; [done..| |by intros ?? ?%not_elem_of_nil]. intros la. setoid_rewrite elem_of_nil. naive_solver. }
  intros Hf. destruct (uncommitted_author va acc (w, ls)) as [[attrs1 hs1] ss1] eqn:E1.
  destruct (author_step acc w ls _ _ _ Hh Hs E1) as ([A1 A2] & [B1 B2] & Hla & Hr).
  destruct (IH (attrs1, hs1, ss1) A2 B2 Hf) as ([A3 A4] & [B3 B4] & Hla' & Hr'). cbn [fst snd] in *.
  split_and!; [by etrans|done|by etrans|done| |].
  - intros la. rewrite Hla', Hla. setoid_rewrite elem_of_cons. split.
    + intros [[?|[? ?]]|(w' & ls' & ? & ?)]; [by left|right; exists w, ls; auto|right; exists w', ls'; auto].
    + intros [?|(w' & ls' & [[= -> ->]|?] & ? & ?)]; [auto..|]. right. eauto.
  - intros w' ls' [[= -> ->]|Hin]%elem_of_cons Hw Hne; [|by eapply Hr'].
    eapply records_weaken; [..|by apply Hr]; done.
Qed.
End Uncommitted.

(** *** The loop over the files *)

Definition hunks_u32 (m : gmap str (list LineRange)) : Prop := map_Forall (λ _ rs, Forall in_u32 rs) m.

Section Files.
Context `{engine : !DiffEngine} `{order : HashOrder}.
Variables (nfc : str → str) (va : VirtualAttributions) (carryover : option (gmap str str)).
Variables (rename_map : gmap str str) (unstaged : gmap str (list LineRange)).
Hypothesis unstaged_u32 : hunks_u32 unstaged.

Abbreviation unstaged_of := (unstaged_lines_of nfc rename_map unstaged).
Abbreviation initial_path path := (default path (rename_map !! path)).

(** The INITIAL lines of a file: those unstaged, with their authors. *)
Definition file_left (path : str) (attrs las : list LineAttribution) : Prop :=
  ∃ rebased, rebased_lines nfc va carryover path attrs = Ret rebased ∧
    (∀ w line, owns las w line ↔ w ≠ HUMAN ∧ line ∈ unstaged_of path ∧ owns rebased w line) ∧
    Forall (λ la, overrode la = None ∧ start_line la <= end_line la) las.

Record un_ok (st : Uncommitted) : Prop := {
  un_humans_ok : un_humans st ⊆ va_humans va;
  un_sessions_ok : un_sessions st ⊆ va_sessions va;
  un_files_ok : ∀ ip las, un_files st !! ip = Some las →
    ∃ path bytes attrs, va_attributions va !! path = Some (bytes, attrs) ∧ initial_path path = ip ∧ file_left path attrs las;
  un_names_ok : ∀ ip las la, un_files st !! ip = Some las → la ∈ las →
    line_author_id la ∈ un_referenced st ∧ records_of va (un_humans st) (un_sessions st) (line_author_id la)
}.

Lemma unstaged_of_u32 path : Forall is_u32 (unstaged_of path).
Proof.
  unfold unstaged_lines_of.
  assert (∀ p rs, unstaged !! p = Some rs → Forall is_u32 (sort_by Z.leb (flat_map expand rs))) as H.
  { intros p rs Hrs. rewrite sort_by_perm. eapply expand_u32, unstaged_u32, Hrs. }
  destruct (unstaged !! nfc path) as [rs|] eqn:E; [by eapply H|].
  destruct (rename_map !! nfc path) as [np|]; cbn; [|constructor].
  destruct (unstaged !! np) as [rs|] eqn:E'; [by eapply H|constructor].
Qed.

Lemma file_step st path bytes attrs rebased :
  un_ok st → va_attributions va !! path = Some (bytes, attrs) → attrs ≠ [] →
  rebased_lines nfc va carryover path attrs = Ret rebased →
  ∃ st', uncommitted_file nfc va carryover rename_map unstaged st path attrs = Ret st' ∧ un_ok st' ∧
    dom (un_files st) ⊆ dom (un_files st') ∧
    ((∃ w line, line ∈ unstaged_of path ∧ owns rebased w line) → is_Some (un_files st' !! initial_path path)).
Proof.
  intros Hst Hpath Hne Hr. unfold uncommitted_file. rewrite bool_decide_false by done. rewrite Hr. cbn [obind].
  set (lines_map := uncommitted_lines _ _).
  assert (∀ w line, line ∈ default [] (lines_map !! w) ↔ line ∈ unstaged_of path ∧ owns rebased w line) as Hl
    by (intros; apply uncommitted_lines_spec, unstaged_sorted).
  assert (∀ w ls, lines_map !! w = Some ls → Forall is_u32 ls ∧ ls ≠ []) as Hu.
  { intros w ls Hw. split; [|by eapply uncommitted_lines_nonempty]. apply Forall_forall. intros x Hx.
    assert (x ∈ default [] (lines_map !! w)) as Hin by by rewrite Hw. apply Hl in Hin as [Hin _].
    pose proof (unstaged_of_u32 path) as H. rewrite Forall_forall in H. by apply H. }
  case_bool_decide as Em.
  { exists st. split_and!; [done..|]. intros (w & line & H). apply Hl in H. rewrite Em, lookup_empty in H.
    by apply not_elem_of_nil in H. }
  destruct (foldl (uncommitted_author va) ([], un_humans st, un_sessions st) (hash_iter lines_map)) as [[las hs] ss] eqn:Ef.
  destruct (authors_fold va (hash_iter lines_map) ([], un_humans st, un_sessions st) las hs ss
    (un_humans_ok st Hst) (un_sessions_ok st Hst) Ef) as ([A1 A2] & [B1 B2] & Hlas & Hrec). cbn [fst snd] in *.
  assert (∀ la, la ∈ las → ∃ ls, lines_map !! line_author_id la = Some ls ∧ line_author_id la ≠ HUMAN ∧
    la ∈ uncommitted_runs (line_author_id la) ls ∧ overrode la = None ∧ start_line la <= end_line la) as Hlas'.
  { intros la [?%not_elem_of_nil|(w & ls & Hin & Hw & Hla)]%Hlas; [done|]. apply elem_of_hash_iter in Hin.
    destruct (uncommitted_runs_spec w ls la) as (<- & ? & ?); [by eapply Hu|done|]. eauto 10. }
  eexists. split; [done|]. split; [|split].
  - split; cbn; [done|done| |].
    + intros ip las' H. rewrite lookup_insert_Some in H. destruct H as [[<- <-]|[Hnp H]].
      * exists path, bytes, attrs. split_and!; [done..|]. exists rebased. split_and!; [done| |].
        -- intros w line. rewrite <-Hl. split.
           ++ intros (la & Hla & <- & Hc). destruct (Hlas' la Hla) as (ls & Hls & ? & Hrun & _). split; [done|].
              rewrite Hls. cbn. apply (uncommitted_runs_lines (line_author_id la)); [by eapply Hu|]. by exists la.
           ++ intros [Hw Hin]. destruct (lines_map !! w) as [ls|] eqn:Els; [|by apply not_elem_of_nil in Hin]. cbn in Hin.
              destruct (Hu w ls Els) as [Hu32 _]. apply (uncommitted_runs_lines w) in Hin as (la & Hla & Hc); [|done].
              exists la. split; [|by destruct (uncommitted_runs_spec w ls la)]. apply Hlas. right. exists w, ls.
              by rewrite elem_of_hash_iter.
        -- apply Forall_forall. intros la Hla. by destruct (Hlas' la Hla) as (? & ? & ? & ? & ? & ?).
      * by apply (un_files_ok st Hst).
    + intros ip las' la H. rewrite lookup_insert_Some in H. intros Hla. destruct H as [[<- <-]|[Hnp H]].
      * destruct (Hlas' la Hla) as (ls & Hls & Hw & _). split.
        -- apply elem_of_union_r, elem_of_dom. by rewrite Hls.
        -- eapply Hrec; [by apply elem_of_hash_iter|done|]. by eapply Hu.
      * destruct (un_names_ok st Hst ip las' la H Hla) as [? Hrecs]. split; [by apply elem_of_union_l|].
        by eapply records_weaken.
  - cbn. rewrite dom_insert. set_solver.
  - intros _. cbn. by rewrite lookup_insert_eq.
Qed.

Lemma files_loop (files : list (str * FileAttributions)) st :
  un_ok st → (∀ path fa, (path, fa) ∈ files → va_attributions va !! path = Some fa) →
  (∀ path bytes attrs, (path, (bytes, attrs)) ∈ files → attrs ≠ [] → ∃ r, rebased_lines nfc va carryover path attrs = Ret r) →
  ∃ st', uncommitted_all nfc va carryover rename_map unstaged st files = Ret st' ∧ un_ok st' ∧
    dom (un_files st) ⊆ dom (un_files st') ∧
    ∀ path bytes attrs rebased, (path, (bytes, attrs)) ∈ files → rebased_lines nfc va carryover path attrs = Ret rebased →
      attrs ≠ [] → (∃ w line, line ∈ unstaged_of path ∧ owns rebased w line) → is_Some (un_files st' !! initial_path path).
Proof.
  revert st. induction files as [|[path [bytes attrs]] files IH]; intros st Hst Hin Hreb; cbn [uncommitted_all].
  { exists st. split_and!; [done..|]. by intros ???? ?%not_elem_of_nil. }
  assert (∃ st1, uncommitted_file nfc va carryover rename_map unstaged st path attrs = Ret st1 ∧ un_ok st1 ∧
    dom (un_files st) ⊆ dom (un_files st1) ∧
    (∀ rebased, rebased_lines nfc va carryover path attrs = Ret rebased → attrs ≠ [] →
      (∃ w line, line ∈ unstaged_of path ∧ owns rebased w line) → is_Some (un_files st1 !! initial_path path)))
    as (st1 & -> & Hst1 & Hd1 & Hc1).
  { destruct (decide (attrs = [])) as [->|Hne]; [by exists st|].
    destruct (Hreb path bytes attrs ltac:(by left) Hne) as [r Hr].
    destruct (file_step st path bytes attrs r Hst (Hin _ _ ltac:(by left)) Hne Hr) as (st1 & ? & ? & ? & ?).
    exists st1. split_and!; [done..|]. intros r' Hr'. rewrite Hr in Hr'. by injection Hr' as <-. }
  cbn [obind]. destruct (IH st1 Hst1) as (st' & -> & Hst' & Hd' & Hc');
    [intros; apply Hin; by right|intros ??? H; eapply Hreb; by right|].
  exists st'. split_and!; [done|done|by etrans|]. intros path' bytes' attrs' rebased [[= -> -> ->]|H]%elem_of_cons Hr Hne Hex.
  - apply elem_of_dom, Hd', elem_of_dom. by eapply Hc1.
  - by eapply Hc'.
Qed.
End Files.

(** *** Unstaged lines *)

Lemma compress_nonempty_u32 m : map_Forall (λ _ ls, Forall is_u32 ls) m → hunks_u32 (compress_nonempty m).
Proof.
  intros Hm path rs. unfold compress_nonempty. rewrite lookup_omap. destruct (m !! path) as [ls|] eqn:E; cbn; [|done].
  case_bool_decide; [done|]. intros [= <-]. by eapply compress_in_u32, Hm.
Qed.

Lemma as_u32_u32 n : is_u32 (as_u32 n).
Proof. unfold as_u32, u32_wrap, is_u32, u32_max. pose proof (Z.mod_pos_bound (Z.of_nat n) 4294967296). lia. Qed.

Lemma u32_add_u32 a b : is_u32 (u32_add a b).
Proof. unfold u32_add, u32_wrap, is_u32, u32_max. pose proof (Z.mod_pos_bound (a + b) 4294967296). lia. Qed.

Lemma op_added_u32 op : Forall is_u32 (op_added op).1 ∧ Forall is_u32 (op_added op).2.
Proof.
  assert (∀ a b, Forall is_u32 (seqZ (u32_add a 1) (u32_add (u32_add a 1) b - u32_add a 1))) as H.
  { intros a b. apply Forall_forall. intros x Hx%elem_of_seqZ. pose proof (u32_add_u32 a 1).
    pose proof (u32_add_u32 (u32_add a 1) b). unfold is_u32 in *. lia. }
  destruct op; cbn; split; done || apply H.
Qed.

Lemma flat_map_forall {A B : Type} (P : B → Prop) (f : A → list B) l : (∀ x, Forall P (f x)) → Forall P (flat_map f l).
Proof. intros Hf. induction l as [|x l IH]; [constructor|]. cbn. by apply Forall_app. Qed.

Section Unstaged.
Context `{engine : !DiffEngine} `{order : HashOrder}.
Variable git : Git.
Hypothesis git_answers : answers git.

Lemma added_between_u32 committed final :
  Forall is_u32 (added_between committed final).1 ∧ Forall is_u32 (added_between committed final).2.
Proof.
  unfold added_between. case_match; [by split|]. cbn [fst snd].
  split; apply flat_map_forall; intros op; by destruct (op_added_u32 op).
Qed.

Lemma collect_workdir_total commit_sha pathspecs :
  ∃ hunks, collect_unstaged_hunks git commit_sha pathspecs = Ret hunks ∧ hunks_u32 hunks.1.
Proof.
  unfold collect_unstaged_hunks. destruct (diffs_workdir _ git_answers commit_sha pathspecs) as (m & -> & H1 & _).
  cbn [obind]. eexists. split; [done|]. apply compress_nonempty_u32 in H1.
  destruct pathspecs as [paths|]; [|done]. destruct (workdir_file git) as [workdir|]; [|done].
  enough (∀ hunks l, hunks_u32 hunks.1 → hunks_u32 (foldl (add_untracked git commit_sha workdir) hunks l).1) as H by by apply H.
  clear. intros hunks l. revert hunks. induction l as [|path l IH]; intros hunks Hh; cbn; [done|]. apply IH.
  unfold add_untracked. case_match; [done|]. case_match; [done|].
  destruct (workdir path) as [content|]; cbn; [|done]. unfold untracked_range.
  case_match eqn:E; [|done]. case_match; [|done]. injection E as <-. cbn. apply map_Forall_insert_2; [|done].
  apply Forall_singleton. split; [by unfold is_u32, u32_max|apply as_u32_u32].
Qed.

Lemma collect_snapshot_total commit_sha pathspecs snapshot :
  ∃ hunks, collect_unstaged_hunks_from_snapshot git commit_sha pathspecs snapshot = Ret hunks ∧ hunks_u32 hunks.1.
Proof.
  unfold collect_unstaged_hunks_from_snapshot, batch_file_contents.
  set (requests := map _ _). set (paths := snapshot_paths pathspecs snapshot).
  assert (∃ contents, (if bool_decide (requests = []) then Ret (∅ : gmap (str * str) str) else
    let? m := batch_read_paths_at_treeishes git requests in
    Ret (foldl (λ m req, <[req := default [] (m !! req)]> m) m requests)) = Ret contents) as [contents ->].
  { case_bool_decide; [by eexists|]. destruct (reads_objects _ git_answers requests) as (m & -> & _). cbn. by eexists. }
  cbn [obind]. eexists. split; [done|].
  enough (∀ l (hunks : gmap str (list LineRange) * gmap str (list LineRange)), hunks_u32 hunks.1 → hunks_u32 (foldl (λ '(unstaged, pure_insertions) path,
         let committed_content := default [] (contents !! (commit_sha, path)) in
         let final_content := default committed_content (snapshot !! path) in
         let '(added, inserted) := added_between committed_content final_content in
         (insert_compressed unstaged path added, insert_compressed pure_insertions path inserted)) hunks l).1) as H
    by (apply H; apply map_Forall_empty).
  clear -contents. induction l as [|path l IH]; intros hunks Hh; cbn [foldl]; [done|]. apply IH. destruct hunks as [u i].
  cbv zeta. destruct (added_between _ _) as [added inserted] eqn:E. cbn [fst].
  pose proof (added_between_u32 (default [] (contents !! (commit_sha, path)))
    (default (default [] (contents !! (commit_sha, path))) (snapshot !! path))) as [Hu _]. rewrite E in Hu.
  unfold insert_compressed. case_bool_decide; [done|]. apply map_Forall_insert_2; [by apply compress_in_u32|done].
Qed.

Lemma filter_unstaged_u32 committed unstaged insertions :
  hunks_u32 unstaged → hunks_u32 (filter_unstaged committed unstaged insertions).
Proof.
  intros Hu path rs. unfold filter_unstaged. rewrite map_lookup_filter_Some, map_lookup_imap. intros [H _].
  destruct (unstaged !! path) as [us|] eqn:E; cbn in H; [|done]. injection H as <-.
  pose proof (Hu _ _ E) as Hus. destruct (committed !! path) as [cs|]; [|done].
  unfold uncommitted_ranges. case_bool_decide; [constructor|]. apply compress_in_u32, kept_u32. by apply expand_u32.
Qed.

Lemma carryover_returns parent committed observed :
  ∃ r : str, merged_carryover_content_pure parent committed observed = (Ret r : result str).
Proof.
  unfold merged_carryover_content_pure, carryover_merge_content. rewrite !cmp_lines, merge_lines_spec. cbn [obind].
  repeat case_match; by eexists.
Qed.

(** The snapshot of what is left has the paths that are looked at. *)
Lemma carryover_total parent_sha commit_sha pathspecs snapshot :
  ∃ m, build_carryover_snapshot git parent_sha commit_sha pathspecs snapshot = Ret m ∧
    ∀ path, is_Some (m !! path) ↔ path ∈ snapshot_paths pathspecs snapshot.
Proof.
  unfold build_carryover_snapshot, batch_file_contents. set (requests := flat_map _ _).
  assert (∃ contents, (if bool_decide (requests = []) then Ret (∅ : gmap (str * str) str) else
    let? m := batch_read_paths_at_treeishes git requests in
    Ret (foldl (λ m req, <[req := default [] (m !! req)]> m) m requests)) = Ret contents) as [contents ->].
  { case_bool_decide; [by eexists|]. destruct (reads_objects _ git_answers requests) as (m & -> & _). cbn. by eexists. }
  cbn [obind].
  enough (∀ paths (m : gmap str str), ∃ m', carryover_contents contents parent_sha commit_sha snapshot paths m = Ret m' ∧
    ∀ path, is_Some (m' !! path) ↔ path ∈ paths ∨ is_Some (m !! path)) as H.
  { destruct (H (snapshot_paths pathspecs snapshot) ∅) as (m' & -> & Hm). exists m'. split; [done|]. intros path.
    rewrite Hm, lookup_empty. split; [by intros [?|[? ?]]|by left]. }
  clear -contents. induction paths as [|path paths IH]; intros m; cbn [carryover_contents].
  { exists m. split; [done|]. intros path. rewrite elem_of_nil. tauto. }
  assert (∃ c, carryover_content contents parent_sha commit_sha snapshot path = Ret c) as [c ->].
  { unfold carryover_content. destruct (snapshot !! path) as [o|]; [|by eexists]. cbv zeta.
    apply carryover_returns. }
  cbn [obind]. destruct (IH (<[path := c]> m)) as (m' & -> & Hm). exists m'. split; [done|]. intros path'.
  rewrite Hm, elem_of_cons. destruct (decide (path = path')) as [->|Hne].
  - rewrite lookup_insert_eq. naive_solver.
  - rewrite lookup_insert_ne by done. naive_solver.
Qed.
End Unstaged.

End CommitNoteFacts.

(** ** The two sources of an amended commit *)

Module AmendedCommit.
Import LineRange AuthorshipLog ImaraDiff Attribution DiffCompute Carryover HashIter HashIterFacts.
Import Attestations VirtualAttributions VirtualAttributionsFacts CommitSplit CommitSplitFacts CommitNote CommitNoteFacts.

(** the note of an amended commit takes its lines from two sources, the
    checkpoints first and then the blame of the old commit.  Projecting them
    returns a result for valid texts, and a line goes to the first of their
    projections on its path that gives it to an author other than the
    unattested human, in the order of normalized paths, whatever order maps
    are visited in. *)
Theorem first_source_claims_line `{engine : !DiffEngine} `{order : HashOrder} (is_alphabetic is_numeric : str → bool)
    (hash_normalized : str → N) (nfc : str → str) (checkpoint blame : VirtualAttributions) (contents renames : gmap str str)
    (contents_valid : map_Forall (λ _ c, valid_text c) contents)
    (checkpoint_valid : valid_contents (file_contents checkpoint)) (blame_valid : valid_contents (file_contents blame)) :
  let claims := claims_of is_alphabetic is_numeric hash_normalized nfc contents renames in
  ∃ r, project_committed_sources is_alphabetic is_numeric hash_normalized nfc checkpoint blame contents renames = Ret r ∧
    ∀ path w line, line ∈ default [] (default ∅ (r !! path) !! w) ↔
      first_claim (claims checkpoint ++ claims blame) path w line.
Proof.
  intros claims. unfold project_committed_sources.
  assert (∀ va, valid_contents (file_contents va) →
    Forall (λ x : str * (str * str), is_utf8 x.2.2 = true) (btree_iter (source_paths nfc va))) as Hb.
  { intros va Hv%(source_paths_valid nfc). apply Forall_forall. intros [n pc] Hin%elem_of_btree_iter. by apply (Hv n pc). }
  destruct (project_source_spec is_alphabetic is_numeric hash_normalized nfc checkpoint contents renames ∅ []
    (btree_iter (source_paths nfc checkpoint)) contents_valid (Hb _ checkpoint_valid)) as (o1 & -> & H1).
  { intros q w line. unfold owned_by. rewrite lookup_empty. cbn [default from_option]. rewrite lookup_empty. split; [done|].
    by intros (pre & p0 & post & E%eq_sym & _); by destruct pre. }
  cbn [obind].
  destruct (project_source_spec is_alphabetic is_numeric hash_normalized nfc blame contents renames o1 _
    (btree_iter (source_paths nfc blame)) contents_valid (Hb _ blame_valid) H1) as (o2 & -> & H2).
  cbn [obind]. eexists. split; [done|]. intros path w line. rewrite lookup_fmap. unfold claims, claims_of. cbn [app] in H2.
  rewrite <-H2. unfold owned_by. destruct (o2 !! path) as [owners|]; cbn [fmap option_fmap option_map default from_option].
  - apply lines_by_author_spec.
  - rewrite !lookup_empty. split; [by intros ?%not_elem_of_nil|done].
Qed.

Lemma one_content_valid p c : is_utf8 c = true → valid_contents {[p := c]}.
Proof. intros H k x. rewrite lookup_singleton_Some. by intros [_ <-]. Qed.

(** Both sources own the line; the checkpoint's author gets it. *)
Definition source_of (w : str) : VirtualAttributions :=
  mkVA (lit "c0") {[lit "a.rs" := ([], [mkLineAttr 1 1 w None])]} {[lit "a.rs" := lit "ai"]} ∅ 7 None ∅ ∅ ∅ ∅.

Lemma sample_claims :
  project_committed_sources (engine := CoarseEngine.coarse_engine) (order := in_order) (λ _, true) (λ _, false) (λ _, 0%N)
    id (source_of (lit "s_a")) (source_of (lit "s_b")) {[lit "a.rs" := lit "ai"]} ∅ =
  Ret {[lit "a.rs" := {[lit "s_a" := [1%Z]]}]}.
Proof. vm_compute. reflexivity. Qed.

Lemma first_source_claims_line_witness :
  ∃ r, project_committed_sources (engine := CoarseEngine.coarse_engine) (order := in_order) (λ _, true) (λ _, false) (λ _, 0%N)
         id (source_of (lit "s_a")) (source_of (lit "s_b")) {[lit "a.rs" := lit "ai"]} ∅ = Ret r ∧
    r = {[lit "a.rs" := {[lit "s_a" := [1%Z]]}]}.
Proof.
  destruct (first_source_claims_line (engine := CoarseEngine.coarse_engine) (order := in_order) (λ _, true) (λ _, false) (λ _, 0%N)
    id (source_of (lit "s_a")) (source_of (lit "s_b")) {[lit "a.rs" := lit "ai"]} ∅) as (r & Hr & _).
  - intros k x. rewrite lookup_singleton_Some. intros [_ <-]. split; [done|]. vm_compute. discriminate.
  - by apply one_content_valid.
  - by apply one_content_valid.
  - exists r. split; [exact Hr|]. rewrite sample_claims in Hr. by injection Hr.
Defined.

End AmendedCommit.
