(* ===== verification/CommitNoteProps.v ===== *)
(** * What a commit's note and the state after it hold

    The theorems on the split of attributions at a commit, CommitNote: when it
    fails, which lines the note attests and to whom, and which lines and
    records the next working state keeps. *)

From S2P Require Import Prelude Text LineRange AuthorshipLog HunkShift ImaraDiff Attribution WorkingLog DiffCompute LineProjection PatchParse Carryover HashIter DiffTree Attestations VirtualAttributions CommitSplit CommitNote.

Module CommitNoteSplit.
Import DiffTree(DiffTreeResult, mkDiffTree, added_lines_by_file, renames).
Import LineRange AuthorshipLog AuthorshipLogFacts ImaraDiff Attribution DiffCompute Carryover HashIter HashIterFacts.
Import Attestations AttestationsFacts VirtualAttributions VirtualAttributionsFacts CommitSplit CommitSplitFacts.
Import CommitNote CommitNoteFacts.

Lemma get_either_some {A : Type} (m : gmap str A) a b :
  is_Some (get_either m a b) ↔ is_Some (m !! a) ∨ is_Some (m !! b).
Proof. unfold get_either. destruct (m !! a), (m !! b); naive_solver. Qed.

Section Split.
Context `{engine : !DiffEngine} `{order : HashOrder}.
Variables (is_alphabetic is_numeric : str → bool) (hash_normalized : str → N) (nfc : str → str) (version : str) (git : Git).
Variables (va : VirtualAttributions) (parent_sha commit_sha : str) (pathspecs : option (gset str)).
Variables (final_state_snapshot : option (gmap str str)) (ctx : AuthorshipLogDiffContext).

Abbreviation split :=
  (to_authorship_log_and_initial_working_log_with_precomputed_diff is_alphabetic is_numeric hash_normalized nfc version git
     va parent_sha commit_sha pathspecs final_state_snapshot ctx).

(** What the split learns from git before it looks at uncommitted lines. *)
Record gathered (rename_map : gmap str str) (committed_hunks : gmap str (list LineRange)) (contents : gmap str str)
    (carryover : option (gmap str str)) (unstaged : gmap str (list LineRange)) : Prop := {
  g_renames : commit_renames git ctx parent_sha commit_sha = Ret rename_map;
  g_hunks : committed_hunks_of git ctx parent_sha commit_sha (extend_pathspecs rename_map pathspecs) = Ret committed_hunks;
  g_contents :
    committed_projection_contents nfc git commit_sha (map (λ kv, kv.2.1) (btree_iter (observed_contents nfc va ctx)))
      rename_map = Ret contents;
  g_carryover :
    match final_state_snapshot with
    | Some snapshot =>
        ∃ m, build_carryover_snapshot git parent_sha commit_sha (extend_pathspecs rename_map pathspecs) snapshot = Ret m ∧
             carryover = Some m
    | None => carryover = None
    end;
  g_unstaged :
    ∃ hunks, match carryover with
             | Some m => collect_unstaged_hunks_from_snapshot git commit_sha (extend_pathspecs rename_map pathspecs) m
             | None => collect_unstaged_hunks git commit_sha (extend_pathspecs rename_map pathspecs)
             end = Ret hunks ∧
             unstaged = filter_unstaged committed_hunks hunks.1 hunks.2
}.

(** Every file with attributions has a content before and after the commit,
    when the split rebases its lines. *)
Definition complete (rename_map : gmap str str) : Prop :=
  ∀ snapshot path bytes attrs, final_state_snapshot = Some snapshot →
    va_attributions va !! path = Some (bytes, attrs) → attrs ≠ [] →
    (nfc path ∈ snapshot_paths (extend_pathspecs rename_map pathspecs) snapshot ∨
     path ∈ snapshot_paths (extend_pathspecs rename_map pathspecs) snapshot) ∧
    is_Some (get_either (file_contents va) path (nfc path)).

(** The contents after the commit are gathered for the files of the snapshot; when
    pathspecs are given, for the files they name and the new names of those that
    were renamed, whatever the snapshot has. *)
Definition looked_at (rename_map snapshot : gmap str str) (path : str) : Prop :=
  match extend_pathspecs rename_map pathspecs with
  | None => is_Some (snapshot !! path)
  | Some paths => path ∈ paths
  end.

(** A snapshot of the final state is given, and a file with attributions has no
    observed content, or is looked at neither by its path nor by the normal form
    of its path. *)
Definition content_missing (rename_map : gmap str str) : Prop :=
  ∃ snapshot path bytes attrs, final_state_snapshot = Some snapshot ∧
    va_attributions va !! path = Some (bytes, attrs) ∧ attrs ≠ [] ∧
    (get_either (file_contents va) path (nfc path) = None ∨
     ¬ looked_at rename_map snapshot path ∧ ¬ looked_at rename_map snapshot (nfc path)).

Lemma looked_at_paths rename_map snapshot path :
  looked_at rename_map snapshot path ↔ path ∈ snapshot_paths (extend_pathspecs rename_map pathspecs) snapshot.
Proof.
  unfold looked_at, snapshot_paths. rewrite elem_of_set_iter. destruct (extend_pathspecs _ _); [done|]. by rewrite elem_of_dom.
Qed.

Lemma complete_missing rename_map : complete rename_map ↔ ¬ content_missing rename_map.
Proof.
  unfold complete, content_missing. setoid_rewrite looked_at_paths. split.
  - intros H (snapshot & path & bytes & attrs & Hs & Hp & Ha & Hm). destruct (H snapshot path bytes attrs Hs Hp Ha) as [Hl [c Hc]].
    rewrite Hc in Hm. destruct Hm as [|[H1 H2]]; [done|]. by destruct Hl.
  - intros H snapshot path bytes attrs Hs Hp Ha. split.
    + destruct (decide (nfc path ∈ snapshot_paths (extend_pathspecs rename_map pathspecs) snapshot)); [by left|].
      destruct (decide (path ∈ snapshot_paths (extend_pathspecs rename_map pathspecs) snapshot)); [by right|].
      exfalso. apply H. exists snapshot, path, bytes, attrs. do 3 (split; [done|]). by right.
    + destruct (get_either _ _ _) as [c|] eqn:E; [by eexists|]. exfalso. apply H. exists snapshot, path, bytes, attrs. do 3 (split; [done|]). by left.
Qed.

(** The projections of an ordinary commit. *)
Definition observed_projection (rename_map contents : gmap str str) (n : str) (p : CommittedLineProjection) : Prop :=
  ∃ path observed, observed_contents nfc va ctx !! n = Some (path, observed) ∧
    path_projection is_alphabetic is_numeric hash_normalized va rename_map contents n path observed p.

Hypothesis git_answers : answers git.
Hypothesis observed_valid : valid_observed va ctx.

Lemma renames_total : ∃ rename_map, commit_renames git ctx parent_sha commit_sha = Ret rename_map.
Proof.
  unfold commit_renames. destruct (precomputed_parent_diff ctx); [by eexists|]. case_match; [|by eexists].
  unfold detect_renames_in_commit. set (base := default _ _). pose proof (finds_renames _ git_answers base commit_sha) as Hpanic.
  destruct (diff_tree_renames git base commit_sha) as [out|e|]; [|by eexists|done]. cbn. destruct out.1; by eexists.
Qed.

Lemma hunks_total paths : ∃ hunks, committed_hunks_of git ctx parent_sha commit_sha paths = Ret hunks.
Proof.
  unfold committed_hunks_of. destruct (precomputed_parent_diff ctx); [by eexists|].
  unfold collect_committed_hunks. destruct (str_eqb _ _); cbn;
    match goal with |- context [diff_added_lines git ?a ?b ?c] => destruct (diffs_commits _ git_answers a b c) as [m ->] end;
    by eexists.
Qed.

Lemma rebased_total carryover path attrs :
  (∃ r, rebased_lines nfc va carryover path attrs = Ret r) ↔
  ∀ m, carryover = Some m → (is_Some (m !! nfc path) ∨ is_Some (m !! path)) ∧
       is_Some (get_either (file_contents va) path (nfc path)).
Proof.
  unfold rebased_lines. destruct carryover as [m|]; [|by split; [|by eexists]].
  pose proof (get_either_some m (nfc path) path) as Hm.
  destruct (get_either m (nfc path) path) as [c|].
  - destruct (get_either (file_contents va) path (nfc path)) as [o|].
    + split; [|by eexists]. intros _ ? [= <-]. split; [|by eexists]. apply Hm. by eexists.
    + split; [by intros [r ?]|]. intros H. destruct (H m eq_refl) as [_ [? ?]]. done.
  - split; [by intros [r ?]|]. intros H. destruct (H m eq_refl) as [[? ?]%Hm _]. done.
Qed.

Lemma uncommitted_outcome carryover rename_map unstaged st (files : list (str * FileAttributions)) :
  uncommitted_all nfc va carryover rename_map unstaged st files ≠ Panic ∧
  ((∃ un, uncommitted_all nfc va carryover rename_map unstaged st files = Ret un) →
   ∀ path bytes attrs, (path, (bytes, attrs)) ∈ files → attrs ≠ [] → ∃ r, rebased_lines nfc va carryover path attrs = Ret r).
Proof.
  revert st. induction files as [|[path [bytes attrs]] files IH]; intros st; cbn [uncommitted_all].
  { split; [done|]. by intros _ ??? ?%not_elem_of_nil. }
  unfold uncommitted_file. setoid_rewrite elem_of_cons. case_bool_decide as Ha; cbn [obind].
  { destruct (IH st) as [Hp Hr]. split; [done|]. intros H path' bytes' attrs' [[= -> -> ->]|?] ?; [done|eauto]. }
  destruct (rebased_lines nfc va carryover path attrs) as [r|e|] eqn:E; cbn [obind].
  - match goal with |- context [obind ?m _] => destruct m as [st'|e|] eqn:E1 end; cbn [obind].
    + destruct (IH st') as [Hp Hr]. split; [done|]. intros H path' bytes' attrs' [[= -> -> ->]|?] ?; eauto.
    + split; [done|]. by intros [? ?].
    + exfalso. case_bool_decide; [done|]. by destruct (foldl _ _ _) as [[] ?].
  - split; [done|]. by intros [? ?].
  - exfalso. unfold rebased_lines in E. repeat case_match; done.
Qed.

(** The split up to the loop over the uncommitted lines. *)
Lemma split_gathered :
  ∃ rename_map hunks contents carryover unstaged projected projections,
    gathered rename_map hunks contents carryover unstaged ∧ hunks_u32 unstaged ∧
    map_Forall (λ _ c, valid_text c) contents ∧
    (committed_sources ctx = None → ∀ n authors, projections !! n = Some authors ↔
       ∃ p, observed_projection rename_map contents n p ∧ authors = proj_authors p) ∧
    split =
      (let files := build_attestations_from_attributions nfc (committed_attributions ctx rename_map hunks projections) in
       let? un := uncommitted_all nfc va carryover rename_map unstaged (mkUncommitted ∅ ∅ ∅ ∅ ∅)
                    (hash_iter (va_attributions va)) in
       Ret (retain_referenced (mkLog files (prune_metadata va files (initial_metadata version va ctx))),
            mkInitial (un_files un) (flatten_prompts (restrict (un_referenced un) (va_prompts va))) ∅ (un_humans un)
              (retain_referenced_trace_models (un_sessions un) (file_authors (un_files un))),
            un_contents un, protected_lines projected)).
Proof.
  unfold to_authorship_log_and_initial_working_log_with_precomputed_diff.
  destruct renames_total as [rename_map Hrn]. rewrite Hrn. cbn [obind].
  destruct (hunks_total (extend_pathspecs rename_map pathspecs)) as [hunks Hh]. rewrite Hh. cbn [obind].
  set (observed := btree_iter (observed_contents nfc va ctx)).
  destruct (projection_contents_valid nfc git commit_sha (map (λ kv, kv.2.1) observed) rename_map git_answers)
    as (contents & Hc & Hv). rewrite Hc. cbn [obind].
  pose proof (observed_contents_ok nfc va ctx observed_valid) as Hok.
  destruct (project_all_spec is_alphabetic is_numeric hash_normalized nfc va ctx rename_map contents observed
    (mkProjections (mkProtection ∅ ∅) ∅) Hv) as (projected & Hp & Hproj).
  { apply Forall_forall. intros [n pc] Hin%elem_of_btree_iter. by apply (Hok n pc). }
  { apply btree_iter_NoDup. }
  rewrite Hp. cbn [obind].
  assert (∃ projections, match committed_sources ctx with
    | Some (checkpoint, blame) => project_committed_sources is_alphabetic is_numeric hash_normalized nfc checkpoint blame contents rename_map
    | None => Ret (committed_projections projected) end = Ret projections ∧
    (committed_sources ctx = None → projections = committed_projections projected)) as (projections & -> & Hps).
  { destruct observed_valid as (_ & _ & _ & Hs). destruct (committed_sources ctx) as [[checkpoint blame]|] eqn:Es.
    - destruct (Hs _ _ eq_refl) as [H1 H2].
      destruct (project_sources_total is_alphabetic is_numeric hash_normalized nfc checkpoint blame contents rename_map Hv H1 H2) as [r ->].
      by exists r.
    - by eexists. }
  cbn [obind].
  assert (∃ carryover, match final_state_snapshot with
    | Some snapshot => let? built := build_carryover_snapshot git parent_sha commit_sha (extend_pathspecs rename_map pathspecs) snapshot in Ret (Some built)
    | None => Ret None end = Ret carryover ∧
    match final_state_snapshot with
    | Some snapshot => ∃ m, build_carryover_snapshot git parent_sha commit_sha (extend_pathspecs rename_map pathspecs) snapshot = Ret m ∧ carryover = Some m
    | None => carryover = None end) as (carryover & -> & Hcarry).
  { destruct final_state_snapshot as [snapshot|]; [|by eexists].
    destruct (carryover_total git git_answers parent_sha commit_sha (extend_pathspecs rename_map pathspecs) snapshot) as (m & -> & _).
    eexists. split; [done|]. by exists m. }
  cbn [obind].
  assert (∃ h, match carryover with
    | Some snapshot => collect_unstaged_hunks_from_snapshot git commit_sha (extend_pathspecs rename_map pathspecs) snapshot
    | None => collect_unstaged_hunks git commit_sha (extend_pathspecs rename_map pathspecs) end = Ret h ∧ hunks_u32 h.1) as (h & Hun & Hu32).
  { destruct carryover as [m|]; [by apply collect_snapshot_total|by apply collect_workdir_total]. }
  rewrite Hun. cbn [obind].
  exists rename_map, hunks, contents, carryover, (filter_unstaged hunks h.1 h.2), projected, projections. split_and!.
  - split; [done..|]. by exists h.
  - by apply filter_unstaged_u32.
  - done.
  - intros Hs n authors. rewrite (Hps Hs), Hproj. cbn [committed_projections]. rewrite lookup_empty. unfold observed_projection.
    split.
    + intros [(path & content & p & Hin & Hpp & ->)|[? _]]; [|done]. exists p. split; [|done]. exists path, content.
      by apply elem_of_btree_iter in Hin.
    + intros (p & (path & content & Hin & Hpp) & ->). left. exists path, content, p. split_and!; [by apply elem_of_btree_iter|done..].
  - done.
Qed.

Lemma gathered_complete rename_map hunks contents carryover unstaged :
  gathered rename_map hunks contents carryover unstaged →
  complete rename_map ↔
  ∀ path bytes attrs, va_attributions va !! path = Some (bytes, attrs) → attrs ≠ [] →
    ∃ r, rebased_lines nfc va carryover path attrs = Ret r.
Proof.
  intros Hg. pose proof (g_carryover _ _ _ _ _ Hg) as Hc. unfold complete. setoid_rewrite rebased_total.
  destruct final_state_snapshot as [snapshot|]; [|subst carryover; by split; intros].
  destruct Hc as (m & Hm & ->).
  destruct (carryover_total git git_answers parent_sha commit_sha (extend_pathspecs rename_map pathspecs) snapshot)
    as (m' & Hm' & Hd). rewrite Hm in Hm'. injection Hm' as <-. split.
  - intros H path bytes attrs Hp Hne ? [= <-]. rewrite !Hd. by apply (H snapshot path bytes attrs).
  - intros H ? path bytes attrs [= <-] Hp Hne. rewrite <-!Hd. by apply (H path bytes attrs).
Qed.

(** What the split of a complete state gives. *)
Lemma split_complete :
  (∀ rename_map, commit_renames git ctx parent_sha commit_sha = Ret rename_map → complete rename_map) →
  ∃ rename_map hunks contents carryover unstaged projections un protected,
    gathered rename_map hunks contents carryover unstaged ∧
    map_Forall (λ _ c, valid_text c) contents ∧
    (committed_sources ctx = None → ∀ n authors, projections !! n = Some authors ↔
       ∃ p, observed_projection rename_map contents n p ∧ authors = proj_authors p) ∧
    un_ok nfc va carryover rename_map unstaged un ∧
    (∀ path bytes attrs rebased, va_attributions va !! path = Some (bytes, attrs) →
       rebased_lines nfc va carryover path attrs = Ret rebased → attrs ≠ [] →
       (∃ w line, line ∈ unstaged_lines_of nfc rename_map unstaged path ∧ owns rebased w line) →
       is_Some (un_files un !! default path (rename_map !! path))) ∧
    let files := build_attestations_from_attributions nfc (committed_attributions ctx rename_map hunks projections) in
    split =
      Ret (retain_referenced (mkLog files (prune_metadata va files (initial_metadata version va ctx))),
           mkInitial (un_files un) (flatten_prompts (restrict (un_referenced un) (va_prompts va))) ∅ (un_humans un)
             (retain_referenced_trace_models (un_sessions un) (file_authors (un_files un))),
           un_contents un, protected).
Proof.
  intros Hcomplete.
  destruct split_gathered as (rename_map & hunks & contents & carryover & unstaged & projected & projections & Hg & Hu & Hv & Hp & Hsplit).
  destruct (files_loop nfc va carryover rename_map unstaged Hu (hash_iter (va_attributions va)) (mkUncommitted ∅ ∅ ∅ ∅ ∅))
    as (un & Hun & Hok & _ & Hcov).
  - split; cbn; [apply map_empty_subseteq..| |]; intros *; by rewrite lookup_empty.
  - by intros path fa ?%elem_of_hash_iter.
  - intros path bytes attrs Hin%elem_of_hash_iter Hne.
    by apply (proj1 (gathered_complete _ _ _ _ _ Hg) (Hcomplete _ (g_renames _ _ _ _ _ Hg)) path bytes attrs).
  - exists rename_map, hunks, contents, carryover, unstaged, projections, un, (protected_lines projected).
    split_and!; [done..| |].
    + intros path bytes attrs rebased Hin. eapply Hcov. by apply elem_of_hash_iter.
    + cbv zeta in Hsplit |- *. rewrite Hsplit, Hun. done.
Qed.
End Split.
End CommitNoteSplit.

(** ** Properties *)

Module CommitNoteProps.
Import DiffTree(DiffTreeResult, mkDiffTree, added_lines_by_file, renames).
Import LineRange AuthorshipLog AuthorshipLogFacts ImaraDiff Attribution DiffCompute Carryover HashIter HashIterFacts.
Import Attestations AttestationsFacts VirtualAttributions VirtualAttributionsFacts CommitSplit CommitSplitFacts.
Import CommitNote CommitNoteFacts CommitNoteSplit.

Section Props.
Context `{engine : !DiffEngine} `{order : HashOrder}.
Variables (is_alphabetic is_numeric : str → bool) (hash_normalized : str → N) (nfc : str → str) (version : str) (git : Git).
Variables (va : VirtualAttributions) (parent_sha commit_sha : str) (pathspecs : option (gset str)).
Variables (final_state_snapshot : option (gmap str str)) (ctx : AuthorshipLogDiffContext).
Hypothesis git_answers : answers git.
Hypothesis observed_valid : valid_observed va ctx.

Abbreviation split :=
  (to_authorship_log_and_initial_working_log_with_precomputed_diff is_alphabetic is_numeric hash_normalized nfc version git
     va parent_sha commit_sha pathspecs final_state_snapshot ctx).
Abbreviation complete := (complete nfc va pathspecs final_state_snapshot).
Abbreviation gathered := (gathered nfc git va parent_sha commit_sha pathspecs final_state_snapshot ctx).

(** C23: with git answering, splitting a working state at a commit never panics,
    and it fails exactly when a content is missing: when the final state is given
    as a snapshot and some file with attributions has no observed content or is not
    looked at.  Without pathspecs the files of the snapshot are looked at; with
    pathspecs those that these name, and the new names of those that were renamed. *)
Theorem split_fails_without_content :
  split ≠ Panic ∧
  ∃ rename_map, commit_renames git ctx parent_sha commit_sha = Ret rename_map ∧
    ((∃ r, split = Ret r) ↔ ¬ content_missing nfc va pathspecs final_state_snapshot rename_map).
Proof.
  destruct (split_gathered is_alphabetic is_numeric hash_normalized nfc version git va parent_sha commit_sha pathspecs
    final_state_snapshot ctx git_answers observed_valid)
    as (rename_map & hunks & contents & carryover & unstaged & projected & projections & Hg & _ & _ & _ & Hsplit).
  cbv zeta in Hsplit. rewrite Hsplit.
  destruct (uncommitted_outcome nfc va carryover rename_map unstaged (mkUncommitted ∅ ∅ ∅ ∅ ∅) (hash_iter (va_attributions va)))
    as [Hpanic Hret]. split.
  { destruct (uncommitted_all _ _ _ _ _ _ _); done. }
  pose proof (g_renames _ _ _ _ _ _ _ _ _ _ _ _ _ Hg) as Hrn. exists rename_map. split; [done|]. rewrite <-complete_missing. split.
  - intros [r Hr]. eapply gathered_complete; [exact git_answers|exact Hg|]. intros path bytes attrs Hp Hne.
    eapply Hret; [|by apply elem_of_hash_iter|done]. destruct (uncommitted_all _ _ _ _ _ _ _) as [un| |]; [by exists un|done..].
  - intros Hc. destruct (split_complete is_alphabetic is_numeric hash_normalized nfc version git va parent_sha commit_sha pathspecs
      final_state_snapshot ctx git_answers observed_valid) as (? & ? & ? & ? & ? & ? & ? & ? & _ & _ & _ & _ & _ & E).
    { intros rn' Hrn'. rewrite Hrn in Hrn'. by injection Hrn' as <-. }
    cbv zeta in E. rewrite Hsplit in E. rewrite E. by eexists.
Qed.

(** C1: the note of an ordinary commit, when no content is missing.  Its lines
    are attested, to an author other than the unattested human, exactly when
    the projection of the observed text gives them to that author and the
    commit adds them, or its file was renamed; that author owned lines of the
    observed file.  The note keeps the records of the working state, but for
    the prompts carried over from earlier commits and the sessions that no
    attestation names; the agent of an attested author is the one the working
    state has. *)
Theorem note_attests_committed_lines
    (ordinary : committed_sources ctx = None)
    (nothing_missing : ∀ rename_map, commit_renames git ctx parent_sha commit_sha = Ret rename_map → complete rename_map) :
  ∃ log initial carried protected rename_map hunks contents carryover unstaged,
    split = Ret (log, initial, carried, protected) ∧ gathered rename_map hunks contents carryover unstaged ∧
    let path_of n := default n (rename_map !! n) in
    let added n line := renamed ctx rename_map n ∨ contains_any (default [] (hunks !! path_of n)) line = true in
    let projects n p := observed_projection is_alphabetic is_numeric hash_normalized nfc va ctx rename_map contents n p in
    let md := metadata log in
    (∀ file w line, covers log file w line ↔
       w ≠ HUMAN ∧ ∃ n p, projects n p ∧ nfc (path_of n) = file ∧ projected p w line ∧ added n line) ∧
    (∀ n p w line, projects n p → projected p w line → w ≠ HUMAN →
       ∃ path la, nfc path = n ∧ la ∈ lines_of_path va path n ∧ line_author_id la = w) ∧
    base_commit_sha md = base_commit va ∧ humans md = va_humans va ∧
    (∀ id r, prompts md !! id = Some r ↔
       flatten_prompts (va_prompts va) !! id = Some r ∧ (id ∉ initial_only_prompt_ids va ∨ id ∈ log_hashes log)) ∧
    (∀ k, is_Some (sessions md !! k) ↔
       is_Some (va_sessions va !! k) ∧ ∃ w, w ∈ log_hashes log ∧ starts_with (lit "s_") w = true ∧ k = first_piece (lit "::") w) ∧
    (∀ w s s', w ∈ log_hashes log → va_sessions va !! first_piece (lit "::") w = Some s →
       sessions md !! first_piece (lit "::") w = Some s' → agent_id_for_author s' w = agent_id_for_author s w).
Proof.
  destruct (split_complete is_alphabetic is_numeric hash_normalized nfc version git va parent_sha commit_sha pathspecs
    final_state_snapshot ctx git_answers observed_valid nothing_missing)
    as (rename_map & hunks & contents & carryover & unstaged & projections & un & protected & Hg & Hv & Hp & _ & _ & Hsplit).
  cbv zeta in Hsplit. do 9 eexists. split; [exact Hsplit|]. split; [exact Hg|]. cbv zeta.
  specialize (Hp ordinary). set (attrs := committed_attributions ctx rename_map hunks projections).
  set (files := build_attestations_from_attributions nfc attrs).
  set (md := prune_metadata va files (initial_metadata version va ctx)).
  pose proof (observed_contents_ok nfc va ctx observed_valid) as Hok.
  assert (∀ n p w line, observed_projection is_alphabetic is_numeric hash_normalized nfc va ctx rename_map contents n p →
    projected p w line → is_u32 line ∧ (w = HUMAN ∨ ∃ path la, nfc path = n ∧ la ∈ lines_of_path va path n ∧ line_author_id la = w)) as Hl.
  { intros n p w line (path & observed & Ho & Hpp) Hw. destruct (Hok _ _ Ho) as [Hn Hu].
    destruct (path_projection_u32 is_alphabetic is_numeric hash_normalized va rename_map contents n path observed p w line Hv Hu Hpp Hw)
      as [? Ha]. split; [done|]. destruct Ha as [?|(la & ? & ?)]; [by left|right]. by exists path, la. }
  assert (projections_u32 projections) as Hpu.
  { intros n authors Hn w ls Hw. apply Hp in Hn as (p & Hpp & ->). apply Forall_forall. intros line Hin.
    eapply (Hl n p w line Hpp). unfold projected. by rewrite Hw. }
  assert (∀ h, h ∈ attested_hashes files ↔ h ∈ log_hashes (mkLog files md)) as Hhash
    by (intros h; unfold attested_hashes; by rewrite elem_of_list_to_set).
  split_and!.
  - intros file w line. change (covers (mkLog files md) file w line ↔
      w ≠ HUMAN ∧ ∃ n p, observed_projection is_alphabetic is_numeric hash_normalized nfc va ctx rename_map contents n p ∧
        nfc (default n (rename_map !! n)) = file ∧ projected p w line ∧
        (renamed ctx rename_map n ∨ contains_any (default [] (hunks !! default n (rename_map !! n))) line = true)).
    unfold files. rewrite attestations_cover.
    2:{ intros path fa la Hfa Hla. pose proof (committed_attributions_proper ctx rename_map hunks projections Hpu path fa Hfa) as H.
        rewrite Forall_forall in H. destruct (H la Hla) as (_ & ? & ?). lia. }
    apply and_iff_compat_l. unfold attrs.
    setoid_rewrite (λ path, committed_attributed ctx rename_map hunks projections path w line Hpu).
    unfold committed_line, note_path. rewrite ordinary.
    split.
    + intros (path & <- & n & authors & Hn & <- & Hin & Hor). apply Hp in Hn as (p & Hpp & ->). by exists n, p.
    + intros (n & p & Hpp & <- & Hin & Hor). eexists. split; [done|]. exists n, (proj_authors p). split_and!; [|done..].
      apply Hp. by exists p.
  - intros n p w line Hpp Hw Hh. by destruct (Hl n p w line Hpp Hw) as [_ [?|?]].
  - cbn. unfold initial_metadata. by rewrite ordinary.
  - cbn. unfold initial_metadata. by rewrite ordinary.
  - intros id r. cbn. unfold initial_metadata. rewrite ordinary. cbn [prompts]. case_bool_decide as He.
    + rewrite He. set_solver.
    + rewrite map_lookup_filter_Some. cbn [fst]. by rewrite Hhash.
  - intros k. rewrite <-elem_of_dom. cbn [metadata sessions retain_referenced set_sessions].
    rewrite (proj1 (retain_trace_models_spec _ _)), elem_of_dom. cbn. unfold initial_metadata. rewrite ordinary. cbn [sessions].
    unfold is_Some. setoid_rewrite lookup_restrict. setoid_rewrite elem_of_session_keys. setoid_rewrite Hhash. naive_solver.
  - intros w s s' Hw Hs Hs'. cbn [metadata sessions retain_referenced set_sessions] in Hs'.
    destruct (retain_trace_models_spec (sessions md) (log_hashes (mkLog files md))) as [Hd Hr].
    assert (is_Some (sessions md !! first_piece (lit "::") w)) as [s0 Hs0]
      by (apply elem_of_dom; rewrite <-Hd; apply elem_of_dom; by exists s').
    destruct (Hr _ _ Hs0) as (s1 & Hs1 & _ & _ & Ha). rewrite Hs' in Hs1. injection Hs1 as <-.
    assert (s0 = s) as ->; [|by apply Ha]. cbn in Hs0. apply lookup_restrict in Hs0 as [Hs0 _].
    unfold initial_metadata in Hs0. rewrite ordinary in Hs0. cbn in Hs0. congruence.
Qed.

(** C14: the INITIAL file after a commit, when no content is missing.  Each of
    its entries has, of one file of the working state with its lines moved to
    what is left after the commit, exactly the lines that are uncommitted, with
    their authors but the unattested human; a file with such lines has an
    entry, under its new name when the commit renamed it.  Of every author it
    names it has the first prompt, the human and the session's agent the working
    state has. *)
Theorem initial_keeps_uncommitted_lines
    (nothing_missing : ∀ rename_map, commit_renames git ctx parent_sha commit_sha = Ret rename_map → complete rename_map) :
  ∃ log initial carried protected rename_map hunks contents carryover unstaged,
    split = Ret (log, initial, carried, protected) ∧ gathered rename_map hunks contents carryover unstaged ∧
    let path_of path := default path (rename_map !! path) in
    let uncommitted path := unstaged_lines_of nfc rename_map unstaged path in
    (∀ ip las, initial_files initial !! ip = Some las →
       ∃ path bytes attrs rebased, va_attributions va !! path = Some (bytes, attrs) ∧ path_of path = ip ∧
         rebased_lines nfc va carryover path attrs = Ret rebased ∧
         ∀ w line, owns las w line ↔ w ≠ HUMAN ∧ line ∈ uncommitted path ∧ owns rebased w line) ∧
    (∀ path bytes attrs rebased w line, va_attributions va !! path = Some (bytes, attrs) → attrs ≠ [] →
       rebased_lines nfc va carryover path attrs = Ret rebased → line ∈ uncommitted path → owns rebased w line →
       is_Some (initial_files initial !! path_of path)) ∧
    (∀ ip las w line, initial_files initial !! ip = Some las → owns las w line →
       initial_prompts initial !! w = flatten_prompts (va_prompts va) !! w ∧
       (starts_with (lit "h_") w = true → initial_humans initial !! w = va_humans va !! w) ∧
       (starts_with (lit "s_") w = true → ∀ s, va_sessions va !! first_piece (lit "::") w = Some s →
          ∃ s', initial_sessions initial !! first_piece (lit "::") w = Some s' ∧
                agent_id_for_author s' w = agent_id_for_author s w)).
Proof.
  destruct (split_complete is_alphabetic is_numeric hash_normalized nfc version git va parent_sha commit_sha pathspecs
    final_state_snapshot ctx git_answers observed_valid nothing_missing)
    as (rename_map & hunks & contents & carryover & unstaged & projections & un & protected & Hg & _ & _ & Hok & Hcov & Hsplit).
  cbv zeta in Hsplit. do 9 eexists. split; [exact Hsplit|]. split; [exact Hg|]. cbv zeta.
  cbn [initial_files initial_prompts initial_humans initial_sessions]. split_and!.
  - intros ip las Hlas. destruct (un_files_ok _ _ _ _ _ _ Hok ip las Hlas) as (path & bytes & attrs & Hp & Hip & rebased & Hr & Ho & _).
    by exists path, bytes, attrs, rebased.
  - intros path bytes attrs rebased w line Hp Hne Hr Hin Ho. eapply Hcov; [done..|]. by exists w, line.
  - intros ip las w line Hlas (la & Hla & <- & Hc). destruct (un_names_ok _ _ _ _ _ _ Hok ip las la Hlas Hla) as [Href [Hh Hs]].
    split_and!.
    + unfold flatten_prompts. rewrite !lookup_omap. unfold restrict. f_equal. apply option_eq. intros c.
      rewrite map_lookup_filter_Some. naive_solver.
    + done.
    + intros Hw s Hsome. destruct (retain_trace_models_spec (un_sessions un) (file_authors (un_files un))) as [_ Hr].
      destruct (Hr (first_piece (lit "::") (line_author_id la)) s) as (s' & Hs' & _ & _ & Ha); [by rewrite Hs|].
      exists s'. split; [done|]. apply Ha; [|done]. apply elem_of_file_authors. by exists ip, las, la.
Qed.
End Props.

(** *** Witnesses *)

Definition sample_text : str := lit "ai" ++ [LF] ++ lit "more" ++ [LF].
Definition sample_agent : AgentId := mkAgentId (lit "tool") (lit "id") (lit "m").

(** A file of two AI lines; the commit adds the first, the second is unstaged. *)
Definition sample_git : Git := {|
  batch_read_paths_at_treeishes := λ _, Ret {[(lit "c1", lit "a.rs") := sample_text]};
  diff_tree_renames := λ _ _, Ret (true, []);
  diff_added_lines := λ _ _ _, Ret {[lit "a.rs" := [1%Z]]};
  diff_workdir_added_lines_with_insertions := λ _ _, Ret ({[lit "a.rs" := [2%Z]]}, ∅);
  file_exists_in_commit := λ _ _, true;
  workdir_file := None
|}.

Definition sample_state : VirtualAttributions :=
  mkVA (lit "c0") {[lit "a.rs" := ([], [mkLineAttr 1 2 (lit "s_a::t") None])]} {[lit "a.rs" := sample_text]} ∅ 7 None ∅ ∅
    {[lit "s_a" := mkSessionRecord sample_agent ∅ None None]} ∅.

Lemma sample_answers : answers sample_git.
Proof.
  split; cbn.
  - intros _. eexists. split; [done|]. intros k x. rewrite lookup_singleton_Some. intros [_ <-]. split; [done|].
    vm_compute. discriminate.
  - done.
  - intros _ _ _. by eexists.
  - intros _ _. eexists. split; [done|]. split; [|apply map_Forall_empty].
    intros k x. cbn [fst]. rewrite lookup_singleton_Some. intros [_ <-]. by repeat constructor.
Qed.

Lemma sample_valid : valid_observed sample_state default_context.
Proof.
  split_and!; [|apply map_Forall_empty|done..]. intros k x. cbn [file_contents sample_state]. rewrite lookup_singleton_Some. by intros [_ <-].
Qed.

Definition sample_split :=
  to_authorship_log_and_initial_working_log_with_precomputed_diff (engine := CoarseEngine.coarse_engine) (order := in_order)
    (λ _, true) (λ _, false) (λ _, 0%N) id (lit "1") sample_git sample_state (lit "c0") (lit "c1") None.

Lemma split_fails_without_content_witness :
  sample_split (Some {[lit "b.rs" := []]}) default_context ≠ Panic ∧
  ¬ ∃ r, sample_split (Some {[lit "b.rs" := []]}) default_context = Ret r.
Proof.
  destruct (split_fails_without_content (engine := CoarseEngine.coarse_engine) (order := in_order)
    (λ _, true) (λ _, false) (λ _, 0%N) id (lit "1") sample_git sample_state (lit "c0") (lit "c1") None
    (Some {[lit "b.rs" := []]}) default_context sample_answers sample_valid) as (Hpanic & rn & Hrn & Hiff).
  split; [exact Hpanic|]. intros H. apply Hiff in H. apply H.
  exists {[lit "b.rs" := []]}, (lit "a.rs"), [], [mkLineAttr 1 2 (lit "s_a::t") None]. do 3 (split; [done|]).
  right. split; intros [x Hx]; vm_compute in Hx; discriminate Hx.
Defined.

Lemma sample_complete rename_map : complete (order := in_order) id sample_state None None rename_map.
Proof. by intros ? ? ? ? ?. Qed.

(** What the tests look at. *)
Definition seen (r : result (AuthorshipLog * InitialAttributions * gmap str str * RecoveryProtection)) :
    option (list FileAttestation * list str * gmap str (list LineAttribution) * list str) :=
  match r with
  | Ret (log, initial, _, _) =>
      Some (attestations log, elements (dom (sessions (metadata log))), initial_files initial,
            elements (dom (initial_sessions initial)))
  | _ => None
  end.

Lemma sample_seen :
  seen (sample_split None default_context) =
  Some ([mkFile (lit "a.rs") [mkEntry (lit "s_a::t") [Single 1]]], [lit "s_a"],
        {[lit "a.rs" := [mkLineAttr 2 2 (lit "s_a::t") None]]}, [lit "s_a"]).
Proof. vm_compute. reflexivity. Qed.

Lemma note_attests_committed_lines_witness :
  ∃ log initial carried protected, sample_split None default_context = Ret (log, initial, carried, protected) ∧
    attestations log = [mkFile (lit "a.rs") [mkEntry (lit "s_a::t") [Single 1]]] ∧
    elements (dom (sessions (metadata log))) = [lit "s_a"].
Proof.
  destruct (note_attests_committed_lines (engine := CoarseEngine.coarse_engine) (order := in_order)
    (λ _, true) (λ _, false) (λ _, 0%N) id (lit "1") sample_git sample_state (lit "c0") (lit "c1") None None default_context
    sample_answers sample_valid eq_refl (λ rename_map _, sample_complete rename_map))
    as (log & initial & carried & protected & rn & hunks & contents & carry & unstaged & Hs & _).
  exists log, initial, carried, protected. split; [exact Hs|]. pose proof sample_seen as E.
  unfold sample_split in E. rewrite Hs in E. injection E as E1 E2 _ _. by split.
Defined.

Lemma initial_keeps_uncommitted_lines_witness :
  ∃ log initial carried protected, sample_split None default_context = Ret (log, initial, carried, protected) ∧
    initial_files initial = {[lit "a.rs" := [mkLineAttr 2 2 (lit "s_a::t") None]]} ∧
    elements (dom (initial_sessions initial)) = [lit "s_a"].
Proof.
  destruct (initial_keeps_uncommitted_lines (engine := CoarseEngine.coarse_engine) (order := in_order)
    (λ _, true) (λ _, false) (λ _, 0%N) id (lit "1") sample_git sample_state (lit "c0") (lit "c1") None None default_context
    sample_answers sample_valid (λ rename_map _, sample_complete rename_map))
    as (log & initial & carried & protected & rn & hunks & contents & carry & unstaged & Hs & _).
  exists log, initial, carried, protected. split; [exact Hs|]. pose proof sample_seen as E.
  unfold sample_split in E. rewrite Hs in E. injection E as _ _ E3 E4. by split.
Defined.

End CommitNoteProps.
