(* ===== verification/RangeDiff.v ===== *)
(** * Matching rewritten commits

    src/src/authorship/rewrite.rs: which commit of the new history replaces
    which commit of the old one.  Ordinary commits are matched by the rows of
    [git range-diff], merge commits by their parents. *)

From S2P Require Import Prelude Text DiffCompute HashIter PatchParse DiffTree.

Local Open Scope nat_scope.

Module RangeDiff.
Import DiffCompute(result).
Import DiffTree(is_hexdigit, is_valid_git_oid).

(** What git and the notes answer: the success and output of a command. *)
Record Git := mkGit {
  exec_merge_base : str → str → result (bool * str);
  exec_is_ancestor : str → str → result bool;
  exec_rev_list : str → str → result (bool * str);
  exec_rev_list_merges : str → str → result (bool * str);
  exec_range_diff : str → str → str → str → result str;
  exec_show_parents : list str → result (bool * str);
  commits_with_notes : list str → result (gset str);
  (** rewrite_reset.rs *)
  reconstruct_working_log : str → str → result unit
}.

(** ** Rows of a range-diff *)

(** The loop of [find_next_sha]; a step skips a byte or a run of digits. *)
Fixpoint find_loop (fuel : nat) (s : str) : option (str * str) :=
  match fuel, s with
  | S fuel', c :: s' =>
      if negb (is_hexdigit c) then find_loop fuel' s'
      else
        let run := take_while is_hexdigit s in
        let rest := drop_while is_hexdigit s in
        if (length run =? 40) || (length run =? 64) then Some (run, rest) else find_loop fuel' rest
  | _, _ => None
  end.

Definition find_next_sha (s : str) : option (str * str) := find_loop (length s) s.

Definition MAX_PENDING_DROPPED_COMMITS : nat := 64.

Record RangeDiffState := mkRange {
  mappings : list (str * str);
  pending_dropped : list str;
  pending_overflowed : bool;
  previous_new_sha : option str
}.

Definition zero_sha (sha : str) : bool := forallb (λ c, bool_decide (c = "0"%char)) sha.

(** A commit only the old history has. *)
Definition dropped_row (st : RangeDiffState) (old_sha : str) : RangeDiffState :=
  if zero_sha old_sha then st
  else
    match previous_new_sha st with
    | Some new_sha => mkRange (mappings st ++ [(old_sha, new_sha)]) (pending_dropped st) (pending_overflowed st) (Some new_sha)
    | None =>
        if pending_overflowed st then st
        else
          let pending := pending_dropped st ++ [old_sha] in
          if MAX_PENDING_DROPPED_COMMITS <? length pending then mkRange (mappings st) [] true None
          else mkRange (mappings st) pending false None
    end.

Definition matched_row (st : RangeDiffState) (old_sha after_status : str) : RangeDiffState :=
  match find_next_sha after_status with
  | None => st
  | Some (new_sha, _) =>
      if zero_sha old_sha || zero_sha new_sha then st
      else mkRange (mappings st ++ map (λ dropped, (dropped, new_sha)) (pending_dropped st) ++ [(old_sha, new_sha)])
             [] (pending_overflowed st) (Some new_sha)
  end.

Definition range_diff_line (st : RangeDiffState) (line : str) : RangeDiffState :=
  match find_next_sha (trim line) with
  | None => st
  | Some (old_sha, rest) =>
      let rest := trim_start rest in
      match head (chars rest) with
      | None => st
      | Some status_char =>
          if str_eqb status_char (lit "<") then dropped_row st old_sha
          else if str_eqb status_char (lit "=") || str_eqb status_char (lit "!") then
            matched_row st old_sha (drop (length status_char) rest)
          else st
      end
  end.

Definition parse_range_diff_output (output : str) : list (str * str) :=
  mappings (foldl range_diff_line (mkRange [] [] false None) (lines output)).

(** ** Merge commits *)

(** The nonempty trimmed lines of an output. *)
Definition listed (stdout : str) : list str :=
  List.filter (λ l, negb (bool_decide (l = []))) (map trim (lines stdout)).

Definition list_commits_in_range (git : Git) (base tip : str) : list str :=
  match exec_rev_list git base tip with
  | Ret (true, stdout) => listed stdout
  | _ => []
  end.

Definition list_merge_commits (git : Git) (base tip : str) : result (list str) :=
  let? output := exec_rev_list_merges git base tip in
  Ret (if output.1 then listed output.2 else []).

Definition parents_line (line : str) : option (str * list str) :=
  match split_whitespace line with
  | [] => None
  | sha :: parents => Some (sha, parents)
  end.

Definition get_commit_parents_batch (git : Git) (shas : list str) : gmap str (list str) :=
  if bool_decide (shas = []) then ∅
  else
    match exec_show_parents git shas with
    | Ret (true, stdout) => foldl (λ m kv, <[kv.1 := kv.2]> m) ∅ (omap parents_line (lines stdout))
    | _ => ∅
    end.

(** The parents correspond, by the mappings or as the same commits. *)
Definition all_match (existing_mappings merge_mappings : list (str * str)) (old_parents new_parents : list str) : bool :=
  forallb (λ on, bool_decide (on ∈ existing_mappings) || bool_decide (on ∈ merge_mappings) || str_eqb on.1 on.2)
    (combine old_parents new_parents).

Definition merge_candidate (existing_mappings merge_mappings : list (str * str)) (parents : gmap str (list str))
    (old_parents : list str) (new_merge : str) : bool :=
  if bool_decide (new_merge ∈ map snd merge_mappings) then false
  else
    let new_parents := default [] (parents !! new_merge) in
    (length new_parents =? length old_parents) && all_match existing_mappings merge_mappings old_parents new_parents.

(** The body of the loop over the old merges. *)
Definition match_merge (existing_mappings : list (str * str)) (with_notes : gset str) (parents : gmap str (list str))
    (new_merges : list str) (merge_mappings : list (str * str)) (old_merge : str) : list (str * str) :=
  if negb (bool_decide (old_merge ∈ with_notes)) then merge_mappings
  else
    let old_parents := default [] (parents !! old_merge) in
    if bool_decide (old_parents = []) then merge_mappings
    else
      match List.find (merge_candidate existing_mappings merge_mappings parents old_parents) new_merges with
      | Some new_merge => merge_mappings ++ [(old_merge, new_merge)]
      | None => merge_mappings
      end.

Definition match_merges (existing_mappings : list (str * str)) (with_notes : gset str) (parents : gmap str (list str))
    (old_merges new_merges : list str) : list (str * str) :=
  foldl (match_merge existing_mappings with_notes parents new_merges) [] old_merges.

Definition derive_merge_commit_mappings (git : Git) (base old_tip new_tip : str)
    (existing_mappings : list (str * str)) : result (list (str * str)) :=
  let? old_merges := list_merge_commits git base old_tip in
  let? new_merges := list_merge_commits git base new_tip in
  if bool_decide (old_merges = []) || bool_decide (new_merges = []) then Ret []
  else
    let? with_notes := commits_with_notes git old_merges in
    let merge_parent_map := get_commit_parents_batch git (old_merges ++ new_merges) in
    Ret (match_merges existing_mappings with_notes merge_parent_map old_merges new_merges).

(** ** All the mappings of a rewrite *)

Definition is_ancestor (git : Git) (ancestor descendant : str) : bool :=
  match exec_is_ancestor git ancestor descendant with Ret b => b | _ => false end.

Definition find_merge_base (git : Git) (a b : str) : option str :=
  match exec_merge_base git a b with
  | Ret (true, stdout) => let base := trim stdout in if bool_decide (base = []) then None else Some base
  | _ => None
  end.

Definition run_range_diff (git : Git) (old_base old_tip new_base new_tip : str) : result str :=
  let? stdout := exec_range_diff git old_base old_tip new_base new_tip in
  Ret (trim stdout).

Definition onto_of (git : Git) (base old_tip new_tip : str) (onto_hint : option str) : str :=
  match onto_hint with
  | Some hint =>
      if negb (str_eqb hint new_tip) && negb (str_eqb hint old_tip) && is_ancestor git hint new_tip then hint else base
  | None => base
  end.

Definition derive_mappings_from_range_diff (git : Git) (old_tip new_tip : str) (onto_hint : option str) :
    result (list (str * str)) :=
  match find_merge_base git old_tip new_tip with
  | None => Ret []
  | Some base =>
      if str_eqb base new_tip then
        let? _ := reconstruct_working_log git old_tip new_tip in Ret []
      else if str_eqb base old_tip then Ret []
      else
        let onto := onto_of git base old_tip new_tip onto_hint in
        let? range_diff_output := run_range_diff git base old_tip onto new_tip in
        let mappings := parse_range_diff_output range_diff_output in
        let? merge_mappings := derive_merge_commit_mappings git base old_tip new_tip mappings in
        Ret (mappings ++ merge_mappings)
  end.

End RangeDiff.

(** ** What git writes *)

Module RangeDiffText.
Import PatchParse.PatchText DiffTree RangeDiff.

(** A row: a commit of both histories, or of one of them. *)
Inductive Row :=
  | Matched (changed : bool) (old new : str)
  | Dropped (old : str)
  | Created (new : str).

(** A row with the texts around it: the numbers of the two sides and the
    subject, which may end in a carriage return; the side that has no commit
    shows dashes. *)
Record RowText := mkRow { row : Row; left_number : str; right_number : str; subject : str; crlf : bool }.

Definition dashes : str := repeat "-"%char 40.

Definition side (number sha : str) : str := number ++ lit ":  " ++ sha.

Definition row_head (r : RowText) : str :=
  match row r with
  | Matched changed old new =>
      side (left_number r) old ++ (if changed then lit " ! " else lit " = ") ++ side (right_number r) new
  | Dropped old => side (left_number r) old ++ lit " < " ++ side (right_number r) dashes
  | Created new => side (left_number r) dashes ++ lit " > " ++ side (right_number r) new
  end.

Definition row_text (r : RowText) : str :=
  row_head r ++ " "%char :: subject r ++ (if crlf r then [CR] else []).

Definition row_oids (r : Row) : list str :=
  match r with Matched _ old new => [old; new] | Dropped old => [old] | Created new => [new] end.

(** Padded numbers and dashes. *)
Definition number_ok (s : str) : Prop :=
  Forall (λ c, c = " "%char ∨ c = "-"%char ∨ is_digit c) s ∧ length s < 36 ∧ s ≠ [].

(** A subject that does not start with one of the status characters. *)
Definition plain_subject (s : str) : Prop :=
  s = [] ∨ ∃ ch s', s = ch ++ s' ∧ utf8_char ch = true ∧ is_whitespace ch = false ∧
    ch ∉ [lit "<"; lit "="; lit "!"].

Definition row_shape (r : RowText) : Prop :=
  Forall (λ sha, is_valid_git_oid sha = true ∧ zero_sha sha = false) (row_oids (row r)) ∧
  number_ok (left_number r) ∧ number_ok (right_number r) ∧ one_line (subject r) ∧
  match row r with Created _ => Forall (λ c, is_hexdigit c = false) (left_number r) | _ => True end.

Definition row_ok (r : RowText) : Prop :=
  row_shape r ∧ match row r with Created _ => plain_subject (subject r) | _ => True end.

(** ** Reference: the mappings of rows *)

(** Once a commit is matched, dropped ones go to the match before them. *)
Fixpoint follow (previous : str) (rows : list Row) : list (str * str) :=
  match rows with
  | [] => []
  | Matched _ old new :: rows' => (old, new) :: follow new rows'
  | Dropped old :: rows' => (old, previous) :: follow previous rows'
  | Created _ :: rows' => follow previous rows'
  end.

(** Commits dropped before the first match go to it, unless there are too many. *)
Fixpoint leading (dropped : list str) (rows : list Row) : list (str * str) :=
  match rows with
  | [] => []
  | Matched _ old new :: rows' =>
      (if length dropped <=? MAX_PENDING_DROPPED_COMMITS then map (λ d, (d, new)) dropped else []) ++
      (old, new) :: follow new rows'
  | Dropped old :: rows' => leading (dropped ++ [old]) rows'
  | Created _ :: rows' => leading dropped rows'
  end.

Definition row_mappings (rows : list Row) : list (str * str) := leading [] rows.

(** Two merges have the same number of parents, and each pair of them is mapped,
    was matched before or is the same commit. *)
Definition corresponds (existing_mappings found : list (str * str)) (parents : gmap str (list str)) (old_merge new_merge : str) : Prop :=
  let old_parents := default [] (parents !! old_merge) in
  let new_parents := default [] (parents !! new_merge) in
  old_parents ≠ [] ∧ length new_parents = length old_parents ∧
  ∀ i op np, old_parents !! i = Some op → new_parents !! i = Some np →
    (op, np) ∈ existing_mappings ∨ (op, np) ∈ found ∨ op = np.

End RangeDiffText.

(** ** Lemmas *)

Module RangeDiffFacts.
Import PatchParse.PatchText DiffTree RangeDiff RangeDiffText.

(** *** Trimming *)

Lemma drop_while_stop {A : Type} (p : A → bool) l x r :
  p x = false → drop_while p (l ++ x :: r) = drop_while p l ++ x :: r.
Proof.
  intros Hx. induction l as [|y l IH]; cbn [app drop_while]; [by rewrite Hx|]. destruct (p y); [done|done].
Qed.

Lemma trim_end_after a ch b :
  is_utf8 a = true → utf8_char ch = true → is_whitespace ch = false →
  trim_end (a ++ ch ++ b) = a ++ ch ++ trim_end b.
Proof.
  intros Ha Hc Hw. unfold trim_end. rewrite chars_app, chars_char_app by done.
  rewrite rev_app_distr. cbn [rev]. rewrite <-app_assoc. cbn [app]. rewrite drop_while_stop by done.
  rewrite rev_app_distr. cbn [rev]. rewrite rev_involutive, <-app_assoc, concat_app. cbn [app concat].
  by rewrite concat_chars.
Qed.

Lemma trim_start_space s : trim_start (" "%char :: s) = trim_start s.
Proof. unfold trim_start. by rewrite chars_cons. Qed.

Lemma trim_start_char ch s :
  utf8_char ch = true → is_whitespace ch = false → trim_start (ch ++ s) = ch ++ s.
Proof.
  intros Hc Hw. unfold trim_start. rewrite chars_char_app by done. cbn [drop_while]. rewrite Hw. cbn [concat].
  by rewrite concat_chars.
Qed.

Lemma trim_end_space s : trim_end (" "%char :: s) = [] ∨ ∃ t, trim_end (" "%char :: s) = " "%char :: t.
Proof.
  unfold trim_end. rewrite chars_cons. cbn [char_width]. change (take _ _) with [" "%char]. cbn [rev].
  assert (∀ (p : str → bool) l x, drop_while p (l ++ [x]) = [] ∨ ∃ k, drop_while p (l ++ [x]) = k ++ [x]) as Hd.
  { intros p l x. induction l as [|y l IH]; cbn [app drop_while].
    - destruct (p x); [by left|]. right. by exists [].
    - destruct (p y); [done|]. right. by exists (y :: l). }
  destruct (Hd is_whitespace (rev (chars (drop (char_width " ") (" "%char :: s)))) [" "%char]) as [-> | [k ->]]; [by left|].
  right. rewrite rev_app_distr. cbn. by eexists.
Qed.

(** *** Searching for a sha *)

Lemma take_drop_while {A : Type} (p : A → bool) l : take_while p l ++ drop_while p l = l.
Proof. induction l as [|x l IH]; cbn; [done|]. destruct (p x); cbn; by rewrite ?IH. Qed.

Lemma find_fuel f g s : length s ≤ f → length s ≤ g → find_loop f s = find_loop g s.
Proof.
  revert g s. induction f as [|f IH]; intros [|g] [|c s] Hf Hg; try done; try (cbn in *; lia).
  cbn [find_loop length] in *. destruct (is_hexdigit c) eqn:E; cbn [negb]; [|apply IH; lia].
  case_match; [done|]. cbn [drop_while]. rewrite E.
  pose proof (length_drop_while is_hexdigit s). apply IH; lia.
Qed.

Lemma find_cons c s :
  find_next_sha (c :: s) =
  if is_hexdigit c then
    let run := take_while is_hexdigit (c :: s) in
    if (length run =? 40) || (length run =? 64) then Some (run, drop_while is_hexdigit (c :: s))
    else find_next_sha (drop_while is_hexdigit (c :: s))
  else find_next_sha s.
Proof.
  unfold find_next_sha. cbn [length find_loop]. destruct (is_hexdigit c) eqn:E; cbn [negb]; [|done].
  cbv zeta. case_match; [done|]. cbn [drop_while]. rewrite E.
  pose proof (length_drop_while is_hexdigit s). apply find_fuel; lia.
Qed.

Lemma find_skip a s : Forall (λ c, is_hexdigit c = false) a → find_next_sha (a ++ s) = find_next_sha s.
Proof. induction 1 as [|c a Hc _ IH]; [done|]. cbn [app]. by rewrite find_cons, Hc. Qed.

Lemma hex_run a c s :
  is_hexdigit c = false →
  take_while is_hexdigit (a ++ c :: s) = take_while is_hexdigit a ∧
  drop_while is_hexdigit (a ++ c :: s) = drop_while is_hexdigit a ++ c :: s.
Proof.
  intros Hc. split; [|by apply drop_while_stop]. induction a as [|x a IH]; cbn; [by rewrite Hc|].
  destruct (is_hexdigit x); [by rewrite IH|done].
Qed.

(** What is short has no sha. *)
Lemma find_short a c s :
  length a < 40 → is_hexdigit c = false → find_next_sha (a ++ c :: s) = find_next_sha s.
Proof.
  intros Ha Hc. remember (length a) as n eqn:Hn. revert a Hn Ha. induction (lt_wf n) as [n _ IH]. intros a -> Ha.
  destruct a as [|x a]; cbn [app].
  - by rewrite find_cons, Hc.
  - rewrite find_cons. destruct (is_hexdigit x) eqn:E.
    + rewrite app_comm_cons. destruct (hex_run (x :: a) c s Hc) as [-> ->]. cbv zeta.
      pose proof (f_equal length (take_drop_while is_hexdigit (x :: a))) as Hl. rewrite length_app in Hl.
      assert ((length (take_while is_hexdigit (x :: a)) =? 40) || (length (take_while is_hexdigit (x :: a)) =? 64) = false) as ->.
      { apply orb_false_iff. rewrite !Nat.eqb_neq. lia. }
      assert (0 < length (take_while is_hexdigit (x :: a))) by (cbn; rewrite E; cbn; lia).
      eapply IH; [|done|]; lia.
    + eapply (IH (length a)); cbn in *; [lia|done|lia].
Qed.

Lemma oid_hex sha : is_valid_git_oid sha = true → Forall (λ c, is_hexdigit c = true) sha ∧ (length sha = 40 ∨ length sha = 64).
Proof.
  unfold is_valid_git_oid. intros [Hl Hh]%andb_true_iff. split.
  - apply List.Forall_forall. by apply forallb_forall.
  - apply orb_true_iff in Hl. by rewrite !Nat.eqb_eq in Hl.
Qed.

(** A text after a sha: it does not start with a digit. *)
Definition ends_run (s : str) : Prop := match s with [] => True | c :: _ => is_hexdigit c = false end.

Lemma find_sha sha s : is_valid_git_oid sha = true → ends_run s → find_next_sha (sha ++ s) = Some (sha, s).
Proof.
  intros Hs He. apply oid_hex in Hs as [Hh Hl].
  assert (take_while is_hexdigit (sha ++ s) = sha ∧ drop_while is_hexdigit (sha ++ s) = s) as [Ht Hd].
  { clear Hl. induction Hh as [|c sha Hc _ [IH1 IH2]]; cbn; [|rewrite Hc, IH1, IH2; done].
    destruct s as [|c s]; [done|]. cbn in He. cbn. by rewrite He. }
  destruct sha as [|c sha]; [cbn in Hl; lia|]. inversion_clear Hh as [|? ? Hc _]. cbn [app] in *.
  rewrite find_cons, Hc, Ht, Hd. cbv zeta.
  assert ((length (c :: sha) =? 40) || (length (c :: sha) =? 64) = true) as -> by (rewrite orb_true_iff, !Nat.eqb_eq; done).
  done.
Qed.

(** *** The text of a row *)

Lemma hex_printable c : is_hexdigit c = true → printable c.
Proof. destruct c as [[] [] [] [] [] [] [] []]; vm_compute; try discriminate; done. Qed.

Lemma printable_char c : printable c → utf8_char [c] = true.
Proof. intros [H _]. by apply utf8_char_ascii. Qed.

(** A text of ASCII characters whose last one is not a space. *)
Definition solid (a : str) : Prop := forallb is_ascii a = true ∧ ∃ a' c, a = a' ++ [c] ∧ printable c.

Lemma solid_trim_end a b : solid a → trim_end (a ++ b) = a ++ trim_end b.
Proof.
  intros [Ha (a' & c & -> & Hc)]. rewrite <-!app_assoc. apply trim_end_after.
  - apply is_utf8_ascii. rewrite forallb_app in Ha. by apply andb_true_iff in Ha as [? _].
  - by apply printable_char.
  - apply Hc.
Qed.

Lemma solid_app a b : forallb is_ascii a = true → solid b → solid (a ++ b).
Proof.
  intros Ha [Hb (b' & c & -> & Hc)]. split; [by rewrite forallb_app, Ha|]. exists (a ++ b'), c. by rewrite app_assoc.
Qed.

Lemma oid_solid sha : is_valid_git_oid sha = true → solid sha.
Proof.
  intros [Hh Hl]%oid_hex. split.
  - apply forallb_forall. intros c Hc. apply List.Forall_forall with (x := c) in Hh; [|done]. by apply hex_printable in Hh as [? _].
  - destruct sha as [|c sha _] using rev_ind; [cbn in Hl; lia|]. apply Forall_app in Hh as [_ Hh]. inversion_clear Hh.
    eexists _, _. split; [done|]. by apply hex_printable.
Qed.

Lemma number_char c : c = " "%char ∨ c = "-"%char ∨ is_digit c → is_ascii c = true ∧ (c = " "%char ∨ printable c).
Proof.
  intros [-> | [-> |Hd]]; [by split; [|left]|by split; [|right]|].
  assert (printable c) as Hp by by apply digit_printable. split; [apply Hp|by right].
Qed.

Lemma number_ascii s : number_ok s → forallb is_ascii s = true.
Proof.
  intros (H & _). apply forallb_forall. intros c Hc. rewrite List.Forall_forall in H.
  by apply (number_char c), H.
Qed.

(** Trimming the start of a row only shortens its first number. *)
Lemma trim_start_number s b :
  number_ok s → ∃ s', trim_start (s ++ ":"%char :: b) = s' ++ ":"%char :: b ∧ length s' ≤ length s ∧
    forallb is_ascii s' = true ∧ ∀ P : ascii → Prop, Forall P s → Forall P s'.
Proof.
  intros Hs. pose proof (number_ascii s Hs) as Ha. destruct Hs as (H & _ & _). induction H as [|c s Hc Hs IH]; cbn [app].
  - exists []. split_and!; try done. by apply (trim_start_char [":"%char]).
  - cbn [forallb] in Ha. apply andb_true_iff in Ha as [Hac Has].
    apply number_char in Hc as [_ [-> |Hp]].
    + rewrite trim_start_space. destruct (IH Has) as (s' & -> & Hl & Ha' & HP). exists s'. split_and!; [done|cbn; lia|done|].
      intros P HP'. inversion_clear HP'. by apply HP.
    + exists (c :: s). split_and!; [|done|cbn; by rewrite Hac, Has|done].
      apply (trim_start_char [c]); [by apply printable_char|apply Hp].
Qed.

Lemma side_solid number sha : number_ok number → solid sha → solid (side number sha).
Proof. intros Hn Hs. unfold side. apply solid_app; [by apply number_ascii|]. by apply solid_app. Qed.

Lemma dashes_solid : solid dashes.
Proof. split; [done|]. by exists (repeat "-"%char 39), "-"%char. Qed.

(** The first side of a row, its status and the rest, as a trimmed line shows them. *)
Definition row_left (r : RowText) : str :=
  match row r with Matched _ old _ | Dropped old => old | Created _ => dashes end.
Definition row_rest (r : RowText) : str :=
  match row r with
  | Matched changed _ new => (if changed then lit " ! " else lit " = ") ++ side (right_number r) new
  | Dropped _ => lit " < " ++ side (right_number r) dashes
  | Created new => lit " > " ++ side (right_number r) new
  end.

Lemma row_head_split r : row_head r = left_number r ++ lit ":  " ++ row_left r ++ row_rest r.
Proof. unfold row_head, row_left, row_rest, side. destruct (row r); by rewrite <-!app_assoc. Qed.

Lemma row_tail_solid r : row_shape r → solid (lit ":  " ++ row_left r ++ row_rest r).
Proof.
  intros (Ho & Hl & Hr & _). apply solid_app; [done|]. unfold row_left, row_rest.
  destruct (row r) as [changed old new|old|new]; cbn [row_oids] in Ho; rewrite ?Forall_cons in Ho; destruct_and!;
    (apply solid_app; [refine (proj1 (_ : solid _)); first [exact dashes_solid | by apply oid_solid]|]);
    (apply solid_app; [by try destruct changed|]); apply side_solid; try done;
    first [exact dashes_solid | by apply oid_solid].
Qed.

Lemma trimmed_row r :
  row_shape r → ∃ number, length number < 36 ∧
    (Forall (λ c, is_hexdigit c = false) (left_number r) → Forall (λ c, is_hexdigit c = false) number) ∧
    trim (strip_cr (row_text r)) = number ++ (lit ":  " ++ row_left r ++ row_rest r) ++ trim_end (" "%char :: subject r).
Proof.
  intros Hok. pose proof (row_tail_solid r Hok) as Hsolid. destruct Hok as (_ & Hl & _ & [_ Hcr] & _).
  assert (strip_cr (row_text r) = row_head r ++ " "%char :: subject r) as ->.
  { unfold row_text. rewrite app_comm_cons, app_assoc. destruct (crlf r).
    - unfold strip_cr. rewrite rev_app_distr. cbn. by rewrite rev_involutive.
    - rewrite app_nil_r. destruct (subject r) as [|c s] eqn:E; [by apply strip_cr_snoc|].
      change (" "%char :: c :: s) with ([" "%char] ++ c :: s). rewrite app_assoc.
      rewrite PatchParse.PatchParseFacts.strip_cr_app. by rewrite Hcr. }
  set (tail := lit ":  " ++ row_left r ++ row_rest r) in *.
  assert (row_head r ++ " "%char :: subject r =
    left_number r ++ ":"%char :: (drop 1 tail ++ " "%char :: subject r)) as ->.
  { rewrite app_comm_cons. change (":"%char :: drop 1 tail) with tail. rewrite row_head_split. fold tail.
    by rewrite <-app_assoc. }
  destruct (trim_start_number (left_number r) (drop 1 tail ++ " "%char :: subject r) Hl) as (number & E & Hlen & Ha & HP).
  exists number. split; [destruct Hl as (_ & ? & _); lia|]. split; [apply HP|].
  unfold trim. rewrite E. change (number ++ ":"%char :: drop 1 tail ++ " "%char :: subject r) with
    (number ++ tail ++ " "%char :: subject r).
  rewrite !app_assoc. apply solid_trim_end. by apply solid_app.
Qed.

(** *** What the reader makes of a row *)

Definition row_step (st : RangeDiffState) (r : Row) : RangeDiffState :=
  match r with
  | Matched _ old new =>
      mkRange (mappings st ++ map (λ d, (d, new)) (pending_dropped st) ++ [(old, new)]) [] (pending_overflowed st) (Some new)
  | Dropped old => dropped_row st old
  | Created _ => st
  end.

Lemma space_ends_run s : ends_run (" "%char :: s).
Proof. done. Qed.

Lemma trim_end_ends_run s : ends_run (trim_end (" "%char :: s)).
Proof. by destruct (trim_end_space s) as [-> | [t ->]]. Qed.

Lemma find_in_row number sha rest :
  length number < 38 → is_valid_git_oid sha = true → ends_run rest →
  find_next_sha (number ++ lit ":  " ++ sha ++ rest) = Some (sha, rest).
Proof.
  intros Hn Hs Hr. change (lit ":  " ++ sha ++ rest) with ([":"%char; " "%char] ++ " "%char :: sha ++ rest).
  rewrite app_assoc, find_short; [by apply find_sha|rewrite length_app; cbn; lia|done].
Qed.

Lemma row_found r number :
  row_shape r → length number < 36 → (∀ new, row r ≠ Created new) →
  find_next_sha (number ++ (lit ":  " ++ row_left r ++ row_rest r) ++ trim_end (" "%char :: subject r)) =
  Some (row_left r, row_rest r ++ trim_end (" "%char :: subject r)).
Proof.
  intros (Ho & _) Hn Hc. rewrite <-!app_assoc. apply find_in_row; [lia|..]; unfold row_left, row_rest.
  - destruct (row r); cbn [row_oids] in Ho; rewrite ?Forall_cons in Ho; naive_solver.
  - destruct (row r) as [[]| |]; [done..|]. by destruct (Hc new).
Qed.

Lemma status_char c s :
  printable c → trim_start (" "%char :: c :: s) = c :: s ∧ head (chars (c :: s)) = Some [c].
Proof.
  intros Hc. pose proof (printable_char c Hc). rewrite trim_start_space. change (c :: s) with ([c] ++ s).
  split; [apply trim_start_char; [done|apply Hc]|by rewrite chars_char_app].
Qed.

Ltac eval_str_eqb :=
  repeat match goal with
         | |- context [str_eqb ?a ?b] => let v := eval vm_compute in (str_eqb a b) in change (str_eqb a b) with v
         end; cbn [orb].

(** The first sha of a created commit's row is its own. *)
Lemma created_found r new number :
  row_shape r → row r = Created new → length number < 36 →
  (Forall (λ c, is_hexdigit c = false) (left_number r) → Forall (λ c, is_hexdigit c = false) number) →
  find_next_sha (number ++ (lit ":  " ++ row_left r ++ row_rest r) ++ trim_end (" "%char :: subject r)) =
  Some (new, trim_end (" "%char :: subject r)).
Proof.
  intros (Ho & _ & (_ & Hr & _) & _ & Hleft) Er Hn Hnum. rewrite Er in Ho, Hleft.
  cbn [row_oids] in Ho. rewrite Forall_cons in Ho. destruct Ho as [[Hv _] _].
  unfold row_left, row_rest, side. rewrite Er, <-!app_assoc.
  rewrite find_skip by by apply Hnum. rewrite (find_skip (lit ":  ")) by by repeat constructor.
  rewrite (find_skip dashes) by by repeat constructor. rewrite (find_skip (lit " > ")) by by repeat constructor.
  apply find_in_row; [lia|done|apply trim_end_ends_run].
Qed.

Lemma created_status ch s :
  utf8_char ch = true → is_whitespace ch = false →
  trim_start (trim_end (" "%char :: ch ++ s)) = ch ++ trim_end s ∧ head (chars (ch ++ trim_end s)) = Some ch.
Proof.
  intros Hu Hw. change (" "%char :: ch ++ s) with ([" "%char] ++ ch ++ s). rewrite trim_end_after by done.
  cbn [app]. rewrite trim_start_space, trim_start_char by done. by rewrite chars_char_app.
Qed.

Lemma range_diff_row st r : row_ok r → range_diff_line st (strip_cr (row_text r)) = row_step st (row r).
Proof.
  intros [Hok Hsub]. destruct (trimmed_row r Hok) as (number & Hn & Hnum & E). unfold range_diff_line. rewrite E.
  set (tail := trim_end (" "%char :: subject r)). assert (ends_run tail) as Htail by apply trim_end_ends_run.
  destruct (row r) as [changed old new|old|new] eqn:Er.
  - pose proof (row_found r number Hok Hn ltac:(by rewrite Er)) as Hf. fold tail in Hf. rewrite Hf.
    unfold row_left, row_rest in *. rewrite Er in *. destruct Hok as (Ho & _ & (_ & Hr & _) & _). rewrite Er in Ho.
    cbn [row_oids] in Ho. rewrite !Forall_cons in Ho. destruct Ho as ([_ Hz1] & [Hv2 Hz2] & _).
    unfold side. rewrite <-!app_assoc.
    assert (find_next_sha (" "%char :: right_number r ++ lit ":  " ++ new ++ tail) = Some (new, tail)) as Hright.
    { rewrite app_comm_cons. apply find_in_row; [cbn; lia|done|done]. }
    unfold matched_row. destruct changed.
    + change (lit " ! ") with (" "%char :: ["!"%char; " "%char]). cbn [app].
      match goal with |- context [trim_start (_ :: _ :: ?s)] => destruct (status_char "!" s) as [-> ->]; [done|] end.
      eval_str_eqb. cbn [length drop]. by rewrite Hright, Hz1, Hz2.
    + change (lit " = ") with (" "%char :: ["="%char; " "%char]). cbn [app].
      match goal with |- context [trim_start (_ :: _ :: ?s)] => destruct (status_char "=" s) as [-> ->]; [done|] end.
      eval_str_eqb. cbn [length drop]. by rewrite Hright, Hz1, Hz2.
  - pose proof (row_found r number Hok Hn ltac:(by rewrite Er)) as Hf. fold tail in Hf. rewrite Hf.
    unfold row_left, row_rest. rewrite Er. unfold side. rewrite <-!app_assoc.
    change (lit " < ") with (" "%char :: ["<"%char; " "%char]). cbn [app].
    match goal with |- context [trim_start (_ :: _ :: ?s)] => by destruct (status_char "<" s) as [-> ->] end.
  - unfold tail. rewrite (created_found r new number) by done.
    destruct Hsub as [-> | (ch & s' & -> & Hu & Hw & Hch)]; [done|].
    destruct (created_status ch s' Hu Hw) as [-> ->].
    rewrite !not_elem_of_cons in Hch. destruct Hch as (H1 & H2 & H3 & _). unfold str_eqb.
    by rewrite !bool_decide_false.
Qed.

(** *** All rows *)

Definition nonzero (r : Row) : Prop := Forall (λ sha, zero_sha sha = false) (row_oids r).

Lemma follow_rows rows st previous :
  Forall nonzero rows → previous_new_sha st = Some previous → pending_dropped st = [] →
  mappings (foldl row_step st rows) = mappings st ++ follow previous rows.
Proof.
  intros H. revert st previous. induction H as [|r rows Hr _ IH]; intros st previous Hp Hd; [by rewrite app_nil_r|].
  cbn [foldl]. destruct r as [changed old new|old|new]; cbn [row_step follow].
  - rewrite (IH _ new) by done. cbn [mappings]. by rewrite Hd, <-app_assoc.
  - unfold nonzero in Hr. cbn in Hr. apply Forall_cons in Hr as [Hz _]. unfold dropped_row. rewrite Hz, Hp.
    rewrite (IH _ previous) by done. cbn [mappings]. by rewrite <-app_assoc.
  - by apply IH.
Qed.

Lemma leading_rows rows dropped :
  Forall nonzero rows →
  mappings (foldl row_step
    (mkRange [] (if length dropped <=? MAX_PENDING_DROPPED_COMMITS then dropped else [])
       (MAX_PENDING_DROPPED_COMMITS <? length dropped) None) rows) = leading dropped rows.
Proof.
  intros H. revert dropped. induction H as [|r rows Hr Hrows IH]; intros dropped; [done|].
  cbn [foldl]. destruct r as [changed old new|old|new]; cbn [row_step leading].
  - rewrite (follow_rows rows _ new) by done. cbn [mappings pending_dropped app]. rewrite <-app_assoc.
    by case_match.
  - unfold nonzero in Hr. cbn in Hr. apply Forall_cons in Hr as [Hz _]. rewrite <-IH. unfold dropped_row. rewrite Hz.
    cbn [previous_new_sha pending_overflowed pending_dropped mappings]. do 2 f_equal.
    pose proof (length_app dropped [old]) as Hl. cbn [length] in Hl.
    destruct (Nat.ltb_spec MAX_PENDING_DROPPED_COMMITS (length dropped)) as [Hlt|Hge].
    + rewrite (proj2 (Nat.leb_gt _ _)), (proj2 (Nat.leb_gt _ _)), (proj2 (Nat.ltb_lt _ _)) by lia. done.
    + rewrite (proj2 (Nat.leb_le (length dropped) _)) by lia.
      destruct (Nat.ltb_spec MAX_PENDING_DROPPED_COMMITS (length (dropped ++ [old]))) as [Hlt'|Hge'].
      * by rewrite (proj2 (Nat.leb_gt _ _)) by lia.
      * by rewrite (proj2 (Nat.leb_le _ _)) by lia.
  - apply IH.
Qed.

Lemma fold_rows st rs :
  Forall row_ok rs → foldl range_diff_line st (map strip_cr (map row_text rs)) = foldl row_step st (map row rs).
Proof.
  intros H. revert st. induction H as [|r rs Hr _ IH]; intros st; [done|]. cbn [map foldl]. by rewrite range_diff_row.
Qed.

Lemma row_no_lf r : row_shape r → LF ∉ row_text r.
Proof.
  intros (Ho & (Hl & _) & (Hr & _) & [Hs _] & _). unfold row_text.
  assert (∀ s, Forall (λ c, c = " "%char ∨ c = "-"%char ∨ is_digit c) s → LF ∉ s) as Hn.
  { intros s H Hin. rewrite Forall_forall in H. apply H in Hin as [E|[E|Hd]]; [done..|].
    apply digit_printable in Hd as [_ Hd]. done. }
  assert (∀ sha, is_valid_git_oid sha = true → LF ∉ sha) as Hoid.
  { intros sha [Hh _]%oid_hex Hin. rewrite Forall_forall in Hh. by apply Hh in Hin. }
  assert (LF ∉ dashes) as Hdash by (intros Hin; apply list_elem_of_In, repeat_spec in Hin; done).
  assert (LF ∉ row_head r) as Hhead.
  { unfold row_head, side. destruct (row r) as [changed old new|old|new]; cbn [row_oids] in Ho;
      rewrite ?Forall_cons in Ho; destruct_and!; rewrite !elem_of_app;
      repeat match goal with H : is_valid_git_oid _ = true |- _ => apply Hoid in H end;
      specialize (Hn _ Hl) as Hnl; specialize (Hn _ Hr) as Hnr;
      (assert (∀ s, s ∈ [lit ":  "; lit " ! "; lit " = "; lit " < "; lit " > "] → LF ∉ s) as Hlit
        by (intros s Hin; repeat (apply elem_of_cons in Hin as [-> |Hin]; [vm_compute; set_solver|]); by apply not_elem_of_nil in Hin));
      try destruct changed; intuition; try (by eapply Hlit; [|eassumption]; set_solver). }
  rewrite elem_of_app, elem_of_cons, elem_of_app. destruct (crlf r); [rewrite list_elem_of_singleton|];
    intros [?|[?|[?|Hin]]]; try done. by apply not_elem_of_nil in Hin.
Qed.

(** *** Any output *)

Lemma find_valid fuel s sha rest : find_loop fuel s = Some (sha, rest) → is_valid_git_oid sha = true.
Proof.
  revert s. induction fuel as [|fuel IH]; intros [|c s]; cbn [find_loop]; try done.
  destruct (is_hexdigit c) eqn:Ec; cbn [negb]; [|apply IH].
  destruct (_ || _) eqn:El; [|apply IH]. intros [= <- _]. apply andb_true_iff. split; [exact El|].
  change (forallb is_hexdigit (take_while is_hexdigit (c :: s)) = true).
  apply forallb_forall. intros x Hx. apply list_elem_of_In, elem_of_take_while in Hx. apply Hx.
Qed.

Definition commit_sha (sha : str) : Prop := is_valid_git_oid sha = true ∧ zero_sha sha = false.

(** The state after [n] lines. *)
Record bounded (n : nat) (st : RangeDiffState) : Prop := mkBounded {
  b_count : length (mappings st) + length (pending_dropped st) ≤ n;
  b_queue : length (pending_dropped st) ≤ MAX_PENDING_DROPPED_COMMITS;
  b_mappings : Forall (λ on, commit_sha on.1 ∧ commit_sha on.2) (mappings st);
  b_pending : Forall commit_sha (pending_dropped st);
  b_previous : ∀ new, previous_new_sha st = Some new → commit_sha new
}.

Lemma bounded_weaken n st : bounded n st → bounded (S n) st.
Proof. intros []. split; try done. lia. Qed.

Lemma bounded_line n st line : bounded n st → bounded (S n) (range_diff_line st line).
Proof.
  intros Hb. pose proof (bounded_weaken n st Hb) as Hw. unfold range_diff_line.
  destruct (find_next_sha (trim line)) as [[old rest]|] eqn:Ef; [|done]. apply find_valid in Ef.
  destruct (head _) as [ch|]; [|done]. destruct Hb as [Hc Hq Hm Hp Hv].
  case_match; [|case_match; [|done]].
  - unfold dropped_row. destruct (zero_sha old) eqn:Hz; [done|]. destruct (previous_new_sha st) as [new|] eqn:En.
    + specialize (Hv new eq_refl). split; cbn; [rewrite length_app; cbn; lia|done| |done|by intros ? [= <-]].
      apply Forall_app. split; [done|]. constructor; [by split; [split|]|constructor].
    + destruct (pending_overflowed st); [done|]. case_match eqn:El; (split; cbn; [|..|done]); try done; try lia.
      * rewrite length_app. cbn. lia.
      * by apply Nat.ltb_ge in El.
      * apply Forall_app. split; [done|]. constructor; [by split|constructor].
  - unfold matched_row. destruct (find_next_sha (drop _ _)) as [[new rest']|] eqn:Ef'; [|done]. apply find_valid in Ef'.
    destruct (zero_sha old) eqn:Hz; [done|]. destruct (zero_sha new) eqn:Hz'; [done|]. cbn [orb]. split; cbn.
    + rewrite !length_app, length_map. cbn. lia.
    + lia.
    + rewrite !Forall_app. split_and!; [done| |by constructor; [split; split|constructor]]. apply Forall_map. eapply Forall_impl; [exact Hp|]. done.
    + constructor.
    + by intros ? [= <-].
Qed.

Lemma bounded_lines ls : bounded (length ls) (foldl range_diff_line (mkRange [] [] false None) ls).
Proof.
  induction ls as [|l ls IH] using rev_ind; [split; cbn; try done; lia || constructor|].
  rewrite foldl_app, length_app, Nat.add_1_r. by apply bounded_line.
Qed.

(** *** Merge commits *)

Lemma all_match_spec existing found ops nps :
  all_match existing found ops nps = true ↔
  ∀ i op np, ops !! i = Some op → nps !! i = Some np → (op, np) ∈ existing ∨ (op, np) ∈ found ∨ op = np.
Proof.
  unfold all_match. revert nps. induction ops as [|op ops IH]; intros nps; cbn [combine forallb].
  { split; [|done]. intros _ i op np H. by rewrite lookup_nil in H. }
  destruct nps as [|np nps]; cbn [forallb].
  { split; [|done]. intros _ i op' np _ H. by rewrite lookup_nil in H. }
  rewrite andb_true_iff, IH, !orb_true_iff, !bool_decide_eq_true. unfold str_eqb. cbn [fst snd].
  rewrite bool_decide_eq_true. split.
  - intros [Hh Ht] [|i] op' np'; cbn; [|apply Ht]. intros [= <-] [= <-]. tauto.
  - intros H. split; [specialize (H 0 op np eq_refl eq_refl); tauto|]. intros i. apply (H (S i)).
Qed.

Lemma merge_candidate_spec existing found parents o n :
  default [] (parents !! o) ≠ [] →
  merge_candidate existing found parents (default [] (parents !! o)) n = true ↔
  n ∉ map snd found ∧ corresponds existing found parents o n.
Proof.
  intros Hne. unfold merge_candidate, corresponds. cbv zeta. case_bool_decide as Hin.
  - split; [done|]. by intros [? _].
  - rewrite andb_true_iff, Nat.eqb_eq, all_match_spec. tauto.
Qed.

(** What one old merge adds: its first correspondent that is free. *)
Definition merge_added (existing found : list (str * str)) (with_notes : gset str) (parents : gmap str (list str))
    (new_merges : list str) (o : str) (added : list (str * str)) : Prop :=
  (added = [] ∧ (o ∉ with_notes ∨ ∀ n, n ∈ new_merges → n ∉ map snd found → ¬ corresponds existing found parents o n)) ∨
  ∃ earlier n later, added = [(o, n)] ∧ new_merges = earlier ++ n :: later ∧ o ∈ with_notes ∧
    n ∉ map snd found ∧ corresponds existing found parents o n ∧
    ∀ n', n' ∈ earlier → n' ∉ map snd found → ¬ corresponds existing found parents o n'.

Lemma find_first {A : Type} (p : A → bool) l :
  match List.find p l with
  | Some x => ∃ earlier later, l = earlier ++ x :: later ∧ p x = true ∧ ∀ y, y ∈ earlier → p y = false
  | None => ∀ y, y ∈ l → p y = false
  end.
Proof.
  induction l as [|x l IH]; cbn [List.find]; [by intros y ?%not_elem_of_nil|]. destruct (p x) eqn:E.
  - exists [], l. split_and!; [done..|]. by intros y ?%not_elem_of_nil.
  - destruct (List.find p l) as [y|].
    + destruct IH as (e & l' & -> & Hp & He). exists (x :: e), l'. split_and!; [done..|].
      intros z [->|Hz]%elem_of_cons; [done|by apply He].
    + intros z [->|Hz]%elem_of_cons; [done|by apply IH].
Qed.

Lemma match_merge_spec existing with_notes parents new_merges found o :
  ∃ added, match_merge existing with_notes parents new_merges found o = found ++ added ∧
    merge_added existing found with_notes parents new_merges o added.
Proof.
  unfold match_merge. case_bool_decide as Hn; cbn [negb].
  2:{ exists []. rewrite app_nil_r. split; [done|]. left. auto. }
  case_bool_decide as Hne.
  { exists []. rewrite app_nil_r. split; [done|]. left. split; [done|]. right. intros n _ _ [H _]. done. }
  pose proof (find_first (merge_candidate existing found parents (default [] (parents !! o))) new_merges) as Hf.
  destruct (List.find _ new_merges) as [n|].
  - destruct Hf as (e & l & -> & Hc & He). apply merge_candidate_spec in Hc as [Hfree Hc]; [|done].
    exists [(o, n)]. split; [done|]. right. exists e, n, l. split_and!; [done..|].
    intros n' Hn' Hfree' Hc'. specialize (He n' Hn'). apply not_true_iff_false in He. apply He.
    by apply merge_candidate_spec.
  - exists []. rewrite app_nil_r. split; [done|]. left. split; [done|]. right. intros n Hin Hfree Hc.
    specialize (Hf n Hin). apply not_true_iff_false in Hf. apply Hf. by apply merge_candidate_spec.
Qed.

Lemma match_merges_snoc existing with_notes parents os o new_merges :
  match_merges existing with_notes parents (os ++ [o]) new_merges =
  match_merge existing with_notes parents new_merges (match_merges existing with_notes parents os new_merges) o.
Proof. unfold match_merges. by rewrite foldl_app. Qed.

Lemma match_merges_nodup existing with_notes parents os new_merges :
  NoDup (map snd (match_merges existing with_notes parents os new_merges)).
Proof.
  induction os as [|o os IH] using rev_ind; [constructor|]. rewrite match_merges_snoc.
  destruct (match_merge_spec existing with_notes parents new_merges (match_merges existing with_notes parents os new_merges) o)
    as (added & -> & [[-> _]|(e & n & l & -> & _ & _ & Hf & _)]); rewrite map_app; [by rewrite app_nil_r|].
  apply NoDup_app. split_and!; [done| |apply NoDup_singleton]. cbn. intros x Hx [->|H%not_elem_of_nil]%elem_of_cons; done.
Qed.

End RangeDiffFacts.

(** ** Properties *)

Module RangeDiffProps.
Import PatchParse.PatchText DiffTree RangeDiff RangeDiffText RangeDiffFacts.

(** the rows of a range-diff are read: a matched commit is mapped to its
    counterpart, a dropped one to the match before it, and the ones dropped
    before the first match to that match, unless there are more than 64 of
    them.  The subject of a created commit must not start with one of the
    status characters. *)
Theorem range_diff_rows (rs : list RowText) (rows_ok : Forall row_ok rs) :
  parse_range_diff_output (render_lines (map row_text rs)) = row_mappings (map row rs).
Proof.
  unfold parse_range_diff_output. rewrite PatchParse.PatchParseFacts.lines_render.
  - rewrite fold_rows by done. apply (leading_rows (map row rs) []). apply Forall_map. eapply Forall_impl; [exact rows_ok|].
    intros r [[Ho _] _]. eapply Forall_impl; [exact Ho|]. by intros sha [_ Hz].
  - apply Forall_map. eapply Forall_impl; [exact rows_ok|].
    intros r [Hr _]. by apply row_no_lf.
Qed.

(** C24: whatever git prints, each line gives at most one mapping, between two
    shas that are not the null one, and at no time are more than 64 dropped
    commits queued. *)
Theorem range_diff_bounded (output : str) :
  length (parse_range_diff_output output) ≤ length (lines output) ∧
  Forall (λ on, commit_sha on.1 ∧ commit_sha on.2) (parse_range_diff_output output) ∧
  ∀ read, read `prefix_of` lines output →
    length (pending_dropped (foldl range_diff_line (mkRange [] [] false None) read)) ≤ MAX_PENDING_DROPPED_COMMITS.
Proof.
  destruct (bounded_lines (lines output)) as [Hc _ Hm _ _]. unfold parse_range_diff_output. split_and!; [lia|done|].
  intros read _. by destruct (bounded_lines read).
Qed.

(** a created commit whose subject starts with [<] is taken for a dropped
    one: it is mapped to the match before it. *)
Theorem created_subject_misread (st : RangeDiffState) (r : RowText) (new previous subject_rest : str)
    (shape : row_shape r) (created : row r = Created new) (starts : subject r = "<"%char :: subject_rest)
    (after_match : previous_new_sha st = Some previous) :
  mappings (range_diff_line st (strip_cr (row_text r))) = mappings st ++ [(new, previous)].
Proof.
  destruct (trimmed_row r shape) as (number & Hn & Hnum & E). unfold range_diff_line.
  rewrite E, (created_found r new number) by done. rewrite starts.
  change ("<"%char :: subject_rest) with (["<"%char] ++ subject_rest).
  destruct (created_status ["<"%char] subject_rest) as [-> ->]; [done..|]. eval_str_eqb.
  unfold dropped_row. destruct shape as (Ho & _). rewrite created in Ho. cbn in Ho. apply Forall_cons in Ho as [[_ ->] _].
  by rewrite after_match.
Qed.

(** the merge commits of a rewrite.  No new merge is used twice, and each
    old merge gets, among the new ones that are free, the first whose parents
    correspond to its own through the mappings and the merges matched before;
    it gets none when it has no note or no such merge exists. *)
Theorem merge_commits_matched (existing : list (str * str)) (with_notes : gset str) (parents : gmap str (list str))
    (old_merges new_merges : list str) :
  let matched os := match_merges existing with_notes parents os new_merges in
  NoDup (map snd (matched old_merges)) ∧
  ∀ before o after, old_merges = before ++ o :: after →
    ∃ added rest, matched old_merges = matched before ++ added ++ rest ∧
      merge_added existing (matched before) with_notes parents new_merges o added.
Proof.
  intros matched. split; [apply match_merges_nodup|]. intros before o after ->.
  destruct (match_merge_spec existing with_notes parents new_merges (matched before) o) as (added & E & Hadd).
  exists added. unfold matched in *. change (before ++ o :: after) with (before ++ [o] ++ after). rewrite app_assoc.
  enough (∃ rest, match_merges existing with_notes parents ((before ++ [o]) ++ after) new_merges =
    match_merges existing with_notes parents (before ++ [o]) new_merges ++ rest) as [rest ->].
  { exists rest. split; [|done]. by rewrite match_merges_snoc, E, <-app_assoc. }
  induction after as [|o' after [rest IH]] using rev_ind; [exists []; by rewrite !app_nil_r|].
  rewrite app_assoc, match_merges_snoc.
  destruct (match_merge_spec existing with_notes parents new_merges
    (match_merges existing with_notes parents ((before ++ [o]) ++ after) new_merges) o') as (added' & -> & _).
  exists (rest ++ added'). by rewrite IH, app_assoc.
Qed.

(** *** Witnesses *)

Definition sha (c : ascii) : str := repeat c 40.

Definition sample_rows : list RowText :=
  [mkRow (Dropped (sha "a")) (lit "1") (lit "-") (lit "squashed") false;
   mkRow (Matched true (sha "b") (sha "c")) (lit " 2") (lit "1") (lit "kept") true;
   mkRow (Created (sha "d")) (lit "-") (lit "2") (lit "new: a = b") false;
   mkRow (Dropped (sha "e")) (lit "3") (lit "-") [] false].

Lemma sample_oid c : is_hexdigit c = true → c ≠ "0"%char → is_valid_git_oid (sha c) = true ∧ zero_sha (sha c) = false.
Proof.
  intros Hh Hz. unfold is_valid_git_oid, sha. split.
  - cbn -[is_hexdigit]. by rewrite !Hh.
  - cbn. by rewrite bool_decide_false.
Qed.

Ltac sample_number :=
  split; [|split; [by apply Nat.ltb_lt|done]]; repeat (apply Forall_cons; split); try exact (List.Forall_nil _);
  first [by left|by right; left|right; right; first [by exists 1%Z|by exists 2%Z|by exists 3%Z]].

Ltac sample_line := split; [PatchParse.PatchParseProps.decide_lf|reflexivity].

Ltac sample_row :=
  split; [split_and!; [repeat (apply Forall_cons; split); try exact (List.Forall_nil _); by apply sample_oid|
                       sample_number|sample_number|sample_line|by repeat constructor]|].

Lemma range_diff_rows_witness :
  parse_range_diff_output (render_lines (map row_text sample_rows)) =
  [(sha "a", sha "c"); (sha "b", sha "c"); (sha "e", sha "c")].
Proof.
  rewrite (range_diff_rows sample_rows); [reflexivity|]. repeat (apply Forall_cons; split); [..|by apply Forall_nil].
  - sample_row. done.
  - sample_row. done.
  - sample_row. right. exists (lit "n"), (lit "ew: a = b"). split_and!; [done..|]. vm_compute. set_solver.
  - sample_row. done.
Defined.

Lemma created_subject_misread_witness :
  mappings (range_diff_line (mkRange [(sha "b", sha "c")] [] false (Some (sha "c")))
    (strip_cr (row_text (mkRow (Created (sha "d")) (lit "-") (lit "2") (lit "<ui> new button") false)))) =
  [(sha "b", sha "c"); (sha "d", sha "c")].
Proof.
  apply (created_subject_misread (mkRange [(sha "b", sha "c")] [] false (Some (sha "c")))
    (mkRow (Created (sha "d")) (lit "-") (lit "2") (lit "<ui> new button") false) (sha "d") (sha "c") (lit "ui> new button"));
    [|reflexivity..].
  split_and!; [repeat (apply Forall_cons; split); try exact (List.Forall_nil _); by apply sample_oid|
                       sample_number|sample_number|sample_line|by repeat constructor].
Defined.

End RangeDiffProps.
