(* ===== verification/Rewrite.v ===== *)
(** * Shifting notes after a rewrite

    src/src/authorship/rewrite.rs: after a rebase, an amend or a cherry-pick
    the note of each source commit is moved to the commit that replaced it,
    through the diff between the two trees.  The diffs of all pairs come from
    one git process, whose output is consumed in chunks.  Git and the notes
    are a record of their answers. *)

From S2P Require Import Prelude Text LineRange AuthorshipLog NoteFormat ConflictResolution HunkShift DiffCompute HashIter DiffTree.

Local Open Scope Z_scope.

Module Rewrite.
Import LineRange AuthorshipLog HunkShift HashIter.
Import DiffCompute(result).
Import DiffTree(DiffTreeResult, hunks_by_file, renames, BatchedDiffTreeParser, new_parser, batched_feed_line,
  completed_count, take_completed, take_all, batched_finish).

(** What git and the notes answer: notes are text by commit; a command gives
    its output, as text or line by line. *)
Record Git := mkGit {
  read_notes_batch : list str → result (gmap str str);
  write_notes_batch : list (str * str) → result unit;
  rev_parse : list str → result str;
  diff_tree_stdin : str → result (list str)
}.

(** ** Trees *)

Definition INITIAL : str := lit "initial".
Definition EMPTY_TREE_SHA : str := lit "4b825dc642cb6eb9a060e54bf8d69288fbee4904".

Definition tree_revision_arg (sha : str) : option str :=
  if str_eqb sha INITIAL then None else Some (sha ++ lit "^{tree}").

(** The map with the tree, when it is known without asking git. *)
Definition insert_known_tree (sha_to_tree : gmap str str) (sha : str) : option (gmap str str) :=
  if str_eqb sha INITIAL then Some (<[sha := EMPTY_TREE_SHA]> sha_to_tree) else None.

Definition push_unique (shas : list str) (sha : str) : list str :=
  if bool_decide (sha ∈ shas) then shas else shas ++ [sha].

Definition unique_pair_shas (pairs : list (str * str)) : list str :=
  foldl (λ shas '(src, dst), push_unique (push_unique shas src) dst) [] pairs.

Definition known_trees (unique_shas : list str) : gmap str str * list str :=
  foldl (λ '(m, to_resolve) sha,
           match insert_known_tree m sha with
           | Some m' => (m', to_resolve)
           | None => (m, to_resolve ++ [sha])
           end) (∅, []) unique_shas.

Definition resolve_tree_shas (git : Git) (unique_shas : list str) : result (gmap str str) :=
  let '(sha_to_tree, shas_to_resolve) := known_trees unique_shas in
  if bool_decide (shas_to_resolve = []) then Ret sha_to_tree
  else
    let? rev_stdout := rev_parse git (omap tree_revision_arg shas_to_resolve) in
    let tree_shas := lines rev_stdout in
    if negb (length tree_shas =? length shas_to_resolve)%nat then
      Fail (lit "rev-parse returned " ++ show_u32 (Z.of_nat (length tree_shas)) ++ lit " trees for " ++
            show_u32 (Z.of_nat (length shas_to_resolve)) ++ lit " commits")
    else Ret (foldl (λ m '(commit, tree), <[commit := tree]> m) sha_to_tree (combine shas_to_resolve tree_shas)).

Definition tree_for_commit (sha_to_tree : gmap str str) (sha : str) : result str :=
  match sha_to_tree !! sha with
  | Some tree => Ret tree
  | None => Fail (lit "missing tree for commit " ++ sha)
  end.

Fixpoint build_diff_tree_stdin (pairs : list (str * str)) (sha_to_tree : gmap str str) : result str :=
  match pairs with
  | [] => Ret []
  | (src, dst) :: pairs' =>
      let? src_tree := tree_for_commit sha_to_tree src in
      let? dst_tree := tree_for_commit sha_to_tree dst in
      let? rest := build_diff_tree_stdin pairs' sha_to_tree in
      Ret (src_tree ++ [" "%char] ++ dst_tree ++ [LF] ++ rest)
  end.

Definition compute_diff_tree_stdin (git : Git) (stdin_data : str) (pair_count : nat) : result (list DiffTreeResult) :=
  let? output := diff_tree_stdin git stdin_data in
  Ret (batched_finish (foldl batched_feed_line (new_parser pair_count) output)).

Definition compute_diff_trees_batch (git : Git) (pairs : list (str * str)) : result (list DiffTreeResult) :=
  if bool_decide (pairs = []) then Ret []
  else
    let unique_shas := unique_pair_shas pairs in
    let? sha_to_tree := resolve_tree_shas git unique_shas in
    let? stdin_data := build_diff_tree_stdin pairs sha_to_tree in
    compute_diff_tree_stdin git stdin_data (length pairs).

(** ** Moving and merging logs *)

Definition rename_attestations (old_path new_path : str) (fs : list FileAttestation) : list FileAttestation :=
  map (λ f, if str_eqb (file_path f) old_path then mkFile new_path (entries f) else f) fs.

Definition apply_renames (diff : DiffTreeResult) (fs : list FileAttestation) : list FileAttestation :=
  foldl (λ fs '(old_path, new_path), rename_attestations old_path new_path fs) fs (renames diff).

Definition apply_hunks (diff : DiffTreeResult) (fs : list FileAttestation) : list FileAttestation :=
  if bool_decide (hunks_by_file diff = ∅) then fs
  else omap (λ f, match hunks_by_file diff !! file_path f with
                  | Some hunks => apply_hunk_shifts_to_file_attestation f hunks
                  | None => Some f
                  end) fs.

(** The renames, then the hunks, of one diff. *)
Definition shift_attestations (diff : DiffTreeResult) (fs : list FileAttestation) : list FileAttestation :=
  apply_hunks diff (apply_renames diff fs).

Definition add_range (ranges : list LineRange) (range : LineRange) : list LineRange :=
  if bool_decide (range ∈ ranges) then ranges else ranges ++ [range].

Fixpoint add_entry_ranges (es : list AttestationEntry) (src_entry : AttestationEntry) : list AttestationEntry :=
  match es with
  | [] => [src_entry]
  | e :: es' =>
      if str_eqb (hash e) (hash src_entry)
      then mkEntry (hash e) (foldl add_range (line_ranges e) (line_ranges src_entry)) :: es'
      else e :: add_entry_ranges es' src_entry
  end.

Fixpoint add_file_entries (fs : list FileAttestation) (src_fa : FileAttestation) : list FileAttestation :=
  match fs with
  | [] => [src_fa]
  | f :: fs' =>
      if str_eqb (file_path f) (file_path src_fa)
      then mkFile (file_path f) (foldl add_entry_ranges (entries f) (entries src_fa)) :: fs'
      else f :: add_file_entries fs' src_fa
  end.

Definition merge_authorship_logs (target source : AuthorshipLog) : AuthorshipLog :=
  let t := metadata target in
  let s := metadata source in
  mkLog (foldl add_file_entries (attestations target) (attestations source))
    (mkMetadata (schema_version t) (git_ai_version t) (base_commit_sha t)
       (prompts t ∪ prompts s) (humans t ∪ humans s)
       (union_with (λ existing record, Some (merge_from existing record)) (sessions t) (sessions s))).

(** A source log that waits for its diff. *)
Record PendingShift := mkPending { new_sha : str; log : AuthorshipLog }.

Definition shifted_log (diff : DiffTreeResult) (shift : PendingShift) : AuthorshipLog :=
  mkLog (shift_attestations diff (attestations (log shift)))
    (ConflictResolution.set_base_commit (metadata (log shift)) (new_sha shift)).

Definition apply_shift (merged_by_target : gmap str AuthorshipLog) (diff : DiffTreeResult) (shift : PendingShift) :
    gmap str AuthorshipLog :=
  let log := shifted_log diff shift in
  match merged_by_target !! new_sha shift with
  | Some existing => <[new_sha shift := merge_authorship_logs existing log]> merged_by_target
  | None => <[new_sha shift := log]> merged_by_target
  end.

(** The results with the shifts that wait for them; the shifts left. *)
Fixpoint apply_chunk_shifts (merged_by_target : gmap str AuthorshipLog) (chunk : list DiffTreeResult)
    (pending : list PendingShift) : gmap str AuthorshipLog * list PendingShift :=
  match chunk, pending with
  | diff :: chunk', shift :: pending' => apply_chunk_shifts (apply_shift merged_by_target diff shift) chunk' pending'
  | _, _ => (merged_by_target, pending)
  end.

(** ** Streaming *)

Definition DIFF_TREE_STREAM_CHUNK_SIZE : nat := 50.

Record Stream := mkStream {
  parser : BatchedDiffTreeParser;
  merged : gmap str AuthorshipLog;
  waiting : list PendingShift
}.

(** The callback of the stream, on one line. *)
Definition stream_line (st : Stream) (line : str) : Stream :=
  let p := batched_feed_line (parser st) line in
  if (DIFF_TREE_STREAM_CHUNK_SIZE <=? completed_count p)%nat then
    let '(chunk, p') := take_completed p in
    let '(m, w) := apply_chunk_shifts (merged st) chunk (waiting st) in
    mkStream p' m w
  else mkStream p (merged st) (waiting st).

Definition drain (st : Stream) : gmap str AuthorshipLog :=
  let '(final_chunk, _) := take_all (parser st) in
  (apply_chunk_shifts (merged st) final_chunk (waiting st)).1.

Definition stream_shifts (existing : gmap str AuthorshipLog) (pending : list PendingShift) (output : list str)
    (expected : nat) : gmap str AuthorshipLog :=
  drain (foldl stream_line (mkStream (new_parser expected) existing pending) output).

(** ** The notes of a list of mappings *)

Section Notes.
Context `{order : HashOrder}.
Variable to_string_pretty : AuthorshipMetadata → option str.
Variable from_str : str → option AuthorshipMetadata.

Local Abbreviation read_note := (NoteFormat.deserialize_from_string from_str).
Local Abbreviation write_note := (NoteFormat.serialize_to_string to_string_pretty).

(** What the loop over the mappings collects. *)
Record Collected := mkCollected {
  pending : list PendingShift;
  verbatim_writes : list (str * str);
  diff_pairs : list (str * str);
  existing_by_target : gmap str AuthorshipLog
}.

(** The source half of the loop's body. *)
Definition collect_source (merge_existing_targets : bool) (notes_map : gmap str str) (c : Collected)
    (source_sha target_sha : str) : result Collected :=
  match notes_map !! source_sha with
  | None => Ret c
  | Some raw_note =>
      match read_note raw_note with
      | Panic => Panic
      | Fail _ =>
          Ret (if merge_existing_targets then c
               else mkCollected (pending c) (verbatim_writes c ++ [(target_sha, raw_note)]) (diff_pairs c) (existing_by_target c))
      | Ret log =>
          Ret (mkCollected (pending c ++ [mkPending target_sha log]) (verbatim_writes c)
                 (diff_pairs c ++ [(source_sha, target_sha)]) (existing_by_target c))
      end
  end.

Definition collect_mapping (merge_existing_targets : bool) (notes_map : gmap str str) (c : Collected)
    (mapping : str * str) : result Collected :=
  let '(source_sha, target_sha) := mapping in
  match notes_map !! target_sha with
  | None => collect_source merge_existing_targets notes_map c source_sha target_sha
  | Some existing_raw =>
      match read_note existing_raw with
      | Panic => Panic
      | Fail _ => Ret c
      | Ret existing_log =>
          if bool_decide (attestations existing_log = []) then
            collect_source merge_existing_targets notes_map c source_sha target_sha
          else if merge_existing_targets then
            let existing := match existing_by_target c !! target_sha with
                            | Some _ => existing_by_target c
                            | None => <[target_sha := existing_log]> (existing_by_target c)
                            end in
            collect_source merge_existing_targets notes_map
              (mkCollected (pending c) (verbatim_writes c) (diff_pairs c) existing) source_sha target_sha
          else Ret c
      end
  end.

Fixpoint collect_mappings (merge_existing_targets : bool) (notes_map : gmap str str) (c : Collected)
    (mappings : list (str * str)) : result Collected :=
  match mappings with
  | [] => Ret c
  | mapping :: mappings' =>
      let? c' := collect_mapping merge_existing_targets notes_map c mapping in
      collect_mappings merge_existing_targets notes_map c' mappings'
  end.

Fixpoint serialize_logs (logs : list (str * AuthorshipLog)) : result (list (str * str)) :=
  match logs with
  | [] => Ret []
  | (sha, log) :: logs' =>
      match write_note log with
      | None => Fail (lit "failed to serialize shifted authorship log")
      | Some serialized => let? rest := serialize_logs logs' in Ret ((sha, serialized) :: rest)
      end
  end.

(** The diffs of the pairs, applied as they come. *)
Definition stream_diffs (git : Git) (c : Collected) : result (gmap str AuthorshipLog) :=
  if bool_decide (diff_pairs c = []) then Ret (existing_by_target c)
  else
    let? sha_to_tree := resolve_tree_shas git (unique_pair_shas (diff_pairs c)) in
    let? stdin_data := build_diff_tree_stdin (diff_pairs c) sha_to_tree in
    let? output := diff_tree_stdin git stdin_data in
    Ret (stream_shifts (existing_by_target c) (pending c) output (length (diff_pairs c))).

Definition shift_authorship_notes_with_existing_mode (git : Git) (mappings : list (str * str))
    (merge_existing_targets : bool) : result (list (str * str)) :=
  if bool_decide (mappings = []) then Ret []
  else
    let all_shas := flat_map (λ '(src, dst), [src; dst]) mappings in
    let? notes_map := read_notes_batch git all_shas in
    let? c := collect_mappings merge_existing_targets notes_map (mkCollected [] [] [] ∅) mappings in
    if bool_decide (pending c = []) && bool_decide (verbatim_writes c = []) then Ret []
    else
      let? merged_by_target := stream_diffs git c in
      let? serialized := serialize_logs (hash_iter merged_by_target) in
      let all_writes := verbatim_writes c ++ serialized in
      let? _ := write_notes_batch git all_writes in
      Ret all_writes.

Definition shift_authorship_notes (git : Git) (mappings : list (str * str)) : result unit :=
  let? _ := shift_authorship_notes_with_existing_mode git mappings false in Ret tt.

Definition shift_authorship_notes_merging_existing (git : Git) (mappings : list (str * str)) : result unit :=
  let? _ := shift_authorship_notes_with_existing_mode git mappings true in Ret tt.

Definition shift_authorship_notes_merging_existing_with_notes (git : Git) (mappings : list (str * str)) :
    result (list (str * str)) :=
  shift_authorship_notes_with_existing_mode git mappings true.

End Notes.

End Rewrite.

(** ** Lemmas *)

Module RewriteFacts.
Import LineRange LineRangeFacts AuthorshipLog HunkShift HunkShiftFacts HashIter HashIterFacts.
Import ConflictResolutionFacts.
Import DiffTree DiffTreeText DiffTreeFacts Rewrite.

(** *** Coverage of merged logs *)

Lemma add_ranges_contain rs rs' l :
  contains_any (foldl add_range rs rs') l = contains_any rs l || contains_any rs' l.
Proof.
  revert rs. induction rs' as [|r rs' IH]; intros rs; cbn [foldl]; [by rewrite orb_false_r|].
  rewrite IH. change (r :: rs') with ([r] ++ rs'). rewrite contains_any_app. unfold add_range.
  case_bool_decide as Hr; [|by rewrite contains_any_app, orb_assoc].
  destruct (contains_any [r] l) eqn:E; [|done]. assert (contains_any rs l = true) as ->; [|done].
  apply contains_any_true in E as (r' & Hr' & Hl). apply list_elem_of_singleton in Hr' as ->.
  apply contains_any_true. by exists r.
Qed.

Lemma add_entry_cover es src h l :
  entries_cover (add_entry_ranges es src) h l ↔
  entries_cover es h l ∨ (hash src = h ∧ contains_any (line_ranges src) l = true).
Proof.
  induction es as [|e es IH]; cbn [add_entry_ranges].
  - rewrite entries_cover_cons. pose proof (entries_cover_nil h l). tauto.
  - destruct (str_eqb (hash e) (hash src)) eqn:E; rewrite !entries_cover_cons; [|rewrite IH; tauto].
    apply str_eqb_eq in E. cbn [hash line_ranges]. rewrite add_ranges_contain, orb_true_iff, E. tauto.
Qed.

Lemma add_entries_cover es srcs h l :
  entries_cover (foldl add_entry_ranges es srcs) h l ↔ entries_cover es h l ∨ entries_cover srcs h l.
Proof.
  revert es. induction srcs as [|src srcs IH]; intros es; cbn [foldl].
  - pose proof (entries_cover_nil h l). tauto.
  - rewrite IH, add_entry_cover, entries_cover_cons. tauto.
Qed.

Lemma files_cover_cons f fs file h l :
  files_cover (f :: fs) file h l ↔ (file_path f = file ∧ entries_cover (entries f) h l) ∨ files_cover fs file h l.
Proof. unfold files_cover. setoid_rewrite elem_of_cons. naive_solver. Qed.

Lemma files_cover_nil file h l : ¬ files_cover [] file h l.
Proof. by intros (f & Hf%not_elem_of_nil & _). Qed.

Lemma add_file_cover fs src file h l :
  files_cover (add_file_entries fs src) file h l ↔
  files_cover fs file h l ∨ (file_path src = file ∧ entries_cover (entries src) h l).
Proof.
  induction fs as [|f fs IH]; cbn [add_file_entries].
  - rewrite files_cover_cons. pose proof (files_cover_nil file h l). tauto.
  - destruct (str_eqb (file_path f) (file_path src)) eqn:E; rewrite !files_cover_cons; [|rewrite IH; tauto].
    apply str_eqb_eq in E. cbn [file_path entries]. rewrite add_entries_cover, E. tauto.
Qed.

Lemma merge_logs_cover target source file h l :
  covers (merge_authorship_logs target source) file h l ↔ covers target file h l ∨ covers source file h l.
Proof.
  unfold covers, merge_authorship_logs. cbn [attestations]. generalize (attestations target) as fs.
  induction (attestations source) as [|f srcs IH]; intros fs; cbn [foldl].
  - pose proof (files_cover_nil file h l). tauto.
  - rewrite IH, add_file_cover, files_cover_cons. tauto.
Qed.

(** *** What a shift does to a log *)

Definition renamed_path (rs : list (str * str)) (path : str) : str :=
  foldl (λ p '(old_path, new_path), if str_eqb p old_path then new_path else p) path rs.

Lemma apply_renames_cover diff fs file h l :
  files_cover (apply_renames diff fs) file h l ↔
  ∃ f0, renamed_path (renames diff) f0 = file ∧ files_cover fs f0 h l.
Proof.
  unfold apply_renames. generalize (renames diff) as rs. intros rs. revert fs.
  induction rs as [|[a b] rs IH]; intros fs; cbn [foldl renamed_path]; [naive_solver|].
  rewrite IH. assert (∀ p, files_cover (rename_attestations a b fs) p h l ↔
    ∃ f0, (if str_eqb f0 a then b else f0) = p ∧ files_cover fs f0 h l) as Hr.
  { intros p. unfold files_cover, rename_attestations. setoid_rewrite list_elem_of_fmap. split.
    - intros (f' & (f & -> & Hf) & Hp & Hc). exists (file_path f). destruct (str_eqb (file_path f) a); cbn in *; naive_solver.
    - intros (f0 & Hp & f & Hf & <- & Hc). eexists. split; [by exists f|]. by destruct (str_eqb (file_path f) a). }
  setoid_rewrite Hr. naive_solver.
Qed.

(** The hunks of a file, none when there are none. *)
Definition file_hunks (diff : DiffTreeResult) (path : str) : list HunkShift.DiffHunk :=
  default [] (hunks_by_file diff !! path).

(** The diff is ordered, and the lines of the files fit it. *)
Definition diff_fits (diff : DiffTreeResult) (fs : list FileAttestation) : Prop :=
  (∀ path, hunks_ok 1 (file_hunks diff path)) ∧
  Forall (λ f, entries_fit (file_hunks diff (file_path f)) (entries f)) (apply_renames diff fs).

Lemma apply_hunks_cover diff fs file h n :
  (∀ path, hunks_ok 1 (file_hunks diff path)) →
  Forall (λ f, entries_fit (file_hunks diff (file_path f)) (entries f)) fs →
  files_cover (apply_hunks diff fs) file h n ↔
  ∃ o, files_cover fs file h o ∧ line_after 0 (file_hunks diff file) o = Some n.
Proof.
  intros Hok Hfit. unfold apply_hunks. case_bool_decide as Hm.
  { unfold file_hunks. rewrite Hm, lookup_empty. cbn. setoid_rewrite Z.add_0_r. naive_solver. }
  induction Hfit as [|f fs Hf _ IH]; cbn [omap list_omap].
  { pose proof (files_cover_nil file h). naive_solver. }
  setoid_rewrite files_cover_cons.
  assert (∀ f', file_path f' = file_path f → (entries_cover (entries f') h n ↔
    ∃ o, entries_cover (entries f) h o ∧ line_after 0 (file_hunks diff (file_path f)) o = Some n) →
    (file_path f' = file ∧ entries_cover (entries f') h n ↔
     ∃ o, (file_path f = file ∧ entries_cover (entries f) h o) ∧ line_after 0 (file_hunks diff file) o = Some n)) as Hone.
  { intros f' -> ->. split; [intros (<- & o & ? & ?); eauto|intros (o & (<- & ?) & ?); eauto]. }
  unfold file_hunks in Hf, Hone. unfold file_hunks in IH |- *.
  specialize (Hok (file_path f)). unfold file_hunks in Hok.
  destruct (hunks_by_file diff !! file_path f) as [hunks|] eqn:E; cbn [default from_option] in *.
  - pose proof (λ n, shift_entries_cover hunks (entries f) h n Hok Hf) as Hs.
    unfold apply_hunk_shifts_to_file_attestation.
    destruct (apply_hunk_shifts_to_attestation_entries (entries f) hunks) as [|e es] eqn:Ee.
    + rewrite IH. split; [naive_solver|]. intros (o & [[<- Hc]|Hc] & Hl); [|eauto]. exfalso.
      rewrite E in Hl. cbn in Hl. apply (entries_cover_nil h n). apply Hs. eauto.
    + rewrite files_cover_cons, IH. rewrite (Hone (mkFile (file_path f) (e :: es))) by done. naive_solver.
  - rewrite files_cover_cons, IH, (Hone f) by (done || (cbn; setoid_rewrite Z.add_0_r; naive_solver)). naive_solver.
Qed.

Lemma shift_attestations_cover diff fs file h n :
  diff_fits diff fs →
  files_cover (shift_attestations diff fs) file h n ↔
  ∃ f0 o, files_cover fs f0 h o ∧ renamed_path (renames diff) f0 = file ∧
    line_after 0 (file_hunks diff file) o = Some n.
Proof.
  intros [Hok Hfit]. unfold shift_attestations. rewrite apply_hunks_cover by done.
  setoid_rewrite apply_renames_cover. naive_solver.
Qed.

(** *** Chunks *)

Lemma apply_chunk_app m a b w :
  apply_chunk_shifts m (a ++ b) w =
  apply_chunk_shifts (apply_chunk_shifts m a w).1 b (apply_chunk_shifts m a w).2.
Proof.
  revert m w. induction a as [|d a IH]; intros m w; [done|]. destruct w as [|s w]; [|apply IH]. cbn. by destruct b.
Qed.

(** A stream and the parser that was never drained of the results [drained]. *)
Definition tracks (existing : gmap str AuthorshipLog) (shifts : list PendingShift) (q : BatchedDiffTreeParser) (st : Stream) : Prop :=
  ∃ drained, results q = drained ++ results (parser st) ∧
    expected_pairs (parser st) = (expected_pairs q - length drained)%nat ∧
    current q = current (parser st) ∧ seen_first_header q = seen_first_header (parser st) ∧
    (merged st, waiting st) = apply_chunk_shifts existing drained shifts.

Lemma tracks_line existing shifts q st line :
  tracks existing shifts q st → tracks existing shifts (batched_feed_line q line) (stream_line st line).
Proof.
  intros (d & Hr & He & Hc & Hs & Hm).
  assert (∃ p, p = batched_feed_line (parser st) line ∧
    results (batched_feed_line q line) = d ++ results p ∧
    expected_pairs p = (expected_pairs (batched_feed_line q line) - length d)%nat ∧
    current (batched_feed_line q line) = current p ∧
    seen_first_header (batched_feed_line q line) = seen_first_header p) as (p & Hp & Hr' & He' & Hc' & Hs').
  { eexists. split; [done|]. unfold batched_feed_line. rewrite Hs, Hr, Hc.
    destruct (is_tree_pair_separator line), (seen_first_header (parser st)) eqn:Ep; cbn;
      split_and!; rewrite ?app_assoc; congruence. }
  unfold stream_line. rewrite <-Hp. case_match.
  - unfold take_completed. destruct (apply_chunk_shifts (merged st) (results p) (waiting st)) as [m w] eqn:E.
    exists (d ++ results p). cbn. rewrite app_nil_r, length_app. split_and!; [done|lia|done..|].
    rewrite apply_chunk_app, <-Hm. cbn. by rewrite E.
  - exists d. by split_and!.
Qed.

Lemma tracks_drain existing shifts q st :
  tracks existing shifts q st → drain st = (apply_chunk_shifts existing (batched_finish q) shifts).1.
Proof.
  intros (d & Hr & He & Hc & Hs & Hm). unfold drain, batched_finish, take_all. rewrite Hs.
  destruct (seen_first_header (parser st)); cbn [fst results expected_pairs];
    rewrite Hr, He, <-!app_assoc, !apply_chunk_app, !length_app, <-Hm; cbn [fst snd].
  - rewrite <-Hc. do 3 f_equal. lia.
  - do 3 f_equal. lia.
Qed.

Lemma stream_is_batch existing shifts output expected :
  stream_shifts existing shifts output expected =
  (apply_chunk_shifts existing (batched_finish (foldl batched_feed_line (new_parser expected) output)) shifts).1.
Proof.
  unfold stream_shifts. apply tracks_drain.
  assert (tracks existing shifts (new_parser expected) (mkStream (new_parser expected) existing shifts)) as H.
  { exists []. cbn. split_and!; [done|lia|done..]. }
  revert H. generalize (new_parser expected) at 1 3 as q. generalize (mkStream (new_parser expected) existing shifts) as st.
  induction output as [|line output IH]; intros st q H; [done|]. cbn [foldl]. apply IH. by apply tracks_line.
Qed.

Lemma stream_bounded st output :
  (completed_count (parser st) < DIFF_TREE_STREAM_CHUNK_SIZE)%nat →
  (completed_count (parser (foldl stream_line st output)) < DIFF_TREE_STREAM_CHUNK_SIZE)%nat.
Proof.
  revert st. induction output as [|line output IH]; intros st H; [done|]. cbn [foldl]. apply IH. unfold stream_line.
  case_match eqn:E.
  - unfold take_completed. destruct (apply_chunk_shifts _ _ _). cbn. unfold DIFF_TREE_STREAM_CHUNK_SIZE. lia.
  - apply Nat.leb_gt in E. exact E.
Qed.

(** *** The map of targets *)

(** What is known of each target: the existing log and the shifts. *)
Definition into (shifts : list (DiffTreeResult * PendingShift)) (sha : str) : list AuthorshipLog :=
  omap (λ ds, if str_eqb (new_sha ds.2) sha then Some (shifted_log ds.1 ds.2) else None) shifts.

Lemma apply_chunk_lookup m diffs shifts sha :
  length diffs = length shifts →
  (apply_chunk_shifts m diffs shifts).1 !! sha =
  match option_list (m !! sha) ++ into (combine diffs shifts) sha with
  | [] => None
  | log :: logs => Some (foldl merge_authorship_logs log logs)
  end.
Proof.
  revert m diffs. induction shifts as [|s shifts IH]; intros m [|d diffs] Hl; try done; cbn [apply_chunk_shifts combine into omap list_omap].
  { cbn. by destruct (m !! sha). }
  rewrite IH by (cbn in Hl; lia). cbn [fst snd]. unfold apply_shift. destruct (str_eqb (new_sha s) sha) eqn:E.
  - apply str_eqb_eq in E. subst sha. destruct (m !! new_sha s) as [existing|]; rewrite lookup_insert_eq; done.
  - assert (new_sha s ≠ sha) as Hne by (intros <-; by rewrite str_eqb_refl in E).
    destruct (m !! new_sha s); by rewrite lookup_insert_ne.
Qed.

Lemma foldl_merge_cover log logs file h n :
  covers (foldl merge_authorship_logs log logs) file h n ↔ covers log file h n ∨ ∃ l, l ∈ logs ∧ covers l file h n.
Proof.
  revert log. induction logs as [|l logs IH]; intros log; cbn [foldl].
  - split; [by left|]. intros [?|(l & Hl%not_elem_of_nil & _)]; done.
  - rewrite IH, merge_logs_cover. setoid_rewrite elem_of_cons. naive_solver.
Qed.

End RewriteFacts.
