(* ===== verification/RewriteProps.v ===== *)
(** * The notes a rewrite leaves

    What shifting the notes of a list of mappings writes, for a git that
    answers: the reference, the lemmas on the phases of
    [shift_authorship_notes_with_existing_mode], and the properties. *)

From S2P Require Import Prelude Text LineRange AuthorshipLog NoteFormat ConflictResolution HunkShift DiffCompute HashIter PatchParse DiffTree Rewrite.

Local Open Scope Z_scope.

(** ** Reference *)

Module RewriteSpec.
Import LineRange AuthorshipLog HunkShift HashIter PatchText.
Import DiffTree(DiffTreeResult, is_valid_git_oid, renames).
Import DiffTreeText Rewrite RewriteFacts.

(** Git answers: the notes of commits, the trees of commits, and the patches
    between trees. *)
Record answers (git : Git) (notes : gmap str str) (tree : str → str) (patch : str → str → list TreeFile) : Prop := {
  reads_notes : ∀ shas, ∃ m, read_notes_batch git shas = Ret m ∧ ∀ sha, sha ∈ shas → m !! sha = notes !! sha;
  writes_notes : ∀ writes, write_notes_batch git writes = Ret tt;
  resolves_trees : ∀ shas, Forall (λ sha, sha ≠ INITIAL) shas →
    rev_parse git (map (λ sha, sha ++ lit "^{tree}") shas) = Ret (render_lines (map tree shas));
  trees_valid : ∀ sha, is_valid_git_oid (tree sha) = true;
  diffs_pairs : ∀ pairs : list (str * str),
    Forall (λ ab, is_valid_git_oid ab.1 = true ∧ is_valid_git_oid ab.2 = true) pairs →
    diff_tree_stdin git (render_lines (map (λ ab, ab.1 ++ [" "%char] ++ ab.2) pairs)) =
    Ret (map strip_cr (flat_map pair_lines (map (λ ab, mkTreePair ab.1 ab.2 (patch ab.1 ab.2)) pairs)));
  patches_valid : ∀ a b, Forall tree_file_ok (patch a b)
}.

(** A git that answers so: the revisions it parses end in [^{tree}]. *)
Definition answering_git (notes : gmap str str) (tree : str → str) (patch : str → str → list TreeFile) : Git := {|
  read_notes_batch := λ _, Ret notes;
  write_notes_batch := λ _, Ret tt;
  rev_parse := λ args, Ret (render_lines (map (λ arg, tree (take (length arg - 7) arg)) args));
  diff_tree_stdin := λ stdin, Ret (flat_map (λ l,
    match split_once (lit " ") l with
    | Some (a, b) => map strip_cr (pair_lines (mkTreePair a b (patch a b)))
    | None => []
    end) (lines stdin))
|}.

Definition commit_tree (tree : str → str) (sha : str) : str := if str_eqb sha INITIAL then EMPTY_TREE_SHA else tree sha.

Section Reference.
Variable from_str : str → option AuthorshipMetadata.
Variables (notes : gmap str str) (tree : str → str) (patch : str → str → list TreeFile).
Variable merge_existing_targets : bool.

Local Abbreviation read_note := (NoteFormat.deserialize_from_string from_str).

Definition note_log (sha : str) : option AuthorshipLog :=
  match notes !! sha with
  | Some raw => match read_note raw with Ret log => Some log | _ => None end
  | None => None
  end.

(** There is a note, and it cannot be read. *)
Definition unreadable (sha : str) : bool :=
  match notes !! sha with
  | Some raw => match read_note raw with Ret _ => false | _ => true end
  | None => false
  end.

(** The log a target already has, when it attests anything. *)
Definition target_log (sha : str) : option AuthorshipLog :=
  match note_log sha with
  | Some log => if bool_decide (attestations log = []) then None else Some log
  | None => None
  end.

(** A target whose note cannot be read is left alone; so is, when existing
    notes are not merged, one that has attestations. *)
Definition skipped (target : str) : bool :=
  unreadable target || (negb merge_existing_targets && bool_decide (is_Some (target_log target))).

Definition source_log (mapping : str * str) : option AuthorshipLog :=
  if skipped mapping.2 then None else note_log mapping.1.

(** Unreadable notes are copied, unless existing notes are merged. *)
Definition copied_note (mapping : str * str) : option (str * str) :=
  if skipped mapping.2 || merge_existing_targets || negb (unreadable mapping.1) then None
  else (λ raw, (mapping.2, raw)) <$> notes !! mapping.1.

Definition kept_log (target : str) : option AuthorshipLog :=
  if merge_existing_targets then target_log target else None.

Definition tree_patch (mapping : str * str) : list TreeFile :=
  patch (commit_tree tree mapping.1) (commit_tree tree mapping.2).

(** Where a line of a file of the source is in the target. *)
Definition moves_line (mapping : str * str) (source_file : str) (source_line : Z) (file : str) (line : Z) : Prop :=
  renamed_path (omap tf_rename (tree_patch mapping)) source_file = file ∧
  line_after 0 (map hp_range (hunks_of (tree_patch mapping) file)) source_line = Some line.

(** The patch is ordered and the lines of the log are inside it. *)
Definition patch_fits (mapping : str * str) (log : AuthorshipLog) : Prop :=
  (∀ path, hunks_ok 1 (map hp_range (hunks_of (tree_patch mapping) path))) ∧
  Forall (λ f, entries_fit
    (map hp_range (hunks_of (tree_patch mapping) (renamed_path (omap tf_rename (tree_patch mapping)) (file_path f))))
    (entries f)) (attestations log).
End Reference.

Inductive RecordKind := Prompt | Human | Session.

(** A log has a record of a kind for a key. *)
Definition knows (kind : RecordKind) (log : AuthorshipLog) (k : str) : Prop :=
  match kind with
  | Prompt => is_Some (prompts (metadata log) !! k)
  | Human => is_Some (humans (metadata log) !! k)
  | Session => is_Some (sessions (metadata log) !! k)
  end.

End RewriteSpec.

(** ** Lemmas *)

Module RewriteSteps.
Import LineRange AuthorshipLog HunkShift HashIter HashIterFacts PatchText PatchParseFacts.
Import DiffTree(DiffTreeResult, is_valid_git_oid, renames, hunks_by_file, new_parser, batched_feed_line, batched_finish).
Import DiffTreeText DiffTreeFacts Rewrite RewriteFacts RewriteSpec.

Lemma elem_of_push_unique shas sha x : x ∈ push_unique shas sha ↔ x ∈ shas ∨ x = sha.
Proof. unfold push_unique. case_bool_decide; set_solver. Qed.

Lemma elem_of_unique_pair_shas pairs x :
  x ∈ unique_pair_shas pairs ↔ ∃ p, p ∈ pairs ∧ (x = p.1 ∨ x = p.2).
Proof.
  unfold unique_pair_shas. enough (∀ acc, x ∈ foldl (λ shas '(src, dst), push_unique (push_unique shas src) dst) acc pairs ↔
    x ∈ acc ∨ ∃ p, p ∈ pairs ∧ (x = p.1 ∨ x = p.2)) as ->; [set_solver|].
  induction pairs as [|[a b] pairs IH]; intros acc; cbn [foldl]; [set_solver|].
  rewrite IH, !elem_of_push_unique. setoid_rewrite elem_of_cons. naive_solver.
Qed.

Lemma known_trees_spec shas :
  (known_trees shas).2 = List.filter (λ sha, negb (str_eqb sha INITIAL)) shas ∧
  ∀ sha, (known_trees shas).1 !! sha = if bool_decide (sha ∈ shas ∧ sha = INITIAL) then Some EMPTY_TREE_SHA else None.
Proof.
  unfold known_trees. induction shas as [|sha shas IH] using rev_ind; [done|].
  rewrite foldl_app. cbn [foldl]. destruct (foldl _ _ shas) as [m to_resolve]. destruct IH as [IH1 IH2]. cbn [fst snd] in *.
  rewrite List.filter_app. cbn [List.filter]. unfold insert_known_tree. destruct (str_eqb sha INITIAL) eqn:E; cbn [negb fst snd].
  - apply str_eqb_eq in E as ->. rewrite app_nil_r. split; [done|]. intros x. destruct (decide (x = INITIAL)) as [->|Hne].
    + rewrite lookup_insert_eq, bool_decide_true; [done|]. set_solver.
    + rewrite lookup_insert_ne by done. rewrite IH2, !bool_decide_false by naive_solver. done.
  - split; [by rewrite IH1|]. intros x. rewrite IH2.
    assert (sha ≠ INITIAL) by (intros ->; by rewrite str_eqb_refl in E).
    erewrite bool_decide_ext; [done|]. rewrite elem_of_app, list_elem_of_singleton. naive_solver.
Qed.

Lemma oid_no_cr s : is_valid_git_oid s = true → CR ∉ s.
Proof.
  unfold is_valid_git_oid. intros [_ Hs]%andb_true_iff Hin. rewrite forallb_forall in Hs.
  apply list_elem_of_In in Hin. by specialize (Hs _ Hin).
Qed.

Lemma oid_line s : is_valid_git_oid s = true → LF ∉ s ∧ strip_cr s = s.
Proof.
  intros Hs. unfold is_valid_git_oid in Hs. apply andb_true_iff in Hs as [_ Hs]. rewrite forallb_forall in Hs.
  assert (∀ c, DiffTree.is_hexdigit c = false → c ∉ s) as Hc.
  { intros c Hc Hin. apply list_elem_of_In in Hin. specialize (Hs _ Hin). congruence. }
  split; [by apply Hc|]. apply strip_cr_id. by apply Hc.
Qed.

Lemma answering_git_answers notes tree patch :
  (∀ sha, is_valid_git_oid (tree sha) = true) → (∀ a b, Forall tree_file_ok (patch a b)) →
  answers (answering_git notes tree patch) notes tree patch.
Proof.
  intros Hv Hpatch. split.
  - intros shas. by exists notes.
  - done.
  - intros shas _. cbn. do 2 f_equal. rewrite map_map. apply map_ext. intros sha.
    rewrite length_app. change (length (lit "^{tree}")) with 7%nat. rewrite Nat.add_sub. by rewrite take_app_length.
  - done.
  - intros pairs Hp. cbn. f_equal. rewrite lines_render.
    + induction Hp as [|[a b] pairs [Ha Hb] _ IH]; [done|]. cbn [map flat_map fst snd] in *. rewrite IH, map_app. f_equal.
      assert (strip_cr (a ++ " "%char :: b) = a ++ " "%char :: b) as Hs.
      { apply strip_cr_id. rewrite elem_of_app, elem_of_cons. apply oid_no_cr in Ha, Hb. by intros [?|[?|?]]. }
      rewrite Hs. change (lit " ") with [" "%char]. rewrite split_once_first; [done|].
      unfold is_valid_git_oid in Ha. apply andb_true_iff in Ha as [_ Ha]. by apply hex_no_space.
    + apply Forall_map. eapply Forall_impl; [exact Hp|]. intros [a b] [Ha%oid_line Hb%oid_line]. cbn in *.
      rewrite elem_of_app, elem_of_cons. naive_solver.
  - done.
Qed.

Section Trees.
Variables (git : Git) (notes : gmap str str) (tree : str → str) (patch : str → str → list TreeFile).
Hypothesis git_answers : answers git notes tree patch.

Lemma resolve_spec shas :
  ∃ m, resolve_tree_shas git shas = Ret m ∧ ∀ sha, sha ∈ shas → m !! sha = Some (commit_tree tree sha).
Proof.
  unfold resolve_tree_shas. destruct (known_trees_spec shas) as [H2 H1]. destruct (known_trees shas) as [m0 rs].
  cbn [fst snd] in *. subst rs. set (rs := List.filter _ shas).
  assert (∀ sha, sha ∈ rs ↔ sha ∈ shas ∧ sha ≠ INITIAL) as Hrs.
  { intros sha. unfold rs. rewrite elem_of_filter_b, negb_true_iff. unfold str_eqb. rewrite bool_decide_eq_false. tauto. }
  assert (∀ sha, sha ∈ shas → sha ∉ rs → m0 !! sha = Some (commit_tree tree sha)) as Hm0.
  { intros sha Hin Hout. rewrite Hrs in Hout. assert (sha = INITIAL) as -> by (destruct (decide (sha = INITIAL)); naive_solver).
    by rewrite H1, bool_decide_true. }
  case_bool_decide as Hnil.
  { exists m0. split; [done|]. intros sha Hin. apply Hm0; [done|]. rewrite Hnil. apply not_elem_of_nil. }
  assert (omap tree_revision_arg rs = map (λ sha, sha ++ lit "^{tree}") rs) as ->.
  { assert (∀ sha, sha ∈ rs → sha ≠ INITIAL) as Hne by (intros sha; rewrite Hrs; tauto). clearbody rs. clear -Hne.
    induction rs as [|sha rs IH]; [done|]. cbn [omap list_omap map]. unfold tree_revision_arg at 1.
    assert (str_eqb sha INITIAL = false) as -> by (apply bool_decide_eq_false, Hne; left). f_equal. apply IH. set_solver. }
  rewrite (resolves_trees _ _ _ _ git_answers) by (apply Forall_forall; intros sha; rewrite Hrs; tauto). cbn [obind].
  assert (lines (render_lines (map tree rs)) = map tree rs) as ->.
  { pose proof (trees_valid _ _ _ _ git_answers) as Hv. rewrite lines_render.
    - rewrite map_map. apply map_ext. intros sha. by apply oid_line.
    - apply Forall_map, Forall_true. intros sha. by apply oid_line. }
  rewrite length_map, Nat.eqb_refl. cbn [negb]. eexists. split; [done|].
  enough (∀ (l : list str) (m0 : gmap str str) sha, foldl (λ m '(commit, tree), <[commit := tree]> m) m0 (combine l (map tree l)) !! sha =
    if bool_decide (sha ∈ l) then Some (tree sha) else m0 !! sha) as Hf.
  { intros sha Hin. rewrite Hf. case_bool_decide as Hr; [|by apply Hm0]. unfold commit_tree.
    assert (str_eqb sha INITIAL = false) as ->; [|done]. apply bool_decide_eq_false. by apply Hrs. }
  clear. induction l as [|x l IH]; intros m0 sha; cbn [map combine foldl]; [done|]. rewrite IH.
  destruct (decide (sha ∈ l)) as [Hl|Hl].
  - rewrite !bool_decide_true by set_solver. done.
  - rewrite bool_decide_false by done. destruct (decide (x = sha)) as [->|Hne].
    + rewrite lookup_insert_eq, bool_decide_true by set_solver. done.
    + rewrite lookup_insert_ne, bool_decide_false by set_solver. done.
Qed.

Lemma build_stdin_spec m pairs :
  (∀ p, p ∈ pairs → m !! p.1 = Some (commit_tree tree p.1) ∧ m !! p.2 = Some (commit_tree tree p.2)) →
  build_diff_tree_stdin pairs m =
  Ret (render_lines (map (λ ab, ab.1 ++ [" "%char] ++ ab.2) (map (λ p, (commit_tree tree p.1, commit_tree tree p.2)) pairs))).
Proof.
  induction pairs as [|[a b] pairs IH]; intros H; [done|]. cbn [build_diff_tree_stdin].
  destruct (H (a, b)) as [Ha Hb]; [left|]. cbn [fst snd] in *. unfold tree_for_commit. rewrite Ha, Hb. cbn [obind].
  rewrite IH by (intros p Hp; apply H; by right). cbn [obind map fst snd]. unfold render_lines. cbn [flat_map].
  by rewrite <-!app_assoc.
Qed.

Lemma commit_tree_valid sha : is_valid_git_oid (commit_tree tree sha) = true.
Proof. unfold commit_tree. destruct (str_eqb sha INITIAL); [reflexivity|apply (trees_valid _ _ _ _ git_answers)]. Qed.

(** The batch of diffs, one per pair. *)
Lemma diffs_spec pairs m :
  (∀ p, p ∈ pairs → m !! p.1 = Some (commit_tree tree p.1) ∧ m !! p.2 = Some (commit_tree tree p.2)) →
  ∃ stdin output rs, build_diff_tree_stdin pairs m = Ret stdin ∧ diff_tree_stdin git stdin = Ret output ∧
    batched_finish (foldl batched_feed_line (new_parser (length pairs)) output) = rs ∧
    Forall2 reports (map (tree_patch tree patch) pairs) rs.
Proof.
  intros Hm. rewrite (build_stdin_spec m pairs Hm). eexists _, _, _. split; [done|].
  rewrite (diffs_pairs _ _ _ _ git_answers)
    by (apply Forall_map, Forall_true; intros p; split; apply commit_tree_valid). split; [done|]. split; [done|].
  set (tps := map _ (map _ pairs)).
  assert (length tps = length pairs) as Hlen by (unfold tps; by rewrite !length_map).
  destruct (read_pairs_finish (length pairs) tps _ (read_all_pairs (length pairs) tps ltac:(
    unfold tps; rewrite map_map; apply Forall_map, Forall_true; intros p; split_and!;
      [apply commit_tree_valid..|apply (patches_valid _ _ _ _ git_answers)]))) as (rs & -> & Hrs).
  rewrite Hlen, Nat.sub_diag, app_nil_r. unfold tps in Hrs. rewrite !map_map in Hrs. exact Hrs.
Qed.
End Trees.

(** *** What the loop over the mappings collects *)

Section Collect.
Variables (from_str : str → option AuthorshipMetadata) (notes notes_map : gmap str str) (merge : bool).
Hypothesis notes_readable : ∀ sha raw, notes !! sha = Some raw → NoteFormat.deserialize_from_string from_str raw ≠ Panic.

Local Abbreviation source_log := (source_log from_str notes merge).
Local Abbreviation copied_note := (copied_note from_str notes merge).
Local Abbreviation kept_log := (kept_log from_str notes merge).
Local Abbreviation skipped := (skipped from_str notes merge).

Definition keep (existing : gmap str AuthorshipLog) (target : str) : gmap str AuthorshipLog :=
  match kept_log target, existing !! target with
  | Some log, None => <[target := log]> existing
  | _, _ => existing
  end.

Definition collected (c : Collected) (mapping : str * str) : Collected :=
  mkCollected (pending c ++ option_list (mkPending mapping.2 <$> source_log mapping))
    (verbatim_writes c ++ option_list (copied_note mapping))
    (diff_pairs c ++ option_list ((λ _, mapping) <$> source_log mapping))
    (keep (existing_by_target c) mapping.2).

Lemma collect_source_spec c src dst :
  notes_map !! src = notes !! src → skipped dst = false → existing_by_target c = keep (existing_by_target c) dst →
  collect_source from_str merge notes_map c src dst = Ret (collected c (src, dst)).
Proof.
  intros Hm Hs Hk. unfold collect_source, collected, source_log, copied_note, note_log, unreadable. cbn [fst snd].
  rewrite Hm, Hs, <-Hk. destruct (notes !! src) as [raw|] eqn:E; cbn.
  - specialize (notes_readable _ _ E). destruct (NoteFormat.deserialize_from_string from_str raw); [| |done];
      destruct merge; cbn; rewrite ?app_nil_r; by destruct c.
  - destruct merge; cbn; rewrite !app_nil_r; by destruct c.
Qed.

Lemma keep_none existing target : kept_log target = None → keep existing target = existing.
Proof. intros H. unfold keep. by rewrite H. Qed.

Lemma collect_mapping_spec c src dst :
  notes_map !! src = notes !! src → notes_map !! dst = notes !! dst →
  collect_mapping from_str merge notes_map c (src, dst) = Ret (collected c (src, dst)).
Proof.
  intros Hs Hd. cbn [collect_mapping]. rewrite Hd. destruct (notes !! dst) as [raw|] eqn:E.
  2:{ apply collect_source_spec; [done|..].
      - unfold skipped, unreadable, target_log, note_log. rewrite E. by rewrite andb_false_r.
      - symmetry. apply keep_none. unfold kept_log, target_log, note_log. rewrite E. by destruct merge. }
  pose proof (notes_readable _ _ E) as Hr. destruct (NoteFormat.deserialize_from_string from_str raw) as [log|e|] eqn:Ed; [| |done].
  2:{ assert (skipped dst = true) as Hsk by (unfold skipped, unreadable; by rewrite E, Ed).
      unfold collected, source_log, copied_note. cbn [fst snd]. rewrite Hsk. cbn. rewrite !app_nil_r.
      rewrite keep_none; [by destruct c|]. unfold kept_log, target_log, note_log. rewrite E, Ed. by destruct merge. }
  assert (note_log from_str notes dst = Some log) as Hn by (unfold note_log; by rewrite E, Ed).
  assert (unreadable from_str notes dst = false) as Hu by (unfold unreadable; by rewrite E, Ed).
  case_bool_decide as Ha.
  { assert (target_log from_str notes dst = None) as Ht by (unfold target_log; by rewrite Hn, bool_decide_true).
    apply collect_source_spec; [done|..].
    - unfold skipped. rewrite Hu, Ht. by rewrite andb_false_r.
    - symmetry. apply keep_none. unfold kept_log. rewrite Ht. by destruct merge. }
  assert (target_log from_str notes dst = Some log) as Ht by (unfold target_log; by rewrite Hn, bool_decide_false).
  destruct (decide (merge = true)) as [Em|Em%not_true_is_false].
  - assert (kept_log dst = Some log) as Hk by (unfold kept_log; by rewrite Em, Ht).
    rewrite Em at 1. rewrite collect_source_spec; [|done|unfold skipped; by rewrite Hu, Em|].
    + f_equal. unfold collected. cbn [pending verbatim_writes diff_pairs existing_by_target fst snd]. f_equal.
      unfold keep. rewrite Hk. destruct (existing_by_target c !! dst) eqn:Ex; [by rewrite Ex|by rewrite lookup_insert_eq].
    + cbn [existing_by_target]. unfold keep. rewrite Hk.
      destruct (existing_by_target c !! dst) eqn:Ex; [by rewrite Ex|by rewrite lookup_insert_eq].
  - assert (skipped dst = true) as Hsk by (unfold skipped; by rewrite Hu, Ht, Em).
    rewrite Em at 1. unfold collected, source_log, copied_note. cbn [fst snd]. rewrite Hsk. cbn. rewrite !app_nil_r.
    rewrite keep_none; [by destruct c|]. unfold kept_log. by rewrite Em.
Qed.

Lemma collect_mappings_spec c mappings :
  (∀ p, p ∈ mappings → notes_map !! p.1 = notes !! p.1 ∧ notes_map !! p.2 = notes !! p.2) →
  collect_mappings from_str merge notes_map c mappings = Ret (foldl collected c mappings).
Proof.
  revert c. induction mappings as [|[src dst] mappings IH]; intros c H; [done|]. cbn [collect_mappings foldl].
  destruct (H (src, dst)) as [Hs Hd]; [left|]. rewrite collect_mapping_spec by done. cbn [obind]. apply IH.
  intros p Hp. apply H. by right.
Qed.

(** The sources that have a log, with it. *)
Definition sources (mappings : list (str * str)) : list (str * str * AuthorshipLog) :=
  omap (λ p, (λ log, (p, log)) <$> source_log p) mappings.

Definition waiting_shift (pl : str * str * AuthorshipLog) : PendingShift := mkPending pl.1.2 pl.2.

Lemma elem_of_sources mappings p log : (p, log) ∈ sources mappings ↔ p ∈ mappings ∧ source_log p = Some log.
Proof.
  unfold sources. rewrite list_elem_of_omap. split.
  - intros (q & Hq & E). destruct (source_log q) eqn:Eq; [|done]. cbn in E. injection E as <- <-. done.
  - intros [Hp Hs]. exists p. by rewrite Hs.
Qed.

Lemma collected_all mappings :
  let c := foldl collected (mkCollected [] [] [] ∅) mappings in
  pending c = map waiting_shift (sources mappings) ∧ verbatim_writes c = omap copied_note mappings ∧
  diff_pairs c = map fst (sources mappings) ∧
  ∀ sha, existing_by_target c !! sha = if bool_decide (sha ∈ map snd mappings) then kept_log sha else None.
Proof.
  cbv zeta. induction mappings as [|p mappings IH] using rev_ind; [done|]. destruct IH as (H1 & H2 & H3 & H4).
  rewrite foldl_app. cbn [foldl]. unfold collected at 1 3 5 7. cbn [pending verbatim_writes diff_pairs existing_by_target].
  rewrite H1, H2, H3. unfold sources. rewrite !omap_app, !map_app. cbn [omap list_omap map]. split_and!.
  - f_equal. by destruct (source_log p).
  - done.
  - f_equal. by destruct (source_log p).
  - intros sha. unfold keep. set (ex := existing_by_target _) in *.
    assert (kept_log p.2 = None → ex !! sha = if bool_decide (sha ∈ map snd mappings ++ [p.2]) then kept_log sha else None) as Hnone.
    { intros Hn. rewrite H4. destruct (decide (sha = p.2)) as [->|Hne].
      - rewrite Hn. by repeat case_bool_decide.
      - erewrite bool_decide_ext; [done|]. rewrite elem_of_app, list_elem_of_singleton. tauto. }
    destruct (kept_log p.2) as [log|] eqn:Ek; [|by apply Hnone].
    assert (∀ m : gmap str AuthorshipLog, (∀ x, x ≠ p.2 → m !! x = ex !! x) → m !! p.2 = Some log →
      m !! sha = if bool_decide (sha ∈ map snd mappings ++ [p.2]) then kept_log sha else None) as Hsome.
    { intros m Ho Hp. destruct (decide (sha = p.2)) as [->|Hne].
      - rewrite Hp, bool_decide_true, Ek by set_solver. done.
      - rewrite Ho, H4 by done. erewrite bool_decide_ext; [done|]. rewrite elem_of_app, list_elem_of_singleton. tauto. }
    destruct (ex !! p.2) as [log'|] eqn:Ep.
    + apply Hsome; [done|]. rewrite Ep. rewrite H4 in Ep. case_bool_decide; [congruence|done].
    + apply Hsome; [|apply lookup_insert_eq]. intros x Hx. by apply lookup_insert_ne.
Qed.
End Collect.

(** *** What the shifts add up to *)

Lemma reports_hunks tfs d path : reports tfs d → file_hunks d path = map hp_range (hunks_of tfs path).
Proof. intros (H & _). unfold file_hunks. by destruct (H path) as [-> | [-> ->]]. Qed.

Lemma apply_renames_map d fs :
  apply_renames d fs = map (λ f, mkFile (renamed_path (renames d) (file_path f)) (entries f)) fs.
Proof.
  unfold apply_renames. generalize (renames d) as rs. intros rs. revert fs.
  induction rs as [|[a b] rs IH]; intros fs; cbn [foldl renamed_path].
  - rewrite <-(map_id fs) at 1. apply map_ext. by intros [].
  - rewrite IH. unfold rename_attestations. rewrite map_map. apply map_ext. intros f.
    by destruct (str_eqb (file_path f) a).
Qed.

Section Shifts.
Variables (tree : str → str) (patch : str → str → list TreeFile).

Lemma shifted_covers p slog d file h n :
  reports (tree_patch tree patch p) d → patch_fits tree patch p slog →
  covers (shifted_log d (mkPending p.2 slog)) file h n ↔
  ∃ f0 o, covers slog f0 h o ∧ moves_line tree patch p f0 o file n.
Proof.
  intros Hr [Hok Hfit]. unfold covers. cbn [attestations shifted_log log].
  assert (renames d = omap tf_rename (tree_patch tree patch p)) as Hren by apply Hr.
  rewrite shift_attestations_cover.
  - setoid_rewrite (reports_hunks _ _ _ Hr). rewrite Hren. unfold moves_line. naive_solver.
  - split; [intros path; by rewrite (reports_hunks _ _ _ Hr)|]. rewrite apply_renames_map, Hren. apply Forall_map.
    eapply Forall_impl; [exact Hfit|]. intros f. cbn. by rewrite (reports_hunks _ _ _ Hr).
Qed.

(** The logs that go to one target, taken one by one. *)
Lemma into_forall (P : AuthorshipLog → Prop) (Q : str * str * AuthorshipLog → Prop) srcs rs sha :
  Forall2 (λ pl d, reports (tree_patch tree patch pl.1) d) srcs rs →
  (∀ pl d, pl ∈ srcs → reports (tree_patch tree patch pl.1) d → P (shifted_log d (waiting_shift pl)) ↔ Q pl) →
  (∃ l, l ∈ into (combine rs (map waiting_shift srcs)) sha ∧ P l) ↔ ∃ pl, pl ∈ srcs ∧ pl.1.2 = sha ∧ Q pl.
Proof.
  induction 1 as [|pl d srcs rs Hd _ IH]; intros HP; cbn [map combine into omap list_omap].
  { split; [intros (l & Hl%not_elem_of_nil & _)|intros (l & Hl%not_elem_of_nil & _)]; done. }
  specialize (IH (λ pl' d' Hin, HP pl' d' (proj2 (elem_of_cons _ _ _) (or_intror Hin)))).
  pose proof (HP pl d ltac:(left) Hd) as HPd. cbn [fst snd]. unfold into in IH. setoid_rewrite elem_of_cons.
  destruct (str_eqb (new_sha (waiting_shift pl)) sha) eqn:E.
  - apply str_eqb_eq in E. cbn in E. setoid_rewrite elem_of_cons. naive_solver.
  - rewrite IH. split; [naive_solver|]. intros (pl' & [->|Hin] & Hs & HQ); [|eauto].
    exfalso. cbn in E. rewrite Hs, str_eqb_refl in E. done.
Qed.

End Shifts.

Lemma into_none srcs rs sha :
  length srcs = length rs → into (combine rs (map waiting_shift srcs)) sha = [] ↔ ∀ pl, pl ∈ srcs → pl.1.2 ≠ sha.
Proof.
  revert rs. induction srcs as [|pl srcs IH]; intros [|d rs] Hl; try done; cbn [map combine into omap list_omap].
  { split; [|done]. intros _ pl Hpl. by apply not_elem_of_nil in Hpl. }
  cbn [fst snd]. unfold into in IH. destruct (str_eqb (new_sha (waiting_shift pl)) sha) eqn:E.
  - apply str_eqb_eq in E. split; [done|]. intros H. exfalso. by apply (H pl); [left|].
  - rewrite IH by (cbn in Hl; lia). setoid_rewrite elem_of_cons. split; [|naive_solver].
    intros H pl' [->|Hin] Hs; [|by eapply H]. cbn in E. by rewrite Hs, str_eqb_refl in E.
Qed.

Lemma merge_knows kind target source k :
  knows kind (merge_authorship_logs target source) k ↔ knows kind target k ∨ knows kind source k.
Proof.
  destruct kind; cbn; rewrite <-?not_eq_None_Some, ?lookup_union, ?lookup_union_with;
    repeat destruct (_ !! k); cbn; naive_solver.
Qed.

Lemma foldl_merge_knows kind log logs k :
  knows kind (foldl merge_authorship_logs log logs) k ↔ knows kind log k ∨ ∃ l, l ∈ logs ∧ knows kind l k.
Proof.
  revert log. induction logs as [|l logs IH]; intros log; cbn [foldl].
  - split; [by left|]. intros [?|(l & Hl%not_elem_of_nil & _)]; done.
  - rewrite IH, merge_knows. setoid_rewrite elem_of_cons. naive_solver.
Qed.

Lemma foldl_merge_base log logs :
  base_commit_sha (metadata (foldl merge_authorship_logs log logs)) = base_commit_sha (metadata log).
Proof. revert log. induction logs as [|l logs IH]; intros log; [done|]. cbn [foldl]. by rewrite IH. Qed.

Lemma into_base diffs sha l : l ∈ into diffs sha → base_commit_sha (metadata l) = sha.
Proof.
  unfold into. intros (ds & _ & E)%list_elem_of_omap. destruct (str_eqb (new_sha ds.2) sha) eqn:Es; [|done].
  injection E as <-. by apply str_eqb_eq.
Qed.

(** The logs that go to a target, merged. *)
Definition merged_logs (ls : list AuthorshipLog) : option AuthorshipLog :=
  match ls with [] => None | log :: logs => Some (foldl merge_authorship_logs log logs) end.

Lemma merged_logs_spec existing diffs sha log :
  merged_logs (option_list existing ++ into diffs sha) = Some log →
  (∀ file h n, covers log file h n ↔
     (∃ old, existing = Some old ∧ covers old file h n) ∨ ∃ l, l ∈ into diffs sha ∧ covers l file h n) ∧
  (∀ kind k, knows kind log k ↔
     (∃ old, existing = Some old ∧ knows kind old k) ∨ ∃ l, l ∈ into diffs sha ∧ knows kind l k) ∧
  base_commit_sha (metadata log) = match existing with Some old => base_commit_sha (metadata old) | None => sha end.
Proof.
  pose proof (into_base diffs sha) as Hb. destruct existing as [old|]; cbn [option_list app].
  - intros [= <-]. split_and!; [intros file h n; rewrite foldl_merge_cover; naive_solver| |apply foldl_merge_base].
    intros kind k. rewrite foldl_merge_knows. naive_solver.
  - destruct (into diffs sha) as [|l ls]; [done|]. intros [= <-]. split_and!.
    + intros file h n. rewrite foldl_merge_cover. setoid_rewrite elem_of_cons. naive_solver.
    + intros kind k. rewrite foldl_merge_knows. setoid_rewrite elem_of_cons. naive_solver.
    + rewrite foldl_merge_base. apply Hb. left.
Qed.

(** A target gets a log when it had one or some source goes there. *)
Lemma merged_some existing srcs rs sha :
  length srcs = length rs →
  is_Some (merged_logs (option_list existing ++ into (combine rs (map waiting_shift srcs)) sha)) ↔
  is_Some existing ∨ ∃ pl, pl ∈ srcs ∧ pl.1.2 = sha.
Proof.
  intros Hl. pose proof (into_none srcs rs sha Hl) as Hin. destruct (into _ sha) as [|l ls].
  - rewrite app_nil_r. destruct Hin as [Hno _]. specialize (Hno eq_refl). destruct existing; cbn.
    + split; [by left|by eexists].
    + split; [by intros [? ?]|]. intros [[? ?]|(pl & Hpl & Hs)]; [done|]. by destruct (Hno pl Hpl).
  - split; [intros _; right|intros _; destruct existing; cbn; by eexists].
    destruct (decide (Exists (λ pl, pl.1.2 = sha) srcs)) as [H%Exists_exists|Hno]; [done|].
    exfalso. assert (l :: ls = []); [|done]. apply Hin. intros pl Hpl Hs. apply Hno. apply Exists_exists. eauto.
Qed.

Section Stream.
Variables (tree : str → str) (patch : str → str → list TreeFile).

(** The streamed diffs: every source is shifted by the report of its patch. *)
Lemma stream_diffs_spec git notes c srcs :
  answers git notes tree patch → pending c = map waiting_shift srcs → diff_pairs c = map fst srcs →
  ∃ m rs, stream_diffs git c = Ret m ∧ Forall2 (λ pl d, reports (tree_patch tree patch pl.1) d) srcs rs ∧
    ∀ sha, m !! sha = merged_logs (option_list (existing_by_target c !! sha) ++ into (combine rs (map waiting_shift srcs)) sha).
Proof.
  intros Ha Hp Hd. unfold stream_diffs. case_bool_decide as Hnil.
  { exists (existing_by_target c), []. rewrite Hd in Hnil. apply map_eq_nil in Hnil as ->.
    split_and!; [done|constructor|]. intros sha. cbn. by destruct (existing_by_target c !! sha). }
  destruct (resolve_spec git notes tree patch Ha (unique_pair_shas (diff_pairs c))) as (m & -> & Hm). cbn [obind].
  destruct (diffs_spec git notes tree patch Ha (diff_pairs c) m) as (stdin & output & rs & -> & Ho & Hrs & Hr).
  { intros p Hin. split; apply Hm, elem_of_unique_pair_shas; exists p; auto. }
  cbn [obind]. rewrite Ho. cbn [obind]. rewrite stream_is_batch, Hrs, Hp.
  rewrite Hd, map_map in Hr. assert (Forall2 (λ pl d, reports (tree_patch tree patch pl.1) d) srcs rs) as Hsr.
  { clear -Hr. revert rs Hr. induction srcs as [|pl srcs IH]; intros rs Hr; inversion_clear Hr; constructor; auto. }
  eexists _, rs. split_and!; [done..|]. intros sha. rewrite apply_chunk_lookup; [done|].
  rewrite length_map. symmetry. by eapply Forall2_length.
Qed.

End Stream.

Section Writes.
Variable to_string_pretty : AuthorshipMetadata → option str.
Hypothesis writable : ∀ md, is_Some (to_string_pretty md).

Definition note_text (log : AuthorshipLog) : str := default [] (NoteFormat.serialize_to_string to_string_pretty log).

Lemma serialize_logs_spec logs :
  serialize_logs to_string_pretty logs = Ret (map (λ sl, (sl.1, note_text sl.2)) logs).
Proof.
  induction logs as [|[sha log] logs IH]; [done|]. cbn [serialize_logs map fst snd]. unfold note_text at 1.
  assert (∃ text, NoteFormat.serialize_to_string to_string_pretty log = Some text) as [text ->].
  { unfold NoteFormat.serialize_to_string. destruct (writable (metadata log)) as [s ->]. by eexists. }
  by rewrite IH.
Qed.
End Writes.

End RewriteSteps.

(** ** Properties *)

Module RewriteProps.
Import LineRange AuthorshipLog HunkShift HashIter HashIterFacts PatchText.
Import DiffTree(DiffTreeResult, is_valid_git_oid, new_parser, batched_feed_line, batched_finish, completed_count).
Import DiffTreeText Rewrite RewriteFacts RewriteSpec RewriteSteps.

(** C3: the notes after a rewrite.  With git answering, notes whose reading
    does not panic, and patches the source notes fit, shifting the notes of a
    list of mappings succeeds, with or without merging into existing notes.
    The notes written are the copies of unreadable source notes and one note
    per target that has a source or, when merging, an existing note.  The note
    of a target attests a line exactly when its existing note did, when merged,
    or a source attests the line the patch between the two trees moves there;
    it has the records of the existing note and the sources, and the base
    commit of the existing note, else the target. *)
Theorem shifted_notes_follow_mappings `{order : HashOrder}
    (to_string_pretty : AuthorshipMetadata → option str) (from_str : str → option AuthorshipMetadata)
    (git : Git) (notes : gmap str str) (tree : str → str) (patch : str → str → list TreeFile)
    (mappings : list (str * str)) (merge : bool)
    (git_answers : answers git notes tree patch)
    (notes_readable : ∀ sha raw, notes !! sha = Some raw → NoteFormat.deserialize_from_string from_str raw ≠ Panic)
    (writable : ∀ md, is_Some (to_string_pretty md))
    (sources_fit : ∀ p log, p ∈ mappings → source_log from_str notes merge p = Some log → patch_fits tree patch p log) :
  let source := source_log from_str notes merge in
  let kept := kept_log from_str notes merge in
  let copies := omap (copied_note from_str notes merge) mappings in
  ∃ writes (logs : gmap str AuthorshipLog),
    shift_authorship_notes_with_existing_mode to_string_pretty from_str git mappings merge = Ret writes ∧
    writes ≡ₚ copies ++ map (λ sl, (sl.1, note_text to_string_pretty sl.2)) (map_to_list logs) ∧
    (∀ sha, is_Some (logs !! sha) ↔
       (copies ≠ [] ∨ ∃ p, p ∈ mappings ∧ is_Some (source p)) ∧
       ∃ p, p ∈ mappings ∧ p.2 = sha ∧ (is_Some (source p) ∨ is_Some (kept sha))) ∧
    ∀ sha log, logs !! sha = Some log →
      (∀ file h n, covers log file h n ↔
         (∃ old, kept sha = Some old ∧ covers old file h n) ∨
         ∃ p slog f0 o, p ∈ mappings ∧ p.2 = sha ∧ source p = Some slog ∧ covers slog f0 h o ∧
           moves_line tree patch p f0 o file n) ∧
      (∀ kind k, knows kind log k ↔
         (∃ old, kept sha = Some old ∧ knows kind old k) ∨
         ∃ p slog, p ∈ mappings ∧ p.2 = sha ∧ source p = Some slog ∧ knows kind slog k) ∧
      base_commit_sha (metadata log) = match kept sha with Some old => base_commit_sha (metadata old) | None => sha end.
Proof.
  intros source kept copies. unfold shift_authorship_notes_with_existing_mode. case_bool_decide as Hnil.
  { exists [], ∅. subst mappings. split_and!; [done..| |done]. intros sha. rewrite lookup_empty. split; [by intros [? ?]|].
    intros (_ & p & Hp%not_elem_of_nil & _). done. }
  set (all := flat_map _ mappings).
  destruct (reads_notes _ _ _ _ git_answers all) as (m & -> & Hm). cbn [obind].
  assert (∀ p, p ∈ mappings → m !! p.1 = notes !! p.1 ∧ m !! p.2 = notes !! p.2) as Hmp.
  { intros [s d] Hp. split; apply Hm; unfold all; apply elem_of_flat_map; exists (s, d); (split; [done|]); set_solver. }
  rewrite (collect_mappings_spec from_str notes m merge notes_readable _ mappings Hmp). cbn [obind].
  destruct (collected_all from_str notes merge notes_readable mappings) as (Hpend & Hverb & Hpairs & Hex). set (c := foldl _ _ mappings) in *.
  set (srcs := sources from_str notes merge mappings) in *. fold copies in Hverb.
  assert (∀ p log, (p, log) ∈ srcs ↔ p ∈ mappings ∧ source p = Some log) as Hsrc by (intros; apply elem_of_sources).
  assert (copies = [] → (∃ p, p ∈ mappings ∧ is_Some (source p)) ↔ srcs ≠ []) as Hsome.
  { intros _. split.
    - intros (p & Hp & log & Hl) E. eapply not_elem_of_nil. rewrite <-E. by apply Hsrc.
    - destruct srcs as [|[p log] srcs']; [done|]. intros _. exists p. destruct (Hsrc p log) as [[Hp Hl] _]; [left|]. eauto. }
  destruct (bool_decide (pending c = []) && bool_decide (verbatim_writes c = [])) eqn:Enone.
  { apply andb_true_iff in Enone as [Ep%bool_decide_eq_true Ev%bool_decide_eq_true]. rewrite Hverb in Ev.
    rewrite Hpend in Ep. apply map_eq_nil in Ep. exists [], ∅. rewrite Ev. split_and!; [done..| |done].
    intros sha. rewrite lookup_empty. split; [by intros [? ?]|]. intros [[?|H%Hsome] _]; done. }
  assert (copies ≠ [] ∨ ∃ p, p ∈ mappings ∧ is_Some (source p)) as Hwork.
  { apply andb_false_iff in Enone as [E%bool_decide_eq_false|E%bool_decide_eq_false]; [|left; by rewrite <-Hverb].
    destruct (decide (copies = [])) as [Ec|]; [|by left]. right. apply Hsome; [done|]. intros E'. by rewrite Hpend, E' in E. }
  clear Enone.
  destruct (stream_diffs_spec tree patch git notes c srcs git_answers Hpend Hpairs) as (logs & rs & -> & Hrep & Hlogs).
  cbn [obind]. rewrite serialize_logs_spec by done. cbn [obind].
  rewrite (writes_notes _ _ _ _ git_answers). cbn [obind]. eexists _, logs. split; [done|]. split.
  { rewrite Hverb. f_equiv. by rewrite hash_iter_perm. }
  assert (∀ sha, is_Some (logs !! sha) ↔ ∃ p, p ∈ mappings ∧ p.2 = sha ∧ (is_Some (source p) ∨ is_Some (kept sha))) as Hdom.
  { intros sha. rewrite Hlogs, Hex, merged_some by by eapply Forall2_length. split.
    - intros [H|([p slog] & Hp & <-)].
      + case_bool_decide as Ht; [|by destruct H]. apply list_elem_of_fmap in Ht as (p & -> & Hp). eauto.
      + apply Hsrc in Hp as [Hp Hl]. exists p. split_and!; [done..|]. left. by eexists.
    - intros (p & Hp & <- & [[slog Hl]|H]); [right; exists (p, slog); by rewrite Hsrc|left].
      rewrite bool_decide_true; [done|]. apply list_elem_of_fmap. eauto. }
  split.
  { intros sha. rewrite Hdom. tauto. }
  intros sha log Hlog. assert (existing_by_target c !! sha = kept sha) as Hkept.
  { rewrite Hex. case_bool_decide as Ht; [done|]. exfalso. apply Ht.
    destruct (proj1 (Hdom sha) ltac:(by eexists)) as (p & Hp & <- & _). apply list_elem_of_fmap. eauto. }
  rewrite Hlogs, Hkept in Hlog. apply merged_logs_spec in Hlog as (Hcov & Hknow & Hbase). split_and!; [| |done].
  - intros file h n. rewrite Hcov.
    rewrite (into_forall tree patch (λ l, covers l file h n)
      (λ pl, ∃ f0 o, covers pl.2 f0 h o ∧ moves_line tree patch pl.1 f0 o file n) srcs rs sha Hrep).
    + f_equiv. split.
      * intros ([p slog] & Hp & Hs & f0 & o & Hc). apply Hsrc in Hp as [Hp Hl]. exists p, slog, f0, o. naive_solver.
      * intros (p & slog & f0 & o & Hp & Hs & Hl & Hc). exists (p, slog). rewrite Hsrc. naive_solver.
    + intros [p slog] d Hp Hr. apply Hsrc in Hp as [Hp Hl]. apply shifted_covers; [done|by apply sources_fit].
  - intros kind k. rewrite Hknow.
    rewrite (into_forall tree patch (λ l, knows kind l k) (λ pl, knows kind pl.2 k) srcs rs sha Hrep).
    + f_equiv. split.
      * intros ([p slog] & Hp & Hs & Hk). apply Hsrc in Hp as [Hp Hl]. exists p, slog. naive_solver.
      * intros (p & slog & Hp & Hs & Hl & Hk). exists (p, slog). rewrite Hsrc. naive_solver.
    + intros [p slog] d _ _. by destruct kind.
Qed.

(** *** Witnesses *)

Definition sample_patch : list TreeFile :=
  [mkTreeFile (lit "a/old.rs b/a.rs") [] (Some (lit "old.rs", lit "a.rs")) []
     [mkHunkPatch (HunkShift.mkHunk 0 0 1 1) (false, true) [] [] false [lit "first"] false]].

Definition oid (c : ascii) : str := repeat c 40.
Definition sample_tree (sha : str) : str := if starts_with (lit "s") sha then oid "a" else oid "b".
Definition patch_between (a b : str) : list TreeFile :=
  if str_eqb a (oid "a") && str_eqb b (oid "b") then sample_patch else [].

Definition sample_metadata : AuthorshipMetadata := mkMetadata (lit "3") None (lit "t1") ∅ ∅ ∅.
Definition sample_json (md : AuthorshipMetadata) : option str := Some (lit "{" ++ base_commit_sha md ++ lit "}").
Definition sample_from_json (s : str) : option AuthorshipMetadata := Some sample_metadata.
Definition sample_note : str :=
  lit "old.rs" ++ [LF] ++ lit "  s_a 1-2" ++ [LF] ++ lit "---" ++ [LF] ++ lit "{}".
Definition sample_notes : gmap str str := {[lit "s1" := sample_note]}.

(** The commit s1 renamed and got a first line; t1 has no note. *)
Definition sample_git : Git := answering_git sample_notes sample_tree patch_between.

Lemma sample_git_answers : answers sample_git sample_notes sample_tree patch_between.
Proof.
  apply answering_git_answers.
  - intros sha. unfold sample_tree. by case_match.
  - intros a b. unfold patch_between. case_match; [|constructor]. repeat constructor; try (vm_compute; congruence);
      try (unfold hunk_ok, is_u32, u32_max; simpl; lia); try PatchParseProps.decide_lf;
      try (cbn in *; match goal with H : Some _ = Some _ |- _ => injection H as <- <- end; PatchParseProps.decide_lf || reflexivity).
Qed.

Definition sample_shift :=
  shift_authorship_notes_with_existing_mode (order := in_order) sample_json sample_from_json sample_git [(lit "s1", lit "t1")] true.

Lemma sample_shift_writes :
  sample_shift =
  Ret [(lit "t1", lit "a.rs" ++ [LF] ++ lit "  s_a 2-3" ++ [LF] ++ lit "---" ++ [LF] ++ lit "{t1}")].
Proof. vm_compute. reflexivity. Qed.

Lemma sample_fits log :
  source_log sample_from_json sample_notes true (lit "s1", lit "t1") = Some log →
  patch_fits sample_tree patch_between (lit "s1", lit "t1") log.
Proof.
  intros H. assert (log = mkLog [mkFile (lit "old.rs") [mkEntry (lit "s_a") [Range 1 2]]] sample_metadata) as ->.
  { vm_compute in H. by injection H. }
  assert (tree_patch sample_tree patch_between (lit "s1", lit "t1") = sample_patch) as E by reflexivity.
  unfold patch_fits. rewrite E. split.
  - intros path. unfold hunks_of. cbn [flat_map sample_patch app]. case_bool_decide; cbn; unfold first_gone, old_next, is_u32, u32_max; cbn; lia.
  - constructor; [|constructor].
    match goal with |- entries_fit ?hs _ => assert (hs = [HunkShift.mkHunk 0 0 1 1]) as -> by reflexivity end.
    repeat constructor; cbn; unfold is_u32, u32_max; lia.
Qed.

Lemma shifted_notes_follow_mappings_witness :
  ∃ writes (logs : gmap str AuthorshipLog), sample_shift = Ret writes ∧ is_Some (logs !! lit "t1") ∧
    writes = [(lit "t1", lit "a.rs" ++ [LF] ++ lit "  s_a 2-3" ++ [LF] ++ lit "---" ++ [LF] ++ lit "{t1}")].
Proof.
  destruct (shifted_notes_follow_mappings (order := in_order) sample_json sample_from_json sample_git sample_notes sample_tree
    patch_between [(lit "s1", lit "t1")] true sample_git_answers) as (writes & logs & Hs & _ & Hdom & _).
  - intros sha raw Hr. unfold sample_notes in Hr. apply lookup_singleton_Some in Hr as [_ <-]. vm_compute. discriminate.
  - intros md. by eexists.
  - intros p log Hp%list_elem_of_singleton. subst p. apply sample_fits.
  - exists writes, logs. split; [exact Hs|]. split.
    + apply Hdom. assert (is_Some (source_log sample_from_json sample_notes true (lit "s1", lit "t1"))) as H.
      { vm_compute. by eexists. }
      split; [right|]; exists (lit "s1", lit "t1"); (split; [left|]); [done|]. split; [done|by left].
    + pose proof sample_shift_writes as E. unfold sample_shift in E. rewrite Hs in E. by injection E.
Defined.

End RewriteProps.
