(* ===== verification/RewriteEvents.v ===== *)
(** * Rewrite events

    src/src/authorship/rewrite.rs: what a rewrite event does.  A non-fast-forward
    update and a cherry-pick shift notes along mappings; a squash merge moves
    the notes of all source commits to the one commit that replaces them.  The
    commits that were rewritten are reported as metrics. *)

From S2P Require Import Prelude Text LineRange AuthorshipLog NoteFormat ConflictResolution HunkShift DiffCompute HashIter DiffTree Rewrite RangeDiff.

Local Open Scope Z_scope.

(** ** Metrics of rewritten commits *)

Module RewriteMetrics.
Import HashIter.
Import DiffTree(DiffTreeResult).

Inductive RewriteMetricOperation :=
  | Rebase | SquashMergeOperation | CherryPick | CherryPickNoCommit | Amend | Revert | UpdateRef | NonFastForwardOperation.

Definition as_str (op : RewriteMetricOperation) : str :=
  match op with
  | Rebase => lit "rebase"
  | SquashMergeOperation => lit "squash_merge"
  | CherryPick => lit "cherry_pick"
  | CherryPickNoCommit => lit "cherry_pick_no_commit"
  | Amend => lit "amend"
  | Revert => lit "revert"
  | UpdateRef => lit "update_ref"
  | NonFastForwardOperation => lit "non_fast_forward"
  end.

Record RewriteMetricCommit := mkMetric {
  metric_new_sha : str;
  original_shas : list str;
  operation : RewriteMetricOperation;
  branch : option str;
  parent_sha : option str;
  authorship_note : option str;
  parent_diff : option DiffTreeResult
}.

Definition push_original (deduped : list str) (sha : str) : list str :=
  if negb (bool_decide (sha = [])) && negb (bool_decide (sha ∈ deduped)) then deduped ++ [sha] else deduped.

Definition new_metric (new_sha : str) (originals : list str) (op : RewriteMetricOperation) : RewriteMetricCommit :=
  mkMetric new_sha (foldl push_original [] originals) op None None None None.

Definition with_branch (c : RewriteMetricCommit) (b : str) : RewriteMetricCommit :=
  if bool_decide (b = []) then c
  else mkMetric (metric_new_sha c) (original_shas c) (operation c) (Some b) (parent_sha c) (authorship_note c) (parent_diff c).

Definition with_parent_sha (c : RewriteMetricCommit) (p : str) : RewriteMetricCommit :=
  if bool_decide (p = []) then c
  else mkMetric (metric_new_sha c) (original_shas c) (operation c) (branch c) (Some p) (authorship_note c) (parent_diff c).

Definition with_authorship_note (c : RewriteMetricCommit) (note : str) : RewriteMetricCommit :=
  mkMetric (metric_new_sha c) (original_shas c) (operation c) (branch c) (parent_sha c) (Some note) (parent_diff c).

Definition with_parent_diff (c : RewriteMetricCommit) (diff : DiffTreeResult) : RewriteMetricCommit :=
  mkMetric (metric_new_sha c) (original_shas c) (operation c) (branch c) (parent_sha c) (authorship_note c) (Some diff).

Definition branch_name_from_ref (reference : str) : option str :=
  match strip_prefix (lit "refs/heads/") reference with
  | Some b => if bool_decide (b = []) then None else Some b
  | None => None
  end.

(** Targets in the order they come, with their distinct sources. *)
Definition group_mapping (acc : list str * gmap str (list str)) (mapping : str * str) : list str * gmap str (list str) :=
  let '(order, grouped) := acc in
  let '(source_sha, target_sha) := mapping in
  if bool_decide (source_sha = []) || bool_decide (target_sha = []) then acc
  else if bool_decide (source_sha ∈ default [] (grouped !! target_sha)) then acc
  else
    (match grouped !! target_sha with None => order ++ [target_sha] | Some _ => order end,
     extend grouped target_sha [source_sha]).

Definition metric_commits_from_mappings (mappings : list (str * str)) (op : RewriteMetricOperation) :
    list RewriteMetricCommit :=
  let '(order, grouped) := foldl group_mapping ([], ∅) mappings in
  omap (λ target, (λ originals, new_metric target originals op) <$> grouped !! target) order.

(** Each commit takes the note of its sha, which is then used up. *)
Fixpoint attach_notes (notes_by_commit : gmap str str) (commits : list RewriteMetricCommit) : list RewriteMetricCommit :=
  match commits with
  | [] => []
  | c :: commits' =>
      match notes_by_commit !! metric_new_sha c with
      | Some note => with_authorship_note c note :: attach_notes (delete (metric_new_sha c) notes_by_commit) commits'
      | None => c :: attach_notes notes_by_commit commits'
      end
  end.

Definition attach_authorship_notes (commits : list RewriteMetricCommit) (notes : list (str * str)) :
    list RewriteMetricCommit :=
  if bool_decide (notes = []) then commits
  else attach_notes (foldl (λ m kv, <[kv.1 := kv.2]> m) ∅ notes) commits.

Definition attach_authorship_note (c : RewriteMetricCommit) (note : option str) : RewriteMetricCommit :=
  match note with Some n => with_authorship_note c n | None => c end.

End RewriteMetrics.

(** ** Events *)

Module RewriteEvents.
Import LineRange AuthorshipLog HunkShift HashIter.
Import DiffCompute(result).
Import DiffTree(DiffTreeResult).
Import ConflictResolution(merge_conflict_resolution_authorship, set_base_commit).
Import Rewrite RewriteMetrics.

(** The repository: git and the notes, its working logs, the post-commit of
    the working log of a base with a transformation of its log
    (post_commit.rs), and whether metrics are recorded. *)
Record Repository := mkRepository {
  notes_git : Git;
  history_git : RangeDiff.Git;
  has_working_log : str → bool;
  post_commit_with_transform : str → str → (AuthorshipLog → AuthorshipLog) → result str;
  rewrite_metrics_enabled : bool
}.

Inductive RewriteEvent :=
  | NonFastForward (old_tip new_tip : str) (onto : option str)
  | CherryPickComplete (sources new_commits : list str)
  | SquashMerge (source_head squash_commit onto : str).

(** The metrics of the commits a rewrite made. *)
Abbreviation RewriteOutcome := (list RewriteMetricCommit).

Section Events.
Context `{order : HashOrder}.
Variable version : str.
Variable to_string_pretty : AuthorshipMetadata → option str.
Variable from_str : str → option AuthorshipMetadata.
Variable repo : Repository.

Local Abbreviation read_note := (NoteFormat.deserialize_from_string from_str).
Local Abbreviation shift_merging_existing :=
  (shift_authorship_notes_merging_existing_with_notes to_string_pretty from_str (notes_git repo)).

Definition write_authorship_log (commit_sha : str) (log : AuthorshipLog) : result str :=
  match NoteFormat.serialize_to_string to_string_pretty log with
  | None => Fail (lit "failed to serialize rewrite authorship log")
  | Some serialized =>
      let? _ := write_notes_batch (notes_git repo) [(commit_sha, serialized)] in
      Ret serialized
  end.

Definition write_authorship_log_for_metrics (commit_sha : str) (log : AuthorshipLog) : result (option str) :=
  let? serialized := write_authorship_log commit_sha log in
  Ret (if rewrite_metrics_enabled repo then Some serialized else None).

Definition post_squash_resolution_working_log (onto squash_commit : str) (existing_shifted_log : option AuthorshipLog) :
    result (option str) :=
  if negb (has_working_log repo onto) then
    match existing_shifted_log with
    | Some log => write_authorship_log_for_metrics squash_commit log
    | None => Ret None
    end
  else
    let? note := post_commit_with_transform repo onto squash_commit
      (λ resolution_log, merge_conflict_resolution_authorship version existing_shifted_log resolution_log squash_commit) in
    Ret (if rewrite_metrics_enabled repo then Some note else None).

Definition squash_metric_outcome (squash_commit : str) (sources : list str) (onto : str) (note : option str) : RewriteOutcome :=
  if negb (rewrite_metrics_enabled repo) then []
  else [attach_authorship_note (with_parent_sha (new_metric squash_commit sources SquashMergeOperation) onto) note].

(** *** Squash merges *)

(** The log a commit already has, when it attests anything. *)
Definition existing_target (squash_commit : str) : result (option AuthorshipLog) :=
  let? target_notes := read_notes_batch (notes_git repo) [squash_commit] in
  match target_notes !! squash_commit with
  | None => Ret None
  | Some raw =>
      match read_note raw with
      | Panic => Panic
      | Fail _ => Ret None
      | Ret log => Ret (if bool_decide (attestations log = []) then None else Some log)
      end
  end.

Definition squash_sources (source_head onto : str) : list str :=
  let base := default onto (RangeDiff.find_merge_base (history_git repo) source_head onto) in
  let source_commits := RangeDiff.list_commits_in_range (history_git repo) base source_head in
  if bool_decide (source_commits = []) then [source_head] else source_commits.

(** A source log and where its diff to the head is. *)
Record SourceNote := mkSource { source_log : AuthorshipLog; diff_idx : option nat }.

Fixpoint collect_sources (source_head : str) (notes_map : gmap str str) (notes : list SourceNote)
    (diff_pairs : list (str * str)) (sources : list str) : result (list SourceNote * list (str * str)) :=
  match sources with
  | [] => Ret (notes, diff_pairs)
  | src_sha :: sources' =>
      match notes_map !! src_sha with
      | None => collect_sources source_head notes_map notes diff_pairs sources'
      | Some raw =>
          match read_note raw with
          | Panic => Panic
          | Fail _ => collect_sources source_head notes_map notes diff_pairs sources'
          | Ret log =>
              if str_eqb src_sha source_head then
                collect_sources source_head notes_map (notes ++ [mkSource log None]) diff_pairs sources'
              else
                collect_sources source_head notes_map (notes ++ [mkSource log (Some (length diff_pairs))])
                  (diff_pairs ++ [(src_sha, source_head)]) sources'
          end
      end
  end.

Definition with_attestations (log : AuthorshipLog) (fs : list FileAttestation) : AuthorshipLog := mkLog fs (metadata log).

(** A source log in the coordinates of the head. *)
Definition source_at_head (diff_results : list DiffTreeResult) (note : SourceNote) : result AuthorshipLog :=
  match diff_idx note with
  | None => Ret (source_log note)
  | Some idx =>
      match diff_results !! idx with
      | None => Panic
      | Some diff => Ret (with_attestations (source_log note) (shift_attestations diff (attestations (source_log note))))
      end
  end.

Fixpoint merge_sources (diff_results : list DiffTreeResult) (merged_log : option AuthorshipLog) (notes : list SourceNote) :
    result (option AuthorshipLog) :=
  match notes with
  | [] => Ret merged_log
  | note :: notes' =>
      let? log := source_at_head diff_results note in
      merge_sources diff_results
        (Some (match merged_log with Some existing => merge_authorship_logs existing log | None => log end)) notes'
  end.

(** The merged sources in the squash commit, under what it already has. *)
Definition squash_log (diff : DiffTreeResult) (merged_log : AuthorshipLog) (squash_commit : str)
    (existing_target_log : option AuthorshipLog) : AuthorshipLog :=
  let final_log := mkLog (shift_attestations diff (attestations merged_log))
                     (set_base_commit (metadata merged_log) squash_commit) in
  match existing_target_log with
  | Some existing => merge_conflict_resolution_authorship version (Some final_log) existing squash_commit
  | None => final_log
  end.

Definition handle_squash_merge (source_head squash_commit onto : str) : result RewriteOutcome :=
  let? existing_target_log := existing_target squash_commit in
  let sources := squash_sources source_head onto in
  let? source_notes_map := read_notes_batch (notes_git repo) sources in
  let? (source_notes, diff_pairs) := collect_sources source_head source_notes_map [] [] sources in
  let finish note := Ret (squash_metric_outcome squash_commit sources onto note) in
  if bool_decide (source_notes = []) then
    match existing_target_log with
    | Some existing_log =>
        if negb (has_working_log repo onto) then
          let? note := write_authorship_log_for_metrics squash_commit existing_log in finish note
        else
          let? note := post_squash_resolution_working_log onto squash_commit existing_target_log in finish note
    | None =>
        let? note := post_squash_resolution_working_log onto squash_commit existing_target_log in finish note
    end
  else
    let final_diff_idx := length diff_pairs in
    let? diff_results := compute_diff_trees_batch (notes_git repo) (diff_pairs ++ [(source_head, squash_commit)]) in
    let? merged_log := merge_sources diff_results None source_notes in
    match merged_log with
    | None => Ret []
    | Some merged_log =>
        match diff_results !! final_diff_idx with
        | None => Panic
        | Some diff_result =>
            let shifted_log := squash_log diff_result merged_log squash_commit existing_target_log in
            if has_working_log repo onto then
              let? note := post_squash_resolution_working_log onto squash_commit (Some shifted_log) in finish note
            else
              let? note := write_authorship_log_for_metrics squash_commit shifted_log in finish note
        end
    end.

(** *** All events *)

Definition shift_mappings (mappings : list (str * str)) (op : RewriteMetricOperation) : result RewriteOutcome :=
  if bool_decide (mappings = []) then Ret []
  else
    let? shifted_notes := shift_merging_existing mappings in
    if negb (rewrite_metrics_enabled repo) then Ret []
    else Ret (attach_authorship_notes (metric_commits_from_mappings mappings op) shifted_notes).

Definition handle_non_fast_forward_rewrite_with_operation (old_tip new_tip : str) (onto : option str)
    (op : RewriteMetricOperation) : result RewriteOutcome :=
  let? mappings := RangeDiff.derive_mappings_from_range_diff (history_git repo) old_tip new_tip onto in
  shift_mappings mappings op.

Definition handle_rewrite_event_with_metrics (event : RewriteEvent) : result RewriteOutcome :=
  match event with
  | SquashMerge source_head squash_commit onto => handle_squash_merge source_head squash_commit onto
  | NonFastForward old_tip new_tip onto =>
      handle_non_fast_forward_rewrite_with_operation old_tip new_tip onto NonFastForwardOperation
  | CherryPickComplete sources new_commits => shift_mappings (combine sources new_commits) CherryPick
  end.

Definition handle_rewrite_event (event : RewriteEvent) : result unit :=
  let? _ := handle_rewrite_event_with_metrics event in Ret tt.

Definition handle_non_fast_forward_rewrite (old_tip new_tip : str) (onto : option str) : result unit :=
  let? _ := handle_non_fast_forward_rewrite_with_operation old_tip new_tip onto NonFastForwardOperation in Ret tt.

End Events.

End RewriteEvents.
