(* ===== verification/CliParser.v ===== *)
(** * Parser of git command lines

    src/src/git/cli_parser.rs: the split of the arguments after [git] into
    global options, the command and its arguments, and the helpers that read the
    arguments of a command. *)

From S2P Require Import Prelude Text.

(** ** Definitions *)

Module CliParser.

(** A token is one of the words of a [matches!]. *)
Definition one_of (words : list string) (tok : str) : bool := existsb (λ w, str_eqb tok (lit w)) words.

Definition is_option (tok : str) : bool := starts_with (lit "-") tok.
Definition contains_char (c : ascii) (s : str) : bool := existsb (Ascii.eqb c) s.

Record ParsedGitInvocation := mkInvocation {
  global_args : list str;
  command : option str;
  command_args : list str;
  saw_end_of_opts : bool;
  is_help : bool
}.

Definition to_invocation_vec (p : ParsedGitInvocation) : list str :=
  global_args p ++ (if saw_end_of_opts p then [lit "--"] else []) ++ option_list (command p) ++ command_args p.

Definition has_command_flag (p : ParsedGitInvocation) (flag : str) : bool := existsb (str_eqb flag) (command_args p).

Definition is_flag_with_value (flag : str) : bool :=
  one_of ["-m"; "--message"; "-F"; "--file"; "-t"; "--template"; "-e"; "--edit"; "--author"; "--date"; "-s"; "--strategy";
    "-X"; "--strategy-option"; "--since"; "--until"; "--before"; "--after"; "--format"; "--pretty"; "-n"; "--max-count";
    "--skip"; "-b"; "-B"; "-u"; "--set-upstream"; "--config"; "--depth"; "--shallow-since"]%string flag.

(** The loop over the arguments; the count of positionals is a [u8]. *)
Fixpoint pos_loop (n positional_count : Z) (skip_next : bool) (args : list str) : option str :=
  match args with
  | [] => None
  | arg :: args' =>
      if skip_next then pos_loop n positional_count false args'
      else if is_option arg then
        if contains_char "=" arg then pos_loop n positional_count false args'
        else pos_loop n positional_count (is_flag_with_value arg) args'
      else if (positional_count =? n)%Z then Some arg
      else pos_loop n ((positional_count + 1) mod 256)%Z false args'
  end.

Definition pos_command (p : ParsedGitInvocation) (n : Z) : option str := pos_loop n 0 false (command_args p).

Fixpoint pathspecs_of (args : list str) : list str :=
  match args with
  | [] => []
  | arg :: args' => if str_eqb arg (lit "--") then args' else pathspecs_of args'
  end.

Definition pathspecs (p : ParsedGitInvocation) : list str := pathspecs_of (command_args p).

(** *** Rebase *)

Record RebaseArgsSummary := mkRebase {
  is_control_mode : bool;
  has_root : bool;
  onto_spec : option str;
  positionals : list str
}.

Definition rebase_takes_value (arg : str) : bool :=
  one_of ["-s"; "--strategy"; "-X"; "--strategy-option"; "-x"; "--exec"; "--empty"; "-C"; "-S"; "--gpg-sign"]%string arg.

Definition is_control_word (arg : str) : bool :=
  one_of ["--continue"; "--abort"; "--skip"; "--quit"; "--show-current-patch"]%string arg.

Fixpoint rebase_loop (args : list str) (root : bool) (onto : option str) (pos : list str) : RebaseArgsSummary :=
  match args with
  | [] => mkRebase false root onto pos
  | arg :: args' =>
      if str_eqb arg (lit "--") then mkRebase false root onto pos
      else if str_eqb arg (lit "--onto") then
        match args' with
        | next :: args'' => rebase_loop args'' root (Some next) pos
        | [] => mkRebase false root onto pos
        end
      else
        match strip_prefix (lit "--onto=") arg with
        | Some spec => rebase_loop args' root (Some spec) pos
        | None =>
            if str_eqb arg (lit "--root") then rebase_loop args' true onto pos
            else if is_option arg then
              if rebase_takes_value arg && negb (contains_char "=" arg) then
                match args' with _ :: args'' => rebase_loop args'' root onto pos | [] => mkRebase false root onto pos end
              else rebase_loop args' root onto pos
            else rebase_loop args' root onto (pos ++ [arg])
        end
  end.

Definition summarize_rebase_args (args : list str) : RebaseArgsSummary :=
  if existsb is_control_word args then mkRebase true false None [] else rebase_loop args false None [].

Definition rebase_has_control_mode (args : list str) : bool := is_control_mode (summarize_rebase_args args).

Definition explicit_rebase_branch_arg (args : list str) : option str :=
  let summary := summarize_rebase_args args in
  if is_control_mode summary then None
  else if has_root summary then head (positionals summary)
  else positionals summary !! 1.

(** *** Stash *)

Definition stash_subcommand (args : list str) : option str :=
  match args with
  | a :: _ => if one_of ["push"; "save"; "apply"; "pop"; "drop"; "list"; "branch"; "show"]%string a then Some a else None
  | [] => None
  end.

Definition stash_requires_target_resolution (args : list str) : bool :=
  match stash_subcommand args with
  | Some a => one_of ["apply"; "pop"; "drop"; "branch"]%string a
  | None => false
  end.

Fixpoint stash_loop (is_branch saw_separator first : bool) (args : list str) : option str :=
  match args with
  | [] => None
  | arg :: args' =>
      if str_eqb arg (lit "--") then stash_loop is_branch true first args'
      else if negb saw_separator && is_option arg then stash_loop is_branch saw_separator first args'
      else if is_branch && first then stash_loop is_branch saw_separator false args'
      else Some arg
  end.

Definition stash_target_spec (args : list str) : option str :=
  if negb (stash_requires_target_resolution args) then None
  else
    let is_branch := match stash_subcommand args with Some a => str_eqb a (lit "branch") | None => false end in
    stash_loop is_branch false true (drop 1 args).

(** *** The command line *)

Inductive Kind := GlobalNoValue | GlobalTakesValue | MetaNoValue | Unknown.

Definition is_eq_form (tok long : str) : bool :=
  (length long + 1 <? length tok) && starts_with long tok && bool_decide (tok !! length long = Some "="%char).

Definition long_value_options : list string :=
  ["--git-dir"; "--work-tree"; "--namespace"; "--config-env"; "--list-cmds"; "--attr-source"; "--super-prefix"]%string.

Definition takes_value_form (long : string) (tok : str) : bool := str_eqb tok (lit long) || is_eq_form tok (lit long).

Definition classify (tok : str) : Kind :=
  if one_of ["-v"; "--version"; "-h"; "--help"; "--html-path"; "--man-path"; "--info-path"]%string tok then MetaNoValue
  else if takes_value_form "--exec-path" tok then GlobalTakesValue
  else if one_of ["-p"; "--paginate"; "-P"; "--no-pager"; "--no-replace-objects"; "--no-lazy-fetch"; "--no-optional-locks";
      "--no-advice"; "--bare"; "--literal-pathspecs"; "--no-literal-pathspecs"; "--glob-pathspecs"; "--no-glob-pathspecs";
      "--noglob-pathspecs"; "--no-noglob-pathspecs"; "--icase-pathspecs"; "--no-icase-pathspecs"]%string tok then GlobalNoValue
  else if starts_with (lit "-C") tok || starts_with (lit "-c") tok then GlobalTakesValue
  else if existsb (λ long, takes_value_form long tok) long_value_options then GlobalTakesValue
  else Unknown.

Definition value_key (tok : str) : str :=
  default [] (List.find (λ key, starts_with key tok) (map lit (("-C" :: "-c" :: long_value_options)%string))).

(** Has the token its value attached?  [find('=')] at a positive index. *)
Definition has_attached_value (tok key : str) : bool :=
  (starts_with (lit "--") tok && contains_char "=" tok && negb (starts_with (lit "=") tok))
  || (str_eqb key (lit "-C") && negb (str_eqb tok (lit "-C")) && starts_with (lit "-C") tok)
  || (str_eqb key (lit "-c") && negb (str_eqb tok (lit "-c")) && starts_with (lit "-c") tok).

(** The first pass: the global options, the buffered meta options, whether [--]
    was seen, and what is left. *)
Fixpoint scan (args globals meta : list str) : list str * list str * bool * list str :=
  match args with
  | [] => (globals, meta, false, [])
  | tok :: args' =>
      if str_eqb tok (lit "--") then (globals, meta, true, args')
      else
        match classify tok with
        | GlobalNoValue => scan args' (globals ++ [tok]) meta
        | GlobalTakesValue =>
            if has_attached_value tok (value_key tok) then scan args' (globals ++ [tok]) meta
            else
              match args' with
              | value :: args'' => scan args'' (globals ++ [tok; value]) meta
              | [] => scan args' (globals ++ [tok]) meta
              end
        | MetaNoValue => scan args' globals (meta ++ [tok])
        | Unknown => (globals, meta, false, args)
        end
  end.

Definition is_help_token (t : str) : bool := one_of ["--help"; "-h"]%string t.
Definition is_version_token (t : str) : bool := one_of ["--version"; "-v"]%string t.

(** All but the first element that satisfies a predicate. *)
Fixpoint without_first (p : str → bool) (l : list str) : list str :=
  match l with
  | [] => []
  | t :: l' => if p t then l' else t :: without_first p l'
  end.

(** The command and its arguments before the rewrites. *)
Definition split_command (meta : list str) (saw : bool) (rest : list str) : option str * list str :=
  match rest with
  | [] => (None, meta)
  | tok :: rest' => if saw || negb (is_option tok) then (Some tok, rest') else (None, meta ++ rest)
  end.

(** The rewrites to [git help] and [git version]. *)
Definition rewrite_meta (meta : list str) (cmd : option str) (args : list str) : option str * list str :=
  match cmd with
  | Some orig_cmd =>
      if existsb is_help_token meta then (Some (lit "help"), orig_cmd :: args)
      else if existsb is_version_token meta then (Some (lit "version"), without_first is_version_token meta)
      else (cmd, args)
  | None =>
      if existsb is_help_token meta then
        (Some (lit "help"),
         List.filter (λ t, negb (is_version_token t)) (without_first is_help_token meta)
         ++ List.filter (λ t, negb (is_help_token t || is_version_token t)) args)
      else if existsb is_version_token meta then
        (Some (lit "version"), List.filter is_option (without_first is_version_token args))
      else (cmd, args)
  end.

Definition parse_git_cli_args (args : list str) : ParsedGitInvocation :=
  let '(globals, meta, saw, rest) := scan args [] [] in
  let '(cmd, cargs) := split_command meta saw rest in
  let '(cmd', cargs') := rewrite_meta meta cmd cargs in
  mkInvocation globals cmd' cargs' saw
    (match cmd' with Some c => str_eqb c (lit "help") || str_eqb c (lit "--help") | None => false end
     || existsb is_help_token meta || existsb is_help_token cargs').

Definition is_dry_run (args : list str) : bool := existsb (str_eqb (lit "--dry-run")) args.

(** *** Clone *)

Fixpoint clone_positionals (after_double_dash : bool) (args : list str) : list str :=
  match args with
  | [] => []
  | arg :: args' =>
      if after_double_dash then arg :: clone_positionals true args'
      else if str_eqb arg (lit "--") then clone_positionals true args'
      else if is_flag_with_value arg then
        match args' with _ :: args'' => clone_positionals false args'' | [] => [] end
      else if is_option arg then clone_positionals false args'
      else arg :: clone_positionals false args'
  end.

Definition is_separator (c : ascii) : bool := Ascii.eqb c "/" || Ascii.eqb c "\".

(** What follows the last character that satisfies a predicate, if any. *)
Fixpoint after_last_char (p : ascii → bool) (s : str) : option str :=
  match s with
  | [] => None
  | c :: s' => match after_last_char p s' with Some t => Some t | None => if p c then Some s' else None end
  end.

Definition trim_end_chars (p : ascii → bool) (s : str) : str := rev (drop_while p (rev s)).

Definition strip_suffix (suffix s : str) : option str :=
  match strip_prefix (rev suffix) (rev s) with Some t => Some (rev t) | None => None end.

Definition derive_directory_from_url (url : str) : option str :=
  let url := trim_end_chars is_separator url in
  let last_component :=
    match after_last_char is_separator url with
    | Some t => t
    | None => default url (after_last_char (Ascii.eqb ":") url)
    end in
  if bool_decide (last_component = []) then None
  else
    let dir_name := default last_component (strip_suffix (lit ".git") last_component) in
    if bool_decide (dir_name = []) then None else Some dir_name.

Definition extract_clone_target_directory (args : list str) : option str :=
  match clone_positionals false args with
  | [] => None
  | [repo_url] => derive_directory_from_url repo_url
  | _ :: dir :: _ => Some dir
  end.

End CliParser.

(** ** Lemmas *)

Module CliParserFacts.
Import CliParser.

Lemma one_of_true words tok : one_of words tok = true ↔ ∃ w, In w words ∧ tok = lit w.
Proof. unfold one_of. rewrite existsb_exists. setoid_rewrite str_eqb_eq. done. Qed.

(** Words that all start with a dash are options. *)
Lemma one_of_options words tok : forallb (λ w, is_option (lit w)) words = true → one_of words tok = true → is_option tok = true.
Proof. intros Hw (w & Hin & ->)%one_of_true. rewrite forallb_forall in Hw. by apply Hw. Qed.

Lemma starts_with_dash p tok : is_option p = true → starts_with p tok = true → is_option tok = true.
Proof.
  unfold is_option. rewrite !starts_with_spec. intros [a ->] [b ->]. exists (a ++ b). by rewrite app_assoc.
Qed.

Lemma takes_value_option long tok : is_option (lit long) = true → takes_value_form long tok = true → is_option tok = true.
Proof.
  unfold takes_value_form, is_eq_form. intros Hl [->%str_eqb_eq|H]%orb_true_iff; [done|].
  rewrite !andb_true_iff in H. destruct H as [[_ H] _]. by eapply starts_with_dash.
Qed.

(** A word is not an option of git. *)
Lemma classify_word tok : is_option tok = false → classify tok = Unknown.
Proof.
  intros Hw. assert (∀ b, (b = true → is_option tok = true) → b = false) as Hno.
  { intros b Hb. destruct b; [|done]. rewrite Hb in Hw by done. done. }
  unfold classify. rewrite (Hno (one_of _ tok)) by by apply one_of_options.
  rewrite (Hno (takes_value_form _ tok)) by by apply takes_value_option.
  rewrite (Hno (one_of _ tok)) by by apply one_of_options.
  rewrite (Hno (_ || _)) by (intros [H|H]%orb_true_iff; (eapply starts_with_dash; [|exact H]; done)).
  rewrite (Hno (existsb _ _)); [done|]. rewrite existsb_exists. intros (l & Hl & H). eapply takes_value_option; [|exact H].
  assert (forallb (λ l, is_option (lit l)) long_value_options = true) as Hall by (vm_compute; done).
  rewrite forallb_forall in Hall. by apply Hall.
Qed.

Lemma word_not_separator tok : is_option tok = false → str_eqb tok (lit "--") = false.
Proof. intros H. destruct (str_eqb tok (lit "--")) eqn:E; [|done]. apply str_eqb_eq in E. subst tok. done. Qed.

(** *** The first pass *)

(** A list of global options with their values. *)
Definition closed (g : list str) : Prop := ∀ tail globals meta, scan (g ++ tail) globals meta = scan tail (globals ++ g) meta.

Lemma closed_nil : closed [].
Proof. intros tail globals meta. by rewrite app_nil_r. Qed.

Lemma closed_app g1 g2 : closed g1 → closed g2 → closed (g1 ++ g2).
Proof. intros H1 H2 tail globals meta. by rewrite <-app_assoc, H1, H2, <-app_assoc. Qed.

(** No option waits for a value at the end. *)
Fixpoint complete (args : list str) : bool :=
  match args with
  | [] => true
  | tok :: args' =>
      if str_eqb tok (lit "--") then true
      else
        match classify tok with
        | GlobalTakesValue =>
            if has_attached_value tok (value_key tok) then complete args'
            else match args' with _ :: args'' => complete args'' | [] => false end
        | Unknown => true
        | _ => complete args'
        end
  end.

(** What the first pass leaves. *)
Record scanned (args globals meta globals' meta' : list str) (saw : bool) (rest : list str) : Prop := mkScanned {
  scan_metas : ∃ m, meta' = meta ++ m ∧ Forall (λ t, classify t = MetaNoValue ∧ str_eqb t (lit "--") = false) m;
  scan_globals : ∃ g, globals' = globals ++ g ∧ (complete args = true → closed g);
  scan_rest : saw = false → rest = [] ∨ ∃ t r, rest = t :: r ∧ classify t = Unknown ∧ str_eqb t (lit "--") = false;
  scan_all : meta' = [] → globals ++ args = globals' ++ (if saw then [lit "--"] else []) ++ rest
}.

Lemma scan_parts args : ∀ globals meta globals' meta' saw rest,
  scan args globals meta = (globals', meta', saw, rest) → scanned args globals meta globals' meta' saw rest.
Proof.
  induction (well_founded_ltof _ (@length str) args) as [args _ IH]. intros globals meta globals' meta' saw rest.
  destruct args as [|tok args']; cbn [scan complete].
  { intros [= <- <- <- <-]. split; [exists []|exists []|by left|done]; rewrite app_nil_r; split; auto using closed_nil. }
  assert (∀ args'', length args'' < length (tok :: args') → ltof _ (@length str) args'' (tok :: args')) as Hlt by done.
  destruct (str_eqb tok (lit "--")) eqn:Es.
  { apply str_eqb_eq in Es as ->. intros [= <- <- <- <-].
    split; [exists []|exists []|done|done]; rewrite app_nil_r; split; auto using closed_nil. }
  (* a group of global options *)
  assert (∀ g args'', tok :: args' = g ++ args'' → g ≠ [] →
    scan (tok :: args') globals meta = scan args'' (globals ++ g) meta →
    (complete (tok :: args') = true → closed g ∧ complete args'' = true) →
    scan args'' (globals ++ g) meta = (globals', meta', saw, rest) →
    scanned (tok :: args') globals meta globals' meta' saw rest) as Hgroup.
  { intros g args'' E Hg _ Hc Hs. apply IH in Hs as [Hm (g' & -> & Hg') Hr Ha].
    2:{ apply Hlt. rewrite E, length_app. destruct g; [done|cbn; lia]. }
    split; [done| |done|].
    - exists (g ++ g'). rewrite app_assoc. split; [done|]. intros [? ?]%Hc. apply closed_app; auto.
    - intros E'. rewrite E. rewrite <-Ha by done. by rewrite app_assoc. }
  destruct (classify tok) eqn:Ec.
  - intros Hs. eapply (Hgroup [tok] args'); [done|done| | |exact Hs].
    + cbn [scan]. by rewrite Es, Ec.
    + cbn [complete]. rewrite Es, Ec. intros Hc. split; [|done]. intros tail gl me. cbn [app scan]. by rewrite Es, Ec.
  - destruct (has_attached_value tok (value_key tok)) eqn:Ea.
    + intros Hs. eapply (Hgroup [tok] args'); [done|done| | |exact Hs].
      * cbn [scan]. by rewrite Es, Ec, Ea.
      * cbn [complete]. rewrite Es, Ec, Ea. intros Hc. split; [|done]. intros tail gl me. cbn [app scan]. by rewrite Es, Ec, Ea.
    + destruct args' as [|value args''].
      * intros Hs. eapply (Hgroup [tok] []); [done|done| | |exact Hs].
        -- cbn [scan]. by rewrite Es, Ec, Ea.
        -- cbn [complete]. by rewrite Es, Ec, Ea.
      * intros Hs. eapply (Hgroup [tok; value] args''); [done|done| | |exact Hs].
        -- cbn [scan]. by rewrite Es, Ec, Ea.
        -- cbn [complete]. rewrite Es, Ec, Ea. intros Hc. split; [|done]. intros tail gl me. cbn [app scan]. by rewrite Es, Ec, Ea.
  - intros Hs. apply IH in Hs as [(m & -> & Hm) (g & -> & Hg) Hr Ha]; [|apply Hlt; cbn; lia].
    split; [|exists g|done|].
    + exists (tok :: m). rewrite <-app_assoc. split; [done|]. by constructor.
    + split; [done|]. cbn [complete]. by rewrite Es, Ec.
    + intros E. exfalso. rewrite <-app_assoc in E. by destruct meta.
  - intros [= <- <- <- <-]. split; [exists []|exists []|right; eauto|done]; rewrite app_nil_r; split; auto using closed_nil.
Qed.

(** Meta options are buffered. *)
Lemma scan_meta m rest : Forall (λ t, classify t = MetaNoValue ∧ str_eqb t (lit "--") = false) m →
  (rest = [] ∨ ∃ t r, rest = t :: r ∧ classify t = Unknown ∧ str_eqb t (lit "--") = false) →
  ∀ globals meta, scan (m ++ rest) globals meta = (globals, meta ++ m, false, rest).
Proof.
  intros Hm Hr. induction Hm as [|t m [Hc Hs] _ IH]; intros globals meta; cbn [app scan].
  - rewrite app_nil_r. destruct Hr as [->|(t & r & -> & Hc & Hs)]; [done|]. cbn [scan]. by rewrite Hs, Hc.
  - rewrite Hs, Hc, IH, <-app_assoc. done.
Qed.

(** *** The rewrites *)

Lemma rewrite_no_meta cmd args : rewrite_meta [] cmd args = (cmd, args).
Proof. by destruct cmd. Qed.

(** A rewritten command is a word when the command is. *)
Lemma rewrite_word meta cmd args cmd' args' c :
  rewrite_meta meta cmd args = (cmd', args') → (∀ c, cmd = Some c → is_option c = false) → cmd' = Some c → is_option c = false.
Proof.
  unfold rewrite_meta. intros E Hw ->.
  destruct cmd as [c0|], (existsb is_help_token meta), (existsb is_version_token meta); try discriminate;
    injection E; intros; subst; done || by apply Hw.
Qed.

(** The help flag only depends on the rewritten command and its arguments. *)
Lemma rewrite_help meta cmd args cmd' args' :
  rewrite_meta meta cmd args = (cmd', args') → existsb is_help_token meta = true → cmd' = Some (lit "help").
Proof. unfold rewrite_meta. intros E H. rewrite H in E. by destruct cmd; injection E as <- _. Qed.

(** Without a command nothing was rewritten. *)
Lemma rewrite_none meta cmd args args' :
  rewrite_meta meta cmd args = (None, args') →
  cmd = None ∧ args' = args ∧ existsb is_help_token meta = false ∧ existsb is_version_token meta = false.
Proof.
  unfold rewrite_meta. destruct cmd, (existsb is_help_token meta), (existsb is_version_token meta); intros E; try discriminate;
    injection E; auto.
Qed.

Lemma split_none meta saw rest args :
  split_command meta saw rest = (None, args) → args = meta ++ rest ∧ (saw = true → rest = []).
Proof.
  unfold split_command. destruct rest as [|t r]; [intros [= <-]; by rewrite app_nil_r|].
  destruct saw; [done|]. cbn. destruct (negb (is_option t)); [done|]. by intros [= <-].
Qed.

Lemma split_word meta rest cmd args c : split_command meta false rest = (cmd, args) → cmd = Some c → is_option c = false.
Proof.
  unfold split_command. destruct rest as [|t r]; [by intros [= <- _]|]. cbn.
  destruct (is_option t) eqn:E; cbn; [by intros [= <- _]|]. intros [= <- _] [= <-]. done.
Qed.

(** *** Ends of a URL *)

Lemma trim_end_chars_spec p s : ∃ trimmed, s = trim_end_chars p s ++ trimmed ∧ Forall (λ c, p c = true) trimmed.
Proof.
  unfold trim_end_chars. induction s as [|c s IH] using rev_ind; [by exists []|].
  rewrite rev_app_distr. cbn [rev app drop_while]. destruct (p c) eqn:E.
  - destruct IH as (t & Hs & Ht). exists (t ++ [c]). rewrite app_assoc, <-Hs. split; [done|]. apply Forall_app. auto.
  - exists []. rewrite app_nil_r. cbn [rev]. rewrite rev_involutive. done.
Qed.

Lemma after_last_char_some p s t : after_last_char p s = Some t →
  ∃ b c, s = b ++ c :: t ∧ p c = true ∧ Forall (λ c, p c = false) t.
Proof.
  revert t. induction s as [|c s IH]; intros t; [done|]. cbn [after_last_char].
  assert (after_last_char p s = None → Forall (λ c, p c = false) s) as Hnone.
  { clear. induction s as [|c s IH]; [done|]. cbn [after_last_char]. destruct (after_last_char p s); [done|].
    destruct (p c) eqn:E; [done|]. auto. }
  destruct (after_last_char p s) as [t'|].
  - intros [= <-]. destruct (IH t' eq_refl) as (b & c' & -> & Hc & Ht). by exists (c :: b), c'.
  - destruct (p c) eqn:E; [|done]. intros [= <-]. exists [], c. auto.
Qed.

Lemma after_last_char_none p s : after_last_char p s = None → Forall (λ c, p c = false) s.
Proof.
  induction s as [|c s IH]; [done|]. cbn [after_last_char]. destruct (after_last_char p s); [done|].
  destruct (p c) eqn:E; [done|]. auto.
Qed.

Lemma strip_suffix_spec suffix s t : strip_suffix suffix s = Some t → s = t ++ suffix.
Proof.
  unfold strip_suffix. destruct (strip_prefix (rev suffix) (rev s)) as [r|] eqn:E; [|done]. intros [= <-].
  apply strip_prefix_spec in E. apply (f_equal (@rev _)) in E. by rewrite rev_involutive, rev_app_distr, rev_involutive in E.
Qed.

(** The last component of a URL. *)
Lemma last_component_spec url last :
  match after_last_char is_separator url with Some t => t | None => default url (after_last_char (Ascii.eqb ":") url) end = last →
  Forall (λ c, is_separator c = false) last ∧ ∃ before, url = before ++ last ∧
    (before = [] ∨ ∃ b c, before = b ++ [c] ∧
       (is_separator c = true ∨ (c = ":"%char ∧ Forall (λ c, is_separator c = false) b))).
Proof.
  intros <-. destruct (after_last_char is_separator url) as [t|] eqn:E.
  - apply after_last_char_some in E as (b & c & -> & Hc & Ht). split; [done|]. exists (b ++ [c]).
    rewrite <-app_assoc. split; [done|]. right. eauto.
  - apply after_last_char_none in E. destruct (after_last_char (Ascii.eqb ":") url) as [t|] eqn:E'; cbn.
    + apply after_last_char_some in E' as (b & c & -> & Hc & _). apply Forall_app in E as [Hb Ht]. inversion_clear Ht.
      split; [done|]. exists (b ++ [c]). rewrite <-app_assoc. split; [done|]. right. exists b, c. split; [done|]. right.
      apply Ascii.eqb_eq in Hc. auto.
    + split; [done|]. exists []. auto.
Qed.

End CliParserFacts.

(** ** Properties *)

Module CliParserProps.
Import CliParser CliParserFacts.

(** the parts of a command line.  Without an option that only git itself
    answers before the command, the parts put back together are the command
    line.  In any case they are read again as they are, when no global option
    lacks its value and a lone [--] follows no such option. *)
Theorem invocation_round_trip (args : list str) :
  let p := parse_git_cli_args args in
  ((scan args [] []).1.1.2 = [] → to_invocation_vec p = args) ∧
  (complete args = true → (saw_end_of_opts p = true → is_Some (command p) ∨ command_args p = []) →
   parse_git_cli_args (to_invocation_vec p) = p).
Proof.
  intros p. unfold p, parse_git_cli_args, to_invocation_vec. destruct (scan args [] []) as [[[globals meta] saw] rest] eqn:Es.
  apply scan_parts in Es as [(m & Hm & Hmetas) (g & Hg & Hclosed) Hrest Hall]. cbn [app] in Hm, Hg, Hall. subst m g. cbn [fst snd]. split.
  - intros Hm. rewrite (Hall Hm). subst meta. unfold split_command. destruct rest as [|t r].
    + cbn. by destruct saw.
    + destruct (saw || negb (is_option t)); cbn; by destruct saw.
  - intros Hc Hlone. specialize (Hclosed Hc). destruct (split_command meta saw rest) as [cmd cargs] eqn:Esplit.
    destruct (rewrite_meta meta cmd cargs) as [cmd' cargs'] eqn:Erw.
    cbn [global_args command command_args saw_end_of_opts] in Hlone |- *. rewrite Hclosed. cbn [app].
    destruct cmd' as [c|].
    + assert (existsb is_help_token meta = true → str_eqb c (lit "help") = true) as Hhelp.
      { intros H. apply (rewrite_help _ _ _ _ _ Erw) in H. by injection H as ->. }
      assert (scan ((if saw then [lit "--"] else []) ++ option_list (Some c) ++ cargs') globals [] =
        (globals, [], saw, c :: cargs')) as ->.
      { destruct saw; [done|]. cbn [app option_list]. assert (is_option c = false) as Hw.
        { eapply rewrite_word; [exact Erw| |done]. intros c0 ->. by eapply split_word. }
        change (scan (c :: cargs') globals [] = (globals, [], false, c :: cargs')). cbn [scan].
        by rewrite word_not_separator, classify_word by done. }
      assert (split_command [] saw (c :: cargs') = (Some c, cargs')) as ->.
      { unfold split_command. destruct saw; [done|]. cbn. assert (is_option c = false) as ->; [|done].
        eapply rewrite_word; [exact Erw| |done]. intros c0 ->. by eapply split_word. }
      rewrite rewrite_no_meta. f_equal. cbn [existsb]. destruct (existsb is_help_token meta); [|done]. by rewrite Hhelp.
    + apply rewrite_none in Erw as (-> & -> & Hh & Hv).
      pose proof Esplit as Esplit'. apply split_none in Esplit as [-> Hs]. destruct saw.
      * rewrite Hs in * by done. rewrite app_nil_r in *. destruct (Hlone eq_refl) as [[? ?]| ->]; done.
      * cbn [app option_list]. rewrite (scan_meta meta rest) by (done || by apply Hrest). cbn [app].
        rewrite Esplit'. unfold rewrite_meta. by rewrite Hh, Hv.
Qed.

(** the directory of a clone.  It is nonempty, has no path separator, and ends
    the URL up to [.git] and separators; what precedes it ends with a separator,
    or with a colon or nothing when the URL has no separator before it. *)
Theorem clone_directory_ends_url (url dir : str) (derived : derive_directory_from_url url = Some dir) :
  dir ≠ [] ∧ Forall (λ c, is_separator c = false) dir ∧
  ∃ before git separators, url = before ++ dir ++ git ++ separators ∧
    (git = [] ∨ git = lit ".git") ∧ Forall (λ c, is_separator c = true) separators ∧
    (before = [] ∨ ∃ b c, before = b ++ [c] ∧
       (is_separator c = true ∨ (c = ":"%char ∧ Forall (λ c, is_separator c = false) b))).
Proof.
  revert derived. unfold derive_directory_from_url.
  destruct (trim_end_chars_spec is_separator url) as (separators & Hurl & Hseps).
  destruct (last_component_spec (trim_end_chars is_separator url) _ eq_refl) as (Hlast & before & Hbefore & Hb).
  set (last := match after_last_char is_separator _ with Some t => t | None => _ end) in *.
  case_bool_decide; [done|]. case_bool_decide as Hne; [done|]. intros [= <-]. split; [done|].
  set (dir := default last _) in *.
  assert (∃ git, last = dir ++ git ∧ (git = [] ∨ git = lit ".git")) as (git & Hdir & Hgit).
  { unfold dir. destruct (strip_suffix (lit ".git") last) as [t|] eqn:E; cbn.
    - apply strip_suffix_spec in E. eauto.
    - exists []. rewrite app_nil_r. auto. }
  split; [rewrite Hdir in Hlast; by apply Forall_app in Hlast as [? _]|].
  exists before, git, separators. split_and!; [|done..]. rewrite Hurl, Hbefore, Hdir, <-!app_assoc. done.
Qed.

(** *** Witnesses *)

Definition sample_args : list str := map lit ["-C"; "repo"; "--no-pager"; "--"; "commit"; "-m"; "--help"]%string.

Lemma invocation_round_trip_witness :
  complete sample_args = true ∧ command (parse_git_cli_args sample_args) = Some (lit "commit") ∧
  to_invocation_vec (parse_git_cli_args sample_args) = sample_args ∧
  parse_git_cli_args (to_invocation_vec (parse_git_cli_args sample_args)) = parse_git_cli_args sample_args.
Proof.
  destruct (invocation_round_trip sample_args) as [H1 H2]. split; [reflexivity|]. split; [reflexivity|].
  split; [apply H1; reflexivity|]. apply H2; [reflexivity|]. intros _. left. vm_compute. by eexists.
Defined.

Lemma clone_directory_ends_url_witness :
  derive_directory_from_url (lit "git@host:team/tool.git/") = Some (lit "tool") ∧ lit "tool" ≠ [].
Proof.
  assert (derive_directory_from_url (lit "git@host:team/tool.git/") = Some (lit "tool")) as H by reflexivity.
  split; [exact H|]. exact (proj1 (clone_directory_ends_url _ _ H)).
Defined.

End CliParserProps.
