(* ===== verification/CommandClass.v ===== *)
(** * Classification of git commands

    src/src/git/command_classification.rs: which invocations can change a
    repository, and which must be ordered within a family of worktrees. *)

From S2P Require Import Prelude Text CliParser.

(** ** Definitions *)

Module CommandClass.
Import CliParser(one_of, is_option).

Definition is_definitely_read_only_command (command : str) : bool :=
  one_of ["blame"; "cat-file"; "check-attr"; "check-ignore"; "check-mailmap"; "count-objects"; "describe"; "diff";
    "diff-files"; "diff-index"; "diff-tree"; "for-each-ref"; "grep"; "help"; "log"; "ls-files"; "ls-tree"; "merge-base";
    "name-rev"; "rev-list"; "rev-parse"; "shortlog"; "show"; "status"; "var"; "verify-commit"; "verify-tag"; "version"]%string
    command.

(** *** Arguments of branch and tag *)

Definition starts_with_any (words : list string) (arg : str) : bool := existsb (λ w, starts_with (lit w) arg) words.

Definition branch_arg_is_mutating (arg : str) : bool :=
  one_of ["-d"; "-D"; "--delete"; "-m"; "-M"; "--move"; "-c"; "-C"; "--copy"; "--set-upstream-to"; "--unset-upstream";
    "--edit-description"; "--create-reflog"]%string arg
  || starts_with (lit "--set-upstream-to=") arg.

Definition branch_arg_takes_optional_query_value (arg : str) : bool :=
  one_of ["--contains"; "--no-contains"; "--merged"; "--no-merged"]%string arg.

Definition branch_arg_takes_required_query_value (arg : str) : bool :=
  one_of ["--points-at"; "--sort"; "--format"; "--abbrev"]%string arg.

Definition branch_arg_is_inline_query_option (arg : str) : bool :=
  starts_with_any ["--points-at="; "--sort="; "--format="; "--color="; "--column="; "--abbrev="]%string arg.

Definition branch_arg_is_read_only_flag (arg : str) : bool :=
  one_of ["-a"; "--all"; "-r"; "--remotes"; "-v"; "-vv"; "--verbose"; "-q"; "--quiet"; "--show-current"; "--color"; "--no-color";
    "--column"; "--ignore-case"; "--no-column"; "--no-abbrev"; "--omit-empty"]%string arg.

(** [next] is the value of a query option. *)
Definition is_query_value (next : str) : bool := negb (is_option next) && negb (str_eqb next (lit "--")).

Fixpoint branch_loop (saw_list_mode : bool) (args : list str) : bool :=
  match args with
  | [] => true
  | arg :: args' =>
      if str_eqb arg (lit "--") then false
      else if branch_arg_is_mutating arg then false
      else if str_eqb arg (lit "--list") || str_eqb arg (lit "-l") then branch_loop true args'
      else if branch_arg_takes_optional_query_value arg then
        match args' with
        | next :: args'' => if is_query_value next then branch_loop saw_list_mode args'' else branch_loop saw_list_mode args'
        | [] => true
        end
      else if branch_arg_takes_required_query_value arg then
        match args' with
        | next :: args'' => if is_query_value next then branch_loop saw_list_mode args'' else false
        | [] => false
        end
      else if branch_arg_is_read_only_flag arg || branch_arg_is_inline_query_option arg then branch_loop saw_list_mode args'
      else if negb (is_option arg) && saw_list_mode then branch_loop saw_list_mode args'
      else false
  end.

Definition branch_invocation_is_read_only (args : list str) : bool := branch_loop false args.

Definition tag_arg_is_mutating (arg : str) : bool :=
  one_of ["-a"; "--annotate"; "-s"; "--sign"; "-u"; "--local-user"; "-m"; "--message"; "-F"; "--file"; "-d"; "--delete"; "-f";
    "--force"]%string arg
  || starts_with (lit "--local-user=") arg || starts_with (lit "--message=") arg || starts_with (lit "--file=") arg.

Definition tag_arg_takes_optional_query_value (arg : str) : bool :=
  one_of ["--contains"; "--no-contains"; "--merged"; "--no-merged"]%string arg.

Definition tag_arg_takes_required_query_value (arg : str) : bool := one_of ["--points-at"; "--sort"; "--format"]%string arg.

Definition tag_arg_is_inline_query_option (arg : str) : bool :=
  starts_with_any ["--points-at="; "--sort="; "--format="; "--color="; "--column="]%string arg.

Definition tag_arg_is_read_only_flag (arg : str) : bool :=
  one_of ["-n"; "--color"; "--column"; "--ignore-case"; "--no-column"; "--no-color"]%string arg || starts_with (lit "-n") arg.

Fixpoint tag_loop (query_mode : bool) (args : list str) : bool :=
  match args with
  | [] => true
  | arg :: args' =>
      if str_eqb arg (lit "--") then false
      else if tag_arg_is_mutating arg then false
      else if one_of ["-l"; "--list"; "-v"; "--verify"]%string arg then tag_loop true args'
      else if tag_arg_takes_optional_query_value arg then
        match args' with
        | next :: args'' => if is_query_value next then tag_loop true args'' else tag_loop true args'
        | [] => true
        end
      else if tag_arg_takes_required_query_value arg then
        match args' with
        | next :: args'' => if is_query_value next then tag_loop true args'' else false
        | [] => false
        end
      else if tag_arg_is_inline_query_option arg || tag_arg_is_read_only_flag arg then tag_loop true args'
      else if negb (is_option arg) && query_mode then tag_loop query_mode args'
      else false
  end.

Definition tag_invocation_is_read_only (args : list str) : bool := tag_loop false args.

(** *** The other commands *)

Fixpoint remote_invocation_is_read_only (args : list str) : bool :=
  match args with
  | [] => true
  | arg :: args' =>
      if one_of ["-v"; "--verbose"]%string arg then remote_invocation_is_read_only args'
      else one_of ["show"; "get-url"]%string arg
  end.

Definition first_word (args : list str) : option str := List.find (λ arg, negb (is_option arg)) args.

Definition stash_invocation_is_read_only (args : list str) : bool :=
  match first_word args with Some sub => one_of ["list"; "show"]%string sub | None => false end.

Definition worktree_invocation_is_read_only (args : list str) : bool :=
  match first_word args with Some sub => one_of ["list"]%string sub | None => false end.

Definition notes_is_read_only (args : list str) : bool :=
  match args with sub :: _ => one_of ["show"; "list"; "get-ref"]%string sub | [] => false end.

Definition is_definitely_read_only_git_invocation (command : str) (args : list str) : bool :=
  if is_definitely_read_only_command command then true
  else if str_eqb command (lit "branch") then branch_invocation_is_read_only args
  else if str_eqb command (lit "notes") then notes_is_read_only args
  else if str_eqb command (lit "remote") then remote_invocation_is_read_only args
  else if str_eqb command (lit "stash") then stash_invocation_is_read_only args
  else if str_eqb command (lit "tag") then tag_invocation_is_read_only args
  else if str_eqb command (lit "worktree") then worktree_invocation_is_read_only args
  else false.

Definition may_mutate_repo_state_command (command : str) : bool :=
  one_of ["branch"; "checkout"; "cherry-pick"; "clone"; "commit"; "fetch"; "init"; "merge"; "pull"; "push"; "rebase"; "remote";
    "reset"; "revert"; "stash"; "switch"; "tag"; "update-ref"; "worktree"]%string command.

Definition git_invocation_may_mutate_repo_state (command : str) (args : list str) : bool :=
  may_mutate_repo_state_command command && negb (is_definitely_read_only_git_invocation command args).

Definition participates_in_family_sequencer_command (command : str) : bool :=
  one_of ["branch"; "checkout"; "cherry-pick"; "commit"; "fetch"; "merge"; "pull"; "push"; "rebase"; "remote"; "reset"; "revert";
    "stash"; "switch"; "tag"; "update-ref"; "worktree"]%string command.

Definition git_invocation_participates_in_family_sequencer (command : str) (args : list str) : bool :=
  participates_in_family_sequencer_command command && git_invocation_may_mutate_repo_state command args.

End CommandClass.

(** ** Lemmas *)

Module CommandClassFacts.
Import CliParser(one_of, is_option).
Import CliParserFacts CommandClass.

Lemma branch_mutating_option a : branch_arg_is_mutating a = true → is_option a = true.
Proof.
  unfold branch_arg_is_mutating. intros [H|H]%orb_true_iff; [by eapply one_of_options in H|].
  by eapply starts_with_dash in H.
Qed.

Lemma tag_mutating_option a : tag_arg_is_mutating a = true → is_option a = true.
Proof.
  unfold tag_arg_is_mutating. rewrite !orb_true_iff. intros [[[H|H]|H]|H]; [by eapply one_of_options in H|..];
    by eapply starts_with_dash in H.
Qed.

(** Words do not mutate and do not end the options. *)
Lemma word_harmless (mutating : str → bool) w :
  (∀ a, mutating a = true → is_option a = true) → is_option w = false → mutating w = false ∧ w ≠ lit "--".
Proof.
  intros Hm Hw. split; [|by intros ->]. destruct (mutating w) eqn:E; [|done]. by rewrite (Hm _ E) in Hw.
Qed.

Lemma is_query_value_word next : is_query_value next = true → is_option next = false.
Proof. unfold is_query_value. intros [H _]%andb_true_iff. by apply negb_true_iff in H. Qed.

Definition lists (a : str) : bool := str_eqb a (lit "--list") || str_eqb a (lit "-l").
Definition branch_queries (a : str) : bool := branch_arg_takes_optional_query_value a || branch_arg_takes_required_query_value a.

(** A word of a read-only invocation is a pattern or a value. *)
Definition word_allowed (mode : bool) (opens : str → bool) (queries : str → bool) (before : list str) : Prop :=
  mode = true ∨ (∃ l, l ∈ before ∧ opens l = true) ∨ ∃ b q, before = b ++ [q] ∧ queries q = true.

Definition words_allowed (mode : bool) (opens queries : str → bool) (args : list str) : Prop :=
  ∀ before w after, args = before ++ w :: after → is_option w = false → word_allowed mode opens queries before.

Lemma words_nil mode opens queries : words_allowed mode opens queries [].
Proof. by intros [|? ?] ? ? ?. Qed.

(** An option, then allowed words. *)
Lemma words_option mode opens queries a args :
  is_option a = true → words_allowed (mode || opens a) opens queries args → words_allowed mode opens queries (a :: args).
Proof.
  intros Ha H [|x before] w after E Hw; simplify_eq/=; [by rewrite Ha in Hw|].
  destruct (H before w after eq_refl Hw) as [Hm|[(l & Hl & Ho)|(b & q & -> & Hq)]].
  - apply orb_true_iff in Hm as [?|?]; [by left|]. right. left. exists x. split; [left|done].
  - right. left. exists l. split; [by right|done].
  - right. right. by exists (x :: b), q.
Qed.

(** A query option, its value, then allowed words. *)
Lemma words_value mode opens queries a next args :
  is_option a = true → queries a = true →
  words_allowed (mode || opens a) opens queries args → words_allowed mode opens queries (a :: next :: args).
Proof.
  intros Ha Hq H [|x [|y before]] w after E Hw; simplify_eq/=; [by rewrite Ha in Hw|..].
  - right. right. by exists [], x.
  - destruct (H before w after eq_refl Hw) as [Hm|[(l & Hl & Ho)|(b & q & -> & Hq')]].
    + apply orb_true_iff in Hm as [?|?]; [by left|]. right. left. exists x. split; [left|done].
    + right. left. exists l. split; [by right; right|done].
    + right. right. by exists (x :: y :: b), q.
Qed.

(** A pattern, then allowed words. *)
Lemma words_pattern opens queries a args :
  words_allowed true opens queries args → words_allowed true opens queries (a :: args).
Proof. intros _ before w after _ _. by left. Qed.

Definition harmless (mutating : str → bool) (a : str) : Prop := mutating a = false ∧ a ≠ lit "--".

Lemma not_separator a : str_eqb a (lit "--") = false → a ≠ lit "--".
Proof. by intros H%bool_decide_eq_false. Qed.

Lemma branch_loop_spec mode args : branch_loop mode args = true →
  Forall (harmless branch_arg_is_mutating) args ∧ words_allowed mode lists branch_queries args.
Proof.
  revert mode. induction (well_founded_ltof _ (@length str) args) as [args _ IH]. intros mode.
  destruct args as [|arg args']; [split; [constructor|apply words_nil]|]. cbn [branch_loop].
  assert (∀ args'' mode', length args'' ≤ length args' → branch_loop mode' args'' = true →
    Forall (harmless branch_arg_is_mutating) args'' ∧ words_allowed mode' lists branch_queries args'') as IH'.
  { intros args'' mode' Hl. apply IH. unfold ltof. cbn. lia. } clear IH.
  destruct (str_eqb arg (lit "--")) eqn:Es; [done|]. destruct (branch_arg_is_mutating arg) eqn:Em; [done|].
  assert (harmless branch_arg_is_mutating arg) as Harg by (split; [done|by apply not_separator]).
  assert (∀ next, is_query_value next = true → harmless branch_arg_is_mutating next) as Hval.
  { intros next Hn%is_query_value_word. by apply word_harmless; [apply branch_mutating_option|]. }
  destruct (_ || _) eqn:El.
  { assert (is_option arg = true) by (apply orb_true_iff in El as [->%str_eqb_eq| ->%str_eqb_eq]; done).
    intros [Hf Hw]%IH'; [|lia]. split; [auto using Forall_cons_2|]. apply words_option; [done|].
    change (lists arg) with (str_eqb arg (lit "--list") || str_eqb arg (lit "-l")). by rewrite El, orb_true_r. }
  assert (mode || lists arg = mode) as Hmode by (unfold lists; by rewrite El, orb_false_r).
  destruct (branch_arg_takes_optional_query_value arg) eqn:Eo.
  { assert (is_option arg = true) by by eapply one_of_options in Eo.
    destruct args' as [|next args'']; [intros _; split; [auto using Forall_cons_2, Forall_nil_2|apply words_option, words_nil; done]|].
    destruct (is_query_value next) eqn:En; intros [Hf Hw]%IH'; try (cbn; lia).
    - split; [auto using Forall_cons_2|]. apply words_value; [done| |by rewrite Hmode].
      unfold branch_queries. by rewrite Eo.
    - split; [auto using Forall_cons_2|]. apply words_option; [done|by rewrite Hmode]. }
  destruct (branch_arg_takes_required_query_value arg) eqn:Er.
  { assert (is_option arg = true) by by eapply one_of_options in Er.
    destruct args' as [|next args'']; [done|]. destruct (is_query_value next) eqn:En; [|done].
    intros [Hf Hw]%IH'; [|cbn; lia]. split; [auto using Forall_cons_2|]. apply words_value; [done| |by rewrite Hmode].
    unfold branch_queries. by rewrite Er, orb_true_r. }
  destruct (branch_arg_is_read_only_flag arg || branch_arg_is_inline_query_option arg) eqn:Ef.
  { assert (is_option arg = true).
    { apply orb_true_iff in Ef as [Ef|Ef]; [by eapply one_of_options in Ef|].
      unfold branch_arg_is_inline_query_option, starts_with_any in Ef. apply existsb_exists in Ef as (w & Hw & Ef).
      eapply starts_with_dash; [|exact Ef]. revert w Hw Ef. clear. intros w Hw _. cbn in Hw. intuition (subst; done). }
    intros [Hf Hw]%IH'; [|lia]. split; [auto using Forall_cons_2|]. apply words_option; [done|by rewrite Hmode]. }
  destruct (negb (is_option arg) && mode) eqn:Ep; [|done]. apply andb_true_iff in Ep as [_ ->].
  intros [Hf Hw]%IH'; [|lia]. split; [auto using Forall_cons_2|by apply words_pattern].
Qed.

Lemma tag_loop_spec mode args : tag_loop mode args = true →
  Forall (harmless tag_arg_is_mutating) args ∧ ∀ w rest, args = w :: rest → mode = false → is_option w = true.
Proof.
  revert mode. induction (well_founded_ltof _ (@length str) args) as [args _ IH]. intros mode.
  destruct args as [|arg args']; [done|]. cbn [tag_loop].
  assert (∀ args'' mode', length args'' ≤ length args' → tag_loop mode' args'' = true →
    Forall (harmless tag_arg_is_mutating) args'') as IH'.
  { intros args'' mode' Hl H. eapply IH; [|exact H]. unfold ltof. cbn. lia. } clear IH.
  destruct (str_eqb arg (lit "--")) eqn:Es; [done|]. destruct (tag_arg_is_mutating arg) eqn:Em; [done|].
  assert (harmless tag_arg_is_mutating arg) as Harg by (split; [done|by apply not_separator]).
  assert (∀ next, is_query_value next = true → harmless tag_arg_is_mutating next) as Hval.
  { intros next Hn%is_query_value_word. by apply word_harmless; [apply tag_mutating_option|]. }
  assert (is_option arg = true → ∀ w rest, arg :: args' = w :: rest → mode = false → is_option w = true) as Hopt by naive_solver.
  destruct (one_of _ arg) eqn:El.
  { intros Hf%IH'; [|lia]. split; [auto using Forall_cons_2|]. apply Hopt. by eapply one_of_options in El. }
  destruct (tag_arg_takes_optional_query_value arg) eqn:Eo.
  { assert (is_option arg = true) by by eapply one_of_options in Eo.
    destruct args' as [|next args'']; [intros _; split; [auto using Forall_cons_2, Forall_nil_2|by apply Hopt]|].
    destruct (is_query_value next) eqn:En; intros Hf%IH'; try (cbn; lia); (split; [auto using Forall_cons_2|by apply Hopt]). }
  destruct (tag_arg_takes_required_query_value arg) eqn:Er.
  { assert (is_option arg = true) by by eapply one_of_options in Er.
    destruct args' as [|next args'']; [done|]. destruct (is_query_value next) eqn:En; [|done].
    intros Hf%IH'; [|cbn; lia]. split; [auto using Forall_cons_2|by apply Hopt]. }
  destruct (tag_arg_is_inline_query_option arg || tag_arg_is_read_only_flag arg) eqn:Ef.
  { intros Hf%IH'; [|lia]. split; [auto using Forall_cons_2|]. apply Hopt.
    unfold tag_arg_is_inline_query_option, tag_arg_is_read_only_flag, starts_with_any in Ef. rewrite !orb_true_iff in Ef.
    destruct Ef as [Ef|[Ef|Ef]]; [|by eapply one_of_options in Ef|by eapply starts_with_dash in Ef].
    apply existsb_exists in Ef as (w & Hw & Ef). eapply starts_with_dash; [|exact Ef].
    revert w Hw Ef. clear. intros w Hw _. cbn in Hw. intuition (subst; done). }
  destruct (negb (is_option arg) && mode) eqn:Ep; [|done]. apply andb_true_iff in Ep as [_ ->].
  intros Hf%IH'; [|lia]. split; [auto using Forall_cons_2|done].
Qed.

(** In query mode a word is a pattern. *)
Lemma tag_pattern name : is_option name = false → tag_loop true [name] = true.
Proof.
  intros Hw. destruct (word_harmless tag_arg_is_mutating name tag_mutating_option Hw) as [Hm Hs]. cbn [tag_loop].
  rewrite word_not_separator, Hm by done. destruct (one_of _ name); [done|].
  destruct (tag_arg_takes_optional_query_value name); [done|].
  destruct (tag_arg_takes_required_query_value name) eqn:Er; [by eapply one_of_options in Er; [rewrite Hw in Er|]|].
  destruct (_ || _); [done|]. by rewrite Hw.
Qed.

Lemma one_of_map (words : list string) c : one_of words c = bool_decide (c ∈ map lit words).
Proof.
  unfold one_of. induction words as [|w words IH]; [done|]. cbn [existsb map]. rewrite IH. unfold str_eqb.
  apply eq_true_iff_eq. rewrite orb_true_iff, !bool_decide_eq_true, elem_of_cons. done.
Qed.

End CommandClassFacts.

(** ** Properties *)

Module CommandClassProps.
Import CliParser(one_of, is_option).
Import CliParserFacts CommandClass CommandClassFacts.

(** no invocation classified as read-only names a mutation.  A read-only
    [git branch] or [git tag] has no mutating option and no [--]; a word of a
    read-only branch invocation is a pattern after a listing option or the value
    of a query option just before it, so it creates no branch; a tag invocation
    does not start with a word.  The commands ordered within a family are those
    that may change a repository, but for clone and init, that are not
    read-only. *)
Theorem read_only_invocations (command : str) (args : list str) :
  (branch_invocation_is_read_only args = true →
   Forall (λ a, branch_arg_is_mutating a = false ∧ a ≠ lit "--") args ∧
   ∀ before w after, args = before ++ w :: after → is_option w = false →
     (∃ l, l ∈ before ∧ (l = lit "--list" ∨ l = lit "-l")) ∨
     ∃ b q, before = b ++ [q] ∧ (branch_arg_takes_optional_query_value q || branch_arg_takes_required_query_value q) = true) ∧
  (tag_invocation_is_read_only args = true →
   Forall (λ a, tag_arg_is_mutating a = false ∧ a ≠ lit "--") args ∧ ∀ w rest, args = w :: rest → is_option w = true) ∧
  (git_invocation_participates_in_family_sequencer command args = true ↔
   may_mutate_repo_state_command command = true ∧ command ∉ [lit "clone"; lit "init"] ∧
   is_definitely_read_only_git_invocation command args = false).
Proof.
  split_and!.
  - intros [Hf Hw]%branch_loop_spec. split; [done|]. intros before w after E Hword.
    destruct (Hw _ _ _ E Hword) as [?|[(l & Hl & Ho)|?]]; [done| |by right]. left. exists l. split; [done|].
    apply orb_true_iff in Ho as [?%str_eqb_eq|?%str_eqb_eq]; auto.
  - intros [Hf Hw]%tag_loop_spec. split; [done|]. intros w rest E. by eapply Hw.
  - unfold git_invocation_participates_in_family_sequencer, git_invocation_may_mutate_repo_state,
      participates_in_family_sequencer_command, may_mutate_repo_state_command.
    rewrite !andb_true_iff, negb_true_iff, !one_of_map, !bool_decide_eq_true.
    assert (command ∈ map lit ["branch"; "checkout"; "cherry-pick"; "commit"; "fetch"; "merge"; "pull"; "push"; "rebase";
      "remote"; "reset"; "revert"; "stash"; "switch"; "tag"; "update-ref"; "worktree"]%string → command ∉ [lit "clone"; lit "init"]) as Hc.
    { intros H1 H2. rewrite list_elem_of_In in H1. cbn in H1. rewrite list_elem_of_In in H2. cbn in H2.
      destruct H2 as [<-|[<-|[]]]; intuition discriminate. }
    split; [intuition|]. intros (H & Hn & Hr). split_and!; [|done..]. rewrite list_elem_of_In in H |- *.
    rewrite list_elem_of_In in Hn. cbn [In map] in *. intuition.
Qed.

(** values taken for subcommands, and listing options that do not list.  A
    push to the stash whose first word is the value [list] or [show] of an
    option, or such a path after [--], is classified as read-only, and so is the
    creation of a tag after an option that only formats a list. *)
Theorem mutation_read_as_query (opts : list str) (value name : str) (rest : list str)
    (options : Forall (λ o, is_option o = true) opts) (is_sub : value = lit "list" ∨ value = lit "show")
    (named : is_option name = false) :
  git_invocation_may_mutate_repo_state (lit "stash") (opts ++ value :: rest) = false ∧
  Forall (λ flag, git_invocation_may_mutate_repo_state (lit "tag") [flag; name] = false)
    (map lit ["--color"; "--ignore-case"; "--no-color"; "--sort=refname"; "--format=x"]%string).
Proof.
  split.
  - assert (stash_invocation_is_read_only (opts ++ value :: rest) = true) as H.
    { unfold stash_invocation_is_read_only, first_word. assert (List.find (λ a, negb (is_option a)) (opts ++ value :: rest) = Some value) as ->.
      - induction options as [|o opts Ho _ IH]; cbn [app List.find]; [by destruct is_sub as [-> | ->]|]. by rewrite Ho.
      - by destruct is_sub as [-> | ->]. }
    unfold git_invocation_may_mutate_repo_state. change (is_definitely_read_only_git_invocation (lit "stash") (opts ++ value :: rest))
      with (stash_invocation_is_read_only (opts ++ value :: rest)). rewrite H. apply andb_false_r.
  - apply Forall_forall. intros flag Hf%list_elem_of_In. cbn [map In] in Hf.
    assert (tag_loop false [flag; name] = tag_loop true [name]) as H by (intuition (subst flag; reflexivity)).
    rewrite tag_pattern in H by done. change (tag_loop false [flag; name]) with (tag_invocation_is_read_only [flag; name]) in H.
    unfold git_invocation_may_mutate_repo_state. change (is_definitely_read_only_git_invocation (lit "tag") [flag; name]) with
      (tag_invocation_is_read_only [flag; name]). rewrite H. apply andb_false_r.
Qed.

(** *** Witnesses *)

Lemma read_only_invocations_witness :
  branch_invocation_is_read_only (map lit ["--list"; "-v"; "fix-*"; "--contains"; "HEAD"]%string) = true ∧
  ∃ l, l ∈ map lit ["--list"; "-v"]%string ∧ (l = lit "--list" ∨ l = lit "-l").
Proof.
  assert (branch_invocation_is_read_only (map lit ["--list"; "-v"; "fix-*"; "--contains"; "HEAD"]%string) = true) as H by reflexivity.
  split; [exact H|].
  destruct (read_only_invocations (lit "branch") (map lit ["--list"; "-v"; "fix-*"; "--contains"; "HEAD"]%string)) as [Hb _].
  destruct (Hb H) as [_ Hw].
  destruct (Hw (map lit ["--list"; "-v"]%string) (lit "fix-*") (map lit ["--contains"; "HEAD"]%string) eq_refl eq_refl)
    as [Hl|(b & q & E & Hq)]; [exact Hl|].
  exfalso. apply (f_equal last) in E. rewrite last_snoc in E. cbn in E. injection E as <-. by vm_compute in Hq.
Defined.

Lemma mutation_read_as_query_witness :
  git_invocation_may_mutate_repo_state (lit "stash") (map lit ["-m"; "show"]%string) = false ∧
  git_invocation_may_mutate_repo_state (lit "tag") (map lit ["--color"; "v1"]%string) = false.
Proof.
  destruct (mutation_read_as_query [lit "-m"] (lit "show") (lit "v1") [] ltac:(repeat constructor) (or_intror eq_refl) eq_refl) as [H1 H2].
  split; [exact H1|]. by inversion H2.
Defined.

End CommandClassProps.
