(* ===== verification/Domain.v ===== *)
(** * Commands and events of the daemon

    src/src/daemon/domain.rs: the normalized git commands the daemon applies, the
    events their analysis finds, and the states of families and worktrees. *)

From S2P Require Import Prelude.

(** ** Definitions *)

Module Domain.

Abbreviation FamilyKey := str (only parsing).
Abbreviation PathBuf := str (only parsing).

Inductive CommandScope := Family (key : FamilyKey) | Global.

Inductive Confidence := High | Medium | Low.

Record RefChange := mkChange { reference : str; old : str; new : str }.

Record NormalizedCommand := mkCommand {
  scope : CommandScope;
  family_key : option FamilyKey;
  worktree : option PathBuf;
  root_sid : str;
  raw_argv : list str;
  primary_command : option str;
  invoked_command : option str;
  invoked_args : list str;
  observed_child_commands : list str;
  exit_code : Z;
  started_at_ns : N;
  finished_at_ns : N;
  reflog_start_offsets : gmap str N;
  stash_target_oid : option str;
  cherry_pick_source_oids : list str;
  revert_source_oids : list str;
  ref_changes : list RefChange;
  confidence : Confidence
}.

Inductive CommandClass := HistoryRewrite | RefMutation | WorkspaceMutation | Transport | RepoAdmin | ReadOnly | Opaque.

Inductive ResetKind := Soft | Mixed | Hard | MergeReset | Keep | UnknownReset.

Inductive PullStrategy := MergePull | RebasePull | RebaseMerges | FastForwardOnly | UnknownPull.

Inductive StashOpKind := Push | Apply | Pop | Drop | ListStash | Branch | Show | UnknownStash.

Inductive SemanticEvent :=
  | CommitCreated (base : option str) (new_head : str)
  | CommitAmended (old_head new_head : str)
  | Reset (kind : ResetKind) (old_head new_head : str)
  | RebaseComplete (old_head new_head : str) (interactive : bool)
  | RebaseAbort (head : str)
  | MergeSquash (source_head onto : str)
  | CherryPickComplete (original_head new_head : str) (source_commits new_commits : list str)
  | CherryPickNoCommit (source_commits : list str) (head : str)
  | CherryPickAbort (head : str)
  | RefUpdated (reference old new : str)
  | BranchCreated (name target : str)
  | BranchDeleted (name old : str)
  | BranchRenamed (old_name new_name : str) (target : option str)
  | TagCreated (name target : str)
  | TagDeleted (name old : str)
  | SymbolicRefUpdated (reference : str) (old_target new_target : option str)
  | NotesUpdated
  | ReplaceUpdated
  | CheckoutPaths
  | RestorePaths
  | CleanedWorkspace
  | StashOperation (kind : StashOpKind) (head : option str)
  | FetchCompleted (remote : option str)
  | PullCompleted (remote : option str) (strategy : PullStrategy)
  | PushCompleted (remote : option str)
  | CloneCompleted (target : PathBuf)
  | LsRemoteCompleted
  | RepoInitialized (path : PathBuf)
  | WorktreeAdded (path : PathBuf)
  | WorktreeRemoved (path : PathBuf)
  | RemoteConfigChanged
  | ConfigChanged
  | MaintenanceRun
  | GcRun
  | PackRefsRun
  | ReflogExpireRun
  | ReadOnlyCommand
  | OpaqueCommand.

Record AnalysisResult := mkAnalysis {
  class : CommandClass;
  events : list SemanticEvent;
  result_confidence : Confidence
}.

Record AppliedCommand := mkApplied { seq : N; command : NormalizedCommand; analysis : AnalysisResult }.

Record WorktreeState := mkWorktree {
  head : option str;
  branch : option str;
  detached : bool;
  last_updated_ns : N
}.

Record WatermarkState := mkWatermarks { per_file : gmap str N; per_worktree : gmap str N }.

Record FamilyState := mkFamily {
  state_family_key : FamilyKey;
  refs : gmap str str;
  worktrees : gmap str WorktreeState;
  last_error : option str;
  applied_seq : N;
  watermarks : WatermarkState
}.

Record GlobalState := mkGlobal { global_applied_seq : N }.

Record ApplyAck := mkAck { ack_seq : N; applied : bool }.

Record FamilyStatus := mkStatus {
  status_family_key : FamilyKey;
  status_applied_seq : N;
  status_last_error : option str
}.

(** A command with other ref changes. *)
Definition with_ref_changes (cmd : NormalizedCommand) (changes : list RefChange) : NormalizedCommand :=
  mkCommand (scope cmd) (family_key cmd) (worktree cmd) (root_sid cmd) (raw_argv cmd) (primary_command cmd) (invoked_command cmd)
    (invoked_args cmd) (observed_child_commands cmd) (exit_code cmd) (started_at_ns cmd) (finished_at_ns cmd)
    (reflog_start_offsets cmd) (stash_target_oid cmd) (cherry_pick_source_oids cmd) (revert_source_oids cmd) changes
    (confidence cmd).

(** A command before anything is known of it but its words. *)
Definition plain_command (primary : option str) (args : list str) : NormalizedCommand :=
  mkCommand Global None None [] [] primary primary args [] 0 0 0 ∅ None [] [] [] Low.

End Domain.
