(* ===== verification/Analyzers.v ===== *)
(** * Analyzers

    src/src/daemon/analyzers/: from a normalized command, with the ref changes it
    made, to the events it means. *)

From S2P Require Import Prelude Text DiffCompute HashIter DiffTree CliParser CommandClass Domain.

(** ** Definitions *)

Module Analyzers.
Import Domain.
Import DiffCompute(result).
Import HashIter(str_le).
Import DiffTree(is_valid_git_oid).
Import CliParser(one_of, is_option, contains_char, explicit_rebase_branch_arg).

(** *** Arguments *)

(** [Path::new(arg).path_file_name()] on Unix. *)
Fixpoint path_pieces (cur s : str) : list str :=
  match s with
  | [] => [cur]
  | c :: s' => if Ascii.eqb c "/" then cur :: path_pieces [] s' else path_pieces (cur ++ [c]) s'
  end.

Definition path_components (path : str) : list str :=
  List.filter (λ p, negb (bool_decide (p = [])) && negb (str_eqb p (lit "."))) (path_pieces [] path).

Definition path_file_name (path : str) : option str :=
  match last (path_components path) with
  | Some name => if str_eqb name (lit "..") then None else Some name
  | None => None
  end.

Definition normalized_args (argv : list str) : list str :=
  let start := match List.hd_error argv with
               | Some arg => match path_file_name arg with
                             | Some name => one_of ["git"; "git.exe"]%string name
                             | None => false
                             end
               | None => false
               end in
  if start then drop 1 argv else argv.

Definition command_args (cmd : NormalizedCommand) : list str :=
  if negb (bool_decide (invoked_args cmd = [])) then invoked_args cmd else normalized_args (raw_argv cmd).

Definition has_arg (word : string) (args : list str) : bool := existsb (λ arg, str_eqb arg (lit word)) args.

(** [str::to_ascii_lowercase]. *)
Definition ascii_lower (c : ascii) : ascii :=
  let n := N_of_ascii c in
  if (65 <=? n)%N && (n <=? 90)%N then ascii_of_N (n + 32) else c.
Definition to_ascii_lowercase (s : str) : str := map ascii_lower s.

Definition outcome_confidence (cmd : NormalizedCommand) : Confidence := if (exit_code cmd =? 0)%Z then High else Low.

(** An analysis whose events are [OpaqueCommand] when there are none. *)
Definition analyzed (cls : CommandClass) (evs : list SemanticEvent) (cmd : NormalizedCommand) : AnalysisResult :=
  mkAnalysis cls (if bool_decide (evs = []) then [OpaqueCommand] else evs) (outcome_confidence cmd).

(** *** Generic analyzer *)

Definition is_transport_command (command : str) : bool :=
  one_of ["clone"; "fetch"; "pull"; "push"; "remote"; "ls-remote"]%string command.

Definition is_repo_admin_command (command : str) : bool :=
  one_of ["init"; "worktree"; "config"; "credential"; "gc"; "maintenance"; "fsck"; "prune"; "pack-refs"; "reflog"]%string command.

Definition is_read_only_command (command : str) : bool := CommandClass.is_definitely_read_only_command command.

Definition ref_updated (change : RefChange) : SemanticEvent := RefUpdated (reference change) (old change) (new change).

Definition generic_analyze (cmd : NormalizedCommand) : AnalysisResult :=
  let command_name := to_ascii_lowercase (default [] (primary_command cmd)) in
  if negb (bool_decide (ref_changes cmd = [])) then mkAnalysis RefMutation (map ref_updated (ref_changes cmd)) Medium
  else if is_transport_command command_name then mkAnalysis Transport [OpaqueCommand] Low
  else if is_repo_admin_command command_name then mkAnalysis RepoAdmin [OpaqueCommand] Low
  else if is_read_only_command command_name then mkAnalysis ReadOnly [ReadOnlyCommand] Medium
  else mkAnalysis Opaque [OpaqueCommand] Low.

(** *** History *)

Definition is_zero_oid (oid : str) : bool :=
  ((length oid =? 40) || (length oid =? 64)) && forallb (Ascii.eqb "0") oid.

Definition sanitize_base (base : option str) (new_head : str) : option str :=
  match base with
  | Some candidate => if negb (str_eqb candidate new_head) && negb (is_zero_oid candidate) then Some candidate else None
  | None => None
  end.

Definition valid_non_zero_oid (value : str) : bool := is_valid_git_oid value && negb (is_zero_oid value).

(** [option.filter(p)]. *)
Definition keep_if (p : str → bool) (o : option str) : option str :=
  match o with Some s => if p s then Some s else None | None => None end.

Fixpoint merge_source_args (args : list str) : list str :=
  match args with
  | [] => []
  | arg :: args' =>
      if str_eqb arg (lit "--") then List.filter (λ value, negb (bool_decide (value = []))) args'
      else if one_of ["-m"; "--message"; "-s"; "--strategy"; "-X"; "--strategy-option"]%string arg then
        match args' with _ :: args'' => merge_source_args args'' | [] => [] end
      else if CommandClass.starts_with_any ["--message="; "--strategy="; "--strategy-option="; "--gpg-sign="; "-m"; "-s"; "-X"; "-S"]%string arg
      then merge_source_args args'
      else if is_option arg then merge_source_args args'
      else arg :: merge_source_args args'
  end.

Definition resolve_revision_from_ref_state (revision : str) (refs : gmap str str) : option str :=
  if valid_non_zero_oid revision then Some revision
  else if str_eqb revision (lit "HEAD") then keep_if valid_non_zero_oid (refs !! lit "HEAD")
  else if starts_with (lit "refs/") revision then keep_if valid_non_zero_oid (refs !! revision)
  else
    match keep_if valid_non_zero_oid (refs !! (lit "refs/heads/" ++ revision)) with
    | Some oid => Some oid
    | None =>
        match keep_if valid_non_zero_oid (refs !! (lit "refs/remotes/" ++ revision)) with
        | Some oid => Some oid
        | None => keep_if valid_non_zero_oid (refs !! (lit "refs/tags/" ++ revision))
        end
    end.

Definition squash_source_head (args : list str) (refs : gmap str str) : option str :=
  try source := List.hd_error (merge_source_args args) in
  resolve_revision_from_ref_state source refs.

Definition valid_ref_transition (change : RefChange) : option (str * str) :=
  let old := trim (old change) in
  let new := trim (new change) in
  if str_eqb old new || negb (valid_non_zero_oid old) || negb (valid_non_zero_oid new) then None else Some (old, new).

Definition is_change_of (r : str) (change : RefChange) : bool := str_eqb (reference change) r.
Definition is_head_change (change : RefChange) : bool := is_change_of (lit "HEAD") change.
Definition is_branch_change (change : RefChange) : bool := starts_with (lit "refs/heads/") (reference change).

Definition first_ref_transition_for (cmd : NormalizedCommand) (r : str) : option (str * str) :=
  List.hd_error (omap valid_ref_transition (List.filter (is_change_of r) (ref_changes cmd))).

(** The last change of HEAD, else what the refs say. *)
Definition current_head_from_ref_data (cmd : NormalizedCommand) (refs : gmap str str) : option str :=
  keep_if valid_non_zero_oid
    match List.find is_head_change (rev (ref_changes cmd)) with
    | Some change => Some (new change)
    | None => refs !! lit "HEAD"
    end.

Definition change_span (changes : list RefChange) : option (str * str) :=
  try first := List.hd_error changes in
  try last := last changes in
  let old_head := trim (old first) in
  let new_head := trim (new last) in
  if bool_decide (old_head = []) || bool_decide (new_head = []) || str_eqb old_head new_head then None
  else Some (old_head, new_head).

(** The change sets its reference to something else. *)
Definition moves_to_new (change : RefChange) : bool :=
  negb (bool_decide (trim (new change) = [])) && negb (str_eqb (trim (old change)) (trim (new change))).

Definition change_eqb (a b : RefChange) : bool :=
  str_eqb (reference a) (reference b) && str_eqb (old a) (old b) && str_eqb (new a) (new b).

Definition single_branch_ref_change (cmd : NormalizedCommand) : option (str * str) :=
  let branch_refs := List.filter (λ c, is_branch_change c && moves_to_new c) (ref_changes cmd) in
  if bool_decide (branch_refs = []) then None
  else
    let branch_refs := dedup change_eqb (sort_by (λ a b, str_le (reference a) (reference b)) branch_refs) in
    try first := List.hd_error branch_refs in
    if existsb (λ c, negb (str_eqb (reference c) (reference first))) branch_refs then None
    else change_span branch_refs.

Definition amend_head_change (cmd : NormalizedCommand) : option (str * str) :=
  match first_ref_transition_for cmd (lit "HEAD") with
  | Some change => Some change
  | None => single_branch_ref_change cmd
  end.

Definition head_change (cmd : NormalizedCommand) : option (str * str) :=
  match change_span (List.filter (λ c, is_head_change c && moves_to_new c) (ref_changes cmd)) with
  | Some span => Some span
  | None => single_branch_ref_change cmd
  end.

Definition cherry_pick_new_commits (cmd : NormalizedCommand) : list str :=
  map snd (omap valid_ref_transition (List.filter is_head_change (ref_changes cmd))).

(** A change between two commits. *)
Definition moves_between (change : RefChange) : bool :=
  negb (bool_decide (trim (old change) = [])) && moves_to_new change.

Definition trimmed (change : RefChange) : str * str := (trim (old change), trim (new change)).

Definition inferred_rebase_branch_change (cmd : NormalizedCommand) : option (str * str) :=
  match List.filter (λ c, is_branch_change c && moves_between c) (ref_changes cmd) with
  | [change] => Some (trimmed change)
  | _ => None
  end.

Definition explicit_rebase_branch_change (cmd : NormalizedCommand) : option (str * str) :=
  try branch := explicit_rebase_branch_arg (command_args cmd) in
  let branch_ref := if starts_with (lit "refs/") branch then branch else lit "refs/heads/" ++ branch in
  trimmed <$> List.find (λ c, is_change_of branch_ref c && moves_between c) (ref_changes cmd).

Definition rebase_change (cmd : NormalizedCommand) : option (str * str) :=
  match explicit_rebase_branch_change cmd with
  | Some change => Some change
  | None =>
      match inferred_rebase_branch_change cmd with
      | Some change => Some change
      | None =>
          try (old_head, new_head) := head_change cmd in
          if str_eqb old_head new_head then None else Some (old_head, new_head)
      end
  end.

Definition infer_reset_kind (args : list str) : ResetKind :=
  if has_arg "--soft" args then Soft
  else if has_arg "--mixed" args then Mixed
  else if has_arg "--hard" args then Hard
  else if has_arg "--merge" args then MergeReset
  else if has_arg "--keep" args then Keep
  else Mixed.

(** An event of a pair of heads, if there is one. *)
Definition event_of (change : option (str * str)) (event : str → str → SemanticEvent) : list SemanticEvent :=
  match change with Some (old_head, new_head) => [event old_head new_head] | None => [] end.

Definition commit_events (cmd : NormalizedCommand) (args : list str) : list SemanticEvent :=
  if has_arg "--amend" args then event_of (amend_head_change cmd) CommitAmended
  else event_of (head_change cmd) (λ old_head new_head, CommitCreated (sanitize_base (Some old_head) new_head) new_head).

Definition current_or_empty (cmd : NormalizedCommand) (refs : gmap str str) : str := default [] (current_head_from_ref_data cmd refs).

Definition rebase_events (cmd : NormalizedCommand) (args : list str) (refs : gmap str str) : list SemanticEvent :=
  if has_arg "--abort" args then [RebaseAbort (current_or_empty cmd refs)]
  else event_of (rebase_change cmd)
         (λ old_head new_head, RebaseComplete old_head new_head (existsb (one_of ["-i"; "--interactive"]%string) args)).

Definition cherry_pick_events (cmd : NormalizedCommand) (args : list str) (refs : gmap str str) : list SemanticEvent :=
  if has_arg "--abort" args then [CherryPickAbort (current_or_empty cmd refs)]
  else if existsb (one_of ["--no-commit"; "-n"]%string) args then
    [CherryPickNoCommit (cherry_pick_source_oids cmd) (current_or_empty cmd refs)]
  else event_of (head_change cmd)
         (λ old_head new_head, CherryPickComplete old_head new_head (cherry_pick_source_oids cmd) (cherry_pick_new_commits cmd)).

Definition merge_events (cmd : NormalizedCommand) (args : list str) (refs : gmap str str) : list SemanticEvent :=
  if has_arg "--squash" args then
    match squash_source_head args refs, current_head_from_ref_data cmd refs with
    | Some source_head, Some onto => [MergeSquash source_head onto]
    | _, _ => []
    end
  else event_of (head_change cmd) (RefUpdated (lit "HEAD")).

Definition update_ref_events (cmd : NormalizedCommand) : list SemanticEvent :=
  map ref_updated (List.filter (λ c, (is_head_change c || is_branch_change c) && negb (str_eqb (trim (old c)) (trim (new c))))
                     (ref_changes cmd)).

Definition history_events (name : str) (cmd : NormalizedCommand) (refs : gmap str str) : result (list SemanticEvent) :=
  let args := command_args cmd in
  if one_of ["commit"; "revert"]%string name then Ret (commit_events cmd args)
  else if str_eqb name (lit "reset") then Ret (event_of (head_change cmd) (Reset (infer_reset_kind args)))
  else if str_eqb name (lit "rebase") then Ret (rebase_events cmd args refs)
  else if str_eqb name (lit "cherry-pick") then Ret (cherry_pick_events cmd args refs)
  else if str_eqb name (lit "merge") then Ret (merge_events cmd args refs)
  else if str_eqb name (lit "update-ref") then Ret (update_ref_events cmd)
  else Panic.

Definition history_analyze (cmd : NormalizedCommand) (refs : gmap str str) : result AnalysisResult :=
  let? evs := history_events (default [] (primary_command cmd)) cmd refs in
  Ret (analyzed HistoryRewrite evs cmd).

(** *** Transport *)

Definition first_positional (args : list str) : option str := List.find (λ arg, negb (is_option arg)) args.

Definition infer_pull_strategy_from_args (args : list str) : option PullStrategy :=
  if existsb (one_of ["--no-rebase"; "--rebase=false"]%string) args then Some MergePull
  else if has_arg "--ff-only" args then Some FastForwardOnly
  else if existsb (one_of ["--rebase=merges"; "--rebase-merges"]%string) args then Some RebaseMerges
  else if existsb (one_of ["--rebase"; "--rebase=true"]%string) args then Some RebasePull
  else None.

Definition infer_pull_strategy (cmd : NormalizedCommand) (args : list str) : PullStrategy :=
  match infer_pull_strategy_from_args args with
  | Some strategy => strategy
  | None =>
      match infer_pull_strategy_from_args (normalized_args (raw_argv cmd)) with
      | Some strategy => strategy
      | None => if has_arg "rebase" (observed_child_commands cmd) then RebasePull else MergePull
      end
  end.

Fixpoint clone_words (args : list str) : list str :=
  match args with
  | [] => []
  | arg :: args' =>
      if one_of ["-C"; "--origin"; "--template"]%string arg then
        match args' with _ :: args'' => clone_words args'' | [] => [] end
      else if is_option arg then clone_words args'
      else arg :: clone_words args'
  end.

Definition infer_clone_target (args : list str) : option PathBuf := last (clone_words args).

Definition clone_target (cmd : NormalizedCommand) (args : list str) : PathBuf :=
  match infer_clone_target args with
  | Some target => target
  | None => default (lit ".") (worktree cmd)
  end.

Definition transport_analyze (cmd : NormalizedCommand) : result AnalysisResult :=
  let name := default [] (primary_command cmd) in
  let args := command_args cmd in
  let done event := Ret (mkAnalysis Transport [event] (outcome_confidence cmd)) in
  if str_eqb name (lit "fetch") then done (FetchCompleted (first_positional args))
  else if str_eqb name (lit "pull") then done (PullCompleted (first_positional args) (infer_pull_strategy cmd args))
  else if str_eqb name (lit "push") then done (PushCompleted (first_positional args))
  else if str_eqb name (lit "clone") then done (CloneCompleted (clone_target cmd args))
  else if str_eqb name (lit "ls-remote") then done LsRemoteCompleted
  else Panic.

(** *** Workspace *)

Fixpoint after_stash (args : list str) : option (list str) :=
  match args with
  | [] => None
  | arg :: args' => if str_eqb arg (lit "stash") then Some args' else after_stash args'
  end.

Definition stash_command_args (cmd : NormalizedCommand) : list str :=
  default (command_args cmd) (after_stash (normalized_args (raw_argv cmd))).

Definition infer_stash_kind (args : list str) : StashOpKind :=
  let word := default (lit "push") (List.hd_error args) in
  if one_of ["push"; "save"]%string word then Push
  else if str_eqb word (lit "apply") then Apply
  else if str_eqb word (lit "pop") then Pop
  else if str_eqb word (lit "drop") then Drop
  else if str_eqb word (lit "list") then ListStash
  else if str_eqb word (lit "branch") then Branch
  else if str_eqb word (lit "show") then Show
  else UnknownStash.

Definition is_path_checkout (args : list str) : bool :=
  has_arg "--" args
  || existsb (λ arg, starts_with (lit "--pathspec") arg || one_of ["--ours"; "--theirs"]%string arg) args.

Definition current_head_for_workspace_command (cmd : NormalizedCommand) (refs : gmap str str) : option str :=
  keep_if (λ head, negb (bool_decide (trim head = [])))
    match refs !! lit "HEAD" with
    | Some head => Some head
    | None => old <$> List.find is_head_change (ref_changes cmd)
    end.

Definition first_ref_updated (cmd : NormalizedCommand) : list SemanticEvent :=
  match ref_changes cmd with change :: _ => [ref_updated change] | [] => [] end.

Definition workspace_analyze (cmd : NormalizedCommand) (refs : gmap str str) : result AnalysisResult :=
  let name := default [] (primary_command cmd) in
  if str_eqb name (lit "stash") then
    Ret (analyzed WorkspaceMutation
           [StashOperation (infer_stash_kind (stash_command_args cmd)) (current_head_for_workspace_command cmd refs)] cmd)
  else if str_eqb name (lit "checkout") then
    Ret (analyzed WorkspaceMutation
           (if is_path_checkout (command_args cmd) then [CheckoutPaths] else first_ref_updated cmd) cmd)
  else if str_eqb name (lit "switch") then Ret (analyzed WorkspaceMutation (first_ref_updated cmd) cmd)
  else Panic.

(** *** The registry *)

Inductive CommandAnalyzer := GenericAnalyzer | HistoryAnalyzer | WorkspaceAnalyzer | TransportAnalyzer.

Definition run_analyzer (analyzer : CommandAnalyzer) (cmd : NormalizedCommand) (refs : gmap str str) : result AnalysisResult :=
  match analyzer with
  | GenericAnalyzer => Ret (generic_analyze cmd)
  | HistoryAnalyzer => history_analyze cmd refs
  | WorkspaceAnalyzer => workspace_analyze cmd refs
  | TransportAnalyzer => transport_analyze cmd
  end.

Record AnalyzerRegistry := mkRegistry { generic : CommandAnalyzer; by_command : gmap str CommandAnalyzer }.

Definition register_command (registry : AnalyzerRegistry) (command : str) (analyzer : CommandAnalyzer) : AnalyzerRegistry :=
  mkRegistry (generic registry) (<[to_ascii_lowercase command := analyzer]> (by_command registry)).

Definition register_all (commands : list string) (analyzer : CommandAnalyzer) (registry : AnalyzerRegistry) : AnalyzerRegistry :=
  foldl (λ r command, register_command r (lit command) analyzer) registry commands.

Definition new_registry : AnalyzerRegistry :=
  register_all ["fetch"; "pull"; "push"; "clone"]%string TransportAnalyzer
    (register_all ["stash"; "checkout"; "switch"]%string WorkspaceAnalyzer
       (register_all ["commit"; "reset"; "rebase"; "cherry-pick"; "merge"; "revert"; "update-ref"]%string HistoryAnalyzer
          (mkRegistry GenericAnalyzer ∅))).

Definition analyze (registry : AnalyzerRegistry) (cmd : NormalizedCommand) (refs : gmap str str) : result AnalysisResult :=
  match primary_command cmd with
  | Some command =>
      match by_command registry !! to_ascii_lowercase command with
      | Some analyzer => run_analyzer analyzer cmd refs
      | None => run_analyzer (generic registry) cmd refs
      end
  | None => run_analyzer (generic registry) cmd refs
  end.

End Analyzers.

(** ** Reference: what an event may say *)

Module AnalyzersSpec.
Import Domain Analyzers.

Definition history_commands : list str := map lit ["commit"; "reset"; "rebase"; "cherry-pick"; "merge"; "revert"; "update-ref"]%string.
Definition workspace_commands : list str := map lit ["stash"; "checkout"; "switch"]%string.
Definition transport_commands : list str := map lit ["fetch"; "pull"; "push"; "clone"]%string.
Definition routed_commands : list str := history_commands ++ workspace_commands ++ transport_commands.

(** A move from one head to another that the changes of the command show. *)
Definition moved (changes : list RefChange) (old_head new_head : str) : Prop :=
  old_head ≠ [] ∧ new_head ≠ [] ∧ old_head ≠ new_head ∧
  ∃ a b, a ∈ changes ∧ b ∈ changes ∧ old_head = trim (old a) ∧ new_head = trim (new b).

(** The changes that move [HEAD], and the move from the old value of the first to
    the new value of the last, when these differ. *)
Definition moves_head (c : RefChange) : Prop := reference c = lit "HEAD" ∧ trim (new c) ≠ [] ∧ trim (old c) ≠ trim (new c).

Definition head_span (changes : list RefChange) (old_head new_head : str) : Prop :=
  let heads := List.filter (λ c, bool_decide (moves_head c)) changes in
  ∃ first final, List.hd_error heads = Some first ∧ last heads = Some final ∧
    old_head = trim (old first) ∧ new_head = trim (new final) ∧ old_head ≠ [] ∧ new_head ≠ [] ∧ old_head ≠ new_head.

(** A move that the changes show: that of [HEAD], when there is one. *)
Definition head_moved (changes : list RefChange) (old_head new_head : str) : Prop :=
  moved changes old_head new_head ∧ ∀ o n, head_span changes o n → old_head = o ∧ new_head = n.

(** The head after the changes: what the last change of [HEAD] set, or what the
    refs say when there is none. *)
Definition head_after (changes : list RefChange) (refs : gmap str str) (head : str) : Prop :=
  valid_non_zero_oid head = true ∧
  ((∃ before c after, changes = before ++ c :: after ∧ reference c = lit "HEAD" ∧ new c = head ∧ ∀ x, x ∈ after → reference x ≠ lit "HEAD") ∨
   ((∀ x, x ∈ changes → reference x ≠ lit "HEAD") ∧ refs !! lit "HEAD" = Some head)).

Definition head_or_empty (changes : list RefChange) (refs : gmap str str) (head : str) : Prop :=
  head_after changes refs head ∨ (head = [] ∧ ∀ h, ¬ head_after changes refs h).

(** A change of [HEAD] or of a branch to another value. *)
Definition moves_ref (c : RefChange) : Prop :=
  (reference c = lit "HEAD" ∨ starts_with (lit "refs/heads/") (reference c) = true) ∧ trim (old c) ≠ trim (new c).

(** The commands whose one event is the move of [HEAD]. *)
Definition reports_head (cmd : NormalizedCommand) : bool :=
  let args := command_args cmd in
  match primary_command cmd with
  | Some name =>
      CliParser.one_of ["commit"; "revert"]%string name && negb (has_arg "--amend" args) || str_eqb name (lit "reset")
      || str_eqb name (lit "cherry-pick") && negb (has_arg "--abort" args) && negb (has_arg "--no-commit" args) && negb (has_arg "-n" args)
      || str_eqb name (lit "merge") && negb (has_arg "--squash" args)
  | None => false
  end.

(** The events of the history commands. *)
Definition history_event_ok (cmd : NormalizedCommand) (refs : gmap str str) (event : SemanticEvent) : Prop :=
  let changes := ref_changes cmd in
  match event with
  | CommitCreated base new_head =>
      ∃ old_head, head_moved changes old_head new_head ∧ base = if is_zero_oid old_head then None else Some old_head
  | Reset _ old_head new_head => head_moved changes old_head new_head
  | CommitAmended old_head new_head | RebaseComplete old_head new_head _ => moved changes old_head new_head
  | CherryPickComplete old_head new_head sources new_commits =>
      head_moved changes old_head new_head ∧ sources = cherry_pick_source_oids cmd ∧ Forall (λ sha, valid_non_zero_oid sha = true) new_commits
  | MergeSquash source_head onto => valid_non_zero_oid source_head = true ∧ head_after changes refs onto
  | RebaseAbort head | CherryPickAbort head => head_or_empty changes refs head
  | CherryPickNoCommit sources head => sources = cherry_pick_source_oids cmd ∧ head_or_empty changes refs head
  | RefUpdated r o n =>
      (primary_command cmd = Some (lit "merge") ∧ r = lit "HEAD" ∧ head_moved changes o n) ∨
      (primary_command cmd = Some (lit "update-ref") ∧ mkChange r o n ∈ changes ∧ moves_ref (mkChange r o n))
  | OpaqueCommand => reports_head cmd = true → ∀ o n, ¬ head_span changes o n
  | _ => False
  end.
End AnalyzersSpec.

(** ** Lemmas *)

Module AnalyzersFacts.
Import Domain Analyzers AnalyzersSpec.
Import CliParser(one_of).

Lemma register_all_lookup commands analyzer registry k :
  by_command (register_all commands analyzer registry) !! k =
  if bool_decide (k ∈ map (λ w, to_ascii_lowercase (lit w)) commands) then Some analyzer else by_command registry !! k.
Proof.
  unfold register_all. induction commands as [|c cs IH] using rev_ind; [done|].
  rewrite foldl_app, map_app. cbn [foldl map register_command by_command]. set (kc := to_ascii_lowercase (lit c)).
  destruct (decide (k = kc)) as [->|Hne].
  - rewrite lookup_insert_eq, bool_decide_true; [done|]. set_solver.
  - rewrite lookup_insert_ne, IH by done. erewrite bool_decide_ext; [done|]. set_solver.
Qed.

Lemma registry_lookup k :
  by_command new_registry !! k =
  if bool_decide (k ∈ transport_commands) then Some TransportAnalyzer
  else if bool_decide (k ∈ workspace_commands) then Some WorkspaceAnalyzer
  else if bool_decide (k ∈ history_commands) then Some HistoryAnalyzer
  else None.
Proof. unfold new_registry. rewrite !register_all_lookup. cbn [by_command]. by rewrite lookup_empty. Qed.

(** The names the registry knows are in lower case. *)
Lemma routed_lower c : c ∈ routed_commands → to_ascii_lowercase c = c.
Proof.
  assert (Forall (λ c, to_ascii_lowercase c = c) routed_commands) as H by (vm_compute; repeat constructor).
  rewrite Forall_forall in H. apply H.
Qed.

Lemma history_events_panic name cmd refs : history_events name cmd refs = Panic ↔ name ∉ history_commands.
Proof.
  unfold history_events, one_of. cbn [existsb]. rewrite orb_false_r. unfold str_eqb, history_commands. cbn [map].
  rewrite !not_elem_of_cons.
  repeat (case_bool_decide; [subst; cbn; split; [done|naive_solver]|]). cbn.
  split; [intros _|done]. split_and!; try done. apply not_elem_of_nil.
Qed.

Lemma transport_analyze_panic cmd :
  transport_analyze cmd = Panic ↔ default [] (primary_command cmd) ∉ transport_commands ++ [lit "ls-remote"].
Proof.
  unfold transport_analyze, str_eqb, transport_commands. cbv zeta. cbn [map app]. rewrite !not_elem_of_cons.
  repeat (let H := fresh "H" in case_bool_decide as H; [split; [done|naive_solver]|]).
  split; [intros _|done]. split_and!; try done. apply not_elem_of_nil.
Qed.

Lemma workspace_analyze_panic cmd refs :
  workspace_analyze cmd refs = Panic ↔ default [] (primary_command cmd) ∉ workspace_commands.
Proof.
  unfold workspace_analyze, str_eqb, workspace_commands. cbv zeta. cbn [map]. rewrite !not_elem_of_cons.
  repeat (let H := fresh "H" in case_bool_decide as H; [split; [done|naive_solver]|]).
  split; [intros _|done]. split_and!; try done. apply not_elem_of_nil.
Qed.

Lemma history_events_not_fail name cmd refs e : history_events name cmd refs ≠ Fail e.
Proof. unfold history_events. by repeat case_match. Qed.

(** The other analyzers never fail, and are not of class [HistoryRewrite]. *)
Lemma transport_analyze_class cmd :
  match transport_analyze cmd with Ret r => class r = Transport | Fail _ => False | Panic => True end.
Proof. unfold transport_analyze. cbv zeta. repeat match goal with |- context [str_eqb ?a ?b] => destruct (str_eqb a b) end; done. Qed.

Lemma workspace_analyze_class cmd refs :
  match workspace_analyze cmd refs with Ret r => class r = WorkspaceMutation | Fail _ => False | Panic => True end.
Proof. unfold workspace_analyze. cbv zeta. repeat match goal with |- context [str_eqb ?a ?b] => destruct (str_eqb a b) end; done. Qed.

Lemma generic_analyze_class cmd : class (generic_analyze cmd) ≠ HistoryRewrite.
Proof.
  unfold generic_analyze. cbv zeta. repeat match goal with |- context [if ?b then _ else _] => destruct b end; done.
Qed.

(** *** Heads *)

Lemma change_span_moved changes all old_head new_head :
  (∀ c, c ∈ changes → c ∈ all) → change_span changes = Some (old_head, new_head) → moved all old_head new_head.
Proof.
  intros Hall. unfold change_span. destruct changes as [|c cs]; [done|]. cbn [List.hd_error].
  destruct (last (c :: cs)) as [l|] eqn:El; [|done]. repeat case_bool_decide; cbn; try done.
  destruct (str_eqb _ _) eqn:E; [done|]. intros [= <- <-]. apply bool_decide_eq_false in E. split_and!; [done..|].
  exists c, l. split_and!; [apply Hall; left|apply Hall|done|done]. apply last_Some in El as [l' ->]. set_solver.
Qed.

Lemma single_branch_moved cmd old_head new_head :
  single_branch_ref_change cmd = Some (old_head, new_head) → moved (ref_changes cmd) old_head new_head.
Proof.
  unfold single_branch_ref_change. case_bool_decide; [done|]. set (l := dedup _ _).
  destruct (List.hd_error l) eqn:E; [|done]. destruct (existsb _ l); [done|]. apply change_span_moved.
  intros c Hc. unfold l in Hc. apply elem_of_dedup_incl in Hc. rewrite elem_of_sort_by, elem_of_filter_b in Hc. tauto.
Qed.

Lemma head_change_moved cmd old_head new_head :
  head_change cmd = Some (old_head, new_head) → moved (ref_changes cmd) old_head new_head.
Proof.
  unfold head_change. destruct (change_span _) as [[o n]|] eqn:E.
  - intros [= -> ->]. eapply change_span_moved; [|exact E]. intros c. rewrite elem_of_filter_b. tauto.
  - apply single_branch_moved.
Qed.

Lemma filtered_transition_ok p cmd old_head new_head :
  (old_head, new_head) ∈ omap valid_ref_transition (List.filter p (ref_changes cmd)) →
  moved (ref_changes cmd) old_head new_head ∧ valid_non_zero_oid new_head = true.
Proof.
  intros (c & Hc & E)%list_elem_of_omap. apply elem_of_filter_b in Hc as [Hc _].
  unfold valid_ref_transition in E. destruct (str_eqb _ _) eqn:En; [done|]. apply bool_decide_eq_false in En.
  destruct (valid_non_zero_oid (trim (old c))) eqn:Eo; [|done]. destruct (valid_non_zero_oid (trim (new c))) eqn:Ew; [|done].
  cbn in E. injection E as <- <-. split; [|done].
  assert (∀ s, valid_non_zero_oid s = true → s ≠ []) as Hne by (by intros s Hs ->).
  split; [by apply Hne|]. split; [by apply Hne|]. split; [done|]. by exists c, c.
Qed.

Lemma amend_change_moved cmd old_head new_head :
  amend_head_change cmd = Some (old_head, new_head) → moved (ref_changes cmd) old_head new_head.
Proof.
  unfold amend_head_change, first_ref_transition_for.
  destruct (omap _ _) as [|[o n] l] eqn:E; cbn [List.hd_error]; [apply single_branch_moved|]. intros [= -> ->].
  eapply (filtered_transition_ok (is_change_of (lit "HEAD")) cmd). rewrite E. left.
Qed.

Lemma trimmed_moved all c : c ∈ all → moves_between c = true → moved all (trim (old c)) (trim (new c)).
Proof.
  intros Hc. unfold moves_between, moves_to_new. rewrite !andb_true_iff, !negb_true_iff, !bool_decide_eq_false.
  intros (? & ? & Hne%bool_decide_eq_false). repeat (split; [done|]). by exists c, c.
Qed.

Lemma rebase_change_moved cmd old_head new_head :
  rebase_change cmd = Some (old_head, new_head) → moved (ref_changes cmd) old_head new_head.
Proof.
  unfold rebase_change. destruct (explicit_rebase_branch_change cmd) as [[o n]|] eqn:E1.
  { intros [= -> ->]. unfold explicit_rebase_branch_change in E1. destruct (CliParser.explicit_rebase_branch_arg _); [|done].
    destruct (List.find _ _) as [c|] eqn:Ef; [|done]. cbn in E1. injection E1 as <- <-.
    apply List.find_some in Ef as [Hc%list_elem_of_In [_ Hm]%andb_true_iff]. by apply trimmed_moved. }
  destruct (inferred_rebase_branch_change cmd) as [[o n]|] eqn:E2.
  { intros [= -> ->]. unfold inferred_rebase_branch_change in E2.
    destruct (List.filter _ _) as [|c [|]] eqn:Ef; [done| |done]. injection E2 as <- <-.
    assert (c ∈ List.filter (λ c, is_branch_change c && moves_between c) (ref_changes cmd)) as Hc by (rewrite Ef; left).
    apply elem_of_filter_b in Hc as [Hc [_ Hm]%andb_true_iff]. by apply trimmed_moved. }
  destruct (head_change cmd) as [[o n]|] eqn:E3; [|done]. destruct (str_eqb o n); [done|]. intros [= -> ->].
  by apply head_change_moved.
Qed.

Lemma filter_heads changes :
  List.filter (λ c, is_head_change c && moves_to_new c) changes = List.filter (λ c, bool_decide (moves_head c)) changes.
Proof.
  apply List.filter_ext. intros c. unfold is_head_change, is_change_of, moves_to_new, moves_head, str_eqb.
  repeat case_bool_decide; cbn; try done; tauto.
Qed.

Lemma change_span_heads changes o n :
  change_span (List.filter (λ c, is_head_change c && moves_to_new c) changes) = Some (o, n) ↔ head_span changes o n.
Proof.
  rewrite filter_heads. unfold head_span, change_span, str_eqb. cbv zeta. set (heads := List.filter _ changes).
  destruct (List.hd_error heads) as [first|]; [|naive_solver]. destruct (last heads) as [final|]; [|naive_solver].
  repeat case_bool_decide; cbn; naive_solver.
Qed.

Lemma head_change_spec cmd o n : head_change cmd = Some (o, n) → head_moved (ref_changes cmd) o n.
Proof.
  intros H. split; [by apply head_change_moved|]. intros o' n' Hs%change_span_heads. unfold head_change in H. rewrite Hs in H. naive_solver.
Qed.

Lemma head_change_none cmd : head_change cmd = None → ∀ o n, ¬ head_span (ref_changes cmd) o n.
Proof. intros H o n Hs%change_span_heads. unfold head_change in H. by rewrite Hs in H. Qed.

Lemma find_last p (changes : list RefChange) c :
  List.find p (rev changes) = Some c → ∃ before after, changes = before ++ c :: after ∧ p c = true ∧ ∀ x, x ∈ after → p x = false.
Proof.
  induction changes as [|x changes IH] using rev_ind; [done|]. rewrite rev_app_distr. cbn. destruct (p x) eqn:E.
  - intros [= ->]. exists changes, []. split_and!; [done..|]. by intros y ?%elem_of_nil.
  - intros H. destruct (IH H) as (before & after & -> & Hc & Ha). exists before, (after ++ [x]). split; [by rewrite <-app_assoc|].
    split; [done|]. intros y [Hy|Hy%list_elem_of_singleton]%elem_of_app; [by apply Ha|by subst y].
Qed.

Lemma head_change_true c : is_head_change c = true ↔ reference c = lit "HEAD".
Proof. unfold is_head_change, is_change_of, str_eqb. by rewrite bool_decide_eq_true. Qed.

Lemma head_after_unique changes refs h h' : head_after changes refs h → head_after changes refs h' → h = h'.
Proof.
  intros [_ [(b & c & a & -> & Hc & <- & Ha)|[Hn Hr]]] [_ [(b' & c' & a' & Heq & Hc' & <- & Ha')|[Hn' Hr']]]; [|..|congruence].
  - assert (∀ l1 l2 : list RefChange, l1 = l2 → List.find is_head_change (rev l1) = List.find is_head_change (rev l2)) as Hf by by intros ? ? ->.
    assert (∀ b c a, reference c = lit "HEAD" → (∀ x, x ∈ a → reference x ≠ lit "HEAD") → List.find is_head_change (rev (b ++ c :: a)) = Some c) as Hfind.
    { clear. intros b c a Hc. induction a as [|y a IH] using rev_ind; intros Ha.
      - rewrite rev_app_distr. cbn. by rewrite (proj2 (head_change_true c)).
      - replace (b ++ c :: a ++ [y]) with ((b ++ c :: a) ++ [y]) by by rewrite <-app_assoc. rewrite rev_app_distr. cbn.
        destruct (is_head_change y) eqn:E; [apply head_change_true in E; exfalso; apply (Ha y); [apply elem_of_app; right; by left|done]|].
        apply IH. intros x Hx. apply Ha, elem_of_app. by left. }
    apply Hf in Heq. rewrite !Hfind in Heq by done. congruence.
  - exfalso. apply (Hn' c); [apply elem_of_app; right; by left|done].
  - exfalso. apply (Hn c'); [rewrite Heq; apply elem_of_app; right; by left|done].
Qed.

Lemma keep_if_some p o s : keep_if p o = Some s → p s = true ∧ o = Some s.
Proof. unfold keep_if. destruct o as [x|]; [|done]. destruct (p x) eqn:E; [|done]. intros [= ->]. done. Qed.

Lemma current_head_after cmd refs h : current_head_from_ref_data cmd refs = Some h ↔ head_after (ref_changes cmd) refs h.
Proof.
  assert (∀ h, current_head_from_ref_data cmd refs = Some h → head_after (ref_changes cmd) refs h) as Hsome.
  { intros h'. unfold current_head_from_ref_data. intros [Hv H]%keep_if_some. split; [done|].
    destruct (List.find is_head_change (rev (ref_changes cmd))) as [c|] eqn:E.
    - injection H as H. apply find_last in E as (before & after & Hc & Hr & Ha). left. exists before, c, after. split; [done|].
      split; [by apply head_change_true|]. split; [done|]. intros x Hx Hxr. apply head_change_true in Hxr. by rewrite Ha in Hxr.
    - right. split; [|done]. intros x Hx Hr%head_change_true.
      assert (x ∈ rev (ref_changes cmd)) as Hin by (apply list_elem_of_In, in_rev; rewrite rev_involutive; by apply list_elem_of_In).
      apply list_elem_of_In in Hin. by rewrite (List.find_none _ _ E x Hin) in Hr. }
  split; [apply Hsome|]. intros H. destruct (current_head_from_ref_data cmd refs) as [h'|] eqn:E.
  { f_equal. eapply head_after_unique; [by apply Hsome|done]. }
  exfalso. destruct H as [Hv H]. unfold current_head_from_ref_data, keep_if in E. destruct H as [(b & c & a & Hc & Hr & Hn & Ha)|[Hn Hr]].
  - destruct (List.find is_head_change (rev (ref_changes cmd))) as [d|] eqn:Ef.
    + assert (d = c) as ->; [|rewrite Hn, Hv in E; done]. apply find_last in Ef as (b' & a' & Hc' & Hd%head_change_true & Ha').
      assert (∀ b c a b' d a', b ++ c :: a = b' ++ d :: a' → reference c = lit "HEAD" → reference d = lit "HEAD" →
        (∀ x, x ∈ a → reference x ≠ lit "HEAD") → (∀ x, x ∈ a' → is_head_change x = false) → d = c) as Hu.
      { clear. intros b c a b' d a' Heq Hc Hd Ha Ha'. revert b' Heq. induction b as [|x b IH]; intros [|x' b'] Heq; injection Heq as Hx Heq; [done| | |].
        - exfalso. apply (Ha d); [|done]. rewrite Heq. apply elem_of_app. right. by left.
        - exfalso. assert (is_head_change c = false) as Hf; [|apply head_change_true in Hc; congruence]. apply Ha'. rewrite <-Heq. apply elem_of_app. right. by left.
        - by apply (IH b'). }
      eapply Hu; [by rewrite <-Hc, <-Hc'|done..].
    + assert (c ∈ rev (ref_changes cmd)) as Hin.
      { apply list_elem_of_In, in_rev. rewrite rev_involutive, Hc. apply list_elem_of_In, elem_of_app. right. by left. }
      apply list_elem_of_In in Hin. apply head_change_true in Hr. by rewrite (List.find_none _ _ Ef c Hin) in Hr.
  - destruct (List.find is_head_change (rev (ref_changes cmd))) as [d|] eqn:Ef; [|by rewrite Hr, Hv in E].
    apply find_last in Ef as (b & a & Hc & Hd%head_change_true & _). apply (Hn d); [|done]. rewrite Hc. apply elem_of_app. right. by left.
Qed.

Lemma current_or_empty_ok cmd refs : head_or_empty (ref_changes cmd) refs (current_or_empty cmd refs).
Proof.
  unfold current_or_empty, head_or_empty. destruct (current_head_from_ref_data cmd refs) as [h|] eqn:E; [by left; apply current_head_after|].
  right. split; [done|]. intros h Hh%current_head_after. congruence.
Qed.

Lemma resolve_valid revision refs oid :
  resolve_revision_from_ref_state revision refs = Some oid → valid_non_zero_oid oid = true.
Proof.
  unfold resolve_revision_from_ref_state. destruct (valid_non_zero_oid revision) eqn:E; [by intros [= <-]|].
  repeat case_match; intros; simplify_eq; repeat match goal with H : keep_if _ _ = Some _ |- _ => apply keep_if_some in H as [? _] end; done.
Qed.

Lemma event_of_ok changes change event (P : SemanticEvent → Prop) :
  (∀ o n, change = Some (o, n) → moved changes o n) → (∀ o n, moved changes o n → P (event o n)) → Forall P (event_of change event).
Proof. intros Hm He. unfold event_of. destruct change as [[o n]|]; [|constructor]. apply Forall_singleton. auto. Qed.

Lemma sanitize_base_ok old_head new_head :
  old_head ≠ new_head → sanitize_base (Some old_head) new_head = if is_zero_oid old_head then None else Some old_head.
Proof. intros H. cbn. unfold str_eqb. rewrite bool_decide_false by done. by destruct (is_zero_oid old_head). Qed.

Lemma no_arg args : existsb (CliParser.one_of ["--no-commit"; "-n"]%string) args = has_arg "--no-commit" args || has_arg "-n" args.
Proof.
  unfold has_arg. induction args as [|a args IH]; [done|]. cbn [existsb]. rewrite IH. unfold CliParser.one_of. cbn [existsb].
  rewrite orb_false_r. by destruct (str_eqb a (lit "--no-commit")), (str_eqb a (lit "-n")), (existsb _ _), (existsb _ _).
Qed.

(** The events before an empty list of them is made an opaque command. *)
Lemma history_events_ok name cmd refs evs :
  primary_command cmd = Some name → history_events name cmd refs = Ret evs →
  Forall (history_event_ok cmd refs) evs ∧ (evs = [] → history_event_ok cmd refs OpaqueCommand).
Proof.
  intros Hname.
  assert (∀ event, (∀ o n, head_moved (ref_changes cmd) o n → history_event_ok cmd refs (event o n)) →
    Forall (history_event_ok cmd refs) (event_of (head_change cmd) event) ∧
    (event_of (head_change cmd) event = [] → history_event_ok cmd refs OpaqueCommand)) as Hhead.
  { intros event Hev. destruct (head_change cmd) as [[o n]|] eqn:E; cbn [event_of].
    - split; [|done]. apply Forall_singleton, Hev, head_change_spec, E.
    - split; [constructor|]. intros _ _. by apply head_change_none. }
  assert (∀ evs, reports_head cmd = false → Forall (history_event_ok cmd refs) evs →
    Forall (history_event_ok cmd refs) evs ∧ (evs = [] → history_event_ok cmd refs OpaqueCommand)) as Hother.
  { intros evs' Hr Hev. split; [done|]. intros _. cbn. by rewrite Hr. }
  unfold history_events. cbv zeta. unfold reports_head in Hother. rewrite Hname in Hother. cbv zeta in Hother.
  destruct (one_of ["commit"; "revert"]%string name) eqn:E0; [|destruct (str_eqb name (lit "reset")) eqn:E1;
    [|destruct (str_eqb name (lit "rebase")) eqn:E2; [|destruct (str_eqb name (lit "cherry-pick")) eqn:E3;
    [|destruct (str_eqb name (lit "merge")) eqn:E4; [|destruct (str_eqb name (lit "update-ref")) eqn:E5; [|done]]]]]]; intros [= <-].
  - unfold commit_events. destruct (has_arg "--amend" (command_args cmd)) eqn:Ea.
    + apply Hother.
      { apply CliParserFacts.one_of_true in E0 as (w & Hw & ->). by destruct Hw as [<-|[<-|[]]]. }
      eapply event_of_ok; [intros o n; apply amend_change_moved|done].
    + apply Hhead. intros o n Hm. exists o. split; [done|]. apply sanitize_base_ok, Hm.
  - by apply Hhead.
  - apply Hother; [apply str_eqb_eq in E2 as ->; done|]. unfold rebase_events. case_match.
    + apply Forall_singleton. apply current_or_empty_ok.
    + eapply event_of_ok; [intros o n; apply rebase_change_moved|done].
  - unfold cherry_pick_events. rewrite no_arg. destruct (has_arg "--abort" (command_args cmd)) eqn:Ea;
      [|destruct (has_arg "--no-commit" (command_args cmd) || has_arg "-n" (command_args cmd)) eqn:En].
    + apply Hother; [apply str_eqb_eq in E3 as ->; done|]. apply Forall_singleton. apply current_or_empty_ok.
    + apply Hother; [apply str_eqb_eq in E3 as ->|apply Forall_singleton; split; [done|apply current_or_empty_ok]].
      apply orb_true_iff in En as [->| ->]; cbn; by rewrite ?andb_false_r.
    + apply Hhead. intros o n Hm. do 2 (split; [done|]). unfold cherry_pick_new_commits. apply Forall_map, Forall_forall.
      intros [o' n'] Hin. by apply filtered_transition_ok in Hin as [_ ?].
  - apply str_eqb_eq in E4 as ->. unfold merge_events. destruct (has_arg "--squash" (command_args cmd)) eqn:Es.
    + apply Hother; [done|]. destruct (squash_source_head _ refs) as [s|] eqn:Esrc; [|constructor].
      destruct (current_head_from_ref_data cmd refs) as [o|] eqn:Eo; [|constructor]. apply Forall_singleton. split.
      * unfold squash_source_head in Esrc. destruct (List.hd_error _); [|done]. by apply resolve_valid in Esrc.
      * by apply current_head_after.
    + apply Hhead. intros o n Hm. by left.
  - apply str_eqb_eq in E5 as ->. apply Hother; [done|].
    unfold update_ref_events. apply Forall_map, Forall_forall. intros [r o n] [Hc [Hr Hne]%andb_true_iff]%elem_of_filter_b.
    right. split; [done|]. split; [done|]. apply negb_true_iff, bool_decide_eq_false in Hne. split; [|done]. apply orb_true_iff in Hr as [Hr|Hr].
    + left. by apply head_change_true in Hr.
    + by right.
Qed.

(** The events of [update-ref]. *)
Lemma update_ref_events_spec cmd r o n :
  RefUpdated r o n ∈ update_ref_events cmd ↔ mkChange r o n ∈ ref_changes cmd ∧ moves_ref (mkChange r o n).
Proof.
  unfold update_ref_events. split.
  - intros ([r' o' n'] & Heq & Hc)%list_elem_of_fmap. injection Heq as -> -> ->. apply elem_of_filter_b in Hc as [Hc [Hr Hne]%andb_true_iff].
    split; [done|]. apply negb_true_iff, bool_decide_eq_false in Hne. split; [|done]. apply orb_true_iff in Hr as [Hr|Hr]; [|by right].
    left. by apply head_change_true in Hr.
  - intros [Hc [Hr Hne]]. apply list_elem_of_fmap. exists (mkChange r o n). split; [done|]. apply elem_of_filter_b. split; [done|].
    apply andb_true_iff. split; [|apply negb_true_iff; by apply bool_decide_eq_false]. apply orb_true_iff.
    destruct Hr as [Hr|Hr]; [left; by apply head_change_true|by right].
Qed.

(** *** The registry *)

Lemma analyze_panic (cmd : NormalizedCommand) (refs : gmap str str) :
  (∀ e, analyze new_registry cmd refs ≠ Fail e) ∧
  (analyze new_registry cmd refs = Panic ↔
   ∃ c, primary_command cmd = Some c ∧ to_ascii_lowercase c ∈ routed_commands ∧ c ≠ to_ascii_lowercase c).
Proof.
  unfold analyze. destruct (primary_command cmd) as [c|] eqn:Ec; [|split; [done|split; [done|naive_solver]]].
  rewrite registry_lookup.
  assert (default [] (primary_command cmd) = c) as Hd by by rewrite Ec.
  assert (∀ cmds : list str, (∀ x, x ∈ cmds → x ∈ routed_commands) → to_ascii_lowercase c ∈ cmds → c ∈ cmds ↔ c = to_ascii_lowercase c) as Hcase.
  { intros cmds Hin Hl. split; [|congruence]. intros Hc. symmetry. by apply routed_lower, Hin. }
  assert (∀ (P : Prop) (cmds : list str), (∀ x, x ∈ cmds → x ∈ routed_commands) → to_ascii_lowercase c ∈ cmds → (P ↔ c ∉ cmds) →
    P ↔ ∃ c0, Some c = Some c0 ∧ to_ascii_lowercase c0 ∈ routed_commands ∧ c0 ≠ to_ascii_lowercase c0) as Hdone.
  { intros P cmds Hin Hl ->. rewrite (Hcase cmds Hin Hl). split; [eauto|]. by intros (c0 & [= <-] & _ & ?). }
  unfold routed_commands in *.
  case_bool_decide as Ht; [|case_bool_decide as Hw; [|case_bool_decide as Hh]].
  - split; [intros e; cbn [run_analyzer]; pose proof (transport_analyze_class cmd); by destruct (transport_analyze cmd)|]. eapply (Hdone _ transport_commands); [intros x; rewrite !elem_of_app; auto|done|].
    cbn [run_analyzer]. rewrite transport_analyze_panic, Hd. rewrite not_elem_of_app, list_elem_of_singleton. split; [tauto|].
    intros Hc. split; [done|]. intros E. rewrite E in Ht. rewrite list_elem_of_In in Ht. vm_compute in Ht. intuition discriminate.
  - split; [intros e; cbn [run_analyzer]; pose proof (workspace_analyze_class cmd refs); by destruct (workspace_analyze cmd refs)|]. eapply (Hdone _ workspace_commands); [intros x; rewrite !elem_of_app; auto|done|].
    cbn [run_analyzer]. by rewrite workspace_analyze_panic, Hd.
  - split; [intros e|].
    + cbn [run_analyzer]. unfold history_analyze. destruct (history_events _ cmd refs) as [|e'|] eqn:E; [done| |done].
      by apply history_events_not_fail in E.
    + eapply (Hdone _ history_commands); [intros x; rewrite !elem_of_app; auto|done|]. cbn [run_analyzer]. unfold history_analyze. rewrite Hd.
      rewrite <-(history_events_panic c cmd refs). destruct (history_events c cmd refs); cbn; split; done.
  - split; [done|]. split; [done|]. intros (c0 & [= <-] & Hin & _). rewrite !elem_of_app in Hin. tauto.
Qed.

End AnalyzersFacts.

(** ** Properties *)

Module AnalyzersProps.
Import Domain Analyzers AnalyzersSpec AnalyzersFacts.

(** which commands can be analyzed.  The analysis never returns an error, and
    it panics exactly on a command whose name has an upper-case letter and is, in
    lower case, one the registry routes: the registry looks names up in lower
    case and the analyzers it finds do not know the name as it is. *)
Theorem analysis_panics_on_case (cmd : NormalizedCommand) (refs : gmap str str) :
  (∀ e, analyze new_registry cmd refs ≠ Fail e) ∧
  (analyze new_registry cmd refs = Panic ↔
   ∃ c, primary_command cmd = Some c ∧ to_ascii_lowercase c ∈ routed_commands ∧ c ≠ to_ascii_lowercase c).
Proof. apply analyze_panic. Qed.

(** C26: what the events of a history command say.  There is at least one.  A
    commit, a reset, a cherry-pick or a merge moves the head from the old value of
    the first change that moves [HEAD] to the new value of the last, when these
    show a move, and it is only an opaque command when they show none; an amend or
    a rebase goes from the old value of a change to the new value of one.  The
    base of a created commit is the head it left, unless that is the null commit.
    A squash merge and the abort of a command name the head that the changes or
    the refs leave.  [update-ref] has the events of the changes that move [HEAD]
    or a branch, exactly and as they are. *)
Theorem history_events_show_moves (registry_cmd : NormalizedCommand) (refs : gmap str str) (r : AnalysisResult)
    (is_analyzed : analyze new_registry registry_cmd refs = Ret r) (history : class r = HistoryRewrite) :
  events r ≠ [] ∧ Forall (history_event_ok registry_cmd refs) (events r) ∧
  (primary_command registry_cmd = Some (lit "update-ref") → ∀ name o n,
     RefUpdated name o n ∈ events r ↔ mkChange name o n ∈ ref_changes registry_cmd ∧ moves_ref (mkChange name o n)).
Proof.
  assert (history_analyze registry_cmd refs = Ret r ∨ class r ≠ HistoryRewrite) as [H|]; [| |done].
  { revert is_analyzed. unfold analyze. destruct (primary_command registry_cmd); [|intros [= <-]; right; apply generic_analyze_class].
    rewrite registry_lookup. repeat case_bool_decide; cbn [run_analyzer]; [| |auto|].
    - intros E. right. pose proof (transport_analyze_class registry_cmd) as Hc. rewrite E in Hc. by rewrite Hc.
    - intros E. right. pose proof (workspace_analyze_class registry_cmd refs) as Hc. rewrite E in Hc. by rewrite Hc.
    - intros [= <-]. right. apply generic_analyze_class. }
  unfold history_analyze in H. destruct (history_events _ _ _) as [evs|e|] eqn:E; [|done..]. injection H as <-.
  destruct (primary_command registry_cmd) as [name|] eqn:Hname; [|by vm_compute in E]. cbn [default] in E. rewrite <-Hname.
  destruct (history_events_ok name registry_cmd refs evs Hname E) as [Hall Hnone]. cbn. split_and!.
  - by case_bool_decide.
  - case_bool_decide; [|done]. by apply Forall_singleton, Hnone.
  - rewrite Hname. intros [= ->] rn o n. injection E as <-. rewrite <-update_ref_events_spec. case_bool_decide as Hevs; [|done].
    rewrite Hevs. rewrite list_elem_of_singleton, elem_of_nil. done.
Qed.

(** *** Witnesses *)

Definition sample_sha (c : ascii) : str := repeat c 40.
Definition sample_changes : list RefChange :=
  [mkChange (lit "HEAD") (sample_sha "a") (sample_sha "b"); mkChange (lit "HEAD") (sample_sha "b") (sample_sha "c");
   mkChange (lit "refs/heads/main") (sample_sha "a") (sample_sha "c")].
Definition sample_reset : NormalizedCommand :=
  with_ref_changes (plain_command (Some (lit "reset")) [lit "--hard"]) sample_changes.

Lemma history_events_show_moves_witness :
  analyze new_registry sample_reset ∅ = Ret (mkAnalysis HistoryRewrite [Reset Hard (sample_sha "a") (sample_sha "c")] High) ∧
  moved sample_changes (sample_sha "a") (sample_sha "c").
Proof.
  assert (analyze new_registry sample_reset ∅ =
    Ret (mkAnalysis HistoryRewrite [Reset Hard (sample_sha "a") (sample_sha "c")] High)) as H by (vm_compute; reflexivity).
  split; [exact H|]. destruct (history_events_show_moves _ _ _ H eq_refl) as (_ & Hf & _).
  exact (proj1 (Forall_inv Hf)).
Defined.

End AnalyzersProps.
