(* ===== verification/Reducer.v ===== *)
(** * Reducer

    src/src/daemon/reducer.rs: how a command changes the state of a family of
    worktrees: its refs, the heads of its worktrees and its sequence number. *)

From S2P Require Import Prelude Text DiffCompute CliParser Domain Analyzers.

(** ** Definitions *)

Module Reducer.
Import Domain.
Import DiffCompute(result).
Import CliParser(one_of, is_option).
Import Analyzers(is_zero_oid, analyze, AnalyzerRegistry, keep_if, is_head_change, is_branch_change).

Definition u64_max : N := 18446744073709551615.
Definition u64_saturating_succ (n : N) : N := N.min (n + 1) u64_max.

(** *** Refs *)

Definition apply_ref_change (refs : gmap str str) (change : RefChange) : gmap str str :=
  if bool_decide (trim (new change) = []) || is_zero_oid (new change) then delete (reference change) refs
  else <[reference change := new change]> refs.

Definition with_refs (state : FamilyState) (r : gmap str str) : FamilyState :=
  mkFamily (state_family_key state) r (worktrees state) (last_error state) (applied_seq state) (watermarks state).

Definition apply_ref_changes (state : FamilyState) (cmd : NormalizedCommand) : FamilyState :=
  with_refs state (foldl apply_ref_change (refs state) (ref_changes cmd)).

(** *** Worktrees *)

Definition command_args (cmd : NormalizedCommand) : list str :=
  if negb (bool_decide (invoked_args cmd = [])) then
    (match invoked_command cmd with Some c => c | None => default [] (primary_command cmd) end) :: invoked_args cmd
  else drop_while (λ arg, negb (str_eqb arg (default [] (primary_command cmd)))) (raw_argv cmd).

(** The arguments without a leading word. *)
Definition after_word (word : string) (args : list str) : list str :=
  match args with a :: args' => if str_eqb a (lit word) then args' else args | [] => [] end.

(** A short option with its value in the same word. *)
Definition sticky_value (flag value : str) : option str :=
  if starts_with flag value && (2 <? length value)%nat then Some (drop 2 value) else None.

Fixpoint checkout_loop (args : list str) : option str :=
  match args with
  | [] => None
  | arg :: args' =>
      if one_of ["-b"; "-B"]%string arg then List.hd_error args'
      else
        match sticky_value (lit "-b") arg with
        | Some v => Some v
        | None =>
            match sticky_value (lit "-B") arg with
            | Some v => Some v
            | None => if str_eqb arg (lit "--") then None else checkout_loop args'
            end
        end
  end.

Definition checkout_created_branch_target (args : list str) : option str := checkout_loop (after_word "checkout" args).

(** The value of the first long option that prefixes the word. *)
Definition long_value (options : list string) (value : str) : option str :=
  List.hd_error (omap (λ o, strip_prefix (lit o) value) options).

Fixpoint switch_loop (args : list str) : option str :=
  match args with
  | [] => None
  | arg :: args' =>
      if one_of ["-c"; "-C"; "--create"; "--force-create"]%string arg then List.hd_error args'
      else
        match long_value ["--create="; "--force-create="]%string arg with
        | Some v => Some v
        | None =>
            match sticky_value (lit "-c") arg with
            | Some v => Some v
            | None =>
                match sticky_value (lit "-C") arg with
                | Some v => Some v
                | None =>
                    if one_of ["--detach"; "-d"; "--"]%string arg then None
                    else if negb (is_option arg) then Some arg
                    else switch_loop args'
                end
            end
        end
  end.

Definition switch_branch_target (args : list str) : option str := switch_loop (after_word "switch" args).

Definition branch_ref (branch : str) : str := if starts_with (lit "refs/") branch then branch else lit "refs/heads/" ++ branch.

Definition checkout_or_switch_branch_target (cmd : NormalizedCommand) : option str :=
  try command := primary_command cmd in
  let args := command_args cmd in
  branch_ref <$> (if str_eqb command (lit "checkout") then checkout_created_branch_target args
                  else if str_eqb command (lit "switch") then switch_branch_target args
                  else None).

Definition unique_branch_for_head_change (cmd : NormalizedCommand) (head_change : RefChange) : option str :=
  match List.filter (λ c, is_branch_change c && str_eqb (old c) (old head_change) && str_eqb (new c) (new head_change)) (ref_changes cmd) with
  | [c] => Some (reference c)
  | _ => None
  end.

(** The worktree after a command. *)
Definition next_worktree (previous : option WorktreeState) (cmd : NormalizedCommand) : WorktreeState :=
  match List.find is_head_change (rev (ref_changes cmd)) with
  | Some head_change =>
      let branch := unique_branch_for_head_change cmd head_change in
      mkWorktree (Some (new head_change)) branch (match branch with None => true | Some _ => false end) (finished_at_ns cmd)
  | None =>
      match checkout_or_switch_branch_target cmd with
      | Some branch => mkWorktree (previous ≫= head) (Some branch) false (finished_at_ns cmd)
      | None =>
          mkWorktree (previous ≫= head) (previous ≫= branch)
            (match previous with Some w => detached w | None => false end) (finished_at_ns cmd)
      end
  end.

Section Reduce.
(** [path.canonicalize()], when the path exists. *)
Variable canonicalize : PathBuf → option PathBuf.
Variable analyzers : AnalyzerRegistry.

Definition canonicalize_path (path : PathBuf) : PathBuf := default path (canonicalize path).

Definition apply_worktree_state (state : FamilyState) (cmd : NormalizedCommand) : FamilyState :=
  match worktree cmd with
  | None => state
  | Some w =>
      let key := canonicalize_path w in
      mkFamily (state_family_key state) (refs state) (<[key := next_worktree (worktrees state !! key) cmd]> (worktrees state))
        (last_error state) (applied_seq state) (watermarks state)
  end.

Definition advance_seq (state : FamilyState) : FamilyState :=
  mkFamily (state_family_key state) (refs state) (worktrees state) (last_error state) (u64_saturating_succ (applied_seq state))
    (watermarks state).

(** The refs the analysis sees: those the command started from first. *)
Definition refs_for_analysis (state : FamilyState) (command_start_refs : gmap str str) : gmap str str :=
  if bool_decide (command_start_refs = ∅) then refs state else command_start_refs ∪ refs state.

Definition reduce_family_command_with_ref_snapshot (state : FamilyState) (cmd : NormalizedCommand)
    (command_start_refs : gmap str str) : result (FamilyState * AppliedCommand * AnalysisResult) :=
  let? analysis := analyze analyzers cmd (refs_for_analysis state command_start_refs) in
  let state' := advance_seq (apply_worktree_state (apply_ref_changes state cmd) cmd) in
  Ret (state', mkApplied (applied_seq state') cmd analysis, analysis).

Definition reduce_family_command (state : FamilyState) (cmd : NormalizedCommand) :
    result (FamilyState * AppliedCommand * AnalysisResult) :=
  reduce_family_command_with_ref_snapshot state cmd ∅.

Definition reduce_global_command (state : GlobalState) (cmd : NormalizedCommand) :
    result (GlobalState * AppliedCommand * AnalysisResult) :=
  let? analysis := analyze analyzers cmd ∅ in
  let state' := mkGlobal (u64_saturating_succ (global_applied_seq state)) in
  Ret (state', mkApplied (global_applied_seq state') cmd analysis, analysis).
End Reduce.

Definition reduce_checkpoint (state : FamilyState) : FamilyState := advance_seq state.

End Reducer.

(** ** Reference and lemmas *)

Module ReducerFacts.
Import Domain Reducer.
Import Analyzers(is_zero_oid, analyze, AnalyzerRegistry).

(** An oid that a ref can hold. *)
Definition live_oid (oid : str) : Prop := trim oid ≠ [] ∧ is_zero_oid oid = false.

(** What a list of changes leaves of a ref: the last change of it decides. *)
Definition last_value (changes : list RefChange) (r : str) (before : option str) : option str :=
  match List.find (λ c, str_eqb (reference c) r) (rev changes) with
  | Some c => if bool_decide (trim (new c) = []) || is_zero_oid (new c) then None else Some (new c)
  | None => before
  end.

(** A worktree is detached when it has a head and no branch. *)
Definition worktree_ok (w : WorktreeState) : Prop := detached w = true ↔ is_Some (head w) ∧ branch w = None.

Definition family_ok (state : FamilyState) : Prop :=
  map_Forall (λ _ oid, live_oid oid) (refs state) ∧ map_Forall (λ _ w, worktree_ok w) (worktrees state) ∧
  (applied_seq state <= u64_max)%N.

Lemma apply_ref_changes_lookup changes m r :
  foldl apply_ref_change m changes !! r = last_value changes r (m !! r).
Proof.
  unfold last_value. induction changes as [|c changes IH] using rev_ind; [done|].
  rewrite foldl_app, rev_app_distr. cbn [foldl rev app List.find]. unfold apply_ref_change.
  destruct (str_eqb (reference c) r) eqn:E.
  - apply str_eqb_eq in E as <-. destruct (_ || _); [by rewrite lookup_delete_eq|by rewrite lookup_insert_eq].
  - assert (reference c ≠ r) as Hne by by apply bool_decide_eq_false in E.
    destruct (_ || _); [by rewrite lookup_delete_ne|by rewrite lookup_insert_ne].
Qed.

Lemma last_value_live changes r before oid :
  last_value changes r before = Some oid → (before = Some oid → live_oid oid) → live_oid oid.
Proof.
  unfold last_value. destruct (List.find _ _); [|naive_solver]. destruct (_ || _) eqn:E; [done|]. intros [= <-] _.
  apply orb_false_iff in E as [E%bool_decide_eq_false E']. done.
Qed.

Lemma next_worktree_ok previous cmd :
  (∀ w, previous = Some w → worktree_ok w) → worktree_ok (next_worktree previous cmd).
Proof.
  intros Hp. unfold next_worktree, worktree_ok. destruct (List.find _ _) as [hc|].
  - cbn. destruct (unique_branch_for_head_change cmd hc); naive_solver.
  - destruct (checkout_or_switch_branch_target cmd); cbn; [naive_solver|].
    destruct previous as [w|]; cbn; [by apply Hp|]. split; [done|]. intros [[? ?] _]. done.
Qed.

Lemma u64_succ_bound n : (u64_saturating_succ n <= u64_max)%N.
Proof. unfold u64_saturating_succ. lia. Qed.

Lemma reduce_ok canonicalize analyzers state cmd start state' applied analysis :
  reduce_family_command_with_ref_snapshot canonicalize analyzers state cmd start = Ret (state', applied, analysis) →
  family_ok state → family_ok state'.
Proof.
  unfold reduce_family_command_with_ref_snapshot. destruct (analyze _ _ _); cbn; [|done..].
  intros [= <- _ _] (Hr & Hw & Hs). unfold apply_worktree_state. split_and!.
  - assert (map_Forall (λ _ oid, live_oid oid) (foldl apply_ref_change (refs state) (ref_changes cmd))) as H.
    { intros r oid E. rewrite apply_ref_changes_lookup in E. eapply last_value_live; [exact E|]. apply Hr. }
    by destruct (worktree cmd).
  - destruct (worktree cmd) as [w|]; [|done]. cbn. apply map_Forall_insert_2; [|done].
    apply next_worktree_ok. intros w'. apply Hw.
  - destruct (worktree cmd); apply u64_succ_bound.
Qed.

Lemma checkpoint_ok state : family_ok state → family_ok (reduce_checkpoint state).
Proof. intros (? & ? & ?). split_and!; [done..|apply u64_succ_bound]. Qed.

End ReducerFacts.

(** ** Properties *)

Module ReducerProps.
Import Domain Reducer ReducerFacts.
Import Analyzers(is_zero_oid, analyze, AnalyzerRegistry).

(** what a command does to the state of its family.  When the analysis of the
    command succeeds, each ref has the value of the last change of it, none when
    that deletes it, and the old value when there is no change; the worktree of the
    command takes the last new HEAD, the others stay as they are; the sequence
    number is one more, up to the largest [u64], and the applied command carries
    it.  The refs stay live commits and the worktrees well formed. *)
Theorem command_effect (canonicalize : PathBuf → option PathBuf) (analyzers : AnalyzerRegistry) (state : FamilyState)
    (cmd : NormalizedCommand) (start : gmap str str) (state' : FamilyState) (applied : AppliedCommand) (result : AnalysisResult)
    (reduced : reduce_family_command_with_ref_snapshot canonicalize analyzers state cmd start = Ret (state', applied, result)) :
  (∀ r, refs state' !! r = last_value (ref_changes cmd) r (refs state !! r)) ∧
  (∀ path, worktrees state' !! path =
     if bool_decide (canonicalize_path canonicalize <$> worktree cmd = Some path)
     then Some (next_worktree (worktrees state !! path) cmd) else worktrees state !! path) ∧
  applied = mkApplied (N.min (applied_seq state + 1) u64_max) cmd result ∧ applied_seq state' = seq applied ∧
  watermarks state' = watermarks state ∧
  (family_ok state → family_ok state').
Proof.
  pose proof (reduce_ok _ _ _ _ _ _ _ _ reduced) as Hok. revert reduced.
  unfold reduce_family_command_with_ref_snapshot. destruct (analyze _ _ _); cbn; [|done..]. intros [= <- <- <-].
  unfold apply_worktree_state in *. split_and!; [| | | | |done].
  - intros r. rewrite <-apply_ref_changes_lookup. by destruct (worktree cmd).
  - intros path. destruct (worktree cmd) as [w|]; [|done]. cbn. destruct (decide (canonicalize_path canonicalize w = path)) as [->|Hne].
    + by rewrite lookup_insert_eq, bool_decide_true.
    + rewrite lookup_insert_ne, bool_decide_false by congruence. done.
  - by destruct (worktree cmd).
  - by destruct (worktree cmd).
  - by destruct (worktree cmd).
Qed.

(** *** Witnesses *)

Definition sample_family : FamilyState := mkFamily (lit "repo") ∅ ∅ None 0 (mkWatermarks ∅ ∅).

Lemma command_effect_witness :
  ∃ state' applied result,
    reduce_family_command_with_ref_snapshot (λ _, None) Analyzers.new_registry sample_family AnalyzersProps.sample_reset ∅ =
      Ret (state', applied, result) ∧
    refs state' !! lit "HEAD" = Some (AnalyzersProps.sample_sha "c") ∧ applied_seq state' = 1%N.
Proof.
  destruct (reduce_family_command_with_ref_snapshot (λ _, None) Analyzers.new_registry sample_family AnalyzersProps.sample_reset ∅)
    as [[[state' applied] result]|e|] eqn:E; [|by vm_compute in E..].
  destruct (command_effect _ _ _ _ _ _ _ _ E) as (Hr & _ & Ha & Hs & _). exists state', applied, result.
  split; [done|]. split; [by rewrite Hr|]. by rewrite Hs, Ha.
Defined.

End ReducerProps.
