(* ===== verification/FamilyActor.v ===== *)
(** * Family actor

    src/src/daemon/family_actor.rs: the task that owns the state of a family.  It
    takes the messages of its channel one at a time, so that the commands of a
    family are applied in the order in which they are sent.  [RefCursor] is what
    it needs of the cursor over the reflogs (ref_cursor.rs). *)

From S2P Require Import Prelude Text DiffCompute HashIter Domain Analyzers Reducer.

(** ** Definitions *)

(** The cursor that finds the ref changes of a command. *)
Class RefCursor := {
  cursor : Type;
  new_cursor : str → cursor;
  enrich_command : cursor → Domain.NormalizedCommand → Domain.FamilyState →
    cursor * DiffCompute.result (Domain.NormalizedCommand * gmap str str)
}.

Module FamilyActor.
Import Domain Reducer HashIter.
Import DiffCompute(result).

(** *** Watermarks *)

(** [entry(k).or_insert(0)], raised to [v]. *)
Definition raise_mark (m : gmap str N) (k : str) (v : N) : gmap str N := <[k := N.max v (default 0%N (m !! k))]> m.

Definition update_worktree (w : WatermarkState) (mark : str * N) : WatermarkState :=
  let '(worktree, ts) := mark in
  if (default 0 (per_worktree w !! worktree) <? ts)%N then
    mkWatermarks (filter (λ kv : str * N, (ts < kv.2)%N) (per_file w)) (<[worktree := ts]> (per_worktree w))
  else mkWatermarks (per_file w) (raise_mark (per_worktree w) worktree 0).

Definition update_watermarks `{HashOrder} (w update : WatermarkState) : WatermarkState :=
  let files := foldl (λ m kv, raise_mark m kv.1 kv.2) (per_file w) (hash_iter (per_file update)) in
  foldl update_worktree (mkWatermarks files (per_worktree w)) (hash_iter (per_worktree update)).

Definition with_watermarks (state : FamilyState) (w : WatermarkState) : FamilyState :=
  mkFamily (state_family_key state) (refs state) (worktrees state) (last_error state) (applied_seq state) w.

(** *** Messages *)

(** The sender of a reply is a number that the client knows. *)
Inductive FamilyMsg :=
  | Apply (cmd : NormalizedCommand) (respond_to : nat)
  | ApplyCheckpoint (respond_to : nat)
  | Status (respond_to : nat)
  | GetWatermarks (respond_to : nat)
  | UpdateWatermarks (update : WatermarkState)
  | Shutdown.

Inductive Reply :=
  | AppliedReply (r : result AppliedCommand)
  | CheckpointReply (ack : ApplyAck)
  | StatusReply (s : FamilyStatus)
  | WatermarksReply (w : WatermarkState).

Inductive TaskStatus := Running | Stopped | Panicked.

Record Actor `{RefCursor} := mkActor {
  state : FamilyState;
  ref_cursor : cursor;
  mailbox : list FamilyMsg;
  replies : list (nat * Reply);
  task : TaskStatus
}.

Definition CHANNEL_CAPACITY : nat := 1024.

Section Actor.
Context `{order : HashOrder} `{refcursor : RefCursor}.
Variable canonicalize : PathBuf → option PathBuf.

Definition initial_state (family_key : FamilyKey) : FamilyState := mkFamily family_key ∅ ∅ None 0 (mkWatermarks ∅ ∅).

Definition spawn_family_actor (family_key : FamilyKey) : Actor :=
  mkActor _ (initial_state family_key) (new_cursor family_key) [] [] Running.

Definition answer (a : Actor) (s : FamilyState) (respond_to : nat) (reply : Reply) : Actor :=
  mkActor _ s (ref_cursor a) (mailbox a) (replies a ++ [(respond_to, reply)]) (task a).

Definition stop (a : Actor) (t : TaskStatus) : Actor := mkActor _ (state a) (ref_cursor a) (mailbox a) (replies a) t.

Definition with_cursor (a : Actor) (c : cursor) : Actor := mkActor _ (state a) c (mailbox a) (replies a) (task a).

(** The ref changes of the command, then its reduction. *)
Definition apply_command (s : FamilyState) (c : cursor) (cmd : NormalizedCommand) : cursor * result (FamilyState * AppliedCommand) :=
  let '(c', enriched) := enrich_command c cmd s in
  (c', let? (cmd', command_start_refs) := enriched in
       let? (s', applied, _) :=
         reduce_family_command_with_ref_snapshot canonicalize Analyzers.new_registry s cmd' command_start_refs in
       Ret (s', applied)).

(** One turn of the loop, on a message that was taken off the channel. *)
Definition handle_message (a : Actor) (msg : FamilyMsg) : Actor :=
  match msg with
  | Apply cmd respond_to =>
      let '(c', r) := apply_command (state a) (ref_cursor a) cmd in
      let a' := with_cursor a c' in
      match r with
      | Ret (s', applied) => answer a' s' respond_to (AppliedReply (Ret applied))
      | Fail e => answer a' (state a) respond_to (AppliedReply (Fail e))
      | Panic => stop a' Panicked
      end
  | ApplyCheckpoint respond_to =>
      let s' := reduce_checkpoint (state a) in
      answer a s' respond_to (CheckpointReply (mkAck (applied_seq s') true))
  | Status respond_to =>
      answer a (state a) respond_to (StatusReply (mkStatus (state_family_key (state a)) (applied_seq (state a)) (last_error (state a))))
  | GetWatermarks respond_to => answer a (state a) respond_to (WatermarksReply (watermarks (state a)))
  | UpdateWatermarks update =>
      let s := state a in
      mkActor _ (with_watermarks s (update_watermarks (watermarks s) update)) (ref_cursor a) (mailbox a) (replies a) (task a)
  | Shutdown => stop a Stopped
  end.

(** [rx.recv()], then the handling. *)
Definition take_message (a : Actor) (rest : list FamilyMsg) : Actor := mkActor _ (state a) (ref_cursor a) rest (replies a) (task a).

Definition receive (a : Actor) : option Actor :=
  match task a, mailbox a with
  | Running, msg :: rest => Some (handle_message (take_message a rest) msg)
  | _, _ => None
  end.

(** [tx.send]: it waits while the channel is full, and fails when the task is gone. *)
Definition send (a : Actor) (msg : FamilyMsg) : option Actor :=
  match task a with
  | Running =>
      if (length (mailbox a) <? CHANNEL_CAPACITY)%nat then
        Some (mkActor _ (state a) (ref_cursor a) (mailbox a ++ [msg]) (replies a) (task a))
      else None
  | _ => None
  end.

(** The task and its clients. *)
Inductive actor_step : Actor → Actor → Prop :=
  | step_send a msg a' : send a msg = Some a' → actor_step a a'
  | step_receive a a' : receive a = Some a' → actor_step a a'.
End Actor.

End FamilyActor.

(** ** Reference and lemmas *)

Module FamilyActorFacts.
Import Domain Reducer ReducerFacts HashIter HashIterFacts FamilyActor.

(** *** Watermarks *)

(** A mark after two sources. *)
Definition mark_max (a b : option N) : option N := union_with (λ x y, Some (N.max x y)) a b.

Lemma raise_marks_lookup (l : list (str * N)) m k :
  NoDup l.*1 →
  foldl (λ m kv, raise_mark m kv.1 kv.2) m l !! k = mark_max (m !! k) (snd <$> List.find (λ kv, str_eqb kv.1 k) l).
Proof.
  revert m. induction l as [|[k' v] l IH]; intros m Hd; cbn [foldl List.find fst snd fmap list_fmap].
  { by destruct (m !! k). }
  apply NoDup_cons in Hd as [Hk Hd]. rewrite IH by done. unfold raise_mark. destruct (str_eqb k' k) eqn:E.
  - apply str_eqb_eq in E as ->. rewrite lookup_insert_eq.
    assert (List.find (λ kv : str * N, str_eqb kv.1 k) l = None) as ->.
    { destruct (List.find _ l) as [kv|] eqn:Ef; [|done]. apply List.find_some in Ef as [Hin%list_elem_of_In E%str_eqb_eq].
      exfalso. apply Hk. cbn. rewrite <-E. by apply list_elem_of_fmap_2. }
    cbn. destruct (m !! k); cbn; [by rewrite N.max_comm|]. by rewrite N.max_0_r.
  - rewrite lookup_insert_ne; [done|]. by intros ->; rewrite str_eqb_refl in E.
Qed.

Lemma find_hash_iter `{HashOrder} {A} (m : gmap str A) k :
  snd <$> List.find (λ kv, str_eqb kv.1 k) (hash_iter m) = m !! k.
Proof.
  destruct (List.find _ (hash_iter m)) as [[k' x]|] eqn:E.
  - apply List.find_some in E as [Hin%list_elem_of_In E%str_eqb_eq]. cbn in E. subst k'. cbn. symmetry. by apply elem_of_hash_iter.
  - cbn. destruct (m !! k) as [x|] eqn:El; [|done]. apply elem_of_hash_iter in El. apply list_elem_of_In in El.
    eapply List.find_none in E; [|exact El]. cbn in E. by rewrite str_eqb_refl in E.
Qed.

(** The marks of worktrees that the update raises. *)
Definition raised (marks : gmap str N) (worktree : str) (ts : N) : bool := (default 0 (marks !! worktree) <? ts)%N.

Lemma update_worktrees_spec (l : list (str * N)) w :
  NoDup l.*1 →
  let w' := foldl update_worktree w l in
  (∀ k, per_worktree w' !! k = mark_max (per_worktree w !! k) (snd <$> List.find (λ kv, str_eqb kv.1 k) l)) ∧
  (∀ p v, per_file w' !! p = Some v ↔
     per_file w !! p = Some v ∧ ∀ wt ts, (wt, ts) ∈ l → raised (per_worktree w) wt ts = true → (ts < v)%N).
Proof.
  cbv zeta. revert w. induction l as [|[wt ts] l IH]; intros w Hd; cbn [foldl List.find fst snd].
  { split; [intros k; by destruct (per_worktree w !! k)|]. intros p v. split; [|naive_solver]. intros Hv. split; [done|].
    by intros ? ? ?%not_elem_of_nil. }
  apply NoDup_cons in Hd as [Hk Hd]. destruct (IH (update_worktree w (wt, ts)) Hd) as [IHw IHf]. cbn [fst] in Hk.
  assert (List.find (λ kv : str * N, str_eqb kv.1 wt) l = None) as Hnone.
  { destruct (List.find _ l) as [kv|] eqn:Ef; [|done]. apply List.find_some in Ef as [Hin%list_elem_of_In E%str_eqb_eq].
    exfalso. apply Hk. rewrite <-E. by apply list_elem_of_fmap_2. }
  assert (∀ k, per_worktree (update_worktree w (wt, ts)) !! k =
    if str_eqb wt k then Some (N.max ts (default 0%N (per_worktree w !! k))) else per_worktree w !! k) as Hu.
  { intros k. cbn [update_worktree]. unfold raise_mark. destruct (str_eqb wt k) eqn:E.
    - apply str_eqb_eq in E as <-. destruct (N.ltb_spec (default 0%N (per_worktree w !! wt)) ts); cbn [per_worktree];
        rewrite lookup_insert_eq; f_equal; lia.
    - assert (wt ≠ k) by (by intros ->; rewrite str_eqb_refl in E).
      destruct (_ <? _)%N; cbn [per_worktree]; by rewrite lookup_insert_ne. }
  split.
  - intros k. rewrite IHw, Hu. destruct (str_eqb wt k) eqn:E; [|done]. apply str_eqb_eq in E as <-. rewrite Hnone. cbn.
    destruct (per_worktree w !! wt); cbn; [by rewrite N.max_comm|]. by rewrite N.max_0_r.
  - intros p v. rewrite IHf. setoid_rewrite elem_of_cons.
    assert (∀ wt' ts', (wt', ts') ∈ l → raised (per_worktree (update_worktree w (wt, ts))) wt' ts' = raised (per_worktree w) wt' ts') as Hr.
    { intros wt' ts' Hin. unfold raised. rewrite Hu. destruct (str_eqb wt wt') eqn:E; [|done]. exfalso.
      apply str_eqb_eq in E as ->. apply Hk. apply (list_elem_of_fmap_2 fst) in Hin. done. }
    assert (per_file (update_worktree w (wt, ts)) !! p = Some v ↔
      per_file w !! p = Some v ∧ (raised (per_worktree w) wt ts = true → (ts < v)%N)) as ->.
    { cbn [update_worktree]. unfold raised. destruct (default 0 (per_worktree w !! wt) <? ts)%N; cbn [per_file].
      - rewrite map_lookup_filter_Some. naive_solver.
      - naive_solver. }
    split.
    + intros [[Hv H0] H1]. split; [done|]. intros wt' ts' [[= -> ->]|Hin]; [done|]. intros Hrs. eapply H1; [exact Hin|]. by rewrite Hr.
    + intros [Hv H1]. split; [split; [done|]; eauto|]. intros wt' ts' Hin Hrs. rewrite Hr in Hrs by done. eauto.
Qed.

(** *** Runs *)

(** Who waits for a reply. *)
Definition respond_to (msg : FamilyMsg) : option nat :=
  match msg with
  | Apply _ r | ApplyCheckpoint r | Status r | GetWatermarks r => Some r
  | UpdateWatermarks _ | Shutdown => None
  end.

(** The sequence number a reply reports for a change of the state. *)
Definition reported (reply : nat * Reply) : option N :=
  match reply.2 with
  | AppliedReply (Ret applied) => Some (seq applied)
  | CheckpointReply ack => Some (ack_seq ack)
  | _ => None
  end.

Section Runs.
Context `{order : HashOrder} `{refcursor : RefCursor}.
Variable canonicalize : PathBuf → option PathBuf.
Variable family_key : FamilyKey.

Local Abbreviation handle := (handle_message canonicalize).

(** A run of the actor: the messages sent so far, and where it is. *)
Inductive actor_run : list FamilyMsg → Actor → Prop :=
  | run_spawn : actor_run [] (spawn_family_actor family_key)
  | run_send sent a msg a' : actor_run sent a → send a msg = Some a' → actor_run (sent ++ [msg]) a'
  | run_receive sent a a' : actor_run sent a → receive canonicalize a = Some a' → actor_run sent a'.

(** The reference: the messages one after the other, without a channel. *)
Definition replay (msgs : list FamilyMsg) : Actor := foldl handle (spawn_family_actor family_key) msgs.

Definition with_mailbox (a : Actor) (msgs : list FamilyMsg) : Actor := take_message a msgs.

Lemma handle_mailbox a msg msgs : handle (with_mailbox a msgs) msg = with_mailbox (handle a msg) msgs.
Proof.
  destruct msg; try done. cbn [handle_message with_mailbox take_message state ref_cursor].
  destruct (apply_command canonicalize (state a) (ref_cursor a) cmd) as [c' [[s' ap]|e|]]; done.
Qed.

Lemma handle_keeps_mailbox a msg : mailbox (handle a msg) = mailbox a.
Proof.
  destruct msg; try done. cbn [handle_message].
  by destruct (apply_command canonicalize (state a) (ref_cursor a) cmd) as [c' [[s' ap]|e|]].
Qed.

Lemma replay_snoc msgs msg : replay (msgs ++ [msg]) = handle (replay msgs) msg.
Proof. unfold replay. by rewrite foldl_app. Qed.

Lemma replay_mailbox msgs : mailbox (replay msgs) = [].
Proof. induction msgs as [|m msgs IH] using rev_ind; [done|]. by rewrite replay_snoc, handle_keeps_mailbox. Qed.

(** The channel only delays: the actor is where the reference is after the
    messages it took. *)
Lemma run_replay sent a :
  actor_run sent a →
  ∃ handled, sent = handled ++ mailbox a ∧ a = with_mailbox (replay handled) (mailbox a) ∧ (length (mailbox a) ≤ CHANNEL_CAPACITY)%nat.
Proof.
  induction 1 as [|sent a msg a' _ (handled & -> & Ea & Hl) Hs|sent a a' _ (handled & -> & Ea & Hl) Hr].
  - exists []. split; [done|]. split; [done|]. cbn. unfold CHANNEL_CAPACITY. lia.
  - unfold send in Hs. destruct (task a) eqn:Et; [|done..]. destruct (Nat.ltb_spec (length (mailbox a)) CHANNEL_CAPACITY); [|done].
    injection Hs as <-. rewrite <-Et. exists handled. rewrite <-app_assoc. split; [done|]. split; [by rewrite Ea|].
    cbn. rewrite length_app. cbn. lia.
  - unfold receive in Hr. destruct (task a); [|done..]. destruct (mailbox a) as [|msg rest] eqn:Em; [done|]. injection Hr as <-.
    exists (handled ++ [msg]). change (take_message a rest) with (with_mailbox a rest). rewrite handle_mailbox.
    change (mailbox (with_mailbox (handle a msg) rest)) with rest. split; [by rewrite <-app_assoc|]. split; [|cbn in Hl; lia].
    rewrite replay_snoc, Ea, handle_mailbox. done.
Qed.

(** *** What the reference keeps *)

Lemma apply_command_ok s c cmd c' s' ap :
  apply_command canonicalize s c cmd = (c', Ret (s', ap)) →
  (family_ok s → family_ok s') ∧ state_family_key s' = state_family_key s ∧
  applied_seq s' = u64_saturating_succ (applied_seq s) ∧ seq ap = applied_seq s'.
Proof.
  unfold apply_command. destruct (enrich_command c cmd s) as [c'' [[cmd' start]|e|]]; cbn; [|intros [=]..].
  destruct (reduce_family_command_with_ref_snapshot _ _ s cmd' start) as [[[s'' ap'] an]|e|] eqn:E; cbn; [|intros [=]..].
  intros [= -> -> ->]. split; [by eapply reduce_ok|]. unfold reduce_family_command_with_ref_snapshot in E.
  destruct (Analyzers.analyze _ _ _); cbn in E; [|done..]. injection E as <- <- _.
  unfold apply_worktree_state. by destruct (worktree cmd').
Qed.

Lemma family_ok_watermarks s w : family_ok s → family_ok (with_watermarks s w).
Proof. done. Qed.

Definition numbered (a : Actor) : Prop :=
  applied_seq (state a) = N.min (N.of_nat (length (omap reported (replies a)))) u64_max ∧
  ∀ i n, omap reported (replies a) !! i = Some n → n = N.min (N.of_nat i + 1) u64_max.

Lemma numbered_snoc a s t r n c mb :
  numbered a → reported (t, r) = Some n → n = applied_seq s → applied_seq s = u64_saturating_succ (applied_seq (state a)) →
  numbered (mkActor _ s c mb (replies a ++ [(t, r)]) (task a)).
Proof.
  intros [Hs Hi] Hr -> Ha. unfold numbered. cbn [state replies]. rewrite omap_app. cbn [omap list_omap]. rewrite Hr, length_app.
  rewrite Ha, Hs. unfold u64_saturating_succ in *. cbn [length]. split; [lia|]. intros i n.
  rewrite lookup_app_Some. intros [Hn|[Hl Hn]]; [by apply Hi|].
  destruct (i - length (omap reported (replies a)))%nat eqn:E; [|done]. cbn in Hn. injection Hn as <-.
  assert (i = length (omap reported (replies a))) as -> by lia. lia.
Qed.

Lemma numbered_same a a' :
  numbered a → omap reported (replies a') = omap reported (replies a) → applied_seq (state a') = applied_seq (state a) → numbered a'.
Proof. unfold numbered. by intros H -> ->. Qed.

Lemma reported_skip l t r : reported (t, r) = None → omap reported (l ++ [(t, r)]) = omap reported l.
Proof. intros H. rewrite omap_app. cbn [omap list_omap]. by rewrite H, app_nil_r. Qed.

Lemma handle_ok a msg :
  family_ok (state a) → numbered a →
  family_ok (state (handle a msg)) ∧ state_family_key (state (handle a msg)) = state_family_key (state a) ∧ numbered (handle a msg).
Proof.
  intros Hok Hn. destruct msg; cbn [handle_message].
  - destruct (apply_command canonicalize (state a) (ref_cursor a) cmd) as [c' [[s' ap]|e|]] eqn:E.
    + apply apply_command_ok in E as (Hs & Hk & Hq & Ha). split; [by apply Hs|]. split; [done|].
      by apply (numbered_snoc a s' respond_to0 _ (seq ap)).
    + split; [done|]. split; [done|]. eapply numbered_same; [exact Hn| |done]. by apply reported_skip.
    + done.
  - split; [by apply checkpoint_ok|]. split; [done|]. by eapply (numbered_snoc a).
  - split; [done|]. split; [done|]. eapply numbered_same; [exact Hn| |done]. by apply reported_skip.
  - split; [done|]. split; [done|]. eapply numbered_same; [exact Hn| |done]. by apply reported_skip.
  - done.
  - done.
Qed.

Lemma replay_ok msgs :
  family_ok (state (replay msgs)) ∧ state_family_key (state (replay msgs)) = family_key ∧ numbered (replay msgs).
Proof.
  induction msgs as [|msg msgs (Hok & Hk & Hn)] using rev_ind.
  { split_and!; [split_and!; [apply map_Forall_empty..|cbn; unfold u64_max; lia]|done|].
    split; [done|]. cbn. intros i n. by rewrite lookup_nil. }
  rewrite replay_snoc. apply (handle_ok _ msg) in Hok as (H1 & H2 & H3); [|done]. by rewrite H2.
Qed.

(** *** Every request is answered *)

(** A message on which the task neither stops nor panics. *)
Definition calm (msg : FamilyMsg) : Prop :=
  match msg with
  | Apply cmd _ => ∀ s c, (apply_command canonicalize s c cmd).2 ≠ Panic
  | Shutdown => False
  | _ => True
  end.

Lemma handle_calm a msg :
  calm msg → task (handle a msg) = task a ∧ map fst (replies (handle a msg)) = map fst (replies a) ++ option_list (respond_to msg).
Proof.
  intros Hc. destruct msg; cbn [handle_message respond_to option_list]; try (by rewrite app_nil_r);
    try (split; [done|]; cbn [answer replies]; by rewrite map_app).
  cbn in Hc. specialize (Hc (state a) (ref_cursor a)).
  destruct (apply_command canonicalize (state a) (ref_cursor a) cmd) as [c' [[s' ap]|e|]]; [..|done];
    (split; [done|]; cbn [answer replies with_cursor]; by rewrite map_app).
Qed.

Lemma replay_calm msgs : Forall calm msgs → task (replay msgs) = Running ∧ map fst (replies (replay msgs)) = omap respond_to msgs.
Proof.
  induction msgs as [|msg msgs IH] using rev_ind; [done|]. intros [Hc Hm%Forall_inv]%Forall_app.
  destruct (IH Hc) as [Ht Hr]. rewrite replay_snoc. destruct (handle_calm (replay msgs) msg Hm) as [-> ->].
  split; [done|]. rewrite Hr, omap_app. cbn. by destruct (respond_to msg).
Qed.

Inductive receives : nat → Actor → Actor → Prop :=
  | receives_done a : receives 0 a a
  | receives_more n a b c : receive canonicalize a = Some b → receives n b c → receives (S n) a c.

Lemma drains msgs : ∀ handled, Forall calm (handled ++ msgs) →
  receives (length msgs) (with_mailbox (replay handled) msgs) (replay (handled ++ msgs)).
Proof.
  induction msgs as [|msg msgs IH]; intros handled Hc.
  - rewrite app_nil_r. cbn. assert (with_mailbox (replay handled) [] = replay handled) as ->; [|constructor].
    unfold with_mailbox, take_message. rewrite <-(replay_mailbox handled) at 1. by destruct (replay handled).
  - cbn. econstructor.
    + unfold receive. cbn [with_mailbox take_message task mailbox].
      destruct (replay_calm handled) as [-> _]; [by apply Forall_app in Hc as [? _]|].
      change (take_message (with_mailbox (replay handled) (msg :: msgs)) msgs) with (with_mailbox (replay handled) msgs).
      by rewrite handle_mailbox, <-replay_snoc.
    + specialize (IH (handled ++ [msg])). rewrite <-app_assoc in IH. by apply IH.
Qed.
End Runs.

End FamilyActorFacts.

(** ** Properties *)

Module FamilyActorProps.
Import Domain Reducer ReducerFacts HashIter HashIterFacts FamilyActor FamilyActorFacts.

(** C18: the actor and its messages.  However sends and turns of the loop
    interleave, the messages are taken in the order in which they were sent, and
    the actor is where handling those taken one by one from the initial state
    leads; the channel never holds more than its capacity, the state stays well
    formed and of its family, and the changes it reports are numbered from 1 on
    without gaps, up to the largest [u64]. *)
Theorem actor_follows_messages `{order : HashOrder} `{refcursor : RefCursor} (canonicalize : PathBuf → option PathBuf)
    (family_key : FamilyKey) (sent : list FamilyMsg) (a : Actor) (run : actor_run canonicalize family_key sent a) :
  (∃ handled, sent = handled ++ mailbox a ∧ a = take_message (replay canonicalize family_key handled) (mailbox a)) ∧
  (length (mailbox a) ≤ CHANNEL_CAPACITY)%nat ∧ family_ok (state a) ∧ state_family_key (state a) = family_key ∧
  applied_seq (state a) = N.min (N.of_nat (length (omap reported (replies a)))) u64_max ∧
  ∀ i n, omap reported (replies a) !! i = Some n → n = N.min (N.of_nat i + 1) u64_max.
Proof.
  destruct (run_replay canonicalize family_key sent a run) as (handled & Hs & Ha & Hl).
  destruct (replay_ok canonicalize family_key handled) as (Hok & Hk & Hn1 & Hn2).
  split; [by exists handled|]. split; [done|]. rewrite Ha. by split_and!.
Qed.

(** Every request is answered when the cursor neither panics nor changes the name
    of a command, and the commands are named in lower case: from any state the actor reaches before it is shut down,
    as many turns as there are messages in the channel leave it running with an
    empty channel, and the clients were answered once each, in the order of
    their requests. *)
Lemma calm_requests_are_answered `{order : HashOrder} `{refcursor : RefCursor} (canonicalize : PathBuf → option PathBuf)
    (family_key : FamilyKey) (sent : list FamilyMsg) (a : Actor) (run : actor_run canonicalize family_key sent a)
    (cursor_total : ∀ c cmd s, match (enrich_command c cmd s).2 with
                               | Ret (cmd', _) => primary_command cmd' = primary_command cmd
                               | Fail _ => True
                               | Panic => False
                               end)
    (lower_case : ∀ cmd r name, Apply cmd r ∈ sent → primary_command cmd = Some name → Analyzers.to_ascii_lowercase name = name)
    (not_shut_down : Shutdown ∉ sent) :
  ∃ a', receives canonicalize (length (mailbox a)) a a' ∧ mailbox a' = [] ∧ task a' = Running ∧
    map fst (replies a') = omap respond_to sent.
Proof.
  assert (Forall (calm canonicalize) sent) as Hcalm.
  { apply Forall_forall. intros msg Hin. destruct msg as [cmd r| | | | |]; cbn; try done. intros s c.
    unfold apply_command. specialize (cursor_total c cmd s).
    destruct (enrich_command c cmd s) as [c' [[cmd' start]|e|]]; cbn [snd obind] in *; [|done..].
    unfold reduce_family_command_with_ref_snapshot.
    destruct (Analyzers.analyze Analyzers.new_registry cmd' (refs_for_analysis s start)) as [an|e|] eqn:E; cbn [obind]; [done..|].
    apply AnalyzersFacts.analyze_panic in E as (name & Hname & _ & Hne). exfalso. apply Hne. symmetry.
    eapply lower_case; [exact Hin|congruence]. }
  destruct (run_replay canonicalize family_key sent a run) as (handled & Hs & Ha & _).
  exists (replay canonicalize family_key sent). split.
  - rewrite Hs, Ha at 1. cbn [mailbox with_mailbox take_message]. rewrite Ha at 2. apply drains. by rewrite <-Hs.
  - destruct (replay_calm canonicalize family_key sent Hcalm) as [Ht Hr]. split; [apply replay_mailbox|done].
Qed.

(** what an update of the watermarks leaves, whatever order its maps are
    visited in: the mark of a worktree is the larger of the two; the mark of a
    file is the larger of the two too, and is there exactly when no worktree mark
    that the update raises is as late. *)
Theorem watermarks_rise `{order : HashOrder} (w update : WatermarkState) :
  let w' := update_watermarks w update in
  (∀ wt, per_worktree w' !! wt = mark_max (per_worktree w !! wt) (per_worktree update !! wt)) ∧
  (∀ file v, per_file w' !! file = Some v ↔
     mark_max (per_file w !! file) (per_file update !! file) = Some v ∧
     ∀ wt ts, per_worktree update !! wt = Some ts → raised (per_worktree w) wt ts = true → (ts < v)%N).
Proof.
  cbv zeta. unfold update_watermarks. set (w0 := mkWatermarks _ (per_worktree w)).
  destruct (update_worktrees_spec (hash_iter (per_worktree update)) w0 (hash_iter_NoDup _)) as [Hw Hf]. split.
  - intros wt. by rewrite Hw, find_hash_iter.
  - intros file v. rewrite Hf. cbn [per_file per_worktree w0]. rewrite raise_marks_lookup by apply hash_iter_NoDup.
    rewrite find_hash_iter. setoid_rewrite elem_of_hash_iter. done.
Qed.

(** a mark of a file that comes late.  A worktree mark removes the file marks
    it supersedes only when it rises; the mark of a file that an update without
    worktree marks brings afterwards is kept, however old it is. *)
Theorem late_file_mark_kept `{order : HashOrder} (w : WatermarkState) (worktree file : str) (ts mtime : N)
    (worktree_mark : per_worktree w !! worktree = Some ts) (older : (mtime < ts)%N) (pruned : per_file w !! file = None) :
  let w' := update_watermarks w (mkWatermarks {[file := mtime]} ∅) in
  per_file w' !! file = Some mtime ∧ per_worktree w' !! worktree = Some ts.
Proof.
  cbv zeta. unfold update_watermarks. cbn [per_file per_worktree]. set (w0 := mkWatermarks _ (per_worktree w)).
  destruct (update_worktrees_spec (hash_iter (∅ : gmap str N)) w0 (hash_iter_NoDup _)) as [Hw Hf]. split.
  - apply Hf. cbn [per_file w0]. rewrite raise_marks_lookup by apply hash_iter_NoDup.
    rewrite find_hash_iter, pruned, lookup_singleton_eq. split; [done|]. intros wt t Hin%elem_of_hash_iter.
    by rewrite lookup_empty in Hin.
  - rewrite Hw, find_hash_iter, lookup_empty. cbn [per_worktree w0]. by rewrite worktree_mark.
Qed.

(** *** Witnesses *)

(** A cursor that finds nothing. *)
#[local] Instance idle_cursor : RefCursor := {|
  cursor := unit;
  new_cursor := λ _, tt;
  enrich_command := λ c cmd _, (c, Ret (cmd, ∅))
|}.

Definition sample_messages : list FamilyMsg :=
  [Apply AnalyzersProps.sample_reset 7; ApplyCheckpoint 8; GetWatermarks 9].

Definition waiting_actor (msgs : list FamilyMsg) : Actor := mkActor idle_cursor (initial_state (lit "repo")) tt msgs [] Running.
Definition sample_actor : Actor := waiting_actor sample_messages.

Lemma sample_run : actor_run (order := in_order) (λ _, None) (lit "repo") sample_messages sample_actor.
Proof.
  apply (run_send _ _ [Apply AnalyzersProps.sample_reset 7; ApplyCheckpoint 8]
    (waiting_actor [Apply AnalyzersProps.sample_reset 7; ApplyCheckpoint 8]) (GetWatermarks 9)); [|reflexivity].
  apply (run_send _ _ [Apply AnalyzersProps.sample_reset 7] (waiting_actor [Apply AnalyzersProps.sample_reset 7]) (ApplyCheckpoint 8));
    [|reflexivity].
  apply (run_send _ _ [] (waiting_actor []) (Apply AnalyzersProps.sample_reset 7)); [|reflexivity]. exact (run_spawn (refcursor := idle_cursor) (λ _, None) (lit "repo")).
Qed.

Lemma actor_follows_messages_witness :
  (length (mailbox sample_actor) ≤ CHANNEL_CAPACITY)%nat ∧ family_ok (state sample_actor).
Proof.
  destruct (actor_follows_messages (order := in_order) _ _ _ _ sample_run) as (_ & Hl & Hok & _). by split.
Defined.

Lemma late_file_mark_kept_witness :
  let w := mkWatermarks ∅ {[lit "tree" := 100%N]} in
  per_file (update_watermarks (H := in_order) w (mkWatermarks {[lit "a.rs" := 60%N]} ∅)) !! lit "a.rs" = Some 60%N.
Proof.
  cbv zeta. refine (proj1 (late_file_mark_kept (order := in_order) _ (lit "tree") (lit "a.rs") 100 60 _ _ _)).
  - apply lookup_singleton_eq.
  - done.
  - apply lookup_empty.
Defined.

End FamilyActorProps.
