(* ===== verification/Coordinator.v ===== *)
(** * Coordinator

    src/src/daemon/coordinator.rs and global_actor.rs: commands are routed to the
    actor of their family, which is created on first use, or to the one actor of
    the commands outside any family.  A shutdown takes the actors that are there
    and sends to one after another, to the global actor last. *)

From S2P Require Import Prelude DiffCompute HashIter Domain Analyzers Reducer FamilyActor.

(** ** Definitions *)

Module Coordinator.
Import Domain Reducer FamilyActor.
Import DiffCompute(result).
Import HashIter(HashOrder).

(** *** Global actor *)

Inductive GlobalMsg :=
  | GlobalApply (cmd : NormalizedCommand) (respond_to : nat)
  | GlobalShutdown.

Record GlobalActor := mkGlobalActor {
  global_state : GlobalState;
  global_mailbox : list GlobalMsg;
  global_replies : list (nat * result AppliedCommand);
  global_task : TaskStatus
}.

Definition spawn_global_actor : GlobalActor := mkGlobalActor (mkGlobal 0) [] [] Running.

Definition handle_global_message (a : GlobalActor) (msg : GlobalMsg) : GlobalActor :=
  match msg with
  | GlobalApply cmd respond_to =>
      match reduce_global_command Analyzers.new_registry (global_state a) cmd with
      | Ret (s', applied, _) => mkGlobalActor s' (global_mailbox a) (global_replies a ++ [(respond_to, Ret applied)]) (global_task a)
      | Fail e => mkGlobalActor (global_state a) (global_mailbox a) (global_replies a ++ [(respond_to, Fail e)]) (global_task a)
      | Panic => mkGlobalActor (global_state a) (global_mailbox a) (global_replies a) Panicked
      end
  | GlobalShutdown => mkGlobalActor (global_state a) (global_mailbox a) (global_replies a) Stopped
  end.

Definition receive_global (a : GlobalActor) : option GlobalActor :=
  match global_task a, global_mailbox a with
  | Running, msg :: rest =>
      Some (handle_global_message (mkGlobalActor (global_state a) rest (global_replies a) (global_task a)) msg)
  | _, _ => None
  end.

Definition send_global (a : GlobalActor) (msg : GlobalMsg) : option GlobalActor :=
  match global_task a with
  | Running =>
      if (length (global_mailbox a) <? CHANNEL_CAPACITY)%nat then
        Some (mkGlobalActor (global_state a) (global_mailbox a ++ [msg]) (global_replies a) (global_task a))
      else None
  | _ => None
  end.

(** *** Coordinator *)

(** The actors, and the calls of [shutdown] under way: for each the families whose
    actors it has not told yet. *)
Record Coordinator `{RefCursor} := mkCoordinator {
  global : GlobalActor;
  families : gmap str Actor;
  shutdowns : list (list FamilyKey)
}.

Section Coordinator.
Context `{order : HashOrder} `{refcursor : RefCursor}.
Variable canonicalize : PathBuf → option PathBuf.
(** [GitBackend::resolve_family]. *)
Variable resolve_family : PathBuf → result FamilyKey.

Definition new_coordinator : Coordinator := mkCoordinator _ spawn_global_actor ∅ [].

Definition get_or_create_family_actor (c : Coordinator) (family_key : FamilyKey) : Coordinator * Actor :=
  match families c !! family_key with
  | Some existing => (c, existing)
  | None =>
      let created := spawn_family_actor family_key in
      (mkCoordinator _ (global c) (<[family_key := created]> (families c)) (shutdowns c), created)
  end.

(** A message to the actor of a family; [None] while its channel is full or when
    its task is gone. *)
Definition send_family (c : Coordinator) (family_key : FamilyKey) (msg : FamilyMsg) : option Coordinator :=
  let '(c', actor) := get_or_create_family_actor c family_key in
  (λ actor', mkCoordinator _ (global c') (<[family_key := actor']> (families c')) (shutdowns c')) <$> send actor msg.

Definition send_to_global (c : Coordinator) (msg : GlobalMsg) : option Coordinator :=
  (λ g, mkCoordinator _ g (families c) (shutdowns c)) <$> send_global (global c) msg.

Definition route_command (c : Coordinator) (cmd : NormalizedCommand) (respond_to : nat) : option Coordinator :=
  match scope cmd with
  | Global => send_to_global c (GlobalApply cmd respond_to)
  | Family key => send_family c key (Apply cmd respond_to)
  end.

Definition apply_checkpoint_family (c : Coordinator) (family : FamilyKey) (respond_to : nat) : option Coordinator :=
  send_family c family (ApplyCheckpoint respond_to).

(** The operations on the family of a working directory. *)
Definition on_family (repo_working_dir : PathBuf) (op : FamilyKey → option Coordinator) : result (option Coordinator) :=
  let? family := resolve_family repo_working_dir in Ret (op family).

Definition apply_checkpoint (c : Coordinator) (repo_working_dir : PathBuf) (respond_to : nat) : result (option Coordinator) :=
  on_family repo_working_dir (λ family, apply_checkpoint_family c family respond_to).

Definition watermarks_family (c : Coordinator) (repo_working_dir : PathBuf) (respond_to : nat) : result (option Coordinator) :=
  on_family repo_working_dir (λ family, send_family c family (GetWatermarks respond_to)).

Definition update_watermarks_family (c : Coordinator) (repo_working_dir : PathBuf) (update : WatermarkState) :
    result (option Coordinator) :=
  on_family repo_working_dir (λ family, send_family c family (UpdateWatermarks update)).

Definition status_family (c : Coordinator) (repo_working_dir : PathBuf) (respond_to : nat) : result (option Coordinator) :=
  on_family repo_working_dir (λ family, send_family c family (Status respond_to)).

(** The end of all actors.  The handles are cloned under the lock of the map; the
    actors are then told one after the other, and the global actor last.  A send
    waits while a channel is full, and its failure when a task is gone is passed
    over. *)
Definition shutdown (c : Coordinator) : Coordinator :=
  mkCoordinator _ (global c) (families c) (shutdowns c ++ [HashIter.hash_keys (families c)]).

Definition offer_shutdown (a : Actor) : option Actor :=
  match task a with Running => send a Shutdown | _ => Some a end.

Definition offer_global_shutdown (a : GlobalActor) : option GlobalActor :=
  match global_task a with Running => send_global a GlobalShutdown | _ => Some a end.

(** The next send of a call of [shutdown], the call with its last. *)
Definition shutdown_next (n : nat) (c : Coordinator) : option Coordinator :=
  match shutdowns c !! n with
  | Some (key :: rest) =>
      match families c !! key with
      | Some a => (λ a', mkCoordinator _ (global c) (<[key := a']> (families c)) (<[n := rest]> (shutdowns c))) <$> offer_shutdown a
      | None => Some (mkCoordinator _ (global c) (families c) (<[n := rest]> (shutdowns c)))
      end
  | Some [] => (λ g, mkCoordinator _ g (families c) (delete n (shutdowns c))) <$> offer_global_shutdown (global c)
  | None => None
  end.

(** The steps of the daemon: requests of clients and turns of the tasks. *)
Inductive coordinator_step : Coordinator → Coordinator → Prop :=
  | step_route c cmd r c' : route_command c cmd r = Some c' → coordinator_step c c'
  | step_checkpoint c dir r c' : apply_checkpoint c dir r = Ret (Some c') → coordinator_step c c'
  | step_watermarks c dir r c' : watermarks_family c dir r = Ret (Some c') → coordinator_step c c'
  | step_update c dir u c' : update_watermarks_family c dir u = Ret (Some c') → coordinator_step c c'
  | step_status c dir r c' : status_family c dir r = Ret (Some c') → coordinator_step c c'
  | step_shutdown c : coordinator_step c (shutdown c)
  | step_shutdown_next n c c' : shutdown_next n c = Some c' → coordinator_step c c'
  | step_family c key a a' : families c !! key = Some a → receive canonicalize a = Some a' →
      coordinator_step c (mkCoordinator _ (global c) (<[key := a']> (families c)) (shutdowns c))
  | step_global c g : receive_global (global c) = Some g → coordinator_step c (mkCoordinator _ g (families c) (shutdowns c)).
End Coordinator.

End Coordinator.

(** ** Lemmas *)

Module CoordinatorFacts.
Import Domain Reducer ReducerFacts FamilyActor FamilyActorFacts Coordinator.
Import HashIter(HashOrder).

Section Runs.
Context `{order : HashOrder} `{refcursor : RefCursor}.
Variable canonicalize : PathBuf → option PathBuf.
Variable resolve_family : PathBuf → DiffCompute.result FamilyKey.

(** Every family is on a run of its own. *)
Definition families_run (c : Coordinator) : Prop :=
  map_Forall (λ key a, ∃ sent, actor_run canonicalize key sent a) (families c).

Lemma send_family_run c key msg c' : send_family c key msg = Some c' → families_run c → families_run c'.
Proof.
  unfold send_family, get_or_create_family_actor. intros H Hc. destruct (families c !! key) as [a|] eqn:E.
  - destruct (send a msg) as [a'|] eqn:Es; [|done]. injection H as <-. apply map_Forall_insert_2; [|done].
    destruct (Hc key a E) as [sent Hs]. eexists. by eapply run_send.
  - destruct (send (spawn_family_actor key) msg) as [a'|] eqn:Es; [|done]. injection H as <-. cbn [families].
    rewrite insert_insert_eq. apply map_Forall_insert_2; [|done]. eexists. eapply run_send; [|exact Es]. apply run_spawn.
Qed.

Lemma on_family_run c dir op c' :
  on_family resolve_family dir op = Ret (Some c') → (∀ family c'', op family = Some c'' → families_run c → families_run c'') →
  families_run c → families_run c'.
Proof. unfold on_family. destruct (resolve_family dir) as [family| |]; cbn; [|done..]. intros [= H]. eauto. Qed.

Lemma offer_shutdown_run key a a' :
  offer_shutdown a = Some a' → (∃ sent, actor_run canonicalize key sent a) → ∃ sent, actor_run canonicalize key sent a'.
Proof.
  unfold offer_shutdown. intros H [sent Hs]. destruct (task a); [|injection H as <-; eauto..]. eexists. by eapply run_send.
Qed.

Lemma step_run c c' : coordinator_step canonicalize resolve_family c c' → families_run c → families_run c'.
Proof.
  destruct 1 as [c cmd r c' H|c dir r c' H|c dir r c' H|c dir u c' H|c dir r c' H|c|n c c' H|c key a a' Ha Hr|c g Hg].
  - unfold route_command in H. destruct (scope cmd); [by eapply send_family_run|].
    unfold send_to_global in H. destruct (send_global _ _); [|done]. by injection H as <-.
  - intros Hc. eapply (on_family_run c); [exact H| |done]. intros family c''. apply send_family_run.
  - intros Hc. eapply (on_family_run c); [exact H| |done]. intros family c''. apply send_family_run.
  - intros Hc. eapply (on_family_run c); [exact H| |done]. intros family c''. apply send_family_run.
  - intros Hc. eapply (on_family_run c); [exact H| |done]. intros family c''. apply send_family_run.
  - done.
  - intros Hc. unfold shutdown_next in H. destruct (shutdowns c !! n) as [[|key rest]|]; [|..|done].
    + destruct (offer_global_shutdown _); [|done]. by injection H as <-.
    + destruct (families c !! key) as [a|] eqn:Ea; [|by injection H as <-]. destruct (offer_shutdown a) as [a'|] eqn:Eo; [|done].
      injection H as <-. apply map_Forall_insert_2; [|done]. eapply offer_shutdown_run; [exact Eo|by apply Hc].
  - intros Hc. apply map_Forall_insert_2; [|done]. destruct (Hc key a Ha) as [sent Hs]. eexists. by eapply run_receive.
  - done.
Qed.

End Runs.

End CoordinatorFacts.

(** ** Properties *)

Module CoordinatorProps.
Import Domain Reducer ReducerFacts FamilyActor FamilyActorFacts Coordinator CoordinatorFacts.
Import HashIter(HashOrder).

(** C25: families do not interfere.  In every state the daemon reaches, each
    actor is one that its own messages alone lead to: it is on a run of the actor
    of its family, so its state is well formed, belongs to the family it is filed
    under, and its channel is within its capacity.  A command of one family
    changes no other family. *)
Theorem families_do_not_interfere `{order : HashOrder} `{refcursor : RefCursor} (canonicalize : PathBuf → option PathBuf)
    (resolve_family : PathBuf → DiffCompute.result FamilyKey) (c : Coordinator)
    (reached : rtc (coordinator_step canonicalize resolve_family) new_coordinator c) :
  (∀ key a, families c !! key = Some a →
     (∃ sent, actor_run canonicalize key sent a) ∧ family_ok (state a) ∧ state_family_key (state a) = key ∧
     (length (mailbox a) ≤ CHANNEL_CAPACITY)%nat) ∧
  (∀ cmd key r c', scope cmd = Family key → route_command c cmd r = Some c' →
     global c' = global c ∧ ∀ other, other ≠ key → families c' !! other = families c !! other).
Proof.
  assert (families_run canonicalize c) as Hc.
  { refine (rtc_ind_l (λ x, families_run canonicalize x → families_run canonicalize c) c _ _ new_coordinator reached _); [done| |].
    - intros x y Hxy _ IH Hx. apply IH. by eapply step_run.
    - apply map_Forall_empty. }
  split.
  - intros key a Ha. destruct (Hc key a Ha) as [sent Hs]. split; [by exists sent|].
    destruct (run_replay canonicalize key sent a Hs) as (handled & _ & Ea & Hl).
    destruct (replay_ok canonicalize key handled) as (Hok & Hk & _). rewrite Ea. by split_and!.
  - intros cmd key r c' Hscope. unfold route_command, send_family, get_or_create_family_actor. rewrite Hscope.
    destruct (families c !! key) as [a|]; [destruct (send a _)|destruct (send (spawn_family_actor key) _)]; intros [= <-];
      (split; [done|]); intros other Hne; cbn [families]; by rewrite ?lookup_insert_ne.
Qed.

(** *** Witnesses *)

Definition family_command : NormalizedCommand :=
  mkCommand (Family (lit "repo")) None None [] [] (Some (lit "reset")) None [] [] 0 0 0 ∅ None [] [] [] Low.

Definition one_family `{RefCursor} : Coordinator := default new_coordinator (route_command new_coordinator family_command 1).

Lemma families_do_not_interfere_witness :
  rtc (coordinator_step (order := HashIter.in_order) (refcursor := FamilyActorProps.idle_cursor) (λ _, None) (λ dir, Ret dir))
    new_coordinator one_family ∧
  ∀ a, families (one_family (H := FamilyActorProps.idle_cursor)) !! lit "repo" = Some a → family_ok (state a).
Proof.
  assert (rtc (coordinator_step (order := HashIter.in_order) (refcursor := FamilyActorProps.idle_cursor) (λ _, None) (λ dir, Ret dir))
    new_coordinator one_family) as H.
  { apply rtc_once. by apply (step_route _ _ _ family_command 1). }
  split; [exact H|]. intros a Ha. destruct (families_do_not_interfere _ _ _ H) as [Hf _]. by apply (Hf _ _ Ha).
Defined.

End CoordinatorProps.
