(* ===== verification/StateResult.v ===== *)
(** * Computations over a state that may fail

    The methods of the daemon's objects take [&mut self] and return a [Result]:
    what a method did to its object stays when it fails, since the early return
    of [?] undoes nothing. *)

From S2P Require Import Prelude DiffCompute.

(** ** Definitions *)

Module StateResult.
Import DiffCompute(result).

Definition M (S A : Type) : Type := S → S * result A.

Section Operations.
Context {S : Type}.

Definition ret {A : Type} (a : A) : M S A := λ s, (s, Ret a).
Definition lift {A : Type} (r : result A) : M S A := λ s, (s, r).
Definition bind {A B : Type} (m : M S A) (k : A → M S B) : M S B :=
  λ s, match m s with
       | (s', Ret a) => k a s'
       | (s', Fail e) => (s', Fail e)
       | (s', Panic) => (s', Panic)
       end.
Definition gets {A : Type} (f : S → A) : M S A := λ s, (s, Ret (f s)).
Definition query {A : Type} (f : S → result A) : M S A := λ s, (s, f s).
Definition modify (f : S → S) : M S unit := λ s, (f s, Ret tt).
Definition fail {A : Type} (message : str) : M S A := λ s, (s, Fail message).
End Operations.

Notation "'do!' x := m 'in' k" := (bind m (fun x => k))
  (at level 10, x pattern, m at level 100, k at level 200, format "'do!'  x  :=  m  'in'  '//' k") : gitai_scope.

End StateResult.

(** ** Triples *)

Module StateResultFacts.
Import StateResult.

(** From a state with [P] the computation returns a value with [Q] or stops in
    a state with [E]: what a failure leaves behind counts as well. *)
Definition triple {S A : Type} (P : S → Prop) (m : M S A) (Q : A → S → Prop) (E : S → Prop) : Prop :=
  ∀ s, P s → match m s with
             | (s', Ret a) => Q a s'
             | (s', _) => E s'
             end.

Section Triples.
Context {S : Type}.
Implicit Types (P E : S → Prop).

Lemma triple_ret {A} (a : A) P Q E : (∀ s, P s → Q a s) → triple P (ret a) Q E.
Proof. intros H s Hs. by apply H. Qed.

Lemma triple_fail {A} message P (Q : A → S → Prop) E : (∀ s, P s → E s) → triple P (fail message) Q E.
Proof. intros H s Hs. by apply H. Qed.

Lemma triple_lift {A} (r : DiffCompute.result A) P Q E :
  (∀ s a, P s → r = Ret a → Q a s) → (∀ s, P s → E s) → triple P (lift r) Q E.
Proof. intros H1 H2 s Hs. unfold lift. destruct r; auto. Qed.

Lemma triple_gets {A} (f : S → A) P Q E : (∀ s, P s → Q (f s) s) → triple P (gets f) Q E.
Proof. intros H s Hs. by apply H. Qed.

Lemma triple_modify (f : S → S) P Q E : (∀ s, P s → Q tt (f s)) → triple P (modify f) Q E.
Proof. intros H s Hs. by apply H. Qed.

Lemma triple_bind {A B} (m : M S A) (k : A → M S B) P R Q E :
  triple P m R E → (∀ a, triple (R a) (k a) Q E) → triple P (bind m k) Q E.
Proof.
  intros Hm Hk s Hs. unfold bind. specialize (Hm s Hs). destruct (m s) as [s' [a|e|]]; [|done..].
  apply (Hk a s' Hm).
Qed.

Lemma triple_weaken {A} (m : M S A) P P' Q Q' E E' :
  triple P' m Q' E' → (∀ s, P s → P' s) → (∀ a s, Q' a s → Q a s) → (∀ s, E' s → E s) → triple P m Q E.
Proof. intros Hm HP HQ HE s Hs. specialize (Hm s (HP s Hs)). destruct (m s) as [s' [a|e|]]; auto. Qed.

(** A computation that keeps a property, whatever it returns. *)
Definition keeps {A : Type} (P : S → Prop) (m : M S A) : Prop := triple P m (λ _, P) P.

Lemma keeps_state {A} P (m : M S A) s : keeps P m → P s → P (m s).1.
Proof. intros H Hs. specialize (H s Hs). by destruct (m s) as [s' [?|?|]]. Qed.

Lemma keeps_bind {A B} P (m : M S A) (k : A → M S B) : keeps P m → (∀ a, keeps P (k a)) → keeps P (bind m k).
Proof. intros Hm Hk. by eapply triple_bind. Qed.
Lemma keeps_ret {A} P (a : A) : keeps P (ret a).
Proof. by apply triple_ret. Qed.
Lemma keeps_fail {A} P message : keeps P (fail message : M S A).
Proof. by apply triple_fail. Qed.
Lemma keeps_lift {A} P (r : DiffCompute.result A) : keeps P (lift r).
Proof. by apply triple_lift. Qed.
Lemma keeps_gets {A} P (f : S → A) : keeps P (gets f).
Proof. by apply triple_gets. Qed.
Lemma keeps_modify P (f : S → S) : (∀ s, P s → P (f s)) → keeps P (modify f).
Proof. intros H. by apply triple_modify. Qed.
End Triples.

Create HintDb triples.
#[export] Hint Resolve keeps_ret keeps_fail keeps_lift keeps_gets : triples.

End StateResultFacts.
