(* ===== verification/Disk.v ===== *)
(** * The disk

    What the daemon sees of the file system: the text operations of
    [std::path] on Unix, and a [Disk], the answers of [std::fs] at one moment.
    The operating system answers as it likes: nothing relates a directory's
    listing to the files found by their paths. *)

From S2P Require Import Prelude Text PatchParse Analyzers.

(** ** Paths *)

Module Paths.

Abbreviation path := str (only parsing).

Definition is_absolute (p : path) : bool := starts_with (lit "/") p.

(** [Path::join]: an absolute path replaces the base. *)
Definition join (base p : path) : path :=
  if is_absolute p then p
  else if bool_decide (base = []) || ends_with (lit "/") base then base ++ p
  else base ++ lit "/" ++ p.

(** The trailing separators and [.] components, which are not components of a
    path, are dropped from its end, read backwards. *)
Fixpoint trim_reversed (fuel : nat) (r : str) : str :=
  match fuel, r with
  | S f, c :: r' =>
      if Ascii.eqb c "/" then trim_reversed f r'
      else match r' with
           | d :: r'' => if Ascii.eqb c "." && Ascii.eqb d "/" then trim_reversed f r'' else r
           | [] => r
           end
  | _, _ => r
  end.

Definition trim_tail (p : path) : path := rev (trim_reversed (length p) (rev p)).

(** [Path::parent]. *)
Definition parent (p : path) : option path :=
  match rev (trim_tail p) with
  | [] => None
  | r =>
      let before := rev (drop_while (λ c, negb (Ascii.eqb c "/")) r) in
      match trim_tail before with
      | [] => if is_absolute p then Some (lit "/") else Some []
      | t => Some t
      end
  end.

Example parent_absolute : parent (lit "/a/b/") = Some (lit "/a").
Proof. reflexivity. Qed.
Example parent_of_top : parent (lit "/a") = Some (lit "/").
Proof. reflexivity. Qed.
Example parent_of_root : parent (lit "/") = None.
Proof. reflexivity. Qed.
Example parent_relative : parent (lit "a") = Some [].
Proof. reflexivity. Qed.
Example parent_of_dot : parent (lit "./a/.") = Some (lit ".").
Proof. reflexivity. Qed.

End Paths.

(** ** Files *)

Module Files.
Import Paths.

(** What is found at a path.  A file that cannot be opened still has a length,
    and so has a directory, whose bytes cannot be read. *)
Inductive node :=
  | File (bytes : str)
  | Locked (len : N) (error : str)
  | Dir (len : N)
  | NoMetadata (error : str).

(** A directory as it is read: entries may fail one at a time. *)
Inductive directory :=
  | Missing
  | NoListing (error : str)
  | Listing (entries : list entry)
with entry :=
  | BadEntry (error : str)
  | FileEntry (name : str)
  | OtherEntry (name : str)
  | SubDirectory (name : str) (contents : directory).

(** The file system at one moment: [None] is [ErrorKind::NotFound]. *)
Class Disk := {
  node_at : path → option node;
  directory_at : path → directory;
  canonicalize : path → option path
}.

Section Disk.
Context `{disk : Disk}.

(** [fs::metadata(path)] and [.len()]. *)
Definition metadata_len (p : path) : outcome str (option N) :=
  match node_at p with
  | None => Ret None
  | Some (File bytes) => Ret (Some (N.of_nat (length bytes)))
  | Some (Locked len _) | Some (Dir len) => Ret (Some len)
  | Some (NoMetadata e) => Fail e
  end.

Definition is_file (p : path) : bool :=
  match node_at p with Some (File _) | Some (Locked _ _) => true | _ => false end.

Definition is_dir (p : path) : bool :=
  match node_at p with Some (Dir _) => true | _ => false end.

(** [fs::read_to_string(path).ok()] and [fs::read(path).ok()]. *)
Definition read (p : path) : option str :=
  match node_at p with Some (File bytes) => Some bytes | _ => None end.

Definition read_to_string (p : path) : option str :=
  match read p with Some bytes => if PatchText.valid_utf8 bytes then Some bytes else None | None => None end.

(** [path.exists()]. *)
Definition exists_ (p : path) : bool :=
  match node_at p with None | Some (NoMetadata _) => false | _ => true end.
End Disk.

(** A disk with the given nodes, where every path is canonical. *)
Definition disk_of (nodes : list (path * node)) : Disk := {|
  node_at p := snd <$> List.find (λ n, str_eqb n.1 p) nodes;
  directory_at _ := Missing;
  canonicalize p := Some p
|}.

End Files.

(** ** Lemmas *)

Module PathFacts.
Import Paths.

Lemma trim_reversed_suffix f r : ∃ dropped, r = dropped ++ trim_reversed f r.
Proof.
  revert r. induction f as [|f IH]; intros [|c r]; [by exists []..|]. cbn [trim_reversed].
  destruct (Ascii.eqb c "/").
  - destruct (IH r) as [d Hd]. exists (c :: d). by rewrite Hd at 1.
  - destruct r as [|d r]; [by exists []|]. destruct (_ && _); [|by exists []].
    destruct (IH r) as [e He]. exists (c :: d :: e). by rewrite He at 1.
Qed.

Lemma trim_tail_prefix p : ∃ dropped, p = trim_tail p ++ dropped.
Proof.
  unfold trim_tail. destruct (trim_reversed_suffix (length p) (rev p)) as [d Hd]. exists (rev d).
  by rewrite <-rev_app_distr, <-Hd, rev_involutive.
Qed.

Lemma length_trim_tail p : (length (trim_tail p) ≤ length p)%nat.
Proof. destruct (trim_tail_prefix p) as [d Hd]. rewrite Hd at 2. rewrite length_app. lia. Qed.

Lemma trim_reversed_head f r c r' : (length r ≤ f)%nat → trim_reversed f r = c :: r' → Ascii.eqb c "/" = false.
Proof.
  revert r. induction f as [|f IH]; intros [|d r] Hf; try done; simpl in Hf; [lia|]. cbn [trim_reversed].
  destruct (Ascii.eqb d "/") eqn:Ed; [apply IH; lia|]. destruct r as [|e r]; [by intros [= <- <-]|].
  destruct (_ && _); [apply IH; simpl in Hf; lia|]. by intros [= <- <-].
Qed.

Lemma trim_tail_head p c r : rev (trim_tail p) = c :: r → Ascii.eqb c "/" = false.
Proof. unfold trim_tail. rewrite rev_involutive. apply trim_reversed_head. by rewrite length_rev. Qed.

(** Every step up is shorter, so a walk to the root ends. *)
Lemma parent_shorter p q : parent p = Some q → (length q < length p)%nat.
Proof.
  unfold parent. pose proof (length_trim_tail p) as Hp.
  destruct (rev (trim_tail p)) as [|c r] eqn:E; [done|].
  assert (length (trim_tail p) = S (length r)) as Hl by by rewrite <-length_rev, E.
  pose proof (trim_tail_head p c r E) as Hc. cbn [drop_while]. rewrite Hc. cbn [negb].
  set (before := rev _). assert (length before ≤ length r)%nat as Hb.
  { subst before. rewrite length_rev. apply length_drop_while. }
  pose proof (length_trim_tail before) as Ht. destruct (trim_tail before) as [|d t].
  - destruct (is_absolute p) eqn:Ha; intros [= <-]; simpl; [|lia].
    destruct p as [|d [|e p]]; simpl in *; try lia.
    unfold is_absolute in Ha. apply starts_with_spec in Ha as [w Ha]. by simplify_eq/=.
  - intros [= <-]. simpl in *. lia.
Qed.

End PathFacts.
