(* ===== verification/FastReader.v ===== *)
(** * Reading a repository without git

    src/src/git/fast_reader.rs and src/src/git/repo_state.rs: where the
    directories of a worktree are, what [HEAD] and the refs name, and the loose
    objects, read from the files.  The reference is the text git writes:
    [packed_refs] for the packed refs, [tree_data] for a tree object. *)

From S2P Require Import Prelude Text PatchParse DiffTree Analyzers Disk.

(** ** Definitions *)

Module FastReader.
Import Paths Files.
Import DiffTree(is_valid_git_oid).

Definition oid_byte_len (oid : str) : nat := length oid / 2.

Inductive HeadKind := Symbolic (refname : str) | Detached (oid : str).

#[export] Instance HeadKind_eq_dec : EqDecision HeadKind.
Proof. solve_decision. Defined.

(** [contents.strip_prefix("ref: ")], trimmed. *)
Definition symbolic_target (contents : str) : option str := trim <$> strip_prefix (lit "ref: ") contents.

(** *** Refs *)

Section Refs.
Context `{disk : Disk}.
Variables git_dir common_dir : path.

Definition try_read_head : option HeadKind :=
  try content := read_to_string (join git_dir (lit "HEAD")) in
  let trimmed := trim content in
  let detached := if is_valid_git_oid trimmed then Some (Detached trimmed) else None in
  match symbolic_target trimmed with
  | Some refname => if bool_decide (refname = []) then detached else Some (Symbolic refname)
  | None => detached
  end.

(** The loop over the lines of [packed-refs]. *)
Fixpoint packed_loop (refname : str) (ls : list str) : option str :=
  match ls with
  | [] => None
  | l :: ls' =>
      let line := trim l in
      if bool_decide (line = []) || starts_with (lit "#") line || starts_with (lit "^") line then packed_loop refname ls'
      else
        match split_whitespace line with
        | oid :: name :: _ =>
            if str_eqb name refname && is_valid_git_oid oid then Some oid else packed_loop refname ls'
        | _ => None
        end
  end.

Definition try_packed_ref (refname : str) : option str :=
  try contents := read_to_string (join common_dir (lit "packed-refs")) in
  packed_loop refname (lines contents).

Fixpoint direct_loop (refname : str) (bases : list path) : option str :=
  match bases with
  | [] => try_packed_ref refname
  | base :: bases' =>
      match trim <$> read_to_string (join base refname) with
      | Some candidate => if is_valid_git_oid candidate then Some candidate else direct_loop refname bases'
      | None => direct_loop refname bases'
      end
  end.

Definition resolve_without_recursion (refname : str) : option str := direct_loop refname [common_dir; git_dir].

(** The loop over the loose refs. *)
Fixpoint loose_loop (refname : str) (bases : list path) : option str :=
  match bases with
  | [] => try_packed_ref refname
  | base :: bases' =>
      match trim <$> read_to_string (join base refname) with
      | Some candidate =>
          if is_valid_git_oid candidate then Some candidate
          else match symbolic_target candidate with
               | Some target => resolve_without_recursion target
               | None => loose_loop refname bases'
               end
      | None => loose_loop refname bases'
      end
  end.

(** [stack] calls fit the stack: the code calls itself on the target of [HEAD]. *)
Fixpoint try_resolve_ref (stack : nat) (refname : str) : outcome str (option str) :=
  match stack with
  | O => Panic
  | S stack' =>
      if str_eqb refname (lit "HEAD") then
        match try_read_head with
        | None => Ret None
        | Some (Detached oid) => Ret (Some oid)
        | Some (Symbolic target) => try_resolve_ref stack' target
        end
      else Ret (loose_loop refname [common_dir; git_dir])
  end.
End Refs.

(** *** Objects *)

Definition position (c : ascii) (data : str) : option nat := fst <$> List.find (λ p, Ascii.eqb p.2 c) (combine (seq 0 (length data)) data).

Definition NUL : ascii := ascii_of_nat 0.

Definition hex_digit (n : N) : ascii := ascii_of_N (if (n <? 10)%N then 48 + n else 87 + n).
(** [{:02x}]. *)
Definition hex_byte (c : ascii) : str := let n := N_of_ascii c in [hex_digit (n / 16); hex_digit (n mod 16)].
Definition hex (bytes : str) : str := flat_map hex_byte bytes.

(** The loop over the entries of a tree: fuel for the entries. *)
Fixpoint tree_loop (fuel : nat) (data target_name : str) (hash_len : nat) : option str :=
  match fuel, data with
  | S f, _ :: _ =>
      try space_pos := position " " data in
      try after := position NUL (drop (space_pos + 1) data) in
      let null_pos := (space_pos + 1 + after)%nat in
      let name := slice (space_pos + 1) null_pos data in
      if negb (PatchText.valid_utf8 name) then None
      else
        let hash_start := (null_pos + 1)%nat in
        if (length data <? hash_start + hash_len)%nat then None
        else if str_eqb name target_name then Some (hex (slice hash_start (hash_start + hash_len) data))
        else tree_loop f (drop (hash_start + hash_len) data) target_name hash_len
  | _, _ => None
  end.

Definition parse_tree_entries_for_name (data target_name : str) (hash_len : nat) : option str :=
  tree_loop (length data) data target_name hash_len.

Section Objects.
Context `{disk : Disk}.
(** [ZlibDecoder], read to its end. *)
Variable inflate : str → option str.
Variable common_dir : path.

Definition has_alternates : bool :=
  exists_ (join (join (join common_dir (lit "objects")) (lit "info")) (lit "alternates")).

Definition object_path (oid : str) : option path :=
  if negb (is_valid_git_oid oid) then None
  else Some (join (join (join common_dir (lit "objects")) (take 2 oid)) (drop 2 oid)).

Definition decompress_object (oid : str) : option str :=
  if has_alternates then None
  else
    try path := object_path oid in
    try compressed := read path in
    inflate compressed.

(** The header of an object, up to its NUL, and what follows. *)
Definition split_header (data : str) : option (str * str) :=
  try null_pos := position NUL data in
  let header := take null_pos data in
  if PatchText.valid_utf8 header then Some (header, drop (null_pos + 1) data) else None.

Definition try_read_object_type (oid : str) : option str :=
  try data := decompress_object oid in
  try (header, _) := split_header data in
  List.hd_error (split_on " " header).

(** An object of a kind: its contents. *)
Definition object_of_kind (kind : string) (oid : str) : option str :=
  try data := decompress_object oid in
  try (header, body) := split_header data in
  if starts_with (lit kind ++ lit " ") header then Some body else None.

Definition try_read_blob (oid : str) : option str := object_of_kind "blob" oid.

Definition try_read_commit_tree_oid (commit_oid : str) : option str :=
  try body := object_of_kind "commit" commit_oid in
  if negb (PatchText.valid_utf8 body) then None
  else
    try first_line := List.hd_error (lines body) in
    try rest := strip_prefix (lit "tree ") first_line in
    let tree_oid := trim rest in
    if is_valid_git_oid tree_oid then Some tree_oid else None.

Definition find_tree_entry (tree_oid name : str) : option str :=
  try entries_data := object_of_kind "tree" tree_oid in
  parse_tree_entries_for_name entries_data name (oid_byte_len tree_oid).

(** The walk down the trees. *)
Fixpoint tree_walk (current_tree_oid : str) (components : list str) : option str :=
  match components with
  | [] => None
  | component :: rest =>
      try entry_oid := find_tree_entry current_tree_oid component in
      match rest with [] => Some entry_oid | _ => tree_walk entry_oid rest end
  end.

(** [Component::Normal] with [to_str]. *)
Definition normal_components (p : path) : list str :=
  List.filter (λ c, negb (str_eqb c (lit "..")) && PatchText.valid_utf8 c) (Analyzers.path_components p).

Definition try_tree_entry_for_path (tree_oid : str) (p : path) : option str := tree_walk tree_oid (normal_components p).
End Objects.

End FastReader.

(** *** Worktrees *)

Module RepoState.
Import Paths Files FastReader.

Record HeadState := mkHead { state_head : option str; state_branch : option str; state_detached : bool }.

Section RepoState.
Context `{disk : Disk}.

Definition is_valid_git_dir (p : path) : bool := is_file (join p (lit "HEAD")).

(** The walk to the root: every parent is shorter. *)
Fixpoint root_loop (fuel : nat) (candidate : path) : option path :=
  match fuel with
  | O => None
  | S f =>
      let dot_git := join candidate (lit ".git") in
      if is_valid_git_dir dot_git || is_file dot_git then Some candidate
      else match parent candidate with Some up => root_loop f up | None => None end
  end.

Definition worktree_root_for_path (p : path) : option path := root_loop (S (length p)) p.

(** [contents.strip_prefix("gitdir:")?.trim()]. *)
Definition gitdir_pointer (contents : str) : option path := trim <$> strip_prefix (lit "gitdir:") contents.

Definition git_dir_for_worktree (worktree : path) : option path :=
  try worktree_root := worktree_root_for_path worktree in
  let dot_git := join worktree_root (lit ".git") in
  if is_dir dot_git then Some dot_git
  else
    try contents := read_to_string dot_git in
    try candidate := gitdir_pointer contents in
    Some (if is_absolute candidate then candidate else join worktree_root candidate).

Definition common_dir_for_git_dir (git_dir : path) : option path :=
  try up := parent git_dir in
  if bool_decide (Analyzers.path_file_name up = Some (lit "worktrees")) then parent up else Some git_dir.

Definition common_dir_for_worktree (worktree : path) : option path :=
  try git_dir := git_dir_for_worktree worktree in
  common_dir_for_git_dir git_dir.

Definition common_dir_for_repo_path (p : path) : option path :=
  match common_dir_for_worktree p with
  | Some common_dir => Some common_dir
  | None =>
      if is_dir p && is_file (join p (lit "HEAD")) then common_dir_for_git_dir p
      else if bool_decide (Analyzers.path_file_name p = Some (lit ".git")) && is_file p then
        try contents := read_to_string p in
        try candidate := gitdir_pointer contents in
        if is_absolute candidate then common_dir_for_git_dir candidate
        else try up := parent p in common_dir_for_git_dir (join up candidate)
      else None
  end.

Definition read_head_state_for_worktree (stack : nat) (worktree : path) : outcome str (option HeadState) :=
  match git_dir_for_worktree worktree with
  | None => Ret None
  | Some git_dir =>
      match common_dir_for_git_dir git_dir with
      | None => Ret None
      | Some common_dir =>
          match try_read_head git_dir with
          | None => Ret None
          | Some (Symbolic refname) =>
              let branch := strip_prefix (lit "refs/heads/") refname in
              let? head := try_resolve_ref git_dir common_dir stack refname in
              Ret (Some (mkHead head branch (match branch with None => true | Some _ => false end)))
          | Some (Detached oid) => Ret (Some (mkHead (Some oid) None true))
          end
      end
  end.
End RepoState.

End RepoState.

(** ** Reference: the text git writes *)

Module FastReaderRef.
Import FastReader.
Import DiffTree(is_valid_git_oid).

(** A line of [packed-refs]: the heading, a ref, the commit a tag stands for. *)
Inductive PackedLine := Heading (text : str) | RefLine (oid name : str) | PeeledLine (oid : str).

Definition packed_line (l : PackedLine) : str :=
  match l with
  | Heading text => lit "#" ++ text
  | RefLine oid name => oid ++ " "%char :: name
  | PeeledLine oid => lit "^" ++ oid
  end.

Definition packed_refs (items : list PackedLine) : str := flat_map (λ l, packed_line l ++ [LF]) items.

Definition packed_lookup (items : list PackedLine) (refname : str) : option str :=
  List.hd_error (omap (λ l, match l with RefLine oid name => if str_eqb name refname then Some oid else None | _ => None end) items).

Definition word (w : str) : Prop := w ≠ [] ∧ Forall printable w.

Definition clean_packed (l : PackedLine) : Prop :=
  match l with
  | Heading text => forallb is_ascii text = true ∧ LF ∉ text ∧ CR ∉ text
  | RefLine oid name => is_valid_git_oid oid = true ∧ word name
  | PeeledLine oid => is_valid_git_oid oid = true
  end.

(** An entry of a tree object. *)
Record TreeEntry := mkTreeEntry { entry_mode : str; entry_name : str; entry_hash : str }.

Definition tree_entry (e : TreeEntry) : str := entry_mode e ++ " "%char :: entry_name e ++ NUL :: entry_hash e.
Definition tree_data (es : list TreeEntry) : str := flat_map tree_entry es.

Definition clean_entry (hash_len : nat) (e : TreeEntry) : Prop :=
  " "%char ∉ entry_mode e ∧ NUL ∉ entry_name e ∧ PatchText.valid_utf8 (entry_name e) = true ∧ length (entry_hash e) = hash_len.

Definition tree_lookup (es : list TreeEntry) (name : str) : option str :=
  (λ e, hex (entry_hash e)) <$> List.find (λ e, str_eqb (entry_name e) name) es.

End FastReaderRef.

(** ** Lemmas *)

Module FastReaderFacts.
Import Paths Files PathFacts FastReader FastReaderRef RepoState.
Import DiffTree(is_valid_git_oid).

(** *** Trimming ASCII text *)

Definition space (c : ascii) : bool := is_whitespace [c].

Lemma drop_while_map {A B} (f : A → B) (p : B → bool) l : drop_while p (map f l) = map f (drop_while (p ∘ f) l).
Proof. induction l as [|x l IH]; [done|]. simpl. destruct (p (f x)); [apply IH|done]. Qed.

Lemma drop_while_snoc {A} (p : A → bool) l x : p x = false → drop_while p (l ++ [x]) = drop_while p l ++ [x].
Proof. intros Hx. induction l as [|y l IH]; simpl; [by rewrite Hx|]. by destruct (p y). Qed.

Lemma trim_end_ascii s : forallb is_ascii s = true → trim_end s = rev (drop_while space (rev s)).
Proof.
  intros H. unfold trim_end. rewrite chars_ascii by done. rewrite <-map_rev, drop_while_map, <-map_rev.
  apply concat_singletons.
Qed.

Lemma trim_start_ascii s : forallb is_ascii s = true → trim_start s = drop_while space s.
Proof. intros H. unfold trim_start. rewrite chars_ascii by done. rewrite drop_while_map. apply concat_singletons. Qed.

Lemma printable_space c : printable c → space c = false.
Proof. by intros [_ H]. Qed.

(** The ends of a line that starts and ends with printable characters. *)
Lemma trim_line a x y mid :
  forallb is_ascii a = true → printable x → printable y → a = x :: mid → last a = Some y →
  trim a = a ∧ trim (a ++ [LF]) = a.
Proof.
  intros Ha Hx Hy -> Hl. assert (∃ m, x :: mid = m ++ [y]) as [m Hm].
  { apply last_Some in Hl as [m ->]. by exists m. }
  assert (∀ s, forallb is_ascii (x :: mid ++ s) = true → trim_start (x :: mid ++ s) = x :: mid ++ s) as Hstart.
  { intros s Hs. rewrite trim_start_ascii by done. cbn [drop_while]. by rewrite (printable_space x) by done. }
  assert (trim_end (x :: mid) = x :: mid) as Hend.
  { rewrite trim_end_ascii by done. rewrite Hm at 1. rewrite rev_app_distr. cbn [rev app drop_while].
    rewrite (printable_space y) by done. cbn [rev]. by rewrite rev_involutive. }
  split; unfold trim.
  - specialize (Hstart []). rewrite app_nil_r in Hstart. by rewrite Hstart.
  - change ((x :: mid) ++ [LF]) with (x :: mid ++ [LF]). rewrite Hstart.
    + change (x :: mid ++ [LF]) with ((x :: mid) ++ [LF]). rewrite trim_end_whitespace; [done| |done|done].
      by apply is_utf8_ascii.
    + change (x :: mid ++ [LF]) with ((x :: mid) ++ [LF]). rewrite forallb_app, Ha. done.
Qed.

Lemma trim_word w : word w → trim w = w ∧ trim (w ++ [LF]) = w.
Proof.
  intros [Hne Hw]. destruct w as [|x w]; [done|]. destruct (last (x :: w)) as [y|] eqn:Hl; [|by apply last_None in Hl].
  assert (y ∈ x :: w) as Hy by by apply last_Some_elem_of in Hl.
  rewrite Forall_forall in Hw. eapply (trim_line _ x y w); [|apply Hw; left|by apply Hw|done|done].
  apply printable_ascii. by apply Forall_forall.
Qed.

Lemma valid_utf8_ascii s : forallb is_ascii s = true → PatchText.valid_utf8 s = true.
Proof.
  unfold PatchText.valid_utf8. induction s as [|c s IH]; intros H; [done|]. cbn [length PatchText.valid_loop].
  simpl in H. bool_hyps. unfold PatchParse.utf8_sequence. 
  rewrite H. cbn [drop andb]. by apply IH.
Qed.

(** *** Names and object names *)

Lemma hexdigit_printable c : DiffTree.is_hexdigit c = true → printable c.
Proof. destruct c as [[] [] [] [] [] [] [] []]; vm_compute; intros; try done; by split. Qed.

Lemma oid_word oid : is_valid_git_oid oid = true → word oid.
Proof.
  unfold is_valid_git_oid. intros H. bool_hyps. split; [by intros ->|].
  match goal with H : forallb _ oid = true |- _ => rename H into Hall end.
  rewrite forallb_forall in Hall. apply List.Forall_forall. intros c Hc. by apply hexdigit_printable, Hall.
Qed.

Lemma oid_not_symbolic oid : is_valid_git_oid oid = true → symbolic_target oid = None.
Proof.
  intros [_ Hw]%oid_word. unfold symbolic_target. destruct (strip_prefix (lit "ref: ") oid) as [r|] eqn:E; [|done].
  apply strip_prefix_spec in E. subst oid. exfalso. rewrite Forall_forall in Hw.
  assert (" "%char ∈ lit "ref: " ++ r) as Hin by (vm_compute; repeat (first [left|right])).
  apply Hw in Hin as [_ Hin]. by vm_compute in Hin.
Qed.

Lemma word_no_break w : word w → LF ∉ w ∧ CR ∉ w.
Proof.
  intros [_ Hw]. rewrite Forall_forall in Hw. split; intros Hc; apply Hw in Hc as [_ Hc]; by vm_compute in Hc.
Qed.

Lemma split_whitespace_last w : word w → split_whitespace w = [w].
Proof.
  intros [Hne Hw]. unfold split_whitespace. rewrite chars_ascii by by apply printable_ascii.
  assert (∀ cur cs, forallb (λ ch, negb (is_whitespace ch)) cs = true → cur ++ concat cs ≠ [] →
    words_aux cur cs = [cur ++ concat cs]) as H.
  { intros cur cs. revert cur. induction cs as [|c cs IH]; intros cur Hcs Hc; simpl in *.
    - rewrite app_nil_r in *. by destruct cur.
    - bool_hyps. match goal with H : is_whitespace c = false |- _ => rewrite H end.
      rewrite IH; rewrite <-?app_assoc; done. }
  rewrite H; simpl; rewrite ?concat_singletons; [done|by apply printable_words|done].
Qed.

(** *** Packed refs *)

Lemma packed_line_clean l : clean_packed l → LF ∉ packed_line l ∧ CR ∉ packed_line l ∧ forallb is_ascii (packed_line l) = true.
Proof.
  assert (∀ c, c = LF ∨ c = CR → ∀ w, word w → c ∉ w) as Hno by (intros c [->| ->] w [? ?]%word_no_break; done).
  destruct l as [t|oid name|oid]; simpl.
  - intros (Ha & Hl & Hc). rewrite !not_elem_of_cons. done.
  - intros [Ho%oid_word Hn]. rewrite !not_elem_of_app, !not_elem_of_cons, forallb_app. simpl.
    rewrite !printable_ascii by apply Ho || apply Hn. repeat split; try (by apply Hno; auto); done.
  - intros Ho%oid_word. rewrite !not_elem_of_cons. rewrite printable_ascii by apply Ho.
    repeat split; try (by apply Hno; auto); done.
Qed.

Lemma clean_lines items : Forall clean_packed items → lines (packed_refs items) = map packed_line items.
Proof.
  induction 1 as [|l items Hl _ IH]; [done|]. apply packed_line_clean in Hl as (Hlf & Hcr & _).
  unfold packed_refs in *. cbn [flat_map map]. rewrite <-app_assoc. cbn [app]. rewrite lines_line by done.
  by rewrite strip_cr_id, IH.
Qed.

Lemma trim_marked c t : printable c → forallb is_ascii (c :: t) = true → ∃ u, trim (c :: t) = c :: u.
Proof.
  intros Hc Ha. unfold trim. rewrite trim_start_ascii by done. cbn [drop_while]. rewrite (printable_space c) by done.
  rewrite trim_end_ascii by done. cbn [rev]. rewrite drop_while_snoc by by apply printable_space.
  rewrite rev_app_distr. by eexists.
Qed.

Lemma packed_loop_spec items refname :
  Forall clean_packed items → packed_loop refname (map packed_line items) = packed_lookup items refname.
Proof.
  induction 1 as [|l items Hl _ IH]; [done|]. cbn [map packed_loop].
  pose proof (packed_line_clean l Hl) as (_ & _ & Ha). destruct l as [t|oid name|oid]; simpl in Ha.
  - destruct (trim_marked "#" t) as [u Hu]; [by split|done|]. cbn [packed_line lit]. 
    change (lit "#" ++ t) with ("#"%char :: t). rewrite Hu. rewrite bool_decide_eq_false_2 by done. simpl. apply IH.
  - destruct Hl as [Ho Hn]. pose proof (oid_word oid Ho) as Hw. cbn [packed_line].
    assert (trim (oid ++ " "%char :: name) = oid ++ " "%char :: name) as ->.
    { destruct oid as [|x oid]; [by destruct Hw|]. destruct Hn as [Hne Hn]. destruct (last name) as [y|] eqn:Hy; [|by apply last_None in Hy].
      assert (y ∈ name) as Hyn by by apply last_Some_elem_of in Hy.
      eapply (trim_line _ x y (oid ++ " "%char :: name)); [done| | |done|].
      - destruct Hw as [_ Hw]. by inversion Hw.
      - rewrite Forall_forall in Hn. by apply Hn.
      - change ((x :: oid) ++ " "%char :: name) with ((x :: oid) ++ [" "%char] ++ name). rewrite !last_app, Hy. done. }
    assert (split_whitespace (oid ++ " "%char :: name) = [oid; name]) as ->.
    { destruct Hw as [Hne Hp]. by rewrite split_whitespace_word, split_whitespace_last. }
    destruct oid as [|x oid]; [by destruct Hw|]. rewrite bool_decide_eq_false_2 by done.
    assert (∀ m, starts_with [m] (x :: oid ++ " "%char :: name) = Ascii.eqb m x) as Hm.
    { intros m. unfold starts_with. cbn [strip_prefix]. case_bool_decide as He; [subst; by rewrite Ascii.eqb_refl|].
      symmetry. by apply Ascii.eqb_neq. }
    change ((x :: oid) ++ " "%char :: name) with (x :: oid ++ " "%char :: name).
    change (lit "#") with ["#"%char]. change (lit "^") with ["^"%char]. rewrite !Hm.
    assert (DiffTree.is_hexdigit x = true) as Hx.
    { unfold is_valid_git_oid in Ho. simpl in Ho. bool_hyps. done. }
    destruct (Ascii.eqb "#" x) eqn:E1; [apply Ascii.eqb_eq in E1; by subst x|].
    destruct (Ascii.eqb "^" x) eqn:E2; [apply Ascii.eqb_eq in E2; by subst x|]. cbn [orb].
    rewrite Ho, andb_true_r. unfold packed_lookup. cbn [omap list_omap]. destruct (str_eqb name refname); [done|apply IH].
  - pose proof (oid_word oid Hl) as Hw. destruct (trim_marked "^" oid) as [u Hu]; [by split|by apply printable_ascii; constructor; [split|apply Hw]|].
    cbn [packed_line]. change (lit "^" ++ oid) with ("^"%char :: oid). rewrite Hu. rewrite bool_decide_eq_false_2 by done. simpl. apply IH.
Qed.

(** *** Trees *)

Lemma find_snd c a b : c ∉ a → List.find (λ p, Ascii.eqb p.2 c) (combine (seq 0 (length (a ++ c :: b))) (a ++ c :: b)) = Some (length a, c).
Proof.
  assert (∀ a n, c ∉ a → List.find (λ p, Ascii.eqb p.2 c) (combine (seq n (length (a ++ c :: b))) (a ++ c :: b)) = Some ((n + length a)%nat, c)) as H.
  { clear a. induction a as [|d a IH]; intros n Hc; simpl.
    - rewrite Ascii.eqb_refl. by rewrite Nat.add_0_r.
    - apply not_elem_of_cons in Hc as [Hd Hc]. destruct (Ascii.eqb d c) eqn:E; [by apply Ascii.eqb_eq in E|].
      rewrite IH by done. do 2 f_equal. lia. }
  intros Hc. by rewrite H.
Qed.

Lemma position_app c a b : c ∉ a → position c (a ++ c :: b) = Some (length a).
Proof. intros Hc. unfold position. by rewrite find_snd. Qed.

Lemma drop_past (a b : str) c n : n = (length a + 1)%nat → drop n (a ++ c :: b) = b.
Proof.
  intros ->. change (a ++ c :: b) with (a ++ [c] ++ b). rewrite app_assoc.
  rewrite <-(Nat.add_0_r (length a + 1)). rewrite <-drop_drop. 
  replace (length a + 1)%nat with (length (a ++ [c])) by (rewrite length_app; simpl; lia). by rewrite drop_app_length.
Qed.

Lemma tree_loop_entry hash_len f e rest name :
  clean_entry hash_len e →
  tree_loop (S f) (tree_entry e ++ rest) name hash_len =
  if str_eqb (entry_name e) name then Some (hex (entry_hash e)) else tree_loop f rest name hash_len.
Proof.
  destruct e as [mode nm hash]. intros (Hm & Hn & Hv & Hh). cbn [entry_mode entry_name entry_hash] in *.
  unfold tree_entry. cbn [entry_mode entry_name entry_hash].
  set (data := (mode ++ " "%char :: nm ++ NUL :: hash) ++ rest).
  assert (data = mode ++ " "%char :: (nm ++ NUL :: (hash ++ rest))) as Hd.
  { subst data. rewrite <-app_assoc. cbn [app]. by rewrite <-app_assoc. }
  assert (∃ d ds, data = d :: ds) as (d & ds & Hcons) by (rewrite Hd; destruct mode; by eexists _, _).
  cbn [tree_loop]. rewrite Hcons. cbv iota. rewrite <-Hcons.
  assert (position " " data = Some (length mode)) as Hp by by rewrite Hd, position_app.
  rewrite Hp. cbv beta iota zeta.
  assert (drop (length mode + 1) data = nm ++ NUL :: (hash ++ rest)) as Hdrop by by rewrite Hd, drop_past.
  rewrite Hdrop, position_app by done. cbv beta iota zeta.
  assert (slice (length mode + 1) (length mode + 1 + length nm) data = nm) as Hs.
  { unfold slice. rewrite Hdrop. replace (length mode + 1 + length nm - (length mode + 1))%nat with (length nm) by lia. by rewrite take_app_length. }
  rewrite Hs, Hv. cbn [negb].
  assert (drop (length mode + 1 + length nm + 1) data = hash ++ rest) as Hdrop2.
  { rewrite <-Nat.add_assoc, <-drop_drop, Hdrop. by apply drop_past. }
  assert ((length data <? length mode + 1 + length nm + 1 + hash_len)%nat = false) as ->.
  { apply Nat.ltb_ge. rewrite Hd. rewrite !length_app. simpl. rewrite !length_app. simpl. rewrite !length_app. lia. }
  destruct (str_eqb nm name).
  - unfold slice. rewrite Hdrop2. replace (length mode + 1 + length nm + 1 + hash_len - (length mode + 1 + length nm + 1))%nat with (length hash) by lia.
    by rewrite take_app_length.
  - rewrite <-drop_drop, Hdrop2, <-Hh. by rewrite drop_app_length.
Qed.

Lemma tree_entry_long e : (1 ≤ length (tree_entry e))%nat.
Proof. unfold tree_entry. rewrite !length_app. simpl. lia. Qed.

Lemma tree_loop_spec hash_len es name f :
  Forall (clean_entry hash_len) es → (length (tree_data es) ≤ f)%nat →
  tree_loop f (tree_data es) name hash_len = tree_lookup es name.
Proof.
  intros H. revert f. induction H as [|e es He _ IH]; intros f Hf; [by destruct f|].
  unfold tree_data in *. cbn [flat_map] in *. rewrite length_app in Hf. pose proof (tree_entry_long e).
  destruct f as [|f]; [lia|]. rewrite tree_loop_entry by done. unfold tree_lookup. cbn [List.find].
  destruct (str_eqb (entry_name e) name); [done|]. apply IH. lia.
Qed.

(** *** The walk to the root *)

Section Walk.
Context `{disk : Disk}.

Definition marked (p : path) : bool := is_valid_git_dir (join p (lit ".git")) || is_file (join p (lit ".git")).

(** [above p q]: [q] is [p] or a parent of it, and no path below [q] on the way is marked. *)
Inductive above : path → path → Prop :=
  | above_here p : above p p
  | above_parent p up q : marked p = false → parent p = Some up → above up q → above p q.

Lemma root_loop_spec f p :
  (length p < f)%nat →
  match root_loop f p with
  | Some r => above p r ∧ marked r = true
  | None => ∀ q, above p q → marked q = false
  end.
Proof.
  revert p. induction f as [|f IH]; intros p Hf; [lia|]. cbn [root_loop]. fold (marked p).
  destruct (marked p) eqn:Hm; [by split; [constructor|]|].
  destruct (parent p) as [up|] eqn:Hp.
  - pose proof (parent_shorter p up Hp). specialize (IH up ltac:(lia)).
    destruct (root_loop f up) as [r|]; [destruct IH; split; [by econstructor|done]|].
    intros q Hq. inversion Hq; subst; [done|]. simplify_eq. by apply IH.
  - intros q Hq. inversion Hq; subst; [done|]. congruence.
Qed.
End Walk.

End FastReaderFacts.

(** ** Properties *)

Module FastReaderProps.
Import Paths Files PathFacts FastReader FastReaderRef FastReaderFacts RepoState.
Import DiffTree(is_valid_git_oid).

(** a name is looked up in a tree object as in the list of its entries: the
    first entry of that name gives the object name, in hexadecimal. *)
Theorem tree_entry_found es name hash_len :
  Forall (clean_entry hash_len) es →
  parse_tree_entries_for_name (tree_data es) name hash_len = tree_lookup es name.
Proof. intros H. by apply tree_loop_spec. Qed.

Definition two_entries : list TreeEntry :=
  [mkTreeEntry (lit "100644") (lit "a.rs") (replicate 20 (ascii_of_nat 171)); mkTreeEntry (lit "40000") (lit "src") (replicate 20 (ascii_of_nat 16))].

Lemma tree_entry_found_witness :
  Forall (clean_entry 20) two_entries ∧
  parse_tree_entries_for_name (tree_data two_entries) (lit "src") 20 = Some (concat (replicate 20 (lit "10"))).
Proof.
  assert (Forall (clean_entry 20) two_entries) as H.
  { repeat constructor; cbn [entry_mode entry_name]; try done; rewrite <-contains_byte_false; done. }
  split; [done|]. rewrite (tree_entry_found two_entries (lit "src") 20 H). reflexivity.
Defined.

(** on a branch, the head of a worktree is the commit of the branch's file, or
    of its line in the packed refs when it has no file. *)
Theorem attached_head_read `{disk : Disk} worktree git_dir common_dir name loose items stack :
  git_dir_for_worktree worktree = Some git_dir → common_dir_for_git_dir git_dir = Some common_dir →
  word name → Forall clean_packed items →
  match loose with Some oid => is_valid_git_oid oid = true | None => True end →
  read_to_string (join git_dir (lit "HEAD")) = Some (lit "ref: refs/heads/" ++ name ++ [LF]) →
  read_to_string (join common_dir (lit "refs/heads/" ++ name)) = (λ oid, oid ++ [LF]) <$> loose →
  (loose = None → read_to_string (join git_dir (lit "refs/heads/" ++ name)) = None) →
  read_to_string (join common_dir (lit "packed-refs")) = Some (packed_refs items) →
  read_head_state_for_worktree (S stack) worktree =
  Ret (Some (mkHead (match loose with Some oid => Some oid | None => packed_lookup items (lit "refs/heads/" ++ name) end) (Some name) false)).
Proof.
  intros Hg Hc Hn Hitems Hoid Hhead Hloose Hnone Hpacked. unfold read_head_state_for_worktree. rewrite Hg, Hc.
  set (ref := lit "refs/heads/" ++ name) in *.
  assert (word ref) as Hr.
  { destruct Hn as [? Hp]. subst ref. split; [by vm_compute|]. apply Forall_app. split; [|done].
    repeat constructor; by vm_compute. }
  assert (trim (lit "ref: refs/heads/" ++ name ++ [LF]) = lit "ref: " ++ ref) as Ht.
  { rewrite app_assoc. change (lit "ref: refs/heads/" ++ name) with (lit "ref: " ++ ref).
    destruct Hr as [Hne Hp]. destruct (last ref) as [y|] eqn:Hy; [|by apply last_None in Hy].
    assert (y ∈ ref) as Hin by by apply last_Some_elem_of in Hy.
    eapply (trim_line _ "r" y (lit "ef: " ++ ref)); [|by split| |done|].
    - rewrite forallb_app. by rewrite (printable_ascii ref).
    - rewrite Forall_forall in Hp. by apply Hp.
    - by rewrite last_app, Hy. }
  assert (try_read_head git_dir = Some (Symbolic ref)) as ->.
  { unfold try_read_head. rewrite Hhead, Ht. unfold symbolic_target.
    assert (strip_prefix (lit "ref: ") (lit "ref: " ++ ref) = Some ref) as -> by by apply strip_prefix_spec.
    cbn [fmap option_fmap option_map]. destruct (trim_word ref Hr) as [-> _]. rewrite bool_decide_eq_false_2; [done|apply Hr]. }
  assert (strip_prefix (lit "refs/heads/") ref = Some name) as -> by by apply strip_prefix_spec.
  cbn [try_resolve_ref]. assert (str_eqb ref (lit "HEAD") = false) as ->.
  { apply bool_decide_eq_false_2. subst ref. by intros [=]. }
  cbn [loose_loop]. rewrite Hloose. destruct loose as [oid|]; cbn [fmap option_fmap option_map].
  - destruct (trim_word oid (oid_word oid Hoid)) as [_ ->]. by rewrite Hoid.
  - rewrite Hnone by done. cbn [fmap option_fmap option_map]. unfold try_packed_ref. rewrite Hpacked.
    rewrite clean_lines by done. by rewrite packed_loop_spec.
Qed.

Definition sample_oid : str := replicate 40 "a"%char.

Definition sample_disk : Disk :=
  disk_of [(lit "/w/.git", Dir 0); (lit "/w/.git/HEAD", File (lit "ref: refs/heads/main" ++ [LF]));
           (lit "/w/.git/packed-refs", File (packed_refs [Heading (lit " pack-refs with: peeled"); RefLine sample_oid (lit "refs/heads/main")]))].

Lemma attached_head_read_witness :
  git_dir_for_worktree (disk := sample_disk) (lit "/w/src") = Some (lit "/w/.git") ∧
  read_head_state_for_worktree (disk := sample_disk) 1 (lit "/w/src") = Ret (Some (mkHead (Some sample_oid) (Some (lit "main")) false)).
Proof.
  split; [vm_compute; reflexivity|].
  apply (attached_head_read (disk := sample_disk) (lit "/w/src") (lit "/w/.git") (lit "/w/.git") (lit "main") None
    [Heading (lit " pack-refs with: peeled"); RefLine sample_oid (lit "refs/heads/main")] 0);
    try (intros; vm_compute; reflexivity).
  - split; [done|]. repeat constructor; vm_compute; reflexivity.
  - repeat constructor; try (vm_compute; reflexivity); try (rewrite <-contains_byte_false; vm_compute; reflexivity); try done.
Defined.

(** C30: resolving a ref uses two calls, unless [HEAD] names [HEAD] itself: then
    the calls never end and overflow any stack. *)
Theorem resolution_ends `{disk : Disk} git_dir common_dir refname :
  if str_eqb refname (lit "HEAD") && bool_decide (try_read_head git_dir = Some (Symbolic (lit "HEAD")))
  then ∀ stack, try_resolve_ref git_dir common_dir stack refname = Panic
  else ∃ resolved, ∀ stack, try_resolve_ref git_dir common_dir (S (S stack)) refname = Ret resolved.
Proof.
  destruct (str_eqb refname (lit "HEAD")) eqn:Hr; cbn [andb].
  - case_bool_decide as Hh.
    + intros stack. induction stack as [|stack IH]; [done|]. cbn [try_resolve_ref]. rewrite Hr, Hh.
      apply str_eqb_eq in Hr. by rewrite <-Hr.
    + destruct (try_read_head git_dir) as [[target|oid]|] eqn:Eh.
      * exists (loose_loop git_dir common_dir target [common_dir; git_dir]). intros stack. cbn [try_resolve_ref]. rewrite Hr, Eh.
        destruct (str_eqb target (lit "HEAD")) eqn:Et; [|done]. apply str_eqb_eq in Et. by subst target.
      * exists (Some oid). intros stack. cbn [try_resolve_ref]. by rewrite Hr, Eh.
      * exists None. intros stack. cbn [try_resolve_ref]. by rewrite Hr, Eh.
  - eexists. intros stack. cbn [try_resolve_ref]. by rewrite Hr.
Qed.

(** the root of a worktree is the nearest directory at or above the path that
    holds a repository or a pointer to one; there is none only when no directory
    above does. *)
Theorem nearest_worktree_root `{disk : Disk} p :
  match worktree_root_for_path p with
  | Some root => above p root ∧ marked root = true
  | None => ∀ q, above p q → marked q = false
  end.
Proof. apply root_loop_spec. lia. Qed.

End FastReaderProps.
