(* ===== verification/Reflog.v ===== *)
(** * Reflogs

    The readers of src/src/daemon/ref_cursor.rs: the records of a reflog from an
    offset on, the record that ends at an offset, the logs of a repository and
    the refs at the start of a command.  The reference is the line git writes,
    [reflog_line]. *)

From S2P Require Import Prelude Text DiffCompute HashIter PatchParse DiffTree CliParser Disk FastReader.

Local Open Scope N_scope.

(** ** Definitions *)

Module Reflog.
Import Paths Files RepoState HashIter.
Import DiffCompute(result).
Import DiffTree(is_valid_git_oid).
Import CliParser(trim_end_chars, strip_suffix).
Import PatchParse.PatchParse(from_utf8_lossy).

(** *** Numbers *)

Fixpoint digits_value (acc : Z) (s : str) : option Z :=
  match s with
  | [] => Some acc
  | c :: s' => try d := digit_val c in digits_value (acc * 10 + d) s'
  end.

(** [str::parse] of an integer type with the given bounds, whose minimum is
    negative for a signed type. *)
Definition parse_integer (lowest highest : Z) (s : str) : option Z :=
  let number (sign : Z) (t : str) :=
    match t with
    | [] => None
    | _ => try v := digits_value 0 t in
           let n := (sign * v)%Z in
           if ((lowest <=? n) && (n <=? highest))%Z then Some n else None
    end in
  match s with
  | [] => None
  | c :: t => if Ascii.eqb c "+" then number 1%Z t
              else if Ascii.eqb c "-" && (lowest <? 0)%Z then number (-1)%Z t
              else number 1%Z s
  end.

Definition i64_max : Z := 9223372036854775807.
Definition i64_min : Z := -9223372036854775808.
Definition usize_max : Z := 18446744073709551615.
Definition parse_i64 (s : str) : option Z := parse_integer i64_min i64_max s.
Definition parse_usize (s : str) : option nat := Z.to_nat <$> parse_integer 0 usize_max s.

(** *** Records *)

Record ReflogRecord := mkRecord {
  record_old : str;
  record_new : str;
  record_message : str;
  record_timestamp : option Z;
  record_start : N;
  record_end : N
}.

(** A record of the log of a ref, under the key of the log. *)
Record CursorEntry := mkEntry {
  entry_key : str;
  entry_path : path;
  entry_reference : str;
  entry_old : str;
  entry_new : str;
  entry_message : str;
  timestamp_secs : option Z;
  start_offset : N;
  end_offset : N
}.

Record ReflogAnchor := mkAnchor { anchor_old : str; anchor_new : str; anchor_message : str; anchor_end : N }.

#[export] Instance ReflogAnchor_eq_dec : EqDecision ReflogAnchor.
Proof. solve_decision. Defined.

Definition anchor_of_entry (e : CursorEntry) : ReflogAnchor := mkAnchor (entry_old e) (entry_new e) (entry_message e) (end_offset e).
Definition anchor_of_record (r : ReflogRecord) : ReflogAnchor := mkAnchor (record_old r) (record_new r) (record_message r) (record_end r).

Definition TAB : ascii := ascii_of_nat 9.

(** The second field from the end. *)
Definition parse_reflog_timestamp_secs (head : str) : option Z :=
  match rev (split_whitespace head) with
  | _timezone :: seconds :: _ => parse_i64 seconds
  | _ => None
  end.

Definition parse_reflog_line (line : str) (start_offset end_offset : N) : option ReflogRecord :=
  let '(head, message) := default (line, []) (split_once [TAB] line) in
  match split_whitespace head with
  | old :: new :: _ =>
      let old := trim old in
      let new := trim new in
      if negb (is_valid_git_oid old) || negb (is_valid_git_oid new) then None
      else Some (mkRecord old new message (parse_reflog_timestamp_secs head) start_offset end_offset)
  | _ => None
  end.

(** A line with its terminator, decoded. *)
Definition line_text (raw_line : str) : str :=
  trim_end_chars (λ c, Ascii.eqb c CR || Ascii.eqb c LF) (from_utf8_lossy raw_line).

(** [parse_reflog_line], kept when the record is not empty. *)
Definition parse_record (raw_line : str) (line_start line_end : N) : option ReflogRecord :=
  try entry := parse_reflog_line (line_text raw_line) line_start line_end in
  if line_start <? record_end entry then Some entry else None.

(** [bytes.split_inclusive(|byte| *byte == b'\n')]. *)
Fixpoint split_inclusive (s : str) : list str :=
  match s with
  | [] => []
  | c :: s' =>
      if Ascii.eqb c LF then [c] :: split_inclusive s'
      else match split_inclusive s' with
           | [] => [[c]]
           | l :: ls => (c :: l) :: ls
           end
  end.

(** The loop over the lines: a line without its terminator is left for later. *)
Fixpoint records_loop (offset : N) (raw_lines : list str) : list ReflogRecord :=
  match raw_lines with
  | [] => []
  | raw_line :: rest =>
      let line_end := offset + N.of_nat (length raw_line) in
      let records := records_loop line_end rest in
      if ends_with [LF] raw_line then
        match parse_record raw_line offset line_end with
        | Some entry => entry :: records
        | None => records
        end
      else records
  end.

(** The records of a log's bytes from an offset on. *)
Definition records_from (bytes : str) (start : N) : list ReflogRecord :=
  records_loop start (split_inclusive (drop (N.to_nat start) bytes)).

(** [slice.iter().rposition]. *)
Fixpoint rposition (c : ascii) (l : str) : option nat :=
  match l with
  | [] => None
  | d :: l' => match rposition c l' with Some i => Some (S i) | None => if Ascii.eqb d c then Some 0%nat else None end
  end.

Definition CHUNK : N := 8192.

(** The loop that reads a log backwards, a chunk at a time: every chunk is one
    byte at least. *)
Fixpoint backward_loop (fuel : nat) (bytes : str) (end_offset cursor : N) (suffix : str) : option ReflogRecord :=
  match fuel with
  | O => None
  | S f =>
      let chunk_start := cursor - CHUNK in
      let chunk := slice (N.to_nat chunk_start) (N.to_nat cursor) bytes in
      let search_end := if (cursor =? end_offset) && bool_decide (last chunk = Some LF) then (length chunk - 1)%nat else length chunk in
      match rposition LF (take search_end chunk) with
      | Some index => parse_record (drop (index + 1) chunk ++ suffix) (chunk_start + N.of_nat index + 1) end_offset
      | None =>
          if chunk_start =? 0 then parse_record (chunk ++ suffix) 0 end_offset
          else backward_loop f bytes end_offset chunk_start (chunk ++ suffix)
      end
  end.

(** The record that ends at an offset of a log's bytes. *)
Definition record_ending_at (bytes : str) (end_offset : N) : option ReflogRecord :=
  if bool_decide (bytes !! N.to_nat (end_offset - 1) = Some LF) then backward_loop (S (N.to_nat end_offset)) bytes end_offset end_offset []
  else None.

(** *** Keys *)

Definition common_key (reference : str) : str := lit "common:" ++ reference.

(** The log of a ref of the repository. *)
Definition common_log (common_dir : path) (reference : str) : path := join (join common_dir (lit "logs")) reference.
Definition head_log (git_dir : path) : path := join (join git_dir (lit "logs")) (lit "HEAD").

Definition reflog_reference_and_path_for_key (common_dir : path) (key : str) : option (str * path) :=
  match strip_prefix (lit "common:") key with
  | Some reference => Some (reference, common_log common_dir reference)
  | None =>
      try value := strip_prefix (lit "worktree:") key in
      try git_dir := strip_suffix (lit ":HEAD") value in
      Some (lit "HEAD", head_log git_dir)
  end.

Definition valid_non_zero_oid (value : str) : bool :=
  is_valid_git_oid value && negb (forallb (Ascii.eqb "0") value).

(** *** Logs of a repository *)

Definition BACKSLASH : ascii := ascii_of_nat 92.

(** [relative.to_string_lossy().replace('\\', "/")], when it names a ref. *)
Definition log_reference (relative : path) : list str :=
  let reference := map (λ c, if Ascii.eqb c BACKSLASH then "/"%char else c) (from_utf8_lossy relative) in
  if str_eqb reference (lit "ORIG_HEAD") || starts_with (lit "refs/") reference then [reference] else [].

(** Below a directory whose path from the root of the logs is [relative]. *)
Fixpoint discover_reflog_refs (relative : path) (current : directory) : result (list str) :=
  match current with
  | Missing => Ret []
  | NoListing e => Fail e
  | Listing entries =>
      (fix loop (es : list entry) : result (list str) :=
         match es with
         | [] => Ret []
         | e :: es' =>
             let? found := discover_entry relative e in
             let? more := loop es' in
             Ret (found ++ more)
         end) entries
  end
with discover_entry (relative : path) (e : entry) : result (list str) :=
  match e with
  | BadEntry error => Fail error
  | FileEntry name => Ret (log_reference (join relative name))
  | OtherEntry _ => Ret []
  | SubDirectory name contents => discover_reflog_refs (join relative name) contents
  end.

Section Logs.
Context `{disk : Disk} `{order : HashOrder}.

Definition IS_A_DIRECTORY : str := lit "Is a directory (os error 21)".

Definition head_key (git_dir : path) : str :=
  lit "worktree:" ++ from_utf8_lossy (default git_dir (canonicalize git_dir)) ++ lit ":HEAD".

(** A file that is opened and read, [None] when it is not found. *)
Definition read_log (p : path) : result (option str) :=
  match node_at p with
  | None => Ret None
  | Some (File bytes) => Ret (Some bytes)
  | Some (Dir _) => Fail IS_A_DIRECTORY
  | Some (Locked _ e) | Some (NoMetadata e) => Fail e
  end.

Definition read_reflog_records (p : path) (start_offset : option N) : result (list ReflogRecord) :=
  let? contents := read_log p in
  match contents with
  | None => Ret []
  | Some bytes =>
      let byte_len := N.of_nat (length bytes) in
      let start := match start_offset with
                   | Some offset => if byte_len <? offset then 0 else offset
                   | None => 0
                   end in
      Ret (records_from bytes start)
  end.

Definition entry_of_record (key : str) (p : path) (reference : str) (r : ReflogRecord) : CursorEntry :=
  mkEntry key p reference (record_old r) (record_new r) (record_message r) (record_timestamp r) (record_start r) (record_end r).

Definition read_reflog_entries_including_noops (key : str) (p : path) (reference : str) (start_offset : option N) : result (list CursorEntry) :=
  let? records := read_reflog_records p start_offset in
  Ret (map (entry_of_record key p reference) records).

Definition read_reflog_entries (key : str) (p : path) (reference : str) (start_offset : option N) : result (list CursorEntry) :=
  let? records := read_reflog_records p start_offset in
  Ret (map (entry_of_record key p reference) (List.filter (λ r, negb (str_eqb (record_old r) (record_new r))) records)).

Definition read_reflog_record_ending_at (p : path) (end_offset : N) : result (option ReflogRecord) :=
  if end_offset =? 0 then Ret None
  else
    match node_at p with
    | None => Ret None
    | Some (Locked _ e) | Some (NoMetadata e) => Fail e
    | Some (Dir byte_len) => if byte_len <? end_offset then Ret None else Fail IS_A_DIRECTORY
    | Some (File bytes) =>
        if N.of_nat (length bytes) <? end_offset then Ret None else Ret (record_ending_at bytes end_offset)
    end.

(** The loop over the offsets: a map of the refs found. *)
Fixpoint start_refs_loop (common_dir : path) (offsets : list (str * N)) (refs : gmap str str) : result (gmap str str) :=
  match offsets with
  | [] => Ret refs
  | (key, offset) :: rest =>
      if offset =? 0 then start_refs_loop common_dir rest refs
      else
        match reflog_reference_and_path_for_key common_dir key with
        | None => start_refs_loop common_dir rest refs
        | Some (reference, p) =>
            let? found := read_reflog_record_ending_at p offset in
            match found with
            | None => start_refs_loop common_dir rest refs
            | Some record =>
                start_refs_loop common_dir rest
                  (if valid_non_zero_oid (record_new record) then <[reference := record_new record]> refs else refs)
            end
        end
  end.

Definition refs_at_reflog_start_offsets (family : str) (offsets : gmap str N) : result (gmap str str) :=
  start_refs_loop family (hash_iter offsets) ∅.

(** A length, when there is one. *)
Definition note_length (key : str) (p : path) (offsets : gmap str N) : gmap str N :=
  match metadata_len p with
  | Ret (Some len) => <[key := len]> offsets
  | _ => offsets
  end.

Definition capture_reflog_start_offsets_for_worktree (worktree : path) : gmap str N :=
  let offsets := match git_dir_for_worktree worktree with
                 | Some git_dir => note_length (head_key git_dir) (head_log git_dir) ∅
                 | None => ∅
                 end in
  match common_dir_for_worktree worktree with
  | None => offsets
  | Some common_dir =>
      let logs := join common_dir (lit "logs") in
      match discover_reflog_refs [] (directory_at logs) with
      | Ret refs =>
          foldl (λ m reference, if str_eqb reference (lit "HEAD") then m else note_length (common_key reference) (join logs reference) m)
            offsets refs
      | _ => offsets
      end
  end.
End Logs.

End Reflog.

(** ** Reference: the lines git writes *)

Module ReflogRef.
Import Reflog FastReaderRef.
Import DiffTree(is_valid_git_oid).

(** What git knows of a move of a ref. *)
Record Written := mkWritten {
  old_oid : str;
  new_oid : str;
  committer : str;
  seconds : str;
  timezone : str;
  message : str
}.

Definition reflog_text (w : Written) : str :=
  old_oid w ++ " "%char :: new_oid w ++ " "%char :: committer w ++ " "%char :: seconds w ++ " "%char :: timezone w
  ++ (if bool_decide (message w = []) then [] else TAB :: message w).

Definition reflog_line (w : Written) : str := reflog_text w ++ [LF].

Definition clean_written (w : Written) : Prop :=
  is_valid_git_oid (old_oid w) = true ∧ is_valid_git_oid (new_oid w) = true ∧
  is_utf8 (committer w) = true ∧ TAB ∉ committer w ∧ LF ∉ committer w ∧
  word (seconds w) ∧ word (timezone w) ∧ LF ∉ message w ∧ last (message w) ≠ Some CR ∧
  PatchText.valid_utf8 (reflog_line w) = true.

Definition written_record (w : Written) (start_offset : N) : ReflogRecord :=
  mkRecord (old_oid w) (new_oid w) (message w) (parse_i64 (seconds w)) start_offset (start_offset + N.of_nat (length (reflog_line w))).

(** A log, and its records from an offset on. *)
Definition log_text (ws : list Written) : str := flat_map reflog_line ws.

Fixpoint written_records (offset : N) (ws : list Written) : list ReflogRecord :=
  match ws with
  | [] => []
  | w :: ws' => written_record w offset :: written_records (offset + N.of_nat (length (reflog_line w))) ws'
  end.

(** A text made of whole lines. *)
Definition whole_lines (s : str) : Prop := s = [] ∨ last s = Some LF.

End ReflogRef.

(** ** Lemmas *)

Module ReflogFacts.
Import Paths Files Reflog ReflogRef FastReaderRef FastReaderFacts.
Import DiffTree(is_valid_git_oid).
Import CliParser(trim_end_chars).

(** *** Lines *)

Lemma concat_split_inclusive s : concat (split_inclusive s) = s.
Proof.
  induction s as [|c s IH]; [done|]. cbn [split_inclusive]. destruct (Ascii.eqb c LF); cbn [concat app]; [by rewrite IH|].
  destruct (split_inclusive s) as [|l ls]; simpl in *; by rewrite <-IH.
Qed.

Lemma split_inclusive_line line rest : LF ∉ line → split_inclusive (line ++ LF :: rest) = (line ++ [LF]) :: split_inclusive rest.
Proof.
  induction line as [|c line IH]; intros H; cbn [app split_inclusive]; [done|].
  apply not_elem_of_cons in H as [Hc H]. destruct (Ascii.eqb c LF) eqn:E; [by apply Ascii.eqb_eq in E|].
  by rewrite IH.
Qed.

Lemma split_inclusive_last line : LF ∉ line → line ≠ [] → split_inclusive line = [line].
Proof.
  induction line as [|c line IH]; intros H Hne; [done|]. apply not_elem_of_cons in H as [Hc H]. cbn [split_inclusive].
  destruct (Ascii.eqb c LF) eqn:E; [by apply Ascii.eqb_eq in E|]. destruct line as [|d line]; [done|]. by rewrite IH.
Qed.

(** The lines of a text made of whole lines, then those of what follows. *)
Lemma whole_lines_ind (P : str → Prop) :
  P [] → (∀ line s, LF ∉ line → whole_lines s → P s → P (line ++ LF :: s)) → ∀ s, whole_lines s → P s.
Proof.
  intros Hnil Hline s. remember (length s) as n eqn:Hn. revert s Hn. induction (lt_wf n) as [n _ IH]. intros s -> [->|Hs]; [done|].
  assert (LF ∈ s) as Hin by by apply last_Some_elem_of in Hs.
  destruct (first_line s Hin) as (l & r & -> & Hl).
  assert (whole_lines r) as Hr.
  { destruct r as [|c r] using rev_ind; [by left|right].
    change (l ++ LF :: r ++ [c]) with (l ++ ([LF] ++ r) ++ [c]) in Hs. rewrite app_assoc, last_snoc in Hs. by rewrite last_snoc. }
  apply Hline; [done..|]. eapply IH; [|reflexivity|done]. rewrite length_app. simpl. lia.
Qed.

Lemma split_inclusive_app a b : whole_lines a → split_inclusive (a ++ b) = split_inclusive a ++ split_inclusive b.
Proof.
  intros Ha. revert a Ha. apply whole_lines_ind; [done|]. intros line s Hl _ IH. rewrite <-app_assoc. cbn [app].
  by rewrite !split_inclusive_line, IH.
Qed.

Lemma whole_lines_app a b : whole_lines a → whole_lines b → whole_lines (a ++ b).
Proof. intros Ha [->|Hb]; [by rewrite app_nil_r|]. right. by rewrite last_app, Hb. Qed.

(** *** Records *)

Lemma records_loop_app offset a b :
  records_loop offset (a ++ b) = records_loop offset a ++ records_loop (offset + N.of_nat (length (concat a))) b.
Proof.
  revert offset. induction a as [|l a IH]; intros offset; cbn [app concat]; [by rewrite N.add_0_r|]. cbn [records_loop].
  rewrite IH, length_app. replace (offset + N.of_nat (length l) + N.of_nat (length (concat a))) with (offset + N.of_nat (length l + length (concat a))) by lia.
  destruct (ends_with [LF] l); [|done]. by destruct (parse_record _ _ _).
Qed.

Lemma parse_record_offsets raw a b r : parse_record raw a b = Some r → record_start r = a ∧ record_end r = b ∧ a < b.
Proof.
  unfold parse_record, parse_reflog_line. destruct (default _ _) as [head message].
  destruct (split_whitespace head) as [|old [|new ws]]; [done..|]. destruct (_ || _); [done|]. cbn [record_end].
  destruct (a <? b) eqn:E; [|done]. intros [= <-]. cbn. repeat split. by apply N.ltb_lt.
Qed.

(** Where the records of whole lines lie. *)
Lemma records_loop_bounds offset raws r :
  r ∈ records_loop offset raws →
  offset ≤ record_start r ∧ record_start r < record_end r ∧ record_end r ≤ offset + N.of_nat (length (concat raws)) ∧
  concat raws !! N.to_nat (record_end r - offset - 1) = Some LF.
Proof.
  revert offset. induction raws as [|l raws IH]; intros offset; cbn [records_loop concat]; [by intros ?%elem_of_nil|].
  set (tail := records_loop _ raws). assert (r ∈ tail → offset ≤ record_start r ∧ record_start r < record_end r ∧
    record_end r ≤ offset + N.of_nat (length (l ++ concat raws)) ∧ (l ++ concat raws) !! N.to_nat (record_end r - offset - 1) = Some LF) as Htail.
  { intros (H1 & H2 & H3 & H4)%IH. rewrite length_app. repeat split; try lia.
    rewrite lookup_app_r by lia. replace (N.to_nat (record_end r - offset - 1) - length l)%nat with (N.to_nat (record_end r - (offset + N.of_nat (length l)) - 1)) by lia. done. }
  destruct (ends_with [LF] l) eqn:El; [|done]. destruct (parse_record l offset _) as [e|] eqn:Ep; [|done].
  intros [->|H]%elem_of_cons; [|by apply Htail]. apply parse_record_offsets in Ep as (-> & -> & Hlt).
  rewrite length_app. repeat split; try lia.
  unfold ends_with in El. apply starts_with_spec in El as [t Ht]. assert (l = rev t ++ [LF]) as ->.
  { by rewrite <-(rev_involutive l), Ht. }
  rewrite length_app. simpl. rewrite <-app_assoc. rewrite lookup_app_r by lia.
  replace (N.to_nat _ - length (rev t))%nat with 0%nat by lia. done.
Qed.

Lemma records_from_0 bytes : records_from bytes 0 = records_loop 0 (split_inclusive bytes).
Proof. done. Qed.

(** The records of a log up to an offset between two lines, then those from it on. *)
Lemma records_from_split bytes offset :
  offset ≤ N.of_nat (length bytes) → whole_lines (take (N.to_nat offset) bytes) →
  records_from bytes 0 = records_from (take (N.to_nat offset) bytes) 0 ++ records_from bytes offset.
Proof.
  intros Ho Hw. rewrite records_from_0. rewrite <-(take_drop (N.to_nat offset) bytes) at 1.
  rewrite split_inclusive_app by done. rewrite records_loop_app, concat_split_inclusive, length_take.
  unfold records_from. cbn [N.to_nat drop]. do 2 f_equal. lia.
Qed.

Lemma records_from_line a line rest :
  whole_lines a → LF ∉ line →
  records_from (a ++ line ++ LF :: rest) 0 =
  records_from a 0 ++
  option_list (parse_record (line ++ [LF]) (N.of_nat (length a)) (N.of_nat (length a + length line + 1))) ++
  records_loop (N.of_nat (length a + length line + 1)) (split_inclusive rest).
Proof.
  intros Ha Hl. rewrite !records_from_0, split_inclusive_app by done. rewrite records_loop_app, concat_split_inclusive.
  f_equal. rewrite split_inclusive_line by done. cbn [records_loop]. rewrite N.add_0_l, length_app. cbn [length].
  replace (N.of_nat (length a) + N.of_nat (length line + 1)) with (N.of_nat (length a + length line + 1)) by lia.
  assert (ends_with [LF] (line ++ [LF]) = true) as ->.
  { unfold ends_with. rewrite rev_app_distr. cbn [rev app]. apply starts_with_spec. by exists (rev line). }
  by destruct (parse_record _ _ _).
Qed.

(** *** Reading backwards *)

Lemma rposition_none c l : c ∉ l → rposition c l = None.
Proof.
  induction l as [|d l IH]; [done|]. intros [Hd H]%not_elem_of_cons. cbn [rposition]. rewrite IH by done.
  destruct (Ascii.eqb d c) eqn:E; [by apply Ascii.eqb_eq in E|done].
Qed.

Lemma rposition_app c a b : c ∉ b → rposition c (a ++ c :: b) = Some (length a).
Proof.
  intros Hb. induction a as [|d a IH]; cbn [app rposition length].
  - by rewrite rposition_none, Ascii.eqb_refl.
  - by rewrite IH.
Qed.

Lemma take_slice {A} a b m (l : list A) : (a ≤ m ≤ b)%nat → take (m - a) (slice a b l) = slice a m l.
Proof. intros H. unfold slice. rewrite take_take. f_equal. lia. Qed.

Lemma drop_slice {A} a b m (l : list A) : (a ≤ m ≤ b)%nat → drop (m - a) (slice a b l) = slice m b l.
Proof.
  intros H. unfold slice. rewrite skipn_firstn_comm, drop_drop. f_equal; [lia|]. f_equal. lia.
Qed.

Section Backward.
Variables (a line rest : str).
Let bytes := a ++ line ++ LF :: rest.
Let e := (length a + length line + 1)%nat.
Hypothesis Ha : whole_lines a.
Hypothesis Hline : LF ∉ line.

Lemma slice_line c m : (length a ≤ c)%nat → (m ≤ e - 1)%nat → LF ∉ slice c m bytes.
Proof.
  intros Hc Hm Hin. apply list_elem_of_lookup in Hin as [i Hi].
  assert (i < m - c)%nat as Hlt.
  { apply lookup_lt_Some in Hi. unfold slice in Hi. rewrite length_take in Hi. lia. }
  rewrite lookup_slice in Hi by done. subst bytes e. rewrite lookup_app_r in Hi by lia. rewrite lookup_app_l in Hi by lia.
  by apply list_elem_of_lookup_2 in Hi.
Qed.

Lemma slice_whole : slice (length a) e bytes = line ++ [LF].
Proof.
  unfold slice. subst bytes e. rewrite drop_app_length. replace (length a + length line + 1 - length a)%nat with (length (line ++ [LF])) by (rewrite length_app; simpl; lia).
  change (line ++ LF :: rest) with (line ++ [LF] ++ rest). rewrite app_assoc. apply take_app_length.
Qed.

Lemma bytes_long : (e ≤ length bytes)%nat.
Proof. subst bytes e. rewrite !length_app. simpl. lia. Qed.

(** The bytes from [c], in [a], up to [m], in the line: they hold the last
    terminator of [a]. *)
Lemma rposition_before c m : (c < length a)%nat → (length a ≤ m ≤ e - 1)%nat → rposition LF (slice c m bytes) = Some (length a - 1 - c)%nat.
Proof.
  intros Hc Hm. rewrite <-(slice_app c (length a) m) by lia.
  destruct Ha as [Hnil|Hl]; [rewrite Hnil in Hc; simpl in Hc; lia|]. apply last_Some in Hl as [t Ht].
  assert (length a = (length t + 1)%nat) as Hlen by by rewrite Ht, length_app.
  assert (slice c (length a) bytes = drop c t ++ [LF]) as ->.
  { unfold slice. subst bytes. rewrite Hlen, Ht, <-app_assoc. rewrite drop_app_le by lia. rewrite firstn_app.
    rewrite take_ge by (rewrite length_drop; lia). f_equal. rewrite length_drop.
    replace (length t + 1 - c - (length t - c))%nat with 1%nat by lia. done. }
  rewrite <-app_assoc. cbn [app]. rewrite rposition_app; [|apply slice_line; lia]. rewrite length_drop. f_equal. lia.
Qed.

Lemma backward_loop_spec f c :
  (length a ≤ c ≤ e)%nat → (0 < c)%nat → (c < f)%nat →
  backward_loop f bytes (N.of_nat e) (N.of_nat c) (slice c e bytes) =
  parse_record (line ++ [LF]) (N.of_nat (length a)) (N.of_nat e).
Proof.
  revert c. induction f as [|f IH]; intros c Hc Hpos Hf; [lia|]. cbn [backward_loop].
  remember (N.to_nat (N.of_nat c - CHUNK)) as cs eqn:Hcs. assert (cs < c)%nat as Hcsc by (unfold CHUNK in Hcs; lia).
  assert (N.of_nat c - CHUNK = N.of_nat cs) as -> by (by rewrite Hcs, N2Nat.id). clear Hcs.
  rewrite !Nat2N.id. pose proof bytes_long as Hlong.
  set (chunk := slice cs c bytes). assert (length chunk = (c - cs)%nat) as Hchunk by (apply length_slice; lia).
  set (m := Nat.min c (e - 1)).
  assert (take (if (N.of_nat c =? N.of_nat e)%N && bool_decide (last chunk = Some LF) then length chunk - 1 else length chunk)%nat chunk
    = slice cs m bytes) as ->.
  { destruct (N.eqb_spec (N.of_nat c) (N.of_nat e)) as [Heq|Hne]; cbn [andb].
    - assert (c = e) as He by lia. rewrite bool_decide_eq_true_2.
      + rewrite Hchunk. replace (c - cs - 1)%nat with (m - cs)%nat by lia. apply take_slice. lia.
      + rewrite last_lookup, Hchunk. subst chunk. replace (Nat.pred (c - cs)) with (c - cs - 1)%nat by lia. rewrite lookup_slice by lia.
        subst bytes e. rewrite lookup_app_r by lia. rewrite lookup_app_r by lia.
        replace (cs + (c - cs - 1) - length a - length line)%nat with 0%nat by lia. done.
    - replace (length chunk) with (m - cs)%nat by lia. apply take_slice. lia. }
  destruct (decide (cs < length a)%nat) as [Hlt|Hge].
  - rewrite rposition_before by lia.
    assert (drop (length a - 1 - cs + 1) chunk ++ slice c e bytes = line ++ [LF]) as ->.
    { replace (length a - 1 - cs + 1)%nat with (length a - cs)%nat by lia. subst chunk. rewrite drop_slice by lia.
      rewrite slice_app by lia. apply slice_whole. }
    f_equal. lia.
  - rewrite rposition_none by (apply slice_line; lia). subst chunk. rewrite slice_app by lia.
    destruct (N.eqb_spec (N.of_nat cs) 0) as [Hz|Hnz].
    + assert (length a = 0%nat) as Hl by lia. rewrite <-slice_whole. rewrite Hl. by replace cs with 0%nat by lia.
    + apply IH; lia.
Qed.
End Backward.

(** An offset right after a terminator ends a line. *)
Lemma line_before bytes k :
  bytes !! k = Some LF → ∃ a line rest, bytes = a ++ line ++ LF :: rest ∧ whole_lines a ∧ LF ∉ line ∧ k = (length a + length line)%nat.
Proof.
  intros Hk. rewrite <-(take_drop_middle bytes k LF Hk). set (pre := take k bytes).
  assert (length pre = k) as Hlen by (apply length_take_le; apply lookup_lt_Some in Hk; lia).
  assert (∃ a line, pre = a ++ line ∧ whole_lines a ∧ LF ∉ line) as (a & line & Hp & Ha & Hl).
  { clear. induction pre as [|c pre (a & line & -> & Ha & Hl)] using rev_ind; [exists [], []; repeat split; [by left|by intros ?%elem_of_nil]|].
    destruct (decide (c = LF)) as [->|Hc].
    - exists ((a ++ line) ++ [LF]), []. rewrite app_nil_r. repeat split; [|by intros ?%elem_of_nil]. right. by rewrite last_snoc.
    - exists a, (line ++ [c]). rewrite app_assoc. repeat split; [done|]. rewrite elem_of_app, list_elem_of_singleton. naive_solver. }
  exists a, line, (drop (S k) bytes). rewrite Hp, <-app_assoc. repeat split; [done..|]. rewrite <-Hlen, Hp. by rewrite length_app.
Qed.

Lemma find_app {A} (p : A → bool) l k : List.find p (l ++ k) = match List.find p l with Some x => Some x | None => List.find p k end.
Proof. induction l as [|x l IH]; [done|]. simpl. by destruct (p x). Qed.

Lemma find_none_all {A} (p : A → bool) l : (∀ x, x ∈ l → p x = false) → List.find p l = None.
Proof.
  intros H. induction l as [|x l IH]; [done|]. simpl. rewrite H by by left. apply IH. intros y Hy. apply H. by right.
Qed.

(** Read backwards from an offset, the record is the one that ends there. *)
Lemma record_ending_at_spec bytes off :
  0 < off → off ≤ N.of_nat (length bytes) →
  record_ending_at bytes off = List.find (λ r, record_end r =? off) (records_from bytes 0).
Proof.
  intros Hpos Hle. unfold record_ending_at. case_bool_decide as Hk.
  - destruct (line_before bytes _ Hk) as (a & line & rest & -> & Ha & Hl & Hlen).
    set (e := (length a + length line + 1)%nat). assert (off = N.of_nat e) as -> by lia.
    rewrite Nat2N.id. pose proof (backward_loop_spec a line rest Ha Hl (S e) e) as H. fold e in H.
    rewrite slice_nil in H. rewrite H by lia. rewrite records_from_line by done. rewrite !find_app.
    rewrite (find_none_all _ (records_from a 0)).
    2: { intros r Hr. rewrite records_from_0 in Hr. apply records_loop_bounds in Hr as (_ & _ & Hr & _).
       rewrite concat_split_inclusive in Hr. apply N.eqb_neq. subst e. lia. }
    fold e. destruct (parse_record _ _ _) as [r|] eqn:Ep; cbn [option_list option_rect List.find].
    + apply parse_record_offsets in Ep as (_ & -> & _). by rewrite N.eqb_refl.
    + symmetry. apply find_none_all. intros r Hr. apply records_loop_bounds in Hr as (? & ? & _). apply N.eqb_neq. subst e. lia.
  - symmetry. apply find_none_all. intros r Hr. apply N.eqb_neq. intros He. apply Hk.
    rewrite records_from_0 in Hr. apply records_loop_bounds in Hr as (_ & _ & _ & Hr). rewrite concat_split_inclusive in Hr.
    by rewrite He, N.sub_0_r in Hr.
Qed.

(** *** What git writes *)

Lemma words_aux_app cur cs sp ds : is_whitespace sp = true → words_aux cur (cs ++ sp :: ds) = words_aux cur cs ++ words_aux [] ds.
Proof.
  intros Hs. revert cur. induction cs as [|c cs IH]; intros cur; cbn [app words_aux].
  - rewrite Hs. by destruct cur.
  - destruct (is_whitespace c); [|apply IH]. destruct cur; by rewrite IH.
Qed.

(** The words after a text and a space. *)
Lemma split_whitespace_space a b : is_utf8 a = true → split_whitespace (a ++ " "%char :: b) = split_whitespace a ++ split_whitespace b.
Proof.
  intros Ha. unfold split_whitespace. rewrite chars_app by done. change (" "%char :: b) with ([" "%char] ++ b).
  rewrite chars_char_app by done. by apply words_aux_app.
Qed.

Lemma trim_line_end (p : ascii → bool) s c : p c = true → match last s with Some d => p d = false | None => True end →
  trim_end_chars p (s ++ [c]) = s.
Proof.
  intros Hc Hs. unfold trim_end_chars. rewrite rev_app_distr. cbn [rev app drop_while]. rewrite Hc.
  destruct s as [|d s _] using rev_ind; [done|]. rewrite last_snoc in Hs. rewrite rev_app_distr. cbn [rev app drop_while]. rewrite Hs.
  cbn [rev]. by rewrite rev_involutive.
Qed.

Lemma word_last w : word w → ∃ c, last w = Some c ∧ printable c.
Proof.
  intros [Hne Hw]. destruct (last w) as [c|] eqn:E; [|by apply last_None in E]. exists c. split; [done|].
  rewrite Forall_forall in Hw. apply Hw. by apply last_Some_elem_of in E.
Qed.

Lemma word_no_space c w : word w → is_whitespace [c] = true → c ∉ w.
Proof. intros [_ Hw] Hc Hin. rewrite Forall_forall in Hw. apply Hw in Hin as [_ Hin]. congruence. Qed.

Section Line.
Variable w : Written.
Hypothesis Hw : clean_written w.

(** The fields before the message. *)
Definition fields : str :=
  old_oid w ++ " "%char :: new_oid w ++ " "%char :: committer w ++ " "%char :: seconds w ++ " "%char :: timezone w.

Lemma reflog_text_fields : reflog_text w = fields ++ (if bool_decide (message w = []) then [] else TAB :: message w).
Proof. unfold reflog_text, fields. rewrite <-!app_assoc; cbn [app]; rewrite <-!app_assoc; cbn [app]; rewrite <-!app_assoc; cbn [app]; by rewrite <-!app_assoc. Qed.

Lemma fields_no_tab : TAB ∉ fields ∧ LF ∉ fields.
Proof.
  destruct Hw as (Ho & Hn & _ & Htab & Hlf & Hs & Htz & _). apply oid_word in Ho, Hn. unfold fields.
  repeat (rewrite not_elem_of_app || rewrite not_elem_of_cons). repeat split; try done; by apply word_no_space.
Qed.

Lemma fields_words : ∃ ws, split_whitespace fields = old_oid w :: new_oid w :: ws ++ [seconds w; timezone w].
Proof.
  destruct Hw as (Ho & Hn & Hu & _ & _ & Hs & Htz & _). apply oid_word in Ho as [? ?], Hn as [? ?]. unfold fields.
  do 2 rewrite split_whitespace_word by done. rewrite split_whitespace_space by done. exists (split_whitespace (committer w)).
  destruct Hs. rewrite split_whitespace_word by done. by rewrite (split_whitespace_last (timezone w)).
Qed.

Lemma line_text_written : line_text (reflog_line w) = reflog_text w.
Proof.
  destruct Hw as (_ & _ & _ & _ & _ & _ & Htz & Hlf & Hcr & Hv). unfold line_text. rewrite PatchParseFacts.lossy_valid by done.
  unfold reflog_line. apply trim_line_end; [done|]. rewrite reflog_text_fields.
  assert (∃ p, fields = p ++ timezone w) as [p Hp].
  { exists (old_oid w ++ " "%char :: new_oid w ++ " "%char :: committer w ++ " "%char :: seconds w ++ [" "%char]).
    unfold fields. repeat (rewrite <-app_assoc; cbn [app]). done. }
  case_bool_decide as Hm.
  - rewrite app_nil_r, Hp. destruct (word_last _ Htz) as (c & Hc & _ & Hs). rewrite last_app, Hc.
    apply orb_false_iff. split; apply Ascii.eqb_neq; intros ->; by vm_compute in Hs.
  - destruct (last (message w)) as [c|] eqn:Hc; [|by apply last_None in Hc].
    assert (c ≠ LF) as Hl by (intros ->; by apply last_Some_elem_of in Hc).
    rewrite last_app, last_cons, Hc. apply orb_false_iff. split; apply Ascii.eqb_neq; congruence.
Qed.

Lemma parse_record_written offset :
  parse_record (reflog_line w) offset (offset + N.of_nat (length (reflog_line w))) = Some (written_record w offset).
Proof.
  unfold parse_record. rewrite line_text_written. unfold parse_reflog_line.
  assert (default (reflog_text w, []) (split_once [TAB] (reflog_text w)) = (fields, message w)) as ->.
  { rewrite reflog_text_fields. destruct fields_no_tab as [Ht _]. case_bool_decide as Hm.
    - rewrite app_nil_r, split_once_none by done. by rewrite Hm.
    - by rewrite split_once_first. }
  destruct fields_words as [ws ->]. destruct Hw as (Ho & Hn & _).
  destruct (trim_word _ (oid_word _ Ho)) as [-> _]. destruct (trim_word _ (oid_word _ Hn)) as [-> _]. rewrite Ho, Hn. cbn [negb orb record_end].
  assert (parse_reflog_timestamp_secs fields = parse_i64 (seconds w)) as ->.
  { unfold parse_reflog_timestamp_secs. destruct fields_words as [ws' ->]. cbn [rev]. by rewrite rev_app_distr. }
  assert (offset <? offset + N.of_nat (length (reflog_line w)) = true) as ->; [|done].
  apply N.ltb_lt. unfold reflog_line. rewrite length_app. simpl. lia.
Qed.
End Line.

Lemma reflog_text_no_lf w : clean_written w → LF ∉ reflog_text w.
Proof.
  intros Hw. rewrite reflog_text_fields, not_elem_of_app. split; [by apply fields_no_tab|].
  case_bool_decide; [by intros ?%elem_of_nil|]. rewrite not_elem_of_cons. split; [done|]. apply Hw.
Qed.

Lemma records_log offset ws partial :
  Forall clean_written ws → LF ∉ partial →
  records_loop offset (split_inclusive (log_text ws ++ partial)) = written_records offset ws.
Proof.
  intros H Hp. revert offset. induction H as [|w ws Hw _ IH]; intros offset.
  - cbn [log_text flat_map app written_records]. destruct partial as [|c partial]; [done|]. rewrite split_inclusive_last by done.
    cbn [records_loop]. destruct (ends_with [LF] (c :: partial)) eqn:E; [|done].
    unfold ends_with in E. apply starts_with_spec in E as [r Hr]. exfalso. apply Hp.
    rewrite <-(rev_involutive (c :: partial)), Hr. cbn [rev app]. rewrite elem_of_app. right. by left.
  - unfold log_text in *. cbn [flat_map written_records]. unfold reflog_line at 1. rewrite <-!app_assoc. cbn [app].
    rewrite split_inclusive_line by by apply reflog_text_no_lf. cbn [records_loop]. fold (reflog_line w).
    assert (ends_with [LF] (reflog_line w) = true) as ->.
    { unfold ends_with, reflog_line. rewrite rev_app_distr. cbn [rev app]. apply starts_with_spec. by exists (rev (reflog_text w)). }
    by rewrite parse_record_written, IH.
Qed.

Lemma whole_log ws : whole_lines (log_text ws).
Proof.
  induction ws as [|w ws IH]; [by left|]. unfold log_text. cbn [flat_map]. apply whole_lines_app; [|done].
  right. unfold reflog_line. by rewrite last_snoc.
Qed.

(** The records from an offset between two lines on. *)
Lemma records_after bytes off :
  off ≤ N.of_nat (length bytes) → whole_lines (take (N.to_nat off) bytes) →
  records_from bytes off = List.filter (λ r, off <? record_end r) (records_from bytes 0).
Proof.
  intros Ho Hw. rewrite (records_from_split bytes off Ho Hw), List.filter_app.
  rewrite filter_none.
  - cbn [app]. symmetry. apply List.forallb_filter_id. apply forallb_forall. intros r Hr%list_elem_of_In.
    apply N.ltb_lt. apply records_loop_bounds in Hr as (? & ? & _). lia.
  - intros r Hr. rewrite records_from_0 in Hr. apply N.ltb_ge. apply records_loop_bounds in Hr as (_ & _ & Hr & _).
    rewrite concat_split_inclusive, length_take in Hr. lia.
Qed.

Lemma records_loop_sorted offset raws : StronglySorted (λ r s, record_end r < record_end s) (records_loop offset raws).
Proof.
  revert offset. induction raws as [|l raws IH]; intros offset; cbn [records_loop]; [constructor|].
  destruct (ends_with [LF] l); [|apply IH]. destruct (parse_record _ _ _) as [r|] eqn:Ep; [|apply IH].
  constructor; [apply IH|]. apply Forall_forall. intros s Hs. apply records_loop_bounds in Hs as (Hs1 & Hs2 & _).
  apply parse_record_offsets in Ep as (_ & -> & _). lia.
Qed.

(** A record ends a line. *)
Lemma record_ends_line bytes r :
  r ∈ records_from bytes 0 → record_end r ≤ N.of_nat (length bytes) ∧ whole_lines (take (N.to_nat (record_end r)) bytes).
Proof.
  intros Hr. rewrite records_from_0 in Hr. apply records_loop_bounds in Hr as (_ & Hlt & Hle & Hlf).
  rewrite concat_split_inclusive in *. split; [lia|]. right. rewrite N.sub_0_r in Hlf.
  apply take_drop_middle in Hlf as Hb. set (k := N.to_nat (record_end r - 1)) in *.
  assert (N.to_nat (record_end r) = S k) as -> by lia. rewrite (take_S_r _ _ LF) by done. by rewrite last_snoc.
Qed.

Lemma length_split_inclusive s : (length (split_inclusive s) ≤ length s)%nat.
Proof.
  induction s as [|c s IH]; [done|]. cbn [split_inclusive length]. destruct (Ascii.eqb c LF); cbn [length]; [lia|].
  destruct (split_inclusive s); cbn [length] in *; lia.
Qed.

Lemma length_records offset raws : (length (records_loop offset raws) ≤ length raws)%nat.
Proof.
  revert offset. induction raws as [|l raws IH]; intros offset; [done|]. cbn [records_loop length].
  specialize (IH (offset + N.of_nat (length l))). destruct (ends_with [LF] l); [|lia]. destruct (parse_record _ _ _); cbn [length]; lia.
Qed.

(** A record is found by its end. *)
Lemma record_found bytes r : r ∈ records_from bytes 0 → record_ending_at bytes (record_end r) = Some r.
Proof.
  intros Hr. pose proof (record_ends_line bytes r Hr) as [Hle _].
  assert (0 < record_end r) as Hpos.
  { rewrite records_from_0 in Hr. apply records_loop_bounds in Hr as (_ & ? & _). lia. }
  rewrite record_ending_at_spec by done. pose proof (records_loop_sorted 0 (split_inclusive bytes)) as Hs.
  rewrite <-records_from_0 in Hs. induction Hs as [|s rs _ IH Hs]; [by apply elem_of_nil in Hr|]. cbn [List.find].
  apply elem_of_cons in Hr as [->|Hr]; [by rewrite N.eqb_refl|]. rewrite Forall_forall in Hs. specialize (Hs r Hr).
  destruct (N.eqb_spec (record_end s) (record_end r)); [lia|by apply IH].
Qed.

End ReflogFacts.

(** ** Properties *)

Module ReflogProps.
Import Paths Files Reflog ReflogRef ReflogFacts.

(** the moves git appends to a log after an offset are read from that offset
    on, in order, with the place of each; a line that is still being written is left
    for later. *)
Theorem log_read_back `{disk : Disk} p before after partial :
  node_at p = Some (File (log_text before ++ log_text after ++ partial)) →
  Forall clean_written after → LF ∉ partial →
  read_reflog_records p (Some (N.of_nat (length (log_text before)))) =
  Ret (written_records (N.of_nat (length (log_text before))) after).
Proof.
  intros Hp Ha Hpart. unfold read_reflog_records, read_log. rewrite Hp. cbn [obind].
  assert (N.of_nat (length (log_text before ++ log_text after ++ partial)) <? N.of_nat (length (log_text before)) = false) as ->.
  { apply N.ltb_ge. rewrite length_app. lia. }
  unfold records_from. rewrite Nat2N.id, drop_app_length. by rewrite records_log.
Qed.

Definition sample_move : Written :=
  mkWritten (replicate 40 "1"%char) (replicate 40 "2"%char) (lit "Ann <ann@example.com>") (lit "1700000000") (lit "+0000") (lit "commit: first").

Definition sample_log : Disk := disk_of [(lit "/r/logs/HEAD", File (reflog_line sample_move))].

Lemma log_read_back_witness :
  read_reflog_records (disk := sample_log) (lit "/r/logs/HEAD") (Some 0) = Ret (written_records 0 [sample_move]).
Proof.
  apply (log_read_back (disk := sample_log) (lit "/r/logs/HEAD") [] [sample_move] []); [vm_compute; reflexivity| |by intros ?%elem_of_nil].
  repeat constructor; try (vm_compute; reflexivity); try (rewrite <-contains_byte_false; vm_compute; reflexivity); try done;
    repeat constructor; vm_compute; reflexivity.
Defined.

(** C27: the record that ends at an offset, found by reading the log backwards a
    chunk at a time, is the one found by reading the whole log. *)
Theorem backward_read_is_forward_read `{disk : Disk} p off :
  0 < off → (∀ len, node_at p ≠ Some (Dir len)) →
  read_reflog_record_ending_at p off =
  let? records := read_reflog_records p None in
  Ret (List.find (λ r, record_end r =? off) records).
Proof.
  intros Hpos Hdir. unfold read_reflog_record_ending_at, read_reflog_records, read_log.
  destruct (N.eqb_spec off 0) as [|_]; [lia|]. destruct (node_at p) as [[bytes|len e|len|e]|] eqn:Hp; try done; [|by destruct (Hdir len)].
  cbn [obind]. destruct (N.ltb_spec (N.of_nat (length bytes)) off) as [Hlt|Hge]; [|by rewrite record_ending_at_spec].
  f_equal. symmetry. apply find_none_all. intros r Hr. rewrite records_from_0 in Hr. apply N.eqb_neq.
  apply records_loop_bounds in Hr as (_ & _ & Hr & _). rewrite concat_split_inclusive in Hr. lia.
Qed.

Lemma backward_read_is_forward_read_witness :
  0 < N.of_nat (length (reflog_line sample_move)) ∧
  read_reflog_record_ending_at (disk := sample_log) (lit "/r/logs/HEAD") (N.of_nat (length (reflog_line sample_move))) =
  Ret (Some (written_record sample_move 0)).
Proof.
  split; [by vm_compute|].
  rewrite (backward_read_is_forward_read (disk := sample_log)); [vm_compute; reflexivity|by vm_compute|by intros len; vm_compute].
Defined.

(** an offset between two lines splits the records of a log: reading from it on
    leaves out exactly those that end by then. *)
Theorem records_past_offset bytes off :
  off ≤ N.of_nat (length bytes) → whole_lines (take (N.to_nat off) bytes) →
  records_from bytes off = List.filter (λ r, off <? record_end r) (records_from bytes 0).
Proof. apply records_after. Qed.

Lemma records_past_offset_witness :
  records_from (reflog_line sample_move ++ reflog_line sample_move) (N.of_nat (length (reflog_line sample_move))) =
  [written_record sample_move (N.of_nat (length (reflog_line sample_move)))].
Proof.
  rewrite (records_past_offset (reflog_line sample_move ++ reflog_line sample_move)); [vm_compute; reflexivity|by vm_compute|].
  right. vm_compute. reflexivity.
Defined.

End ReflogProps.
