(* ===== verification/RefArgs.v ===== *)
(** * What a command says of the refs it moves

    src/src/daemon/ref_cursor.rs, the part that reads arguments: the reflog
    messages a command is expected to write, the revisions it picks, the refs
    it names.  Reflog messages are in [RefMatch]. *)

From S2P Require Import Prelude Text DiffCompute DiffTree CliParser CommandClass Domain Analyzers Reducer Reflog.

(** ** Definitions *)

Module RefArgs.
Import Domain Reflog.
Import DiffCompute(result).
Import DiffTree(is_valid_git_oid, is_hexdigit).
Import CliParser(one_of, is_option, trim_end_chars, strip_suffix, contains_char).
Import CommandClass(starts_with_any).
Import Reducer(after_word, sticky_value).
Import Analyzers(command_args, normalized_args, has_arg, keep_if).

Definition zero_oid : str := replicate 40 "0"%char.

(** *** Commit messages *)

(** [char::is_ascii_whitespace]. *)
Definition is_ascii_whitespace (c : ascii) : bool :=
  existsb (Ascii.eqb c) (map ascii_of_nat [32; 9; 10; 12; 13]).

Definition commit_subject (message : str) : option str :=
  trim_end_chars is_ascii_whitespace <$> List.find (λ line, negb (bool_decide (trim line = []))) (lines message).

Fixpoint subject_loop (args : list str) : option str :=
  match args with
  | [] => None
  | arg :: args' =>
      if one_of ["-m"; "--message"]%string arg then List.hd_error args' ≫= commit_subject
      else
        match strip_prefix (lit "--message=") arg with
        | Some value => commit_subject value
        | None =>
            match sticky_value (lit "-m") arg with
            | Some value => commit_subject value
            | None => if str_eqb arg (lit "--") then None else subject_loop args'
            end
        end
  end.

Definition commit_subject_from_args (args : list str) : option str := subject_loop (after_word "commit" args).

Definition commit_modes (amend : bool) : list str :=
  map lit (if amend then ["commit (amend):"]
           else ["commit:"; "commit (initial):"; "commit (merge):"; "commit (cherry-pick):"; "commit (revert):"])%string.

Definition commit_reflog_messages (args : list str) (amend : bool) : gset str :=
  match commit_subject_from_args args with
  | None => ∅
  | Some subject => list_to_set (map (λ mode, mode ++ lit " " ++ subject) (commit_modes amend))
  end.

(** *** Reset *)

Fixpoint reset_loop (args : list str) : option str :=
  match args with
  | [] => None
  | arg :: args' =>
      if str_eqb arg (lit "--") then None
      else if str_eqb arg (lit "--pathspec-from-file") then match args' with _ :: args'' => reset_loop args'' | [] => None end
      else if is_option arg then reset_loop args'
      else Some arg
  end.

Definition reset_target_arg (args : list str) : option str := reset_loop (after_word "reset" args).

Definition reset_reflog_messages (args : list str) : gset str :=
  match reset_target_arg args with
  | None => ∅
  | Some target => {[ lit "reset: moving to " ++ target ]}
  end.

(** *** Picked revisions *)

Definition is_sequencer_word (arg : str) : bool := one_of ["--abort"; "--continue"; "--quit"; "--skip"]%string arg.

(** The loop over the arguments, with the options that take the next word; every
    other option is skipped.  An abort or a continuation has no sources. *)
Fixpoint source_loop (value_options : list string) (args sources : list str) : list str :=
  match args with
  | [] => sources
  | arg :: args' =>
      if str_eqb arg (lit "--") then sources ++ args'
      else if is_sequencer_word arg then []
      else if one_of value_options arg then
        match args' with _ :: args'' => source_loop value_options args'' sources | [] => sources end
      else if is_option arg then source_loop value_options args' sources
      else source_loop value_options args' (if bool_decide (arg = []) then sources else sources ++ [arg])
  end.

Definition cherry_pick_source_args (args : list str) : list str :=
  source_loop ["-m"; "--mainline"; "-X"; "--strategy-option"; "--strategy"]%string (after_word "cherry-pick" args) [].

Definition revert_source_args (args : list str) : list str :=
  source_loop ["-m"; "--mainline"]%string (after_word "revert" args) [].

Definition cherry_pick_source_is_range (source : str) : bool := match split_once (lit "..") source with Some _ => true | None => false end.

Definition is_hex_oid_prefix (value : str) : bool :=
  (4 <=? length value)%nat && (length value <=? 64)%nat && forallb is_hexdigit value.

Definition resolve_ref_from_state (name : str) (refs : gmap str str) : option str :=
  if one_of ["HEAD"; "@"]%string name then keep_if valid_non_zero_oid (refs !! lit "HEAD")
  else List.hd_error (omap (λ candidate, keep_if valid_non_zero_oid (refs !! candidate))
         [name; lit "refs/heads/" ++ name; lit "refs/remotes/" ++ name; lit "refs/tags/" ++ name]).

(** At the first [~] or [^]. *)
Fixpoint split_revision_suffix (expr : str) : str * str :=
  match expr with
  | [] => ([], [])
  | c :: expr' =>
      if Ascii.eqb c "~" || Ascii.eqb c "^" then ([], expr)
      else let '(base, suffix) := split_revision_suffix expr' in (c :: base, suffix)
  end.

Definition is_concrete (expr : str) : bool := is_valid_git_oid expr || is_hex_oid_prefix expr.

Definition concretize_revision_expr (expr : str) (refs : gmap str str) : option str :=
  if bool_decide (expr = []) then refs !! lit "HEAD"
  else if is_concrete expr then Some expr
  else
    match resolve_ref_from_state expr refs with
    | Some oid => Some oid
    | None =>
        let '(base, suffix) := split_revision_suffix expr in
        if bool_decide (suffix = []) then None
        else
          try base_oid := (if bool_decide (base = []) then refs !! lit "HEAD"
                           else if is_concrete base then Some base
                           else resolve_ref_from_state base refs) in
          Some (base_oid ++ suffix)
    end.

Definition resolve_cherry_pick_source_from_state (source : str) (refs : gmap str str) : option str :=
  if cherry_pick_source_is_range source then None
  else keep_if valid_non_zero_oid (concretize_revision_expr source refs).

Fixpoint resolve_loop (refs : gmap str str) (sources out : list str) : option (list str) :=
  match sources with
  | [] => Some out
  | source :: rest =>
      try oid := resolve_cherry_pick_source_from_state source refs in
      resolve_loop refs rest (if existsb (str_eqb oid) out then out else out ++ [oid])
  end.

Definition resolve_cherry_pick_source_oids_from_sources (state : FamilyState) (sources : list str) : option (list str) :=
  resolve_loop (refs state) sources [].

(** *** Pull *)

Definition pull_reflog_action (cmd : NormalizedCommand) : str :=
  let parsed := CliParser.parse_git_cli_args (normalized_args (raw_argv cmd)) in
  let args := if bool_decide (CliParser.command parsed = Some (lit "pull")) then CliParser.command_args parsed
              else if bool_decide (invoked_command cmd = Some (lit "pull")) then invoked_args cmd
              else command_args cmd in
  join_with (lit " ") (lit "pull" :: after_word "pull" args).

Definition pull_reflog_message_prefixes (action : str) : list str :=
  if str_eqb action (lit "pull") then [lit "pull:"; lit "pull ("] else [action ++ lit ":"; action ++ lit " "].

(** *** Rebase *)

Definition rebase_command_args (cmd : NormalizedCommand) : list str := after_word "rebase" (command_args cmd).

Definition rebase_start_checkout_target_from_args (args : list str) : option str :=
  let summary := CliParser.summarize_rebase_args args in
  if CliParser.is_control_mode summary then None
  else match CliParser.onto_spec summary with
       | Some onto => Some onto
       | None => List.hd_error (CliParser.positionals summary)
       end.

Definition branch_arg_to_ref (branch : str) : str :=
  if starts_with (lit "refs/") branch then branch else lit "refs/heads/" ++ branch.

(** *** update-ref *)

Record UpdateRefSpec := mkUpdateRef { update_reference : str; update_new : str; update_old : option str }.

Inductive UpdateRefWords :=
  | FromInput
  | BadWords (error : str)
  | Words (delete : bool) (positionals : list str).

Fixpoint update_ref_loop (args : list str) (delete : bool) (positionals : list str) : UpdateRefWords :=
  match args with
  | [] => Words delete positionals
  | arg :: args' =>
      if str_eqb arg (lit "update-ref") then update_ref_loop args' delete positionals
      else if one_of ["--stdin"; "--batch-updates"]%string arg then FromInput
      else if one_of ["-d"; "--delete"]%string arg then update_ref_loop args' true positionals
      else if one_of ["-m"; "--message"]%string arg then
        match args' with
        | [] => BadWords (lit "update-ref -m requires a message argument")
        | _ :: args'' => update_ref_loop args'' delete positionals
        end
      else if one_of ["--create-reflog"; "--no-deref"]%string arg then update_ref_loop args' delete positionals
      else if starts_with (lit "--message=") arg then update_ref_loop args' delete positionals
      else if is_option arg then
        BadWords (lit "trace2 cursor does not support update-ref option '" ++ arg ++ lit "'")
      else update_ref_loop args' delete (positionals ++ [arg])
  end.

Definition parse_update_ref_spec (args : list str) : result (option UpdateRefSpec) :=
  match update_ref_loop args false [] with
  | FromInput => Ret None
  | BadWords e => Fail e
  | Words true [reference] => Ret (Some (mkUpdateRef reference zero_oid None))
  | Words true [reference; old_oid] => Ret (Some (mkUpdateRef reference zero_oid (Some old_oid)))
  | Words true _ => Fail (lit "update-ref delete requires <ref> [<old-oid>]")
  | Words false [reference; new_oid] => Ret (Some (mkUpdateRef reference new_oid None))
  | Words false [reference; new_oid; old_oid] => Ret (Some (mkUpdateRef reference new_oid (Some old_oid)))
  | Words false _ => Fail (lit "update-ref requires <ref> <new-oid> [<old-oid>]")
  end.

Definition direct_update_ref_change_from_argv (spec : UpdateRefSpec) : option RefChange :=
  try old := update_old spec in
  if negb (is_valid_git_oid old) || negb (is_valid_git_oid (update_new spec)) then None
  else Some (mkChange (update_reference spec) old (update_new spec)).

(** *** branch *)

Inductive BranchCommandSpec :=
  | CreateOrReset (reference : str)
  | Delete (references : list str)
  | Rename (old_reference : option str) (new_reference : str)
  | Copy (old_reference : option str) (new_reference : str)
  | NoBranch.

Record BranchFlags := mkBranchFlags {
  delete_flag : bool;
  remote_delete : bool;
  rename_flag : bool;
  copy_flag : bool;
  list_only : bool;
  config_only : bool
}.

Definition no_flags : BranchFlags := mkBranchFlags false false false false false false.
Definition set_delete (f : BranchFlags) := mkBranchFlags true (remote_delete f) (rename_flag f) (copy_flag f) (list_only f) (config_only f).
Definition set_rename (f : BranchFlags) := mkBranchFlags (delete_flag f) (remote_delete f) true (copy_flag f) (list_only f) (config_only f).
Definition set_copy (f : BranchFlags) := mkBranchFlags (delete_flag f) (remote_delete f) (rename_flag f) true (list_only f) (config_only f).
Definition set_remote (f : BranchFlags) := mkBranchFlags (delete_flag f) true (rename_flag f) (copy_flag f) true (config_only f).
Definition set_list (f : BranchFlags) := mkBranchFlags (delete_flag f) (remote_delete f) (rename_flag f) (copy_flag f) true (config_only f).
Definition set_config (f : BranchFlags) := mkBranchFlags (delete_flag f) (remote_delete f) (rename_flag f) (copy_flag f) (list_only f) true.

Definition short_flag (f : BranchFlags) (flag : ascii) : BranchFlags :=
  if existsb (Ascii.eqb flag) (lit "dD") then set_delete f
  else if Ascii.eqb flag "r" then set_remote f
  else if existsb (Ascii.eqb flag) (lit "mM") then set_rename f
  else if existsb (Ascii.eqb flag) (lit "cC") then set_copy f
  else if Ascii.eqb flag "a" then set_list f
  else f.

Definition apply_branch_short_options (value : str) (f : BranchFlags) : BranchFlags :=
  foldl short_flag f (trim_start_matches "-" value).

(** What follows an option with a value in the next word. *)
Definition skip_value {A : Type} (args : list A) : list A := drop 1 args.

Definition branch_short_option_value_width (value : str) : nat := if str_eqb value (lit "-u") then 2 else 1.

Fixpoint branch_words (fuel : nat) (args : list str) (f : BranchFlags) (positionals : list str) : BranchFlags * list str :=
  match fuel, args with
  | S fuel', arg :: args' =>
      let next := branch_words fuel' in
      if str_eqb arg (lit "--") then (f, positionals ++ args')
      else if one_of ["-d"; "-D"; "--delete"]%string arg then next args' (set_delete f) positionals
      else if one_of ["-m"; "-M"; "--move"]%string arg then next args' (set_rename f) positionals
      else if one_of ["-c"; "-C"; "--copy"]%string arg then next args' (set_copy f) positionals
      else if one_of ["-r"; "--remotes"]%string arg then next args' (set_remote f) positionals
      else if one_of ["-a"; "--all"; "--list"; "--show-current"; "--contains"; "--no-contains"; "--merged"; "--no-merged"]%string arg
      then next args' (set_list f) positionals
      else if one_of ["--unset-upstream"; "--edit-description"; "--set-upstream"]%string arg then next args' (set_config f) positionals
      else if one_of ["-u"; "--set-upstream-to"]%string arg then next (skip_value args') (set_config f) positionals
      else if one_of ["--points-at"; "--sort"; "--format"]%string arg then next (skip_value args') (set_list f) positionals
      else if one_of ["--color"; "--column"; "--abbrev"]%string arg then next (skip_value args') f positionals
      else if one_of ["--track"; "--no-track"; "--create-reflog"; "--no-create-reflog"; "--recurse-submodules"; "--no-color";
                      "--no-column"; "--no-abbrev"; "--quiet"; "-q"; "--verbose"; "-v"; "-vv"; "-f"; "--force"; "-l"]%string arg
      then next args' f positionals
      else if starts_with (lit "--set-upstream-to=") arg then next args' (set_config f) positionals
      else if starts_with_any ["--points-at="; "--sort="; "--format="; "--contains="; "--no-contains="; "--merged="; "--no-merged="]%string arg
      then next args' (set_list f) positionals
      else if starts_with_any ["--track="; "--color="; "--column="; "--abbrev="]%string arg then next args' f positionals
      else if starts_with (lit "--") arg then next args' f positionals
      else if is_option arg then
        next (drop (branch_short_option_value_width arg) args) (apply_branch_short_options arg f) positionals
      else next args' f (positionals ++ [arg])
  | _, _ => (f, positionals)
  end.

Definition branch_ref_name (name : str) (remote : bool) : option str :=
  let trimmed := trim name in
  if bool_decide (trimmed = []) || str_eqb trimmed (lit "--") || is_option trimmed then None
  else if starts_with (lit "refs/heads/") trimmed || starts_with (lit "refs/remotes/") trimmed then Some trimmed
  else if starts_with (lit "refs/") trimmed then None
  else if remote then Some (lit "refs/remotes/" ++ trimmed)
  else Some (lit "refs/heads/" ++ trimmed).

(** One name or two, for a rename or a copy. *)
Definition relocation (spec : option str → str → BranchCommandSpec) (positionals : list str) : BranchCommandSpec :=
  match positionals with
  | [new_name] => match branch_ref_name new_name false with Some new_reference => spec None new_reference | None => NoBranch end
  | [old_name; new_name] =>
      match branch_ref_name old_name false, branch_ref_name new_name false with
      | Some old_reference, Some new_reference => spec (Some old_reference) new_reference
      | _, _ => NoBranch
      end
  | _ => NoBranch
  end.

Definition parse_branch_command_spec (args : list str) : BranchCommandSpec :=
  let args := after_word "branch" args in
  let '(f, positionals) := branch_words (length args) args no_flags [] in
  if delete_flag f then
    match omap (λ name, branch_ref_name name (remote_delete f)) positionals with
    | [] => NoBranch
    | references => Delete references
    end
  else if rename_flag f then relocation Rename positionals
  else if copy_flag f then relocation Copy positionals
  else if config_only f || list_only f then NoBranch
  else match List.hd_error positionals ≫= (λ name, branch_ref_name name false) with
       | Some reference => CreateOrReset reference
       | None => NoBranch
       end.

(** *** checkout and stash *)

Definition checkout_is_path_checkout (cmd : NormalizedCommand) : bool :=
  let args := command_args cmd in
  has_arg "--" args
  || existsb (λ arg, starts_with (lit "--pathspec") arg || str_eqb arg (lit "--ours") || str_eqb arg (lit "--theirs")) args.

Definition stash_command_args (args : list str) : list str := after_word "stash" args.

Fixpoint stash_message_loop (args : list str) : option str :=
  match args with
  | [] => None
  | arg :: args' =>
      if one_of ["-m"; "--message"]%string arg then keep_if (λ value, negb (bool_decide (value = []))) (List.hd_error args')
      else match strip_prefix (lit "--message=") arg with
           | Some value => keep_if (λ value, negb (bool_decide (value = []))) (Some value)
           | None => stash_message_loop args'
           end
  end.

Definition stash_push_message_from_args (args : list str) (kind : str) : option str :=
  if str_eqb kind (lit "save") then
    let message := join_with (lit " ") (List.filter (λ arg, negb (is_option arg)) (drop 1 args)) in
    if bool_decide (message = []) then None else Some message
  else stash_message_loop (if str_eqb kind (lit "push") then drop 1 args else args).

(** The index of [stash@{n}]. *)
Definition stash_index (target : str) : option nat :=
  try value := strip_prefix (lit "stash@{") target in
  try digits := strip_suffix (lit "}") value in
  parse_usize digits.

Definition stash_target_index (target : option str) : option nat :=
  let target := default (lit "stash@{0}") target in
  if one_of ["stash"; "refs/stash"]%string target then Some 0 else stash_index target.

(** *** The commands the cursor follows *)

Definition command_uses_ref_cursor (primary : str) : bool :=
  one_of ["commit"; "revert"; "reset"; "checkout"; "switch"; "merge"; "cherry-pick"; "rebase"; "pull"; "branch"; "stash"; "update-ref"]%string primary.

Definition command_can_move_refs_on_nonzero (primary : option str) : bool :=
  match primary with
  | Some p => one_of ["checkout"; "switch"; "stash"; "rebase"; "pull"; "branch"; "cherry-pick"]%string p
  | None => false
  end.

Definition command_can_clamp_non_authoritative_cold_seed (cmd : NormalizedCommand) : bool :=
  bool_decide (primary_command cmd = Some (lit "cherry-pick")).

(** *** The time of a command *)

Record ReflogTimestampWindow := mkWindow { start_secs : Z; end_secs : Z }.

Definition contains (w : ReflogTimestampWindow) (timestamp : Z) : bool :=
  ((start_secs w <=? timestamp) && (timestamp <=? end_secs w))%Z.

(** [i64::try_from(value / 1_000_000_000).unwrap_or(i64::MAX)]. *)
Definition unix_nanos_to_reflog_secs (value : N) : Z := Z.min (Z.of_N (value / 1000000000)) i64_max.

Definition reflog_timestamp_window (cmd : NormalizedCommand) : ReflogTimestampWindow :=
  let start := (unix_nanos_to_reflog_secs (started_at_ns cmd) - 1)%Z in
  let stop := Z.min (unix_nanos_to_reflog_secs (finished_at_ns cmd) + 1) i64_max in
  mkWindow (Z.min start stop) (Z.max start stop).

(** *** Changes *)

Definition entry_to_ref_change (e : CursorEntry) : RefChange := mkChange (entry_reference e) (entry_old e) (entry_new e).

#[export] Instance RefChange_eq_dec : EqDecision RefChange.
Proof. solve_decision. Defined.

(** The first of every group of equal changes. *)
Fixpoint dedup_ref_changes (seen changes : list RefChange) : list RefChange :=
  match changes with
  | [] => []
  | c :: changes' => if bool_decide (c ∈ seen) then dedup_ref_changes seen changes' else c :: dedup_ref_changes (c :: seen) changes'
  end.

Definition current_worktree_branch_ref (canonicalize : PathBuf → option PathBuf) (cmd : NormalizedCommand) (state : FamilyState) : option str :=
  try w := worktree cmd in
  let canonical := default w (canonicalize w) in
  match worktrees state !! canonical with
  | Some s => branch s
  | None => worktrees state !! w ≫= branch
  end.

End RefArgs.
