(* ===== verification/RefMatch.v ===== *)
(** * Which reflog entries a command wrote

    src/src/daemon/ref_cursor.rs, the part that recognizes entries: the
    transition a command is expected to make, the messages of rebases and pulls,
    and the first entry of a run that surrounds an offset. *)

From S2P Require Import Prelude Text DiffTree CliParser Disk Reflog RefArgs.

Local Open Scope N_scope.

(** ** Definitions *)

Module RefMatch.
Import Reflog RefArgs.
Import DiffTree(is_valid_git_oid).

(** *** Messages *)

Definition message_matches (message : str) (prefixes : list str) : bool :=
  bool_decide (prefixes = []) || existsb (λ prefix, starts_with prefix message) prefixes.

(** The state between parentheses after an action. *)
Definition pull_reflog_action_state (message action : str) : option str :=
  try rest := strip_prefix action message in
  try (_, after_open) := split_once (lit "(") rest in
  try (state, _) := split_once (lit "):") after_open in
  Some state.

Definition pull_reflog_action_is (message action : str) (expected : string) : bool :=
  bool_decide (pull_reflog_action_state message action = Some (lit expected)).

Definition starts_new_command (state : option str) : bool :=
  match state with
  | Some s => CliParser.one_of ["start"; "continue"; "skip"; "abort"; "quit"; "finish"]%string s
  | None => false
  end.

Definition pull_reflog_action_starts_new_command (message action : str) : bool :=
  starts_new_command (pull_reflog_action_state message action).

Definition rebase_reflog_action (message : str) : option str := pull_reflog_action_state message (lit "rebase").
Definition rebase_reflog_action_is (message : str) (expected : string) : bool := bool_decide (rebase_reflog_action message = Some (lit expected)).
Definition rebase_reflog_action_starts_new_command (message : str) : bool := starts_new_command (rebase_reflog_action message).

Definition rebase_start_message_targets (message target : str) : bool :=
  bool_decide (strip_prefix (lit "rebase (start): checkout ") message = Some target).

Definition rebase_finish_returns_to_branch (message branch_ref : str) : bool :=
  str_eqb message (lit "rebase (finish): returning to " ++ branch_ref).

Definition rebase_finish_returned_branch (message : str) : option str := strip_prefix (lit "rebase (finish): returning to ") message.

Definition rebase_branch_finish_message_is (message branch_ref : str) : bool :=
  starts_with (lit "rebase (finish): " ++ branch_ref) message.

Definition pull_finish_returned_branch (message action : str) : option str :=
  strip_prefix (action ++ lit " (finish): returning to ") message.

Inductive BranchLifecycleKind := RenameKind | CopyKind.

Definition parse_branch_lifecycle_message (kind : BranchLifecycleKind) (message : str) : option (str * str) :=
  try rest := strip_prefix (match kind with RenameKind => lit "Branch: renamed " | CopyKind => lit "Branch: copied " end) message in
  split_once (lit " to ") rest.

Definition stash_reflog_message_matches (reflog_message stash_message : str) : bool :=
  str_eqb reflog_message stash_message
  || match CliParser.strip_suffix stash_message reflog_message with
     | Some prefix => ends_with (lit ": ") prefix
     | None => false
     end.

(** *** Transitions *)

Definition valid_ref_transition (old new : str) : bool :=
  is_valid_git_oid old && is_valid_git_oid new && negb (str_eqb old new).

Record ExpectedTransition := mkExpected { old_oids : gset str; expected_new : option str; messages : gset str }.

Definition any_transition : ExpectedTransition := mkExpected ∅ None ∅.
Definition transition (old new : str) : ExpectedTransition := mkExpected {[old]} (Some new) ∅.
Definition transition_from (old : str) : ExpectedTransition := mkExpected {[old]} None ∅.

Definition with_reflog_messages (e : ExpectedTransition) (m : gset str) : ExpectedTransition := mkExpected (old_oids e) (expected_new e) m.
Definition without_reflog_message_constraint (e : ExpectedTransition) : ExpectedTransition := mkExpected (old_oids e) (expected_new e) ∅.
Definition without_old_oid_constraint (e : ExpectedTransition) : ExpectedTransition := mkExpected ∅ (expected_new e) (messages e).

Definition new_allowed (e : ExpectedTransition) (new : str) : bool :=
  match expected_new e with Some n => str_eqb new n | None => true end.

Definition matches (e : ExpectedTransition) (entry : CursorEntry) : bool :=
  valid_ref_transition (entry_old entry) (entry_new entry)
  && (bool_decide (messages e = ∅) || bool_decide (entry_message entry ∈ messages e))
  && (bool_decide (old_oids e = ∅) || bool_decide (entry_old entry ∈ old_oids e))
  && new_allowed e (entry_new entry).

Definition matches_span_boundary (e : ExpectedTransition) (entry : CursorEntry) : bool :=
  valid_ref_transition (entry_old entry) (entry_new entry)
  && (bool_decide (messages e = ∅) || bool_decide (entry_message entry ∈ messages e))
  && (bool_decide (old_oids e = ∅) || bool_decide (entry_old entry ∈ old_oids e) || bool_decide (entry_new entry ∈ old_oids e))
  && new_allowed e (entry_new entry).

(** *** Runs of entries *)

Definition clamp_seed_to_entry_containing_offset (entries : list CursorEntry) (offset : N) (prefixes : list str) : option N :=
  if existsb (λ e, (offset <=? start_offset e) && message_matches (entry_message e) prefixes) entries then None
  else start_offset <$> List.find (λ e, (start_offset e <? offset) && (offset <=? end_offset e) && message_matches (entry_message e) prefixes) (rev entries).

(** The run of entries that ends with [entry], each moving on from the one
    before, at most [limit] of them. *)
Definition extend_run (run : list CursorEntry) (entry : CursorEntry) (limit : N) : list CursorEntry :=
  let run := match last run with
             | Some previous => if str_eqb (entry_new previous) (entry_old entry) then run else []
             | None => run
             end in
  let run := run ++ [entry] in
  drop (N.to_nat (N.of_nat (length run) - limit)) run.

Fixpoint head_span_loop (entries : list CursorEntry) (offset : N) (prefixes : list str) (expected : ExpectedTransition) (limit : N)
    (run : list CursorEntry) (latest_before_offset : option N) : option N :=
  match entries with
  | [] => latest_before_offset
  | entry :: rest =>
      if negb (message_matches (entry_message entry) prefixes) then head_span_loop rest offset prefixes expected limit [] latest_before_offset
      else
        let run := extend_run run entry limit in
        if negb (matches expected entry) then head_span_loop rest offset prefixes expected limit run latest_before_offset
        else
          match List.hd_error run with
          | None => head_span_loop rest offset prefixes expected limit run latest_before_offset
          | Some candidate =>
              if offset <=? start_offset candidate then None
              else head_span_loop rest offset prefixes expected limit run (Some (start_offset candidate))
          end
  end.

Definition head_span_start_near_offset (entries : list CursorEntry) (offset : N) (prefixes : list str) (expected : ExpectedTransition)
    (limit : N) : option N :=
  head_span_loop entries offset prefixes expected limit [] None.

(** The entries after the start of a span: whether the span reaches an offset. *)
Fixpoint span_covers_offset (starts : str → bool) (after : list CursorEntry) (offset : N) : bool :=
  match after with
  | [] => true
  | entry :: rest =>
      if offset <=? start_offset entry then true
      else if starts (entry_message entry) then offset <=? end_offset entry
      else span_covers_offset starts rest offset
  end.

Definition pull_span_covers_offset (entries : list CursorEntry) (start_idx : nat) (offset : N) (action : str) : bool :=
  span_covers_offset (λ m, pull_reflog_action_starts_new_command m action) (drop (start_idx + 1) entries) offset.

Definition rebase_span_covers_offset (entries : list CursorEntry) (start_idx : nat) (offset : N) : bool :=
  span_covers_offset rebase_reflog_action_starts_new_command (drop (start_idx + 1) entries) offset.

(** [iter().enumerate().rev()]. *)
Definition enumerate_rev (entries : list CursorEntry) : list (nat * CursorEntry) := rev (combine (seq 0 (length entries)) entries).

(** The last start of a span that begins before an offset and covers it. *)
Definition span_start_containing_offset (is_start : str → bool) (covers : nat → bool) (entries : list CursorEntry) (offset : N)
    (expected : ExpectedTransition) : option N :=
  if existsb (λ e, (offset <=? start_offset e) && is_start (entry_message e)) entries then None
  else (λ p, start_offset p.2) <$>
       List.find (λ p, (start_offset p.2 <? offset) && is_start (entry_message p.2) && matches_span_boundary expected p.2 && covers p.1)
         (enumerate_rev entries).

Definition pull_span_start_containing_offset (entries : list CursorEntry) (offset : N) (action : str) (expected : ExpectedTransition) : option N :=
  span_start_containing_offset (λ m, pull_reflog_action_is m action "start") (λ idx, pull_span_covers_offset entries idx offset action)
    entries offset expected.

Definition rebase_span_start_containing_offset (entries : list CursorEntry) (offset : N) (expected : ExpectedTransition) : option N :=
  span_start_containing_offset (λ m, rebase_reflog_action_is m "start") (λ idx, rebase_span_covers_offset entries idx offset)
    entries offset expected.

Definition latest_rebase_finish_for_branch (entries : list CursorEntry) (branch_ref : str) : option CursorEntry :=
  List.find (λ e, rebase_finish_returns_to_branch (entry_message e) branch_ref) (rev entries).

Definition rebase_start_marker_for_explicit_branch (entries : list CursorEntry) (branch_ref : str) : option CursorEntry :=
  let any_start := List.find (λ e, rebase_reflog_action_is (entry_message e) "start") (rev entries) in
  match latest_rebase_finish_for_branch entries branch_ref with
  | Some finish =>
      match List.find (λ e, (end_offset e <? end_offset finish) && rebase_reflog_action_is (entry_message e) "start") (rev entries) with
      | Some start => Some start
      | None => any_start
      end
  | None => any_start
  end.

End RefMatch.
