(* ===== verification/CursorState.v ===== *)
(** * The cursor over the reflogs: its state and how it finds entries

    src/src/daemon/ref_cursor.rs: where every log was read up to, which later
    entries were taken, and the search for the entry of a command.  The logs are
    those of one [Disk], the one the command is looked up in. *)

From S2P Require Import Prelude Text DiffCompute StateResult HashIter DiffTree CliParser Domain Analyzers Disk FastReader Reflog RefArgs RefMatch.

Local Open Scope N_scope.

(** ** Definitions *)

Module CursorState.
Export StateResult.
Import Domain HashIter Paths Files RepoState Reflog RefArgs RefMatch.
Import DiffCompute(result).
Import DiffTree(is_valid_git_oid).
Import CliParser(one_of).
Import Analyzers(command_args, has_arg).

Record RefCursor := mkCursor {
  family : FamilyKey;
  offsets : gmap str N;
  anchors : gmap str ReflogAnchor;
  consumed_offsets : gmap str (gset N);
  consumed_anchors : gmap str (gmap N ReflogAnchor);
  command_start_hints : gmap str N;
  stash_stack : list str;
  pending_cherry_pick_source_oids : list str
}.

Definition new (family_key : FamilyKey) : RefCursor := mkCursor family_key ∅ ∅ ∅ ∅ ∅ [] [].

(** *** Computations over a cursor *)

Abbreviation M := (StateResult.M RefCursor).

(** *** Parts of the state *)

Definition set_position (o : gmap str N) (a : gmap str ReflogAnchor) (co : gmap str (gset N)) (ca : gmap str (gmap N ReflogAnchor))
    (c : RefCursor) : RefCursor :=
  mkCursor (family c) o a co ca (command_start_hints c) (stash_stack c) (pending_cherry_pick_source_oids c).
Definition set_hints (h : gmap str N) (c : RefCursor) : RefCursor :=
  mkCursor (family c) (offsets c) (anchors c) (consumed_offsets c) (consumed_anchors c) h (stash_stack c) (pending_cherry_pick_source_oids c).
Definition set_stash (s : list str) (c : RefCursor) : RefCursor :=
  mkCursor (family c) (offsets c) (anchors c) (consumed_offsets c) (consumed_anchors c) (command_start_hints c) s (pending_cherry_pick_source_oids c).
Definition set_pending (p : list str) (c : RefCursor) : RefCursor :=
  mkCursor (family c) (offsets c) (anchors c) (consumed_offsets c) (consumed_anchors c) (command_start_hints c) (stash_stack c) p.

Definition clear_ref_cursor (key : str) : M unit :=
  modify (λ c, set_position (delete key (offsets c)) (delete key (anchors c)) (delete key (consumed_offsets c)) (delete key (consumed_anchors c)) c).

Definition insert_hint (key : str) (offset : N) : M unit := modify (λ c, set_hints (<[key := offset]> (command_start_hints c)) c).

(** The end of a log that was read: its anchor is the record that ends there. *)
Definition seek (key : str) (offset : N) (anchor : option ReflogAnchor) (c : RefCursor) : RefCursor :=
  set_position (<[key := offset]> (offsets c)) (match anchor with Some a => <[key := a]> (anchors c) | None => delete key (anchors c) end)
    (delete key (consumed_offsets c)) (delete key (consumed_anchors c)) c.

Definition entry_consumed (c : RefCursor) (e : CursorEntry) : bool :=
  match consumed_offsets c !! entry_key e, consumed_anchors c !! entry_key e with
  | Some taken, Some marks => bool_decide (end_offset e ∈ taken) && bool_decide (marks !! end_offset e = Some (anchor_of_entry e))
  | _, _ => false
  end.

Definition advance_cursor_to_entry (e : CursorEntry) : M unit := modify (seek (entry_key e) (end_offset e) (Some (anchor_of_entry e))).

Definition common_dir (c : RefCursor) : path := family c.

Definition reflog_path_for_key (c : RefCursor) (key : str) : option path :=
  snd <$> reflog_reference_and_path_for_key (common_dir c) key.

Definition ref_tip_at_cursor_start (c : RefCursor) (key : str) : option str :=
  Analyzers.keep_if valid_non_zero_oid (anchor_new <$> anchors c !! key).

Definition mark_consumed (e : CursorEntry) (c : RefCursor) : RefCursor :=
  set_position (offsets c) (anchors c)
    (<[entry_key e := {[end_offset e]} ∪ default ∅ (consumed_offsets c !! entry_key e)]> (consumed_offsets c))
    (<[entry_key e := <[end_offset e := anchor_of_entry e]> (default ∅ (consumed_anchors c !! entry_key e))]> (consumed_anchors c)) c.

(** The entries at the cursor that were taken: the last of them. *)
Fixpoint consumed_prefix (c : RefCursor) (entries : list CursorEntry) (last_taken : option CursorEntry) : option CursorEntry :=
  match entries with
  | [] => last_taken
  | e :: rest => if entry_consumed c e then consumed_prefix c rest (Some e) else last_taken
  end.

(** A set or a map that becomes empty is removed. *)
Definition retain_after (advanced_to : N) (taken : gset N) : option (gset N) :=
  let kept := filter (λ offset, (advanced_to < offset)%N) taken in
  if bool_decide (kept = ∅) then None else Some kept.

Definition retain_marks (advanced_to : N) (marks : gmap N ReflogAnchor) : option (gmap N ReflogAnchor) :=
  let kept := filter (λ p : N * ReflogAnchor, (advanced_to < p.1)%N) marks in
  if bool_decide (kept = ∅) then None else Some kept.

Definition compacted (key : str) (last_taken : CursorEntry) (c : RefCursor) : RefCursor :=
  set_position (<[key := end_offset last_taken]> (offsets c)) (<[key := anchor_of_entry last_taken]> (anchors c))
    (partial_alter (λ o, o ≫= retain_after (end_offset last_taken)) key (consumed_offsets c))
    (partial_alter (λ o, o ≫= retain_marks (end_offset last_taken)) key (consumed_anchors c)) c.

(** *** Stash stack *)

Definition list_remove {A : Type} (i : nat) (l : list A) : list A := take i l ++ drop (S i) l.

Fixpoint position_of (oid : str) (l : list str) : option nat :=
  match l with
  | [] => None
  | x :: l' => if str_eqb x oid then Some 0%nat else S <$> position_of oid l'
  end.

Definition remove_oid (oid : str) (l : list str) : list str :=
  match position_of oid l with Some i => list_remove i l | None => l end.

Definition remove_stash_from_stack (target_index : option nat) (target_oid : str) : M unit :=
  modify (λ c,
    let stack := stash_stack c in
    match target_index with
    | Some i => if bool_decide (stack !! i = Some target_oid) then set_stash (list_remove i stack) c else set_stash (remove_oid target_oid stack) c
    | None => set_stash (remove_oid target_oid stack) c
    end).

Definition push_stash (oid : str) (stack : list str) : list str :=
  if valid_non_zero_oid oid && negb (existsb (str_eqb oid) stack) then oid :: stack else stack.

Definition apply_stash_ref_entry (kind : str) (e : CursorEntry) : M unit :=
  if one_of ["push"; "save"]%string kind then modify (λ c, set_stash (push_stash (entry_new e) (stash_stack c)) c)
  else if one_of ["pop"; "drop"; "branch"]%string kind then
    modify (λ c, set_stash (push_stash (entry_new e) (remove_oid (entry_old e) (stash_stack c))) c)
  else ret tt.

Section Cursor.
Context `{disk : Disk} `{order : HashOrder}.
(** The names in the working-log directory of the repository of a worktree,
    when the repository is found and the directory can be read. *)
Variable working_log_names : path → option (list str).

(** *** Positions *)

Definition reflog_start_offset (key : str) (p : path) : M (option N) :=
  λ c, match offsets c !! key with
       | None => (c, Ret None)
       | Some offset =>
           if offset =? 0 then (c, Ret (Some 0))
           else
             match metadata_len p with
             | Fail e => (c, Fail e)
             | Panic => (c, Panic)
             | Ret None => ((clear_ref_cursor key c).1, Ret None)
             | Ret (Some len) =>
                 if len <? offset then ((clear_ref_cursor key c).1, Ret None)
                 else
                   match anchors c !! key with
                   | None => (c, Ret (Some offset))
                   | Some anchor =>
                       match read_reflog_record_ending_at p offset with
                       | Fail e => (c, Fail e)
                       | Panic => (c, Panic)
                       | Ret record =>
                           if bool_decide (anchor_of_record <$> record = Some anchor) then (c, Ret (Some offset))
                           else ((clear_ref_cursor key c).1, Ret None)
                       end
                   end
             end
       end.

Definition initialize_reflog_cursor (key : str) (offset : N) : M unit :=
  do! _ := modify (λ c, set_position (<[key := offset]> (offsets c)) (anchors c) (delete key (consumed_offsets c)) (delete key (consumed_anchors c)) c) in
  let without_anchor := modify (λ c, set_position (offsets c) (delete key (anchors c)) (consumed_offsets c) (consumed_anchors c) c) in
  if offset =? 0 then without_anchor
  else
    do! found := gets (λ c, reflog_path_for_key c key) in
    match found with
    | None => without_anchor
    | Some p =>
        do! record := lift (read_reflog_record_ending_at p offset) in
        match record with
        | Some r => modify (λ c, set_position (offsets c) (<[key := anchor_of_record r]> (anchors c)) (consumed_offsets c) (consumed_anchors c) c)
        | None => without_anchor
        end
    end.

Definition reflog_has_records_after_offset (c : RefCursor) (key : str) (offset : N) : result bool :=
  match reflog_path_for_key c key with
  | None => Ret false
  | Some p =>
      let? len := metadata_len p in
      match len with
      | None => Ret false
      | Some len =>
          if len <=? offset then Ret false
          else let? records := read_reflog_records p (Some offset) in Ret (negb (match records with [] => true | _ => false end))
      end
  end.

Definition command_start_offset_is_authoritative (c : RefCursor) (key : str) (offset : N) : result bool :=
  match offsets c !! key with
  | None => if starts_with (lit "common:") key then Ret true else reflog_has_records_after_offset c key offset
  | Some existing => if offset <=? existing then Ret false else reflog_has_records_after_offset c key offset
  end.

Definition compact_consumed_entries (key : str) (p : path) (reference : str) : M unit :=
  do! start := gets (λ c, offsets c !! key) in
  do! entries := lift (read_reflog_entries key p reference start) in
  modify (λ c,
    match consumed_prefix c entries None with
    | Some last_taken => if default 0 start <? end_offset last_taken then compacted key last_taken c else c
    | None => c
    end).

Definition consume_entry (e : CursorEntry) : M unit :=
  do! _ := modify (mark_consumed e) in
  compact_consumed_entries (entry_key e) (entry_path e) (entry_reference e).

(** *** Discovery and lengths *)

Definition discover_common_refs (c : RefCursor) : result (list str) :=
  let? refs := discover_reflog_refs [] (directory_at (join (common_dir c) (lit "logs"))) in
  Ret (dedup str_eqb (sort_by str_le refs)).

Definition common_ref_log_len (c : RefCursor) (reference : str) : result (option N) := metadata_len (common_log (common_dir c) reference).

Definition sync_common_ref_cursor_to_log_end_after_rewrite (reference : str) : M unit :=
  let key := common_key reference in
  do! len := query (λ c, common_ref_log_len c reference) in
  match len with
  | None => clear_ref_cursor key
  | Some len =>
      do! _ := modify (λ c, set_position (<[key := len]> (offsets c)) (anchors c) (delete key (consumed_offsets c)) (delete key (consumed_anchors c)) c) in
      do! record := query (λ c, read_reflog_record_ending_at (common_log (common_dir c) reference) len) in
      modify (λ c, set_position (offsets c) (match record with Some r => <[key := anchor_of_record r]> (anchors c) | None => delete key (anchors c) end)
                     (consumed_offsets c) (consumed_anchors c) c)
  end.

(** *** Expected transitions *)

Definition INITIAL_OID : str := replicate 40 "0"%char.

Definition working_log_base_oids (worktree : path) : gset str :=
  list_to_set (omap (λ name, if str_eqb name (lit "initial") then Some INITIAL_OID
                             else if valid_non_zero_oid name then Some name else None)
                 (default [] (working_log_names worktree))).

Definition from_state_and_working_logs (cmd : NormalizedCommand) (state : FamilyState) : ExpectedTransition :=
  let head := option_list (Analyzers.keep_if valid_non_zero_oid (refs state !! lit "HEAD")) in
  let branches := omap (λ kv : str * str, if starts_with (lit "refs/heads/") kv.1 && valid_non_zero_oid kv.2 then Some kv.2 else None)
                    (hash_iter (refs state)) in
  let bases := match worktree cmd with Some w => working_log_base_oids w | None => ∅ end in
  mkExpected (list_to_set (head ++ branches) ∪ bases) None ∅.

(** The worktree of a command, its head key and its head log. *)
Definition head_of (worktree : option path) : option (str * path) :=
  try w := worktree in
  try git_dir := git_dir_for_worktree w in
  Some (head_key git_dir, head_log git_dir).

Definition head_cursor_initialized (c : RefCursor) (worktree : option path) : bool :=
  match head_of worktree with
  | Some (key, _) => match offsets c !! key with Some _ => true | None => false end
  | None => false
  end.

Definition head_expected_transition (c : RefCursor) (cmd : NormalizedCommand) (state : FamilyState) : ExpectedTransition :=
  let expected := from_state_and_working_logs cmd state in
  if head_cursor_initialized c (worktree cmd) then without_old_oid_constraint expected else expected.

(** *** Finding an entry *)

(** The last of the candidates that start before the hint, when none starts at
    or after it. *)
Fixpoint hinted (hint : N) (candidates : list CursorEntry) (latest_before_hint : option CursorEntry) : option CursorEntry :=
  match candidates with
  | [] => latest_before_hint
  | e :: rest => if hint <=? start_offset e then Some e else hinted hint rest (Some e)
  end.

Definition select_candidate_with_hint (c : RefCursor) (key : str) (candidates : list CursorEntry) : option CursorEntry :=
  match command_start_hints c !! key with
  | None => List.hd_error candidates
  | Some hint => hinted hint candidates None
  end.

Definition candidate (c : RefCursor) (expected : ExpectedTransition) (prefixes : list str) (e : CursorEntry) : bool :=
  negb (entry_consumed c e) && matches expected e && message_matches (entry_message e) prefixes.

Definition find_entry_in_log_with_hint (key : str) (p : path) (reference : str) (expected : ExpectedTransition) (prefixes : list str)
    (use_hint : bool) : M (option CursorEntry) :=
  do! start := reflog_start_offset key p in
  do! entries := lift (read_reflog_entries key p reference start) in
  gets (λ c,
    let candidates := List.filter (candidate c expected prefixes) entries in
    if use_hint then select_candidate_with_hint c key candidates else List.hd_error candidates).

Definition find_entry_in_log (key : str) (p : path) (reference : str) (expected : ExpectedTransition) (prefixes : list str) : M (option CursorEntry) :=
  find_entry_in_log_with_hint key p reference expected prefixes true.

Definition find_head_entry (worktree : option path) (prefixes : list str) (expected : ExpectedTransition) : M (option CursorEntry) :=
  match head_of worktree with
  | None => ret None
  | Some (key, p) => find_entry_in_log key p (lit "HEAD") expected prefixes
  end.

Definition find_head_entry_without_hint (worktree : option path) (prefixes : list str) (expected : ExpectedTransition) : M (option CursorEntry) :=
  match head_of worktree with
  | None => ret None
  | Some (key, p) => find_entry_in_log_with_hint key p (lit "HEAD") expected prefixes false
  end.

Definition find_head_entry_after (worktree : option path) (start : N) (prefixes : list str) (expected : ExpectedTransition) : M (option CursorEntry) :=
  match head_of worktree with
  | None => ret None
  | Some (key, p) =>
      do! entries := lift (read_reflog_entries key p (lit "HEAD") (Some start)) in
      gets (λ c, List.find (candidate c expected prefixes) entries)
  end.

Definition find_common_ref_entry (reference : str) (expected : ExpectedTransition) (prefixes : list str) : M (option CursorEntry) :=
  do! dir := gets common_dir in
  find_entry_in_log (common_key reference) (common_log dir reference) reference expected prefixes.

Definition find_common_ref_entry_without_hint (reference : str) (expected : ExpectedTransition) (prefixes : list str) : M (option CursorEntry) :=
  do! dir := gets common_dir in
  find_entry_in_log_with_hint (common_key reference) (common_log dir reference) reference expected prefixes false.

Definition in_window (w : ReflogTimestampWindow) (e : CursorEntry) : bool :=
  match timestamp_secs e with Some t => contains w t | None => false end.

Definition find_head_entry_in_command_window (cmd : NormalizedCommand) (prefixes : list str) (expected : ExpectedTransition) : M (option CursorEntry) :=
  match head_of (worktree cmd) with
  | None => ret None
  | Some (key, p) =>
      do! start := reflog_start_offset key p in
      let command_window := reflog_timestamp_window cmd in
      do! entries := lift (read_reflog_entries key p (lit "HEAD") start) in
      gets (λ c,
        let candidates := List.filter (λ e, candidate c expected prefixes e && in_window command_window e) entries in
        match command_start_hints c !! key with
        | Some _ => select_candidate_with_hint c key candidates
        | None => match candidates with [e] => Some e | _ => None end
        end)
  end.

Definition find_commit_head_entry (cmd : NormalizedCommand) (prefixes : list str) (expected : ExpectedTransition) : M (option CursorEntry) :=
  do! found := find_head_entry (worktree cmd) prefixes expected in
  match found with
  | Some e => ret (Some e)
  | None =>
      if bool_decide (messages expected = ∅) then ret None
      else find_head_entry_in_command_window cmd prefixes (without_reflog_message_constraint expected)
  end.

(** The loop over the entries of the head log for the start of a run. *)
Fixpoint span_start_loop (c : RefCursor) (hint : option N) (prefixes : list str) (expected : ExpectedTransition) (limit : N)
    (entries run : list CursorEntry) (latest_before_hint : option CursorEntry) : option CursorEntry :=
  match entries with
  | [] => latest_before_hint
  | e :: rest =>
      if entry_consumed c e || negb (message_matches (entry_message e) prefixes)
      then span_start_loop c hint prefixes expected limit rest [] latest_before_hint
      else
        let run := extend_run run e limit in
        if negb (matches expected e) then span_start_loop c hint prefixes expected limit rest run latest_before_hint
        else
          match List.hd_error run, hint with
          | None, _ => span_start_loop c hint prefixes expected limit rest run latest_before_hint
          | Some first, None => Some first
          | Some first, Some h =>
              if h <=? start_offset first then Some first
              else span_start_loop c hint prefixes expected limit rest run (Some first)
          end
  end.

Definition find_head_span_start_entry (worktree : option path) (prefixes : list str) (expected : ExpectedTransition) (limit : N) : M (option CursorEntry) :=
  match head_of worktree with
  | None => ret None
  | Some (key, p) =>
      do! start := reflog_start_offset key p in
      do! entries := lift (read_reflog_entries key p (lit "HEAD") start) in
      gets (λ c, span_start_loop c (command_start_hints c !! key) prefixes expected limit entries [] None)
  end.

(** The first entry of the head log, from the cursor on, that was not taken and
    that a test accepts. *)
Definition find_head_start (worktree : option path) (accepts : CursorEntry → bool) : M (option CursorEntry) :=
  match head_of worktree with
  | None => ret None
  | Some (key, p) =>
      do! start := reflog_start_offset key p in
      do! entries := lift (read_reflog_entries key p (lit "HEAD") start) in
      gets (λ c, List.find (λ e, negb (entry_consumed c e) && accepts e) entries)
  end.

Definition find_pull_start_entry (cmd : NormalizedCommand) (expected : ExpectedTransition) (action : str) : M (option CursorEntry) :=
  find_head_start (worktree cmd) (λ e, pull_reflog_action_is (entry_message e) action "start" && matches_span_boundary expected e).

Definition find_rebase_start_entry (cmd : NormalizedCommand) (expected : ExpectedTransition) : M (option CursorEntry) :=
  let target := rebase_start_checkout_target_from_args (rebase_command_args cmd) in
  find_head_start (worktree cmd) (λ e,
    rebase_reflog_action_is (entry_message e) "start" && matches_span_boundary expected e
    && match target with Some t => rebase_start_message_targets (entry_message e) t | None => true end).

Definition find_stash_push_entry (stash_args : list str) (kind : str) : M (option CursorEntry) :=
  let expected_message := stash_push_message_from_args stash_args kind in
  do! dir := gets common_dir in
  let p := common_log dir (lit "refs/stash") in
  let key := common_key (lit "refs/stash") in
  do! start := reflog_start_offset key p in
  do! entries := lift (read_reflog_entries key p (lit "refs/stash") start) in
  gets (λ c, List.find (λ e, negb (entry_consumed c e)
                             && match expected_message with Some m => stash_reflog_message_matches (entry_message e) m | None => true end) entries).

(** The log of a ref given by name. *)
Definition log_of_ref (c : RefCursor) (worktree : option path) (reference : str) : option (str * path) :=
  if str_eqb reference (lit "HEAD") then head_of worktree else Some (common_key reference, common_log (common_dir c) reference).

Definition direct_ref_transition_entries (cmd : NormalizedCommand) (reference old new : str) : M (list CursorEntry) :=
  do! log := gets (λ c, log_of_ref c (worktree cmd) reference) in
  match log with
  | None => ret []
  | Some (key, p) =>
      let command_window := reflog_timestamp_window cmd in
      let matches_command (c : RefCursor) (e : CursorEntry) :=
        negb (entry_consumed c e) && str_eqb (entry_old e) old && str_eqb (entry_new e) new && in_window command_window e in
      do! start := reflog_start_offset key p in
      do! entries := lift (read_reflog_entries key p reference start) in
      do! found := gets (λ c, List.filter (matches_command c) entries) in
      match found with
      | _ :: _ => ret found
      | [] =>
          do! entries := lift (read_reflog_entries key p reference None) in
          gets (λ c, List.filter (matches_command c) entries)
      end
  end.

Definition find_direct_ref_transition_entry (cmd : NormalizedCommand) (reference old new : str) : M (option CursorEntry) :=
  do! entries := direct_ref_transition_entries cmd reference old new in
  ret (List.hd_error entries).

Definition resolve_stash_target_at_cursor (c : RefCursor) (target : option str) : result (option str) :=
  let target := default (lit "stash@{0}") target in
  if is_valid_git_oid target then Ret (Some target)
  else
    let target := if one_of ["stash"; "refs/stash"]%string target then lit "stash@{0}" else target in
    match stash_index target with
    | None => Ret None
    | Some index =>
        match stash_stack c !! index with
        | Some oid => Ret (Some oid)
        | None =>
            let key := common_key (lit "refs/stash") in
            let? entries := read_reflog_entries key (common_log (common_dir c) (lit "refs/stash")) (lit "refs/stash") (Some 0) in
            let before_cursor (e : CursorEntry) := match offsets c !! key with Some cursor => end_offset e <=? cursor | None => true end in
            Ret (rev (map entry_new (List.filter (λ e, before_cursor e && valid_non_zero_oid (entry_new e)) entries)) !! index)
        end
    end.

(** *** Branch lifecycle *)

Record BranchLifecycleRecord := mkLifecycle { lifecycle_old_reference : str; lifecycle_oid : str }.

Fixpoint lifecycle_entry (kind : BranchLifecycleKind) (reference : str) (entries : list CursorEntry) : option (CursorEntry * str) :=
  match entries with
  | [] => None
  | e :: rest =>
      match parse_branch_lifecycle_message kind (entry_message e) with
      | Some (old_reference, new_reference) =>
          if str_eqb new_reference reference then Some (e, old_reference) else lifecycle_entry kind reference rest
      | None => lifecycle_entry kind reference rest
      end
  end.

Definition consume_branch_lifecycle_record (reference : str) (kind : BranchLifecycleKind) : M (option BranchLifecycleRecord) :=
  do! dir := gets common_dir in
  let p := common_log dir reference in
  let key := common_key reference in
  do! start := reflog_start_offset key p in
  do! entries := lift (read_reflog_entries key p reference start) in
  match lifecycle_entry kind reference entries with
  | None => ret None
  | Some (e, old_reference) =>
      do! _ := consume_entry e in
      ret (Some (mkLifecycle old_reference (entry_new e)))
  end.

Definition original_head_for_explicit_rebase_branch (branch_ref : str) (finished_new : option str) : M (option str) :=
  do! dir := gets common_dir in
  let p := common_log dir branch_ref in
  let key := common_key branch_ref in
  do! start := reflog_start_offset key p in
  do! entries := lift (read_reflog_entries key p branch_ref start) in
  let finish := match finished_new with
                | Some new => List.find (λ e, str_eqb (entry_new e) new && rebase_branch_finish_message_is (entry_message e) branch_ref
                                              && valid_non_zero_oid (entry_old e)) (rev entries)
                | None => None
                end in
  match finish with
  | Some e => ret (Some (entry_old e))
  | None =>
      match entry_new <$> List.find (λ e, valid_non_zero_oid (entry_new e)) (rev entries) with
      | Some tip => ret (Some tip)
      | None => gets (λ c, ref_tip_at_cursor_start c key)
      end
  end.
End Cursor.

End CursorState.
