(* ===== verification/Enrich.v ===== *)
(** * The cursor over the reflogs: the ref changes of a command

    src/src/daemon/ref_cursor.rs: [enrich_command] and its cases, which find the
    entries a command wrote, take them and record the changes of refs they show.
    The loops that take several entries have fuel for the bytes of the log, of
    which every entry has one at least. *)

From S2P Require Import Prelude Text DiffCompute StateResult HashIter DiffTree CliParser Domain Analyzers Disk FastReader Reflog RefArgs RefMatch CursorState FamilyActor.

Local Open Scope N_scope.

(** ** Definitions *)

Module Enrich.
Import Domain HashIter Paths Files RepoState Reflog RefArgs RefMatch CursorState.
Import DiffCompute(result).
Import DiffTree(is_valid_git_oid).
Import CliParser(one_of).
Import Analyzers(command_args, has_arg).

(** *** Parts of a command *)

Definition set_cherry_pick_sources (oids : list str) (cmd : NormalizedCommand) : NormalizedCommand :=
  mkCommand (scope cmd) (family_key cmd) (worktree cmd) (root_sid cmd) (raw_argv cmd) (primary_command cmd) (invoked_command cmd)
    (invoked_args cmd) (observed_child_commands cmd) (exit_code cmd) (started_at_ns cmd) (finished_at_ns cmd)
    (reflog_start_offsets cmd) (stash_target_oid cmd) oids (revert_source_oids cmd) (ref_changes cmd) (confidence cmd).

Definition set_revert_sources (oids : list str) (cmd : NormalizedCommand) : NormalizedCommand :=
  mkCommand (scope cmd) (family_key cmd) (worktree cmd) (root_sid cmd) (raw_argv cmd) (primary_command cmd) (invoked_command cmd)
    (invoked_args cmd) (observed_child_commands cmd) (exit_code cmd) (started_at_ns cmd) (finished_at_ns cmd)
    (reflog_start_offsets cmd) (stash_target_oid cmd) (cherry_pick_source_oids cmd) oids (ref_changes cmd) (confidence cmd).

Definition set_stash_target (oid : option str) (cmd : NormalizedCommand) : NormalizedCommand :=
  mkCommand (scope cmd) (family_key cmd) (worktree cmd) (root_sid cmd) (raw_argv cmd) (primary_command cmd) (invoked_command cmd)
    (invoked_args cmd) (observed_child_commands cmd) (exit_code cmd) (started_at_ns cmd) (finished_at_ns cmd)
    (reflog_start_offsets cmd) oid (cherry_pick_source_oids cmd) (revert_source_oids cmd) (ref_changes cmd) (confidence cmd).

Definition set_confidence (level : Confidence) (cmd : NormalizedCommand) : NormalizedCommand :=
  mkCommand (scope cmd) (family_key cmd) (worktree cmd) (root_sid cmd) (raw_argv cmd) (primary_command cmd) (invoked_command cmd)
    (invoked_args cmd) (observed_child_commands cmd) (exit_code cmd) (started_at_ns cmd) (finished_at_ns cmd)
    (reflog_start_offsets cmd) (stash_target_oid cmd) (cherry_pick_source_oids cmd) (revert_source_oids cmd) (ref_changes cmd) level.

Definition add_change (change : RefChange) (cmd : NormalizedCommand) : NormalizedCommand := with_ref_changes cmd (ref_changes cmd ++ [change]).

Definition failed (cmd : NormalizedCommand) : bool := negb (exit_code cmd =? 0)%Z.

Definition CHERRY_PICK_REFLOG_PREFIXES : list str := map lit ["cherry-pick:"; "commit (cherry-pick):"]%string.

Definition commit_prefixes (amend : bool) : list str :=
  map lit (if amend then ["commit (amend):"] else ["commit"; "commit (initial):"])%string.

Definition no_commit (args : list str) : bool := has_arg "--no-commit" args || has_arg "-n" args.
Definition gives_up (args : list str) : bool := has_arg "--abort" args || has_arg "--quit" args.

(** [usize::MAX] as a limit. *)
Definition no_limit : N := 18446744073709551615.

(** At least one. *)
Definition at_least_one {A : Type} (l : list A) : N := N.max (N.of_nat (length l)) 1.

(** *** Seeds of a cold cursor *)

Inductive ColdSeedMatchSpec :=
  | SingleEntry (expected : ExpectedTransition) (prefixes : list str)
  | HeadSpan (expected : ExpectedTransition) (prefixes : list str) (limit : N)
  | PullSpan (action : str) (expected : ExpectedTransition)
  | RebaseSpan (expected : ExpectedTransition).

Definition cold_seed_match_spec (c : RefCursor) (cmd : NormalizedCommand) : option ColdSeedMatchSpec :=
  let args := command_args cmd in
  try primary := primary_command cmd in
  if str_eqb primary (lit "commit") then
    let amend := has_arg "--amend" args in
    Some (SingleEntry (with_reflog_messages any_transition (commit_reflog_messages args amend)) (commit_prefixes amend))
  else if str_eqb primary (lit "pull") then Some (PullSpan (pull_reflog_action cmd) any_transition)
  else if str_eqb primary (lit "rebase") then Some (RebaseSpan any_transition)
  else if str_eqb primary (lit "cherry-pick") then
    if gives_up args || no_commit args then None
    else
      let source_args := cherry_pick_source_args args in
      let limit := if existsb cherry_pick_source_is_range source_args then no_limit
                   else match source_args with
                        | [] => at_least_one (pending_cherry_pick_source_oids c)
                        | _ => at_least_one source_args
                        end in
      Some (HeadSpan any_transition CHERRY_PICK_REFLOG_PREFIXES limit)
  else None.

Definition key_reference (key : str) : str := default (lit "HEAD") (strip_prefix (lit "common:") key).

Definition least (l : list N) : option N := match l with [] => None | x :: l' => Some (foldl N.min x l') end.

Section Seeds.
Context `{disk : Disk}.

Definition clamp_seed_to_pull_span_entry (key : str) (p : path) (offset : N) (action : str) (expected : ExpectedTransition) : result N :=
  let? entries := read_reflog_entries_including_noops key p (key_reference key) None in
  Ret (default offset
    (if starts_with (lit "common:") key then clamp_seed_to_entry_containing_offset entries offset (pull_reflog_message_prefixes action)
     else pull_span_start_containing_offset entries offset action expected)).

Definition clamp_seed_to_rebase_span_entry (key : str) (p : path) (offset : N) (expected : ExpectedTransition) : result N :=
  let? entries := read_reflog_entries_including_noops key p (key_reference key) None in
  Ret (default offset
    (if starts_with (lit "common:") key then clamp_seed_to_entry_containing_offset entries offset [lit "rebase"]
     else rebase_span_start_containing_offset entries offset expected)).

Definition clamp_seed_to_own_entry (c : RefCursor) (key : str) (offset : N) (cmd : NormalizedCommand) : result N :=
  if offset =? 0 then Ret 0
  else
    match reflog_path_for_key c key, cold_seed_match_spec c cmd with
    | Some p, Some (SingleEntry expected prefixes) =>
        let? entries := read_reflog_entries key p (key_reference key) None in
        let own := List.filter (λ e, (start_offset e <? offset) && matches expected e && message_matches (entry_message e) prefixes) entries in
        Ret (default offset (least (map start_offset own)))
    | Some p, Some (HeadSpan expected prefixes limit) =>
        if limit =? 0 then Ret offset
        else
          let? entries := read_reflog_entries key p (key_reference key) None in
          Ret (default offset (head_span_start_near_offset entries offset prefixes expected limit))
    | Some p, Some (PullSpan action expected) => clamp_seed_to_pull_span_entry key p offset action expected
    | Some p, Some (RebaseSpan expected) => clamp_seed_to_rebase_span_entry key p offset expected
    | _, _ => Ret offset
    end.

(** One offset captured at the start of a command. *)
Definition initialize_key (cmd : NormalizedCommand) (key : str) (offset : N) : M unit :=
  do! known := gets (λ c, offsets c !! key) in
  match known with
  | Some _ => insert_hint key offset
  | None =>
      do! authoritative := query (λ c, command_start_offset_is_authoritative c key offset) in
      if authoritative then
        do! seed := query (λ c, clamp_seed_to_own_entry c key offset cmd) in
        do! _ := if seed =? offset then ret tt else insert_hint key offset in
        initialize_reflog_cursor key seed
      else if command_can_clamp_non_authoritative_cold_seed cmd then
        do! seed := query (λ c, clamp_seed_to_own_entry c key offset cmd) in
        if seed =? offset then ret tt
        else
          do! _ := insert_hint key offset in
          initialize_reflog_cursor key seed
      else ret tt
  end.

Fixpoint initialize_keys (cmd : NormalizedCommand) (keys : list (str * N)) : M unit :=
  match keys with
  | [] => ret tt
  | (key, offset) :: rest =>
      do! _ := initialize_key cmd key offset in
      initialize_keys cmd rest
  end.
End Seeds.

Section Enrich.
Context `{disk : Disk} `{order : HashOrder}.
Variable working_log_names : path → option (list str).

Definition initialize_from_command_reflog_start_offsets (cmd : NormalizedCommand) : M unit :=
  do! _ := modify (set_hints ∅) in
  initialize_keys cmd (hash_iter (reflog_start_offsets cmd)).

(** *** Taking entries *)

Definition take_entry (e : CursorEntry) (changes : list RefChange) : M (list RefChange) :=
  do! _ := consume_entry e in
  ret (changes ++ [entry_to_ref_change e]).

Definition take_found (found : option CursorEntry) (changes : list RefChange) : M (list RefChange) :=
  match found with Some e => take_entry e changes | None => ret changes end.

(** [while let Some(entry) = find() { take }]. *)
Fixpoint drain (fuel : nat) (find : M (option CursorEntry)) (changes : list RefChange) : M (list RefChange) :=
  match fuel with
  | O => ret changes
  | S f =>
      do! found := find in
      match found with
      | None => ret changes
      | Some e =>
          do! changes := take_entry e changes in
          drain f find changes
      end
  end.

(** The bytes of a log. *)
Definition log_size (p : path) : nat := match node_at p with Some (File bytes) => length bytes | _ => 0 end.
Definition head_log_size (w : option path) : nat := match head_of w with Some (_, p) => log_size p | None => 0 end.

Fixpoint matching_refs_loop (old new : str) (refs : list str) (out : list RefChange) : M (list RefChange) :=
  match refs with
  | [] => ret out
  | reference :: rest =>
      if one_of ["HEAD"; "ORIG_HEAD"; "refs/stash"]%string reference then matching_refs_loop old new rest out
      else
        do! found := find_common_ref_entry reference (transition old new) [] in
        do! out := take_found found out in
        matching_refs_loop old new rest out
  end.

Definition consume_common_refs_matching_transition (old new : str) (out : list RefChange) : M (list RefChange) :=
  do! refs := query discover_common_refs in
  matching_refs_loop old new refs out.

Definition finish_changes (cmd : NormalizedCommand) (changes : list RefChange) : M NormalizedCommand :=
  ret (with_ref_changes cmd (dedup_ref_changes [] changes)).

Definition consume_head_entry_for_command (cmd : NormalizedCommand) (e : CursorEntry) : M NormalizedCommand :=
  do! changes := take_entry e [] in
  do! changes := consume_common_refs_matching_transition (entry_old e) (entry_new e) changes in
  finish_changes cmd changes.

Definition consume_head_transition_for_command (cmd : NormalizedCommand) (prefixes : list str) (expected : ExpectedTransition) : M NormalizedCommand :=
  do! found := find_head_entry (worktree cmd) prefixes expected in
  match found with
  | None => ret cmd
  | Some e => consume_head_entry_for_command cmd e
  end.

Definition enrich_commit (cmd : NormalizedCommand) (state : FamilyState) : M NormalizedCommand :=
  let args := command_args cmd in
  let amend := has_arg "--amend" args in
  do! expected := gets (λ c, head_expected_transition working_log_names c cmd state) in
  let expected := with_reflog_messages (without_old_oid_constraint expected) (commit_reflog_messages args amend) in
  do! found := find_commit_head_entry cmd (commit_prefixes amend) expected in
  match found with
  | None => ret cmd
  | Some e => consume_head_entry_for_command cmd e
  end.

Definition enrich_reset (cmd : NormalizedCommand) (state : FamilyState) : M NormalizedCommand :=
  let reset_messages := reset_reflog_messages (command_args cmd) in
  do! expected := gets (λ c, head_expected_transition working_log_names c cmd state) in
  consume_head_transition_for_command cmd [lit "reset:"]
    (if bool_decide (reset_messages = ∅) then expected else with_reflog_messages (without_old_oid_constraint expected) reset_messages).

(** *** Runs of entries *)

(** The entries that follow on, up to a limit of changes. *)
Fixpoint follow_run (fuel : nat) (cmd : NormalizedCommand) (prefixes : list str) (limit : N) (new : str) (next_start : N)
    (changes : list RefChange) : M (str * list RefChange) :=
  match fuel with
  | O => ret (new, changes)
  | S f =>
      if limit <=? N.of_nat (length changes) then ret (new, changes)
      else
        do! found := find_head_entry_after (worktree cmd) next_start prefixes (transition_from new) in
        match found with
        | None => ret (new, changes)
        | Some next =>
            do! changes := take_entry next changes in
            follow_run f cmd prefixes limit (entry_new next) (end_offset next) changes
        end
  end.

Definition consume_head_span_for_command_limited (cmd : NormalizedCommand) (prefixes : list str) (expected : ExpectedTransition) (limit : N) :
    M NormalizedCommand :=
  if limit =? 0 then ret cmd
  else
    do! found := find_head_span_start_entry (worktree cmd) prefixes expected limit in
    match found with
    | None => ret cmd
    | Some first =>
        do! changes := take_entry first [] in
        do! (new, changes) := follow_run (S (head_log_size (worktree cmd))) cmd prefixes limit (entry_new first) (end_offset first) changes in
        do! changes := consume_common_refs_matching_transition (entry_old first) new changes in
        finish_changes cmd changes
    end.

(** The entries of a rebase or of a pull that follow on, up to its finish.
    [stops] marks the entry of a later command, [finishes] the last entry. *)
Fixpoint follow_span (fuel : nat) (cmd : NormalizedCommand) (prefixes : list str) (stops finishes : str → bool) (finished : bool)
    (new : str) (next_start : N) (changes : list RefChange) : M (str * list RefChange) :=
  match fuel with
  | O => ret (new, changes)
  | S f =>
      if finished then ret (new, changes)
      else
        do! found := find_head_entry_after (worktree cmd) next_start prefixes (transition_from new) in
        match found with
        | None => ret (new, changes)
        | Some next =>
            if stops (entry_message next) then ret (new, changes)
            else
              do! changes := take_entry next changes in
              follow_span f cmd prefixes stops finishes (finishes (entry_message next)) (entry_new next) (end_offset next) changes
        end
  end.

(** The branch a finished span returned to. *)
Definition consume_finish_branch_ref (w : option path) (new : str) (state : FamilyState) (prefixes : list str)
    (branch_from_message : str → option str) (out : list RefChange) : M (list RefChange) :=
  match head_of w with
  | None => ret out
  | Some (key, p) =>
      do! start := reflog_start_offset key p in
      do! entries := lift (read_reflog_entries_including_noops key p (lit "HEAD") start) in
      match List.find (λ e, str_eqb (entry_new e) new && match branch_from_message (entry_message e) with Some _ => true | None => false end) entries with
      | None => ret out
      | Some finish =>
          match branch_from_message (entry_message finish) with
          | None => ret out
          | Some branch_ref =>
              do! _ := advance_cursor_to_entry finish in
              let old_oids := list_to_set (option_list (Analyzers.keep_if valid_non_zero_oid (refs state !! branch_ref))) in
              do! found := find_common_ref_entry branch_ref (mkExpected old_oids (Some new) ∅) prefixes in
              take_found found out
          end
      end
  end.

Definition consume_rebase_finish_branch_ref (w : option path) (new : str) (state : FamilyState) (out : list RefChange) : M (list RefChange) :=
  consume_finish_branch_ref w new state [lit "rebase"] rebase_finish_returned_branch out.

Definition consume_pull_finish_branch_ref (w : option path) (new : str) (state : FamilyState) (action : str) (prefixes : list str)
    (out : list RefChange) : M (list RefChange) :=
  consume_finish_branch_ref w new state prefixes (λ m, pull_finish_returned_branch m action) out.

(** *** Cherry-pick and revert *)

Definition head_changes (cmd : NormalizedCommand) : nat := length (List.filter (λ ch, str_eqb (reference ch) (lit "HEAD")) (ref_changes cmd)).

Definition enrich_cherry_pick (cmd : NormalizedCommand) (state : FamilyState) : M NormalizedCommand :=
  let args := command_args cmd in
  if gives_up args then
    do! _ := modify (set_pending []) in
    ret cmd
  else
    let is_continue := has_arg "--continue" args in
    let is_skip := has_arg "--skip" args in
    do! _ := if is_skip then modify (λ c, set_pending (drop 1 (pending_cherry_pick_source_oids c)) c) else ret tt in
    let source_args := if is_continue || is_skip then [] else cherry_pick_source_args args in
    let explicit_sources := if is_continue || is_skip then Some [] else resolve_cherry_pick_source_oids_from_sources state source_args in
    let unresolved := negb (bool_decide (source_args = [])) && bool_decide (explicit_sources = None) in
    let explicit_sources := default [] explicit_sources in
    do! pending := gets pending_cherry_pick_source_oids in
    let sources := if bool_decide (explicit_sources = []) && negb unresolved then pending else explicit_sources in
    let cmd := set_cherry_pick_sources sources cmd in
    if failed cmd && unresolved then ret cmd
    else if no_commit args then ret cmd
    else
      let source_limit := if unresolved then no_limit else at_least_one sources in
      do! expected := gets (λ c, head_expected_transition working_log_names c cmd state) in
      do! cmd := consume_head_span_for_command_limited cmd CHERRY_PICK_REFLOG_PREFIXES expected source_limit in
      let applied_count := head_changes cmd in
      do! _ := if failed cmd then modify (set_pending (drop (Nat.min applied_count (length sources)) sources))
               else if is_continue || is_skip || negb (bool_decide (sources = [])) || (0 <? applied_count)%nat then modify (set_pending [])
               else ret tt in
      ret cmd.

Definition enrich_revert (cmd : NormalizedCommand) (state : FamilyState) : M NormalizedCommand :=
  let args := command_args cmd in
  if gives_up args then ret cmd
  else
    let source_args := if has_arg "--continue" args || has_arg "--skip" args then [] else revert_source_args args in
    let explicit_sources := match source_args with [] => Some [] | _ => resolve_cherry_pick_source_oids_from_sources state source_args end in
    let unresolved := negb (bool_decide (source_args = [])) && bool_decide (explicit_sources = None) in
    let cmd := set_revert_sources (default [] explicit_sources) cmd in
    if no_commit args then ret cmd
    else
      let source_limit := if unresolved then no_limit else at_least_one (revert_source_oids cmd) in
      do! expected := gets (λ c, head_expected_transition working_log_names c cmd state) in
      consume_head_span_for_command_limited cmd [lit "revert:"] expected source_limit.

End Enrich.

End Enrich.
