(* ===== verification/EnrichCommand.v ===== *)
(** * The cursor over the reflogs: branches, stashes, rebases and the whole command

    src/src/daemon/ref_cursor.rs: the other cases of [enrich_command], and
    [enrich_command] itself.  [logs_cursor] is the implementation of the cursor
    that the family actor is written against. *)

From S2P Require Import Prelude Text DiffCompute StateResult HashIter DiffTree CliParser Domain Analyzers Disk FastReader Reflog RefArgs RefMatch CursorState Enrich FamilyActor.

Local Open Scope N_scope.

(** ** Definitions *)

Module EnrichCommand.
Import Domain HashIter Paths Files RepoState Reflog RefArgs RefMatch CursorState Enrich.
Import DiffCompute(result).
Import DiffTree(is_valid_git_oid).
Import CliParser(one_of).
Import Analyzers(command_args, has_arg, keep_if).

Section Commands.
Context `{disk : Disk} `{order : HashOrder}.
Variable working_log_names : path → option (list str).

(** *** Branches *)

Definition enrich_branch_relocation (state : FamilyState) (kind : BranchLifecycleKind) (old_reference : option str) (new_reference : str)
    (changes : list RefChange) : M (list RefChange) :=
  do! lifecycle := consume_branch_lifecycle_record new_reference kind in
  let source_reference := match old_reference with
                          | Some r => Some r
                          | None => lifecycle_old_reference <$> lifecycle
                          end in
  let source_oid := match source_reference ≫= (λ r, refs state !! r) with
                    | Some oid => Some oid
                    | None => lifecycle_oid <$> lifecycle
                    end in
  match keep_if valid_non_zero_oid source_oid with
  | None => ret changes
  | Some source_oid =>
      do! changes :=
        match kind, source_reference with
        | RenameKind, Some source =>
            if str_eqb source new_reference then ret changes
            else
              do! _ := clear_ref_cursor (common_key source) in
              ret (changes ++ [mkChange source source_oid zero_oid])
        | _, _ => ret changes
        end in
      let new_old := default zero_oid (keep_if valid_non_zero_oid (refs state !! new_reference)) in
      ret (if str_eqb new_old source_oid then changes else changes ++ [mkChange new_reference new_old source_oid])
  end.

Fixpoint delete_branches (state : FamilyState) (references : list str) (changes : list RefChange) : M (list RefChange) :=
  match references with
  | [] => ret changes
  | reference :: rest =>
      do! _ := clear_ref_cursor (common_key reference) in
      delete_branches state rest
        (match keep_if valid_non_zero_oid (refs state !! reference) with
         | Some old => changes ++ [mkChange reference old zero_oid]
         | None => changes
         end)
  end.

Definition enrich_branch (cmd : NormalizedCommand) (state : FamilyState) : M NormalizedCommand :=
  do! changes :=
    match parse_branch_command_spec (command_args cmd) with
    | CreateOrReset reference =>
        do! found := find_common_ref_entry reference any_transition [lit "branch:"] in
        take_found found []
    | Delete references => delete_branches state references []
    | Rename old_reference new_reference => enrich_branch_relocation state RenameKind old_reference new_reference []
    | Copy old_reference new_reference => enrich_branch_relocation state CopyKind old_reference new_reference []
    | NoBranch => ret []
    end in
  finish_changes cmd changes.

(** *** update-ref *)

Fixpoint drain_refs (references : list str) (changes : list RefChange) : M (list RefChange) :=
  match references with
  | [] => ret changes
  | reference :: rest =>
      if one_of ["HEAD"; "ORIG_HEAD"]%string reference then drain_refs rest changes
      else
        do! dir := gets common_dir in
        do! changes := drain (S (log_size (common_log dir reference))) (find_common_ref_entry_without_hint reference any_transition []) changes in
        drain_refs rest changes
  end.

(** Updates read from the input: whatever the logs show. *)
Definition update_refs_from_logs (cmd : NormalizedCommand) : M (list RefChange) :=
  do! changes :=
    match worktree cmd with
    | None => ret []
    | Some w => drain (S (head_log_size (Some w))) (find_head_entry_without_hint (Some w) [] any_transition) []
    end in
  do! references := query discover_common_refs in
  drain_refs references changes.

Fixpoint direct_matches (cmd : NormalizedCommand) (old new : str) (timestamp : Z) (references : list str) (found : list CursorEntry) :
    M (list CursorEntry) :=
  match references with
  | [] => ret found
  | reference :: rest =>
      if one_of ["ORIG_HEAD"; "refs/stash"]%string reference then direct_matches cmd old new timestamp rest found
      else
        do! entries := direct_ref_transition_entries cmd reference old new in
        direct_matches cmd old new timestamp rest
          (found ++ List.filter (λ e, bool_decide (timestamp_secs e = Some timestamp)) entries)
  end.

Definition consume_unique_direct_common_ref_matching_timestamp (cmd : NormalizedCommand) (old new : str) (timestamp : Z) (out : list RefChange) :
    M (list RefChange) :=
  do! references := query discover_common_refs in
  do! found := direct_matches cmd old new timestamp references [] in
  match found with
  | [e] => take_entry e out
  | _ => ret out
  end.

(** The entry of a ref that made a transition at a time, taken. *)
Definition take_at_time (cmd : NormalizedCommand) (reference old new : str) (timestamp : Z) (changes : list RefChange) : M (list RefChange) :=
  do! entries := direct_ref_transition_entries cmd reference old new in
  take_found (List.find (λ e, bool_decide (timestamp_secs e = Some timestamp)) entries) changes.

(** [HEAD] moved as the arguments say. *)
Definition update_head_directly (cmd : NormalizedCommand) (state : FamilyState) (change : RefChange) : M (list RefChange) :=
  let changes := [change] in
  do! found := find_direct_ref_transition_entry cmd (lit "HEAD") (old change) (Domain.new change) in
  match found with
  | None => consume_common_refs_matching_transition (old change) (Domain.new change) changes
  | Some head =>
      do! _ := consume_entry head in
      match timestamp_secs head with
      | None => ret changes
      | Some timestamp =>
          match current_worktree_branch_ref canonicalize cmd state with
          | Some branch => take_at_time cmd branch (old change) (Domain.new change) timestamp changes
          | None => consume_unique_direct_common_ref_matching_timestamp cmd (old change) (Domain.new change) timestamp changes
          end
      end
  end.

(** A branch moved as the arguments say: [HEAD] moves with the branch that is
    checked out, or with the branch that moved at the same time when none is known. *)
Definition update_branch_directly (cmd : NormalizedCommand) (state : FamilyState) (spec : UpdateRefSpec) (change : RefChange) : M (list RefChange) :=
  let before := old change in
  let after := Domain.new change in
  let changes := [change] in
  do! found := find_direct_ref_transition_entry cmd (update_reference spec) before after in
  match found with
  | None => ret changes
  | Some moved =>
      do! _ := consume_entry moved in
      match current_worktree_branch_ref canonicalize cmd state with
      | Some current_branch =>
          if str_eqb current_branch (update_reference spec) then
            do! head := find_head_entry (worktree cmd) [] (mkExpected {[before; zero_oid]} (Some after) ∅) in
            do! _ := match head with Some e => consume_entry e | None => ret tt end in
            ret (changes ++ [mkChange (lit "HEAD") before after])
          else ret changes
      | None =>
          match timestamp_secs moved with
          | Some timestamp => take_at_time cmd (lit "HEAD") before after timestamp changes
          | None => ret changes
          end
      end
  end.

Definition spec_transition (spec : UpdateRefSpec) : ExpectedTransition :=
  mkExpected (list_to_set (option_list (update_old spec))) (Some (update_new spec)) ∅.

(** A ref moved to where the arguments say, from where they do not say. *)
Definition update_ref_from_log (cmd : NormalizedCommand) (spec : UpdateRefSpec) : M (list RefChange) :=
  if str_eqb (update_reference spec) (lit "HEAD") then
    do! found := find_head_entry (worktree cmd) [] (spec_transition spec) in
    match found with
    | None => ret []
    | Some e =>
        do! changes := take_entry e [] in
        consume_common_refs_matching_transition (entry_old e) (entry_new e) changes
    end
  else
    do! found := find_common_ref_entry (update_reference spec) (spec_transition spec) [] in
    match found with
    | None => ret []
    | Some e =>
        do! changes := take_entry e [] in
        do! head := find_head_entry (worktree cmd) [] (transition (entry_old e) (entry_new e)) in
        take_found head changes
    end.

Definition enrich_update_ref (cmd : NormalizedCommand) (state : FamilyState) : M NormalizedCommand :=
  do! spec := lift (parse_update_ref_spec (command_args cmd)) in
  do! changes :=
    match spec with
    | None => update_refs_from_logs cmd
    | Some spec =>
        match direct_update_ref_change_from_argv spec with
        | Some change =>
            if str_eqb (update_reference spec) (lit "HEAD") then update_head_directly cmd state change
            else update_branch_directly cmd state spec change
        | None => update_ref_from_log cmd spec
        end
    end in
  finish_changes cmd changes.

(** *** Stashes *)

Definition refs_stash : str := lit "refs/stash".

Definition log_was_rewritten (old_cursor log_len_after : option N) : bool :=
  match old_cursor, log_len_after with
  | Some cursor, Some len => len <? cursor
  | Some _, None => true
  | None, _ => false
  end.

Definition consume_destructive_stash_operation (target : option str) (cmd : NormalizedCommand) : M NormalizedCommand :=
  do! old_cursor := gets (λ c, offsets c !! common_key refs_stash) in
  do! log_len_after := query (λ c, common_ref_log_len c refs_stash) in
  if negb (log_was_rewritten old_cursor log_len_after) then ret cmd
  else
    do! target_oid := gets (λ c,
      match stash_target_oid cmd with
      | Some oid => Some oid
      | None => match resolve_stash_target_at_cursor c target with Ret oid => oid | _ => None end
      end) in
    match target_oid with
    | None =>
        do! _ := sync_common_ref_cursor_to_log_end_after_rewrite refs_stash in
        ret cmd
    | Some target_oid =>
        do! old_top := gets (λ c, List.hd_error (stash_stack c)) in
        do! _ := remove_stash_from_stack (stash_target_index target) target_oid in
        do! new_top := gets (λ c, default zero_oid (List.hd_error (stash_stack c))) in
        let cmd := if bool_decide (old_top = Some target_oid) then add_change (mkChange refs_stash target_oid new_top) cmd else cmd in
        let cmd := match stash_target_oid cmd with None => set_stash_target (Some target_oid) cmd | Some _ => cmd end in
        do! _ := sync_common_ref_cursor_to_log_end_after_rewrite refs_stash in
        ret cmd
    end.

Definition enrich_stash (cmd : NormalizedCommand) (state : FamilyState) : M NormalizedCommand :=
  let stash_args := stash_command_args (command_args cmd) in
  let kind := default (lit "push") (List.hd_error stash_args) in
  do! cmd :=
    if one_of ["apply"; "pop"; "drop"; "branch"]%string kind then
      let target := stash_args !! (if str_eqb kind (lit "branch") then 2%nat else 1%nat) in
      do! oid := query (λ c, resolve_stash_target_at_cursor c target) in
      ret (set_stash_target oid cmd)
    else ret cmd in
  do! cmd :=
    if one_of ["push"; "save"]%string kind then
      do! found := find_stash_push_entry stash_args kind in
      match found with
      | None => ret cmd
      | Some e =>
          do! _ := consume_entry e in
          do! _ := apply_stash_ref_entry kind e in
          ret (add_change (entry_to_ref_change e) cmd)
      end
    else if one_of ["pop"; "drop"]%string kind then consume_destructive_stash_operation (stash_args !! 1%nat) cmd
    else ret cmd in
  if one_of ["apply"; "pop"; "branch"]%string kind
     && (str_eqb kind (lit "branch") || bool_decide (refs state !! lit "HEAD" = None)) then
    do! expected := gets (λ c, if str_eqb kind (lit "branch") then head_expected_transition working_log_names c cmd state else any_transition) in
    do! found := find_head_entry (worktree cmd) [] expected in
    match found with
    | None => ret cmd
    | Some head =>
        if message_matches (entry_message head) (map lit ["reset:"; "checkout:"]%string) then
          do! _ := consume_entry head in
          ret (add_change (entry_to_ref_change head) cmd)
        else ret cmd
    end
  else ret cmd.

(** *** Rebase *)

(** A failed rebase of a named branch: what it started. *)
Definition consume_failed_explicit_branch_rebase_start (cmd : NormalizedCommand) : M (option NormalizedCommand) :=
  match CliParser.explicit_rebase_branch_arg (rebase_command_args cmd), head_of (worktree cmd) with
  | Some branch_arg, Some (key, p) =>
      let branch_ref := branch_arg_to_ref branch_arg in
      do! start := reflog_start_offset key p in
      do! head_entries := lift (read_reflog_entries_including_noops key p (lit "HEAD") start) in
      match rebase_start_marker_for_explicit_branch head_entries branch_ref with
      | None => ret None
      | Some start_marker =>
          let finish_new := match latest_rebase_finish_for_branch head_entries branch_ref with
                            | Some finish => if end_offset start_marker <? end_offset finish then Some (entry_new finish) else None
                            | None => None
                            end in
          do! original_head := original_head_for_explicit_rebase_branch branch_ref finish_new in
          let changes := entry_to_ref_change start_marker ::
                         match original_head with Some oid => [mkChange branch_ref oid oid] | None => [] end in
          do! _ := advance_cursor_to_entry start_marker in
          do! cmd := finish_changes cmd changes in
          ret (Some cmd)
      end
  | _, _ => ret None
  end.

Definition follow_rebase (cmd : NormalizedCommand) (state : FamilyState) (first : CursorEntry) : M NormalizedCommand :=
  do! changes := take_entry first [] in
  if failed cmd then ret (with_ref_changes cmd changes)
  else
    do! (new, changes) :=
      follow_span (S (head_log_size (worktree cmd))) cmd [lit "rebase"] (λ m, rebase_reflog_action_is m "start") (λ m, rebase_reflog_action_is m "finish")
        (rebase_reflog_action_is (entry_message first) "finish") (entry_new first) (end_offset first) changes in
    do! changes := consume_common_refs_matching_transition (entry_old first) new changes in
    do! changes := consume_rebase_finish_branch_ref (worktree cmd) new state changes in
    finish_changes cmd changes.

Definition consume_rebase_transition (cmd : NormalizedCommand) (state : FamilyState) : M NormalizedCommand :=
  do! started := if failed cmd then consume_failed_explicit_branch_rebase_start cmd else ret None in
  match started with
  | Some cmd => ret cmd
  | None =>
      if failed cmd && CliParser.is_control_mode (CliParser.summarize_rebase_args (rebase_command_args cmd)) then ret cmd
      else
        do! expected := gets (λ c, head_expected_transition working_log_names c cmd state) in
        do! found := find_rebase_start_entry cmd expected in
        do! first := match found with
                     | Some e => ret (Some e)
                     | None => find_head_entry_without_hint (worktree cmd) [lit "rebase"] expected
                     end in
        match first with
        | None => ret cmd
        | Some first => follow_rebase cmd state first
        end
  end.

(** *** Pull *)

Definition follow_pull (cmd : NormalizedCommand) (state : FamilyState) (prefixes : list str) (action : str) (first : CursorEntry) : M NormalizedCommand :=
  let finished := bool_decide (pull_reflog_action_state (entry_message first) action = None)
                  || pull_reflog_action_is (entry_message first) action "finish" in
  do! changes := take_entry first [] in
  do! (new, changes) :=
    follow_span (S (head_log_size (worktree cmd))) cmd prefixes (λ m, pull_reflog_action_starts_new_command m action)
      (λ m, pull_reflog_action_is m action "finish") finished (entry_new first) (end_offset first) changes in
  do! changes := consume_common_refs_matching_transition (entry_old first) new changes in
  do! changes := consume_pull_finish_branch_ref (worktree cmd) new state action prefixes changes in
  finish_changes cmd changes.

Definition consume_pull_head_span_for_action (cmd : NormalizedCommand) (state : FamilyState) (prefixes : list str) (expected : ExpectedTransition)
    (action : str) : M NormalizedCommand :=
  do! found := find_pull_start_entry cmd expected action in
  do! first := match found with
               | Some e => ret (Some e)
               | None => find_head_entry_without_hint (worktree cmd) prefixes expected
               end in
  match first with
  | None => ret cmd
  | Some first => follow_pull cmd state prefixes action first
  end.

Definition consume_pull_transition (cmd : NormalizedCommand) (state : FamilyState) : M NormalizedCommand :=
  let action := pull_reflog_action cmd in
  do! expected := gets (λ c, head_expected_transition working_log_names c cmd state) in
  consume_pull_head_span_for_action cmd state (pull_reflog_message_prefixes action) expected action.

(** *** A command *)

Definition enrich_head_move (prefixes : list string) (cmd : NormalizedCommand) (state : FamilyState) : M NormalizedCommand :=
  do! expected := gets (λ c, head_expected_transition working_log_names c cmd state) in
  consume_head_transition_for_command cmd (map lit prefixes) expected.

Definition enrich_primary (primary : str) (cmd : NormalizedCommand) (state : FamilyState) : M NormalizedCommand :=
  let named (word : string) := str_eqb primary (lit word) in
  if named "commit" then enrich_commit working_log_names cmd state
  else if named "revert" then enrich_revert working_log_names cmd state
  else if named "reset" then enrich_reset working_log_names cmd state
  else if named "checkout" then if checkout_is_path_checkout cmd then ret cmd else enrich_head_move ["checkout:"]%string cmd state
  else if named "switch" then enrich_head_move ["checkout:"; "switch:"]%string cmd state
  else if named "merge" then enrich_head_move ["merge"]%string cmd state
  else if named "cherry-pick" then enrich_cherry_pick working_log_names cmd state
  else if named "rebase" then consume_rebase_transition cmd state
  else if named "pull" then consume_pull_transition cmd state
  else if named "branch" then enrich_branch cmd state
  else if named "stash" then enrich_stash cmd state
  else if named "update-ref" then enrich_update_ref cmd state
  else ret cmd.

Definition enrich_command (cmd : NormalizedCommand) (state : FamilyState) : M (NormalizedCommand * gmap str str) :=
  let cmd := with_ref_changes cmd [] in
  do! _ := initialize_from_command_reflog_start_offsets cmd in
  do! command_start_refs := query (λ c, refs_at_reflog_start_offsets (family c) (reflog_start_offsets cmd)) in
  if failed cmd && negb (command_can_move_refs_on_nonzero (primary_command cmd)) then ret (cmd, command_start_refs)
  else
    match primary_command cmd with
    | None => ret (cmd, command_start_refs)
    | Some primary =>
        if negb (command_uses_ref_cursor primary) then ret (cmd, command_start_refs)
        else
          do! cmd := enrich_primary primary cmd state in
          ret (if bool_decide (ref_changes cmd = []) then cmd else set_confidence High cmd, command_start_refs)
    end.
End Commands.

(** *** The cursor of a family actor *)

(** The logs change between commands: the cursor looks up its n-th command in the
    n-th of the disks it is given. *)
Definition logs_cursor `{order : HashOrder} (disks : nat → Disk) (working_log_names : path → option (list str)) : FamilyActor.RefCursor := {|
  FamilyActor.cursor := RefCursor * nat;
  FamilyActor.new_cursor := λ family_key, (CursorState.new family_key, 0%nat);
  FamilyActor.enrich_command := λ c cmd state,
    let '(c', r) := enrich_command (disk := disks c.2) working_log_names cmd state c.1 in ((c', S c.2), r)
|}.

End EnrichCommand.

(** ** Theorems *)

Module EnrichCommandProps.
Import Domain HashIter Files Reflog RefArgs CursorState Enrich EnrichCommand.

(** [git stash] with an option before any subcommand is not a push for the
    cursor: it reports no move of the stash, and does not record the stash. *)
Theorem stash_with_option_is_missed `{disk : Disk} `{order : HashOrder} names cmd state c opt rest :
  stash_command_args (Analyzers.command_args cmd) = opt :: rest → CliParser.is_option opt = true →
  enrich_stash names cmd state c = (c, Ret cmd).
Proof.
  intros Hargs Hopt. assert (∀ words, forallb (λ w, negb (CliParser.is_option (lit w))) words = true → CliParser.one_of words opt = false) as Hno.
  { intros words Hw. destruct (CliParser.one_of words opt) eqn:E; [|done]. apply CliParserFacts.one_of_true in E as (w & Hin & ->).
    rewrite forallb_forall in Hw. specialize (Hw w Hin). by rewrite Hopt in Hw. }
  unfold enrich_stash. rewrite Hargs. cbn [List.hd_error default]. unfold bind, ret. cbn [id].
  rewrite !Hno by done. done.
Qed.

Lemma stash_with_option_is_missed_witness :
  let cmd := plain_command (Some (lit "stash")) (map lit ["stash"; "-u"]%string) in
  enrich_stash (disk := disk_of []) (order := in_order) (λ _, None) cmd (FamilyActor.FamilyActor.initial_state (lit "/r/.git")) (CursorState.new (lit "/r/.git")) =
  (CursorState.new (lit "/r/.git"), Ret cmd).
Proof.
  intros cmd. apply (stash_with_option_is_missed (disk := disk_of []) (order := in_order) (λ _, None) cmd _ _ (lit "-u") []); vm_compute; reflexivity.
Defined.

End EnrichCommandProps.
