(* ===== verification/CursorTotal.v ===== *)
(** * The cursor over the reflogs: no command makes it panic

    Whatever the logs hold and whatever reads fail, looking up a command returns
    the command under its own name or an error.  With this the family actor answers
    its requests when its cursor is the one over the reflogs. *)

From S2P Require Import Prelude Text DiffCompute StateResult HashIter DiffTree CliParser Domain Analyzers Disk FastReader Reflog RefArgs RefMatch CursorState Enrich FamilyActor EnrichCommand.

Local Open Scope N_scope.

(** ** Reference: computations that do not panic *)

Module CursorTotal.
Import Domain CursorState.
Import DiffCompute(result).

Definition total {A : Type} (r : result A) : Prop := r ≠ Panic.

(** From any cursor the computation ends without a panic, and what it returns has
    a property. *)
Definition safe {A : Type} (m : M A) (Q : A → Prop) : Prop :=
  ∀ c, match (m c).2 with Ret a => Q a | Fail _ => True | Panic => False end.

(** A command of this name. *)
Definition named (primary : option str) (cmd : NormalizedCommand) : Prop := primary_command cmd = primary.

(** A client that waits for an answer gets one, in the order of the requests. *)
Definition answers `{refcursor : FamilyActor.RefCursor} (sent : list FamilyActor.FamilyMsg) (a : FamilyActor.Actor) : Prop :=
  FamilyActor.mailbox a = [] ∧ FamilyActor.task a = FamilyActor.Running ∧
  map fst (FamilyActor.replies a) = omap FamilyActorFacts.respond_to sent.

End CursorTotal.

(** ** Lemmas *)

Module CursorTotalFacts.
Import Domain Files HashIter Paths RepoState Reflog RefArgs RefMatch CursorState Enrich EnrichCommand CursorTotal.
Import DiffCompute(result).

Section Rules.
Lemma total_bind {A B} (r : result A) (k : A → result B) : total r → (∀ a, total (k a)) → total (obind r k).
Proof. unfold total. destruct r; cbn; auto. Qed.

Lemma safe_value {A} (a : A) (Q : A → Prop) : Q a → safe (ret a) Q.
Proof. by intros H c. Qed.
Lemma safe_ret {A} (a : A) : safe (ret a) (λ _, True).
Proof. by apply safe_value. Qed.
Lemma safe_gets {A} (f : RefCursor → A) : safe (gets f) (λ _, True).
Proof. by intros c. Qed.
Lemma safe_modify f : safe (modify f) (λ _, True).
Proof. by intros c. Qed.
Lemma safe_lift {A} (r : result A) : total r → safe (lift r) (λ _, True).
Proof. intros H c. unfold total in H. cbn. by destruct r. Qed.
Lemma safe_query {A} (f : RefCursor → result A) : (∀ c, total (f c)) → safe (query f) (λ _, True).
Proof. intros H c. specialize (H c). unfold total in H. cbn. by destruct (f c). Qed.
Lemma safe_bind {A B} (m : M A) (k : A → M B) Q R : safe m Q → (∀ a, Q a → safe (k a) R) → safe (bind m k) R.
Proof.
  intros Hm Hk c. unfold bind. specialize (Hm c). destruct (m c) as [c' [a|e|]]; cbn in *; [|done..]. by apply Hk.
Qed.
Lemma safe_weaken {A} (m : M A) (Q R : A → Prop) : safe m Q → (∀ a, Q a → R a) → safe m R.
Proof. intros H HR c. specialize (H c). destruct (m c).2; auto. Qed.
End Rules.

Create HintDb total.
#[export] Hint Resolve safe_ret safe_gets safe_modify : total.

(** Splits a result or a computation into its parts. *)
Ltac total :=
  repeat first
    [ done
    | solve [eauto with total]
    | apply total_bind; [|intros]
    | progress case_match
    | progress cbv beta iota zeta ].

Ltac safe :=
  repeat first
    [ solve [eauto with total]
    | apply safe_value; unfold named; cbn; congruence
    | match goal with |- @safe NormalizedCommand _ (named ?p) => idtac end;
      match goal with |- safe (@bind _ NormalizedCommand _ _ _) (named ?p) => eapply (safe_bind _ _ (named p)); [|intros ? ?] end
    | eapply safe_bind; [solve [eauto with total]|intros ? ?]
    | eapply (safe_bind _ _ (λ _, True)); [|intros ? _]
    | match goal with |- safe (lift _) _ => apply safe_lift | |- safe (query _) _ => apply safe_query; intros end
    | progress case_match
    | progress cbv beta iota zeta ].

Section Total.
Context `{disk : Disk} `{order : HashOrder}.

(** *** Reads *)

Lemma total_metadata p : total (metadata_len p).
Proof. unfold metadata_len, total. by repeat case_match. Qed.
Lemma total_records p start : total (read_reflog_records p start).
Proof. unfold read_reflog_records. apply total_bind; [|intros]; unfold read_log, total; by repeat case_match. Qed.
Lemma total_noops key p reference start : total (read_reflog_entries_including_noops key p reference start).
Proof. apply total_bind; [apply total_records|done]. Qed.
Lemma total_entries key p reference start : total (read_reflog_entries key p reference start).
Proof. apply total_bind; [apply total_records|done]. Qed.
Lemma total_ending p offset : total (read_reflog_record_ending_at p offset).
Proof. unfold read_reflog_record_ending_at, total. by repeat case_match. Qed.

Lemma total_discover : ∀ d relative, total (discover_reflog_refs relative d).
Proof.
  fix discover 1. intros d relative. destruct d as [|e|entries]; cbn [discover_reflog_refs]; [done..|].
  revert entries. fix loop 1. intros [|e entries]; [done|]. apply total_bind.
  - destruct e as [error|name|name|name contents]; cbn [discover_entry]; [done..|]. apply discover.
  - intros found. apply total_bind; [apply loop|done].
Qed.

Lemma total_common_refs c : total (discover_common_refs c).
Proof. unfold discover_common_refs. apply total_bind; [apply total_discover|done]. Qed.
Lemma total_log_len c reference : total (common_ref_log_len c reference).
Proof. apply total_metadata. Qed.
#[local] Hint Resolve total_metadata total_records total_noops total_entries total_ending total_common_refs total_log_len : total.

Lemma total_has_records c key offset : total (reflog_has_records_after_offset c key offset).
Proof. unfold reflog_has_records_after_offset. total. Qed.
#[local] Hint Resolve total_has_records : total.
Lemma total_authoritative c key offset : total (command_start_offset_is_authoritative c key offset).
Proof. unfold command_start_offset_is_authoritative. total. Qed.
Lemma total_target c target : total (resolve_stash_target_at_cursor c target).
Proof. unfold resolve_stash_target_at_cursor. total. Qed.
Lemma total_clamp c key offset cmd : total (clamp_seed_to_own_entry c key offset cmd).
Proof. unfold clamp_seed_to_own_entry, clamp_seed_to_pull_span_entry, clamp_seed_to_rebase_span_entry. total. Qed.
Lemma total_spec args : total (parse_update_ref_spec args).
Proof. unfold parse_update_ref_spec, total. by repeat case_match. Qed.
Lemma total_start_refs dir offsets : ∀ found, total (start_refs_loop dir offsets found).
Proof. induction offsets as [|[key offset] offsets IH]; intros found; cbn [start_refs_loop]; total. Qed.
Lemma total_refs_at family_key offsets : total (refs_at_reflog_start_offsets family_key offsets).
Proof. apply total_start_refs. Qed.
#[local] Hint Resolve total_authoritative total_target total_clamp total_spec total_refs_at : total.

(** *** Single methods *)

Local Abbreviation runs m := (safe m (λ _, True)).

Lemma safe_clear key : runs (clear_ref_cursor key).
Proof. by apply safe_modify. Qed.
Lemma safe_hint key offset : runs (insert_hint key offset).
Proof. by apply safe_modify. Qed.
Lemma safe_start key p : runs (reflog_start_offset key p).
Proof.
  intros c. unfold reflog_start_offset. pose proof (total_metadata p) as Hm.
  destruct (offsets c !! key) as [offset|]; [|done]. destruct (offset =? 0); [done|]. destruct (metadata_len p) as [[len|]|e|]; try done.
  destruct (len <? offset); [done|]. destruct (anchors c !! key); [|done]. pose proof (total_ending p offset) as Hr.
  destruct (read_reflog_record_ending_at p offset); [by case_bool_decide|done|by destruct Hr].
Qed.
#[local] Hint Resolve safe_clear safe_hint safe_start : total.

Lemma safe_initialize key offset : runs (initialize_reflog_cursor key offset).
Proof. unfold initialize_reflog_cursor. safe. Qed.
Lemma safe_consume e : runs (consume_entry e).
Proof. unfold consume_entry, compact_consumed_entries. safe. Qed.
Lemma safe_advance e : runs (advance_cursor_to_entry e).
Proof. by apply safe_modify. Qed.
Lemma safe_sync reference : runs (sync_common_ref_cursor_to_log_end_after_rewrite reference).
Proof. unfold sync_common_ref_cursor_to_log_end_after_rewrite. safe. Qed.
Lemma safe_remove_stash i oid : runs (remove_stash_from_stack i oid).
Proof. by apply safe_modify. Qed.
Lemma safe_apply_stash kind e : runs (apply_stash_ref_entry kind e).
Proof. unfold apply_stash_ref_entry. safe. Qed.
#[local] Hint Resolve safe_initialize safe_consume safe_advance safe_sync safe_remove_stash safe_apply_stash : total.

(** *** Finding *)

Lemma safe_find key p reference expected prefixes use_hint : runs (find_entry_in_log_with_hint key p reference expected prefixes use_hint).
Proof. unfold find_entry_in_log_with_hint. safe. Qed.
#[local] Hint Resolve safe_find : total.
Lemma safe_find_head w prefixes expected : runs (find_head_entry w prefixes expected).
Proof. unfold find_head_entry, find_entry_in_log. safe. Qed.
Lemma safe_find_head_plain w prefixes expected : runs (find_head_entry_without_hint w prefixes expected).
Proof. unfold find_head_entry_without_hint. safe. Qed.
Lemma safe_find_after w start prefixes expected : runs (find_head_entry_after w start prefixes expected).
Proof. unfold find_head_entry_after. safe. Qed.
Lemma safe_find_common reference expected prefixes : runs (find_common_ref_entry reference expected prefixes).
Proof. unfold find_common_ref_entry, find_entry_in_log. safe. Qed.
Lemma safe_find_common_plain reference expected prefixes : runs (find_common_ref_entry_without_hint reference expected prefixes).
Proof. unfold find_common_ref_entry_without_hint. safe. Qed.
Lemma safe_find_window cmd prefixes expected : runs (find_head_entry_in_command_window cmd prefixes expected).
Proof. unfold find_head_entry_in_command_window. safe. Qed.
#[local] Hint Resolve safe_find_head safe_find_head_plain safe_find_after safe_find_common safe_find_common_plain safe_find_window : total.
Lemma safe_find_commit cmd prefixes expected : runs (find_commit_head_entry cmd prefixes expected).
Proof. unfold find_commit_head_entry. safe. Qed.
Lemma safe_find_span w prefixes expected limit : runs (find_head_span_start_entry w prefixes expected limit).
Proof. unfold find_head_span_start_entry. safe. Qed.
Lemma safe_find_start w accepts : runs (find_head_start w accepts).
Proof. unfold find_head_start. safe. Qed.
Lemma safe_find_stash stash_args kind : runs (find_stash_push_entry stash_args kind).
Proof. unfold find_stash_push_entry. safe. Qed.
Lemma safe_direct cmd reference before after : runs (direct_ref_transition_entries cmd reference before after).
Proof. unfold direct_ref_transition_entries. safe. Qed.
#[local] Hint Resolve safe_find_commit safe_find_span safe_find_start safe_find_stash safe_direct : total.
Lemma safe_find_pull cmd expected action : runs (find_pull_start_entry cmd expected action).
Proof. apply safe_find_start. Qed.
Lemma safe_find_rebase cmd expected : runs (find_rebase_start_entry cmd expected).
Proof. apply safe_find_start. Qed.
Lemma safe_find_direct cmd reference before after : runs (find_direct_ref_transition_entry cmd reference before after).
Proof. unfold find_direct_ref_transition_entry. safe. Qed.
Lemma safe_lifecycle reference kind : runs (consume_branch_lifecycle_record reference kind).
Proof. unfold consume_branch_lifecycle_record. safe. Qed.
Lemma safe_original_head branch_ref finished_new : runs (original_head_for_explicit_rebase_branch branch_ref finished_new).
Proof. unfold original_head_for_explicit_rebase_branch. safe. Qed.
#[local] Hint Resolve safe_find_pull safe_find_rebase safe_find_direct safe_lifecycle safe_original_head : total.

(** *** Taking *)

Lemma safe_take e changes : runs (take_entry e changes).
Proof. unfold take_entry. safe. Qed.
#[local] Hint Resolve safe_take : total.
Lemma safe_take_found found changes : runs (take_found found changes).
Proof. unfold take_found. safe. Qed.
#[local] Hint Resolve safe_take_found : total.
Lemma safe_drain fuel find changes : runs find → runs (drain fuel find changes).
Proof. intros Hf. revert changes. induction fuel as [|fuel IH]; intros changes; cbn [drain]; safe. Qed.
Lemma safe_matching before after references out : runs (matching_refs_loop before after references out).
Proof. revert out. induction references as [|r references IH]; intros out; cbn [matching_refs_loop]; safe. Qed.
#[local] Hint Resolve safe_drain safe_matching : total.
Lemma safe_consume_common before after out : runs (consume_common_refs_matching_transition before after out).
Proof. unfold consume_common_refs_matching_transition. safe. Qed.
Lemma safe_follow_run fuel cmd prefixes limit after start changes : runs (follow_run fuel cmd prefixes limit after start changes).
Proof. revert after start changes. induction fuel as [|fuel IH]; intros; cbn [follow_run]; safe. Qed.
Lemma safe_follow_span fuel cmd prefixes stops finishes finished after start changes :
  runs (follow_span fuel cmd prefixes stops finishes finished after start changes).
Proof. revert finished after start changes. induction fuel as [|fuel IH]; intros; cbn [follow_span]; safe. Qed.
Lemma safe_finish_branch w after state prefixes from_message out : runs (consume_finish_branch_ref w after state prefixes from_message out).
Proof. unfold consume_finish_branch_ref. safe. Qed.
#[local] Hint Resolve safe_consume_common safe_follow_run safe_follow_span safe_finish_branch : total.
End Total.

#[export] Hint Resolve safe_clear safe_initialize safe_consume safe_advance safe_sync safe_remove_stash safe_apply_stash safe_hint safe_start
  safe_find_head safe_find_head_plain safe_find_common safe_find_common_plain safe_find_commit safe_find_span safe_find_stash safe_direct
  safe_find_pull safe_find_rebase safe_find_direct safe_lifecycle safe_original_head safe_take safe_take_found safe_drain safe_consume_common
  safe_follow_run safe_follow_span safe_finish_branch total_noops total_common_refs total_log_len total_target total_spec total_refs_at
  total_authoritative total_clamp : total.

(** *** Commands *)

Section Commands.
Context `{disk : Disk} `{order : HashOrder}.
Variable working_log_names : path → option (list str).
Variable primary : option str.
Local Abbreviation runs m := (safe m (λ _, True)).
Local Abbreviation keeps f := (∀ cmd, named primary cmd → safe (f cmd) (named primary)).

Lemma named_changes cmd changes : named primary cmd → named primary (with_ref_changes cmd changes).
Proof. done. Qed.
Lemma named_sources cmd oids : named primary cmd → named primary (set_cherry_pick_sources oids cmd).
Proof. done. Qed.
Lemma named_reverts cmd oids : named primary cmd → named primary (set_revert_sources oids cmd).
Proof. done. Qed.
Lemma safe_named cmd : named primary cmd → safe (ret cmd) (named primary).
Proof. apply safe_value. Qed.
#[local] Hint Resolve named_changes named_sources named_reverts safe_named : total.

Lemma safe_finish changes : keeps (λ cmd, finish_changes cmd changes).
Proof. intros cmd H. unfold finish_changes. safe. Qed.
#[local] Hint Resolve safe_finish : total.
Lemma safe_head_entry e : keeps (λ cmd, consume_head_entry_for_command cmd e).
Proof. intros cmd H. unfold consume_head_entry_for_command. safe. Qed.
#[local] Hint Resolve safe_head_entry : total.
Lemma safe_head_transition prefixes expected : keeps (λ cmd, consume_head_transition_for_command cmd prefixes expected).
Proof. intros cmd H. unfold consume_head_transition_for_command. safe. Qed.
Lemma safe_head_span prefixes expected limit : keeps (λ cmd, consume_head_span_for_command_limited cmd prefixes expected limit).
Proof. intros cmd H. unfold consume_head_span_for_command_limited. safe. Qed.
#[local] Hint Resolve safe_head_transition safe_head_span : total.

Lemma safe_commit state : keeps (λ cmd, enrich_commit working_log_names cmd state).
Proof. intros cmd H. unfold enrich_commit. safe. Qed.
Lemma safe_reset state : keeps (λ cmd, enrich_reset working_log_names cmd state).
Proof. intros cmd H. unfold enrich_reset. safe. Qed.
Lemma safe_head_move prefixes state : keeps (λ cmd, enrich_head_move working_log_names prefixes cmd state).
Proof. intros cmd H. unfold enrich_head_move. safe. Qed.
Lemma safe_cherry_pick state : keeps (λ cmd, enrich_cherry_pick working_log_names cmd state).
Proof. intros cmd H. unfold enrich_cherry_pick. safe. Qed.
Lemma safe_revert state : keeps (λ cmd, enrich_revert working_log_names cmd state).
Proof. intros cmd H. unfold enrich_revert. safe. Qed.
#[local] Hint Resolve safe_commit safe_reset safe_head_move safe_cherry_pick safe_revert : total.

Lemma safe_relocation state kind old_reference new_reference changes :
  runs (enrich_branch_relocation state kind old_reference new_reference changes).
Proof. unfold enrich_branch_relocation. safe. Qed.
Lemma safe_delete state references changes : runs (delete_branches state references changes).
Proof. revert changes. induction references as [|r references IH]; intros; cbn [delete_branches]; safe. Qed.
#[local] Hint Resolve safe_relocation safe_delete : total.
Lemma safe_branch state : keeps (λ cmd, enrich_branch cmd state).
Proof. intros cmd H. unfold enrich_branch. safe. Qed.

Lemma safe_drain_refs references changes : runs (drain_refs references changes).
Proof. revert changes. induction references as [|r references IH]; intros; cbn [drain_refs]; safe. Qed.
Lemma safe_direct_matches cmd before after timestamp references found : runs (direct_matches cmd before after timestamp references found).
Proof. revert found. induction references as [|r references IH]; intros; cbn [direct_matches]; safe. Qed.
#[local] Hint Resolve safe_branch safe_drain_refs safe_direct_matches : total.
Lemma safe_unique cmd before after timestamp out : runs (consume_unique_direct_common_ref_matching_timestamp cmd before after timestamp out).
Proof. unfold consume_unique_direct_common_ref_matching_timestamp. safe. Qed.
Lemma safe_take_at cmd reference before after timestamp changes : runs (take_at_time cmd reference before after timestamp changes).
Proof. unfold take_at_time. safe. Qed.
#[local] Hint Resolve safe_unique safe_take_at : total.
Lemma safe_from_logs cmd : runs (update_refs_from_logs cmd).
Proof. unfold update_refs_from_logs. safe. Qed.
Lemma safe_head_directly cmd state change : runs (update_head_directly cmd state change).
Proof. unfold update_head_directly. safe. Qed.
Lemma safe_branch_directly cmd state spec change : runs (update_branch_directly cmd state spec change).
Proof. unfold update_branch_directly. safe. Qed.
Lemma safe_from_log cmd spec : runs (update_ref_from_log cmd spec).
Proof. unfold update_ref_from_log. safe. Qed.
#[local] Hint Resolve safe_from_logs safe_head_directly safe_branch_directly safe_from_log : total.
Lemma safe_update_ref state : keeps (λ cmd, enrich_update_ref cmd state).
Proof. intros cmd H. unfold enrich_update_ref. safe. Qed.

Lemma safe_destructive target : keeps (λ cmd, consume_destructive_stash_operation target cmd).
Proof. intros cmd H. unfold consume_destructive_stash_operation. safe. Qed.
#[local] Hint Resolve safe_update_ref safe_destructive : total.
Lemma safe_stash state : keeps (λ cmd, enrich_stash working_log_names cmd state).
Proof. intros cmd H. unfold enrich_stash. safe. Qed.

Lemma safe_failed_start cmd :
  named primary cmd → safe (consume_failed_explicit_branch_rebase_start cmd) (λ started, ∀ c, started = Some c → named primary c).
Proof.
  intros H. unfold consume_failed_explicit_branch_rebase_start.
  repeat first [apply safe_value; done | eapply (safe_bind _ _ (named primary)); [solve [eauto with total]|intros ? ?]
    | eapply safe_bind; [first [solve [eauto with total]|by apply safe_lift, total_noops]|intros ? _] | case_match | cbv beta iota zeta].
  apply safe_value. by intros ? [= <-].
Qed.

Lemma safe_rebase_follow state first : keeps (λ cmd, follow_rebase cmd state first).
Proof. intros cmd H. unfold follow_rebase, consume_rebase_finish_branch_ref. safe. Qed.
#[local] Hint Resolve safe_stash safe_rebase_follow : total.
Lemma safe_rebase state : keeps (λ cmd, consume_rebase_transition working_log_names cmd state).
Proof.
  intros cmd H. unfold consume_rebase_transition. eapply (safe_bind _ _ (λ started, ∀ c, started = Some c → named primary c)).
  - case_match; [by apply safe_failed_start|by apply safe_value].
  - intros [started|] Hs; [by apply safe_value, Hs|]. clear Hs. safe.
Qed.

Lemma safe_pull_follow state prefixes action first : keeps (λ cmd, follow_pull cmd state prefixes action first).
Proof. intros cmd H. unfold follow_pull, consume_pull_finish_branch_ref. safe. Qed.
#[local] Hint Resolve safe_rebase safe_pull_follow : total.
Lemma safe_pull state : keeps (λ cmd, consume_pull_transition working_log_names cmd state).
Proof. intros cmd H. unfold consume_pull_transition, consume_pull_head_span_for_action. safe. Qed.
#[local] Hint Resolve safe_pull : total.

Lemma safe_primary word state : keeps (λ cmd, enrich_primary working_log_names word cmd state).
Proof. intros cmd H. unfold enrich_primary. cbv zeta. repeat case_match; eauto with total. Qed.

Lemma safe_initialize_keys cmd keys : runs (initialize_keys cmd keys).
Proof. induction keys as [|[key offset] keys IH]; cbn [initialize_keys]; unfold initialize_key; safe. Qed.
#[local] Hint Resolve safe_primary safe_initialize_keys : total.

Lemma safe_enrich cmd state : named primary cmd → safe (enrich_command working_log_names cmd state) (λ r, named primary r.1).
Proof.
  intros H. unfold enrich_command, initialize_from_command_reflog_start_offsets.
  eapply (safe_bind _ _ (λ _, True)); [safe|intros _ _]. eapply (safe_bind _ _ (λ _, True)); [safe|intros refs _].
  case_match; [by apply safe_value|]. destruct (primary_command _) as [word|]; [|by apply safe_value]. case_match; [by apply safe_value|].
  eapply (safe_bind _ _ (named primary)); [eauto with total|intros found Hfound]. apply safe_value. cbn. by case_bool_decide.
Qed.
End Commands.
End CursorTotalFacts.

(** ** Properties *)

Module CursorTotalProps.
Import Domain Files HashIter HashIterFacts CursorState Enrich EnrichCommand CursorTotal CursorTotalFacts.
Import FamilyActor.FamilyActor FamilyActor.FamilyActorFacts.

Lemma logs_cursor_total `{order : HashOrder} disks names (c : FamilyActor.cursor (RefCursor := logs_cursor disks names)) cmd s :
  match (FamilyActor.enrich_command (RefCursor := logs_cursor disks names) c cmd s).2 with
  | Ret (cmd', _) => primary_command cmd' = primary_command cmd
  | Fail _ => True
  | Panic => False
  end.
Proof.
  cbn. pose proof (safe_enrich (disk := disks c.2) names (primary_command cmd) cmd s eq_refl c.1) as H.
  destruct (enrich_command (disk := disks c.2) names cmd s c.1) as [c' [[cmd' refs]|e|]]; exact H.
Qed.

(** C17: with the cursor over the reflogs, whatever the logs hold and whatever reads
    of them fail: when the commands sent are named in lower case and no shutdown was
    sent, then from any state the actor reaches, as many turns of its loop as there
    are messages in the channel leave it running with an empty channel, and the
    clients were answered once each, in the order of their requests. *)
Theorem requests_are_answered `{order : HashOrder} disks names (canonicalize : PathBuf → option PathBuf) (family_key : FamilyKey)
    (sent : list FamilyMsg) (a : Actor (H := logs_cursor disks names))
    (run : actor_run (refcursor := logs_cursor disks names) canonicalize family_key sent a)
    (lower_case : ∀ cmd r name, Apply cmd r ∈ sent → primary_command cmd = Some name → Analyzers.to_ascii_lowercase name = name)
    (not_shut_down : Shutdown ∉ sent) :
  ∃ a', receives (refcursor := logs_cursor disks names) canonicalize (length (mailbox a)) a a' ∧ answers sent a'.
Proof.
  apply (FamilyActorProps.calm_requests_are_answered (refcursor := logs_cursor disks names) canonicalize family_key sent a run
    (logs_cursor_total disks names) lower_case not_shut_down).
Qed.

#[local] Instance sample_cursor : FamilyActor.RefCursor := logs_cursor (order := in_order) (λ _, disk_of []) (λ _, None).

Definition sent_messages : list FamilyMsg := [Apply AnalyzersProps.sample_reset 7; GetWatermarks 9].
Definition waiting (msgs : list FamilyMsg) : Actor := take_message (spawn_family_actor (lit "repo")) msgs.

Lemma requests_are_answered_witness :
  ∃ a', receives (order := in_order) (λ _, None) 2 (waiting sent_messages) a' ∧ map fst (replies a') = [7; 9]%nat.
Proof.
  destruct (requests_are_answered (order := in_order) (λ _, disk_of []) (λ _, None) (λ _, None) (lit "repo") sent_messages (waiting sent_messages))
    as (a' & Hr & _ & _ & Ha).
  - apply (run_send _ _ [Apply AnalyzersProps.sample_reset 7] (waiting [Apply AnalyzersProps.sample_reset 7]) (GetWatermarks 9)); [|reflexivity].
    apply (run_send _ _ [] (waiting []) (Apply AnalyzersProps.sample_reset 7)); [|reflexivity].
    exact (run_spawn (refcursor := sample_cursor) (λ _, None) (lit "repo")).
  - intros cmd r name Hin Hn. assert (cmd = AnalyzersProps.sample_reset) as ->.
    { unfold sent_messages in Hin. rewrite !elem_of_cons in Hin. destruct Hin as [[= ->]|[?|Hin]]; try done. by apply not_elem_of_nil in Hin. }
    cbn in Hn. injection Hn as <-. reflexivity.
  - unfold sent_messages. rewrite !not_elem_of_cons. split_and!; try done. apply not_elem_of_nil.
  - exists a'. split; [exact Hr|exact Ha].
Defined.

End CursorTotalProps.
