(* ===== verification/CursorFacts.v ===== *)
(** * The cursor over the reflogs: how its state evolves

    Every method of the cursor is a sequence of the steps of [cursor_step], so
    that what the steps keep true of the state, the methods do.  A step that
    moves the cursor or takes an entry comes with the record of a log that it
    read for it. *)

From S2P Require Import Prelude Text DiffCompute StateResult HashIter DiffTree CliParser Domain Analyzers Disk FastReader Reflog RefArgs RefMatch CursorState Enrich EnrichCommand FamilyActor.

Local Open Scope N_scope.

(** ** Reference: steps of a cursor *)

Module CursorSteps.
Import Domain Paths Files Reflog CursorState.

Section Steps.
Context `{disk : Disk}.
Variable dir : path.

(** The logs of the keys: of a ref of the repository and of the heads of its
    worktrees. *)
Definition is_log (key : str) (p : path) : Prop :=
  (∃ r, key = common_key r ∧ p = common_log dir r) ∨ (∃ git_dir, key = head_key git_dir ∧ p = head_log git_dir) ∨
  snd <$> reflog_reference_and_path_for_key dir key = Some p.

(** A record of a file that ends at an offset. *)
Definition record_at (p : path) (offset : N) (a : ReflogAnchor) : Prop :=
  ∃ bytes r, node_at p = Some (File bytes) ∧ anchor_of_record r = a ∧
    (record_ending_at bytes offset = Some r ∨ ∃ start, r ∈ records_from bytes start ∧ record_end r = offset).

(** The log of a key has this record, which ends at the offset. *)
Definition recorded (key : str) (offset : N) (a : ReflogAnchor) : Prop := ∃ p, is_log key p ∧ record_at p offset a.

(** An entry that was read from the log of its key. *)
Definition entry_read (e : CursorEntry) : Prop :=
  is_log (entry_key e) (entry_path e) ∧ record_at (entry_path e) (end_offset e) (anchor_of_entry e).

(** The record that ends at the offset cannot be read from the log of the key. *)
Definition unreadable (key : str) (offset : N) : Prop :=
  ∃ p, is_log key p ∧ ∀ r, read_reflog_record_ending_at p offset ≠ Ret r.

Inductive cursor_step : RefCursor → RefCursor → Prop :=
  | step_hints h c : cursor_step c (set_hints h c)
  | step_pending p c : cursor_step c (set_pending p c)
  | step_remove oid c : cursor_step c (set_stash (remove_oid oid (stash_stack c)) c)
  | step_remove_at i c : cursor_step c (set_stash (list_remove i (stash_stack c)) c)
  | step_push oid c : cursor_step c (set_stash (push_stash oid (stash_stack c)) c)
  | step_clear key c : cursor_step c (clear_ref_cursor key c).1
  | step_seek key offset anchor c :
      (∀ a, anchor = Some a → recorded key offset a) → cursor_step c (seek key offset anchor c)
  | step_unread key offset c :
      unreadable key offset →
      cursor_step c (set_position (<[key := offset]> (offsets c)) (anchors c) (delete key (consumed_offsets c)) (delete key (consumed_anchors c)) c)
  | step_mark e c : entry_read e → cursor_step c (mark_consumed e c)
  | step_compact key e c : recorded key (end_offset e) (anchor_of_entry e) → cursor_step c (compacted key e c).
End Steps.

(** What stays true of the state: [seen] are the records that were read, [lost]
    the positions whose record could not be read. *)
Record well_formed (seen : str → N → ReflogAnchor → Prop) (lost : str → N → Prop) (c : RefCursor) : Prop := mkWellFormed {
  anchor_is_record : ∀ key a, anchors c !! key = Some a →
    ∃ offset, offsets c !! key = Some offset ∧ (seen key offset a ∨ lost key offset);
  taken_are_marked : ∀ key, dom <$> consumed_anchors c !! key = consumed_offsets c !! key;
  marks_are_records : ∀ key marks offset a, consumed_anchors c !! key = Some marks → marks !! offset = Some a → seen key offset a;
  stash_distinct : NoDup (stash_stack c);
  stash_commits : Forall (λ oid, valid_non_zero_oid oid = true) (stash_stack c)
}.

End CursorSteps.

(** ** Lemmas *)

Module CursorStepFacts.
Import Domain Paths Files Reflog CursorState CursorSteps.

(** *** What the steps keep *)

Lemma list_remove_sublist {A} i (l : list A) : list_remove i l `sublist_of` l.
Proof.
  unfold list_remove. rewrite <-(take_drop i l) at 3. apply sublist_app; [done|].
  rewrite <-(Nat.add_1_r i), <-drop_drop. apply sublist_drop.
Qed.

Lemma remove_oid_sublist oid l : remove_oid oid l `sublist_of` l.
Proof. unfold remove_oid. destruct (position_of oid l); [apply list_remove_sublist|done]. Qed.

Lemma Forall_sublist {A} (P : A → Prop) l k : l `sublist_of` k → Forall P k → Forall P l.
Proof. induction 1; [done|..]; inversion_clear 1; [constructor|]; auto. Qed.

Lemma dom_retain advanced_to (marks : gmap N ReflogAnchor) :
  dom <$> retain_marks advanced_to marks = retain_after advanced_to (dom marks).
Proof.
  unfold retain_marks, retain_after.
  assert (dom (filter (λ p : N * ReflogAnchor, (advanced_to < p.1)%N) marks) = filter (λ o, (advanced_to < o)%N) (dom marks)) as Hd.
  { apply set_eq. intros o. rewrite elem_of_filter, !elem_of_dom. split.
    - intros [a Ha]. apply map_lookup_filter_Some in Ha as [Ha Ho]. split; [done|by eexists].
    - intros [Ho [a Ha]]. exists a. by apply map_lookup_filter_Some. }
  rewrite <-Hd. case_bool_decide as H1; case_bool_decide as H2; try done.
  - exfalso. apply H2. by rewrite H1, dom_empty_L.
  - exfalso. apply H1. by apply dom_empty_inv_L in H2.
Qed.

Lemma elem_of_retain_marks advanced_to marks kept offset (a : ReflogAnchor) :
  retain_marks advanced_to marks = Some kept → kept !! offset = Some a → marks !! offset = Some a.
Proof. unfold retain_marks. case_bool_decide; [done|]. by intros [= <-] [? _]%map_lookup_filter_Some. Qed.

Section Kept.
Context `{disk : Disk}.
Variables (dir : path) (seen : str → N → ReflogAnchor → Prop) (lost : str → N → Prop).
Hypothesis seen_here : ∀ key offset a, recorded dir key offset a → seen key offset a.
Hypothesis lost_here : ∀ key offset, unreadable dir key offset → lost key offset.
Local Abbreviation good := (well_formed seen lost).

Lemma well_formed_stash c s : s `sublist_of` stash_stack c → good c → good (set_stash s c).
Proof.
  intros Hs [H1 H2 H3 H4 H5]. constructor; try done; simpl.
  - by eapply sublist_NoDup.
  - by eapply Forall_sublist.
Qed.

(** A position is set or given up, and the marks of its key with it. *)
Lemma well_formed_position (c : RefCursor) (key : str) (o : gmap str N) (a : gmap str ReflogAnchor) :
  (∀ k b, a !! k = Some b → ∃ offset, o !! k = Some offset ∧ (seen k offset b ∨ lost k offset)) → good c →
  good (set_position o a (delete key (consumed_offsets c)) (delete key (consumed_anchors c)) c).
Proof.
  intros Ho [H1 H2 H3 H4 H5]. constructor; cbn; try done.
  - intros k. destruct (decide (k = key)) as [->|Hk]; [by rewrite !lookup_delete_eq|]. by rewrite !lookup_delete_ne.
  - intros k marks offset b Hm. apply lookup_delete_Some in Hm as [_ Hm]. by eapply H3.
Qed.

Lemma step_well_formed c c' : cursor_step dir c c' → good c → good c'.
Proof.
  intros Hstep Hwf. destruct Hstep as [h c|p c|oid c|i c|oid c|key c|key offset anchor c Ha|key offset c Hu|e c He|key e c He].
  - by destruct Hwf.
  - by destruct Hwf.
  - apply well_formed_stash; [apply remove_oid_sublist|done].
  - apply well_formed_stash; [apply list_remove_sublist|done].
  - destruct Hwf as [H1 H2 H3 H4 H5]. unfold push_stash. destruct (_ && _) eqn:E; [|by constructor].
    bool_hyps. constructor; try done; simpl.
    + constructor; [|done]. intros Hin%list_elem_of_In.
      match goal with H : existsb _ _ = false |- _ => rename H into Hex end.
      assert (existsb (str_eqb oid) (stash_stack c) = true); [|congruence].
      apply existsb_exists. exists oid. split; [done|by apply str_eqb_eq].
    + by constructor.
  - apply (well_formed_position c key); [|done]. intros k a [Hk Hka]%lookup_delete_Some. rewrite lookup_delete_ne by done.
    by eapply anchor_is_record.
  - apply (well_formed_position c key); [|done]. intros k b Hb. destruct (decide (k = key)) as [->|Hk].
    + exists offset. rewrite lookup_insert_eq. split; [done|]. left. destruct anchor as [a|]; [|by rewrite lookup_delete_eq in Hb].
      rewrite lookup_insert_eq in Hb. apply seen_here, Ha. congruence.
    + rewrite lookup_insert_ne by done. eapply anchor_is_record; [exact Hwf|].
      destruct anchor; [by rewrite lookup_insert_ne in Hb|by rewrite lookup_delete_ne in Hb].
  - apply (well_formed_position c key); [|done]. intros k b Hb. destruct (decide (k = key)) as [->|Hk].
    + exists offset. rewrite lookup_insert_eq. split; [done|]. right. by apply lost_here.
    + rewrite lookup_insert_ne by done. by eapply anchor_is_record.
  - destruct Hwf as [H1 H2 H3 H4 H5]. constructor; cbn; try done.
    + intros k. destruct (decide (k = entry_key e)) as [->|Hk]; [|by rewrite !lookup_insert_ne].
      rewrite !lookup_insert_eq. simpl. f_equal. rewrite dom_insert_L, <-H2.
      destruct (consumed_anchors c !! entry_key e); simpl; [done|]. by rewrite dom_empty_L.
    + intros k marks offset a. destruct (decide (k = entry_key e)) as [->|Hk]; [|rewrite lookup_insert_ne by done; apply H3].
      rewrite lookup_insert_eq. intros [= <-]. destruct (decide (offset = end_offset e)) as [->|Hne].
      * rewrite lookup_insert_eq. intros [= <-]. apply seen_here. by exists (entry_path e).
      * rewrite lookup_insert_ne by done. destruct (consumed_anchors c !! entry_key e) eqn:E; cbn; [by apply H3|by rewrite lookup_empty].
  - destruct Hwf as [H1 H2 H3 H4 H5]. constructor; cbn; try done.
    + intros k a Ha. destruct (decide (k = key)) as [->|Hk].
      * exists (end_offset e). rewrite lookup_insert_eq in Ha. rewrite lookup_insert_eq. split; [done|]. injection Ha as <-. left. by apply seen_here.
      * rewrite lookup_insert_ne in Ha by done. rewrite lookup_insert_ne by done. by eapply H1.
    + intros k. destruct (decide (k = key)) as [->|Hk]; [|by rewrite !lookup_partial_alter_ne].
      rewrite !lookup_partial_alter_eq, <-H2. destruct (consumed_anchors c !! key) as [marks|]; simpl; [apply dom_retain|done].
    + intros k marks offset a. destruct (decide (k = key)) as [->|Hk]; [|rewrite lookup_partial_alter_ne by done; apply H3].
      rewrite lookup_partial_alter_eq. destruct (consumed_anchors c !! key) as [marks'|] eqn:E; [|done]. cbn.
      intros Hr Hm. eapply H3; [exact E|]. by eapply elem_of_retain_marks.
Qed.

Lemma steps_well_formed c c' : rtc (cursor_step dir) c c' → good c → good c'.
Proof. induction 1; [done|]. eauto using step_well_formed. Qed.
Lemma step_family c c' : cursor_step dir c c' → family c' = family c.
Proof. by destruct 1. Qed.
Lemma steps_family c c' : rtc (cursor_step dir) c c' → family c' = family c.
Proof. induction 1 as [|c d c' Hs _ IH]; [done|]. rewrite IH. by apply step_family. Qed.
End Kept.

Lemma new_well_formed seen lost family_key : well_formed seen lost (CursorState.new family_key).
Proof.
  constructor; cbn.
  - intros key a. by rewrite lookup_empty.
  - intros key. by rewrite !lookup_empty.
  - intros key marks offset a. by rewrite lookup_empty.
  - constructor.
  - constructor.
Qed.

(** *** Computations that are sequences of steps *)

Section Runs.
Context `{disk : Disk}.
Variable dir : path.

(** The computation takes steps, and what it returns has a property. *)
Definition runs {A : Type} (m : M A) (Q : A → Prop) : Prop :=
  ∀ c, family c = dir → rtc (cursor_step dir) c (m c).1 ∧ ∀ a, (m c).2 = Ret a → Q a.
Local Abbreviation steps m := (runs m (λ _, True)).

(** The entry that a search found was read. *)
Definition found_ok (found : option CursorEntry) : Prop := ∀ e, found = Some e → entry_read dir e.

Lemma found_some e : found_ok (Some e) → entry_read dir e.
Proof. intros H. by apply H. Qed.
Lemma found_none : found_ok None.
Proof. done. Qed.
Lemma some_found e : entry_read dir e → found_ok (Some e).
Proof. by intros H ? [= <-]. Qed.

Lemma runs_value {A} (a : A) (Q : A → Prop) : Q a → runs (ret a) Q.
Proof. intros H c _. split; [constructor|]. by intros ? [= <-]. Qed.
Lemma runs_lift {A} (r : DiffCompute.result A) (Q : A → Prop) : (∀ a, r = Ret a → Q a) → runs (lift r) Q.
Proof. intros H c _. split; [constructor|]. exact H. Qed.
Lemma runs_gets {A} (f : RefCursor → A) (Q : A → Prop) : (∀ c, family c = dir → Q (f c)) → runs (gets f) Q.
Proof. intros H c Hc. split; [constructor|]. intros ? [= <-]. by apply H. Qed.
Lemma runs_bind {A B} (m : M A) (k : A → M B) Q R : runs m Q → (∀ a, Q a → runs (k a) R) → runs (bind m k) R.
Proof.
  intros Hm Hk c Hc. unfold bind. destruct (Hm c Hc) as [Hs Hq]. destruct (m c) as [c' [a|e|]]; simpl in *; [|by split..].
  destruct (Hk a (Hq a eq_refl) c') as [Hs' Hr]; [rewrite (steps_family _ _ _ Hs); done|]. split; [|done]. by etrans.
Qed.
Lemma runs_weaken {A} (m : M A) (Q R : A → Prop) : runs m Q → (∀ a, Q a → R a) → runs m R.
Proof. intros H HR c Hc. destruct (H c Hc). split; auto. Qed.
Lemma runs_steps {A} (m : M A) Q : runs m Q → steps m.
Proof. intros H. by eapply runs_weaken. Qed.

Lemma steps_ret {A} (a : A) : steps (ret a).
Proof. by apply runs_value. Qed.
Lemma steps_lift {A} (r : DiffCompute.result A) : steps (lift r).
Proof. by apply runs_lift. Qed.
Lemma steps_gets {A} (f : RefCursor → A) : steps (gets f).
Proof. by apply runs_gets. Qed.
Lemma steps_query {A} (f : RefCursor → DiffCompute.result A) : steps (query f).
Proof. intros c _. by split. Qed.
Lemma steps_bind {A B} (m : M A) (k : A → M B) : steps m → (∀ a, steps (k a)) → steps (bind m k).
Proof. intros Hm Hk. eapply runs_bind; [exact Hm|intros a _; apply Hk]. Qed.

Lemma steps_modify f : (∀ c, family c = dir → cursor_step dir c (f c)) → steps (modify f).
Proof. intros H c Hc. split; [|done]. apply rtc_once. by apply H. Qed.
Lemma steps_modify_or f : (∀ c, family c = dir → cursor_step dir c (f c) ∨ f c = c) → steps (modify f).
Proof. intros H c Hc. split; [|done]. cbn. destruct (H c Hc) as [Hs| ->]; [by apply rtc_once|done]. Qed.
End Runs.

Create HintDb cursor.
#[export] Hint Resolve steps_ret steps_lift steps_gets steps_query found_some found_none some_found : cursor.

(** Splits a computation into its parts. *)
Ltac steps :=
  repeat first
    [ solve [eauto with cursor]
    | eapply runs_bind; [solve [eauto with cursor]|intros ? ?]
    | apply steps_bind; [|intros]
    | apply steps_modify; intros; constructor
    | progress case_match
    | progress cbv beta iota zeta ].

Section Steps.
Import Disk Paths Files HashIter RepoState RefArgs RefMatch.
Context `{disk : Disk} `{order : HashOrder}.
Variable dir : path.
Local Abbreviation steps m := (CursorStepFacts.runs dir m (λ _, True)).
Local Abbreviation runs := (CursorStepFacts.runs dir).
Local Abbreviation found_ok := (CursorStepFacts.found_ok dir).
Local Abbreviation entry_read := (CursorSteps.entry_read dir).

(** *** What is read *)

Lemma entries_read key p reference start entries :
  is_log dir key p →
  read_reflog_entries_including_noops key p reference start = Ret entries ∨ read_reflog_entries key p reference start = Ret entries →
  Forall entry_read entries.
Proof.
  intros Hlog H. unfold read_reflog_entries_including_noops, read_reflog_entries, read_reflog_records, read_log in H.
  destruct (node_at p) as [[bytes| | |]|] eqn:Hp; cbn [obind] in H; try (by destruct H).
  2:{ by destruct H as [[= <-]|[= <-]]. }
  set (first := match start with Some _ => _ | None => _ end) in H.
  assert (∀ rs, (∀ r, r ∈ rs → r ∈ records_from bytes first) → Forall entry_read (map (entry_of_record key p reference) rs)) as Hall.
  { intros rs Hrs. apply Forall_map, Forall_forall. intros r Hr. split; [done|]. exists bytes, r. split; [done|]. split; [done|].
    right. exists first. split; [by apply Hrs|done]. }
  destruct H as [[= <-]|[= <-]]; apply Hall; [done|]. by intros r [Hr _]%elem_of_filter_b.
Qed.

Lemma head_of_log w key p : head_of w = Some (key, p) → is_log dir key p.
Proof.
  unfold head_of. destruct w as [w|]; [|done]. destruct (git_dir_for_worktree w) as [git_dir|]; [|done]. intros [= <- <-].
  right. left. by eexists.
Qed.
Lemma common_is_log reference : is_log dir (common_key reference) (common_log dir reference).
Proof. left. by eexists. Qed.

Lemma runs_entries key p reference start :
  is_log dir key p → runs (lift (read_reflog_entries key p reference start)) (Forall entry_read).
Proof. intros Hl. apply runs_lift. intros es Hes. eapply entries_read; [exact Hl|by right]. Qed.
Lemma runs_noops key p reference start :
  is_log dir key p → runs (lift (read_reflog_entries_including_noops key p reference start)) (Forall entry_read).
Proof. intros Hl. apply runs_lift. intros es Hes. eapply entries_read; [exact Hl|by left]. Qed.

(** A choice among entries that were read. *)
Lemma find_read p es : Forall entry_read es → found_ok (List.find p es).
Proof. rewrite Forall_forall. intros H e [He _]%List.find_some. by apply H, list_elem_of_In. Qed.
Lemma filter_read p es : Forall entry_read es → Forall entry_read (List.filter p es).
Proof. rewrite !Forall_forall. intros H e [He _]%elem_of_filter_b. by apply H. Qed.
Lemma hd_read es : Forall entry_read es → found_ok (List.hd_error es).
Proof. intros H e He. destruct es as [|x es]; [done|]. injection He as <-. by apply Forall_inv in H. Qed.
Lemma hinted_read hint es latest : Forall entry_read es → found_ok latest → found_ok (hinted hint es latest).
Proof.
  intros H. revert latest. induction H as [|x es Hx _ IH]; intros latest Hl; cbn [hinted]; [done|].
  destruct (_ <=? _); [by apply some_found|]. by apply IH, some_found.
Qed.
Lemma select_read c key es : Forall entry_read es → found_ok (select_candidate_with_hint c key es).
Proof. intros H. unfold select_candidate_with_hint. case_match; [by apply hinted_read|by apply hd_read]. Qed.

Lemma extend_run_read run e limit : Forall entry_read run → entry_read e → Forall entry_read (extend_run run e limit).
Proof.
  intros Hr He. unfold extend_run. cbv zeta. apply Forall_drop, Forall_app. split; [|by constructor].
  destruct (last run); [|done]. by case_match.
Qed.

Lemma span_start_read c hint prefixes expected limit es run latest :
  Forall entry_read es → Forall entry_read run → found_ok latest →
  found_ok (span_start_loop c hint prefixes expected limit es run latest).
Proof.
  intros H. revert run latest. induction H as [|x es Hx _ IH]; intros run latest Hr Hl; cbn [span_start_loop]; [done|].
  destruct (_ || _); [by apply IH|]. pose proof (extend_run_read run x limit Hr Hx) as Hrun. destruct (negb _); [by apply IH|].
  pose proof (hd_read _ Hrun) as Hhd. destruct (List.hd_error _) as [first|]; [|by apply IH].
  destruct hint as [h|]; [|done]. destruct (_ <=? _); [done|]. by apply IH.
Qed.

(** *** Single methods *)

Lemma steps_clear key : steps (clear_ref_cursor key).
Proof. apply steps_modify. intros c _. apply step_clear. Qed.

Lemma steps_hint key offset : steps (insert_hint key offset).
Proof. apply steps_modify. intros c _. apply step_hints. Qed.

Lemma steps_reflog_start_offset key p : steps (reflog_start_offset key p).
Proof.
  intros c Hc. unfold reflog_start_offset. destruct (steps_clear key c Hc) as [Hs _].
  repeat (case_match; try (by split)).
Qed.

Lemma ending_recorded key p offset r :
  is_log dir key p → read_reflog_record_ending_at p offset = Ret (Some r) → recorded dir key offset (anchor_of_record r).
Proof.
  intros Hl H. exists p. split; [done|]. unfold read_reflog_record_ending_at in H. destruct (offset =? 0); [done|].
  destruct (node_at p) as [[bytes| |len|]|] eqn:Hp; try done; [|by destruct (len <? offset)].
  destruct (_ <? _); [done|]. injection H as H. exists bytes, r. split; [done|]. split; [done|]. by left.
Qed.

Lemma steps_initialize key offset : steps (initialize_reflog_cursor key offset).
Proof.
  intros c Hc. split; [|done]. unfold initialize_reflog_cursor, bind at 1, modify at 1.
  set (c0 := set_position _ _ _ _ c).
  assert (cursor_step dir c (set_position (offsets c0) (delete key (anchors c0)) (consumed_offsets c0) (consumed_anchors c0) c0)) as Hnone.
  { exact (step_seek dir key offset None c (λ a Ha, ltac:(done))). }
  destruct (offset =? 0); [by apply rtc_once|]. unfold bind, gets, lift.
  destruct (reflog_path_for_key c0 key) as [p|] eqn:Hp; [|by apply rtc_once].
  assert (is_log dir key p) as Hl.
  { right. right. unfold reflog_path_for_key, common_dir in Hp. rewrite <-Hp. by rewrite <-Hc. }
  destruct (read_reflog_record_ending_at p offset) as [[r|]|e|] eqn:Hr; [|by apply rtc_once| |].
  - apply rtc_once. apply (step_seek dir key offset (Some (anchor_of_record r)) c). intros a [= <-]. by eapply ending_recorded.
  - apply rtc_once, step_unread. exists p. split; [done|]. by rewrite Hr.
  - apply rtc_once, step_unread. exists p. split; [done|]. by rewrite Hr.
Qed.

Lemma consumed_prefix_in c es latest e : consumed_prefix c es latest = Some e → latest = Some e ∨ e ∈ es.
Proof.
  revert latest. induction es as [|x es IH]; intros latest; cbn [consumed_prefix]; [by left|].
  destruct (entry_consumed c x); [|by left]. intros [[= ->]|H]%IH; right; [left|by right].
Qed.

Lemma steps_compact key p reference : is_log dir key p → steps (compact_consumed_entries key p reference).
Proof.
  intros Hl. apply steps_bind; [auto with cursor|intros start].
  eapply (runs_bind dir _ _ (λ es, read_reflog_entries key p reference start = Ret es)); [by apply runs_lift|]. intros es Hes.
  apply steps_modify_or. intros c _. destruct (consumed_prefix c es None) as [e|] eqn:E; [|by right].
  destruct (_ <? _); [left|by right]. apply step_compact. apply consumed_prefix_in in E as [?|E]; [done|].
  pose proof (entries_read key p reference start es Hl (or_intror Hes)) as Hall. rewrite Forall_forall in Hall.
  destruct (Hall e E) as [_ Hrec]. exists p. split; [done|].
  assert (entry_path e = p) as <-; [|done]. unfold read_reflog_entries in Hes. destruct (read_reflog_records p start) as [rs| |]; [|done..].
  injection Hes as <-. by apply elem_of_list_map in E as (r & _ & ->).
Qed.

Lemma steps_consume_entry e : entry_read e → steps (consume_entry e).
Proof. intros He. apply steps_bind; [apply steps_modify; intros; by apply step_mark|intros]. apply steps_compact, He. Qed.

Lemma steps_advance e : entry_read e → steps (advance_cursor_to_entry e).
Proof. intros He. apply steps_modify. intros c _. apply step_seek. intros a [= <-]. exists (entry_path e). apply He. Qed.

Lemma steps_sync reference : steps (sync_common_ref_cursor_to_log_end_after_rewrite reference).
Proof.
  intros c Hc. split; [|done]. unfold sync_common_ref_cursor_to_log_end_after_rewrite, bind at 1, query at 1.
  destruct (common_ref_log_len c reference) as [[len|]|e|]; [|by apply steps_clear|done..].
  unfold bind at 1, modify at 1. set (key := common_key reference). set (c0 := set_position _ _ _ _ c).
  unfold bind, query. change (common_dir c0) with (family c). rewrite Hc.
  destruct (read_reflog_record_ending_at (common_log dir reference) len) as [r|e|] eqn:Hr; cbn [fst modify].
  - apply rtc_once.
    assert (∀ a, anchor_of_record <$> r = Some a → recorded dir key len a) as Ha.
    { intros a Ha. destruct r as [r|]; [|done]. injection Ha as <-. eapply ending_recorded; [apply common_is_log|exact Hr]. }
    pose proof (step_seek dir key len (anchor_of_record <$> r) c Ha) as H. by destruct r.
  - apply rtc_once, step_unread. exists (common_log dir reference). split; [apply common_is_log|]. by rewrite Hr.
  - apply rtc_once, step_unread. exists (common_log dir reference). split; [apply common_is_log|]. by rewrite Hr.
Qed.

Lemma steps_remove_stash i oid : steps (remove_stash_from_stack i oid).
Proof.
  apply steps_modify. intros c _. destruct i as [i|]; [|apply step_remove].
  cbv zeta. case_bool_decide; [apply step_remove_at|apply step_remove].
Qed.

Lemma steps_apply_stash kind e : steps (apply_stash_ref_entry kind e).
Proof.
  unfold apply_stash_ref_entry. destruct (CliParser.one_of _ kind); [apply steps_modify; intros; apply step_push|].
  destruct (CliParser.one_of _ kind); [|auto with cursor]. intros c Hc. split; [|done].
  eapply rtc_l; [apply (step_remove dir (entry_old e))|].
  apply rtc_once. exact (step_push dir (entry_new e) (set_stash (remove_oid (entry_old e) (stash_stack c)) c)).
Qed.
End Steps.

#[export] Hint Resolve steps_clear steps_hint steps_reflog_start_offset steps_initialize steps_consume_entry steps_advance
  steps_sync steps_remove_stash steps_apply_stash : cursor.

Section EnrichSteps.
Import Disk Paths Files HashIter RepoState RefArgs RefMatch Enrich EnrichCommand.
Context `{disk : Disk} `{order : HashOrder}.
Variable dir : path.
Variable working_log_names : path → option (list str).
Local Abbreviation steps m := (CursorStepFacts.runs dir m (λ _, True)).
Local Abbreviation runs := (CursorStepFacts.runs dir).
Local Abbreviation found_ok := (CursorStepFacts.found_ok dir).
Local Abbreviation entry_read := (CursorSteps.entry_read dir).

(** *** Finding *)

(** A search in a log: its entries are read and one of them is chosen. *)
Lemma runs_search {A} key p reference (choose : list CursorEntry → RefCursor → A) (Q : A → Prop) :
  is_log dir key p → (∀ es c, Forall entry_read es → Q (choose es c)) →
  runs (do! start := reflog_start_offset key p in
        do! es := lift (read_reflog_entries key p reference start) in gets (choose es)) Q.
Proof.
  intros Hl HQ. eapply runs_bind; [eauto with cursor|intros start _]. eapply runs_bind; [by apply runs_entries|intros es Hes].
  apply runs_gets. auto.
Qed.

Lemma runs_find key p reference expected prefixes use_hint :
  is_log dir key p → runs (find_entry_in_log_with_hint key p reference expected prefixes use_hint) found_ok.
Proof.
  intros Hl. unfold find_entry_in_log_with_hint. apply runs_search; [done|]. intros es c Hes. cbv zeta.
  destruct use_hint; [by apply select_read, filter_read|by apply hd_read, filter_read].
Qed.

(** A search in the head log of a worktree. *)
Lemma runs_head w (k : str → path → M (option CursorEntry)) :
  (∀ key p, is_log dir key p → runs (k key p) found_ok) →
  runs (match head_of w with None => ret None | Some (key, p) => k key p end) found_ok.
Proof.
  intros Hk. destruct (head_of w) as [[key p]|] eqn:E; [|by apply runs_value, found_none]. apply Hk. by eapply head_of_log.
Qed.

Lemma runs_find_head w prefixes expected : runs (find_head_entry w prefixes expected) found_ok.
Proof. apply runs_head. intros key p. apply runs_find. Qed.

Lemma runs_find_head_plain w prefixes expected : runs (find_head_entry_without_hint w prefixes expected) found_ok.
Proof. apply runs_head. intros key p. apply runs_find. Qed.

Lemma runs_find_after w start prefixes expected : runs (find_head_entry_after w start prefixes expected) found_ok.
Proof.
  apply runs_head. intros key p Hl. eapply runs_bind; [by apply runs_entries|intros es Hes].
  apply runs_gets. intros c _. by apply find_read.
Qed.

Lemma runs_find_common_with reference expected prefixes use_hint :
  runs (do! d := gets common_dir in
        find_entry_in_log_with_hint (common_key reference) (common_log d reference) reference expected prefixes use_hint) found_ok.
Proof.
  eapply (runs_bind dir _ _ (λ d, d = dir)); [by apply runs_gets|]. intros d ->. apply runs_find, common_is_log.
Qed.
Lemma runs_find_common reference expected prefixes : runs (find_common_ref_entry reference expected prefixes) found_ok.
Proof. apply runs_find_common_with. Qed.
Lemma runs_find_common_plain reference expected prefixes : runs (find_common_ref_entry_without_hint reference expected prefixes) found_ok.
Proof. apply runs_find_common_with. Qed.

Lemma runs_find_window cmd prefixes expected : runs (find_head_entry_in_command_window cmd prefixes expected) found_ok.
Proof.
  apply runs_head. intros key p Hl. cbv zeta. apply runs_search; [done|]. intros es c Hes. cbv zeta.
  pose proof (filter_read dir (λ e, candidate c expected prefixes e && in_window (reflog_timestamp_window cmd) e) es Hes) as Hf.
  destruct (command_start_hints c !! key); [by apply select_read|].
  destruct (List.filter _ es) as [|e [|? ?]]; [by apply found_none| |by apply found_none]. apply some_found. by apply Forall_inv in Hf.
Qed.
#[local] Hint Resolve runs_find_head runs_find_head_plain runs_find_after runs_find_common runs_find_common_plain runs_find_window : cursor.

Lemma runs_find_commit cmd prefixes expected : runs (find_commit_head_entry cmd prefixes expected) found_ok.
Proof.
  unfold find_commit_head_entry. eapply runs_bind; [eauto with cursor|intros found Hfound].
  destruct found as [e|]; [by apply runs_value|]. case_bool_decide; [by apply runs_value|auto with cursor].
Qed.

Lemma runs_find_span w prefixes expected limit : runs (find_head_span_start_entry w prefixes expected limit) found_ok.
Proof.
  apply runs_head. intros key p Hl. apply runs_search; [done|]. intros es c Hes.
  apply span_start_read; [done|constructor|apply found_none].
Qed.

Lemma runs_find_start w accepts : runs (find_head_start w accepts) found_ok.
Proof.
  apply runs_head. intros key p Hl. apply runs_search; [done|]. intros es c Hes. by apply find_read.
Qed.

Lemma runs_find_pull cmd expected action : runs (find_pull_start_entry cmd expected action) found_ok.
Proof. apply runs_find_start. Qed.
Lemma runs_find_rebase cmd expected : runs (find_rebase_start_entry cmd expected) found_ok.
Proof. apply runs_find_start. Qed.

Lemma runs_find_stash stash_args kind : runs (find_stash_push_entry stash_args kind) found_ok.
Proof.
  unfold find_stash_push_entry. cbv zeta. eapply (runs_bind dir _ _ (λ d, d = dir)); [by apply runs_gets|]. intros d ->.
  apply runs_search; [apply common_is_log|]. intros es c Hes. by apply find_read.
Qed.

Lemma runs_direct cmd reference before after : runs (direct_ref_transition_entries cmd reference before after) (Forall entry_read).
Proof.
  unfold direct_ref_transition_entries.
  eapply (runs_bind dir _ _ (λ log, ∀ key p, log = Some (key, p) → is_log dir key p)).
  { apply runs_gets. intros c Hc key p. unfold log_of_ref. destruct (str_eqb _ _); [apply head_of_log|].
    intros [= <- <-]. unfold common_dir. rewrite Hc. apply common_is_log. }
  intros [[key p]|] Hlog; [|by apply runs_value]. specialize (Hlog key p eq_refl). cbv zeta.
  eapply runs_bind; [eauto with cursor|intros start _]. eapply runs_bind; [by apply runs_entries|intros es Hes].
  eapply (runs_bind dir _ _ (Forall entry_read)); [apply runs_gets; intros c _; by apply filter_read|]. intros found Hfound.
  destruct found; [|by apply runs_value]. eapply runs_bind; [by apply runs_entries|intros es' Hes'].
  apply runs_gets. intros c _. by apply filter_read.
Qed.
#[local] Hint Resolve runs_find_commit runs_find_span runs_find_start runs_find_pull runs_find_rebase runs_find_stash runs_direct : cursor.

Lemma runs_find_direct cmd reference before after : runs (find_direct_ref_transition_entry cmd reference before after) found_ok.
Proof.
  unfold find_direct_ref_transition_entry. eapply runs_bind; [eauto with cursor|intros es Hes]. by apply runs_value, hd_read.
Qed.

Lemma steps_lifecycle reference kind : steps (consume_branch_lifecycle_record reference kind).
Proof.
  unfold consume_branch_lifecycle_record. cbv zeta. eapply (runs_bind dir _ _ (λ d, d = dir)); [by apply runs_gets|]. intros d ->.
  eapply runs_bind; [eauto with cursor|intros start _]. eapply runs_bind; [apply runs_entries, common_is_log|intros es Hes].
  destruct (lifecycle_entry kind reference es) as [[e old_reference]|] eqn:E; [|auto with cursor].
  assert (entry_read e) as He; [|steps]. revert E. rewrite Forall_forall in Hes. clear start.
  assert (∀ l, (∀ x, x ∈ l → x ∈ es) → lifecycle_entry kind reference l = Some (e, old_reference) → e ∈ es) as H.
  { induction l as [|x l IH]; intros Hl; cbn [lifecycle_entry]; [done|]. destruct (parse_branch_lifecycle_message _ _) as [[o n]|].
    - destruct (str_eqb n reference); [intros [= <- _]; apply Hl; by left|]. apply IH. intros y Hy. apply Hl. by right.
    - apply IH. intros y Hy. apply Hl. by right. }
  intros E. by apply Hes, (H es).
Qed.

Lemma steps_original_head branch_ref finished_new : steps (original_head_for_explicit_rebase_branch branch_ref finished_new).
Proof. unfold original_head_for_explicit_rebase_branch. steps. Qed.
#[local] Hint Resolve runs_find_direct steps_lifecycle steps_original_head : cursor.

(** *** Taking *)

Lemma steps_take e changes : entry_read e → steps (take_entry e changes).
Proof. intros He. unfold take_entry. steps. Qed.
#[local] Hint Resolve steps_take : cursor.

Lemma steps_take_found found changes : found_ok found → steps (take_found found changes).
Proof. intros Hf. unfold take_found. steps. Qed.
#[local] Hint Resolve steps_take_found : cursor.

Lemma steps_drain fuel find changes : runs find found_ok → steps (drain fuel find changes).
Proof. intros Hf. revert changes. induction fuel as [|fuel IH]; intros changes; cbn [drain]; steps. Qed.

Lemma steps_matching before after references out : steps (matching_refs_loop before after references out).
Proof. revert out. induction references as [|r references IH]; intros out; cbn [matching_refs_loop]; steps. Qed.
#[local] Hint Resolve steps_drain steps_matching : cursor.

Lemma steps_consume_common before after out : steps (consume_common_refs_matching_transition before after out).
Proof. unfold consume_common_refs_matching_transition. steps. Qed.
#[local] Hint Resolve steps_consume_common : cursor.

Lemma steps_finish cmd changes : steps (finish_changes cmd changes).
Proof. unfold finish_changes. steps. Qed.
#[local] Hint Resolve steps_finish : cursor.

Lemma steps_head_entry cmd e : entry_read e → steps (consume_head_entry_for_command cmd e).
Proof. intros He. unfold consume_head_entry_for_command. steps. Qed.
#[local] Hint Resolve steps_head_entry : cursor.

Lemma steps_head_transition cmd prefixes expected : steps (consume_head_transition_for_command cmd prefixes expected).
Proof. unfold consume_head_transition_for_command. steps. Qed.
#[local] Hint Resolve steps_head_transition : cursor.

Lemma steps_follow_run fuel cmd prefixes limit after start changes : steps (follow_run fuel cmd prefixes limit after start changes).
Proof. revert after start changes. induction fuel as [|fuel IH]; intros; cbn [follow_run]; steps. Qed.

Lemma steps_follow_span fuel cmd prefixes stops finishes finished after start changes :
  steps (follow_span fuel cmd prefixes stops finishes finished after start changes).
Proof. revert finished after start changes. induction fuel as [|fuel IH]; intros; cbn [follow_span]; steps. Qed.
#[local] Hint Resolve steps_follow_run steps_follow_span : cursor.

Lemma steps_head_span cmd prefixes expected limit : steps (consume_head_span_for_command_limited cmd prefixes expected limit).
Proof. unfold consume_head_span_for_command_limited. steps. Qed.

Lemma steps_finish_branch w after state prefixes from_message out : steps (consume_finish_branch_ref w after state prefixes from_message out).
Proof.
  unfold consume_finish_branch_ref. destruct (head_of w) as [[key p]|] eqn:E; [|auto with cursor]. pose proof (head_of_log dir _ _ _ E) as Hl.
  eapply runs_bind; [eauto with cursor|intros start _]. eapply runs_bind; [by apply runs_noops|intros es Hes].
  match goal with |- context [List.find ?f es] => pose proof (find_read dir f es Hes) as Hfound; destruct (List.find f es) as [finish|] end;
    [|auto with cursor]. steps.
Qed.
#[local] Hint Resolve steps_head_span steps_finish_branch : cursor.

(** *** Commands *)

Lemma steps_cherry_pick cmd state : steps (enrich_cherry_pick working_log_names cmd state).
Proof. unfold enrich_cherry_pick. steps. Qed.

Lemma steps_revert cmd state : steps (enrich_revert working_log_names cmd state).
Proof. unfold enrich_revert. steps. Qed.

Lemma steps_relocation state kind old_reference new_reference changes :
  steps (enrich_branch_relocation state kind old_reference new_reference changes).
Proof. unfold enrich_branch_relocation. steps. Qed.

Lemma steps_delete state references changes : steps (delete_branches state references changes).
Proof. revert changes. induction references as [|r references IH]; intros; cbn [delete_branches]; steps. Qed.
#[local] Hint Resolve steps_cherry_pick steps_revert steps_relocation steps_delete : cursor.

Lemma steps_branch cmd state : steps (enrich_branch cmd state).
Proof. unfold enrich_branch. steps. Qed.

Lemma steps_drain_refs references changes : steps (drain_refs references changes).
Proof. revert changes. induction references as [|r references IH]; intros; cbn [drain_refs]; steps. Qed.

Lemma runs_direct_matches cmd before after timestamp references found :
  Forall entry_read found → runs (direct_matches cmd before after timestamp references found) (Forall entry_read).
Proof.
  revert found. induction references as [|r references IH]; intros found Hf; cbn [direct_matches]; [by apply runs_value|].
  case_match; [by apply IH|]. eapply runs_bind; [eauto with cursor|intros es Hes]. apply IH, Forall_app. split; [done|by apply filter_read].
Qed.
#[local] Hint Resolve steps_branch steps_drain_refs : cursor.

Lemma steps_unique cmd before after timestamp out : steps (consume_unique_direct_common_ref_matching_timestamp cmd before after timestamp out).
Proof.
  unfold consume_unique_direct_common_ref_matching_timestamp. apply steps_bind; [auto with cursor|intros references].
  eapply runs_bind; [by apply runs_direct_matches|intros found Hfound]. destruct found as [|e [|? ?]]; [auto with cursor| |auto with cursor].
  apply Forall_inv in Hfound. auto with cursor.
Qed.

Lemma steps_take_at cmd reference before after timestamp changes : steps (take_at_time cmd reference before after timestamp changes).
Proof.
  unfold take_at_time. eapply runs_bind; [eauto with cursor|intros es Hes]. apply steps_take_found. by apply find_read.
Qed.
#[local] Hint Resolve steps_unique steps_take_at : cursor.

Lemma steps_update_ref cmd state : steps (enrich_update_ref cmd state).
Proof.
  unfold enrich_update_ref, update_refs_from_logs, update_head_directly, update_branch_directly, update_ref_from_log. steps.
Qed.

Lemma steps_stash cmd state : steps (enrich_stash working_log_names cmd state).
Proof. unfold enrich_stash, consume_destructive_stash_operation. steps. Qed.

Lemma start_marker_in es branch marker : rebase_start_marker_for_explicit_branch es branch = Some marker → marker ∈ es.
Proof.
  assert (∀ p, List.find p (rev es) = Some marker → marker ∈ es) as H.
  { intros p [He _]%List.find_some. apply List.in_rev in He. by apply list_elem_of_In. }
  unfold rebase_start_marker_for_explicit_branch. repeat case_match; try (by apply H). intros [= ->]. by eapply H.
Qed.

Lemma steps_failed_start cmd : steps (consume_failed_explicit_branch_rebase_start cmd).
Proof.
  unfold consume_failed_explicit_branch_rebase_start. destruct (CliParser.explicit_rebase_branch_arg _) as [arg|]; [|auto with cursor].
  destruct (head_of (worktree cmd)) as [[key p]|] eqn:E; [|auto with cursor]. pose proof (head_of_log dir _ _ _ E) as Hl. cbv zeta.
  eapply runs_bind; [eauto with cursor|intros start _]. eapply runs_bind; [by apply runs_noops|intros es Hes].
  destruct (rebase_start_marker_for_explicit_branch es _) as [marker|] eqn:Em; [|auto with cursor].
  assert (entry_read marker) as Hm.
  { rewrite Forall_forall in Hes. apply Hes. by eapply start_marker_in. }
  steps.
Qed.

(** The first entry of a span: the one found, or the one of a second search. *)
Lemma runs_or_else found (m : M (option CursorEntry)) :
  found_ok found → runs m found_ok → runs (match found with Some e => ret (Some e) | None => m end) found_ok.
Proof. intros Hf Hm. destruct found; [by apply runs_value|done]. Qed.
#[local] Hint Resolve steps_failed_start runs_or_else : cursor.

Lemma steps_rebase cmd state : steps (consume_rebase_transition working_log_names cmd state).
Proof. unfold consume_rebase_transition, follow_rebase, consume_rebase_finish_branch_ref. steps. Qed.

Lemma steps_pull cmd state : steps (consume_pull_transition working_log_names cmd state).
Proof. unfold consume_pull_transition, consume_pull_head_span_for_action, follow_pull, consume_pull_finish_branch_ref. steps. Qed.
#[local] Hint Resolve steps_update_ref steps_stash steps_rebase steps_pull : cursor.

Lemma steps_primary primary cmd state : steps (enrich_primary working_log_names primary cmd state).
Proof. unfold enrich_primary, enrich_commit, enrich_reset, enrich_head_move. steps. Qed.

Lemma steps_initialize_keys cmd keys : steps (initialize_keys cmd keys).
Proof.
  induction keys as [|[key offset] keys IH]; cbn [initialize_keys]; [auto with cursor|]. apply steps_bind; [|done].
  unfold initialize_key. steps.
Qed.
#[local] Hint Resolve steps_primary steps_initialize_keys : cursor.

Lemma steps_enrich cmd state : steps (enrich_command working_log_names cmd state).
Proof.
  unfold enrich_command, initialize_from_command_reflog_start_offsets.
  apply steps_bind; [apply steps_bind; [apply steps_modify; intros c _; apply step_hints|intros; auto with cursor]|].
  intros. steps.
Qed.
End EnrichSteps.

End CursorStepFacts.
