(* ===== verification/CursorExact.v ===== *)
(** * The cursor over the reflogs: every move is reported once

    A cursor that is in step with a log sees the entries past its position; an
    entry that is taken leaves the others, whatever the order in which they are
    taken.  From this, what commands report. *)

From S2P Require Import Prelude Text DiffCompute StateResult HashIter DiffTree CliParser Domain Analyzers Disk FastReader Reflog RefArgs RefMatch CursorState Enrich EnrichCommand CursorFacts.

Local Open Scope N_scope.

(** ** Reference: a cursor and a log *)

Module CursorLog.
Import Domain Paths Files HashIter Reflog ReflogRef RefArgs RefMatch CursorState.

(** A log: its key, its place, the ref and the bytes. *)
Record Log := mkLog { log_key : str; log_path : path; log_ref : str; log_bytes : str }.

(** The moves in a log, in order. *)
Definition log_entries (l : Log) : list CursorEntry :=
  map (entry_of_record (log_key l) (log_path l) (log_ref l))
    (List.filter (λ r, negb (str_eqb (record_old r) (record_new r))) (records_from (log_bytes l) 0)).

Definition cursor_position (c : RefCursor) (l : Log) : N := default 0 (offsets c !! log_key l).

(** Those past the cursor. *)
Definition entries_ahead (c : RefCursor) (l : Log) : list CursorEntry :=
  List.filter (λ e, cursor_position c l <? end_offset e) (log_entries l).

(** The cursor is between two lines of the log, and its anchor is the record that
    ends there. *)
Definition in_step (c : RefCursor) (l : Log) : Prop :=
  match offsets c !! log_key l with
  | None => True
  | Some offset =>
      offset ≤ N.of_nat (length (log_bytes l)) ∧ whole_lines (take (N.to_nat offset) (log_bytes l)) ∧
      (offset = 0 ∨ ∀ a, anchors c !! log_key l = Some a → anchor_of_record <$> record_ending_at (log_bytes l) offset = Some a)
  end.

Definition on_disk `{Disk} (l : Log) : Prop := node_at (log_path l) = Some (File (log_bytes l)).

(** Ahead and not taken. *)
Definition fresh (c : RefCursor) (e : CursorEntry) : bool := negb (entry_consumed c e).
Definition fresh_entries (c : RefCursor) (l : Log) : list CursorEntry := List.filter (fresh c) (entries_ahead c l).

Definition candidates (c : RefCursor) (l : Log) (expected : ExpectedTransition) (prefixes : list str) : list CursorEntry :=
  List.filter (candidate c expected prefixes) (entries_ahead c l).

(** The log of a ref of the repository, and the head log of a worktree, if any. *)
Definition ref_log (dir : path) (logs : str → str) (reference : str) : Log :=
  mkLog (common_key reference) (common_log dir reference) reference (logs reference).

Definition worktree_logs `{Disk} (w : option path) (bytes : str) : list Log :=
  match head_of w with Some (key, p) => [mkLog key p (lit "HEAD") bytes] | None => [] end.

(** The entry a search finds. *)
Definition chosen (c : RefCursor) (expected : ExpectedTransition) (prefixes : list str) (l : Log) : option CursorEntry :=
  select_candidate_with_hint c (log_key l) (candidates c l expected prefixes).

(** The entry among those that fit that a search is to find: without a hint the
    first; with a hint the first that starts at the hint or after it, and when none
    does the last. *)
Definition picked (hint : option N) (fits : CursorEntry → Prop) (es : list CursorEntry) (e : CursorEntry) : Prop :=
  ∃ before after, es = before ++ e :: after ∧ fits e ∧
    match hint with
    | None => ∀ x, x ∈ before → ¬ fits x
    | Some h =>
        (∀ x, x ∈ before → fits x → start_offset x < h) ∧
        (h ≤ start_offset e ∨ start_offset e < h ∧ ∀ x, x ∈ after → ¬ fits x)
    end.

(** Among the entries of a log that are past the cursor. *)
Definition picked_in (c : RefCursor) (l : Log) (fits : CursorEntry → Prop) (e : CursorEntry) : Prop :=
  picked (command_start_hints c !! log_key l) fits (entries_ahead c l) e.

(** A move that was not taken and whose message is one of some and starts in one
    of some ways. *)
Definition named_move (c : RefCursor) (messages : gset str) (prefixes : list str) (e : CursorEntry) : Prop :=
  entry_consumed c e = false ∧ valid_ref_transition (entry_old e) (entry_new e) = true ∧
  (messages = ∅ ∨ entry_message e ∈ messages) ∧ (prefixes = [] ∨ ∃ p, p ∈ prefixes ∧ starts_with p (entry_message e) = true).

(** A move that was not taken, from one commit to another. *)
Definition move_between (c : RefCursor) (before after : str) (e : CursorEntry) : Prop :=
  entry_consumed c e = false ∧ valid_ref_transition before after = true ∧ entry_old e = before ∧ entry_new e = after.

(** What a cursor knows of a key. *)
Definition same_at (key : str) (c d : RefCursor) : Prop :=
  offsets d !! key = offsets c !! key ∧ anchors d !! key = anchors c !! key ∧
  consumed_offsets d !! key = consumed_offsets c !! key ∧ consumed_anchors d !! key = consumed_anchors c !! key.

(** The same in all that taking entries does not touch. *)
Definition same_rest (c d : RefCursor) : Prop :=
  family d = family c ∧ command_start_hints d = command_start_hints c ∧ stash_stack d = stash_stack c ∧
  pending_cherry_pick_source_oids d = pending_cherry_pick_source_oids c.

End CursorLog.

(** ** Lemmas *)

Module CursorExactFacts.
Import Domain Paths Files HashIter Reflog ReflogRef ReflogFacts RefArgs RefMatch CursorState CursorLog Enrich.

(** *** Lists *)

Lemma filter_filter {A} (p q : A → bool) l : List.filter p (List.filter q l) = List.filter (λ x, q x && p x) l.
Proof. induction l as [|x l IH]; [done|]. simpl. destruct (q x); simpl; by rewrite IH. Qed.

Lemma filter_ext {A} (p q : A → bool) l : (∀ x, x ∈ l → p x = q x) → List.filter p l = List.filter q l.
Proof. intros H. apply List.filter_ext_in. intros x Hx%list_elem_of_In. by apply H. Qed.

Lemma filter_map {A B} (f : A → B) (p : B → bool) l : List.filter p (map f l) = map f (List.filter (λ x, p (f x)) l).
Proof. induction l as [|x l IH]; [done|]. simpl. destruct (p (f x)); simpl; by rewrite IH. Qed.

Lemma flat_map_same {A B} (f g : A → list B) (l : list A) : (∀ x, x ∈ l → f x = g x) → flat_map f l = flat_map g l.
Proof.
  induction l as [|x l IH]; intros H; [done|]. simpl. rewrite H by by left. f_equal. apply IH. intros y Hy. apply H. by right.
Qed.

Lemma omap_same {A B} (f g : A → option B) (l : list A) : (∀ x, x ∈ l → f x = g x) → omap f l = omap g l.
Proof.
  induction l as [|x l IH]; intros H; [done|]. cbn. rewrite H by by left. rewrite IH; [done|]. intros y Hy. apply H. by right.
Qed.

(** *** The entries ahead *)

Lemma log_entries_sorted l : StronglySorted (λ d e, end_offset d < end_offset e) (log_entries l).
Proof.
  unfold log_entries. assert (StronglySorted (λ r s, record_end r < record_end s)
    (List.filter (λ r, negb (str_eqb (record_old r) (record_new r))) (records_from (log_bytes l) 0))) as H.
  { apply StronglySorted_filter. rewrite records_from_0. apply records_loop_sorted. }
  induction H as [|r rs _ IH Hr]; [constructor|]. simpl. constructor; [done|].
  apply Forall_fmap. eapply Forall_impl; [exact Hr|done].
Qed.

Lemma log_entry l e : e ∈ log_entries l → ∃ r, r ∈ records_from (log_bytes l) 0 ∧ e = entry_of_record (log_key l) (log_path l) (log_ref l) r.
Proof. intros (r & -> & Hr)%list_elem_of_fmap. exists r. split; [|done]. by apply elem_of_filter_b in Hr as [Hr _]. Qed.

Lemma entries_ahead_sorted c l : StronglySorted (λ d e, end_offset d < end_offset e) (entries_ahead c l).
Proof. apply StronglySorted_filter, log_entries_sorted. Qed.

Lemma ahead_key c l e : e ∈ entries_ahead c l → entry_key e = log_key l ∧ entry_path e = log_path l ∧ entry_reference e = log_ref l.
Proof. intros [He _]%elem_of_filter_b. apply log_entry in He as (r & _ & ->). done. Qed.

(** Two entries with the same end are one. *)
Lemma same_end {l : list CursorEntry} {d e} :
  StronglySorted (λ d e, end_offset d < end_offset e) l → d ∈ l → e ∈ l → end_offset d = end_offset e → d = e.
Proof.
  induction 1 as [|x l _ IH Hx]; [by intros ?%elem_of_nil|]. rewrite Forall_forall in Hx.
  intros [->|Hd]%elem_of_cons [->|He]%elem_of_cons Heq; [done| | |by apply IH].
  - specialize (Hx _ He). lia.
  - specialize (Hx _ Hd). lia.
Qed.

Section Log.
Context `{disk : Disk}.
Variable l : Log.
Hypothesis Hdisk : on_disk l.

Lemma read_ahead c :
  in_step c l → read_reflog_entries (log_key l) (log_path l) (log_ref l) (offsets c !! log_key l) = Ret (entries_ahead c l).
Proof.
  intros Hs. unfold read_reflog_entries, read_reflog_records, read_log. rewrite Hdisk. cbn [obind].
  unfold entries_ahead, cursor_position, in_step in *. destruct (offsets c !! log_key l) as [off|]; cbn [default].
  - destruct Hs as (Hle & Hw & _). assert (N.of_nat (length (log_bytes l)) <? off = false) as -> by by apply N.ltb_ge.
    rewrite records_after by done. unfold log_entries. rewrite filter_map, !filter_filter. f_equal. f_equal.
    apply filter_ext. intros r _. apply andb_comm.
  - unfold log_entries. do 2 f_equal. rewrite filter_map. f_equal. symmetry. apply List.forallb_filter_id, forallb_forall.
    intros r [Hr _]%filter_In. apply N.ltb_lt. rewrite records_from_0 in Hr. apply list_elem_of_In, records_loop_bounds in Hr as (_ & ? & _).
    simpl. lia.
Qed.

Lemma start_in_step c : in_step c l → reflog_start_offset (log_key l) (log_path l) c = (c, Ret (offsets c !! log_key l)).
Proof.
  intros Hs. unfold reflog_start_offset. unfold in_step in Hs. destruct (offsets c !! log_key l) as [off|]; [|done].
  destruct Hs as (Hle & _ & Ha). destruct (N.eqb_spec off 0) as [->|Hpos]; [done|]. unfold metadata_len. rewrite Hdisk.
  assert (N.of_nat (length (log_bytes l)) <? off = false) as Hlt by by apply N.ltb_ge. rewrite Hlt.
  destruct (anchors c !! log_key l) as [a|]; [|done]. destruct Ha as [|Ha]; [lia|]. specialize (Ha a eq_refl).
  unfold read_reflog_record_ending_at. destruct (N.eqb_spec off 0); [lia|]. rewrite Hdisk, Hlt, Ha. by rewrite bool_decide_eq_true_2.
Qed.

Lemma find_in_step c expected prefixes use_hint :
  in_step c l →
  find_entry_in_log_with_hint (log_key l) (log_path l) (log_ref l) expected prefixes use_hint c =
  (c, Ret (if use_hint then select_candidate_with_hint c (log_key l) (candidates c l expected prefixes)
           else List.hd_error (candidates c l expected prefixes))).
Proof.
  intros Hs. unfold find_entry_in_log_with_hint, bind. rewrite start_in_step by done. unfold lift. by rewrite read_ahead.
Qed.

(** *** Taking an entry *)

Lemma consumed_mark c e x :
  entry_key x = entry_key e → end_offset x ≠ end_offset e → entry_consumed (mark_consumed e c) x = entry_consumed c x.
Proof.
  intros Hk Hne. unfold entry_consumed, mark_consumed. cbn. rewrite Hk, !lookup_insert_eq.
  rewrite lookup_insert_ne by done.
  destruct (consumed_offsets c !! entry_key e) as [taken|], (consumed_anchors c !! entry_key e) as [marks|]; cbn [default].
  - f_equal. apply bool_decide_ext. rewrite elem_of_union, elem_of_singleton. naive_solver.
  - rewrite lookup_empty. by rewrite andb_false_r.
  - rewrite bool_decide_eq_false_2; [done|]. rewrite elem_of_union, elem_of_singleton. set_solver.
  - rewrite lookup_empty. by rewrite andb_false_r.
Qed.

Lemma consumed_marked c e : entry_consumed (mark_consumed e c) e = true.
Proof.
  unfold entry_consumed, mark_consumed. cbn. rewrite !lookup_insert_eq. rewrite !bool_decide_eq_true_2; [done|done|].
  apply elem_of_union_l. by apply elem_of_singleton.
Qed.

Lemma consumed_compacted c last x :
  entry_key x = log_key l → end_offset last < end_offset x → entry_consumed (compacted (log_key l) last c) x = entry_consumed c x.
Proof.
  intros Hk Hlt. unfold entry_consumed, compacted. cbn. rewrite Hk, !lookup_partial_alter_eq.
  destruct (consumed_offsets c !! log_key l) as [taken|], (consumed_anchors c !! log_key l) as [marks|]; cbn [mbind option_bind]; [|by case_match|done..].
  unfold retain_after, retain_marks.
  assert (end_offset x ∈ filter (λ offset, end_offset last < offset) taken ↔ end_offset x ∈ taken) as H1.
  { rewrite elem_of_filter. naive_solver. }
  assert (filter (λ p : N * ReflogAnchor, end_offset last < p.1) marks !! end_offset x = marks !! end_offset x) as H2.
  { destruct (marks !! end_offset x) as [a|] eqn:E; [by apply map_lookup_filter_Some|]. apply map_lookup_filter_None. by left. }
  rewrite <-(bool_decide_ext _ _ H1), <-H2. case_bool_decide as E1.
  - rewrite E1. rewrite (bool_decide_eq_false_2 (_ ∈ ∅)); [done|]. apply not_elem_of_empty.
  - case_bool_decide as E2; [|done]. rewrite E2, lookup_empty. rewrite (bool_decide_eq_false_2 (None = Some _)) by done. by rewrite andb_false_r.
Qed.
Lemma consumed_prefix_split c es last_taken :
  consumed_prefix c es last_taken = last_taken ∨
  ∃ pre last suf, es = pre ++ last :: suf ∧ consumed_prefix c es last_taken = Some last ∧
    Forall (λ e, entry_consumed c e = true) (pre ++ [last]).
Proof.
  revert last_taken. induction es as [|e es IH]; intros last_taken; [by left|]. cbn [consumed_prefix].
  destruct (entry_consumed c e) eqn:E; [|by left]. right. destruct (IH (Some e)) as [->|(pre & last & suf & -> & -> & Hf)].
  - exists [], e, es. repeat split. by repeat constructor.
  - exists (e :: pre), last, suf. repeat split. by constructor.
Qed.

(** The state after compaction, in step, with the same fresh entries. *)
Lemma compacted_exact c last :
  in_step c l → last ∈ entries_ahead c l → (∀ x, x ∈ entries_ahead c l → end_offset x ≤ end_offset last → entry_consumed c x = true) →
  in_step (compacted (log_key l) last c) l ∧ fresh_entries (compacted (log_key l) last c) l = fresh_entries c l.
Proof.
  intros Hs Hl Hbefore. pose proof Hl as [He Hpos]%elem_of_filter_b. apply N.ltb_lt in Hpos.
  destruct (log_entry l last He) as (r & Hr & Hlast). split.
  - unfold in_step. cbn. rewrite !lookup_insert_eq. destruct (record_ends_line _ _ Hr) as [Hle Hw]. rewrite Hlast. cbn.
    split; [done|]. split; [done|]. right. intros a [= <-]. by rewrite (record_found _ _ Hr).
  - unfold fresh_entries, entries_ahead. rewrite !filter_filter. apply filter_ext. intros x Hx.
    assert (entry_key x = log_key l) as Hkx by by apply log_entry in Hx as (rx & _ & ->).
    unfold cursor_position at 1. cbn. rewrite lookup_insert_eq. cbn.
    destruct (N.ltb_spec (end_offset last) (end_offset x)) as [Hlt|Hge]; cbn [andb].
    + assert (cursor_position c l <? end_offset x = true) as -> by (apply N.ltb_lt; lia). cbn [andb].
      unfold fresh. by rewrite consumed_compacted.
    + destruct (N.ltb_spec (cursor_position c l) (end_offset x)) as [Hp|]; [|done]. cbn [andb]. unfold fresh.
      rewrite Hbefore; [done| |done]. apply elem_of_filter_b. split; [done|by apply N.ltb_lt].
Qed.

Lemma marked_in_step c e : in_step c l → in_step (mark_consumed e c) l.
Proof. done. Qed.

Lemma marked_ahead c e : entries_ahead (mark_consumed e c) l = entries_ahead c l.
Proof. done. Qed.

Lemma consume_exact c e :
  in_step c l → e ∈ entries_ahead c l →
  ∃ c', consume_entry e c = (c', Ret tt) ∧ in_step c' l ∧
    fresh_entries c' l = List.filter (λ x, negb (end_offset x =? end_offset e)) (fresh_entries c l).
Proof.
  intros Hs He. destruct (ahead_key c l e He) as (Hk & Hp & Hr). unfold consume_entry, compact_consumed_entries, bind, modify, gets, lift.
  rewrite Hk, Hp, Hr. set (c1 := mark_consumed e c).
  assert (in_step c1 l) as Hs1 by done. rewrite read_ahead by done.
  assert (fresh_entries c1 l = List.filter (λ x, negb (end_offset x =? end_offset e)) (fresh_entries c l)) as Hf1.
  { unfold fresh_entries. rewrite filter_filter. apply filter_ext. intros x Hx. destruct (ahead_key c l x Hx) as (Hkx & _ & _).
    unfold fresh. destruct (N.eqb_spec (end_offset x) (end_offset e)) as [Heq|Hne].
    - rewrite (same_end (entries_ahead_sorted c l) Hx He Heq). subst c1. rewrite consumed_marked. by rewrite andb_false_r.
    - subst c1. rewrite consumed_mark by congruence. by rewrite andb_true_r. }
  rewrite <-Hf1. clearbody c1. clear Hf1 He Hs c.
  destruct (consumed_prefix_split c1 (entries_ahead c1 l) None) as [->|(pre & last & suf & Hsplit & -> & Hall)]; [by exists c1|].
  destruct (default 0 (offsets c1 !! log_key l) <? end_offset last); [|by exists c1].
  exists (compacted (log_key l) last c1). split; [done|]. apply compacted_exact; [done| |].
  - rewrite Hsplit, elem_of_app. right. by left.
  - intros x Hx Hle. rewrite Forall_forall in Hall. apply Hall. rewrite Hsplit in Hx.
    apply elem_of_app in Hx as [Hx|[->|Hx]%elem_of_cons]; [apply elem_of_app; by left|apply elem_of_app; right; by left|].
    exfalso. pose proof (entries_ahead_sorted c1 l) as Hsort. rewrite Hsplit in Hsort.
    assert (StronglySorted (λ d e, end_offset d < end_offset e) (last :: suf)) as Hsuf.
    { clear -Hsort. induction pre as [|p pre IH]; [done|]. apply IH. by inversion Hsort. }
    inversion_clear Hsuf as [|? ? _ Hlt]. rewrite Forall_forall in Hlt. specialize (Hlt x Hx). lia.
Qed.

(** The candidates are among the fresh entries. *)
Lemma candidates_fresh c expected prefixes :
  candidates c l expected prefixes =
  List.filter (λ e, matches expected e && message_matches (entry_message e) prefixes) (fresh_entries c l).
Proof.
  unfold candidates, fresh_entries. rewrite filter_filter. apply filter_ext. intros e _. unfold candidate, fresh. by rewrite andb_assoc.
Qed.

Lemma candidate_ahead c expected prefixes e : e ∈ candidates c l expected prefixes → e ∈ entries_ahead c l.
Proof. by intros [He _]%elem_of_filter_b. Qed.

Lemma consume_candidates c e expected prefixes :
  in_step c l → e ∈ entries_ahead c l →
  ∃ c', consume_entry e c = (c', Ret tt) ∧ in_step c' l ∧
    candidates c' l expected prefixes = List.filter (λ x, negb (end_offset x =? end_offset e)) (candidates c l expected prefixes).
Proof.
  intros Hs He. destruct (consume_exact c e Hs He) as (c' & Hc & Hs' & Hf). exists c'. split; [done|]. split; [done|].
  rewrite !candidates_fresh, Hf, !filter_filter. apply filter_ext. intros x _. apply andb_comm.
Qed.
End Log.

(** *** Draining a log *)

Lemma candidates_sorted c l expected prefixes : StronglySorted (λ d e, end_offset d < end_offset e) (candidates c l expected prefixes).
Proof. apply StronglySorted_filter, entries_ahead_sorted. Qed.

Lemma filter_tail e es :
  StronglySorted (λ d e, end_offset d < end_offset e) (e :: es) → List.filter (λ x, negb (end_offset x =? end_offset e)) (e :: es) = es.
Proof.
  intros H. inversion_clear H as [|? ? _ He]. rewrite Forall_forall in He. cbn [List.filter]. rewrite N.eqb_refl. cbn [negb].
  apply List.forallb_filter_id, forallb_forall. intros x Hx%list_elem_of_In. specialize (He x Hx).
  destruct (N.eqb_spec (end_offset x) (end_offset e)); [lia|done].
Qed.

Lemma length_candidates c l expected prefixes : (length (candidates c l expected prefixes) ≤ length (log_bytes l))%nat.
Proof.
  unfold candidates, entries_ahead, log_entries. assert (∀ A (p : A → bool) x, (length (List.filter p x) ≤ length x)%nat) as Hf.
  { intros A p x. induction x as [|y x IH]; [done|]. simpl. destruct (p y); simpl; lia. }
  etrans; [apply Hf|]. etrans; [apply Hf|]. rewrite length_map. etrans; [apply Hf|].
  rewrite records_from_0. etrans; [apply length_records|]. apply length_split_inclusive.
Qed.

(** *** What taking an entry leaves alone *)

Definition only_at (key : str) (c d : RefCursor) : Prop := same_rest c d ∧ ∀ k, k ≠ key → same_at k c d.

Lemma only_at_refl key c : only_at key c c.
Proof. split; [done|]. by intros k _. Qed.

Lemma only_at_trans key c d e : only_at key c d → only_at key d e → only_at key c e.
Proof.
  intros [(? & ? & ? & ?) Hcd] [(? & ? & ? & ?) Hde]. split; [repeat split; congruence|]. intros k Hk.
  destruct (Hcd k Hk) as (? & ? & ? & ?), (Hde k Hk) as (? & ? & ? & ?). repeat split; congruence.
Qed.

Lemma consume_only_at `{disk : Disk} e c : only_at (entry_key e) c (consume_entry e c).1.
Proof.
  assert (∀ d, only_at (entry_key e) d (mark_consumed e d)) as Hm.
  { intros d. split; [done|]. intros k Hk. repeat split; cbn; by rewrite ?lookup_insert_ne. }
  assert (∀ d last, only_at (entry_key e) d (compacted (entry_key e) last d)) as Hc.
  { intros d last. split; [done|]. intros k Hk. repeat split; cbn; by rewrite ?lookup_insert_ne, ?lookup_partial_alter_ne. }
  unfold consume_entry, compact_consumed_entries, bind, modify, gets, lift.
  destruct (read_reflog_entries _ _ _ _) as [entries|error|]; cbn [fst]; [|apply Hm..].
  destruct (consumed_prefix _ entries None) as [last|]; [|apply Hm]. destruct (_ <? _); [|apply Hm].
  eapply only_at_trans; [apply Hm|apply Hc].
Qed.

(** What is known of a log depends on its key only. *)
Lemma same_at_log c d l :
  same_at (log_key l) c d → (in_step c l → in_step d l) ∧ ∀ expected prefixes, candidates d l expected prefixes = candidates c l expected prefixes.
Proof.
  intros (Ho & Ha & Hco & Hca). split; [unfold in_step; by rewrite Ho, Ha|]. intros expected prefixes.
  unfold candidates, entries_ahead, cursor_position. rewrite Ho, !filter_filter. apply filter_ext. intros e He. f_equal.
  unfold candidate, entry_consumed. assert (entry_key e = log_key l) as -> by by apply log_entry in He as (r & _ & ->).
  by rewrite Hco, Hca.
Qed.

Section Drain.
Context `{disk : Disk}.

(** A search that finds the first candidate in a log. *)
Definition finds_first (dir : path) (l : Log) (expected : ExpectedTransition) (prefixes : list str) (find : M (option CursorEntry)) : Prop :=
  ∀ d, common_dir d = dir → in_step d l → find d = (d, Ret (List.hd_error (candidates d l expected prefixes))).

Lemma drain_exact dir l expected prefixes find todo : ∀ fuel changes c,
  finds_first dir l expected prefixes find →
  on_disk l → in_step c l → common_dir c = dir → candidates c l expected prefixes = todo → (length todo < fuel)%nat →
  ∃ c', drain fuel find changes c = (c', Ret (changes ++ map entry_to_ref_change todo)) ∧
    in_step c' l ∧ candidates c' l expected prefixes = [] ∧ only_at (log_key l) c c'.
Proof.
  induction todo as [|e todo IH]; intros [|fuel] changes c Hfind Hd Hs Hdir Hc Hf; try (simpl in Hf; lia).
  - exists c. cbn [drain]. unfold bind at 1. rewrite (Hfind c Hdir Hs), Hc. cbn. rewrite app_nil_r.
    do 3 (split; [done|]). apply only_at_refl.
  - assert (e ∈ entries_ahead c l) as He by (eapply candidate_ahead; rewrite Hc; by left).
    destruct (ahead_key c l e He) as (Hk & _ & _).
    destruct (consume_candidates l Hd c e expected prefixes Hs He) as (c1 & Hc1 & Hs1 & Hcand).
    pose proof (candidates_sorted c l expected prefixes) as Hsort. rewrite Hc in Hsort, Hcand. rewrite filter_tail in Hcand by done.
    assert (only_at (log_key l) c c1) as Ho1 by (pose proof (consume_only_at e c) as Hfr; by rewrite Hc1, Hk in Hfr).
    destruct (IH fuel (changes ++ [entry_to_ref_change e]) c1 Hfind Hd Hs1) as (c2 & Hdr & Hs2 & Hn2 & Ho2); [|done|simpl in Hf; lia|].
    { destruct Ho1 as [[Hfam _] _]. unfold common_dir in *. congruence. }
    exists c2. cbn [drain]. unfold bind at 1. rewrite (Hfind c Hdir Hs), Hc. cbn [List.hd_error].
    unfold take_entry, bind. rewrite Hc1. unfold ret. rewrite Hdr. cbn [map]. rewrite <-app_assoc. do 3 (split; [done|]).
    by apply (only_at_trans _ c c1 c2).
Qed.

(** *** Several logs *)

Lemma common_key_inj r s : common_key r = common_key s → r = s.
Proof. unfold common_key. apply app_inv_head. Qed.

Lemma head_key_common git_dir r : head_key git_dir ≠ common_key r.
Proof. unfold head_key, common_key. by intros [=]. Qed.

Lemma drain_refs_exact dir logs references : ∀ changes c,
  NoDup references → common_dir c = dir →
  (∀ r, r ∈ references → on_disk (ref_log dir logs r) ∧ in_step c (ref_log dir logs r)) →
  Forall (λ r, CliParser.one_of ["HEAD"; "ORIG_HEAD"]%string r = false) references →
  ∃ c', EnrichCommand.drain_refs references changes c =
    (c', Ret (changes ++ flat_map (λ r, map entry_to_ref_change (candidates c (ref_log dir logs r) any_transition [])) references)) ∧
    (∀ r, r ∈ references → candidates c' (ref_log dir logs r) any_transition [] = []) ∧
    same_rest c c' ∧ ∀ k, (∀ r, r ∈ references → k ≠ common_key r) → same_at k c c'.
Proof.
  induction references as [|r rest IH]; intros changes c Hnd Hdir Hlogs Hskip.
  { exists c. cbn. rewrite app_nil_r. split; [done|]. split; [by intros r ?%elem_of_nil|]. by split. }
  apply NoDup_cons in Hnd as [Hr Hnd]. inversion_clear Hskip as [|? ? Hsr Hskip'].
  destruct (Hlogs r) as [Hd Hs]; [by left|]. set (l := ref_log dir logs r) in *.
  assert (finds_first dir l any_transition [] (find_common_ref_entry_without_hint r any_transition [])) as Hfind.
  { intros d Hdd Hsd. unfold find_common_ref_entry_without_hint, bind at 1, gets at 1. rewrite Hdd. by apply (find_in_step l Hd d any_transition [] false). }
  destruct (drain_exact dir l any_transition [] _ _ (S (log_size (log_path l))) changes c Hfind Hd Hs Hdir eq_refl) as (c1 & Hc1 & Hs1 & Hn1 & [Hrest1 Hk1]).
  { unfold log_size. rewrite Hd. pose proof (length_candidates c l any_transition []). lia. }
  assert (∀ s, s ∈ rest → same_at (log_key (ref_log dir logs s)) c c1) as Hsame.
  { intros s Hin. apply Hk1. intros Heq. apply common_key_inj in Heq. by subst s. }
  destruct (IH (changes ++ map entry_to_ref_change (candidates c l any_transition [])) c1) as (c2 & Hc2 & Hn2 & Hrest2 & Hk2); [done| | |done|].
  { unfold common_dir in *. destruct Hrest1 as (Hfam & _). congruence. }
  { intros s Hin. destruct (Hlogs s) as [? ?]; [by right|]. split; [done|]. by apply (same_at_log c c1 _ (Hsame s Hin)). }
  exists c2. split; [|split; [|split]].
  - cbn [EnrichCommand.drain_refs]. rewrite Hsr. unfold bind at 1, gets at 1. rewrite Hdir. unfold bind at 1.
    change (common_log dir r) with (log_path l). rewrite Hc1, Hc2, <-app_assoc. cbn [flat_map]. do 4 f_equal.
    apply flat_map_same. intros s Hin. f_equal. by apply same_at_log, Hsame.
  - intros s [->|Hin]%elem_of_cons; [|by apply Hn2]. fold l.
    rewrite <-Hn1. apply same_at_log. apply Hk2. intros s Hin Heq. apply common_key_inj in Heq. by subst s.
  - destruct Hrest1 as (? & ? & ? & ?), Hrest2 as (? & ? & ? & ?). repeat split; congruence.
  - intros k Hk. destruct (Hk1 k) as (? & ? & ? & ?); [by apply Hk; left|].
    destruct (Hk2 k) as (? & ? & ? & ?); [intros s Hin; apply Hk; by right|]. repeat split; congruence.
Qed.

Definition drained (r : str) : bool := negb (CliParser.one_of ["HEAD"; "ORIG_HEAD"]%string r).

Lemma drain_refs_skip references changes c :
  EnrichCommand.drain_refs references changes c = EnrichCommand.drain_refs (List.filter drained references) changes c.
Proof.
  revert changes c. induction references as [|r rest IH]; intros changes c; [done|]. cbn [List.filter EnrichCommand.drain_refs]. unfold drained at 1.
  destruct (CliParser.one_of _ r) eqn:E; cbn [negb]; [apply IH|]. cbn [EnrichCommand.drain_refs]. rewrite E.
  unfold bind, gets. destruct (drain _ _ _ _) as [d [ch|er|]]; [apply IH|done..].
Qed.

(** *** The refs that move with an entry *)

Lemma chosen_in c expected prefixes l e : chosen c expected prefixes l = Some e → e ∈ candidates c l expected prefixes.
Proof.
  unfold chosen, select_candidate_with_hint. destruct (command_start_hints c !! log_key l) as [hint|].
  - assert (∀ es latest, hinted hint es latest = Some e → latest = Some e ∨ e ∈ es) as H.
    { induction es as [|d es IH]; intros latest; cbn [hinted]; [by left|]. destruct (hint <=? start_offset d).
      - intros [= ->]. right. by left.
      - intros [[= ->]|Hin]%IH; right; [by left|by right]. }
    by intros [?|?]%H.
  - destruct (candidates c l expected prefixes) as [|d es]; [done|]. intros [= ->]. by left.
Qed.

Lemma chosen_same c d expected prefixes l :
  same_at (log_key l) c d → same_rest c d → chosen d expected prefixes l = chosen c expected prefixes l.
Proof.
  intros Hs (_ & Hh & _). unfold chosen, select_candidate_with_hint. rewrite Hh. destruct (same_at_log c d l Hs) as [_ Hc]. by rewrite Hc.
Qed.

Lemma hinted_picked h p es : ∀ latest e,
  hinted h (List.filter p es) latest = Some e ↔
  picked (Some h) (λ x, p x = true) es e ∨ latest = Some e ∧ ∀ x, x ∈ es → p x = false.
Proof.
  induction es as [|x es IH]; intros latest e; cbn [List.filter].
  { cbn [hinted]. split; [intros H; right; split; [done|by intros x ?%elem_of_nil]|].
    intros [([|? ?] & ? & ? & _)|[? _]]; by simplify_eq/=. }
  assert (∀ l, (picked (Some h) (λ x, p x = true) es e ∨ l = Some e ∧ ∀ x, x ∈ es → p x = false) ↔ hinted h (List.filter p es) l = Some e) as IH'.
  { intros l. by rewrite IH. } clear IH.
  assert ((p x = true → start_offset x < h) → picked (Some h) (λ x, p x = true) es e → picked (Some h) (λ x, p x = true) (x :: es) e) as Hcons.
  { intros Hx (before & after & -> & He & Hb & Ha). exists (x :: before), after. do 2 (split; [done|]). split; [|done].
    by intros y [->|Hy]%elem_of_cons; [|apply Hb]. }
  assert (∀ Q : Prop, picked (Some h) (λ x, p x = true) (x :: es) e →
    (p x = true → x = e → h ≤ start_offset x ∨ (start_offset x < h ∧ ∀ y, y ∈ es → p y = false) → Q) →
    ((p x = true → start_offset x < h) → picked (Some h) (λ x, p x = true) es e → Q) → Q) as Hinv.
  { intros Q ([|y before] & after & Heq & He & Hb & Ha) H1 H2; injection Heq as -> ->.
    - apply H1; [done|done|]. destruct Ha as [|[? Ha]]; [by left|right]. split; [done|]. intros y Hy. apply not_true_iff_false, Ha, Hy.
    - apply H2; [apply Hb; by left|]. exists before, after. do 2 (split; [done|]). split; [|done]. intros z Hz. apply Hb. by right. }
  destruct (p x) eqn:Hp; cbn [hinted].
  - destruct (N.leb_spec h (start_offset x)) as [Hle|Hlt]; split.
    + intros [= ->]. left. exists [], es. split; [done|]. split; [done|]. split; [by intros ? ?%elem_of_nil|by left].
    + intros [H|[_ H]]; [|specialize (H x ltac:(by left)); congruence]. apply (Hinv _ H); [by intros _ -> _|]. intros Hx _. specialize (Hx eq_refl). lia.
    + intros [H|[[= ->] H]]%IH'; left; [by apply Hcons|]. exists [], es. split; [done|]. split; [done|].
      split; [by intros ? ?%elem_of_nil|]. right. split; [done|]. intros y Hy. by rewrite H.
    + intros [H|[_ H]]; [|specialize (H x ltac:(by left)); congruence]. apply IH'. apply (Hinv _ H); [|by left].
      intros _ -> [?|[_ Hall]]; [lia|]. by right.
  - rewrite <-IH'. split.
    + intros [H|[-> H]]; [left; by apply Hcons|right]. split; [done|]. by intros y [->|Hy]%elem_of_cons; [|apply H].
    + intros [H|[-> H]]; [left|right; split; [done|]; intros y Hy; apply H; by right]. by apply (Hinv _ H).
Qed.

Lemma first_picked p es e : List.hd_error (List.filter p es) = Some e ↔ picked None (λ x, p x = true) es e.
Proof.
  induction es as [|x es IH]; cbn [List.filter]; [split; [done|by intros ([|? ?] & ? & ? & _)]|]. destruct (p x) eqn:Hp; [split|rewrite IH; split].
  - intros [= ->]. exists [], es. do 2 (split; [done|]). by intros ? ?%elem_of_nil.
  - intros ([|y before] & after & Heq & He & Hb); injection Heq as -> ->; [done|]. destruct (Hb y); [by left|done].
  - intros (before & after & -> & He & Hb). exists (x :: before), after. do 2 (split; [done|]). intros y [->|Hy]%elem_of_cons; [by rewrite Hp|by apply Hb].
  - intros ([|y before] & after & Heq & He & Hb); injection Heq as -> ->; [congruence|]. exists before, after. do 2 (split; [done|]).
    intros z Hz. apply Hb. by right.
Qed.

Lemma picked_same hint (P Q : CursorEntry → Prop) es e : (∀ x, P x ↔ Q x) → picked hint P es e → picked hint Q es e.
Proof.
  intros H (before & after & -> & He & Hh). exists before, after. split; [done|]. split; [by apply H|].
  destruct hint; [|naive_solver]. destruct Hh as [Hb Ha]. split; [naive_solver|]. destruct Ha as [|[? Ha]]; naive_solver.
Qed.

Lemma chosen_picked c expected prefixes l fits e :
  (∀ x, fits x ↔ candidate c expected prefixes x = true) → chosen c expected prefixes l = Some e ↔ picked_in c l fits e.
Proof.
  intros Hfits. assert (∀ hint es, picked hint fits es e ↔ picked hint (λ x, candidate c expected prefixes x = true) es e) as Heq.
  { intros hint es. by split; apply picked_same; intros x; rewrite Hfits. }
  unfold picked_in. rewrite Heq. unfold chosen, select_candidate_with_hint, candidates. destruct (_ !! _) as [h|]; [|apply first_picked].
  rewrite hinted_picked. naive_solver.
Qed.

Lemma named_move_candidate c messages prefixes x :
  named_move c messages prefixes x ↔ candidate c (with_reflog_messages any_transition messages) prefixes x = true.
Proof.
  unfold named_move, candidate, matches, message_matches, new_allowed. cbn. destruct (entry_consumed c x); cbn [negb andb]; [naive_solver|].
  rewrite (bool_decide_eq_true_2 (∅ = ∅)) by done. cbn [orb]. rewrite !andb_true_r, !andb_true_iff, !orb_true_iff, !bool_decide_eq_true.
  assert (existsb (λ prefix, starts_with prefix (entry_message x)) prefixes = true ↔ ∃ p, p ∈ prefixes ∧ starts_with p (entry_message x) = true) as ->; [|naive_solver].
  rewrite existsb_exists. by setoid_rewrite <-list_elem_of_In.
Qed.

Lemma move_between_candidate c before after x : move_between c before after x ↔ candidate c (transition before after) [] x = true.
Proof.
  unfold move_between, candidate, matches, message_matches, new_allowed. cbn. destruct (entry_consumed c x); cbn [negb andb]; [naive_solver|].
  rewrite (bool_decide_eq_true_2 (∅ = ∅)) by done. rewrite ?(bool_decide_eq_true_2 ([] = [])) by done. cbn [orb].
  rewrite (bool_decide_eq_false_2 ({[before]} = ∅)) by set_solver. cbn [orb].
  rewrite !andb_true_r, !andb_true_iff, bool_decide_eq_true, elem_of_singleton, str_eqb_eq. naive_solver.
Qed.

Definition followed (r : str) : bool := negb (CliParser.one_of ["HEAD"; "ORIG_HEAD"; "refs/stash"]%string r).

Definition follow (c : RefCursor) (before after dir : str) (logs : str → str) (r : str) : option RefChange :=
  if followed r then entry_to_ref_change <$> chosen c (transition before after) [] (ref_log dir logs r) else None.

Lemma follow_same c d before after dir logs r :
  same_at (common_key r) c d → same_rest c d → follow d before after dir logs r = follow c before after dir logs r.
Proof. intros Hs Hr. unfold follow. destruct (followed r); [|done]. f_equal. by apply chosen_same. Qed.

Lemma matching_refs_exact dir logs before after references : ∀ out c,
  NoDup references → common_dir c = dir →
  (∀ r, r ∈ references → followed r = true → on_disk (ref_log dir logs r) ∧ in_step c (ref_log dir logs r)) →
  ∃ c', matching_refs_loop before after references out c = (c', Ret (out ++ omap (follow c before after dir logs) references)).
Proof.
  induction references as [|r rest IH]; intros out c Hnd Hdir Hlogs; [exists c; cbn; by rewrite app_nil_r|].
  apply NoDup_cons in Hnd as [Hr Hnd]. cbn [matching_refs_loop omap list_omap]. unfold follow at 1, followed at 1.
  destruct (CliParser.one_of _ r) eqn:Hsk; cbn [negb].
  { apply IH; [done|done|]. intros s Hs. apply Hlogs. by right. }
  destruct (Hlogs r) as [Hd Hs]; [by left|unfold followed; by rewrite Hsk|]. set (l := ref_log dir logs r) in *.
  assert (find_common_ref_entry r (transition before after) [] c = (c, Ret (chosen c (transition before after) [] l))) as Hfind.
  { unfold find_common_ref_entry, find_entry_in_log, bind at 1, gets at 1. rewrite Hdir. by apply (find_in_step l Hd c _ [] true). }
  unfold bind at 1. rewrite Hfind. destruct (chosen c (transition before after) [] l) as [e|] eqn:He; cbn [fmap option_fmap option_map].
  - apply chosen_in in He as Hin. pose proof (candidate_ahead _ _ _ _ _ Hin) as Hah. destruct (ahead_key c l e Hah) as (Hk & _ & _).
    destruct (consume_exact l Hd c e Hs Hah) as (c1 & Hc1 & Hs1 & _).
    assert (only_at (log_key l) c c1) as [Hrest Hsame] by (pose proof (consume_only_at e c) as Hfr; by rewrite Hc1, Hk in Hfr).
    assert (∀ s, s ∈ rest → same_at (common_key s) c c1) as Hsm.
    { intros s Hsin. apply Hsame. intros Heq. apply common_key_inj in Heq. by subst s. }
    destruct (IH (out ++ [entry_to_ref_change e]) c1) as (c2 & Hc2); [done| | |].
    + destruct Hrest as (Hfam & _). unfold common_dir in *. congruence.
    + intros s Hsin Hfs. destruct (Hlogs s) as [? ?]; [by right|done|]. split; [done|]. by apply (same_at_log c c1 (ref_log dir logs s) (Hsm s Hsin)).
    + exists c2. unfold bind. cbn [take_found]. unfold take_entry, bind. rewrite Hc1. unfold ret. rewrite Hc2, <-app_assoc. cbn [app].
      do 4 f_equal. apply omap_same. intros s Hsin. apply follow_same; [by apply Hsm|done].
  - unfold bind. cbn [take_found ret]. apply IH; [done|done|]. intros s Hsin. apply Hlogs. by right.
Qed.

(** An entry of the head log, taken, and the refs that moved as it did. *)
Lemma head_entry_exact w logs head_bytes references e c cmd :
  discover_common_refs c = Ret references → NoDup references →
  (∀ l, l ∈ worktree_logs w head_bytes → on_disk l ∧ in_step c l ∧ e ∈ entries_ahead c l) →
  worktree_logs w head_bytes ≠ [] →
  (∀ r, r ∈ references → followed r = true → on_disk (ref_log (common_dir c) logs r) ∧ in_step c (ref_log (common_dir c) logs r)) →
  ∃ c', consume_head_entry_for_command cmd e c =
    (c', Ret (with_ref_changes cmd (dedup_ref_changes []
      (entry_to_ref_change e :: omap (follow c (entry_old e) (entry_new e) (common_dir c) logs) references)))).
Proof.
  intros Hdisc Hnd Hw Hne Hlogs. unfold worktree_logs in *. destruct (head_of w) as [[hk hp]|] eqn:Hh; [|done].
  set (l := mkLog hk hp (lit "HEAD") head_bytes) in *. destruct (Hw l) as (Hd & Hs & He); [by left|]. clear Hw Hne.
  destruct (ahead_key c l e He) as (Hk & _ & _). destruct (consume_exact l Hd c e Hs He) as (c1 & Hc1 & _).
  assert (only_at (log_key l) c c1) as [Hrest Hsame] by (pose proof (consume_only_at e c) as Hfr; by rewrite Hc1, Hk in Hfr).
  assert (common_dir c1 = common_dir c) as Hdir by apply Hrest.
  assert (∀ r, same_at (common_key r) c c1) as Hsm.
  { intros r. apply Hsame. cbn. intros Heq. unfold head_of in Hh. destruct w as [w|]; [|done].
    destruct (RepoState.git_dir_for_worktree w) as [git_dir|]; [|done]. injection Hh as <- <-. by apply (head_key_common git_dir r). }
  destruct (matching_refs_exact (common_dir c) logs (entry_old e) (entry_new e) references [entry_to_ref_change e] c1) as (c2 & Hc2); [done|done| |].
  { intros r Hr Hf. destruct (Hlogs r Hr Hf). split; [done|]. by apply (same_at_log c c1 (ref_log (common_dir c) logs r) (Hsm r)). }
  exists c2. unfold consume_head_entry_for_command, take_entry, bind at 1 2. rewrite Hc1. unfold ret, bind.
  unfold consume_common_refs_matching_transition, bind, query.
  assert (discover_common_refs c1 = Ret references) as ->.
  { unfold discover_common_refs in *. by rewrite Hdir. }
  rewrite (omap_same _ (follow c (entry_old e) (entry_new e) (common_dir c) logs)) in Hc2 by (intros r _; by apply follow_same).
  cbn [app]. by rewrite Hc2.
Qed.

End Drain.

End CursorExactFacts.

(** ** Properties *)

Module CursorProps.
Import Domain Paths Files HashIter Reflog ReflogRef ReflogProps RefArgs RefMatch CursorState CursorSteps CursorLog CursorStepFacts CursorExactFacts Enrich EnrichCommand.

(** *** Distinct refs *)

Lemma dedup_distinct l : StronglySorted (λ a b, str_le a b = true) l → NoDup (dedup str_eqb l).
Proof.
  assert (∀ l p, StronglySorted (λ a b, str_le a b = true) (p :: l) →
    NoDup (p :: dedup_from str_eqb p l) ∧ Forall (λ b, str_le p b = true) (dedup_from str_eqb p l)) as H.
  { clear. induction l as [|y l IH]; intros p Hs; cbn [dedup_from]; [split; [apply NoDup_singleton|constructor]|].
    inversion_clear Hs as [|? ? Hs' Hp]. inversion_clear Hp as [|? ? Hpy Hpl]. inversion_clear Hs' as [|? ? Hsl Hyl].
    destruct (str_eqb p y) eqn:E; [apply IH; by constructor|]. destruct (IH y) as [Hnd Hfy]; [by constructor|].
    assert (Forall (λ b, str_le p b = true) (dedup_from str_eqb y l)) as Hpf.
    { eapply Forall_impl; [exact Hfy|]. intros b. by apply HashIterFacts.str_le_trans. }
    split; [|by constructor]. constructor; [|done]. intros [->|Hin]%elem_of_cons.
    - by rewrite (proj2 (str_eqb_eq y y)) in E.
    - rewrite Forall_forall in Hfy. specialize (Hfy p Hin). pose proof (HashIterFacts.str_le_antisym p y Hpy Hfy) as ->.
      by rewrite (proj2 (str_eqb_eq y y)) in E. }
  destruct l as [|p l]; [constructor|]. intros Hs. by apply H.
Qed.

Lemma discovered_distinct `{disk : Disk} c references : discover_common_refs c = Ret references → NoDup references.
Proof.
  unfold discover_common_refs. destruct (discover_reflog_refs _ _) as [refs|e|]; cbn [obind]; [|done..]. intros [= <-].
  apply dedup_distinct, sort_by_sorted; intros *; [apply HashIterFacts.str_le_trans|apply HashIterFacts.str_le_total].
Qed.

(** *** The cursor of a family *)

(** What a family's cursor becomes, command after command. *)
Definition follows `{order : HashOrder} (disks : nat → Disk) (names : path → option (list str)) : RefCursor * nat → RefCursor * nat → Prop :=
  λ c c', ∃ cmd state, c' = (FamilyActor.enrich_command (RefCursor := logs_cursor disks names) c cmd state).1.

(** What the lookups of the first [n] commands could read: a record that ended at
    an offset of the log of a key; and the positions that they could not read. *)
Definition read_before (disks : nat → Disk) (dir : path) (n : nat) (key : str) (offset : N) (a : ReflogAnchor) : Prop :=
  ∃ m, (m < n)%nat ∧ recorded (disk := disks m) dir key offset a.

Definition lost_before (disks : nat → Disk) (dir : path) (n : nat) (key : str) (offset : N) : Prop :=
  ∃ m, (m < n)%nat ∧ unreadable (disk := disks m) dir key offset.

Lemma well_formed_mono (seen seen' : str → N → ReflogAnchor → Prop) (lost lost' : str → N → Prop) c :
  (∀ key o a, seen key o a → seen' key o a) → (∀ key o, lost key o → lost' key o) → well_formed seen lost c → well_formed seen' lost' c.
Proof.
  intros Hs Hl [H1 H2 H3 H4 H5]. constructor; try done; [|intros; eapply Hs, H3; done].
  intros key a Ha. destruct (H1 key a Ha) as (o & Ho & [Hk|Hk]); exists o; auto.
Qed.

(** C20: whatever commands a family runs and whatever its logs hold, also when a
    command fails: the anchor of a key is the record that ended at the position of
    the key in its log when some command was looked up, unless the lookup of that
    record failed; the entries marked as taken are marked with records that the
    log held at their ends; the stashes are distinct commits. *)
Theorem cursor_stays_well_formed `{order : HashOrder} disks names family_key c :
  rtc (follows disks names) (FamilyActor.new_cursor (RefCursor := logs_cursor disks names) family_key) c →
  family c.1 = family_key ∧ well_formed (read_before disks family_key c.2) (lost_before disks family_key c.2) c.1.
Proof.
  intros Hc. assert (∀ start, rtc (follows disks names) start c → family start.1 = family_key →
    well_formed (read_before disks family_key start.2) (lost_before disks family_key start.2) start.1 →
    family c.1 = family_key ∧ well_formed (read_before disks family_key c.2) (lost_before disks family_key c.2) c.1) as H.
  { clear Hc. induction 1 as [c|c d e (cmd & state & ->) _ IH]; intros Hfam Hwf; [done|].
    destruct (steps_enrich (disk := disks c.2) family_key names cmd state c.1 Hfam) as [Hsteps _]. cbn in *.
    destruct (enrich_command (disk := disks c.2) names cmd state c.1) as [c' r]. cbn in *. apply IH.
    - by rewrite (steps_family _ _ _ Hsteps).
    - eapply steps_well_formed; [| |exact Hsteps|].
      + intros key o a Hr. exists c.2. split; [lia|done].
      + intros key o Hr. exists c.2. split; [lia|done].
      + eapply well_formed_mono; [| |exact Hwf].
        * intros key o a (m & Hm & Hr). exists m. split; [lia|done].
        * intros key o (m & Hm & Hr). exists m. split; [lia|done]. }
  apply (H _ Hc); [done|apply new_well_formed].
Qed.

Definition sample_bytes : str := reflog_line sample_move.
Definition sample_head_log : Log := mkLog (lit "worktree:/r/.git:HEAD") (lit "/r/.git/logs/HEAD") (lit "HEAD") sample_bytes.

Definition sample_repo : Disk := {|
  node_at p := snd <$> List.find (λ n, str_eqb n.1 p)
    [(lit "/r/.git", Dir 0); (lit "/r/.git/HEAD", File (lit "ref: refs/heads/main")); (lit "/r/.git/logs/HEAD", File sample_bytes);
     (lit "/r/.git/logs/refs/heads/main", File sample_bytes)];
  directory_at p := if str_eqb p (lit "/r/.git/logs")
                    then Listing [SubDirectory (lit "refs") (Listing [SubDirectory (lit "heads") (Listing [FileEntry (lit "main")])])] else Missing;
  canonicalize p := Some p
|}.

Definition sample_entry : CursorEntry :=
  entry_of_record (lit "worktree:/r/.git:HEAD") (lit "/r/.git/logs/HEAD") (lit "HEAD") (written_record sample_move 0).

Lemma sample_ahead : entries_ahead (CursorState.new (lit "/r/.git")) sample_head_log = [sample_entry].
Proof. vm_compute. reflexivity. Qed.

Definition sample_commit : NormalizedCommand :=
  mkCommand (Family (lit "/r/.git")) None (Some (lit "/r")) [] [] (Some (lit "commit")) (Some (lit "commit")) (map lit ["commit"; "-m"; "first"]%string)
    [] 0 0 0 ∅ None [] [] [] Low.

(** The cursor of the sample repository after its commit. *)
Definition sample_start : RefCursor * nat :=
  FamilyActor.new_cursor (RefCursor := logs_cursor (order := in_order) (λ _, sample_repo) (λ _, None)) (lit "/r/.git").
Definition sample_after : RefCursor * nat :=
  (FamilyActor.enrich_command (RefCursor := logs_cursor (order := in_order) (λ _, sample_repo) (λ _, None)) sample_start
     sample_commit (FamilyActor.FamilyActor.initial_state (lit "/r/.git"))).1.

Lemma cursor_stays_well_formed_witness :
  anchors sample_after.1 !! lit "common:refs/heads/main" = Some (anchor_of_entry sample_entry) ∧
  family sample_after.1 = lit "/r/.git" ∧
  well_formed (read_before (λ _, sample_repo) (lit "/r/.git") 1) (lost_before (λ _, sample_repo) (lit "/r/.git") 1) sample_after.1.
Proof.
  split; [vm_compute; reflexivity|].
  apply (cursor_stays_well_formed (order := in_order) (λ _, sample_repo) (λ _, None) (lit "/r/.git") sample_after).
  apply rtc_once. exists sample_commit, (FamilyActor.FamilyActor.initial_state (lit "/r/.git")). reflexivity.
Defined.

(** C13: an entry that is taken, anywhere ahead of the cursor, is the only one that
    is no longer fresh; what the cursor knows of the other logs, its hints, its
    stashes and its pending cherry-picks stay. *)
Theorem taking_leaves_the_others `{disk : Disk} l c e :
  on_disk l → in_step c l → e ∈ entries_ahead c l →
  ∃ c', consume_entry e c = (c', Ret tt) ∧ in_step c' l ∧
    fresh_entries c' l = List.filter (λ x, negb (end_offset x =? end_offset e)) (fresh_entries c l) ∧
    same_rest c c' ∧ ∀ key, key ≠ log_key l → same_at key c c'.
Proof.
  intros Hd Hs He. destruct (consume_exact l Hd c e Hs He) as (c' & Hc & Hs' & Hf). exists c'. do 3 (split; [done|]).
  destruct (ahead_key c l e He) as (Hk & _ & _). pose proof (consume_only_at e c) as Hfr. by rewrite Hc, Hk in Hfr.
Qed.

Lemma taking_leaves_the_others_witness :
  ∃ c', consume_entry (disk := sample_repo) sample_entry (CursorState.new (lit "/r/.git")) = (c', Ret tt) ∧ in_step c' sample_head_log ∧
    fresh_entries c' sample_head_log =
    List.filter (λ x, negb (end_offset x =? end_offset sample_entry)) (fresh_entries (CursorState.new (lit "/r/.git")) sample_head_log) ∧
    same_rest (CursorState.new (lit "/r/.git")) c' ∧
    ∀ key, key ≠ log_key sample_head_log → same_at key (CursorState.new (lit "/r/.git")) c'.
Proof.
  apply (taking_leaves_the_others (disk := sample_repo) sample_head_log); [vm_compute; reflexivity|exact I|rewrite sample_ahead; by left].
Defined.

(** C19: updates that git reads from its input are found in the logs: every move
    ahead of the cursor, in the head log and then in the log of every ref, is
    reported once and in order, and none is left. *)
Theorem stdin_updates_reported_once `{disk : Disk} cmd c references logs head_bytes :
  let all_logs := worktree_logs (worktree cmd) head_bytes ++ map (ref_log (common_dir c) logs) (List.filter drained references) in
  discover_common_refs c = Ret references →
  (∀ l, l ∈ all_logs → on_disk l ∧ in_step c l) →
  ∃ c', update_refs_from_logs cmd c = (c', Ret (flat_map (λ l, map entry_to_ref_change (candidates c l any_transition [])) all_logs)) ∧
    ∀ l, l ∈ all_logs → candidates c' l any_transition [] = [].
Proof.
  intros all_logs Hdisc Hall. pose proof (discovered_distinct c references Hdisc) as Hnd.
  set (head_changes := flat_map (λ l, map entry_to_ref_change (candidates c l any_transition [])) (worktree_logs (worktree cmd) head_bytes)).
  assert (∃ c1, (match worktree cmd with
                 | None => ret []
                 | Some w => drain (S (head_log_size (Some w))) (find_head_entry_without_hint (Some w) [] any_transition) []
                 end) c = (c1, Ret head_changes) ∧
    (∀ l, l ∈ worktree_logs (worktree cmd) head_bytes → candidates c1 l any_transition [] = []) ∧
    family c1 = family c ∧ ∀ r, same_at (common_key r) c c1) as (c1 & Hc1 & Hn1 & Hf1 & Hs1).
  { subst head_changes all_logs. unfold worktree_logs in *. destruct (worktree cmd) as [w|]; [|by exists c; repeat split; try done; intros l ?%elem_of_nil].
    destruct (head_of (Some w)) as [[hk hp]|] eqn:Hh.
    2:{ exists c. cbn [drain]. unfold find_head_entry_without_hint, bind at 1. rewrite Hh. repeat split; try done. by intros l ?%elem_of_nil. }
    set (l := mkLog hk hp (lit "HEAD") head_bytes) in *. destruct (Hall l) as [Hd Hs]; [by left|].
    destruct (drain_exact (common_dir c) l any_transition [] (find_head_entry_without_hint (Some w) [] any_transition)
      (candidates c l any_transition []) (S (head_log_size (Some w))) [] c) as (c1 & Hdr & _ & Hn & [Hrest Hsame]); try done.
    - intros d _ Hsd. unfold find_head_entry_without_hint. rewrite Hh. by apply (find_in_step l Hd d any_transition [] false).
    - unfold head_log_size, log_size. rewrite Hh. change hp with (log_path l). rewrite Hd.
      pose proof (length_candidates c l any_transition []). lia.
    - exists c1. rewrite Hdr. cbn [flat_map]. rewrite app_nil_r. split; [done|]. split; [by intros l' ->%list_elem_of_singleton|].
      split; [apply Hrest|]. intros r. apply Hsame. cbn. intros Heq. unfold head_of in Hh.
      destruct (RepoState.git_dir_for_worktree w) as [git_dir|]; [|done]. injection Hh as <- <-. by apply (head_key_common git_dir r). }
  destruct (drain_refs_exact (common_dir c) logs (List.filter drained references) head_changes c1) as (c2 & Hc2 & Hn2 & Hrest2 & Hs2).
  { by apply NoDup_ListNoDup, List.NoDup_filter, NoDup_ListNoDup. }
  { unfold common_dir. congruence. }
  { intros r Hr. destruct (Hall (ref_log (common_dir c) logs r)) as [Hd Hs].
    { subst all_logs. apply elem_of_app. right. by apply list_elem_of_fmap_2. }
    split; [done|]. by apply (same_at_log c c1 (ref_log (common_dir c) logs r) (Hs1 r)). }
  { apply Forall_forall. intros r [_ Hr]%elem_of_filter_b. unfold drained in Hr. by destruct (CliParser.one_of _ r). }
  exists c2. split.
  - unfold update_refs_from_logs, bind at 1. rewrite Hc1. unfold bind, query.
    assert (discover_common_refs c1 = Ret references) as ->.
    { unfold discover_common_refs, common_dir in *. by rewrite Hf1. }
    rewrite drain_refs_skip, Hc2. subst all_logs. rewrite flat_map_app. fold head_changes. do 3 f_equal.
    rewrite !flat_map_concat_map, map_map. f_equal. apply map_ext. intros r. f_equal.
    apply (same_at_log c c1 (ref_log (common_dir c) logs r) (Hs1 r)).
  - intros l [Hl|Hl]%elem_of_app.
    + rewrite <-(Hn1 l Hl). apply same_at_log, Hs2. intros r Hr Heq. unfold worktree_logs in Hl.
      destruct (head_of (worktree cmd)) as [[hk hp]|] eqn:Hh; [|by apply elem_of_nil in Hl]. apply list_elem_of_singleton in Hl as ->.
      cbn in Heq. unfold head_of in Hh. destruct (worktree cmd) as [w|]; [|done]. destruct (RepoState.git_dir_for_worktree w) as [git_dir|]; [|done].
      injection Hh as <- <-. by apply (head_key_common git_dir r).
    + apply list_elem_of_fmap in Hl as (r & -> & Hr). by apply Hn2.
Qed.

Lemma stdin_updates_reported_once_witness :
  ∃ c', update_refs_from_logs (disk := sample_repo) (plain_command (Some (lit "update-ref")) [lit "--stdin"]) (CursorState.new (lit "/r/.git")) =
    (c', Ret [mkChange (lit "refs/heads/main") (old_oid sample_move) (new_oid sample_move)]).
Proof.
  destruct (stdin_updates_reported_once (disk := sample_repo) (plain_command (Some (lit "update-ref")) [lit "--stdin"])
    (CursorState.new (lit "/r/.git")) [lit "refs/heads/main"] (λ _, sample_bytes) []) as (c' & Hc & _).
  - vm_compute. reflexivity.
  - intros l Hl. assert (l = ref_log (lit "/r/.git") (λ _, sample_bytes) (lit "refs/heads/main")) as ->.
    { by apply list_elem_of_singleton in Hl. }
    split; [vm_compute; reflexivity|exact I].
  - exists c'. rewrite Hc. vm_compute. reflexivity.
Defined.

(** *** Commits *)

Lemma chosen_none c expected prefixes l : chosen c expected prefixes l = None → candidates c l expected prefixes = [].
Proof.
  unfold chosen, select_candidate_with_hint. destruct (_ !! _) as [h|]; [|by destruct (candidates _ _ _ _)].
  assert (∀ es x, hinted h es (Some x) ≠ None) as Hs.
  { induction es as [|y es IH]; intros x; cbn [hinted]; [done|]. destruct (_ <=? _); [done|apply IH]. }
  destruct (candidates c l expected prefixes) as [|x es]; [done|]. cbn [hinted]. destruct (_ <=? _); [done|]. by intros ?%Hs.
Qed.

(** A branch follows a move exactly when its log has it ahead. *)
Definition follows_move (c : RefCursor) (dir : path) (logs : str → str) (e : CursorEntry) (r : str) : Prop :=
  followed r = true ∧ ∃ x, x ∈ entries_ahead c (ref_log dir logs r) ∧ move_between c (entry_old e) (entry_new e) x.

Lemma follow_spec c e dir logs r :
  match follow c (entry_old e) (entry_new e) dir logs r with
  | Some change => follows_move c dir logs e r ∧ change = mkChange r (entry_old e) (entry_new e)
  | None => ¬ follows_move c dir logs e r
  end.
Proof.
  unfold follow, follows_move. destruct (followed r); [|naive_solver].
  destruct (chosen c _ _ _) as [x|] eqn:Hc; cbn [fmap option_fmap option_map].
  - apply chosen_in, elem_of_filter_b in Hc as [Hx Hm]. apply move_between_candidate in Hm. split; [split; [done|by exists x]|].
    destruct (ahead_key _ _ _ Hx) as (_ & _ & Hr). destruct Hm as (_ & _ & Ho & Hn). unfold entry_to_ref_change. by rewrite Hr, Ho, Hn.
  - apply chosen_none in Hc. intros [_ (x & Hx & Hm)]. apply move_between_candidate in Hm.
    assert (x ∈ candidates c (ref_log dir logs r) (transition (entry_old e) (entry_new e)) []) as Hin by by apply elem_of_filter_b.
    rewrite Hc in Hin. by apply elem_of_nil in Hin.
Qed.

Lemma follow_branches c e dir logs references : ∃ branches,
  omap (follow c (entry_old e) (entry_new e) dir logs) references = map (λ r, mkChange r (entry_old e) (entry_new e)) branches ∧
  branches `sublist_of` references ∧ ∀ r, r ∈ branches ↔ r ∈ references ∧ follows_move c dir logs e r.
Proof.
  induction references as [|r references (branches & Heq & Hsub & Hin)]; [exists []; split; [done|]; split; [done|]; intros r; by rewrite elem_of_nil; naive_solver|].
  cbn [omap list_omap]. pose proof (follow_spec c e dir logs r) as H. destruct (follow _ _ _ _ _ r) as [change|].
  - destruct H as [H ->]. exists (r :: branches). change (map _ (r :: branches)) with (mkChange r (entry_old e) (entry_new e) :: map (λ r, mkChange r (entry_old e) (entry_new e)) branches).
    rewrite <-Heq. split; [done|]. split; [by constructor|]. intros s. rewrite !elem_of_cons, Hin. naive_solver.
  - exists branches. split; [done|]. split; [by constructor|]. intros s. rewrite elem_of_cons, Hin. naive_solver.
Qed.

(** Changes of distinct refs are all kept. *)
Lemma dedup_distinct_refs changes : ∀ seen,
  NoDup (map reference (seen ++ changes)) → dedup_ref_changes seen changes = changes.
Proof.
  induction changes as [|x changes IH]; intros seen Hnd; cbn [dedup_ref_changes]; [done|].
  rewrite map_app in Hnd. apply NoDup_app in Hnd as (Hs & Hx & Hc). cbn [map] in Hc. apply NoDup_cons in Hc as [Hn Hc].
  rewrite bool_decide_eq_false_2; [f_equal; apply IH; cbn [app map]|].
  - rewrite map_app. apply NoDup_cons. split.
    + intros [Hin|Hin]%elem_of_app; [|done]. apply (Hx _ Hin). cbn [map]. by left.
    + apply NoDup_app. split; [done|]. split; [|done]. intros r Hr Hin. apply (Hx r Hr). cbn [map]. by right.
  - intros Hin. apply (Hx (reference x)); [by apply list_elem_of_fmap_2|]. cbn [map]. by left.
Qed.

(** C12: a commit that finds a move of [HEAD] in the head log that its subject
    names - the first that was not taken, or with a start hint the one that the
    hint picks - reports this move, and then the same move of exactly those branches
    whose logs have it past the cursor, each once. *)
Theorem commit_reports_its_moves `{disk : Disk} `{order : HashOrder} names cmd state c l e references logs :
  let args := Analyzers.command_args cmd in
  let amend := Analyzers.has_arg "--amend" args in
  worktree_logs (worktree cmd) (log_bytes l) = [l] →
  on_disk l → in_step c l →
  discover_common_refs c = Ret references →
  (∀ r, r ∈ references → followed r = true → on_disk (ref_log (common_dir c) logs r) ∧ in_step c (ref_log (common_dir c) logs r)) →
  picked_in c l (named_move c (commit_reflog_messages args amend) (commit_prefixes amend)) e →
  ∃ c' branches, enrich_commit names cmd state c =
    (c', Ret (with_ref_changes cmd (map (λ r, mkChange r (entry_old e) (entry_new e)) (lit "HEAD" :: branches)))) ∧
    NoDup branches ∧ branches `sublist_of` references ∧
    ∀ r, r ∈ branches ↔ r ∈ references ∧ follows_move c (common_dir c) logs e r.
Proof.
  intros args amend Hw Hd Hs Hdisc Hlogs Hp. apply (chosen_picked _ _ _ _ _ _ (named_move_candidate c _ _)) in Hp as Hc.
  pose proof (discovered_distinct c references Hdisc) as Hnd.
  destruct (follow_branches c e (common_dir c) logs references) as (branches & Heq & Hsub & Hin).
  assert (NoDup branches) as Hndb by by eapply sublist_NoDup.
  assert (entry_reference e = lit "HEAD") as Hhead.
  { apply chosen_in, candidate_ahead, ahead_key in Hc as (_ & _ & ->). unfold worktree_logs in Hw. destruct (head_of _) as [[hk hp]|]; [|done].
    by injection Hw as <-. }
  assert (find_head_entry (worktree cmd) (commit_prefixes amend) (with_reflog_messages any_transition (commit_reflog_messages args amend)) c = (c, Ret (Some e))) as Hfind.
  { unfold find_head_entry. unfold worktree_logs in Hw. destruct (head_of (worktree cmd)) as [[hk hp]|]; [|done].
    rewrite <-Hc. destruct l as [k p ref b]. injection Hw as <- <- <-. exact (find_in_step _ Hd c _ (commit_prefixes amend) true Hs). }
  destruct (head_entry_exact (worktree cmd) logs (log_bytes l) references e c cmd) as (c' & Hc'); [done|done| |by rewrite Hw|done|].
  { rewrite Hw. intros l' ->%list_elem_of_singleton. split; [done|]. split; [done|]. eapply candidate_ahead, chosen_in, Hc. }
  exists c', branches. split; [|done]. unfold enrich_commit. fold args. fold amend. unfold bind at 1, gets at 1.
  assert (∀ m, with_reflog_messages (without_old_oid_constraint (head_expected_transition names c cmd state)) m = with_reflog_messages any_transition m) as ->.
  { intros m. unfold head_expected_transition. by destruct (head_cursor_initialized c (worktree cmd)). }
  unfold bind, find_commit_head_entry, bind. rewrite Hfind. unfold ret. rewrite Hc', Heq.
  rewrite dedup_distinct_refs; [unfold entry_to_ref_change; by rewrite Hhead|].
  cbn [app map]. rewrite map_map. cbn. rewrite map_id. apply NoDup_cons. split; [|done].
  rewrite Hhead. intros (_ & Hf & _)%Hin. vm_compute in Hf. done.
Qed.

Lemma commit_reports_its_moves_witness :
  ∃ c' branches, enrich_commit (disk := sample_repo) (order := in_order) (λ _, None) sample_commit (FamilyActor.FamilyActor.initial_state (lit "/r/.git"))
      (CursorState.new (lit "/r/.git")) =
    (c', Ret (with_ref_changes sample_commit
      (map (λ r, mkChange r (entry_old sample_entry) (entry_new sample_entry)) (lit "HEAD" :: branches)))) ∧ lit "refs/heads/main" ∈ branches.
Proof.
  destruct (commit_reports_its_moves (disk := sample_repo) (order := in_order) (λ _, None) sample_commit
    (FamilyActor.FamilyActor.initial_state (lit "/r/.git")) (CursorState.new (lit "/r/.git")) sample_head_log sample_entry [lit "refs/heads/main"]
    (λ _, sample_bytes)) as (c' & branches & Hc & _ & _ & Hb).
  - vm_compute. reflexivity.
  - vm_compute. reflexivity.
  - exact I.
  - vm_compute. reflexivity.
  - intros r ->%list_elem_of_singleton _. split; [vm_compute; reflexivity|exact I].
  - exists [], []. split; [vm_compute; reflexivity|]. split; [apply named_move_candidate; vm_compute; reflexivity|].
    cbn [CursorState.new command_start_hints]. rewrite lookup_empty. by intros x ?%elem_of_nil.
  - exists c', branches. split; [exact Hc|]. apply Hb. split; [by left|]. split; [vm_compute; reflexivity|].
    exists (entry_of_record (lit "common:refs/heads/main") (lit "/r/.git/logs/refs/heads/main") (lit "refs/heads/main") (written_record sample_move 0)).
    split; [|apply move_between_candidate; vm_compute; reflexivity].
    apply list_elem_of_In. vm_compute. left. reflexivity.
Defined.

End CursorProps.
