(* ===== verification/GitBackend.v ===== *)
(** * What the daemon asks of git's configuration

    src/src/daemon/git_backend.rs: the trait [GitBackend], and its implementation
    over the configuration files, with the cache of aliases that a background
    thread refreshes.  A lookup checks its entry under one lock and marks it under
    another, a thread reads the configuration and then stores it: [AliasRef] has
    the interleavings of these steps. *)

From S2P Require Import Prelude Text DiffCompute StateResult CliParser Domain Analyzers PatchParse Disk FastReader Reflog.

(** ** Definitions *)

Module GitBackend.
Import Domain Paths Files RepoState StateResult.
Import DiffCompute(result).
Import CliParser(ParsedGitInvocation, parse_git_cli_args, one_of, is_option, contains_char, is_separator, after_last_char, trim_end_chars, strip_suffix).
Import Analyzers(path_file_name, to_ascii_lowercase).
Import PatchParse.PatchParse(from_utf8_lossy).

(** The trait.  A backend may remember what it was asked: [backend] is its state. *)
Class GitBackend := {
  backend : Type;
  resolve_family : path → result FamilyKey;
  resolve_primary_command : path → list str → M backend (option str);
  resolve_invocation : path → list str → M backend (option (str * list str));
  clone_target : list str → option path → option path;
  init_target : list str → option path → option path
}.

(** *** Words of a command line *)

Definition is_git_binary (token : str) : bool :=
  one_of ["git"; "git.exe"]%string token
  || match path_file_name token with Some name => one_of ["git"; "git.exe"]%string name | None => false end.

Definition git_invocation_tokens (argv : list str) : list str :=
  match argv with token :: rest => if is_git_binary token then rest else argv | [] => [] end.

(** The words after a word. *)
Fixpoint after_command (command : str) (tokens : list str) : list str :=
  match tokens with
  | [] => []
  | token :: rest => if str_eqb token command then rest else after_command command rest
  end.

Definition command_args (argv : list str) (command : string) : list str := after_command (lit command) (git_invocation_tokens argv).

Definition takes_value (arg : str) : bool :=
  one_of ["-b"; "--branch"; "--origin"; "--upload-pack"; "--template"; "--separate-git-dir"; "--reference"; "--reference-if-able";
          "-c"; "--config"; "--object-format"; "--depth"; "--shallow-since"; "--shallow-exclude"; "-j"; "--jobs"; "--filter";
          "--bundle-uri"; "--server-option"]%string arg.

Fixpoint clone_init_positionals (args : list str) : list str :=
  match args with
  | [] => []
  | arg :: rest =>
      if str_eqb arg (lit "--") then rest
      else if is_option arg then
        match rest with
        | _ :: rest' => if takes_value arg then clone_init_positionals rest' else clone_init_positionals rest
        | [] => []
        end
      else arg :: clone_init_positionals rest
  end.

Definition default_clone_target_from_source (source : str) : option path :=
  let source := trim_end_chars is_separator source in
  let source := default source (strip_suffix (lit ".git") source) in
  let after_last_sep := default source (after_last_char is_separator source) in
  let name :=
    if contains_char ":" after_last_sep && (2 <? length after_last_sep)%nat
    then default after_last_sep (after_last_char (Ascii.eqb ":") after_last_sep)
    else after_last_sep in
  if bool_decide (name = []) then None else Some name.

Definition resolve_target (target : path) (cwd_hint : option path) : option path :=
  if is_absolute target then Some target
  else match cwd_hint with Some cwd => Some (join cwd target) | None => None end.

Definition system_clone_target (argv : list str) (cwd_hint : option path) : option path :=
  match clone_init_positionals (command_args argv "clone") with
  | [] => None
  | [source] => try target := default_clone_target_from_source source in resolve_target target cwd_hint
  | _ :: target :: _ => resolve_target target cwd_hint
  end.

Definition system_init_target (argv : list str) (cwd_hint : option path) : option path :=
  resolve_target (default (lit ".") (List.hd_error (clone_init_positionals (command_args argv "init")))) cwd_hint.

(** *** Words of an alias *)

Definition QUOTE : str := lit "'".
Definition DOUBLE_QUOTE : str := [DQUOTE].
Definition ESCAPE : str := lit "\".

Record AliasReader := mkReader {
  tokens : list str;
  current : str;
  in_single : bool;
  in_double : bool;
  escaped : bool
}.

Definition push (ch : str) (r : AliasReader) : AliasReader := mkReader (tokens r) (current r ++ ch) (in_single r) (in_double r) false.

(** The word under way, if it is not empty. *)
Definition close_token (r : AliasReader) : AliasReader :=
  if bool_decide (current r = []) then r else mkReader (tokens r ++ [current r]) [] (in_single r) (in_double r) (escaped r).

Definition read_alias_char (r : AliasReader) (ch : str) : AliasReader :=
  if escaped r then push ch r
  else if in_single r then
    if str_eqb ch QUOTE then mkReader (tokens r) (current r) false (in_double r) false else push ch r
  else if in_double r then
    if str_eqb ch DOUBLE_QUOTE then mkReader (tokens r) (current r) false false false
    else if str_eqb ch ESCAPE then mkReader (tokens r) (current r) false true true
    else push ch r
  else if str_eqb ch QUOTE then mkReader (tokens r) (current r) true false false
  else if str_eqb ch DOUBLE_QUOTE then mkReader (tokens r) (current r) false true false
  else if str_eqb ch ESCAPE then mkReader (tokens r) (current r) false false true
  else if is_whitespace ch then close_token r
  else push ch r.

Definition finish_alias (r : AliasReader) : option (list str) :=
  let r := if escaped r then push ESCAPE r else r in
  if in_single r || in_double r then None else Some (tokens (close_token r)).

Definition parse_alias_tokens (value : str) : option (list str) :=
  let trimmed := trim_start value in
  if starts_with (lit "!") trimmed then None
  else finish_alias (foldl read_alias_char (mkReader [] [] false false false) (chars trimmed)).

(** *** Configuration files *)

(** What a parsed configuration answers: the names and the values of a section,
    and the value of a dotted key. *)
Record ConfigSection := mkSection { value_names : list str; section_value : str → option str }.
Record ConfigFile := mkConfig { sections_by_name : str → option (list ConfigSection); config_string : str → option str }.

Definition read_section (aliases : gmap str str) (section : ConfigSection) : gmap str str :=
  foldl (λ aliases key,
    if bool_decide (key = []) then aliases
    else match section_value section key with Some v => <[to_ascii_lowercase key := v]> aliases | None => aliases end)
    aliases (value_names section).

Definition read_all_aliases_from_config (config : ConfigFile) : gmap str str :=
  match sections_by_name config (lit "alias") with
  | None => ∅
  | Some sections => foldl read_section ∅ sections
  end.

Definition is_builtin_primary_command (command : str) : bool :=
  one_of ["add"; "blame"; "branch"; "cat-file"; "check-attr"; "check-ignore"; "check-mailmap"; "checkout"; "cherry-pick"; "clean";
          "clone"; "commit"; "config"; "count-objects"; "describe"; "diff"; "diff-files"; "diff-index"; "diff-tree"; "fetch";
          "for-each-ref"; "grep"; "hash-object"; "help"; "init"; "log"; "ls-files"; "ls-tree"; "merge"; "merge-base"; "mktree"; "mv";
          "name-rev"; "notes"; "pull"; "push"; "rebase"; "remote"; "reset"; "restore"; "rev-list"; "rev-parse"; "revert"; "rm";
          "shortlog"; "show"; "stash"; "status"; "switch"; "symbolic-ref"; "tag"; "update-ref"; "var"; "verify-commit"; "verify-tag";
          "version"; "worktree"]%string command.

(** *** The cache of aliases *)

(** Times are nanoseconds of a monotonic clock. *)
Record AliasCacheEntry := mkEntry {
  aliases : gmap str str;
  refreshed_at : N;
  refresh_in_progress : bool
}.

(** A background thread that refreshes: what it was started for, and what it read
    once it has. *)
Record RefreshThread := mkThread {
  thread_worktree : path;
  thread_family : FamilyKey;
  thread_loaded : option (result (gmap str str))
}.

(** The cache, and the background threads that have not ended. *)
Record SystemGitBackend := mkSystem {
  alias_cache : gmap str AliasCacheEntry;
  threads : list RefreshThread
}.

Definition new_backend : SystemGitBackend := mkSystem ∅ [].

Definition ALIAS_CACHE_TTL_SECS : N := 60.

Definition set_in_progress (flag : bool) (e : AliasCacheEntry) : AliasCacheEntry := mkEntry (aliases e) (refreshed_at e) flag.

Section System.
Context `{disk : Disk}.

(** The repository of a path and its configuration: found and parsed by code
    that is not modelled. *)
Variable config : path → result ConfigFile.

(** The time of the call. *)
Variable now : N.

Definition family_of (common_dir : path) : FamilyKey := from_utf8_lossy (default common_dir (canonicalize common_dir)).

Definition system_resolve_family (worktree : path) : result FamilyKey :=
  match common_dir_for_repo_path worktree with
  | Some common => Ret (family_of common)
  | None => Fail (lit "Failed to resolve git common dir for repo path " ++ from_utf8_lossy worktree)
  end.

(** A refresh reads the configuration without the lock of the cache, and then takes
    the lock to store what it read; an error clears the mark of the entry, a panic
    ends the refresh before it takes the lock. *)
Definition load_aliases (worktree : path) : result (gmap str str) :=
  let? file := config worktree in
  Ret (read_all_aliases_from_config file).

Definition store_aliases (family_key : FamilyKey) (loaded : result (gmap str str)) (b : SystemGitBackend) : SystemGitBackend :=
  match loaded with
  | Ret aliases => mkSystem (<[family_key := mkEntry aliases now false]> (alias_cache b)) (threads b)
  | Fail _ => mkSystem (alter (set_in_progress false) family_key (alias_cache b)) (threads b)
  | Panic => b
  end.

Definition refresh_alias_cache (worktree : path) (family_key : FamilyKey) (b : SystemGitBackend) : SystemGitBackend :=
  store_aliases family_key (load_aliases worktree) b.

Definition resolve_alias_uncached (worktree : path) (alias_name : str) : result (option str) :=
  let? file := config worktree in
  Ret (config_string file (lit "alias." ++ alias_name)).

Definition is_stale (e : AliasCacheEntry) : bool := (ALIAS_CACHE_TTL_SECS <=? (now - refreshed_at e) / 1000000000)%N.

(** What a lookup finds under the lock: the value, and whether a refresh is to be
    started. *)
Definition check_entry (family_key : FamilyKey) (alias_name : str) (b : SystemGitBackend) : option (option str * bool) :=
  (λ e, (aliases e !! to_ascii_lowercase alias_name, is_stale e && negb (refresh_in_progress e))) <$> alias_cache b !! family_key.

(** The lock is dropped after the check; the mark is set when it is held again. *)
Definition mark_in_progress (family_key : FamilyKey) (b : SystemGitBackend) : SystemGitBackend :=
  mkSystem (alter (set_in_progress true) family_key (alias_cache b)) (threads b).

(** The thread that is started runs later. *)
Definition spawn_refresh (worktree : path) (family_key : FamilyKey) (b : SystemGitBackend) : SystemGitBackend :=
  mkSystem (alias_cache b) (threads b ++ [mkThread worktree family_key None]).

(** A lookup that nothing interrupts; how lookups and threads interleave is stated
    by [shared_step]. *)
Definition resolve_alias_cached (worktree : path) (alias_name : str) : M SystemGitBackend (option str) :=
  λ b, match common_dir_for_worktree worktree with
       | None => (b, resolve_alias_uncached worktree alias_name)
       | Some common_dir =>
           let family_key := family_of common_dir in
           match check_entry family_key alias_name b with
           | Some (answer, stale) => (if stale then spawn_refresh worktree family_key (mark_in_progress family_key b) else b, Ret answer)
           | None =>
               let b := refresh_alias_cache worktree family_key b in
               match check_entry family_key alias_name b with
               | Some (answer, _) => (b, Ret answer)
               | None => (b, resolve_alias_uncached worktree alias_name)
               end
           end
       end.

(** *** Expansion of aliases *)

(** The loop.  It panics when the fuel runs out. *)
Fixpoint expand_loop (fuel : nat) (worktree : path) (current : ParsedGitInvocation) (seen : list str) :
    M SystemGitBackend (option (str * list str)) :=
  match fuel with
  | O => lift Panic
  | S f =>
      match CliParser.command current with
      | None => ret None
      | Some command =>
          if bool_decide (command ∈ seen) then ret None
          else if is_builtin_primary_command command then ret (Some (command, CliParser.command_args current))
          else
            do! found := resolve_alias_cached worktree command in
            match found with
            | None => ret (Some (command, CliParser.command_args current))
            | Some alias_value =>
                match parse_alias_tokens alias_value with
                | None => ret None
                | Some alias_tokens =>
                    expand_loop f worktree
                      (parse_git_cli_args (CliParser.global_args current ++ alias_tokens ++ CliParser.command_args current))
                      (command :: seen)
                end
            end
      end
  end.

Definition expand_alias_invocation (fuel : nat) (worktree : path) (argv : list str) : M SystemGitBackend (option (str * list str)) :=
  expand_loop fuel worktree (parse_git_cli_args (git_invocation_tokens argv)) [].
End System.

(** The implementation of the trait, whose configuration does not change while a
    command line is expanded. *)
Definition system_backend `{disk : Disk} (config : path → result ConfigFile) (now : N) (fuel : nat) : GitBackend := {|
  backend := SystemGitBackend;
  resolve_family := system_resolve_family;
  resolve_primary_command worktree argv :=
    do! found := expand_alias_invocation config now fuel worktree argv in ret (fst <$> found);
  resolve_invocation worktree argv := expand_alias_invocation config now fuel worktree argv;
  clone_target := system_clone_target;
  init_target := system_init_target
|}.

End GitBackend.

(** ** Reference *)

Module AliasRef.
Import Paths Files RepoState StateResult GitBackend.
Import DiffCompute(result).
Import CliParser(ParsedGitInvocation, parse_git_cli_args).

(** The expansion by a table of aliases that does not change. *)
Fixpoint expand_by (fuel : nat) (lookup : str → result (option str)) (current : ParsedGitInvocation) (seen : list str) :
    result (option (str * list str)) :=
  match fuel with
  | O => Panic
  | S f =>
      match CliParser.command current with
      | None => Ret None
      | Some command =>
          if bool_decide (command ∈ seen) then Ret None
          else if is_builtin_primary_command command then Ret (Some (command, CliParser.command_args current))
          else
            let? found := lookup command in
            match found with
            | None => Ret (Some (command, CliParser.command_args current))
            | Some alias_value =>
                match parse_alias_tokens alias_value with
                | None => Ret None
                | Some alias_tokens =>
                    expand_by f lookup
                      (parse_git_cli_args (CliParser.global_args current ++ alias_tokens ++ CliParser.command_args current))
                      (command :: seen)
                end
            end
      end
  end.

(** The characters of a word of an alias between double quotes, and of words
    with a space between. *)
Definition quote_char (ch : str) : list str := if str_eqb ch DOUBLE_QUOTE || str_eqb ch ESCAPE then [ESCAPE; ch] else [ch].
Definition quoted_word (w : str) : list str := DOUBLE_QUOTE :: flat_map quote_char (chars w) ++ [DOUBLE_QUOTE].
Definition alias_text (ws : list str) : str :=
  concat (match ws with [] => [] | w :: rest => quoted_word w ++ flat_map (λ w, lit " " :: quoted_word w) rest end).

(** *** Lookups and threads that interleave *)

(** Where a lookup is between two of its locks: it found a stale entry; it has
    marked the entry and starts its thread; it found no entry, and it has read the
    configuration. *)
Inductive Lookup :=
  | FoundStale (worktree : path) (family : str)
  | Marked (worktree : path) (family : str)
  | Cold (worktree : path) (family : str)
  | ColdLoaded (worktree : path) (family : str) (loaded : result (gmap str str)).

(** The backend, the lookups under way, and the families whose thread panicked. *)
Record Shared := mkShared { shared : SystemGitBackend; lookups : list Lookup; panicked : list str }.

Definition unused : Shared := mkShared new_backend [] [].

Definition drop_at {A : Type} (n : nat) (l : list A) : list A := take n l ++ drop (S n) l.

Definition loaded_thread (th : RefreshThread) (loaded : result (gmap str str)) : RefreshThread :=
  mkThread (thread_worktree th) (thread_family th) (Some loaded).

(** One step, between two of the locks of a lookup or of a thread.  [alone] says
    that lookups do not overlap; the files and the clock are those of the step. *)
Inductive shared_step (alone : bool) : Shared → Shared → Prop :=
  | begin_stale `{disk : Disk} now worktree common_dir alias_name answer b ls ps :
      (alone = true → ls = []) → common_dir_for_worktree worktree = Some common_dir →
      check_entry now (family_of common_dir) alias_name b = Some (answer, true) →
      shared_step alone (mkShared b ls ps) (mkShared b (ls ++ [FoundStale worktree (family_of common_dir)]) ps)
  | begin_cold `{disk : Disk} now worktree common_dir alias_name b ls ps :
      (alone = true → ls = []) → common_dir_for_worktree worktree = Some common_dir →
      check_entry now (family_of common_dir) alias_name b = None →
      shared_step alone (mkShared b ls ps) (mkShared b (ls ++ [Cold worktree (family_of common_dir)]) ps)
  | mark n worktree family b ls ps :
      ls !! n = Some (FoundStale worktree family) →
      shared_step alone (mkShared b ls ps) (mkShared (mark_in_progress family b) (<[n := Marked worktree family]> ls) ps)
  | spawn n worktree family b ls ps :
      ls !! n = Some (Marked worktree family) →
      shared_step alone (mkShared b ls ps) (mkShared (spawn_refresh worktree family b) (drop_at n ls) ps)
  | cold_load config n worktree family b ls ps :
      ls !! n = Some (Cold worktree family) →
      shared_step alone (mkShared b ls ps) (mkShared b (<[n := ColdLoaded worktree family (load_aliases config worktree)]> ls) ps)
  | cold_store now n worktree family loaded b ls ps :
      ls !! n = Some (ColdLoaded worktree family loaded) →
      shared_step alone (mkShared b ls ps) (mkShared (store_aliases now family loaded b) (drop_at n ls) ps)
  | thread_load config n th b ls ps :
      threads b !! n = Some th → thread_loaded th = None →
      shared_step alone (mkShared b ls ps)
        (mkShared (mkSystem (alias_cache b) (<[n := loaded_thread th (load_aliases config (thread_worktree th))]> (threads b))) ls ps)
  | thread_store now n th loaded b ls ps :
      threads b !! n = Some th → thread_loaded th = Some loaded →
      shared_step alone (mkShared b ls ps)
        (mkShared (mkSystem (alias_cache (store_aliases now (thread_family th) loaded b)) (drop_at n (threads b))) ls
           (match loaded with Panic => thread_family th :: ps | _ => ps end)).

(** The families that are being refreshed, and those whose entry is marked. *)
Definition refreshing (s : Shared) : list str := map thread_family (threads (shared s)).
Definition marked (s : Shared) (family : str) : Prop :=
  ∃ e, alias_cache (shared s) !! family = Some e ∧ refresh_in_progress e = true.

End AliasRef.

(** ** Lemmas *)

Module GitBackendFacts.
Import Paths Files RepoState StateResult GitBackend AliasRef.
Import DiffCompute(result).
Import CliParser(ParsedGitInvocation, parse_git_cli_args, scan, split_command, rewrite_meta, without_first).

(** *** The parser makes no words *)

Section Words.
Variable P : str → Prop.

Lemma Forall_without_first p l : Forall P l → Forall P (without_first p l).
Proof. induction 1; cbn; [done|]. destruct (p x); [done|]. by constructor. Qed.

Lemma Forall_list_filter p l : Forall P l → Forall P (List.filter p l).
Proof. induction 1; cbn; [done|]. destruct (p x); [by constructor|done]. Qed.

Lemma scan_words args : ∀ globals meta globals' meta' saw rest, Forall P args → Forall P globals → Forall P meta →
  scan args globals meta = (globals', meta', saw, rest) → Forall P globals' ∧ Forall P meta' ∧ Forall P rest.
Proof.
  induction (well_founded_ltof _ (@length str) args) as [args _ IH]. intros globals meta globals' meta' saw rest Ha Hg Hm.
  assert (∀ args'', length args'' < length args → ltof _ (@length str) args'' args) as Hlt by done.
  destruct args as [|tok args']; cbn [scan]; [by intros [= <- <- <- <-]|]. inversion_clear Ha as [|? ? Ht Ha'].
  destruct (str_eqb tok (lit "--")); [by intros [= <- <- <- <-]|].
  destruct (CliParser.classify tok).
  - apply IH; [apply Hlt; cbn; lia|done|apply Forall_app; by split; [|constructor]|done].
  - destruct (CliParser.has_attached_value tok _).
    + apply IH; [apply Hlt; cbn; lia|done|apply Forall_app; by split; [|constructor]|done].
    + destruct args' as [|value args'']; [apply IH; [apply Hlt; cbn; lia|done|apply Forall_app; by split; [|constructor]|done]|].
      inversion_clear Ha'. apply IH; [apply Hlt; cbn; lia|done|apply Forall_app; split; [done|]; by repeat constructor|done].
  - apply IH; [apply Hlt; cbn; lia|done|done|apply Forall_app; by split; [|constructor]].
  - intros [= <- <- <- <-]. split_and!; [done..|by constructor].
Qed.

Lemma parse_words args : Forall P args → P (lit "help") → P (lit "version") →
  let p := parse_git_cli_args args in
  Forall P (CliParser.global_args p) ∧ (∀ c, CliParser.command p = Some c → P c) ∧ Forall P (CliParser.command_args p).
Proof.
  intros Ha Hh Hv. unfold parse_git_cli_args. destruct (scan args [] []) as [[[globals meta] saw] rest] eqn:Es.
  apply scan_words in Es as (Hg & Hm & Hr); [|done..].
  assert (∀ cmd cargs, split_command meta saw rest = (cmd, cargs) → (∀ c, cmd = Some c → P c) ∧ Forall P cargs) as Hsplit.
  { intros cmd cargs. unfold split_command. destruct Hr as [|tok rest Ht Hr]; [by intros [= <- <-]|].
    destruct (saw || _); intros [= <- <-]; [by split; [intros c [= <-]|]|]. split; [done|]. apply Forall_app; by split; [|constructor]. }
  destruct (split_command meta saw rest) as [cmd cargs]. destruct (Hsplit cmd cargs eq_refl) as [Hc Hca].
  assert (∀ cmd' cargs', rewrite_meta meta cmd cargs = (cmd', cargs') → (∀ c, cmd' = Some c → P c) ∧ Forall P cargs') as Hrw.
  { intros cmd' cargs'. unfold rewrite_meta. destruct cmd as [c|].
    - destruct (existsb _ meta); [intros [= <- <-]; split; [by intros ? [= <-]|constructor; auto]|].
      destruct (existsb _ meta); intros [= <- <-]; [split; [by intros ? [= <-]|by apply Forall_without_first]|done].
    - destruct (existsb _ meta).
      + intros [= <- <-]. split; [by intros ? [= <-]|]. apply Forall_app. split; [|by apply Forall_list_filter].
        by apply Forall_list_filter, Forall_without_first.
      + destruct (existsb _ meta); intros [= <- <-]; [|done]. split; [by intros ? [= <-]|]. by apply Forall_list_filter, Forall_without_first. }
  destruct (rewrite_meta meta cmd cargs) as [cmd' cargs']. destruct (Hrw cmd' cargs' eq_refl). by split.
Qed.
End Words.

(** *** The cache answers as at the start *)

Section Cache.
Context `{disk : Disk}.
Variables (config : path → result ConfigFile) (now : N) (worktree : path).

Definition lookup_alias (b : SystemGitBackend) (name : str) : result (option str) := (resolve_alias_cached config now worktree name b).2.

Lemma check_refreshed f name b :
  check_entry now f name b = None →
  check_entry now f name (refresh_alias_cache config now worktree f b) =
  match load_aliases config worktree with Ret m => Some (m !! Analyzers.to_ascii_lowercase name, (is_stale now (mkEntry m now false) && true)%bool) | _ => None end.
Proof.
  unfold check_entry, refresh_alias_cache, store_aliases. intros H.
  destruct (load_aliases config worktree); cbn [alias_cache]; [by rewrite lookup_insert_eq| |done].
  rewrite lookup_alter_eq. by destruct (alias_cache b !! f).
Qed.

Lemma check_stays f name other b :
  check_entry now f name b = None → check_entry now f other b = None.
Proof. unfold check_entry. by destruct (alias_cache b !! f). Qed.

Lemma lookup_same name b other : lookup_alias (resolve_alias_cached config now worktree name b).1 other = lookup_alias b other.
Proof.
  unfold lookup_alias, resolve_alias_cached. destruct (common_dir_for_worktree worktree) as [common_dir|]; [|done].
  set (f := family_of common_dir). destruct (check_entry now f name b) as [[answer stale]|] eqn:E; cbn [fst].
  - destruct stale; [|done]. unfold check_entry in *. destruct (alias_cache b !! f) as [e|] eqn:Ee; [|done].
    unfold spawn_refresh, mark_in_progress. cbn [alias_cache]. by rewrite lookup_alter_eq, Ee.
  - pose proof (check_stays f name other b E) as E'. rewrite E', (check_refreshed f name b E).
    rewrite (check_refreshed f other b E'). destruct (load_aliases config worktree) as [m|e|] eqn:El; cbn [fst].
    + by rewrite (check_refreshed f other b E'), El.
    + assert (check_entry now f other (refresh_alias_cache config now worktree f b) = None) as ->.
      { by rewrite (check_refreshed f other b E'), El. }
      assert (∀ x, check_entry now f other (refresh_alias_cache config now worktree f x) = None ∨ True) as _ by auto.
      set (b' := refresh_alias_cache config now worktree f b).
      assert (check_entry now f other b' = None) as Hb'. { subst b'. by rewrite (check_refreshed f other b E'), El. }
      rewrite (check_refreshed f other b' Hb'). by rewrite El.
    + assert (refresh_alias_cache config now worktree f b = b) as -> by (unfold refresh_alias_cache; by rewrite El).
      by rewrite E', (check_refreshed f other b E'), El.
Qed.

Lemma expand_loop_by fuel : ∀ current seen b, (expand_loop config now fuel worktree current seen b).2 = expand_by fuel (lookup_alias b) current seen.
Proof.
  assert (∀ f lookup lookup', (∀ name, lookup name = lookup' name) → ∀ current seen, expand_by f lookup current seen = expand_by f lookup' current seen) as Hext.
  { intros f lookup lookup' Heq. induction f as [|f IH]; intros current seen; [done|]. cbn [expand_by]. destruct (CliParser.command current); [|done].
    destruct (bool_decide _); [done|]. destruct (is_builtin_primary_command _); [done|]. rewrite Heq. destruct (lookup' _) as [[v|]| |]; [|done..].
    cbn. destruct (parse_alias_tokens v); [|done]. apply IH. }
  induction fuel as [|f IH]; intros current seen b; [done|]. cbn [expand_loop expand_by]. destruct (CliParser.command current) as [command|]; [|done].
  destruct (bool_decide _); [done|]. destruct (is_builtin_primary_command command); [done|]. unfold bind.
  pose proof (lookup_same command b) as Hs. unfold lookup_alias in *. destruct (resolve_alias_cached config now worktree command b) as [b' [[v|]|e|]]; [|done..].
  cbn [obind snd fst] in *. destruct (parse_alias_tokens v) as [ts|]; [|done]. rewrite IH. by apply Hext.
Qed.
End Cache.

(** *** The expansion ends *)

Section Ends.
Variables (lookup : str → result (option str)) (words : list str).
Hypothesis lookup_answers : ∀ name, lookup name ≠ Panic.
Hypothesis lookup_words : ∀ name v ts, lookup name = Ret (Some v) → parse_alias_tokens v = Some ts → Forall (λ w, w ∈ words) ts.
Hypothesis help_word : lit "help" ∈ words.
Hypothesis version_word : lit "version" ∈ words.

Definition of_words (p : ParsedGitInvocation) : Prop :=
  Forall (λ w, w ∈ words) (CliParser.global_args p) ∧ (∀ c, CliParser.command p = Some c → c ∈ words) ∧
  Forall (λ w, w ∈ words) (CliParser.command_args p).

(** No command comes twice, and all of them are words of the command line or of an alias. *)
Lemma expand_by_ends fuel : ∀ current seen, of_words current → NoDup seen → seen ⊆ words → length words < fuel + length seen →
  expand_by fuel lookup current seen ≠ Panic.
Proof.
  induction fuel as [|f IH]; intros current seen (Hg & Hc & Ha) Hnd Hsub Hlen.
  { pose proof (NoDup_submseteq _ _ Hnd (λ x Hx, Hsub x Hx)) as Hle%submseteq_length. cbn in Hlen. lia. }
  cbn [expand_by]. destruct (CliParser.command current) as [command|]; [|done]. case_bool_decide as Hseen; [done|].
  destruct (is_builtin_primary_command command); [done|].
  destruct (lookup command) as [[v|]|e|] eqn:El; cbn [obind]; [|done|done|by apply lookup_answers in El].
  destruct (parse_alias_tokens v) as [ts|] eqn:Ep; [|done]. apply IH.
  - apply parse_words; [|done..]. apply Forall_app; split; [done|]. apply Forall_app; split; [by eapply lookup_words|done].
  - by constructor.
  - intros x [->|Hx]%elem_of_cons; [by apply Hc|by apply Hsub].
  - cbn. lia.
Qed.
End Ends.

Lemma expand_by_more fuel lookup : ∀ more current seen, fuel ≤ more → expand_by fuel lookup current seen ≠ Panic →
  expand_by more lookup current seen = expand_by fuel lookup current seen.
Proof.
  induction fuel as [|f IH]; intros more current seen Hle Hp; [done|]. destruct more as [|more]; [lia|]. cbn [expand_by] in *.
  destruct (CliParser.command current); [|done]. destruct (bool_decide _); [done|]. destruct (is_builtin_primary_command _); [done|].
  destruct (lookup _) as [[v|]| |]; [|done..]. cbn [obind] in *. destruct (parse_alias_tokens v); [|done]. apply IH; [lia|done].
Qed.

(** The expanded command is built in or no alias. *)
Lemma expand_by_result fuel lookup : ∀ current seen command args, expand_by fuel lookup current seen = Ret (Some (command, args)) →
  is_builtin_primary_command command = true ∨ lookup command = Ret None.
Proof.
  induction fuel as [|f IH]; intros current seen command args; [done|]. cbn [expand_by].
  destruct (CliParser.command current) as [c|]; [|done]. destruct (bool_decide _); [done|].
  destruct (is_builtin_primary_command c) eqn:Eb; [intros [= <- <-]; by left|].
  destruct (lookup c) as [[v|]|e|] eqn:El; cbn [obind]; [|intros [= <- <-]; by right|done..].
  destruct (parse_alias_tokens v); [apply IH|done].
Qed.

(** The values a lookup may answer. *)
Section Values.
Context `{disk : Disk}.
Variables (config : path → result ConfigFile) (now : N) (worktree : path) (values : list str).

Definition values_of (m : gmap str str) : list str := map snd (map_to_list m).

Definition known_values (b : SystemGitBackend) : list str :=
  flat_map (λ e : str * AliasCacheEntry, values_of (aliases e.2)) (map_to_list (alias_cache b))
  ++ match config worktree with Ret file => values_of (read_all_aliases_from_config file) | _ => [] end ++ values.

Lemma elem_of_values_of m k v : m !! k = Some v → v ∈ values_of m.
Proof. intros H%elem_of_map_to_list. apply list_elem_of_fmap. by exists (k, v). Qed.

Lemma lookup_known b name v :
  (∀ file key x, config worktree = Ret file → config_string file key = Some x → x ∈ values) →
  lookup_alias config now worktree b name = Ret (Some v) → v ∈ known_values b.
Proof.
  intros Hfin. unfold lookup_alias, resolve_alias_cached, known_values.
  assert (resolve_alias_uncached config worktree name = Ret (Some v) → v ∈ values) as Hun.
  { unfold resolve_alias_uncached. destruct (config worktree) as [file|e|] eqn:E; cbn; [|done..]. intros [= Hs]. by eapply Hfin. }
  destruct (common_dir_for_worktree worktree) as [common_dir|]; [|intros ?%Hun; rewrite !elem_of_app; auto].
  set (f := family_of common_dir). destruct (check_entry now f name b) as [[answer stale]|] eqn:E; cbn [snd].
  { unfold check_entry in E. destruct (alias_cache b !! f) as [e|] eqn:Ee; [|done]. injection E as <- _. intros [= Hv].
    rewrite elem_of_app. left. apply elem_of_flat_map. exists (f, e). split; [by apply elem_of_map_to_list|]. by eapply elem_of_values_of. }
  rewrite (check_refreshed config now worktree f name b E). unfold load_aliases.
  destruct (config worktree) as [file|m|] eqn:Ec; cbn [obind snd]; [|intros ?%Hun; rewrite !elem_of_app; auto..].
  intros [= Hv]. rewrite !elem_of_app. right. left. by eapply elem_of_values_of.
Qed.

Lemma lookup_never_panics b name : config worktree ≠ Panic → lookup_alias config now worktree b name ≠ Panic.
Proof.
  intros Hc. unfold lookup_alias, resolve_alias_cached.
  assert (resolve_alias_uncached config worktree name ≠ Panic) as Hun.
  { unfold resolve_alias_uncached. by destruct (config worktree). }
  destruct (common_dir_for_worktree worktree) as [common_dir|]; [|done]. destruct (check_entry _ _ _ b) as [[? ?]|]; [done|].
  by destruct (check_entry _ _ _ _) as [[? ?]|].
Qed.

(** The words an expansion can meet. *)
Definition expansion_words (argv : list str) (b : SystemGitBackend) : list str :=
  lit "help" :: lit "version" :: argv ++ flat_map (λ v, default [] (parse_alias_tokens v)) (known_values b).
End Values.

(** *** Refreshes *)

Definition lookup_family (look : Lookup) : str :=
  match look with FoundStale _ f | Marked _ f | Cold _ f | ColdLoaded _ f _ => f end.
Definition found_entry (look : Lookup) : bool := match look with FoundStale _ _ | Marked _ _ => true | _ => false end.

(** Of a family that is refreshed or whose thread panicked there is one thread, its
    entry is marked, and no lookup is about to start another. *)
Record tracked (s : Shared) : Prop := mkTracked {
  once : NoDup (refreshing s ++ panicked s);
  marks : ∀ f, marked s f ↔ f ∈ refreshing s ++ panicked s ∨ ∃ w, lookups s = [Marked w f];
  alone : lookups s = [] ∨ ∃ look, lookups s = [look] ∧ lookup_family look ∉ refreshing s ++ panicked s ∧
    (found_entry look = true → is_Some (alias_cache (shared s) !! lookup_family look))
}.

Lemma stored_entry now family loaded b f :
  loaded ≠ Panic →
  (∃ e, alias_cache (store_aliases now family loaded b) !! f = Some e ∧ refresh_in_progress e = true) ↔
  f ≠ family ∧ ∃ e, alias_cache b !! f = Some e ∧ refresh_in_progress e = true.
Proof.
  intros Hl. unfold store_aliases. destruct (decide (f = family)) as [->|Hne].
  - split; [|by intros [? _]]. intros (e & He & Hp). exfalso. destruct loaded; [..|done]; cbn in He.
    + rewrite lookup_insert_eq in He. by simplify_eq.
    + rewrite lookup_alter_eq in He. destruct (alias_cache b !! family); by simplify_eq/=.
  - destruct loaded; [..|done]; cbn; [rewrite lookup_insert_ne by done|rewrite lookup_alter_ne by done]; naive_solver.
Qed.

Lemma stored_there now family loaded b f : is_Some (alias_cache b !! f) → is_Some (alias_cache (store_aliases now family loaded b) !! f).
Proof.
  intros H. unfold store_aliases. destruct loaded; cbn; [|rewrite lookup_alter_is_Some; done|done].
  rewrite lookup_insert_is_Some. destruct (decide (family = f)); auto.
Qed.

Lemma drop_at_perm {A} n (l : list A) x : l !! n = Some x → l ≡ₚ x :: drop_at n l.
Proof. intros H. rewrite <-(take_drop_middle _ _ _ H) at 1. unfold drop_at. by rewrite Permutation_middle. Qed.

Lemma lookup_alone (ls : list Lookup) n look : ls = [] ∨ (∃ l, ls = [l]) → ls !! n = Some look → ls = [look] ∧ n = 0.
Proof. intros [->|[l ->]]; [by rewrite lookup_nil|]. destruct n as [|n]; cbn; [by intros [= ->]|done]. Qed.

Lemma step_tracked s s' : shared_step true s s' → tracked s → tracked s'.
Proof.
  intros Hstep [Hnd Hm Hal].
  assert (lookups s = [] ∨ ∃ l, lookups s = [l]) as Hone by (destruct Hal as [|(l & ? & _)]; eauto).
  destruct Hstep as [disk now w cd name answer b ls ps Hls _ Hc|disk now w cd name b ls ps Hls _ Hc|n w f b ls ps Hl|n w f b ls ps Hl
    |config n w f b ls ps Hl|now n w f loaded b ls ps Hl|config n th b ls ps Hth _|now n th loaded b ls ps Hth Hld]; cbn in *.
  - specialize (Hls eq_refl). subst ls. unfold check_entry in Hc. destruct (alias_cache b !! _) as [e|] eqn:Ee; [|done].
    injection Hc as _ [_ Hf]%andb_true_iff. apply negb_true_iff in Hf. split; [done| |].
    + intros g. etrans; [apply (Hm g)|]. cbn. naive_solver.
    + right. eexists. split; [done|]. split; [|intros _; by eexists]. cbn. intros Hin. destruct (proj2 (Hm _) (or_introl Hin)) as (e' & He' & Hp). cbn in He'. congruence.
  - specialize (Hls eq_refl). subst ls. unfold check_entry in Hc. destruct (alias_cache b !! _) as [e|] eqn:Ee; [done|]. split; [done| |].
    + intros g. etrans; [apply (Hm g)|]. cbn. naive_solver.
    + right. eexists. split; [done|]. split; [|done]. cbn. intros Hin. destruct (proj2 (Hm _) (or_introl Hin)) as (e' & He' & Hp). cbn in He'. congruence.
  - destruct (lookup_alone _ _ _ Hone Hl) as [-> ->]. destruct Hal as [|(look & [= <-] & Hnot & He)]; [done|]. specialize (He eq_refl). cbn in Hnot, He.
    split; [done| |right; eexists; split; [done|]; split; [done|]; intros _; by cbn; rewrite lookup_alter_is_Some].
    intros g. unfold marked. cbn. destruct (decide (g = f)) as [->|Hne].
    + destruct He as [e He]. rewrite lookup_alter_eq, He. cbn. split; [|by eexists]. intros _. right. by exists w.
    + rewrite lookup_alter_ne by done. etrans; [apply (Hm g)|]. cbn. naive_solver.
  - destruct (lookup_alone _ _ _ Hone Hl) as [-> ->]. destruct Hal as [|(look & [= <-] & Hnot & He)]; [done|]. cbn in Hnot.
    assert (refreshing (mkShared (spawn_refresh w f b) (drop_at 0 [Marked w f]) ps) ++ ps ≡ₚ f :: (map thread_family (threads b) ++ ps)) as Hp.
    { unfold refreshing. cbn. rewrite map_app. cbn. by rewrite <-Permutation_middle, app_nil_r. }
    split; [|intros g; cbn [panicked]; rewrite Hp|by left].
    + cbn [panicked]. rewrite Hp. by constructor.
    + rewrite elem_of_cons. etrans; [apply (Hm g)|]. cbn. unfold refreshing. cbn. naive_solver.
  - destruct (lookup_alone _ _ _ Hone Hl) as [-> ->]. destruct Hal as [|(look & [= <-] & Hnot & _)]; [done|]. cbn in Hnot.
    split; [done| |right; eexists; by split_and!]. intros g. etrans; [apply (Hm g)|]. cbn. naive_solver.
  - destruct (lookup_alone _ _ _ Hone Hl) as [-> ->]. destruct Hal as [|(look & [= <-] & Hnot & _)]; [done|]. cbn in Hnot.
    assert (threads (store_aliases now f loaded b) = threads b) as Hts by by destruct loaded.
    split; [unfold refreshing; cbn; by rewrite Hts| |by left]. intros g. unfold refreshing. cbn. rewrite Hts.
    destruct loaded as [m|e|]; [..|etrans; [apply (Hm g)|]; cbn; naive_solver];
      (unfold marked; cbn [shared]; rewrite stored_entry by done; unfold marked, refreshing in *; cbn in *; rewrite Hm; split; [naive_solver|]);
      (intros [Hg|[? [=]]]; split; [by intros ->|by left]).
  - assert (map thread_family (<[n := loaded_thread th (load_aliases config (thread_worktree th))]> (threads b)) = map thread_family (threads b)) as Heq.
    { change (thread_family <$> <[n := loaded_thread th (load_aliases config (thread_worktree th))]> (threads b) = thread_family <$> threads b).
      rewrite list_fmap_insert. cbn. apply list_insert_id. by rewrite list_lookup_fmap, Hth. }
    unfold refreshing, marked in *. cbn in *. by split; unfold refreshing, marked; cbn; rewrite ?Heq.
  - pose proof (drop_at_perm _ _ _ Hth) as Hperm. apply (Permutation_map thread_family) in Hperm. cbn in Hperm.
    assert (loaded = Panic ∨ loaded ≠ Panic) as [->|Hne] by (destruct loaded; auto).
    + assert (map thread_family (threads b) ++ ps ≡ₚ map thread_family (drop_at n (threads b)) ++ thread_family th :: ps) as Hp.
      { rewrite Hperm. cbn. by rewrite Permutation_middle. }
      unfold refreshing, marked in *. cbn in *. setoid_rewrite Hp in Hm. rewrite Hp in Hnd. split; unfold refreshing, marked; cbn; [done|done|].
      destruct Hal as [?|(look & ? & Hlook & He)]; [by left|right]. exists look. by rewrite Hp in Hlook.
    + set (ps' := match loaded with Panic => _ | _ => _ end). assert (ps' = ps) as -> by by destruct loaded.
      unfold refreshing, marked in *. cbn in *. rewrite Hperm in Hnd. cbn in Hnd. apply NoDup_cons in Hnd as [Hnot Hnd].
      split; unfold refreshing, marked; cbn; [done| |].
      * intros g. rewrite stored_entry by done. rewrite Hm, Hperm. cbn. rewrite elem_of_cons.
        destruct Hal as [->|(look & -> & Hlook & _)]; [split; [intros [? [[?|?]|[? ?]]]; naive_solver|]; intros [?|[? ?]]; [|done]; split; [by intros ->|naive_solver]|].
        rewrite Hperm in Hlook. cbn in Hlook. apply not_elem_of_cons in Hlook as [Hf Hlook].
        split; [intros [? [[?|?]|?]]; naive_solver|]. intros [Hg|[w [= ->]]]; [split; [by intros ->|naive_solver]|]. cbn in Hf. split; [congruence|]. right. by exists w.
      * destruct Hal as [?|(look & ? & Hlook & He)]; [by left|right]. exists look. split; [done|]. rewrite Hperm in Hlook. cbn in Hlook.
        apply not_elem_of_cons in Hlook as [_ Hlook]. split; [done|]. intros Hf. by apply stored_there, He.
Qed.

(** *** Quoted words *)

Lemma read_quoted_chars ts cs : ∀ acc,
  foldl read_alias_char (mkReader ts acc false true false) (flat_map quote_char cs) = mkReader ts (acc ++ concat cs) false true false.
Proof.
  induction cs as [|ch cs IH]; intros acc; cbn [flat_map concat]; [by rewrite app_nil_r|]. rewrite foldl_app.
  assert (foldl read_alias_char (mkReader ts acc false true false) (quote_char ch) = mkReader ts (acc ++ ch) false true false) as ->.
  { unfold quote_char. destruct (str_eqb ch DOUBLE_QUOTE) eqn:Ed; [done|]. destruct (str_eqb ch ESCAPE) eqn:Ee; cbn [orb].
    - done.
    - cbn. unfold read_alias_char. cbn. by rewrite Ed, Ee. }
  by rewrite IH, app_assoc.
Qed.

Lemma read_quoted_word ts w :
  foldl read_alias_char (mkReader ts [] false false false) (quoted_word w) = mkReader ts w false false false.
Proof.
  unfold quoted_word. cbn [foldl]. change (read_alias_char (mkReader ts [] false false false) DOUBLE_QUOTE) with (mkReader ts [] false true false).
  by rewrite foldl_app, read_quoted_chars, concat_chars.
Qed.

Lemma read_more_words rest : ∀ ts w, w ≠ [] → Forall (λ w, w ≠ []) rest →
  finish_alias (foldl read_alias_char (mkReader ts w false false false) (flat_map (λ w, lit " " :: quoted_word w) rest)) = Some (ts ++ w :: rest).
Proof.
  induction rest as [|w' rest IH]; intros ts w Hw Hr; cbn [flat_map].
  - unfold finish_alias, close_token. cbn. by rewrite bool_decide_false.
  - inversion_clear Hr as [|? ? Hw' Hrest]. rewrite foldl_app. cbn [foldl].
    assert (read_alias_char (mkReader ts w false false false) (lit " ") = mkReader (ts ++ [w]) [] false false false) as ->.
    { unfold read_alias_char. cbn. unfold close_token. cbn. by rewrite bool_decide_false. }
    rewrite read_quoted_word, IH by done. by rewrite <-app_assoc.
Qed.

Lemma quoted_word_chars w : is_utf8 w = true → forallb utf8_char (quoted_word w) = true.
Proof.
  intros Hw. unfold quoted_word. cbn [forallb]. rewrite forallb_app. cbn [forallb]. rewrite andb_true_r.
  change (utf8_char DOUBLE_QUOTE) with true. cbn [andb]. unfold is_utf8 in Hw.
  induction (chars w) as [|ch cs IH]; [done|]. cbn in Hw |- *. bool_hyps. rewrite forallb_app, IH, andb_true_r by done.
  unfold quote_char. destruct (_ || _); cbn; by rewrite H.
Qed.
End GitBackendFacts.

(** ** Theorems *)

Module GitBackendProps.
Import Paths Files RepoState StateResult GitBackend AliasRef GitBackendFacts.
Import DiffCompute(result).

(** The words of an alias, each between double quotes with its quotes and
    backslashes escaped, are read back, empty words apart. *)
Theorem alias_words_read_back ws :
  Forall (λ w, w ≠ [] ∧ is_utf8 w = true) ws → parse_alias_tokens (alias_text ws) = Some ws.
Proof.
  intros Hws. destruct ws as [|w rest]; [done|]. inversion_clear Hws as [|? ? [Hw Hu] Hrest].
  unfold alias_text. set (cs := quoted_word w ++ flat_map (λ w, lit " " :: quoted_word w) rest).
  assert (chars (concat cs) = cs) as Hcs.
  { rewrite <-(app_nil_r (concat cs)), chars_concat_app; [apply app_nil_r|]. subst cs. rewrite forallb_app, quoted_word_chars by done.
    clear -Hrest. induction Hrest as [|w' rest [_ Hu] _ IH]; [done|]. cbn [flat_map forallb app]. rewrite forallb_app, quoted_word_chars by done. exact IH. }
  unfold parse_alias_tokens. assert (trim_start (concat cs) = concat cs) as ->.
  { unfold trim_start. rewrite Hcs. done. }
  rewrite Hcs. change (starts_with (lit "!") (concat cs)) with false. cbn match.
  subst cs. rewrite foldl_app, read_quoted_word, (read_more_words rest []); [done..|]. eapply Forall_impl; [exact Hrest|]. by intros ? [].
Qed.

Lemma alias_words_read_back_witness :
  parse_alias_tokens (alias_text (map lit ["commit"; "-m"; "it's \ done"]%string)) = Some (map lit ["commit"; "-m"; "it's \ done"]%string).
Proof. apply (alias_words_read_back (map lit ["commit"; "-m"; "it's \ done"]%string)). repeat constructor; done. Defined.

(** C31: When the configuration holds finitely many values, the expansion of an alias
    ends within as many turns as there are words in the command line and in the
    aliases, cyclic aliases included; more fuel changes nothing, and the command
    it ends at is built in or no alias. *)
Theorem alias_expansion_ends `{disk : Disk} config now worktree argv b values :
  config worktree ≠ Panic →
  (∀ file key v, config worktree = Ret file → config_string file key = Some v → v ∈ values) →
  let enough := S (length (expansion_words config worktree values argv b)) in
  let answer fuel := (expand_alias_invocation config now fuel worktree argv b).2 in
  answer enough ≠ Panic ∧ (∀ fuel, enough ≤ fuel → answer fuel = answer enough) ∧
  ∀ command args, answer enough = Ret (Some (command, args)) →
    is_builtin_primary_command command = true ∨ (resolve_alias_cached config now worktree command b).2 = Ret None.
Proof.
  intros Hc Hfin enough answer. assert (∀ fuel, answer fuel = expand_by fuel (lookup_alias config now worktree b)
    (CliParser.parse_git_cli_args (git_invocation_tokens argv)) []) as Ha.
  { intros fuel. apply expand_loop_by. }
  set (words := expansion_words config worktree values argv b) in *.
  assert (lit "help" ∈ words ∧ lit "version" ∈ words) as [Hhelp Hversion].
  { subst words. unfold expansion_words. split; [left|right; left]. }
  assert (answer enough ≠ Panic) as Hends.
  { rewrite Ha. apply (expand_by_ends _ words); [| |done|done| |apply NoDup_nil_2|by intros ? ?%elem_of_nil|subst enough; cbn; lia].
    - intros name. by apply lookup_never_panics.
    - intros name v ts Hl Hp. apply (lookup_known config now worktree values) in Hl; [|done]. apply Forall_forall. intros w Hw.
      subst words. unfold expansion_words. do 2 right. apply elem_of_app. right. apply elem_of_flat_map. exists v. by rewrite Hp.
    - apply parse_words; [|done..]. apply Forall_forall. intros w Hw. subst words. unfold expansion_words. do 2 right. apply elem_of_app. left.
      unfold git_invocation_tokens in Hw. destruct argv as [|token rest]; [done|]. destruct (is_git_binary token); [by right|done]. }
  split; [done|]. split.
  - intros fuel Hle. rewrite !Ha in *. by apply expand_by_more.
  - intros command args. rewrite Ha. apply expand_by_result.
Qed.

(** Aliases of a repository whose configuration names each other. *)
Definition sample_config : ConfigFile :=
  mkConfig (λ _, Some [mkSection (map lit ["a"; "b"; "up"]%string)
    (λ k, if str_eqb k (lit "a") then Some (lit "b") else if str_eqb k (lit "b") then Some (lit "a")
          else if str_eqb k (lit "up") then Some (lit "pull --rebase") else None)]) (λ _, None).
Definition sample_worktree : Disk := disk_of [(lit "/w/.git/HEAD", File (lit "ref: refs/heads/main")); (lit "/w/.git", Dir 0)].

Lemma alias_expansion_ends_witness :
  (expand_alias_invocation (disk := sample_worktree) (λ _, Ret sample_config) 0
     (S (length (expansion_words (λ _, Ret sample_config) (lit "/w") [] (map lit ["git"; "a"]%string) new_backend))) (lit "/w")
     (map lit ["git"; "a"]%string) new_backend).2 ≠ Panic.
Proof.
  apply (alias_expansion_ends (disk := sample_worktree) (λ _, Ret sample_config) 0 (lit "/w") (map lit ["git"; "a"]%string) new_backend []); [done|].
  by intros file key v [= <-].
Defined.

Example up_is_pull :
  (expand_alias_invocation (disk := sample_worktree) (λ _, Ret sample_config) 0 10 (lit "/w") (map lit ["git"; "up"; "origin"]%string) new_backend).2 =
  Ret (Some (lit "pull", map lit ["--rebase"; "origin"]%string)).
Proof. vm_compute. reflexivity. Qed.

(** C32: A lookup checks the entry under one lock and marks it under another; a
    refresh reads the configuration before it takes the lock to store it.  Whatever
    threads interleave with these steps, and whatever they read or fail: as long as
    lookups do not overlap, at most one thread refreshes a family, and an entry is
    marked exactly while one does, or a lookup is about to start one, or forever
    once one panicked, after which no thread refreshes the family again. *)
Theorem one_refresh_at_a_time s : rtc (shared_step true) unused s →
  NoDup (refreshing s ++ panicked s) ∧
  ∀ f, marked s f ↔ f ∈ refreshing s ++ panicked s ∨ ∃ w, lookups s = [Marked w f].
Proof.
  intros Hr. refine (_ (rtc_ind_l (λ x, tracked x → tracked s) s _ _ unused Hr _)).
  - intros [Hnd Hm _]. done.
  - done.
  - intros x y Hxy _ IH Hx. by apply IH, (step_tracked x y).
  - split; [apply NoDup_nil_2| |by left]. intros f. unfold marked. cbn. rewrite elem_of_nil. split; [by intros (e & He & _)|].
    by intros [[]|[? ?]].
Qed.

(** The backend after a first lookup, and a minute and a half later. *)
Definition after_first : SystemGitBackend :=
  (resolve_alias_cached (disk := sample_worktree) (λ _, Ret sample_config) 0 (lit "/w") (lit "up") new_backend).1.
Definition sample_later : N := 90000000000.

Lemma first_lookup alone : rtc (shared_step alone) unused (mkShared after_first [] []).
Proof.
  eapply rtc_l; [apply (begin_cold alone (disk := sample_worktree) 0 (lit "/w") (lit "/w/.git") (lit "up")); [done|vm_compute; reflexivity..]|].
  eapply rtc_l; [eapply (cold_load alone (λ _, Ret sample_config) 0); reflexivity|]. cbn [app list_insert insert].
  eapply rtc_l; [eapply (cold_store alone 0 0); reflexivity|]. apply rtc_refl.
Qed.

Lemma one_refresh_at_a_time_witness :
  let b := spawn_refresh (lit "/w") (lit "/w/.git") (mark_in_progress (lit "/w/.git") after_first) in
  refreshing (mkShared b [] []) = [lit "/w/.git"] ∧ marked (mkShared b [] []) (lit "/w/.git").
Proof.
  intros b. assert (rtc (shared_step true) unused (mkShared b [] [])) as Hr.
  { etrans; [apply first_lookup|].
    eapply rtc_l; [apply (begin_stale true (disk := sample_worktree) sample_later (lit "/w") (lit "/w/.git") (lit "up") (Some (lit "pull --rebase"))); [done|vm_compute; reflexivity..]|].
    eapply rtc_l; [eapply (mark true 0); reflexivity|]. cbn [app list_insert insert].
    eapply rtc_l; [eapply (spawn true 0); reflexivity|]. apply rtc_refl. }
  split; [reflexivity|]. apply (one_refresh_at_a_time _ Hr). left. left.
Defined.

(** Two lookups that overlap both find the entry stale, and both start a thread. *)
Example overlapping_lookups_refresh_twice :
  ∃ s, rtc (shared_step false) unused s ∧ refreshing s = [lit "/w/.git"; lit "/w/.git"].
Proof.
  eexists. split.
  { etrans; [apply first_lookup|].
  eapply rtc_l; [apply (begin_stale false (disk := sample_worktree) sample_later (lit "/w") (lit "/w/.git") (lit "up") (Some (lit "pull --rebase"))); [done|vm_compute; reflexivity..]|].
  eapply rtc_l; [apply (begin_stale false (disk := sample_worktree) sample_later (lit "/w") (lit "/w/.git") (lit "up") (Some (lit "pull --rebase"))); [done|vm_compute; reflexivity..]|].
  eapply rtc_l; [eapply (mark false 0); reflexivity|]. eapply rtc_l; [eapply (mark false 1); reflexivity|].
  eapply rtc_l; [eapply (spawn false 0); reflexivity|]. eapply rtc_l; [eapply (spawn false 0); reflexivity|]. apply rtc_refl. }
  vm_compute. reflexivity.
Qed.

(** A refresh that panics leaves the mark: no later refresh of the family starts. *)
Example panicking_refresh_is_the_last :
  ∃ s, rtc (shared_step true) unused s ∧ refreshing s = [] ∧ marked s (lit "/w/.git").
Proof.
  eexists. split; [|split].
  - etrans; [apply first_lookup|].
    eapply rtc_l; [apply (begin_stale true (disk := sample_worktree) sample_later (lit "/w") (lit "/w/.git") (lit "up") (Some (lit "pull --rebase"))); [done|vm_compute; reflexivity..]|].
    eapply rtc_l; [eapply (mark true 0); reflexivity|]. eapply rtc_l; [eapply (spawn true 0); reflexivity|].
    eapply rtc_l; [eapply (thread_load true (λ _, Panic) 0); reflexivity|]. eapply rtc_l; [eapply (thread_store true 0 0); reflexivity|]. apply rtc_refl.
  - reflexivity.
  - eexists. split; vm_compute; reflexivity.
Qed.

(** The short form of the option that names the remote takes a value that the
    daemon does not know of: the name of the remote is taken for the source and
    the URL for the directory. *)
Theorem short_origin_taken_for_source git name url cwd :
  is_git_binary git = true → CliParser.is_option name = false → CliParser.is_option url = false → is_absolute url = false →
  system_clone_target ([git; lit "clone"; lit "-o"; name; url]) (Some cwd) = Some (join cwd url).
Proof.
  intros Hg Hn Hu Ha. unfold system_clone_target, command_args, git_invocation_tokens. rewrite Hg.
  change (after_command (lit "clone") [lit "clone"; lit "-o"; name; url]) with [lit "-o"; name; url].
  cbn [clone_init_positionals]. change (str_eqb (lit "-o") (lit "--")) with false. change (CliParser.is_option (lit "-o")) with true.
  change (takes_value (lit "-o")) with false. cbn iota.
  rewrite !CliParserFacts.word_not_separator, Hn, Hu by done. unfold resolve_target. by rewrite Ha.
Qed.

Lemma short_origin_taken_for_source_witness :
  system_clone_target (map lit ["git"; "clone"; "-o"; "up"; "https://h/r.git"]%string) (Some (lit "/w")) = Some (lit "/w/https://h/r.git").
Proof. apply (short_origin_taken_for_source (lit "git") (lit "up") (lit "https://h/r.git") (lit "/w")); reflexivity. Defined.
End GitBackendProps.
