(* ===== verification/TraceNormalizer.v ===== *)
(** * From trace events to commands

    src/src/daemon/trace_normalizer.rs: git reports what it does as a stream of
    events, in no reliable order across its processes; the normalizer collects
    those of one root process and makes a command of them when it ends. *)

From S2P Require Import Prelude Text DiffCompute StateResult HashIter CliParser CommandClass Domain Analyzers PatchParse Disk FastReader Reflog GitBackend.
From Stdlib Require Import SpecFloat.

(** ** Definitions *)

Module TraceNormalizer.
Import HashIter Paths Files RepoState StateResult GitBackend.
Import DiffCompute(result).
Import Domain(FamilyKey, NormalizedCommand, mkCommand, CommandScope, Family, Global, Low).
Import CliParser(parse_git_cli_args, one_of, is_option, contains_char).
Import Analyzers(path_file_name, to_ascii_lowercase).

(** *** Payloads *)

(** What the JSON library answers about a value. *)
Class Json := {
  value : Type;
  get : str → value → option value;
  as_str : value → option str;
  as_u64 : value → option N;
  as_i64 : value → option Z;
  as_f64 : value → option spec_float;
  as_array : value → option (list value);
  as_object : value → option (list (str * value))
}.

Section Payload.
Context `{json : Json}.

Definition get_str (key : string) (payload : value) : option str := get (lit key) payload ≫= as_str.

Definition payload_argv (payload : value) : list str :=
  match get (lit "argv") payload ≫= as_array with Some argv => omap as_str argv | None => [] end.

Definition def_repo_is_secondary (payload : value) : bool :=
  match get (lit "repo") payload ≫= as_u64 with Some index => (1 <? index)%N | None => false end.

Definition TRACE_ROOT_REFLOG_START_OFFSETS_FIELD : string := "git_ai_root_reflog_start_offsets".

Definition payload_reflog_start_offsets (payload : value) : gmap str N :=
  match get (lit TRACE_ROOT_REFLOG_START_OFFSETS_FIELD) payload ≫= as_object with
  | Some object => foldl (λ m kv, match as_u64 kv.2 with Some offset => <[kv.1 := offset]> m | None => m end) ∅ object
  | None => ∅
  end.

(** A float to a [u128]: towards zero, within the bounds. *)
Definition u128_of_f64 (f : spec_float) : N :=
  let bound n := N.min n 340282366920938463463374607431768211455 in
  match f with
  | S754_infinity false => 340282366920938463463374607431768211455
  | S754_finite false m e => bound (Z.to_N (Z.shiftl (Zpos m) e))
  | _ => 0
  end.

Definition f64_1e9 : spec_float := binary_normalize 53 1024 1000000000 0 false.

(** [chrono::DateTime::parse_from_rfc3339] and [timestamp_nanos_opt]. *)
Variable parse_rfc3339_nanos : str → option Z.

Definition rfc3339_to_unix_nanos (text : str) : option N :=
  try nanos := parse_rfc3339_nanos text in
  if (nanos <? 0)%Z then None else Some (Z.to_N nanos).

Definition first_some {A : Type} (l : list (option A)) : option A := List.hd_error (omap id l).

(** The time of an event; an event that has none is given the time it is read at. *)
Definition payload_timestamp_ns (clock : N) (payload : value) : N :=
  default clock (first_some [
    get (lit "ts") payload ≫= as_u64;
    get (lit "time_ns") payload ≫= as_u64;
    get (lit "time") payload ≫= as_u64;
    get_str "time" payload ≫= rfc3339_to_unix_nanos;
    (λ seconds, u128_of_f64 (SFmul 53 1024 seconds f64_1e9)) <$> (get (lit "t_abs") payload ≫= as_f64)]).

(** *** Words *)

Definition trace_argv_has_executable_prefix (argv : list str) : bool :=
  match argv with
  | [] => false
  | first :: _ => one_of ["git"; "git.exe"]%string (to_ascii_lowercase (default first (path_file_name first)))
  end.

Definition trace_argv_invocation_tokens (argv : list str) : list str :=
  if trace_argv_has_executable_prefix argv then drop 1 argv else argv.

Definition args_after_command (argv : list str) (command : str) : list str := after_command command argv.

Definition canonical_invocation (raw_argv : list str) (primary_command : option str) : option str * list str :=
  let tokens := trace_argv_invocation_tokens raw_argv in
  let parsed := parse_git_cli_args tokens in
  match CliParser.command parsed with
  | Some command => (Some command, CliParser.command_args parsed)
  | None =>
      match primary_command with
      | Some command => if bool_decide (trim command = []) then (None, []) else (Some command, args_after_command tokens command)
      | None => (None, [])
      end
  end.

Definition root_sid (sid : str) : str := default sid (List.hd_error (split_on "/" sid)).

Definition is_internal_cmd_name (name : str) : bool := starts_with (lit "_run_") name.

Definition takes_value_option (token : str) : bool :=
  one_of ["-c"; "--config-env"; "--git-dir"; "--work-tree"; "--namespace"; "--super-prefix"; "--exec-path"; "--worktree-attributes";
          "--attr-source"]%string token.

Fixpoint primary_loop (tokens : list str) : option str :=
  match tokens with
  | [] => None
  | token :: rest =>
      if str_eqb token (lit "-C") || takes_value_option token then
        match rest with _ :: rest' => primary_loop rest' | [] => None end
      else if is_option token then primary_loop rest
      else Some token
  end.

Definition argv_primary_command (argv : list str) : option str := primary_loop (git_invocation_tokens argv).

Definition is_user_command (name : str) : bool := negb (is_internal_cmd_name name) && negb (is_git_binary name).

Definition select_primary_command (root_cmd_name : option str) (observed_child_commands argv : list str) : option str :=
  match root_cmd_name with
  | Some name => if is_user_command name then Some name
                 else match List.find is_user_command observed_child_commands with
                      | Some child => Some child
                      | None => argv_primary_command argv
                      end
  | None => match List.find is_user_command observed_child_commands with
            | Some child => Some child
            | None => argv_primary_command argv
            end
  end.

Definition command_may_mutate_refs (primary_command : option str) (raw_argv : list str) : bool :=
  match primary_command with
  | Some command => CommandClass.git_invocation_may_mutate_repo_state command (canonical_invocation raw_argv (Some command)).2
  | None => false
  end.

(** *** Places *)

Context `{disk : Disk}.

Definition root_or_itself (p : path) : path := default p (worktree_root_for_path p).

Definition payload_worktree (payload : value) : option path :=
  root_or_itself <$> ((match get (lit "worktree") payload with Some v => Some v | None => get (lit "repo_working_dir") payload end) ≫= as_str).

Definition payload_cwd (payload : value) : option path := root_or_itself <$> get_str "cwd" payload.

Fixpoint worktree_from_argv (argv : list str) : option path :=
  match argv with
  | arg :: rest =>
      if str_eqb arg (lit "-C") then
        match rest with directory :: _ => Some (root_or_itself directory) | [] => None end
      else worktree_from_argv rest
  | [] => None
  end.

Definition worktree_from_def_repo_repo (repo : path) : option path :=
  if bool_decide (path_file_name repo = Some (lit ".git")) then parent repo
  else
    let linked_gitdir := join repo (lit "gitdir") in
    if is_file linked_gitdir then
      try content := read_to_string linked_gitdir in
      if bool_decide (path_file_name (trim content) = Some (lit ".git")) then parent (trim content) else None
    else None.

Definition payload_repo (payload : value) : option path :=
  (λ repo, root_or_itself (default repo (worktree_from_def_repo_repo repo))) <$> get_str "repo" payload.
End Payload.

(** *** State *)

Record PendingTraceCommand := mkPending {
  pending_root_sid : str;
  pending_raw_argv : list str;
  root_cmd_name : option str;
  pending_child_commands : list str;
  invocation_worktree : option path;
  pending_worktree : option path;
  pending_family_key : option FamilyKey;
  pending_started_at_ns : N;
  pending_exit_code : option Z;
  pending_finished_at_ns : option N;
  pending_reflog_start_offsets : gmap str N;
  saw_def_repo : bool
}.

Record DeferredRootExit := mkDeferred {
  deferred_exit_code : Z;
  deferred_finished_at_ns : N;
  is_atexit : bool
}.

Record OrphanTraceRoot := mkOrphan {
  orphan_root_sid : str;
  orphan_raw_argv : list str;
  deferred_exit_only : bool
}.

Record TraceNormalizerState := mkState {
  pending : gmap str PendingTraceCommand;
  deferred_exits : gmap str DeferredRootExit;
  completed_roots : gset str;
  completed_root_order : list str;
  sid_to_worktree : gmap str path;
  sid_to_family : gmap str FamilyKey;
  prestart_root_cmd_names : gmap str str
}.

Definition no_state : TraceNormalizerState := mkState ∅ ∅ ∅ [] ∅ ∅ ∅.

Definition set_pending (m : gmap str PendingTraceCommand) (s : TraceNormalizerState) : TraceNormalizerState :=
  mkState m (deferred_exits s) (completed_roots s) (completed_root_order s) (sid_to_worktree s) (sid_to_family s) (prestart_root_cmd_names s).
Definition set_deferred (m : gmap str DeferredRootExit) (s : TraceNormalizerState) : TraceNormalizerState :=
  mkState (pending s) m (completed_roots s) (completed_root_order s) (sid_to_worktree s) (sid_to_family s) (prestart_root_cmd_names s).
Definition set_completed (roots : gset str) (order : list str) (s : TraceNormalizerState) : TraceNormalizerState :=
  mkState (pending s) (deferred_exits s) roots order (sid_to_worktree s) (sid_to_family s) (prestart_root_cmd_names s).
Definition set_worktrees (m : gmap str path) (s : TraceNormalizerState) : TraceNormalizerState :=
  mkState (pending s) (deferred_exits s) (completed_roots s) (completed_root_order s) m (sid_to_family s) (prestart_root_cmd_names s).
Definition set_families (m : gmap str FamilyKey) (s : TraceNormalizerState) : TraceNormalizerState :=
  mkState (pending s) (deferred_exits s) (completed_roots s) (completed_root_order s) (sid_to_worktree s) m (prestart_root_cmd_names s).
Definition set_prestart (m : gmap str str) (s : TraceNormalizerState) : TraceNormalizerState :=
  mkState (pending s) (deferred_exits s) (completed_roots s) (completed_root_order s) (sid_to_worktree s) (sid_to_family s) m.

Definition update_pending (root : str) (f : PendingTraceCommand → PendingTraceCommand) (s : TraceNormalizerState) : TraceNormalizerState :=
  set_pending (alter f root (pending s)) s.

(** What is known of a root besides its command. *)
Definition forget_root (root : str) (s : TraceNormalizerState) : TraceNormalizerState :=
  set_prestart (delete root (prestart_root_cmd_names s))
    (set_families (delete root (sid_to_family s)) (set_worktrees (delete root (sid_to_worktree s)) s)).

(** *** Completed roots *)

Definition COMPLETED_ROOT_RETENTION_LIMIT : N := 16384.

Fixpoint evict (limit : N) (roots : gset str) (order : list str) : gset str * list str :=
  if (N.of_nat (size roots) <=? limit)%N then (roots, order)
  else match order with
       | [] => (roots, [])
       | oldest :: rest => evict limit (roots ∖ {[oldest]}) rest
       end.

Definition mark_completed_root_with_limit (root : str) (limit : N) (s : TraceNormalizerState) : TraceNormalizerState :=
  let '(roots, order) :=
    if bool_decide (root ∈ completed_roots s) then (completed_roots s, completed_root_order s)
    else ({[root]} ∪ completed_roots s, completed_root_order s ++ [root]) in
  let '(roots, order) := evict limit roots order in
  set_completed roots order s.

Definition mark_completed_root (root : str) (s : TraceNormalizerState) : TraceNormalizerState :=
  mark_completed_root_with_limit root COMPLETED_ROOT_RETENTION_LIMIT s.

Definition is_completed_root (root : str) (s : TraceNormalizerState) : bool := bool_decide (root ∈ completed_roots s).

(** *** The normalizer *)

Section Normalizer.
Context `{json : Json} `{disk : Disk} `{git : GitBackend} `{order : HashOrder}.
Variable parse_rfc3339_nanos : str → option Z.

Record TraceNormalizer := mkNormalizer { the_backend : backend; state : TraceNormalizerState }.

Definition new (b : backend) : TraceNormalizer := mkNormalizer b no_state.

Abbreviation N_M := (M TraceNormalizer).

(** A call of the backend. *)
Definition ask {A : Type} (m : M backend A) : N_M A := λ t, let '(b, r) := m (the_backend t) in (mkNormalizer b (state t), r).
Definition update (f : TraceNormalizerState → TraceNormalizerState) : N_M unit := modify (λ t, mkNormalizer (the_backend t) (f (state t))).
Definition look {A : Type} (f : TraceNormalizerState → A) : N_M A := gets (λ t, f (state t)).

(** *** Orphans *)

Definition remove_pending_root (root : str) (s : TraceNormalizerState) : TraceNormalizerState * option PendingTraceCommand :=
  match pending s !! root with
  | Some removed => (forget_root root (set_pending (delete root (pending s)) s), Some removed)
  | None => (s, None)
  end.

Fixpoint sweep_pending (roots : list str) (s : TraceNormalizerState) (removed : list OrphanTraceRoot) :
    TraceNormalizerState * list OrphanTraceRoot :=
  match roots with
  | [] => (s, removed)
  | root :: rest =>
      let '(s, found) := remove_pending_root root s in
      sweep_pending rest s (match found with Some p => removed ++ [mkOrphan root (pending_raw_argv p) false] | None => removed end)
  end.

Definition remove_deferred (root : str) (s : TraceNormalizerState) : TraceNormalizerState :=
  forget_root root (set_deferred (delete root (deferred_exits s)) s).

Fixpoint sweep_deferred (roots : list str) (s : TraceNormalizerState) (removed : list OrphanTraceRoot) :
    TraceNormalizerState * list OrphanTraceRoot :=
  match roots with
  | [] => (s, removed)
  | root :: rest => sweep_deferred rest (remove_deferred root s) (removed ++ [mkOrphan root [] true])
  end.

Definition sweep_orphans (s : TraceNormalizerState) : TraceNormalizerState * list OrphanTraceRoot :=
  let '(s, removed) := sweep_pending (hash_keys (pending s)) s [] in
  sweep_deferred (hash_keys (deferred_exits s)) s removed.

Fixpoint sweep_orphans_for_roots (roots : list str) (s : TraceNormalizerState) : TraceNormalizerState * list OrphanTraceRoot :=
  match roots with
  | [] => (s, [])
  | root :: rest =>
      let '(s, found) := remove_pending_root root s in
      match found with
      | Some p =>
          let '(s, removed) := sweep_orphans_for_roots rest s in (s, mkOrphan root (pending_raw_argv p) false :: removed)
      | None =>
          match deferred_exits s !! root with
          | Some _ => let '(s, removed) := sweep_orphans_for_roots rest (remove_deferred root s) in (s, mkOrphan root [] true :: removed)
          | None => sweep_orphans_for_roots rest s
          end
      end
  end.

(** *** Commands *)

Definition resolve_primary_hint (root_name : option str) (children raw_argv : list str) (worktree : option path)
    (family_key : option FamilyKey) : N_M (option str) :=
  let argv_primary := argv_primary_command raw_argv in
  let selected := match select_primary_command root_name children raw_argv with Some c => Some c | None => argv_primary end in
  let should_resolve_alias :=
    match selected, argv_primary with
    | Some selected_cmd, Some argv_cmd => str_eqb selected_cmd argv_cmd
    | None, Some _ => true
    | _, _ => false
    end in
  match worktree, family_key with
  | Some w, Some _ =>
      if should_resolve_alias then
        do! resolved := ask (resolve_primary_command w raw_argv) in
        ret (match resolved with Some c => Some c | None => selected end)
      else ret selected
  | _, _ => ret selected
  end.

Definition primary_hint_of (p : PendingTraceCommand) : N_M (option str) :=
  resolve_primary_hint (root_cmd_name p) (pending_child_commands p) (pending_raw_argv p) (pending_worktree p) (pending_family_key p).

Definition refresh_pending_mutation_capture (root : str) : N_M unit :=
  do! found := look (λ s, pending s !! root) in
  match found with
  | None => ret tt
  | Some p =>
      match pending_worktree p, pending_family_key p with
      | Some _, Some _ =>
          do! primary_hint := primary_hint_of p in
          if negb (command_may_mutate_refs primary_hint (pending_raw_argv p)) then ret tt else ret tt
      | _, _ => ret tt
      end
  end.

(** [pending.reflog_start_offsets.entry(key).or_insert(offset)], for every key. *)
Definition merge_reflog_start_offsets_from_payload (payload : value) (p : PendingTraceCommand) : PendingTraceCommand :=
  mkPending (pending_root_sid p) (pending_raw_argv p) (root_cmd_name p) (pending_child_commands p) (invocation_worktree p)
    (pending_worktree p) (pending_family_key p) (pending_started_at_ns p) (pending_exit_code p) (pending_finished_at_ns p)
    (pending_reflog_start_offsets p ∪ payload_reflog_start_offsets payload) (saw_def_repo p).

Definition set_root_cmd_name (name : str) (p : PendingTraceCommand) : PendingTraceCommand :=
  mkPending (pending_root_sid p) (pending_raw_argv p) (Some name) (pending_child_commands p) (invocation_worktree p)
    (pending_worktree p) (pending_family_key p) (pending_started_at_ns p) (pending_exit_code p) (pending_finished_at_ns p)
    (pending_reflog_start_offsets p) (saw_def_repo p).

Definition add_child_command (name : str) (p : PendingTraceCommand) : PendingTraceCommand :=
  mkPending (pending_root_sid p) (pending_raw_argv p) (root_cmd_name p) (pending_child_commands p ++ [name]) (invocation_worktree p)
    (pending_worktree p) (pending_family_key p) (pending_started_at_ns p) (pending_exit_code p) (pending_finished_at_ns p)
    (pending_reflog_start_offsets p) (saw_def_repo p).

Definition set_place (worktree : option path) (family : option FamilyKey) (saw : bool) (p : PendingTraceCommand) : PendingTraceCommand :=
  mkPending (pending_root_sid p) (pending_raw_argv p) (root_cmd_name p) (pending_child_commands p) (invocation_worktree p)
    worktree family (pending_started_at_ns p) (pending_exit_code p) (pending_finished_at_ns p)
    (pending_reflog_start_offsets p) saw.

(** *** The end of a root *)

(** The place of a command: what it knows itself, then what its root does. *)
Definition worktree_at_end (root : str) (s : TraceNormalizerState) (p : PendingTraceCommand) : option path :=
  match pending_worktree p with Some w => Some w | None => sid_to_worktree s !! root end.

Definition family_at_end (root : str) (s : TraceNormalizerState) (p : PendingTraceCommand) : option FamilyKey :=
  match pending_family_key p with
  | Some f => Some f
  | None =>
      match sid_to_family s !! root with
      | Some f => Some f
      | None => family_of <$> (worktree_at_end root s p ≫= common_dir_for_worktree)
      end
  end.

(** The repository that a clone or an init made: the first candidate that is one. *)
Fixpoint first_repository (candidates : list path) : option (path * FamilyKey) :=
  match candidates with
  | [] => None
  | candidate :: rest =>
      match common_dir_for_repo_path candidate with
      | Some common_dir => Some (candidate, family_of common_dir)
      | None => first_repository rest
      end
  end.

Definition made_repository (p : PendingTraceCommand) (is_clone : bool) (worktree : option path) (family : option FamilyKey) :
    option path * option FamilyKey :=
  let cwd_hint := invocation_worktree p in
  let target_from_def_repo := if saw_def_repo p then worktree else None in
  let target_from_argv := if is_clone then clone_target (pending_raw_argv p) cwd_hint else init_target (pending_raw_argv p) cwd_hint in
  let candidates := option_list target_from_def_repo
    ++ match target_from_argv with
       | Some target => if bool_decide (target_from_def_repo = Some target) then [] else [target]
       | None => []
       end in
  match first_repository candidates with
  | Some (target, f) => (Some target, Some f)
  | None =>
      (match target_from_def_repo with
       | Some target => Some target
       | None => match target_from_argv with Some target => Some target | None => worktree end
       end, family)
  end.

Definition is_word (word : string) (command : option str) : bool := bool_decide (command = Some (lit word)).

Definition place_at_end (p : PendingTraceCommand) (exit_code : Z) (primary_command : option str) (worktree : option path)
    (family : option FamilyKey) : option path * option FamilyKey :=
  if (exit_code =? 0)%Z && (is_word "clone" primary_command || is_word "init" primary_command)
  then made_repository p (is_word "clone" primary_command) worktree family
  else (worktree, family).

(** The invocation as git ran it: an alias is replaced by what it stands for. *)
Definition invocation_at_end (raw_argv : list str) (primary_command : option str) (worktree : option path) :
    N_M (option str * list str) :=
  let invoked := canonical_invocation raw_argv primary_command in
  match worktree with
  | Some w =>
      if bool_decide (primary_command = invoked.1) then ret invoked
      else
        do! expansion := ask (resolve_invocation w raw_argv) in
        ret (match expansion with
             | Some (expanded_command, expanded_args) =>
                 if bool_decide (Some expanded_command = invoked.1) then invoked else (Some expanded_command, expanded_args)
             | None => invoked
             end)
  | None => ret invoked
  end.

Definition finalize_root_exit (root : str) (exit_code : Z) (finished_at_ns : N) : N_M (option NormalizedCommand) :=
  do! found := look (λ s, pending s !! root) in
  match found with
  | None => fail (lit "missing pending command at finalize")
  | Some p =>
      do! _ := update (λ s, set_pending (delete root (pending s)) s) in
      do! worktree := look (λ s, worktree_at_end root s p) in
      do! family_key := look (λ s, family_at_end root s p) in
      do! primary_command :=
        resolve_primary_hint (root_cmd_name p) (pending_child_commands p) (pending_raw_argv p) worktree family_key in
      do! invoked := invocation_at_end (pending_raw_argv p) primary_command worktree in
      let primary_command := match primary_command with Some c => Some c | None => invoked.1 end in
      let place := place_at_end p exit_code primary_command worktree family_key in
      let normalized :=
        mkCommand (match place.2 with Some f => Family f | None => Global end) place.2 place.1 (pending_root_sid p)
          (pending_raw_argv p) primary_command invoked.1 invoked.2 (pending_child_commands p) exit_code (pending_started_at_ns p)
          finished_at_ns (pending_reflog_start_offsets p) None [] [] [] Low in
      do! _ := update (λ s, forget_root root (mark_completed_root root s)) in
      ret (Some normalized)
  end.

(** *** Events *)

Definition INGESTED_TRACE_EVENTS : list string := ["start"; "def_repo"; "cmd_name"; "def_param"; "exit"; "atexit"]%string.

Definition handle_start (payload : value) (sid root : str) (started_at_ns : N) : N_M (option NormalizedCommand) :=
  if negb (str_eqb sid root) then ret None
  else
    do! completed := look (is_completed_root root) in
    if completed : bool then ret None
    else
      let raw_argv := payload_argv payload in
      do! known_worktree := look (λ s, sid_to_worktree s !! root) in
      let worktree := first_some [payload_worktree payload; worktree_from_argv raw_argv; payload_cwd payload; known_worktree] in
      do! known_family := look (λ s, sid_to_family s !! root) in
      do! family_key :=
        match worktree ≫= common_dir_for_worktree with
        | Some common_dir =>
            do! _ := update (λ s, set_families (<[root := family_of common_dir]> (sid_to_family s)) s) in
            ret (Some (family_of common_dir))
        | None => ret known_family
        end in
      do! name := look (λ s, prestart_root_cmd_names s !! root) in
      let started := mkPending root raw_argv name [] worktree worktree family_key started_at_ns None None
        (payload_reflog_start_offsets payload) false in
      do! _ := update (λ s, set_prestart (delete root (prestart_root_cmd_names s)) (set_pending (<[root := started]> (pending s)) s)) in
      do! deferred := look (λ s, deferred_exits s !! root) in
      match deferred with
      | Some exit =>
          if is_atexit exit then
            do! _ := update (λ s, set_deferred (delete root (deferred_exits s)) s) in
            finalize_root_exit root (deferred_exit_code exit) (deferred_finished_at_ns exit)
          else ret None
      | None => ret None
      end.

(** The repository of the main process of a command. *)
Definition def_repo_target (payload : value) (prefer_def_repo_target : bool) (known_worktree : option path) : option path :=
  first_some (if prefer_def_repo_target then [payload_worktree payload; payload_repo payload; known_worktree]
              else [payload_worktree payload; known_worktree; payload_repo payload]).

Definition creates_repository (p : PendingTraceCommand) : bool :=
  let command := argv_primary_command (pending_raw_argv p) in is_word "clone" command || is_word "init" command.

Definition handle_def_repo (payload : value) (root : str) : N_M (option NormalizedCommand) :=
  if def_repo_is_secondary payload then
    do! _ := update (update_pending root (merge_reflog_start_offsets_from_payload payload)) in
    ret None
  else
    do! found := look (λ s, pending s !! root) in
    let prefer_def_repo_target := match found with Some p => creates_repository p | None => false end in
    if prefer_def_repo_target && match found with Some p => saw_def_repo p | None => false end then ret None
    else
      match def_repo_target payload prefer_def_repo_target (found ≫= pending_worktree) with
      | None => fail (lit "def_repo missing repo path")
      | Some repo =>
          let repo := root_or_itself repo in
          do! _ := update (λ s, set_worktrees (<[root := repo]> (sid_to_worktree s)) s) in
          let family := family_of <$> common_dir_for_repo_path repo in
          do! _ := update (λ s, match family with Some f => set_families (<[root := f]> (sid_to_family s)) s | None => s end) in
          do! _ := update (update_pending root (λ p,
            set_place (Some repo) (match family with Some f => Some f | None => pending_family_key p end) true
              (merge_reflog_start_offsets_from_payload payload p))) in
          do! _ := refresh_pending_mutation_capture root in
          ret None
      end.

Definition handle_cmd_name (payload : value) (sid root : str) : N_M (option NormalizedCommand) :=
  match get_str "name" payload with
  | None => fail (lit "cmd_name missing name")
  | Some cmd =>
      if is_internal_cmd_name cmd then ret None
      else if str_eqb sid root then
        do! found := look (λ s, pending s !! root) in
        match found with
        | Some _ =>
            do! _ := update (update_pending root (λ p, set_root_cmd_name cmd (merge_reflog_start_offsets_from_payload payload p))) in
            do! _ := refresh_pending_mutation_capture root in
            ret None
        | None =>
            do! _ := update (λ s, set_prestart (<[root := cmd]> (prestart_root_cmd_names s)) s) in
            ret None
        end
      else
        do! _ := update (update_pending root (add_child_command cmd)) in
        do! _ := refresh_pending_mutation_capture root in
        ret None
  end.

(** [as i32]. *)
Definition i32_wrap (z : Z) : Z := ((z + 2147483648) mod 4294967296 - 2147483648)%Z.

Definition payload_exit_code (payload : value) : Z :=
  i32_wrap (default 0%Z ((match get (lit "code") payload with Some v => Some v | None => get (lit "exit_code") payload end) ≫= as_i64)).

(** An exit that is not the end yet: the later time and the last code count. *)
Definition note_exit (exit_code : Z) (finished_at_ns : N) (atexit : bool) (noted : option DeferredRootExit) : DeferredRootExit :=
  match noted with
  | None => mkDeferred exit_code finished_at_ns atexit
  | Some d => mkDeferred exit_code (N.max (deferred_finished_at_ns d) finished_at_ns) (is_atexit d || atexit)
  end.

Definition handle_exit (payload : value) (sid root : str) (finished_at_ns : N) (atexit : bool) : N_M (option NormalizedCommand) :=
  if negb (str_eqb sid root) then ret None
  else
    do! completed := look (is_completed_root root) in
    if completed : bool then ret None
    else
      do! _ := update (update_pending root (merge_reflog_start_offsets_from_payload payload)) in
      let exit_code := payload_exit_code payload in
      do! found := look (λ s, pending s !! root) in
      match found with
      | Some _ =>
          if negb atexit then
            do! _ := update (λ s, set_deferred (<[root := note_exit exit_code finished_at_ns false (deferred_exits s !! root)]> (deferred_exits s)) s) in
            ret None
          else
            do! _ := update (λ s, set_deferred (delete root (deferred_exits s)) s) in
            finalize_root_exit root exit_code finished_at_ns
      | None =>
          do! _ := update (λ s, set_deferred (<[root := note_exit exit_code finished_at_ns atexit (deferred_exits s !! root)]> (deferred_exits s)) s) in
          ret None
      end.

Definition ingest_payload (clock : N) (payload : value) : N_M (option NormalizedCommand) :=
  match get_str "event" payload with
  | None => fail (lit "trace payload missing event")
  | Some event =>
      match get_str "sid" payload with
      | None => fail (lit "trace payload missing sid")
      | Some sid =>
          let root := root_sid sid in
          do! completed := look (is_completed_root root) in
          if completed : bool then ret None
          else
            let ts := payload_timestamp_ns parse_rfc3339_nanos clock payload in
            if str_eqb event (lit "start") then handle_start payload sid root ts
            else if str_eqb event (lit "def_repo") then handle_def_repo payload root
            else if str_eqb event (lit "cmd_name") then handle_cmd_name payload sid root
            else if str_eqb event (lit "exit") then handle_exit payload sid root ts false
            else if str_eqb event (lit "atexit") then handle_exit payload sid root ts true
            else ret None
      end
  end.
End Normalizer.

End TraceNormalizer.

(** ** Reference *)

Module TraceRuns.
Import HashIter Paths Files StateResult GitBackend TraceNormalizer.
Import DiffCompute(result).
Import Domain(NormalizedCommand).

Section Runs.
Context `{json : Json} `{git : GitBackend} `{order : HashOrder}.
Variable parse_rfc3339_nanos : str → option Z.

Definition reported (r : result (option NormalizedCommand)) : list NormalizedCommand :=
  match r with Ret (Some c) => [c] | _ => [] end.

(** What a normalizer may go through: events, whatever the files hold when each is
    read, and sweeps of the roots whose connections were lost; with the commands
    reported so far. *)
Inductive normalizer_run : TraceNormalizer → list NormalizedCommand → Prop :=
  | run_new b : normalizer_run (new b) []
  | run_event (disk : Disk) clock payload t reports : normalizer_run t reports →
      normalizer_run (ingest_payload (disk := disk) parse_rfc3339_nanos clock payload t).1
        (reports ++ reported (ingest_payload (disk := disk) parse_rfc3339_nanos clock payload t).2)
  | run_sweep roots t reports : normalizer_run t reports →
      normalizer_run (mkNormalizer (the_backend t) (sweep_orphans_for_roots roots (state t)).1) reports
  | run_sweep_all t reports : normalizer_run t reports →
      normalizer_run (mkNormalizer (the_backend t) (sweep_orphans (state t)).1) reports.

(** Events read one after the other, from files that stay as they are. *)
Fixpoint ingest_all `{disk : Disk} (events : list (N * value)) (t : TraceNormalizer) : TraceNormalizer * list NormalizedCommand :=
  match events with
  | [] => (t, [])
  | (clock, payload) :: rest =>
      let '(t, r) := ingest_payload parse_rfc3339_nanos clock payload t in
      let '(t, reports) := ingest_all rest t in
      (t, reported r ++ reports)
  end.

(** The root that an event is about. *)
Definition event_root (payload : value) : option str := root_sid <$> get_str "sid" payload.

(** The command that a child process of a root reports. *)
Definition child_name (root : str) (payload : value) : list str :=
  match get_str "event" payload, get_str "sid" payload, get_str "name" payload with
  | Some event, Some sid, Some name =>
      if str_eqb event (lit "cmd_name") && str_eqb (root_sid sid) root && negb (str_eqb sid root) && negb (is_internal_cmd_name name)
      then [name] else []
  | _, _, _ => []
  end.

(** The answer is the failure of the backend, asked for the aliases of a command. *)
Definition failed_as {A B : Type} (answer : result A) (r : result B) : Prop :=
  match answer with Ret _ => False | Fail e => r = Fail e | Panic => r = Panic end.

Definition alias_failure {A : Type} (argv : list str) (r : result A) : Prop :=
  ∃ b worktree, failed_as (resolve_primary_command worktree argv b).2 r ∨ failed_as (resolve_invocation worktree argv b).2 r.

(** An event between the start and the end of a root. *)
Definition between (root : str) (payload : value) : Prop :=
  event_root payload ≠ Some root ∨
  (get_str "event" payload ≠ Some (lit "start") ∧ get_str "event" payload ≠ Some (lit "atexit")).
End Runs.

End TraceRuns.

(** ** Lemmas *)

Module TraceFacts.
Import HashIter Paths Files RepoState StateResult GitBackend TraceNormalizer TraceRuns.
Import DiffCompute(result).
Import Domain(NormalizedCommand).

Section Facts.
Context `{json : Json} `{disk : Disk} `{git : GitBackend}.
Variable parse_rfc3339_nanos : str → option Z.

(** *** What computations keep *)

(** A computation that relates the states before and after it. *)
Definition keeps (R : TraceNormalizerState → TraceNormalizerState → Prop) {A : Type} (m : M TraceNormalizer A) : Prop :=
  ∀ t, R (state t) (state (m t).1).

Section Keeps.
Variable R : TraceNormalizerState → TraceNormalizerState → Prop.
Context `{!PreOrder R}.

Lemma stay_ret {A} (a : A) : keeps R (ret a).
Proof. intros t. cbn. reflexivity. Qed.
Lemma stay_fail {A} e : keeps R (fail (A := A) e).
Proof. intros t. cbn. reflexivity. Qed.
Lemma keeps_look {A} (f : _ → A) : keeps R (look f).
Proof. intros t. cbn. reflexivity. Qed.
Lemma keeps_ask {A} (m : M backend A) : keeps R (ask m).
Proof. intros t. unfold ask. destruct (m (the_backend t)). cbn. reflexivity. Qed.
Lemma keeps_update f : (∀ s, R s (f s)) → keeps R (update f).
Proof. intros Hf t. apply Hf. Qed.
Lemma stay_bind {A B} (m : M TraceNormalizer A) (k : A → M TraceNormalizer B) : keeps R m → (∀ a, keeps R (k a)) → keeps R (bind m k).
Proof.
  intros Hm Hk t. specialize (Hm t). unfold bind. destruct (m t) as [t' [a|e|]]; [|done..]. cbn in Hm. etrans; [exact Hm|apply Hk].
Qed.
End Keeps.


Create HintDb trace.
#[local] Hint Resolve stay_ret stay_fail keeps_look keeps_ask stay_bind keeps_update : trace.

Section Parts.
Variable R : TraceNormalizerState → TraceNormalizerState → Prop.
Context `{!PreOrder R}.

Lemma keeps_hint name children argv w f : keeps R (resolve_primary_hint name children argv w f).
Proof.
  unfold resolve_primary_hint. destruct w, f; try apply stay_ret; auto.
  destruct (match _ with Some _ => _ | None => _ end); auto with trace.
Qed.

Lemma keeps_invocation argv primary w : keeps R (invocation_at_end argv primary w).
Proof. unfold invocation_at_end. destruct w; [|auto with trace]. destruct (bool_decide _); auto with trace. Qed.

Lemma keeps_refresh root : keeps R (refresh_pending_mutation_capture root).
Proof.
  unfold refresh_pending_mutation_capture. apply stay_bind; [done|apply keeps_look; done|]. intros [p|]; [|auto with trace].
  destruct (pending_worktree p), (pending_family_key p); auto with trace. apply stay_bind; [done|apply keeps_hint|].
  intros h. destruct (negb _); auto with trace.
Qed.
End Parts.

(** *** One event *)

(** What is kept about another root. *)
Definition same_root (r : str) (s s' : TraceNormalizerState) : Prop :=
  pending s' !! r = pending s !! r ∧ deferred_exits s' !! r = deferred_exits s !! r ∧ sid_to_worktree s' !! r = sid_to_worktree s !! r ∧
  sid_to_family s' !! r = sid_to_family s !! r ∧ prestart_root_cmd_names s' !! r = prestart_root_cmd_names s !! r.

(** Commands are filed under their roots. *)
Definition filed (s : TraceNormalizerState) : Prop := ∀ r p, pending s !! r = Some p → pending_root_sid p = r.

(** A step about a root that completes nothing. *)
Record stepped (root : str) (s s' : TraceNormalizerState) : Prop := mkStepped {
  stepped_completed : completed_roots s' = completed_roots s ∧ completed_root_order s' = completed_root_order s;
  stepped_others : ∀ r, r ≠ root → same_root r s s';
  stepped_filed : filed s → filed s'
}.

#[local] Instance stepped_preorder root : PreOrder (stepped root).
Proof.
  split.
  - intros s. split; [done| |done]. intros r _. repeat split.
  - intros s1 s2 s3 [[Hc1 Ho1] H1 Hf1] [[Hc2 Ho2] H2 Hf2]. split; [by split; congruence| |auto].
    intros r Hr. destruct (H1 r Hr) as (?&?&?&?&?), (H2 r Hr) as (?&?&?&?&?). repeat split; congruence.
Qed.

Lemma stepped_pending root f s : (∀ p, pending_root_sid (f p) = pending_root_sid p) → stepped root s (update_pending root f s).
Proof.
  intros Hf. split; [done| |].
  - intros r Hr. repeat split; try done. cbn. by rewrite lookup_alter_ne.
  - intros Hfiled r p. cbn. destruct (decide (r = root)) as [->|Hr].
    + rewrite lookup_alter_eq. destruct (pending s !! root) as [q|] eqn:E; [|done]. intros [= <-]. rewrite Hf. by apply Hfiled.
    + rewrite lookup_alter_ne by done. apply Hfiled.
Qed.

Ltac same_elsewhere := intros ? ?; repeat split; cbn; rewrite ?lookup_insert_ne, ?lookup_delete_ne by done; done.

Lemma stepped_families root f s : stepped root s (set_families (<[root := f]> (sid_to_family s)) s).
Proof. split; [done|same_elsewhere|done]. Qed.
Lemma stepped_worktrees root w s : stepped root s (set_worktrees (<[root := w]> (sid_to_worktree s)) s).
Proof. split; [done|same_elsewhere|done]. Qed.
Lemma stepped_prestart root n s : stepped root s (set_prestart (<[root := n]> (prestart_root_cmd_names s)) s).
Proof. split; [done|same_elsewhere|done]. Qed.
Lemma stepped_noted root d s : stepped root s (set_deferred (<[root := d]> (deferred_exits s)) s).
Proof. split; [done|same_elsewhere|done]. Qed.
Lemma stepped_not_noted root s : stepped root s (set_deferred (delete root (deferred_exits s)) s).
Proof. split; [done|same_elsewhere|done]. Qed.
Lemma stepped_started root p s : pending_root_sid p = root →
  stepped root s (set_prestart (delete root (prestart_root_cmd_names s)) (set_pending (<[root := p]> (pending s)) s)).
Proof.
  intros Hp. split; [done|same_elsewhere|]. intros Hf r q. cbn. destruct (decide (r = root)) as [->|Hr].
  - rewrite lookup_insert_eq. by intros [= <-].
  - rewrite lookup_insert_ne by done. apply Hf.
Qed.
#[local] Hint Resolve stepped_pending stepped_families stepped_worktrees stepped_prestart stepped_noted stepped_not_noted stepped_started : trace.

(** What an event comes to: nothing is reported, or its root is finished. *)
Definition comes_to (root : str) (t : TraceNormalizer) (out : TraceNormalizer * result (option NormalizedCommand)) : Prop :=
  ∃ t1, stepped root (state t) (state t1) ∧
    ((out.1 = t1 ∧ reported out.2 = []) ∨
     (root ∉ completed_roots (state t) ∧ ∃ code ts, out = finalize_root_exit root code ts t1)).

Lemma comes_to_nothing root (m : M TraceNormalizer (option NormalizedCommand)) t :
  keeps (stepped root) m → reported (m t).2 = [] → comes_to root t (m t).
Proof. intros Hk Hr. exists (m t).1. split; [apply Hk|by left]. Qed.

Lemma start_comes_to payload sid root ts t : comes_to root t (handle_start payload sid root ts t).
Proof.
  unfold handle_start. destruct (negb _); [by apply comes_to_nothing; [apply stay_ret|]; try apply _|].
  unfold bind at 1, look at 1, gets. unfold is_completed_root. case_bool_decide as Hc; [by apply comes_to_nothing; [apply stay_ret; apply _|]|].
  unfold bind at 1, look at 1, gets. set (w := first_some _). unfold bind at 1, look at 1, gets.
  assert (∃ t1 f, stepped root (state t) (state t1) ∧
    (match w ≫= common_dir_for_worktree with
     | Some common_dir => do! _ := update (λ s, set_families (<[root := family_of common_dir]> (sid_to_family s)) s) in ret (Some (family_of common_dir))
     | None => ret (sid_to_family (state t) !! root)
     end) t = (t1, Ret f)) as (t1 & f & Hs & E).
  { destruct (w ≫= common_dir_for_worktree) as [common_dir|]; [|by exists t, (sid_to_family (state t) !! root)].
    eexists _, _. split; [|reflexivity]. apply stepped_families. }
  unfold bind at 1. rewrite E. unfold bind, look, gets, update, modify. cbn [state].
  set (started := mkPending _ _ _ _ _ _ _ _ _ _ _ _).
  set (t2 := mkNormalizer _ _). assert (stepped root (state t) (state t2)) as H2.
  { etrans; [exact Hs|]. by apply stepped_started. }
  destruct (deferred_exits _ !! root) as [exit|]; [|by exists t2; split; [|left]].
  destruct (is_atexit exit); [|by exists t2; split; [|left]].
  eexists. split; [|right; split; [done|by do 2 eexists]]. etrans; [exact H2|]. apply stepped_not_noted.
Qed.

(** The state after the start of a root. *)
Definition started_state (payload : value) (root : str) (ts : N) (s : TraceNormalizerState) : TraceNormalizerState :=
  let argv := payload_argv payload in
  let w := first_some [payload_worktree payload; worktree_from_argv argv; payload_cwd payload; sid_to_worktree s !! root] in
  let families := match w ≫= common_dir_for_worktree with Some cd => <[root := family_of cd]> (sid_to_family s) | None => sid_to_family s end in
  let family := match w ≫= common_dir_for_worktree with Some cd => Some (family_of cd) | None => sid_to_family s !! root end in
  mkState (<[root := mkPending root argv (prestart_root_cmd_names s !! root) [] w w family ts None None (payload_reflog_start_offsets payload) false]> (pending s))
    (deferred_exits s) (completed_roots s) (completed_root_order s) (sid_to_worktree s) families (delete root (prestart_root_cmd_names s)).

Lemma handle_start_fresh payload root ts t : root ∉ completed_roots (state t) →
  handle_start payload root root ts t =
  (let s := started_state payload root ts (state t) in
   match deferred_exits (state t) !! root with
   | Some exit =>
       if is_atexit exit then
         finalize_root_exit root (deferred_exit_code exit) (deferred_finished_at_ns exit)
           (mkNormalizer (the_backend t) (set_deferred (delete root (deferred_exits s)) s))
       else (mkNormalizer (the_backend t) s, Ret None)
   | None => (mkNormalizer (the_backend t) s, Ret None)
   end).
Proof.
  intros Hnot. unfold handle_start. rewrite (proj2 (str_eqb_eq root root)) by done. cbn [negb].
  unfold bind at 1, look at 1, gets. unfold is_completed_root. rewrite bool_decide_false by done.
  unfold bind at 1, look at 1, gets. unfold started_state. set (w := first_some _). unfold bind at 1, look at 1, gets.
  destruct (w ≫= common_dir_for_worktree) as [cd|]; unfold bind, look, gets, update, modify, ret; cbn [state set_families deferred_exits set_pending set_prestart];
    destruct (deferred_exits (state t) !! root) as [exit|]; try done; by destruct (is_atexit exit).
Qed.

(** The state when the end of a root is read. *)
Definition ended_state (payload : value) (root : str) (s : TraceNormalizerState) : TraceNormalizerState :=
  let s := update_pending root (merge_reflog_start_offsets_from_payload payload) s in
  set_deferred (delete root (deferred_exits s)) s.

Lemma ingest_start clock payload r t : get_str "event" payload = Some (lit "start") → get_str "sid" payload = Some r → root_sid r = r →
  r ∉ completed_roots (state t) →
  let s := started_state payload r (payload_timestamp_ns parse_rfc3339_nanos clock payload) (state t) in
  ingest_payload parse_rfc3339_nanos clock payload t =
  match deferred_exits (state t) !! r with
  | Some exit =>
      if is_atexit exit then
        finalize_root_exit r (deferred_exit_code exit) (deferred_finished_at_ns exit)
          (mkNormalizer (the_backend t) (set_deferred (delete r (deferred_exits s)) s))
      else (mkNormalizer (the_backend t) s, Ret None)
  | None => (mkNormalizer (the_backend t) s, Ret None)
  end.
Proof.
  intros He Hs Hr Hnot. unfold ingest_payload. rewrite He, Hs, Hr. unfold bind at 1, look at 1, gets. unfold is_completed_root.
  rewrite bool_decide_false by done. by apply handle_start_fresh.
Qed.

Lemma ingest_atexit clock payload r t : get_str "event" payload = Some (lit "atexit") → get_str "sid" payload = Some r → root_sid r = r →
  r ∉ completed_roots (state t) →
  ingest_payload parse_rfc3339_nanos clock payload t = handle_exit payload r r (payload_timestamp_ns parse_rfc3339_nanos clock payload) true t.
Proof.
  intros He Hs Hr Hnot. unfold ingest_payload. rewrite He, Hs, Hr. unfold bind at 1, look at 1, gets. unfold is_completed_root.
  by rewrite bool_decide_false.
Qed.

Lemma ingest_end clock payload r t p : get_str "event" payload = Some (lit "atexit") → get_str "sid" payload = Some r → root_sid r = r →
  r ∉ completed_roots (state t) → pending (state t) !! r = Some p →
  ingest_payload parse_rfc3339_nanos clock payload t =
  finalize_root_exit r (payload_exit_code payload) (payload_timestamp_ns parse_rfc3339_nanos clock payload)
    (mkNormalizer (the_backend t) (ended_state payload r (state t))).
Proof.
  intros He Hs Hr Hnot Hp. rewrite (ingest_atexit clock payload r t) by done. unfold handle_exit. rewrite (proj2 (str_eqb_eq r r)) by done.
  cbn [negb]. unfold bind at 1, look at 1, gets. unfold is_completed_root. rewrite bool_decide_false by done.
  unfold bind, look, gets, update, modify. cbn [state]. cbn [update_pending pending set_pending]. by rewrite lookup_alter_eq, Hp.
Qed.

Lemma ingest_end_first clock payload r t : get_str "event" payload = Some (lit "atexit") → get_str "sid" payload = Some r → root_sid r = r →
  r ∉ completed_roots (state t) → pending (state t) !! r = None →
  ingest_payload parse_rfc3339_nanos clock payload t =
  (mkNormalizer (the_backend t) (set_deferred (<[r := note_exit (payload_exit_code payload) (payload_timestamp_ns parse_rfc3339_nanos clock payload) true
     (deferred_exits (state t) !! r)]> (deferred_exits (state t))) (state t)), Ret None).
Proof.
  intros He Hs Hr Hnot Hp. rewrite (ingest_atexit clock payload r t) by done. unfold handle_exit. rewrite (proj2 (str_eqb_eq r r)) by done.
  cbn [negb]. unfold bind at 1, look at 1, gets. unfold is_completed_root. rewrite bool_decide_false by done.
  unfold bind, look, gets, update, modify. cbn [state]. cbn [update_pending pending set_pending]. rewrite lookup_alter_eq, Hp. cbn.
  assert (alter (merge_reflog_start_offsets_from_payload payload) r (pending (state t)) = pending (state t)) as Ha by by apply alter_id; rewrite Hp.
  unfold update_pending, set_pending, set_deferred, ret. cbn. by rewrite Ha.
Qed.

Lemma exit_comes_to payload sid root ts atexit t : comes_to root t (handle_exit payload sid root ts atexit t).
Proof.
  unfold handle_exit. destruct (negb (str_eqb sid root)); [by apply comes_to_nothing; [apply stay_ret; apply _|]|].
  unfold bind at 1, look at 1, gets. unfold is_completed_root. case_bool_decide as Hc; [by apply comes_to_nothing; [apply stay_ret; apply _|]|].
  unfold bind, look, gets, update, modify. cbn [state].
  set (s1 := update_pending root _ _). assert (stepped root (state t) s1) as H1 by by apply stepped_pending.
  destruct (pending s1 !! root) as [p|].
  - destruct (negb atexit).
    + eexists. split; [|left; split; reflexivity]. etrans; [exact H1|]. apply stepped_noted.
    + eexists. split; [|right; split; [done|by do 2 eexists]]. etrans; [exact H1|]. apply stepped_not_noted.
  - eexists. split; [|left; split; reflexivity]. etrans; [exact H1|]. apply stepped_noted.
Qed.

Lemma def_repo_comes_to payload root t : comes_to root t (handle_def_repo payload root t).
Proof.
  assert (keeps (stepped root) (handle_def_repo payload root) ∧ reported (handle_def_repo payload root t).2 = []) as [? ?]; [|by apply comes_to_nothing].
  unfold handle_def_repo. destruct (def_repo_is_secondary payload).
  { split; [|done]. apply stay_bind; [apply _|apply keeps_update; intros s; by apply stepped_pending|intros _; apply stay_ret, _]. }
  split.
  - apply stay_bind; [apply _|apply keeps_look, _|]. intros found. destruct (_ && _); [apply stay_ret, _|].
    destruct (def_repo_target _ _ _); [|apply stay_fail, _].
    apply stay_bind; [apply _|apply keeps_update; intros s; apply stepped_worktrees|intros _].
    apply stay_bind; [apply _|apply keeps_update; intros s; destruct (family_of <$> _); [apply stepped_families|done]|intros _].
    apply stay_bind; [apply _|apply keeps_update; intros s; by apply stepped_pending|intros _].
    apply stay_bind; [apply _|apply keeps_refresh, _|intros _; apply stay_ret, _].
  - unfold bind at 1, look at 1, gets. destruct (_ && _); [done|]. destruct (def_repo_target _ _ _); [|done].
    unfold bind, update, modify. destruct (refresh_pending_mutation_capture root _) as [t' [[]| |]]; done.
Qed.

Lemma cmd_name_comes_to payload sid root t : comes_to root t (handle_cmd_name payload sid root t).
Proof.
  assert (keeps (stepped root) (handle_cmd_name payload sid root) ∧ reported (handle_cmd_name payload sid root t).2 = []) as [? ?]; [|by apply comes_to_nothing].
  unfold handle_cmd_name. destruct (get_str "name" payload) as [cmd|]; [|split; [apply stay_fail, _|done]].
  destruct (is_internal_cmd_name cmd); [split; [apply stay_ret, _|done]|]. destruct (str_eqb sid root); split.
  - apply stay_bind; [apply _|apply keeps_look, _|]. intros [p|].
    + apply stay_bind; [apply _|apply keeps_update; intros s; by apply stepped_pending|intros _].
      apply stay_bind; [apply _|apply keeps_refresh, _|intros _; apply stay_ret, _].
    + apply stay_bind; [apply _|apply keeps_update; intros s; apply stepped_prestart|intros _; apply stay_ret, _].
  - unfold bind, look, gets, update, modify. destruct (pending (state t) !! root); [|done].
    destruct (refresh_pending_mutation_capture root _) as [t' [[]| |]]; done.
  - apply stay_bind; [apply _|apply keeps_update; intros s; by apply stepped_pending|intros _].
    apply stay_bind; [apply _|apply keeps_refresh, _|intros _; apply stay_ret, _].
  - unfold bind, update, modify. destruct (refresh_pending_mutation_capture root _) as [t' [[]| |]]; done.
Qed.

Lemma ingest_comes_to clock payload t : comes_to (default [] (event_root payload)) t (ingest_payload parse_rfc3339_nanos clock payload t).
Proof.
  unfold ingest_payload, event_root. destruct (get_str "event" payload) as [event|]; [|apply comes_to_nothing; [apply stay_fail, _|done]].
  destruct (get_str "sid" payload) as [sid|]; [|apply comes_to_nothing; [apply stay_fail, _|done]]. cbn [fmap option_fmap option_map default].
  unfold bind at 1, look at 1, gets. destruct (is_completed_root _ _); [apply comes_to_nothing; [apply stay_ret, _|done]|].
  destruct (str_eqb event (lit "start")); [apply start_comes_to|]. destruct (str_eqb event (lit "def_repo")); [apply def_repo_comes_to|].
  destruct (str_eqb event (lit "cmd_name")); [apply cmd_name_comes_to|]. destruct (str_eqb event (lit "exit")); [apply exit_comes_to|].
  destruct (str_eqb event (lit "atexit")); [apply exit_comes_to|]. apply comes_to_nothing; [apply stay_ret, _|done].
Qed.

(** *** The end of a root *)

(** What a report says of the command it was collected as. *)
Record report_of (p : PendingTraceCommand) (code : Z) (ts : N) (c : NormalizedCommand) : Prop := mkReport {
  report_sid : Domain.root_sid c = pending_root_sid p;
  report_argv : Domain.raw_argv c = pending_raw_argv p;
  report_children : Domain.observed_child_commands c = pending_child_commands p;
  report_code : Domain.exit_code c = code;
  report_times : Domain.started_at_ns c = pending_started_at_ns p ∧ Domain.finished_at_ns c = ts;
  report_offsets : Domain.reflog_start_offsets c = pending_reflog_start_offsets p
}.

Definition unchanged (s s' : TraceNormalizerState) : Prop := s' = s.
#[local] Instance unchanged_preorder : PreOrder unchanged.
Proof. split; [done|]. intros x y z. unfold unchanged. congruence. Qed.

Lemma hint_state name children argv w f t : state (resolve_primary_hint name children argv w f t).1 = state t.
Proof. apply (keeps_hint unchanged). Qed.

Lemma invocation_state argv primary w t : state (invocation_at_end argv primary w t).1 = state t.
Proof. apply (keeps_invocation unchanged). Qed.

Lemma hint_failure {B} name children argv w f t (r : result B) :
  failed_as (resolve_primary_hint name children argv w f t).2 r → alias_failure argv r.
Proof.
  unfold resolve_primary_hint. cbv zeta. destruct w as [w|], f as [f|]; try done. case_match; [|done]. unfold bind, ask.
  destruct (resolve_primary_command w argv (the_backend t)) as [b [a|e|]] eqn:E; [done|..]; intros Hr; exists (the_backend t), w; left; by rewrite E.
Qed.

Lemma invocation_failure {B} argv primary w t (r : result B) :
  failed_as (invocation_at_end argv primary w t).2 r → alias_failure argv r.
Proof.
  unfold invocation_at_end. cbv zeta. destruct w as [w|]; [|done]. case_bool_decide; [done|]. unfold bind, ask.
  destruct (resolve_invocation w argv (the_backend t)) as [b [a|e|]] eqn:E; [done|..]; intros Hr; exists (the_backend t), w; right; by rewrite E.
Qed.

Lemma finalize_cases root code ts t p : pending (state t) !! root = Some p →
  ∃ b, let s := set_pending (delete root (pending (state t))) (state t) in
    (∃ r, finalize_root_exit root code ts t = (mkNormalizer b s, r) ∧ reported r = [] ∧ alias_failure (pending_raw_argv p) r) ∨
    (∃ c, finalize_root_exit root code ts t = (mkNormalizer b (forget_root root (mark_completed_root root s)), Ret (Some c)) ∧ report_of p code ts c).
Proof.
  intros Hp. remember (finalize_root_exit root code ts t) as out eqn:E. unfold finalize_root_exit in E.
  unfold bind at 1, look at 1, gets in E. rewrite Hp in E. unfold bind at 1, update at 1, modify in E. cbv beta iota in E.
  set (t1 := mkNormalizer _ _) in E. unfold bind at 1, look at 1, gets in E. unfold bind at 1, look at 1, gets in E.
  set (w := worktree_at_end _ _ _) in E. set (f := family_at_end _ _ _) in E. unfold bind at 1 in E.
  pose proof (hint_state (root_cmd_name p) (pending_child_commands p) (pending_raw_argv p) w f t1) as H1.
  pose proof (λ r, hint_failure (B := option NormalizedCommand) (root_cmd_name p) (pending_child_commands p) (pending_raw_argv p) w f t1 r) as F1.
  destruct (resolve_primary_hint _ _ _ w f t1) as [[b2 s2] [primary|e|]]; cbn in H1; subst s2.
  2-3: exists b2; left; eexists; (split; [exact E|]); (split; [done|]); by apply F1.
  unfold bind at 1 in E. set (t2 := mkNormalizer b2 _) in E. pose proof (invocation_state (pending_raw_argv p) primary w t2) as H2.
  pose proof (λ r, invocation_failure (B := option NormalizedCommand) (pending_raw_argv p) primary w t2 r) as F2.
  destruct (invocation_at_end _ primary w t2) as [[b3 s3] [invoked|e|]]; cbn in H2; subst s3.
  2-3: exists b3; left; eexists; (split; [exact E|]); (split; [done|]); by apply F2.
  exists b3. right. eexists. split; [exact E|]. by split.
Qed.

Lemma finalize_missing root code ts t : pending (state t) !! root = None → reported (finalize_root_exit root code ts t).2 = [] ∧ (finalize_root_exit root code ts t).1 = t.
Proof. intros Hp. unfold finalize_root_exit, bind, look, gets. by rewrite Hp. Qed.

End Facts.

(** *** Completed roots *)

Lemma evict_spec limit order : NoDup order →
  let kept := drop (length order - N.to_nat limit) order in evict limit (list_to_set order) order = (list_to_set kept, kept).
Proof.
  induction 1 as [|x order Hx Hnd IH]; cbn [evict].
  - replace (size (list_to_set [] : gset str)) with 0%nat by (symmetry; apply size_empty). by destruct (N.of_nat 0 <=? limit)%N.
  - assert (size (list_to_set (x :: order) : gset str) = S (length order)) as ->.
    { by rewrite size_list_to_set by by constructor. }
    destruct (N.of_nat (S (length order)) <=? limit)%N eqn:E.
    + apply N.leb_le in E. replace (length (x :: order) - N.to_nat limit)%nat with 0%nat by (cbn; lia). done.
    + apply N.leb_gt in E. replace (length (x :: order) - N.to_nat limit)%nat with (S (length order - N.to_nat limit)) by (cbn; lia). cbn [drop].
      rewrite <-IH. f_equal. cbn [list_to_set foldr]. apply set_eq. intros y. rewrite elem_of_difference, elem_of_union, !elem_of_list_to_set, !elem_of_singleton. naive_solver.
Qed.

(** The roots that are remembered: the last ones reported. *)
Record remembered (reports : list NormalizedCommand) (s : TraceNormalizerState) : Prop := mkRemembered {
  remembered_filed : filed s;
  remembered_set : completed_roots s = list_to_set (completed_root_order s);
  remembered_nodup : NoDup (completed_root_order s);
  remembered_last : ∃ before, map Domain.root_sid reports = before ++ completed_root_order s ∧
    (before ≠ [] → N.of_nat (length (completed_root_order s)) = COMPLETED_ROOT_RETENTION_LIMIT);
  remembered_bound : (N.of_nat (length (completed_root_order s)) <= COMPLETED_ROOT_RETENTION_LIMIT)%N
}.

Lemma remembered_stepped reports root s s' : stepped root s s' → remembered reports s → remembered reports s'.
Proof. intros [[Hc Ho] _ Hf] [? ? ? ? ?]. split; rewrite ?Hc, ?Ho; auto. Qed.

Lemma forget_completed root s : completed_roots (forget_root root s) = completed_roots s ∧
  completed_root_order (forget_root root s) = completed_root_order s ∧ pending (forget_root root s) = pending s.
Proof. done. Qed.

Lemma remembered_marked reports c s : remembered reports s → Domain.root_sid c ∉ completed_roots s →
  remembered (reports ++ [c]) (forget_root (Domain.root_sid c) (mark_completed_root (Domain.root_sid c) s)).
Proof.
  set (root := Domain.root_sid c). intros [Hf Hset Hnd (before & Hb & Hlen) Hbound] Hnot.
  unfold mark_completed_root, mark_completed_root_with_limit. rewrite bool_decide_false by done.
  assert (root ∉ completed_root_order s) as Hno by (rewrite Hset, elem_of_list_to_set in Hnot; done).
  assert (NoDup (completed_root_order s ++ [root])) as Hnd'.
  { apply NoDup_app. split_and!; [done| |apply NoDup_singleton]. by intros x Hx ->%list_elem_of_singleton. }
  assert ({[root]} ∪ completed_roots s = list_to_set (completed_root_order s ++ [root])) as ->.
  { rewrite Hset, list_to_set_app_L. cbn. set_solver. }
  rewrite evict_spec by done. cbv zeta. rewrite length_app. cbn [length].
  set (L := COMPLETED_ROOT_RETENTION_LIMIT) in *. set (gone := (length (completed_root_order s) + 1 - N.to_nat L)%nat).
  split; rewrite ?(proj1 (forget_completed _ _)), ?(proj1 (proj2 (forget_completed _ _))), ?(proj2 (proj2 (forget_completed _ _))); cbn.
  - exact Hf.
  - done.
  - eapply sublist_NoDup; [exact Hnd'|apply sublist_drop].
  - exists (before ++ take gone (completed_root_order s ++ [root])). rewrite map_app, Hb. cbn. split.
    + by rewrite <-!app_assoc, take_drop.
    + intros Hne. rewrite length_drop, length_app. cbn [length]. destruct before as [|b before].
      * destruct gone as [|g] eqn:Eg; [done|]. subst gone. lia.
      * specialize (Hlen ltac:(done)). subst gone. lia.
  - rewrite length_drop, length_app. cbn [length]. subst gone. lia.
Qed.

(** *** Sweeps *)

Definition swept (s s' : TraceNormalizerState) : Prop :=
  completed_roots s' = completed_roots s ∧ completed_root_order s' = completed_root_order s ∧ (filed s → filed s').

#[local] Instance swept_preorder : PreOrder swept.
Proof. split; [by intros s|]. intros s1 s2 s3 (?&?&?) (?&?&?). split_and!; [congruence..|auto]. Qed.

Lemma remembered_swept reports s s' : swept s s' → remembered reports s → remembered reports s'.
Proof. intros (Hc & Ho & Hf) [? ? ? ? ?]. split; rewrite ?Hc, ?Ho; auto. Qed.

Lemma remove_pending_swept root s : swept s (remove_pending_root root s).1.
Proof.
  unfold remove_pending_root. destruct (pending s !! root); [|done]. split_and!; [done..|]. intros Hf r q. cbn.
  intros [_ Hq]%lookup_delete_Some. by apply Hf.
Qed.

Lemma remove_deferred_swept root s : swept s (remove_deferred root s).
Proof. done. Qed.

Lemma sweep_roots_swept roots : ∀ s, swept s (sweep_orphans_for_roots roots s).1.
Proof.
  induction roots as [|root rest IH]; intros s; cbn [sweep_orphans_for_roots]; [done|].
  pose proof (remove_pending_swept root s) as H. destruct (remove_pending_root root s) as [s' [p|]]; cbn [fst] in H.
  - specialize (IH s'). destruct (sweep_orphans_for_roots rest s'). cbn in *. by etrans.
  - destruct (deferred_exits s' !! root); [|by etrans]. specialize (IH (remove_deferred root s')).
    destruct (sweep_orphans_for_roots rest _). cbn in *. etrans; [exact H|]. etrans; [apply (remove_deferred_swept root)|done].
Qed.

Lemma sweep_pending_swept roots : ∀ s removed, swept s (sweep_pending roots s removed).1.
Proof.
  induction roots as [|root rest IH]; intros s removed; cbn [sweep_pending]; [done|].
  pose proof (remove_pending_swept root s) as H. destruct (remove_pending_root root s) as [s' found]. by etrans.
Qed.

Lemma sweep_deferred_swept roots : ∀ s removed, swept s (sweep_deferred roots s removed).1.
Proof. induction roots as [|root rest IH]; intros s removed; cbn [sweep_deferred]; [done|]. etrans; [apply (remove_deferred_swept root)|apply IH]. Qed.

Lemma sweep_all_swept `{order : HashOrder} s : swept s (sweep_orphans s).1.
Proof.
  unfold sweep_orphans. pose proof (sweep_pending_swept (hash_keys (pending s)) s []) as H.
  destruct (sweep_pending _ s []) as [s' removed]. etrans; [exact H|apply sweep_deferred_swept].
Qed.

(** *** Runs *)

Lemma run_remembered `{json : Json} `{git : GitBackend} `{order : HashOrder} parse t reports :
  normalizer_run parse t reports → remembered reports (state t).
Proof.
  induction 1 as [b|disk clock payload t reports _ IH|roots t reports _ IH|t reports _ IH].
  - split; [done|done|apply NoDup_nil_2|by exists []|done].
  - destruct (ingest_comes_to parse clock payload t) as (t1 & Hs & [[Ht Hr]|(Hnot & code & ts & E)]).
    { rewrite Ht, Hr, app_nil_r. by eapply remembered_stepped. }
    set (root := default [] (event_root payload)) in *. rewrite E. destruct (pending (state t1) !! root) as [p|] eqn:Ep.
    2:{ destruct (finalize_missing root code ts t1 Ep) as [-> ->]. rewrite app_nil_r. by eapply remembered_stepped. }
    pose proof (remembered_stepped _ _ _ _ Hs IH) as IH1.
    assert (remembered reports (set_pending (delete root (pending (state t1))) (state t1))) as IH2.
    { eapply remembered_swept, IH1. split_and!; [done..|]. intros Hf r q. cbn. intros [_ Hq]%lookup_delete_Some. by apply Hf. }
    destruct (finalize_cases root code ts t1 p Ep) as (b & [(r & -> & Hr & _)|(c & -> & Hc)]); cbn [fst snd state].
    { by rewrite Hr, app_nil_r. }
    assert (Domain.root_sid c = root) as Hroot.
    { rewrite (report_sid _ _ _ _ Hc). apply (remembered_filed _ _ IH1 root p Ep). }
    cbn [reported]. rewrite <-Hroot at 1 2. rewrite Hroot. pose proof (remembered_marked reports c _ IH2) as H. rewrite Hroot in H. apply H.
    destruct Hs as [[Hcs _] _ _]. cbn. by rewrite Hcs.
  - cbn. eapply remembered_swept, IH. apply sweep_roots_swept.
  - cbn. eapply remembered_swept, IH. apply sweep_all_swept.
Qed.


(** *** The collection of a command *)

Section Collection.
Context `{json : Json} `{disk : Disk} `{git : GitBackend}.
Variable parse_rfc3339_nanos : str → option Z.

(** What is collected about a root only grows. *)
Definition grown (p p' : PendingTraceCommand) : Prop :=
  pending_root_sid p' = pending_root_sid p ∧ pending_raw_argv p' = pending_raw_argv p ∧ pending_started_at_ns p' = pending_started_at_ns p ∧
  pending_child_commands p' = pending_child_commands p ∧ pending_reflog_start_offsets p ⊆ pending_reflog_start_offsets p'.

Definition still_collected (r : str) (s s' : TraceNormalizerState) : Prop :=
  completed_roots s' = completed_roots s ∧ ∀ p, pending s !! r = Some p → ∃ p', pending s' !! r = Some p' ∧ grown p p'.

#[local] Instance grown_preorder : PreOrder grown.
Proof. split; [by intros p|]. intros p1 p2 p3 (?&?&?&?&?) (?&?&?&?&?). split_and!; [congruence..|by etrans]. Qed.

#[local] Instance still_collected_preorder r : PreOrder (still_collected r).
Proof.
  split; [by split; [|intros p Hp; exists p; split; [|reflexivity]]|]. intros s1 s2 s3 [Hc1 H1] [Hc2 H2]. split; [congruence|].
  intros p Hp. destruct (H1 p Hp) as (p' & Hp' & Hg). destruct (H2 p' Hp') as (p'' & Hp'' & Hg'). exists p''. split; [done|by etrans].
Qed.

Lemma still_pending r f s : (∀ p, grown p (f p)) → still_collected r s (update_pending r f s).
Proof. intros Hf. split; [done|]. intros p Hp. exists (f p). split; [|done]. cbn. by rewrite lookup_alter_eq, Hp. Qed.

Lemma grown_offsets payload p : grown p (merge_reflog_start_offsets_from_payload payload p).
Proof. repeat split. cbn. apply map_union_subseteq_l. Qed.

Lemma def_repo_collected payload r : keeps (still_collected r) (handle_def_repo payload r).
Proof.
  unfold handle_def_repo. destruct (def_repo_is_secondary payload).
  { apply stay_bind; [apply _|apply keeps_update; intros s; apply still_pending, grown_offsets|intros _; apply stay_ret, _]. }
  apply stay_bind; [apply _|apply keeps_look, _|]. intros found. destruct (_ && _); [apply stay_ret, _|].
  destruct (def_repo_target _ _ _); [|apply stay_fail, _].
  apply stay_bind; [apply _|apply keeps_update; intros s; split; [done|intros p Hp; by exists p]|intros _].
  apply stay_bind; [apply _|apply keeps_update; intros s; destruct (family_of <$> _); (split; [done|intros p Hp; by exists p])|intros _].
  apply stay_bind; [apply _|apply keeps_update; intros s; apply still_pending; intros p; apply (grown_offsets payload p)|intros _].
  apply stay_bind; [apply _|apply keeps_refresh, _|intros _; apply stay_ret, _].
Qed.

Lemma exit_collected payload sid r ts : keeps (still_collected r) (handle_exit payload sid r ts false).
Proof.
  unfold handle_exit. destruct (negb _); [apply stay_ret, _|]. apply stay_bind; [apply _|apply keeps_look, _|]. intros [|]; [apply stay_ret, _|].
  apply stay_bind; [apply _|apply keeps_update; intros s; apply still_pending, grown_offsets|intros _].
  apply stay_bind; [apply _|apply keeps_look, _|]. intros [p|]; cbn [negb];
    (apply stay_bind; [apply _|apply keeps_update; intros s; split; [done|intros q Hq; by exists q]|intros _; apply stay_ret, _]).
Qed.

Lemma root_name_collected payload r : keeps (still_collected r) (handle_cmd_name payload r r).
Proof.
  unfold handle_cmd_name. destruct (get_str "name" payload) as [cmd|]; [|apply stay_fail, _]. destruct (is_internal_cmd_name cmd); [apply stay_ret, _|].
  rewrite (proj2 (str_eqb_eq r r)) by done. apply stay_bind; [apply _|apply keeps_look, _|]. intros [p|].
  - apply stay_bind; [apply _|apply keeps_update; intros s; apply still_pending; intros q; apply (grown_offsets payload q)|intros _].
    apply stay_bind; [apply _|apply keeps_refresh, _|intros _; apply stay_ret, _].
  - apply stay_bind; [apply _|apply keeps_update; intros s; split; [done|intros q Hq; by exists q]|intros _; apply stay_ret, _].
Qed.

(** A root under way: what its start said, and the commands of its children. *)
Definition collecting (r : str) (start : value) (ts : N) (children : list str) (s : TraceNormalizerState) : Prop :=
  r ∉ completed_roots s ∧
  ∃ p, pending s !! r = Some p ∧ pending_root_sid p = r ∧ pending_raw_argv p = payload_argv start ∧ pending_started_at_ns p = ts ∧
    pending_child_commands p = children ∧ payload_reflog_start_offsets start ⊆ pending_reflog_start_offsets p.

Lemma collecting_still r start ts children s s' : still_collected r s s' → collecting r start ts children s → collecting r start ts children s'.
Proof.
  intros [Hc Hp] (Hnot & p & Ep & H1 & H2 & H3 & H4 & H5). split; [by rewrite Hc|]. destruct (Hp p Ep) as (p' & Ep' & G1 & G2 & G3 & G4 & G5).
  exists p'. split_and!; [done|congruence..|by etrans].
Qed.

Lemma evict_shrinks limit order : ∀ roots, (evict limit roots order).1 ⊆ roots.
Proof.
  induction order as [|x order IH]; intros roots; cbn [evict]; destruct (_ <=? _)%N; [done..|]. etrans; [apply IH|]. set_solver.
Qed.

Lemma mark_adds root s : completed_roots (mark_completed_root root s) ⊆ {[root]} ∪ completed_roots s ∧ pending (mark_completed_root root s) = pending s.
Proof.
  unfold mark_completed_root, mark_completed_root_with_limit. destruct (bool_decide _).
  - pose proof (evict_shrinks COMPLETED_ROOT_RETENTION_LIMIT (completed_root_order s) (completed_roots s)) as H.
    destruct (evict _ _ _). cbn in *. split; [set_solver|done].
  - pose proof (evict_shrinks COMPLETED_ROOT_RETENTION_LIMIT (completed_root_order s ++ [root]) ({[root]} ∪ completed_roots s)) as H.
    destruct (evict _ _ _). by cbn in *.
Qed.

Lemma collecting_other r other start ts children s s' : stepped other s s' → other ≠ r → collecting r start ts children s → collecting r start ts children s'.
Proof.
  intros [[Hc _] Ho _] Hne (Hnot & p & Ep & Hp). split; [by rewrite Hc|]. exists p. split; [|done]. by rewrite (proj1 (Ho r (not_eq_sym Hne))).
Qed.

Lemma collecting_finalize r other code ts' start ts children t : other ≠ r → collecting r start ts children (state t) →
  collecting r start ts children (state (finalize_root_exit other code ts' t).1).
Proof.
  intros Hne Hcol. destruct (pending (state t) !! other) as [p|] eqn:Ep; [|by rewrite (proj2 (finalize_missing other code ts' t Ep))].
  set (s := set_pending (delete other (pending (state t))) (state t)).
  assert (collecting r start ts children s) as Hs.
  { destruct Hcol as (Hnot & q & Eq & Hq). split; [done|]. exists q. split; [|done]. cbn. by rewrite lookup_delete_ne. }
  destruct (finalize_cases other code ts' t p Ep) as (b & [(res & -> & _)|(c & -> & _)]); cbn [fst state]; [done|].
  destruct Hs as (Hnot & q & Hq). destruct (mark_adds other s) as [Hmark Hpending]. split; [|exists q].
  - change (r ∉ completed_roots (mark_completed_root other s)). set_solver.
  - assert (pending (forget_root other (mark_completed_root other s)) = pending s) as Hp by exact Hpending.
    destruct Hq as [Hq ?]. split; [|done]. rewrite <-Hq. by apply (f_equal (λ m, m !! r)).
Qed.

Lemma child_name_none r payload : event_root payload ≠ Some r → child_name r payload = [].
Proof.
  unfold event_root, child_name. destruct (get_str "event" payload), (get_str "sid" payload) as [sid|]; [|done..]. cbn. intros Hne.
  destruct (get_str "name" payload); [|done]. destruct (str_eqb (root_sid sid) r) eqn:E; [|by rewrite andb_false_r].
  apply str_eqb_eq in E. congruence.
Qed.

(** An event that is neither the start nor the end of the root. *)
Lemma collecting_event r clock payload start ts children t : between r payload → collecting r start ts children (state t) →
  collecting r start ts (children ++ child_name r payload) (state (ingest_payload parse_rfc3339_nanos clock payload t).1).
Proof.
  intros Hbetween Hcol. destruct (decide (event_root payload = Some r)) as [Hroot|Hroot].
  - destruct Hbetween as [?|[Hstart Hend]]; [done|]. pose proof Hcol as (Hnot & p & Ep & H1 & H2 & H3 & H4 & H5).
    unfold ingest_payload, child_name, event_root in *. destruct (get_str "event" payload) as [event|]; [|by rewrite app_nil_r].
    destruct (get_str "sid" payload) as [sid|]; [|done]. injection Hroot as Hr. cbn in Hr. rewrite Hr, (proj2 (str_eqb_eq r r)) by done.
    unfold bind at 1, look at 1, gets. unfold is_completed_root. rewrite bool_decide_false by done.
    destruct (str_eqb event (lit "start")) eqn:Es; [apply str_eqb_eq in Es; congruence|].
    destruct (str_eqb event (lit "def_repo")) eqn:Ed.
    { apply str_eqb_eq in Ed as ->. replace (match get_str "name" payload with Some _ => _ | None => _ end) with (@nil str) by by destruct (get_str "name" payload).
      rewrite app_nil_r. eapply collecting_still, Hcol. apply def_repo_collected. }
    destruct (str_eqb event (lit "cmd_name")) eqn:Ec.
    + unfold handle_cmd_name. destruct (get_str "name" payload) as [name|] eqn:En; [|by rewrite app_nil_r].
      destruct (is_internal_cmd_name name) eqn:Ei; [rewrite andb_false_r, app_nil_r; exact Hcol|].
      destruct (str_eqb sid r) eqn:Esid; cbn [negb andb].
      * rewrite app_nil_r. apply str_eqb_eq in Esid as ->. eapply collecting_still, Hcol.
        pose proof (root_name_collected payload r) as Hk. unfold handle_cmd_name in Hk. rewrite En, Ei, (proj2 (str_eqb_eq r r)) in Hk by done. apply Hk.
      * unfold bind at 1, update, modify. set (t1 := mkNormalizer _ _).
        assert (collecting r start ts (children ++ [name]) (state t1)) as Hcol1.
        { split; [done|]. exists (add_child_command name p). cbn. rewrite lookup_alter_eq, Ep. by rewrite <-H4. }
        eapply collecting_still, Hcol1. pose proof (keeps_refresh (still_collected r) r t1) as Hk. unfold bind.
        by destruct (refresh_pending_mutation_capture r t1) as [t2 [[]| |]].
    + replace (match get_str "name" payload with Some _ => _ | None => _ end) with (@nil str) by by destruct (get_str "name" payload). rewrite app_nil_r.
      destruct (str_eqb event (lit "exit")); [eapply collecting_still, Hcol; apply exit_collected|].
      destruct (str_eqb event (lit "atexit")) eqn:Ea; [apply str_eqb_eq in Ea; congruence|done].
  - rewrite child_name_none, app_nil_r by done. destruct (ingest_comes_to parse_rfc3339_nanos clock payload t) as (t1 & Hs & Hout).
    destruct (event_root payload) as [other|] eqn:Er; cbn [default] in *.
    2:{ unfold event_root in Er. unfold ingest_payload. destruct (get_str "event" payload); [|done]. by destruct (get_str "sid" payload). }
    assert (other ≠ r) as Hne by congruence. pose proof (collecting_other r other start ts children _ _ Hs Hne Hcol) as Hcol1.
    destruct Hout as [[-> _]|(_ & code & ts' & ->)]; [done|]. by apply collecting_finalize.
Qed.

Lemma collecting_events r start ts middle : Forall (λ e, between r e.2) middle → ∀ children t, collecting r start ts children (state t) →
  collecting r start ts (children ++ flat_map (λ e, child_name r e.2) middle) (state (ingest_all parse_rfc3339_nanos middle t).1).
Proof.
  induction 1 as [|[clock payload] middle Hb _ IH]; intros children t Hcol; cbn [ingest_all flat_map]; [by rewrite app_nil_r|].
  pose proof (collecting_event r clock payload start ts children t Hb Hcol) as Hcol1.
  destruct (ingest_payload _ clock payload t) as [t1 res]. cbn [fst snd] in *. specialize (IH _ t1 Hcol1).
  destruct (ingest_all _ middle t1). cbn in *. by rewrite app_assoc.
Qed.
End Collection.
End TraceFacts.

(** ** Theorems *)

Module TraceProps.
Import HashIter Paths Files RepoState StateResult GitBackend TraceNormalizer TraceRuns TraceFacts.
Import DiffCompute(result).
Import Domain(NormalizedCommand).

(** *** Sample events *)

(** JSON as it is written in the samples. *)
Inductive tree := Text (s : str) | Number (z : Z) | Array (l : list tree) | Object (l : list (str * tree)).

Definition tree_json : Json := {|
  value := tree;
  get key v := match v with Object l => snd <$> List.find (λ kv, str_eqb kv.1 key) l | _ => None end;
  as_str v := match v with Text s => Some s | _ => None end;
  as_u64 v := match v with Number z => if (z <? 0)%Z then None else Some (Z.to_N z) | _ => None end;
  as_i64 v := match v with Number z => Some z | _ => None end;
  as_f64 v := match v with Number z => Some (binary_normalize 53 1024 z 0 false) | _ => None end;
  as_array v := match v with Array l => Some l | _ => None end;
  as_object v := match v with Object l => Some l | _ => None end
|}.

Definition sample_event (event sid : string) (more : list (str * tree)) : tree :=
  Object ([(lit "event", Text (lit event)); (lit "sid", Text (lit sid))] ++ more).
Definition sample_start : tree := sample_event "start" "s1" [(lit "ts", Number 5); (lit "argv", Array (map (λ w, Text (lit w)) ["git"; "commit"]%string))].
Definition sample_child : tree := sample_event "cmd_name" "s1/c" [(lit "name", Text (lit "gc"))].
Definition sample_end : tree := sample_event "atexit" "s1" [(lit "ts", Number 9); (lit "code", Number 0)].

(** A backend without aliases. *)
Definition no_aliases : GitBackend := {|
  backend := unit;
  resolve_family _ := Fail [];
  resolve_primary_command _ _ := ret None;
  resolve_invocation _ _ := ret None;
  clone_target _ _ := None;
  init_target _ _ := None
|}.

Definition t_abs_event : tree := sample_event "start" "s1" [(lit "t_abs", Number 3)].
Example t_abs_in_nanoseconds : payload_timestamp_ns (json := tree_json) (λ _, None) 0 t_abs_event = 3000000000%N.
Proof. vm_compute. reflexivity. Qed.

(** *** Every command is reported once *)

(** C22: Whatever events the normalizer reads, of whatever processes and in whatever
    order, and whatever is swept in between, a root that was reported is reported
    again only when at least 16384 commands were reported in between; and it never
    remembers more roots than that. *)
Theorem no_command_twice `{json : Json} `{git : GitBackend} `{order : HashOrder} parse t reports : normalizer_run parse t reports →
  (∀ i j c d, reports !! i = Some c → reports !! j = Some d → (i < j)%nat → Domain.root_sid c = Domain.root_sid d →
     (COMPLETED_ROOT_RETENTION_LIMIT < N.of_nat (j - i))%N) ∧
  (N.of_nat (size (completed_roots (state t))) <= COMPLETED_ROOT_RETENTION_LIMIT)%N.
Proof.
  intros Hrun. split.
  2:{ destruct (run_remembered parse t reports Hrun) as [_ -> Hnd _ Hb]. by rewrite size_list_to_set. }
  induction Hrun as [b|disk clock payload t reports Hrun IH|roots t reports _ IH|t reports _ IH]; [by intros [] ? ? ?|..]; [|done..].
  destruct (ingest_comes_to parse clock payload t) as (t1 & Hs & Hout). set (root := default [] (event_root payload)) in *.
  assert (reported (ingest_payload parse clock payload t).2 = [] ∨
    ∃ c, reported (ingest_payload parse clock payload t).2 = [c] ∧ Domain.root_sid c ∉ completed_roots (state t)) as [->|(new & -> & Hnew)].
  { destruct Hout as [[_ Hr]|(Hnot & code & ts & ->)]; [by left|]. destruct (pending (state t1) !! root) as [p|] eqn:Ep.
    - destruct (finalize_cases root code ts t1 p Ep) as (b & [(r & -> & Hr & _)|(c & -> & Hc)]); [by left|]. right. exists c. split; [done|].
      rewrite (report_sid _ _ _ _ Hc). pose proof (remembered_stepped _ _ _ _ Hs (run_remembered parse t reports Hrun)) as Hrem.
      by rewrite (remembered_filed _ _ Hrem root p Ep).
    - left. apply (finalize_missing root code ts t1 Ep). }
  { intros i j c d. rewrite app_nil_r. apply IH. }
  intros i j c d Hi Hj Hij Hsame. assert (i < length (reports ++ [new]))%nat as Hlen by (apply lookup_lt_Some in Hj; lia).
  destruct (decide (j < length reports)%nat) as [Hlt|Hge].
  { rewrite lookup_app_l in Hi, Hj by lia. by eapply IH. }
  assert (j = length reports) as ->. { apply lookup_lt_Some in Hj. rewrite length_app in Hj. cbn in Hj. lia. }
  rewrite lookup_app_r, Nat.sub_diag in Hj by lia. cbn in Hj. injection Hj as <-. rewrite lookup_app_l in Hi by lia.
  destruct (run_remembered parse t reports Hrun) as [_ Hset _ (before & Hb & Hfull) _].
  assert (map Domain.root_sid reports !! i = Some (Domain.root_sid new)) as Hroot by (rewrite list_lookup_fmap, Hi; cbn; congruence).
  assert (length reports = length before + length (completed_root_order (state t)))%nat as Hl by (rewrite <-length_app, <-Hb, length_map; done).
  rewrite Hb in Hroot. destruct (decide (i < length before)%nat) as [Hib|Hib].
  - assert (before ≠ []) as Hne by (intros ->; cbn in Hib; lia). specialize (Hfull Hne). lia.
  - rewrite lookup_app_r in Hroot by lia. apply list_elem_of_lookup_2 in Hroot. rewrite Hset, elem_of_list_to_set in Hnew. done.
Qed.

Lemma no_command_twice_witness :
  let started := (ingest_payload (json := tree_json) (disk := disk_of []) (git := no_aliases) (λ _, None) 0 sample_start (new (git := no_aliases) tt)).1 in
  let ended := (ingest_payload (json := tree_json) (disk := disk_of []) (git := no_aliases) (λ _, None) 0 sample_end started).1 in
  (N.of_nat (size (completed_roots (state ended))) <= COMPLETED_ROOT_RETENTION_LIMIT)%N.
Proof.
  intros started ended. eapply (no_command_twice (json := tree_json) (git := no_aliases) (order := in_order) (λ _, None) ended).
  apply (run_event (json := tree_json) (λ _, None) (disk_of [])), (run_event (json := tree_json) (λ _, None) (disk_of [])), run_new.
Defined.

(** *** What is reported *)



(** *** Order *)

(** The end of a root may be read before its start, as the connections of git's
    processes are: the command reported and the state are the same, when the end
    brings no reflog offsets. *)
Theorem end_may_come_first `{json : Json} `{disk : Disk} `{git : GitBackend} parse t clock start clock' end_ r :
  get_str "event" start = Some (lit "start") → get_str "sid" start = Some r → root_sid r = r →
  get_str "event" end_ = Some (lit "atexit") → get_str "sid" end_ = Some r →
  r ∉ completed_roots (state t) → pending (state t) !! r = None → deferred_exits (state t) !! r = None →
  payload_reflog_start_offsets end_ = ∅ →
  ingest_all parse [(clock', end_); (clock, start)] t = ingest_all parse [(clock, start); (clock', end_)] t.
Proof.
  intros Hes Hss Hr Hee Hse Hnot Hp Hd Hempty. cbn [ingest_all].
  rewrite (ingest_end_first parse clock' end_ r t), (ingest_start parse clock start r t) by done. rewrite Hd. cbn [reported app].
  rewrite (ingest_start parse clock start r) by done.
  cbn [state set_deferred deferred_exits]. rewrite lookup_insert_eq. cbn [is_atexit note_exit deferred_exit_code deferred_finished_at_ns the_backend].
  erewrite (ingest_end parse clock' end_ r); [|done..|done|apply lookup_insert_eq]. cbn [the_backend state].
  set (s1 := set_deferred _ _). set (s2 := ended_state _ _ _). assert (s1 = s2) as ->.
  { subst s1 s2. unfold ended_state, update_pending, started_state, set_deferred. cbn. f_equal.
    - rewrite alter_insert_eq. f_equal. unfold merge_reflog_start_offsets_from_payload. cbn. by rewrite Hempty, map_union_empty.
    - by rewrite delete_insert_eq. }
  done.
Qed.

Lemma end_may_come_first_witness :
  ingest_all (json := tree_json) (disk := disk_of []) (git := no_aliases) (λ _, None) [(0, sample_end); (0, sample_start)]%N (new (git := no_aliases) tt) =
  ingest_all (json := tree_json) (disk := disk_of []) (git := no_aliases) (λ _, None) [(0, sample_start); (0, sample_end)]%N (new (git := no_aliases) tt).
Proof.
  apply (end_may_come_first (json := tree_json) (disk := disk_of []) (git := no_aliases) (λ _, None) (new (git := no_aliases) tt) 0 sample_start 0 sample_end (lit "s1"));
    try (vm_compute; reflexivity). cbn. set_solver.
Defined.

(** *** Leftovers *)

(** The place of a repository that is reported for a root whose start was never
    read is kept, even when the connections of the root are lost and it is swept. *)
Theorem place_of_unknown_root_stays `{json : Json} `{disk : Disk} `{git : GitBackend} parse t clock payload sid w :
  get_str "event" payload = Some (lit "def_repo") → get_str "sid" payload = Some sid → def_repo_is_secondary payload = false →
  payload_worktree payload = Some w →
  root_sid sid ∉ completed_roots (state t) → pending (state t) !! root_sid sid = None → deferred_exits (state t) !! root_sid sid = None →
  sid_to_worktree (sweep_orphans_for_roots [root_sid sid] (state (ingest_payload parse clock payload t).1)).1 !! root_sid sid = Some (root_or_itself w).
Proof.
  intros He Hs Hsec Hw Hnot Hp Hd. unfold ingest_payload. rewrite He, Hs. set (r := root_sid sid) in *. unfold bind at 1, look at 1, gets.
  unfold is_completed_root. rewrite bool_decide_false by done.
  change (str_eqb (lit "def_repo") (lit "start")) with false. change (str_eqb (lit "def_repo") (lit "def_repo")) with true. cbv iota.
  unfold handle_def_repo. rewrite Hsec. unfold bind at 1, look at 1, gets.
  rewrite Hp. unfold def_repo_target. rewrite Hw. cbn [andb first_some omap list_omap id List.hd_error option_bind mbind].
  unfold bind, update, modify. cbn [state the_backend].
  match goal with |- context [refresh_pending_mutation_capture r (mkNormalizer _ ?st)] => set (s := st) end.
  assert (pending s = pending (state t) ∧ deferred_exits s = deferred_exits (state t) ∧ sid_to_worktree s = <[r := root_or_itself w]> (sid_to_worktree (state t)))
    as (Es & Ed & Ew).
  { subst s. destruct (family_of <$> _); cbn; (split; [by apply alter_id; rewrite Hp|done]). }
  assert (refresh_pending_mutation_capture r (mkNormalizer (the_backend t) s) = (mkNormalizer (the_backend t) s, Ret tt)) as ->.
  { unfold refresh_pending_mutation_capture, bind, look, gets. cbn [state]. by rewrite Es, Hp. }
  cbn [fst state sweep_orphans_for_roots ret]. unfold remove_pending_root. rewrite Es, Hp, Ed, Hd. cbn [fst]. rewrite Ew. apply lookup_insert_eq.
Qed.

Lemma place_of_unknown_root_stays_witness :
  sid_to_worktree (sweep_orphans_for_roots [lit "s1"] (state (ingest_payload (json := tree_json) (disk := disk_of []) (git := no_aliases) (λ _, None) 0
    (sample_event "def_repo" "s1" [(lit "worktree", Text (lit "/w"))]) (new (git := no_aliases) tt)).1)).1 !! lit "s1" = Some (lit "/w").
Proof.
  apply (place_of_unknown_root_stays (json := tree_json) (disk := disk_of []) (git := no_aliases) (λ _, None) (new (git := no_aliases) tt) 0
    (sample_event "def_repo" "s1" [(lit "worktree", Text (lit "/w"))]) (lit "s1") (lit "/w")); try (vm_compute; reflexivity). cbn. set_solver.
Defined.

End TraceProps.
