(* ===== verification/CherryPick.v ===== *)
(** * Pairing cherry-picked commits

    src/src/authorship/rewrite_cherry_pick.rs: which commit of a cherry-pick
    replaces which source.  Equal patches are paired first, the rest by order.
    The patch ids come from two git commands, a record of their answers. *)

From S2P Require Import Prelude Text DiffCompute HashIter PatchParse DiffTree Rewrite FastReader.

(** ** Definitions *)

Module CherryPick.
Import HashIter.
Import DiffCompute(result).
Import Rewrite(push_unique).

(** [git log --stdin --no-walk --reverse -p] and [git patch-id --stable], by
    what they are given. *)
Record Git := mkGit {
  log_patches : str → result str;
  patch_id_stable : str → result str
}.

Definition distinct (shas : list str) : list str := foldl push_unique [] shas.

Definition patch_id_line (patch_ids : gmap str str) (line : str) : gmap str str :=
  match split_whitespace line with
  | patch_id :: commit_sha :: _ => <[commit_sha := patch_id]> patch_ids
  | _ => patch_ids
  end.

Definition stable_patch_ids_for_commits (git : Git) (commit_shas : list str) : result (gmap str str) :=
  let commits := distinct commit_shas in
  if bool_decide (commits = []) then Ret ∅
  else
    let? log_output := log_patches git (join_with [LF] commits ++ [LF]) in
    if bool_decide (log_output = []) then Ret ∅
    else
      let? stdout := patch_id_stable git log_output in
      Ret (foldl patch_id_line ∅ (lines stdout)).

Definition compute_patch_ids (git : Git) (sources new_commits : list str) : result (gmap str str) :=
  let commits := distinct (sources ++ new_commits) in
  if bool_decide (commits = []) then Ret ∅ else stable_patch_ids_for_commits git commits.

(** The indices of the new commits of each patch id. *)
Definition candidates_by_patch_id (new_patch_ids : list (option str)) : gmap str (list nat) :=
  foldl (λ m ip, match ip.2 with Some id => extend m id [ip.1] | None => m end) ∅ (imap pair new_patch_ids).

(** The local variables of the first pass. *)
Record Matching := mkMatching {
  matched_sources : list bool;
  matched_new : list bool;
  pairs : list (str * str)
}.

Section Match.
Variables sources new_commits : list str.

Definition pair_at (src_idx new_idx : nat) : str * str := (sources !!! src_idx, new_commits !!! new_idx).

(** The body of the first pass. *)
Definition anchor (new_by_patch_id : gmap str (list nat)) (st : Matching) (source : nat * option str) : Matching :=
  match source.2 with
  | None => st
  | Some pid =>
      match new_by_patch_id !! pid with
      | None => st
      | Some candidates =>
          match List.find (λ idx, negb (matched_new st !!! idx)) candidates with
          | None => st
          | Some new_idx =>
              mkMatching (<[source.1 := true]> (matched_sources st)) (<[new_idx := true]> (matched_new st))
                (pairs st ++ [pair_at source.1 new_idx])
          end
      end
  end.

Definition unmatched (matched : list bool) : list nat :=
  omap (λ im, if im.2 : bool then None else Some im.1) (imap pair matched).

Definition match_by_patch_id (patch_ids : gmap str str) : list (str * str) :=
  let source_patch_ids := map (λ sha, patch_ids !! sha) sources in
  let new_patch_ids := map (λ sha, patch_ids !! sha) new_commits in
  let st := foldl (anchor (candidates_by_patch_id new_patch_ids))
              (mkMatching (replicate (length sources) false) (replicate (length new_commits) false) [])
              (imap pair source_patch_ids) in
  pairs st ++
  map (λ sn, pair_at sn.1 sn.2) (combine (unmatched (matched_sources st)) (unmatched (matched_new st))).
End Match.

Definition match_cherry_pick_pairs (git : Git) (sources new_commits : list str) : result (list (str * str)) :=
  if bool_decide (sources = []) || bool_decide (new_commits = []) then Ret []
  else
    let? patch_ids := compute_patch_ids git sources new_commits in
    Ret (match_by_patch_id sources new_commits patch_ids).

(** ** Reference *)

(** Git answers for these commits: [patch_of] is the stable id of the patch of
    a commit, [None] for an empty patch, which patch-id does not print.  The
    log prints the commits in its own order. *)
Record answers (git : Git) (patch_of : str → option str) (commits : list str) : Prop := {
  logs_patches : ∃ output printed, log_patches git (PatchText.render_lines commits) = Ret output ∧ printed ≡ₚ commits ∧
    (output = [] → ∀ sha, sha ∈ commits → patch_of sha = None) ∧
    patch_id_stable git output =
      Ret (PatchText.render_lines (omap (λ sha, (λ pid, pid ++ " "%char :: sha) <$> patch_of sha) printed));
  oids_valid : ∀ sha pid, sha ∈ commits → patch_of sha = Some pid →
    DiffTree.is_valid_git_oid sha = true ∧ DiffTree.is_valid_git_oid pid = true
}.

(** A pairing by indices: [anchored] pairs have equal patches, [filled] pairs
    come in order. *)
Record good_pairing (source_ids new_ids : list (option str)) (anchored filled : list (nat * nat)) : Prop := {
  anchored_equal : ∀ i j, (i, j) ∈ anchored → ∃ pid, source_ids !! i = Some (Some pid) ∧ new_ids !! j = Some (Some pid);
  anchored_in_order : ∀ i j i' j', (i, j) ∈ anchored → (i', j') ∈ anchored → (i < i')%nat →
    source_ids !! i = source_ids !! i' → (j < j')%nat;
  anchored_all : ∀ i j pid, source_ids !! i = Some (Some pid) → new_ids !! j = Some (Some pid) →
    i ∈ anchored.*1 ∨ j ∈ anchored.*2;
  filled_in_order : StronglySorted (λ p q : nat * nat, (p.1 < q.1)%nat ∧ (p.2 < q.2)%nat) filled;
  each_once : NoDup (anchored ++ filled).*1 ∧ NoDup (anchored ++ filled).*2;
  in_range : ∀ i j, (i, j) ∈ anchored ++ filled → (i < length source_ids)%nat ∧ (j < length new_ids)%nat;
  as_many_as_possible : length (anchored ++ filled) = Nat.min (length source_ids) (length new_ids)
}.

End CherryPick.

(** ** Lemmas *)

Module CherryPickFacts.
Import HashIter HashIterFacts PatchText PatchParseFacts FastReaderRef FastReaderFacts.
Import DiffTree(is_valid_git_oid).
Import Rewrite(push_unique).
Import CherryPick.

(** *** Distinct commits *)

Lemma distinct_spec shas : NoDup (distinct shas) ∧ ∀ sha, sha ∈ distinct shas ↔ sha ∈ shas.
Proof.
  unfold distinct. induction shas as [|x shas IH] using rev_ind; [split; [constructor|done]|].
  rewrite foldl_app. cbn [foldl]. destruct IH as [IH1 IH2]. unfold push_unique. case_bool_decide as Hx; split.
  - done.
  - set_solver.
  - apply NoDup_app. split; [done|]. split; [set_solver|apply NoDup_singleton].
  - set_solver.
Qed.

Lemma distinct_NoDup shas : NoDup shas → distinct shas = shas.
Proof.
  unfold distinct. induction shas as [|x shas IH] using rev_ind; intros Hn; [done|].
  apply NoDup_app in Hn as (Hn & Hx & _). rewrite foldl_app, IH by done. cbn [foldl]. unfold push_unique.
  rewrite bool_decide_false; [done|]. intros Hin. apply (Hx _ Hin). left.
Qed.

Lemma join_render ls : ls ≠ [] → join_with [LF] ls ++ [LF] = render_lines ls.
Proof.
  unfold render_lines. induction ls as [|x ls IH]; [done|]. intros _. destruct ls as [|y ls]; [cbn; by rewrite app_nil_r|].
  change (join_with [LF] (x :: y :: ls)) with (x ++ [LF] ++ join_with [LF] (y :: ls)).
  rewrite <-!app_assoc. rewrite IH by done. cbn [flat_map]. by rewrite <-!app_assoc.
Qed.

(** *** The output of patch-id *)

Lemma patch_id_line_spec m pid sha :
  is_valid_git_oid pid = true → is_valid_git_oid sha = true →
  patch_id_line m (pid ++ " "%char :: sha) = <[sha := pid]> m.
Proof.
  intros [Hne Hp]%oid_word Hs%oid_word. unfold patch_id_line.
  by rewrite split_whitespace_word, split_whitespace_last.
Qed.

Lemma fold_patch_ids patch_of printed m sha :
  (∀ x pid, x ∈ printed → patch_of x = Some pid → is_valid_git_oid x = true ∧ is_valid_git_oid pid = true) →
  foldl patch_id_line m (lines (render_lines (omap (λ x, (λ pid, pid ++ " "%char :: x) <$> patch_of x) printed))) !! sha =
  if bool_decide (sha ∈ printed) then match patch_of sha with Some pid => Some pid | None => m !! sha end else m !! sha.
Proof.
  intros Hv. rewrite lines_render.
  2:{ apply Forall_forall. intros l (x & Hx & E)%list_elem_of_omap. destruct (patch_of x) as [pid|] eqn:Ep; [|done].
      injection E as <-. destruct (Hv _ _ Hx Ep) as [H1%oid_word%word_no_break H2%oid_word%word_no_break].
      rewrite not_elem_of_app, not_elem_of_cons. naive_solver. }
  revert m. induction printed as [|x printed IH]; intros m; [done|]. cbn [omap list_omap].
  assert (∀ m', foldl patch_id_line m' (map strip_cr (omap (λ x, (λ pid, pid ++ " "%char :: x) <$> patch_of x) printed)) !! sha =
    if bool_decide (sha ∈ printed) then match patch_of sha with Some pid => Some pid | None => m' !! sha end else m' !! sha)
    as IH' by (apply IH; intros y pid ?; apply Hv; by right). clear IH.
  destruct (patch_of x) as [pid|] eqn:Ep; cbn [fmap option_fmap option_map].
  - cbn [map foldl]. destruct (Hv x pid ltac:(left) Ep) as [Hx Hp].
    pose proof (word_no_break _ (oid_word _ Hx)) as [_ Cx]. pose proof (word_no_break _ (oid_word _ Hp)) as [_ Cp].
    rewrite strip_cr_id by (rewrite not_elem_of_app, not_elem_of_cons; naive_solver).
    rewrite patch_id_line_spec, IH' by done. destruct (decide (sha = x)) as [->|Hne].
    + rewrite lookup_insert_eq, Ep, (bool_decide_true (x ∈ x :: printed)) by left. by case_bool_decide.
    + rewrite lookup_insert_ne by done. erewrite bool_decide_ext; [done|]. set_solver.
  - rewrite IH'. destruct (decide (sha = x)) as [->|Hne].
    + rewrite Ep. by repeat case_bool_decide.
    + erewrite bool_decide_ext; [done|]. set_solver.
Qed.

Lemma patch_ids_of git patch_of shas :
  answers git patch_of (distinct shas) →
  ∃ m, stable_patch_ids_for_commits git shas = Ret m ∧ ∀ sha, sha ∈ shas → m !! sha = patch_of sha.
Proof.
  intros [(output & printed & Hl & Hp & He & Hi) Hv]. unfold stable_patch_ids_for_commits.
  destruct (distinct_spec shas) as [_ Hd]. case_bool_decide as Hnil.
  { eexists. split; [done|]. intros sha Hs. apply Hd in Hs. rewrite Hnil in Hs. by apply not_elem_of_nil in Hs. }
  rewrite join_render, Hl by done. cbn [obind]. case_bool_decide as Ho.
  { eexists. split; [done|]. intros sha Hs. rewrite lookup_empty. symmetry. by apply He, Hd. }
  rewrite Hi. cbn [obind]. eexists. split; [done|]. intros sha Hs. rewrite fold_patch_ids.
  - rewrite bool_decide_true by by rewrite Hp; apply Hd. by destruct (patch_of sha).
  - intros x pid Hx. apply Hv. by rewrite <-Hp.
Qed.

(** *** The first pass *)

Lemma imap_pair_snoc {A} (l : list A) x : imap pair (l ++ [x]) = imap pair l ++ [(length l, x)].
Proof. rewrite imap_app. cbn. by rewrite Nat.add_0_r. Qed.

Lemma candidates_spec nids pid :
  let js := default [] (candidates_by_patch_id nids !! pid) in
  StronglySorted lt js ∧ ∀ j, j ∈ js ↔ nids !! j = Some (Some pid).
Proof.
  cbv zeta. unfold candidates_by_patch_id. induction nids as [|x nids IH] using rev_ind.
  { split; [constructor|]. intros j. rewrite lookup_nil. cbn. by rewrite elem_of_nil. }
  rewrite imap_pair_snoc, foldl_app. cbn [foldl fst snd]. destruct IH as [IHs IHj].
  assert (∀ j, (nids ++ [x]) !! j = Some (Some pid) ↔
    nids !! j = Some (Some pid) ∨ (j = length nids ∧ x = Some pid)) as Hj.
  { intros j. rewrite lookup_app_Some, list_lookup_singleton_Some. split; [intros [?|(? & ? & ?)]|intros [?|[? ?]]];
      [by left|right; split; [lia|congruence]|by left|right; subst; split_and!; [lia|lia|done]]. }
  destruct x as [id|].
  2:{ split; [done|]. intros j. rewrite IHj, Hj. naive_solver. }
  unfold extend. destruct (decide (id = pid)) as [->|Hne].
  - rewrite lookup_insert_eq. cbn [default from_option Datatypes.id]. split.
    + apply StronglySorted_app_2; [|done|repeat constructor].
      intros a b Ha%IHj ->%list_elem_of_singleton. apply lookup_lt_Some in Ha. lia.
    + intros j. rewrite elem_of_app, IHj, list_elem_of_singleton, Hj. naive_solver.
  - rewrite lookup_insert_ne by done. split; [done|]. intros j. rewrite IHj, Hj. naive_solver.
Qed.

Lemma find_least (p : nat → bool) l j :
  StronglySorted lt l → List.find p l = Some j → j ∈ l ∧ p j = true ∧ ∀ j', j' ∈ l → (j' < j)%nat → p j' = false.
Proof.
  induction 1 as [|x l Hl IH Hx]; [done|]. cbn [List.find]. destruct (p x) eqn:E.
  - intros [= <-]. split; [left|]. split; [done|]. rewrite Forall_forall in Hx.
    intros j' [->|Hj']%elem_of_cons Hlt; [lia|]. apply Hx in Hj'. lia.
  - intros Hf. destruct (IH Hf) as (Hin & Hp & Hle). split; [by right|]. split; [done|].
    intros j' [->|Hj']%elem_of_cons Hlt; [done|]. by apply Hle.
Qed.

Section Pass.
Variables (sources new_commits : list str) (sids nids : list (option str)).
Hypothesis sids_length : length sids = length sources.
Hypothesis nids_length : length nids = length new_commits.

Local Abbreviation anchor_all st ks := (foldl (anchor sources new_commits (candidates_by_patch_id nids)) st ks).

Definition marks (matched : list bool) (n : nat) (ks : list nat) : Prop :=
  length matched = n ∧ ∀ i, (i < n)%nat → matched !! i = Some (bool_decide (i ∈ ks)).

(** After [k] sources. *)
Record pass (k : nat) (st : Matching) (ips : list (nat * nat)) : Prop := mkPass {
  pass_pairs : pairs st = map (λ ij, pair_at sources new_commits ij.1 ij.2) ips;
  pass_sources : marks (matched_sources st) (length sources) ips.*1;
  pass_new : marks (matched_new st) (length new_commits) ips.*2;
  pass_equal : ∀ i j, (i, j) ∈ ips → (i < k)%nat ∧ ∃ pid, sids !! i = Some (Some pid) ∧ nids !! j = Some (Some pid);
  pass_once : NoDup ips.*1 ∧ NoDup ips.*2;
  pass_first : ∀ j j', j ∈ ips.*2 → (j' < j)%nat → nids !! j' = nids !! j → j' ∈ ips.*2;
  pass_order : ∀ i j i' j', (i, j) ∈ ips → (i', j') ∈ ips → (i < i')%nat → sids !! i = sids !! i' → (j < j')%nat;
  pass_all : ∀ i j pid, (i < k)%nat → sids !! i = Some (Some pid) → nids !! j = Some (Some pid) → i ∈ ips.*1 ∨ j ∈ ips.*2
}.

Lemma marks_insert matched n ks i : (i < n)%nat → marks matched n ks → marks (<[i := true]> matched) n (ks ++ [i]).
Proof.
  intros Hi [Hl Hm]. split; [by rewrite length_insert|]. intros x Hx.
  rewrite list_lookup_insert. case_decide as Hc.
  - destruct Hc as [-> _]. rewrite bool_decide_true; [done|]. set_solver.
  - rewrite Hm by done. f_equal. apply bool_decide_ext. assert (x ≠ i) by naive_solver lia. set_solver.
Qed.

Lemma marks_none n : marks (replicate n false) n [].
Proof. split; [apply length_replicate|]. intros i Hi. by rewrite lookup_replicate_2. Qed.

(** A source without a partner left. *)
Lemma pass_skip k st ips :
  pass k st ips →
  (∀ j pid, sids !! k = Some (Some pid) → nids !! j = Some (Some pid) → j ∈ ips.*2) → pass (S k) st ips.
Proof.
  intros [] Hno. split; try done.
  - intros i j Hij. destruct (pass_equal0 i j Hij). split; [lia|done].
  - intros i j pid Hi Hs Hn. destruct (decide (i = k)) as [->|Hne]; [right; by eapply Hno|].
    eapply pass_all0; [lia|done..].
Qed.

Lemma pass_step k st ips src : pass k st ips → sids !! k = Some src →
  ∃ ips', pass (S k) (anchor sources new_commits (candidates_by_patch_id nids) st (k, src)) ips'.
Proof.
  intros Hp Hk. unfold anchor. cbn [fst snd]. destruct src as [pid|].
  2:{ exists ips. apply pass_skip; [done|]. intros j pid E. congruence. }
  destruct (candidates_spec nids pid) as [Hs Hc].
  assert (∀ j, nids !! j = Some (Some pid) → (j < length new_commits)%nat) as Hlt
    by (intros j Hj%lookup_lt_Some; lia).
  assert (∀ j, (j < length new_commits)%nat → negb (matched_new st !!! j) = true ↔ j ∉ ips.*2) as Hfree.
  { intros j Hj. destruct (pass_new _ _ _ Hp) as [_ Hm]. rewrite (list_lookup_total_correct _ _ _ (Hm j Hj)).
    rewrite negb_true_iff, bool_decide_eq_false. done. }
  assert (∀ j, nids !! j = Some (Some pid) → negb (matched_new st !!! j) = false → j ∈ ips.*2) as Htaken.
  { intros j Hj Hf. destruct (decide (j ∈ ips.*2)) as [|Hno]; [done|]. apply Hfree in Hno; [congruence|by apply Hlt]. }
  destruct (candidates_by_patch_id nids !! pid) as [candidates|]; cbn [default from_option Datatypes.id] in *.
  2:{ exists ips. apply pass_skip; [done|]. intros j pid' E Hj. assert (pid' = pid) as -> by congruence.
      apply Hc in Hj. by apply not_elem_of_nil in Hj. }
  destruct (List.find _ candidates) as [j|] eqn:Ef.
  2:{ exists ips. apply pass_skip; [done|]. intros j pid' E Hj. assert (pid' = pid) as -> by congruence.
      apply Htaken; [done|]. apply (find_none _ _ Ef). by apply list_elem_of_In, Hc. }
  apply find_least in Ef as (Hj%Hc & Hf & Hmin); [|done]. pose proof (Hlt j Hj) as Hjn. apply Hfree in Hf; [|done].
  assert (k ∉ ips.*1) as Hkn.
  { intros ([i j'] & -> & Hin)%list_elem_of_fmap. apply (pass_equal _ _ _ Hp) in Hin as [Hlt' _]. cbn in Hlt'. lia. }
  assert (k < length sources)%nat by (apply lookup_lt_Some in Hk; lia).
  exists (ips ++ [(k, j)]). destruct Hp as [Hpairs Hsrc Hnew Heq [Hn1 Hn2] Hfirst Hord Hall].
  split; cbn [pairs matched_sources matched_new].
  - by rewrite Hpairs, map_app.
  - rewrite fmap_app. by apply marks_insert.
  - rewrite fmap_app. by apply marks_insert.
  - intros i j' [Hin|[= -> ->]%list_elem_of_singleton]%elem_of_app; [|by eauto].
    destruct (Heq i j' Hin). split; [lia|done].
  - rewrite !fmap_app. cbn. split; apply NoDup_app; (split; [done|]); (split; [|apply NoDup_singleton]);
      intros x Hx ->%list_elem_of_singleton; done.
  - rewrite fmap_app. cbn. intros a b [Ha| ->%list_elem_of_singleton]%elem_of_app Hlt' E; apply elem_of_app; left.
    + by eapply Hfirst.
    + apply Htaken; [congruence|]. apply Hmin; [|done]. apply Hc. congruence.
  - intros a b a' b' [H1|[= -> ->]%list_elem_of_singleton]%elem_of_app [H2|[= -> ->]%list_elem_of_singleton]%elem_of_app Hlt' E.
    + by eapply Hord.
    + destruct (Heq a b H1) as (_ & pid' & E1 & E2). assert (pid' = pid) as -> by congruence.
      destruct (decide (b < j)%nat) as [|Hge]; [done|]. exfalso. apply Hf.
      destruct (decide (b = j)) as [->|]; [apply list_elem_of_fmap; by exists (a, j)|].
      apply (Hfirst b j); [apply list_elem_of_fmap; by exists (a, b)|lia|congruence].
    + destruct (Heq a' b' H2) as [? _]. lia.
    + lia.
  - rewrite !fmap_app. cbn. intros i j' pid' Hi E1 E2. destruct (decide (i = k)) as [->|Hne].
    + left. apply elem_of_app. right. left.
    + destruct (Hall i j' pid') as [?|?]; [lia|done..| |]; [left|right]; apply elem_of_app; by left.
Qed.

Lemma pass_complete :
  ∃ ips, pass (length sources) (anchor_all (mkMatching (replicate (length sources) false)
    (replicate (length new_commits) false) []) (imap pair sids)) ips.
Proof.
  enough (∀ a b, sids = a ++ b → ∃ ips, pass (length a) (anchor_all (mkMatching (replicate (length sources) false)
    (replicate (length new_commits) false) []) (imap pair a)) ips) as H.
  { destruct (H sids []) as [ips Hips]; [by rewrite app_nil_r|]. exists ips. by rewrite <-sids_length at 1. }
  induction a as [|x a IH] using rev_ind; intros b E.
  - exists []. split; cbn; try done; try (by intros * ?%not_elem_of_nil); try (split; constructor).
    + apply marks_none.
    + apply marks_none.
    + intros *. lia.
  - destruct (IH (x :: b)) as [ips Hips]; [by rewrite E, <-app_assoc|].
    rewrite imap_pair_snoc, foldl_app, length_app, Nat.add_1_r. cbn [foldl]. eapply pass_step; [done|].
    rewrite E, lookup_app_l by (rewrite length_app; cbn; lia). by rewrite lookup_app_r, Nat.sub_diag by lia.
Qed.

End Pass.

(** *** The second pass *)

Lemma unmatched_snoc m b : unmatched (m ++ [b]) = unmatched m ++ (if b : bool then [] else [length m]).
Proof. unfold unmatched. rewrite imap_pair_snoc, omap_app. cbn. by destruct b. Qed.

Lemma unmatched_spec m : StronglySorted lt (unmatched m) ∧ ∀ i, i ∈ unmatched m ↔ m !! i = Some false.
Proof.
  induction m as [|b m [IHs IHi]] using rev_ind; [split; [constructor|]; intros i; by rewrite lookup_nil, elem_of_nil|].
  rewrite unmatched_snoc. assert (∀ i, (m ++ [b]) !! i = Some false ↔ m !! i = Some false ∨ (i = length m ∧ b = false)) as Hi.
  { intros i. rewrite lookup_app_Some, list_lookup_singleton_Some. split; [intros [?|(? & ? & ?)]|intros [?|[? ?]]];
      [by left|right; split; [lia|congruence]|by left|right; subst; split_and!; [lia|lia|done]]. }
  destruct b.
  - rewrite app_nil_r. split; [done|]. intros i. rewrite IHi, Hi. naive_solver.
  - split.
    + apply StronglySorted_app_2; [|done|repeat constructor].
      intros a b Ha%IHi ->%list_elem_of_singleton. apply lookup_lt_Some in Ha. lia.
    + intros i. rewrite elem_of_app, IHi, list_elem_of_singleton, Hi. naive_solver.
Qed.

(** What is matched and what is not adds up. *)
Lemma unmatched_length m n ks :
  marks m n ks → NoDup ks → Forall (λ i, (i < n)%nat) ks → (length (unmatched m) + length ks = n)%nat.
Proof.
  intros [Hl Hm] Hn Hr. destruct (unmatched_spec m) as [Hs Hu].
  assert (unmatched m ++ ks ≡ₚ seq 0 n) as Hp.
  { apply NoDup_Permutation.
    - apply NoDup_app. split; [|split; [|done]].
      + clear -Hs. induction Hs as [|x l _ IH Hx]; constructor; [|done]. intros Hin. rewrite Forall_forall in Hx.
        apply Hx in Hin. lia.
      + intros i Hi%Hu Hin. rewrite Forall_forall in Hr. rewrite Hm, bool_decide_true in Hi by auto. done.
    - apply NoDup_ListNoDup, seq_NoDup.
    - intros i. rewrite elem_of_app, Hu, elem_of_seq. rewrite Forall_forall in Hr. split.
      + intros [Hi%lookup_lt_Some|Hi%Hr]; lia.
      + intros [_ Hi]. destruct (decide (i ∈ ks)) as [|Hno]; [by right|]. left. rewrite Hm by lia. by rewrite bool_decide_false. }
  apply Permutation_length in Hp. by rewrite length_app, length_seq in Hp.
Qed.

Lemma sorted_combine (a b : list nat) :
  StronglySorted lt a → StronglySorted lt b →
  StronglySorted (λ p q : nat * nat, (p.1 < q.1)%nat ∧ (p.2 < q.2)%nat) (combine a b).
Proof.
  intros Ha. revert b. induction Ha as [|x a _ IH Hx]; intros b Hb; [constructor|].
  destruct Hb as [|y b Hb Hy]; [constructor|]. cbn [combine]. constructor; [by apply IH|].
  apply Forall_forall. intros [u v] Hin. rewrite Forall_forall in Hx, Hy. cbn.
  apply list_elem_of_In in Hin. split; [apply Hx|apply Hy]; apply list_elem_of_In.
  - by eapply in_combine_l.
  - by eapply in_combine_r.
Qed.

Lemma combine_fst {A B} (a : list A) (b : list B) : (combine a b).*1 = take (length b) a.
Proof. revert b. induction a as [|x a IH]; intros [|y b]; cbn; [done..|]. by rewrite IH. Qed.
Lemma combine_snd {A B} (a : list A) (b : list B) : (combine a b).*2 = take (length a) b.
Proof. revert b. induction a as [|x a IH]; intros [|y b]; cbn; [done..|]. by rewrite IH. Qed.

Lemma sorted_lt_nodup l : StronglySorted lt l → NoDup l.
Proof.
  induction 1 as [|x l _ IH Hx]; constructor; [|done]. intros Hin. rewrite Forall_forall in Hx. apply Hx in Hin. lia.
Qed.

Lemma match_spec sources new_commits patch_ids :
  let sids := map (λ sha, patch_ids !! sha) sources in
  let nids := map (λ sha, patch_ids !! sha) new_commits in
  ∃ anchored filled,
    match_by_patch_id sources new_commits patch_ids =
      map (λ ij, pair_at sources new_commits ij.1 ij.2) (anchored ++ filled) ∧
    good_pairing sids nids anchored filled.
Proof.
  intros sids nids. unfold match_by_patch_id. fold sids nids.
  assert (length sids = length sources) as Ls by apply length_map.
  assert (length nids = length new_commits) as Ln by apply length_map.
  destruct (pass_complete sources new_commits sids nids Ls Ln) as [ips [Hp Hs Hn Heq [N1 N2] _ Hord Hall]].
  set (st := foldl _ _ _) in *. set (us := unmatched (matched_sources st)). set (un := unmatched (matched_new st)).
  assert (Forall (λ i, (i < length sources)%nat) ips.*1 ∧ Forall (λ j, (j < length new_commits)%nat) ips.*2) as [R1 R2].
  { split; apply Forall_forall; intros x ([i j] & -> & Hin)%list_elem_of_fmap; apply Heq in Hin as (_ & pid & H1 & H2);
      apply lookup_lt_Some in H1, H2; cbn; lia. }
  pose proof (unmatched_length _ _ _ Hs N1 R1) as L1. pose proof (unmatched_length _ _ _ Hn N2 R2) as L2.
  destruct (unmatched_spec (matched_sources st)) as [S1 U1]. destruct (unmatched_spec (matched_new st)) as [S2 U2].
  fold us in L1, S1, U1. fold un in L2, S2, U2. rewrite length_fmap in L1, L2.
  assert (∀ i, i ∈ us → (i < length sources)%nat ∧ i ∉ ips.*1) as Us.
  { intros i Hi%U1. destruct Hs as [Hl Hm]. pose proof (lookup_lt_Some _ _ _ Hi) as Hlt. rewrite Hl in Hlt.
    split; [done|]. rewrite Hm in Hi by done. injection Hi as Hi. by apply bool_decide_eq_false in Hi. }
  assert (∀ i, i ∈ un → (i < length new_commits)%nat ∧ i ∉ ips.*2) as Un.
  { intros i Hi%U2. destruct Hn as [Hl Hm]. pose proof (lookup_lt_Some _ _ _ Hi) as Hlt. rewrite Hl in Hlt.
    split; [done|]. rewrite Hm in Hi by done. injection Hi as Hi. by apply bool_decide_eq_false in Hi. }
  exists ips, (combine us un). split; [by rewrite Hp, map_app|]. split.
  - intros i j Hij. by apply Heq.
  - done.
  - intros i j pid Hi Hj. eapply Hall; [|done..]. apply lookup_lt_Some in Hi. lia.
  - by apply sorted_combine.
  - rewrite !fmap_app, combine_fst, combine_snd. split; apply NoDup_app; (split; [done|]); split.
    + intros x Hx (k & Hin%list_elem_of_lookup_2 & _)%elem_of_take. by apply Us in Hin as [_ ?].
    + eapply sublist_NoDup; [apply sorted_lt_nodup, S1|apply sublist_take].
    + intros x Hx (k & Hin%list_elem_of_lookup_2 & _)%elem_of_take. by apply Un in Hin as [_ ?].
    + eapply sublist_NoDup; [apply sorted_lt_nodup, S2|apply sublist_take].
  - intros i j [Hij|Hij%list_elem_of_In]%elem_of_app.
    + apply Heq in Hij as (_ & pid & H1 & H2). apply lookup_lt_Some in H1, H2. lia.
    + rewrite Ls, Ln. split; [apply Us|apply Un]; apply list_elem_of_In; [by eapply in_combine_l|by eapply in_combine_r].
  - rewrite length_app, length_combine. lia.
Qed.

End CherryPickFacts.

(** ** Properties *)

Module CherryPickProps.
Import HashIter PatchText FastReaderFacts.
Import CherryPick CherryPickFacts.

(** C33: the pairs of a cherry-pick.  When git lists the patch ids, the pairs
    are pairs of positions: each source and each new commit is in at most one,
    and as many are paired as the shorter list has commits.  The first pairs
    have equal patches, repeated patches in order, and afterwards no source
    without such a partner has its patch among the new commits without one;
    the other pairs take what is left, in the order of both lists. *)
Theorem cherry_picks_are_paired (git : Git) (patch_of : str → option str) (sources new_commits : list str)
    (git_answers : answers git patch_of (distinct (sources ++ new_commits))) :
  ∃ anchored filled,
    match_cherry_pick_pairs git sources new_commits =
      Ret (map (λ ij, (sources !!! ij.1, new_commits !!! ij.2)) (anchored ++ filled)) ∧
    good_pairing (map patch_of sources) (map patch_of new_commits) anchored filled.
Proof.
  unfold match_cherry_pick_pairs. destruct (_ || _) eqn:E.
  { exists [], []. split; [done|]. split; try done; try (by intros * ?%not_elem_of_nil); try (by constructor); try (by split; constructor).
    - intros i j pid Hi Hj. apply lookup_lt_Some in Hi, Hj. rewrite !length_map in Hi, Hj.
      apply orb_true_iff in E as [E%bool_decide_eq_true|E%bool_decide_eq_true]; subst; cbn in *; lia.
    - cbn. rewrite !length_map. apply orb_true_iff in E as [E%bool_decide_eq_true|E%bool_decide_eq_true]; subst; cbn; lia. }
  destruct (distinct_spec (sources ++ new_commits)) as [Hn Hd].
  destruct (patch_ids_of git patch_of (distinct (sources ++ new_commits))) as (m & Hm & Hl); [by rewrite distinct_NoDup|].
  unfold compute_patch_ids. rewrite bool_decide_false.
  2:{ intros Hnil. apply orb_false_iff in E as [E%bool_decide_eq_false _]. destruct sources as [|s ss]; [done|].
      apply (not_elem_of_nil s). rewrite <-Hnil. apply Hd. left. }
  rewrite Hm. cbn [obind]. destruct (match_spec sources new_commits m) as (anchored & filled & H & Hg).
  exists anchored, filled. split; [by rewrite H|].
  assert (∀ l, (∀ sha, sha ∈ l → sha ∈ sources ++ new_commits) → map (λ sha, m !! sha) l = map patch_of l) as Hmap.
  { intros l Hin. apply map_ext_in. intros sha Hs%list_elem_of_In. by apply Hl, Hd, Hin. }
  rewrite !Hmap in Hg; [done|intros ? ?; apply elem_of_app; by right|intros ? ?; apply elem_of_app; by left].
Qed.

(** *** Witness *)

(** Four sources, the second with an empty patch; the first and the last are
    the same change, kept twice, and one was changed on the way. *)
Definition oid (c : ascii) : str := repeat c 40.
Definition sample_patch (sha : str) : option str :=
  if str_eqb sha (oid "1") then Some (oid "a")
  else if str_eqb sha (oid "2") then None
  else if str_eqb sha (oid "3") then Some (oid "b")
  else if str_eqb sha (oid "4") then Some (oid "a")
  else if str_eqb sha (oid "5") then Some (oid "c")
  else if str_eqb sha (oid "6") then Some (oid "a")
  else if str_eqb sha (oid "7") then Some (oid "a")
  else None.
Definition sample_sources : list str := map oid ["1"; "2"; "3"; "4"]%char.
Definition sample_new : list str := map oid ["5"; "6"; "7"]%char.
Definition sample_git : Git :=
  mkGit (λ stdin, Ret stdin)
    (λ output, Ret (render_lines (omap (λ sha, (λ pid, pid ++ " "%char :: sha) <$> sample_patch sha) (lines output)))).

Lemma cherry_picks_are_paired_witness :
  match_cherry_pick_pairs sample_git sample_sources sample_new =
    Ret [(oid "1", oid "6"); (oid "4", oid "7"); (oid "2", oid "5")] ∧
  ∃ anchored filled, good_pairing (map sample_patch sample_sources) (map sample_patch sample_new) anchored filled.
Proof.
  split; [by vm_compute|].
  destruct (cherry_picks_are_paired sample_git sample_patch sample_sources sample_new) as (anchored & filled & _ & H).
  - split.
    + eexists _, _. split; [done|]. split; [done|]. split; [by vm_compute|]. by vm_compute.
    + intros sha pid Hin. change (distinct _) with (map oid ["1"; "2"; "3"; "4"; "5"; "6"; "7"]%char) in Hin.
      repeat (apply elem_of_cons in Hin as [->|Hin]; [vm_compute; intros [= <-]; done|]). by apply not_elem_of_nil in Hin.
  - by exists anchored, filled.
Defined.

End CherryPickProps.
