(* ===== verification/Revert.v ===== *)
(** * Notes of reverts

    src/src/authorship/rewrite_revert.rs: a revert brings lines back.  The note
    of the commit before the reverted one is shifted to the revert, and what it
    attests there is kept for the lines the revert adds.  Any number of reverts
    takes a constant number of git processes, one more than meant since git
    verifies one revision at a time; git is a record of answers. *)

From S2P Require Import Prelude Text LineRange AuthorshipLog NoteFormat ConflictResolution HunkShift DiffCompute HashIter PatchParse DiffTree Rewrite RewriteProps RewriteEvents FastReader CherryPick.

Local Open Scope Z_scope.

(** ** Definitions *)

Module Revert.
Import LineRange AuthorshipLog HunkShift HashIter.
Import DiffCompute(result).
Import DiffTree(DiffTreeResult, hunks_by_file, is_valid_git_oid).
Import Rewrite RewriteMetrics.

Record RevertSpec := mkSpec {
  revert_commit : str;
  spec_parent : option str;
  reverted_commit : option str
}.

Record Resolved := mkResolved {
  r_revert_commit : str;
  r_parent_sha : str;
  source_base_sha : str;
  r_original_shas : list str
}.

(** [git rev-parse --verify] with revisions as arguments and
    [git cat-file --batch-check] with them as input. *)
Record RevGit := mkRevGit {
  rev_parse_verify : list str → result str;
  cat_file_batch_check : str → result str
}.

(** ** Revisions *)

Definition tilde1 (sha : str) : str := sha ++ lit "~1".
Definition caret1 (sha : str) : str := sha ++ lit "^1".

(** [as_deref().unwrap_or("")]: an empty commit counts as none. *)
Definition given (sha : option str) : option str :=
  match sha with Some s => if bool_decide (s = []) then None else Some s | None => None end.

Definition checked_revision (out : gmap str str) (sl : str * str) : gmap str str :=
  match split_whitespace sl.2 with
  | oid :: kind :: _ =>
      if negb (str_eqb kind (lit "missing")) && is_valid_git_oid oid then <[sl.1 := oid]> out else out
  | _ => out
  end.

Definition check_revisions (git : RevGit) (revspecs : list str) : gmap str str :=
  match cat_file_batch_check git (join_with [LF] revspecs ++ [LF]) with
  | Ret stdout => foldl checked_revision ∅ (combine revspecs (lines stdout))
  | _ => ∅
  end.

Definition batch_rev_parse_verify (git : RevGit) (revspecs : list str) : gmap str str :=
  if bool_decide (revspecs = []) then ∅
  else
    match rev_parse_verify git revspecs with
    | Ret stdout =>
        let oids := lines stdout in
        if (length oids =? length revspecs)%nat then foldl (λ m so, <[so.1 := trim so.2]> m) ∅ (combine revspecs oids)
        else check_revisions git revspecs
    | _ => check_revisions git revspecs
    end.

(** The revisions a spec asks for first. *)
Definition revisions_of (acc : list str) (spec : RevertSpec) : list str :=
  let acc := match given (spec_parent spec) with None => push_unique acc (tilde1 (revert_commit spec)) | Some _ => acc end in
  match given (reverted_commit spec) with Some rc => push_unique acc (caret1 rc) | None => acc end.

Definition parent_of (revs : gmap str str) (spec : RevertSpec) : str :=
  match given (spec_parent spec) with
  | Some p => p
  | None => default [] (revs !! tilde1 (revert_commit spec))
  end.

(** The loop of the second pass: what is resolved, and the revisions that are
    still to be asked for. *)
Definition resolve_spec (revs : gmap str str) (acc : list Resolved * list str) (spec : RevertSpec) :
    list Resolved * list str :=
  let parent_sha := parent_of revs spec in
  if bool_decide (parent_sha = []) then acc
  else
    match given (reverted_commit spec) with
    | Some rc =>
        (acc.1 ++ [mkResolved (revert_commit spec) parent_sha (default [] (revs !! caret1 rc)) [rc]], acc.2)
    | None =>
        (acc.1 ++ [mkResolved (revert_commit spec) parent_sha [] []], push_unique acc.2 (caret1 parent_sha))
    end.

Definition legacy_revert_metric_original_sha (parent_sha : str) : option str :=
  if bool_decide (parent_sha = []) then None else Some parent_sha.

Definition fill_legacy (revs : gmap str str) (r : Resolved) : Resolved :=
  if bool_decide (source_base_sha r = []) then
    mkResolved (r_revert_commit r) (r_parent_sha r) (default [] (revs !! caret1 (r_parent_sha r)))
      (if bool_decide (r_original_shas r = []) then option_list (legacy_revert_metric_original_sha (r_parent_sha r))
       else r_original_shas r)
  else r.

Definition resolve_specs (git : RevGit) (specs : list RevertSpec) : list Resolved :=
  let revs := batch_rev_parse_verify git (foldl revisions_of [] specs) in
  let '(resolved, legacy_parent_firstparent) := foldl (resolve_spec revs) ([], []) specs in
  let resolved :=
    if bool_decide (legacy_parent_firstparent = []) then resolved
    else map (fill_legacy (batch_rev_parse_verify git legacy_parent_firstparent)) resolved in
  List.filter (λ r, negb (bool_decide (source_base_sha r = []))) resolved.

(** ** Added lines *)

Definition added_hunk_lines (hunk : DiffHunk) : list Z :=
  List.filter (λ line, 0 <? line)
    (seqZ (new_start hunk) (u32_add (new_start hunk) (new_count hunk) - new_start hunk)).

Definition added_lines_from_diff_result (diff : DiffTreeResult) : gmap str (list Z) :=
  omap (λ hunks, let ls := flat_map added_hunk_lines hunks in if bool_decide (ls = []) then None else Some ls)
    (hunks_by_file diff).

Definition clip_entry (target_lines : list Z) (entry : AttestationEntry) : option AttestationEntry :=
  let ls := List.filter (λ line, bool_decide (line ∈ target_lines)) (flat_map expand (line_ranges entry)) in
  if bool_decide (ls = []) then None
  else Some (mkEntry (hash entry) (compress_lines (dedup Z.eqb (sort_by Z.leb ls)))).

Definition clip_file_attestation_to_lines (file : FileAttestation) (added_lines : gmap str (list Z)) :
    option FileAttestation :=
  match added_lines !! file_path file with
  | None => None
  | Some target_lines =>
      let es := omap (clip_entry target_lines) (entries file) in
      if bool_decide (es = []) then None else Some (mkFile (file_path file) es)
  end.

(** ** Reconstruction *)

(** The pairs of trees to compare, with the indices of a commit's two. *)
Definition request_diffs (notes : gmap str str) (acc : list (str * str) * list (option nat * nat)) (r : Resolved) :
    list (str * str) * list (option nat * nat) :=
  let '(diff_pairs, idx) := acc in
  let '(diff_pairs, shift) :=
    match notes !! source_base_sha r with
    | Some _ => (diff_pairs ++ [(source_base_sha r, r_revert_commit r)], Some (length diff_pairs))
    | None => (diff_pairs, None)
    end in
  (diff_pairs ++ [(r_parent_sha r, r_revert_commit r)], idx ++ [(shift, length diff_pairs)]).

Section Notes.
Variable to_string_pretty : AuthorshipMetadata → option str.
Variable from_str : str → option AuthorshipMetadata.
Variable collect_metrics : bool.

(** The log of the revert: [None] when nothing is left of it. *)
Definition reverted_log (log : AuthorshipLog) (shift_result added_result : DiffTreeResult) (revert_sha : str) :
    option AuthorshipLog :=
  let added_lines := added_lines_from_diff_result added_result in
  if bool_decide (added_lines = ∅) then None
  else
    let fs := omap (λ file, clip_file_attestation_to_lines file added_lines)
                (shift_attestations shift_result (attestations log)) in
    if bool_decide (fs = []) then None
    else Some (mkLog fs (ConflictResolution.set_base_commit (metadata log) revert_sha)).

Definition metric_of (r : Resolved) (note : str) (added_result : DiffTreeResult) : RewriteMetricCommit :=
  with_parent_diff
    (with_authorship_note (with_parent_sha (new_metric (r_revert_commit r) (r_original_shas r) Revert) (r_parent_sha r)) note)
    added_result.

(** One turn of the last loop; an index out of range panics. *)
Definition reconstruct_one (notes : gmap str str) (diff_results : list DiffTreeResult) (r : Resolved)
    (idx : option nat * nat) : result (option ((str * str) * RewriteMetricCommit)) :=
  match idx.1, notes !! source_base_sha r with
  | Some shift, Some source_note =>
      match NoteFormat.deserialize_from_string from_str source_note with
      | Panic => Panic
      | Fail _ => Ret None
      | Ret log =>
          match diff_results !! idx.2, diff_results !! shift with
          | Some added_result, Some shift_result =>
              Ret (match reverted_log log shift_result added_result (r_revert_commit r) with
                   | None => None
                   | Some log' =>
                       match NoteFormat.serialize_to_string to_string_pretty log' with
                       | None => None
                       | Some note_str => Some ((r_revert_commit r, note_str), metric_of r note_str added_result)
                       end
                   end)
          | _, _ => Panic
          end
      end
  | _, _ => Ret None
  end.

Fixpoint reconstruct_loop (notes : gmap str str) (diff_results : list DiffTreeResult)
    (rs : list (Resolved * (option nat * nat))) : result (list ((str * str) * RewriteMetricCommit)) :=
  match rs with
  | [] => Ret []
  | (r, idx) :: rs' =>
      let? one := reconstruct_one notes diff_results r idx in
      let? rest := reconstruct_loop notes diff_results rs' in
      Ret (option_list one ++ rest)
  end.

Definition reconstruct (git : Git) (resolved : list Resolved) : result (list ((str * str) * RewriteMetricCommit)) :=
  let source_base_shas := dedup str_eqb (sort_by str_le (map source_base_sha resolved)) in
  let? notes := read_notes_batch git source_base_shas in
  let '(diff_pairs, idx) := foldl (request_diffs notes) ([], []) resolved in
  let? diff_results := compute_diff_trees_batch git diff_pairs in
  reconstruct_loop notes diff_results (combine resolved idx).

Definition handle_revert_commits_with_metrics (git : Git) (revgit : RevGit) (specs : list RevertSpec) :
    result (list RewriteMetricCommit) :=
  if bool_decide (specs = []) then Ret []
  else
    let resolved := resolve_specs revgit specs in
    if bool_decide (resolved = []) then Ret []
    else
      let? done_ := reconstruct git resolved in
      let writes := map fst done_ in
      let? _ := if bool_decide (writes = []) then Ret tt else write_notes_batch git writes in
      Ret (if collect_metrics then map snd done_ else []).

Definition handle_revert_commits (git : Git) (revgit : RevGit) (specs : list RevertSpec) : result unit :=
  let? _ := handle_revert_commits_with_metrics git revgit specs in Ret tt.
End Notes.

End Revert.

(** ** Reference *)

Module RevertRef.
Import LineRange AuthorshipLog HunkShift HashIter PatchText FastReaderRef.
Import DiffTree(is_valid_git_oid).
Import DiffTreeText RewriteSpec Revert.

(** Git resolves revisions: [rev] is the commit of a revision, if any.
    [rev-parse --verify] prints the commit of exactly one revision, and needs a
    single one; cat-file reports each, with the size of the object. *)
Record resolves (revgit : RevGit) (rev : str → option str) : Prop := {
  rev_oids : ∀ s oid, rev s = Some oid → is_valid_git_oid oid = true;
  verifies_one : ∀ s oid, word s → rev s = Some oid → rev_parse_verify revgit [s] = Ret (render_lines [oid]);
  fails_unknown : ∀ s, word s → rev s = None → ∃ e, rev_parse_verify revgit [s] = Fail e;
  needs_single : ∀ revspecs, length revspecs ≠ 1%nat → ∃ e, rev_parse_verify revgit revspecs = Fail e;
  checks_each : ∃ size : str → str, (∀ s, word (size s)) ∧ ∀ revspecs, Forall word revspecs →
    cat_file_batch_check revgit (render_lines revspecs) =
    Ret (render_lines (map (λ s, match rev s with Some oid => oid ++ lit " commit " ++ size s | None => s ++ lit " missing" end)
           revspecs))
}.

Section Reference.
Variable from_str : str → option AuthorshipMetadata.
Variables (notes : gmap str str) (tree : str → str) (patch : str → str → list TreeFile).
Variable rev : str → option str.

(** The commit a revert was made on, and the one before the reverted commit. *)
Definition revert_parent (spec : RevertSpec) : option str :=
  match given (spec_parent spec) with Some p => Some p | None => rev (tilde1 (revert_commit spec)) end.
Definition revert_base (spec : RevertSpec) : option str :=
  revert_parent spec ≫= λ p, rev (caret1 (default p (given (reverted_commit spec)))).

(** The words of the specs, and a commit that is reverted has a parent. *)
Definition spec_ok (spec : RevertSpec) : Prop :=
  word (revert_commit spec) ∧
  (∀ p, given (spec_parent spec) = Some p → word p) ∧
  ∀ rc, given (reverted_commit spec) = Some rc → word rc ∧ is_Some (rev (caret1 rc)).

(** The patch of a pair of commits adds a line to a file. *)
Definition adds_line (p : str * str) (file : str) (n : Z) : Prop :=
  ∃ hp, hp ∈ hunks_of (tree_patch tree patch p) file ∧
    new_start (hp_range hp) <= n < new_start (hp_range hp) + new_count (hp_range hp) ∧ 0 < n.

(** What the note before the reverted commit attests about a line that the
    revert brings back. *)
Definition brought_back (spec : RevertSpec) (file h : str) (n : Z) : Prop :=
  ∃ p b slog f0 o, revert_parent spec = Some p ∧ revert_base spec = Some b ∧
    note_log from_str notes b = Some slog ∧ covers slog f0 h o ∧
    moves_line tree patch (b, revert_commit spec) f0 o file n ∧ adds_line (p, revert_commit spec) file n.

Definition reverted (spec : RevertSpec) (out : option AuthorshipLog) : Prop :=
  match out with
  | None => ∀ file h n, ¬ brought_back spec file h n
  | Some log =>
      (∃ file h n, brought_back spec file h n) ∧
      (∀ file h n, covers log file h n ↔ brought_back spec file h n) ∧
      ∃ b slog, revert_base spec = Some b ∧ note_log from_str notes b = Some slog ∧
        metadata log = ConflictResolution.set_base_commit (metadata slog) (revert_commit spec)
  end.
End Reference.
End RevertRef.

(** ** Lemmas *)

Module RevertFacts.
Import LineRange LineRangeFacts AuthorshipLog HunkShift HashIter HashIterFacts PatchText PatchParseFacts FastReaderRef FastReaderFacts.
Import DiffTree(DiffTreeResult, hunks_by_file, is_valid_git_oid).
Import ConflictResolutionFacts DiffTreeText DiffTreeFacts Rewrite RewriteFacts RewriteSpec RewriteSteps CherryPickFacts Revert RevertRef.

(** *** Revisions *)

Lemma word_app a b : word a → Forall printable b → word (a ++ b).
Proof. intros [Hn Ha] Hb. split; [by destruct a|by apply Forall_app]. Qed.

Lemma oid_commit_words oid size :
  is_valid_git_oid oid = true → split_whitespace (oid ++ lit " commit " ++ size) = oid :: lit "commit" :: split_whitespace size.
Proof.
  intros [Hne Hp]%oid_word. change (lit " commit " ++ size) with (" "%char :: lit "commit" ++ " "%char :: size).
  rewrite split_whitespace_word by done. f_equal.
Qed.

Lemma missing_words s : word s → split_whitespace (s ++ lit " missing") = [s; lit "missing"].
Proof.
  intros [Hne Hp]. change (lit " missing") with (" "%char :: lit "missing").
  rewrite split_whitespace_word by done. f_equal.
Qed.

Lemma fold_insert_known (rev : str → option str) (revspecs : list str) (step : gmap str str → str → gmap str str) s m :
  (∀ m x, x ∈ revspecs → step m x = match rev x with Some oid => <[x := oid]> m | None => m end) →
  foldl step m revspecs !! s =
  if bool_decide (s ∈ revspecs) then match rev s with Some oid => Some oid | None => m !! s end else m !! s.
Proof.
  revert m. induction revspecs as [|x l IH]; intros m Hstep; [done|]. cbn [foldl].
  rewrite IH by (intros m' y Hy; apply Hstep; by right). rewrite Hstep by left.
  destruct (decide (s = x)) as [->|Hne].
  - rewrite (bool_decide_true (x ∈ x :: l)) by left. destruct (rev x) eqn:E; [rewrite lookup_insert_eq|]; by case_bool_decide.
  - assert (match rev x with Some oid => <[x := oid]> m | None => m end !! s = m !! s) as ->
      by (destruct (rev x); [by rewrite lookup_insert_ne|done]).
    erewrite bool_decide_ext; [done|]. set_solver.
Qed.

Lemma foldl_combine_map {A B C} (f : A → B → C → A) (g : B → C) (l : list B) a :
  foldl (λ a bc, f a bc.1 bc.2) a (combine l (map g l)) = foldl (λ a b, f a b (g b)) a l.
Proof. revert a. induction l as [|b l IH]; intros a; [done|]. cbn. apply IH. Qed.

(** The second process answers for each revision. *)
Lemma check_spec revgit rev revspecs :
  resolves revgit rev → Forall word revspecs → ∀ s, s ∈ revspecs → check_revisions revgit revspecs !! s = rev s.
Proof.
  intros Hr Hw s Hs. assert (∀ x oid, rev x = Some oid → word oid) as Hoid by (intros x oid E; eapply oid_word, rev_oids; done).
  destruct (checks_each _ _ Hr) as (size & Hsize & Hcheck).
  unfold check_revisions. rewrite join_render by (by intros ->; apply not_elem_of_nil in Hs). rewrite Hcheck by done.
  rewrite lines_render.
  - rewrite map_map. rewrite (foldl_combine_map (λ m x l, checked_revision m (x, l))).
    rewrite (fold_insert_known rev).
    + rewrite bool_decide_true by done. by destruct (rev s).
    + intros m x Hx. rewrite Forall_forall in Hw. pose proof (word_no_break _ (Hw _ Hx)) as [_ Cx].
      unfold checked_revision. cbn [fst snd]. destruct (rev x) as [oid|] eqn:E.
      * pose proof (word_no_break _ (Hoid _ _ E)) as [_ Co]. pose proof (word_no_break _ (Hsize x)) as [_ Cs]. rewrite strip_cr_id.
        -- rewrite oid_commit_words by (by eapply rev_oids). by rewrite (rev_oids _ _ Hr _ _ E).
        -- rewrite !not_elem_of_app. split; [done|]. split; [by apply contains_byte_false|done].
      * rewrite strip_cr_id.
        -- rewrite missing_words by by apply Hw. done.
        -- rewrite not_elem_of_app. split; [done|]. by apply contains_byte_false.
  - apply Forall_map. eapply Forall_impl; [exact Hw|]. intros x Hx. cbn.
    destruct (rev x) as [oid|] eqn:E; rewrite !not_elem_of_app; split_and!;
      try (by apply contains_byte_false); by (apply word_no_break, (Hoid _ _ E) || apply word_no_break).
Qed.

(** Two revisions or more are never answered by the first process. *)
Lemma several_revisions_take_two_processes revgit rev revspecs :
  resolves revgit rev → (2 <= length revspecs)%nat →
  (∃ e, rev_parse_verify revgit revspecs = Fail e) ∧ batch_rev_parse_verify revgit revspecs = check_revisions revgit revspecs.
Proof.
  intros Hr Hlen. destruct (needs_single _ _ Hr revspecs) as [e He]; [lia|]. split; [by exists e|].
  unfold batch_rev_parse_verify. rewrite He. case_bool_decide; [subst; simpl in Hlen; lia|done].
Qed.

Lemma batch_spec revgit rev revspecs :
  resolves revgit rev → Forall word revspecs → ∀ s, s ∈ revspecs → batch_rev_parse_verify revgit revspecs !! s = rev s.
Proof.
  intros Hr Hw s Hs. destruct revspecs as [|x [|y l]]; [by apply not_elem_of_nil in Hs| |].
  - apply list_elem_of_singleton in Hs as ->. pose proof (Forall_inv Hw) as Hx. destruct (rev x) as [oid|] eqn:E.
    + unfold batch_rev_parse_verify. rewrite bool_decide_false by done. rewrite (verifies_one _ _ Hr x oid Hx E).
      assert (word oid) as Ho by (by eapply oid_word, rev_oids).
      rewrite lines_render by (constructor; [by apply word_no_break|constructor]). cbn [map length Nat.eqb combine foldl fst snd].
      rewrite lookup_insert_eq, strip_cr_id by by apply word_no_break. by rewrite (proj1 (trim_word _ Ho)).
    + rewrite <-E. unfold batch_rev_parse_verify. rewrite bool_decide_false by done.
      destruct (fails_unknown _ _ Hr x Hx E) as [e ->]. by apply (check_spec _ rev); [..|left].
  - destruct (several_revisions_take_two_processes revgit rev (x :: y :: l) Hr) as [_ ->]; [simpl; lia|]. by apply check_spec.
Qed.

(** *** Specs *)

Lemma elem_of_revisions acc specs s :
  s ∈ foldl revisions_of acc specs ↔
  s ∈ acc ∨ ∃ spec, spec ∈ specs ∧
    ((given (spec_parent spec) = None ∧ s = tilde1 (revert_commit spec)) ∨
     ∃ rc, given (reverted_commit spec) = Some rc ∧ s = caret1 rc).
Proof.
  revert acc. induction specs as [|spec specs IH]; intros acc; cbn [foldl].
  - split; [by left|]. intros [?|(? & ?%not_elem_of_nil & _)]; done.
  - rewrite IH. setoid_rewrite elem_of_cons. unfold revisions_of.
    destruct (given (spec_parent spec)) eqn:E1, (given (reverted_commit spec)) eqn:E2;
      rewrite ?elem_of_push_unique; naive_solver.
Qed.

Section Specs.
Variables (revgit : RevGit) (rev : str → option str) (specs : list RevertSpec).
Hypothesis git_resolves : resolves revgit rev.
Hypothesis specs_ok : Forall (spec_ok rev) specs.

Definition resolved_of (spec : RevertSpec) : option Resolved :=
  match revert_parent rev spec, revert_base rev spec with
  | Some p, Some b => Some (mkResolved (revert_commit spec) p b [default p (given (reverted_commit spec))])
  | _, _ => None
  end.

(** A spec before the second batch of revisions. *)
Definition half_resolved (spec : RevertSpec) : option Resolved :=
  (λ p, match given (reverted_commit spec) with
        | Some rc => mkResolved (revert_commit spec) p (default [] (rev (caret1 rc))) [rc]
        | None => mkResolved (revert_commit spec) p [] []
        end) <$> revert_parent rev spec.

Lemma rev_word s oid : rev s = Some oid → word oid.
Proof. intros E. eapply oid_word, rev_oids; done. Qed.

Lemma revert_parent_word spec p : spec_ok rev spec → revert_parent rev spec = Some p → word p.
Proof.
  intros (_ & Hp & _). unfold revert_parent. destruct (given (spec_parent spec)) eqn:E; [|apply rev_word].
  intros [= <-]. by apply Hp.
Qed.

Lemma first_revisions_word : Forall word (foldl revisions_of [] specs).
Proof.
  apply Forall_forall. intros s [Hn%not_elem_of_nil|(spec & Hin & H)]%elem_of_revisions; [done|].
  rewrite Forall_forall in specs_ok. destruct (specs_ok _ Hin) as (Hw & _ & Hrc).
  destruct H as [[_ ->]|(rc & E & ->)]; (apply word_app; [|by repeat constructor]); [done|]. by apply Hrc.
Qed.

(** The revisions asked for in the second batch. *)
Definition asks (specs : list RevertSpec) (x : str) : Prop :=
  ∃ spec p, spec ∈ specs ∧ given (reverted_commit spec) = None ∧ revert_parent rev spec = Some p ∧ x = caret1 p.

Lemma asks_snoc l spec x :
  asks (l ++ [spec]) x ↔
  asks l x ∨ (given (reverted_commit spec) = None ∧ ∃ p, revert_parent rev spec = Some p ∧ x = caret1 p).
Proof.
  unfold asks. split.
  - intros (sp & q & [?| ->%list_elem_of_singleton]%elem_of_app & H1 & H2 & ->); [left|right]; eauto 7.
  - intros [(sp & q & ? & H1 & H2 & ->)|(H1 & p & H2 & ->)]; do 2 eexists; (split; [apply elem_of_app|eauto]).
    + by left.
    + right. left.
Qed.

Lemma fold_resolve :
  ∃ leg, foldl (Revert.resolve_spec (batch_rev_parse_verify revgit (foldl revisions_of [] specs))) ([], []) specs =
           (omap half_resolved specs, leg) ∧
    ∀ x, x ∈ leg ↔ asks specs x.
Proof.
  set (revs := batch_rev_parse_verify _ _).
  assert (∀ spec, spec ∈ specs → parent_of revs spec = default [] (revert_parent rev spec) ∧
    ∀ rc, given (reverted_commit spec) = Some rc → revs !! caret1 rc = rev (caret1 rc)) as Hrevs.
  { intros spec Hin. unfold parent_of, revert_parent. split.
    - destruct (given (spec_parent spec)) eqn:E; [done|]. unfold revs. erewrite batch_spec; [done| |apply first_revisions_word|].
      + done.
      + apply elem_of_revisions. right. exists spec. auto.
    - intros rc E. unfold revs. erewrite batch_spec; [done| |apply first_revisions_word|].
      + done.
      + apply elem_of_revisions. right. exists spec. eauto. }
  clearbody revs. rewrite Forall_forall in specs_ok.
  induction specs as [|spec l IH] using rev_ind.
  { exists []. split; [done|]. intros x. split; [by intros ?%not_elem_of_nil|]. intros (? & ? & ?%not_elem_of_nil & _). done. }
  destruct IH as (leg & Hf & Hleg).
  { intros x Hx. apply specs_ok, elem_of_app. by left. }
  { intros x Hx. apply Hrevs, elem_of_app. by left. }
  rewrite foldl_app, omap_app. cbn [foldl]. rewrite Hf. clear Hf. unfold Revert.resolve_spec.
  assert (spec ∈ l ++ [spec]) as Hin by (apply elem_of_app; right; left).
  destruct (Hrevs spec Hin) as [-> Hrc]. cbn [omap list_omap]. unfold half_resolved.
  destruct (revert_parent rev spec) as [p|] eqn:Ep; cbn [default from_option Datatypes.id fmap option_fmap option_map].
  - rewrite bool_decide_false by (by destruct (revert_parent_word _ _ (specs_ok _ Hin) Ep)).
    destruct (given (reverted_commit spec)) as [rc|] eqn:Er; cbn [fst snd].
    + rewrite (Hrc rc) by done. eexists. split; [done|]. intros x. rewrite Hleg, asks_snoc, Er.
      split; [by left|]. by intros [?|[? _]].
    + eexists. split; [done|]. intros x. rewrite elem_of_push_unique, Hleg, asks_snoc, Er, Ep. f_equiv.
      split; [intros ->; eauto|]. by intros (_ & q & [= <-] & ->).
  - rewrite bool_decide_true by done. rewrite app_nil_r. eexists. split; [done|]. intros x. rewrite Hleg, asks_snoc, Ep.
    split; [by left|]. by intros [?|(_ & q & ? & _)].
Qed.

Lemma fill_legacy_empty revs sha p :
  p ≠ [] → fill_legacy revs (mkResolved sha p [] []) = mkResolved sha p (default [] (revs !! caret1 p)) [p].
Proof.
  intros Hp. unfold fill_legacy, legacy_revert_metric_original_sha. cbn [source_base_sha r_original_shas r_parent_sha r_revert_commit].
  repeat case_bool_decide; done.
Qed.

Lemma resolve_specs_spec : resolve_specs revgit specs = omap resolved_of specs.
Proof.
  unfold resolve_specs. destruct fold_resolve as (leg & -> & Hleg). rewrite Forall_forall in specs_ok.
  assert (Forall word leg) as Hw.
  { apply Forall_forall. intros x (spec & p & Hin & _ & Ep & ->)%Hleg.
    apply word_app; [eapply revert_parent_word; [by apply specs_ok|done]|by repeat constructor]. }
  assert (∀ spec, spec ∈ specs → ∀ r, half_resolved spec = Some r →
    let r' := if bool_decide (leg = []) then r else fill_legacy (batch_rev_parse_verify revgit leg) r in
    resolved_of spec = if bool_decide (source_base_sha r' = []) then None else Some r') as Hone.
  { intros spec Hin r. unfold half_resolved, resolved_of, revert_base.
    destruct (revert_parent rev spec) as [p|] eqn:Ep; [|done]. cbn [mbind option_bind fmap option_fmap option_map].
    pose proof (revert_parent_word _ _ (specs_ok _ Hin) Ep) as [Hpn _].
    destruct (given (reverted_commit spec)) as [rc|] eqn:Er; intros [= <-]; cbn [default from_option Datatypes.id].
    - destruct (specs_ok _ Hin) as (_ & _ & Hrc). destruct (Hrc rc Er) as [_ [b Eb]]. rewrite Eb.
      cbn [default from_option Datatypes.id]. pose proof (rev_word _ _ Eb) as [Hbn _].
      assert ((if bool_decide (leg = []) then mkResolved (revert_commit spec) p b [rc]
        else fill_legacy (batch_rev_parse_verify revgit leg) (mkResolved (revert_commit spec) p b [rc])) =
        mkResolved (revert_commit spec) p b [rc]) as ->.
      { unfold fill_legacy. cbn [source_base_sha]. rewrite (bool_decide_false (b = [])) by done. by case_bool_decide. }
      cbn [source_base_sha]. by rewrite bool_decide_false.
    - assert (caret1 p ∈ leg) as Hcp by (apply Hleg; exists spec, p; done).
      rewrite (bool_decide_false (leg = [])) by (intros ->; by apply not_elem_of_nil in Hcp).
      rewrite fill_legacy_empty by done.
      rewrite (batch_spec _ _ _ git_resolves Hw _ Hcp). cbn [source_base_sha].
      destruct (rev (caret1 p)) as [b|] eqn:Eb; cbn [default from_option Datatypes.id].
      + rewrite bool_decide_false; [done|]. by destruct (rev_word _ _ Eb).
      + by rewrite bool_decide_true. }
  assert (∀ spec, half_resolved spec = None → resolved_of spec = None) as Hnone.
  { intros spec. unfold half_resolved, resolved_of. by destruct (revert_parent rev spec). }
  assert (∀ l, (∀ spec, spec ∈ l → spec ∈ specs) →
    List.filter (λ r, negb (bool_decide (source_base_sha r = [])))
      (map (λ r, if bool_decide (leg = []) then r else fill_legacy (batch_rev_parse_verify revgit leg) r) (omap half_resolved l)) =
    omap resolved_of l) as Hall.
  { induction l as [|spec l IH]; intros Hsub; [done|]. cbn [omap list_omap].
    assert (IH' := IH (λ x Hx, Hsub x (list_elem_of_further x spec l Hx))). clear IH. cbv zeta in Hone.
    destruct (half_resolved spec) as [r|] eqn:E; [|by rewrite Hnone]. cbn [map List.filter].
    rewrite (Hone spec (Hsub spec ltac:(left)) r E), <-IH'. match goal with |- context [if bool_decide (?x = []) then None else _] => by destruct (bool_decide (x = [])) end. }
  rewrite <-(Hall specs) by done. f_equal. case_bool_decide; [|done]. by rewrite map_id.
Qed.
End Specs.

(** *** Clipping *)

Lemma clip_entries_cover target es h n :
  Forall is_u32 target →
  entries_cover (omap (clip_entry target) es) h n ↔ entries_cover es h n ∧ n ∈ target.
Proof.
  intros Hu. unfold entries_cover.
  assert (∀ e, (∃ e', clip_entry target e = Some e' ∧ hash e' = h ∧ contains_any (line_ranges e') n = true) ↔
    hash e = h ∧ contains_any (line_ranges e) n = true ∧ n ∈ target) as He.
  { intros e. unfold clip_entry. set (ls := List.filter _ _).
    assert (∀ x, x ∈ ls ↔ contains_any (line_ranges e) x = true ∧ x ∈ target) as Hls.
    { intros x. unfold ls. by rewrite elem_of_filter_b, elem_of_flat_expand, bool_decide_eq_true. }
    assert (∀ x, contains_any (compress_lines (dedup Z.eqb (sort_by Z.leb ls))) x = true ↔ x ∈ ls) as Hc.
    { intros x. rewrite contains_any_compress; [apply elem_of_sort_dedup| |apply sort_dedup_lt].
      apply Forall_forall. intros y Hy%elem_of_sort_dedup%Hls. rewrite Forall_forall in Hu. by apply Hu, Hy. }
    case_bool_decide as Hn.
    - split; [by intros (e' & ? & _)|]. intros (_ & H). apply Hls in H. rewrite Hn in H. by apply not_elem_of_nil in H.
    - split.
      + intros (e' & [= <-] & Hh & H). cbn [hash line_ranges] in Hh, H. apply Hc, Hls in H. naive_solver.
      + intros (Hh & H). eexists. split; [done|]. cbn [hash line_ranges]. split; [done|]. by apply Hc, Hls. }
  split.
  - intros (e' & (e & Hin & E)%list_elem_of_omap & H). destruct (He e) as [(Hh & Hc & Ht) _]; eauto 6.
  - intros ((e & Hin & Hh & Hc) & Ht). destruct (He e) as [_ (e' & E & H)]; [done|].
    exists e'. split; [|done]. apply list_elem_of_omap. eauto.
Qed.

Lemma clip_files_cover (added : gmap str (list Z)) fs file h n :
  map_Forall (λ _ ls, Forall is_u32 ls) added →
  files_cover (omap (λ f, clip_file_attestation_to_lines f added) fs) file h n ↔
  files_cover fs file h n ∧ n ∈ default [] (added !! file).
Proof.
  intros Hu. unfold files_cover.
  assert (∀ f, (∃ f', clip_file_attestation_to_lines f added = Some f' ∧ file_path f' = file ∧ entries_cover (entries f') h n) ↔
    file_path f = file ∧ entries_cover (entries f) h n ∧ n ∈ default [] (added !! file)) as Hf.
  { intros f. unfold clip_file_attestation_to_lines. destruct (added !! file_path f) as [target|] eqn:E.
    2:{ split; [by intros (? & ? & _)|]. intros (<- & _ & H). rewrite E in H. by apply not_elem_of_nil in H. }
    pose proof (clip_entries_cover target (entries f) h n (Hu _ _ E)) as Hc. case_bool_decide as Hn.
    - split; [by intros (? & ? & _)|]. intros (<- & H & Hin). rewrite E in Hin. cbn in Hin.
      assert (entries_cover [] h n) as Hnil by (rewrite <-Hn; by apply Hc). by apply entries_cover_nil in Hnil.
    - split.
      + intros (f' & [= <-] & <- & H). cbn in *. rewrite E. cbn. by rewrite Hc in H.
      + intros (<- & H & Hin). rewrite E in Hin. eexists. split; [done|]. split; [done|]. cbn. by apply Hc. }
  split.
  - intros (f' & (f & Hin & E)%list_elem_of_omap & Hp & H). destruct (Hf f) as [(? & ? & ?) _]; eauto 6.
  - intros ((f & Hin & Hp & H) & Ht). destruct (Hf f) as [_ (f' & E & ?)]; [done|].
    exists f'. split; [|done]. apply list_elem_of_omap. eauto.
Qed.

Lemma clip_nonempty (added : gmap str (list Z)) fs :
  omap (λ f, clip_file_attestation_to_lines f added) fs ≠ [] →
  map_Forall (λ _ ls, Forall is_u32 ls) added →
  ∃ file h n, files_cover (omap (λ f, clip_file_attestation_to_lines f added) fs) file h n.
Proof.
  intros Hne Hu. destruct (omap _ fs) as [|f' l] eqn:E; [done|]. clear Hne.
  assert (f' ∈ omap (λ f, clip_file_attestation_to_lines f added) fs) as Hin by (rewrite E; left).
  apply list_elem_of_omap in Hin as (f & _ & Hf). unfold clip_file_attestation_to_lines in Hf.
  destruct (added !! file_path f) as [target|] eqn:Ea; [|done]. case_bool_decide as Hn; [done|]. injection Hf as <-.
  destruct (omap (clip_entry target) (entries f)) as [|e' es] eqn:Ee; [done|].
  assert (e' ∈ omap (clip_entry target) (entries f)) as He by (rewrite Ee; left).
  apply list_elem_of_omap in He as (e & _ & He). unfold clip_entry in He. set (ls := List.filter _ _) in He.
  case_bool_decide as Hls; [done|]. injection He as <-. destruct ls as [|n ls'] eqn:El; [done|].
  assert (Forall is_u32 (n :: ls')) as Hn'.
  { apply Forall_forall. intros x Hx. rewrite <-El in Hx. apply elem_of_filter_b in Hx as [_ Hx%bool_decide_eq_true].
    specialize (Hu _ _ Ea). rewrite Forall_forall in Hu. by apply Hu. }
  exists (file_path f), (hash e), n. eexists. split; [left|]. split; [done|]. eexists. split; [left|]. split; [done|]. cbn [line_ranges].
  rewrite contains_any_compress; [apply elem_of_sort_dedup; left| |apply sort_dedup_lt].
  apply Forall_forall. intros x Hx. rewrite elem_of_sort_dedup in Hx. rewrite Forall_forall in Hn'. by apply Hn'.
Qed.

(** *** Added lines *)

Lemma elem_of_hunk_lines hp n :
  hunk_ok hp → n ∈ added_hunk_lines (hp_range hp) ↔ new_start (hp_range hp) <= n < new_start (hp_range hp) + new_count (hp_range hp) ∧ 0 < n.
Proof.
  intros (_ & Hs & _ & Hc & _ & Hb & _). unfold added_hunk_lines. rewrite elem_of_filter_b, elem_of_seqZ, Z.ltb_lt.
  unfold is_u32 in Hs. rewrite u32_add_small by (unfold is_u32; lia). lia.
Qed.

Section Added.
Variables (tree : str → str) (patch : str → str → list TreeFile).

Lemma added_lines_spec p d :
  Forall tree_file_ok (tree_patch tree patch p) → reports (tree_patch tree patch p) d →
  (∀ file n, n ∈ default [] (added_lines_from_diff_result d !! file) ↔ adds_line tree patch p file n) ∧
  map_Forall (λ _ ls, Forall is_u32 ls) (added_lines_from_diff_result d) ∧
  (added_lines_from_diff_result d = ∅ → ∀ file n, ¬ adds_line tree patch p file n).
Proof.
  intros Hok Hr.
  assert (∀ file, Forall hunk_ok (hunks_of (tree_patch tree patch p) file)) as Hhp.
  { intros file. unfold hunks_of. apply Forall_forall. intros hp (tf & Htf & Hin)%elem_of_flat_map.
    case_bool_decide; [|by apply not_elem_of_nil in Hin]. rewrite Forall_forall in Hok.
    destruct (Hok _ Htf) as (_ & _ & _ & _ & Hf). rewrite Forall_forall in Hf. by apply Hf. }
  assert (∀ file n, n ∈ default [] (added_lines_from_diff_result d !! file) ↔ adds_line tree patch p file n) as Hadd.
  { intros file n. unfold added_lines_from_diff_result. rewrite lookup_omap.
    assert (n ∈ flat_map added_hunk_lines (file_hunks d file) ↔ adds_line tree patch p file n) as Hflat.
    { rewrite (reports_hunks _ _ _ Hr), elem_of_flat_map. unfold adds_line. specialize (Hhp file).
      rewrite Forall_forall in Hhp. split.
      - intros (x & (hp & Hin & ->)%elem_of_list_map & Hn). exists hp. split; [done|]. apply elem_of_hunk_lines; [by apply Hhp|done].
      - intros (hp & Hin & Hn). exists (hp_range hp). split; [apply elem_of_list_map; eauto|].
        by apply elem_of_hunk_lines; [apply Hhp|]. }
    rewrite <-Hflat. unfold file_hunks. destruct (hunks_by_file d !! file) as [hs|]; cbn; [|done].
    case_bool_decide as Hn; [|done]. by rewrite Hn. }
  split; [done|]. split.
  - intros file ls Hls. apply Forall_forall. intros n Hn. destruct (Hadd file n) as [(hp & Hin & Hr' & Hp) _]; [by rewrite Hls|].
    specialize (Hhp file). rewrite Forall_forall in Hhp. destruct (Hhp _ Hin) as (_ & _ & _ & _ & _ & Hb & _). unfold is_u32. lia.
  - intros E file n Hn%Hadd. rewrite E, lookup_empty in Hn. by apply not_elem_of_nil in Hn.
Qed.

(** The log of one revert. *)
Lemma reverted_log_spec log b p revert shift added :
  Forall tree_file_ok (tree_patch tree patch (p, revert)) →
  reports (tree_patch tree patch (b, revert)) shift → reports (tree_patch tree patch (p, revert)) added →
  patch_fits tree patch (b, revert) log →
  let lines_back file h n := (∃ f0 o, covers log f0 h o ∧ moves_line tree patch (b, revert) f0 o file n) ∧
                             adds_line tree patch (p, revert) file n in
  match reverted_log log shift added revert with
  | None => ∀ file h n, ¬ lines_back file h n
  | Some log' => (∃ file h n, lines_back file h n) ∧ (∀ file h n, covers log' file h n ↔ lines_back file h n) ∧
      metadata log' = ConflictResolution.set_base_commit (metadata log) revert
  end.
Proof.
  intros Hok Hs Ha Hfit lines_back. destruct (added_lines_spec _ _ Hok Ha) as (Hadd & Hu & Hempty).
  unfold reverted_log. set (fs := shift_attestations shift (attestations log)).
  assert (∀ file h n, files_cover (omap (λ f, clip_file_attestation_to_lines f (added_lines_from_diff_result added)) fs) file h n ↔
    lines_back file h n) as Hcov.
  { intros file h n. rewrite clip_files_cover, Hadd by done. unfold lines_back. f_equiv.
    apply (shifted_covers tree patch (b, revert) log shift file h n Hs Hfit). }
  case_bool_decide as He.
  { intros file h n [_ H]. by eapply Hempty. }
  case_bool_decide as Hn.
  - intros file h n H%Hcov. rewrite Hn in H. by apply files_cover_nil in H.
  - split; [|done]. destruct (clip_nonempty _ _ Hn Hu) as (file & h & n & H). exists file, h, n. by apply Hcov.
Qed.
End Added.

(** *** Reconstruction *)

Lemma elem_of_dedup_str l x : x ∈ l → x ∈ dedup str_eqb l.
Proof.
  destruct l as [|y l]; [done|]. cbn [dedup].
  enough (∀ l prev, x ∈ l → x ∈ prev :: dedup_from str_eqb prev l) as H.
  { intros [->|Hx]%elem_of_cons; [left|by apply H]. }
  clear. induction l as [|z l IH]; intros prev Hx; [by apply not_elem_of_nil in Hx|]. cbn [dedup_from].
  apply elem_of_cons in Hx as [->|Hx].
  - destruct (str_eqb prev z) eqn:E; [apply str_eqb_eq in E as ->; left|right; left].
  - destruct (str_eqb prev z) eqn:E; [by apply IH|]. right. by apply IH.
Qed.

(** The indices of a commit's pairs. *)
Definition planned (notes : gmap str str) (diff_pairs : list (str * str)) (r : Resolved) (idx : option nat * nat) : Prop :=
  diff_pairs !! idx.2 = Some (r_parent_sha r, r_revert_commit r) ∧
  match idx.1 with
  | Some i => diff_pairs !! i = Some (source_base_sha r, r_revert_commit r)
  | None => notes !! source_base_sha r = None
  end.

Lemma planned_app notes pairs more r idx : planned notes pairs r idx → planned notes (pairs ++ more) r idx.
Proof.
  intros [H1 H2]. split; [by apply lookup_app_l_Some|]. destruct idx.1; [by apply lookup_app_l_Some|done].
Qed.

Lemma request_diffs_spec notes rs :
  ∃ pairs idx, foldl (request_diffs notes) ([], []) rs = (pairs, idx) ∧ Forall2 (planned notes pairs) rs idx.
Proof.
  induction rs as [|r rs IH] using rev_ind; [by exists [], []|]. destruct IH as (pairs & idx & E & Hp).
  rewrite foldl_app, E. cbn [foldl]. unfold request_diffs.
  assert (∀ more, Forall2 (planned notes (pairs ++ more)) rs idx) as Hp'.
  { intros more. eapply Forall2_impl; [exact Hp|]. intros. by apply planned_app. }
  destruct (notes !! source_base_sha r) as [note|] eqn:En; eexists _, _; (split; [done|]); apply Forall2_app.
  - rewrite <-app_assoc. apply Hp'.
  - repeat constructor; cbn [fst snd]; [by rewrite lookup_app_r, Nat.sub_diag by done|].
    rewrite <-app_assoc. by rewrite lookup_app_r, Nat.sub_diag by done.
  - apply Hp'.
  - repeat constructor; cbn [fst snd]; [by rewrite lookup_app_r, Nat.sub_diag by done|done].
Qed.

Section Reconstruct.
Variable to_string_pretty : AuthorshipMetadata → option str.
Variable from_str : str → option AuthorshipMetadata.
Variables (git : Git) (revgit : RevGit) (notes : gmap str str) (tree : str → str) (patch : str → str → list TreeFile).
Variable rev : str → option str.
Hypothesis git_answers : answers git notes tree patch.
Hypothesis notes_readable : ∀ sha raw, notes !! sha = Some raw → NoteFormat.deserialize_from_string from_str raw ≠ Panic.
Hypothesis writable : ∀ md, is_Some (to_string_pretty md).

Lemma batch_diffs_spec pairs :
  ∃ rs, compute_diff_trees_batch git pairs = Ret rs ∧ Forall2 reports (map (tree_patch tree patch) pairs) rs.
Proof.
  unfold compute_diff_trees_batch. case_bool_decide as Hnil; [exists []; subst; by split; [|constructor]|].
  destruct (RewriteSteps.resolve_spec git notes tree patch git_answers (unique_pair_shas pairs)) as (m & -> & Hm). cbn [obind].
  destruct (diffs_spec git notes tree patch git_answers pairs m) as (stdin & output & rs & -> & Ho & Hrs & Hr).
  { intros p Hin. split; apply Hm, elem_of_unique_pair_shas; exists p; auto. }
  cbn [obind]. unfold compute_diff_tree_stdin. rewrite Ho. cbn [obind]. rewrite Hrs. eauto.
Qed.

Definition fits (spec : RevertSpec) : Prop :=
  ∀ b slog, revert_base rev spec = Some b → note_log from_str notes b = Some slog →
    patch_fits tree patch (b, revert_commit spec) slog.

(** What is made of one spec. *)
Definition made (spec : RevertSpec) (out : option AuthorshipLog) (one : option ((str * str) * RewriteMetrics.RewriteMetricCommit)) : Prop :=
  reverted from_str notes tree patch rev spec out ∧
  fst <$> one = (λ log, (revert_commit spec, note_text to_string_pretty log)) <$> out ∧
  ∀ x, one = Some x → RewriteMetrics.metric_new_sha x.2 = x.1.1 ∧ RewriteMetrics.authorship_note x.2 = Some x.1.2.

Lemma metric_of_note r note added :
  RewriteMetrics.metric_new_sha (metric_of r note added) = r_revert_commit r ∧
  RewriteMetrics.authorship_note (metric_of r note added) = Some note.
Proof.
  unfold metric_of, RewriteMetrics.with_parent_sha. by destruct (bool_decide _).
Qed.

Lemma reconstruct_one_spec notes_map pairs results spec r idx :
  notes_map !! source_base_sha r = notes !! source_base_sha r → fits spec →
  resolved_of rev spec = Some r → planned notes_map pairs r idx →
  Forall2 reports (map (tree_patch tree patch) pairs) results →
  ∃ one out, reconstruct_one to_string_pretty from_str notes_map results r idx = Ret one ∧ made spec out one.
Proof.
  intros Hm Hfit Hr [Hadd Hshift] Hres. unfold resolved_of in Hr.
  destruct (revert_parent rev spec) as [p|] eqn:Ep; [|done]. destruct (revert_base rev spec) as [b|] eqn:Eb; [|done].
  injection Hr as <-. cbn [source_base_sha r_parent_sha r_revert_commit] in *.
  assert (∀ i q, pairs !! i = Some q → ∃ d, results !! i = Some d ∧ reports (tree_patch tree patch q) d) as Hlook.
  { intros i q Hi. destruct (Forall2_lookup_l _ _ _ i (tree_patch tree patch q) Hres) as (d & Hd & Hrep); [|eauto].
    rewrite list_lookup_fmap. by rewrite Hi. }
  unfold reconstruct_one. cbn [source_base_sha r_revert_commit]. rewrite Hm.
  assert (note_log from_str notes b = None → made spec None None) as Hnone.
  { intros Hn. split; [|done]. intros file h n (p' & b' & slog & f0 & o & _ & E & Hs & _). congruence. }
  destruct (notes !! b) as [raw|] eqn:Eraw.
  2:{ exists None, None. split; [by destruct idx.1|]. apply Hnone. unfold note_log. by rewrite Eraw. }
  destruct idx.1 as [i|]; [|congruence].
  pose proof (notes_readable _ _ Eraw) as Hpanic.
  destruct (NoteFormat.deserialize_from_string from_str raw) as [log|e|] eqn:Elog; [| |done].
  2:{ exists None, None. split; [done|]. apply Hnone. unfold note_log. by rewrite Eraw, Elog. }
  assert (note_log from_str notes b = Some log) as Hlog by (unfold note_log; by rewrite Eraw, Elog).
  destruct (Hlook _ _ Hadd) as (added & -> & Hra). destruct (Hlook _ _ Hshift) as (shift & -> & Hrs).
  pose proof (reverted_log_spec tree patch log b p (revert_commit spec) shift added) as Hspec. cbv zeta in Hspec.
  specialize (Hspec ltac:(apply (patches_valid _ _ _ _ git_answers)) Hrs Hra (Hfit _ _ Eb Hlog)).
  assert (∀ file h n, brought_back from_str notes tree patch rev spec file h n ↔
    (∃ f0 o, covers log f0 h o ∧ moves_line tree patch (b, revert_commit spec) f0 o file n) ∧
    adds_line tree patch (p, revert_commit spec) file n) as Hback.
  { intros file h n. unfold brought_back. split.
    - intros (p' & b' & slog & f0 & o & E1 & E2 & E3 & Hc & Hmv & Ha). split; [|by simplify_eq].
      exists f0, o. by simplify_eq.
    - intros ((f0 & o & Hc & Hmv) & Ha). exists p, b, log, f0, o. done. }
  destruct (reverted_log log shift added (revert_commit spec)) as [log'|].
  - destruct Hspec as (Hex & Hcov & Hmd).
    assert (∃ text, NoteFormat.serialize_to_string to_string_pretty log' = Some text) as [text Etext].
    { unfold NoteFormat.serialize_to_string. destruct (writable (metadata log')) as [t ->]. by eexists. }
    rewrite Etext. eexists _, (Some log'). split; [done|]. split; [|split].
    + split; [|split].
      * destruct Hex as (file & h & n & H). exists file, h, n. by apply Hback.
      * intros file h n. rewrite Hback. apply Hcov.
      * exists b, log. done.
    + cbn. unfold note_text. by rewrite Etext.
    + intros x [= <-]. cbn [fst snd]. apply metric_of_note.
  - exists None, None. split; [done|]. split; [|done]. intros file h n H%Hback. by eapply Hspec.
Qed.

Lemma loop_spec notes_map pairs results specs idxs :
  Forall fits specs → Forall2 (planned notes_map pairs) (omap (resolved_of rev) specs) idxs →
  (∀ r, r ∈ omap (resolved_of rev) specs → notes_map !! source_base_sha r = notes !! source_base_sha r) →
  Forall2 reports (map (tree_patch tree patch) pairs) results →
  ∃ ones outs, reconstruct_loop to_string_pretty from_str notes_map results (combine (omap (resolved_of rev) specs) idxs) = Ret ones ∧
    Forall2 (reverted from_str notes tree patch rev) specs outs ∧
    map fst ones = omap (λ sl, (λ log, (revert_commit sl.1, note_text to_string_pretty log)) <$> sl.2) (combine specs outs) ∧
    Forall (λ x, RewriteMetrics.metric_new_sha x.2 = x.1.1 ∧ RewriteMetrics.authorship_note x.2 = Some x.1.2) ones.
Proof.
  intros Hfits Hp Hm Hres. revert idxs Hp. induction Hfits as [|spec specs Hfit _ IH]; intros idxs Hp.
  { cbn in *. inversion Hp. exists [], []. by repeat constructor. }
  cbn [omap list_omap] in *. destruct (resolved_of rev spec) as [r|] eqn:Er.
  - inversion Hp as [|r' idx rs' idxs' Hidx Hp' E1 E2]; subst. cbn [combine reconstruct_loop].
    destruct (reconstruct_one_spec notes_map pairs results spec r idx) as (one & out & -> & Hmade); [apply Hm; left|done..|].
    cbn [obind]. destruct (IH (λ x Hx, Hm x (list_elem_of_further x r _ Hx)) idxs' Hp') as (ones & outs & -> & Ho & Hf & Hn).
    cbn [obind]. destruct Hmade as (Hr & Hw & Hx). exists (option_list one ++ ones), (out :: outs). split; [done|].
    split; [by constructor|]. cbn [combine omap list_omap fst snd]. split.
    + rewrite map_app, Hf. rewrite <-Hw. by destruct one.
    + apply Forall_app. split; [|done]. destruct one as [x|]; [|constructor]. constructor; [by apply Hx|constructor].
  - destruct (IH Hm idxs Hp) as (ones & outs & E & Ho & Hf & Hn). exists ones, (None :: outs). split; [done|].
    split; [|done]. constructor; [|done]. intros file h n (p & b & slog & f0 & o & E1 & E2 & _).
    unfold resolved_of in Er. by rewrite E1, E2 in Er.
Qed.

Lemma reconstruct_spec specs :
  Forall fits specs →
  ∃ ones outs, reconstruct to_string_pretty from_str git (omap (resolved_of rev) specs) = Ret ones ∧
    Forall2 (reverted from_str notes tree patch rev) specs outs ∧
    map fst ones = omap (λ sl, (λ log, (revert_commit sl.1, note_text to_string_pretty log)) <$> sl.2) (combine specs outs) ∧
    Forall (λ x, RewriteMetrics.metric_new_sha x.2 = x.1.1 ∧ RewriteMetrics.authorship_note x.2 = Some x.1.2) ones.
Proof.
  intros Hfits. unfold reconstruct. set (rs := omap (resolved_of rev) specs).
  destruct (reads_notes _ _ _ _ git_answers (dedup str_eqb (sort_by str_le (map source_base_sha rs)))) as (m & -> & Hm).
  cbn [obind]. destruct (request_diffs_spec m rs) as (pairs & idxs & -> & Hp).
  destruct (batch_diffs_spec pairs) as (results & -> & Hres). cbn [obind].
  eapply loop_spec; [done|done| |done]. intros r Hr. apply Hm, elem_of_dedup_str, elem_of_sort_by, elem_of_list_map. eauto.
Qed.
End Reconstruct.

End RevertFacts.

(** ** Properties *)

Module RevertProps.
Import LineRange AuthorshipLog HunkShift HashIter PatchText FastReaderRef.
Import DiffTree(is_valid_git_oid).
Import DiffCompute(result).
Import DiffTreeText Rewrite RewriteSpec RewriteSteps Revert RevertRef RevertFacts.

(** C4: the notes of reverts.  With git answering, readable notes and patches
    they fit, handling any number of reverts succeeds.  A revert gets a note
    exactly when some line was brought back to it: a line that the note before
    the reverted commit attests, moved to the revert by the patch between the
    two trees, and added by the revert to its own parent.  The note attests
    exactly these lines, with the keys and records of that earlier note, and
    the metrics report the notes. *)
Theorem reverts_bring_lines_back (to_string_pretty : AuthorshipMetadata → option str)
    (from_str : str → option AuthorshipMetadata) (collect_metrics : bool)
    (git : Git) (revgit : RevGit) (notes : gmap str str) (tree : str → str) (patch : str → str → list TreeFile)
    (rev : str → option str) (specs : list RevertSpec)
    (git_answers : answers git notes tree patch) (git_resolves : resolves revgit rev)
    (notes_readable : ∀ sha raw, notes !! sha = Some raw → NoteFormat.deserialize_from_string from_str raw ≠ Panic)
    (writable : ∀ md, is_Some (to_string_pretty md))
    (specs_ok : Forall (spec_ok rev) specs)
    (notes_fit : ∀ spec b slog, spec ∈ specs → revert_base rev spec = Some b → note_log from_str notes b = Some slog →
       patch_fits tree patch (b, revert_commit spec) slog) :
  ∃ logs done_ metrics,
    Forall2 (reverted from_str notes tree patch rev) specs logs ∧
    reconstruct to_string_pretty from_str git (resolve_specs revgit specs) = Ret done_ ∧
    map fst done_ =
      omap (λ sl, (λ log, (revert_commit sl.1, note_text to_string_pretty log)) <$> sl.2) (combine specs logs) ∧
    handle_revert_commits_with_metrics to_string_pretty from_str collect_metrics git revgit specs = Ret metrics ∧
    map (λ m, (RewriteMetrics.metric_new_sha m, RewriteMetrics.authorship_note m)) metrics =
      if collect_metrics then map (λ w, (w.1, Some w.2)) (map fst done_) else [].
Proof.
  rewrite (resolve_specs_spec revgit rev specs) by done.
  destruct (reconstruct_spec to_string_pretty from_str git notes tree patch rev git_answers notes_readable writable specs)
    as (ones & outs & Hone & Hrev & Hw & Hmet).
  { apply Forall_forall. intros spec Hin b slog. by apply notes_fit. }
  assert (handle_revert_commits_with_metrics to_string_pretty from_str collect_metrics git revgit specs =
    Ret (if collect_metrics then map snd ones else [])) as Hh.
  { unfold handle_revert_commits_with_metrics. rewrite (resolve_specs_spec revgit rev specs) by done.
    assert (omap (resolved_of rev) specs = [] → ones = []) as Hnil.
    { intros E. unfold reconstruct in Hone. rewrite E in Hone.
      destruct (reads_notes _ _ _ _ git_answers (dedup str_eqb (sort_by str_le (map source_base_sha [])))) as (m & Hm & _).
      rewrite Hm in Hone. cbn in Hone. by injection Hone as <-. }
    case_bool_decide as H1; [subst specs; rewrite (Hnil eq_refl); by destruct collect_metrics|].
    case_bool_decide as H2; [rewrite (Hnil H2); by destruct collect_metrics|].
    rewrite Hone. cbn [obind]. destruct (bool_decide _); [done|]. by rewrite (writes_notes _ _ _ _ git_answers). }
  exists outs, ones, (if collect_metrics then map snd ones else []). split_and!; [done..|].
  destruct collect_metrics; [|done]. rewrite !map_map. apply map_ext_in. intros x Hx%list_elem_of_In.
  rewrite Forall_forall in Hmet. by destruct (Hmet x Hx) as [-> ->].
Qed.

(** *** Witness *)

Definition answering_revgit (rev : str → option str) : RevGit := {|
  rev_parse_verify := λ revspecs,
    match revspecs with
    | [s] => match rev s with Some oid => Ret (render_lines [oid]) | None => Fail (lit "fatal: Needed a single revision") end
    | _ => Fail (lit "fatal: Needed a single revision")
    end;
  cat_file_batch_check := λ stdin,
    Ret (render_lines (map (λ s, match rev s with Some oid => oid ++ lit " commit " ++ lit "300" | None => s ++ lit " missing" end) (lines stdin)))
|}.

Lemma answering_revgit_resolves rev :
  (∀ s oid, rev s = Some oid → is_valid_git_oid oid = true) → resolves (answering_revgit rev) rev.
Proof.
  intros Hv. split; [done|..]; cbn.
  - by intros s oid _ ->.
  - intros s _ ->. eauto.
  - intros [|s [|? ?]] Hlen; eauto. by simpl in Hlen.
  - exists (λ _, lit "300"). split; [by repeat constructor|]. intros revspecs Hw. do 3 f_equal. rewrite PatchParseFacts.lines_render.
    + clear -Hw. induction Hw as [|x l Hx _ IH]; [done|]. cbn [map]. rewrite IH.
      by rewrite Text.strip_cr_id by by apply FastReaderFacts.word_no_break.
    + eapply Forall_impl; [exact Hw|]. intros x Hx. by apply FastReaderFacts.word_no_break.
Qed.

(** The commit r removed the second line of f, which its parent attests; a
    first line was added later, and t reverts r. *)
Definition oid := RewriteProps.RewriteProps.oid.
Definition sample_rev (s : str) : option str :=
  if str_eqb s (lit "t~1") then Some (oid "2") else if str_eqb s (lit "r^1") then Some (oid "1") else None.
Definition sample_tree (sha : str) : str :=
  if str_eqb sha (oid "1") then oid "a" else if str_eqb sha (oid "2") then oid "c" else oid "b".
Definition sample_file (hunk : DiffHunk) : list TreeFile :=
  [mkTreeFile (lit "a/f b/f") [] None [] [mkHunkPatch hunk (true, true) [] [] false [lit "line"] false]].
Definition patch_between (a b : str) : list TreeFile :=
  if str_eqb a (oid "a") && str_eqb b (oid "b") then sample_file (mkHunk 0 0 1 1)
  else if str_eqb a (oid "c") && str_eqb b (oid "b") then sample_file (mkHunk 1 0 2 1)
  else [].
Definition sample_notes : gmap str str :=
  {[oid "1" := lit "f" ++ [LF] ++ lit "  s_a 1-2" ++ [LF] ++ lit "---" ++ [LF] ++ lit "{}"]}.
Definition sample_spec : RevertSpec := mkSpec (lit "t") None (Some (lit "r")).
Definition sample_git : Git := answering_git sample_notes sample_tree patch_between.

Lemma revert_git_answers : answers sample_git sample_notes sample_tree patch_between.
Proof.
  apply answering_git_answers.
  - intros sha. unfold sample_tree. by repeat case_match.
  - intros a b. unfold patch_between. repeat case_match; [..|constructor]; repeat constructor; try (vm_compute; congruence);
      try (unfold hunk_ok, is_u32, u32_max; simpl; lia); try PatchParseProps.decide_lf; done.
Qed.

Abbreviation json := RewriteProps.RewriteProps.sample_json.
Abbreviation from_json := RewriteProps.RewriteProps.sample_from_json.
Definition sample_handled : result (list RewriteMetrics.RewriteMetricCommit) :=
  handle_revert_commits_with_metrics json from_json true sample_git (answering_revgit sample_rev) [sample_spec].
Definition sample_text : str := lit "f" ++ [LF] ++ lit "  s_a 2" ++ [LF] ++ lit "---" ++ [LF] ++ lit "{t}".

Lemma sample_handled_notes :
  (λ r, match r with
        | Ret ms => map (λ m, (RewriteMetrics.metric_new_sha m, RewriteMetrics.authorship_note m)) ms
        | _ => []
        end) sample_handled = [(lit "t", Some sample_text)].
Proof. vm_compute. reflexivity. Qed.

Lemma sample_notes_fit b slog :
  revert_base sample_rev sample_spec = Some b → note_log from_json sample_notes b = Some slog →
  patch_fits sample_tree patch_between (b, revert_commit sample_spec) slog.
Proof.
  intros Hb Hs. assert (b = oid "1") as -> by (vm_compute in Hb; by injection Hb).
  assert (slog = mkLog [mkFile (lit "f") [mkEntry (lit "s_a") [Range 1 2]]] RewriteProps.RewriteProps.sample_metadata) as ->.
  { vm_compute in Hs. by injection Hs. }
  assert (tree_patch sample_tree patch_between (oid "1", revert_commit sample_spec) = sample_file (mkHunk 0 0 1 1)) as E by reflexivity.
  unfold patch_fits. rewrite E. split.
  - intros path. unfold hunks_of. cbn [flat_map sample_file app]. case_bool_decide; cbn; unfold first_gone, old_next, is_u32, u32_max; cbn; lia.
  - constructor; [|constructor].
    match goal with |- entries_fit ?hs _ => assert (hs = [mkHunk 0 0 1 1]) as -> by reflexivity end.
    repeat constructor; cbn; unfold is_u32, u32_max; lia.
Qed.

Lemma reverts_bring_lines_back_witness :
  ∃ log metrics, reverted from_json sample_notes sample_tree patch_between sample_rev sample_spec log ∧
    sample_handled = Ret metrics ∧
    map (λ m, (RewriteMetrics.metric_new_sha m, RewriteMetrics.authorship_note m)) metrics = [(lit "t", Some sample_text)].
Proof.
  destruct (reverts_bring_lines_back json from_json true sample_git (answering_revgit sample_rev) sample_notes sample_tree
    patch_between sample_rev [sample_spec]) as (logs & done_ & metrics & Hr & _ & _ & Hh & _).
  - apply revert_git_answers.
  - apply answering_revgit_resolves. intros s oid'. unfold sample_rev. repeat case_match; by intros [= <-].
  - intros sha raw Hr. unfold sample_notes in Hr. apply lookup_singleton_Some in Hr as [_ <-]. vm_compute. discriminate.
  - intros md. by eexists.
  - constructor; [|constructor]. split_and!.
    + by repeat constructor.
    + done.
    + intros rc [= <-]. split; [by repeat constructor|]. by eexists.
  - intros spec b slog ->%list_elem_of_singleton. apply sample_notes_fit.
  - inversion Hr as [|? log ? ? Hlog]; subst. exists log, metrics. split; [exact Hlog|]. split; [exact Hh|].
    pose proof sample_handled_notes as E. unfold sample_handled in E. rewrite Hh in E. exact E.
Defined.

End RevertProps.
