(* ===== verification/RepoStorage.v ===== *)
(** * The storage of working logs

    src/src/git/repo_storage.rs: a directory per base commit holds the INITIAL
    file, the checkpoints and the file contents they refer to, by their hash.
    Any call of the operating system may fail, and what was done before stays:
    the state is the directories and the number of calls made so far.  A call
    that fails does nothing, but for the removal of a directory, which may leave
    any of its files, and a plain write, which may leave any part of the text;
    [Path::exists] reports no failure and answers [false].
    Messages are shortened. *)

From stdpp Require Import pretty.
From S2P Require Import Prelude Text AuthorshipLog Attribution WorkingLog DiffCompute HashIter PatchParse VirtualAttributions StateResult.

(** ** Definitions *)

Module RepoStorage.
Import AuthorshipLog Attribution WorkingLog HashIter VirtualAttributions StateResult.
Import DiffCompute(result).

Definition MAX_CHECKPOINTS_JSONL_BYTES : N := 1073741824.
Definition OLD_WORKING_LOG_RETENTION_SECS : N := 604800.

(** The files of a directory.  Temporary files, which have names of their own
    and are never read, are left out. *)
Record LogDir := mkDir {
  initial_file : option str;
  checkpoints_file : option str;
  blobs : option (gmap str str);
  archived_at : option str;
  metadata_json : option str;
  oversized : gmap str str
}.

Definition empty_dir : LogDir := mkDir None None None None None ∅.

(** A directory below [working_logs] or below [stashes_v2], by its name. *)
Abbreviation Dir := (str + str)%type.
Definition log_dir (sha : str) : Dir := inl sha.
Definition stash_dir (sha : str) : Dir := inr sha.

Record Storage := mkStorage {
  dirs : gmap Dir LogDir;
  calls : nat
}.

(** The world around: which system call fails, which file a failed removal
    leaves, how many bytes a failed write has written, the calls of [exists]
    whose stat fails, the clock, random names, the hash function, and the JSON of
    serde. *)
Class Environment := {
  fault : nat → option str;
  survives : nat → str → bool;
  written_bytes : nat → nat;
  unseen : nat → bool;
  now_secs : N;
  generate_v4 : nat → str;
  sha256_hex : str → str;
  checkpoint_to_json : Checkpoint → result str;
  checkpoint_of_json : str → result Checkpoint;
  initial_to_json : InitialAttributions → result str;
  initial_of_json : str → result InitialAttributions
}.

#[export] Instance LogDir_eq_dec : EqDecision LogDir.
Proof. solve_decision. Defined.

Section Storage.
Context `{env : Environment} `{order : HashOrder}.

Local Abbreviation M A := (StateResult.M Storage A).

(** ** System calls *)

(** One call that may fail. *)
Definition io : M unit := λ s,
  (mkStorage (dirs s) (S (calls s)), match fault (calls s) with Some e => Fail e | None => Ret tt end).

(** [let _ = ...]: a failure is ignored. *)
Definition ignore {A : Type} (m : M A) : M unit := λ s, match m s with (s', Panic) => (s', Panic) | (s', _) => (s', Ret tt) end.

(** [Path::exists]: a stat that fails says no. *)
Definition exists_ (there : Storage → bool) : M bool := λ s,
  (mkStorage (dirs s) (S (calls s)), Ret (negb (unseen (calls s)) && there s)).
Definition exists_dir (d : Dir) : M bool := exists_ (λ s, bool_decide (is_Some (dirs s !! d))).
Definition exists_in {A : Type} (d : Dir) (f : LogDir → option A) : M bool :=
  exists_ (λ s, bool_decide (is_Some (f (default empty_dir (dirs s !! d))))).

Definition the_dir (d : Dir) : M LogDir := gets (λ s, default empty_dir (dirs s !! d)).
Definition set_dirs (f : gmap Dir LogDir → gmap Dir LogDir) : M unit := modify (λ s, mkStorage (f (dirs s)) (calls s)).
Definition update_dir (d : Dir) (f : LogDir → LogDir) : M unit := set_dirs (alter f d).

Definition create_dir_all (d : Dir) : M unit :=
  do! _ := io in set_dirs (λ m, <[d := default empty_dir (m !! d)]> m).

(** What a removal leaves that failed on the way. *)
Definition left_blobs (kept : str → bool) (bs : gmap str str) : option (gmap str str) :=
  if kept (lit "blobs") then Some (filter (λ kv : str * str, kept (lit "blobs/" ++ kv.1) = true) bs) else None.
Definition left_file (kept : str → bool) (name : str) (text : option str) : option str := if kept name then text else None.
Definition leftover (kept : str → bool) (dir : LogDir) : LogDir :=
  mkDir (left_file kept (lit "INITIAL") (initial_file dir)) (left_file kept (lit "checkpoints.jsonl") (checkpoints_file dir))
    (blobs dir ≫= left_blobs kept) (left_file kept (lit ".archived_at") (archived_at dir))
    (left_file kept (lit "metadata.json") (metadata_json dir)) (filter (λ kv : str * str, kept kv.1 = true) (oversized dir)).

(** [fs::remove_dir_all]. *)
Definition remove_dir_all (d : Dir) : M unit := λ s,
  let n := calls s in
  match dirs s !! d, fault n with
  | None, _ => (mkStorage (dirs s) (S n), Fail (lit "No such file or directory"))
  | Some dir, Some e => (mkStorage (<[d := leftover (survives n) dir]> (dirs s)) (S n), Fail e)
  | Some _, None => (mkStorage (delete d (dirs s)) (S n), Ret tt)
  end.

(** [fs::rename]: a directory replaces an empty one only. *)
Definition rename_dir (old new : Dir) : M unit :=
  do! _ := io in
  do! m := gets dirs in
  match m !! old, m !! new with
  | None, _ => fail (lit "No such file or directory")
  | Some dir, None => set_dirs (λ m, <[new := dir]> (delete old m))
  | Some dir, Some target =>
      if bool_decide (target = empty_dir) then set_dirs (λ m, <[new := dir]> (delete old m))
      else fail (lit "Directory not empty")
  end.

(** A call that fails when the directory is not there. *)
Definition io_in (d : Dir) : M unit :=
  do! there := gets (λ s, bool_decide (is_Some (dirs s !! d))) in
  if there then io else fail (lit "No such file or directory").

Definition sync_working_log_parent_directory (d : Dir) : M unit := io_in d.

(** The directory [working_logs] itself is always there. *)
Definition sync_working_logs : M unit := io.

Definition set_initial (text : option str) (d : LogDir) : LogDir :=
  mkDir text (checkpoints_file d) (blobs d) (archived_at d) (metadata_json d) (oversized d).
Definition set_checkpoints (text : option str) (d : LogDir) : LogDir :=
  mkDir (initial_file d) text (blobs d) (archived_at d) (metadata_json d) (oversized d).
Definition set_blobs (bs : option (gmap str str)) (d : LogDir) : LogDir :=
  mkDir (initial_file d) (checkpoints_file d) bs (archived_at d) (metadata_json d) (oversized d).
Definition set_archived (text : str) (d : LogDir) : LogDir :=
  mkDir (initial_file d) (checkpoints_file d) (blobs d) (Some text) (metadata_json d) (oversized d).
Definition set_metadata (text : str) (d : LogDir) : LogDir :=
  mkDir (initial_file d) (checkpoints_file d) (blobs d) (archived_at d) (Some text) (oversized d).
Definition set_aside (name : str) (d : LogDir) : LogDir :=
  mkDir (initial_file d) None (blobs d) (archived_at d) (metadata_json d)
    match checkpoints_file d with Some text => <[name := text]> (oversized d) | None => oversized d end.

Definition add_blob (sha content : str) (d : LogDir) : LogDir :=
  set_blobs (Some (<[sha := content]> (default ∅ (blobs d)))) d.

(** A file replaced by a finished temporary one: [tempfile_in], the text that is
    written, the writing and the flush, [sync_all], [persist], and [sync_all] and
    the directory again. *)
Definition replace_file (d : Dir) (text : result str) (publish : str → LogDir → LogDir) : M unit :=
  do! _ := io in
  do! text := lift text in
  do! _ := io in
  do! _ := io in
  do! _ := io in
  do! _ := update_dir d (publish text) in
  do! _ := io in
  sync_working_log_parent_directory d.

(** [fs::write]: the file is made empty and then written. *)
Definition write_file (d : Dir) (set : str → LogDir → LogDir) (text : str) : M unit :=
  do! _ := io_in d in
  do! _ := update_dir d (set []) in
  λ s,
    let n := calls s in
    let change bytes := mkStorage (alter (set bytes) d (dirs s)) (S n) in
    match fault n with
    | Some e => (change (take (written_bytes n) text), Fail e)
    | None => (change text, Ret tt)
    end.

(** ** Contents by their hash *)

Definition lower_hex (c : ascii) : bool :=
  let n := N_of_ascii c in ((48 <=? n) && (n <=? 57) || (97 <=? n) && (n <=? 102))%N.

Definition validate_blob_sha (sha : str) : result unit :=
  if negb (length sha =? 64) || negb (forallb lower_hex sha) then Fail (lit "invalid content-addressed blob SHA: " ++ sha)
  else Ret tt.

Definition blob_at (d : LogDir) (sha : str) : option str := blobs d ≫= λ bs, bs !! sha.

Definition read_verified_blob (d : Dir) (sha : str) : M str :=
  do! _ := lift (validate_blob_sha sha) in
  do! _ := io in
  do! dir := the_dir d in
  match blob_at dir sha with
  | None => fail (lit "No such file or directory")
  | Some content =>
      if str_eqb (sha256_hex content) sha then ret content
      else fail (lit "content-addressed blob " ++ sha ++ lit " failed SHA verification")
  end.

Definition get_file_version (d : Dir) (sha : str) : M str :=
  do! bytes := read_verified_blob d sha in
  if PatchText.valid_utf8 bytes then ret bytes else fail (lit "invalid utf-8 sequence").

Definition verify_existing_blob (d : Dir) (sha expected : str) : M unit :=
  do! actual := read_verified_blob d sha in
  if negb (str_eqb actual expected) then fail (lit "existing content-addressed blob has unexpected content: " ++ sha)
  else do! _ := io in sync_working_log_parent_directory d.

Definition create_blobs_dir (d : Dir) : M unit :=
  do! _ := create_dir_all d in
  update_dir d (λ dir, set_blobs (Some (default ∅ (blobs dir))) dir).

Definition persist_file_version (d : Dir) (content : str) : M str :=
  let sha := sha256_hex content in
  do! _ := create_blobs_dir d in
  do! _ := sync_working_log_parent_directory d in
  do! _ := io in
  do! dir := the_dir d in
  match blob_at dir sha with
  | Some _ => do! _ := verify_existing_blob d sha content in ret sha
  | None => do! _ := replace_file d (Ret content) (add_blob sha) in ret sha
  end.

(** ** Checkpoints *)

Fixpoint parse_checkpoints (ls : list str) : result (list Checkpoint) :=
  match ls with
  | [] => Ret []
  | line :: ls' =>
      if negb (PatchText.valid_utf8 line) then Fail (lit "stream did not contain valid UTF-8")
      else if bool_decide (trim line = []) then parse_checkpoints ls'
      else
        let? checkpoint := checkpoint_of_json line in
        let? rest := parse_checkpoints ls' in
        Ret (if str_eqb (api_version checkpoint) CHECKPOINT_API_VERSION then checkpoint :: rest else rest)
  end.

(** The 16 digits an old author id of 7 stands for. *)
Definition old_to_new_hash (checkpoints : list Checkpoint) : gmap str str :=
  foldl (λ m c, match agent_id c with
                | Some a => let new_hash := generate_short_hash sha256_hex (agent_id_id a) (tool a) in
                            <[take 7 new_hash := new_hash]> m
                | None => m
                end) ∅ checkpoints.

Definition migrate_id (hashes : gmap str str) (id : str) : str :=
  if length id =? 7 then default id (hashes !! id) else id.

Definition migrate_entry (hashes : gmap str str) (e : WorkingLogEntry) : WorkingLogEntry :=
  mkEntry (file e) (blob_sha e)
    (map (λ a, mkAttr (start a) (end_ a) (migrate_id hashes (author_id a)) (ts a)) (attributions e))
    (map (λ la, mkLineAttr (start_line la) (end_line la) (migrate_id hashes (line_author_id la))
                  (migrate_id hashes <$> overrode la)) (line_attributions e)).

Definition set_entries (c : Checkpoint) (es : list WorkingLogEntry) : Checkpoint :=
  mkCheckpoint (kind c) (diff c) (author c) es (timestamp c) (agent_id c) (agent_metadata c) (line_stats c)
    (api_version c) (git_ai_version c) (known_human_metadata c) (trace_id c).

Definition migrate (checkpoints : list Checkpoint) : list Checkpoint :=
  let hashes := old_to_new_hash checkpoints in
  map (λ c, set_entries c (map (migrate_entry hashes) (entries c))) checkpoints.

Definition reject_oversized_checkpoints_file (d : Dir) (max_bytes : N) : M unit :=
  do! _ := io in
  do! dir := the_dir d in
  match checkpoints_file dir with
  | None => ret tt
  | Some text =>
      if (N.of_nat (length text) <=? max_bytes)%N then ret tt
      else fail (lit "checkpoints.jsonl exceeded maximum size; refusing to modify preserved file")
  end.

Definition ensure_checkpoints_file_size_limit (d : Dir) : M unit :=
  reject_oversized_checkpoints_file d MAX_CHECKPOINTS_JSONL_BYTES.

Definition read_all_checkpoints_with_size_limit (d : Dir) (max_bytes : N) : M (list Checkpoint) :=
  do! there := exists_in d checkpoints_file in
  if negb there then ret []
  else
    do! _ := reject_oversized_checkpoints_file d max_bytes in
    do! _ := io in
    do! dir := the_dir d in
    do! checkpoints := lift (parse_checkpoints (lines (default [] (checkpoints_file dir)))) in
    ret (migrate checkpoints).

Definition read_all_checkpoints (d : Dir) : M (list Checkpoint) :=
  read_all_checkpoints_with_size_limit d MAX_CHECKPOINTS_JSONL_BYTES.

Fixpoint checkpoints_text (checkpoints : list Checkpoint) : result str :=
  match checkpoints with
  | [] => Ret []
  | c :: cs =>
      let? json := checkpoint_to_json c in
      let? rest := checkpoints_text cs in
      Ret (json ++ [LF] ++ rest)
  end.

Definition write_all_checkpoints (d : Dir) (checkpoints : list Checkpoint) : M unit :=
  do! _ := create_dir_all d in
  replace_file d (checkpoints_text checkpoints) (λ text, set_checkpoints (Some text)).

(** The index of the newest checkpoint with an entry of a file: the last one
    comes first. *)
Definition newest_for_file (checkpoints : list Checkpoint) : gmap str nat :=
  foldl (λ m ic, foldl (λ m e, match m !! file e with Some _ => m | None => <[file e := ic.1]> m end) m (entries ic.2))
    ∅ (rev (imap pair checkpoints)).

Definition clear_attributions (e : WorkingLogEntry) : WorkingLogEntry :=
  mkEntry (file e) (blob_sha e) [] (line_attributions e).

Definition prune_entry (newest : gmap str nat) (idx : nat) (e : WorkingLogEntry) : WorkingLogEntry :=
  match newest !! file e with
  | Some newest_idx => if idx =? newest_idx then e else clear_attributions e
  | None => e
  end.

Definition prune_old_char_attributions (checkpoints : list Checkpoint) : list Checkpoint :=
  let newest := newest_for_file checkpoints in
  imap (λ idx c, set_entries c (map (prune_entry newest idx) (entries c))) checkpoints.

(** The caller's collection is pruned and longer as well; no caller looks at it
    again. *)
Definition append_checkpoint_to (d : Dir) (checkpoints : list Checkpoint) (checkpoint : Checkpoint) : M unit :=
  write_all_checkpoints d (prune_old_char_attributions (checkpoints ++ [checkpoint])).

Definition has_request (request_id : str) (c : Checkpoint) : bool :=
  match trace_id c with Some t => str_eqb t request_id | None => false end.

Definition append_checkpoint_idempotent_to (d : Dir) (checkpoints : list Checkpoint) (checkpoint : Checkpoint) : M bool :=
  match trace_id checkpoint with
  | Some request_id =>
      if existsb (has_request request_id) checkpoints then ret false
      else do! _ := append_checkpoint_to d checkpoints checkpoint in ret true
  | None => do! _ := append_checkpoint_to d checkpoints checkpoint in ret true
  end.

Definition append_checkpoint_idempotent (d : Dir) (checkpoint : Checkpoint) : M bool :=
  do! checkpoints := read_all_checkpoints d in
  append_checkpoint_idempotent_to d checkpoints checkpoint.

Definition append_checkpoint (d : Dir) (checkpoint : Checkpoint) : M unit :=
  do! _ := append_checkpoint_idempotent d checkpoint in ret tt.

Definition mutate_all_checkpoints (d : Dir) (mutator : list Checkpoint → result (list Checkpoint)) : M (list Checkpoint) :=
  do! checkpoints := read_all_checkpoints d in
  do! mutated := lift (mutator checkpoints) in
  do! _ := write_all_checkpoints d mutated in
  ret mutated.

Definition quarantine_oversized_checkpoints_for_stash_with_limit (d : Dir) (max_bytes : N) : M (option str) :=
  do! _ := io in
  do! dir := the_dir d in
  match checkpoints_file dir with
  | None => ret None
  | Some text =>
      if (N.of_nat (length text) <=? max_bytes)%N then ret None
      else
        do! now := gets calls in
        let quarantine_path := lit "checkpoints.jsonl.oversized-" ++ generate_v4 now in
        do! _ := io in
        do! _ := update_dir d (set_aside quarantine_path) in
        do! _ := sync_working_log_parent_directory d in
        do! _ := write_all_checkpoints d [] in
        ret (Some quarantine_path)
  end.

Definition quarantine_oversized_checkpoints_for_stash (d : Dir) : M (option str) :=
  quarantine_oversized_checkpoints_for_stash_with_limit d MAX_CHECKPOINTS_JSONL_BYTES.

Fixpoint for_each {A : Type} (f : A → M unit) (l : list A) : M unit :=
  match l with
  | [] => ret tt
  | x :: l' => do! _ := f x in for_each f l'
  end.

Definition validate_checkpoint_blob_references (d : Dir) (checkpoint : Checkpoint) : M unit :=
  for_each (λ e, do! _ := get_file_version d (blob_sha e) in ret tt) (entries checkpoint).

Definition all_touched_files (d : Dir) : M (gset str) :=
  do! checkpoints := read_all_checkpoints d in
  ret (list_to_set (flat_map (λ c, map file (entries c)) checkpoints)).

Definition all_ai_touched_files (d : Dir) : M (gset str) :=
  do! checkpoints := read_all_checkpoints d in
  ret (list_to_set (flat_map (λ c, if is_ai (kind c) then map file (entries c) else []) checkpoints)).

(** ** The INITIAL file *)

Definition nonempty_files (files : gmap str (list LineAttribution)) : gmap str (list LineAttribution) :=
  filter (λ kv : str * list LineAttribution, kv.2 ≠ []) files.

Definition validate_initial_blob_references (d : Dir) (initial : InitialAttributions) : M unit :=
  do! _ := for_each (λ path, match file_blobs initial !! path with
                             | Some _ => ret tt
                             | None => fail (lit "INITIAL missing persisted file snapshot for " ++ path)
                             end) (hash_keys (initial_files initial)) in
  for_each (λ blob_sha, do! _ := get_file_version d blob_sha in ret tt) (hash_values (file_blobs initial)).

Definition write_initial (d : Dir) (initial : InitialAttributions) : M unit :=
  let filtered_files := nonempty_files (initial_files initial) in
  if bool_decide (filtered_files = ∅) then
    do! _ := io in
    do! _ := update_dir d (set_initial None) in
    sync_working_log_parent_directory d
  else
    let initial_data :=
      mkInitial filtered_files (initial_prompts initial) (restrict (dom filtered_files) (file_blobs initial))
        (initial_humans initial) (initial_sessions initial) in
    do! _ := validate_initial_blob_references d initial_data in
    do! _ := create_dir_all d in
    replace_file d (initial_to_json initial_data) (λ json, set_initial (Some json)).

(** The loop over the files, with the blobs so far. *)
Fixpoint persist_contents (d : Dir) (file_contents file_blobs : gmap str str) (paths : list str) : M (gmap str str) :=
  match paths with
  | [] => ret file_blobs
  | path :: paths' =>
      match file_contents !! path with
      | None => fail (lit "INITIAL missing file content snapshot for " ++ path)
      | Some content =>
          do! blob_sha := persist_file_version d content in
          persist_contents d file_contents (<[path := blob_sha]> file_blobs) paths'
      end
  end.

Definition write_initial_attributions_with_contents (d : Dir) (attributions : gmap str (list LineAttribution))
    (prompts : gmap str PromptRecord) (humans : gmap str HumanRecord) (file_contents : gmap str str)
    (sessions : gmap str SessionRecord) : M unit :=
  let filtered := nonempty_files attributions in
  do! file_blobs := persist_contents d file_contents ∅ (hash_keys filtered) in
  write_initial d (mkInitial filtered prompts file_blobs humans sessions).

Definition no_initial : InitialAttributions := mkInitial ∅ ∅ ∅ ∅ ∅.

Definition record_line_trace (sessions : gmap str SessionRecord) (line : LineAttribution) : gmap str SessionRecord :=
  match split_once (lit "::") (line_author_id line) with
  | Some (session_id, trace_id) =>
      match sessions !! session_id with
      | Some session => <[session_id := record_trace_model session trace_id (model (session_agent_id session))]> sessions
      | None => sessions
      end
  | None => sessions
  end.

(** Legacy records: one model for all traces of a session. *)
Definition record_traces (initial : InitialAttributions) : InitialAttributions :=
  mkInitial (initial_files initial) (initial_prompts initial) (file_blobs initial) (initial_humans initial)
    (foldl record_line_trace (initial_sessions initial) (concat (hash_values (initial_files initial)))).

Definition read_initial_attributions (d : Dir) : M InitialAttributions :=
  do! _ := io in
  do! dir := the_dir d in
  match initial_file dir with
  | None => ret no_initial
  | Some content =>
      if negb (PatchText.valid_utf8 content) then fail (lit "cannot read preserved INITIAL")
      else
        do! initial := lift (initial_of_json content) in
        do! _ := validate_initial_blob_references d initial in
        ret (record_traces initial)
  end.

Definition stored_initial_file_content_from (d : Dir) (initial : InitialAttributions) (path : str) : M (option str) :=
  match file_blobs initial !! path with
  | Some blob_sha => do! content := get_file_version d blob_sha in ret (Some content)
  | None => ret None
  end.

Definition initial_file_content_from (d : Dir) (initial : InitialAttributions) (path : str) : M (option str) :=
  do! stored := stored_initial_file_content_from d initial path in
  match stored, initial_files initial !! path with
  | Some content, _ => ret (Some content)
  | None, Some _ => fail (lit "INITIAL missing persisted file snapshot for " ++ path)
  | None, None => ret None
  end.

Definition latest_entry (checkpoints : list Checkpoint) (path : str) : option WorkingLogEntry :=
  head (omap (λ c, List.find (λ e, str_eqb (file e) path) (entries c)) (rev checkpoints)).

Definition latest_checkpoint_file_content (d : Dir) (path : str) : M (option str) :=
  do! checkpoints := read_all_checkpoints d in
  match latest_entry checkpoints path with
  | Some e => do! content := get_file_version d (blob_sha e) in ret (Some content)
  | None => ret None
  end.

Definition effective_tracked_file_content (d : Dir) (initial : InitialAttributions) (path : str) : M (option str) :=
  do! latest := latest_checkpoint_file_content d path in
  match latest with
  | Some content => ret (Some content)
  | None => initial_file_content_from d initial path
  end.

Fixpoint initial_snapshot (d : Dir) (initial : InitialAttributions) (snapshot : gmap str str) (paths : list str) :
    M (gmap str str) :=
  match paths with
  | [] => ret snapshot
  | path :: paths' =>
      do! stored := stored_initial_file_content_from d initial path in
      match stored with
      | None => fail (lit "INITIAL missing persisted file snapshot for " ++ path)
      | Some content => initial_snapshot d initial (<[path := content]> snapshot) paths'
      end
  end.

Fixpoint entries_snapshot (d : Dir) (snapshot : gmap str str) (es : list WorkingLogEntry) : M (gmap str str) :=
  match es with
  | [] => ret snapshot
  | e :: es' =>
      do! content := get_file_version d (blob_sha e) in
      entries_snapshot d (<[file e := content]> snapshot) es'
  end.

Definition observed_file_snapshot (d : Dir) : M (gmap str str) :=
  do! initial := read_initial_attributions d in
  do! snapshot := initial_snapshot d initial ∅ (hash_keys (initial_files initial)) in
  do! checkpoints := read_all_checkpoints d in
  entries_snapshot d snapshot (flat_map entries checkpoints).

(** [remove_dir_all] of the directory of contents. *)
Definition remove_blobs_dir (d : Dir) : M unit := λ s,
  let n := calls s in
  let change (f : option (gmap str str) → option (gmap str str)) :=
    mkStorage (alter (λ dir, set_blobs (f (blobs dir)) dir) d (dirs s)) (S n) in
  match fault n with
  | Some e => (change (λ bs, bs ≫= left_blobs (survives n)), Fail e)
  | None => (change (λ _, None), Ret tt)
  end.

Definition reset_working_log (d : Dir) : M unit :=
  do! blobs_there := exists_in d blobs in
  do! _ := if blobs_there : bool then remove_blobs_dir d else ret tt in
  do! _ := write_file d (λ text, set_checkpoints (Some text)) [] in
  do! initial_there := exists_in d initial_file in
  if initial_there : bool then do! _ := io in update_dir d (set_initial None) else ret tt.

(** ** The logs of a repository *)

Definition has_working_log (sha : str) : M bool := exists_dir (log_dir sha).

Definition working_log_for_base_commit (sha : str) : M Dir :=
  do! _ := create_dir_all (log_dir sha) in
  do! _ := sync_working_logs in
  ret (log_dir sha).

(** [contents.trim().parse::<u64>().unwrap_or(0)]. *)
Fixpoint parse_digits_u64 (acc : N) (s : str) : option N :=
  match s with
  | [] => Some acc
  | c :: s' =>
      match digit_val c with
      | Some d => let v := (acc * 10 + Z.to_N d)%N in
                  if (v <? 18446744073709551616)%N then parse_digits_u64 v s' else None
      | None => None
      end
  end.
Definition parse_u64 (s : str) : option N :=
  match s with
  | [] => None
  | c :: s' => if bool_decide (c = "+"%char) then match s' with [] => None | _ => parse_digits_u64 0 s' end
               else parse_digits_u64 0 s
  end.

Definition try_io : M bool := λ s,
  (mkStorage (dirs s) (S (calls s)), Ret match fault (calls s) with Some _ => false | None => true end).

Definition archive_time (dir : LogDir) : N :=
  match archived_at dir with
  | Some text => if PatchText.valid_utf8 text then default 0%N (parse_u64 (trim text)) else 0%N
  | None => 0%N
  end.

(** One entry of the listing: a marker that cannot be read counts as none. *)
Definition prune_expired (name : str) : M unit :=
  if negb (starts_with (lit "old-") name) then ret tt
  else
    do! is_dir := try_io in
    if negb is_dir then ret tt
    else
      do! readable := try_io in
      do! dir := the_dir (log_dir name) in
      let archived_at := if readable : bool then archive_time dir else 0%N in
      if (OLD_WORKING_LOG_RETENTION_SECS <=? now_secs - archived_at)%N then ignore (remove_dir_all (log_dir name)) else ret tt.

Definition log_names (s : Storage) : gset str :=
  list_to_set (omap (λ kv, match kv.1 with inl name => Some name | inr _ => None end) (map_to_list (dirs s))).

Definition prune_expired_old_working_logs : M unit :=
  do! readable := try_io in
  if negb readable then ret tt
  else do! names := gets log_names in for_each prune_expired (set_iter names).

Definition delete_working_log_for_base_commit (sha : str) : M unit :=
  do! there := exists_dir (log_dir sha) in
  if negb there then ret tt
  else
    let old_dir := log_dir (lit "old-" ++ sha) in
    do! old_there := exists_dir old_dir in
    do! _ := if old_there : bool then remove_dir_all old_dir else ret tt in
    do! _ := rename_dir (log_dir sha) old_dir in
    do! _ := ignore (write_file old_dir set_archived (lit (pretty now_secs))) in
    prune_expired_old_working_logs.

Fixpoint copy_blobs (source target : Dir) (copied : gset str) (blob_shas : list str) : M unit :=
  match blob_shas with
  | [] => ret tt
  | sha :: blob_shas' =>
      if bool_decide (sha ∈ copied) then copy_blobs source target copied blob_shas'
      else
        do! content := get_file_version source sha in
        do! persisted_sha := persist_file_version target content in
        if negb (str_eqb persisted_sha sha) then fail (lit "blob " ++ sha ++ lit " changed identity while copying working logs")
        else copy_blobs source target ({[sha]} ∪ copied) blob_shas'
  end.

Definition copy_blob_references (source target : Dir) (blob_shas : list str) : M unit :=
  copy_blobs source target ∅ blob_shas.

(** The old entries win; sessions are merged. *)
Definition merge_initials (old_initial new_initial : InitialAttributions) : InitialAttributions :=
  mkInitial (initial_files old_initial ∪ initial_files new_initial)
    (initial_prompts old_initial ∪ initial_prompts new_initial)
    (file_blobs old_initial ∪ file_blobs new_initial)
    (initial_humans old_initial ∪ initial_humans new_initial)
    (union_with (λ existing v, Some (merge_from existing v)) (initial_sessions old_initial) (initial_sessions new_initial)).

Definition merge_working_log_dirs (old_dir new_dir : Dir) : M unit :=
  do! old_initial := read_initial_attributions old_dir in
  do! new_initial := read_initial_attributions new_dir in
  do! old_checkpoints := read_all_checkpoints old_dir in
  do! new_checkpoints := read_all_checkpoints new_dir in
  do! _ := for_each (validate_checkpoint_blob_references old_dir) old_checkpoints in
  do! _ := for_each (validate_checkpoint_blob_references new_dir) new_checkpoints in
  do! _ := copy_blob_references old_dir new_dir
             (hash_values (file_blobs old_initial) ++ flat_map (λ c, map blob_sha (entries c)) old_checkpoints) in
  do! _ := write_initial new_dir (merge_initials old_initial new_initial) in
  write_all_checkpoints new_dir (old_checkpoints ++ new_checkpoints).

Definition rename_working_log (old_sha new_sha : str) : M unit :=
  if str_eqb old_sha new_sha then ret tt
  else
    let old_dir := log_dir old_sha in
    let new_dir := log_dir new_sha in
    do! old_there := exists_dir old_dir in
    do! new_there := exists_dir new_dir in
    if negb old_there then (if new_there : bool then sync_working_logs else ret tt)
    else if negb new_there then
      do! _ := rename_dir old_dir new_dir in
      sync_working_logs
    else
      do! _ := merge_working_log_dirs old_dir new_dir in
      do! _ := remove_dir_all old_dir in
      sync_working_logs.
End Storage.

End RepoStorage.
