(* ===== verification/RepoStorageProps.v ===== *)
(** * What the storage of working logs keeps

    Whatever system calls fail, the files of a working log that is not being taken
    apart stay readable and a checkpoint is published once; when [exists] sees the
    logs, no entry is lost when they are merged. *)

From S2P Require Import Prelude Text AuthorshipLog Attribution WorkingLog DiffCompute HashIter PatchParse VirtualAttributions StateResult RepoStorage.

(** ** Reference *)

Module StorageRef.
Import AuthorshipLog Attribution WorkingLog HashIter VirtualAttributions RepoStorage.
Import DiffCompute(result).

(** What serde's JSON and SHA-256 promise: a value is read back from its text,
    which is one line; a hash is 64 lower-case hexadecimal digits. *)
Class EnvironmentLaws `{env : Environment} := {
  initial_read_back : ∀ x json, initial_to_json x = Ret json →
    PatchText.valid_utf8 json = true ∧ initial_of_json json = Ret x;
  checkpoint_read_back : ∀ c json, checkpoint_to_json c = Ret json →
    PatchText.valid_utf8 json = true ∧ checkpoint_of_json json = Ret c ∧ LF ∉ json ∧ CR ∉ json ∧ trim json ≠ [];
  hash_is_hex : ∀ content, validate_blob_sha (sha256_hex content) = Ret tt
}.

Section Reference.
Context `{env : Environment} `{order : HashOrder}.

(** A content is stored under its hash. *)
Definition stored (dir : LogDir) (sha : str) : Prop :=
  ∃ content, blob_at dir sha = Some content ∧ sha256_hex content = sha ∧ PatchText.valid_utf8 content = true.

(** The files of an INITIAL file have contents, which are stored. *)
Definition refs_stored (dir : LogDir) (x : InitialAttributions) : Prop :=
  (∀ path, is_Some (initial_files x !! path) → is_Some (file_blobs x !! path)) ∧
  ∀ path sha, file_blobs x !! path = Some sha → stored dir sha.

(** Every [Path::exists] that is asked gets an answer. *)
Class StatsAnswer : Prop := stats_answer : ∀ n, unseen n = false.
Definition blind : Prop := ∃ n, unseen n = true.

(** The files of a directory are whole: written by the storage, none torn. *)
Record dir_ok (dir : LogDir) : Prop := {
  blobs_named : ∀ sha content, blob_at dir sha = Some content → sha256_hex content = sha ∧ PatchText.valid_utf8 content = true;
  initial_whole : ∀ json, initial_file dir = Some json → ∃ x, initial_to_json x = Ret json ∧ refs_stored dir x;
  checkpoints_whole : ∀ text, checkpoints_file dir = Some text → ∃ cs, checkpoints_text cs = Ret text
}.

(** The archived logs, which are never read again. *)
Definition archived (d : Dir) : bool := match d with inl name => starts_with (lit "old-") name | inr _ => false end.

Definition storage_ok (m : gmap Dir LogDir) : Prop := map_Forall (λ d dir, archived d = false → dir_ok dir) m.

Definition dir_at (m : gmap Dir LogDir) (d : Dir) : LogDir := default empty_dir (m !! d).

(** The checkpoints a log holds, as they are read. *)
Definition logged_in (dir : LogDir) : result (list Checkpoint) :=
  match checkpoints_file dir with
  | None => Ret []
  | Some text => let? cs := parse_checkpoints (lines text) in Ret (migrate cs)
  end.
Definition logged (m : gmap Dir LogDir) (d : Dir) : result (list Checkpoint) := logged_in (dir_at m d).

(** ** Histories *)

(** The operations on the logs, in any order. *)
Inductive operation :=
  | OpenLog (sha : str)
  | DeleteLog (sha : str)
  | RenameLog (old new : str)
  | Prune
  | Persist (d : Dir) (content : str)
  | Append (d : Dir) (c : Checkpoint)
  | WriteCheckpoints (d : Dir) (cs : list Checkpoint)
  | Mutate (d : Dir) (f : list Checkpoint → result (list Checkpoint))
  | Quarantine (d : Dir) (max_bytes : N)
  | WriteInitial (d : Dir) (x : InitialAttributions)
  | WriteContents (d : Dir) (files : gmap str (list LineAttribution)) (prompts : gmap str PromptRecord)
      (humans : gmap str HumanRecord) (contents : gmap str str) (sessions : gmap str SessionRecord)
  | Observe (d : Dir)
  | ResetLog (d : Dir).

Definition run_op (op : operation) : StateResult.M Storage unit :=
  match op with
  | OpenLog sha => ignore (working_log_for_base_commit sha)
  | DeleteLog sha => delete_working_log_for_base_commit sha
  | RenameLog old new => rename_working_log old new
  | Prune => prune_expired_old_working_logs
  | Persist d content => ignore (persist_file_version d content)
  | Append d c => append_checkpoint d c
  | WriteCheckpoints d cs => write_all_checkpoints d cs
  | Mutate d f => ignore (mutate_all_checkpoints d f)
  | Quarantine d max_bytes => ignore (quarantine_oversized_checkpoints_for_stash_with_limit d max_bytes)
  | WriteInitial d x => write_initial d x
  | WriteContents d files prompts humans contents sessions =>
      write_initial_attributions_with_contents d files prompts humans contents sessions
  | Observe d => ignore (observed_file_snapshot d)
  | ResetLog d => reset_working_log d
  end.

(** The log an operation takes apart. *)
Definition removal_target (op : operation) : option Dir :=
  match op with
  | RenameLog old _ => Some (log_dir old)
  | ResetLog d => Some d
  | _ => None
  end.

(** Contents are strings, and an archived log is not renamed. *)
Definition op_ok (op : operation) : Prop :=
  match op with
  | RenameLog old _ => archived (log_dir old) = false
  | Persist _ content => PatchText.valid_utf8 content = true
  | WriteContents _ _ _ _ contents _ => map_Forall (λ _ content, PatchText.valid_utf8 content = true) contents
  | _ => True
  end.

(** The INITIAL file as it is read. *)
Definition initial_in (dir : LogDir) : result InitialAttributions :=
  match initial_file dir with
  | None => Ret no_initial
  | Some text => if PatchText.valid_utf8 text then let? x := initial_of_json text in Ret (record_traces x)
                 else Fail (lit "cannot read preserved INITIAL")
  end.
Definition initially (m : gmap Dir LogDir) (d : Dir) : result InitialAttributions := initial_in (dir_at m d).

(** What is kept of an INITIAL: the files with attributions, and nothing when
    there are none. *)
Definition kept_initial (x : InitialAttributions) : InitialAttributions :=
  let files := nonempty_files (initial_files x) in
  mkInitial files (initial_prompts x) (restrict (dom files) (file_blobs x)) (initial_humans x) (initial_sessions x).
Definition read_back (x : InitialAttributions) : InitialAttributions :=
  if bool_decide (nonempty_files (initial_files x) = ∅) then no_initial else record_traces (kept_initial x).

(** Reading fails only with the failure of a system call. *)
Definition only_faults {A : Type} (r : result A) : Prop :=
  match r with
  | Ret _ => True
  | Fail e => ∃ n, fault n = Some e
  | Panic => False
  end.

(** Pruning said directly: an entry keeps its attributions when no later_mention
    checkpoint has its file. *)
Definition mentions (f : str) (c : Checkpoint) : bool := existsb (λ e, str_eqb (file e) f) (entries c).
Definition later_mention (cs : list Checkpoint) (i : nat) (f : str) : bool := existsb (mentions f) (drop (S i) cs).
Definition keep_newest (cs : list Checkpoint) : list Checkpoint :=
  imap (λ i c, set_entries c (map (λ e, if later_mention cs i (file e) then clear_attributions e else e) (entries c))) cs.

(** A client that tries again and again. *)
Fixpoint retry (d : Dir) (c : Checkpoint) (n : nat) (s : Storage) : Storage :=
  match n with
  | O => s
  | S n' => (append_checkpoint_idempotent d c (retry d c n' s)).1
  end.

(** What the operations leave, the failed ones included. *)
Definition run_history (s : Storage) (ops : list operation) : Storage := foldl (λ s op, (run_op op s).1) s ops.

(** The removals among them came to their end, and saw what they removed. *)
Fixpoint removals_finish (s : Storage) (ops : list operation) : Prop :=
  match ops with
  | [] => True
  | op :: ops' => (is_Some (removal_target op) → (run_op op s).2 = Ret tt ∧ StatsAnswer) ∧ removals_finish (run_op op s).1 ops'
  end.
End Reference.
End StorageRef.

(** ** Lemmas *)

Module StorageFacts.
Import AuthorshipLog Attribution WorkingLog HashIter HashIterFacts VirtualAttributions StateResult StateResultFacts RepoStorage StorageRef.
Import DiffCompute(result).

Section Facts.
Context `{env : Environment} `{order : HashOrder}.

(** A property of the directories. *)
Definition on (D : gmap Dir LogDir → Prop) (s : Storage) : Prop := D (dirs s).

(** *** Reading *)

(** A computation that changes no file; [Q] holds of what it returns. *)
Definition reads {A : Type} (m : StateResult.M Storage A) (Q : gmap Dir LogDir → A → Prop) : Prop :=
  ∀ s, dirs (m s).1 = dirs s ∧ ∀ a, (m s).2 = Ret a → Q (dirs s) a.

Lemma reads_ret {A} (a : A) (Q : gmap Dir LogDir → A → Prop) : (∀ m, Q m a) → reads (ret a) Q.
Proof. intros H s. split; [done|]. by intros ? [= <-]. Qed.
Lemma reads_fail {A} (message : str) (Q : gmap Dir LogDir → A → Prop) : reads (fail message) Q.
Proof. intros s. by split. Qed.
Lemma reads_lift {A} (r : result A) : reads (lift r) (λ _ a, r = Ret a).
Proof. intros s. by split. Qed.
Lemma reads_io : reads io (λ _ _, True).
Proof. intros s. by split. Qed.
Lemma reads_try_io : reads try_io (λ _ _, True).
Proof. intros s. by split. Qed.
Lemma reads_dir d : reads (the_dir d) (λ m dir, dir = dir_at m d).
Proof. intros s. split; [done|]. by intros ? [= <-]. Qed.
Lemma reads_exists d : reads (exists_dir d) (λ m b, b = true → is_Some (m !! d)).
Proof. intros s. split; [done|]. intros ? [= <-]. intros [_ H]%andb_true_iff. by apply bool_decide_eq_true in H. Qed.
Lemma reads_exists_in {A} d (f : LogDir → option A) : reads (exists_in d f) (λ m b, b = true → is_Some (f (dir_at m d))).
Proof. intros s. split; [done|]. intros ? [= <-]. intros [_ H]%andb_true_iff. by apply bool_decide_eq_true in H. Qed.

(** With the answers of all stats. *)
Lemma reads_seen `{seen : !StatsAnswer} d : reads (exists_dir d) (λ m b, b = bool_decide (is_Some (m !! d))).
Proof. intros s. split; [done|]. intros ? [= <-]. by rewrite stats_answer. Qed.
Lemma reads_seen_in `{seen : !StatsAnswer} {A} d (f : LogDir → option A) :
  reads (exists_in d f) (λ m b, b = bool_decide (is_Some (f (dir_at m d)))).
Proof. intros s. split; [done|]. intros ? [= <-]. by rewrite stats_answer. Qed.

Lemma reads_bind {A B} (m : StateResult.M Storage A) (k : A → StateResult.M Storage B) Q R :
  reads m Q → (∀ a, reads (k a) (R a)) → reads (bind m k) (λ fs b, ∃ a, Q fs a ∧ R a fs b).
Proof.
  intros Hm Hk s. unfold bind. destruct (Hm s) as [Hd Hq]. destruct (m s) as [s' [a|e|]]; cbn [fst snd] in *; [|by split..].
  destruct (Hk a s') as [Hd' Hr]. split; [congruence|]. intros b Hb. exists a. rewrite Hd in Hr.
  split; [by apply Hq|by apply Hr].
Qed.

Lemma reads_weaken {A} (m : StateResult.M Storage A) (Q R : gmap Dir LogDir → A → Prop) :
  reads m Q → (∀ fs a, Q fs a → R fs a) → reads m R.
Proof. intros H HR s. destruct (H s) as [Hd Hq]. split; [done|]. intros a Ha. by apply HR, Hq. Qed.

Lemma reads_for_each {A} (f : A → StateResult.M Storage unit) (Q : gmap Dir LogDir → A → Prop) l :
  (∀ x, reads (f x) (λ fs _, Q fs x)) → reads (for_each f l) (λ fs _, ∀ x, x ∈ l → Q fs x).
Proof.
  intros Hf. induction l as [|x l IH]; [apply reads_ret; by intros ? ? ?%not_elem_of_nil|].
  eapply reads_weaken; [apply reads_bind; [apply Hf|intros; apply IH]|].
  intros fs [] ([] & Hx & Hl) y [->|Hy]%elem_of_cons; auto.
Qed.

Lemma triple_reads {A} (m : StateResult.M Storage A) D Q :
  reads m Q → triple (on D) m (λ a s, on D s ∧ Q (dirs s) a) (on D).
Proof.
  intros Hm s Hs. destruct (Hm s) as [Hd Hq]. unfold on in *. destruct (m s) as [s' [a|e|]]; cbn [fst snd] in *; rewrite ?Hd; auto.
Qed.

Lemma keeps_reads {A} (m : StateResult.M Storage A) D Q : reads m Q → keeps (on D) m.
Proof. intros Hm. eapply triple_weaken; [exact (triple_reads m D Q Hm)|done|intros a s H; apply H|done]. Qed.

Lemma reads_verified_blob d sha :
  reads (read_verified_blob d sha) (λ m c, blob_at (dir_at m d) sha = Some c ∧ sha256_hex c = sha).
Proof.
  unfold read_verified_blob. eapply reads_weaken.
  - apply reads_bind; [apply reads_lift|intros ?]. apply reads_bind; [apply reads_io|intros ?].
    eapply (reads_bind _ _ _ (λ dir m c, blob_at dir sha = Some c ∧ sha256_hex c = sha)); [apply reads_dir|].
    intros dir. destruct (blob_at dir sha) as [content|]; [|apply reads_fail].
    destruct (str_eqb _ _) eqn:E; [|apply reads_fail]. apply str_eqb_eq in E. by apply reads_ret.
  - intros fs c (? & _ & ? & _ & dir & -> & H). done.
Qed.

Lemma reads_file_version d sha :
  reads (get_file_version d sha) (λ m c, blob_at (dir_at m d) sha = Some c ∧ sha256_hex c = sha ∧ PatchText.valid_utf8 c = true).
Proof.
  unfold get_file_version. eapply reads_weaken.
  - eapply (reads_bind _ _ _ (λ b m c, c = b ∧ PatchText.valid_utf8 c = true)); [apply reads_verified_blob|].
    intros b. destruct (PatchText.valid_utf8 b) eqn:E; [|apply reads_fail]. by apply reads_ret.
  - intros fs c (b & [H1 H2] & -> & H3). done.
Qed.

Lemma reads_stored d sha {A} (a : A) : reads (do! _ := get_file_version d sha in ret a) (λ m _, stored (dir_at m d) sha).
Proof.
  eapply reads_weaken; [apply reads_bind; [apply reads_file_version|intros; by apply (reads_ret _ (λ _ _, True))]|].
  intros fs _ (c & H & _). by exists c.
Qed.

Lemma reads_validate d x : reads (validate_initial_blob_references d x) (λ m _, refs_stored (dir_at m d) x).
Proof.
  unfold validate_initial_blob_references. eapply reads_weaken.
  - apply reads_bind.
    + apply (reads_for_each _ (λ _ path, is_Some (file_blobs x !! path))). intros path.
      destruct (file_blobs x !! path); [by apply reads_ret|apply reads_fail].
    + intros ?. apply (reads_for_each _ (λ m sha, stored (dir_at m d) sha)). intros sha. apply reads_stored.
  - intros fs [] (_ & H1 & H2). split.
    + intros path Hp. apply H1. by apply elem_of_hash_keys.
    + intros path sha Hp. apply H2. apply elem_of_hash_values. eauto.
Qed.

Lemma reads_oversized d max_bytes : reads (reject_oversized_checkpoints_file d max_bytes) (λ _ _, True).
Proof.
  unfold reject_oversized_checkpoints_file. eapply reads_weaken.
  - apply reads_bind; [apply reads_io|intros ?]. eapply (reads_bind _ _ _ (λ _ _ _, True)); [apply reads_dir|].
    intros dir. destruct (checkpoints_file dir); [|by apply reads_ret]. case_match; [by apply reads_ret|apply reads_fail].
  - done.
Qed.

(** What a log holds, or nothing when it is not seen. *)
Lemma reads_checkpoints d max_bytes :
  reads (read_all_checkpoints_with_size_limit d max_bytes) (λ m cs, logged m d = Ret cs ∨ cs = [] ∧ blind).
Proof.
  unfold read_all_checkpoints_with_size_limit.
  assert (reads (do! _ := reject_oversized_checkpoints_file d max_bytes in do! _ := io in do! dir := the_dir d in
    do! checkpoints := lift (parse_checkpoints (lines (default [] (checkpoints_file dir)))) in ret (migrate checkpoints))
    (λ m cs, ∃ ps, parse_checkpoints (lines (default [] (checkpoints_file (dir_at m d)))) = Ret ps ∧ cs = migrate ps)) as H.
  { eapply reads_weaken.
    - apply reads_bind; [apply reads_oversized|intros ?]. apply reads_bind; [apply reads_io|intros ?].
      eapply (reads_bind _ _ _ (λ dir _ cs, ∃ ps, parse_checkpoints (lines (default [] (checkpoints_file dir))) = Ret ps ∧ cs = migrate ps));
        [apply reads_dir|]. intros dir.
      eapply reads_weaken; [eapply (reads_bind _ _ _ (λ ps _ cs, cs = migrate ps)); [apply reads_lift|intros; by apply reads_ret]|].
      intros fs cs (ps & H & ->). by exists ps.
    - intros fs cs (_ & _ & _ & _ & dir & -> & H). done. }
  eapply reads_weaken.
  - eapply (reads_bind _ _ (λ m (b : bool), if b then is_Some (checkpoints_file (dir_at m d)) else checkpoints_file (dir_at m d) = None ∨ blind)
      (λ (b : bool) m cs, if b then ∃ ps, parse_checkpoints (lines (default [] (checkpoints_file (dir_at m d)))) = Ret ps ∧ cs = migrate ps
                 else cs = [])).
    + intros s. split; [done|]. intros ? [= <-]. destruct (unseen (calls s)) eqn:Eu; cbn [negb andb]; [right; by exists (calls s)|].
      case_bool_decide as E; [exact E|]. left. by apply eq_None_not_Some.
    + intros []; [exact H|by apply reads_ret].
  - intros fs cs (b & Hb & Hcs). unfold logged, logged_in. destruct b.
    + left. destruct Hcs as (ps & Hps & ->). destruct Hb as [text Ht]. rewrite Ht in *.
      change (default [] (Some text)) with text in Hps. by rewrite Hps.
    + subst cs. destruct Hb as [-> | ?]; [by left|by right].
Qed.

Lemma reads_any_checkpoints d max_bytes : reads (read_all_checkpoints_with_size_limit d max_bytes) (λ _ _, True).
Proof. eapply reads_weaken; [apply reads_checkpoints|done]. Qed.

Lemma reads_all_checkpoints `{seen : !StatsAnswer} d max_bytes :
  reads (read_all_checkpoints_with_size_limit d max_bytes) (λ m cs, logged m d = Ret cs).
Proof.
  eapply reads_weaken; [apply reads_checkpoints|]. intros fs cs [H|[_ [n Hn]]]; [done|]. by rewrite stats_answer in Hn.
Qed.

Lemma reads_initial d :
  reads (read_initial_attributions d) (λ m x, initially m d = Ret x ∧ refs_stored (dir_at m d) x).
Proof.
  unfold read_initial_attributions.
  apply (reads_weaken _ (λ m x, ∃ _ : unit, True ∧ ∃ dir, dir = dir_at m d ∧
    (match initial_file dir with
     | None => Ret no_initial
     | Some text => if PatchText.valid_utf8 text then let? x := initial_of_json text in Ret (record_traces x)
                    else Fail (lit "cannot read preserved INITIAL")
     end = Ret x ∧ refs_stored (dir_at m d) x))).
  2:{ intros fs x (_ & _ & dir & -> & H). exact H. }
  apply reads_bind; [apply reads_io|intros ?].
  eapply (reads_bind _ _ _ (λ dir m x, match initial_file dir with
     | None => Ret no_initial
     | Some text => if PatchText.valid_utf8 text then let? x := initial_of_json text in Ret (record_traces x)
                    else Fail (lit "cannot read preserved INITIAL")
     end = Ret x ∧ refs_stored (dir_at m d) x)); [apply reads_dir|].
  intros dir. destruct (initial_file dir) as [text|].
  - destruct (PatchText.valid_utf8 text); [|apply reads_fail]. cbn [negb]. eapply reads_weaken.
    + apply reads_bind; [apply reads_lift|]. intros x.
      eapply (reads_bind _ _ _ (λ _ _ y, y = record_traces x)); [apply (reads_validate d x)|]. intros ?. by apply reads_ret.
    + intros fs y (x & -> & _ & Hx & ->). split; [done|]. exact Hx.
  - apply reads_ret. intros m. split; [done|]. split; [by intros path [? ?]|done].
Qed.

(** *** Writing *)

Lemma keeps_io D : keeps (on D) io.
Proof. intros s Hs. unfold io. by destruct (fault (calls s)). Qed.
Lemma keeps_try_io D : keeps (on D) try_io.
Proof. by intros s Hs. Qed.
Lemma keeps_the_dir D d : keeps (on D) (the_dir d).
Proof. apply keeps_gets. Qed.
Lemma keeps_exists D d : keeps (on D) (exists_dir d).
Proof. by intros s Hs. Qed.
Lemma keeps_exists_in {A : Type} D d (f : LogDir → option A) : keeps (on D) (exists_in d f).
Proof. by intros s Hs. Qed.
Lemma keeps_sync D d : keeps (on D) (sync_working_log_parent_directory d).
Proof. apply keeps_bind; [apply keeps_gets|intros []]; [apply keeps_io|apply keeps_fail]. Qed.
Lemma keeps_set_dirs D f : (∀ m, D m → D (f m)) → keeps (on D) (set_dirs f).
Proof. intros H. apply keeps_modify. intros s Hs. by apply H. Qed.
Lemma keeps_ignore {A} D (m : StateResult.M Storage A) : keeps (on D) m → keeps (on D) (ignore m).
Proof. intros H s Hs. specialize (H s Hs). unfold ignore. by destruct (m s) as [s' [a|e|]]. Qed.
Lemma keeps_for_each {A} D (f : A → StateResult.M Storage unit) l : (∀ x, keeps (on D) (f x)) → keeps (on D) (for_each f l).
Proof. intros Hf. induction l as [|x l IH]; [apply keeps_ret|]. apply keeps_bind; [apply Hf|by intros]. Qed.

Lemma triple_pre {A : Type} (m : StateResult.M Storage A) P P' Q E :
  (∀ s, P s → P' s) → triple P' m Q E → triple P m Q E.
Proof. intros HP Hm. by eapply triple_weaken. Qed.

Lemma triple_keeps {A : Type} (F E : gmap Dir LogDir → Prop) (m : StateResult.M Storage A) :
  (∀ fs, F fs → E fs) → keeps (on F) m → triple (on F) m (λ _, on F) (on E).
Proof. intros HF Hm. eapply triple_weaken; [exact Hm|done|done|]. intros s. apply HF. Qed.

Lemma keeps_update_dir D d f : (∀ m, D m → D (alter f d m)) → keeps (on D) (update_dir d f).
Proof. apply keeps_set_dirs. Qed.
Lemma keeps_create D d : (∀ m, D m → D (<[d := dir_at m d]> m)) → keeps (on D) (create_dir_all d).
Proof. intros H. apply keeps_bind; [apply keeps_io|intros ?]. by apply keeps_set_dirs. Qed.

(** A removal takes the directory away, or fails and may leave a part. *)
Lemma triple_remove (D E : gmap Dir LogDir → Prop) d :
  (∀ m, D m → D (delete d m)) → (∀ m, D m → E m) →
  (∀ m dir kept, m !! d = Some dir → D m → E (<[d := leftover kept dir]> m)) → triple (on D) (remove_dir_all d) (λ _, on D) (on E).
Proof.
  intros H1 H2 H3 s Hs. unfold remove_dir_all, on in *. destruct (dirs s !! d) as [dir|] eqn:Ed; [|by apply H2].
  destruct (fault (calls s)); [by apply (H3 _ dir)|by apply H1].
Qed.
Lemma keeps_remove D d :
  (∀ m, D m → D (delete d m)) → (∀ m dir kept, m !! d = Some dir → D m → D (<[d := leftover kept dir]> m)) →
  keeps (on D) (remove_dir_all d).
Proof. intros H1 H2. by apply triple_remove. Qed.
Lemma keeps_rename_dir D old new :
  (∀ m dir, m !! old = Some dir → D m → D (<[new := dir]> (delete old m))) → keeps (on D) (rename_dir old new).
Proof.
  intros H. apply keeps_bind; [apply keeps_io|intros ?].
  eapply (triple_bind _ _ _ (λ m s, m = dirs s ∧ on D s)); [by apply triple_gets|].
  intros m s [-> Hs]. destruct (dirs s !! old) as [dir|] eqn:Eo; [|done].
  destruct (dirs s !! new) as [t|]; [case_bool_decide; [|done]|]; unfold set_dirs, modify, on in *; cbn; rewrite ?Eo; by apply H.
Qed.
Lemma keeps_write_file D d set text : (∀ m t, D m → D (alter (set t) d m)) → keeps (on D) (write_file d set text).
Proof.
  intros H. apply keeps_bind; [apply keeps_sync|intros ?]. apply keeps_bind; [apply keeps_update_dir; intros m; apply H|intros ?].
  intros s Hs. cbv zeta. destruct (fault (calls s)); by apply H.
Qed.

(** The file is replaced at one moment: before it the old state, after it the
    new one. *)
Lemma triple_replace_exact (D E E' : gmap Dir LogDir → Prop) d text publish :
  (∀ m, D m → E' m) → (∀ m t, text = Ret t → D m → E (alter (publish t) d m)) → (∀ m, E m → E' m) →
  triple (on D) (replace_file d text publish) (λ _, on E) (on E').
Proof.
  intros Hold Hnew HE. unfold replace_file.
  eapply triple_bind; [apply (triple_keeps D); [done|apply keeps_io]|intros ?].
  eapply (triple_bind _ _ _ (λ t s, on D s ∧ text = Ret t)); [apply triple_lift; [done|]; intros s; apply Hold|].
  intros t s [Hs Ht]. revert s Hs.
  do 3 (eapply triple_bind; [apply (triple_keeps D); [done|apply keeps_io]|intros ?]).
  eapply (triple_bind _ _ _ (λ _, on E)).
  - apply triple_modify. intros s. by apply Hnew.
  - intros _. eapply triple_bind; [apply triple_keeps; [done|apply keeps_io]|intros ?]. apply triple_keeps; [done|apply keeps_sync].
Qed.

Lemma triple_replace D D' d text publish :
  (∀ m, D m → D' m) → (∀ m t, text = Ret t → D m → D' (alter (publish t) d m)) →
  triple (on D) (replace_file d text publish) (λ _, on D') (on D').
Proof. intros Hold Hnew. by apply triple_replace_exact. Qed.

Lemma keeps_replace D d text publish :
  (∀ m t, text = Ret t → D m → D (alter (publish t) d m)) → keeps (on D) (replace_file d text publish).
Proof. intros H. by apply triple_replace. Qed.

(** *** Directories that are whole *)

Lemma stored_ext dir dir' sha : (∀ sha, blob_at dir' sha = blob_at dir sha) → stored dir sha → stored dir' sha.
Proof. intros H (c & Hc). exists c. by rewrite H. Qed.

Lemma refs_stored_ext dir dir' x : (∀ sha, blob_at dir' sha = blob_at dir sha) → refs_stored dir x → refs_stored dir' x.
Proof. intros H [H1 H2]. split; [done|]. intros path sha Hp. by eapply stored_ext, H2. Qed.

Lemma dir_ok_ext dir dir' :
  (∀ sha, blob_at dir' sha = blob_at dir sha) → initial_file dir' = initial_file dir →
  checkpoints_file dir' = checkpoints_file dir → dir_ok dir → dir_ok dir'.
Proof.
  intros Hb Hi Hc []. split.
  - intros sha c. rewrite Hb. apply blobs_named0.
  - intros json. rewrite Hi. intros (x & Hx & Hr)%initial_whole0. exists x. split; [done|]. by eapply refs_stored_ext.
  - by rewrite Hc.
Qed.

Lemma empty_dir_ok : dir_ok empty_dir.
Proof. by split. Qed.

Lemma blob_at_create dir sha : blob_at (set_blobs (Some (default ∅ (blobs dir))) dir) sha = blob_at dir sha.
Proof. unfold blob_at. cbn. by destruct (blobs dir). Qed.

Lemma blob_at_add sha content dir x :
  blob_at (add_blob sha content dir) x = if decide (sha = x) then Some content else blob_at dir x.
Proof.
  unfold blob_at, add_blob. cbn. rewrite lookup_insert. destruct (decide (sha = x)); [done|].
  destruct (blobs dir); [done|]. cbn. apply lookup_empty.
Qed.

Lemma stored_add dir content sha :
  PatchText.valid_utf8 content = true → stored dir sha → stored (add_blob (sha256_hex content) content dir) sha.
Proof.
  intros Hu (c & Hc & Hs & Hv). unfold stored. setoid_rewrite blob_at_add.
  destruct (decide (sha256_hex content = sha)) as [E|]; [by exists content|by exists c].
Qed.

Lemma add_blob_ok dir content : PatchText.valid_utf8 content = true → dir_ok dir → dir_ok (add_blob (sha256_hex content) content dir).
Proof.
  intros Hu []. split; [| |done].
  - intros sha c. rewrite blob_at_add. case_decide as E; [intros [= <-]; by subst|]. apply blobs_named0.
  - intros json (x & Hx & H1 & H2)%initial_whole0. exists x. split; [done|]. split; [done|]. intros path sha Hp.
    by eapply stored_add, H2.
Qed.

Lemma dir_at_ok m d : storage_ok m → archived d = false → dir_ok (dir_at m d).
Proof. intros H Ha. unfold dir_at. destruct (m !! d) as [dir|] eqn:E; [by apply (H d)|apply empty_dir_ok]. Qed.

Lemma storage_insert m d dir : storage_ok m → (archived d = false → dir_ok dir) → storage_ok (<[d := dir]> m).
Proof. intros H Hd. by apply map_Forall_insert_2. Qed.

Lemma storage_alter m d f :
  storage_ok m → (∀ dir, m !! d = Some dir → archived d = false → dir_ok dir → dir_ok (f dir)) → storage_ok (alter f d m).
Proof.
  intros H Hf d' dir'. rewrite lookup_alter_Some. intros [(-> & dir & Hd & ->)|[_ Hd]]; [|by apply (H d')].
  intros Ha. apply Hf; [done..|]. by apply (H d').
Qed.

Lemma storage_delete m d : storage_ok m → storage_ok (delete d m).
Proof. apply map_Forall_delete. Qed.

Local Abbreviation ok := (on storage_ok).

Lemma ok_create d : keeps ok (create_dir_all d).
Proof. apply keeps_create. intros m Hm. apply storage_insert; [done|]. by apply dir_at_ok. Qed.
Lemma ok_remove d : archived d = true → keeps ok (remove_dir_all d).
Proof.
  intros Ha. apply keeps_remove; [intros m; apply storage_delete|]. intros m dir kept _ Hm. apply storage_insert; [done|]. congruence.
Qed.
Lemma ok_rename old new : archived old = false ∨ archived new = true → keeps ok (rename_dir old new).
Proof.
  intros Ha. apply keeps_rename_dir. intros m dir Ho Hm. apply storage_insert; [by apply storage_delete|].
  intros Hn. apply (Hm old); [done|]. destruct Ha; congruence.
Qed.
Lemma ok_update d f : (∀ dir, dir_ok dir → dir_ok (f dir)) → keeps ok (update_dir d f).
Proof. intros Hf. apply keeps_set_dirs. intros m Hm. apply storage_alter; [done|]. intros dir _ _. apply Hf. Qed.
Lemma ok_replace d text f : (∀ dir t, text = Ret t → dir_ok dir → dir_ok (f t dir)) → keeps ok (replace_file d text f).
Proof. intros Hf. apply keeps_replace. intros m t Ht Hm. apply storage_alter; [done|]. intros dir _ _. by apply Hf. Qed.

Lemma ok_persist d content : PatchText.valid_utf8 content = true → keeps ok (persist_file_version d content).
Proof.
  intros Hu. unfold persist_file_version, create_blobs_dir.
  apply keeps_bind; [apply keeps_bind; [apply ok_create|intros ?]|intros ?].
  { apply ok_update. intros dir. apply dir_ok_ext; [apply blob_at_create|done..]. }
  apply keeps_bind; [apply keeps_sync|intros ?]. apply keeps_bind; [apply keeps_io|intros ?].
  apply keeps_bind; [apply keeps_the_dir|intros dir]. destruct (blob_at dir (sha256_hex content)).
  - apply keeps_bind; [|intros; apply keeps_ret]. apply keeps_bind; [eapply keeps_reads, reads_verified_blob|intros actual].
    destruct (negb _); [apply keeps_fail|]. apply keeps_bind; [apply keeps_io|intros ?; apply keeps_sync].
  - apply keeps_bind; [|intros; apply keeps_ret]. apply ok_replace. intros dir' t [= <-]. by apply add_blob_ok.
Qed.

Lemma ok_write_checkpoints d cs : keeps ok (write_all_checkpoints d cs).
Proof.
  unfold write_all_checkpoints. apply keeps_bind; [apply ok_create|intros ?].
  apply ok_replace. intros dir text Ht []. split; [done|done|]. intros t [= <-]. by exists cs.
Qed.

Lemma ok_append d c : keeps ok (append_checkpoint_idempotent d c).
Proof.
  unfold append_checkpoint_idempotent. apply keeps_bind; [eapply keeps_reads, reads_any_checkpoints|intros cs].
  unfold append_checkpoint_idempotent_to. destruct (trace_id c) as [t|]; [destruct (existsb _ _); [apply keeps_ret|]|];
    (apply keeps_bind; [apply ok_write_checkpoints|intros; apply keeps_ret]).
Qed.

Lemma ok_quarantine d max_bytes : keeps ok (quarantine_oversized_checkpoints_for_stash_with_limit d max_bytes).
Proof.
  unfold quarantine_oversized_checkpoints_for_stash_with_limit. apply keeps_bind; [apply keeps_io|intros ?].
  apply keeps_bind; [apply keeps_the_dir|intros dir]. destruct (checkpoints_file dir); [|apply keeps_ret].
  case_match; [apply keeps_ret|]. apply keeps_bind; [apply keeps_gets|intros now]. apply keeps_bind; [apply keeps_io|intros ?].
  apply keeps_bind; [apply ok_update; intros dir' []; by split|intros ?]. apply keeps_bind; [apply keeps_sync|intros ?].
  apply keeps_bind; [apply ok_write_checkpoints|intros; apply keeps_ret].
Qed.

Context `{laws : !EnvironmentLaws}.

Lemma ok_write_initial d x : keeps ok (write_initial d x).
Proof.
  unfold write_initial. case_bool_decide.
  - apply keeps_bind; [apply keeps_io|intros ?]. apply keeps_bind; [|intros ?; apply keeps_sync].
    apply ok_update. intros dir []. by split.
  - set (data := mkInitial _ _ _ _ _).
    eapply (triple_bind _ _ _ (λ _ s, on (λ m, storage_ok m ∧ refs_stored (dir_at m d) data) s)).
    { eapply triple_weaken; [apply (triple_reads _ storage_ok _ (reads_validate d data))|done|done|done]. }
    intros _. eapply (triple_bind _ _ _ (λ _ s, on (λ m, storage_ok m ∧ refs_stored (dir_at m d) data) s)).
    { assert (keeps (on (λ m, storage_ok m ∧ refs_stored (dir_at m d) data)) (create_dir_all d)) as Hc.
      { apply keeps_bind; [apply keeps_io|intros ?]. apply keeps_set_dirs. intros m [Hm Hr]. split.
        - apply storage_insert; [done|]. by apply dir_at_ok.
        - unfold dir_at at 1. by rewrite lookup_insert_eq. }
      eapply triple_weaken; [exact Hc|done|done|intros s H'; apply H']. }
    intros _. apply triple_replace; [by intros m [? _]|]. intros m json Hj [Hm Hr].
    apply storage_alter; [done|]. intros dir Hd _ []. split; [done| |done]. intros j [= <-]. exists data. split; [done|].
    unfold dir_at in Hr. rewrite Hd in Hr. by eapply refs_stored_ext.
Qed.

Lemma ok_persist_contents d contents bs paths :
  map_Forall (λ _ c, PatchText.valid_utf8 c = true) contents → keeps ok (persist_contents d contents bs paths).
Proof.
  intros Hu. revert bs. induction paths as [|path paths IH]; intros bs; [apply keeps_ret|]. cbn [persist_contents].
  destruct (contents !! path) as [c|] eqn:E; [|apply keeps_fail]. apply keeps_bind; [apply ok_persist; by apply (Hu path)|].
  intros sha. apply IH.
Qed.

Lemma ok_copy source target copied shas : keeps ok (copy_blobs source target copied shas).
Proof.
  revert copied. induction shas as [|sha shas IH]; intros copied; [apply keeps_ret|]. cbn [copy_blobs].
  case_bool_decide; [apply IH|].
  eapply (triple_bind _ _ _ (λ c s, ok s ∧ PatchText.valid_utf8 c = true)).
  { eapply triple_weaken; [apply (triple_reads _ storage_ok _ (reads_file_version source sha))|done| |done].
    intros c s (Hs & _ & _ & Hu). done. }
  intros c s [Hs Hu]. revert s Hs. apply keeps_bind; [by apply ok_persist|intros sha']. destruct (negb _); [apply keeps_fail|apply IH].
Qed.

Lemma ok_validate_checkpoint d c : keeps ok (validate_checkpoint_blob_references d c).
Proof. apply keeps_for_each. intros e. eapply keeps_reads, reads_stored. Qed.

Lemma ok_merge old new : keeps ok (merge_working_log_dirs old new).
Proof.
  unfold merge_working_log_dirs.
  do 2 (apply keeps_bind; [eapply keeps_reads, reads_initial|intros]).
  do 2 (apply keeps_bind; [eapply keeps_reads, reads_any_checkpoints|intros]).
  do 2 (apply keeps_bind; [apply keeps_for_each; intros; apply ok_validate_checkpoint|intros ?]).
  apply keeps_bind; [apply ok_copy|intros ?]. apply keeps_bind; [apply ok_write_initial|intros ?]. apply ok_write_checkpoints.
Qed.

(** All logs but one are whole. *)
Definition ok_but (d : Dir) (m : gmap Dir LogDir) : Prop := map_Forall (λ d' dir, archived d' = false → d' ≠ d → dir_ok dir) m.

Lemma ok_ok_but d m : storage_ok m → ok_but d m.
Proof. intros H d' dir Hd Ha _. by apply (H d'). Qed.
Lemma ok_but_ok d m : ok_but d m → dir_ok (dir_at m d) → storage_ok m.
Proof.
  intros H Hd d' dir Hm Ha. destruct (decide (d' = d)) as [->|]; [|by apply (H d')]. unfold dir_at in Hd. by rewrite Hm in Hd.
Qed.
Lemma ok_but_insert d m dir : ok_but d m → ok_but d (<[d := dir]> m).
Proof. intros H. by apply map_Forall_insert_2. Qed.
Lemma ok_but_alter d m f : ok_but d m → ok_but d (alter f d m).
Proof. intros H d' dir'. rewrite lookup_alter_Some. intros [(-> & _)|[_ Hd]]; [done|by apply (H d')]. Qed.

Lemma ok_rename_log old new :
  archived (log_dir old) = false → triple ok (rename_working_log old new) (λ _, ok) (on (ok_but (log_dir old))).
Proof.
  intros Ha. assert (∀ m, storage_ok m → ok_but (log_dir old) m) as HE by (intros m; apply ok_ok_but).
  unfold rename_working_log. destruct (str_eqb old new); [by apply triple_keeps, keeps_ret|].
  do 2 (eapply triple_bind; [apply triple_keeps; [exact HE|apply keeps_exists]|intros []]); cbn [negb].
  - eapply triple_bind; [apply triple_keeps; [exact HE|apply ok_merge]|intros ?].
    eapply triple_bind; [apply triple_remove; [intros m; apply storage_delete|exact HE|]|intros ?].
    + intros m dir kept _ Hm. by apply ok_but_insert, HE.
    + apply triple_keeps; [exact HE|apply keeps_io].
  - eapply triple_bind; [apply triple_keeps; [exact HE|apply ok_rename; by left]|intros ?].
    apply triple_keeps; [exact HE|apply keeps_io].
  - apply triple_keeps; [exact HE|apply keeps_io].
  - apply triple_keeps; [exact HE|apply keeps_ret].
Qed.

Lemma dir_at_alter m d f : dir_at (alter f d m) d = f (dir_at m d) ∨ dir_at (alter f d m) d = empty_dir.
Proof. unfold dir_at. rewrite lookup_alter_eq. destruct (m !! d); [by left|by right]. Qed.

(** Taking a log apart: whole at the end, when the files were seen. *)
Lemma reset_spec d : triple ok (reset_working_log d) (λ _, on (λ m, ok_but d m ∧ (StatsAnswer → storage_ok m))) (on (ok_but d)).
Proof.
  set (B := λ m : gmap Dir LogDir, ok_but d m ∧ (StatsAnswer → blobs (dir_at m d) = None)).
  set (C := λ m, B m ∧ (checkpoints_file (dir_at m d) = None ∨ checkpoints_file (dir_at m d) = Some [])).
  assert (∀ m f, ok_but d m → (∀ dir, blobs dir = None → blobs (f dir) = None) → B m → B (alter f d m)) as HB.
  { intros m f Hm Hf [_ Hb]. split; [by apply ok_but_alter|]. intros H. destruct (dir_at_alter m d f) as [-> | ->]; auto. }
  unfold reset_working_log.
  eapply (triple_bind _ _ _ (λ b, on (λ m, storage_ok m ∧ (StatsAnswer → b = bool_decide (is_Some (blobs (dir_at m d))))))).
  { intros s Hs. split; [done|]. intros H. by rewrite H. }
  intros b. eapply (triple_bind _ _ _ (λ _, on B)).
  - destruct b.
    + intros s [Hs _]. unfold remove_blobs_dir, on in *. cbv zeta. destruct (fault (calls s)) as [e|].
      * by apply ok_but_alter, ok_ok_but.
      * split; [by apply ok_but_alter, ok_ok_but|]. intros _. cbn.
        by destruct (dir_at_alter (dirs s) d (λ dir, set_blobs None dir)) as [-> | ->].
    + apply triple_ret. intros s [Hs Hb]. split; [by apply ok_ok_but|]. intros H. specialize (Hb H). symmetry in Hb.
      apply bool_decide_eq_false, eq_None_not_Some in Hb. done.
  - intros ?. eapply (triple_bind _ _ _ (λ _, on C)).
    + unfold write_file. assert (∀ m, B m → ok_but d m) as HE by by intros m [].
      eapply triple_bind; [apply (triple_keeps B); [exact HE|apply keeps_sync]|intros ?].
      eapply triple_bind; [apply (triple_keeps B); [exact HE|apply keeps_update_dir; intros m Hm; by apply HB; [apply HE| |]]|intros ?].
      intros s Hs. cbv zeta. assert (∀ t, B (alter (set_checkpoints t) d (dirs s))) as Ht by (intros t; by apply HB; [apply HE| |]).
      destruct (fault (calls s)); [apply HE, Ht|]. split; [apply Ht|]. cbn.
      destruct (dir_at_alter (dirs s) d (set_checkpoints (Some []))) as [-> | ->]; [by right|by left].
    + intros ?. eapply (triple_bind _ _ _ (λ b, on (λ m, C m ∧ (StatsAnswer → b = bool_decide (is_Some (initial_file (dir_at m d))))))).
      { intros s Hs. split; [done|]. intros H. by rewrite H. }
      assert (∀ m, C m → (StatsAnswer → initial_file (dir_at m d) = None) → ok_but d m ∧ (StatsAnswer → storage_ok m)) as Hend.
      { intros m [[Hm Hb] Hc] Hi. split; [done|]. intros H. apply (ok_but_ok d); [done|]. split.
        - intros sha content. unfold blob_at. by rewrite Hb.
        - intros json. by rewrite Hi.
        - intros text. destruct Hc as [-> | ->]; [done|]. intros [= <-]. by exists []. }
      intros [].
      * eapply (triple_bind _ _ _ (λ _, on C)); [apply (triple_pre _ _ (on C)); [by intros s []|]|].
        -- apply triple_keeps; [by intros m [[]]|apply keeps_io].
        -- intros ?. apply triple_modify. intros s Hs. apply Hend; cbn.
           ++ destruct Hs as [Hs Hc]. split; [apply HB; [apply Hs|done|done]|].
              destruct (dir_at_alter (dirs s) d (set_initial None)) as [-> | ->]; [exact Hc|by left].
           ++ intros _. by destruct (dir_at_alter (dirs s) d (set_initial None)) as [-> | ->].
      * apply triple_ret. intros s [Hs Hi]. apply Hend; [done|]. intros H. specialize (Hi H). symmetry in Hi.
        by apply bool_decide_eq_false, eq_None_not_Some in Hi.
Qed.

Lemma ok_prune : keeps ok prune_expired_old_working_logs.
Proof.
  unfold prune_expired_old_working_logs. apply keeps_bind; [apply keeps_try_io|intros []]; [|apply keeps_ret].
  apply keeps_bind; [apply keeps_gets|intros names]. apply keeps_for_each. intros name. unfold prune_expired.
  destruct (starts_with (lit "old-") name) eqn:E; [|apply keeps_ret]. cbn [negb].
  apply keeps_bind; [apply keeps_try_io|intros []]; [|apply keeps_ret].
  apply keeps_bind; [apply keeps_try_io|intros r]. apply keeps_bind; [apply keeps_the_dir|intros dir].
  case_match; [by apply keeps_ignore, ok_remove|apply keeps_ret].
Qed.

Lemma ok_delete sha : keeps ok (delete_working_log_for_base_commit sha).
Proof.
  unfold delete_working_log_for_base_commit. apply keeps_bind; [apply keeps_exists|intros []]; [|apply keeps_ret]. cbn [negb].
  assert (archived (log_dir (lit "old-" ++ sha)) = true) as Ha by (apply starts_with_spec; by eexists).
  apply keeps_bind; [apply keeps_exists|intros there]. apply keeps_bind; [destruct there; [by apply ok_remove|apply keeps_ret]|intros ?].
  apply keeps_bind; [apply ok_rename; by right|intros ?]. apply keeps_bind; [|intros ?; apply ok_prune].
  apply keeps_ignore, keeps_write_file. intros m t Hm. apply storage_alter; [done|]. congruence.
Qed.

Lemma ok_observe d : keeps ok (observed_file_snapshot d).
Proof.
  unfold observed_file_snapshot. apply keeps_bind; [eapply keeps_reads, reads_initial|intros x].
  apply keeps_bind.
  - generalize (∅ : gmap str str). induction (hash_keys (initial_files x)) as [|path paths IH]; intros m; [apply keeps_ret|].
    cbn [initial_snapshot]. apply keeps_bind.
    + unfold stored_initial_file_content_from. destruct (file_blobs x !! path); [|apply keeps_ret].
      apply keeps_bind; [eapply keeps_reads, reads_file_version|intros; apply keeps_ret].
    + intros [c|]; [apply IH|apply keeps_fail].
  - intros m. apply keeps_bind; [eapply keeps_reads, reads_any_checkpoints|intros cs]. revert m.
    induction (flat_map entries cs) as [|e es IH]; intros m; [apply keeps_ret|]. cbn [entries_snapshot].
    apply keeps_bind; [eapply keeps_reads, reads_file_version|intros c; apply IH].
Qed.

Lemma ok_op op : op_ok op → removal_target op = None → keeps ok (run_op op).
Proof.
  destruct op; cbn [op_ok run_op removal_target]; intros Hop Hr; try done.
  - apply keeps_ignore, keeps_bind; [apply ok_create|intros ?]. apply keeps_bind; [apply keeps_io|intros; apply keeps_ret].
  - apply ok_delete.
  - apply ok_prune.
  - by apply keeps_ignore, ok_persist.
  - apply keeps_bind; [apply ok_append|intros; apply keeps_ret].
  - apply ok_write_checkpoints.
  - apply keeps_ignore. apply keeps_bind; [eapply keeps_reads, reads_any_checkpoints|intros cs].
    apply keeps_bind; [apply keeps_lift|intros cs']. apply keeps_bind; [apply ok_write_checkpoints|intros; apply keeps_ret].
  - apply keeps_ignore, ok_quarantine.
  - apply ok_write_initial.
  - apply keeps_bind; [by apply ok_persist_contents|intros; apply ok_write_initial].
  - apply keeps_ignore, ok_observe.
Qed.

(** What an operation leaves: all logs whole, or all but the one it failed to
    take apart. *)
Lemma op_leaves op s :
  op_ok op → storage_ok (dirs s) →
  match removal_target op with
  | None => storage_ok (dirs (run_op op s).1)
  | Some d => ok_but d (dirs (run_op op s).1) ∧ ((run_op op s).2 = Ret tt → StatsAnswer → storage_ok (dirs (run_op op s).1))
  end.
Proof.
  intros Hop Hs. destruct (removal_target op) as [d|] eqn:Er; [|exact (keeps_state ok _ s (ok_op op Hop Er) Hs)].
  destruct op; try done; cbn [op_ok run_op removal_target] in *; injection Er as <-.
  - pose proof (ok_rename_log old new0 Hop s Hs) as H. destruct (rename_working_log old new0 s) as [s' [[]|e|]]; cbn [fst snd].
    + split; [by apply ok_ok_but|done].
    + by split.
    + by split.
  - pose proof (reset_spec d0 s Hs) as H. destruct (reset_working_log d0 s) as [s' [[]|e|]]; cbn [fst snd].
    + by destruct H.
    + by split.
    + by split.
Qed.

Lemma no_removals s ops : Forall (λ op, removal_target op = None) ops → removals_finish s ops.
Proof.
  intros H. revert s. induction H as [|op ops Hop _ IH]; intros s; [done|]. split; [rewrite Hop; by intros [? [=]]|apply IH].
Qed.

Lemma ok_run s ops :
  storage_ok (dirs s) → Forall op_ok ops → removals_finish s ops → storage_ok (dirs (run_history s ops)).
Proof.
  intros Hs Hops. revert s Hs. induction Hops as [|op ops Hop _ IH]; intros s Hs; [done|]. cbn [removals_finish run_history foldl].
  intros [H1 H2]. apply IH; [|done]. pose proof (op_leaves op s Hop Hs) as H. destruct (removal_target op); [|done].
  by apply H; apply H1.
Qed.

(** *** Reading what the storage wrote *)

Lemma parse_written cs text :
  checkpoints_text cs = Ret text →
  parse_checkpoints (lines text) = Ret (List.filter (λ c, str_eqb (api_version c) CHECKPOINT_API_VERSION) cs).
Proof.
  revert text. induction cs as [|c cs IH]; intros text; [by intros [= <-]|]. cbn [checkpoints_text].
  destruct (checkpoint_to_json c) as [json|e|] eqn:Ej; [|done..]. cbn [obind].
  destruct (checkpoints_text cs) as [rest|e|]; [|done..]. cbn [obind]. intros [= <-].
  destruct (checkpoint_read_back _ _ Ej) as (Hu & Hc & Hl & Hr & Ht).
  change (json ++ LF :: rest) with (json ++ LF :: rest). rewrite lines_line by done. rewrite strip_cr_id by done.
  cbn [parse_checkpoints]. rewrite Hu. cbn [negb]. rewrite bool_decide_false by done. rewrite Hc. cbn [obind].
  rewrite (IH rest eq_refl). cbn [obind List.filter]. by destruct (str_eqb _ _).
Qed.

(** A reading computation that fails only when a system call does. *)
Definition honest {A : Type} (D : gmap Dir LogDir → Prop) (m : StateResult.M Storage A) (Q : gmap Dir LogDir → A → Prop) : Prop :=
  ∀ s, D (dirs s) → match (m s).2 with
                    | Ret a => Q (dirs s) a
                    | Fail e => ∃ n, fault n = Some e
                    | Panic => False
                    end.

Lemma honest_ret {A : Type} (D : gmap Dir LogDir → Prop) (a : A) (Q : gmap Dir LogDir → A → Prop) : (∀ m, D m → Q m a) → honest D (ret a) Q.
Proof. intros H s Hs. by apply H. Qed.
Lemma honest_io (D : gmap Dir LogDir → Prop) : honest D io (λ m _, D m).
Proof. intros s Hs. unfold io. cbn. destruct (fault (calls s)) eqn:E; [eauto|done]. Qed.
Lemma honest_dir (D : gmap Dir LogDir → Prop) d : honest D (the_dir d) (λ m dir, D m ∧ dir = dir_at m d).
Proof. by intros s Hs. Qed.
Lemma honest_lift {A : Type} (D : gmap Dir LogDir → Prop) (r : result A) a : r = Ret a → honest D (lift r) (λ m b, D m ∧ b = a).
Proof. intros -> s Hs. done. Qed.

Lemma honest_bind {A B : Type} (m : StateResult.M Storage A) (k : A → StateResult.M Storage B) (D : gmap Dir LogDir → Prop) Q R T :
  reads m T → honest D m Q → (∀ a, honest (λ fs, Q fs a) (k a) R) → honest D (bind m k) R.
Proof.
  intros Hr Hm Hk s Hs. specialize (Hm s Hs). destruct (Hr s) as [Hd _]. unfold bind.
  destruct (m s) as [s' [a|e|]]; cbn [fst snd] in *; [|done..]. specialize (Hk a s').
  rewrite Hd in Hk. apply Hk, Hm.
Qed.

Lemma honest_pure {A : Type} (D : gmap Dir LogDir → Prop) P (m : StateResult.M Storage A) Q :
  (P → honest D m Q) → honest (λ fs, D fs ∧ P) m Q.
Proof. intros H s [Hs HP]. by apply H. Qed.

Lemma honest_for_each {A : Type} (D : gmap Dir LogDir → Prop) (f : A → StateResult.M Storage unit) T l :
  (∀ x, reads (f x) T) → (∀ x, x ∈ l → honest D (f x) (λ m _, D m)) → honest D (for_each f l) (λ m _, D m).
Proof.
  intros Hr. induction l as [|x l IH]; intros Hf; [by apply honest_ret|]. cbn [for_each].
  eapply honest_bind; [apply Hr|apply Hf; left|]. intros ?. apply IH. intros y Hy. apply Hf. by right.
Qed.

Lemma honest_file_version (D : gmap Dir LogDir → Prop) d sha :
  (∀ m, D m → stored (dir_at m d) sha) → honest D (get_file_version d sha) (λ m _, D m).
Proof.
  intros Hst. unfold get_file_version.
  eapply (honest_bind _ _ _ (λ m b, D m ∧ PatchText.valid_utf8 b = true)); [apply reads_verified_blob| |].
  2:{ intros b s [Hs ->]. exact Hs. }
  unfold read_verified_blob. intros s Hs. destruct (Hst _ Hs) as (c & Hc & He & Hu).
  assert (validate_blob_sha sha = Ret tt) as Hv by (rewrite <-He; apply hash_is_hex).
  unfold bind, lift. rewrite Hv. unfold io, the_dir, gets. cbn [fst snd]. destruct (fault (calls s)) eqn:E; [by exists (calls s)|].
  cbn [fst snd dirs]. unfold dir_at in Hc. rewrite Hc, He. unfold str_eqb. rewrite bool_decide_true by done. done.
Qed.

Lemma honest_validate (D : gmap Dir LogDir → Prop) d x :
  (∀ m, D m → refs_stored (dir_at m d) x) → honest D (validate_initial_blob_references d x) (λ m _, D m).
Proof.
  intros Hr. unfold validate_initial_blob_references.
  eapply honest_bind.
  - apply (reads_for_each _ (λ _ _, True)). intros path. destruct (file_blobs x !! path); [by apply reads_ret|apply reads_fail].
  - apply (honest_for_each _ _ (λ _ _, True)).
    + intros path. destruct (file_blobs x !! path); [by apply reads_ret|apply reads_fail].
    + intros path Hp%elem_of_hash_keys s Hs. destruct (Hr _ Hs) as [H1 _]. destruct (H1 _ Hp) as [sha ->]. exact Hs.
  - intros ?. apply (honest_for_each _ _ (λ _ _, True)).
    + intros sha. eapply reads_weaken; [apply (reads_stored d sha tt)|done].
    + intros sha (path & Hp)%elem_of_hash_values. eapply honest_bind; [apply reads_file_version|apply honest_file_version|].
      * intros m Hm. destruct (Hr m Hm) as [_ H2]. by eapply H2.
      * intros c. by apply honest_ret.
Qed.

Lemma honest_initial d : honest (λ m, dir_ok (dir_at m d)) (read_initial_attributions d) (λ _ _, True).
Proof.
  unfold read_initial_attributions. eapply honest_bind; [apply reads_io|apply honest_io|]. intros ?.
  eapply honest_bind; [apply reads_dir|apply honest_dir|]. intros dir.
  destruct (initial_file dir) as [json|] eqn:E; [|by apply honest_ret].
  intros s (Hs & Hd). destruct (initial_whole _ Hs json) as (x & Hx & Hr); [by rewrite <-Hd|].
  destruct (initial_read_back _ _ Hx) as [Hu Hj]. rewrite Hu. cbn [negb].
  assert (honest (λ m, refs_stored (dir_at m d) x) (do! initial := lift (initial_of_json json) in
    do! _ := validate_initial_blob_references d initial in ret (record_traces initial)) (λ _ _, True)) as H.
  { eapply honest_bind; [apply reads_lift|by apply honest_lift|]. intros x'.
    apply honest_pure. intros ->. eapply honest_bind; [apply reads_validate|apply honest_validate; done|].
    intros ?. by apply honest_ret. }
  exact (H s Hr).
Qed.

Lemma read_checkpoints_ok d max_bytes s :
  dir_ok (dir_at (dirs s) d) → (N.of_nat (length (default [] (checkpoints_file (dir_at (dirs s) d)))) <= max_bytes)%N →
  match (read_all_checkpoints_with_size_limit d max_bytes s).2 with
  | Ret _ => True
  | Fail e => ∃ n, fault n = Some e
  | Panic => False
  end.
Proof.
  intros Hs Hm. unfold read_all_checkpoints_with_size_limit. unfold bind, exists_in, exists_. fold (dir_at (dirs s) d).
  destruct (checkpoints_file (dir_at (dirs s) d)) as [text|] eqn:E.
  2:{ rewrite bool_decide_false, andb_false_r; [done|by intros []]. }
  rewrite bool_decide_true by done. destruct (unseen (calls s)); [done|]. cbn [negb andb].
  destruct (checkpoints_whole _ Hs text E) as (cs & Hcs). apply parse_written in Hcs.
  unfold reject_oversized_checkpoints_file, bind, io, the_dir, gets, lift, ret. cbn [fst snd dirs calls].
  destruct (fault (S (calls s))) eqn:E1; [by exists (S (calls s))|]. cbn [fst snd dirs calls]. fold (dir_at (dirs s) d). rewrite E. cbn in Hm.
  assert ((N.of_nat (length text) <=? max_bytes)%N = true) as -> by by apply N.leb_le. cbn [fst snd dirs calls].
  destruct (fault (S (S (calls s)))) eqn:E2; [by exists (S (S (calls s)))|]. cbn [fst snd dirs calls]. fold (dir_at (dirs s) d). rewrite E.
  change (default [] (Some text)) with text. by rewrite Hcs.
Qed.

(** *** One directory that changes *)

Section Here.
Variables (d : Dir) (m0 : gmap Dir LogDir).

(** Only the directory [d] has changed, and [P] holds of it. *)
Definition here (P : LogDir → Prop) (m : gmap Dir LogDir) : Prop := ∃ dir, m = <[d := dir]> m0 ∧ P dir.

Lemma here_impl (P Q : LogDir → Prop) m : here P m → (∀ dir, P dir → Q dir) → here Q m.
Proof. intros (dir & -> & H) HQ. exists dir. auto. Qed.

Lemma here_alter (P Q : LogDir → Prop) f m : here P m → (∀ dir, P dir → Q (f dir)) → here Q (alter f d m).
Proof. intros (dir & -> & H) HQ. exists (f dir). rewrite alter_insert_eq. auto. Qed.

Lemma here_at (P Q : LogDir → Prop) m : here P m → Q (dir_at m d) → here (λ dir, P dir ∧ Q dir) m.
Proof. intros (dir & -> & H). unfold dir_at. rewrite lookup_insert_eq. intros HQ. by exists dir. Qed.

Lemma here_create P : keeps (on (here P)) (create_dir_all d).
Proof.
  apply keeps_bind; [apply keeps_io|intros ?]. apply keeps_set_dirs. intros m (dir & -> & H). exists dir.
  by rewrite lookup_insert_eq, insert_insert_eq.
Qed.

Lemma here_replace (P Q : LogDir → Prop) (E : gmap Dir LogDir → Prop) text f :
  (∀ dir t, text = Ret t → P dir → Q (f t dir)) → (∀ m, here P m → E m) → (∀ m, here Q m → E m) →
  triple (on (here P)) (replace_file d text f) (λ _, on (here Q)) (on E).
Proof. intros HQ H1 H2. apply triple_replace_exact; [done| |done]. intros m t Ht Hm. eapply here_alter; [exact Hm|auto]. Qed.

(** A property that new contents do not break. *)
Definition grows (P : LogDir → Prop) : Prop :=
  (∀ dir, P dir → P (set_blobs (Some (default ∅ (blobs dir))) dir)) ∧
  ∀ dir sha content, blob_at dir sha = None → P dir → P (add_blob sha content dir).

Definition has_blobs (shas : gset str) (dir : LogDir) : Prop := ∀ sha, sha ∈ shas → is_Some (blob_at dir sha).

Lemma grows_has_blobs P shas : grows P → grows (λ dir, P dir ∧ has_blobs shas dir).
Proof.
  intros [H1 H2]. split.
  - intros dir [HP Hh]. split; [auto|]. intros sha. rewrite blob_at_create. apply Hh.
  - intros dir x c Hn [HP Hh]. split; [auto|]. intros sha Hs. rewrite blob_at_add. case_decide; [done|]. by apply Hh.
Qed.

Lemma here_persist P content :
  grows P →
  triple (on (here P)) (persist_file_version d content) (λ sha, on (here (λ dir, P dir ∧ blob_at dir sha = Some content))) (on (here P)).
Proof.
  intros [HP1 HP2]. unfold persist_file_version, create_blobs_dir. set (sha := sha256_hex content).
  assert (keeps (on (here P)) (do! _ := create_dir_all d in update_dir d (λ dir, set_blobs (Some (default ∅ (blobs dir))) dir))) as Hc.
  { apply keeps_bind; [apply here_create|intros ?]. apply keeps_set_dirs. intros m Hm. by eapply here_alter. }
  eapply triple_bind; [exact Hc|intros ?]. eapply triple_bind; [apply keeps_sync|intros ?].
  eapply triple_bind; [apply keeps_io|intros ?].
  eapply triple_bind; [apply (triple_reads _ (here P) _ (reads_dir d))|intros dir].
  destruct (blob_at dir sha) as [c|] eqn:E.
  - eapply (triple_bind _ _ _ (λ _, on (here (λ dir, P dir ∧ blob_at dir sha = Some content)))); [|intros ?; by apply triple_ret].
    unfold verify_existing_blob. apply (triple_pre _ _ (on (here P))); [by intros s [? _]|].
    eapply triple_bind; [apply (triple_reads _ (here P) _ (reads_verified_blob d sha))|intros actual].
    destruct (str_eqb actual content) eqn:Ea; cbn [negb]; [|apply triple_fail; by intros s [? _]].
    apply str_eqb_eq in Ea as ->.
    apply (triple_pre _ _ (on (here (λ dir, P dir ∧ blob_at dir sha = Some content)))).
    { intros s [Hs [Hb _]]. by apply here_at. }
    eapply triple_bind; [apply triple_keeps; [|apply keeps_io]|intros ?; apply triple_keeps; [|apply keeps_sync]];
      intros m Hm; by eapply here_impl; [exact Hm|intros ? [? _]].
  - eapply (triple_bind _ _ _ (λ _, on (here (λ dir, P dir ∧ blob_at dir sha = Some content)))); [|intros ?; by apply triple_ret].
    apply (triple_pre _ _ (on (here (λ dir, P dir ∧ blob_at dir sha = None)))).
    { intros s [Hs ->]. by apply here_at. }
    apply here_replace.
    + intros dir' t [= <-] [HP Hn]. split; [by apply HP2|]. rewrite blob_at_add. by rewrite decide_True.
    + intros m Hm. by eapply here_impl; [exact Hm|intros ? [? _]].
    + intros m Hm. by eapply here_impl; [exact Hm|intros ? [? _]].
Qed.

Lemma here_copy P source copied shas :
  grows P →
  triple (on (here (λ dir, P dir ∧ has_blobs copied dir))) (copy_blobs source d copied shas)
    (λ _, on (here (λ dir, P dir ∧ has_blobs (copied ∪ list_to_set shas) dir))) (on (here P)).
Proof.
  intros HP. revert copied. induction shas as [|sha shas IH]; intros copied; cbn [copy_blobs].
  - apply triple_ret. intros s Hs. eapply here_impl; [exact Hs|]. intros dir [H1 H2]. split; [done|].
    intros sha. rewrite elem_of_union. intros [?|?%elem_of_list_to_set%not_elem_of_nil]; [auto|done].
  - case_bool_decide as Hin.
    + eapply triple_weaken; [apply (IH copied)|done| |done]. intros ? s Hs. eapply here_impl; [exact Hs|].
      intros dir [H1 H2]. split; [done|]. intros x Hx. apply H2. set_solver.
    + eapply triple_bind.
      { eapply triple_weaken; [apply (triple_reads _ (here (λ dir, P dir ∧ has_blobs copied dir)) _ (reads_file_version source sha))|done|done|].
        intros s Hs. by eapply here_impl; [exact Hs|intros ? [? _]]. }
      intros c. eapply triple_bind.
      { eapply triple_weaken; [apply (here_persist _ c (grows_has_blobs P copied HP))|by intros s [? _]|done|].
        intros s Hs. by eapply here_impl; [exact Hs|intros ? [? _]]. }
      intros sha'. destruct (str_eqb sha' sha) eqn:E; cbn [negb].
      * apply str_eqb_eq in E as ->. eapply triple_weaken; [apply (IH ({[sha]} ∪ copied))| | |done].
        -- intros s Hs. eapply here_impl; [exact Hs|]. intros dir [[H1 H2] Hb]. split; [done|]. intros x.
           rewrite elem_of_union, elem_of_singleton. intros [->|?]; [by eexists|auto].
        -- intros ? s Hs. eapply here_impl; [exact Hs|]. intros dir [H1 H2]. split; [done|]. intros x Hx. apply H2. set_solver.
      * apply triple_fail. intros s Hs. by eapply here_impl; [exact Hs|intros ? [[? _] _]].
Qed.
End Here.

(** *** Writing INITIAL *)

Definition written (x : InitialAttributions) (ci : option str) : Prop :=
  if bool_decide (nonempty_files (initial_files x) = ∅) then ci = None
  else ∃ json, initial_to_json (kept_initial x) = Ret json ∧ ci = Some json.

Lemma write_initial_here d m0 (P : LogDir → Prop) ci x :
  (∀ dir ci', P dir → P (set_initial ci' dir)) →
  triple (on (here d m0 (λ dir, initial_file dir = ci ∧ P dir))) (write_initial d x)
    (λ _, on (here d m0 (λ dir, written x (initial_file dir) ∧ P dir)))
    (on (here d m0 (λ dir, (initial_file dir = ci ∨ written x (initial_file dir)) ∧ P dir))).
Proof.
  intros HP. set (F := λ dir, initial_file dir = ci ∧ P dir).
  set (E := here d m0 (λ dir, (initial_file dir = ci ∨ written x (initial_file dir)) ∧ P dir)).
  assert (∀ m, here d m0 F m → E m) as HE by (intros m Hm; eapply here_impl; [exact Hm|]; intros dir []; auto).
  assert (∀ m, here d m0 (λ dir, written x (initial_file dir) ∧ P dir) m → E m) as HE'.
  { intros m Hm. eapply here_impl; [exact Hm|]. intros dir []. auto. }
  unfold write_initial. case_bool_decide as He.
  - eapply triple_bind; [apply (triple_keeps (here d m0 F)); [exact HE|apply keeps_io]|intros ?].
    eapply triple_bind.
    + apply (triple_modify _ _ (λ _, on (here d m0 (λ dir, written x (initial_file dir) ∧ P dir)))).
      intros s Hs. eapply here_alter; [exact Hs|]. intros dir [_ Hd]. split; [|by apply HP].
      unfold written. by rewrite bool_decide_true.
    + intros ?. apply triple_keeps; [exact HE'|apply keeps_sync].
  - fold (kept_initial x). eapply triple_bind.
    { apply (triple_keeps (here d m0 F)); [exact HE|eapply keeps_reads, reads_validate]. }
    intros ?. eapply triple_bind; [apply (triple_keeps (here d m0 F)); [exact HE|apply here_create]|intros ?].
    apply here_replace; [|exact HE|exact HE']. intros dir json Hj [_ Hd]. split; [|by apply HP].
    unfold written. rewrite bool_decide_false by done. by exists json.
Qed.

(** *** Writing INITIAL with the contents of its files *)

Section Contents.
Variables (d : Dir) (m0 : gmap Dir LogDir).

(** The contents listed so far are stored. *)
Definition contents_stored (contents bs : gmap str str) (dir : LogDir) : Prop :=
  ∀ path sha, bs !! path = Some sha → ∃ content, contents !! path = Some content ∧ blob_at dir sha = Some content.

Lemma grows_contents_stored P contents bs : grows P → grows (λ dir, P dir ∧ contents_stored contents bs dir).
Proof.
  intros [H1 H2]. split.
  - intros dir [HP Hc]. split; [auto|]. intros path sha Hp. rewrite blob_at_create. by apply (Hc path).
  - intros dir x c Hn [HP Hc]. split; [auto|]. intros path sha Hp. destruct (Hc path sha Hp) as (content & ? & Hb).
    exists content. split; [done|]. rewrite blob_at_add. case_decide; [congruence|done].
Qed.

Lemma here_persist_contents P contents bs paths :
  grows P →
  triple (on (here d m0 (λ dir, P dir ∧ contents_stored contents bs dir))) (persist_contents d contents bs paths)
    (λ bs' s, on (here d m0 (λ dir, P dir ∧ contents_stored contents bs' dir)) s ∧
       (∀ path, is_Some (bs !! path) ∨ path ∈ paths → is_Some (bs' !! path)))
    (on (here d m0 P)).
Proof.
  intros HP. revert bs. induction paths as [|path paths IH]; intros bs; cbn [persist_contents].
  - apply triple_ret. intros s Hs. split; [done|]. by intros path [?|?%not_elem_of_nil].
  - destruct (contents !! path) as [content|] eqn:Ec.
    2:{ apply triple_fail. intros s Hs. by eapply here_impl; [exact Hs|intros ? [? _]]. }
    eapply triple_bind.
    + eapply triple_weaken; [apply (here_persist d m0 _ content (grows_contents_stored P contents bs HP))|done|done|].
      intros s Hs. by eapply here_impl; [exact Hs|intros ? [? _]].
    + intros sha. eapply triple_weaken; [apply (IH (<[path := sha]> bs))| | |done].
      * intros s Hs. eapply here_impl; [exact Hs|]. intros dir [[Hd Hc] Hb]. split; [done|]. intros p x.
        rewrite lookup_insert. case_decide as E; [intros [= <-]; subst p; eauto|]. apply Hc.
      * intros bs' s [Hs Hall]. split; [done|]. intros p [Hp|[->|Hp]%elem_of_cons]; apply Hall; [left|left|by right].
        -- rewrite lookup_insert. by case_decide.
        -- rewrite lookup_insert_eq. by eexists.
Qed.

(** The INITIAL file that holds the files with their contents. *)
Definition holds_contents (files : gmap str (list LineAttribution)) (prompts : gmap str PromptRecord)
    (humans : gmap str HumanRecord) (sessions : gmap str SessionRecord) (contents : gmap str str) (dir : LogDir) : Prop :=
  ∃ bs, written (mkInitial (nonempty_files files) prompts bs humans sessions) (initial_file dir) ∧
    contents_stored contents bs dir ∧ ∀ path, is_Some (nonempty_files files !! path) → is_Some (bs !! path).

Lemma write_contents_here ci cc files prompts humans contents sessions :
  triple (on (here d m0 (λ dir, initial_file dir = ci ∧ checkpoints_file dir = cc)))
    (write_initial_attributions_with_contents d files prompts humans contents sessions)
    (λ _, on (here d m0 (λ dir, holds_contents files prompts humans sessions contents dir ∧ checkpoints_file dir = cc)))
    (on (here d m0 (λ dir, (initial_file dir = ci ∨ holds_contents files prompts humans sessions contents dir) ∧
       checkpoints_file dir = cc))).
Proof.
  set (F := λ dir, initial_file dir = ci ∧ checkpoints_file dir = cc). assert (grows F) as HF by done.
  unfold write_initial_attributions_with_contents. eapply triple_bind.
  { eapply triple_weaken; [apply (here_persist_contents F contents ∅ _ HF)| |done|].
    - intros s Hs. eapply here_impl; [exact Hs|]. intros dir Hd. split; [done|]. by intros path sha.
    - intros s Hs. eapply here_impl; [exact Hs|]. intros dir []. auto. }
  intros bs s [Hs Hall].
  assert (∀ path, is_Some (nonempty_files files !! path) → is_Some (bs !! path)) as Hbs.
  { intros path Hp. apply Hall. right. by apply elem_of_hash_keys. }
  revert s Hs. eapply triple_weaken.
  - apply (write_initial_here d m0 (λ dir, checkpoints_file dir = cc ∧ contents_stored contents bs dir) ci). by intros dir ci' [].
  - intros s Hs. eapply here_impl; [exact Hs|]. intros dir [[Hi Hc] Hb]. done.
  - intros ? s Hs. eapply here_impl; [exact Hs|]. intros dir (Hw & Hc & Hb). split; [|done]. by exists bs.
  - intros s Hs. eapply here_impl; [exact Hs|]. intros dir (Hw & Hc & Hb). split; [|done].
    destruct Hw as [Hw|Hw]; [by left|right]. by exists bs.
Qed.
End Contents.

(** *** Appending *)

Section Append.
Variables (d : Dir) (m0 : gmap Dir LogDir).

(** The directory may have been made, and is otherwise as it was. *)
Definition unchanged (m : gmap Dir LogDir) : Prop := m = m0 ∨ m = <[d := dir_at m0 d]> m0.
Definition published (cs : list Checkpoint) (m : gmap Dir LogDir) : Prop :=
  ∃ text, checkpoints_text cs = Ret text ∧ m = <[d := set_checkpoints (Some text) (dir_at m0 d)]> m0.

Lemma triple_write cs :
  triple (on (eq m0)) (write_all_checkpoints d cs) (λ _, on (published cs)) (on (λ m, unchanged m ∨ published cs m)).
Proof.
  unfold write_all_checkpoints. eapply (triple_bind _ _ _ (λ _, on (eq (<[d := dir_at m0 d]> m0)))).
  { unfold create_dir_all. eapply (triple_bind _ _ _ (λ _, on (eq m0))).
    - eapply triple_weaken; [apply (keeps_io (eq m0))|done|done|]. unfold on. intros s <-. left. by left.
    - intros _. apply triple_modify. unfold on, dir_at. by intros s ->. }
  intros _. apply triple_replace_exact.
  - intros m <-. left. by right.
  - intros m text Ht <-. exists text. by rewrite alter_insert_eq.
  - intros m H. by right.
Qed.

Definition request_known (c : Checkpoint) (cs : list Checkpoint) : bool :=
  match trace_id c with Some t => existsb (has_request t) cs | None => false end.

(** One attempt to append, with what it read. *)
Lemma append_cases c cs s :
  dirs s = m0 → logged m0 d = Ret cs →
  ∃ read, (read = cs ∨ read = [] ∧ blind) ∧
  match append_checkpoint_idempotent d c s with
  | (s', Ret false) => dirs s' = m0 ∧ request_known c read = true
  | (s', Ret true) => request_known c read = false ∧ published (prune_old_char_attributions (read ++ [c])) (dirs s')
  | (s', _) => unchanged (dirs s') ∨
      (request_known c read = false ∧ published (prune_old_char_attributions (read ++ [c])) (dirs s'))
  end.
Proof.
  intros Hs Hl. unfold append_checkpoint_idempotent, bind at 1.
  destruct (reads_checkpoints d MAX_CHECKPOINTS_JSONL_BYTES s) as [Hd Hq].
  unfold read_all_checkpoints. destruct (read_all_checkpoints_with_size_limit _ _ s) as [s1 [read|e|]]; cbn [fst snd] in *.
  2,3: exists cs; split; [by left|left; left; congruence].
  exists read. rewrite Hs in Hd, Hq. split.
  { destruct (Hq read eq_refl) as [E|?]; [left; congruence|by right]. }
  clear Hq Hs. assert (request_known c read = false →
    match (do! _ := append_checkpoint_to d read c in ret true) s1 with
    | (s', Ret false) => dirs s' = m0 ∧ request_known c read = true
    | (s', Ret true) => request_known c read = false ∧ published (prune_old_char_attributions (read ++ [c])) (dirs s')
    | (s', _) => unchanged (dirs s') ∨
        (request_known c read = false ∧ published (prune_old_char_attributions (read ++ [c])) (dirs s'))
    end) as Hw.
  { intros Hk. unfold bind, append_checkpoint_to.
    pose proof (triple_write (prune_old_char_attributions (read ++ [c])) s1 (eq_sym Hd)) as H. unfold on in H.
    destruct (write_all_checkpoints d _ s1) as [s2 [[]|e|]]; [done| |]; destruct H; auto. }
  unfold append_checkpoint_idempotent_to, request_known in *. destruct (trace_id c) as [t|]; [|by apply Hw].
  destruct (existsb (has_request t) read); [done|by apply Hw].
Qed.
End Append.

Lemma logged_unchanged d m0 m : unchanged d m0 m → logged m d = logged m0 d.
Proof. intros [-> | ->]; [done|]. unfold logged, logged_in, dir_at. by rewrite lookup_insert_eq. Qed.

Definition versioned (cs : list Checkpoint) : Prop := Forall (λ c, api_version c = CHECKPOINT_API_VERSION) cs.

Lemma filter_versioned cs : versioned cs → List.filter (λ c, str_eqb (api_version c) CHECKPOINT_API_VERSION) cs = cs.
Proof.
  induction 1 as [|c cs Hc _ IH]; [done|]. cbn [List.filter]. unfold str_eqb at 1. by rewrite bool_decide_true, IH.
Qed.

Lemma logged_published d m0 cs m : versioned cs → published d m0 cs m → logged m d = Ret (migrate cs).
Proof.
  intros Hv (text & Ht & ->). unfold logged, logged_in, dir_at. rewrite lookup_insert_eq. cbn [default from_option Datatypes.id checkpoints_file set_checkpoints].
  rewrite (parse_written _ _ Ht), filter_versioned by done. done.
Qed.

Lemma parse_versioned ls cs : parse_checkpoints ls = Ret cs → versioned cs.
Proof.
  revert cs. induction ls as [|l ls IH]; intros cs; cbn [parse_checkpoints]; [intros [= <-]; constructor|].
  destruct (negb _); [done|]. case_bool_decide; [apply IH|]. destruct (checkpoint_of_json l) as [c|e|]; [|done..]. cbn [obind].
  destruct (parse_checkpoints ls) as [rest|e|]; [|done..]. cbn [obind]. intros [= <-].
  destruct (str_eqb _ _) eqn:E; [|by apply IH]. constructor; [by apply str_eqb_eq|by apply IH].
Qed.

Lemma migrate_versioned cs : versioned cs → versioned (migrate cs).
Proof. intros H. unfold migrate. apply Forall_map. eapply Forall_impl; [exact H|]. done. Qed.

Lemma prune_versioned cs : versioned cs → versioned (prune_old_char_attributions cs).
Proof.
  intros H. unfold prune_old_char_attributions. apply Forall_lookup. intros i c. rewrite list_lookup_imap.
  destruct (cs !! i) as [c'|] eqn:E; [|done]. intros [= <-]. cbn. eapply Forall_lookup_1 in H; done.
Qed.

Lemma logged_versioned m d cs : logged m d = Ret cs → versioned cs.
Proof.
  unfold logged, logged_in. destruct (checkpoints_file _) as [text|]; [|intros [= <-]; constructor].
  destruct (parse_checkpoints _) as [ps|e|] eqn:E; [|done..]. cbn [obind]. intros [= <-]. by eapply migrate_versioned, parse_versioned.
Qed.

(** Requests survive pruning and migration. *)
Lemma migrate_requests cs : map trace_id (migrate cs) = map trace_id cs.
Proof. unfold migrate. by rewrite map_map. Qed.
Lemma prune_requests cs : map trace_id (prune_old_char_attributions cs) = map trace_id cs.
Proof.
  unfold prune_old_char_attributions. generalize (newest_for_file cs). intros newest.
  apply list_eq. intros i. rewrite !list_lookup_fmap, list_lookup_imap. by destruct (cs !! i).
Qed.

Lemma count_requests t cs cs' :
  map trace_id cs = map trace_id cs' → length (List.filter (has_request t) cs) = length (List.filter (has_request t) cs').
Proof.
  revert cs'. induction cs as [|c cs IH]; intros [|c' cs'] E; try done. injection E as E1 E2. cbn [List.filter].
  assert (has_request t c = has_request t c') as -> by (unfold has_request; by rewrite E1).
  destruct (has_request t c'); cbn [length]; auto.
Qed.

Lemma existsb_filter {A : Type} (p : A → bool) l : existsb p l = negb (length (List.filter p l) =? 0)%nat.
Proof. induction l as [|x l IH]; [done|]. cbn. by destruct (p x). Qed.

Lemma unchanged_at d m0 m : unchanged d m0 m → dir_at m d = dir_at m0 d.
Proof. intros [-> | ->]; [done|]. unfold dir_at. by rewrite lookup_insert_eq. Qed.
Lemma unchanged_trans d m0 m1 m2 : unchanged d m0 m1 → unchanged d m1 m2 → unchanged d m0 m2.
Proof.
  intros H1 [-> | ->]; [done|]. rewrite (unchanged_at _ _ _ H1). right. destruct H1 as [-> | ->]; [done|]. by rewrite insert_insert_eq.
Qed.
Lemma published_unchanged d m0 m1 m2 cs : unchanged d m0 m1 → published d m1 cs m2 → published d m0 cs m2.
Proof.
  intros H1 (text & Ht & ->). exists text. split; [done|]. rewrite (unchanged_at _ _ _ H1). destruct H1 as [-> | ->]; [done|].
  by rewrite insert_insert_eq.
Qed.
Lemma unchanged_published d m0 m1 m2 cs : published d m0 cs m1 → unchanged d m1 m2 → published d m0 cs m2.
Proof.
  intros (text & Ht & ->) H. exists text. split; [done|]. destruct H as [-> | ->]; [done|]. unfold dir_at.
  by rewrite lookup_insert_eq, insert_insert_eq.
Qed.
Lemma unchanged_others d m0 m d' : unchanged d m0 m → d' ≠ d → m !! d' = m0 !! d'.
Proof. intros [-> | ->] ?; [done|]. by rewrite lookup_insert_ne. Qed.
Lemma published_others d m0 cs m d' : published d m0 cs m → d' ≠ d → m !! d' = m0 !! d'.
Proof. intros (text & _ & ->) ?. by rewrite lookup_insert_ne. Qed.

Lemma known_published c t cs :
  trace_id c = Some t → request_known c (migrate (prune_old_char_attributions (cs ++ [c]))) = true.
Proof.
  intros Ht. unfold request_known. rewrite Ht, existsb_filter.
  rewrite (count_requests t _ (cs ++ [c])) by by rewrite migrate_requests, prune_requests. rewrite <-existsb_filter, existsb_app.
  cbn. unfold has_request at 2. rewrite Ht. unfold str_eqb at 1. rewrite bool_decide_true by done. by rewrite orb_true_r.
Qed.

(** The log with the checkpoint, or with it alone when a stat failed. *)
Definition appended (d : Dir) (m0 : gmap Dir LogDir) (c : Checkpoint) (cs : list Checkpoint) (m : gmap Dir LogDir) : Prop :=
  published d m0 (prune_old_char_attributions (cs ++ [c])) m ∨
  blind ∧ published d m0 (prune_old_char_attributions [c]) m.

Lemma appended_unchanged d m0 m1 m2 c cs : appended d m0 c cs m1 → unchanged d m1 m2 → appended d m0 c cs m2.
Proof. intros [H|[Hb H]] Hu; [left|right; split; [done|]]; by eapply unchanged_published. Qed.

Lemma published_versioned c cs : api_version c = CHECKPOINT_API_VERSION → versioned cs → versioned (prune_old_char_attributions (cs ++ [c])).
Proof. intros Hv Hcs. apply prune_versioned, Forall_app. split; [done|]. by constructor. Qed.

(** A request that is there is not written again, unless it is not seen. *)
Lemma append_again d m0 c t cs s :
  trace_id c = Some t → api_version c = CHECKPOINT_API_VERSION → versioned cs → appended d m0 c cs (dirs s) →
  appended d m0 c cs (dirs (append_checkpoint_idempotent d c s).1).
Proof.
  intros Ht Hv Hcs Ha.
  assert (∃ ps, published d m0 (prune_old_char_attributions (ps ++ [c])) (dirs s) ∧ versioned ps) as (ps & Hp & Hps).
  { destruct Ha as [H|[_ H]]; [by exists cs|]. exists []. split; [done|constructor]. }
  pose proof (append_cases d (dirs s) c _ s eq_refl (logged_published _ _ _ _ (published_versioned c ps Hv Hps) Hp)) as (read & Hr & H).
  assert (published d (dirs s) (prune_old_char_attributions (read ++ [c])) (dirs (append_checkpoint_idempotent d c s).1) →
    request_known c read = false → appended d m0 c cs (dirs (append_checkpoint_idempotent d c s).1)) as Hnew.
  { intros Hpub Hk. destruct Hr as [->|[-> Hb]]; [by rewrite (known_published c t ps Ht) in Hk|]. right. split; [done|].
    destruct Hp as (text & _ & Hm), Hpub as (text' & Ht' & Hm'). exists text'. split; [done|]. rewrite Hm', Hm. unfold dir_at.
    by rewrite lookup_insert_eq, insert_insert_eq. }
  destruct (append_checkpoint_idempotent d c s) as [s2 [[]|e|]]; cbn [fst] in *.
  - destruct H. by apply Hnew.
  - by destruct H as [-> _].
  - destruct H as [H|[Hk H]]; [by eapply appended_unchanged|by apply Hnew].
  - destruct H as [H|[Hk H]]; [by eapply appended_unchanged|by apply Hnew].
Qed.

(** After any number of attempts the log is as it was and all have failed, or
    the checkpoint is there. *)
Lemma retry_cases d c t cs s n :
  trace_id c = Some t → api_version c = CHECKPOINT_API_VERSION → logged (dirs s) d = Ret cs → existsb (has_request t) cs = false →
  (unchanged d (dirs s) (dirs (retry d c n s)) ∧
   ∀ k b, k < n → (append_checkpoint_idempotent d c (retry d c k s)).2 ≠ Ret b) ∨
  appended d (dirs s) c cs (dirs (retry d c n s)).
Proof.
  intros Ht Hv Hl Hn. pose proof (logged_versioned _ _ _ Hl) as Hcs.
  induction n as [|n IH]; [left; split; [by left|lia]|]. cbn [retry]. destruct IH as [[Hu Hf]|Hp].
  2:{ right. by eapply append_again. }
  pose proof (append_cases d (dirs (retry d c n s)) c cs (retry d c n s) eq_refl) as H.
  rewrite (logged_unchanged _ _ _ Hu) in H. destruct (H Hl) as (read & Hr & H'). clear H.
  assert (request_known c read = false) as Hk.
  { destruct Hr as [->|[-> _]]; unfold request_known; by rewrite Ht. }
  destruct (append_checkpoint_idempotent d c (retry d c n s)) as [s2 r] eqn:E. cbn [fst].
  assert (published d (dirs (retry d c n s)) (prune_old_char_attributions (read ++ [c])) (dirs s2) → appended d (dirs s) c cs (dirs s2)) as Hpub.
  { intros Hp. apply (published_unchanged _ _ _ _ _ Hu) in Hp. destruct Hr as [->|[-> Hb]]; [by left|by right]. }
  assert (unchanged d (dirs (retry d c n s)) (dirs s2) → (∀ b, r ≠ Ret b) →
    (unchanged d (dirs s) (dirs s2) ∧ ∀ k b, k < S n → (append_checkpoint_idempotent d c (retry d c k s)).2 ≠ Ret b)) as Hsame.
  { intros H Hr'. split; [by eapply unchanged_trans|]. intros k b Hkn. destruct (decide (k = n)) as [->|]; [by rewrite E|]. apply Hf. lia. }
  destruct r as [[]|e|].
  - right. apply Hpub, H'.
  - destruct H' as [_ H']. congruence.
  - destruct H' as [H'|[_ H']]; [left; by apply Hsame|right; auto].
  - destruct H' as [H'|[_ H']]; [left; by apply Hsame|right; auto].
Qed.

(** *** Pruning *)

Lemma newest_entries (i : nat) (es : list WorkingLogEntry) (m : gmap str nat) (f : str) :
  foldl (λ m e, match m !! file e with Some _ => m | None => <[file e := i]> m end) m es !! f =
  match m !! f with Some j => Some j | None => if existsb (λ e, str_eqb (file e) f) es then Some i else None end.
Proof.
  revert m. induction es as [|e es IH]; intros m; cbn [foldl existsb]; [by destruct (m !! f)|]. rewrite IH. unfold str_eqb at 2.
  case_bool_decide as E.
  - subst f. destruct (m !! file e) eqn:Em; [by rewrite Em|]. by rewrite lookup_insert_eq.
  - destruct (m !! file e) eqn:Em; [done|]. by rewrite lookup_insert_ne.
Qed.

Lemma newest_spec (cs : list Checkpoint) i c f :
  cs !! i = Some c → mentions f c = true → ∃ j, newest_for_file cs !! f = Some j ∧ (i =? j) = negb (later_mention cs i f).
Proof.
  unfold newest_for_file.
  assert (∀ m : gmap str nat, m !! f = None → cs !! i = Some c → mentions f c = true → ∃ j,
    foldl (λ m ic, foldl (λ m e, match m !! file e with Some _ => m | None => <[file e := ic.1]> m end) m (entries ic.2))
      m (rev (imap pair cs)) !! f = Some j ∧ (i =? j) = negb (later_mention cs i f)) as H; [|by apply H].
  induction cs as [|c' cs IH] using rev_ind; [done|]. intros m Hm Hi Hf.
  rewrite imap_app, rev_app_distr. cbn [imap rev app foldl fst snd]. rewrite Nat.add_0_r.
  set (m' := foldl _ m (entries c')). pose proof (newest_entries (length cs) (entries c') m f) as Hm'. fold m' in Hm'.
  rewrite Hm in Hm'. fold (mentions f c') in Hm'. unfold later_mention.
  assert (∀ l (m : gmap str nat) j, m !! f = Some j →
    foldl (λ m (ic : nat * Checkpoint), foldl (λ m e, match m !! file e with Some _ => m | None => <[file e := ic.1]> m end) m (entries ic.2))
      m l !! f = Some j) as Hstay.
  { intros l. induction l as [|ic l IHl]; intros m1 j Hj; [done|]. cbn [foldl]. apply IHl. by rewrite newest_entries, Hj. }
  destruct (mentions f c') eqn:Ec.
  - exists (length cs). split; [by apply Hstay|]. apply lookup_app_Some in Hi as [Hi|[Hi1 Hi2]].
    + apply lookup_lt_Some in Hi. rewrite drop_app_le by lia. rewrite existsb_app. cbn [existsb]. rewrite Ec, orb_true_r.
      cbn. apply Nat.eqb_neq. lia.
    + apply list_lookup_singleton_Some in Hi2 as [Hi2 ->]. assert (i = length cs) as -> by lia.
      rewrite drop_ge by (rewrite length_app; cbn; lia). cbn. apply Nat.eqb_refl.
  - apply lookup_app_Some in Hi as [Hi|[Hi1 Hi2]].
    + destruct (IH m' Hm' Hi Hf) as (j & Hj & Hb). exists j. split; [done|]. rewrite Hb. f_equal. apply lookup_lt_Some in Hi.
      rewrite drop_app_le by lia. rewrite existsb_app. cbn [existsb]. rewrite Ec. by rewrite !orb_false_r.
    + apply list_lookup_singleton_Some in Hi2 as [_ ->]. congruence.
Qed.

Lemma prune_is_keep_newest cs : prune_old_char_attributions cs = keep_newest cs.
Proof.
  unfold prune_old_char_attributions, keep_newest. apply list_eq. intros i. rewrite !list_lookup_imap.
  destruct (cs !! i) as [c|] eqn:Hi; [|done]. cbn. do 2 f_equal. apply map_ext_in. intros e He. unfold prune_entry.
  assert (mentions (file e) c = true) as Hm.
  { apply existsb_exists. exists e. split; [done|]. by apply str_eqb_eq. }
  destruct (newest_spec cs i c (file e) Hi Hm) as (j & -> & ->). by destruct (later_mention cs i (file e)).
Qed.

Lemma keep_newest_mentions cs f : map (mentions f) (keep_newest cs) = map (mentions f) cs.
Proof.
  apply list_eq. intros i. unfold keep_newest. rewrite !list_lookup_fmap, list_lookup_imap. destruct (cs !! i) as [c|]; [|done].
  cbn. f_equal. unfold mentions. cbn [entries set_entries]. induction (entries c) as [|e es IH]; [done|].
  cbn [map existsb]. rewrite IH. by destruct (later_mention _ _ _).
Qed.

Lemma existsb_map {A : Type} (p : A → bool) l : existsb p l = existsb Datatypes.id (map p l).
Proof. induction l as [|x l IH]; [done|]. cbn. by rewrite IH. Qed.

Lemma keep_newest_app cs cs' : keep_newest (keep_newest cs ++ cs') = keep_newest (cs ++ cs').
Proof.
  assert (length (keep_newest cs) = length cs) as Hlen by apply length_imap.
  assert (∀ i f, later_mention (keep_newest cs ++ cs') i f = later_mention (cs ++ cs') i f) as Hl.
  { intros i f. unfold later_mention. rewrite existsb_map, (existsb_map _ (drop _ (cs ++ cs'))), <-!List.skipn_map, !map_app.
    by rewrite keep_newest_mentions. }
  apply list_eq. intros i. unfold keep_newest at 1 3. rewrite !list_lookup_imap.
  destruct (decide (i < length cs)) as [Hi|Hi].
  - rewrite !lookup_app_l by (try rewrite Hlen; done).
    assert (keep_newest cs !! i = (λ c, set_entries c
      (map (λ e, if later_mention cs i (file e) then clear_attributions e else e) (entries c))) <$> cs !! i) as -> by apply list_lookup_imap.
    destruct (cs !! i) as [c|]; [|done]. cbn [fmap option_fmap option_map entries set_entries]. f_equal. unfold set_entries. cbn.
    f_equal. rewrite map_map. apply map_ext. intros e. rewrite Hl. cbn.
    assert (later_mention cs i (file e) = true → later_mention (cs ++ cs') i (file e) = true) as Himp.
    { unfold later_mention. rewrite drop_app_le by lia. rewrite existsb_app. intros ->. done. }
    destruct (later_mention cs i (file e)) eqn:E; cbn [file clear_attributions]; [|done]. by rewrite Himp.
  - rewrite !lookup_app_r by (try rewrite Hlen; lia). rewrite Hlen. destruct (cs' !! (i - length cs)) as [c|]; [|done]. cbn.
    f_equal. f_equal. apply map_ext. intros e. by rewrite Hl.
Qed.

(** *** Merging *)

Section Merging.
Variables (old new : Dir) (m0 : gmap Dir LogDir) (dir0 : LogDir).
Context `{seen : !StatsAnswer}.
Hypothesis Hnew : m0 !! new = Some dir0.
Variables (xo xn : InitialAttributions) (o n : list Checkpoint).
Hypothesis Hxo : initially m0 old = Ret xo.
Hypothesis Hxn : initially m0 new = Ret xn.
Hypothesis Ho : logged m0 old = Ret o.
Hypothesis Hn : logged m0 new = Ret n.

(** The directory on the way: what its two files are, and the contents it has. *)
Definition holds (ci cc : option str) (shas : gset str) (dir : LogDir) : Prop :=
  initial_file dir = ci ∧ checkpoints_file dir = cc ∧
  (∀ sha, is_Some (blob_at dir0 sha) → is_Some (blob_at dir sha)) ∧ has_blobs shas dir.

Lemma grows_holds ci cc shas : grows (holds ci cc shas).
Proof.
  split.
  - intros dir (H1 & H2 & H3 & H4). split; [done|]. split; [done|]. split; intros sha Hs; rewrite blob_at_create; auto.
  - intros dir x c Hx (H1 & H2 & H3 & H4). split; [done|]. split; [done|].
    split; intros sha Hs; rewrite blob_at_add; case_decide; auto.
Qed.

Definition rendered (cs : list Checkpoint) (cc : option str) : Prop := ∃ text, checkpoints_text cs = Ret text ∧ cc = Some text.

Lemma write_initial_holds x ci cc shas :
  triple (on (here new m0 (holds ci cc shas))) (write_initial new x)
    (λ _, on (here new m0 (λ dir, ∃ ci', written x ci' ∧ holds ci' cc shas dir)))
    (on (here new m0 (λ dir, ∃ ci', (ci' = ci ∨ written x ci') ∧ holds ci' cc shas dir))).
Proof.
  set (P := λ dir, checkpoints_file dir = cc ∧ (∀ sha, is_Some (blob_at dir0 sha) → is_Some (blob_at dir sha)) ∧ has_blobs shas dir).
  eapply triple_weaken; [apply (write_initial_here new m0 P ci x); by intros dir ci' (?&?&?)|done| |].
  - intros ? s Hs. eapply here_impl; [exact Hs|]. intros dir [Hw Hd]. exists (initial_file dir). by split.
  - intros s Hs. eapply here_impl; [exact Hs|]. intros dir [Hw Hd]. exists (initial_file dir). by split.
Qed.

Lemma write_checkpoints_holds cs ci cc shas :
  triple (on (here new m0 (holds ci cc shas))) (write_all_checkpoints new cs)
    (λ _, on (here new m0 (λ dir, ∃ cc', rendered cs cc' ∧ holds ci cc' shas dir)))
    (on (here new m0 (λ dir, ∃ cc', (cc' = cc ∨ rendered cs cc') ∧ holds ci cc' shas dir))).
Proof.
  set (P := holds ci cc shas). set (E := here new m0 (λ dir, ∃ cc', (cc' = cc ∨ rendered cs cc') ∧ holds ci cc' shas dir)).
  assert (∀ m, here new m0 P m → E m) as HE by (intros m Hm; eapply here_impl; [exact Hm|]; intros dir Hd; exists cc; auto).
  unfold write_all_checkpoints. eapply triple_bind; [apply (triple_keeps (here new m0 P)); [exact HE|apply here_create]|intros ?].
  apply here_replace; [|exact HE|].
  - intros dir text Ht (H1 & H2 & H3 & H4). exists (Some text). split; [by exists text|done].
  - intros m Hm. eapply here_impl; [exact Hm|]. intros dir (cc' & ? & ?). exists cc'. auto.
Qed.

(** What reading finds is known when nothing has changed. *)
Lemma triple_known {A B : Type} (m : StateResult.M Storage A) (k : A → StateResult.M Storage B)
    (Q : gmap Dir LogDir → A → Prop) (R : B → Storage → Prop) (E : gmap Dir LogDir → Prop) :
  reads m Q → E m0 → (∀ a, Q m0 a → triple (on (eq m0)) (k a) R (on E)) → triple (on (eq m0)) (bind m k) R (on E).
Proof.
  intros Hm HE Hk. eapply (triple_bind _ _ _ (λ a s, on (eq m0) s ∧ Q (dirs s) a)).
  - eapply triple_weaken; [apply (triple_reads _ (eq m0) _ Hm)|done|done|]. unfold on. by intros s <-.
  - intros a s [Hs HQ]. unfold on in Hs. rewrite <-Hs in HQ. by apply Hk.
Qed.

Definition merged_shas : list str := hash_values (file_blobs xo) ++ flat_map (λ c, map blob_sha (entries c)) o.

Definition merging (dir : LogDir) : Prop :=
  ∃ ci cc, (ci = initial_file dir0 ∨ written (merge_initials xo xn) ci) ∧
    (cc = checkpoints_file dir0 ∨ rendered (o ++ n) cc) ∧ holds ci cc ∅ dir.
Definition merged (dir : LogDir) : Prop :=
  ∃ ci cc, written (merge_initials xo xn) ci ∧ rendered (o ++ n) cc ∧ holds ci cc (list_to_set merged_shas) dir ∧
    ∀ c e, c ∈ n → e ∈ entries c → is_Some (blob_at dir (blob_sha e)).

Lemma holds_less ci cc shas dir : holds ci cc shas dir → holds ci cc ∅ dir.
Proof. intros (H1 & H2 & H3 & H4). split; [done|]. split; [done|]. split; [done|]. by intros sha ?%not_elem_of_empty. Qed.

Lemma triple_merge :
  triple (on (eq m0)) (merge_working_log_dirs old new) (λ _, on (here new m0 merged)) (on (here new m0 merging)).
Proof.
  assert (here new m0 (holds (initial_file dir0) (checkpoints_file dir0) ∅) m0) as Hstart.
  { exists dir0. split; [by rewrite insert_id|]. split; [done|]. split; [done|]. split; [done|]. by intros sha ?%not_elem_of_empty. }
  assert (∀ ci cc shas m, (ci = initial_file dir0 ∨ written (merge_initials xo xn) ci) →
    (cc = checkpoints_file dir0 ∨ rendered (o ++ n) cc) → here new m0 (holds ci cc shas) m → here new m0 merging m) as Hmid.
  { intros ci cc shas m Hci Hcc Hm. eapply here_impl; [exact Hm|]. intros dir Hd. exists ci, cc. split; [done|]. split; [done|].
    by eapply holds_less. }
  assert (here new m0 merging m0) as H0 by (eapply Hmid; [by left|by left|exact Hstart]).
  unfold merge_working_log_dirs.
  eapply triple_known; [apply reads_initial|done|]. intros x [Hx _]. assert (x = xo) as -> by congruence.
  eapply triple_known; [apply reads_initial|done|]. intros x [Hx' _]. assert (x = xn) as -> by congruence.
  eapply triple_known; [apply reads_all_checkpoints|done|]. intros cs Hcs. assert (cs = o) as -> by congruence.
  eapply triple_known; [apply reads_all_checkpoints|done|]. intros cs Hcs'. assert (cs = n) as -> by congruence.
  eapply (triple_known _ _ (λ _ _, True)); [eapply reads_weaken; [apply (reads_for_each _ (λ _ _, True))|done]|done|].
  { intros c. eapply reads_weaken; [apply (reads_for_each _ (λ _ _, True))|done]. intros e.
    eapply reads_weaken; [apply reads_stored|done]. }
  intros ? _. eapply (triple_known _ _ (λ m _, ∀ c, c ∈ n → ∀ e, e ∈ entries c → stored (dir_at m new) (blob_sha e)));
    [apply (reads_for_each _ (λ m c, ∀ e, e ∈ entries c → stored (dir_at m new) (blob_sha e)))|done|].
  { intros c. apply (reads_for_each _ (λ m e, stored (dir_at m new) (blob_sha e))). intros e. apply reads_stored. }
  intros ? Hst. fold merged_shas.
  eapply triple_bind.
  { eapply triple_weaken; [apply (here_copy new m0 _ old ∅ merged_shas (grows_holds (initial_file dir0) (checkpoints_file dir0) ∅))| |done|].
    - unfold on. intros s <-. eapply here_impl; [exact Hstart|]. intros dir Hd. split; [done|]. by intros sha ?%not_elem_of_empty.
    - intros s Hs. eapply Hmid; [by left|by left|exact Hs]. }
  intros ?. apply (triple_pre _ _ (on (here new m0 (holds (initial_file dir0) (checkpoints_file dir0) (list_to_set merged_shas))))).
  { intros s Hs. eapply here_impl; [exact Hs|]. intros dir [(H1 & H2 & H3 & _) H4]. split; [done|]. split; [done|]. split; [done|].
    intros sha Hsha. apply H4. set_solver. }
  eapply triple_bind.
  { eapply triple_weaken; [apply write_initial_holds|done|done|]. intros s (dir & Hm & ci & Hci & Hd).
    eapply (Hmid ci); [done|by left|]. by exists dir. }
  intros ? s (dir & Hm & ci & Hci & Hd).
  assert (on (here new m0 (holds ci (checkpoints_file dir0) (list_to_set merged_shas))) s) as Hs by (by exists dir).
  clear dir Hm Hd. revert s Hs. eapply triple_weaken; [apply write_checkpoints_holds|done| |].
  - intros [] s' Hs'. eapply here_impl; [exact Hs'|]. intros dir' (cc & Hcc & Hd'). exists ci, cc. split; [done|]. split; [done|].
    split; [done|]. intros c e Hc He. destruct Hd' as (_ & _ & Hg & _). apply Hg. destruct (Hst c Hc e He) as (text & Ht & _).
    unfold dir_at in Ht. rewrite Hnew in Ht. by exists text.
  - intros s' (dir' & Hm' & cc & Hcc & Hd'). eapply (Hmid ci cc); [by right|done|]. by exists dir'.
Qed.

(** What the two files say when they are read. *)
Lemma read_back_files x : initial_files (read_back x) = nonempty_files (initial_files x).
Proof. unfold read_back. case_bool_decide as E; [by rewrite E|done]. Qed.

Lemma read_back_blobs x path :
  is_Some (nonempty_files (initial_files x) !! path) → file_blobs (read_back x) !! path = file_blobs x !! path.
Proof.
  intros Hp. unfold read_back. case_bool_decide as E; [rewrite E in Hp; by destruct Hp|].
  cbn [record_traces kept_initial file_blobs]. unfold restrict. destruct (file_blobs x !! path) as [sha|] eqn:Eb.
  - apply map_lookup_filter_Some. split; [done|]. by apply elem_of_dom.
  - by apply map_lookup_filter_None; left.
Qed.

Lemma initially_written x ci m : written x ci → initial_file (dir_at m new) = ci → initially m new = Ret (read_back x).
Proof.
  unfold written, read_back, initially, initial_in. case_bool_decide; [by intros -> ->|]. intros (json & Hj & ->) ->.
  destruct (initial_read_back _ _ Hj) as [-> ->]. done.
Qed.

Lemma logged_rendered cc m : rendered (o ++ n) cc → checkpoints_file (dir_at m new) = cc → logged m new = Ret (migrate (o ++ n)).
Proof.
  intros (text & Ht & ->) Hc. unfold logged, logged_in. rewrite Hc, (parse_written _ _ Ht), filter_versioned; [done|].
  apply Forall_app. split; by eapply logged_versioned.
Qed.

(** Renaming when both logs are there: the old one is gone, or a part of it is
    left. *)
Definition renamed (m : gmap Dir LogDir) : Prop := ∃ m', here new m0 merged m' ∧ m = delete old m'.
Definition torn (m : gmap Dir LogDir) : Prop := ∃ m' rest, here new m0 merged m' ∧ m = <[old := rest]> m'.

Lemma merged_merging m : here new m0 merged m → here new m0 merging m.
Proof.
  intros Hm. eapply here_impl; [exact Hm|]. intros dir (ci & cc & Hci & Hcc & Hd & _). exists ci, cc.
  split; [by right|]. split; [by right|]. by eapply holds_less.
Qed.

Lemma triple_rename :
  triple (on (eq m0)) (do! _ := merge_working_log_dirs old new in do! _ := remove_dir_all old in sync_working_logs)
    (λ _, on renamed) (on (λ m, here new m0 merging m ∨ torn m ∨ renamed m)).
Proof.
  eapply triple_bind.
  { eapply triple_weaken; [apply triple_merge|done|done|]. intros s Hs. by left. }
  intros ?. eapply (triple_bind _ _ _ (λ _, on renamed)); [|intros ?; apply triple_keeps; [by right; right|apply keeps_io]].
  intros s Hs. unfold remove_dir_all, on in *. destruct (dirs s !! old) as [rest|] eqn:Eo; [|left; by apply merged_merging].
  destruct (fault (calls s)); [right; left; by eexists (dirs s), _|by exists (dirs s)].
Qed.

Lemma merging_reads m :
  here new m0 merging m →
  (initially m new = Ret xn ∨ initially m new = Ret (read_back (merge_initials xo xn))) ∧
  (logged m new = Ret n ∨ logged m new = Ret (migrate (o ++ n))).
Proof.
  intros (dir & -> & ci & cc & Hci & Hcc & Hi & Hc & _).
  assert (dir_at (<[new := dir]> m0) new = dir) as Hd by (unfold dir_at; by rewrite lookup_insert_eq).
  assert (dir_at m0 new = dir0) as Hd0 by (unfold dir_at; by rewrite Hnew). split.
  - destruct Hci as [->|Hw]; [left|right; eapply initially_written; [exact Hw|by rewrite Hd]].
    rewrite <-Hxn. unfold initially, initial_in. by rewrite Hd, Hd0, Hi.
  - destruct Hcc as [->|Hw]; [left|right; eapply logged_rendered; [exact Hw|by rewrite Hd]].
    rewrite <-Hn. unfold logged, logged_in. by rewrite Hd, Hd0, Hc.
Qed.

(** The new log has everything. *)
Definition has_both (m : gmap Dir LogDir) : Prop :=
  initially m new = Ret (read_back (merge_initials xo xn)) ∧ logged m new = Ret (migrate (o ++ n)) ∧
  ∀ c e, c ∈ o ++ n → e ∈ entries c → is_Some (blob_at (dir_at m new) (blob_sha e)).

Lemma merged_reads m m' : here new m0 merged m' → dir_at m new = dir_at m' new → has_both m.
Proof.
  intros (dir & -> & ci & cc & Hci & Hcc & (Hi & Hc & _ & Hb) & Hbn) Hd.
  unfold dir_at at 2 in Hd. rewrite lookup_insert_eq in Hd. cbn in Hd.
  split; [eapply initially_written; [exact Hci|by rewrite Hd]|].
  split; [eapply logged_rendered; [exact Hcc|by rewrite Hd]|]. rewrite Hd. intros c e [Hc'|Hc']%elem_of_app He; [|by eapply Hbn].
  apply Hb, elem_of_list_to_set. unfold merged_shas. apply elem_of_app. right.
  apply elem_of_flat_map. exists c. split; [done|]. by apply elem_of_list_map_2 || apply list_elem_of_fmap_2.
Qed.

Lemma renamed_reads m : old ≠ new → renamed m → m !! old = None ∧ has_both m.
Proof.
  intros Hne (m' & Hm' & ->). split; [apply lookup_delete_eq|]. eapply merged_reads; [exact Hm'|]. unfold dir_at. by rewrite lookup_delete_ne.
Qed.
Lemma torn_reads m : old ≠ new → torn m → has_both m.
Proof. intros Hne (m' & rest & Hm' & ->). eapply merged_reads; [exact Hm'|]. unfold dir_at. by rewrite lookup_insert_ne. Qed.

Lemma renamed_others m d : renamed m ∨ torn m → d ≠ old → d ≠ new → m !! d = m0 !! d.
Proof.
  intros [(m' & (dir & -> & _) & ->)|(m' & rest & (dir & -> & _) & ->)] ??; [rewrite lookup_delete_ne by done|];
    by rewrite !lookup_insert_ne.
Qed.
End Merging.

Lemma here_others d m0 P m d' : here d m0 P m → d' ≠ d → m !! d' = m0 !! d'.
Proof. intros (dir & -> & _) ?. by rewrite lookup_insert_ne. Qed.

(** *** Deleting another log *)

Lemma keeps_delete_log D sha :
  (∀ m d, archived d = true ∨ d = log_dir sha → D m → D (delete d m)) →
  (∀ m d dir, archived d = true → D m → D (<[d := dir]> m)) →
  keeps (on D) (delete_working_log_for_base_commit sha).
Proof.
  intros H1 H2. assert (∀ name, starts_with (lit "old-") name = true → keeps (on D) (remove_dir_all (log_dir name))) as Hrm.
  { intros name Hn. apply keeps_remove; [intros m; apply H1; by left|intros m dir kept _; by apply H2]. }
  assert (starts_with (lit "old-") (lit "old-" ++ sha) = true) as Ha by (apply starts_with_spec; by eexists).
  unfold delete_working_log_for_base_commit. apply keeps_bind; [apply keeps_exists|intros []]; [|apply keeps_ret].
  cbn [negb]. apply keeps_bind; [apply keeps_exists|intros there].
  apply keeps_bind; [destruct there; [by apply Hrm|apply keeps_ret]|intros ?].
  apply keeps_bind; [apply keeps_rename_dir; intros m dir _ Hm; apply H2; [done|]; apply H1; [by right|done]|intros ?].
  apply keeps_bind; [apply keeps_ignore, keeps_write_file|intros ?].
  { intros m t Hm. destruct (m !! log_dir (lit "old-" ++ sha)) as [dir|] eqn:E; [|by rewrite alter_id by congruence].
    rewrite <-(insert_id m _ dir E) at 1. rewrite alter_insert_eq. by apply H2. }
  unfold prune_expired_old_working_logs. apply keeps_bind; [apply keeps_try_io|intros []]; [|apply keeps_ret].
  apply keeps_bind; [apply keeps_gets|intros names]. apply keeps_for_each. intros name. unfold prune_expired.
  destruct (starts_with (lit "old-") name) eqn:E; [|apply keeps_ret]. cbn [negb].
  apply keeps_bind; [apply keeps_try_io|intros []]; [|apply keeps_ret].
  apply keeps_bind; [apply keeps_try_io|intros r]. apply keeps_bind; [apply keeps_the_dir|intros dir].
  case_match; [|apply keeps_ret]. by apply keeps_ignore, Hrm.
Qed.

(** A log that is not an archived one is out of the way. *)
Lemma keeps_delete_other (F : option LogDir → Prop) sha other :
  sha ≠ other → starts_with (lit "old-") other = false →
  keeps (on (λ m, F (m !! log_dir other))) (delete_working_log_for_base_commit sha).
Proof.
  intros Hne Hold. assert (∀ name, starts_with (lit "old-") name = true → log_dir name ≠ log_dir other) as Hn.
  { intros name Hs [= ->]. congruence. }
  apply keeps_delete_log.
  - intros m d [Ha| ->]; (rewrite lookup_delete_ne; [done|]); [|by intros [= ->]]. intros ->. cbn in Ha. congruence.
  - intros m d dir Ha. rewrite lookup_insert_ne; [done|]. intros ->. cbn in Ha. congruence.
Qed.

Definition tick (s : Storage) : Storage := mkStorage (dirs s) (S (calls s)).
Lemma seen_exists `{seen : !StatsAnswer} d s : exists_dir d s = (tick s, Ret (bool_decide (is_Some (dirs s !! d)))).
Proof. unfold exists_dir, exists_. by rewrite stats_answer. Qed.

Lemma rename_both `{seen : !StatsAnswer} old new s :
  str_eqb old new = false → is_Some (dirs s !! log_dir old) → is_Some (dirs s !! log_dir new) →
  rename_working_log old new s =
  (do! _ := merge_working_log_dirs (log_dir old) (log_dir new) in do! _ := remove_dir_all (log_dir old) in sync_working_logs) (tick (tick s)).
Proof.
  intros Hne Ho Hn. unfold rename_working_log. rewrite Hne. unfold bind at 1 2. rewrite !seen_exists.
  rewrite !bool_decide_true by done. done.
Qed.

End Facts.

End StorageFacts.

(** ** An environment *)

(** A codec of a few values, and a hash of two contents. *)
Module StorageExample.
Import AuthorshipLog Attribution WorkingLog HashIter VirtualAttributions RepoStorage StorageRef.
Import DiffCompute(result).

#[export] Instance WorkingLogEntry_eq_dec : EqDecision WorkingLogEntry.
Proof. solve_decision. Defined.
#[export] Instance AgentId_eq_dec : EqDecision AgentId.
Proof. solve_decision. Defined.
#[export] Instance KnownHumanMetadata_eq_dec : EqDecision KnownHumanMetadata.
Proof. solve_decision. Defined.
#[export] Instance CheckpointLineStats_eq_dec : EqDecision CheckpointLineStats.
Proof. solve_decision. Defined.
#[export] Instance Checkpoint_eq_dec : EqDecision Checkpoint.
Proof. solve_decision. Defined.

Definition hash_of (content : str) : str := repeat (if str_eqb content (lit "x") then "0"%char else "1"%char) 64.

Definition entry (attributions : list Attribution) : WorkingLogEntry :=
  mkEntry (lit "f") (hash_of (lit "x")) attributions [].
Definition checkpoint (request : str) (attributions : list Attribution) : Checkpoint :=
  mkCheckpoint AiAgent [] (lit "ai") [entry attributions] 0 None None (mkLineStats 0 0 0 0) CHECKPOINT_API_VERSION None None
    (Some request).
Definition char_attribution : Attribution := mkAttr 0 1 (lit "ai") 0.

Definition samples : list (str * Checkpoint) :=
  [(lit "a+", checkpoint (lit "a") [char_attribution]); (lit "a-", checkpoint (lit "a") []);
   (lit "b+", checkpoint (lit "b") [char_attribution]); (lit "b-", checkpoint (lit "b") [])].

Definition initial_x : InitialAttributions :=
  mkInitial {[lit "f" := [mkLineAttr 1 1 (lit "h") None]]} ∅ {[lit "f" := hash_of (lit "x")]} ∅ ∅.

#[export] Instance PromptRecord_eq_dec : EqDecision PromptRecord.
Proof. solve_decision. Defined.
#[export] Instance HumanRecord_eq_dec : EqDecision HumanRecord.
Proof. solve_decision. Defined.
#[export] Instance SessionRecord_eq_dec : EqDecision SessionRecord.
Proof. solve_decision. Defined.
#[export] Instance InitialAttributions_eq_dec : EqDecision InitialAttributions.
Proof. solve_decision. Defined.

Definition encode {A : Type} `{!EqDecision A} (table : list (str * A)) (x : A) : result str :=
  match List.find (λ p, bool_decide (p.2 = x)) table with Some p => Ret p.1 | None => Fail (lit "no encoding") end.
Definition decode {A : Type} (table : list (str * A)) (s : str) : result A :=
  match List.find (λ p, str_eqb p.1 s) table with Some p => Ret p.2 | None => Fail (lit "no value") end.

Lemma decode_encode {A : Type} `{!EqDecision A} (table : list (str * A)) x s :
  NoDup (map fst table) → encode table x = Ret s → (s, x) ∈ table ∧ decode table s = Ret x.
Proof.
  unfold encode, decode. induction table as [|[k v] table IH]; intros Hnd; [done|]. cbn [map fst] in Hnd.
  apply NoDup_cons in Hnd as [Hk Hnd]. cbn [List.find fst snd]. case_bool_decide as E.
  - intros [= <-]. subst. cbn. split; [left|]. unfold str_eqb. by rewrite bool_decide_true.
  - destruct (List.find _ table) as [p|] eqn:F; [|done]. intros [= <-].
    destruct (IH Hnd eq_refl) as [Hin Hd]. split; [by right|]. unfold str_eqb at 1. rewrite bool_decide_false; [done|].
    intros ->. apply Hk. apply list_elem_of_In, in_map_iff. exists (p.1, x). split; [done|]. by apply list_elem_of_In.
Qed.

(** Some calls fail and some files are not seen, by the number of the call; a
    failed removal leaves INITIAL; the clock stands still. *)
Definition environment_seeing (initial : InitialAttributions) (now : N) (broken hidden : list nat) : Environment := {|
  fault := λ n, if bool_decide (n ∈ broken) then Some (lit "i/o error") else None;
  survives := λ _ name, str_eqb name (lit "INITIAL");
  written_bytes := λ _, 0;
  unseen := λ n, bool_decide (n ∈ hidden);
  now_secs := now;
  generate_v4 := λ _, [];
  sha256_hex := hash_of;
  checkpoint_to_json := encode samples;
  checkpoint_of_json := decode samples;
  initial_to_json := encode [(lit "i", initial)];
  initial_of_json := decode [(lit "i", initial)]
|}.
Definition environment_with (initial : InitialAttributions) (now : N) (broken : list nat) : Environment :=
  environment_seeing initial now broken [].
Definition environment_at : N → list nat → Environment := environment_with initial_x.
Definition environment : list nat → Environment := environment_at 0.

Definition history : list operation :=
  let d := log_dir (lit "base") in
  [OpenLog (lit "base"); Persist d (lit "x"); WriteInitial d initial_x; WriteInitial d initial_x;
   Append d (checkpoint (lit "a") [char_attribution]); Append d (checkpoint (lit "b") [char_attribution])].

(** Two logs with a checkpoint each. *)
Definition two_logs (broken : list nat) : Storage :=
  run_history (env := environment broken) (order := in_order) (mkStorage ∅ 0)
    (flat_map (λ p : str * str, let d := log_dir p.1 in
      [OpenLog p.1; Persist d (lit "x"); Append d (checkpoint p.2 [char_attribution])]) [(lit "old", lit "a"); (lit "new", lit "b")]).

Lemma environment_seeing_laws initial now broken hidden : @EnvironmentLaws (environment_seeing initial now broken hidden).
Proof.
  split.
  - intros x json H. apply decode_encode in H as [Hin Hd]; [|apply NoDup_singleton].
    apply list_elem_of_singleton in Hin as [= -> ->]. split; [by vm_compute|done].
  - intros c json H. apply decode_encode in H as [Hin Hd]; [|by apply (bool_decide_unpack _); vm_compute]. cbn in Hin.
    assert (∀ s, s ∈ map fst samples → PatchText.valid_utf8 s = true ∧ LF ∉ s ∧ CR ∉ s ∧ trim s ≠ []) as Hs.
    { apply Forall_forall. by apply (bool_decide_unpack _); vm_compute. }
    destruct (Hs json) as (H1 & H2 & H3 & H4).
    { apply list_elem_of_In, in_map_iff. exists (json, c). split; [done|]. by apply list_elem_of_In. }
    done.
  - intros content. change (validate_blob_sha (hash_of content) = Ret tt). unfold hash_of. by destruct (str_eqb content (lit "x")).
Qed.

Lemma environment_with_laws initial now broken : @EnvironmentLaws (environment_with initial now broken).
Proof. apply environment_seeing_laws. Qed.
Lemma environment_with_seen initial now broken : @StatsAnswer (environment_with initial now broken).
Proof. intros n. by apply bool_decide_eq_false, not_elem_of_nil. Qed.
Lemma environment_laws broken : @EnvironmentLaws (environment broken).
Proof. apply environment_with_laws. Qed.

End StorageExample.

(** ** Properties *)

Module StorageProps.
Import AuthorshipLog Attribution WorkingLog HashIter HashIterFacts VirtualAttributions StateResult StateResultFacts RepoStorage StorageRef StorageFacts StorageExample.
Import DiffCompute(result).



(** The exception: a rename onto another log whose last step, the removal of the
    old log, stops on the way.  INITIAL is left without the contents it refers
    to, and the old log cannot be read or renamed any more. *)
Example torn_log_is_unreadable :
  let env := environment [53] in
  let old := log_dir (lit "old") in
  let s := run_history (env := env) (order := in_order) (mkStorage ∅ 0)
    [OpenLog (lit "old"); Persist old (lit "x"); WriteInitial old initial_x; OpenLog (lit "new"); RenameLog (lit "old") (lit "new")] in
  initially (env := env) (order := in_order) (dirs s) old = Ret initial_x ∧
  (read_initial_attributions (env := env) (order := in_order) old s).2 = Fail (lit "No such file or directory").
Proof. by vm_compute. Qed.

(** C35: a checkpoint that is appended again and again until it is reported to be
    there is published once, whatever calls fail: the log holds the old
    checkpoints or the new ones as well, and the request counts once.  Only a
    stat that fails makes a difference: the log is then taken for an empty one,
    and the new checkpoint replaces what was there. *)
Theorem append_exactly_once `{laws : EnvironmentLaws} `{order : HashOrder} d c t cs s n :
  trace_id c = Some t → api_version c = CHECKPOINT_API_VERSION → logged (dirs s) d = Ret cs → existsb (has_request t) cs = false →
  let new := migrate (prune_old_char_attributions (cs ++ [c])) in
  let alone := migrate (prune_old_char_attributions [c]) in
  let s' := retry d c n s in
  let there := logged (dirs s') d = Ret new ∨ (∃ k, unseen k = true) ∧ logged (dirs s') d = Ret alone in
  (∀ d', d' ≠ d → dirs s' !! d' = dirs s !! d') ∧
  (logged (dirs s') d = Ret cs ∨ there) ∧
  (∀ k b, k < n → (append_checkpoint_idempotent d c (retry d c k s)).2 = Ret b → there) ∧
  length (List.filter (has_request t) new) = 1 ∧ length (List.filter (has_request t) alone) = 1.
Proof.
  intros Ht Hv Hl Hn new alone s' there.
  assert (∀ ps, existsb (has_request t) ps = false → length (List.filter (has_request t) (migrate (prune_old_char_attributions (ps ++ [c])))) = 1) as Hone.
  { intros ps Hps. rewrite (count_requests t _ (ps ++ [c])) by by rewrite migrate_requests, prune_requests.
    rewrite List.filter_app, length_app. rewrite existsb_filter in Hps.
    apply negb_false_iff, Nat.eqb_eq in Hps. rewrite Hps. cbn. unfold has_request. rewrite Ht. unfold str_eqb.
    by rewrite bool_decide_true. }
  destruct (retry_cases d c t cs s n Ht Hv Hl Hn) as [[Hu Hf]|Hp].
  - split; [by intros; eapply unchanged_others|]. split; [left; by rewrite (logged_unchanged _ _ _ Hu)|].
    split; [|split; [by apply Hone|by apply (Hone [])]]. intros k b Hk Hr. by destruct (Hf k b Hk).
  - assert (there) as Hthere.
    { destruct Hp as [Hp|[Hb Hp]]; [left|right; split; [exact Hb|]]; (eapply logged_published; [|exact Hp]).
      - apply published_versioned; [done|by eapply logged_versioned].
      - apply (published_versioned c []); [done|constructor]. }
    split; [intros d' Hd'; destruct Hp as [Hp|[_ Hp]]; by eapply published_others|]. split; [by right|].
    split; [done|]. split; [by apply Hone|by apply (Hone [])].
Qed.

Lemma append_exactly_once_witness :
  let s := mkStorage {[log_dir (lit "base") := empty_dir]} 0 in
  let c := checkpoint (lit "a") [char_attribution] in
  let after := retry (env := environment [5]) (log_dir (lit "base")) c 2 s in
  let new := migrate (env := environment [5]) (prune_old_char_attributions [c]) in
  trace_id c = Some (lit "a") ∧
  (logged (env := environment [5]) (dirs after) (log_dir (lit "base")) = Ret [] ∨
   logged (env := environment [5]) (dirs after) (log_dir (lit "base")) = Ret new ∨
   (∃ k, @unseen (environment [5]) k = true) ∧ logged (env := environment [5]) (dirs after) (log_dir (lit "base")) = Ret new).
Proof.
  intros s c after new. split; [done|].
  exact (proj1 (proj2 (append_exactly_once (env := environment [5]) (laws := environment_laws _) (order := in_order)
    (log_dir (lit "base")) c (lit "a") [] s 2 eq_refl eq_refl eq_refl eq_refl))).
Defined.

(** The stat that fails: the checkpoint of b is appended to the log of a, and
    the one of a is gone. *)
Example failed_stat_forgets_the_log :
  let env := environment_seeing initial_x 0 [] [19] in
  let d := log_dir (lit "base") in
  let s := run_history (env := env) (order := in_order) (mkStorage ∅ 0)
    [OpenLog (lit "base"); Persist d (lit "x"); Append d (checkpoint (lit "a") [char_attribution])] in
  let after := append_checkpoint_idempotent (env := env) d (checkpoint (lit "b") [char_attribution]) s in
  logged (env := env) (dirs s) d = Ret [checkpoint (lit "a") [char_attribution]] ∧
  after.2 = Ret true ∧ logged (env := env) (dirs after.1) d = Ret [checkpoint (lit "b") [char_attribution]].
Proof. by vm_compute. Qed.

(** pruning clears the attributions of an entry exactly when a later_mention
    checkpoint has its file, and pruning at every append gives what pruning once
    at the end gives. *)
Theorem prune_keeps_newest (cs cs' : list Checkpoint) :
  prune_old_char_attributions cs = keep_newest cs ∧
  prune_old_char_attributions (prune_old_char_attributions cs ++ cs') = prune_old_char_attributions (cs ++ cs').
Proof. split; [apply prune_is_keep_newest|]. rewrite !prune_is_keep_newest. apply keep_newest_app. Qed.

(** C36: when a log is renamed to one that is there, whatever calls fail that
    report their failure, nothing of the two is lost: either the old log is as it
    was and the new one holds what it held or what both held, or the new one
    holds what both held, with the file contents they refer to, whatever is left
    of the old one; success means that the old one is gone as well.  [exists] is
    assumed to see the logs. *)
Theorem rename_loses_nothing `{laws : EnvironmentLaws} `{order : HashOrder} `{seen : !StatsAnswer} old_sha new_sha s xo xn o n :
  let old := log_dir old_sha in
  let new := log_dir new_sha in
  str_eqb old_sha new_sha = false → is_Some (dirs s !! old) → is_Some (dirs s !! new) →
  initially (dirs s) old = Ret xo → initially (dirs s) new = Ret xn → logged (dirs s) old = Ret o → logged (dirs s) new = Ret n →
  let both := read_back (merge_initials xo xn) in
  let s' := (rename_working_log old_sha new_sha s).1 in
  let complete := initially (dirs s') new = Ret both ∧ logged (dirs s') new = Ret (migrate (o ++ n)) ∧
    ∀ c e, c ∈ o ++ n → e ∈ entries c → is_Some (blob_at (dir_at (dirs s') new) (blob_sha e)) in
  (∀ d, d ≠ old → d ≠ new → dirs s' !! d = dirs s !! d) ∧
  (complete ∨ dirs s' !! old = dirs s !! old ∧
    (initially (dirs s') new = Ret xn ∨ initially (dirs s') new = Ret both) ∧
    (logged (dirs s') new = Ret n ∨ logged (dirs s') new = Ret (migrate (o ++ n)))) ∧
  ((rename_working_log old_sha new_sha s).2 = Ret tt → dirs s' !! old = None ∧ complete).
Proof.
  intros old new Hne Hold [dir0 Hnew] Hxo Hxn Ho Hn both s' complete.
  assert (old ≠ new) as Hd.
  { intros [= E]. subst new_sha. by rewrite HashIterFacts.str_eqb_refl in Hne. }
  pose proof (triple_rename old new (dirs s) dir0 Hnew xo xn o n Hxo Hxn Ho Hn (tick (tick s)) eq_refl) as H.
  rewrite <-(rename_both old_sha new_sha s Hne Hold (ex_intro _ _ Hnew)) in H.
  pose proof (λ m, merging_reads old new (dirs s) dir0 Hnew xo xn o n Hxn Ho Hn m) as Hmid.
  pose proof (λ m, renamed_reads old new (dirs s) dir0 xo xn o n Ho Hn m Hd) as Hend.
  pose proof (λ m, torn_reads old new (dirs s) dir0 xo xn o n Ho Hn m Hd) as Htorn.
  pose proof (λ m d, renamed_others old new (dirs s) dir0 xo xn o n m d) as Hoth.
  unfold complete, s'. clear complete s'. destruct (rename_working_log old_sha new_sha s) as [s' r]. cbn [fst snd].
  assert (renamed old new (dirs s) dir0 xo xn o n (dirs s') ∨
          torn old new (dirs s) dir0 xo xn o n (dirs s') ∧ r ≠ Ret tt ∨
          here new (dirs s) (merging dir0 xo xn o n) (dirs s') ∧ r ≠ Ret tt) as [Hr|[[Ht Hf]|[Hm Hf]]].
  { unfold on in H. destruct r as [[]|e|]; [by left|destruct H as [H|[H|H]]; auto..]. }
  - destruct (Hend _ Hr). split; [by intros; apply Hoth; [left| |]|]. split; [by left|done].
  - split; [by intros; apply Hoth; [right| |]|]. split; [left; by apply Htorn|done].
  - split; [intros; by eapply here_others|]. split; [right; split; [by eapply here_others|by apply Hmid]|done].
Qed.

Lemma rename_loses_nothing_witness :
  let s := two_logs [] in
  (rename_working_log (env := environment []) (order := in_order) (lit "old") (lit "new") s).2 = Ret tt ∧
  dirs (rename_working_log (env := environment []) (order := in_order) (lit "old") (lit "new") s).1 !! log_dir (lit "old") = None.
Proof.
  intros s. assert ((rename_working_log (env := environment []) (order := in_order) (lit "old") (lit "new") s).2 = Ret tt) as Hr
    by by vm_compute. split; [exact Hr|].
  refine (proj1 (proj2 (proj2 (rename_loses_nothing (env := environment []) (laws := environment_laws _) (order := in_order)
    (seen := environment_with_seen _ _ _) (lit "old") (lit "new") s no_initial no_initial [checkpoint (lit "a") [char_attribution]]
    [checkpoint (lit "b") [char_attribution]] _ _ _ _ _ _ _)) Hr)).
  1: by vm_compute.
  1,2: by apply (bool_decide_unpack _); vm_compute.
  all: by vm_compute.
Defined.

(** When a call fails after the merged checkpoints were published and before the
    old log is gone, trying again merges again: the old checkpoint is there
    twice. *)
Example interrupted_merge_repeats :
  let rename := rename_working_log (env := environment [65]) (order := in_order) (lit "old") (lit "new") in
  let first := rename (two_logs [65]) in
  let second := rename first.1 in
  first.2 = Fail (lit "i/o error") ∧ second.2 = Ret tt ∧
  logged (env := environment [65]) (dirs second.1) (log_dir (lit "new")) =
    Ret (map (λ t, checkpoint t [char_attribution]) [lit "a"; lit "a"; lit "b"]).
Proof. by vm_compute. Qed.

(** An archived log whose marker could not be written is taken for one from
    before the retention and removed at once. *)
Example unmarked_log_is_pruned :
  let env := environment_at 700000 [5] in
  let s := run_history (env := env) (order := in_order) (mkStorage ∅ 0) [OpenLog (lit "base"); DeleteLog (lit "base")] in
  let kept := run_history (env := environment_at 700000 []) (order := in_order) (mkStorage ∅ 0) [OpenLog (lit "base"); DeleteLog (lit "base")] in
  dirs s = ∅ ∧ is_Some (dirs kept !! log_dir (lit "old-base")).
Proof. split; [by vm_compute|by eexists; vm_compute]. Qed.

End StorageProps.
