(* ===== verification/ResetLog.v ===== *)
(** * The working log after a reset

    src/src/authorship/rewrite_reset.rs: after a reset to an earlier commit the
    lines of the commits undone are uncommitted again.  Their notes, moved to the
    text of the old tip, become the INITIAL file of the new tip. *)

From S2P Require Import Prelude Text LineRange AuthorshipLog NoteFormat Attribution WorkingLog HunkShift DiffCompute HashIter PatchParse VirtualAttributions DiffTree RangeDiff Rewrite RewriteProps Revert StateResult RepoStorage RepoStorageProps.

Local Open Scope Z_scope.

(** ** Definitions *)

Module ResetLog.
Import LineRange AuthorshipLog Attribution HunkShift HashIter StateResult RepoStorage.
Import DiffCompute(result).
Import DiffTree(DiffTreeResult, hunks_by_file).
Import Rewrite(read_notes_batch, compute_diff_trees_batch).
Import RangeDiff(list_commits_in_range).

(** The answers of git: to the rewriting of notes, to the listing of commits,
    and the contents of paths at commits. *)
Record ResetGit := mkResetGit {
  notes_git : Rewrite.Git;
  history_git : RangeDiff.Git;
  batch_read_paths_at_treeishes : list (str * str) → result (gmap (str * str) str)
}.

(** ** The attributions of the notes *)

Definition range_bounds (range : LineRange) : Z * Z :=
  match range with Single l => (l, l) | Range s e => (s, e) end.

Definition raw_attrs (fa : FileAttestation) : list LineAttribution :=
  flat_map (λ entry, map (λ range, mkLineAttr (range_bounds range).1 (range_bounds range).2 (hash entry) None)
    (line_ranges entry)) (entries fa).

Definition fully_covered (new_attr old : LineAttribution) : bool :=
  (start_line new_attr <=? start_line old) && (end_line old <=? end_line new_attr).
Definition head_overlap (new_attr old : LineAttribution) : bool :=
  (start_line old <? start_line new_attr) && (start_line new_attr <=? end_line old).
Definition tail_overlap (new_attr old : LineAttribution) : bool :=
  (end_line new_attr <? end_line old) && (start_line old <=? end_line new_attr).

(** The bounds do not overflow: a line is before the start, one is after the
    end. *)
Definition fragments (new_attr old : LineAttribution) : list LineAttribution :=
  (if head_overlap new_attr old
   then [mkLineAttr (start_line old) (start_line new_attr - 1) (line_author_id old) (overrode old)] else []) ++
  (if tail_overlap new_attr old
   then [mkLineAttr (end_line new_attr + 1) (end_line old) (line_author_id old) (overrode old)] else []).

Definition overlay (existing : list LineAttribution) (new_attr : LineAttribution) : list LineAttribution :=
  let existing := List.filter (λ old, negb (fully_covered new_attr old)) existing in
  List.filter (λ old, negb (head_overlap new_attr old) && negb (tail_overlap new_attr old)) existing ++
  flat_map (fragments new_attr) existing ++ [new_attr].

(** What the loop over the commits collects. *)
Record Undone := mkUndone {
  file_attributions : gmap str (list LineAttribution);
  c_prompts : gmap str PromptRecord;
  c_sessions : gmap str SessionRecord;
  c_humans : gmap str HumanRecord
}.

Definition shifted_attrs (hunks_by_file : option (gmap str (list DiffHunk))) (fa : FileAttestation) : list LineAttribution :=
  match hunks_by_file with
  | Some all_hunks =>
      match all_hunks !! file_path fa with
      | Some (h :: hs) => apply_hunk_shifts_to_line_attributions (raw_attrs fa) (h :: hs)
      | _ => raw_attrs fa
      end
  | None => raw_attrs fa
  end.

Definition extract_file (hunks_by_file : option (gmap str (list DiffHunk))) (m : gmap str (list LineAttribution))
    (fa : FileAttestation) : gmap str (list LineAttribution) :=
  <[file_path fa := foldl overlay (default [] (m !! file_path fa)) (shifted_attrs hunks_by_file fa)]> m.

Definition extract_attributions_from_log_shifted (log : AuthorshipLog) (hunks_by_file : option (gmap str (list DiffHunk)))
    (c : Undone) : Undone :=
  mkUndone (foldl (extract_file hunks_by_file) (file_attributions c) (attestations log))
    (c_prompts c ∪ prompts (metadata log))
    (union_with (λ existing record, Some (merge_from existing record)) (c_sessions c) (sessions (metadata log)))
    (c_humans c ∪ humans (metadata log)).

(** ** Reconstruction *)

Section Notes.
Variable from_str : str → option AuthorshipMetadata.

(** The commits with a note that can be read. *)
Fixpoint read_logs (notes : gmap str str) (commits : list str) : result (list (str * AuthorshipLog)) :=
  match commits with
  | [] => Ret []
  | commit_sha :: commits' =>
      match notes !! commit_sha with
      | None => read_logs notes commits'
      | Some raw_note =>
          match NoteFormat.deserialize_from_string from_str raw_note with
          | Panic => Panic
          | Fail _ => read_logs notes commits'
          | Ret log => let? commit_logs := read_logs notes commits' in Ret ((commit_sha, log) :: commit_logs)
          end
      end
  end.

Definition shift_pairs (old_tip : str) (commit_logs : list (str * AuthorshipLog)) : list (str * str) :=
  map (λ cl, (cl.1, old_tip)) (List.filter (λ cl, negb (str_eqb cl.1 old_tip)) commit_logs).

(** The last index of a commit among the pairs. *)
Definition diff_idx_by_sha (diff_pairs : list (str * str)) : gmap str nat :=
  foldl (λ m ip, <[ip.2.1 := ip.1]> m) ∅ (imap pair diff_pairs).

(** An index out of range panics. *)
Fixpoint collect_logs (idx_by_sha : gmap str nat) (diff_results : list DiffTreeResult) (c : Undone)
    (commit_logs : list (str * AuthorshipLog)) : result Undone :=
  match commit_logs with
  | [] => Ret c
  | (commit_sha, log) :: commit_logs' =>
      match idx_by_sha !! commit_sha with
      | None => collect_logs idx_by_sha diff_results (extract_attributions_from_log_shifted log None c) commit_logs'
      | Some idx =>
          match diff_results !! idx with
          | None => Panic
          | Some d =>
              collect_logs idx_by_sha diff_results
                (extract_attributions_from_log_shifted log (Some (hunks_by_file d)) c) commit_logs'
          end
      end
  end.

(** The contents of the old tip that the new tip does not have. *)
Definition uncommitted_contents (tree_contents : gmap (str * str) str) (old_tip new_tip : str)
    (files : gmap str (list LineAttribution)) : gmap str str :=
  map_imap (λ path _,
    match tree_contents !! (old_tip, path) with
    | None => None
    | Some content =>
        if bool_decide (content = []) then None
        else if bool_decide (tree_contents !! (new_tip, path) = Some content) then None
        else Some content
    end) files.

Section Storage.
Context `{env : Environment} `{order : HashOrder}.
Variable git : ResetGit.
Local Abbreviation M A := (StateResult.M Storage A).

Definition write_uncommitted (old_tip new_tip : str) (c : Undone) : M unit :=
  let blob_requests := flat_map (λ path, [(old_tip, path); (new_tip, path)]) (hash_keys (file_attributions c)) in
  do! tree_contents := lift (batch_read_paths_at_treeishes git blob_requests) in
  let file_blobs := uncommitted_contents tree_contents old_tip new_tip (file_attributions c) in
  if bool_decide (file_blobs = ∅) then ignore (delete_working_log_for_base_commit old_tip)
  else
    let files := filter (λ kv, is_Some (file_blobs !! kv.1)) (file_attributions c) in
    do! d := working_log_for_base_commit new_tip in
    do! _ := write_initial_attributions_with_contents d files (c_prompts c) (c_humans c) file_blobs (c_sessions c) in
    ignore (delete_working_log_for_base_commit old_tip).

Definition reconstruct_working_log_after_backward_reset (old_tip new_tip : str) : M unit :=
  let commits := list_commits_in_range (history_git git) new_tip old_tip in
  if bool_decide (commits = []) then ret tt
  else
    do! notes := lift (read_notes_batch (notes_git git) commits) in
    do! commit_logs := lift (read_logs notes commits) in
    if bool_decide (commit_logs = []) then ret tt
    else
      let diff_pairs := shift_pairs old_tip commit_logs in
      do! diff_results := lift (if bool_decide (diff_pairs = []) then Ret [] else compute_diff_trees_batch (notes_git git) diff_pairs) in
      do! collected := lift (collect_logs (diff_idx_by_sha diff_pairs) diff_results (mkUndone ∅ ∅ ∅ ∅) commit_logs) in
      if bool_decide (file_attributions collected = ∅) then ret tt
      else write_uncommitted old_tip new_tip collected.
End Storage.
End Notes.

End ResetLog.

(** ** Reference: who owns a line of the old tip *)

Module ResetRef.
Import LineRange AuthorshipLog Attribution HunkShift ResetLog.
Import PatchText DiffTreeText RewriteSpec.

(** An attribution [c.2] carries line [n] through the hunks [c.1]. *)
Definition carries (n : Z) (c : list DiffHunk * LineAttribution) : bool :=
  existsb (λ o, bool_decide (line_after 0 c.1 o = Some n)) (seqZ (start_line c.2) (end_line c.2 - start_line c.2 + 1)).

(** The new tip does not have the content the old tip has. *)
Definition changed (content : str * str → option str) (old_tip new_tip path : str) : Prop :=
  ∃ c, content (old_tip, path) = Some c ∧ c ≠ [] ∧ content (new_tip, path) ≠ Some c.

Section Reference.
Variables (tree : str → str) (patch : str → str → list TreeFile) (old_tip : str).

(** The hunks between a commit undone and the old tip. *)
Definition hunks_to_tip (commit_sha path : str) : list DiffHunk :=
  if str_eqb commit_sha old_tip then [] else map hp_range (hunks_of (tree_patch tree patch (commit_sha, old_tip)) path).

(** All that the notes say of a file, the oldest commit first. *)
Definition claims (commit_logs : list (str * AuthorshipLog)) (path : str) : list (list DiffHunk * LineAttribution) :=
  flat_map (λ cl, flat_map (λ fa, if str_eqb (file_path fa) path
                                  then map (pair (hunks_to_tip cl.1 path)) (raw_attrs fa) else []) (attestations cl.2)) commit_logs.

(** The last that carries the line owns it. *)
Definition last_author (n : Z) : list (list DiffHunk * LineAttribution) → option str :=
  foldl (λ acc c, if carries n c then Some (line_author_id c.2) else acc) None.
Definition owner (commit_logs : list (str * AuthorshipLog)) (path : str) (n : Z) : option str :=
  last_author n (claims commit_logs path).

(** The patch is ordered and the ranges are inside it. *)
Definition log_fits (cl : str * AuthorshipLog) : Prop :=
  Forall (λ fa, hunks_ok 1 (hunks_to_tip cl.1 (file_path fa)) ∧
    Forall (λ la, range_fits (hunks_to_tip cl.1 (file_path fa)) (start_line la) (end_line la) ∧ start_line la <= end_line la)
      (raw_attrs fa)) (attestations cl.2).

(** The notes say something of a file. *)
Definition touched (commit_logs : list (str * AuthorshipLog)) (path : str) : Prop :=
  ∃ cl fa, cl ∈ commit_logs ∧ fa ∈ attestations cl.2 ∧ file_path fa = path.
End Reference.

(** The notes of the commits that can be read. *)
Definition readable_logs (from_str : str → option AuthorshipMetadata) (notes : gmap str str) (commits : list str) :
    list (str * AuthorshipLog) :=
  omap (λ sha, pair sha <$> note_log from_str notes sha) commits.

(** A line is attributed to an author. *)
Definition attributed (las : list LineAttribution) (n : Z) (author : str) : Prop :=
  ∃ la, la ∈ las ∧ covers_line la n = true ∧ line_author_id la = author.

End ResetRef.

(** ** Lemmas *)

Module ResetFacts.
Import LineRange AuthorshipLog Attribution HunkShift HunkShiftFacts ResetLog ResetRef.
Import DiffTree(DiffTreeResult, hunks_by_file).
Import PatchText DiffTreeText RewriteSpec.

(** *** Overlays *)

Definition proper (la : LineAttribution) : Prop := start_line la <= end_line la.

(** What is left of an old attribution are the lines the new one does not have. *)
Lemma fragments_lines new_attr old n :
  proper new_attr → proper old →
  (∃ la, la ∈ fragments new_attr old ∧ covers_line la n = true) ↔
  covers_line old n = true ∧ covers_line new_attr n = false ∧ (head_overlap new_attr old || tail_overlap new_attr old) = true.
Proof.
  unfold proper, fragments, covers_line, head_overlap, tail_overlap. intros Hn Ho. split.
  - intros (la & [Hin|Hin]%elem_of_app & Hc).
    + destruct (_ && _) eqn:E in Hin; [|by apply not_elem_of_nil in Hin]. apply list_elem_of_singleton in Hin as ->.
      cbn in Hc. lia.
    + destruct (_ && _) eqn:E in Hin; [|by apply not_elem_of_nil in Hin]. apply list_elem_of_singleton in Hin as ->.
      cbn in Hc. lia.
  - intros (Hc & Hd & He). destruct (Z.ltb_spec n (start_line new_attr)).
    + exists (mkLineAttr (start_line old) (start_line new_attr - 1) (line_author_id old) (overrode old)). split; [|cbn; lia].
      apply elem_of_app. left. replace (_ && _) with true by lia. by apply list_elem_of_singleton.
    + exists (mkLineAttr (end_line new_attr + 1) (end_line old) (line_author_id old) (overrode old)). split; [|cbn; lia].
      apply elem_of_app. right. replace (_ && _) with true by lia. by apply list_elem_of_singleton.
Qed.

Lemma fragments_author new_attr old la : la ∈ fragments new_attr old → line_author_id la = line_author_id old.
Proof.
  unfold fragments. destruct (head_overlap new_attr old), (tail_overlap new_attr old);
    intros [Hin|Hin]%elem_of_app; first [by apply not_elem_of_nil in Hin|by apply list_elem_of_singleton in Hin as ->].
Qed.

Lemma fragments_proper new_attr old la : la ∈ fragments new_attr old → proper la.
Proof.
  unfold fragments, head_overlap, tail_overlap, proper. intros [Hin|Hin]%elem_of_app; destruct (_ && _) eqn:E in Hin;
    first [by apply not_elem_of_nil in Hin|apply list_elem_of_singleton in Hin as ->; cbn; lia].
Qed.

Lemma overlay_lines existing new_attr n author :
  proper new_attr → Forall proper existing →
  attributed (overlay existing new_attr) n author ↔
  if covers_line new_attr n then line_author_id new_attr = author else attributed existing n author.
Proof.
  intros Hn Hex. unfold overlay, attributed. rewrite Forall_forall in Hex.
  setoid_rewrite elem_of_app. setoid_rewrite elem_of_app. setoid_rewrite elem_of_filter_b. setoid_rewrite elem_of_flat_map.
  setoid_rewrite elem_of_filter_b. setoid_rewrite list_elem_of_singleton. split.
  - intros (la & [[[Hin Hcov] Hov]|[(old & [Hin Hcov] & Hfr)| ->]] & Hc & <-).
    + specialize (Hex la Hin). unfold covers_line, fully_covered, head_overlap, tail_overlap, proper in *.
      assert ((start_line new_attr <=? n) && (n <=? end_line new_attr) = false) as -> by lia. exists la. split; [done|]. by split.
    + destruct (proj1 (fragments_lines new_attr old n Hn (Hex old Hin)) (ex_intro _ la (conj Hfr Hc))) as (H1 & -> & _).
      exists old. split; [done|]. split; [done|]. by rewrite (fragments_author _ _ _ Hfr).
    + by rewrite Hc.
  - destruct (covers_line new_attr n) eqn:E.
    + intros <-. exists new_attr. auto.
    + intros (old & Hin & Hc & <-). pose proof (Hex old Hin) as Ho.
      assert (fully_covered new_attr old = false) as Hf.
      { unfold covers_line, fully_covered, proper in *. lia. }
      destruct (head_overlap new_attr old || tail_overlap new_attr old) eqn:Eo.
      * destruct (proj2 (fragments_lines new_attr old n Hn Ho) (conj Hc (conj E Eo))) as (la & Hla & Hcl).
        exists la. split; [right; left; exists old; by rewrite Hf|]. split; [done|]. by eapply fragments_author.
      * exists old. split; [left|done]. apply orb_false_iff in Eo as [-> ->]. by rewrite Hf.
Qed.

Lemma overlay_proper existing new_attr : proper new_attr → Forall proper existing → Forall proper (overlay existing new_attr).
Proof.
  intros Hn Hex. rewrite Forall_forall in *. intros la. unfold overlay. rewrite !elem_of_app, elem_of_filter_b, elem_of_filter_b, elem_of_flat_map.
  intros [[[Hin _] _]|[(old & _ & Hin)|Hin]]; [by apply Hex|by eapply fragments_proper|by apply list_elem_of_singleton in Hin as ->].
Qed.

(** What a list of attributions says of the lines of a file. *)
Definition says (las : list LineAttribution) (n : Z) (acc : option str) : Prop := ∀ author, attributed las n author ↔ acc = Some author.

Definition owner_step (n : Z) (acc : option str) (c : list DiffHunk * LineAttribution) : option str :=
  if carries n c then Some (line_author_id c.2) else acc.

Lemma overlay_says existing new_attr n acc :
  proper new_attr → Forall proper existing → says existing n acc →
  says (overlay existing new_attr) n (if covers_line new_attr n then Some (line_author_id new_attr) else acc).
Proof.
  intros Hn Hex Hs author. rewrite overlay_lines by done. destruct (covers_line new_attr n); [|apply Hs].
  split; [by intros ->|by intros [= ->]].
Qed.

Lemma carries_true n hunks la :
  carries n (hunks, la) = true ↔ ∃ o, start_line la <= o <= end_line la ∧ line_after 0 hunks o = Some n.
Proof.
  unfold carries. cbn [fst snd]. rewrite existsb_exists. setoid_rewrite bool_decide_eq_true.
  split; intros (o & Ho & Hl); exists o; (split; [|done]); [apply list_elem_of_In, elem_of_seqZ in Ho; lia|].
  apply list_elem_of_In, elem_of_seqZ. lia.
Qed.

(** Laying the pieces of one shifted attribution over the others. *)
Lemma overlay_pieces hunks la existing n acc :
  hunks_ok 1 hunks → range_fits hunks (start_line la) (end_line la) → proper la →
  Forall proper existing → says existing n acc →
  let pieces := apply_hunk_shifts_to_line_attributions [la] hunks in
  Forall proper (foldl overlay existing pieces) ∧ says (foldl overlay existing pieces) n (owner_step n acc (hunks, la)).
Proof.
  intros Hok Hfit Hla Hex Hs pieces.
  assert (∀ l, Forall (λ p, proper p ∧ line_author_id p = line_author_id la) l → ∀ ex acc, Forall proper ex → says ex n acc →
    Forall proper (foldl overlay ex l) ∧
    says (foldl overlay ex l) n (if existsb (λ p, covers_line p n) l then Some (line_author_id la) else acc)) as Hfold.
  { induction 1 as [|p l [Hp Ha] _ IH]; intros ex acc' Hex' Hs'; [done|]. cbn [foldl existsb].
    destruct (IH (overlay ex p) _ (overlay_proper _ _ Hp Hex') (overlay_says _ _ _ _ Hp Hex' Hs')) as [H1 H2]. split; [done|].
    rewrite Ha in H2. destruct (covers_line p n); [|done]. cbn. by destruct (existsb _ l). }
  assert (Forall (λ p, proper p ∧ line_author_id p = line_author_id la) pieces) as Hpieces.
  { unfold pieces, apply_hunk_shifts_to_line_attributions. destruct hunks as [|h hs]; [by repeat constructor|].
    cbn [flat_map]. rewrite app_nil_r. apply Forall_map, Forall_forall. intros [a b] Hin. split; [|done].
    unfold proper. cbn. by eapply shift_bounds_proper. }
  destruct (Hfold pieces Hpieces existing acc Hex Hs) as [H1 H2]. split; [done|].
  assert (existsb (λ p, covers_line p n) pieces = carries n (hunks, la)) as Heq.
  { apply eq_true_iff_eq. rewrite carries_true, existsb_exists. setoid_rewrite <-list_elem_of_In.
    assert (Forall (λ a, range_fits hunks (start_line a) (end_line a)) [la]) as Hfits by (by apply Forall_singleton).
    pose proof (shift_line_attributions_spec [la] hunks Hok Hfits (line_author_id la) (overrode la) n) as H.
    fold pieces in H. split.
    - intros (p & Hin & Hc). destruct (proj1 H) as (a & o & Ha & _ & _ & Ho & Hl).
      { exists p. split; [done|]. split; [|split; [|done]]; [by eapply Forall_forall in Hpieces as [_ ?]; [|exact Hin]|].
        clear -Hin. unfold pieces, apply_hunk_shifts_to_line_attributions in Hin. destruct hunks.
        - by apply list_elem_of_singleton in Hin as ->.
        - cbn [flat_map] in Hin. rewrite app_nil_r in Hin. apply list_elem_of_fmap in Hin as ([? ?] & -> & _). done. }
      apply list_elem_of_singleton in Ha as ->. exists o. split; [|done]. unfold covers_line in Ho. lia.
    - intros (o & Ho & Hl). destruct (proj2 H) as (p & Hin & _ & _ & Hc); [|by exists p].
      exists la, o. split; [left|]. do 2 (split; [done|]). split; [unfold covers_line; lia|done]. }
  rewrite Heq in H2. exact H2.
Qed.

(** *** One log *)

Definition hunks_at (hunks_by_file : option (gmap str (list DiffHunk))) (path : str) : list DiffHunk :=
  default [] (hunks_by_file ≫= λ m, m !! path).

Lemma shift_flat_map las hunks :
  apply_hunk_shifts_to_line_attributions las hunks = flat_map (λ la, apply_hunk_shifts_to_line_attributions [la] hunks) las.
Proof.
  unfold apply_hunk_shifts_to_line_attributions. destruct hunks as [|h hs].
  - induction las as [|la las IH]; [done|]. cbn. by rewrite <-IH.
  - induction las as [|la las IH]; [done|]. cbn [flat_map]. by rewrite IH, app_nil_r.
Qed.

Lemma shifted_attrs_at hunks_by_file fa :
  shifted_attrs hunks_by_file fa = apply_hunk_shifts_to_line_attributions (raw_attrs fa) (hunks_at hunks_by_file (file_path fa)).
Proof.
  unfold shifted_attrs, hunks_at. destruct hunks_by_file as [m|]; [|done]. cbn. by destruct (m !! file_path fa) as [[|h hs]|].
Qed.

(** A list of attributions that says what [acc] says. *)
Definition speaks (las : list LineAttribution) (acc : Z → option str) : Prop := Forall proper las ∧ ∀ n, says las n (acc n).

Definition fits_all (hunks : list DiffHunk) (las : list LineAttribution) : Prop :=
  Forall (λ la, range_fits hunks (start_line la) (end_line la) ∧ proper la) las.

Lemma overlay_shifted hunks las existing acc :
  hunks_ok 1 hunks → fits_all hunks las → speaks existing acc →
  speaks (foldl overlay existing (apply_hunk_shifts_to_line_attributions las hunks))
    (λ n, foldl (owner_step n) (acc n) (map (pair hunks) las)).
Proof.
  intros Hok Hfits. rewrite shift_flat_map. revert existing acc.
  induction Hfits as [|la las [Hfit Hp] _ IH]; intros existing acc [Hex Hs]; [done|].
  cbn [flat_map map foldl]. rewrite foldl_app. apply (IH _ (λ n, owner_step n (acc n) (hunks, la))). split.
  - by apply (overlay_pieces hunks la existing 0 (acc 0)).
  - intros n. by apply (overlay_pieces hunks la existing n (acc n)).
Qed.

(** What a map of files says. *)
Definition files_speak (m : gmap str (list LineAttribution)) (acc : str → Z → option str) : Prop :=
  ∀ path, speaks (default [] (m !! path)) (acc path).

(** The claims of the files with a path. *)
Definition file_claims (hunks : list DiffHunk) (path : str) (fas : list FileAttestation) : list (list DiffHunk * LineAttribution) :=
  flat_map (λ fa, if str_eqb (file_path fa) path then map (pair hunks) (raw_attrs fa) else []) fas.

Lemma extract_speaks hbf fas m acc :
  Forall (λ fa, hunks_ok 1 (hunks_at hbf (file_path fa)) ∧ fits_all (hunks_at hbf (file_path fa)) (raw_attrs fa)) fas →
  files_speak m acc →
  files_speak (foldl (extract_file hbf) m fas)
    (λ path n, foldl (owner_step n) (acc path n) (file_claims (hunks_at hbf path) path fas)).
Proof.
  intros Hfas. revert m acc. induction Hfas as [|fa fas [Hok Hfit] _ IH]; intros m acc Hm; [done|]. cbn [foldl].
  intros path. cbn [file_claims flat_map].
  assert (files_speak (extract_file hbf m fa) (λ path n, foldl (owner_step n) (acc path n)
    (if str_eqb (file_path fa) path then map (pair (hunks_at hbf path)) (raw_attrs fa) else []))) as Hstep.
  { intros p. unfold extract_file. unfold str_eqb. rewrite lookup_insert. case_decide as E; [|by rewrite bool_decide_false].
    subst p. rewrite bool_decide_true by done. cbn [default from_option]. rewrite shifted_attrs_at. by apply overlay_shifted. }
  specialize (IH _ _ Hstep path). destruct IH as [H1 H2]. split; [done|]. intros n. specialize (H2 n).
  cbn beta in H2. fold (file_claims (hunks_at hbf path) path fas). by rewrite foldl_app.
Qed.

Lemma extract_dom hbf fas m path :
  is_Some (foldl (extract_file hbf) m fas !! path) ↔ is_Some (m !! path) ∨ ∃ fa, fa ∈ fas ∧ file_path fa = path.
Proof.
  revert m. induction fas as [|fa fas IH]; intros m; cbn [foldl].
  - split; [by left|]. intros [?|(fa & ?%not_elem_of_nil & _)]; done.
  - rewrite IH. unfold extract_file. rewrite lookup_insert. setoid_rewrite elem_of_cons. case_decide as E.
    + split; [|by left; eexists]. intros _. right. exists fa. auto.
    + split; [intros [?|(x & ? & ?)]; [by left|right; eauto]|]. intros [?|(x & [->|?] & Hx)]; [by left|done|right; eauto].
Qed.

(** *** The commits *)

Lemma diff_idx_spec (pairs : list (str * str)) sha :
  match diff_idx_by_sha pairs !! sha with
  | Some i => ∃ b, pairs !! i = Some (sha, b)
  | None => sha ∉ pairs.*1
  end.
Proof.
  unfold diff_idx_by_sha. induction pairs as [|[a b] pairs IH] using rev_ind; [by apply not_elem_of_nil|].
  rewrite imap_app, foldl_app. cbn [imap foldl fst snd]. rewrite Nat.add_0_r. rewrite lookup_insert. case_decide as E.
  - subst a. exists b. by rewrite lookup_app_r, Nat.sub_diag by done.
  - destruct (_ !! sha) as [i|]; [|set_solver]. destruct IH as [b' Hb]. exists b'. by apply lookup_app_l_Some.
Qed.

Section Logs.
Variable from_str : str → option AuthorshipMetadata.
Variables (git : ResetGit) (notes : gmap str str) (tree : str → str) (patch : str → str → list TreeFile) (old_tip : str).
Hypothesis git_answers : answers (notes_git git) notes tree patch.
Hypothesis notes_readable : ∀ sha raw, notes !! sha = Some raw → NoteFormat.deserialize_from_string from_str raw ≠ Panic.

Lemma read_logs_spec (m : gmap str str) commits :
  (∀ sha, sha ∈ commits → m !! sha = notes !! sha) → read_logs from_str m commits = Ret (readable_logs from_str notes commits).
Proof.
  induction commits as [|sha commits IH]; intros Hm; [done|]. cbn [read_logs readable_logs omap list_omap].
  rewrite Hm by left. unfold note_log. destruct (notes !! sha) as [raw|] eqn:E.
  - pose proof (notes_readable sha raw E). fold (readable_logs from_str notes commits).
    destruct (NoteFormat.deserialize_from_string from_str raw); cbn; [rewrite IH; [done|]|apply IH|done];
      intros; apply Hm; by right.
  - cbn. apply IH. intros; apply Hm; by right.
Qed.

Section Collect.
Variables (logs : list (str * AuthorshipLog)) (rs : list DiffTreeResult).
Let pairs := shift_pairs old_tip logs.
Hypothesis Hrs : Forall2 reports (map (tree_patch tree patch) pairs) rs.

Definition hunks_for (sha : str) : option (gmap str (list DiffHunk)) :=
  diff_idx_by_sha pairs !! sha ≫= λ i, hunks_by_file <$> rs !! i.

Lemma in_pairs sha b : (sha, b) ∈ pairs ↔ b = old_tip ∧ sha ≠ old_tip ∧ sha ∈ logs.*1.
Proof.
  unfold pairs, shift_pairs. rewrite elem_of_list_map. split.
  - intros (cl & Hin & [= -> ->]). apply elem_of_filter_b in Hin as [Hin Hne]. split; [done|]. split; [|by apply list_elem_of_fmap_2].
    intros E. rewrite E, HashIterFacts.str_eqb_refl in Hne. done.
  - intros (-> & Hne & Hin). apply list_elem_of_fmap in Hin as (cl & -> & Hin). exists cl. split; [|done].
    apply elem_of_filter_b. split; [done|]. unfold str_eqb. by rewrite bool_decide_false.
Qed.

Lemma collect_step sha log c logs' :
  (sha, log) ∈ logs →
  collect_logs (diff_idx_by_sha pairs) rs c ((sha, log) :: logs') =
    collect_logs (diff_idx_by_sha pairs) rs (extract_attributions_from_log_shifted log (hunks_for sha) c) logs' ∧
  ∀ path, hunks_at (hunks_for sha) path = hunks_to_tip tree patch old_tip sha path.
Proof.
  intros Hin. cbn [collect_logs]. unfold hunks_for, hunks_to_tip. pose proof (diff_idx_spec pairs sha) as H.
  destruct (diff_idx_by_sha pairs !! sha) as [i|].
  - destruct H as [b Hb]. pose proof (list_elem_of_lookup_2 _ _ _ Hb) as Hp. apply in_pairs in Hp as (-> & Hne & _).
    assert (map (tree_patch tree patch) pairs !! i = Some (tree_patch tree patch (sha, old_tip))) as Hm.
    { rewrite list_lookup_fmap, Hb. done. }
    destruct (Forall2_lookup_l _ _ _ _ _ Hrs Hm) as (d & Hd & Hrep & _). cbn. rewrite Hd. split; [done|].
    intros path. unfold hunks_at, str_eqb. rewrite bool_decide_false by done. cbn.
    destruct (Hrep path) as [-> | [-> ->]]; done.
  - split; [done|]. intros path. destruct (str_eqb sha old_tip) eqn:E; [done|]. destruct H.
    apply list_elem_of_fmap. exists (sha, old_tip). split; [done|]. apply in_pairs. split; [done|]. split.
    + intros ->. by rewrite HashIterFacts.str_eqb_refl in E.
    + apply list_elem_of_fmap. by exists (sha, log).
Qed.

Lemma collect_speaks logs' c acc :
  (∀ cl, cl ∈ logs' → cl ∈ logs) → Forall (log_fits tree patch old_tip) logs' → files_speak (file_attributions c) acc →
  ∃ c', collect_logs (diff_idx_by_sha pairs) rs c logs' = Ret c' ∧
    files_speak (file_attributions c') (λ path n, foldl (owner_step n) (acc path n) (claims tree patch old_tip logs' path)) ∧
    ∀ path, is_Some (file_attributions c' !! path) ↔ is_Some (file_attributions c !! path) ∨ touched logs' path.
Proof.
  intros Hin Hfit. revert c acc. induction Hfit as [|[sha log] logs' Hfits _ IH]; intros c acc Hc.
  - exists c. split; [done|]. split; [done|]. intros path. split; [by left|]. intros [?|(cl & ? & ?%not_elem_of_nil & _)]; done.
  - destruct (collect_step sha log c logs' (Hin _ (list_elem_of_here _ _))) as [-> Hh].
    set (c1 := extract_attributions_from_log_shifted log (hunks_for sha) c).
    assert (files_speak (file_attributions c1) (λ path n, foldl (owner_step n) (acc path n)
      (file_claims (hunks_to_tip tree patch old_tip sha path) path (attestations log)))) as Hc1.
    { intros path. unfold c1. cbn [extract_attributions_from_log_shifted file_attributions]. rewrite <-Hh.
      apply (extract_speaks (hunks_for sha) (attestations log)); [|done]. eapply Forall_impl; [exact Hfits|].
      intros fa [H1 H2]. by rewrite Hh. }
    destruct (IH (λ cl Hcl, Hin cl (list_elem_of_further _ _ _ Hcl)) c1 _ Hc1) as (c' & -> & Hs & Hd). exists c'.
    split; [done|]. split.
    + intros path. specialize (Hs path) as [H1 H2]. split; [done|]. intros n. specialize (H2 n). cbn beta in H2.
      unfold claims. cbn [flat_map fst snd]. by rewrite foldl_app.
    + intros path. rewrite Hd. unfold c1. cbn [extract_attributions_from_log_shifted file_attributions]. rewrite extract_dom.
      unfold touched. setoid_rewrite elem_of_cons. split.
      * intros [[?|(fa & ? & ?)]|(cl & fa & ? & ? & ?)]; [by left|right; exists (sha, log), fa; auto|right; exists cl, fa; auto].
      * intros [?|(cl & fa & [->|?] & ? & ?)]; [by left; left|left; right; eauto|right; eauto].
Qed.
End Collect.
End Logs.

(** *** The files that are written *)

Lemma uncommitted_contents_spec tree_contents old_tip new_tip files path c :
  uncommitted_contents tree_contents old_tip new_tip files !! path = Some c ↔
  is_Some (files !! path) ∧ tree_contents !! (old_tip, path) = Some c ∧ c ≠ [] ∧ tree_contents !! (new_tip, path) ≠ Some c.
Proof.
  unfold uncommitted_contents. rewrite map_lookup_imap. destruct (files !! path) as [las|]; cbn.
  2:{ split; [done|]. by intros [[? ?] _]. }
  destruct (tree_contents !! (old_tip, path)) as [c'|]; [|naive_solver]. case_bool_decide; [naive_solver|].
  case_bool_decide; naive_solver.
Qed.

End ResetFacts.

Module ResetStorage.
Import AuthorshipLog Attribution WorkingLog HashIter HashIterFacts VirtualAttributions StateResult StateResultFacts RepoStorage StorageRef StorageFacts.
Import ResetLog ResetRef ResetFacts.
Import DiffCompute(result).
Import PatchText DiffTreeText RewriteSpec.
Import RangeDiff(list_commits_in_range).

Section Storage.
Context `{env : Environment} `{order : HashOrder} `{laws : !EnvironmentLaws}.
Variable git : ResetGit.
Variables (content : str * str → option str) (old_tip new_tip : str).
Hypothesis reads_contents : ∀ requests, ∃ m, batch_read_paths_at_treeishes git requests = Ret m ∧
  ∀ p, p ∈ requests → m !! p = content p.
Hypothesis tips_differ : old_tip ≠ new_tip.
Hypothesis new_tip_live : starts_with (lit "old-") new_tip = false.
Variables (m0 : gmap Dir LogDir) (c : Undone).

Local Abbreviation d := (log_dir new_tip).

(** What is written: the files whose content is not committed. *)
Definition written_files (dir : LogDir) : Prop :=
  ∃ contents, holds_contents (filter (λ kv, is_Some (contents !! kv.1)) (file_attributions c)) (c_prompts c) (c_humans c)
    (c_sessions c) contents dir ∧
  ∀ path text, contents !! path = Some text ↔
    is_Some (file_attributions c !! path) ∧ content (old_tip, path) = Some text ∧ text ≠ [] ∧ content (new_tip, path) ≠ Some text.

(** The directory after, and whether INITIAL was written. *)
Definition dir_after (done_ : bool) (o : option LogDir) : Prop :=
  checkpoints_file (default empty_dir o) = checkpoints_file (dir_at m0 d) ∧
  if done_ then written_files (default empty_dir o) else initial_file (default empty_dir o) = initial_file (dir_at m0 d).
Definition left (done_ : bool) : Storage → Prop := on (λ m, dir_after done_ (m !! d)).

Lemma write_uncommitted_spec :
  triple (on (eq m0)) (write_uncommitted git old_tip new_tip c)
    (λ _ s, left true s ∨ left false s ∧ ¬ ∃ path, is_Some (file_attributions c !! path) ∧ changed content old_tip new_tip path)
    (λ s, left true s ∨ left false s).
Proof.
  unfold write_uncommitted. set (requests := flat_map _ _). destruct (reads_contents requests) as (tree_contents & -> & Hread).
  set (file_blobs := uncommitted_contents tree_contents old_tip new_tip (file_attributions c)).
  assert (∀ path text, file_blobs !! path = Some text ↔ is_Some (file_attributions c !! path) ∧
    content (old_tip, path) = Some text ∧ text ≠ [] ∧ content (new_tip, path) ≠ Some text) as Hblobs.
  { intros path text. unfold file_blobs. rewrite uncommitted_contents_spec.
    assert (is_Some (file_attributions c !! path) →
      tree_contents !! (old_tip, path) = content (old_tip, path) ∧ tree_contents !! (new_tip, path) = content (new_tip, path)) as H.
    { intros Hp. split; apply Hread, elem_of_flat_map; exists path; (split; [by apply elem_of_hash_keys|set_solver]). }
    split; intros (Hp & ?); destruct (H Hp) as [E1 E2]; rewrite ?E1, ?E2 in *; done. }
  assert (∀ s, on (eq m0) s → left false s) as Hstart.
  { unfold left, on, dir_after, dir_at. by intros s <-. }
  change (triple (on (eq m0)) (
    if bool_decide (file_blobs = ∅) then ignore (delete_working_log_for_base_commit old_tip)
    else do! d := working_log_for_base_commit new_tip in
      do! _ := write_initial_attributions_with_contents d (filter (λ kv, is_Some (file_blobs !! kv.1)) (file_attributions c))
        (c_prompts c) (c_humans c) file_blobs (c_sessions c) in
      ignore (delete_working_log_for_base_commit old_tip))
    (λ _ s, left true s ∨ left false s ∧ ¬ ∃ path, is_Some (file_attributions c !! path) ∧ changed content old_tip new_tip path)
    (λ s, left true s ∨ left false s)).
  assert (∀ b, keeps (left b) (ignore (delete_working_log_for_base_commit old_tip))) as Hdel.
  { intros b. apply keeps_ignore. by apply (keeps_delete_other (dir_after b)). }
  case_bool_decide as He.
  - eapply triple_weaken; [exact (Hdel false)|exact Hstart| |by right]. intros ? s Hs. right. split; [done|].
    intros (path & Hp & text & Ht). assert (file_blobs !! path = Some text) as Hb by by apply Hblobs.
    by rewrite He in Hb.
  - eapply (triple_bind _ _ _ (λ d' s, d' = d ∧ on (here d m0 (λ dir, initial_file dir = initial_file (dir_at m0 d) ∧
      checkpoints_file dir = checkpoints_file (dir_at m0 d))) s)).
    { unfold working_log_for_base_commit. eapply (triple_bind _ _ _ (λ _, on (eq (<[d := dir_at m0 d]> m0)))).
      - unfold create_dir_all. eapply (triple_bind _ _ _ (λ _, on (eq m0))).
        + eapply triple_weaken; [apply (keeps_io (eq m0))|done|done|]. intros s Hs. right. by apply Hstart.
        + intros ?. apply triple_modify. unfold on, dir_at. by intros s ->.
      - intros ?. eapply (triple_bind _ _ _ (λ _, on (eq (<[d := dir_at m0 d]> m0)))).
        + eapply triple_weaken; [apply (keeps_io (eq (<[d := dir_at m0 d]> m0)))|done|done|].
          unfold on. intros s Hs. right. unfold left, on, dir_after. rewrite <-Hs, lookup_insert_eq. done.
        + intros ?. apply triple_ret. unfold on. intros s Hs. split; [done|]. exists (dir_at m0 d). done. }
    intros d' s [-> Hs]. revert s Hs. eapply (triple_bind _ _ _ (λ _, left true)).
    + eapply triple_weaken; [apply write_contents_here|done| |].
      * intros ? s (dir & Hm & Hw & Hc). unfold left, on, dir_after. rewrite Hm, lookup_insert_eq. split; [done|].
        exists file_blobs. by split.
      * intros s (dir & Hm & [Hi|Hw] & Hc); [right|left]; unfold left, on, dir_after; rewrite Hm, lookup_insert_eq; (split; [done|]); [done|].
        exists file_blobs. by split.
    + intros ?. eapply triple_weaken; [exact (Hdel true)|done| |]; by left.
Qed.

(** What the files written say is what the claims say. *)
Lemma written_restores (logs_owner : str → Z → option str) m dir :
  files_speak (file_attributions c) logs_owner → written_files dir → dir_at m d = dir →
  ∃ x, initially m d = Ret x ∧
    (∀ path n author, attributed (default [] (initial_files x !! path)) n author ↔
       changed content old_tip new_tip path ∧ logs_owner path n = Some author) ∧
    (∀ path, is_Some (initial_files x !! path) → ∃ sha text, file_blobs x !! path = Some sha ∧
       blob_at dir sha = Some text ∧ content (old_tip, path) = Some text).
Proof.
  intros Hspeak (contents & (bs & Hw & Hst & Hbs) & Hcontents) Hd.
  set (files := filter _ _) in Hw, Hbs. set (x := mkInitial _ _ _ _ _) in Hw. exists (read_back x).
  split; [eapply initially_written; [exact Hw|by rewrite Hd]|].
  assert (nonempty_files (nonempty_files files) = nonempty_files files) as Hidem.
  { unfold nonempty_files. rewrite map_filter_filter_l; [done|]. done. }
  assert (initial_files (read_back x) = nonempty_files files) as Hfiles by by rewrite read_back_files.
  assert (∀ path las, nonempty_files files !! path = Some las ↔
    (file_attributions c !! path = Some las ∧ is_Some (contents !! path)) ∧ las ≠ []) as Hlook.
  { intros path las. unfold nonempty_files, files. by rewrite !map_lookup_filter_Some. }
  rewrite Hfiles. split.
  - intros path n author. destruct (Hspeak path) as [_ Hs]. rewrite <-(Hs n author). split.
    + intros (la & Hin & Hla). destruct (nonempty_files files !! path) as [las|] eqn:E; [|by apply not_elem_of_nil in Hin].
      apply Hlook in E as ((Hp & [text Ht]) & _). split; [|exists la; by rewrite Hp].
      apply Hcontents in Ht as (_ & Ht). by exists text.
    + intros ((text & Ht) & la & Hin & Hla). destruct (file_attributions c !! path) as [las|] eqn:E; [|by apply not_elem_of_nil in Hin].
      assert (contents !! path = Some text) as Hc by (apply Hcontents; by rewrite E).
      assert (nonempty_files files !! path = Some las) as ->; [|by exists la].
      apply Hlook. split; [split; [done|by eexists]|]. intros ->. by apply not_elem_of_nil in Hin.
  - intros path Hp. destruct (Hbs path Hp) as [sha Hsha]. destruct (Hst path sha Hsha) as (text & Ht & Hb). exists sha, text.
    split; [|split; [done|by apply Hcontents in Ht as (_ & ? & _)]].
    rewrite read_back_blobs; [done|]. cbn [x initial_files]. by rewrite Hidem.
Qed.
End Storage.

(** Up to the writing only git is asked. *)
Lemma reconstruct_collects `{env : Environment} `{order : HashOrder} from_str git notes tree patch old_tip new_tip s :
  answers (notes_git git) notes tree patch →
  (∀ sha raw, notes !! sha = Some raw → NoteFormat.deserialize_from_string from_str raw ≠ Panic) →
  let logs := readable_logs from_str notes (list_commits_in_range (history_git git) new_tip old_tip) in
  Forall (log_fits tree patch old_tip) logs →
  reconstruct_working_log_after_backward_reset from_str git old_tip new_tip s = (s, Ret tt) ∧ (∀ path, ¬ touched logs path) ∨
  ∃ c, reconstruct_working_log_after_backward_reset from_str git old_tip new_tip s = write_uncommitted git old_tip new_tip c s ∧
    files_speak (file_attributions c) (λ path n, owner tree patch old_tip logs path n) ∧
    ∀ path, is_Some (file_attributions c !! path) ↔ touched logs path.
Proof.
  intros Hgit Hread logs Hfits. remember (reconstruct_working_log_after_backward_reset _ _ _ _ s) as result eqn:Hres.
  unfold reconstruct_working_log_after_backward_reset in Hres.
  assert (logs = [] → ∀ path, ¬ touched logs path) as Hnone.
  { intros E path (cl & fa & Hin & _). rewrite E in Hin. by apply not_elem_of_nil in Hin. }
  case_bool_decide as Hcommits; [left; split; [done|]; apply Hnone; unfold logs; by rewrite Hcommits|].
  destruct (reads_notes _ _ _ _ Hgit (list_commits_in_range (history_git git) new_tip old_tip)) as (nm & Hnotes & Hnm).
  pose proof (read_logs_spec from_str notes Hread nm _ Hnm) as Hlogs. fold logs in Hlogs.
  unfold bind at 1, lift at 1 in Hres. rewrite Hnotes in Hres. unfold bind at 1, lift at 1 in Hres. rewrite Hlogs in Hres.
  case_bool_decide as Hl; [left; split; [done|]; by apply Hnone|].
  destruct (Revert.RevertFacts.batch_diffs_spec (notes_git git) notes tree patch Hgit (shift_pairs old_tip logs)) as (rs & Hrs & Hrep).
  assert ((if bool_decide (shift_pairs old_tip logs = []) then Ret []
           else Rewrite.compute_diff_trees_batch (notes_git git) (shift_pairs old_tip logs)) = Ret rs) as Hif.
  { case_bool_decide as E; [|done]. rewrite E in Hrep. by apply Forall2_nil_inv_l in Hrep as ->. }
  unfold bind at 1, lift at 1 in Hres. rewrite Hif in Hres. clear Hif.
  destruct (collect_speaks tree patch old_tip logs rs Hrep logs (mkUndone ∅ ∅ ∅ ∅) (λ _ _, None)) as (c & Hc & Hspeak & Hdom);
    [done|done| |].
  { intros path. cbn. rewrite lookup_empty. split; [constructor|]. intros n author. split; [|done].
    by intros (la & ?%not_elem_of_nil & _). }
  unfold bind at 1, lift at 1 in Hres. rewrite Hc in Hres. assert (∀ path, is_Some (file_attributions c !! path) ↔ touched logs path) as Hdom'.
  { intros path. rewrite Hdom. cbn. rewrite lookup_empty. split; [intros [[? ?]|?]; done|by right]. }
  case_bool_decide as He; [left|right; by exists c].
  split; [done|]. intros path [las Hlas]%Hdom'. by rewrite He in Hlas.
Qed.

End ResetStorage.

(** ** Properties *)

Module ResetProps.
Import AuthorshipLog Attribution WorkingLog HashIter HashIterFacts VirtualAttributions StateResult StateResultFacts RepoStorage StorageRef StorageFacts.
Import ResetLog ResetRef ResetFacts ResetStorage.
Import DiffCompute(result).
Import PatchText DiffTreeText RewriteSpec.
Import RangeDiff(list_commits_in_range).

(** The INITIAL file of the new tip says who owns the lines of the old tip's
    uncommitted files, and has their texts. *)
Definition restored_after `{env : Environment} `{order : HashOrder} (from_str : str → option AuthorshipMetadata) (git : ResetGit)
    (notes : gmap str str) (tree : str → str) (patch : str → str → list TreeFile) (content : str * str → option str)
    (old_tip new_tip : str) (m : gmap Dir LogDir) : Prop :=
  let logs := readable_logs from_str notes (list_commits_in_range (history_git git) new_tip old_tip) in
  ∃ x, initially m (log_dir new_tip) = Ret x ∧
    (∀ path n author, attributed (default [] (initial_files x !! path)) n author ↔
       changed content old_tip new_tip path ∧ owner tree patch old_tip logs path n = Some author) ∧
    (∀ path, is_Some (initial_files x !! path) → ∃ sha text, file_blobs x !! path = Some sha ∧
       blob_at (dir_at m (log_dir new_tip)) sha = Some text ∧ content (old_tip, path) = Some text).

(** C37: after a reset the INITIAL file of the new tip attributes exactly the
    lines of the uncommitted files of the old tip, each to the last of the notes
    undone that carries it there, and has the old tip's text of these files;
    whatever calls fail, it is this or as it was, and the checkpoints stay. *)
Theorem reset_restores_lines `{laws : EnvironmentLaws} `{order : HashOrder} (from_str : str → option AuthorshipMetadata)
    (git : ResetGit) (notes : gmap str str) (tree : str → str) (patch : str → str → list TreeFile)
    (content : str * str → option str) (old_tip new_tip : str) (s : Storage)
    (git_answers : answers (notes_git git) notes tree patch)
    (reads_contents : ∀ requests, ∃ m, batch_read_paths_at_treeishes git requests = Ret m ∧ ∀ p, p ∈ requests → m !! p = content p)
    (notes_readable : ∀ sha raw, notes !! sha = Some raw → NoteFormat.deserialize_from_string from_str raw ≠ Panic)
    (tips_differ : old_tip ≠ new_tip) (new_tip_live : starts_with (lit "old-") new_tip = false) :
  let logs := readable_logs from_str notes (list_commits_in_range (history_git git) new_tip old_tip) in
  let d := log_dir new_tip in
  let result := reconstruct_working_log_after_backward_reset from_str git old_tip new_tip s in
  let after := dirs result.1 in
  let restored := restored_after from_str git notes tree patch content old_tip new_tip after in
  Forall (log_fits tree patch old_tip) logs →
  checkpoints_file (dir_at after d) = checkpoints_file (dir_at (dirs s) d) ∧
  (restored ∨ initial_file (dir_at after d) = initial_file (dir_at (dirs s) d)) ∧
  (result.2 = Ret tt → (∃ path, touched logs path ∧ changed content old_tip new_tip path) → restored).
Proof.
  intros logs d result after restored Hfits.
  destruct (reconstruct_collects from_str git notes tree patch old_tip new_tip s git_answers notes_readable Hfits)
    as [[E Hnone]|(c & E & Hspeak & Hdom)]; fold result in E; unfold restored, after in *; clear restored after; rewrite E.
  { split; [done|]. split; [by right|]. intros _ (path & Ht & _). by apply Hnone in Ht. }
  pose proof (write_uncommitted_spec git content old_tip new_tip reads_contents tips_differ new_tip_live (dirs s) c s eq_refl) as H.
  destruct (write_uncommitted git old_tip new_tip c s) as [s' r]. cbn [fst snd].
  assert (left content old_tip new_tip (dirs s) c true s' →
    checkpoints_file (dir_at (dirs s') d) = checkpoints_file (dir_at (dirs s) d) ∧ restored_after from_str git notes tree patch content old_tip new_tip (dirs s')) as Htrue.
  { intros [Hc Hw]. split; [exact Hc|].
    exact (written_restores content old_tip new_tip c (λ path n, owner tree patch old_tip logs path n) (dirs s') _ Hspeak Hw eq_refl). }
  assert (left content old_tip new_tip (dirs s) c false s' →
    checkpoints_file (dir_at (dirs s') d) = checkpoints_file (dir_at (dirs s) d) ∧
    initial_file (dir_at (dirs s') d) = initial_file (dir_at (dirs s) d)) as Hfalse by by intros [Hc Hw].
  destruct r as [[]|e|].
  - destruct H as [H|[H Hno]]; [destruct (Htrue H); auto|]. destruct (Hfalse H) as [H1 H2]. split; [done|]. split; [by right|].
    intros _ (path & Ht & Hch). destruct Hno. exists path. by rewrite Hdom.
  - destruct H as [H|H]; [destruct (Htrue H)|destruct (Hfalse H)]; split_and!; auto; done.
  - destruct H as [H|H]; [destruct (Htrue H)|destruct (Hfalse H)]; split_and!; auto; done.
Qed.

(** The commits 1 and t are undone; 1 attests two lines of f, and t put a line
    before them. *)
Definition sample_history : RangeDiff.Git :=
  RangeDiff.mkGit (λ _ _, Panic) (λ _ _, Panic) (λ _ _, Ret (true, RevertProps.oid "1" ++ [LF] ++ lit "t" ++ [LF])) (λ _ _, Panic)
    (λ _ _ _ _, Panic) (λ _, Panic) (λ _, Panic) (λ _ _, Panic).
Definition sample_content (p : str * str) : option str :=
  if bool_decide (p = (lit "t", lit "f")) then Some (lit "x") else None.
Definition sample_reset : ResetGit :=
  mkResetGit RevertProps.sample_git sample_history (λ _, Ret {[(lit "t", lit "f") := lit "x"]}).
Definition sample_initial : InitialAttributions :=
  mkInitial {[lit "f" := [mkLineAttr 2 3 (lit "s_a") None]]} ∅ {[lit "f" := StorageExample.hash_of (lit "x")]} ∅ ∅.
Abbreviation from_json := RewriteProps.RewriteProps.sample_from_json.
Definition sample_env : Environment := StorageExample.environment_with sample_initial 0 [].

Definition sample_log : AuthorshipLog :=
  AuthorshipLog.mkLog [AuthorshipLog.mkFile (lit "f") [AuthorshipLog.mkEntry (lit "s_a") [LineRange.Range 1 2]]]
    RewriteProps.RewriteProps.sample_metadata.

Lemma sample_logs :
  readable_logs from_json RevertProps.sample_notes (list_commits_in_range sample_history (lit "n") (lit "t")) =
  [(RevertProps.oid "1", sample_log)].
Proof. by vm_compute. Qed.

Lemma sample_log_fits :
  Forall (log_fits RevertProps.sample_tree RevertProps.patch_between (lit "t"))
    (readable_logs from_json RevertProps.sample_notes (list_commits_in_range sample_history (lit "n") (lit "t"))).
Proof.
  rewrite sample_logs.
  constructor; [|constructor]. constructor; [|constructor].
  cbn [fst file_path].
  assert (hunks_to_tip RevertProps.sample_tree RevertProps.patch_between (lit "t") (RevertProps.oid "1") (lit "f") =
    [HunkShift.mkHunk 0 0 1 1]) as -> by by vm_compute.
  split; [|constructor; [|constructor]]; cbn;
    unfold HunkShift.range_fits, HunkShift.first_gone, HunkShift.old_next, is_u32, u32_max; cbn; lia.
Qed.

Lemma reset_restores_lines_witness :
  restored_after (env := sample_env) (order := in_order) from_json sample_reset RevertProps.sample_notes RevertProps.sample_tree
    RevertProps.patch_between sample_content (lit "t") (lit "n")
    (dirs (reconstruct_working_log_after_backward_reset (env := sample_env) (order := in_order) from_json sample_reset
       (lit "t") (lit "n") (mkStorage ∅ 0)).1).
Proof.
  refine (proj2 (proj2 (reset_restores_lines (env := sample_env) (laws := StorageExample.environment_with_laws _ _ _)
    (order := in_order) from_json sample_reset RevertProps.sample_notes RevertProps.sample_tree RevertProps.patch_between
    sample_content (lit "t") (lit "n") (mkStorage ∅ 0) RevertProps.revert_git_answers _ _ _ _ sample_log_fits)) _ _).
  - intros requests. eexists. split; [reflexivity|]. intros p _. unfold sample_content. rewrite lookup_singleton.
    case_decide; case_bool_decide; congruence.
  - intros sha raw. unfold RevertProps.sample_notes. rewrite lookup_singleton_Some. intros [_ <-]. vm_compute. discriminate.
  - done.
  - by vm_compute.
  - by vm_compute.
  - exists (lit "f"). split.
    + exists (RevertProps.oid "1", sample_log), (AuthorshipLog.mkFile (lit "f") [AuthorshipLog.mkEntry (lit "s_a") [LineRange.Range 1 2]]).
      split; [|split; [left|done]]. cbn [history_git sample_reset]. rewrite sample_logs. left.
    + exists (lit "x"). split; [done|]. split; [done|]. by vm_compute.
Defined.

End ResetProps.
