(* ===== verification/StashLog.v ===== *)
(** * The working log of stashes

    src/src/authorship/rewrite_stash.rs: a stash takes the attributions of the
    stashed files out of the working log and keeps them in a directory of its
    own; popping or applying it puts them back, moved along when the commit is
    another one.  What is saved and kept is shown for an [exists] that sees the
    files: a stat that fails loses a stash. *)

From S2P Require Import Prelude Text AuthorshipLog ImaraDiff Attribution WorkingLog DiffCompute HashIter CliParser PatchParse Attestations VirtualAttributions WorkingState StateResult Carryover RepoStorage RepoStorageProps.

(** ** Definitions *)

Module StashLog.
Import AuthorshipLog ImaraDiff Attribution WorkingLog HashIter VirtualAttributions StateResult RepoStorage RepoStorageProps.
Import DiffCompute(result).
Import CliParser(strip_suffix, trim_end_chars).
Import Attestations(HUMAN).

Record StashMetadata := mkStashMetadata {
  base_commit : str;
  stash_timestamp : N;
  pathspecs : list str
}.

(** serde's JSON of the metadata, and git: the contents of paths when a stash
    is applied to a commit in an index and a work tree of its own. *)
Class StashEnvironment := {
  metadata_to_json : StashMetadata → result str;
  metadata_of_json : str → result StashMetadata;
  reconstruct_stash_applied_contents : str → str → list str → result (gmap str str)
}.

(** ** Path specifications *)

Definition path_matches (path spec : str) : bool :=
  match strip_suffix (lit "*") spec with
  | Some prefix => starts_with prefix path
  | None =>
      let normalized := trim_end_chars (λ c, bool_decide (c = "/"%char)) spec in
      str_eqb path spec || str_eqb path normalized || starts_with (normalized ++ lit "/") path
  end.
Definition path_matches_any (path : str) (pathspecs : list str) : bool := existsb (path_matches path) pathspecs.

Definition retain_paths {A : Type} (keep : str → bool) (m : gmap str A) : gmap str A :=
  filter (λ kv : str * A, keep kv.1 = true) m.

Definition trim_initial_metadata_to_referenced_authors (initial : InitialAttributions) : InitialAttributions :=
  let referenced_authors : gset str :=
    list_to_set (List.filter (λ id, negb (str_eqb id HUMAN)) (file_authors (initial_files initial))) in
  mkInitial (initial_files initial) (restrict referenced_authors (initial_prompts initial)) (file_blobs initial)
    (restrict referenced_authors (initial_humans initial)) (restrict (session_keys_of referenced_authors) (initial_sessions initial)).

(** The INITIAL file with the paths that are kept. *)
Definition retain_initial (keep : str → bool) (initial : InitialAttributions) : InitialAttributions :=
  trim_initial_metadata_to_referenced_authors
    (mkInitial (retain_paths keep (initial_files initial)) (initial_prompts initial) (retain_paths keep (file_blobs initial))
       (initial_humans initial) (initial_sessions initial)).

(** Checkpoints without the entries that are not kept; those left empty go. *)
Definition retain_entries (keep : str → bool) (checkpoints : list Checkpoint) : list Checkpoint :=
  List.filter (λ c, negb (bool_decide (entries c = [])))
    (map (λ c, set_entries c (List.filter (λ e, keep (file e)) (entries c))) checkpoints).

Definition clear_diff (c : Checkpoint) : Checkpoint :=
  mkCheckpoint (kind c) [] (author c) (entries c) (timestamp c) (agent_id c) (agent_metadata c) (line_stats c)
    (api_version c) (git_ai_version c) (known_human_metadata c) (trace_id c).

(** ** Moving attributions to another text *)

Section Shift.
Context `{engine : !DiffEngine}.

Definition equal_lines (m : gmap Z Z) (op : DiffOp) : gmap Z Z :=
  match op with
  | OpEqual old_index new_index len =>
      foldl (λ m i, <[u32_wrap (Z.of_nat (old_index + i + 1)) := u32_wrap (Z.of_nat (new_index + i + 1))]> m) m (seq 0 len)
  | _ => m
  end.
Definition equal_line_map (stash_content current_content : str) : gmap Z Z :=
  foldl equal_lines ∅ (capture_diff_slices (lines stash_content) (lines current_content)).

Definition shift_attr (m : gmap Z Z) (attr : LineAttribution) : option LineAttribution :=
  match m !! start_line attr, m !! end_line attr with
  | Some new_start, Some new_end => Some (mkLineAttr new_start new_end (line_author_id attr) (overrode attr))
  | _, _ => None
  end.

(** One file: its attributions in the content that is there now. *)
Definition shift_file (stash_content current_content : str) (attrs : list LineAttribution) : option (list LineAttribution) :=
  if bool_decide (current_content = []) then None
  else if str_eqb stash_content current_content then Some attrs
  else
    let shifted := omap (shift_attr (equal_line_map stash_content current_content)) attrs in
    if bool_decide (shifted = []) then None else Some shifted.

Definition shift_files (stash_contents applied_contents : gmap str str) (files : gmap str (list LineAttribution)) :
    gmap str (list LineAttribution) :=
  map_imap (λ path attrs, shift_file (default [] (stash_contents !! path)) (default [] (applied_contents !! path)) attrs) files.
End Shift.

(** ** Handlers *)

Section Handlers.
Context `{env : Environment} `{order : HashOrder} `{stash : StashEnvironment} `{engine : !DiffEngine}.
Local Abbreviation M A := (StateResult.M Storage A).

(** [m], and when it fails the cleaning up, whose own failure is ignored. *)
Definition or_else {A : Type} (m : M A) (cleanup : M unit) : M A := λ s,
  match m s with
  | (s', Fail e) => ((cleanup s').1, Fail e)
  | out => out
  end.
(** [m], then the cleaning up in any case. *)
Definition finally {A : Type} (m : M A) (cleanup : M unit) : M A := λ s,
  match m s with
  | (s', Panic) => (s', Panic)
  | (s', r) => ((cleanup s').1, r)
  end.

(** The contents are checked as they are read; their reads count as one call. *)
Definition version_of (dir : LogDir) (sha : str) : result str :=
  let? _ := validate_blob_sha sha in
  match blob_at dir sha with
  | None => Fail (lit "No such file or directory")
  | Some content =>
      if negb (str_eqb (sha256_hex content) sha) then Fail (lit "content-addressed blob " ++ sha ++ lit " failed SHA verification")
      else if PatchText.valid_utf8 content then Ret content else Fail (lit "invalid utf-8 sequence")
  end.

(** [VirtualAttributions::from_persisted_working_log]. *)
Definition load_persisted_working_log (base : str) : M VirtualAttributions :=
  do! d := working_log_for_base_commit base in
  do! initial_attributions := read_initial_attributions d in
  do! checkpoints := read_all_checkpoints d in
  do! _ := io in
  do! dir := the_dir d in
  lift (WorkingState.from_persisted_working_log sha256_hex None base
          (WorkingState.mkWorkingLog initial_attributions checkpoints (version_of dir))).

Definition filtered_stash_working_log_base (stash_sha : str) : str := lit "_stash_filter_" ++ stash_sha.

Definition copy_initial_blobs (src_log dst_log : Dir) (initial : InitialAttributions) : M unit :=
  for_each (λ blob_sha,
    do! content := get_file_version src_log blob_sha in
    do! persisted_sha := persist_file_version dst_log content in
    if negb (str_eqb persisted_sha blob_sha) then fail (lit "blob " ++ blob_sha ++ lit " changed identity while copying INITIAL state")
    else ret tt) (hash_values (file_blobs initial)).

Definition copy_blob_sha (source_log target_log : Dir) (blob_sha : str) (copied_blobs : gset str) : M (gset str) :=
  if bool_decide (blob_sha ∈ copied_blobs) then ret copied_blobs
  else
    do! content := get_file_version source_log blob_sha in
    do! persisted_sha := persist_file_version target_log content in
    if negb (str_eqb persisted_sha blob_sha) then fail (lit "blob " ++ blob_sha ++ lit " changed identity while copying filtered stash state")
    else ret ({[blob_sha]} ∪ copied_blobs).

Fixpoint copy_entry_blobs (source_log target_log : Dir) (copied_blobs : gset str) (es : list WorkingLogEntry) : M (gset str) :=
  match es with
  | [] => ret copied_blobs
  | e :: es' =>
      do! copied_blobs := copy_blob_sha source_log target_log (blob_sha e) copied_blobs in
      copy_entry_blobs source_log target_log copied_blobs es'
  end.

(** The lines of the checkpoints file, and the text written so far. *)
Fixpoint filter_checkpoint_lines (source_log filtered_log : Dir) (pathspecs : list str) (copied_blobs : gset str) (output : str)
    (ls : list str) : M str :=
  match ls with
  | [] => ret output
  | line :: ls' =>
      if negb (PatchText.valid_utf8 line) then fail (lit "stream did not contain valid UTF-8")
      else if bool_decide (trim line = []) then filter_checkpoint_lines source_log filtered_log pathspecs copied_blobs output ls'
      else
        do! checkpoint := lift (checkpoint_of_json line) in
        let kept := List.filter (λ e, path_matches_any (file e) pathspecs) (entries checkpoint) in
        if bool_decide (kept = []) then filter_checkpoint_lines source_log filtered_log pathspecs copied_blobs output ls'
        else
          do! copied_blobs := copy_entry_blobs source_log filtered_log copied_blobs kept in
          do! json := lift (checkpoint_to_json (clear_diff (set_entries checkpoint kept))) in
          filter_checkpoint_lines source_log filtered_log pathspecs copied_blobs (output ++ json ++ [LF]) ls'
  end.

(** The file is created empty; what a failure leaves of it is not read. *)
Definition write_path_filtered_checkpoints (source_log filtered_log : Dir) (pathspecs : list str) : M unit :=
  do! _ := ensure_checkpoints_file_size_limit source_log in
  do! there := exists_in source_log checkpoints_file in
  if negb there then write_all_checkpoints filtered_log []
  else
    do! _ := create_dir_all filtered_log in
    do! _ := io in
    do! dir := the_dir source_log in
    do! _ := io_in filtered_log in
    do! _ := update_dir filtered_log (set_checkpoints (Some [])) in
    do! output := filter_checkpoint_lines source_log filtered_log pathspecs ∅ [] (lines (default [] (checkpoints_file dir))) in
    do! _ := io in
    update_dir filtered_log (set_checkpoints (Some output)).

Definition write_path_filtered_working_log (source_base_commit filtered_base_commit : str) (pathspecs : list str) : M unit :=
  do! source_log := working_log_for_base_commit source_base_commit in
  do! _ := ignore (remove_dir_all (log_dir filtered_base_commit)) in
  do! filtered_log := working_log_for_base_commit filtered_base_commit in
  do! initial := read_initial_attributions source_log in
  let initial := retain_initial (λ path, path_matches_any path pathspecs) initial in
  do! _ := copy_initial_blobs source_log filtered_log initial in
  do! _ := write_initial filtered_log initial in
  write_path_filtered_checkpoints source_log filtered_log pathspecs.

Definition compact_stash_attributions_from_working_log (stash_sha working_log_base_commit : str) : M unit :=
  do! va := load_persisted_working_log working_log_base_commit in
  let initial := to_initial_working_log_only va in
  if bool_decide (initial_files initial = ∅) then ret tt
  else
    let file_contents := restrict (dom (initial_files initial)) (VirtualAttributions.file_contents va) in
    write_initial_attributions_with_contents (stash_dir stash_sha) (initial_files initial) (initial_prompts initial)
      (initial_humans initial) file_contents (initial_sessions initial).

Definition save_stash_attributions (stash_sha head_sha : str) (pathspecs : list str) : M unit :=
  do! there := has_working_log head_sha in
  if negb there then ret tt
  else if bool_decide (pathspecs = []) then compact_stash_attributions_from_working_log stash_sha head_sha
  else
    let filtered_base := filtered_stash_working_log_base stash_sha in
    let cleanup := ignore (remove_dir_all (log_dir filtered_base)) in
    do! _ := or_else (write_path_filtered_working_log head_sha filtered_base pathspecs) cleanup in
    finally (compact_stash_attributions_from_working_log stash_sha filtered_base) cleanup.

Definition clean_working_log_for_stash (head_sha : str) (pathspecs : list str) : M unit :=
  do! there := has_working_log head_sha in
  if negb there then ret tt
  else
    do! persisted := working_log_for_base_commit head_sha in
    do! initial := read_initial_attributions persisted in
    let keep path := if bool_decide (pathspecs = []) then false else negb (path_matches_any path pathspecs) in
    do! _ := write_initial persisted (retain_initial keep initial) in
    if bool_decide (pathspecs = []) then write_all_checkpoints persisted []
    else
      do! checkpoints := read_all_checkpoints persisted in
      write_all_checkpoints persisted (retain_entries keep checkpoints).

Definition handle_stash_create (stash_sha head_sha : str) (pathspecs : list str) : M unit :=
  do! there := has_working_log head_sha in
  do! _ := if there : bool then
             do! working_log := working_log_for_base_commit head_sha in
             do! _ := quarantine_oversized_checkpoints_for_stash working_log in
             ret tt
           else ret tt in
  let metadata := mkStashMetadata head_sha now_secs pathspecs in
  do! _ := create_dir_all (stash_dir stash_sha) in
  do! json := lift (metadata_to_json metadata) in
  do! _ := write_file (stash_dir stash_sha) set_metadata json in
  do! _ := save_stash_attributions stash_sha head_sha pathspecs in
  clean_working_log_for_stash head_sha pathspecs.

(** ** Restoring *)

Definition remove_checkpoint_entries_for_files (working_log : Dir) (files : gset str) : M unit :=
  if bool_decide (files = ∅) then ret tt
  else
    do! checkpoints := read_all_checkpoints working_log in
    if bool_decide (checkpoints = []) then ret tt
    else write_all_checkpoints working_log (retain_entries (λ path, negb (bool_decide (path ∈ files))) checkpoints).

(** The source's files replace those of the target. *)
Definition replace_initial (source target : InitialAttributions) : InitialAttributions :=
  let restored : gset str := dom (initial_files source) in
  mkInitial (initial_files source ∪ initial_files target) (initial_prompts source ∪ initial_prompts target)
    (file_blobs source ∪ retain_paths (λ path, negb (bool_decide (path ∈ restored))) (file_blobs target))
    (initial_humans source ∪ initial_humans target)
    (union_with (λ existing record, Some (merge_from existing record)) (initial_sessions target) (initial_sessions source)).

Definition merge_initial_replacing_paths (working_log : Dir) (source : InitialAttributions) : M unit :=
  if bool_decide (initial_files source = ∅) then ret tt
  else
    do! target := read_initial_attributions working_log in
    write_initial working_log (replace_initial source target).

(** The contents are stored, file by file; the blobs by path. *)
Fixpoint persist_restored (working_log : Dir) (file_contents file_blobs : gmap str str) (paths : list str) : M (gmap str str) :=
  match paths with
  | [] => ret file_blobs
  | path :: paths' =>
      match file_contents !! path with
      | None => fail (lit "stash restore missing file content snapshot for " ++ path)
      | Some content =>
          do! blob_sha := persist_file_version working_log content in
          persist_restored working_log file_contents (<[path := blob_sha]> file_blobs) paths'
      end
  end.

Definition merge_initial_replacing_paths_with_contents (working_log : Dir) (files : gmap str (list LineAttribution))
    (prompts : gmap str PromptRecord) (humans : gmap str HumanRecord) (file_contents : gmap str str)
    (sessions : gmap str SessionRecord) : M unit :=
  let files := nonempty_files files in
  if bool_decide (files = ∅) then ret tt
  else
    do! blobs := persist_restored working_log file_contents ∅ (hash_keys files) in
    merge_initial_replacing_paths working_log (mkInitial files prompts blobs humans sessions).

Definition restore_stash_attributions (stash_sha current_head : str) : M unit :=
  let stash_log := stash_dir stash_sha in
  do! there := exists_in stash_log initial_file in
  if negb there then ret tt
  else
    do! initial := read_initial_attributions stash_log in
    if bool_decide (initial_files initial = ∅) then ret tt
    else
      do! working_log := working_log_for_base_commit current_head in
      do! _ := copy_initial_blobs stash_log working_log initial in
      do! _ := remove_checkpoint_entries_for_files working_log (dom (initial_files initial)) in
      merge_initial_replacing_paths working_log initial.

Fixpoint stash_contents (stash_log : Dir) (initial : InitialAttributions) (contents : gmap str str) (paths : list str) :
    M (gmap str str) :=
  match paths with
  | [] => ret contents
  | path :: paths' =>
      do! stored := stored_initial_file_content_from stash_log initial path in
      stash_contents stash_log initial (match stored with Some content => <[path := content]> contents | None => contents end) paths'
  end.

Definition restore_stash_attributions_with_shift (stash_sha current_head : str) : M unit :=
  let stash_log := stash_dir stash_sha in
  do! there := exists_in stash_log initial_file in
  if negb there then ret tt
  else
    do! initial := read_initial_attributions stash_log in
    if bool_decide (initial_files initial = ∅) then ret tt
    else
      do! stash_file_contents := stash_contents stash_log initial ∅ (hash_keys (initial_files initial)) in
      do! applied_contents := lift (reconstruct_stash_applied_contents stash_sha current_head (hash_keys (initial_files initial))) in
      let files := shift_files stash_file_contents applied_contents (initial_files initial) in
      if bool_decide (files = ∅) then ret tt
      else
        do! working_log := working_log_for_base_commit current_head in
        do! _ := remove_checkpoint_entries_for_files working_log (dom files) in
        merge_initial_replacing_paths_with_contents working_log files (initial_prompts initial) (initial_humans initial)
          (restrict (dom files) applied_contents) (initial_sessions initial).

Definition handle_stash_pop_or_apply_with_head (stash_sha : str) (is_pop : bool) (target_head : option str) : M unit :=
  do! there := exists_in (stash_dir stash_sha) metadata_json in
  if negb there then ret tt
  else
    do! _ := io in
    do! dir := the_dir (stash_dir stash_sha) in
    let content := default [] (metadata_json dir) in
    do! metadata := lift (if PatchText.valid_utf8 content then metadata_of_json content else Fail (lit "stream did not contain valid UTF-8")) in
    match target_head with
    | None => ret tt
    | Some current_head =>
        if bool_decide (current_head = []) then ret tt
        else
          do! _ := if negb (str_eqb (base_commit metadata) current_head)
                   then restore_stash_attributions_with_shift stash_sha current_head
                   else restore_stash_attributions stash_sha current_head in
          if is_pop then ignore (remove_dir_all (stash_dir stash_sha)) else ret tt
    end.

Definition handle_stash_drop (stash_sha : str) : M unit := ignore (remove_dir_all (stash_dir stash_sha)).
End Handlers.

End StashLog.

(** ** Reference *)

Module StashRef.
Import AuthorshipLog ImaraDiff Attribution WorkingLog HashIter VirtualAttributions StateResult RepoStorage StorageRef StorageFacts StashLog.
Import DiffCompute(result).

Section Reference.
Context `{env : Environment} `{order : HashOrder}.

Definition versioned_only (cs : list Checkpoint) : list Checkpoint :=
  List.filter (λ c, str_eqb (api_version c) CHECKPOINT_API_VERSION) cs.

(** All checkpoints of a file, as they are stored. *)
Fixpoint parse_all (ls : list str) : result (list Checkpoint) :=
  match ls with
  | [] => Ret []
  | line :: ls' =>
      if negb (PatchText.valid_utf8 line) then Fail (lit "stream did not contain valid UTF-8")
      else if bool_decide (trim line = []) then parse_all ls'
      else let? c := checkpoint_of_json line in let? cs := parse_all ls' in Ret (c :: cs)
  end.

(** The part of a working log whose paths are stashed: its INITIAL file and its
    checkpoints. *)
Definition stashed_part (specs : list str) (log : LogDir) (initial : InitialAttributions) (cs : list Checkpoint) : Prop :=
  let matches path := path_matches_any path specs in
  if bool_decide (specs = []) then initial_in log = Ret initial ∧ logged_in log = Ret cs
  else
    (∃ x, initial_in log = Ret x ∧ initial = read_back (retain_initial matches x)) ∧
    match checkpoints_file log with
    | None => cs = []
    | Some text => ∃ all, parse_all (lines text) = Ret all ∧
        cs = migrate (versioned_only (map clear_diff (retain_entries matches all)))
    end.

(** The working state of a part, read from contents that fit their names. *)
Definition state_of (initial : InitialAttributions) (cs : list Checkpoint) (va : VirtualAttributions) : Prop :=
  ∃ base read, (∀ sha content, read sha = Ret content → sha256_hex content = sha) ∧
    WorkingState.from_persisted_working_log sha256_hex None base (WorkingState.mkWorkingLog initial cs read) = Ret va.

(** The stash has the attributions of a working state with the contents. *)
Definition saved (va : VirtualAttributions) (dir : LogDir) : Prop :=
  let x := to_initial_working_log_only va in
  initial_files x = ∅ ∨
  holds_contents (initial_files x) (initial_prompts x) (initial_humans x) (initial_sessions x)
    (restrict (dom (initial_files x)) (VirtualAttributions.file_contents va)) dir.

Definition stash_saved (specs : list str) (log : LogDir) (dir : LogDir) : Prop :=
  ∃ initial cs va, stashed_part specs log initial cs ∧ state_of initial cs va ∧ saved va dir.

(** The log without the stashed part. *)
Definition kept (specs : list str) (path : str) : bool :=
  if bool_decide (specs = []) then false else negb (path_matches_any path specs).
Definition left_over (specs : list str) (log dir : LogDir) : Prop :=
  (∃ x, initial_in log = Ret x ∧ written (retain_initial (kept specs) x) (initial_file dir)) ∧
  (∃ cs, (specs ≠ [] → logged_in log = Ret cs) ∧
     rendered (if bool_decide (specs = []) then [] else retain_entries (kept specs) cs) (checkpoints_file dir)).

(** The checkpoints without the entries of some files. *)
Definition without_files (files : gset str) (cs : list Checkpoint) : list Checkpoint :=
  retain_entries (λ path, negb (bool_decide (path ∈ files))) cs.

(** The stash [xs] put into the log of [xt] and [ct]; and the states on the way
    there: each of the two files is the old one or the new one. *)
Definition merged_log (xs xt : InitialAttributions) (ct : list Checkpoint) (dir : LogDir) : Prop :=
  initial_in dir = Ret (read_back (replace_initial xs xt)) ∧
  logged_in dir = Ret (migrate (without_files (dom (initial_files xs)) ct)).
Definition halfway (xs xt : InitialAttributions) (ct : list Checkpoint) (dir : LogDir) : Prop :=
  (initial_in dir = Ret xt ∨ initial_in dir = Ret (read_back (replace_initial xs xt))) ∧
  (logged_in dir = Ret ct ∨ logged_in dir = Ret (migrate (without_files (dom (initial_files xs)) ct))).
End Reference.
End StashRef.

(** ** Lemmas *)

Module StashFacts.
Import AuthorshipLog ImaraDiff Attribution WorkingLog HashIter HashIterFacts VirtualAttributions StateResult StateResultFacts.
Import RepoStorage StorageRef StorageFacts StashLog StashRef.
Import DiffCompute(result).

Section Frames.
Context `{env : Environment} `{order : HashOrder}.

(** *** What an operation leaves alone *)

(** A directory is as it was, and there if it was there. *)
Definition there (d : Dir) (X : LogDir) (b : bool) (m : gmap Dir LogDir) : Prop := dir_at m d = X ∧ (b = true → is_Some (m !! d)).

(** Only the directory [d] changes. *)
Definition only {A : Type} (d : Dir) (m : StateResult.M Storage A) : Prop :=
  ∀ (d0 : Dir) (X : LogDir) b, d0 ≠ d → keeps (on (there d0 X b)) m.
(** No directory changes, though an empty one may be made. *)
Definition opens {A : Type} (m : StateResult.M Storage A) : Prop :=
  ∀ (d0 : Dir) (X : LogDir) b, keeps (on (there d0 X b)) m.

Lemma opens_only {A : Type} d (m : StateResult.M Storage A) : opens m → only d m.
Proof. intros H d0 X b _. apply H. Qed.
Lemma opens_reads {A : Type} (m : StateResult.M Storage A) Q : reads m Q → opens m.
Proof. intros H d0 X b. by eapply keeps_reads. Qed.

Lemma only_bind {A B : Type} d (m : StateResult.M Storage A) (k : A → StateResult.M Storage B) :
  only d m → (∀ a, only d (k a)) → only d (bind m k).
Proof. intros Hm Hk d0 X b Hd. apply keeps_bind; [by apply Hm|intros a; by apply Hk]. Qed.
Lemma only_ret {A : Type} d (a : A) : only d (ret a).
Proof. intros d0 X b _. apply keeps_ret. Qed.
Lemma only_fail {A : Type} d message : only (A := A) d (fail message).
Proof. intros d0 X b _. apply keeps_fail. Qed.
Lemma only_lift {A : Type} d (r : result A) : only d (lift r).
Proof. intros d0 X b _. apply keeps_lift. Qed.
Lemma only_io d : only d io.
Proof. intros d0 X b _. apply keeps_io. Qed.
Lemma only_io_in d d' : only d (io_in d').
Proof. intros d0 X b _. apply keeps_sync. Qed.
Lemma only_the_dir d d' : only d (the_dir d').
Proof. intros d0 X b _. apply keeps_gets. Qed.
Lemma only_exists d d' : only d (exists_dir d').
Proof. intros d0 X b _. apply keeps_exists. Qed.
Lemma only_exists_in {A : Type} d d' (f : LogDir → option A) : only d (exists_in d' f).
Proof. intros d0 X b _. apply keeps_exists_in. Qed.
Lemma only_ignore {A : Type} d (m : StateResult.M Storage A) : only d m → only d (ignore m).
Proof. intros H d0 X b Hd. apply keeps_ignore. by apply H. Qed.
Lemma only_reads {A : Type} d (m : StateResult.M Storage A) Q : reads m Q → only d m.
Proof. intros H. by eapply opens_only, opens_reads. Qed.
Lemma only_for_each {A : Type} d (f : A → StateResult.M Storage unit) l : (∀ x, only d (f x)) → only d (for_each f l).
Proof. intros Hf d0 X b Hd. apply keeps_for_each. intros x. by apply Hf. Qed.

Lemma opens_create d : opens (create_dir_all d).
Proof.
  intros d0 X b. apply keeps_bind; [apply keeps_io|intros ?]. apply keeps_set_dirs. intros m [<- Hb]. unfold there, dir_at.
  destruct (decide (d0 = d)) as [->|]; [by rewrite lookup_insert_eq|by rewrite lookup_insert_ne].
Qed.
Lemma opens_log sha : opens (working_log_for_base_commit sha).
Proof.
  intros d0 X b. apply keeps_bind; [apply opens_create|intros ?]. apply keeps_bind; [apply keeps_io|intros; apply keeps_ret].
Qed.

Lemma only_update d f : only d (update_dir d f).
Proof. intros d0 X b Hd. apply keeps_set_dirs. intros m [<- Hb]. unfold there, dir_at. by rewrite lookup_alter_ne. Qed.
Lemma only_remove d : only d (remove_dir_all d).
Proof.
  intros d0 X b Hd. apply keeps_remove; intros m; [intros [<- Hb]|intros dir kept _ [<- Hb]]; unfold there, dir_at;
    [by rewrite lookup_delete_ne|by rewrite lookup_insert_ne].
Qed.
Lemma only_write_file d set text : only d (write_file d set text).
Proof. intros d0 X b Hd. apply keeps_write_file. intros m t [<- Hb]. unfold there, dir_at. by rewrite lookup_alter_ne. Qed.
Lemma only_replace d text f : only d (replace_file d text f).
Proof.
  intros d0 X b Hd. apply keeps_replace. intros m t _ [<- Hb]. unfold there, dir_at. by rewrite lookup_alter_ne.
Qed.

Lemma only_persist d content : only d (persist_file_version d content).
Proof.
  unfold persist_file_version, create_blobs_dir.
  apply only_bind; [apply only_bind; [apply opens_only, opens_create|intros; apply only_update]|intros ?].
  apply only_bind; [apply only_io_in|intros ?]. apply only_bind; [apply only_io|intros ?].
  apply only_bind; [apply only_the_dir|intros dir]. destruct (blob_at dir _).
  - apply only_bind; [|intros; apply only_ret]. apply only_bind; [eapply only_reads, reads_verified_blob|intros ?].
    destruct (negb _); [apply only_fail|]. apply only_bind; [apply only_io|intros; apply only_io_in].
  - apply only_bind; [apply only_replace|intros; apply only_ret].
Qed.
Lemma only_persist_contents d contents bs paths : only d (persist_contents d contents bs paths).
Proof.
  revert bs. induction paths as [|path paths IH]; intros bs; [apply only_ret|]. cbn [persist_contents].
  destruct (contents !! path); [|apply only_fail]. apply only_bind; [apply only_persist|intros; apply IH].
Qed.
Lemma only_write_checkpoints d cs : only d (write_all_checkpoints d cs).
Proof. apply only_bind; [apply opens_only, opens_create|intros; apply only_replace]. Qed.
Lemma only_write_initial d x : only d (write_initial d x).
Proof.
  unfold write_initial. case_bool_decide.
  - apply only_bind; [apply only_io|intros ?]. apply only_bind; [apply only_update|intros; apply only_io_in].
  - apply only_bind; [eapply only_reads, reads_validate|intros ?]. apply only_bind; [apply opens_only, opens_create|intros; apply only_replace].
Qed.
Lemma only_write_contents d files prompts humans contents sessions :
  only d (write_initial_attributions_with_contents d files prompts humans contents sessions).
Proof. apply only_bind; [apply only_persist_contents|intros; apply only_write_initial]. Qed.

(** *** A directory that is there *)

Definition at_ (d : Dir) (P : LogDir → Prop) (m : gmap Dir LogDir) : Prop := ∃ dir, m !! d = Some dir ∧ P dir.

Lemma at_here d P m : at_ d P m ↔ here d m P m.
Proof.
  split; intros (dir & Hd & HP); exists dir; (split; [|done]); [by rewrite insert_id|]. rewrite Hd. apply lookup_insert_eq.
Qed.
Lemma here_at_ d m0 P m : here d m0 P m → at_ d P m.
Proof. intros (dir & -> & HP). exists dir. by rewrite lookup_insert_eq. Qed.
Lemma at_impl d (P Q : LogDir → Prop) m : at_ d P m → (∀ dir, P dir → Q dir) → at_ d Q m.
Proof. intros (dir & Hd & HP) HQ. exists dir. auto. Qed.
Lemma at_dir d P m : at_ d P m → P (dir_at m d).
Proof. intros (dir & Hd & HP). unfold dir_at. by rewrite Hd. Qed.

Lemma at_there d P m : at_ d P m ↔ ∃ X, there d X true m ∧ P X.
Proof.
  unfold there, dir_at. split.
  - intros (dir & Hd & HP). exists dir. rewrite Hd. by split; [split|].
  - intros (X & [<- Hb] & HP). destruct (Hb eq_refl) as [dir Hd]. exists dir. rewrite Hd in HP. by split.
Qed.

Lemma there_refl d0 s : on (there d0 (dir_at (dirs s) d0) false) s.
Proof. by split. Qed.

Lemma only_at {A : Type} d d0 (m : StateResult.M Storage A) P : only d m → d0 ≠ d → keeps (on (at_ d0 P)) m.
Proof.
  intros Hm Hd s Hs. unfold on in Hs. apply at_there in Hs as (X & Hx & HP). specialize (Hm d0 X true Hd s Hx).
  destruct (m s) as [s' [a|e|]]; apply at_there; by exists X.
Qed.
Lemma only_dir {A : Type} d d0 (m : StateResult.M Storage A) (P : LogDir → Prop) :
  only d m → d0 ≠ d → keeps (on (λ fs, P (dir_at fs d0))) m.
Proof.
  intros Hm Hd s Hs. specialize (Hm d0 (dir_at (dirs s) d0) false Hd s (there_refl d0 s)).
  unfold on in *. destruct (m s) as [s' [a|e|]]; destruct Hm as [Hm _]; by rewrite Hm.
Qed.
Lemma opens_dir {A : Type} d0 (m : StateResult.M Storage A) (P : LogDir → Prop) :
  opens m → keeps (on (λ fs, P (dir_at fs d0))) m.
Proof.
  intros Hm s Hs. specialize (Hm d0 (dir_at (dirs s) d0) false s (there_refl d0 s)).
  unfold on in *. destruct (m s) as [s' [a|e|]]; destruct Hm as [Hm _]; by rewrite Hm.
Qed.

(** A triple on one directory, wherever it starts. *)
Lemma triple_at {A : Type} d (m : StateResult.M Storage A) P (Q : A → LogDir → Prop) E :
  (∀ m0, triple (on (here d m0 P)) m (λ a, on (here d m0 (Q a))) (on (here d m0 E))) →
  triple (on (at_ d P)) m (λ a, on (at_ d (Q a))) (on (at_ d E)).
Proof.
  intros H s Hs. unfold on in Hs. apply at_here in Hs. specialize (H (dirs s) s Hs).
  destruct (m s) as [s' [a|e|]]; by eapply here_at_.
Qed.

Lemma triple_frame {A : Type} (m : StateResult.M Storage A) P Q E K :
  triple P m Q E → keeps K m → triple (λ s, P s ∧ K s) m (λ a s, Q a s ∧ K s) (λ s, E s ∧ K s).
Proof. intros Hm HK s [HP Hs]. specialize (Hm s HP). specialize (HK s Hs). by destruct (m s) as [s' [a|e|]]. Qed.

(** Opening a log makes it one that is there. *)
Lemma open_at sha P :
  triple (on (λ m, P (dir_at m (log_dir sha)))) (working_log_for_base_commit sha)
    (λ d s, d = log_dir sha ∧ on (at_ (log_dir sha) P) s) (on (λ m, P (dir_at m (log_dir sha)))).
Proof.
  unfold working_log_for_base_commit, create_dir_all.
  eapply (triple_bind _ _ _ (λ _, on (at_ (log_dir sha) P))).
  - eapply triple_bind; [apply keeps_io|intros ?]. apply triple_modify. intros s Hs. exists (dir_at (dirs s) (log_dir sha)).
    split; [apply lookup_insert_eq|exact Hs].
  - intros ?. eapply triple_bind; [apply (triple_keeps (at_ (log_dir sha) P)); [apply at_dir|apply keeps_io]|intros ?].
    by apply triple_ret.
Qed.

Lemma write_checkpoints_at d cs cc P :
  (∀ dir cc', P dir → P (set_checkpoints cc' dir)) →
  triple (on (at_ d (λ dir, checkpoints_file dir = cc ∧ P dir))) (write_all_checkpoints d cs)
    (λ _, on (at_ d (λ dir, rendered cs (checkpoints_file dir) ∧ P dir)))
    (on (at_ d (λ dir, (checkpoints_file dir = cc ∨ rendered cs (checkpoints_file dir)) ∧ P dir))).
Proof.
  intros HP. apply triple_at. intros m0. unfold write_all_checkpoints.
  set (F := λ dir, checkpoints_file dir = cc ∧ P dir).
  set (E := here d m0 (λ dir, (checkpoints_file dir = cc ∨ rendered cs (checkpoints_file dir)) ∧ P dir)).
  assert (∀ m, here d m0 F m → E m) as HE by (intros m Hm; eapply here_impl; [exact Hm|]; intros dir []; auto).
  eapply triple_bind; [apply (triple_keeps (here d m0 F)); [exact HE|apply here_create]|intros ?].
  apply here_replace; [|exact HE|].
  - intros dir t Ht [_ Hd]. split; [by exists t|by apply HP].
  - intros m Hm. eapply here_impl; [exact Hm|]. intros dir []. auto.
Qed.

Lemma write_initial_at d x ci P :
  (∀ dir ci', P dir → P (set_initial ci' dir)) →
  triple (on (at_ d (λ dir, initial_file dir = ci ∧ P dir))) (write_initial d x)
    (λ _, on (at_ d (λ dir, written x (initial_file dir) ∧ P dir)))
    (on (at_ d (λ dir, (initial_file dir = ci ∨ written x (initial_file dir)) ∧ P dir))).
Proof. intros HP. apply triple_at. intros m0. by apply write_initial_here. Qed.
End Frames.

(** *** Saving *)

Section Save.
Context `{env : Environment} `{order : HashOrder} `{laws : !EnvironmentLaws} `{stash : StashEnvironment} `{seen : !StatsAnswer}.

Lemma version_of_hash dir sha content : version_of dir sha = Ret content → sha256_hex content = sha.
Proof.
  unfold version_of. destruct (validate_blob_sha sha); [|done..]. cbn [obind]. destruct (blob_at dir sha) as [c|]; [|done].
  destruct (str_eqb (sha256_hex c) sha) eqn:E; [|done]. cbn [negb]. destruct (PatchText.valid_utf8 c); [|done]. intros [= ->].
  by apply str_eqb_eq.
Qed.

(** What [exists] answers. *)
Lemma triple_seen_in {A : Type} (d : Dir) (f : LogDir → option A) P (Q : bool → Storage → Prop) E :
  (∀ s, P s → Q (bool_decide (is_Some (f (dir_at (dirs s) d)))) (tick s)) → triple P (exists_in d f) Q E.
Proof. intros H s Hs. unfold exists_in, exists_. rewrite stats_answer. by apply (H s). Qed.
Lemma triple_seen (d : Dir) P (Q : bool → Storage → Prop) E :
  (∀ s, P s → Q (bool_decide (is_Some (dirs s !! d))) (tick s)) → triple P (exists_dir d) Q E.
Proof. intros H s Hs. unfold exists_dir, exists_. rewrite stats_answer. by apply (H s). Qed.

(** Reading a log whose directory is known. *)
Lemma triple_read {A : Type} (m : StateResult.M Storage A) (Q : gmap Dir LogDir → A → Prop) D :
  reads m Q → triple (on D) m (λ a s, on (λ fs, D fs ∧ Q fs a) s) (on D).
Proof. apply triple_reads. Qed.

Lemma load_state base log :
  triple (on (λ fs, dir_at fs (log_dir base) = log)) (load_persisted_working_log base)
    (λ va _, ∃ x cs, initial_in log = Ret x ∧ logged_in log = Ret cs ∧ state_of x cs va) (λ _, True).
Proof.
  unfold load_persisted_working_log.
  eapply triple_bind; [eapply triple_weaken; [apply (open_at base (λ dir, dir = log))|done|done|done]|intros d].
  intros s [-> Hs]. revert s Hs.
  eapply triple_bind; [eapply triple_weaken; [apply (triple_read _ _ (at_ (log_dir base) (λ dir, dir = log)) (reads_initial (log_dir base)))|done|done|done]|intros x].
  eapply triple_bind; [eapply triple_weaken; [eapply triple_read, reads_all_checkpoints|done|done|done]|intros cs].
  eapply triple_bind; [eapply triple_weaken; [apply keeps_io|done|done|done]|intros ?].
  eapply triple_bind; [eapply triple_weaken; [eapply triple_read, reads_dir|done|done|done]|intros dir].
  apply triple_lift; [|done]. intros s va [[[Hd [Hx _]] Hcs] ->] Hva. apply at_dir in Hd.
  unfold initially, logged in *. rewrite Hd in Hx, Hcs. exists x, cs. split; [done|]. split; [done|].
  eexists base, _. split; [|exact Hva]. apply version_of_hash.
Qed.
Lemma only_load d base : only d (load_persisted_working_log base).
Proof.
  unfold load_persisted_working_log. apply only_bind; [apply opens_only, opens_log|intros d'].
  apply only_bind; [eapply only_reads, reads_initial|intros x]. apply only_bind; [eapply only_reads, reads_any_checkpoints|intros cs].
  apply only_bind; [apply only_io|intros ?]. apply only_bind; [apply only_the_dir|intros; apply only_lift].
Qed.

Lemma only_compact sha base : only (stash_dir sha) (compact_stash_attributions_from_working_log sha base).
Proof.
  apply only_bind; [apply only_load|intros va]. cbv zeta. case_bool_decide; [apply only_ret|apply only_write_contents].
Qed.

Lemma compact_spec sha base log :
  triple (on (λ fs, dir_at fs (log_dir base) = log ∧ is_Some (fs !! stash_dir sha))) (compact_stash_attributions_from_working_log sha base)
    (λ _, on (λ fs, ∃ x cs va, initial_in log = Ret x ∧ logged_in log = Ret cs ∧ state_of x cs va ∧ saved va (dir_at fs (stash_dir sha))))
    (λ _, True).
Proof.
  unfold compact_stash_attributions_from_working_log. eapply triple_bind.
  - eapply triple_weaken.
    + apply (triple_frame _ _ _ _ _ (load_state base log)
        (only_at (log_dir base) (stash_dir sha) _ (λ _, True) (only_load _ base) ltac:(done))).
    + intros s [Hs [dir Hd]]. split; [done|]. by exists dir.
    + done.
    + done.
  - intros va s [(x & cs & Hx & Hcs & Hst) (dir & Hd & _)]. cbv zeta.
    assert (∃ ci cc, on (at_ (stash_dir sha) (λ dir, initial_file dir = ci ∧ checkpoints_file dir = cc)) s) as (ci & cc & Hs)
      by (eexists _, _, dir; done).
    clear dir Hd. revert s Hs. case_bool_decide as He.
    + apply triple_ret. intros s _. exists x, cs, va. do 3 (split; [done|]). by left.
    + eapply triple_weaken; [apply triple_at; intros m0; apply write_contents_here|done| |done].
      intros ? s Hs. apply at_dir in Hs as [Hs _]. exists x, cs, va. do 3 (split; [done|]). by right.
Qed.

(** *** Filtering *)

Lemma persist_at d content P :
  grows P → triple (on (at_ d P)) (persist_file_version d content)
    (λ sha, on (at_ d (λ dir, P dir ∧ blob_at dir sha = Some content))) (on (at_ d P)).
Proof. intros HP. apply triple_at. intros m0. by apply here_persist. Qed.

Lemma persist_keeps_at d content P : grows P → keeps (on (at_ d P)) (persist_file_version d content).
Proof.
  intros HP. eapply triple_weaken; [by apply persist_at|done| |done]. intros sha s Hs. by eapply at_impl; [exact Hs|intros ? [? _]].
Qed.

Lemma copy_initial_keeps_at src d x P : grows P → keeps (on (at_ d P)) (copy_initial_blobs src d x).
Proof.
  intros HP. apply keeps_for_each. intros sha. apply keeps_bind; [eapply keeps_reads, reads_file_version|intros c].
  apply keeps_bind; [by apply persist_keeps_at|intros sha']. destruct (negb _); [apply keeps_fail|apply keeps_ret].
Qed.
Lemma only_copy_initial src d x : only d (copy_initial_blobs src d x).
Proof.
  apply only_for_each. intros sha. apply only_bind; [eapply only_reads, reads_file_version|intros c].
  apply only_bind; [apply only_persist|intros sha']. destruct (negb _); [apply only_fail|apply only_ret].
Qed.

Lemma copy_entries_keeps_at src d copied es P : grows P → keeps (on (at_ d P)) (copy_entry_blobs src d copied es).
Proof.
  intros HP. revert copied. induction es as [|e es IH]; intros copied; [apply keeps_ret|]. cbn [copy_entry_blobs].
  apply keeps_bind; [|intros; apply IH]. unfold copy_blob_sha. case_bool_decide; [apply keeps_ret|].
  apply keeps_bind; [eapply keeps_reads, reads_file_version|intros c].
  apply keeps_bind; [by apply persist_keeps_at|intros sha']. destruct (negb _); [apply keeps_fail|apply keeps_ret].
Qed.
Lemma only_copy_entries src d copied es : only d (copy_entry_blobs src d copied es).
Proof.
  revert copied. induction es as [|e es IH]; intros copied; [apply only_ret|]. cbn [copy_entry_blobs].
  apply only_bind; [|intros; apply IH]. unfold copy_blob_sha. case_bool_decide; [apply only_ret|].
  apply only_bind; [eapply only_reads, reads_file_version|intros c].
  apply only_bind; [apply only_persist|intros sha']. destruct (negb _); [apply only_fail|apply only_ret].
Qed.

Lemma filter_lines_at src d specs copied out ls P :
  grows P →
  triple (on (at_ d P)) (filter_checkpoint_lines src d specs copied out ls)
    (λ out' s, on (at_ d P) s ∧ ∃ all t, parse_all ls = Ret all ∧
       checkpoints_text (map clear_diff (retain_entries (λ path, path_matches_any path specs) all)) = Ret t ∧ out' = out ++ t)
    (λ _, True).
Proof.
  intros HP. revert copied out. induction ls as [|l ls IH]; intros copied out; cbn [filter_checkpoint_lines parse_all].
  - apply triple_ret. intros s Hs. split; [done|]. exists [], []. by rewrite app_nil_r.
  - destruct (negb _); [by apply triple_fail|]. case_bool_decide; [apply IH|].
    eapply triple_bind.
    { apply (triple_lift _ _ (λ c s, on (at_ d P) s ∧ checkpoint_of_json l = Ret c)); done. }
    intros c s [Hs Hc]. revert s Hs. rewrite Hc. cbn [obind]. set (keep := λ path, path_matches_any path specs).
    set (es := List.filter (λ e, path_matches_any (file e) specs) (entries c)).
    assert (∀ all, retain_entries keep (c :: all) =
      (if bool_decide (es = []) then [] else [set_entries c es]) ++ retain_entries keep all) as Hretain.
    { intros all. unfold retain_entries. cbn [map List.filter]. change (entries (set_entries c _)) with es.
      change (List.filter (λ e, keep (file e)) (entries c)) with es. by destruct (bool_decide (es = [])). }
    case_bool_decide as He.
    + eapply triple_weaken; [apply IH|done| |done]. intros out' s [Hs (all & t & Hall & Ht & ->)]. split; [done|].
      exists (c :: all), t. rewrite Hall, Hretain. done.
    + eapply triple_bind; [eapply triple_weaken; [by apply copy_entries_keeps_at|done|done|done]|intros copied'].
      eapply triple_bind; [apply (triple_lift _ _ (λ json s, on (at_ d P) s ∧ checkpoint_to_json (clear_diff (set_entries c es)) = Ret json)); done|].
      intros json s [Hs Hj]. revert s Hs. eapply triple_weaken; [apply IH|done| |done].
      intros out' s [Hs (all & t & Hall & Ht & ->)]. split; [done|]. exists (c :: all), (json ++ [LF] ++ t).
      rewrite Hall, Hretain. cbn [obind app map checkpoints_text]. rewrite Hj. cbn [obind]. fold keep in Ht. rewrite Ht. cbn [obind].
      split; [done|]. split; [done|]. by rewrite <-!app_assoc.
Qed.

Lemma only_filter_lines src d specs copied out ls : only d (filter_checkpoint_lines src d specs copied out ls).
Proof.
  revert copied out. induction ls as [|l ls IH]; intros copied out; cbn [filter_checkpoint_lines]; [apply only_ret|].
  destruct (negb _); [apply only_fail|]. case_bool_decide; [apply IH|]. apply only_bind; [apply only_lift|intros c]. cbv zeta.
  case_bool_decide; [apply IH|]. apply only_bind; [apply only_copy_entries|intros ?]. apply only_bind; [apply only_lift|intros; apply IH].
Qed.

Lemma only_filtered_checkpoints src d specs : only d (write_path_filtered_checkpoints src d specs).
Proof.
  apply only_bind; [eapply only_reads, reads_oversized|intros ?]. apply only_bind; [apply only_exists_in|intros []]; [|apply only_write_checkpoints].
  cbn [negb]. apply only_bind; [apply opens_only, opens_create|intros ?].
  apply only_bind; [apply only_io|intros ?]. apply only_bind; [apply only_the_dir|intros ?]. apply only_bind; [apply only_io_in|intros ?].
  apply only_bind; [apply only_update|intros ?]. apply only_bind; [apply only_filter_lines|intros ?].
  apply only_bind; [apply only_io|intros; apply only_update].
Qed.

Lemma only_filtered_log src filtered specs : only (log_dir filtered) (write_path_filtered_working_log src filtered specs).
Proof.
  unfold write_path_filtered_working_log, working_log_for_base_commit at 1.
  assert (∀ sha (k : Dir → StateResult.M Storage unit), only (log_dir filtered) (k (log_dir sha)) →
    only (log_dir filtered) (bind (working_log_for_base_commit sha) k)) as Hopen.
  { intros sha k Hk d0 X b Hd. eapply (triple_bind _ _ _ (λ d s, d = log_dir sha ∧ on (there d0 X b) s)).
    - intros s Hs. pose proof (opens_log sha d0 X b s Hs) as H.
      unfold working_log_for_base_commit, bind, create_dir_all, sync_working_logs, io, set_dirs, modify, ret in *. cbn in *.
      destruct (fault (calls s)); [done|]. cbn in *. by destruct (fault (S (calls s))).
    - intros d s [-> Hs]. by apply (Hk d0 X b Hd). }
  apply (Hopen src). apply only_bind; [apply only_ignore, only_remove|intros ?]. apply (Hopen filtered).
  apply only_bind; [eapply only_reads, reads_initial|intros x]. cbv zeta.
  apply only_bind; [apply only_copy_initial|intros ?]. apply only_bind; [apply only_write_initial|intros; apply only_filtered_checkpoints].
Qed.
(** What the filtered log holds. *)
Definition filtered_text (specs : list str) (log : LogDir) (cc : option str) : Prop :=
  match checkpoints_file log with
  | None => cc = Some []
  | Some text => ∃ all, parse_all (lines text) = Ret all ∧
      rendered (map clear_diff (retain_entries (λ path, path_matches_any path specs) all)) cc
  end.

Lemma filtered_checkpoints_at src d specs log P :
  src ≠ d → grows P → (∀ dir cc, P dir → P (set_checkpoints cc dir)) →
  triple (on (λ fs, at_ d P fs ∧ dir_at fs src = log)) (write_path_filtered_checkpoints src d specs)
    (λ _, on (at_ d (λ dir, filtered_text specs log (checkpoints_file dir) ∧ P dir))) (λ _, True).
Proof.
  intros Hne HP Hset. unfold write_path_filtered_checkpoints.
  assert (∀ (A : Type) (m : StateResult.M Storage A) Q, reads m Q → triple (on (λ fs, at_ d P fs ∧ dir_at fs src = log)) m
    (λ _, on (λ fs, at_ d P fs ∧ dir_at fs src = log)) (λ _, True)) as Hr.
  { intros A m Q Hm. eapply triple_weaken; [eapply keeps_reads; exact Hm|done|done|done]. }
  eapply triple_bind; [eapply Hr, reads_oversized|intros ?].
  eapply (triple_bind _ _ _ (λ b s, on (at_ d P) s ∧ dir_at (dirs s) src = log ∧ b = bool_decide (is_Some (checkpoints_file log)))).
  { apply triple_seen_in. intros s [Hs Hd]. split; [exact Hs|]. split; [exact Hd|]. by rewrite Hd. }
  intros dir s (Hs & Hd & ->). unfold filtered_text. destruct (checkpoints_file log) as [text|] eqn:Ec; cbn [negb].
  - assert (on (λ fs, at_ d P fs ∧ dir_at fs src = log) s) as Hs' by done. clear Hs Hd. revert s Hs'.
    eapply (triple_bind _ _ _ (λ _, on (λ fs, at_ d P fs ∧ dir_at fs src = log))).
    { eapply triple_weaken.
      - apply (triple_frame _ (on (at_ d P)) (λ _, on (at_ d P)) (on (at_ d P)) (on (λ fs, dir_at fs src = log))).
        + apply triple_at. intros m0. apply here_create.
        + apply (opens_dir src _ (λ X, X = log)), opens_create.
      - done.
      - done.
      - done. }
    intros ?. eapply triple_bind; [eapply Hr, reads_io|intros ?].
    eapply (triple_bind _ _ _ (λ dir s, on (at_ d P) s ∧ dir = log)).
    { apply triple_gets. intros s [Hs Hd]. done. }
    intros dir s [Hs ->]. revert s Hs. rewrite Ec. cbn [default from_option Datatypes.id].
    eapply triple_bind; [eapply triple_weaken; [apply keeps_sync|done|done|done]|intros ?].
    eapply (triple_bind _ _ _ (λ _, on (at_ d P))).
    { apply triple_modify. intros s (dir & Hd & Hdir). exists (set_checkpoints (Some []) dir). cbn. by rewrite lookup_alter_eq, Hd; auto. }
    intros ?. eapply triple_bind; [by apply filter_lines_at|intros out].
    intros s [Hs (all & t & Hall & Ht & ->)]. revert s Hs.
    eapply triple_bind; [eapply triple_weaken; [apply keeps_io|done|done|done]|intros ?].
    apply triple_modify. intros s (dir & Hd & Hdir). exists (set_checkpoints (Some ([] ++ t)) dir). cbn. rewrite lookup_alter_eq, Hd.
    split; [done|]. split; [|by apply Hset]. exists all. split; [done|]. by exists t.
  - destruct Hs as (dir & Hdir & HPd).
    assert (on (at_ d (λ x, checkpoints_file x = checkpoints_file dir ∧ P x)) s) as Hs by by exists dir.
    clear Hd Hdir HPd. revert s Hs. eapply triple_weaken; [by apply write_checkpoints_at|done| |done].
    intros ? s Hs. eapply at_impl; [exact Hs|]. by intros x [(t & [= <-] & Ht) Hx].
Qed.

Lemma filtered_log_spec src filtered specs log :
  src ≠ filtered →
  triple (on (λ fs, dir_at fs (log_dir src) = log)) (write_path_filtered_working_log src filtered specs)
    (λ _, on (λ fs, ∃ x, initial_in log = Ret x ∧ at_ (log_dir filtered) (λ dir, filtered_text specs log (checkpoints_file dir) ∧
       written (retain_initial (λ path, path_matches_any path specs) x) (initial_file dir)) fs)) (λ _, True).
Proof.
  intros Hne. assert (log_dir src ≠ log_dir filtered) as Hd by by intros [= ->].
  unfold write_path_filtered_working_log. set (K := on (λ fs, dir_at fs (log_dir src) = log)).
  eapply (triple_bind _ _ _ (λ d s, d = log_dir src ∧ K s)).
  { eapply triple_weaken; [apply (open_at src (λ dir, dir = log))|done| |done]. intros d s [-> Hs]. split; [done|].
    by apply at_dir in Hs. }
  intros d s [-> Hs]. revert s Hs.
  eapply (triple_bind _ _ _ (λ _, K)).
  { eapply triple_weaken; [apply (only_dir (log_dir filtered) (log_dir src) _ (λ X, X = log) (only_ignore _ _ (only_remove _)) Hd)|done|done|done]. }
  intros ?. eapply (triple_bind _ _ _ (λ d s, d = log_dir filtered ∧ on (at_ (log_dir filtered) (λ _, True)) s ∧ K s)).
  { eapply triple_weaken.
    - apply (triple_frame _ _ _ _ K (open_at filtered (λ _, True))). apply (opens_dir _ _ (λ X, X = log)), opens_log.
    - done.
    - intros d s [[-> H1] H2]. done.
    - done. }
  intros d s (-> & Hs & HK). assert (on (λ fs, at_ (log_dir filtered) (λ _, True) fs ∧ dir_at fs (log_dir src) = log) s) as Hs' by done.
  clear Hs HK. revert s Hs'.
  eapply triple_bind; [eapply triple_weaken; [apply (triple_reads _ (λ fs, at_ (log_dir filtered) (λ _, True) fs ∧ dir_at fs (log_dir src) = log) _ (reads_initial (log_dir src)))|done|done|done]|intros x].
  intros s [[Hs HK] [Hx _]]. unfold initially in Hx. rewrite HK in Hx.
  assert (on (λ fs, at_ (log_dir filtered) (λ _, True) fs ∧ dir_at fs (log_dir src) = log) s) as Hs' by done. clear Hs HK. revert s Hs'.
  assert (∀ (A : Type) (m : StateResult.M Storage A) P Q E, only (log_dir filtered) m →
    triple (on (at_ (log_dir filtered) P)) m Q E →
    triple (on (λ fs, at_ (log_dir filtered) P fs ∧ dir_at fs (log_dir src) = log)) m
      (λ a s, Q a s ∧ dir_at (dirs s) (log_dir src) = log) (λ _, True)) as Hframe.
  { intros A m P Q E Ho Ht. eapply triple_weaken.
    - apply (triple_frame _ _ _ _ K Ht). by apply (only_dir (log_dir filtered) _ _ (λ X, X = log)).
    - done.
    - done.
    - done. }
  cbv zeta. eapply triple_bind; [eapply Hframe; [apply only_copy_initial|by apply (copy_initial_keeps_at _ _ _ (λ _, True))]|intros ?].
  intros s [(dir & Hdir & _) HK].
  assert (on (λ fs, at_ (log_dir filtered) (λ y, initial_file y = initial_file dir ∧ True) fs ∧ dir_at fs (log_dir src) = log) s) as Hs
    by (split; [by exists dir|done]). clear Hdir HK. revert s Hs.
  eapply triple_bind; [eapply Hframe; [apply only_write_initial|by apply (write_initial_at _ _ (initial_file dir) (λ _, True))]|intros ?].
  eapply triple_weaken.
  - apply (filtered_checkpoints_at (log_dir src) (log_dir filtered) specs log
      (λ dir, written (retain_initial (λ path, path_matches_any path specs) x) (initial_file dir)) Hd); [by split; intros ?|by intros ? ? ?].
  - intros s [Hs HK]. split; [|done]. by eapply at_impl; [exact Hs|intros ? [? _]].
  - intros ? s Hs. by exists x.
  - done.
Qed.

Lemma filtered_is_stashed specs log dir x :
  specs ≠ [] → initial_in log = Ret x → filtered_text specs log (checkpoints_file dir) →
  written (retain_initial (λ path, path_matches_any path specs) x) (initial_file dir) →
  ∀ x' cs, initial_in dir = Ret x' → logged_in dir = Ret cs → stashed_part specs log x' cs.
Proof.
  intros Hs Hx Hc Hw x' cs Hx' Hcs. unfold stashed_part. rewrite bool_decide_false by done. split.
  - exists x. split; [done|]. unfold written in Hw. unfold initial_in in Hx'. unfold read_back. case_bool_decide as E; rewrite ?E in *.
    + rewrite Hw in Hx'. by injection Hx' as <-.
    + destruct Hw as (json & Hj & Hi). rewrite Hi in Hx'. destruct (initial_read_back _ _ Hj) as [Hu Hr]. rewrite Hu, Hr in Hx'.
      by injection Hx' as <-.
  - unfold filtered_text in Hc. destruct (checkpoints_file log) as [text|].
    + destruct Hc as (all & Hall & t & Ht & Hcc). exists all. split; [done|]. unfold logged_in in Hcs. rewrite Hcc in Hcs.
      rewrite (parse_written _ _ Ht) in Hcs. by injection Hcs as <-.
    + unfold logged_in in Hcs. rewrite Hc in Hcs. by injection Hcs as <-.
Qed.
(** *** Creating a stash *)

Lemma triple_or_else {A : Type} (m : StateResult.M Storage A) cleanup P (Q : A → Storage → Prop) :
  triple P m Q (λ _, True) → triple P (or_else m cleanup) Q (λ _, True).
Proof. intros Hm s Hs. specialize (Hm s Hs). unfold or_else. by destruct (m s) as [s' [a|e|]]. Qed.
Lemma keeps_or_else {A : Type} (m : StateResult.M Storage A) cleanup K : keeps K m → keeps K cleanup → keeps K (or_else m cleanup).
Proof.
  intros Hm Hc s Hs. specialize (Hm s Hs). unfold or_else. destruct (m s) as [s' [a|e|]]; [done| |done].
  by apply (keeps_state K cleanup s').
Qed.
Lemma triple_finally {A : Type} (m : StateResult.M Storage A) cleanup P (Q : Storage → Prop) :
  triple P m (λ _, Q) (λ _, True) → keeps Q cleanup → triple P (finally m cleanup) (λ _, Q) (λ _, True).
Proof.
  intros Hm Hc s Hs. specialize (Hm s Hs). unfold finally. destruct (m s) as [s' [a|e|]]; [|done..]. by apply (keeps_state Q cleanup s').
Qed.
Lemma keeps_finally {A : Type} (m : StateResult.M Storage A) cleanup K : keeps K m → keeps K cleanup → keeps K (finally m cleanup).
Proof.
  intros Hm Hc s Hs. specialize (Hm s Hs). unfold finally. destruct (m s) as [s' [a|e|]]; [..|done]; by apply (keeps_state K cleanup s').
Qed.

Section Create.
Variables (stash_sha head_sha : str) (specs : list str) (log : LogDir).
Local Abbreviation d := (log_dir head_sha).
Local Abbreviation sd := (stash_dir stash_sha).
Local Abbreviation fd := (log_dir (filtered_stash_working_log_base stash_sha)).
Hypothesis not_filtered : head_sha ≠ filtered_stash_working_log_base stash_sha.

Lemma head_not_filtered : d ≠ fd.
Proof. by intros [= E]. Qed.

Lemma save_keeps : keeps (on (there d log true)) (save_stash_attributions stash_sha head_sha specs).
Proof.
  unfold save_stash_attributions. apply keeps_bind; [apply keeps_exists|intros []]; [|apply keeps_ret]. cbn [negb].
  pose proof head_not_filtered. case_bool_decide; [by apply only_compact|]. cbv zeta.
  assert (keeps (on (there d log true)) (ignore (remove_dir_all fd))) as Hc by by apply (only_ignore fd _ (only_remove fd)).
  apply keeps_bind; [|intros ?].
  - apply keeps_or_else; [by apply only_filtered_log|exact Hc].
  - apply keeps_finally; [by apply only_compact|exact Hc].
Qed.

Lemma save_spec :
  triple (on (λ fs, there d log true fs ∧ is_Some (fs !! sd))) (save_stash_attributions stash_sha head_sha specs)
    (λ _, on (λ fs, stash_saved specs log (dir_at fs sd))) (λ _, True).
Proof.
  unfold save_stash_attributions. pose proof head_not_filtered as Hfd.
  eapply (triple_bind _ _ _ (λ b s, b = true ∧ on (λ fs, there d log true fs ∧ is_Some (fs !! sd)) s)).
  { apply triple_seen. intros s [[Hd Hb] Hs]. split; [apply bool_decide_eq_true; by apply Hb|done]. }
  intros b s [-> Hs]. revert s Hs. cbn [negb]. case_bool_decide as Hspecs.
  - eapply triple_weaken; [apply (compact_spec stash_sha head_sha log)|by intros s [[Hd _] Hs]| |done].
    intros ? s (x & cs & va & Hx & Hcs & Hst & Hsv). exists x, cs, va. split; [|done]. unfold stashed_part.
    by rewrite bool_decide_true.
  - cbv zeta. eapply (triple_bind _ _ _ (λ _, on (λ fs, (∃ x, initial_in log = Ret x ∧
      at_ fd (λ dir, filtered_text specs log (checkpoints_file dir) ∧
        written (retain_initial (λ path, path_matches_any path specs) x) (initial_file dir)) fs) ∧ at_ sd (λ _, True) fs))).
    + apply triple_or_else. eapply triple_weaken.
      * apply (triple_frame _ _ _ _ (on (at_ sd (λ _, True))) (filtered_log_spec head_sha _ specs log not_filtered)).
        apply (only_at fd sd _ (λ _, True)); [apply only_filtered_log|done].
      * intros s [[Hd _] [dir Hs]]. split; [done|]. by exists dir.
      * done.
      * done.
    + intros ? s [(x & Hx & dir & Hdir & Hc & Hw) (sdir & Hsd & _)].
      assert (on (λ fs, dir_at fs fd = dir ∧ is_Some (fs !! sd)) s) as Hs.
      { split; [unfold dir_at; by rewrite Hdir|by exists sdir]. }
      clear Hdir Hsd. revert s Hs. apply triple_finally.
      * eapply triple_weaken; [apply (compact_spec stash_sha (filtered_stash_working_log_base stash_sha) dir)|done| |done].
        intros ? s (x' & cs & va & Hx' & Hcs & Hst & Hsv). exists x', cs, va. split; [|done]. by eapply filtered_is_stashed.
      * apply (only_dir fd sd _ (λ X, stash_saved specs log X)); [apply only_ignore, only_remove|done].
Qed.

Lemma only_clean : only d (clean_working_log_for_stash head_sha specs).
Proof.
  unfold clean_working_log_for_stash. apply only_bind; [apply only_exists|intros []]; [|apply only_ret]. cbn [negb].
  intros d0 X b Hd. eapply (triple_bind _ _ _ (λ d' s, d' = d ∧ on (there d0 X b) s)).
  { intros s Hs. pose proof (opens_log head_sha d0 X b s Hs) as H.
    unfold working_log_for_base_commit, bind, create_dir_all, sync_working_logs, io, set_dirs, modify, ret in *. cbn in *.
    destruct (fault (calls s)); [done|]. cbn in *. by destruct (fault (S (calls s))). }
  intros d' s [-> Hs]. revert s Hs. apply keeps_bind; [eapply keeps_reads, reads_initial|intros x]. cbv zeta.
  apply keeps_bind; [by apply only_write_initial|intros ?]. case_bool_decide; [by apply only_write_checkpoints|].
  apply keeps_bind; [eapply keeps_reads, reads_any_checkpoints|intros cs]. by apply only_write_checkpoints.
Qed.

Lemma clean_spec :
  triple (on (there d log true)) (clean_working_log_for_stash head_sha specs)
    (λ _, on (λ fs, left_over specs log (dir_at fs d))) (λ _, True).
Proof.
  unfold clean_working_log_for_stash.
  eapply (triple_bind _ _ _ (λ b s, b = true ∧ on (λ fs, dir_at fs d = log) s)).
  { apply triple_seen. intros s [Hd Hb]. split; [apply bool_decide_eq_true; by apply Hb|done]. }
  intros b s [-> Hs]. revert s Hs. cbn [negb].
  eapply triple_bind; [eapply triple_weaken; [apply (open_at head_sha (λ dir, dir = log))|done|done|done]|intros d'].
  intros s [-> Hs]. revert s Hs.
  eapply triple_bind; [eapply triple_weaken; [apply (triple_reads _ (at_ d (λ dir, dir = log)) _ (reads_initial d))|done|done|done]|intros x].
  intros s [Hs [Hx _]]. pose proof (at_dir _ _ _ Hs) as Hd. unfold initially in Hx. rewrite Hd in Hx. clear Hd.
  assert (on (at_ d (λ dir, initial_file dir = initial_file log ∧ checkpoints_file dir = checkpoints_file log)) s) as Hs'.
  { eapply at_impl; [exact Hs|]. by intros dir ->. }
  clear Hs. revert s Hs'. cbv zeta. fold (kept specs).
  eapply triple_bind.
  { eapply triple_weaken; [apply (write_initial_at d _ (initial_file log) (λ dir, checkpoints_file dir = checkpoints_file log)); by intros|done|done|done]. }
  intros ?. assert (∀ cs, (specs ≠ [] → logged_in log = Ret cs) →
    triple (on (at_ d (λ dir, written (retain_initial (kept specs) x) (initial_file dir) ∧ checkpoints_file dir = checkpoints_file log)))
      (write_all_checkpoints d (if bool_decide (specs = []) then [] else retain_entries (kept specs) cs))
      (λ _, on (λ fs, left_over specs log (dir_at fs d))) (λ _, True)) as Hwrite.
  { intros cs Hcs. eapply triple_weaken.
    - apply (write_checkpoints_at d _ (checkpoints_file log) (λ dir, written (retain_initial (kept specs) x) (initial_file dir))). by intros.
    - intros s Hs. eapply at_impl; [exact Hs|]. by intros dir [].
    - intros ? s Hs. apply at_dir in Hs as [Hr Hw]. split; [by exists x|]. by exists cs.
    - done. }
  case_bool_decide as Hspecs; [by apply (Hwrite [])|].
  eapply triple_bind; [eapply triple_weaken; [apply (triple_reads _ (at_ d (λ dir, written (retain_initial (kept specs) x) (initial_file dir) ∧
    checkpoints_file dir = checkpoints_file log)) _ (reads_all_checkpoints d _))|done|done|done]|intros cs].
  intros s [Hs Hcs]. pose proof (at_dir _ _ _ Hs) as [_ Hc]. revert s Hs Hcs Hc. intros s Hs Hcs Hc.
  apply (Hwrite cs); [|done]. intros _. rewrite <-Hcs. unfold logged, logged_in. by rewrite Hc.
Qed.

Lemma quarantine_small :
  (N.of_nat (length (default [] (checkpoints_file log))) <= MAX_CHECKPOINTS_JSONL_BYTES)%N →
  keeps (on (there d log true)) (quarantine_oversized_checkpoints_for_stash d).
Proof.
  intros Hsize. unfold quarantine_oversized_checkpoints_for_stash, quarantine_oversized_checkpoints_for_stash_with_limit.
  apply keeps_bind; [apply keeps_io|intros ?].
  eapply (triple_bind _ _ _ (λ dir s, on (there d log true) s ∧ dir = log)).
  { apply triple_gets. intros s [Hd Hb]. done. }
  intros dir s [Hs ->]. revert s Hs. destruct (checkpoints_file log) as [text|]; [|apply keeps_ret].
  change (default [] (Some text)) with text in Hsize. rewrite (proj2 (N.leb_le _ _) Hsize). apply keeps_ret.
Qed.

(** The log is as it was until the stash has what is taken from it. *)
Definition in_between (fs : gmap Dir LogDir) : Prop := there d log true fs ∨ stash_saved specs log (dir_at fs sd).

Lemma create_spec :
  (N.of_nat (length (default [] (checkpoints_file log))) <= MAX_CHECKPOINTS_JSONL_BYTES)%N →
  triple (on (there d log true)) (handle_stash_create stash_sha head_sha specs)
    (λ _, on (λ fs, stash_saved specs log (dir_at fs sd) ∧ left_over specs log (dir_at fs d))) (on in_between).
Proof.
  intros Hsize. unfold handle_stash_create.
  assert (∀ (A : Type) (m : StateResult.M Storage A), keeps (on (there d log true)) m →
    triple (on (there d log true)) m (λ _, on (there d log true)) (on in_between)) as Hk.
  { intros A m Hm. eapply triple_weaken; [exact Hm|done|done|]. intros s Hs. by left. }
  eapply triple_bind; [apply Hk, keeps_exists|intros b].
  eapply (triple_bind _ _ _ (λ _, on (there d log true))).
  { apply Hk. destruct b; [|apply keeps_ret]. eapply (triple_bind _ _ _ (λ d' s, d' = d ∧ on (there d log true) s)).
    - intros s Hs. pose proof (opens_log head_sha d log true s Hs) as H.
      unfold working_log_for_base_commit, bind, create_dir_all, sync_working_logs, io, set_dirs, modify, ret in *. cbn in *.
      destruct (fault (calls s)); [done|]. cbn in *. by destruct (fault (S (calls s))).
    - intros d' s [-> Hs]. revert s Hs. apply keeps_bind; [by apply quarantine_small|intros; apply keeps_ret]. }
  intros ?. cbv zeta. eapply (triple_bind _ _ _ (λ _, on (λ fs, there d log true fs ∧ at_ sd (λ _, True) fs))).
  { unfold create_dir_all. eapply triple_bind; [apply Hk, keeps_io|intros ?]. apply triple_modify. intros s [Hd Hb]. split.
    - unfold there, dir_at in *. cbn. by rewrite lookup_insert_ne.
    - eexists. split; [apply lookup_insert_eq|done]. }
  intros ?. assert (∀ (A : Type) (m : StateResult.M Storage A),
    keeps (on (λ fs, there d log true fs ∧ at_ sd (λ _, True) fs)) m →
    triple (on (λ fs, there d log true fs ∧ at_ sd (λ _, True) fs)) m
      (λ _, on (λ fs, there d log true fs ∧ at_ sd (λ _, True) fs)) (on in_between)) as Hk2.
  { intros A m Hm. eapply triple_weaken; [exact Hm|done|done|]. intros s [Hs _]. by left. }
  eapply triple_bind; [apply Hk2, keeps_lift|intros json].
  eapply triple_bind.
  { apply Hk2, keeps_write_file. intros m t [[Hd Hb] (dir & Hdir & _)]. split.
    - unfold there, dir_at in *. by rewrite lookup_alter_ne.
    - exists (set_metadata t dir). by rewrite lookup_alter_eq, Hdir. }
  intros ?. eapply (triple_bind _ _ _ (λ _, on (λ fs, stash_saved specs log (dir_at fs sd) ∧ there d log true fs))).
  { eapply triple_weaken; [apply (triple_frame _ _ _ _ _ save_spec save_keeps)| |done|].
    - intros s [Hs (dir & Hdir & _)]. split; [|done]. split; [done|by exists dir].
    - intros s [_ Hs]. by left. }
  intros ?. eapply triple_weaken.
  - apply (triple_frame _ _ _ _ (on (λ fs, stash_saved specs log (dir_at fs sd))) clean_spec). apply (only_dir d sd _ (λ X, stash_saved specs log X)); [apply only_clean|done].
  - by intros s [].
  - by intros ? s [].
  - intros s [_ Hs]. by right.
Qed.
End Create.

(** *** Restoring *)

Section Restore.
Variables (stash_sha head_sha : str) (slog log : LogDir) (xs xt : InitialAttributions) (ct : list Checkpoint).
Local Abbreviation d := (log_dir head_sha).
Local Abbreviation sd := (stash_dir stash_sha).
Hypothesis Hxs : initial_in slog = Ret xs.
Hypothesis some_files : initial_files xs ≠ ∅.
Hypothesis Hxt : initial_in log = Ret xt.
Hypothesis Hct : logged_in log = Ret ct.

Local Abbreviation others := (without_files (dom (initial_files xs)) ct).
Local Abbreviation merged_log := (merged_log xs xt ct).
Local Abbreviation halfway := (halfway xs xt ct).

Lemma others_versioned : versioned others.
Proof.
  assert (versioned ct) as Hv.
  { unfold logged_in in Hct. destruct (checkpoints_file log) as [text|]; [|injection Hct as <-; constructor].
    destruct (parse_checkpoints (lines text)) as [ps|e|] eqn:E; [|done..]. injection Hct as <-.
    by eapply migrate_versioned, parse_versioned. }
  unfold versioned in *. rewrite Forall_forall in *. intros c Hc. unfold retain_entries in Hc.
  apply elem_of_filter_b in Hc as [Hc _]. apply elem_of_list_map in Hc as (c' & Hin & ->). by apply (Hv c').
Qed.

Lemma rendered_logged dir : rendered others (checkpoints_file dir) → logged_in dir = Ret (migrate others).
Proof.
  intros (text & Ht & Hc). unfold logged_in. rewrite Hc, (parse_written _ _ Ht), filter_versioned; [done|]. apply others_versioned.
Qed.
Lemma written_initial x dir : written x (initial_file dir) → initial_in dir = Ret (read_back x).
Proof.
  unfold written, read_back, initial_in. case_bool_decide; [by intros ->|]. intros (json & Hj & ->).
  destruct (initial_read_back _ _ Hj) as [-> ->]. done.
Qed.

Lemma initial_in_ext dir dir' : initial_file dir = initial_file dir' → initial_in dir = initial_in dir'.
Proof. unfold initial_in. by intros ->. Qed.
Lemma logged_in_ext dir dir' : checkpoints_file dir = checkpoints_file dir' → logged_in dir = logged_in dir'.
Proof. unfold logged_in. by intros ->. Qed.

Lemma remove_entries_spec :
  triple (on (at_ d (λ dir, initial_file dir = initial_file log ∧ checkpoints_file dir = checkpoints_file log)))
    (remove_checkpoint_entries_for_files d (dom (initial_files xs)))
    (λ _, on (at_ d (λ dir, logged_in dir = Ret (migrate others) ∧ initial_file dir = initial_file log)))
    (on (at_ d (λ dir, halfway dir))).
Proof.
  set (P := λ dir, initial_file dir = initial_file log ∧ checkpoints_file dir = checkpoints_file log).
  assert (∀ dir, P dir → halfway dir) as HP.
  { intros dir [Hi Hc]. split; left; [by rewrite (initial_in_ext dir log)|by rewrite (logged_in_ext dir log)]. }
  unfold remove_checkpoint_entries_for_files. rewrite bool_decide_false.
  2:{ intros E. apply some_files. apply dom_empty_inv_L in E. exact E. }
  eapply triple_bind; [eapply triple_weaken; [apply (triple_reads _ (at_ d P) _ (reads_all_checkpoints d _))|done|done|]|intros cs].
  { intros s Hs. by eapply at_impl; [exact Hs|]. }
  intros s [Hs Hcs]. assert (cs = ct) as ->.
  { pose proof (at_dir _ _ _ Hs) as [_ Hc]. unfold logged in Hcs. rewrite (logged_in_ext _ log) in Hcs by done. congruence. }
  clear Hcs. revert s Hs. case_bool_decide as He.
  - apply triple_ret. intros s Hs. eapply at_impl; [exact Hs|]. intros dir [Hi Hc]. split; [|done].
    rewrite (logged_in_ext dir log), Hct by done. by rewrite He.
  - eapply triple_weaken.
    + apply (write_checkpoints_at d _ (checkpoints_file log) (λ dir, initial_file dir = initial_file log)). by intros.
    + intros s Hs. eapply at_impl; [exact Hs|]. by intros dir [].
    + intros ? s Hs. eapply at_impl; [exact Hs|]. intros dir [Hr Hi]. split; [by apply rendered_logged|done].
    + intros s Hs. eapply at_impl; [exact Hs|]. intros dir [[Hc|Hr] Hi]; [by apply HP|].
      split; [left; by rewrite (initial_in_ext dir log)|right; by apply rendered_logged].
Qed.

Lemma merge_replacing_spec :
  triple (on (at_ d (λ dir, logged_in dir = Ret (migrate others) ∧ initial_file dir = initial_file log)))
    (merge_initial_replacing_paths d xs) (λ _, on (at_ d merged_log)) (on (at_ d halfway)).
Proof.
  set (P := λ dir, logged_in dir = Ret (migrate others) ∧ initial_file dir = initial_file log).
  unfold merge_initial_replacing_paths. rewrite bool_decide_false by done.
  eapply triple_bind; [eapply triple_weaken; [apply (triple_reads _ (at_ d P) _ (reads_initial d))|done|done|]|intros x].
  { intros s Hs. eapply at_impl; [exact Hs|]. intros dir [Hl Hi]. split; [left; by rewrite (initial_in_ext dir log)|by right]. }
  intros s [Hs [Hx _]]. assert (x = xt) as ->.
  { pose proof (at_dir _ _ _ Hs) as [_ Hi]. unfold initially in Hx. rewrite (initial_in_ext _ log) in Hx by done. congruence. }
  clear Hx. revert s Hs. eapply triple_weaken.
  - apply (write_initial_at d _ (initial_file log) (λ dir, logged_in dir = Ret (migrate others))). by intros.
  - intros s Hs. eapply at_impl; [exact Hs|]. by intros dir [].
  - intros ? s Hs. eapply at_impl; [exact Hs|]. intros dir [Hw Hl]. split; [by apply written_initial|done].
  - intros s Hs. eapply at_impl; [exact Hs|]. intros dir [[Hi|Hw] Hl]; (split; [|by right]).
    + left. by rewrite (initial_in_ext dir log).
    + right. by apply written_initial.
Qed.

Lemma only_remove_entries d' files : only d' (remove_checkpoint_entries_for_files d' files).
Proof.
  unfold remove_checkpoint_entries_for_files. case_bool_decide; [apply only_ret|].
  apply only_bind; [eapply only_reads, reads_any_checkpoints|intros cs]. case_bool_decide; [apply only_ret|apply only_write_checkpoints].
Qed.
Lemma only_merge_replacing d' x : only d' (merge_initial_replacing_paths d' x).
Proof.
  unfold merge_initial_replacing_paths. case_bool_decide; [apply only_ret|].
  apply only_bind; [eapply only_reads, reads_initial|intros ?]. apply only_write_initial.
Qed.

Lemma restore_spec :
  triple (on (λ fs, dir_at fs d = log ∧ there sd slog true fs)) (restore_stash_attributions stash_sha head_sha)
    (λ _, on (λ fs, merged_log (dir_at fs d) ∧ there sd slog true fs))
    (on (λ fs, halfway (dir_at fs d) ∧ there sd slog true fs)).
Proof.
  unfold restore_stash_attributions.
  assert (halfway log) as Hlog by by split; left.
  assert (∀ s, on (λ fs, dir_at fs d = log ∧ there sd slog true fs) s → on (λ fs, halfway (dir_at fs d) ∧ there sd slog true fs) s) as Hstart
    by (intros s [Hd ?]; split; [by rewrite Hd|done]).
  eapply (triple_bind _ _ _ (λ b s, b = true ∧ on (λ fs, dir_at fs d = log ∧ there sd slog true fs) s)).
  { apply triple_seen_in. intros s (Hd & Hsd & Hb). split; [|done]. rewrite Hsd. apply bool_decide_eq_true, not_eq_None_Some.
    intros E. apply some_files. unfold initial_in in Hxs. rewrite E in Hxs. by injection Hxs as <-. }
  intros b s [-> Hs]. revert s Hs. cbn [negb].
  eapply triple_bind; [eapply triple_weaken; [apply (triple_reads _ (λ fs, dir_at fs d = log ∧ there sd slog true fs) _ (reads_initial sd))|done|done|exact Hstart]|intros x].
  intros s [[Hs Hsd] [Hx _]]. assert (x = xs) as ->.
  { destruct Hsd as [E _]. unfold initially in Hx. rewrite E in Hx. congruence. }
  assert (on (λ fs, dir_at fs d = log ∧ there sd slog true fs) s) as Hs' by done. clear Hs Hsd Hx. revert s Hs'.
  rewrite bool_decide_false by done.
  assert (∀ (A : Type) (m : StateResult.M Storage A) P Q E, keeps (on (there sd slog true)) m → triple (on P) m (λ a, on (Q a)) (on E) →
    (∀ fs, E fs → halfway (dir_at fs d)) →
    triple (on (λ fs, P fs ∧ there sd slog true fs)) m (λ a, on (λ fs, Q a fs ∧ there sd slog true fs))
      (on (λ fs, halfway (dir_at fs d) ∧ there sd slog true fs))) as Hframe.
  { intros A m P Q E Hk Ht HE. eapply triple_weaken; [apply (triple_frame _ _ _ _ _ Ht Hk)|done|done|].
    intros s [H1 H2]. split; [by apply HE|done]. }
  eapply (triple_bind _ _ _ (λ d' s, d' = d ∧ on (λ fs, at_ d (λ dir, dir = log) fs ∧ there sd slog true fs) s)).
  { eapply triple_weaken; [apply (triple_frame _ _ _ _ (on (there sd slog true)) (open_at head_sha (λ dir, dir = log)))| | |].
    - apply opens_log.
    - done.
    - by intros d' s [[-> H1] H2].
    - intros s [H1 H2]. unfold on in H1. split; [by rewrite H1|done]. }
  intros d' s [-> Hs].
  assert (on (λ fs, at_ d (λ dir, initial_file dir = initial_file log ∧ checkpoints_file dir = checkpoints_file log) fs ∧
    there sd slog true fs) s) as Hs'.
  { destruct Hs as [Hs ?]. split; [|done]. eapply at_impl; [exact Hs|]. by intros dir ->. }
  clear Hs. revert s Hs'.
  set (P0 := at_ d (λ dir, initial_file dir = initial_file log ∧ checkpoints_file dir = checkpoints_file log)).
  assert (∀ fs, at_ d halfway fs → halfway (dir_at fs d)) as Hhalf by (intros fs Hfs; by apply at_dir in Hfs).
  eapply (triple_bind _ _ _ (λ _, on (λ fs, P0 fs ∧ there sd slog true fs))).
  { apply (Hframe _ _ P0 (λ _, P0) P0); [by apply only_copy_initial|apply copy_initial_keeps_at; by split|].
    intros fs Hfs. apply at_dir in Hfs as [Hi Hc]. split; left; [by rewrite (initial_in_ext _ log)|by rewrite (logged_in_ext _ log)]. }
  intros ?. eapply triple_bind.
  { apply (Hframe _ _ P0 (λ _, at_ d _) _ (only_remove_entries d _ sd slog true ltac:(done)) remove_entries_spec Hhalf). }
  intros ?. eapply triple_weaken.
  - apply (Hframe _ _ (at_ d _) (λ _, at_ d _) _ (only_merge_replacing d _ sd slog true ltac:(done)) merge_replacing_spec Hhalf).
  - done.
  - intros ? s [Hs ?]. split; [by apply at_dir in Hs|done].
  - done.
Qed.
End Restore.
End Save.

(** *** Shifting *)

Section Shift.
Context `{engine : !DiffEngine}.

Lemma equal_lines_lookup m op p q :
  equal_lines m op !! p = Some q →
  (∃ x y, (x, y) ∈ Carryover.aligned [op] ∧ p = u32_wrap (Z.of_nat (x + 1)) ∧ q = u32_wrap (Z.of_nat (y + 1))) ∨ m !! p = Some q.
Proof.
  destruct op as [o n l|o ol n|o n nl|o ol n nl]; [|by right..]. cbn [equal_lines].
  assert (∀ ks (m' : gmap Z Z), (∀ k, k ∈ ks → k ∈ seq 0 l) →
    foldl (λ m i, <[u32_wrap (Z.of_nat (o + i + 1)) := u32_wrap (Z.of_nat (n + i + 1))]> m) m' ks !! p = Some q →
    (∃ x y, (x, y) ∈ Carryover.aligned [OpEqual o n l] ∧ p = u32_wrap (Z.of_nat (x + 1)) ∧ q = u32_wrap (Z.of_nat (y + 1))) ∨
    m' !! p = Some q) as H; [|by apply H].
  induction ks as [|k ks IH]; intros m' Hks; cbn [foldl]; [by right|].
  intros [H|H]%IH; [by left| |set_solver]. apply lookup_insert_Some in H as [[<- <-]|[_ H]]; [left|by right].
  exists (o + k), (n + k). split; [|done]. unfold Carryover.aligned. cbn [flat_map]. rewrite app_nil_r.
  apply list_elem_of_In, in_map_iff. exists k. split; [done|]. apply list_elem_of_In. set_solver.
Qed.

Lemma equal_line_map_lookup old new p q :
  equal_line_map old new !! p = Some q →
  ∃ x y, (x, y) ∈ Carryover.aligned (capture_diff_slices (lines old) (lines new)) ∧
    p = u32_wrap (Z.of_nat (x + 1)) ∧ q = u32_wrap (Z.of_nat (y + 1)).
Proof.
  unfold equal_line_map. generalize (capture_diff_slices (lines old) (lines new)) as ops. intros ops.
  enough (∀ m, foldl equal_lines m ops !! p = Some q →
    (∃ x y, (x, y) ∈ Carryover.aligned ops ∧ p = u32_wrap (Z.of_nat (x + 1)) ∧ q = u32_wrap (Z.of_nat (y + 1))) ∨ m !! p = Some q) as H.
  { intros Hp. by destruct (H ∅ Hp) as [?|[]%lookup_empty_Some]. }
  induction ops as [|op ops IH]; intros m; cbn [foldl]; [by right|]. change (op :: ops) with ([op] ++ ops).
  assert (Carryover.aligned ([op] ++ ops) = Carryover.aligned [op] ++ Carryover.aligned ops) as -> by apply flat_map_app.
  intros [(x & y & H & ?)|[(x & y & H & ?)|?]%equal_lines_lookup]%IH; [..|by right]; left; exists x, y; (split; [|done]);
    apply elem_of_app; auto.
Qed.

(** A line that is mapped has the text of its image. *)
Lemma equal_line_map_text old new p q :
  (Z.of_nat (length (lines old)) < u32_max)%Z → (Z.of_nat (length (lines new)) < u32_max)%Z →
  equal_line_map old new !! p = Some q →
  (1 <= p)%Z ∧ (1 <= q)%Z ∧ ∃ text, lines old !! Z.to_nat (p - 1) = Some text ∧ lines new !! Z.to_nat (q - 1) = Some text.
Proof.
  intros Ho Hn (x & y & Hin & -> & ->)%equal_line_map_lookup.
  pose proof (ImaraDiffFacts.hunks_loop_tile _ _ 0 0 _ (diff_slices_valid str _ (lines old) (lines new))) as Ht.
  apply CarryoverFacts.aligned_tile in Ht as [_ Ht]. destruct (Ht x y Hin) as (Hx & Hy & E).
  rewrite !u32_wrap_small by (unfold is_u32; lia). split; [lia|]. split; [lia|].
  replace (Z.to_nat (Z.of_nat (x + 1) - 1)) with x by lia. replace (Z.to_nat (Z.of_nat (y + 1) - 1)) with y by lia.
  destruct (lookup_lt_is_Some_2 (lines old) x) as [text Htext]; [lia|]. exists text. by rewrite <-E.
Qed.
End Shift.

End StashFacts.

(** ** An example *)

Module StashExample.
Import AuthorshipLog Attribution WorkingLog HashIter VirtualAttributions StateResult RepoStorage StorageRef StorageFacts StashLog StashRef StashFacts.
Import DiffCompute(result).

#[export] Instance StashMetadata_eq_dec : EqDecision StashMetadata.
Proof. solve_decision. Defined.

(** The file f, attributed in the INITIAL file of the log of t, is stashed. *)
Definition sample_specs : list str := [lit "f"].
Definition sample_metadata : StashMetadata := mkStashMetadata (lit "t") 0 sample_specs.
Definition sample_stash : StashEnvironment := {|
  metadata_to_json := StorageExample.encode [(lit "m", sample_metadata)];
  metadata_of_json := StorageExample.decode [(lit "m", sample_metadata)];
  reconstruct_stash_applied_contents _ _ _ := Ret ∅
|}.
Definition sample_env : Environment := StorageExample.environment_with StorageExample.initial_x 0 [].
Lemma sample_stats_answer : @StatsAnswer sample_env.
Proof. apply StorageExample.environment_with_seen. Qed.
Lemma sample_laws : @EnvironmentLaws sample_env.
Proof. apply StorageExample.environment_with_laws. Qed.

Definition sample_storage : Storage :=
  (write_initial (env := sample_env) (order := in_order) (log_dir (lit "t")) StorageExample.initial_x
    (persist_file_version (env := sample_env) (log_dir (lit "t")) (lit "x") (mkStorage ∅ 0)).1).1.
Definition sample_log : LogDir := dir_at (dirs sample_storage) (log_dir (lit "t")).

Definition created : Storage * result unit :=
  handle_stash_create (env := sample_env) (order := in_order) (stash := sample_stash) (lit "s") (lit "t") sample_specs sample_storage.
Definition sample_saved (dir : LogDir) : Prop := stash_saved (env := sample_env) (order := in_order) sample_specs sample_log dir.
Definition sample_left (dir : LogDir) : Prop := left_over (env := sample_env) (order := in_order) sample_specs sample_log dir.

Definition popped : Storage * result unit :=
  handle_stash_pop_or_apply_with_head (env := sample_env) (order := in_order) (stash := sample_stash)
    (engine := CoarseEngine.coarse_engine) (lit "s") true (Some (lit "t")) created.1.
Definition restored : Storage * result unit :=
  restore_stash_attributions (env := sample_env) (order := in_order) (lit "s") (lit "t") created.1.
Lemma ran {A B : Type} (p : A * B) (b : B) : p.2 = b → p = (p.1, b).
Proof. by intros <-; destruct p. Qed.
Definition sample_initial (s : Storage) : result InitialAttributions :=
  initial_in (env := sample_env) (order := in_order) (dir_at (dirs s) (log_dir (lit "t"))).
End StashExample.

(** ** Properties *)

Module StashProps.
Import AuthorshipLog ImaraDiff Attribution WorkingLog HashIter HashIterFacts VirtualAttributions StateResult StateResultFacts.
Import RepoStorage StorageRef StorageFacts StashLog StashRef StashFacts StashExample.
Import DiffCompute(result).

Section Properties.
Context `{env : Environment} `{order : HashOrder} `{laws : !EnvironmentLaws} `{stash : StashEnvironment} `{seen : !StatsAnswer}.
Variables (stash_sha head_sha : str).
Local Abbreviation d := (log_dir head_sha).
Local Abbreviation sd := (stash_dir stash_sha).

(** C28: making a stash puts the attributions away before it takes them out of
    the working log: whatever system call fails and reports it, the log is as it
    was, or the stash holds the attributions of the stashed paths with their
    contents. When it succeeds the stash holds them and the log keeps exactly
    the rest.  [exists] is assumed to see the logs, and the checkpoints to be no
    larger than 1 GiB: larger ones are set aside first. *)
Theorem stash_saves_before_cleaning (specs : list str) (s : Storage) :
  is_Some (dirs s !! d) → head_sha ≠ filtered_stash_working_log_base stash_sha →
  (N.of_nat (length (default [] (checkpoints_file (dir_at (dirs s) d)))) <= MAX_CHECKPOINTS_JSONL_BYTES)%N →
  let log := dir_at (dirs s) d in
  let '(s', r) := handle_stash_create stash_sha head_sha specs s in
  (dir_at (dirs s') d = log ∨ stash_saved specs log (dir_at (dirs s') sd)) ∧
  (r = Ret tt → stash_saved specs log (dir_at (dirs s') sd) ∧ left_over specs log (dir_at (dirs s') d)).
Proof.
  intros Hd Hne Hsize. cbv zeta. pose proof (create_spec stash_sha head_sha specs _ Hne Hsize s (conj eq_refl (λ _, Hd))) as H.
  destruct (handle_stash_create stash_sha head_sha specs s) as [s' [[]|e|]].
  - destruct H as [Hs Hl]. split; [by right|done].
  - split; [|done]. destruct H as [[H _]|H]; [by left|by right].
  - split; [|done]. destruct H as [[H _]|H]; [by left|by right].
Qed.

Lemma pop_spec (is_pop : bool) (slog log : LogDir) xs xt ct content metadata :
  initial_in slog = Ret xs → initial_files xs ≠ ∅ → initial_in log = Ret xt → logged_in log = Ret ct →
  metadata_json slog = Some content → PatchText.valid_utf8 content = true → metadata_of_json content = Ret metadata →
  base_commit metadata = head_sha → head_sha ≠ [] →
  ∀ `{engine : !DiffEngine},
  triple (on (λ fs, dir_at fs d = log ∧ there sd slog true fs)) (handle_stash_pop_or_apply_with_head stash_sha is_pop (Some head_sha))
    (λ _, on (λ fs, merged_log xs xt ct (dir_at fs d) ∧ (is_pop = false → dir_at fs sd = slog)))
    (on (λ fs, halfway xs xt ct (dir_at fs d) ∧ dir_at fs sd = slog)).
Proof.
  intros Hxs Hne Hxt Hct Hj Hu Hm Hb Hh engine. unfold handle_stash_pop_or_apply_with_head.
  set (P := λ fs, dir_at fs d = log ∧ there sd slog true fs). set (E := on (λ fs, halfway xs xt ct (dir_at fs d) ∧ dir_at fs sd = slog)).
  assert (∀ s, on P s → E s) as HE.
  { intros s [Hd [Hs _]]. split; [|done]. rewrite Hd. split; by left. }
  eapply (triple_bind _ _ _ (λ b s, b = true ∧ on P s)).
  { apply triple_seen_in. intros s Hs. split; [|done]. destruct Hs as [_ [-> _]]. by rewrite Hj. }
  intros b s [-> Hs]. revert s Hs. cbn [negb].
  eapply triple_bind; [eapply triple_weaken; [apply (keeps_io P)|done|done|exact HE]|intros ?].
  eapply (triple_bind _ _ _ (λ dir s, dir = slog ∧ on P s)).
  { apply triple_gets. intros s Hs. split; [|done]. by destruct Hs as [_ [Hs _]]. }
  intros dir s [-> Hs]. revert s Hs. rewrite Hj. cbn [default from_option Datatypes.id]. rewrite Hu, Hm.
  eapply (triple_bind _ _ _ (λ m s, m = metadata ∧ on P s)).
  { by apply triple_lift; [intros s m Hs [= <-]|]. }
  intros m s [-> Hs]. revert s Hs. rewrite bool_decide_false by done.
  assert (str_eqb (base_commit metadata) head_sha = true) as -> by by apply str_eqb_eq. cbn [negb].
  eapply triple_bind.
  - eapply triple_weaken; [apply (restore_spec stash_sha head_sha slog log xs xt ct); done|done|done|].
    intros s [H1 [H2 _]]. done.
  - intros ?. destruct is_pop.
    + intros s [H1 _]. assert (d ≠ sd) as Hd by done.
      pose proof (only_dir sd d (ignore (remove_dir_all sd)) (merged_log xs xt ct) (only_ignore sd _ (only_remove sd)) Hd s H1) as H.
      unfold ignore in *. destruct (remove_dir_all sd s) as [s' [[]|e|]] eqn:Er; try (split; [exact H|done]).
      exfalso. revert Er. unfold remove_dir_all. destruct (dirs s !! sd); [destruct (fault (calls s))|]; done.
    + apply triple_ret. by intros s [H1 [H2 _]].
Qed.

(** C38: popping or applying a stash on its own commit, when [exists] sees its
    files: when it succeeds the working log holds the INITIAL attributions of
    the stash before its own, and its checkpoints without the restored files; an
    apply leaves the stash. When a system call fails and reports it the stash is
    still there, and each file of the log is the old one or the new one. *)
Theorem pop_restores_or_keeps `{engine : !DiffEngine} (is_pop : bool) (s : Storage) xs xt ct content metadata :
  is_Some (dirs s !! sd) → initial_in (dir_at (dirs s) sd) = Ret xs → initial_files xs ≠ ∅ →
  initial_in (dir_at (dirs s) d) = Ret xt → logged_in (dir_at (dirs s) d) = Ret ct →
  metadata_json (dir_at (dirs s) sd) = Some content → PatchText.valid_utf8 content = true →
  metadata_of_json content = Ret metadata → base_commit metadata = head_sha → head_sha ≠ [] →
  let '(s', r) := handle_stash_pop_or_apply_with_head stash_sha is_pop (Some head_sha) s in
  match r with
  | Ret _ => merged_log xs xt ct (dir_at (dirs s') d) ∧ (is_pop = false → dir_at (dirs s') sd = dir_at (dirs s) sd)
  | _ => halfway xs xt ct (dir_at (dirs s') d) ∧ dir_at (dirs s') sd = dir_at (dirs s) sd
  end.
Proof.
  intros Hs Hxs Hne Hxt Hct Hj Hu Hm Hb Hh.
  pose proof (pop_spec is_pop _ _ xs xt ct content metadata Hxs Hne Hxt Hct Hj Hu Hm Hb Hh s (conj eq_refl (conj eq_refl (λ _, Hs)))) as H.
  by destruct (handle_stash_pop_or_apply_with_head stash_sha is_pop (Some head_sha) s) as [s' [[]|e|]].
Qed.
Lemma files_read_back x : initial_files (read_back x) = nonempty_files (initial_files x).
Proof. unfold read_back. by case_bool_decide. Qed.
Lemma nonempty_idemp files : nonempty_files (nonempty_files files) = nonempty_files files.
Proof. apply map_filter_id. intros path attrs H. by apply map_lookup_filter_Some in H as [_ H]. Qed.
Lemma nonempty_union files files' :
  nonempty_files (nonempty_files files ∪ nonempty_files files') = nonempty_files files ∪ nonempty_files files'.
Proof.
  apply map_filter_id. intros path attrs H.
  apply lookup_union_Some_raw in H as [H|[_ H]]; by apply map_lookup_filter_Some in H as [_ H].
Qed.

Lemma restore_without_initial s :
  initial_file (dir_at (dirs s) sd) = None → restore_stash_attributions stash_sha head_sha s = (tick s, Ret tt).
Proof.
  intros Hi. unfold dir_at in Hi. unfold restore_stash_attributions, exists_in, exists_, bind. by rewrite Hi, stats_answer.
Qed.

(** The INITIAL file of a stash, read. *)
Lemma saved_initial va dir :
  saved va dir → initial_files (to_initial_working_log_only va) ≠ ∅ →
  ∃ xs, initial_in dir = Ret xs ∧ initial_files xs = nonempty_files (initial_files (to_initial_working_log_only va)) ∧
    (initial_file dir = None ↔ initial_files xs = ∅).
Proof.
  intros [Hs|(bs & Hw & _)] Hne; [done|]. eexists. split; [by apply written_initial|]. rewrite files_read_back.
  change (initial_files (mkInitial ?a _ _ _ _)) with a. split; [apply nonempty_idemp|]. unfold written in Hw.
  case_bool_decide as E; [done|]. destruct Hw as (json & _ & ->). by split.
Qed.

Lemma left_over_readable specs log dir :
  left_over specs log dir →
  ∃ x ct, initial_in log = Ret x ∧ initial_in dir = Ret (read_back (retain_initial (kept specs) x)) ∧ logged_in dir = Ret ct.
Proof.
  intros [(x & Hx & Hw) (cs & _ & text & Ht & Hc)]. eexists x, _. split; [done|]. split; [by apply written_initial|].
  unfold logged_in. by rewrite Hc, (parse_written _ _ Ht).
Qed.

(** C39: making a stash and restoring it on the same commit brings every
    attribution back, when [exists] sees the files: the INITIAL file then has the lines of the stashed working
    state, and the lines it had for the paths that were not stashed. *)
Theorem stash_round_trip (specs : list str) (s s1 s2 : Storage) :
  is_Some (dirs s !! d) → head_sha ≠ filtered_stash_working_log_base stash_sha →
  (N.of_nat (length (default [] (checkpoints_file (dir_at (dirs s) d)))) <= MAX_CHECKPOINTS_JSONL_BYTES)%N →
  handle_stash_create stash_sha head_sha specs s = (s1, Ret tt) →
  restore_stash_attributions stash_sha head_sha s1 = (s2, Ret tt) →
  let log := dir_at (dirs s) d in
  ∃ part cs va x, stashed_part specs log part cs ∧ state_of part cs va ∧ initial_in log = Ret x ∧
    (initial_files (to_initial_working_log_only va) ≠ ∅ →
     ∃ y, initial_in (dir_at (dirs s2) d) = Ret y ∧
       initial_files y = nonempty_files (initial_files (to_initial_working_log_only va)) ∪
                         nonempty_files (retain_paths (kept specs) (initial_files x))).
Proof.
  intros Hd Hne Hsize Hcreate Hrestore. cbv zeta.
  pose proof (create_spec stash_sha head_sha specs _ Hne Hsize s (conj eq_refl (λ _, Hd))) as H. rewrite Hcreate in H.
  destruct H as [(part & cs & va & Hpart & Hva & Hsaved) Hleft].
  apply left_over_readable in Hleft as (x & ct & Hx & Hi & Hc). exists part, cs, va, x. do 3 (split; [done|]). intros Hfiles.
  destruct (saved_initial _ _ Hsaved Hfiles) as (xs & Hxs & Hfs & Hnone).
  assert (initial_files (read_back (retain_initial (kept specs) x)) = nonempty_files (retain_paths (kept specs) (initial_files x)))
    as Hkept by apply files_read_back.
  destruct (initial_file (dir_at (dirs s1) sd)) as [text|] eqn:Ei.
  - assert (initial_files xs ≠ ∅) as Hxne by by rewrite <-Hnone.
    assert (is_Some (dirs s1 !! sd)) as Hsd.
    { unfold dir_at in Ei. destruct (dirs s1 !! sd); [done|]. done. }
    pose proof (restore_spec stash_sha head_sha _ _ xs _ ct Hxs Hxne Hi Hc s1 (conj eq_refl (conj eq_refl (λ _, Hsd)))) as H.
    rewrite Hrestore in H. destruct H as [[H _] _]. eexists. split; [exact H|]. rewrite files_read_back.
    unfold replace_initial. cbn [initial_files]. rewrite Hkept, Hfs. apply nonempty_union.
  - rewrite restore_without_initial in Hrestore by done. injection Hrestore as <-. eexists. split; [exact Hi|].
    rewrite Hkept, <-Hfs, (proj1 Hnone eq_refl). by rewrite (left_id_L ∅ (∪)).
Qed.
End Properties.

(** restoring a stash on another commit moves an attribution so that its
    first and its last line have the text they had in the stash; of an
    attribution whose first or last line is gone nothing is kept. *)
Theorem shift_keeps_end_lines `{engine : !DiffEngine} (old new : str) (attrs shifted : list LineAttribution) :
  (Z.of_nat (length (lines old)) < u32_max)%Z → (Z.of_nat (length (lines new)) < u32_max)%Z →
  old ≠ new → shift_file old new attrs = Some shifted →
  shifted ≠ [] ∧ ∀ a', a' ∈ shifted → ∃ a, a ∈ attrs ∧ line_author_id a' = line_author_id a ∧ overrode a' = overrode a ∧
    (∃ text, lines old !! Z.to_nat (start_line a - 1) = Some text ∧ lines new !! Z.to_nat (start_line a' - 1) = Some text) ∧
    (∃ text, lines old !! Z.to_nat (end_line a - 1) = Some text ∧ lines new !! Z.to_nat (end_line a' - 1) = Some text).
Proof.
  intros Ho Hn Hne. unfold shift_file. case_bool_decide; [done|]. unfold str_eqb. rewrite bool_decide_false by done.
  case_bool_decide as Hs; [done|]. intros [= <-]. split; [done|]. intros a' (a & Ha & Hshift)%list_elem_of_omap. exists a. split; [done|].
  unfold shift_attr in Hshift. destruct (equal_line_map old new !! start_line a) as [p|] eqn:Hp; [|done].
  destruct (equal_line_map old new !! end_line a) as [q|] eqn:Hq; [|done]. injection Hshift as <-. do 2 (split; [done|]).
  apply equal_line_map_text in Hp as (_ & _ & Hp); [|done..]. by apply equal_line_map_text in Hq as (_ & _ & Hq).
Qed.

(** Between the two lines anything may be: when [x] was inserted into the
    lines [a] and [b] of one author, it is attributed to that author too. *)
Example stash_shift_widens :
  shift_attr (foldl equal_lines ∅ [OpEqual 0 0 1; OpInsert 1 1 1; OpEqual 1 2 1]) (mkLineAttr 1 2 (lit "ai") None) =
  Some (mkLineAttr 1 3 (lit "ai") None).
Proof. by vm_compute. Qed.

(** And when only the last of ten lines changed, none of them is attributed. *)
Example stash_shift_forgets :
  shift_attr (foldl equal_lines ∅ [OpEqual 0 0 9; OpReplace 9 1 9 1]) (mkLineAttr 1 10 (lit "ai") None) = None.
Proof. by vm_compute. Qed.

(** A stat that fails: the stash is made without the attributions, which are
    taken out of the working log all the same; and a stash whose INITIAL file is
    not seen when it is popped is gone with them. *)
Example failed_stat_loses_stash :
  let env hidden := StorageExample.environment_seeing StorageExample.initial_x 0 [] hidden in
  let created' := handle_stash_create (env := env [24]) (order := in_order) (stash := sample_stash) (lit "s") (lit "t") sample_specs
                    sample_storage in
  let popped' := handle_stash_pop_or_apply_with_head (env := env [102]) (order := in_order) (stash := sample_stash)
                   (engine := CoarseEngine.coarse_engine) (lit "s") true (Some (lit "t")) created.1 in
  let initial_of s d := initial_file (dir_at (dirs s) d) in
  initial_of sample_storage (log_dir (lit "t")) = Some (lit "i") ∧
  created'.2 = Ret tt ∧ initial_of created'.1 (log_dir (lit "t")) = None ∧ initial_of created'.1 (stash_dir (lit "s")) = None ∧
  popped'.2 = Ret tt ∧ initial_of popped'.1 (log_dir (lit "t")) = None ∧ dirs popped'.1 !! stash_dir (lit "s") = None.
Proof. by vm_compute. Qed.

(** *** Witnesses *)

Lemma stash_saves_before_cleaning_witness :
  sample_saved (dir_at (dirs created.1) (stash_dir (lit "s"))) ∧ sample_left (dir_at (dirs created.1) (log_dir (lit "t"))).
Proof.
  pose proof (stash_saves_before_cleaning (laws := sample_laws) (seen := sample_stats_answer) (order := in_order) (stash := sample_stash) (lit "s") (lit "t")
    sample_specs sample_storage ltac:(by vm_compute; eexists) ltac:(done) ltac:(by vm_compute)) as H.
  cbv zeta in H. fold created sample_log in H. assert (created.2 = Ret tt) as Hr by by vm_compute.
  destruct created as [s' r]. exact (proj2 H Hr).
Defined.

Lemma pop_restores_or_keeps_witness :
  ∃ xt ct, merged_log (env := sample_env) (order := in_order) StorageExample.initial_x xt ct
    (dir_at (dirs popped.1) (log_dir (lit "t"))).
Proof.
  eexists _, _.
  pose proof (pop_restores_or_keeps (laws := sample_laws) (seen := sample_stats_answer) (order := in_order) (stash := sample_stash) (lit "s") (lit "t")
    (engine := CoarseEngine.coarse_engine) true created.1 StorageExample.initial_x no_initial [] (lit "m") sample_metadata
    ltac:(by vm_compute; eexists) ltac:(by vm_compute) ltac:(by vm_compute) ltac:(by vm_compute) ltac:(by vm_compute)
    ltac:(by vm_compute) ltac:(by vm_compute) ltac:(by vm_compute) ltac:(done) ltac:(done)) as H.
  fold popped in H. assert (popped.2 = Ret tt) as Hr by by vm_compute.
  destruct popped as [s' r]. cbn in Hr. subst r. exact (proj1 H).
Defined.

Lemma stash_round_trip_witness :
  ∃ part cs va x, stashed_part (env := sample_env) (order := in_order) sample_specs sample_log part cs ∧
    state_of (env := sample_env) (order := in_order) part cs va ∧
    initial_in (env := sample_env) (order := in_order) sample_log = Ret x ∧
    (initial_files (to_initial_working_log_only va) ≠ ∅ →
     ∃ y, sample_initial restored.1 = Ret y ∧
       initial_files y = nonempty_files (initial_files (to_initial_working_log_only va)) ∪
                         nonempty_files (retain_paths (kept sample_specs) (initial_files x))).
Proof.
  refine (stash_round_trip (laws := sample_laws) (seen := sample_stats_answer) (order := in_order) (stash := sample_stash) (lit "s") (lit "t")
    sample_specs sample_storage created.1 restored.1 _ _ _ (ran created _ _) (ran restored _ _)).
  - vm_compute; by eexists.
  - done.
  - by vm_compute.
  - by vm_compute.
  - by vm_compute.
Defined.

Lemma shift_keeps_end_lines_witness :
  ∃ shifted, shift_file (engine := CoarseEngine.coarse_engine) (lit "a") (lit "a" ++ [LF]) [mkLineAttr 1 1 (lit "ai") None] = Some shifted ∧
    shifted ≠ [].
Proof.
  eexists. split; [by vm_compute|].
  refine (proj1 (shift_keeps_end_lines (engine := CoarseEngine.coarse_engine) (lit "a") (lit "a" ++ [LF])
    [mkLineAttr 1 1 (lit "ai") None] _ _ _ _ _)); by vm_compute.
Defined.

End StashProps.
