(* ===== verification/RecoverySources.v ===== *)
(** * What the recovery of attributions goes by

    The evidence of src/src/authorship/attribution_recovery.rs: the agents that
    a commit's message and author name, the recorded shell calls and session
    events near the times of a file, and which of them is the best. *)

From S2P Require Import Prelude Text LineRange AuthorshipLog HashIter CliParser Analyzers.

Local Open Scope N_scope.

(** ** Definitions *)

Module RecoverySources.
Import AuthorshipLog.
Import CliParser(strip_suffix, trim_end_chars).
Import Analyzers(to_ascii_lowercase).

(** ** Nanoseconds since the epoch: [u128] *)

Definition u128_max : N := 2 ^ 128 - 1.
Definition saturating_add (a b : N) : N := N.min u128_max (a + b).

Definition BASH_RECOVERY_WINDOW_NS : N := 3000000000.
Definition BASH_RECOVERY_COARSE_TIMESTAMP_NS : N := 1000000000.
Definition SESSION_EVENT_RECOVERY_WINDOW_NS : N := 3000000000.
Definition NS_PER_SECOND : N := 1000000000.

(** [sort_unstable] and [dedup] of times. *)
Definition sorted_times (timestamps : list N) : list N := dedup N.eqb (sort_by N.leb timestamps).

(** [Iterator::min_by]: the first of the least elements; [Iterator::min]. *)
Definition min_by {A : Type} (cmp : A → A → comparison) (l : list A) : option A :=
  match l with
  | [] => None
  | x :: l' => Some (foldl (λ x y, match cmp x y with Gt => y | _ => x end) x l')
  end.
Definition min_time (l : list N) : option N := min_by N.compare l.
Definition max_time (l : list N) : option N :=
  match l with [] => None | x :: l' => Some (foldl N.max x l') end.

(** [bool::cmp]. *)
Definition bool_compare (a b : bool) : comparison :=
  match a, b with
  | false, true => Lt
  | true, false => Gt
  | _, _ => Eq
  end.
Definition is_some {A : Type} (o : option A) : bool := match o with Some _ => true | None => false end.

(** ** Agents of a commit *)

Record CommitAgentKind := mkKind {
  key : str;
  tools : list str;
  emails : list str;
  marker_emails : list str;
  markers : list str
}.

Record CommitAgentDetection := mkDetection {
  kind : CommitAgentKind;
  source : str;
  marker : str
}.

Record CommitMetadata := mkCommit {
  message : str;
  author_name : str;
  author_email : str
}.

Definition kind_of (key : string) (tools emails marker_emails markers : list string) : CommitAgentKind :=
  mkKind (lit key) (map lit tools) (map lit emails) (map lit marker_emails) (map lit markers).

Definition KNOWN_COMMIT_AGENT_KINDS : list CommitAgentKind := [
  kind_of "codex" ["codex"; "codex-cloud"] ["codex@openai.com"] ["noreply@openai.com"] ["codex"];
  kind_of "claude" ["claude"; "claude-web"] [] ["noreply@anthropic.com"] ["claude"];
  kind_of "cursor" ["cursor"; "cursor-agent"] ["cursoragent@cursor.com"] [] ["cursor"];
  kind_of "github-copilot" ["github-copilot"; "github-copilot-cli"; "github-copilot-agent"; "copilot"]
    ["+copilot@users.noreply.github.com"] [] ["copilot"; "github copilot"];
  kind_of "devin" ["devin"] ["+devin-ai-integration[bot]@users.noreply.github.com"] [] ["devin"];
  kind_of "droid" ["droid"] ["+factory-droid[bot]@users.noreply.github.com"] [] ["droid"; "factory-droid"];
  kind_of "windsurf" ["windsurf"] ["noreply@windsurf.com"; "noreply@codeium.com"] [] ["windsurf"];
  kind_of "amp" ["amp"] [] [] ["ampcode"; "amp code"];
  kind_of "opencode" ["opencode"] [] [] ["opencode"; "open code"];
  kind_of "gemini" ["gemini"] [] [] ["gemini"];
  kind_of "continue-cli" ["continue-cli"] [] [] ["continue-cli"]
]%string.

Definition email_matches_pattern (email pattern : str) : bool :=
  let email_lower := to_ascii_lowercase (trim email) in
  let pattern_lower := to_ascii_lowercase pattern in
  if starts_with (lit "+") pattern_lower then ends_with pattern_lower email_lower else str_eqb email_lower pattern_lower.

(** [str::trim_matches] of an ASCII character. *)
Definition trim_matches (c : ascii) (s : str) : str := trim_end_chars (Ascii.eqb c) (drop_while (Ascii.eqb c) s).

Definition email_from_identity (identity : str) : option str :=
  try (_, rest) := find_byte "<"%char identity in
  try (email, _) := find_byte ">"%char rest in
  Some (trim email).

Definition detect_agent_from_email (email : str) : option CommitAgentKind :=
  let email := trim_matches ">"%char (trim_matches "<"%char (trim email)) in
  if bool_decide (email = []) then None
  else List.find (λ kind, existsb (email_matches_pattern email) (emails kind)) KNOWN_COMMIT_AGENT_KINDS.

Definition is_ascii_alphanumeric (c : ascii) : bool :=
  let n := N_of_ascii c in
  ((48 <=? n) && (n <=? 57)) || ((65 <=? n) && (n <=? 90)) || ((97 <=? n) && (n <=? 122)).
(** No letter or digit on that side. *)
Definition is_word_boundary (c : option ascii) : bool := match c with Some c => negb (is_ascii_alphanumeric c) | None => true end.

(** The search after the byte [before]; every turn consumes the marker. *)
Fixpoint marker_loop (fuel : nat) (marker : str) (before : option ascii) (s : str) : bool :=
  match fuel with
  | O => false
  | S fuel' =>
      match split_once marker s with
      | None => false
      | Some (prefix, rest) =>
          let before := match last prefix with Some c => Some c | None => before end in
          if is_word_boundary before && is_word_boundary (head rest) then true else marker_loop fuel' marker (last marker) rest
      end
  end.
Definition contains_identity_marker (identity_lower marker : str) : bool :=
  marker_loop (S (length identity_lower)) (to_ascii_lowercase marker) None identity_lower.

Definition kind_named_by (lower : str) (email : option str) (kind : CommitAgentKind) : bool :=
  existsb (contains_identity_marker lower) (markers kind) &&
  match email with
  | Some email => existsb (email_matches_pattern email) (marker_emails kind)
  | None => true
  end.

Definition detect_agent_from_identity (identity : str) : option CommitAgentKind :=
  let lower := to_ascii_lowercase identity in
  let email := email_from_identity identity in
  match (try email := email in detect_agent_from_email email) with
  | Some kind => Some kind
  | None => List.find (kind_named_by lower email) KNOWN_COMMIT_AGENT_KINDS
  end.

(** [expect]: the keys that are asked for are known. *)
Definition commit_agent_kind_by_key (k : string) : CommitAgentKind :=
  default (kind_of k [] [] [] []) (List.find (λ kind, str_eqb (key kind) (lit k)) KNOWN_COMMIT_AGENT_KINDS).

Definition push_commit_agent_detection (detections : list CommitAgentDetection) (k : CommitAgentKind) (source : string) (marker : str) :
    list CommitAgentDetection :=
  if existsb (λ d, str_eqb (key (kind d)) (key k)) detections then detections
  else detections ++ [mkDetection k (lit source) marker].

(** One line of the message. *)
Definition detect_in_line (detections : list CommitAgentDetection) (line : str) : list CommitAgentDetection :=
  let trimmed := trim line in
  let lower := to_ascii_lowercase trimmed in
  let trailers :=
    if starts_with (lit "claude-session:") lower
    then push_commit_agent_detection detections (commit_agent_kind_by_key "claude") "session_trailer" trimmed
    else if starts_with (lit "codex-session:") lower
    then push_commit_agent_detection detections (commit_agent_kind_by_key "codex") "session_trailer" trimmed
    else if starts_with (lit "cursor-session:") lower
    then push_commit_agent_detection detections (commit_agent_kind_by_key "cursor") "session_trailer" trimmed
    else detections in
  match split_once (lit ":") trimmed with
  | Some (name, value) =>
      if str_eqb (to_ascii_lowercase (trim name)) (lit "co-authored-by") then
        match detect_agent_from_identity value with
        | Some kind => push_commit_agent_detection detections kind "co_authored_by" (trim value)
        | None => detections
        end
      else trailers
  | None => trailers
  end.

Definition detect_commit_metadata_agents (metadata : CommitMetadata) : list CommitAgentDetection :=
  let detections := foldl detect_in_line [] (lines (message metadata)) in
  let author_identity := author_name metadata ++ lit " <" ++ author_email metadata ++ lit ">" in
  match detect_agent_from_identity author_identity with
  | Some kind => push_commit_agent_detection detections kind "author_identity" author_identity
  | None => detections
  end.

Definition agent_kind_matches_tool (kind : CommitAgentKind) (tool : str) : bool :=
  existsb (λ candidate, str_eqb (to_ascii_lowercase candidate) (to_ascii_lowercase tool)) (tools kind).
(** ** Shell calls *)

Record BashCheckpointCall := mkCall {
  call_id : Z;
  invocation_key : str;
  original_cwd : str;
  repo_work_dir : option str;
  repo_discovery_error : option str;
  call_session_id : str;
  tool_use_id : str;
  call_agent_id : AgentId;
  start_trace_id : option str;
  end_trace_id : option str;
  start_time_ns : N;
  end_time_ns : option N;
  command : option str;
  call_metadata : gmap str str
}.

Definition distance_to_call_window (timestamp_ns : N) (call : BashCheckpointCall) : N :=
  let start := start_time_ns call in
  let end_ := default start (end_time_ns call) in
  if timestamp_ns <? start then start - timestamp_ns
  else if end_ <? timestamp_ns then timestamp_ns - end_
  else 0.

Definition recovery_distance_to_call_window (timestamp_ns : N) (call : BashCheckpointCall) : option N :=
  let start := start_time_ns call in
  let end_ := default (saturating_add start BASH_RECOVERY_WINDOW_NS) (end_time_ns call) in
  if end_ <? timestamp_ns then None
  else if (timestamp_ns <? start) &&
          ((BASH_RECOVERY_COARSE_TIMESTAMP_NS <=? start - timestamp_ns) ||
           negb (timestamp_ns mod BASH_RECOVERY_COARSE_TIMESTAMP_NS =? 0))
  then None
  else Some (distance_to_call_window timestamp_ns call).

Inductive BashCandidateTier := ExistingCommitSession | SameWorktree.
Definition bash_tier_score (tier : BashCandidateTier) : N := match tier with ExistingCommitSession => 0 | SameWorktree => 1 end.

Record BashCandidateSelection := mkBashSelection {
  bash_candidate : BashCheckpointCall;
  bash_distance_ns : N;
  bash_tier : BashCandidateTier
}.

(** Existing sessions first, then the nearest call, then finished ones, then
    those with a command, then the latest. *)
Definition compare_bash_selections (left right : BashCandidateSelection) : comparison :=
  then_with (N.compare (bash_tier_score (bash_tier left)) (bash_tier_score (bash_tier right)))
    (then_with (N.compare (bash_distance_ns left) (bash_distance_ns right))
      (then_with (bool_compare (is_some (end_time_ns (bash_candidate right))) (is_some (end_time_ns (bash_candidate left))))
        (then_with (bool_compare (is_some (command (bash_candidate right))) (is_some (command (bash_candidate left))))
          (Z.compare (call_id (bash_candidate right)) (call_id (bash_candidate left)))))).

Section Hash.
Variable sha256_hex : str → str.

Definition bash_candidate_session_id (candidate : BashCheckpointCall) : str :=
  generate_session_id sha256_hex (agent_id_id (call_agent_id candidate)) (tool (call_agent_id candidate)).

Definition bash_candidate_tier (candidate : BashCheckpointCall) (existing_commit_sessions : gset str) (target_repo_work_dir : str) :
    option BashCandidateTier :=
  if str_eqb (tool (call_agent_id candidate)) (lit "zcode") &&
     (negb (is_some (end_time_ns candidate)) ||
      negb (bool_decide (call_metadata candidate !! lit "tool_outcome" = Some (lit "succeeded"))))
  then None
  else if negb (bool_decide (repo_work_dir candidate = Some target_repo_work_dir)) then None
  else if bool_decide (bash_candidate_session_id candidate ∈ existing_commit_sessions) then Some ExistingCommitSession
  else Some SameWorktree.

Definition bash_selection (existing_commit_sessions : gset str) (target_repo_work_dir : str) (timestamps : list N)
    (candidate : BashCheckpointCall) : option BashCandidateSelection :=
  if str_eqb (tool (call_agent_id candidate)) (lit "zcode") then None
  else
    try tier := bash_candidate_tier candidate existing_commit_sessions target_repo_work_dir in
    try distance := min_time (omap (λ ts, recovery_distance_to_call_window ts candidate) timestamps) in
    Some (mkBashSelection candidate distance tier).

Definition select_best_bash_candidate (candidates : list BashCheckpointCall) (timestamps : list N)
    (existing_commit_sessions : gset str) (target_repo_work_dir : str) : option BashCandidateSelection :=
  min_by compare_bash_selections (omap (bash_selection existing_commit_sessions target_repo_work_dir timestamps) candidates).
End Hash.

(** ** Session events *)

Record SessionEventRecoveryCandidate := mkEvent {
  row_id : Z;
  event_ts : N;
  session_id : str;
  event_trace_id : option str;
  event_tool : str;
  event_model : option str;
  external_session_id : str;
  external_tool_use_id : option str;
  repo_url : option str
}.

Definition session_event_model (candidate : SessionEventRecoveryCandidate) : str :=
  match event_model candidate with
  | Some model => if bool_decide (model = []) then lit "unknown" else model
  | None => lit "unknown"
  end.

Definition distance_to_event_second (timestamp_ns event_ts : N) : N :=
  let start_ns := event_ts * NS_PER_SECOND in
  let end_ns := saturating_add start_ns (NS_PER_SECOND - 1) in
  if timestamp_ns <? start_ns then start_ns - timestamp_ns else timestamp_ns - end_ns.

Definition session_event_distance (candidate : SessionEventRecoveryCandidate) (timestamps : list N) : option N :=
  min_time (map (λ ts, distance_to_event_second ts (event_ts candidate)) timestamps).

Record SessionEventCandidateSelection := mkEventSelection {
  event_candidate : SessionEventRecoveryCandidate;
  event_distance_ns : N
}.

(** The only tier is the same repository. *)
Definition session_event_candidate_tier (candidate : SessionEventRecoveryCandidate) (target_repo_url : str) : option N :=
  if bool_decide (repo_url candidate = Some target_repo_url) then Some 0 else None.

Definition compare_event_selections (left right : SessionEventCandidateSelection * N) : comparison :=
  then_with (N.compare left.2 right.2)
    (then_with (N.compare (event_distance_ns left.1) (event_distance_ns right.1))
      (Z.compare (row_id (event_candidate right.1)) (row_id (event_candidate left.1)))).

Definition near_event (timestamps : list N) (candidate : SessionEventRecoveryCandidate) : option SessionEventCandidateSelection :=
  if str_eqb (event_tool candidate) (lit "zcode") then None
  else
    try distance_ns := session_event_distance candidate timestamps in
    if SESSION_EVENT_RECOVERY_WINDOW_NS <? distance_ns then None else Some (mkEventSelection candidate distance_ns).

Definition select_best_session_event_candidate (candidates : list SessionEventRecoveryCandidate) (timestamps : list N)
    (target_repo_url : str) : option SessionEventCandidateSelection :=
  match omap (near_event timestamps) candidates with
  | [] => None
  | matching_candidates =>
      fst <$> min_by compare_event_selections
        (omap (λ sel, try tier := session_event_candidate_tier (event_candidate sel) target_repo_url in Some (sel, tier)) matching_candidates)
  end.

(** ** Sessions for an agent named by the commit *)

Record CommitMetadataSessionSelection := mkSelection {
  sel_session_id : str;
  sel_agent_id : AgentId;
  sel_tier : str;
  metric_row_id : option Z;
  sel_distance_ns : option N;
  sel_event_ts : option N;
  sel_repo_url : option str;
  sel_external_tool_use_id : option str
}.

Inductive CommitMetadataMetricRepoTier := SameRepoUrl | UnknownRepoUrl.
Definition repo_tier_score (tier : CommitMetadataMetricRepoTier) : N := match tier with SameRepoUrl => 0 | UnknownRepoUrl => 1 end.

Definition commit_metadata_metric_repo_tier (candidate : SessionEventRecoveryCandidate) (target_repo_url : option str) :
    option CommitMetadataMetricRepoTier :=
  match target_repo_url, repo_url candidate with
  | Some target, Some candidate_url => if str_eqb candidate_url target then Some SameRepoUrl else None
  | _, _ => Some UnknownRepoUrl
  end.

Definition commit_metadata_selection_from_metric_candidate (candidate : SessionEventRecoveryCandidate) (tier : string)
    (distance_ns : option N) : CommitMetadataSessionSelection :=
  mkSelection (session_id candidate)
    (mkAgentId (event_tool candidate) (external_session_id candidate) (session_event_model candidate))
    (lit tier) (Some (row_id candidate)) distance_ns (Some (event_ts candidate)) (repo_url candidate) (external_tool_use_id candidate).

(** The first detection whose agent has the tool. *)
Fixpoint detection_index (index : N) (detections : list CommitAgentDetection) (tool : str) : option N :=
  match detections with
  | [] => None
  | d :: detections' => if agent_kind_matches_tool (kind d) tool then Some index else detection_index (index + 1) detections' tool
  end.

(** *** Near a time *)

Record Nearest := mkNearest {
  n_detection_index : N;
  n_repo_tier : CommitMetadataMetricRepoTier;
  n_distance_ns : N;
  n_row_id : Z;
  n_selection : CommitMetadataSessionSelection
}.

Definition nearer (a best : Nearest) : bool :=
  (n_detection_index a <? n_detection_index best) ||
  ((n_detection_index a =? n_detection_index best) &&
   ((repo_tier_score (n_repo_tier a) <? repo_tier_score (n_repo_tier best)) ||
    ((repo_tier_score (n_repo_tier a) =? repo_tier_score (n_repo_tier best)) &&
     ((n_distance_ns a <? n_distance_ns best) ||
      ((n_distance_ns a =? n_distance_ns best) && (n_row_id best <? n_row_id a)%Z))))).

Definition nearest_of (detections : list CommitAgentDetection) (latest_timestamps : list N) (target_repo_url : option str)
    (candidate : SessionEventRecoveryCandidate) : option Nearest :=
  try index := detection_index 0 detections (event_tool candidate) in
  try distance_ns := session_event_distance candidate latest_timestamps in
  if SESSION_EVENT_RECOVERY_WINDOW_NS <? distance_ns then None
  else
    try repo_tier := commit_metadata_metric_repo_tier candidate target_repo_url in
    Some (mkNearest index repo_tier distance_ns (row_id candidate)
            (commit_metadata_selection_from_metric_candidate candidate "nearest_file_timestamp" (Some distance_ns))).

(** [best.is_none_or(...)] over the candidates in order. *)
Definition best_of {A : Type} (better : A → A → bool) (l : list A) : option A :=
  foldl (λ best a, match best with
                   | Some b => if better a b then Some a else best
                   | None => Some a
                   end) None l.

Definition nearest_metric_session (detections : list CommitAgentDetection) (latest_timestamps : list N) (target_repo_url : option str)
    (candidates : list SessionEventRecoveryCandidate) : option CommitMetadataSessionSelection :=
  n_selection <$> best_of nearer (omap (nearest_of detections latest_timestamps target_repo_url) candidates).

(** *** The latest *)

Definition compare_latest (left right : SessionEventRecoveryCandidate * CommitMetadataMetricRepoTier) : comparison :=
  then_with (N.compare (repo_tier_score left.2) (repo_tier_score right.2))
    (then_with (N.compare (event_ts right.1) (event_ts left.1)) (Z.compare (row_id right.1) (row_id left.1))).

Definition latest_metric_candidate (target_repo_url : option str) (candidates : list SessionEventRecoveryCandidate) :
    option SessionEventRecoveryCandidate :=
  fst <$> min_by compare_latest
    (omap (λ c, try tier := commit_metadata_metric_repo_tier c target_repo_url in Some (c, tier)) candidates).
End RecoverySources.

(** ** Lemmas *)

Module RecoverySourcesFacts.
Import AuthorshipLog HashIterFacts RecoverySources.
Import Analyzers(to_ascii_lowercase).

(** *** Choices *)

Lemma min_by_in {A : Type} (cmp : A → A → comparison) l x : min_by cmp l = Some x → x ∈ l.
Proof.
  destruct l as [|y l]; [done|]. cbn [min_by]. intros [= <-]. revert y. induction l as [|z l IH]; intros y; cbn [foldl]; [by left|].
  specialize (IH (match cmp y z with Gt => z | _ => y end)). rewrite !elem_of_cons in *. destruct (cmp y z); tauto.
Qed.

Lemma min_time_in l x : min_time l = Some x → x ∈ l.
Proof. apply min_by_in. Qed.

Lemma bash_selection_sound sha sessions worktree timestamps call sel :
  bash_selection sha sessions worktree timestamps call = Some sel →
  bash_candidate sel = call ∧ tool (call_agent_id call) ≠ lit "zcode" ∧ repo_work_dir call = Some worktree ∧
  ∃ ts, ts ∈ timestamps ∧ recovery_distance_to_call_window ts call = Some (bash_distance_ns sel).
Proof.
  unfold bash_selection. destruct (str_eqb _ _) eqn:Hz; [done|].
  destruct (bash_candidate_tier _ _ _ _) as [tier|] eqn:Ht; [|done]. cbn [mbind option_bind].
  destruct (min_time _) as [d|] eqn:Hd; [|done]. cbn [mbind option_bind]. intros [= <-]. split; [done|].
  split; [intros E; rewrite E in Hz; by rewrite str_eqb_refl in Hz|]. split.
  - unfold bash_candidate_tier in Ht. destruct (_ && _); [done|]. by destruct (negb (bool_decide _)) eqn:E; [|apply negb_false_iff, bool_decide_eq_true in E].
  - by apply min_time_in, list_elem_of_omap in Hd.
Qed.

Lemma best_bash_sound sha candidates timestamps sessions worktree sel :
  select_best_bash_candidate sha candidates timestamps sessions worktree = Some sel →
  bash_candidate sel ∈ candidates ∧ tool (call_agent_id (bash_candidate sel)) ≠ lit "zcode" ∧
  repo_work_dir (bash_candidate sel) = Some worktree ∧
  ∃ ts, ts ∈ timestamps ∧ recovery_distance_to_call_window ts (bash_candidate sel) = Some (bash_distance_ns sel).
Proof.
  intros (call & Hin & Hsel)%min_by_in%list_elem_of_omap. apply bash_selection_sound in Hsel as (-> & ?). done.
Qed.

(** *** Orders *)

(** A comparison that is one: antisymmetric, and equal elements compare alike. *)
Definition ordering {A : Type} (cmp : A → A → comparison) : Prop :=
  (∀ x y, cmp y x = CompOpp (cmp x y)) ∧ (∀ x y z, cmp x y = Eq → cmp x z = cmp y z) ∧ (∀ x y z, cmp x y = Lt → cmp y z = Lt → cmp x z = Lt).

Lemma ordering_comap {A B : Type} (f : A → B) cmp : ordering cmp → ordering (λ x y, cmp (f x) (f y)).
Proof. intros (Ha & He & Hl). split; [|split]; intros *; [apply Ha|apply He|apply Hl]. Qed.
Lemma ordering_flip {A : Type} (cmp : A → A → comparison) : ordering cmp → ordering (λ x y, cmp y x).
Proof.
  intros (Ha & He & Hl). split; [intros; apply Ha|]. split.
  - intros x y z Hxy. rewrite (Ha x z), (Ha y z). f_equal. symmetry. by apply He.
  - intros x y z Hxy Hyz. by apply (Hl z y x).
Qed.
Lemma ordering_then {A : Type} (c d : A → A → comparison) : ordering c → ordering d → ordering (λ x y, then_with (c x y) (d x y)).
Proof.
  intros (Ca & Ce & Cl) (Da & De & Dl). split; [|split].
  - intros x y. rewrite Ca, Da. by destruct (c x y).
  - intros x y z. destruct (c x y) eqn:Hxy; cbn [then_with]; [|done..]. intros Hd. by rewrite (Ce x y z Hxy), (De x y z Hd).
  - intros x y z. destruct (c x y) eqn:Hxy, (c y z) eqn:Hyz; cbn [then_with]; try done.
    + intros H1 H2. rewrite (Ce x y z Hxy), Hyz. cbn. by eapply Dl.
    + intros _ _. by rewrite (Ce x y z Hxy), Hyz.
    + intros _ _. assert (c x z = Lt) as ->; [|done]. pose proof (Ce y z x Hyz) as E. rewrite (Ca x y), (Ca x z), Hxy in E.
      by destruct (c x z).
    + intros _ _. by rewrite (Cl x y z Hxy Hyz).
Qed.

Lemma ordering_N : ordering N.compare.
Proof.
  split; [intros; by rewrite N.compare_antisym|]. split; [by intros x y z ->%N.compare_eq|]. intros x y z. rewrite !N.compare_lt_iff. lia.
Qed.
Lemma ordering_Z : ordering Z.compare.
Proof.
  split; [intros; by rewrite Z.compare_antisym|]. split; [by intros x y z ->%Z.compare_eq|]. intros x y z. rewrite !Z.compare_lt_iff. lia.
Qed.
Lemma ordering_bool : ordering bool_compare.
Proof. split; [by intros [] []|]. split; by intros [] [] []. Qed.

Lemma min_by_least {A : Type} (cmp : A → A → comparison) l x y : ordering cmp → min_by cmp l = Some x → y ∈ l → cmp x y ≠ Gt.
Proof.
  intros (Ha & He & Hl). assert (∀ x y z, cmp x y ≠ Gt → cmp y z ≠ Gt → cmp x z ≠ Gt) as Htrans.
  { intros a b c Hab Hbc. destruct (cmp a b) eqn:E1; [by rewrite (He a b c E1)| |done]. destruct (cmp b c) eqn:E2; [| |done].
    - assert (cmp c b = Eq) as E3 by by rewrite Ha, E2. rewrite (Ha c a), (He c b a E3), (Ha a b), E1. done.
    - by rewrite (Hl a b c E1 E2). }
  assert (∀ x, cmp x x ≠ Gt) as Hrefl by (intros a Ea; pose proof (Ha a a) as H; by rewrite Ea in H).
  destruct l as [|z l]; [done|]. cbn [min_by]. intros [= <-]. revert z y. induction l as [|w l IH]; intros z y.
  - rewrite list_elem_of_singleton. intros ->. apply Hrefl.
  - cbn [foldl]. set (m := match cmp z w with Gt => w | _ => z end). assert (cmp m z ≠ Gt ∧ cmp m w ≠ Gt) as [Hz Hw].
    { unfold m. destruct (cmp z w) eqn:E; rewrite ?E; (split; [|by rewrite ?E]) || split; try apply Hrefl. by rewrite Ha, E. }
    rewrite !elem_of_cons. intros [->|[->|Hy]].
    + eapply Htrans; [apply IH; left|done].
    + eapply Htrans; [apply IH; left|done].
    + apply IH. by right.
Qed.

Lemma bash_ordering : ordering compare_bash_selections.
Proof.
  unfold compare_bash_selections.
  apply ordering_then; [apply (ordering_comap (λ s, bash_tier_score (bash_tier s))), ordering_N|].
  apply ordering_then; [apply (ordering_comap bash_distance_ns), ordering_N|].
  apply ordering_then; [apply (ordering_flip (λ x y, bool_compare (is_some (end_time_ns (bash_candidate x))) (is_some (end_time_ns (bash_candidate y)))));
    apply (ordering_comap (λ s, is_some (end_time_ns (bash_candidate s)))), ordering_bool|].
  apply ordering_then; [apply (ordering_flip (λ x y, bool_compare (is_some (command (bash_candidate x))) (is_some (command (bash_candidate y)))));
    apply (ordering_comap (λ s, is_some (command (bash_candidate s)))), ordering_bool|].
  apply (ordering_flip (λ x y, Z.compare (call_id (bash_candidate x)) (call_id (bash_candidate y)))).
  apply (ordering_comap (λ s, call_id (bash_candidate s))), ordering_Z.
Qed.
(** *** Markers *)

Lemma split_once_spec p s :
  match split_once p s with
  | Some (a, b) => s = a ++ p ++ b ∧ ∀ pre post, s = pre ++ p ++ post → (length a <= length pre)%nat
  | None => ∀ pre post, s ≠ pre ++ p ++ post
  end.
Proof.
  induction s as [|c s IH]; cbn [split_once].
  - destruct (strip_prefix p []) as [rest|] eqn:E; [apply strip_prefix_spec in E; split; [done|]; intros; cbn; lia|].
    intros pre post Hs. symmetry in Hs. apply app_eq_nil in Hs as [_ [-> _]%app_eq_nil]. done.
  - destruct (strip_prefix p (c :: s)) as [rest|] eqn:E; [apply strip_prefix_spec in E; split; [done|]; intros; cbn; lia|].
    assert (∀ post, c :: s ≠ p ++ post) as Hno.
    { intros post Hs. rewrite Hs in E. by rewrite (proj2 (strip_prefix_spec p (p ++ post) post) eq_refl) in E. }
    destruct (split_once p s) as [[a b]|].
    + destruct IH as [-> Hmin]. split; [done|]. intros [|d pre] post Hs; [by destruct (Hno post)|]. injection Hs as -> Hs. cbn.
      apply le_n_S. by eapply Hmin.
    + intros [|d pre] post Hs; [by destruct (Hno post)|]. injection Hs as -> Hs. by eapply IH.
Qed.

(** Where a marker begins again inside itself it is within a word. *)
Definition no_overlap (m : str) : Prop :=
  ∀ k, (0 < k < length m)%nat → drop k m = take (length m - k) m → is_word_boundary (last (take k m)) = false.

Lemma no_overlap_apart m a b pre post :
  no_overlap m → a ++ m ++ b = pre ++ m ++ post → (length a < length pre)%nat → is_word_boundary (last pre) = true → ∃ pre', pre = a ++ m ++ pre' ∧ b = pre' ++ m ++ post.
Proof.
  intros Hm Hs Hlt Hb. assert (∃ x, pre = a ++ x) as [x ->].
  { exists (drop (length a) pre). rewrite <-(take_drop (length a) pre) at 1. f_equal.
    pose proof (f_equal (take (length a)) Hs) as H. rewrite take_app_length, take_app_le in H by lia. done. }
  rewrite <-app_assoc in Hs. apply app_inv_head in Hs. rewrite length_app in Hlt.
  destruct (decide (length m <= length x)%nat) as [Hx|Hx].
  - exists (drop (length m) x). pose proof (f_equal (take (length m)) Hs) as H. rewrite take_app_length, take_app_le in H by lia.
    pose proof (f_equal (drop (length m)) Hs) as H'. rewrite drop_app_length, drop_app_le in H' by lia. split; [|done].
    rewrite H at 1. by rewrite take_drop.
  - exfalso. assert (x = take (length x) m) as Hxm.
    { pose proof (f_equal (take (length x)) Hs) as H. by rewrite take_app_length, take_app_le in H by lia. }
    assert (is_word_boundary (last (take (length x) m)) = false) as Hf; [|].
    2:{ rewrite <-Hxm in Hf. rewrite last_app in Hb. destruct (last x) eqn:E; [congruence|]. apply last_None in E. subst x. cbn in Hlt. lia. }
    apply (Hm (length x)); [lia|]. pose proof (f_equal (drop (length x)) Hs) as H.
    rewrite drop_app_length, drop_app_le in H by lia. pose proof (f_equal (take (length m - length x)) H) as H'.
    rewrite take_app_le in H' by (rewrite length_drop; lia). rewrite take_app_le in H' by lia.
    rewrite <-H', take_ge; [done|]. rewrite length_drop. lia.
Qed.

(** The byte before a place, after [before]. *)
Definition byte_before (before : option ascii) (pre : str) : option ascii := match last pre with Some c => Some c | None => before end.

Lemma byte_before_marker before a m pre : m ≠ [] → byte_before before (a ++ m ++ pre) = byte_before (last m) pre.
Proof.
  intros Hm. unfold byte_before. rewrite !last_app. destruct (last pre); [done|]. destruct (last m) eqn:E; [done|].
  by apply last_None in E.
Qed.

Lemma marker_loop_spec fuel m before s :
  m ≠ [] → no_overlap m → (length s < fuel)%nat →
  marker_loop fuel m before s = true ↔
  ∃ pre post, s = pre ++ m ++ post ∧ is_word_boundary (byte_before before pre) = true ∧ is_word_boundary (head post) = true.
Proof.
  intros Hne Hm. revert before s. induction fuel as [|fuel IH]; intros before s Hfuel; [lia|]. cbn [marker_loop].
  pose proof (split_once_spec m s) as Hs. destruct (split_once m s) as [[a b]|].
  2:{ split; [done|]. intros (pre & post & E & _). by destruct (Hs pre post). }
  destruct Hs as [-> Hmin]. assert (0 < length m)%nat as Hlen by (destruct m; [done|cbn; lia]).
  rewrite !length_app in Hfuel. fold (byte_before before a).
  destruct (is_word_boundary (byte_before before a) && is_word_boundary (head b)) eqn:Hb.
  { split; [|done]. intros _. apply andb_prop in Hb as [? ?]. by exists a, b. }
  rewrite IH by lia. split.
  - intros (pre & post & -> & H1 & H2). exists (a ++ m ++ pre), post. rewrite byte_before_marker by done. by rewrite <-!app_assoc.
  - intros (pre & post & E & H1 & H2). pose proof (Hmin pre post E) as Hle.
    destruct (decide (length a = length pre)) as [Hl|Hl].
    + exfalso. apply app_inj_1 in E as [-> E]; [|done]. apply app_inv_head in E as ->. by rewrite H1, H2 in Hb.
    + assert (byte_before before pre = last pre) as Hlast.
      { unfold byte_before. destruct (last pre) eqn:El; [done|]. apply last_None in El. subst pre. cbn in *. lia. }
      apply no_overlap_apart in E as (pre' & -> & ->); [|done|lia|by rewrite <-Hlast]. exists pre', post. rewrite byte_before_marker in H1 by done. done.
Qed.

Definition known_markers : list str := flat_map markers KNOWN_COMMIT_AGENT_KINDS.

Lemma known_markers_apart m : m ∈ known_markers → m ≠ [] ∧ to_ascii_lowercase m = m ∧ no_overlap m.
Proof.
  assert (Forall (λ m, m ≠ [] ∧ to_ascii_lowercase m = m ∧
    Forall (λ k, k = O ∨ drop k m ≠ take (length m - k) m ∨ is_word_boundary (last (take k m)) = false) (seq 0 (length m))) known_markers) as H.
  { by apply (bool_decide_unpack _); vm_compute. }
  rewrite Forall_forall in H. intros Hm. destruct (H m Hm) as (H1 & H2 & H3). split; [done|]. split; [done|]. intros k Hk E.
  rewrite Forall_forall in H3. destruct (H3 k) as [->|[?|?]]; [apply elem_of_seq; lia|lia|done|done].
Qed.
End RecoverySourcesFacts.

(** ** Properties *)

Module RecoverySourcesProps.
Import AuthorshipLog RecoverySources RecoverySourcesFacts.

(** an identity names a known agent exactly when the agent's marker stands
    in it as a word of its own: no letter or digit next to it on either side. *)
Theorem agents_are_named_by_whole_words (identity m : str) :
  m ∈ known_markers →
  contains_identity_marker identity m = true ↔
  ∃ pre post, identity = pre ++ m ++ post ∧ is_word_boundary (last pre) = true ∧ is_word_boundary (head post) = true.
Proof.
  intros (Hne & Hlower & Hm)%known_markers_apart. unfold contains_identity_marker. rewrite Hlower, marker_loop_spec by (done || lia).
  assert (∀ pre, byte_before None pre = last pre) as Hb by (intros pre; unfold byte_before; by destruct (last pre)).
  by setoid_rewrite Hb.
Qed.

(** the shell call that explains a line is one of this worktree, not
    zcode's, that ran around a time of the file, and none that could have been
    taken instead comes before it: calls of sessions the commit already has
    first, then the nearest, the finished, those with a command, the latest.
    None is chosen only when there is none. *)
Theorem best_call_is_chosen (sha256_hex : str → str) (candidates : list BashCheckpointCall) (timestamps : list N)
    (existing : gset str) (worktree : str) :
  let possible := omap (bash_selection sha256_hex existing worktree timestamps) candidates in
  match select_best_bash_candidate sha256_hex candidates timestamps existing worktree with
  | Some sel =>
      sel ∈ possible ∧ (∀ other, other ∈ possible → compare_bash_selections sel other ≠ Gt) ∧
      tool (call_agent_id (bash_candidate sel)) ≠ lit "zcode" ∧ repo_work_dir (bash_candidate sel) = Some worktree ∧
      ∃ ts, ts ∈ timestamps ∧ recovery_distance_to_call_window ts (bash_candidate sel) = Some (bash_distance_ns sel)
  | None => possible = []
  end.
Proof.
  cbv zeta. destruct (select_best_bash_candidate _ _ _ _ _) as [sel|] eqn:Hsel.
  - pose proof (best_bash_sound _ _ _ _ _ _ Hsel) as (_ & ?). unfold select_best_bash_candidate in Hsel. split; [by eapply min_by_in|].
    split; [|done]. intros other Ho. eapply min_by_least; [apply bash_ordering|done|done].
  - unfold select_best_bash_candidate in Hsel. by destruct (omap _ candidates).
Qed.
(** *** Witnesses *)

Lemma agents_are_named_by_whole_words_witness :
  contains_identity_marker (lit "my-claude <noreply@anthropic.com>") (lit "claude") = true.
Proof.
  apply (agents_are_named_by_whole_words (lit "my-claude <noreply@anthropic.com>") (lit "claude")).
  - apply (bool_decide_unpack _). by vm_compute.
  - exists (lit "my-"), (lit " <noreply@anthropic.com>"). done.
Defined.
End RecoverySourcesProps.
