(* ===== verification/Recovery.v ===== *)
(** * The recovery of attributions

    src/src/authorship/attribution_recovery.rs: lines of a commit that no
    checkpoint explains are attributed when evidence names an author: a shell
    call that ran when the file was written, an event of a session at that time,
    or an agent named by the commit itself.  What was observed before, and what
    the note already attests, is left alone. *)

From S2P Require Import Prelude Text LineRange AuthorshipLog ConflictResolution ImaraDiff DiffCompute HashIter PatchParse DiffTree Analyzers StateResult RecoverySources.

Local Open Scope Z_scope.

(** ** Definitions *)

Module Recovery.
Import LineRange AuthorshipLog ImaraDiff HashIter StateResult RecoverySources.
Import DiffCompute(result).
Import DiffTree(DiffTreeResult, renames).
Import PatchParse(REPLACEMENT).
Import Analyzers(to_ascii_lowercase).

Abbreviation UnknownLinesByFile := (gmap str (list Z)).
Abbreviation Hunks := (gmap str (list LineRange)).
Abbreviation Times := (gmap str (list N)).

(** *** Surroundings *)

(** The metric of a recovery; the JSON that explains it is left out. *)
Record RecoveryMetric := mkMetric {
  m_base_commit_sha : option str;
  m_commit_sha : str;
  m_file_path : str;
  m_author : str;
  m_session_id : str;
  m_trace_id : str;
  m_tool : option str;
  m_model : option str;
  m_external_session_id : option str;
  m_external_tool_use_id : option str;
  m_edit_kind : str;
  m_checkpoint_type : str;
  m_lines_added : Z;
  m_checkpoint_ts : N
}.

(** Git, the file system, the two databases and the random generator.  The
    database of metrics answers by the number of the access: [None] when it is
    busy, broken or the query fails. *)
Class RecoveryEnvironment := {
  sha256_hex : str → str;
  random_indices : nat → list N;
  now_secs : N;
  workdir : result str;
  worktree_root_for_path : str → option str;
  canonicalize : str → option str;
  symlink_metadata : str → str → option (option N * option N);
  bash_candidates_near : list N → N → option (result (list BashCheckpointCall));
  session_events_near : nat → list N → N → option (list SessionEventRecoveryCandidate);
  latest_session_events : nat → option (list str → option (list SessionEventRecoveryCandidate));
  resolve_repo_url : option str;
  cached_copilot_model : str → str → option str;
  git_show : str → result str;
  git_ls_tree : str → result str;
  compute_diff_trees_batch : list (str * str) → result (list DiffTreeResult);
  batch_read_paths_at_treeishes : list (str * str) → result (gmap (str * str) str);
  log_metrics : RecoveryMetric → result unit
}.

Record RecoveryState := mkState {
  authorship_log : AuthorshipLog;
  metrics_db_unavailable : bool;
  draws : nat;
  accesses : nat;
  sent : list RecoveryMetric
}.

Record AttributionRecoveryContext := mkContext {
  file_timestamps : option Times;
  protected_lines : option UnknownLinesByFile;
  preexisting_lines : option UnknownLinesByFile;
  precomputed_parent_diff : option DiffTreeResult
}.

(** Lines that must not be claimed, gathered over several checkpoints. *)
Record RecoveryProtection := mkProtection { overwritten : UnknownLinesByFile; preexisting : UnknownLinesByFile }.

Definition extend_lines (target source : UnknownLinesByFile) : UnknownLinesByFile :=
  union_with (λ lines more, Some (lines ++ more)) target source.
Definition extend_protection (self other : RecoveryProtection) : RecoveryProtection :=
  mkProtection (extend_lines (overwritten self) (overwritten other)) (extend_lines (preexisting self) (preexisting other)).

(** *** Unknown lines *)

Definition add_covered (covered : gmap str (gset Z)) (f : FileAttestation) : gmap str (gset Z) :=
  <[file_path f := default ∅ (covered !! file_path f) ∪
                   list_to_set (flat_map (λ e, flat_map expand (line_ranges e)) (entries f))]> covered.
Definition covered_lines_by_file (log : AuthorshipLog) : gmap str (gset Z) := foldl add_covered ∅ (attestations log).

Definition sort_dedup (ls : list Z) : list Z := dedup Z.eqb (sort_by Z.leb ls).

Definition unknown_lines (covered : option (gset Z)) (ranges : list LineRange) : list Z :=
  sort_dedup (List.filter (λ line, negb (bool_decide (line ∈ default ∅ covered))) (flat_map expand ranges)).

Definition unknown_lines_by_file (log : AuthorshipLog) (committed_hunks : Hunks) : UnknownLinesByFile :=
  let covered := covered_lines_by_file log in
  map_imap (λ file_path ranges,
    let unknown := unknown_lines (covered !! file_path) ranges in
    if bool_decide (unknown = []) then None else Some unknown) committed_hunks.

Definition exclude_protected_lines (committed_hunks : Hunks) (protected_lines : option UnknownLinesByFile) : Hunks :=
  match protected_lines with
  | None => committed_hunks
  | Some protected_lines =>
      map_imap (λ file_path ranges,
        match protected_lines !! file_path with
        | None => Some ranges
        | Some protected =>
            let remaining := compress_lines (List.filter (λ line, negb (bool_decide (line ∈ protected))) (flat_map expand ranges)) in
            if bool_decide (remaining = []) then None else Some remaining
        end) committed_hunks
  end.

(** *** Attestations *)

Definition ai_session_key (author : str) : str := first_piece (lit "::") author.

Definition add_attestation_ranges (log : AuthorshipLog) (file_path author_id : str) (ranges : list LineRange) : AuthorshipLog :=
  if bool_decide (ranges = []) then log
  else get_or_create_file log file_path (λ f, add_entry f (mkEntry author_id ranges)).

Definition add_attestation (log : AuthorshipLog) (file_path author_id : str) (ls : list Z) : AuthorshipLog :=
  let sorted := sort_dedup ls in
  if bool_decide (sorted = []) then log else add_attestation_ranges log file_path author_id (compress_lines sorted).

Definition existing_commit_session_ids (log : AuthorshipLog) : gset str :=
  list_to_set (List.filter (starts_with (lit "s_")) (map ai_session_key (log_hashes log))).

(** [entry(id).or_insert_with(...)], with the model of the trace when there is one. *)
Definition insert_session (log : AuthorshipLog) (session_id : str) (agent_id : AgentId) (human_author : str) (trace : option str) :
    AuthorshipLog :=
  let session := default (mkSessionRecord agent_id ∅ (Some human_author) None) (sessions (metadata log) !! session_id) in
  let session := match trace with Some trace_id => record_trace_model session trace_id (model agent_id) | None => session end in
  mkLog (attestations log) (set_sessions (metadata log) (<[session_id := session]> (sessions (metadata log)))).

Definition insert_session_record (log : AuthorshipLog) (session_id : str) (agent_id : AgentId) (human_author trace_id : str) :
    AuthorshipLog :=
  insert_session log session_id agent_id human_author (Some trace_id).

Definition insert_session_event_record (log : AuthorshipLog) (candidate : SessionEventRecoveryCandidate) (human_author trace_id : str) :
    AuthorshipLog :=
  insert_session log (session_id candidate)
    (mkAgentId (event_tool candidate) (external_session_id candidate) (session_event_model candidate)) human_author (Some trace_id).

Definition attested_line_count_for_session (log : AuthorshipLog) (session_id : str) : nat :=
  length (flat_map (λ e, flat_map expand (line_ranges e))
    (List.filter (λ e, str_eqb (ai_session_key (hash e)) session_id) (flat_map entries (attestations log)))).

(** *** Logical additions *)

Section Logical.
Context `{engine : !DiffEngine}.

(** [split_inclusive('\n')] keeps the terminators. *)
Definition added_by (ops : list DiffOp) : list Z :=
  flat_map (λ op, match op with
                  | OpInsert _ new_index new_len | OpReplace _ _ new_index new_len =>
                      map (λ line, u32_add (u32_wrap (Z.of_nat line)) 1) (seq new_index new_len)
                  | _ => []
                  end) ops.

Definition logical_added_candidates (parent_content committed_content : str) (candidates : list LineRange) : list LineRange :=
  if negb (has_crlf parent_content) && negb (has_crlf committed_content) then candidates
  else
    let parent := normalize_line_endings parent_content in
    let committed := normalize_line_endings committed_content in
    let added := added_by (capture_diff_slices (split_lines_with_terminators parent) (split_lines_with_terminators committed)) in
    compress_lines (sort_dedup (List.filter (λ line, bool_decide (line ∈ added)) (flat_map expand candidates))).
End Logical.

Section Recover.
Context `{engine : !DiffEngine} `{env : RecoveryEnvironment}.

Definition EMPTY_TREE_SHA : str := lit "4b825dc642cb6eb9a060e54bf8d69288fbee4904".
Definition single_commit_diff_base (parent_sha commit_sha : str) : str :=
  if str_eqb parent_sha (lit "initial") then EMPTY_TREE_SHA else commit_sha ++ lit "^".

Definition NUL : ascii := Ascii.ascii_of_nat 0.
(** A text with a NUL or a replaced character is no text that was read as it is. *)
Definition not_plain_text (content : str) : bool :=
  contains_byte NUL content || match split_once REPLACEMENT content with Some _ => true | None => false end.

(** The parent's content of a path: known, or known to be absent. *)
Definition parent_content (parent_sha parent_tree old_path : str) (contents : gmap (str * str) str) (parent_paths : option (gset str)) :
    option str :=
  match contents !! (parent_tree, old_path) with
  | Some content => Some content
  | None =>
      if str_eqb parent_sha (lit "initial") then Some []
      else match parent_paths with
           | Some paths => if bool_decide (old_path ∈ paths) then None else Some []
           | None => None
           end
  end.

Definition logical_hunk (parent_sha commit_sha parent_tree : str) (old_paths : gmap str str) (contents : gmap (str * str) str)
    (parent_paths : option (gset str)) (file_path : str) (ls : list Z) : option (list LineRange) :=
  let old_path := default file_path (old_paths !! file_path) in
  try committed := contents !! (commit_sha, file_path) in
  try parent := parent_content parent_sha parent_tree old_path contents parent_paths in
  if not_plain_text parent || not_plain_text committed then None
  else
    match logical_added_candidates parent committed (compress_lines ls) with
    | [] => None
    | filtered => Some filtered
    end.

Definition old_paths_of (diff : DiffTreeResult) : gmap str str := foldl (λ m '(old, new), <[new := old]> m) ∅ (renames diff).

Definition listed_paths (parent_tree : str) : result (gset str) :=
  let? stdout := git_ls_tree parent_tree in
  if PatchText.valid_utf8 stdout then Ret (list_to_set (List.filter (λ path, negb (bool_decide (path = []))) (split_on NUL stdout)))
  else Fail (lit "invalid utf-8 sequence").

Definition logical_recovery_hunks (parent_sha commit_sha : str) (log : AuthorshipLog) (raw_hunks : Hunks)
    (precomputed_parent_diff : option DiffTreeResult) : result Hunks :=
  let unknown := unknown_lines_by_file log raw_hunks in
  let parent_tree := single_commit_diff_base parent_sha commit_sha in
  let? diff := match precomputed_parent_diff with
               | Some diff => Ret diff
               | None =>
                   let? fallback_diff := compute_diff_trees_batch [(parent_tree, commit_sha)] in
                   match fallback_diff with
                   | diff :: _ => Ret diff
                   | [] => Fail (lit "missing recovery parent diff")
                   end
               end in
  let old_paths := old_paths_of diff in
  let old_path path := default path (old_paths !! path) in
  let paths := map fst (btree_iter unknown) in
  let? contents := batch_read_paths_at_treeishes (flat_map (λ path, [(parent_tree, old_path path); (commit_sha, path)]) paths) in
  let missing_parent :=
    negb (str_eqb parent_sha (lit "initial")) &&
    existsb (λ path, is_some (contents !! (commit_sha, path)) && negb (is_some (contents !! (parent_tree, old_path path)))) paths in
  let? parent_paths := if missing_parent then let? listed := listed_paths parent_tree in Ret (Some listed) else Ret None in
  Ret (map_imap (logical_hunk parent_sha commit_sha parent_tree old_paths contents parent_paths) unknown).

(** *** Steps on the state *)

Local Abbreviation M A := (StateResult.M RecoveryState A).

Definition modify_log (f : AuthorshipLog → AuthorshipLog) : M unit :=
  modify (λ s, mkState (f (authorship_log s)) (metrics_db_unavailable s) (draws s) (accesses s) (sent s)).
Definition set_unavailable (b : bool) : M unit :=
  modify (λ s, mkState (authorship_log s) b (draws s) (accesses s) (sent s)).

Definition draw_trace_id : M str := λ s,
  (mkState (authorship_log s) (metrics_db_unavailable s) (S (draws s)) (accesses s) (sent s),
   Ret (generate_trace_id (random_indices (draws s)))).

(** One access to the database of metrics. *)
Definition access {A : Type} (ask : nat → A) : M A := λ s,
  (mkState (authorship_log s) (metrics_db_unavailable s) (draws s) (S (accesses s)) (sent s), Ret (ask (accesses s))).

Definition log_metric (m : RecoveryMetric) : M unit := λ s,
  (mkState (authorship_log s) (metrics_db_unavailable s) (draws s) (accesses s) (sent s ++ [m]), log_metrics m).

Definition nonempty (s : str) : option str := if bool_decide (s = []) then None else Some s.

Record RecoveryMetricInput := mkInput {
  i_parent_sha : str;
  i_commit_sha : str;
  i_file_path : str;
  i_author_id : str;
  i_session_id : str;
  i_trace_id : str;
  i_tool : str;
  i_model : str;
  i_external_session_id : str;
  i_external_tool_use_id : option str;
  i_edit_kind : str;
  i_checkpoint_type : str;
  i_recovered_line_count : Z;
  i_event_ts : option N
}.

Definition recovery_metric (input : RecoveryMetricInput) : RecoveryMetric :=
  mkMetric (if str_eqb (i_parent_sha input) (lit "initial") then None else Some (i_parent_sha input)) (i_commit_sha input)
    (i_file_path input) (i_author_id input) (i_session_id input) (i_trace_id input) (nonempty (i_tool input)) (nonempty (i_model input))
    (nonempty (i_external_session_id input)) (i_external_tool_use_id input) (i_edit_kind input) (i_checkpoint_type input)
    (i_recovered_line_count input) (default now_secs (i_event_ts input)).

Definition record_recovery_metric (input : RecoveryMetricInput) : M unit :=
  if str_eqb (i_tool input) (lit "mock_ai") then ret tt else log_metric (recovery_metric input).

Fixpoint for_each {A : Type} (f : A → M unit) (l : list A) : M unit :=
  match l with
  | [] => ret tt
  | x :: l' => do! _ := f x in for_each f l'
  end.

(** *** Times of files *)

Definition file_timestamps_for_path (meta : option (option N * option N)) : list N :=
  match meta with
  | None => []
  | Some (mtime, ctime) => sorted_times (option_list mtime ++ option_list ctime)
  end.
Definition file_timestamps_ns (workdir file_path : str) : list N := file_timestamps_for_path (symlink_metadata workdir file_path).

Definition timestamps_of (workdir : str) (captured_file_timestamps : option Times) (file_path : str) : list N :=
  match captured_file_timestamps ≫= (λ timestamps, timestamps !! file_path) with
  | Some (t :: ts) => t :: ts
  | _ => file_timestamps_ns workdir file_path
  end.

Definition timestamps_by_file (workdir : str) (captured_file_timestamps : option Times) (unknown_by_file : UnknownLinesByFile) : Times :=
  map_imap (λ file_path _, match timestamps_of workdir captured_file_timestamps file_path with
                           | [] => None
                           | timestamps => Some timestamps
                           end) unknown_by_file.

Definition all_timestamps (times : Times) : list N := sorted_times (flat_map snd (btree_iter times)).

Definition repo_worktree_key : result str :=
  let? w := workdir in
  let normalized := default w (worktree_root_for_path w) in
  Ret (default normalized (canonicalize normalized)).

Definition author_of (session_id trace_id : str) : str := session_id ++ lit "::" ++ trace_id.

(** *** Shell calls *)

Definition enrich_copilot_agent_model (agent_id : AgentId) (metadata : gmap str str) : AgentId :=
  let m := to_ascii_lowercase (trim (model agent_id)) in
  if negb (str_eqb (tool agent_id) (lit "github-copilot")) ||
     negb (str_eqb m [] || str_eqb m (lit "unknown") || str_eqb m (lit "copilot/auto"))
  then agent_id
  else
    match (match metadata !! lit "transcript_path" with Some path => Some path | None => metadata !! lit "chat_session_path" end) with
    | None => agent_id
    | Some stream_path =>
        match cached_copilot_model stream_path (agent_id_id agent_id) with
        | Some model => set_model agent_id model
        | None => agent_id
        end
    end.

Definition recover_bash_file (parent_sha commit_sha human_author repo_work_dir : str) (times : Times) (existing_commit_sessions : gset str)
    (candidates : list BashCheckpointCall) (file : str * list Z) : M unit :=
  let '(file_path, unknown_lines) := file in
  match times !! file_path with
  | None => ret tt
  | Some timestamps =>
      match select_best_bash_candidate sha256_hex candidates timestamps existing_commit_sessions repo_work_dir with
      | None => ret tt
      | Some selection =>
          if (BASH_RECOVERY_WINDOW_NS <? bash_distance_ns selection)%N then ret tt
          else
            let candidate := bash_candidate selection in
            let agent_id := enrich_copilot_agent_model (call_agent_id candidate) (call_metadata candidate) in
            do! trace_id := draw_trace_id in
            let session_id := generate_session_id sha256_hex (agent_id_id agent_id) (tool agent_id) in
            let author_id := author_of session_id trace_id in
            do! _ := modify_log (λ log, insert_session_record log session_id agent_id human_author trace_id) in
            do! _ := modify_log (λ log, add_attestation log file_path author_id unknown_lines) in
            record_recovery_metric (mkInput parent_sha commit_sha file_path author_id session_id trace_id (tool agent_id) (model agent_id)
              (agent_id_id agent_id) (Some (tool_use_id candidate)) (lit "bash") (lit "recovered_bash")
              (u32_wrap (Z.of_nat (length unknown_lines))) (Some ((start_time_ns candidate / 1000000000) mod 4294967296)%N))
      end
  end.

Definition recover_bash_mtime (parent_sha commit_sha human_author : str) (committed_hunks : Hunks) (captured_file_timestamps : option Times) :
    M unit :=
  do! repo_work_dir := lift repo_worktree_key in
  do! w := lift workdir in
  do! log := gets authorship_log in
  let unknown_by_file := unknown_lines_by_file log committed_hunks in
  if bool_decide (unknown_by_file = ∅) then ret tt
  else
    let times := timestamps_by_file w captured_file_timestamps unknown_by_file in
    let all := all_timestamps times in
    if bool_decide (all = []) then ret tt
    else
      do! candidates := lift (default (Ret []) (bash_candidates_near all BASH_RECOVERY_WINDOW_NS)) in
      match candidates with
      | [] => ret tt
      | _ =>
          for_each (recover_bash_file parent_sha commit_sha human_author repo_work_dir times (existing_commit_session_ids log) candidates)
            (btree_iter unknown_by_file)
      end.

(** *** Session events *)

Definition recover_event_file (parent_sha commit_sha human_author target_repo_url : str) (times : Times)
    (candidates : list SessionEventRecoveryCandidate) (file : str * list Z) : M unit :=
  let '(file_path, unknown_lines) := file in
  match times !! file_path with
  | None => ret tt
  | Some timestamps =>
      match select_best_session_event_candidate candidates timestamps target_repo_url with
      | None => ret tt
      | Some selection =>
          if (SESSION_EVENT_RECOVERY_WINDOW_NS <? event_distance_ns selection)%N then ret tt
          else
            let candidate := event_candidate selection in
            do! trace_id := draw_trace_id in
            let author_id := author_of (session_id candidate) trace_id in
            do! _ := modify_log (λ log, insert_session_event_record log candidate human_author trace_id) in
            do! _ := modify_log (λ log, add_attestation log file_path author_id unknown_lines) in
            record_recovery_metric (mkInput parent_sha commit_sha file_path author_id (session_id candidate) trace_id (event_tool candidate)
              (session_event_model candidate) (external_session_id candidate) (external_tool_use_id candidate)
              (lit "attribution_recovery_session_event") (lit "recovered_session_event_mtime")
              (u32_wrap (Z.of_nat (length unknown_lines))) (Some (event_ts candidate)))
      end
  end.

Definition recover_session_event_mtime (parent_sha commit_sha human_author : str) (committed_hunks : Hunks)
    (captured_file_timestamps : option Times) : M unit :=
  do! w := lift workdir in
  do! log := gets authorship_log in
  let unknown_by_file := unknown_lines_by_file log committed_hunks in
  if bool_decide (unknown_by_file = ∅) then ret tt
  else
    let times := timestamps_by_file w captured_file_timestamps unknown_by_file in
    let all := all_timestamps times in
    if bool_decide (all = []) then ret tt
    else
      do! candidates := access (λ n, session_events_near n all SESSION_EVENT_RECOVERY_WINDOW_NS) in
      match candidates, resolve_repo_url with
      | None, _ => set_unavailable true
      | Some [], _ | Some _, None => ret tt
      | Some candidates, Some target_repo_url =>
          for_each (recover_event_file parent_sha commit_sha human_author target_repo_url times candidates) (btree_iter unknown_by_file)
      end.

(** Asked before the recovery: [None] when the database could not be consulted. *)
Definition matching_session_event_candidate_exists (timestamps_ns : list N) (target_repo_url : str) : M (option bool) :=
  if bool_decide (timestamps_ns = []) || bool_decide (target_repo_url = []) then ret (Some false)
  else
    do! candidates := access (λ n, session_events_near n timestamps_ns SESSION_EVENT_RECOVERY_WINDOW_NS) in
    ret (try candidates := candidates in Some (is_some (select_best_session_event_candidate candidates timestamps_ns target_repo_url))).

(** *** The commit's own words *)

Definition read_commit_metadata (commit_sha : str) : result CommitMetadata :=
  let? raw := git_show commit_sha in
  if negb (PatchText.valid_utf8 raw) then Fail (lit "invalid utf-8 sequence")
  else
    let '(author_name, rest) := default (raw, []) (split_once [NUL] raw) in
    let '(author_email, message) := default (rest, []) (split_once [NUL] rest) in
    Ret (mkCommit message (trim author_name) (trim author_email)).

(** The times of the files written last. *)
Definition latest_timestamps_of (times : Times) : list N :=
  match max_time (omap (λ kv, max_time kv.2) (btree_iter times)) with
  | None => []
  | Some latest =>
      sorted_times (flat_map snd (List.filter (λ kv, bool_decide (max_time kv.2 = Some latest)) (btree_iter times)))
  end.

Record Existing := mkExisting {
  e_detection_index : nat;
  e_attested_count : nat;
  e_session_id : str;
  e_agent_id : AgentId
}.

Definition better_existing (a best : Existing) : bool :=
  (e_detection_index a <? e_detection_index best)%nat ||
  ((e_detection_index a =? e_detection_index best)%nat &&
   ((e_attested_count best <? e_attested_count a)%nat ||
    ((e_attested_count a =? e_attested_count best)%nat &&
     match str_compare (e_session_id a) (e_session_id best) with Lt => true | _ => false end))).

Definition existing_sessions (log : AuthorshipLog) (detections : list CommitAgentDetection) : list Existing :=
  flat_map (λ '(index, detection),
    omap (λ '(session_id, session),
      if agent_kind_matches_tool (kind detection) (tool (session_agent_id session))
      then Some (mkExisting index (attested_line_count_for_session log session_id) session_id (session_agent_id session))
      else None) (btree_iter (sessions (metadata log))))
    (combine (seq 0 (length detections)) detections).

Definition select_existing_commit_metadata_session (log : AuthorshipLog) (detections : list CommitAgentDetection) :
    option CommitMetadataSessionSelection :=
  (λ e, mkSelection (e_session_id e) (e_agent_id e) (lit "existing_commit_session") None None None None None) <$>
  best_of better_existing (existing_sessions log detections).

Definition select_nearest_commit_metadata_metric_session (detections : list CommitAgentDetection) (latest_timestamps : list N)
    (target_repo_url : option str) : M (option CommitMetadataSessionSelection) :=
  if bool_decide (latest_timestamps = []) then ret None
  else
    do! candidates := access (λ n, session_events_near n latest_timestamps SESSION_EVENT_RECOVERY_WINDOW_NS) in
    match candidates with
    | None => do! _ := set_unavailable true in ret None
    | Some candidates => ret (nearest_metric_session detections latest_timestamps target_repo_url candidates)
    end.

(** The queries of one access, detection by detection: [None] when one fails. *)
Fixpoint latest_of (ask : list str → option (list SessionEventRecoveryCandidate)) (target_repo_url : option str)
    (detections : list CommitAgentDetection) : option (option CommitMetadataSessionSelection) :=
  match detections with
  | [] => Some None
  | detection :: detections' =>
      try candidates := ask (tools (kind detection)) in
      match latest_metric_candidate target_repo_url candidates with
      | Some candidate => Some (Some (commit_metadata_selection_from_metric_candidate candidate "latest_matching_tool_session" None))
      | None => latest_of ask target_repo_url detections'
      end
  end.

Definition select_latest_commit_metadata_metric_session (detections : list CommitAgentDetection) (target_repo_url : option str) :
    M (option CommitMetadataSessionSelection) :=
  do! db := access latest_session_events in
  match db ≫= (λ ask, latest_of ask target_repo_url detections) with
  | None => do! _ := set_unavailable true in ret None
  | Some selection => ret selection
  end.

Definition generate_random_session_id : M str :=
  do! trace_id := draw_trace_id in
  ret (lit "s_" ++ drop 2 trace_id).

Definition synthesized_commit_metadata_session (k : CommitAgentKind) : M CommitMetadataSessionSelection :=
  do! session_id := generate_random_session_id in
  ret (mkSelection session_id (mkAgentId (default (key k) (head (tools k))) session_id (lit "unknown"))
         (lit "synthesized_session") None None None None None).

Definition select_commit_metadata_session (log : AuthorshipLog) (detections : list CommitAgentDetection) (latest_timestamps : list N)
    (target_repo_url : option str) : M (option CommitMetadataSessionSelection) :=
  match detections with
  | [] => ret None
  | detection :: _ =>
      match select_existing_commit_metadata_session log detections with
      | Some selection => ret (Some selection)
      | None =>
          do! nearest := select_nearest_commit_metadata_metric_session detections latest_timestamps target_repo_url in
          match nearest with
          | Some selection => ret (Some selection)
          | None =>
              do! latest := select_latest_commit_metadata_metric_session detections target_repo_url in
              match latest with
              | Some selection => ret (Some selection)
              | None =>
                  do! unavailable := gets metrics_db_unavailable in
                  if unavailable : bool then ret None
                  else do! selection := synthesized_commit_metadata_session (kind detection) in ret (Some selection)
              end
          end
      end
  end.

Definition record_selection_trace (log : AuthorshipLog) (selection : CommitMetadataSessionSelection) (trace_id : str) : AuthorshipLog :=
  match sessions (metadata log) !! sel_session_id selection with
  | Some session =>
      mkLog (attestations log) (set_sessions (metadata log)
        (<[sel_session_id selection := record_trace_model session trace_id (model (sel_agent_id selection))]> (sessions (metadata log))))
  | None => log
  end.

Definition recover_metadata_file (parent_sha commit_sha : str) (selection : CommitMetadataSessionSelection) (file : str * list Z) : M unit :=
  let '(file_path, unknown_lines) := file in
  do! trace_id := draw_trace_id in
  let author_id := author_of (sel_session_id selection) trace_id in
  do! _ := modify_log (λ log, record_selection_trace log selection trace_id) in
  do! _ := modify_log (λ log, add_attestation log file_path author_id unknown_lines) in
  record_recovery_metric (mkInput parent_sha commit_sha file_path author_id (sel_session_id selection) trace_id
    (tool (sel_agent_id selection)) (model (sel_agent_id selection)) (agent_id_id (sel_agent_id selection))
    (sel_external_tool_use_id selection) (lit "attribution_recovery_commit_metadata") (lit "recovered_commit_metadata")
    (u32_wrap (Z.of_nat (length unknown_lines))) (sel_event_ts selection)).

Definition recover_commit_metadata (parent_sha commit_sha human_author : str) (unknown_by_file : UnknownLinesByFile)
    (captured_file_timestamps : option Times) : M bool :=
  if bool_decide (unknown_by_file = ∅) then ret true
  else
    do! commit_metadata := lift (read_commit_metadata commit_sha) in
    let detections := detect_commit_metadata_agents commit_metadata in
    match detections with
    | [] => ret false
    | _ =>
        do! w := lift workdir in
        let times := timestamps_by_file w captured_file_timestamps unknown_by_file in
        do! log := gets authorship_log in
        do! selection := select_commit_metadata_session log detections (latest_timestamps_of times) resolve_repo_url in
        match selection with
        | None => ret false
        | Some selection =>
            do! _ := modify_log (λ log, insert_session log (sel_session_id selection) (sel_agent_id selection) human_author None) in
            do! _ := for_each (recover_metadata_file parent_sha commit_sha selection) (btree_iter unknown_by_file) in
            ret true
        end
    end.

(** *** All together *)

(** What comes before the external sources is not told to the caller: the
    callback that waits for late session events is left out. *)
Definition recover_attribution (parent_sha commit_sha human_author : str) (committed_hunks : Hunks)
    (context : AttributionRecoveryContext) : M unit :=
  do! log := gets authorship_log in
  if bool_decide (committed_hunks = ∅) then ret tt
  else if bool_decide (unknown_lines_by_file log committed_hunks = ∅) then ret tt
  else
    match logical_recovery_hunks parent_sha commit_sha log committed_hunks (precomputed_parent_diff context) with
    | Panic => lift Panic
    | Fail _ => ret tt
    | Ret filtered_hunks =>
        let filtered_hunks := exclude_protected_lines filtered_hunks (protected_lines context) in
        if bool_decide (filtered_hunks = ∅) then ret tt
        else
          do! _ := recover_bash_mtime parent_sha commit_sha human_author filtered_hunks (file_timestamps context) in
          let committed_hunks := exclude_protected_lines filtered_hunks (preexisting_lines context) in
          do! log := gets authorship_log in
          if bool_decide (unknown_lines_by_file log committed_hunks = ∅) then ret tt
          else
            do! _ := set_unavailable false in
            do! _ := recover_session_event_mtime parent_sha commit_sha human_author committed_hunks (file_timestamps context) in
            do! log := gets authorship_log in
            let unknown_after_session_events := unknown_lines_by_file log committed_hunks in
            if bool_decide (unknown_after_session_events = ∅) then ret tt
            else
              do! _ := recover_commit_metadata parent_sha commit_sha human_author unknown_after_session_events (file_timestamps context) in
              ret tt
    end.
End Recover.
End Recovery.

(** ** Reference *)

Module RecoveryRef.
Import LineRange AuthorshipLog HashIter StateResult RecoverySources Recovery.
Import DiffCompute(result).

(** A line of the hunks of a file; a line some author is attested for. *)
Definition hunk_line (hunks : Hunks) (file : str) (l : Z) : Prop := ∃ rs, hunks !! file = Some rs ∧ l ∈ flat_map expand rs.
Definition attested (log : AuthorshipLog) (file : str) (l : Z) : Prop := ∃ h, covers log file h l.

(** From [before] to [after] nothing is lost, what is new was allowed and
    attested to nobody, and no line gets two new authors. *)
Definition fills (allowed : str → Z → str → Prop) (before after : AuthorshipLog) : Prop :=
  (∀ file h l, covers before file h l → covers after file h l) ∧
  (∀ file h l, covers after file h l → covers before file h l ∨ (allowed file l h ∧ ¬ attested before file l)) ∧
  (∀ file h h' l, covers after file h l → covers after file h' l → attested before file l ∨ h = h').
Definition among (lines : option UnknownLinesByFile) (file : str) (l : Z) : Prop := ∃ m ls, lines = Some m ∧ m !! file = Some ls ∧ l ∈ ls.

(** *** Evidence *)

Section Evidence.
Context `{env : RecoveryEnvironment}.

(** A shell call of this worktree that ran when the file was written. *)
Definition bash_evidence (captured : option Times) (file h : str) : Prop :=
  ∃ w worktree query candidates call ts d trace,
    workdir = Ret w ∧ repo_worktree_key = Ret worktree ∧
    bash_candidates_near query BASH_RECOVERY_WINDOW_NS = Some (Ret candidates) ∧ call ∈ candidates ∧
    tool (call_agent_id call) ≠ lit "zcode" ∧ repo_work_dir call = Some worktree ∧
    ts ∈ timestamps_of w captured file ∧ recovery_distance_to_call_window ts call = Some d ∧ (d <= BASH_RECOVERY_WINDOW_NS)%N ∧
    h = author_of (bash_candidate_session_id sha256_hex call) trace.

(** An event of a session in this repository within the window. *)
Definition event_evidence (captured : option Times) (file h : str) : Prop :=
  ∃ w access query candidates c url ts trace,
    workdir = Ret w ∧ session_events_near access query SESSION_EVENT_RECOVERY_WINDOW_NS = Some candidates ∧ c ∈ candidates ∧
    event_tool c ≠ lit "zcode" ∧ resolve_repo_url = Some url ∧ repo_url c = Some url ∧
    ts ∈ timestamps_of w captured file ∧ (distance_to_event_second ts (event_ts c) <= SESSION_EVENT_RECOVERY_WINDOW_NS)%N ∧
    h = author_of (session_id c) trace.

(** The commit names an agent. *)
Definition commit_evidence (commit_sha h : str) : Prop :=
  ∃ metadata session trace, read_commit_metadata commit_sha = Ret metadata ∧ detect_commit_metadata_agents metadata ≠ [] ∧
    h = author_of session trace.

(** The database of metrics answered some query. *)
Definition metrics_db_answers : Prop :=
  (∃ access query window, is_Some (session_events_near access query window)) ∨
  (∃ access ask tools, latest_session_events access = Some ask ∧ is_Some (ask tools)).

(** The session of an attestation was there, or the database gave it. *)
Definition known_session (log : AuthorshipLog) (h : str) : Prop :=
  ∃ session trace, h = author_of session trace ∧ (is_Some (sessions (metadata log) !! session) ∨ metrics_db_answers).
End Evidence.
End RecoveryRef.

(** ** Lemmas *)

Module RecoveryFacts.
Import LineRange LineRangeFacts AuthorshipLog AuthorshipLogFacts ConflictResolutionFacts ImaraDiff HashIter HashIterFacts StateResult StateResultFacts.
Import RecoverySources RecoverySourcesFacts Recovery RecoveryRef.
Import DiffCompute(result).

(** *** Filling *)

Lemma fills_refl allowed log : fills allowed log log.
Proof. unfold fills, attested. naive_solver. Qed.

Lemma fills_trans allowed before mid after : fills allowed before mid → fills allowed mid after → fills allowed before after.
Proof.
  intros (M1 & N1 & U1) (M2 & N2 & U2). split; [auto|]. split.
  - intros file h l [H|[Ha Hn]]%N2; [by apply N1|]. right. split; [done|]. intros [h' Hh']. apply Hn. exists h'. by apply M1.
  - intros file h h' l H H'. destruct (U2 file h h' l H H') as [[h0 H0]| ->]; [|by right].
    assert (∀ h, covers after file h l → covers mid file h l) as Hb.
    { intros h1 [?|[_ Hn]]%N2; [done|]. exfalso. apply Hn. by exists h0. }
    by apply U1; apply Hb.
Qed.

Lemma fills_weaken (allowed allowed' : str → Z → str → Prop) before after :
  (∀ file l h, allowed file l h → allowed' file l h) → fills allowed before after → fills allowed' before after.
Proof. intros H (M & N & U). split; [done|]. split; [|done]. intros file h l [?|[? ?]]%N; eauto. Qed.

(** *** Covered and unknown lines *)

Lemma covered_lookup fs m file l :
  l ∈ default (∅ : gset Z) (foldl add_covered m fs !! file) ↔
  l ∈ default (∅ : gset Z) (m !! file) ∨ ∃ h, files_cover fs file h l.
Proof.
  revert m. induction fs as [|f fs IH]; intros m; cbn [foldl].
  { split; [auto|]. intros [?|(h & f & Hf & _)]; [done|set_solver]. }
  rewrite IH. unfold add_covered.
  assert (∀ h, files_cover (f :: fs) file h l ↔
    (file_path f = file ∧ entries_cover (entries f) h l) ∨ files_cover fs file h l) as Hc.
  { intros h. unfold files_cover. setoid_rewrite elem_of_cons. naive_solver. }
  setoid_rewrite Hc.
  assert (l ∈ flat_map (λ e, flat_map expand (line_ranges e)) (entries f) ↔ ∃ h, entries_cover (entries f) h l) as He.
  { rewrite elem_of_flat_map. unfold entries_cover. setoid_rewrite elem_of_flat_expand. naive_solver. }
  destruct (decide (file_path f = file)) as [->|Hne].
  - rewrite lookup_insert_eq. cbn [default from_option Datatypes.id]. rewrite elem_of_union, elem_of_list_to_set, He. naive_solver.
  - rewrite lookup_insert_ne by done. naive_solver.
Qed.

Lemma covered_spec log file l : l ∈ default (∅ : gset Z) (covered_lines_by_file log !! file) ↔ attested log file l.
Proof. unfold covered_lines_by_file. rewrite covered_lookup, lookup_empty. set_solver. Qed.

Lemma unknown_lookup log hunks file ls :
  unknown_lines_by_file log hunks !! file = Some ls →
  ls ≠ [] ∧ StronglySorted Z.lt ls ∧ ∀ l, l ∈ ls ↔ hunk_line hunks file l ∧ ¬ attested log file l.
Proof.
  unfold unknown_lines_by_file. rewrite map_lookup_imap. destruct (hunks !! file) as [rs|] eqn:Hr; [|done]. cbn [mbind option_bind].
  case_bool_decide as Hne; [done|]. intros [= <-]. split; [done|]. split; [apply sort_dedup_lt|]. intros l.
  unfold unknown_lines, sort_dedup. rewrite elem_of_sort_dedup, elem_of_filter_b, negb_true_iff, bool_decide_eq_false, covered_spec.
  unfold hunk_line. rewrite Hr. naive_solver.
Qed.

Definition u32_hunks (hunks : Hunks) : Prop := ∀ file l, hunk_line hunks file l → is_u32 l.
(** Hunks that [compress_lines] gives back. *)
Definition tidy (hunks : Hunks) : Prop :=
  ∀ file rs, hunks !! file = Some rs → Forall is_u32 (flat_map expand rs) ∧ StronglySorted Z.lt (flat_map expand rs).

Lemma tidy_u32 hunks : tidy hunks → u32_hunks hunks.
Proof. intros H file l (rs & Hr & Hl). apply H in Hr as [Hu _]. rewrite Forall_forall in Hu. by apply Hu. Qed.

Lemma exclude_spec hunks protected :
  tidy hunks → tidy (exclude_protected_lines hunks protected) ∧
  ∀ file l, hunk_line (exclude_protected_lines hunks protected) file l →
    hunk_line hunks file l ∧ ¬ among protected file l.
Proof.
  intros Ht. destruct protected as [p|]; cbn [exclude_protected_lines]; [|split; [done|]; intros file l Hl; split; [done|]; by intros (? & ? & ? & _)].
  assert (∀ file rs, exclude_protected_lines hunks (Some p) !! file = Some rs →
    Forall is_u32 (flat_map expand rs) ∧ StronglySorted Z.lt (flat_map expand rs) ∧
    ∀ l, l ∈ flat_map expand rs → hunk_line hunks file l ∧ ∀ ls, p !! file = Some ls → l ∉ ls) as H.
  { intros file rs. cbn [exclude_protected_lines]. rewrite map_lookup_imap. destruct (hunks !! file) as [rs0|] eqn:Hr; [|done].
    cbn [mbind option_bind]. destruct (Ht file rs0 Hr) as [Hu Hs]. destruct (p !! file) as [protected|] eqn:Hp.
    - case_bool_decide; [done|]. intros [= <-].
      assert (Forall is_u32 (List.filter (λ line, negb (bool_decide (line ∈ protected))) (flat_map expand rs0))) as Hfu.
      { apply Forall_forall. intros l Hl. apply elem_of_filter_b in Hl as [Hl _]. rewrite Forall_forall in Hu. by apply Hu. }
      rewrite compress_expand_eq by (done || by apply StronglySorted_filter). split; [done|]. split; [by apply StronglySorted_filter|].
      intros l Hl. apply elem_of_filter_b in Hl as [Hl Hp']. split; [by exists rs0|].
      intros ls [= <-]. by apply negb_true_iff, bool_decide_eq_false in Hp'.
    - intros [= <-]. split; [done|]. split; [done|]. intros l Hl. split; [by exists rs0|done]. }
  split; [intros file rs Hrs; by destruct (H file rs Hrs) as (? & ? & _)|].
  intros file l (rs & Hrs & Hl). destruct (H file rs Hrs) as (_ & _ & Hin). destruct (Hin l Hl) as [? Hp]. split; [done|].
  intros (p' & ls & [= <-] & Hls & Hin'). by apply (Hp ls).
Qed.

(** *** Attestations *)

Lemma add_attestation_covers log path author ls file h l :
  Forall is_u32 ls →
  covers (add_attestation log path author ls) file h l ↔ covers log file h l ∨ (file = path ∧ h = author ∧ l ∈ ls).
Proof.
  intros Hu. unfold add_attestation. assert (∀ l, l ∈ sort_dedup ls ↔ l ∈ ls) as Hin by apply elem_of_sort_dedup.
  assert (Forall is_u32 (sort_dedup ls)) as Hus.
  { apply Forall_forall. intros x Hx%Hin. rewrite Forall_forall in Hu. by apply Hu. }
  case_bool_decide as He.
  { split; [auto|]. intros [?|(_ & _ & Hl%Hin)]; [done|]. rewrite He in Hl. by apply elem_of_nil in Hl. }
  unfold add_attestation_ranges. rewrite bool_decide_false.
  2:{ intros E. apply He. pose proof (compress_expand_eq (sort_dedup ls) Hus (sort_dedup_lt ls)) as Hx. by rewrite E in Hx. }
  unfold covers, get_or_create_file. cbn [attestations]. set (atts := if existsb _ _ then _ else _).
  assert (∀ f h l, files_cover atts f h l ↔ files_cover (attestations log) f h l) as Hcov.
  { intros f' h' l'. unfold atts. case_match; [done|]. rewrite files_cover_app. split; [|auto].
    intros [?|(f & Hf & _ & Hf')]; [done|]. apply list_elem_of_singleton in Hf. subst. by apply entries_cover_nil in Hf'. }
  rewrite <-Hcov, (update_first_cover path _ (h = author ∧ l ∈ ls)); [naive_solver| |].
  - apply Forall_forall. intros f _ Hp. split; [done|]. cbn [add_entry entries]. unfold entries_cover.
    setoid_rewrite elem_of_app. setoid_rewrite list_elem_of_singleton.
    assert (contains_any (compress_lines (sort_dedup ls)) l = true ↔ l ∈ ls) as Hc.
    { rewrite contains_any_compress by (done || apply sort_dedup_lt). apply Hin. }
    split.
    + intros (e & [He'| ->] & <- & Hl); [left; by exists e|right]. cbn in *. by rewrite <-Hc.
    + intros [(e & ? & ? & ?)|[-> Hl]]; [exists e; auto|]. eexists. split; [by right|]. split; [done|]. by apply Hc.
  - unfold atts. destruct (existsb _ (attestations log)) eqn:E.
    + apply existsb_exists in E as (f & Hf%list_elem_of_In & E%str_eqb_eq). eauto.
    + exists (mkFile path []). set_solver.
Qed.
(** *** Logical hunks *)

Section Logical.
Context `{engine : !DiffEngine}.

Lemma logical_added_spec parent committed ls :
  Forall is_u32 ls → StronglySorted Z.lt ls →
  let r := logical_added_candidates parent committed (compress_lines ls) in
  Forall is_u32 (flat_map expand r) ∧ StronglySorted Z.lt (flat_map expand r) ∧ ∀ l, l ∈ flat_map expand r → l ∈ ls.
Proof.
  intros Hu Hs. unfold logical_added_candidates. destruct (_ && _); cbv zeta; rewrite !(compress_expand_eq ls Hu Hs); [done|].
  set (kept := List.filter _ ls). assert (∀ l, l ∈ sort_dedup kept → l ∈ ls) as Hin.
  { intros l Hl. unfold sort_dedup in Hl. rewrite elem_of_sort_dedup in Hl. unfold kept in Hl. by apply elem_of_filter_b in Hl as [Hl _]. }
  assert (Forall is_u32 (sort_dedup kept)) as Hk.
  { apply Forall_forall. intros l Hl%Hin. rewrite Forall_forall in Hu. by apply Hu. }
  rewrite compress_expand_eq by (done || apply sort_dedup_lt). split; [done|]. split; [apply sort_dedup_lt|done].
Qed.

Context `{env : RecoveryEnvironment}.

Lemma logical_hunks_spec parent_sha commit_sha log raw pre hunks :
  u32_hunks raw → logical_recovery_hunks parent_sha commit_sha log raw pre = Ret hunks →
  tidy hunks ∧ ∀ file l, hunk_line hunks file l → hunk_line raw file l ∧ ¬ attested log file l.
Proof.
  intros Hu. unfold logical_recovery_hunks. destruct (match pre with Some _ => _ | None => _ end) as [diff|?|]; [|done..]. cbn [obind].
  destruct (batch_read_paths_at_treeishes _) as [contents|?|]; [|done..]. cbn [obind].
  destruct (if _ : bool then _ else _) as [paths|?|]; [|done..]. cbn [obind]. intros [= <-].
  assert (∀ file rs, map_imap (logical_hunk parent_sha commit_sha (single_commit_diff_base parent_sha commit_sha) (old_paths_of diff) contents paths)
      (unknown_lines_by_file log raw) !! file = Some rs →
    Forall is_u32 (flat_map expand rs) ∧ StronglySorted Z.lt (flat_map expand rs) ∧
    ∀ l, l ∈ flat_map expand rs → hunk_line raw file l ∧ ¬ attested log file l) as H.
  { intros file rs. rewrite map_lookup_imap. destruct (unknown_lines_by_file log raw !! file) as [ls|] eqn:Hl; [|done]. cbn [mbind option_bind].
    apply unknown_lookup in Hl as (_ & Hs & Hin). unfold logical_hunk. destruct (contents !! _) as [committed|]; [|done]. cbn [mbind option_bind].
    destruct (parent_content _ _ _ _ _) as [parent|]; [|done]. cbn [mbind option_bind]. destruct (_ || _); [done|].
    assert (Forall is_u32 ls) as Hls by (apply Forall_forall; intros l Hl; apply (Hu file), Hin, Hl).
    destruct (logical_added_spec parent committed ls Hls Hs) as (H1 & H2 & H3).
    destruct (logical_added_candidates _ _ _) as [|r rs']; [done|]. intros [= <-]. split; [done|]. split; [done|].
    intros l Hl. by apply Hin, H3. }
  split; [intros file rs Hr; by destruct (H file rs Hr) as (? & ? & _)|].
  intros file l (rs & Hr & Hl). destruct (H file rs Hr) as (_ & _ & Hin). by apply Hin.
Qed.
End Logical.

(** *** One file, and all files *)

(** The log says the same, or one author more for the lines of one file. *)
Definition attributes (E : str → str → Prop) (path : str) (ls : list Z) (before after : AuthorshipLog) : Prop :=
  (∀ file h l, covers after file h l ↔ covers before file h l) ∨
  ∃ author, E path author ∧ ∀ file h l, covers after file h l ↔ covers before file h l ∨ (file = path ∧ h = author ∧ l ∈ ls).

(** One author, or none, for each of the files. *)
Definition spreads (E : str → str → Prop) (files : list (str * list Z)) (before after : AuthorshipLog) : Prop :=
  ∃ authors : gmap str str, (∀ path author, authors !! path = Some author → E path author) ∧
    ∀ file h l, covers after file h l ↔
      covers before file h l ∨ ∃ ls, (file, ls) ∈ files ∧ authors !! file = Some h ∧ l ∈ ls.

Lemma spreads_nil E before : spreads E [] before before.
Proof. exists ∅. split; [done|]. intros file h l. split; [auto|]. intros [?|(ls & []%elem_of_nil & _)]. done. Qed.

Lemma spreads_cons E path ls files before mid after :
  path ∉ files.*1 → attributes E path ls before mid → spreads E files mid after → spreads E ((path, ls) :: files) before after.
Proof.
  intros Hp Hstep (authors & HE & Hs).
  assert (∀ file ls', (file, ls') ∈ files → file ≠ path) as Hne.
  { intros file ls' Hin ->. apply Hp, list_elem_of_fmap. by exists (path, ls'). }
  assert (∀ (authors' : gmap str str) file h l, (∀ file, file ≠ path → authors' !! file = authors !! file) →
    (∃ ls', (file, ls') ∈ (path, ls) :: files ∧ authors' !! file = Some h ∧ l ∈ ls') ↔
    (file = path ∧ authors' !! path = Some h ∧ l ∈ ls) ∨ ∃ ls', (file, ls') ∈ files ∧ authors !! file = Some h ∧ l ∈ ls') as Hsplit.
  { intros authors' file h l Ha. setoid_rewrite elem_of_cons. split.
    - intros (ls' & [[= -> ->]|Hin] & H1 & H2); [by left|right]. exists ls'. rewrite <-Ha by by eapply Hne. done.
    - intros [(-> & H1 & H2)|(ls' & Hin & H1 & H2)]; [exists ls; auto|]. exists ls'. rewrite Ha by by eapply Hne. auto. }
  destruct Hstep as [Hstep|(author & He & Hstep)].
  - exists (delete path authors). split.
    + intros p a Ha. apply lookup_delete_Some in Ha as [_ Ha]. by apply HE.
    + intros file h l. rewrite Hs, Hstep, Hsplit; [|intros; by apply lookup_delete_ne]. rewrite lookup_delete_eq. naive_solver.
  - exists (<[path := author]> authors). split.
    + intros p a Ha. apply lookup_insert_Some in Ha as [[<- <-]|[_ Ha]]; [done|]. by apply HE.
    + intros file h l. rewrite Hs, Hstep, Hsplit; [|intros; by apply lookup_insert_ne]. rewrite lookup_insert_eq. naive_solver.
Qed.

Lemma spreads_fills E hunks before after :
  spreads E (btree_iter (unknown_lines_by_file before hunks)) before after →
  fills (λ file l h, hunk_line hunks file l ∧ E file h) before after.
Proof.
  intros (authors & HE & Hs).
  assert (∀ file ls, (file, ls) ∈ btree_iter (unknown_lines_by_file before hunks) → ∀ l, l ∈ ls → hunk_line hunks file l ∧ ¬ attested before file l)
    as Hin.
  { intros file ls Hf%elem_of_btree_iter l Hl. apply unknown_lookup in Hf as (_ & _ & Hf). by apply Hf. }
  split; [|split].
  - intros file h l H. apply Hs. by left.
  - intros file h l [?|(ls & Hf & Ha & Hl)]%Hs; [by left|right]. destruct (Hin file ls Hf l Hl). split; [|done]. split; [done|by apply HE].
  - intros file h h' l [?|(ls & Hf & Ha & Hl)]%Hs H'; [left; by exists h|]. apply Hs in H' as [?|(ls' & _ & Ha' & _)]; [left; by exists h'|].
    right. congruence.
Qed.
(** *** Events *)

Lemma near_event_sound timestamps c sel :
  near_event timestamps c = Some sel →
  event_candidate sel = c ∧ event_tool c ≠ lit "zcode" ∧ (event_distance_ns sel <= SESSION_EVENT_RECOVERY_WINDOW_NS)%N ∧
  ∃ ts, ts ∈ timestamps ∧ distance_to_event_second ts (event_ts c) = event_distance_ns sel.
Proof.
  unfold near_event. destruct (str_eqb _ _) eqn:Hz; [done|]. destruct (session_event_distance c timestamps) as [d|] eqn:Hd; [|done].
  cbn [mbind option_bind]. destruct (N.ltb_spec SESSION_EVENT_RECOVERY_WINDOW_NS d); [done|]. intros [= <-]. split; [done|].
  split; [intros E; rewrite E in Hz; by rewrite str_eqb_refl in Hz|]. split; [done|].
  apply min_time_in, elem_of_list_map in Hd as (ts & Hts & ->). by exists ts.
Qed.

Lemma best_event_sound candidates timestamps url sel :
  select_best_session_event_candidate candidates timestamps url = Some sel →
  event_candidate sel ∈ candidates ∧ event_tool (event_candidate sel) ≠ lit "zcode" ∧ repo_url (event_candidate sel) = Some url ∧
  (event_distance_ns sel <= SESSION_EVENT_RECOVERY_WINDOW_NS)%N ∧
  ∃ ts, ts ∈ timestamps ∧ distance_to_event_second ts (event_ts (event_candidate sel)) = event_distance_ns sel.
Proof.
  unfold select_best_session_event_candidate. assert (∀ sel, sel ∈ omap (near_event timestamps) candidates →
    event_candidate sel ∈ candidates ∧ near_event timestamps (event_candidate sel) = Some sel) as Hin.
  { intros x (c & Hc & Hx)%list_elem_of_omap. pose proof (near_event_sound _ _ _ Hx) as (-> & _). done. }
  destruct (omap _ candidates) as [|m ms]; [done|]. intros ([sel' tier] & Hm & ->)%fmap_Some.
  apply min_by_in, list_elem_of_omap in Hm as (sel & Hsel & Ht). unfold session_event_candidate_tier in Ht.
  case_bool_decide as Hu; [|done]. injection Ht as <- <-. destruct (Hin sel Hsel) as [Hc Hn]. apply near_event_sound in Hn as (_ & ? & ? & ?). done.
Qed.
(** *** Steps *)

Section Steps.
Context `{env : RecoveryEnvironment}.
Local Abbreviation M A := (StateResult.M RecoveryState A).

(** Where the log was, it is related to where it is, however the step ends. *)
Definition from {A : Type} (R : AuthorshipLog → AuthorshipLog → Prop) (log : AuthorshipLog) (m : M A) : Prop :=
  triple (λ s, authorship_log s = log) m (λ _ s, R log (authorship_log s)) (λ s, R log (authorship_log s)).
Definition relates {A : Type} (R : AuthorshipLog → AuthorshipLog → Prop) (m : M A) : Prop := ∀ log, from R log m.

Lemma attributes_same E path ls log : attributes E path ls log log.
Proof. by left. Qed.

(** The steps of one file once its author is known. *)
Definition attribute_file (insert : str → AuthorshipLog → AuthorshipLog) (author : str → str) (path : str) (ls : list Z)
    (input : str → RecoveryMetricInput) : M unit :=
  do! trace_id := draw_trace_id in
  do! _ := modify_log (insert trace_id) in
  do! _ := modify_log (λ log, add_attestation log path (author trace_id) ls) in
  record_recovery_metric (input trace_id).

Lemma attribute_file_relates (E : str → str → Prop) insert author path ls input :
  Forall is_u32 ls → (∀ trace log, attestations (insert trace log) = attestations log) → (∀ trace, E path (author trace)) →
  relates (attributes E path ls) (attribute_file insert author path ls input).
Proof.
  intros Hu Hins HE log0 s <-. unfold attribute_file, draw_trace_id, modify_log, modify, record_recovery_metric, log_metric, bind, ret.
  cbn. set (trace := generate_trace_id _). assert (∀ log, attributes E path ls log (add_attestation (insert trace log) path (author trace) ls)) as H.
  { intros log. right. exists (author trace). split; [done|]. intros file h l. rewrite add_attestation_covers by done.
    unfold covers at 1. by rewrite Hins. }
  destruct (str_eqb _ _); cbn; [apply H|]. destruct (log_metrics _); apply H.
Qed.

Lemma for_each_relates (E : str → str → Prop) (f : str * list Z → M unit) files :
  NoDup files.*1 → (∀ path ls, (path, ls) ∈ files → relates (attributes E path ls) (f (path, ls))) →
  relates (spreads E files) (for_each f files).
Proof.
  induction files as [|[path ls] files IH]; intros Hnd Hf log0.
  - apply triple_ret. intros s <-. apply spreads_nil.
  - cbn [fmap list_fmap fst] in Hnd. apply NoDup_cons in Hnd as [Hp Hnd]. cbn [for_each].
    eapply (triple_bind _ _ _ (λ _ s, attributes E path ls log0 (authorship_log s))).
    + eapply triple_weaken; [apply (Hf path ls ltac:(by left) log0)|done|done|].
      intros s Hs. eapply spreads_cons; [exact Hp|exact Hs|]. exists ∅. split; [done|]. intros file h l. split; [auto|].
      intros [?|(ls' & _ & Hx & _)]; [done|]. by rewrite lookup_empty in Hx.
    + intros [] s Hs. assert (∀ path ls, (path, ls) ∈ files → relates (attributes E path ls) (f (path, ls))) as Hf'
        by (intros p l Hin; apply Hf; by right).
      pose proof (IH Hnd Hf' (authorship_log s) s eq_refl) as H. destruct (for_each f files s) as [s' [?|?|]]; by eapply spreads_cons.
Qed.

Lemma sorted_u32 hunks log path ls :
  u32_hunks hunks → (path, ls) ∈ btree_iter (unknown_lines_by_file log hunks) → Forall is_u32 ls.
Proof.
  intros Hu Hin%elem_of_btree_iter. apply unknown_lookup in Hin as (_ & _ & Hin). apply Forall_forall. intros l Hl.
  by eapply Hu, Hin.
Qed.

(** All files: what was unknown may be attributed by evidence. *)
Lemma files_relate (E : str → str → Prop) hunks log (f : str * list Z → M unit) :
  u32_hunks hunks → (∀ path ls, Forall is_u32 ls → relates (attributes E path ls) (f (path, ls))) →
  from (fills (λ file l h, hunk_line hunks file l ∧ E file h)) log (for_each f (btree_iter (unknown_lines_by_file log hunks))).
Proof.
  intros Hu Hf. eapply triple_weaken; [apply (for_each_relates E f _ (btree_iter_NoDup _) ltac:(intros path ls Hin; apply Hf; by eapply sorted_u32) log)|done| |].
  - intros ? s. apply spreads_fills.
  - intros s. apply spreads_fills.
Qed.

(** *** Stages *)

Lemma from_ret {A : Type} R log (a : A) : R log log → from R log (ret a).
Proof. intros HR. apply triple_ret. by intros s ->. Qed.
Lemma from_lift {A B : Type} R log (r : result A) (k : A → M B) :
  R log log → (∀ a, r = Ret a → from R log (k a)) → from R log (bind (lift r) k).
Proof. intros HR Hk s <-. unfold bind, lift. destruct r as [a|e|]; [|done..]. by apply (Hk a eq_refl). Qed.
Lemma from_gets {B : Type} R log (k : AuthorshipLog → M B) : from R log (k log) → from R log (bind (gets authorship_log) k).
Proof. intros Hk s <-. by apply (Hk s). Qed.
Lemma from_access {A B : Type} R log (ask : nat → A) (k : A → M B) : (∀ n, from R log (k (ask n))) → from R log (bind (access ask) k).
Proof. intros Hk s <-. unfold bind, access. by apply (Hk (accesses s)). Qed.
Lemma from_unavailable {B : Type} R log b (k : unit → M B) : from R log (k tt) → from R log (bind (set_unavailable b) k).
Proof. intros Hk s <-. by apply Hk. Qed.

Lemma timestamps_by_file_lookup (w : str) (captured : option Times) (unknown : UnknownLinesByFile) (file : str) ts :
  timestamps_by_file w captured unknown !! file = Some ts → ts = timestamps_of w captured file.
Proof.
  unfold timestamps_by_file. rewrite map_lookup_imap. destruct (unknown !! file); [|done]. cbn [mbind option_bind].
  destruct (timestamps_of w captured file); [done|]. by intros [= <-].
Qed.

Lemma enrich_keeps agent metadata :
  agent_id_id (enrich_copilot_agent_model agent metadata) = agent_id_id agent ∧
  tool (enrich_copilot_agent_model agent metadata) = tool agent.
Proof. unfold enrich_copilot_agent_model. cbv zeta. by repeat case_match. Qed.

Lemma bash_stage parent_sha commit_sha human hunks captured :
  u32_hunks hunks →
  relates (fills (λ file l h, hunk_line hunks file l ∧ bash_evidence captured file h))
    (recover_bash_mtime parent_sha commit_sha human hunks captured).
Proof.
  intros Hu log. set (R := fills _). assert (∀ log, R log log) as HR by (intros; apply fills_refl).
  unfold recover_bash_mtime. apply from_lift; [done|intros worktree Hworktree]. apply from_lift; [done|intros w Hw].
  apply from_gets. cbv zeta. case_bool_decide; [by apply from_ret|]. case_bool_decide; [by apply from_ret|].
  set (times := timestamps_by_file _ _ _). apply from_lift; [done|intros candidates Hc].
  destruct candidates as [|c0 cs]; [by apply from_ret|]. set (candidates := c0 :: cs) in *.
  apply files_relate; [done|]. intros path ls Hls log1. unfold recover_bash_file.
  destruct (times !! path) as [ts|] eqn:Ht; [|by apply from_ret; left]. apply timestamps_by_file_lookup in Ht as ->.
  destruct (select_best_bash_candidate _ _ _ _ _) as [sel|] eqn:Hsel; [|by apply from_ret; left].
  destruct (N.ltb_spec BASH_RECOVERY_WINDOW_NS (bash_distance_ns sel)) as [Hd|Hd]; [by apply from_ret; left|].
  apply (attribute_file_relates _ (λ trace log, insert_session_record log _ _ human trace) (λ trace, author_of _ trace) path ls); [done|done|].
  intros trace. apply best_bash_sound in Hsel as (Hin & Hz & Hw' & t & Hin' & Hdist).
  destruct (enrich_keeps (call_agent_id (bash_candidate sel)) (call_metadata (bash_candidate sel))) as [-> ->].
  destruct (bash_candidates_near _ _) as [r|] eqn:Hnear; [|done]. cbn in Hc. subst r.
  exists w, worktree, (all_timestamps times), candidates, (bash_candidate sel), t, (bash_distance_ns sel), trace. done.
Qed.

Lemma event_stage parent_sha commit_sha human hunks captured :
  u32_hunks hunks →
  relates (fills (λ file l h, hunk_line hunks file l ∧ event_evidence captured file h))
    (recover_session_event_mtime parent_sha commit_sha human hunks captured).
Proof.
  intros Hu log. set (R := fills _). assert (∀ log, R log log) as HR by (intros; apply fills_refl).
  unfold recover_session_event_mtime. apply from_lift; [done|intros w Hw]. apply from_gets. cbv zeta.
  case_bool_decide; [by apply from_ret|]. case_bool_decide; [by apply from_ret|].
  set (times := timestamps_by_file _ _ _). apply from_access. intros n.
  destruct (session_events_near n _ _) as [candidates|] eqn:Hnear; [|intros s <-; apply HR].
  destruct candidates as [|c0 cs]; [by apply from_ret|]. destruct resolve_repo_url as [url|] eqn:Hurl; [|by apply from_ret].
  set (candidates := c0 :: cs) in *. apply files_relate; [done|]. intros path ls Hls log1. unfold recover_event_file.
  destruct (times !! path) as [ts|] eqn:Ht; [|by apply from_ret; left]. apply timestamps_by_file_lookup in Ht as ->.
  destruct (select_best_session_event_candidate _ _ _) as [sel|] eqn:Hsel; [|by apply from_ret; left].
  destruct (N.ltb_spec SESSION_EVENT_RECOVERY_WINDOW_NS (event_distance_ns sel)) as [Hd|Hd]; [by apply from_ret; left|].
  apply (attribute_file_relates _ (λ trace log, insert_session_event_record log (event_candidate sel) human trace)
    (λ trace, author_of _ trace) path ls); [done|done|].
  intros trace. apply best_event_sound in Hsel as (Hin & Hz & Hu' & Hd' & t & Hin' & Hdist).
  eexists w, n, _, candidates, (event_candidate sel), url, t, trace. rewrite Hdist. done.
Qed.

(** *** The session of a commit that names an agent *)

Lemma best_of_in {A : Type} (better : A → A → bool) l x : best_of better l = Some x → x ∈ l.
Proof.
  unfold best_of. assert (∀ l b, foldl (λ best a, match best with Some b => if better a b then Some a else best | None => Some a end) b l = Some x →
    b = Some x ∨ x ∈ l) as H; [|by intros [?|?]%H].
  clear l. induction l as [|a l IH]; intros b; cbn [foldl]; [by left|]. intros [H|H]%IH; [|by right; right].
  destruct b as [b|]; [|injection H as <-; right; left]. destruct (better a b); [injection H as <-; right; left|by left].
Qed.

Lemma existing_session_known log detections sel :
  select_existing_commit_metadata_session log detections = Some sel → is_Some (sessions (metadata log) !! sel_session_id sel).
Proof.
  unfold select_existing_commit_metadata_session. intros (e & He%best_of_in & ->)%fmap_Some. cbn [sel_session_id].
  unfold existing_sessions in He. apply elem_of_flat_map in He as ([i detection] & _ & He).
  apply list_elem_of_omap in He as ([sid session] & Hin%elem_of_btree_iter & Hc). destruct (agent_kind_matches_tool _ _); [|done].
  injection Hc as <-. by exists session.
Qed.

Lemma latest_of_asks ask url detections r : detections ≠ [] → latest_of ask url detections = Some r → ∃ tools, is_Some (ask tools).
Proof.
  destruct detections as [|d ds]; [done|]. intros _. cbn [latest_of]. destruct (ask (tools (kind d))) eqn:E; [|done]. intros _.
  exists (tools (kind d)). by rewrite E.
Qed.

Definition justified (log : AuthorshipLog) (selection : option CommitMetadataSessionSelection) : Prop :=
  ∀ sel, selection = Some sel → is_Some (sessions (metadata log) !! sel_session_id sel) ∨ metrics_db_answers.

Lemma select_session_spec log detections times url :
  triple (λ s, authorship_log s = log) (select_commit_metadata_session log detections times url)
    (λ selection s, authorship_log s = log ∧ justified log selection) (λ s, authorship_log s = log).
Proof.
  unfold select_commit_metadata_session. destruct detections as [|d ds]; [by apply triple_ret|].
  destruct (select_existing_commit_metadata_session log (d :: ds)) as [sel|] eqn:He.
  { apply triple_ret. intros s Hs. split; [done|]. intros sel' [= <-]. left. by eapply existing_session_known. }
  clear He. eapply (triple_bind _ _ _ (λ selection s, authorship_log s = log ∧ (is_Some selection → metrics_db_answers))).
  { unfold select_nearest_commit_metadata_metric_session. case_bool_decide.
    - apply triple_ret. intros s Hs. split; [done|]. by intros [? ?].
    - intros s Hs. unfold bind, access. cbn. destruct (session_events_near (accesses s) times _) as [cs|] eqn:Hc; cbn.
      + split; [done|]. intros _. left. eexists _, _, _. by rewrite Hc.
      + split; [done|]. by intros [? ?]. }
  intros [sel|]; [apply triple_ret; intros s [Hs H]; split; [done|]; intros sel' _; right; by apply H|].
  eapply (triple_bind _ _ _ (λ selection s, authorship_log s = log ∧ (metrics_db_unavailable s = false ∨ is_Some selection → metrics_db_answers))).
  { intros s [Hs _]. unfold select_latest_commit_metadata_metric_session, bind, access. cbn -[latest_of].
    destruct (latest_session_events (accesses s)) as [ask|] eqn:Hask; cbn -[latest_of]; [|split; [done|]; by intros [?|[? ?]]].
    destruct (latest_of ask url (d :: ds)) as [r|] eqn:Hr; cbn; [|split; [done|]; by intros [?|[? ?]]].
    split; [done|]. intros _. right. apply latest_of_asks in Hr as [tools Htools]; [|done]. by exists (accesses s), ask, tools. }
  intros [sel|]; [apply triple_ret; intros s [Hs H]; split; [done|]; intros sel' _; right; apply H; by right|].
  intros s [Hs H]. unfold bind, gets. cbn. destruct (metrics_db_unavailable s) eqn:Hu; cbn.
  - split; [done|]. by intros sel.
  - split; [done|]. intros sel _. right. apply H. by left.
Qed.

Lemma commit_stage parent_sha commit_sha human hunks captured log :
  u32_hunks hunks →
  from (fills (λ file l h, hunk_line hunks file l ∧ commit_evidence commit_sha h ∧ known_session log h)) log
    (recover_commit_metadata parent_sha commit_sha human (unknown_lines_by_file log hunks) captured).
Proof.
  intros Hu. set (R := fills _). assert (∀ log, R log log) as HR by (intros; apply fills_refl).
  unfold recover_commit_metadata. case_bool_decide; [by apply from_ret|]. apply from_lift; [done|intros md Hmd]. cbv zeta.
  destruct (detect_commit_metadata_agents md) as [|d ds] eqn:Hd; [by apply from_ret|]. apply from_lift; [done|intros w Hw].
  apply from_gets. set (times := latest_timestamps_of _).
  eapply triple_bind; [eapply triple_weaken; [apply select_session_spec|done|done|]; by intros s ->|].
  intros [sel|] s [<- Hj]; [|by apply from_ret]. specialize (Hj sel eq_refl).
  set (log' := insert_session (authorship_log s) (sel_session_id sel) (sel_agent_id sel) human None).
  set (E := λ (file : str) h, commit_evidence commit_sha h ∧ known_session (authorship_log s) h).
  assert (from (fills (λ file l h, hunk_line hunks file l ∧ E file h)) log' (for_each (recover_metadata_file parent_sha commit_sha sel)
    (btree_iter (unknown_lines_by_file log' hunks)))) as Hall.
  { apply files_relate; [done|]. intros path ls Hls. unfold recover_metadata_file.
    apply (attribute_file_relates _ (λ trace log, record_selection_trace log sel trace) (λ trace, author_of _ trace) path ls); [done| |].
    - intros trace l. unfold record_selection_trace. by destruct (sessions (metadata l) !! _).
    - intros trace. split; [exists md, (sel_session_id sel), trace; by rewrite Hd|]. by exists (sel_session_id sel), trace. }
  unfold bind at 1. unfold modify_log, modify. cbn. set (s' := mkState _ _ _ _ _).
  specialize (Hall s' eq_refl). unfold bind. change (unknown_lines_by_file (authorship_log s) hunks) with (unknown_lines_by_file log' hunks).
  destruct (for_each _ _ s') as [s'' [?|?|]]; exact Hall.
Qed.

(** *** The whole recovery *)

Section Whole.
Context `{engine : !DiffEngine}.
Variables (parent_sha commit_sha human : str) (raw : Hunks) (context : AttributionRecoveryContext).
Hypothesis raw_u32 : u32_hunks raw.

(** Hunks that recovery may look at. *)
Definition allowed_hunks (hunks : Hunks) : Prop :=
  u32_hunks hunks ∧ ∀ file l, hunk_line hunks file l → hunk_line raw file l ∧ ¬ among (protected_lines context) file l.

Variables (R1 R2 R3 : AuthorshipLog → AuthorshipLog → Prop).
Hypothesis R1_refl : ∀ log, R1 log log.
Hypothesis R2_refl : ∀ log, R2 log log.
Hypothesis R3_refl : ∀ log, R3 log log.
Hypothesis bash : ∀ hunks, allowed_hunks hunks →
  relates R1 (recover_bash_mtime parent_sha commit_sha human hunks (file_timestamps context)).
Local Abbreviation later hunks :=
  (allowed_hunks hunks ∧ ∀ file l, hunk_line hunks file l → ¬ among (preexisting_lines context) file l).
Hypothesis events : ∀ hunks, later hunks →
  relates R2 (recover_session_event_mtime parent_sha commit_sha human hunks (file_timestamps context)).
Hypothesis words : ∀ hunks log, later hunks →
  from R3 log (recover_commit_metadata parent_sha commit_sha human (unknown_lines_by_file log hunks) (file_timestamps context)).

Lemma recover_spec :
  relates (λ before after, ∃ m1 m2, R1 before m1 ∧ R2 m1 m2 ∧ R3 m2 after)
    (recover_attribution parent_sha commit_sha human raw context).
Proof.
  intros log0. set (R := λ before after, _). assert (∀ log, R log log) as HR by (intros log; exists log, log; auto).
  unfold recover_attribution. apply from_gets. case_bool_decide; [by apply from_ret|]. case_bool_decide; [by apply from_ret|].
  destruct (logical_recovery_hunks _ _ _ _ _) as [logical|e|] eqn:Hl; [|by apply from_ret|intros s <-; apply HR].
  apply logical_hunks_spec in Hl as [Htidy Hlines]; [|done]. cbv zeta.
  destruct (exclude_spec logical (protected_lines context) Htidy) as [Htidy1 Hlines1]. set (hunks := exclude_protected_lines logical _) in *.
  case_bool_decide; [by apply from_ret|].
  assert (allowed_hunks hunks) as Hallowed.
  { split; [by apply tidy_u32|]. intros file l [Hl Hp]%Hlines1. split; [|done]. by apply Hlines. }
  destruct (exclude_spec hunks (preexisting_lines context) Htidy1) as [Htidy2 Hlines2]. set (hunks2 := exclude_protected_lines hunks _) in *.
  assert (later hunks2) as Hlater.
  { split; [split; [by apply tidy_u32|]|by intros file l [_ ?]%Hlines2]. intros file l [Hl _]%Hlines2. by apply Hallowed. }
  eapply triple_bind; [eapply triple_weaken; [apply (bash hunks Hallowed log0)|done|done|]|intros ?].
  { intros s Hs. exists (authorship_log s), (authorship_log s). auto. }
  intros s1 HR1. unfold bind at 1, gets at 1. case_bool_decide; [exists (authorship_log s1), (authorship_log s1); auto|].
  unfold bind at 1, set_unavailable at 1, modify at 1. set (s1' := mkState _ _ _ _ _).
  assert (authorship_log s1' = authorship_log s1) as E1 by done. revert E1. generalize s1'. clear s1'.
  eapply triple_bind; [eapply triple_weaken; [apply (events hunks2 Hlater (authorship_log s1))|done|done|]|intros ?].
  { intros s Hs. exists (authorship_log s1), (authorship_log s). auto. }
  intros s2 HR2. unfold bind at 1, gets at 1. case_bool_decide; [exists (authorship_log s1), (authorship_log s2); auto|].
  remember (authorship_log s2) as log2 eqn:E2. symmetry in E2. revert s2 E2.
  eapply triple_bind; [eapply triple_weaken; [apply (words hunks2 log2 Hlater)|done|done|]|intros ?].
  { intros s Hs. exists (authorship_log s1), log2. auto. }
  apply triple_ret. intros s Hs. exists (authorship_log s1), log2. auto.
Qed.
End Whole.

Lemma from_weaken {A : Type} (allowed allowed' : str → Z → str → Prop) log (m : M A) :
  (∀ file l h, allowed file l h → allowed' file l h) → from (fills allowed) log m → from (fills allowed') log m.
Proof. intros Hw Hm. eapply triple_weaken; [exact Hm|done|..]; intros; by eapply fills_weaken. Qed.

(** *** When nothing answers *)

Section Silent.
Hypothesis no_calls : ∀ query window, bash_candidates_near query window = None.
Hypothesis no_events : ∀ access query window, session_events_near access query window = None.

Lemma silent_bash parent_sha commit_sha human hunks captured : relates eq (recover_bash_mtime parent_sha commit_sha human hunks captured).
Proof.
  intros log. unfold recover_bash_mtime. apply from_lift; [done|intros worktree _]. apply from_lift; [done|intros w _].
  apply from_gets. cbv zeta. case_bool_decide; [by apply from_ret|]. case_bool_decide; [by apply from_ret|]. rewrite no_calls.
  apply from_lift; [done|]. intros ? [= <-]. by apply from_ret.
Qed.

Lemma silent_events parent_sha commit_sha human hunks captured :
  relates eq (recover_session_event_mtime parent_sha commit_sha human hunks captured).
Proof.
  intros log. unfold recover_session_event_mtime. apply from_lift; [done|intros w _]. apply from_gets. cbv zeta.
  case_bool_decide; [by apply from_ret|]. case_bool_decide; [by apply from_ret|]. apply from_access. intros n. rewrite no_events.
  by intros s <-.
Qed.
End Silent.
End Steps.
End RecoveryFacts.

(** ** An example *)

Module RecoveryExample.
Import LineRange AuthorshipLog HashIter StateResult RecoverySources Recovery.
Import DiffCompute(result).

(** Claude ran a command at ten seconds in the worktree /w; the file f was
    written then, and the commit c adds its second line. *)
Definition claude : AgentId := mkAgentId (lit "claude") (lit "id") (lit "m").
Definition sample_call : BashCheckpointCall :=
  mkCall 1 [] (lit "/w") (Some (lit "/w")) None [] (lit "t") claude None None 10000000000 (Some 11000000000%N) None ∅.

Definition sample_env (calls : option (result (list BashCheckpointCall))) : RecoveryEnvironment := {|
  sha256_hex := λ content, content;
  random_indices := λ n, repeat (N.of_nat n mod 16)%N 14;
  now_secs := 0%N;
  workdir := Ret (lit "/w");
  worktree_root_for_path := λ _, None;
  canonicalize := λ _, None;
  symlink_metadata := λ _ _, Some (Some 10500000000%N, None);
  bash_candidates_near := λ _ _, calls;
  session_events_near := λ _ _ _, None;
  latest_session_events := λ _, None;
  resolve_repo_url := None;
  cached_copilot_model := λ _ _, None;
  git_show := λ _, Ret (lit "me" ++ [NUL] ++ lit "me@x" ++ [NUL] ++ lit "Co-authored-by: Claude <noreply@anthropic.com>");
  git_ls_tree := λ _, Ret [];
  compute_diff_trees_batch := λ _, Ret [DiffTree.empty_result];
  batch_read_paths_at_treeishes := λ _, Ret {[(lit "c^", lit "f") := lit "a" ++ [LF]; (lit "c", lit "f") := lit "a" ++ [LF] ++ lit "b" ++ [LF]]};
  log_metrics := λ _, Ret tt
|}.

Definition sample_raw : Hunks := {[lit "f" := [Single 2]]}.
Definition sample_context : AttributionRecoveryContext := mkContext None None None None.
Definition sample_log : AuthorshipLog :=
  mkLog [] (set_sessions (new_metadata (lit "1")) {[lit "s_known" := mkSessionRecord claude ∅ None None]}).
Definition sample_state : RecoveryState := mkState sample_log false 0 0 [].
Definition recovered (calls : option (result (list BashCheckpointCall))) : AuthorshipLog :=
  authorship_log (recover_attribution (engine := CoarseEngine.coarse_engine) (env := sample_env calls)
    (lit "p") (lit "c") (lit "me") sample_raw sample_context sample_state).1.

Lemma sample_raw_u32 file l : RecoveryRef.hunk_line sample_raw file l → is_u32 l.
Proof.
  intros (rs & Hr & Hl). unfold sample_raw in Hr. apply lookup_singleton_Some in Hr as [_ <-]. cbn in Hl. apply list_elem_of_singleton in Hl as ->. unfold is_u32, u32_max. lia.
Qed.
End RecoveryExample.

(** ** Properties *)

Module RecoveryProps.
Import LineRange AuthorshipLog ImaraDiff HashIter StateResult StateResultFacts RecoverySources Recovery RecoveryRef RecoveryFacts RecoveryExample.
Import DiffCompute(result).

Section Properties.
Context `{engine : !DiffEngine} `{env : RecoveryEnvironment}.

(** C2: recovery attributes a line only when it was added by the commit, is
    attested to nobody and was not protected, and only by evidence: a shell call
    of this worktree that ran when the file was written, or, when the line was
    not there before the edit, a session event in this repository within the
    window or an agent the commit names.  No attestation is lost, and no line
    gets two authors, whatever fails on the way. *)
Theorem recovery_needs_evidence (parent_sha commit_sha human : str) (raw : Hunks) (context : AttributionRecoveryContext) (s : RecoveryState) :
  (∀ file l, hunk_line raw file l → is_u32 l) →
  let before := authorship_log s in
  let after := authorship_log (recover_attribution parent_sha commit_sha human raw context s).1 in
  fills (λ file l h,
      hunk_line raw file l ∧ ¬ among (protected_lines context) file l ∧
      (bash_evidence (file_timestamps context) file h ∨
       ¬ among (preexisting_lines context) file l ∧ (event_evidence (file_timestamps context) file h ∨ commit_evidence commit_sha h)))
    before after.
Proof.
  intros Hu. cbv zeta. set (allowed := λ file l h, _ ∧ _).
  assert (relates (λ before after, ∃ m1 m2, fills allowed before m1 ∧ fills allowed m1 m2 ∧ fills allowed m2 after)
    (recover_attribution parent_sha commit_sha human raw context)) as H.
  { apply recover_spec; try (intros; apply fills_refl); [done|..].
    - intros hunks [Hh Hin] log. eapply from_weaken; [|by apply bash_stage]. intros file l h [Hl He].
      destruct (Hin file l Hl). split; [done|]. split; [done|by left].
    - intros hunks [[Hh Hin] Hp] log. eapply from_weaken; [|by apply event_stage]. intros file l h [Hl He].
      destruct (Hin file l Hl). split; [done|]. split; [done|]. right. split; [by apply Hp|by left].
    - intros hunks log [[Hh Hin] Hp]. eapply from_weaken; [|by apply commit_stage]. intros file l h (Hl & He & _).
      destruct (Hin file l Hl). split; [done|]. split; [done|]. right. split; [by apply Hp|by right]. }
  specialize (H (authorship_log s) s eq_refl). destruct (recover_attribution _ _ _ _ _ s) as [s' [?|?|]]; destruct H as (m1 & m2 & H1 & H2 & H3);
    by eapply fills_trans; [|eapply fills_trans].
Qed.

(** C40: when neither database can be asked nothing is made up: whatever the
    commit says, a recovered line is attributed to a session that the note
    already has. *)
Theorem busy_database_invents_nothing (parent_sha commit_sha human : str) (raw : Hunks) (context : AttributionRecoveryContext)
    (s : RecoveryState) :
  (∀ file l, hunk_line raw file l → is_u32 l) →
  (∀ query window, bash_candidates_near query window = None) →
  (∀ access query window, session_events_near access query window = None) →
  (∀ access ask tools, latest_session_events access = Some ask → ask tools = None) →
  let before := authorship_log s in
  fills (λ file l h, hunk_line raw file l ∧ ∃ session trace, h = author_of session trace ∧ is_Some (sessions (metadata before) !! session))
    before (authorship_log (recover_attribution parent_sha commit_sha human raw context s).1).
Proof.
  intros Hu Hb He Hl. cbv zeta. set (allowed := λ before file l h, hunk_line raw file l ∧ ∃ session trace, h = author_of session trace ∧
    is_Some (sessions (metadata before) !! session)). change (fills (allowed (authorship_log s)) (authorship_log s)
    (authorship_log (recover_attribution parent_sha commit_sha human raw context s).1)).
  assert (relates (λ before after, ∃ m1 m2, before = m1 ∧ m1 = m2 ∧ fills (allowed m2) m2 after)
    (recover_attribution parent_sha commit_sha human raw context)) as H.
  { apply (recover_spec _ _ _ _ _ Hu eq eq (λ m, fills (allowed m) m)); try done; [intros; apply fills_refl|..].
    - intros hunks _. by apply silent_bash.
    - intros hunks _. by apply silent_events.
    - intros hunks log [[Hh Hin] _]. eapply from_weaken; [|by apply commit_stage].
      intros file l h (Hline & _ & session & trace & -> & Hk). split; [by apply Hin|]. exists session, trace. split; [done|].
      destruct Hk as [?|[(a & q & w & Hx)|(a & ask & tools & Ha & Hx)]]; [done|..].
      + rewrite He in Hx. by destruct Hx.
      + rewrite (Hl a ask tools Ha) in Hx. by destruct Hx. }
  specialize (H (authorship_log s) s eq_refl). destruct (recover_attribution _ _ _ _ _ s) as [s' [?|?|]]; by destruct H as (m1 & m2 & -> & -> & H3).
Qed.
End Properties.
(** *** Witnesses *)

Lemma recovery_needs_evidence_witness :
  let env := sample_env (Some (Ret [sample_call])) in
  covers (recovered (Some (Ret [sample_call]))) (lit "f") (lit "s_claude:id::t_00000000000000") 2 ∧
  ¬ attested sample_log (lit "f") 2 ∧
  (bash_evidence None (lit "f") (lit "s_claude:id::t_00000000000000") ∨
   event_evidence None (lit "f") (lit "s_claude:id::t_00000000000000") ∨ commit_evidence (lit "c") (lit "s_claude:id::t_00000000000000")).
Proof.
  cbv zeta. assert (covers (recovered (Some (Ret [sample_call]))) (lit "f") (lit "s_claude:id::t_00000000000000") 2) as Hc.
  { exists (mkFile (lit "f") [mkEntry (lit "s_claude:id::t_00000000000000") [Single 2]]). split; [by vm_compute; left|]. split; [done|].
    eexists. split; [left|done]. }
  split; [exact Hc|].
  destruct (recovery_needs_evidence (engine := CoarseEngine.coarse_engine) (env := sample_env (Some (Ret [sample_call])))
    (lit "p") (lit "c") (lit "me") sample_raw sample_context sample_state sample_raw_u32) as (_ & H & _).
  destruct (H (lit "f") _ 2 Hc) as [(f & []%elem_of_nil & _)|[(_ & _ & He) Hn]]. split; [exact Hn|].
  destruct He as [?|[_ ?]]; [by left|by right].
Defined.

Lemma busy_database_invents_nothing_witness :
  covers (recovered None) (lit "f") (lit "s_known::t_00000000000000") 2 ∧
  ∃ session trace, lit "s_known::t_00000000000000" = author_of session trace ∧ is_Some (sessions (metadata sample_log) !! session).
Proof.
  assert (covers (recovered None) (lit "f") (lit "s_known::t_00000000000000") 2) as Hc.
  { exists (mkFile (lit "f") [mkEntry (lit "s_known::t_00000000000000") [Single 2]]). split; [by vm_compute; left|]. split; [done|].
    eexists. split; [left|done]. }
  split; [exact Hc|].
  destruct (busy_database_invents_nothing (engine := CoarseEngine.coarse_engine) (env := sample_env None)
    (lit "p") (lit "c") (lit "me") sample_raw sample_context sample_state sample_raw_u32
    ltac:(done) ltac:(done) ltac:(done)) as (_ & H & _).
  destruct (H (lit "f") _ 2 Hc) as [(f & []%elem_of_nil & _)|[(_ & He) _]]. exact He.
Defined.

End RecoveryProps.
